(* ===== verification/_CoqProject ===== *)
-Q . S2P
Prelude.v
Paths.v
Model.v
Clock.v
Ieee.v
IeeeExact.v
RateLimit.v
Scheduler.v
Planner.v
ConflictResolver.v
Transfers.v
Ingest.v
DiffEvents.v
Selective.v
Engine.v
Bytes.v
BinaryApi.v
Response.v
PageCache.v
FsShell.v
FilePages.v
Inodes.v
MetadataCache.v
WriteJournal.v
Breaker.v
PathNorm.v
Budget.v
Retry.v
ResilientTransport.v
TransportRuns.v
CryptoPrims.v
Modes.v
Sector.v
Base32.v
Filename.v
AuthTree.v
Workers.v
AuditLog.v
AuditVerifier.v
StateError.v
Staging.v
WritePath.v
UploadMock.v
FuseAdapter.v
FuseMock.v
FuseReads.v
FuseShim.v
ShimListing.v
StagingBudget.v
ChunkedFlush.v
StagedData.v
ShimSessions.v
ShimNames.v
UploadResume.v
UploadState.v
AuthApi.v
ChunkedDriver.v
DevAuth.v
Auth.v
AuthFlow.v
AuthInvariant.v
AuthTimers.v
Vault.v
AuthDaemon.v
AuthMock.v
AuthDurable.v
Retention.v
Files.v
UploadJournal.v
Snapshot.v
SyncApi.v
FileMetadata.v
SyncLoop.v
SyncRuntime.v
SyncWorld.v
SyncRuns.v
SyncCycle.v
