(* ===== verification/Prelude.v ===== *)
(** A verification library for pcloud-rs, a synchronisation client for the pCloud service.

    * The program

    The client keeps local folders ("sync roots") and remote folders in step.  Three sources
    report changes: the remote diff, a walk of the local tree and the file watcher.  They are
    normalised into candidates; the planner turns the candidates of a tick into one operation
    per path; the scheduler hands the operations out in fair batches; the upload and download
    coordinators carry them through their life; conflicts are resolved by a policy.  The engine
    shell owns all of these; the daemon's sync loop drives it, saves a durable snapshot of the
    work that is not acknowledged and restores it after a restart; background workers rescan the
    roots, watch for stalls and re-plan divergences.  Below the engine, requests and responses
    travel over a binary protocol guarded by a circuit breaker; beside it, a FUSE file system decodes the
    kernel's requests, answers them from an inode table, a metadata cache and a page cache, and
    stages written bytes on disk, records them in a write-ahead journal and uploads them.  Files
    and names of encrypted folders are enciphered sector by sector under an authentication tree,
    and security events go to a hash-chained audit log that a scheduled verifier walks.  All of
    it needs a session: a password, a second factor or a stored token is exchanged for an auth
    token, which a timer refreshes and a vault keeps across restarts.  Operators back the daemon's
    state up in snapshot archives, which a retention policy prunes.

    * Files (names under crates/ of the repository)

    - Prelude: [result] and its notation [let?], comparators with their laws ([CmpLaws]), the
      stable [sort_by] with its uniqueness theorem, machine integers, the hint databases
      [pcloud], shared list lemmas.
    - Paths: the string operations of the standard library that the sources use, [basename] and
      [is_valid_relative_path] (pcloud-engine/src/lib.rs).
    - Model: pcloud-model/src/{sync,conflict,transfer,auth}.rs.
    - Clock: [Duration] and [Instant] of the standard library as nanoseconds.
    - Ieee: the arithmetic and conversions of f32 and f64, on SpecFloat.  IeeeExact: the order,
      the exact operations and the rounding bounds of f64, as integers.
    - Scheduler: pcloud-engine/src/scheduler.rs.  Batches are fair between roots and bounded;
      every operation is handed out exactly once; acknowledgement removes the right keys.
    - Planner: pcloud-engine/src/planner.rs.  The index loop equals a reference on the groups of
      a sorted list; ticks over the overflow plan everything; plans are justified; the delete
      policy is respected.
    - ConflictResolver: pcloud-engine/src/{conflict_resolver,recovery}.rs.
    - Transfers: pcloud-engine/src/transfers/{uploads,downloads}.rs and the chunk loop of
      pcloud-daemon/src/transfer_bridge.rs; [TransferCoordinator] is the interface both
      coordinators implement and the engine's lemmas use.
    - Ingest: pcloud-engine/src/{diff_poller,local_scan,fs_events}.rs.
    - DiffEvents: pcloud-engine/src/diff_events.rs, for every dispatcher.
    - Selective: pcloud-engine/src/selective.rs, over an interface to the glob matcher.
    - Engine: EngineShell of pcloud-engine/src/lib.rs as a transition system ([EngineCall],
      [engine_call], [engine_run]), with the restart of
      pcloud-daemon/src/sync_loop_runtime.rs.  Its invariant, the completeness of the durable
      snapshot, and the survival of unacknowledged work across any run with crashes.
    - Bytes: little-endian integers and UTF-8 decoding.
    - BinaryApi: pcloud-proto/src/binary_api.rs; the encoder against a reference decoder of the
      documented layout.
    - Response: pcloud-proto/src/response.rs; totality and bounds, and the grammar of the wire format,
      which the parser reads exactly (soundness and completeness).
    - PageCache: pcloud-cache/src/page_cache.rs over an interface to linked-hash-map; it refines
      a bounded queue.
    - Inodes: pcloud-fs/src/inode.rs; runs of lock sections in any order, the map invariant and
      that numbers are not reused.
    - WriteJournal: pcloud-fs/src/write_journal.rs over an interface to the record codec; replay
      after a crash at any byte.
    - Breaker: pcloud-resilience/src/circuit_breaker.rs; refinement of a three-state automaton
      under any clock and interleaving.
    - RateLimit: pcloud-resilience/src/rate_limit.rs; the bounds on bursts and on the rate, with
      the rounding of f64.
    - PathNorm: pcloud-fs/src/path_norm.rs; canonical forms, children and parents.
    - Budget: pcloud-resilience/src/global_budget.rs as an interleaving of atomic operations; the
      bound on the retries of all threads.
    - Retry: pcloud-resilience/src/retry.rs; the attempt budget, the exponential delay and its
      bounds for any precision of [powi].
    - ResilientTransport: pcloud-proto/src/resilient_transport.rs, whose [execute] is a program of
      atomic operations on bucket, breaker and budget.  TransportRuns: any threads interleaved;
      what a call returns, how often and how fast the endpoint is called, and its recovery.
    - UploadState: pcloud-backends/src/upload_state.rs over the table of
      pcloud-store/src/repositories/upload_resume.rs; safety of resuming after a kill between
      any two effects, the bound on network calls, termination with an undisturbed driver
      ([UndisturbedDriver]).
    - ChunkedDriver: the driver of these uploads that talks to the service, and
      upload_bytes_chunked, of pcloud-backends/src/transfer_backend.rs, with the requests of
      pcloud-proto/src/methods/upload.rs.  An upload completes on a service that keeps to the
      contract [UploadService]; a row whose session holds other bytes blocks the file.
    - Retention: the pruning of pcloud-backends/src/snapshot.rs; which archives are deleted whatever
      fails, and what is left after any number of nights.
    - Files: a disk of files whose system calls may fail, with a rule per call.
    - UploadJournal: pcloud-backends/src/upload_journal.rs; what replay returns after any appends
      with any failures.
    - Snapshot: the rest of snapshot.rs and the daemon's request of pcloud-daemon/src/runtime.rs.
      What was created verifies and can be restored; what a failing restore leaves behind.
    - SyncApi: pcloud-proto/src/sync_api.rs with methods/diff.rs and the diff of
      pcloud-backends/src/sync_backend.rs; the answer of a server reads back.
    - FileMetadata: the tables of pcloud-store/src/repositories/{file_metadata,diff_state,
      sync_graph,values}.rs that the sync loop uses; [Database] is the interface to SQLite, whose
      statements may fail.
    - SyncLoop: pcloud-daemon/src/sync_loop.rs.  The loop thread as steps on the state it shares
      with the IPC thread, over any runtime ([SyncLoopRuntime]); shutdown, pause and wake in every
      interleaving, and what is preserved by every call is preserved by the loop ([Preserves]).
    - SyncRuntime: pcloud-daemon/src/sync_loop_runtime.rs, the runtime of the loop, its start from
      the database, and the daemon around it ([daemon_run]: loop and IPC turns, crashes, starts).
      A ghost field records the downloads and uploads for the theorems.  SyncWorld: what the
      services promise, and a world for the witnesses.
    - SyncRuns: where the bytes of an upload come from and to which folder it goes, over any life of
      the daemon.  SyncCycle: every outcome of a poll, the scan after it, the cursors, and a
      daemon that starts logged out.
    - CryptoPrims, Modes, Sector: the shared loops, pclsync_modes.rs and pclsync_sector.rs of
      pcloud-crypto/src.  Counter mode equals a bytewise keystream at any offset, ciphertext
      stealing is inverted, opening a sector succeeds exactly on the sealings.
    - Base32, Filename: pclsync_filename.rs.  The two bit loops against RFC 4648; encoded names
      survive the round trip.
    - AuthTree: pclsync_auth_tree.rs.  The built tree verifies, and only the leaves it was built
      from do.
    - Workers: pcloud-engine/src/{reconcile_worker,stall_detector,divergence_sweeper,power}.rs.
    - AuditLog, AuditVerifier: pcloud-store/src/repositories/audit.rs and
      pcloud-daemon/src/audit_verifier_service.rs.  What a verified chain determines, what the
      verifier overlooks, and what a history of scheduled ticks reports.
    - FsShell: pcloud-cache/src/staging.rs and pcloud-fs/src/{journal,writeback,mount,read_path,
      lib}.rs, with the daemon's reading of an upload payload.  Reads of staged files return
      their bytes while the cached windows are current; what happens when a path is staged again.
    - MetadataCache, FilePages: pcloud-fs/src/{metadata_cache,page_cache}.rs.  Both refine lists
      ordered by use; the lru crate is the interface [LruMap].
    - FuseAdapter: ProtoFuseAdapter of pcloud-fs/src/fuse_adapter.rs over the traits of backend.rs
      ([FolderBackend], [FileBackend]) and the service of WritePath.  FuseMock has the backends of
      the source's tests.  FuseReads: a read returns the bytes of the remote file, and open
      handles share one backend handle per inode.
    - FuseShim: pcloud-fs/src/fuser_shim.rs, every callback of the fuser crate.  The theorems are
      in ShimListing (listing a directory in several requests), ShimSessions (open, write and
      flush end to end against the contract [WholeFileLaws]; what reads of a written file see)
      and ShimNames (renames and first look-ups).
    - StateError: the monad of the file system's methods, its weakest preconditions and tactics.
    - Staging, WritePath: pcloud-fs/src/{staging,write_path,errors}.rs, every call of the
      service.  The theorems about it are in four files: StagingBudget (the ceilings on dirty
      bytes and the process-wide counter, over any calls and any failures), ChunkedFlush (the
      published blob, termination, and what a resumed session publishes), StagedData (an
      acknowledged write is staged and journalled, and reads back), UploadResume (the sidecars
      reconciled at startup).  UploadMock has the concrete interfaces of the witnesses.
    - AuthApi: pcloud-proto/src/auth_api.rs and methods/auth.rs over any transport
      ([ProtocolTransport], [ProtocolMethod]); every request decodes to its parameters.
      DevAuth: the development server of pcloud-backends/src/auth_backend.rs.
    - Auth: the session manager, its timers and the refresh coordinator (pcloud-auth/src/{manager,
      lifecycle,refresh,...}.rs) and the policy of pcloud-daemon/src/session_refresh.rs.
      AuthFlow: pcloud-auth/src/orchestrator.rs and pcloud-session/src/refresh_loop.rs.
      AuthInvariant: the session stays well formed in every flow; an account is known only next to a
      token.  AuthTimers: a session is kept
      alive by its ticks, and when it is not.
    - Vault: pcloud-daemon/src/{vault/mod,vault/file,auth_vault}.rs; the contract of a backend
      ([VaultLaws]), kept by the file vault under any failure of any system call.
    - AuthDaemon: the session's requests in pcloud-daemon/src/{runtime,serve}.rs and the startup
      in bootstrap.rs; AuthDurable: what is on disk after a request and a restart, against
      [VaultLaws]; AuthMock has the concrete disk and server of the witnesses.

    * Conventions

    A struct is a [Record], an enum an [Inductive]; a method is a function from the state to
    its result and the new state; an [Err] is a value of [result], a panic is [None].  Machine
    integers are [N], with the wrapping, saturation or check of the source at each operation; a
    [usize] is 64 bits wide where that matters and a length ([nat]) elsewhere.  A Rust string is
    its UTF-8 bytes.  Third-party code (the glob matcher, the linked hash map, serde_json, AES,
    SHA-1, SHA-256 and the two HMACs, tar, zstd, gpg, SQLite), the file system's modification
    times and the clock are class methods or arguments, and each class used by a theorem has an
    instance in its file or in AuthMock, UploadMock, FuseMock and SyncWorld.  A system call of the write
    path takes the next outcome of a list, and a statement of the database and a request of the
    sync loop may fail at any time, so that every failure is covered; the order in which a hash
    map or a directory is walked is an argument.  A method that threads state through fallible
    calls is a function of [ST] (StateError): leaving it early keeps the changes made so far.  The calls of one
    write-path service, and the requests of one mount, are taken one at a time.  A mutex makes its
    critical sections atomic, so concurrent code is a run of critical sections in any order; lock-free
    code is a run of atomic operations on one location, on which all threads agree.

    * Fuel

    Loops that are not structural take fuel, and the amount given is proved to be enough:
    [plan_loop] the number of candidates ([plan_loop_spec]), [evict_loop] one more than the
    number of entries ([evict_loop_spec]), [replay_loop] one more than the number of bytes
    ([replay_loop_fuel]), the UTF-8 loops the number of bytes ([valid_loop_fuel]),
    [chunk_loop] the bytes left to upload ([chunk_loop_fuel]), [read_pages] one more than the
    bytes asked for ([read_pages_spec]), [read_whole_file] the chunks of the file and one more
    ([read_whole_file_spec]), [read_loop] one more than the bytes asked for
    ([read_staged_path_spec]), [evict_until_fits_loop] one more than the number of pages,
    a directory listing one more than the children ([list_rest]),
    an upload's fuel is the number of effects before the process is killed
    ([chunked_upload_completes] gives an amount that suffices while the service is undisturbed), and
    [parse_value] a bound from the frame length ([parse_response_total]: it is never exhausted).

    * Outside the model

    Network, disk and database I/O, process wiring, user interfaces, the primitives of
    cryptography, metrics and logging; mounting and the platform layers of other systems,
    identity providers.  The path resolver of pcloud-backends, the lease of the high-availability mode and the
    checks of paths at the IPC boundary are not modelled. *)
From stdpp Require Export base numbers option list gmap sets strings sorting.
From Stdlib Require Export NArith Lia Ascii.

(** * Notations *)

Declare Scope pcloud_scope.
Delimit Scope pcloud_scope with pc.
Open Scope pcloud_scope.

(** * Fallible code: Rust's [Result] *)

Inductive result (A E : Type) : Type :=
| Ok (a : A)
| Err (e : E).
Arguments Ok {A E} a.
Arguments Err {A E} e.

Definition result_bind {A B E} (m : result A E) (f : A -> result B E) : result B E :=
  match m with Ok a => f a | Err e => Err e end.

(** [let? x := c1 in c2] is Rust's [let x = c1?; c2]. *)
Notation "'let?' p ':=' c1 'in' c2" := (result_bind c1 (fun p => c2))
  (at level 10, p pattern, c1 at level 200, c2 at level 200)
  : pcloud_scope.

Definition ok_or {A E} (o : option A) (e : E) : result A E :=
  match o with Some a => Ok a | None => Err e end.

Definition is_ok {A E} (r : result A E) : bool :=
  match r with Ok _ => true | Err _ => false end.

(** [iter.map(f).collect::<Result<Vec<_>, _>>()]: the first error wins. *)
Fixpoint collect_results {A B E} (f : A -> result B E) (l : list A) : result (list B) E :=
  match l with
  | [] => Ok []
  | x :: l' => let? y := f x in let? ys := collect_results f l' in Ok (y :: ys)
  end.

(** * Proof automation *)

Create HintDb pcloud.
Create Rewrite HintDb pcloud.

(** Break every [match]/[if]/[let] of the goal and hypotheses, keeping the equations. *)
Ltac split_matches :=
  repeat (case_match || case_decide || case_bool_decide); simplify_eq/=.

Ltac destruct_result r :=
  let E := fresh "E" in destruct r eqn:E; simpl in *; try discriminate.

Lemma result_bind_ok {A B E} (m : result A E) (f : A -> result B E) b :
  result_bind m f = Ok b <-> exists a, m = Ok a /\ f a = Ok b.
Proof.
  destruct m as [x|e]; simpl; split; [eauto|by intros (? & [= <-] & ?)|done|by intros (? & ? & ?)].
Qed.

Lemma collect_results_ok {A B E} (f : A -> result B E) l ys :
  collect_results f l = Ok ys <-> Forall2 (fun x y => f x = Ok y) l ys.
Proof.
  revert ys; induction l as [|x l IH]; intros ys; simpl.
  - split; [intros [= <-]; constructor|by inversion 1].
  - rewrite result_bind_ok; setoid_rewrite result_bind_ok; setoid_rewrite IH.
    split.
    + intros (y & Hy & ys' & Hys & [= <-]); by constructor.
    + inversion 1; subst; eauto.
Qed.

Lemma collect_results_err {A B E} (f : A -> result B E) l e :
  collect_results f l = Err e ->
  exists l1 x l2, l = l1 ++ x :: l2 /\ f x = Err e /\ Forall (fun z => is_ok (f z) = true) l1.
Proof.
  induction l as [|x l IH]; simpl; [done|].
  destruct (f x) as [y|e'] eqn:Hx; simpl.
  - destruct (collect_results f l); simpl; [done|]; intros [= ->].
    destruct IH as (l1 & z & l2 & -> & Hz & Hall); [done|].
    exists (x :: l1), z, l2; repeat split; [done|]. constructor; [by rewrite Hx|done].
  - intros [= ->]. exists [], x, l. by repeat split.
Qed.

(** * Orderings: Rust's [Ord::cmp], [Ordering::then] and [sort_by] *)

(** The laws a comparator passed to [sort_by] must satisfy (a total preorder). *)
Class CmpLaws {A} (cmp : A -> A -> comparison) : Prop := {
  cmp_flip x y : cmp y x = CompOpp (cmp x y);
  cmp_lt_trans x y z : cmp x y = Lt -> cmp y z = Lt -> cmp x z = Lt;
  cmp_eq_l x y z : cmp x y = Eq -> cmp x z = cmp y z;
}.

(** [Ordering::then]. *)
Definition cmp_then (c1 c2 : comparison) : comparison :=
  match c1 with Eq => c2 | _ => c1 end.

Definition cmp_by {A B} (f : A -> B) (cmp : B -> B -> comparison) (x y : A) : comparison :=
  cmp (f x) (f y).

Definition cmp_lex {A} (c1 c2 : A -> A -> comparison) (x y : A) : comparison :=
  cmp_then (c1 x y) (c2 x y).

(** [cmp x y != Ordering::Greater]. *)
Definition cmp_le {A} (cmp : A -> A -> comparison) (x y : A) : Prop := cmp x y <> Gt.

#[export] Instance cmp_le_dec {A} (cmp : A -> A -> comparison) x y : Decision (cmp_le cmp x y).
Proof. unfold cmp_le; destruct (cmp x y); [left|left|right]; congruence. Defined.

Section CmpFacts.
Context {A : Type} (cmp : A -> A -> comparison) `{!CmpLaws cmp}.

Lemma cmp_refl x : cmp x x = Eq.
Proof. pose proof (cmp_flip (cmp:=cmp) x x); destruct (cmp x x); done. Qed.

Lemma cmp_eq_sym x y : cmp x y = Eq -> cmp y x = Eq.
Proof. intros H. by rewrite (cmp_flip (cmp:=cmp) x y), H. Qed.

Lemma cmp_eq_r x y z : cmp x y = Eq -> cmp z x = cmp z y.
Proof. intros H. rewrite (cmp_flip (cmp:=cmp) x z), (cmp_flip (cmp:=cmp) y z). by rewrite (cmp_eq_l (cmp:=cmp) x y z H). Qed.

#[export] Instance cmp_le_trans : Transitive (cmp_le cmp).
Proof.
  unfold cmp_le; intros x y z H1 H2.
  destruct (cmp x y) eqn:Exy; [by rewrite (cmp_eq_l (cmp:=cmp) x y z)| |done].
  destruct (cmp y z) eqn:Eyz; [by rewrite <- (cmp_eq_r y z x Eyz), Exy| |done].
  by rewrite (cmp_lt_trans (cmp:=cmp) x y z).
Qed.

#[export] Instance cmp_le_total : Total (cmp_le cmp).
Proof.
  unfold cmp_le; intros x y. rewrite (cmp_flip (cmp:=cmp) x y).
  destruct (cmp x y); simpl; [left|left|right]; done.
Qed.

Lemma cmp_le_antisym x y : cmp_le cmp x y -> cmp_le cmp y x -> cmp x y = Eq.
Proof.
  unfold cmp_le; rewrite (cmp_flip (cmp:=cmp) x y). by destruct (cmp x y).
Qed.
End CmpFacts.

#[export] Instance cmp_by_laws {A B} (f : A -> B) cmp `{!CmpLaws cmp} : CmpLaws (cmp_by f cmp).
Proof.
  unfold cmp_by; split; intros *; [apply cmp_flip|apply cmp_lt_trans|apply cmp_eq_l].
Qed.

#[export] Instance cmp_lex_laws {A} (c1 c2 : A -> A -> comparison)
  `{!CmpLaws c1, !CmpLaws c2} : CmpLaws (cmp_lex c1 c2).
Proof.
  unfold cmp_lex, cmp_then; split.
  - intros x y. rewrite (cmp_flip (cmp:=c1) x y), (cmp_flip (cmp:=c2) x y). by destruct (c1 x y).
  - intros x y z H1 H2.
    destruct (c1 x y) eqn:E1, (c1 y z) eqn:E2; try done.
    + rewrite (cmp_eq_l (cmp:=c1) x y z E1), E2. eapply cmp_lt_trans; eauto.
    + by rewrite (cmp_eq_l (cmp:=c1) x y z E1), E2.
    + by rewrite <- (cmp_eq_r c1 y z x E2), E1.
    + by rewrite (cmp_lt_trans (cmp:=c1) x y z).
  - intros x y z H. destruct (c1 x y) eqn:E1; try done.
    rewrite (cmp_eq_l (cmp:=c1) x y z E1). by rewrite (cmp_eq_l (cmp:=c2) x y z H).
Qed.

#[export] Instance N_compare_laws : CmpLaws N.compare.
Proof.
  split; intros x y.
  - apply N.compare_antisym.
  - intros z. rewrite !N.compare_lt_iff. lia.
  - intros z. rewrite N.compare_eq_iff. by intros ->.
Qed.

Lemma ascii_compare_N c d : Ascii.compare c d = N.compare (Ascii.N_of_ascii c) (Ascii.N_of_ascii d).
Proof. done. Qed.

#[export] Instance string_compare_laws : CmpLaws String.compare.
Proof.
  split.
  - intros x y. apply String.compare_antisym.
  - intros x; induction x as [|c x IH]; intros [|d y] [|e z]; simpl; try done.
    rewrite !ascii_compare_N.
    destruct (N.compare_spec (Ascii.N_of_ascii c) (Ascii.N_of_ascii d)) as [E1|E1|E1];
    destruct (N.compare_spec (Ascii.N_of_ascii d) (Ascii.N_of_ascii e)) as [E2|E2|E2]; try done.
    + rewrite E1, E2, N.compare_refl. apply IH.
    + rewrite E1. apply N.compare_lt_iff in E2. by rewrite E2.
    + rewrite <- E2. apply N.compare_lt_iff in E1. by rewrite E1.
    + assert (Hlt : (Ascii.N_of_ascii c < Ascii.N_of_ascii e)%N) by lia.
      apply N.compare_lt_iff in Hlt. by rewrite Hlt.
  - intros x y z H. apply String.compare_eq_iff in H. by subst.
Qed.

(** * Rust's stable [sort_by]

    Insertion sort; [sort_by_unique] shows that every stable sort returns this list, so the
    choice of algorithm does not matter. *)

#[export] Instance comparison_eq_dec : EqDecision comparison.
Proof. solve_decision. Defined.

Lemma sublist_sorted {A} (R : relation A) l1 l2 :
  l1 `sublist_of` l2 -> StronglySorted R l2 -> StronglySorted R l1.
Proof.
  induction 1 as [|x l1 l2 Hsub IH|x l1 l2 Hsub IH]; [done| |];
    inversion 1 as [|? ? Hs Hall]; subst; [|by apply IH].
  constructor; [by apply IH|]. apply Forall_forall. intros y Hy.
  eapply Forall_forall in Hall; [done|]. by eapply elem_of_sublist.
Qed.

Lemma filter_comm {A} (P Q : A -> Prop) `{!forall x, Decision (P x), !forall x, Decision (Q x)} (l : list A) :
  filter Q (filter P l) = filter P (filter Q l).
Proof.
  induction l as [|x l IH]; [done|]. rewrite !filter_cons.
  destruct (decide (P x)) eqn:HP, (decide (Q x)) eqn:HQ; simpl; rewrite ?filter_cons, ?HP, ?HQ;
    by rewrite ?IH.
Qed.

Lemma filter_none {A} (P : A -> Prop) `{!forall x, Decision (P x)} (l : list A) :
  (forall x, x ∈ l -> ~ P x) -> filter P l = [].
Proof.
  induction l as [|x l IH]; intros Hl; [done|].
  rewrite filter_cons, decide_False by (apply Hl; left). apply IH. intros y Hy. apply Hl. by right.
Qed.

Lemma filter_all {A} (P : A -> Prop) `{!forall x, Decision (P x)} (l : list A) :
  (forall x, x ∈ l -> P x) -> filter P l = l.
Proof.
  induction l as [|x l IH]; intros Hl; [done|].
  rewrite filter_cons, decide_True by (apply Hl; left). f_equal. apply IH. intros y Hy. apply Hl. by right.
Qed.

Lemma filter_ext_in {A} (P Q : A -> Prop) `{!forall x, Decision (P x), !forall x, Decision (Q x)} (l : list A) :
  (forall x, x ∈ l -> P x <-> Q x) -> filter P l = filter Q l.
Proof.
  induction l as [|x l IH]; intros Hl; [done|]. rewrite !filter_cons, IH by (intros; apply Hl; by right).
  destruct (Hl x) as [H1 H2]; [by left|]. repeat case_decide; naive_solver.
Qed.

Lemma omap_ext_in {A B} (f g : A -> option B) (l : list A) :
  (forall x, x ∈ l -> f x = g x) -> omap f l = omap g l.
Proof.
  induction l as [|x l IH]; intros Hl; csimpl; [done|].
  rewrite (Hl x) by left. rewrite IH; [done|]. intros y Hy. apply Hl. by right.
Qed.

Section StableSort.
Context {A : Type} (cmp : A -> A -> comparison).

Fixpoint sort_insert (x : A) (l : list A) : list A :=
  match l with
  | [] => [x]
  | y :: l' => if decide (cmp_le cmp x y) then x :: l else y :: sort_insert x l'
  end.

Fixpoint sort_by (l : list A) : list A :=
  match l with
  | [] => []
  | x :: l' => sort_insert x (sort_by l')
  end.

Lemma sort_insert_perm x l : sort_insert x l ≡ₚ x :: l.
Proof.
  induction l as [|y l IH]; simpl; [done|]. case_decide; [done|].
  rewrite IH. apply Permutation_swap.
Qed.

Lemma sort_by_perm l : sort_by l ≡ₚ l.
Proof. induction l as [|x l IH]; simpl; [done|]. by rewrite sort_insert_perm, IH. Qed.

Lemma sort_by_length l : length (sort_by l) = length l.
Proof. by rewrite sort_by_perm. Qed.

Lemma sort_by_sorted_id l : StronglySorted (cmp_le cmp) l -> sort_by l = l.
Proof.
  induction 1 as [|x l Hs IH Hall]; simpl; [done|]. rewrite IH.
  destruct Hall as [|y l Hy _]; simpl; [done|]. by rewrite decide_True.
Qed.

Context `{!CmpLaws cmp}.

Lemma sort_insert_sorted x l :
  StronglySorted (cmp_le cmp) l -> StronglySorted (cmp_le cmp) (sort_insert x l).
Proof.
  induction 1 as [|y l Hs IH Hall]; simpl; [by repeat constructor|].
  case_decide as Hxy.
  - constructor; [by constructor|]. constructor; [done|].
    eapply Forall_impl; [exact Hall|]. intros z Hz. by apply (cmp_le_trans cmp x y z).
  - constructor; [done|]. rewrite sort_insert_perm. constructor; [|done].
    by destruct (cmp_le_total cmp x y).
Qed.

Lemma sort_by_sorted l : StronglySorted (cmp_le cmp) (sort_by l).
Proof. induction l; simpl; [constructor|]. by apply sort_insert_sorted. Qed.

Lemma sort_by_idemp l : sort_by (sort_by l) = sort_by l.
Proof. apply sort_by_sorted_id, sort_by_sorted. Qed.

Lemma sort_insert_class x y l :
  filter (λ z, cmp x z = Eq) (sort_insert y l) = filter (λ z, cmp x z = Eq) (y :: l).
Proof.
  induction l as [|z l IH]; simpl; [done|]. case_decide as Hle; [done|].
  rewrite filter_cons, IH. rewrite !filter_cons.
  destruct (decide (cmp x z = Eq)) as [Hz|Hz], (decide (cmp x y = Eq)) as [Hy|Hy]; try done.
  destruct Hle. unfold cmp_le. rewrite <- (cmp_eq_l (cmp:=cmp) x y z Hy). by rewrite Hz.
Qed.

(** Stability: equivalent elements keep their order. *)
Lemma sort_by_class x l :
  filter (λ z, cmp x z = Eq) (sort_by l) = filter (λ z, cmp x z = Eq) l.
Proof.
  induction l as [|y l IH]; simpl; [done|].
  by rewrite sort_insert_class, !filter_cons, IH.
Qed.

Lemma sorted_head_le x y l :
  StronglySorted (cmp_le cmp) (x :: l) -> y ∈ x :: l -> cmp_le cmp x y.
Proof.
  inversion 1 as [|? ? _ Hall]; subst. intros [->|Hy]%elem_of_cons.
  - unfold cmp_le. by rewrite cmp_refl.
  - by eapply Forall_forall in Hall.
Qed.

Lemma class_head x l l' :
  (forall y, filter (λ z, cmp y z = Eq) (x :: l) = filter (λ z, cmp y z = Eq) l') -> x ∈ l'.
Proof.
  intros H. specialize (H x). rewrite filter_cons, decide_True in H by apply (cmp_refl cmp).
  assert (x ∈ filter (λ z, cmp x z = Eq) l') as Hin by (rewrite <- H; left).
  by apply list_elem_of_filter in Hin as [_ Hin].
Qed.

Lemma stable_sorted_unique l1 l2 :
  StronglySorted (cmp_le cmp) l1 -> StronglySorted (cmp_le cmp) l2 ->
  (forall x, filter (λ z, cmp x z = Eq) l1 = filter (λ z, cmp x z = Eq) l2) ->
  l1 = l2.
Proof.
  revert l2; induction l1 as [|x l1 IH]; intros [|y l2] Hs1 Hs2 Hcls; [done| | |].
  - specialize (Hcls y). rewrite filter_cons, decide_True in Hcls by apply (cmp_refl cmp). done.
  - specialize (Hcls x). rewrite filter_cons, decide_True in Hcls by apply (cmp_refl cmp). done.
  - assert (cmp x y = Eq) as Hxy.
    { apply (cmp_le_antisym cmp).
      - apply (sorted_head_le x y l1 Hs1), (class_head y l2). intros z. symmetry. apply Hcls.
      - apply (sorted_head_le y x l2 Hs2), (class_head x l1). exact Hcls. }
    assert (x = y) as <-.
    { pose proof (Hcls x) as H. rewrite !filter_cons, !decide_True in H; [congruence|done|].
      apply (cmp_refl cmp). }
    f_equal. inversion Hs1; inversion Hs2; subst. apply IH; [done..|].
    intros z. specialize (Hcls z). rewrite !filter_cons in Hcls.
    destruct (decide (cmp z x = Eq)); congruence.
Qed.

(** Whatever stable sorting algorithm the standard library uses, it returns [sort_by l]. *)
Lemma sort_by_unique l l' :
  StronglySorted (cmp_le cmp) l' ->
  (forall x, filter (λ z, cmp x z = Eq) l' = filter (λ z, cmp x z = Eq) l) ->
  l' = sort_by l.
Proof.
  intros Hs Hcls. apply stable_sorted_unique; [done|apply sort_by_sorted|].
  intros x. by rewrite sort_by_class.
Qed.

Lemma elem_of_sort_by x l : x ∈ sort_by l <-> x ∈ l.
Proof. by rewrite sort_by_perm. Qed.

(** Sorting then keeping some elements is keeping them, then sorting. *)
Lemma sort_by_filter (P : A -> Prop) `{!forall x, Decision (P x)} (l : list A) :
  filter P (sort_by l) = sort_by (filter P l).
Proof.
  apply sort_by_unique.
  - eapply sublist_sorted; [apply sublist_filter|apply sort_by_sorted].
  - intros x. rewrite (filter_comm P), sort_by_class. apply filter_comm.
Qed.
End StableSort.

#[export] Hint Resolve sort_by_sorted sort_by_perm : pcloud.
#[export] Hint Rewrite @sort_by_length @elem_of_sort_by @sort_by_idemp using typeclasses eauto : pcloud.

(** * [Vec::dedup_by] *)

(** [Vec::dedup_by]: an element equal to the last one kept is dropped. *)
Fixpoint dedup_from {A} (same : A -> A -> bool) (kept : A) (l : list A) : list A :=
  match l with
  | [] => []
  | x :: l' => if same x kept then dedup_from same kept l' else x :: dedup_from same x l'
  end.

Definition dedup_by {A} (same : A -> A -> bool) (l : list A) : list A :=
  match l with [] => [] | x :: l' => x :: dedup_from same x l' end.

Section Dedup.
Context {A : Type} (cmp : A -> A -> comparison) `{!CmpLaws cmp} (same : A -> A -> bool).
Context (same_eq : forall x y, cmp x y = Eq -> same y x = true).

Definition cmp_lt (x y : A) : Prop := cmp x y = Lt.

Lemma dedup_from_sublist kept l : dedup_from same kept l `sublist_of` l.
Proof.
  revert kept; induction l as [|x l IH]; intros kept; simpl; [constructor|].
  destruct (same x kept); constructor; apply IH.
Qed.

Lemma dedup_by_sublist l : dedup_by same l `sublist_of` l.
Proof. destruct l; simpl; [constructor|]. constructor. apply dedup_from_sublist. Qed.

(** Removing adjacent duplicates from a sorted list leaves a strictly sorted list. *)
Lemma dedup_from_strict kept l :
  StronglySorted (cmp_le cmp) (kept :: l) -> StronglySorted cmp_lt (kept :: dedup_from same kept l).
Proof.
  revert kept; induction l as [|x l IH]; intros kept Hs; simpl; [repeat constructor|].
  apply StronglySorted_inv in Hs as [Hs Hall].
  apply StronglySorted_inv in Hs as [Hs Hx]. apply Forall_cons in Hall as [Hkx Hall].
  destruct (same x kept) eqn:Hsame.
  - apply IH. by constructor.
  - assert (cmp kept x = Lt) as Hlt.
    { unfold cmp_le in Hkx. destruct (cmp kept x) eqn:E; [|done|done].
      apply same_eq in E. congruence. }
    pose proof (IH x (SSorted_cons _ Hs Hx)) as Hd. constructor; [done|].
    apply StronglySorted_inv in Hd as [_ Hd]. constructor; [done|].
    eapply Forall_impl; [exact Hd|]. intros y Hy. by eapply (cmp_lt_trans (cmp:=cmp)).
Qed.

Lemma dedup_by_strict l :
  StronglySorted (cmp_le cmp) l -> StronglySorted cmp_lt (dedup_by same l).
Proof. destruct l; simpl; [constructor|]. apply dedup_from_strict. Qed.
End Dedup.

(** [Vec::dedup] keeps one of each value of a sorted list. *)
Lemma elem_of_dedup_from {A} `{EqDecision A} (kept x : A) l :
  x ∈ kept :: dedup_from (λ a b, bool_decide (a = b)) kept l <-> x ∈ kept :: l.
Proof.
  revert kept; induction l as [|y l IH]; intros kept; [done|]. simpl. case_bool_decide as Hy.
  - subst y. rewrite IH, !elem_of_cons. tauto.
  - rewrite elem_of_cons, IH, !elem_of_cons. tauto.
Qed.

Lemma elem_of_dedup_by {A} `{EqDecision A} (x : A) l :
  x ∈ dedup_by (λ a b, bool_decide (a = b)) l <-> x ∈ l.
Proof. destruct l; [done|]. apply elem_of_dedup_from. Qed.

(** * Runs of a machine *)

(** The replies to a list of calls, and the state they leave. *)
Fixpoint replies {S C R} (step : S -> C -> R * S) (s : S) (calls : list C) : list R :=
  match calls with
  | [] => []
  | call :: calls' => let '(r, s') := step s call in r :: replies step s' calls'
  end.

Definition run_calls {S C R} (step : S -> C -> R * S) (s : S) (calls : list C) : S :=
  foldl (λ s call, (step s call).2) s calls.

(** A machine whose calls are simulated by those of an abstract machine gives its replies.  The
    invariant may count the calls that are still allowed. *)
Lemma simulated_run {S A C R} (step : S -> C -> R * S) (astep : A -> C -> R * A) (abs : S -> A)
    (Inv : nat -> S -> Prop) (Hstep : forall n s call, Inv (Datatypes.S n) s ->
       (step s call).1 = (astep (abs s) call).1 /\ abs (step s call).2 = (astep (abs s) call).2 /\
       Inv n (step s call).2) (calls : list C) (s : S) :
  Inv (length calls) s ->
  replies step s calls = replies astep (abs s) calls /\
  abs (run_calls step s calls) = run_calls astep (abs s) calls /\ Inv 0 (run_calls step s calls).
Proof.
  revert s; induction calls as [|call calls IH]; intros s Hs; [done|]. simpl in Hs.
  destruct (Hstep _ _ call Hs) as (Hr & Ha & Hi). unfold run_calls in *. simpl. rewrite <- Ha.
  destruct (IH _ Hi) as (H1 & H2 & H3). split; [|done].
  destruct (step s call), (astep (abs s) call). simpl in *. subst. by rewrite H1.
Qed.

(** * Unsigned machine integers, as [N] kept in range by the operations *)

Definition U8_MAX : N := 2 ^ 8 - 1.
Definition U16_MAX : N := 2 ^ 16 - 1.
Definition U32_MAX : N := 2 ^ 32 - 1.
Definition U64_MAX : N := 2 ^ 64 - 1.

(** [x as uW]. *)
Definition as_u8 (x : N) : N := x mod 2 ^ 8.
Definition as_u16 (x : N) : N := x mod 2 ^ 16.
Definition as_u32 (x : N) : N := x mod 2 ^ 32.
Definition as_u64 (x : N) : N := x mod 2 ^ 64.

Definition u32_saturating_add (x y : N) : N := N.min (x + y) U32_MAX.
Definition u64_saturating_add (x y : N) : N := N.min (x + y) U64_MAX.
Definition u64_wrapping_add (x y : N) : N := as_u64 (x + y).
Definition u64_wrapping_sub (x y : N) : N := as_u64 (x + (2 ^ 64 - as_u64 y)).
Definition u64_wrapping_mul (x y : N) : N := as_u64 (x * y).
Definition u64_checked_add (x y : N) : option N :=
  if decide (x + y <= U64_MAX)%N then Some (x + y)%N else None.

(** [uW::try_from(x)]. *)
Definition u8_try_from (x : N) : option N := if decide (x <= U8_MAX)%N then Some x else None.
Definition u32_try_from (x : N) : option N := if decide (x <= U32_MAX)%N then Some x else None.

(** The length of a Rust [Vec], slice or [str] as a machine integer. *)
Definition len {A} (l : list A) : N := N.of_nat (length l).

Lemma len_app {A} (l1 l2 : list A) : len (l1 ++ l2) = (len l1 + len l2)%N.
Proof. unfold len. rewrite length_app. lia. Qed.

Lemma len_cons {A} (x : A) l : len (x :: l) = (1 + len l)%N.
Proof. unfold len; simpl. lia. Qed.

Lemma len_nil {A} : len (@nil A) = 0%N.
Proof. done. Qed.

#[export] Hint Rewrite @len_app @len_cons @len_nil : pcloud.

Lemma as_u64_small x : (x <= U64_MAX)%N -> as_u64 x = x.
Proof. unfold as_u64, U64_MAX. intros. apply N.mod_small. lia. Qed.

Lemma wrapping_add_sub x y : (x < 2 ^ 64)%N -> u64_wrapping_sub (u64_wrapping_add x y) y = x.
Proof.
  intros Hx. unfold u64_wrapping_sub, u64_wrapping_add, as_u64.
  pose proof (N.mod_lt y (2 ^ 64) ltac:(done)) as Hy. set (m := (2 ^ 64)%N) in *.
  rewrite N.Div0.add_mod_idemp_l.
  replace (x + y + (m - y mod m))%N with (x + (1 + y / m) * m)%N
    by (pose proof (N.div_mod y m ltac:(done)); lia).
  rewrite N.Div0.mod_add. by apply N.mod_small.
Qed.

Lemma as_u64_bound x : (as_u64 x <= U64_MAX)%N.
Proof. unfold as_u64, U64_MAX. pose proof (N.mod_lt x (2 ^ 64)). lia. Qed.
