(* ===== verification/Paths.v ===== *)
(** Strings and sync-root-relative paths.

    The standard-library string operations the sources use ([rfind], [split], [rsplit],
    [trim]) and the path predicate [is_valid_relative_path] of
    crates/pcloud-engine/src/lib.rs.  A Rust [str] is a Rocq [string] of UTF-8 bytes; the
    separators searched for are ASCII, so searching bytes and searching characters agree. *)
From S2P Require Import Prelude.

Abbreviation chars := String.list_ascii_of_string.
Abbreviation str := String.string_of_list_ascii.

Lemma str_chars s : str (chars s) = s.
Proof. apply String.string_of_list_ascii_of_string. Qed.

Lemma chars_str l : chars (str l) = l.
Proof. apply String.list_ascii_of_string_of_list_ascii. Qed.

Lemma chars_app s1 s2 : chars (s1 +:+ s2) = chars s1 ++ chars s2.
Proof.
  induction s1 as [|c s1 IH]; [done|].
  change (c :: chars (s1 +:+ s2) = c :: (chars s1 ++ chars s2)). by rewrite IH.
Qed.

Lemma str_app l1 l2 : str (l1 ++ l2) = str l1 +:+ str l2.
Proof.
  induction l1 as [|c l1 IH]; [done|].
  change (String c (str (l1 ++ l2)) = String c (str l1 +:+ str l2)). by rewrite IH.
Qed.

Lemma chars_inj s1 s2 : chars s1 = chars s2 -> s1 = s2.
Proof. intros H. by rewrite <- (str_chars s1), <- (str_chars s2), H. Qed.

#[export] Hint Rewrite str_chars chars_str chars_app str_app : pcloud.

(** * Searching and splitting *)

(** [s.rfind(c)]: the byte index of the last [c]. *)
Fixpoint rfind (c : ascii) (l : list ascii) : option nat :=
  match l with
  | [] => None
  | x :: l' =>
      match rfind c l' with
      | Some i => Some (S i)
      | None => if decide (x = c) then Some 0 else None
      end
  end.

(** [s.split(c)]: never empty; a trailing separator yields a trailing empty segment. *)
Fixpoint split_on (c : ascii) (l : list ascii) : list (list ascii) :=
  match l with
  | [] => [[]]
  | x :: l' =>
      if decide (x = c) then [] :: split_on c l'
      else match split_on c l' with
           | [] => [[x]]
           | s :: ss => (x :: s) :: ss
           end
  end.

(** [s.rsplit(c)]. *)
Definition rsplit (c : ascii) (l : list ascii) : list (list ascii) :=
  reverse (split_on c l).

Lemma rfind_absent c l : c ∉ l -> rfind c l = None.
Proof.
  induction l as [|x l IH]; intros Hc; simpl; [done|].
  rewrite IH by set_solver. rewrite decide_False by set_solver. done.
Qed.

Lemma rfind_app c l1 l2 : c ∉ l2 -> rfind c (l1 ++ c :: l2) = Some (length l1).
Proof.
  intros Hc. induction l1 as [|x l1 IH]; simpl; [|by rewrite IH].
  by rewrite rfind_absent, decide_True.
Qed.

Lemma rfind_None c l : rfind c l = None -> c ∉ l.
Proof.
  intros H Hin. apply list_elem_of_split_r in Hin as (l1 & l2 & -> & Hc).
  by rewrite rfind_app in H.
Qed.

Lemma rfind_Some c l i :
  rfind c l = Some i -> exists l1 l2, l = l1 ++ c :: l2 /\ length l1 = i /\ c ∉ l2.
Proof.
  intros H. destruct (decide (c ∈ l)) as [Hin|Hin]; [|by rewrite rfind_absent in H].
  apply list_elem_of_split_r in Hin as (l1 & l2 & -> & Hc).
  rewrite rfind_app in H by done. exists l1, l2. by simplify_eq.
Qed.

Lemma split_on_cons c l : exists s ss, split_on c l = s :: ss.
Proof.
  destruct l as [|x l]; simpl; [eauto|]. case_decide; [eauto|]. destruct (split_on c l); eauto.
Qed.

(** The segments joined by [c] give the string back, and none contains [c]. *)
Fixpoint join_with (c : ascii) (ss : list (list ascii)) : list ascii :=
  match ss with
  | [] => []
  | [s] => s
  | s :: ss' => s ++ c :: join_with c ss'
  end.

Lemma join_split_on c l : join_with c (split_on c l) = l.
Proof.
  induction l as [|x l IH]; simpl; [done|].
  destruct (split_on_cons c l) as (s & ss & E). case_decide as Hx.
  - rewrite E in *. subst. simpl. by f_equal.
  - rewrite E in *. destruct ss; simpl in *; by f_equal.
Qed.

Lemma split_on_no_sep c l : Forall (λ s, c ∉ s) (split_on c l).
Proof.
  induction l as [|x l IH]; simpl; [repeat constructor; by apply not_elem_of_nil|].
  case_decide as Hx; [constructor; [by apply not_elem_of_nil|done]|].
  destruct (split_on c l) as [|s ss].
  - repeat constructor. set_solver.
  - inversion IH; subst. constructor; [|done]. set_solver.
Qed.

Lemma split_on_app_l c a l :
  c ∉ a -> forall s ss, split_on c l = s :: ss -> split_on c (a ++ l) = (a ++ s) :: ss.
Proof.
  induction a as [|x a IH]; intros Hc s ss E; simpl; [done|].
  rewrite decide_False by set_solver. erewrite IH; [done|set_solver|done].
Qed.

Lemma split_on_app_r c b l :
  c ∉ b -> forall ss s, split_on c l = ss ++ [s] -> split_on c (l ++ b) = ss ++ [s ++ b].
Proof.
  intros Hb. induction l as [|x l IH]; intros ss s E; simpl in *.
  - destruct ss as [|? [|]]; simplify_eq/=.
    destruct (split_on_cons c []) as (s' & ss' & E').
    pose proof (split_on_app_l c b [] Hb [] [] eq_refl) as H. by rewrite !app_nil_r in H.
  - case_decide as Hx.
    + destruct ss as [|s0 ss]; simplify_eq/=.
      { destruct (split_on_cons c l) as (? & ? & ?); congruence. }
      by erewrite IH.
    + destruct (split_on_cons c l) as (s0 & ss0 & E0). rewrite E0 in E.
      destruct ss as [|s1 ss]; simplify_eq/=.
      * by rewrite (IH [] s0 E0).
      * by rewrite (IH (s0 :: ss) s E0).
Qed.

(** * Lines *)

Definition newline : ascii := ascii_of_N 10.
Definition carriage_return : ascii := ascii_of_N 13.

(** [str::lines]: lines end at a newline, a carriage return before it is dropped, and a final
    newline ends the last line. *)
Definition strip_cr (line : list ascii) : list ascii :=
  match reverse line with
  | c :: rest => if decide (c = carriage_return) then reverse rest else line
  | [] => line
  end.

Definition str_lines (contents : list ascii) : list (list ascii) :=
  match reverse (split_on newline contents) with
  | [] :: rest => strip_cr <$> reverse rest
  | last_line :: rest => (strip_cr <$> reverse rest) ++ [last_line]
  | [] => []
  end.

(** * [basename]: crates/pcloud-engine/src/planner.rs *)

Definition slash : ascii := "/"%char.
Definition dot : ascii := "."%char.
Definition backslash : ascii := "\"%char.

(** [path.rsplit('/').next().unwrap_or(path)]. *)
Definition basename (path : string) : string :=
  match rsplit slash (chars path) with
  | s :: _ => str s
  | [] => path
  end.

(** Everything before the last segment. *)
Definition parent_segments (path : string) : list (list ascii) :=
  removelast (split_on slash (chars path)).

Lemma basename_no_slash path : slash ∉ chars (basename path).
Proof.
  unfold basename, rsplit. pose proof (split_on_no_sep slash (chars path)) as H.
  rewrite <- Forall_reverse in H.
  destruct (split_on_cons slash (chars path)) as (s & ss & E).
  destruct (reverse _) as [|b bs] eqn:Eb.
  { rewrite E, reverse_cons in Eb. by destruct (reverse ss). }
  inversion H; subst. by rewrite chars_str.
Qed.

(** * [str::trim]: Unicode White_Space, in UTF-8 *)

Definition utf8_bytes (bs : list N) : list ascii := ascii_of_N <$> bs.

(** The encodings of the White_Space code points: U+0009..U+000D, U+0020, U+0085, U+00A0,
    U+1680, U+2000..U+200A, U+2028, U+2029, U+202F, U+205F and U+3000. *)
Definition whitespace_encodings : list (list ascii) :=
  utf8_bytes <$>
    [[9]; [10]; [11]; [12]; [13]; [32]; [194; 133]; [194; 160]; [225; 154; 128];
     [226; 128; 128]; [226; 128; 129]; [226; 128; 130]; [226; 128; 131]; [226; 128; 132];
     [226; 128; 133]; [226; 128; 134]; [226; 128; 135]; [226; 128; 136]; [226; 128; 137];
     [226; 128; 138]; [226; 128; 168]; [226; 128; 169]; [226; 128; 175]; [226; 129; 159];
     [227; 128; 128]]%N.

Fixpoint strip_prefix (p l : list ascii) : option (list ascii) :=
  match p, l with
  | [], _ => Some l
  | x :: p', y :: l' => if decide (x = y) then strip_prefix p' l' else None
  | _ :: _, [] => None
  end.

Fixpoint strip_any (ps : list (list ascii)) (l : list ascii) : option (list ascii) :=
  match ps with
  | [] => None
  | p :: ps' => match strip_prefix p l with Some l' => Some l' | None => strip_any ps' l end
  end.

(** Strips encodings of [ps] from the front; each pass removes at least one byte, so
    [length l] passes are enough. *)
Fixpoint strip_all (fuel : nat) (ps : list (list ascii)) (l : list ascii) : list ascii :=
  match fuel with
  | 0 => l
  | S fuel' => match strip_any ps l with Some l' => strip_all fuel' ps l' | None => l end
  end.

Definition trim_start (l : list ascii) : list ascii :=
  strip_all (length l) whitespace_encodings l.

Definition trim_end (l : list ascii) : list ascii :=
  reverse (strip_all (length l) (reverse <$> whitespace_encodings) (reverse l)).

Definition trim (l : list ascii) : list ascii := trim_end (trim_start l).

(** Bytes that occur in an encoding of a white-space character. *)
Definition ws_byte (c : ascii) : Prop := c ∈ mjoin whitespace_encodings.

#[export] Instance ws_byte_dec c : Decision (ws_byte c).
Proof. unfold ws_byte. apply _. Defined.

Lemma strip_prefix_Some p l l' : strip_prefix p l = Some l' <-> l = p ++ l'.
Proof.
  revert l; induction p as [|x p IH]; intros l; simpl; [naive_solver|].
  destruct l as [|y l]; [done|]. case_decide as Hxy.
  - subst. rewrite IH. naive_solver.
  - naive_solver.
Qed.

Lemma strip_any_Some ps l l' : strip_any ps l = Some l' -> exists p, p ∈ ps /\ l = p ++ l'.
Proof.
  induction ps as [|p ps IH]; simpl; [done|].
  destruct (strip_prefix p l) eqn:E.
  - intros [= <-]. apply strip_prefix_Some in E. exists p. by split; [left|].
  - intros H. destruct IH as (q & ? & ?); [done|]. exists q. by split; [right|].
Qed.

Lemma strip_all_decompose fuel ps l :
  exists w, l = w ++ strip_all fuel ps l /\ Forall (λ c, c ∈ mjoin ps) w.
Proof.
  revert l; induction fuel as [|fuel IH]; intros l; simpl; [by exists []|].
  destruct (strip_any ps l) as [l'|] eqn:E; [|by exists []].
  apply strip_any_Some in E as (p & Hp & ->). destruct (IH l') as (w & Hw & Hall).
  exists (p ++ w). rewrite <- app_assoc, <- Hw. split; [done|].
  apply Forall_app; split; [|done]. apply Forall_forall. intros c Hc.
  apply list_elem_of_join. eauto.
Qed.

Lemma mjoin_reverse_elem (ps : list (list ascii)) c :
  c ∈ mjoin (reverse <$> ps) <-> c ∈ mjoin ps.
Proof.
  rewrite !list_elem_of_join. split.
  - intros (p & Hc & Hp). apply list_elem_of_fmap in Hp as (q & -> & Hq).
    exists q. by rewrite elem_of_reverse in Hc.
  - intros (p & Hc & Hp). exists (reverse p). rewrite elem_of_reverse. split; [done|].
    apply list_elem_of_fmap. eauto.
Qed.

(** [trim] removes white space at both ends and nothing else. *)
Lemma trim_decompose l :
  exists a b, l = a ++ trim l ++ b /\ Forall ws_byte a /\ Forall ws_byte b.
Proof.
  destruct (strip_all_decompose (length l) whitespace_encodings l) as (a & Ha & Hfa).
  fold (trim_start l) in Ha.
  destruct (strip_all_decompose (length (trim_start l)) (reverse <$> whitespace_encodings)
              (reverse (trim_start l))) as (b & Hb & Hfb).
  exists a, (reverse b). split.
  - rewrite Ha at 1. f_equal. unfold trim, trim_end.
    by rewrite <- reverse_app, <- Hb, reverse_involutive.
  - split; [done|]. apply Forall_reverse.
    eapply Forall_impl; [exact Hfb|]. intros c. apply mjoin_reverse_elem.
Qed.

(** * [is_valid_relative_path]: crates/pcloud-engine/src/lib.rs *)

Definition starts_with (p l : list ascii) : bool :=
  match strip_prefix p l with Some _ => true | None => false end.

Definition bad_segment (segment : list ascii) : bool :=
  bool_decide (segment = []) || bool_decide (segment = [dot]) || bool_decide (segment = [dot; dot]).

Definition is_valid_relative_path (path : string) : bool :=
  let trimmed := trim (chars path) in
  if bool_decide (trimmed = []) || starts_with [slash] trimmed
     || starts_with [dot; slash] trimmed || bool_decide (backslash ∈ trimmed)
  then false
  else negb (existsb bad_segment (split_on slash trimmed)).

Example valid_1 : is_valid_relative_path "docs/report.txt" = true.
Proof. reflexivity. Qed.
Example valid_2 : is_valid_relative_path " ../x" = false.
Proof. reflexivity. Qed.

(** Lexical resolution of a path below a root, as [Path::join] followed by the kernel's
    interpretation of [.] and [..]: the result is a stack of directory names. *)
Fixpoint resolve (stack : list (list ascii)) (segments : list (list ascii)) : list (list ascii) :=
  match segments with
  | [] => stack
  | s :: ss =>
      if decide (s = [] \/ s = [dot]) then resolve stack ss
      else if decide (s = [dot; dot]) then resolve (removelast stack) ss
      else resolve (stack ++ [s]) ss
  end.

(** The stack [root.join(path)] resolves to; an absolute [path] replaces the root. *)
Definition resolve_join (root : list (list ascii)) (path : string) : list (list ascii) :=
  if starts_with [slash] (chars path) then resolve [] (split_on slash (chars path))
  else resolve root (split_on slash (chars path)).

Lemma bad_segment_true s : bad_segment s = true <-> s = [] \/ s = [dot] \/ s = [dot; dot].
Proof.
  unfold bad_segment. rewrite !orb_true_iff, !bool_decide_eq_true. tauto.
Qed.

Lemma bad_segment_false s : bad_segment s = false <-> s <> [] /\ s <> [dot] /\ s <> [dot; dot].
Proof.
  rewrite <- not_true_iff_false, bad_segment_true. tauto.
Qed.

Lemma resolve_good root ss :
  Forall (λ s, bad_segment s = false) ss -> resolve root ss = root ++ ss.
Proof.
  revert root; induction ss as [|s ss IH]; intros root H; simpl; [by rewrite app_nil_r|].
  inversion H as [|? ? Hs Hss]; subst. apply bad_segment_false in Hs as (? & ? & ?).
  rewrite !decide_False by tauto. rewrite IH by done. by rewrite <- app_assoc.
Qed.

(** Padding with bytes other than [.] cannot make a segment special. *)
Lemma bad_segment_pad a s b :
  Forall (λ c, c <> dot) a -> Forall (λ c, c <> dot) b ->
  bad_segment s = false -> bad_segment (a ++ s ++ b) = false.
Proof.
  intros Ha Hb. rewrite !bad_segment_false. intros (Hn & H1 & H2).
  assert (forall t, Forall (λ c, c = dot) t -> a ++ s ++ b = t -> s = t) as Hall.
  { intros t Ht <-. rewrite !Forall_app in Ht. destruct Ht as (Hda & _ & Hdb).
    assert (a = []) as -> by (destruct a; [done|]; inversion Ha; inversion Hda; congruence).
    assert (b = []) as -> by (destruct b; [done|]; inversion Hb; inversion Hdb; congruence).
    by rewrite app_nil_r. }
  repeat split; intros E; apply Hall in E; try done; repeat constructor.
Qed.

Lemma ws_byte_plain c : ws_byte c -> c <> dot /\ c <> slash.
Proof.
  assert (Forall (λ c, c <> dot /\ c <> slash) (mjoin whitespace_encodings)) as H.
  { apply (bool_decide_unpack _). vm_compute. done. }
  intros Hc. by eapply Forall_forall in Hc; [|exact H].
Qed.

Lemma ws_no_slash a : Forall ws_byte a -> slash ∉ a.
Proof.
  intros H Hin. eapply Forall_forall in Hin; [|exact H]. by apply ws_byte_plain in Hin as [_ ?].
Qed.

Lemma ws_no_dot a : Forall ws_byte a -> Forall (λ c, c <> dot) a.
Proof. intros H. eapply Forall_impl; [exact H|]. intros c Hc. by apply ws_byte_plain in Hc as [? _]. Qed.

(** Splitting a string padded with white space pads its first and last segments. *)
Lemma split_pad_good a t b :
  Forall ws_byte a -> Forall ws_byte b ->
  Forall (λ s, bad_segment s = false) (split_on slash t) ->
  Forall (λ s, bad_segment s = false) (split_on slash (a ++ t ++ b)).
Proof.
  intros Ha Hb Hall.
  destruct (split_on slash t) as [|s0 ss0 _] eqn:E using rev_ind.
  { destruct (split_on_cons slash t) as (? & ? & ?). congruence. }
  pose proof (split_on_app_r slash b t (ws_no_slash _ Hb) _ _ E) as Er.
  apply Forall_app in Hall as [Hss Hs0]. inversion Hs0 as [|? ? Hs _]; subst.
  destruct ss0 as [|s1 ss]; simpl in *.
  - rewrite (split_on_app_l slash a _ (ws_no_slash _ Ha) _ _ Er). constructor; [|done].
    apply bad_segment_pad; auto using ws_no_dot.
  - rewrite (split_on_app_l slash a _ (ws_no_slash _ Ha) _ _ Er).
    inversion Hss as [|? ? H1 H2]; subst. constructor.
    + pose proof (bad_segment_pad a s1 [] (ws_no_dot _ Ha) (Forall_nil_2 _) H1) as H.
      by rewrite app_nil_r in H.
    + apply Forall_app; split; [done|]. constructor; [|done].
      by apply (bad_segment_pad [] s0 b); auto using ws_no_dot.
Qed.

Lemma valid_path_inv path :
  is_valid_relative_path path = true ->
  exists a t b, chars path = a ++ t ++ b /\ Forall ws_byte a /\ Forall ws_byte b /\
    t <> [] /\ starts_with [slash] t = false /\
    Forall (λ s, bad_segment s = false) (split_on slash t).
Proof.
  unfold is_valid_relative_path. destruct (trim_decompose (chars path)) as (a & b & E & Ha & Hb).
  destruct (bool_decide _) eqn:Hn; simpl; [done|]. destruct (starts_with [slash] _) eqn:Hs; [done|].
  destruct (_ || _); [done|]. intros Hex%negb_true_iff.
  exists a, (trim (chars path)), b. repeat split; try done; [by apply bool_decide_eq_false in Hn|].
  apply Forall_forall. intros s Hin. destruct (bad_segment s) eqn:Hbad; [|done].
  rewrite <- not_true_iff_false in Hex. destruct Hex. apply existsb_exists.
  exists s. by rewrite <- list_elem_of_In.
Qed.

Lemma valid_path_segments path :
  is_valid_relative_path path = true ->
  Forall (λ s, bad_segment s = false) (split_on slash (chars path)) /\
  starts_with [slash] (chars path) = false.
Proof.
  intros (a & t & b & -> & Ha & Hb & Hn & Hs & Hall)%valid_path_inv.
  split; [by apply split_pad_good|].
  destruct a as [|x a]; simpl.
  - destruct t as [|c t]; [done|]. unfold starts_with in *; simpl in *. by destruct (decide (slash = c)).
  - inversion Ha as [|? ? Hx _]; subst. apply ws_byte_plain in Hx as [_ Hx].
    unfold starts_with; simpl. by rewrite decide_False.
Qed.

(** A path the predicate accepts stays strictly below the sync root: joining it to any root
    and resolving [.] and [..] appends exactly the path's own segments. *)
Theorem valid_path_contained root path
  (Hvalid : is_valid_relative_path path = true) :
  exists segments,
    resolve_join root path = root ++ segments /\ segments <> [] /\
    join_with slash segments = chars path.
Proof.
  destruct (valid_path_segments path Hvalid) as [Hgood Habs].
  exists (split_on slash (chars path)). split; [|split].
  - unfold resolve_join. rewrite Habs. by apply resolve_good.
  - destruct (split_on_cons slash (chars path)) as (? & ? & ->). done.
  - apply join_split_on.
Qed.

Lemma valid_path_contained_witness :
  exists segments,
    resolve_join [chars "home"; chars "sync"] "docs/a b.txt"
      = [chars "home"; chars "sync"] ++ segments /\ segments <> [] /\
    join_with slash segments = chars "docs/a b.txt".
Proof. apply valid_path_contained. vm_compute. reflexivity. Defined.
