(* ===== verification/Model.v ===== *)
(** The shared data model: crates/pcloud-model/src/{ids,sync,conflict,transfer}.rs.

    Rust enums are inductive types with the source's constructors (a prefix is added where
    two enums share a constructor name); struct fields keep their names. *)
From S2P Require Import Prelude Paths.

(** * ids.rs: newtypes over [u64] that the engine only compares *)

Abbreviation SyncId := N.
Abbreviation RemoteFileId := N.
Abbreviation RemoteFolderId := N.

(** * sync.rs and conflict.rs *)

Inductive SyncState : Type :=
| Initializing | CatchingUp | Steady | Paused | Degraded | Recovering.

Inductive ChangeSource : Type := Local | Remote.
Inductive EntryKind : Type := File | Folder.
Inductive ChangeKind : Type := Upsert | Delete.
Inductive SyncType : Type := DownloadOnly | UploadOnly | Full | BackupArchive.

Inductive ConflictKind : Type :=
| LocalModifyVsRemoteModify
| LocalDeleteVsRemoteModify
| RemoteDeleteVsLocalModify
| TypeMismatch
| RenameCollision
| ParentPathConflict
| ResumeChecksumMismatch
| CryptoAvailabilityConflict.

#[export] Instance ChangeSource_eq_dec : EqDecision ChangeSource.
Proof. solve_decision. Defined.
#[export] Instance EntryKind_eq_dec : EqDecision EntryKind.
Proof. solve_decision. Defined.
#[export] Instance ChangeKind_eq_dec : EqDecision ChangeKind.
Proof. solve_decision. Defined.
#[export] Instance SyncType_eq_dec : EqDecision SyncType.
Proof. solve_decision. Defined.
#[export] Instance ConflictKind_eq_dec : EqDecision ConflictKind.
Proof. solve_decision. Defined.

(** The derived [Ord] of [ChangeSource]: declaration order. *)
Definition ChangeSource_index (s : ChangeSource) : N := match s with Local => 0 | Remote => 1 end.
Definition ChangeSource_cmp : ChangeSource -> ChangeSource -> comparison :=
  cmp_by ChangeSource_index N.compare.

Definition SyncType_as_u8 (t : SyncType) : N :=
  match t with DownloadOnly => 1 | UploadOnly => 2 | Full => 3 | BackupArchive => 4 end.

Definition SyncType_from_u8 (value : N) : option SyncType :=
  match value with
  | 1 => Some DownloadOnly
  | 2 => Some UploadOnly
  | 3 => Some Full
  | 4 => Some BackupArchive
  | _ => None
  end%N.

Definition SyncType_label (t : SyncType) : string :=
  match t with
  | DownloadOnly => "download-only"
  | UploadOnly => "upload-only"
  | Full => "full"
  | BackupArchive => "backup-archive"
  end.

Record SyncCandidate : Type := mkSyncCandidate {
  cand_sync_id : SyncId;
  cand_source : ChangeSource;
  cand_path : string;
  cand_entry_kind : EntryKind;
  cand_change_kind : ChangeKind;
  cand_remote_file_id : option RemoteFileId;
  cand_remote_folder_id : option RemoteFolderId;
}.

Inductive PlannedOperation : Type :=
| UploadFile (sync_id : SyncId) (path : string)
    (remote_parent_folder_id : option RemoteFolderId) (remote_name : string)
| DownloadFile (sync_id : SyncId) (path : string) (remote_file_id : option RemoteFileId)
| CreateLocalDirectory (sync_id : SyncId) (path : string)
    (remote_folder_id : option RemoteFolderId)
| CreateRemoteDirectory (sync_id : SyncId) (path : string)
| DeleteLocal (sync_id : SyncId) (path : string)
| DeleteRemote (sync_id : SyncId) (path : string)
| Conflict (sync_id : SyncId) (path : string) (kind : ConflictKind).

#[export] Instance PlannedOperation_eq_dec : EqDecision PlannedOperation.
Proof. solve_decision. Defined.
#[export] Instance SyncCandidate_eq_dec : EqDecision SyncCandidate.
Proof. solve_decision. Defined.

(** [PlannedOperation::sync_id]. *)
Definition op_sync_id (op : PlannedOperation) : SyncId :=
  match op with
  | UploadFile sync_id _ _ _ | DownloadFile sync_id _ _ | CreateLocalDirectory sync_id _ _
  | CreateRemoteDirectory sync_id _ | DeleteLocal sync_id _ | DeleteRemote sync_id _
  | Conflict sync_id _ _ => sync_id
  end.

(** [PlannedOperation::priority]: lower is more urgent. *)
Definition op_priority (op : PlannedOperation) : N :=
  match op with
  | Conflict _ _ _ => 0
  | DeleteLocal _ _ | DeleteRemote _ _ => 1
  | CreateLocalDirectory _ _ _ | CreateRemoteDirectory _ _ => 2
  | DownloadFile _ _ _ | UploadFile _ _ _ _ => 3
  end.

(** [PlannedOperation::path]. *)
Definition op_path (op : PlannedOperation) : string :=
  match op with
  | UploadFile _ path _ _ | DownloadFile _ path _ | CreateLocalDirectory _ path _
  | CreateRemoteDirectory _ path | DeleteLocal _ path | DeleteRemote _ path
  | Conflict _ path _ => path
  end.

(** The key the daemon acknowledges operations by. *)
Definition op_key (op : PlannedOperation) : SyncId * string := (op_sync_id op, op_path op).

(** [ConflictResolution]. *)
Inductive ConflictResolution : Type :=
| Apply (op : PlannedOperation)
| Res_ManualReview (path : string) (kind : ConflictKind) (reason : string)
| Res_RenameBoth (local_renamed_path remote_renamed_path original_path : string)
    (sync_id : SyncId).

(** * transfer.rs *)

Inductive TransferState : Type :=
| Planned | Preparing | Streaming | Verifying | Committing | Retrying | Failed | Completed.

Record TransferTask : Type := mkTransferTask {
  task_operation : PlannedOperation;
  task_state : TransferState;
  task_last_error : option string;
}.

(** [TransferTask::planned]. *)
Definition TransferTask_planned (operation : PlannedOperation) : TransferTask :=
  {| task_operation := operation; task_state := Planned; task_last_error := None |}.

Inductive FailureDisposition : Type := RetryNow | RetryLater | ManualIntervention | Terminal.

Record RecoveryDecision : Type := mkRecoveryDecision {
  dec_operation : PlannedOperation;
  dec_disposition : FailureDisposition;
  dec_reason : string;
}.

(** * Lemmas *)

#[export] Instance ChangeSource_cmp_laws : CmpLaws ChangeSource_cmp.
Proof. unfold ChangeSource_cmp. apply _. Qed.

(** The persisted encoding of [SyncType] round-trips and rejects every other byte. *)
Lemma SyncType_roundtrip v t : SyncType_from_u8 v = Some t <-> SyncType_as_u8 t = v.
Proof.
  split; [|by intros <-; destruct t].
  unfold SyncType_from_u8. intros H. repeat case_match; naive_solver.
Qed.
