(* ===== verification/Clock.v ===== *)
(** Time: an [Instant] is the reading of a monotone clock and a [Duration] a length of time, both
    in nanoseconds; [duration_since] saturates at zero as in the standard library. *)
From S2P Require Import Prelude.

Abbreviation Instant := N.
Abbreviation Duration := N.

Definition NANOS_PER_SEC : N := 1000000000.
Definition from_secs (s : N) : Duration := (s * NANOS_PER_SEC)%N.
Definition duration_since (now earlier : Instant) : Duration := (now - earlier)%N.

(** The longest [Duration]: [u64::MAX] seconds and 999999999 nanoseconds. *)
Definition DURATION_MAX : Duration := (U64_MAX * NANOS_PER_SEC + 999999999)%N.

Definition duration_checked_mul (d : Duration) (k : N) : option Duration :=
  if decide (d * k <= DURATION_MAX)%N then Some (d * k)%N else None.
