(* ===== verification/Ieee.v ===== *)
(** IEEE 754 arithmetic as the sources use it: [f32] and [f64] with rounding to nearest, ties to
    even, on the executable specification of the Standard Library, and Rust's [as] casts between
    them and the integers. *)
From Stdlib Require Export SpecFloat.
From S2P Require Import Prelude Clock.

Abbreviation f32 := spec_float.
Abbreviation f64 := spec_float.

(** [n as f32], [n as f64]: the nearest value. *)
Definition f32_of_u64 (n : N) : f32 := binary_normalize 24 128 (Z.of_N n) 0 false.
Definition f64_of_u64 (n : N) : f64 := binary_normalize 53 1024 (Z.of_N n) 0 false.

(** [x as f64] for an [f32]: exact. *)
Definition f64_of_f32 (x : f32) : f64 :=
  match x with S754_finite s m e => binary_round 53 1024 s m e | _ => x end.

(** [x as u64]: truncated, saturating, zero for a NaN. *)
Definition u64_of_f64 (x : f64) : N :=
  match x with
  | S754_finite false m e => N.min U64_MAX (Z.to_N (Z.shiftl (Zpos m) e))
  | S754_infinity false => U64_MAX
  | _ => 0
  end.

(** [n as f64] of a [u128], which never overflows, and [x as u128]. *)
Definition f64_of_u128 (n : N) : f64 := f64_of_u64 n.
Definition U128_MAX : N := 2 ^ 128 - 1.
Definition u128_of_f64 (x : f64) : N :=
  match x with
  | S754_finite false m e => N.min U128_MAX (Z.to_N (Z.shiftl (Zpos m) e))
  | S754_infinity false => U128_MAX
  | _ => 0
  end.

(** Decimal literals [m / 10 ^ k], correctly rounded. *)
Definition f32_lit (m : N) (k : N) : f32 := SFdiv 24 128 (f32_of_u64 m) (f32_of_u64 (10 ^ k)).

Definition f32_div (x y : f32) : f32 := SFdiv 24 128 x y.
Definition f32_sub (x y : f32) : f32 := SFsub 24 128 x y.
Definition f64_mul (x y : f64) : f64 := SFmul 53 1024 x y.
Definition f32_one : f32 := f32_of_u64 1.
Definition f32_zero : f32 := S754_zero false.

Definition f64_div (x y : f64) : f64 := SFdiv 53 1024 x y.
Definition f64_add (x y : f64) : f64 := SFadd 53 1024 x y.
Definition f64_sub (x y : f64) : f64 := SFsub 53 1024 x y.
Definition f64_zero : f64 := S754_zero false.

(** Decimal literals of [f64]. *)
Definition f64_lit (m : N) (k : N) : f64 := f64_div (f64_of_u64 m) (f64_of_u64 (10 ^ k)).

(** [x.is_finite()], [x.min(y)] and [x.max(y)]: a NaN argument is ignored. *)
Definition is_finite (x : f64) : bool :=
  match x with S754_zero _ | S754_finite _ _ _ => true | _ => false end.
Definition f64_min (x y : f64) : f64 :=
  match SFcompare x y with
  | Some Gt => y
  | Some _ => x
  | None => match x with S754_nan => y | _ => x end
  end.
Definition f64_max (x y : f64) : f64 :=
  match SFcompare x y with
  | Some Lt => y
  | Some _ => x
  | None => match x with S754_nan => y | _ => x end
  end.

(** [x.floor() as u64] and [x.ceil() as u64]; the first is the cast alone, as casts truncate. *)
Definition floor_as_u64 (x : f64) : N := u64_of_f64 x.
Definition ceil_as_u64 (x : f64) : N :=
  match x with
  | S754_finite false m e => N.min U64_MAX (Z.to_N (- Z.shiftl (Zneg m) e))
  | _ => u64_of_f64 x
  end.

(** [duration.as_secs_f64()]: the seconds and the fraction are rounded separately. *)
Definition as_secs_f64 (d : Duration) : f64 :=
  f64_add (f64_of_u64 (d / NANOS_PER_SEC)) (f64_div (f64_of_u64 (d mod NANOS_PER_SEC)) (f64_of_u64 NANOS_PER_SEC)).

(** [Duration::from_secs_f64(x)]: the nearest nanosecond, ties to even; [None] is its panic on
    negative numbers, NaN and what does not fit. *)
Definition from_secs_f64 (x : f64) : option Duration :=
  match x with
  | S754_zero _ => Some 0%N
  | S754_finite false m e =>
      let n := (Npos m * NANOS_PER_SEC)%N in
      let nanos :=
        match e with
        | Zneg k =>
            let unit := 2 ^ Npos k in
            let q := n / unit in
            match (2 * (n mod unit) ?= unit) with
            | Lt => q
            | Eq => if N.even q then q else q + 1
            | Gt => q + 1
            end
        | _ => n * 2 ^ Z.to_N e
        end%N in
      if decide (nanos <= DURATION_MAX)%N then Some nanos else None
  | _ => None
  end.

(** [(0.0..=1.0).contains(&x)]. *)
Definition in_unit_interval (x : f32) : bool := SFleb f32_zero x && SFleb x f32_one.

Example f32_of_2_24_plus_1 : f32_of_u64 16777217 = f32_of_u64 16777216.
Proof. vm_compute. reflexivity. Qed.

Example f64_of_u64_exact : u64_of_f64 (f64_of_u64 3600) = 3600%N.
Proof. vm_compute. reflexivity. Qed.

Example nan_is_outside : in_unit_interval S754_nan = false.
Proof. reflexivity. Qed.

Example a_millisecond : from_secs_f64 (f64_lit 1 3) = Some 1000000%N.
Proof. vm_compute. reflexivity. Qed.

Example a_second_and_a_half : as_secs_f64 1500000000 = f64_lit 15 1.
Proof. vm_compute. reflexivity. Qed.
