(* ===== verification/IeeeExact.v ===== *)
(** Exact arithmetic inside [f64]: canonical numbers, their comparison, and sums and differences
    that need no rounding.  [scaled x] is the value of a finite number in units of the smallest
    positive one, [2 ^ -1074], so that all values are integers. *)
From Stdlib Require Import ZArith Lia.
From S2P Require Import Prelude Clock Ieee.
#[local] Open Scope Z_scope.

Abbreviation EMIN := (-1074).

Definition digits (m : positive) : Z := Zpos (digits2_pos m).
Definition ulp_exp (e : Z) : Z := Z.max (e - 53) EMIN.

Lemma fexp_ulp e : fexp 53 1024 e = ulp_exp e.
Proof. reflexivity. Qed.

Lemma digits_log2 m : digits m = Z.log2 (Zpos m) + 1.
Proof.
  unfold digits. induction m as [m IH|m IH|]; cbn [digits2_pos]; [| |reflexivity].
  - rewrite Pos2Z.inj_succ, IH. change (Zpos m~1) with (2 * Zpos m + 1). rewrite Z.log2_succ_double by lia. lia.
  - rewrite Pos2Z.inj_succ, IH. change (Zpos m~0) with (2 * Zpos m). rewrite Z.log2_double by lia. lia.
Qed.

Lemma digits_bounds m : 2 ^ (digits m - 1) <= Zpos m < 2 ^ digits m.
Proof.
  rewrite digits_log2. replace (Z.log2 (Zpos m) + 1 - 1) with (Z.log2 (Zpos m)) by lia.
  pose proof (Z.log2_spec (Zpos m) ltac:(lia)). replace (Z.log2 (Zpos m) + 1) with (Z.succ (Z.log2 (Zpos m))) by lia. lia.
Qed.

Lemma digits_pos m : 0 < digits m.
Proof. unfold digits. lia. Qed.

Lemma digits_unique m k : 2 ^ (k - 1) <= Zpos m < 2 ^ k -> digits m = k.
Proof.
  intros [H1 H2]. pose proof (digits_bounds m) as [H3 H4]. pose proof (digits_pos m).
  assert (0 < k). { destruct (Z.lt_trichotomy k 0) as [Hk|[->|Hk]]; [|cbn in H2; lia|done]. rewrite Z.pow_neg_r in H2 by lia. lia. }
  assert (digits m - 1 < k) by (apply (Z.pow_lt_mono_r_iff 2); lia).
  assert (k - 1 < digits m) by (apply (Z.pow_lt_mono_r_iff 2); lia). lia.
Qed.

Lemma digits_le m k : 0 <= k -> Zpos m < 2 ^ k -> digits m <= k.
Proof.
  intros Hk Hm. pose proof (digits_bounds m) as [H1 _].
  assert (digits m - 1 < k) by (apply (Z.pow_lt_mono_r_iff 2); lia). lia.
Qed.

Lemma digits_shift m n p : 0 <= n -> Zpos p = Zpos m * 2 ^ n -> digits p = digits m + n.
Proof.
  intros Hn E. pose proof (digits_bounds m) as [H1 H2]. pose proof (digits_pos m). apply digits_unique.
  replace (digits m + n - 1) with (digits m - 1 + n) by lia. rewrite !Z.pow_add_r by lia. rewrite E. nia.
Qed.

Lemma digits_mul m1 m2 : digits m1 + digits m2 - 1 <= digits (m1 * m2).
Proof.
  pose proof (digits_bounds m1) as [D1 _]. pose proof (digits_bounds m2) as [D2 _]. pose proof (digits_bounds (m1 * m2)) as [_ D3].
  pose proof (digits_pos m1). pose proof (digits_pos m2). pose proof (digits_pos (m1 * m2)).
  assert (digits m1 - 1 + (digits m2 - 1) < digits (m1 * m2)); [|lia]. apply (Z.pow_lt_mono_r_iff 2); [lia|lia|].
  rewrite Z.pow_add_r by lia. eapply Z.le_lt_trans; [|exact D3]. rewrite Pos2Z.inj_mul. nia.
Qed.

(** Shifting zero bits out is exact. *)
Lemma iter_pos_shr n z : 0 <= z ->
  iter_pos shr_1 n (Build_shr_record (z * 2 ^ Zpos n) false false) = Build_shr_record z false false.
Proof.
  revert z. induction n as [n IH|n IH|]; intros z Hz; cbn [iter_pos].
  - replace (z * 2 ^ Zpos n~1) with (2 * ((z * 2 ^ Zpos n) * 2 ^ Zpos n)).
    2: { replace (Zpos n~1) with (1 + Zpos n + Zpos n) by lia. rewrite !Z.pow_add_r by lia. lia. }
    assert (forall y, 0 <= y -> shr_1 (Build_shr_record (2 * y) false false) = Build_shr_record y false false) as ->.
    { intros [|y|y]; done. }
    2: lia.
    rewrite IH by lia. by apply IH.
  - replace (z * 2 ^ Zpos n~0) with ((z * 2 ^ Zpos n) * 2 ^ Zpos n).
    2: { replace (Zpos n~0) with (Zpos n + Zpos n) by lia. rewrite !Z.pow_add_r by lia. lia. }
    rewrite IH by lia. by apply IH.
  - replace (z * 2 ^ 1) with (2 * z) by lia. by destruct z.
Qed.

Lemma shr_exact z e n : 0 <= z -> 0 <= n ->
  shr (Build_shr_record (z * 2 ^ n) false false) e n = (Build_shr_record z false false, e + n).
Proof.
  intros Hz Hn. destruct n as [|n|n]; [|by cbn [shr]; rewrite iter_pos_shr|lia].
  cbn [shr]. by rewrite Z.mul_1_r, Z.add_0_r.
Qed.

(** * Canonical numbers *)

Definition canonical_pair (m : positive) (e : Z) : Prop := ulp_exp (digits m + e) = e /\ e <= 971.

Lemma bounded_pair m e : bounded 53 1024 m e = true <-> canonical_pair m e.
Proof.
  unfold bounded, canonical_mantissa, canonical_pair. rewrite fexp_ulp, andb_true_iff, Z.eqb_eq, Z.leb_le. done.
Qed.

Lemma canonical_pair_bounds m e : canonical_pair m e -> Zpos m < 2 ^ 53 /\ EMIN <= e <= 971.
Proof.
  unfold canonical_pair, ulp_exp. intros [H1 H2]. split; [|lia]. pose proof (digits_bounds m).
  assert (2 ^ digits m <= 2 ^ 53) by (apply Z.pow_le_mono_r; lia). lia.
Qed.

(** Rounding a number that is canonical already, written with any exponent, gives it back. *)
Lemma round_aux_canonical s m e p k : canonical_pair m e -> 0 <= k -> Zpos p = Zpos m * 2 ^ k ->
  binary_round_aux 53 1024 s (Zpos p) (e - k) loc_Exact = S754_finite s m e.
Proof.
  intros [Hc He] Hk Hp. unfold binary_round_aux, shr_fexp. rewrite fexp_ulp. change (Zdigits2 (Zpos p)) with (digits p).
  rewrite (digits_shift m k p Hk Hp). replace (digits m + k + (e - k)) with (digits m + e) by lia. rewrite Hc.
  replace (e - (e - k)) with k by lia. cbn [shr_record_of_loc]. rewrite Hp, shr_exact by lia.
  cbn [shr_m loc_of_shr_record round_nearest_even]. change (Zdigits2 (Zpos m)) with (digits m).
  replace (e - k + k) with e by lia. rewrite fexp_ulp, Hc, Z.sub_diag. cbn [shr shr_m]. by rewrite (proj2 (Z.leb_le _ _)) by lia.
Qed.

Lemma iter_xO (d m : positive) : Zpos (Pos.iter xO m d) = Zpos m * 2 ^ Zpos d.
Proof.
  induction d as [|d IH] using Pos.peano_ind; [cbn; lia|].
  rewrite Pos.iter_succ, Pos2Z.inj_succ, Z.pow_succ_r by lia. change (Zpos (Pos.iter xO m d)~0) with (2 * Zpos (Pos.iter xO m d)).
  rewrite IH. lia.
Qed.

Lemma shl_align_spec m e e' : e' <= e ->
  snd (shl_align m e e') = e' /\ Zpos (fst (shl_align m e e')) = Zpos m * 2 ^ (e - e').
Proof.
  intros He. unfold shl_align. destruct (e' - e) as [|d|d] eqn:E; [|lia|].
  - replace e' with e by lia. cbn [fst snd]. split; [done|]. rewrite Z.sub_diag. lia.
  - cbn [fst snd]. split; [done|]. rewrite iter_xO. do 2 f_equal. lia.
Qed.

Lemma shl_align_id m e e' : e <= e' -> shl_align m e e' = (m, e).
Proof. intros He. unfold shl_align. by destruct (e' - e) as [|d|d] eqn:E; [|..|lia]. Qed.

(** The two notations [p * 2 ^ k] and [m * 2 ^ e] of one number. *)
Definition same_number (p : positive) (k : Z) (m : positive) (e : Z) : Prop :=
  forall u, u <= k -> u <= e -> Zpos p * 2 ^ (k - u) = Zpos m * 2 ^ (e - u).

Lemma round_canonical s m e p k : canonical_pair m e -> same_number p k m e ->
  binary_round 53 1024 s p k = S754_finite s m e.
Proof.
  intros Hm Hs. unfold binary_round. rewrite fexp_ulp. fold (digits p).
  destruct (Z.le_ge_cases k e) as [Hk|Hk].
  - pose proof (Hs k ltac:(lia) Hk) as E. rewrite Z.sub_diag, Z.mul_1_r in E.
    rewrite (digits_shift m (e - k) p ltac:(lia) E). replace (digits m + (e - k) + k) with (digits m + e) by lia.
    destruct Hm as [Hc He]. rewrite Hc. rewrite shl_align_id by lia.
    replace k with (e - (e - k)) by lia. by apply round_aux_canonical; [split|lia|].
  - pose proof (Hs e ltac:(lia) ltac:(lia)) as E. rewrite Z.sub_diag, Z.mul_1_r in E.
    assert (digits m = digits p + (k - e)) as Hd by (apply (digits_shift p); lia).
    replace (digits p + k) with (digits m + e) by lia. destruct Hm as [Hc He]. rewrite Hc.
    pose proof (shl_align_spec p k e Hk) as [H1 H2]. destruct (shl_align p k e) as [mz ez]. cbn in H1, H2. subst ez.
    rewrite E in H2. injection H2 as ->. replace e with (e - 0) at 1 by lia. apply round_aux_canonical; [by split|lia|lia].
Qed.

(** Every number of at most 53 bits within the range of exponents has a canonical notation. *)
Lemma representable p k : Zpos p < 2 ^ 53 -> EMIN <= k <= 971 ->
  exists m e, canonical_pair m e /\ same_number p k m e /\ e <= k.
Proof.
  intros Hp Hk. pose proof (digits_le p 53 ltac:(lia) Hp) as Hd.
  set (e := ulp_exp (digits p + k)). assert (e <= k) as He by (unfold e, ulp_exp; lia).
  pose proof (shl_align_spec p k e He) as [_ Hm]. set (m := fst (shl_align p k e)) in *.
  assert (digits m = digits p + (k - e)) as Hdm by (apply (digits_shift p); lia).
  exists m, e. split; [|split; [|done]].
  - split; [|lia]. rewrite Hdm. replace (digits p + (k - e) + e) with (digits p + k) by lia. done.
  - intros u Hu1 Hu2. rewrite Hm. rewrite <- Z.mul_assoc, <- Z.pow_add_r by lia. do 2 f_equal. lia.
Qed.

(** * Values *)

Definition canonical_f64 (x : f64) : Prop :=
  match x with
  | S754_zero _ => True
  | S754_finite _ m e => canonical_pair m e
  | _ => False
  end.

Definition scaled (x : f64) : Z :=
  match x with
  | S754_finite s m e => cond_Zopp s (Zpos m * 2 ^ (e - EMIN))
  | _ => 0
  end.

Definition unit_scaled : Z := 2 ^ (- EMIN).

Lemma unit_scaled_pos : 0 < unit_scaled.
Proof. apply Z.pow_pos_nonneg; lia. Qed.
#[global] Opaque unit_scaled.

Lemma same_scaled p k m e : EMIN <= k -> EMIN <= e ->
  Zpos p * 2 ^ (k - EMIN) = Zpos m * 2 ^ (e - EMIN) -> same_number p k m e.
Proof.
  intros Hk He E u Hu1 Hu2. destruct (Z.le_ge_cases EMIN u) as [Hu|Hu].
  - apply (Z.mul_cancel_r _ _ (2 ^ (u - EMIN))); [apply Z.pow_nonzero; lia|].
    rewrite <- !Z.mul_assoc, <- !Z.pow_add_r by lia.
    replace (k - u + (u - EMIN)) with (k - EMIN) by lia. replace (e - u + (u - EMIN)) with (e - EMIN) by lia. done.
  - replace (k - u) with (k - EMIN + (EMIN - u)) by lia. replace (e - u) with (e - EMIN + (EMIN - u)) by lia.
    rewrite !Z.pow_add_r, !Z.mul_assoc, E by lia. done.
Qed.

Lemma canonical_scaled_pos m e : 0 < Zpos m * 2 ^ (e - EMIN) \/ e < EMIN.
Proof. destruct (Z.lt_ge_cases e EMIN); [by right|left]. pose proof (Z.pow_pos_nonneg 2 (e - EMIN)). lia. Qed.

(** Canonical pairs are ordered like their exponents first. *)
Lemma exponent_first m1 e1 m2 e2 : canonical_pair m1 e1 -> canonical_pair m2 e2 -> e1 < e2 ->
  Zpos m1 * 2 ^ (e1 - EMIN) < Zpos m2 * 2 ^ (e2 - EMIN).
Proof.
  intros H1 H2 He. pose proof (canonical_pair_bounds m1 e1 H1) as [Hm1 He1].
  assert (2 ^ 52 <= Zpos m2) as Hm2.
  { destruct H2 as [H2 _]. unfold ulp_exp in H2. pose proof (digits_bounds m2) as [Hd _].
    replace (digits m2 - 1) with 52 in Hd by lia. done. }
  replace (e2 - EMIN) with (1 + (e1 - EMIN) + (e2 - e1 - 1)) by lia. rewrite !Z.pow_add_r by lia.
  pose proof (Z.pow_pos_nonneg 2 (e1 - EMIN)). pose proof (Z.pow_pos_nonneg 2 (e2 - e1 - 1)).
  assert (2 ^ 53 = 2 * 2 ^ 52) as E53 by reflexivity. rewrite E53 in Hm1.
  apply Z.lt_le_trans with (2 * 2 ^ 52 * 2 ^ (e1 - EMIN)); [nia|].
  apply Z.le_trans with (Zpos m2 * (2 ^ 1 * 2 ^ (e1 - EMIN))); nia.
Qed.

Lemma pair_compare m1 e1 m2 e2 : canonical_pair m1 e1 -> canonical_pair m2 e2 ->
  match e1 ?= e2 with Lt => Lt | Gt => Gt | Eq => Pos.compare_cont Eq m1 m2 end =
  (Zpos m1 * 2 ^ (e1 - EMIN) ?= Zpos m2 * 2 ^ (e2 - EMIN)).
Proof.
  intros H1 H2. symmetry. destruct (Z.compare_spec e1 e2) as [->|He|He].
  - pose proof (canonical_pair_bounds m2 e2 H2). pose proof (Z.pow_pos_nonneg 2 (e2 - EMIN)).
    change (Pos.compare_cont Eq m1 m2) with (Zpos m1 ?= Zpos m2).
    destruct (Z.compare_spec (Zpos m1) (Zpos m2)) as [->|Hm|Hm];
      [apply Z.compare_refl|apply Z.compare_lt_iff; nia|apply Z.compare_gt_iff; nia].
  - by apply Z.compare_lt_iff, exponent_first.
  - by apply Z.compare_gt_iff, exponent_first.
Qed.

Lemma compare_scaled x y : canonical_f64 x -> canonical_f64 y ->
  SFcompare x y = Some (scaled x ?= scaled y).
Proof.
  assert (forall m e, canonical_pair m e -> 0 < Zpos m * 2 ^ (e - EMIN)) as Hpos.
  { intros m e H. destruct (canonical_scaled_pos m e) as [|]; [done|]. apply canonical_pair_bounds in H. lia. }
  intros Hx Hy. destruct x as [sx|sx| |sx m1 e1], y as [sy|sy| |sy m2 e2]; cbn [canonical_f64] in *; try done;
    cbn [SFcompare scaled].
  - destruct sy; cbn [cond_Zopp]; f_equal; symmetry; [apply Z.compare_gt_iff|apply Z.compare_lt_iff];
      pose proof (Hpos _ _ Hy); lia.
  - destruct sx; cbn [cond_Zopp]; f_equal; symmetry; [apply Z.compare_lt_iff|apply Z.compare_gt_iff];
      pose proof (Hpos _ _ Hx); lia.
  - pose proof (Hpos _ _ Hx). pose proof (Hpos _ _ Hy). pose proof (pair_compare m1 e1 m2 e2 Hx Hy) as Hc.
    destruct sx, sy; cbn [cond_Zopp]; f_equal.
    + rewrite Z.compare_opp, (Z.compare_antisym (Zpos m1 * 2 ^ (e1 - EMIN)) (Zpos m2 * 2 ^ (e2 - EMIN))), <- Hc. by destruct (e1 ?= e2).
    + symmetry. apply Z.compare_lt_iff. lia.
    + symmetry. apply Z.compare_gt_iff. lia.
    + exact Hc.
Qed.

Lemma leb_scaled x y : canonical_f64 x -> canonical_f64 y -> SFleb x y = (scaled x <=? scaled y).
Proof.
  intros Hx Hy. unfold SFleb. rewrite compare_scaled by done. unfold Z.leb. by destruct (_ ?= _).
Qed.

Lemma ltb_scaled x y : canonical_f64 x -> canonical_f64 y -> SFltb x y = (scaled x <? scaled y).
Proof.
  intros Hx Hy. unfold SFltb. rewrite compare_scaled by done. unfold Z.ltb. by destruct (_ ?= _).
Qed.

(** * Exact results *)

Lemma normalize_scaled z k p k' : EMIN <= k -> Zpos p < 2 ^ 53 -> EMIN <= k' <= 971 ->
  Z.abs z * 2 ^ (k - EMIN) = Zpos p * 2 ^ (k' - EMIN) ->
  canonical_f64 (binary_normalize 53 1024 z k false) /\
  scaled (binary_normalize 53 1024 z k false) = z * 2 ^ (k - EMIN).
Proof.
  intros Hk Hp Hk' E. destruct (representable p k' Hp Hk') as (m & e & Hc & Hs & He).
  pose proof (canonical_pair_bounds m e Hc) as [_ Hb]. pose proof (Hs EMIN ltac:(lia) ltac:(lia)) as E2.
  destruct z as [|q|q]; cbn [binary_normalize]; [by cbn| |].
  - cbn [Z.abs] in E. rewrite (round_canonical false m e q k Hc); [|apply same_scaled; lia]. cbn. split; [done|lia].
  - cbn [Z.abs] in E. rewrite (round_canonical true m e q k Hc); [|apply same_scaled; lia]. cbn. split; [done|].
    change (Zneg q) with (- Zpos q). lia.
Qed.

Lemma f64_of_u64_exact_small n : (n < 2 ^ 53)%N ->
  canonical_f64 (f64_of_u64 n) /\ scaled (f64_of_u64 n) = Z.of_N n * unit_scaled.
Proof.
  intros Hn. unfold f64_of_u64. destruct n as [|p]; [by cbn|].
  apply (normalize_scaled (Zpos p) 0 p 0); [lia| |lia|done]. change (2 ^ 53) with (Z.of_N (2 ^ 53)). lia.
Qed.

Lemma aligned m e e' : EMIN <= e' -> e' <= e ->
  Zpos (fst (shl_align m e e')) * 2 ^ (e' - EMIN) = Zpos m * 2 ^ (e - EMIN).
Proof.
  intros H1 H2. rewrite (proj2 (shl_align_spec m e e' H2)), <- Z.mul_assoc, <- Z.pow_add_r by lia. do 2 f_equal. lia.
Qed.

(** A difference that has 53 bits is computed exactly. *)
Lemma sub_scaled x y p k : canonical_f64 x -> canonical_f64 y -> Zpos p < 2 ^ 53 -> EMIN <= k <= 971 ->
  (scaled x - scaled y = 0 \/ Z.abs (scaled x - scaled y) = Zpos p * 2 ^ (k - EMIN)) ->
  canonical_f64 (f64_sub x y) /\ scaled (f64_sub x y) = scaled x - scaled y.
Proof.
  intros Hx Hy Hp Hk Hd. destruct x as [sx|sx| |sx m1 e1], y as [sy|sy| |sy m2 e2]; cbn [canonical_f64] in Hx, Hy; try done;
    cbn [f64_sub SFsub].
  - destruct sx, sy; by cbn.
  - split; [done|]. cbn [scaled]. destruct sy; cbn [negb cond_Zopp]; lia.
  - split; [done|]. cbn [scaled]. lia.
  - unfold f64_sub, SFsub. cbv zeta.
    pose proof (canonical_pair_bounds _ _ Hx) as [_ B1]. pose proof (canonical_pair_bounds _ _ Hy) as [_ B2].
    set (ez := Z.min e1 e2). pose proof (aligned m1 e1 ez ltac:(lia) ltac:(lia)) as A1.
    pose proof (aligned m2 e2 ez ltac:(lia) ltac:(lia)) as A2.
    set (z := cond_Zopp sx _ - cond_Zopp sy _).
    assert (z * 2 ^ (ez - EMIN) = scaled (S754_finite sx m1 e1) - scaled (S754_finite sy m2 e2)) as Ez.
    { unfold z. cbn [scaled]. rewrite <- A1, <- A2. destruct sx, sy; cbn [cond_Zopp]; lia. }
    rewrite <- Ez in *. pose proof (Z.pow_pos_nonneg 2 (ez - EMIN) ltac:(lia) ltac:(lia)).
    destruct Hd as [Hd|Hd].
    + assert (z = 0) as -> by nia. by cbn.
    + apply (normalize_scaled z ez p k); [lia|done|done|]. rewrite <- Hd, Z.abs_mul, (Z.abs_eq (2 ^ _)); lia.
Qed.

(** Taking whole units from a number that has them is exact. *)
Lemma sub_units x n c : canonical_f64 x -> scaled x <= c * unit_scaled -> c < 2 ^ 53 ->
  Z.of_N n * unit_scaled <= scaled x ->
  canonical_f64 (f64_sub x (f64_of_u64 n)) /\ scaled (f64_sub x (f64_of_u64 n)) = scaled x - Z.of_N n * unit_scaled.
Proof.
  intros Hx Hc H53 Hn. pose proof unit_scaled_pos as Hu. assert (Z.of_N n < 2 ^ 53) as Hn53 by nia.
  destruct (f64_of_u64_exact_small n) as [Hy Ey]; [change (2 ^ 53) with (Z.of_N (2 ^ 53)) in Hn53; lia|].
  rewrite <- Ey. destruct (Z.eq_dec (scaled x - scaled (f64_of_u64 n)) 0) as [E|E].
  { by apply (sub_scaled x (f64_of_u64 n) 1 0); [..|left]. }
  destruct x as [s|s| |s m e]; cbn [canonical_f64] in Hx; try done; [cbn [scaled] in *; rewrite Ey in E; lia|].
  pose proof (canonical_pair_bounds m e Hx) as [Hm Hb]. pose proof (Z.pow_pos_nonneg 2 (e - EMIN)) as Hpow.
  destruct s; [cbn [scaled cond_Zopp] in Hn, E; rewrite Ey in E; nia|]. cbn [scaled cond_Zopp] in Hc, Hn, E.
  destruct (Z.le_gt_cases e 0) as [He|He].
  - assert (unit_scaled = 2 ^ (- e) * 2 ^ (e - EMIN)) as Eu.
    { rewrite <- Z.pow_add_r by lia. Transparent unit_scaled. unfold unit_scaled. Opaque unit_scaled. f_equal. lia. }
    set (q := Zpos m - Z.of_N n * 2 ^ (- e)).
    assert (q * 2 ^ (e - EMIN) = Zpos m * 2 ^ (e - EMIN) - Z.of_N n * unit_scaled) as Eq.
    { unfold q. rewrite Eu. lia. }
    assert (0 < q) as Hq by (rewrite Ey in E; nia).
    apply (sub_scaled _ _ (Z.to_pos q) e); [done|done| |lia|right].
    + rewrite Z2Pos.id by done. pose proof (Z.pow_pos_nonneg 2 (- e)). unfold q. lia.
    + rewrite Z2Pos.id by done. cbn [scaled cond_Zopp]. rewrite Ey, <- Eq. apply Z.abs_eq. nia.
  - exfalso. destruct Hx as [Hx _]. unfold ulp_exp in Hx. pose proof (digits_bounds m) as [Hd _].
    replace (digits m - 1) with 52 in Hd by lia.
    assert (2 ^ (e - EMIN) = 2 * 2 ^ (e - 1) * unit_scaled) as Eu.
    { Transparent unit_scaled. unfold unit_scaled. Opaque unit_scaled. rewrite <- Z.mul_assoc, <- Z.pow_add_r, <- Z.pow_succ_r by lia. f_equal. lia. }
    pose proof (Z.pow_pos_nonneg 2 (e - 1)). assert (2 ^ 53 = 2 * 2 ^ 52) as E53 by reflexivity. rewrite Eu in Hc. nia.
Qed.

(** * Rounded results *)

(** What an operation on non-negative numbers returns: a non-negative number or infinity. *)
Definition nonneg_f64 (x : f64) : Prop := canonical_f64 x /\ 0 <= scaled x \/ x = S754_infinity false.

Lemma iter_shr_m n z r s : 0 <= z -> shr_m (iter_pos shr_1 n (Build_shr_record z r s)) = z / 2 ^ Zpos n.
Proof.
  assert (forall z r s, 0 <= z -> exists r' s', shr_1 (Build_shr_record z r s) = Build_shr_record (z / 2) r' s') as H1.
  { intros [|[p|p|]|p] r0 s0 Hz; [..|lia]; cbn [shr_1].
    - by do 2 eexists.
    - do 2 eexists. f_equal. change (Zpos p~1) with (2 * Zpos p + 1). rewrite Z.mul_comm, Z.div_add_l by lia. by rewrite Z.add_0_r.
    - do 2 eexists. f_equal. change (Zpos p~0) with (2 * Zpos p). by rewrite Z.mul_comm, Z.div_mul.
    - by do 2 eexists. }
  assert (forall n z r s, 0 <= z -> exists r' s',
    iter_pos shr_1 n (Build_shr_record z r s) = Build_shr_record (z / 2 ^ Zpos n) r' s') as H2.
  { clear n z r s. induction n as [n IH|n IH|]; intros z r s Hz; cbn [iter_pos].
    - destruct (H1 z r s Hz) as (r1 & s1 & ->). destruct (IH (z / 2) r1 s1) as (r2 & s2 & ->); [apply Z.div_pos; lia|].
      destruct (IH (z / 2 / 2 ^ Zpos n) r2 s2) as (r3 & s3 & ->); [repeat apply Z.div_pos; lia|].
      do 2 eexists. f_equal. rewrite !Z.div_div by lia. f_equal.
      replace (Zpos n~1) with (1 + Zpos n + Zpos n) by lia. rewrite !Z.pow_add_r by lia. lia.
    - destruct (IH z r s Hz) as (r2 & s2 & ->).
      destruct (IH (z / 2 ^ Zpos n) r2 s2) as (r3 & s3 & ->); [apply Z.div_pos; lia|].
      do 2 eexists. f_equal. rewrite !Z.div_div by lia. f_equal.
      replace (Zpos n~0) with (Zpos n + Zpos n) by lia. rewrite !Z.pow_add_r by lia. lia.
    - destruct (H1 z r s Hz) as (r1 & s1 & ->). by do 2 eexists. }
  intros Hz. by destruct (H2 n z r s Hz) as (r' & s' & ->).
Qed.

Lemma shr_fexp_m z e l : 0 <= z -> e <= ulp_exp (Zdigits2 z + e) ->
  shr_m (fst (shr_fexp 53 1024 z e l)) = z / 2 ^ (ulp_exp (Zdigits2 z + e) - e) /\
  snd (shr_fexp 53 1024 z e l) = ulp_exp (Zdigits2 z + e).
Proof.
  intros Hz He. unfold shr_fexp. rewrite fexp_ulp.
  assert (exists r s, shr_record_of_loc z l = Build_shr_record z r s) as (r & s & ->).
  { destruct l as [|[]]; by do 2 eexists. }
  destruct (ulp_exp (Zdigits2 z + e) - e) as [|n|n] eqn:En; [| |lia].
  - cbn [shr fst snd shr_m]. rewrite Z.pow_0_r, Z.div_1_r. lia.
  - cbn [shr fst snd]. rewrite iter_shr_m by done. split; [done|lia].
Qed.

Lemma div_digits m n q : 0 <= n -> Zpos m / 2 ^ n = Zpos q -> digits q = digits m - n.
Proof.
  intros Hn E. pose proof (digits_bounds m) as [H1 H2]. pose proof (Z.pow_pos_nonneg 2 n) as Hp.
  assert (n < digits m) as Hlt.
  { destruct (Z.lt_ge_cases n (digits m)) as [|H]; [done|exfalso]. rewrite Z.div_small in E; [done|]. split; [lia|].
    pose proof (Z.pow_le_mono_r 2 (digits m) n ltac:(lia) H). lia. }
  apply digits_unique. rewrite <- E. split.
  - apply Z.div_le_lower_bound; [lia|]. rewrite <- Z.pow_add_r by lia. replace (n + (digits m - n - 1)) with (digits m - 1) by lia. done.
  - apply Z.div_lt_upper_bound; [lia|]. rewrite <- Z.pow_add_r by lia. replace (n + (digits m - n)) with (digits m) by lia. done.
Qed.

Lemma ulp_exp_mono a b : a <= b -> ulp_exp a <= ulp_exp b.
Proof. unfold ulp_exp. lia. Qed.

Lemma round_even_cases m l : round_nearest_even m l = m \/ round_nearest_even m l = m + 1.
Proof. destruct l as [|[]]; cbn; try destruct (Z.even m); auto. Qed.

Lemma Zdigits2_pos z : 0 < z -> exists p, z = Zpos p /\ Zdigits2 z = digits p.
Proof. destruct z as [|p|p]; [lia| |lia]. by exists p. Qed.

Lemma aux_nonneg m e l : 0 <= m -> e <= ulp_exp (Zdigits2 m + e) ->
  nonneg_f64 (binary_round_aux 53 1024 false m e l).
Proof.
  intros Hm He'. unfold binary_round_aux.
  pose proof (shr_fexp_m m e l Hm He') as [S1 S2]. destruct (shr_fexp 53 1024 m e l) as [mrs E]. cbn [fst snd] in S1, S2.
  pose proof (round_even_cases (shr_m mrs) (loc_of_shr_record mrs)) as Hr.
  set (m2 := round_nearest_even (shr_m mrs) (loc_of_shr_record mrs)) in *.
  assert (0 <= shr_m mrs) as Hm1 by (rewrite S1; apply Z.div_pos; [done|apply Z.pow_pos_nonneg; lia]).
  assert (EMIN <= E) as HE by (rewrite S2; unfold ulp_exp; lia).
  assert (shr_m mrs = 0 -> E = EMIN) as Hlow.
  { intros E0. destruct (Z.eq_dec m 0) as [->|Hm0]; [cbn [Zdigits2] in *; unfold ulp_exp in *; lia|].
    destruct (Zdigits2_pos m ltac:(lia)) as (p & -> & Ep). rewrite Ep in *.
    rewrite S1 in E0. pose proof (digits_bounds p) as [Hd _].
    assert (digits p + e <= E) as Hde; [|unfold ulp_exp in *; lia].
    destruct (Z.le_gt_cases (digits p + e) E) as [|Hgt]; [done|exfalso].
    assert (1 <= Zpos p / 2 ^ (ulp_exp (digits p + e) - e)); [|lia].
    apply Z.div_le_lower_bound; [apply Z.pow_pos_nonneg; lia|]. rewrite Z.mul_1_r.
    eapply Z.le_trans; [|exact Hd]. apply Z.pow_le_mono_r; lia. }
  assert (E <= ulp_exp (Zdigits2 m2 + E)) as HE2.
  { destruct (Z.eq_dec (shr_m mrs) 0) as [E0|E0]; [rewrite (Hlow E0); unfold ulp_exp; lia|].
    destruct (Zdigits2_pos m2 ltac:(lia)) as (p2 & Ep2 & ->).
    destruct (Zdigits2_pos m) as (p & -> & Ep).
      { destruct (Z.eq_dec m 0) as [->|]; [|lia]. rewrite Z.div_0_l in S1; [lia|]. apply Z.pow_nonzero; lia. }
      rewrite Ep in *. destruct (Zdigits2_pos (shr_m mrs) ltac:(lia)) as (p1 & Ep1 & _).
      assert (digits p1 = digits p - (E - e)) as D1.
      { apply div_digits; [lia|]. rewrite <- Ep1, S1, S2. done. }
      assert (digits p1 <= digits p2) as D2.
      { pose proof (digits_bounds p1) as [B1 _]. pose proof (digits_bounds p2) as [_ B2].
        assert (digits p1 - 1 < digits p2); [|lia]. pose proof (digits_pos p1). pose proof (digits_pos p2).
        apply (Z.pow_lt_mono_r_iff 2); lia. }
      rewrite S2 at 1. apply ulp_exp_mono. lia. }
  pose proof (shr_fexp_m m2 E loc_Exact ltac:(lia) HE2) as [T1 T2].
  destruct (shr_fexp 53 1024 m2 E loc_Exact) as [mrs2 E2]. cbn [fst snd] in T1, T2.
  assert (0 <= shr_m mrs2) as Hm3 by (rewrite T1; apply Z.div_pos; [lia|apply Z.pow_pos_nonneg; lia]).
  destruct (shr_m mrs2) as [|p3|p3] eqn:E3; [left; by cbn| |lia].
  destruct (Z.leb_spec E2 (1024 - 53)) as [Hle|]; [|by right]. left.
  assert (0 < m2) as Hm2.
  { destruct (Z.eq_dec m2 0) as [E0|]; [|lia]. by rewrite E0, Zdiv.Zdiv_0_l in T1. }
  destruct (Zdigits2_pos m2 Hm2) as (p2 & Ep2 & D2). rewrite D2 in *.
  assert (digits p3 = digits p2 - (E2 - E)) as D3 by (apply div_digits; [lia|]; rewrite <- Ep2, T2; done).
  split; [|cbn; pose proof (Z.pow_pos_nonneg 2 (E2 - EMIN)); nia]. cbn. split; [|lia].
  replace (digits p3 + E2) with (digits p2 + E) by lia. done.
Qed.

Lemma normalize_nonneg z e : 0 <= z -> nonneg_f64 (binary_normalize 53 1024 z e false).
Proof.
  intros Hz. destruct z as [|p|p]; [left; by cbn| |lia]. cbn [binary_normalize]. unfold binary_round.
  rewrite fexp_ulp. fold (digits p).
  destruct (Z.le_ge_cases e (ulp_exp (digits p + e))) as [H|H].
  - rewrite shl_align_id by done. apply aux_nonneg; [lia|done].
  - pose proof (shl_align_spec p e _ H) as [H1 H2]. destruct (shl_align p e _) as [mz ez]. cbn [fst snd] in H1, H2. subst ez.
    apply aux_nonneg; [lia|]. change (Zdigits2 (Zpos mz)) with (digits mz).
    rewrite (digits_shift p (e - ulp_exp (digits p + e)) mz) by (done || lia). apply ulp_exp_mono. lia.
Qed.

Lemma f64_of_u64_nonneg n : nonneg_f64 (f64_of_u64 n).
Proof. apply normalize_nonneg. lia. Qed.

Lemma canonical_sign s m e : canonical_pair m e -> 0 <= scaled (S754_finite s m e) -> s = false.
Proof. intros Hc H. destruct s; [|done]. pose proof (canonical_scaled_pos m e). apply canonical_pair_bounds in Hc. cbn in H. lia. Qed.

(** Sums, products and quotients of non-negative numbers. *)
Lemma add_nonneg x y : nonneg_f64 x -> nonneg_f64 y -> nonneg_f64 (f64_add x y).
Proof.
  intros [[Hx Sx]| ->] [[Hy Sy]| ->]; cbn [f64_add SFadd].
  - destruct x as [sx|sx| |sx m1 e1], y as [sy|sy| |sy m2 e2]; cbn [canonical_f64] in *; try done;
      [left; destruct sx, sy; by cbn|by left|by left|].
    rewrite (canonical_sign sx m1 e1 Hx Sx), (canonical_sign sy m2 e2 Hy Sy). apply normalize_nonneg. cbn [cond_Zopp]. lia.
  - right. destruct x as [|s| |]; try done. 
  - right. destruct y as [|s| |]; try done.
  - by right.
Qed.

Lemma mul_nonneg x y : canonical_f64 x -> 0 <= scaled x -> canonical_f64 y -> 0 <= scaled y -> nonneg_f64 (f64_mul x y).
Proof.
  intros Hx Sx Hy Sy. destruct x as [sx|sx| |sx m1 e1], y as [sy|sy| |sy m2 e2]; cbn [canonical_f64] in Hx, Hy; try done;
    try (left; by cbn).
  rewrite (canonical_sign sx m1 e1 Hx Sx), (canonical_sign sy m2 e2 Hy Sy). unfold f64_mul, SFmul. cbn [xorb].
  apply aux_nonneg; [lia|]. change (Zdigits2 (Zpos (m1 * m2))) with (digits (m1 * m2)).
  pose proof (digits_mul m1 m2). pose proof (digits_pos m1). pose proof (digits_pos m2).
  destruct Hx as [Cx _], Hy as [Cy _]. unfold ulp_exp in *. lia.
Qed.

Definition div_exp (m1 : positive) (e1 : Z) (m2 : positive) (e2 : Z) : Z :=
  Z.min (ulp_exp (digits m1 + e1 - (digits m2 + e2))) (e1 - e2).
Definition div_quot (m1 : positive) (e1 : Z) (m2 : positive) (e2 : Z) : Z :=
  Zpos m1 * 2 ^ (e1 - e2 - div_exp m1 e1 m2 e2) / Zpos m2.

Lemma div_shape m1 e1 m2 e2 : exists l,
  f64_div (S754_finite false m1 e1) (S754_finite false m2 e2) =
  binary_round_aux 53 1024 false (div_quot m1 e1 m2 e2) (div_exp m1 e1 m2 e2) l.
Proof.
  unfold f64_div, SFdiv, SFdiv_core_binary, div_quot. cbn [xorb]. rewrite fexp_ulp.
  change (Zdigits2 (Zpos m1)) with (digits m1). change (Zdigits2 (Zpos m2)) with (digits m2). fold (div_exp m1 e1 m2 e2).
  set (e := div_exp m1 e1 m2 e2). assert (e <= e1 - e2) as He by (unfold e, div_exp; lia).
  assert (match e1 - e2 - e with Zpos _ => Z.shiftl (Zpos m1) (e1 - e2 - e) | Z0 => Zpos m1 | Zneg _ => 0 end =
    Zpos m1 * 2 ^ (e1 - e2 - e)) as ->.
  { destruct (e1 - e2 - e) as [|k|k] eqn:E; [by rewrite Z.mul_1_r|by apply Z.shiftl_mul_pow2|lia]. }
  unfold Z.div. destruct (Z.div_eucl _ (Zpos m2)) as [q r]. by exists (new_location (Zpos m2) r).
Qed.

Lemma div_exponent m1 e1 m2 e2 :
  0 <= div_quot m1 e1 m2 e2 /\
  div_exp m1 e1 m2 e2 <= ulp_exp (Zdigits2 (div_quot m1 e1 m2 e2) + div_exp m1 e1 m2 e2).
Proof.
  unfold div_quot. set (D := digits m1 + e1 - (digits m2 + e2)).
  assert (div_exp m1 e1 m2 e2 = Z.min (ulp_exp D) (e1 - e2)) as Ee by done.
  set (e := div_exp m1 e1 m2 e2) in *. pose proof (Z.pow_pos_nonneg 2 (e1 - e2 - e) ltac:(lia) ltac:(lia)) as Hpow.
  set (q := Zpos m1 * 2 ^ (e1 - e2 - e) / Zpos m2). assert (0 <= q) as Hq by (apply Z.div_pos; lia). split; [done|].
  destruct (Z.le_gt_cases D e) as [HD|HD]; [unfold ulp_exp in *; lia|].
  assert (e <= ulp_exp D) as He by lia. eapply Z.le_trans; [exact He|]. apply ulp_exp_mono.
  pose proof (digits_bounds m1) as [B1 _]. pose proof (digits_bounds m2) as [_ B2].
  pose proof (digits_pos m1). pose proof (digits_pos m2).
  assert (2 ^ (D - e - 1) <= q) as Hlow.
  { apply Z.div_le_lower_bound; [lia|]. apply Z.le_trans with (2 ^ digits m2 * 2 ^ (D - e - 1)).
    { pose proof (Z.pow_pos_nonneg 2 (D - e - 1)). nia. }
    rewrite <- Z.pow_add_r by lia. replace (digits m2 + (D - e - 1)) with (digits m1 - 1 + (e1 - e2 - e)) by lia.
    rewrite Z.pow_add_r by lia. nia. }
  pose proof (Z.pow_pos_nonneg 2 (D - e - 1) ltac:(lia) ltac:(lia)).
  destruct (Zdigits2_pos q ltac:(lia)) as (p & Ep & ->). rewrite Ep in Hlow. pose proof (digits_bounds p) as [_ B3].
  pose proof (digits_pos p). assert (D - e - 1 < digits p); [|lia]. apply (Z.pow_lt_mono_r_iff 2); lia.
Qed.

Lemma div_nonneg x y : canonical_f64 x -> 0 <= scaled x -> canonical_f64 y -> 0 < scaled y -> nonneg_f64 (f64_div x y).
Proof.
  intros Hx Sx Hy Sy. destruct y as [sy|sy| |sy m2 e2]; cbn [canonical_f64] in Hy; [cbn in Sy; lia|done|done|].
  rewrite (canonical_sign sy m2 e2 Hy ltac:(lia)). clear Sy.
  destruct x as [sx|sx| |sx m1 e1]; cbn [canonical_f64] in Hx; try done; [left; by cbn|].
  rewrite (canonical_sign sx m1 e1 Hx Sx). clear Sx.
  destruct (div_shape m1 e1 m2 e2) as [l ->]. pose proof (div_exponent m1 e1 m2 e2) as [H1 H2]. by apply aux_nonneg.
Qed.

(** * Durations and bounds *)

Lemma nonneg_finite x : nonneg_f64 x -> is_finite x = true -> canonical_f64 x /\ 0 <= scaled x.
Proof. intros [H| ->] Hf; [exact H|done]. Qed.

Lemma nanos_canonical n : (n <= NANOS_PER_SEC)%N -> canonical_f64 (f64_of_u64 n) /\ scaled (f64_of_u64 n) = Z.of_N n * unit_scaled.
Proof. intros Hn. apply f64_of_u64_exact_small. eapply N.le_lt_trans; [exact Hn|reflexivity]. Qed.

Lemma as_secs_nonneg d : nonneg_f64 (as_secs_f64 d).
Proof.
  unfold as_secs_f64. apply add_nonneg; [apply f64_of_u64_nonneg|].
  pose proof unit_scaled_pos. assert (d mod NANOS_PER_SEC < NANOS_PER_SEC)%N as Hm by (apply N.mod_lt; done).
  destruct (nanos_canonical (d mod NANOS_PER_SEC)) as [C1 E1]; [lia|].
  destruct (nanos_canonical NANOS_PER_SEC) as [C2 E2]; [done|].
  apply div_nonneg; [done|rewrite E1; apply Z.mul_nonneg_nonneg; [apply N2Z.is_nonneg|lia]|done|].
  rewrite E2. by apply Z.mul_pos_pos.
Qed.

(** The smaller of a non-negative result and a bound. *)
Lemma min_nonneg x y : nonneg_f64 x -> canonical_f64 y -> 0 <= scaled y ->
  canonical_f64 (f64_min x y) /\ 0 <= scaled (f64_min x y) <= scaled y.
Proof.
  intros [[Hx Sx]| ->] Hy Sy; unfold f64_min.
  - rewrite compare_scaled by done. destruct (Z.compare_spec (scaled x) (scaled y)); (split; [done|lia]).
  - destruct y as [|s| |]; try done; cbn [SFcompare]; (split; [done|lia]).
Qed.

(** * Rounding up by at most one unit in the last place

    [2 ^ 52 * result <= (2 ^ 52 + 1) * exact], and one unit of [2 ^ -1074] more when the result
    may be subnormal.  [K] extra bits make the exact value an integer. *)
Lemma aux_upper m e l K : 0 <= m -> e <= ulp_exp (Zdigits2 m + e) -> 0 <= K -> EMIN <= e + K ->
  is_finite (binary_round_aux 53 1024 false m e l) = true ->
  scaled (binary_round_aux 53 1024 false m e l) * 2 ^ K * 2 ^ 52 <=
  (2 ^ 52 + 1) * (m * 2 ^ (e - EMIN + K)) +
  (if Z.eqb (ulp_exp (Zdigits2 m + e)) EMIN then 2 ^ K * 2 ^ 52 else 0).
Proof.
  intros Hm He HK HeK. unfold binary_round_aux.
  pose proof (shr_fexp_m m e l ltac:(lia) He) as [S1 S2]. destruct (shr_fexp 53 1024 m e l) as [mrs E]. cbn [fst snd] in S1, S2.
  pose proof (round_even_cases (shr_m mrs) (loc_of_shr_record mrs)) as Hr.
  set (m2 := round_nearest_even (shr_m mrs) (loc_of_shr_record mrs)) in *.
  rewrite <- S2 in *. assert (EMIN <= E) as HE by (rewrite S2; unfold ulp_exp; lia).
  pose proof (Z.pow_pos_nonneg 2 (E - e) ltac:(lia) ltac:(lia)) as HpE.
  assert (0 <= shr_m mrs) as Hm1 by (rewrite S1; apply Z.div_pos; lia).
  assert (shr_m mrs * 2 ^ (E - e) <= m) as Hm1m by (rewrite S1, Z.mul_comm; apply Z.mul_div_le; lia).
  destruct (shr_fexp 53 1024 m2 E loc_Exact) as [mrs2 E2] eqn:E2eq.
  intros Hfin. assert (scaled (match shr_m mrs2 with
      | Z0 => S754_zero false
      | Zpos p => if E2 <=? 1024 - 53 then S754_finite false p E2 else S754_infinity false
      | Zneg _ => S754_nan end) <= (shr_m mrs + 1) * 2 ^ (E - EMIN)) as Hup.
  { pose proof (Z.pow_pos_nonneg 2 (E - EMIN) ltac:(lia) ltac:(lia)).
    destruct (shr_m mrs2) as [|p|p] eqn:Ep; [cbn [scaled]; nia| |cbn [scaled]; nia].
    destruct (E2 <=? 1024 - 53) eqn:El; [|done]. cbn [scaled cond_Zopp].
    unfold shr_fexp in E2eq. rewrite fexp_ulp in E2eq. cbn [shr_record_of_loc] in E2eq.
    assert (Zpos p * 2 ^ (E2 - E) <= m2 /\ E <= E2) as [Hp HE2].
    { unfold shr in E2eq. destruct (ulp_exp (Zdigits2 m2 + E) - E) as [|n|n] eqn:En; injection E2eq as <- <-.
      - cbn [shr_m] in Ep. rewrite Z.sub_diag. lia.
      - rewrite iter_shr_m in Ep by lia. split; [|lia]. replace (E + Zpos n - E) with (Zpos n) by lia.
        rewrite <- Ep, Z.mul_comm. apply Z.mul_div_le. by apply Z.pow_pos_nonneg.
      - cbn [shr_m] in Ep. rewrite Z.sub_diag. lia. }
    replace (E2 - EMIN) with (E2 - E + (E - EMIN)) by lia. rewrite Z.pow_add_r by lia. nia. }
  set (r := scaled _) in *. clearbody r.
  assert (r * 2 ^ K <= m * 2 ^ (e - EMIN + K) + 2 ^ (E - EMIN + K)) as H1.
  { replace (E - EMIN + K) with (E - EMIN + K) by lia. rewrite (Z.pow_add_r 2 (E - EMIN) K) by lia.
    pose proof (Z.pow_pos_nonneg 2 K ltac:(lia) HK). pose proof (Z.pow_pos_nonneg 2 (E - EMIN) ltac:(lia) ltac:(lia)).
    assert (shr_m mrs * (2 ^ (E - EMIN) * 2 ^ K) <= m * 2 ^ (e - EMIN + K)) as H2; [|nia].
    rewrite <- Z.pow_add_r by lia. replace (E - EMIN + K) with (E - e + (e - EMIN + K)) by lia.
    rewrite Z.pow_add_r, Z.mul_assoc by lia. pose proof (Z.pow_pos_nonneg 2 (e - EMIN + K)). nia. }
  destruct (Z.eqb_spec E EMIN) as [EE|EE].
  - rewrite EE in H1. replace (EMIN - EMIN + K) with K in H1 by lia.
    pose proof (Z.pow_pos_nonneg 2 (e - EMIN + K)). nia.
  - destruct (Zdigits2_pos m) as (p & -> & Ep).
    { destruct (Z.eq_dec m 0) as [->|]; [cbn [Zdigits2] in *; unfold ulp_exp in *; lia|lia]. }
    rewrite Ep in S2. pose proof (digits_bounds p) as [B _].
    assert (2 ^ (E - EMIN + K) * 2 ^ 52 <= Zpos p * 2 ^ (e - EMIN + K)) as H2; [|lia].
    rewrite <- Z.pow_add_r by lia. pose proof (digits_pos p).
    replace (E - EMIN + K + 52) with (digits p - 1 + (e - EMIN + K)) by (unfold ulp_exp in *; lia).
    rewrite Z.pow_add_r by lia. pose proof (Z.pow_pos_nonneg 2 (e - EMIN + K)). nia.
Qed.

Lemma aux_exact_low p l : digits p <= 53 -> l = loc_Exact ->
  scaled (binary_round_aux 53 1024 false (Zpos p) EMIN l) = Zpos p.
Proof.
  intros Hd ->. assert (canonical_pair p EMIN) as Hc by (split; [unfold ulp_exp|]; lia).
  replace EMIN with (EMIN - 0) at 1 by lia. rewrite (round_aux_canonical false p EMIN p 0 Hc) by lia.
  cbn. lia.
Qed.

Lemma normalize_upper z e : 0 <= z -> EMIN <= e -> is_finite (binary_normalize 53 1024 z e false) = true ->
  scaled (binary_normalize 53 1024 z e false) * 2 ^ 52 <= (2 ^ 52 + 1) * (z * 2 ^ (e - EMIN)).
Proof.
  intros Hz He Hfin. destruct z as [|p|p]; [cbn; lia| |lia]. cbn [binary_normalize] in *. unfold binary_round in *.
  rewrite fexp_ulp in *. fold (digits p) in *.
  assert (exists q k, shl_align p e (ulp_exp (digits p + e)) = (q, k) /\ EMIN <= k /\ k <= ulp_exp (digits q + k) /\
    Zpos q * 2 ^ (k - EMIN) = Zpos p * 2 ^ (e - EMIN)) as (q & k & E & Hk & Hq & Ev).
  { destruct (Z.le_ge_cases e (ulp_exp (digits p + e))) as [H|H].
    - exists p, e. by rewrite shl_align_id.
    - assert (EMIN <= ulp_exp (digits p + e)) as Hu by (unfold ulp_exp; lia).
      pose proof (shl_align_spec p e _ H) as [H1 H2]. pose proof (aligned p e _ Hu H) as H3.
      destruct (shl_align p e _) as [q k]. cbn [fst snd] in *. subst k. exists q, (ulp_exp (digits p + e)).
      split; [done|]. split; [done|]. split; [|done]. rewrite (digits_shift p (e - ulp_exp (digits p + e)) q) by (done || lia).
      apply ulp_exp_mono. lia. }
  rewrite E in *. rewrite <- Ev.
  destruct (Z.eq_dec (ulp_exp (digits q + k)) EMIN) as [Elow|Ehigh].
  - assert (k = EMIN) as -> by lia. rewrite aux_exact_low; [|unfold ulp_exp in *; lia|done]. rewrite Z.sub_diag, Z.pow_0_r. lia.
  - pose proof (aux_upper (Zpos q) k loc_Exact 0 ltac:(lia) Hq ltac:(lia) ltac:(lia) Hfin) as H.
    change (Zdigits2 (Zpos q)) with (digits q) in H. apply Z.eqb_neq in Ehigh. rewrite Ehigh in H.
    replace (k - EMIN + 0) with (k - EMIN) in H by lia. lia.
Qed.

(** Only numbers of [2 ^ 1023] and more overflow. *)
Lemma aux_overflow m e l K : 0 < m -> e <= ulp_exp (Zdigits2 m + e) -> 0 <= K -> EMIN <= e + K ->
  is_finite (binary_round_aux 53 1024 false m e l) = false -> 2 ^ (1023 - EMIN + K) <= m * 2 ^ (e - EMIN + K).
Proof.
  intros Hm He HK HeK. unfold binary_round_aux.
  pose proof (shr_fexp_m m e l ltac:(lia) He) as [S1 S2]. destruct (shr_fexp 53 1024 m e l) as [mrs E]. cbn [fst snd] in S1, S2.
  pose proof (round_even_cases (shr_m mrs) (loc_of_shr_record mrs)) as Hr.
  set (m2 := round_nearest_even (shr_m mrs) (loc_of_shr_record mrs)) in *.
  rewrite <- S2 in *. assert (EMIN <= E) as HE by (rewrite S2; unfold ulp_exp; lia).
  pose proof (Z.pow_pos_nonneg 2 (E - e) ltac:(lia) ltac:(lia)) as HpE.
  assert (0 <= shr_m mrs) as Hm1 by (rewrite S1; apply Z.div_pos; lia).
  assert (shr_m mrs * 2 ^ (E - e) <= m) as Hm1m by (rewrite S1, Z.mul_comm; apply Z.mul_div_le; lia).
  destruct (Zdigits2_pos m Hm) as (p & -> & Ep). rewrite Ep in *.
  destruct (Z.le_gt_cases 1024 (digits p + e)) as [Hbig|Hsmall].
  { intros _. pose proof (digits_bounds p) as [B _]. pose proof (digits_pos p).
    apply Z.le_trans with (2 ^ (digits p - 1 + (e - EMIN + K))); [apply Z.pow_le_mono_r; lia|].
    rewrite Z.pow_add_r by lia. pose proof (Z.pow_pos_nonneg 2 (e - EMIN + K)). nia. }
  assert (E <= 970) as HE970 by (rewrite S2; unfold ulp_exp; lia).
  assert (E <= ulp_exp (Zdigits2 m2 + E) \/ m2 = 0) as HE2.
  { destruct (Z.eq_dec m2 0); [by right|left]. destruct (Z.eq_dec E EMIN) as [->|]; [unfold ulp_exp; lia|].
    destruct (Zdigits2_pos m2 ltac:(lia)) as (p2 & Ep2 & ->).
    assert (0 < shr_m mrs) as Hp1.
    { rewrite S1. apply Z.div_str_pos. split; [lia|]. pose proof (digits_bounds p) as [B _].
      eapply Z.le_trans; [|exact B]. apply Z.pow_le_mono_r; unfold ulp_exp in *; lia. }
    destruct (Zdigits2_pos (shr_m mrs) Hp1) as (p1 & Ep1 & _).
    assert (digits p1 = digits p - (E - e)) as D1 by (apply div_digits; [lia|]; rewrite <- Ep1; done).
    assert (digits p1 <= digits p2) as D2.
    { pose proof (digits_bounds p1) as [B1 _]. pose proof (digits_bounds p2) as [_ B2].
      assert (digits p1 - 1 < digits p2); [|lia]. pose proof (digits_pos p1). pose proof (digits_pos p2).
      apply (Z.pow_lt_mono_r_iff 2); lia. }
    rewrite S2 at 1. apply ulp_exp_mono. lia. }
  destruct HE2 as [HE2|E0]; [|rewrite E0; cbn].
  2: { unfold shr_fexp. rewrite fexp_ulp. cbn [Zdigits2 shr_record_of_loc]. intros Hf. exfalso. revert Hf.
       destruct (ulp_exp (0 + E) - E) as [|n|n]; cbn [shr shr_m]; [done| |done].
       by rewrite iter_shr_m, Zdiv.Zdiv_0_l by lia. }
  pose proof (shr_fexp_m m2 E loc_Exact ltac:(lia) HE2) as [T1 T2].
  destruct (shr_fexp 53 1024 m2 E loc_Exact) as [mrs2 E2]. cbn [fst snd] in T1, T2.
  assert (0 <= shr_m mrs2) as Hm3 by (rewrite T1; apply Z.div_pos; [lia|apply Z.pow_pos_nonneg; lia]).
  destruct (shr_m mrs2) as [|p3|p3] eqn:E3; [done| |lia].
  destruct (Z.leb_spec E2 (1024 - 53)) as [|Hlt]; [done|]. intros _. exfalso.
  assert (E2 <= 971); [|lia]. rewrite T2. destruct (Z.eq_dec m2 0) as [->|Hm2]; [cbn [Zdigits2]; unfold ulp_exp; lia|].
  destruct (Zdigits2_pos m2 ltac:(lia)) as (p2 & Ep2 & ->).
  assert (digits p2 <= 54); [|unfold ulp_exp; lia]. apply digits_le; [lia|].
  assert (shr_m mrs < 2 ^ 53) as Hs.
  { rewrite S1. apply Z.div_lt_upper_bound; [lia|]. pose proof (digits_bounds p) as [_ B].
    eapply Z.lt_le_trans; [exact B|]. rewrite <- Z.pow_add_r by lia. apply Z.pow_le_mono_r; [lia|]. unfold ulp_exp in S2. lia. }
  change (2 ^ 54) with (2 ^ 53 + 2 ^ 53). rewrite <- Ep2. assert (1 < 2 ^ 53) by reflexivity. lia.
Qed.

Lemma aux_overflow_zero e l : e <= ulp_exp e -> is_finite (binary_round_aux 53 1024 false 0 e l) = true.
Proof.
  intros He. assert (ulp_exp (Zdigits2 0 + e) = EMIN) as E by (cbn [Zdigits2]; unfold ulp_exp in *; lia).
  pose proof (shr_fexp_m 0 e l ltac:(lia) He) as [S1 S2]. unfold binary_round_aux.
  destruct (shr_fexp 53 1024 0 e l) as [mrs k]. cbn [fst snd] in S1, S2. rewrite Zdiv.Zdiv_0_l in S1.
  rewrite S1, S2, E. destruct (round_even_cases 0 (loc_of_shr_record mrs)) as [-> | ->]; by vm_compute.
Qed.

(** [x] is [a / b] rounded, up to the given number of units of [2 ^ -1074], or overflowed. *)
Definition rounds_to (x : f64) (a b slack : Z) : Prop :=
  canonical_f64 x /\ 0 <= scaled x /\ scaled x * b * 2 ^ 52 <= (2 ^ 52 + 1) * a + slack * b * 2 ^ 52 \/
  x = S754_infinity false /\ 2 ^ 1023 * unit_scaled * b <= a.

Lemma unit_scaled_eq : unit_scaled = 2 ^ (- EMIN).
Proof. reflexivity. Qed.

Lemma aux_rounds m e l K : 0 < m -> e <= ulp_exp (Zdigits2 m + e) -> 0 <= K -> EMIN <= e + K ->
  rounds_to (binary_round_aux 53 1024 false m e l) (m * 2 ^ (e - EMIN + K)) (2 ^ K) 1.
Proof.
  intros Hm He HK HeK. pose proof (Z.pow_pos_nonneg 2 K ltac:(lia) HK).
  destruct (is_finite (binary_round_aux 53 1024 false m e l)) eqn:Hf.
  - left. destruct (nonneg_finite _ (aux_nonneg m e l ltac:(lia) He) Hf) as [Hc Hs]. split; [done|]. split; [done|].
    pose proof (aux_upper m e l K ltac:(lia) He HK HeK Hf) as H1. destruct (Z.eqb _ _); lia.
  - right. split; [destruct (aux_nonneg m e l ltac:(lia) He) as [[Hc _]|]; [|done]; by destruct (binary_round_aux _ _ _ _ _ _)|].
    pose proof (aux_overflow m e l K Hm He HK HeK Hf) as H1. rewrite unit_scaled_eq, <- !Z.pow_add_r by lia.
    eapply Z.le_trans; [|exact H1]. apply Z.pow_le_mono_r; lia.
Qed.

Lemma normalize_rounds z e : 0 <= z -> EMIN <= e -> rounds_to (binary_normalize 53 1024 z e false) (z * 2 ^ (e - EMIN)) 1 0.
Proof.
  intros Hz He. destruct (is_finite (binary_normalize 53 1024 z e false)) eqn:Hf.
  - left. destruct (nonneg_finite _ (normalize_nonneg z e Hz) Hf) as [Hc Hs]. split; [done|]. split; [done|].
    pose proof (normalize_upper z e Hz He Hf). lia.
  - right. pose proof (normalize_nonneg z e Hz) as Hn. destruct z as [|p|p]; [done| |lia].
    split; [destruct Hn as [[Hc _]|]; [|done]; by destruct (binary_normalize _ _ _ _ _)|].
    cbn [binary_normalize] in Hf. unfold binary_round in Hf. rewrite fexp_ulp in Hf. fold (digits p) in Hf.
    destruct (Z.le_ge_cases e (ulp_exp (digits p + e))) as [H|H].
    + rewrite shl_align_id in Hf by done.
      pose proof (aux_overflow (Zpos p) e loc_Exact 0 ltac:(lia) H ltac:(lia) ltac:(lia) Hf) as H1.
      replace (e - EMIN + 0) with (e - EMIN) in H1 by lia. rewrite unit_scaled_eq, <- Z.pow_add_r, Z.mul_1_r by lia.
      eapply Z.le_trans; [|exact H1]. apply Z.pow_le_mono_r; lia.
    + assert (EMIN <= ulp_exp (digits p + e)) as Hu by (unfold ulp_exp; lia).
      pose proof (shl_align_spec p e _ H) as [H1 H2]. pose proof (aligned p e _ Hu H) as H3.
      destruct (shl_align p e _) as [q k]. cbn [fst snd] in *. subst k.
      assert (ulp_exp (digits p + e) <= ulp_exp (digits q + ulp_exp (digits p + e))) as Hq.
      { rewrite (digits_shift p (e - ulp_exp (digits p + e)) q) by (done || lia). apply ulp_exp_mono. lia. }
      pose proof (aux_overflow (Zpos q) _ loc_Exact 0 ltac:(lia) Hq ltac:(lia) ltac:(lia) Hf) as H4.
      rewrite <- H3, unit_scaled_eq, <- Z.pow_add_r, Z.mul_1_r by lia.
      replace (ulp_exp (digits p + e) - EMIN + 0) with (ulp_exp (digits p + e) - EMIN) in H4 by lia.
      eapply Z.le_trans; [|exact H4]. apply Z.pow_le_mono_r; lia.
Qed.

Lemma f64_of_u64_rounds n : rounds_to (f64_of_u64 n) (Z.of_N n * unit_scaled) 1 0.
Proof. rewrite unit_scaled_eq. apply (normalize_rounds (Z.of_N n) 0); lia. Qed.

Lemma rounds_self x : canonical_f64 x -> 0 <= scaled x -> rounds_to x (scaled x) 1 0.
Proof. intros Hc Hs. left. split; [done|]. split; [done|]. lia. Qed.

Lemma add_rounds x y : canonical_f64 x -> 0 <= scaled x -> canonical_f64 y -> 0 <= scaled y ->
  rounds_to (f64_add x y) (scaled x + scaled y) 1 0.
Proof.
  intros Hx Sx Hy Sy.
  destruct x as [sx|sx| |sx m1 e1], y as [sy|sy| |sy m2 e2]; cbn [canonical_f64] in Hx, Hy; try done.
  - destruct sx, sy; left; by cbn.
  - by apply rounds_self.
  - cbn [scaled] in *. rewrite Z.add_0_r. by apply rounds_self.
  - rewrite (canonical_sign sx m1 e1 Hx Sx), (canonical_sign sy m2 e2 Hy Sy) in *.
    pose proof (canonical_pair_bounds _ _ Hx) as [_ B1]. pose proof (canonical_pair_bounds _ _ Hy) as [_ B2].
    unfold f64_add, SFadd. cbv zeta. cbn [scaled cond_Zopp].
    rewrite <- (aligned m1 e1 (Z.min e1 e2)), <- (aligned m2 e2 (Z.min e1 e2)) by lia.
    rewrite <- Z.mul_add_distr_r. apply normalize_rounds; lia.
Qed.

Lemma mul_rounds x y : canonical_f64 x -> 0 <= scaled x -> canonical_f64 y -> 0 <= scaled y ->
  rounds_to (f64_mul x y) (scaled x * scaled y) unit_scaled 1.
Proof.
  intros Hx Sx Hy Sy. pose proof unit_scaled_pos.
  destruct x as [sx|sx| |sx m1 e1], y as [sy|sy| |sy m2 e2]; cbn [canonical_f64] in Hx, Hy; try done;
    try (left; cbn [scaled f64_mul SFmul canonical_f64]; split; [done|]; split; [done|]; lia).
  rewrite (canonical_sign sx m1 e1 Hx Sx), (canonical_sign sy m2 e2 Hy Sy) in *. clear Sx Sy.
  pose proof (canonical_pair_bounds _ _ Hx) as [_ B1]. pose proof (canonical_pair_bounds _ _ Hy) as [_ B2].
  assert (scaled (S754_finite false m1 e1) * scaled (S754_finite false m2 e2) =
    Zpos (m1 * m2) * 2 ^ (e1 + e2 - EMIN + - EMIN)) as ->.
  { cbn [scaled cond_Zopp]. replace (e1 + e2 - EMIN + - EMIN) with ((e1 - EMIN) + (e2 - EMIN)) by lia.
    rewrite Z.pow_add_r, Pos2Z.inj_mul by lia. lia. }
  rewrite unit_scaled_eq. apply aux_rounds; [lia| |lia|lia].
  change (Zdigits2 (Zpos (m1 * m2))) with (digits (m1 * m2)).
  pose proof (digits_mul m1 m2). destruct Hx as [Cx _], Hy as [Cy _]. pose proof (digits_pos m1). pose proof (digits_pos m2).
  unfold ulp_exp in *. lia.
Qed.

Lemma div_rounds x y : canonical_f64 x -> 0 <= scaled x -> canonical_f64 y -> 0 < scaled y ->
  rounds_to (f64_div x y) (scaled x * unit_scaled) (scaled y) 1.
Proof.
  intros Hx Sx Hy Sy. pose proof unit_scaled_pos as HU.
  destruct y as [sy|sy| |sy m2 e2]; cbn [canonical_f64] in Hy; [cbn in Sy; lia|done|done|].
  destruct x as [sx|sx| |sx m1 e1]; cbn [canonical_f64] in Hx; try done.
  { left. split; [done|]. split; [done|].
    assert (scaled (f64_div (S754_zero sx) (S754_finite sy m2 e2)) = 0) as -> by done. cbn [scaled] in *. lia. }
  rewrite (canonical_sign sy m2 e2 Hy ltac:(lia)), (canonical_sign sx m1 e1 Hx Sx) in *. clear Sx Sy.
  destruct (div_shape m1 e1 m2 e2) as [l ->]. pose proof (div_exponent m1 e1 m2 e2) as [H1 H2].
  assert (div_quot m1 e1 m2 e2 * Zpos m2 <= Zpos m1 * 2 ^ (e1 - e2 - div_exp m1 e1 m2 e2)) as Hq.
  { unfold div_quot. rewrite Z.mul_comm. apply Z.mul_div_le. lia. }
  assert (div_exp m1 e1 m2 e2 <= e1 - e2) as He by (unfold div_exp; lia).
  set (e := div_exp m1 e1 m2 e2) in *. set (q := div_quot m1 e1 m2 e2) in *. clearbody e q.
  pose proof (canonical_pair_bounds _ _ Hx) as [_ B1]. pose proof (canonical_pair_bounds _ _ Hy) as [_ B2].
  set (K := Z.max 0 (EMIN - e)). cbn [scaled cond_Zopp].
  pose proof (Z.pow_pos_nonneg 2 K ltac:(lia) ltac:(lia)) as HK. pose proof (Z.pow_pos_nonneg 2 (e2 - EMIN) ltac:(lia) ltac:(lia)) as H2p.
  set (Y := Zpos m2 * 2 ^ (e2 - EMIN)). assert (0 < Y) as HY by (unfold Y; lia).
  assert (q * 2 ^ (e - EMIN + K) * Y <= Zpos m1 * 2 ^ (e1 - EMIN) * unit_scaled * 2 ^ K) as H5.
  { unfold Y. pose proof (Z.pow_pos_nonneg 2 (e - EMIN + K) ltac:(lia) ltac:(lia)).
    apply Z.le_trans with (Zpos m1 * 2 ^ (e1 - e2 - e) * 2 ^ (e - EMIN + K) * 2 ^ (e2 - EMIN)); [nia|].
    rewrite unit_scaled_eq, <- !Z.mul_assoc, <- !Z.pow_add_r by lia. apply Z.eq_le_incl. do 2 f_equal. lia. }
  set (r := binary_round_aux 53 1024 false q e l) in *.
  destruct (is_finite r) eqn:Hf.
  - left. destruct (nonneg_finite _ (aux_nonneg q e l H1 H2) Hf) as [Hc Hs]. split; [done|]. split; [done|].
    pose proof (aux_upper q e l K H1 H2 ltac:(lia) ltac:(lia) Hf) as H3. fold r in H3. clearbody r.
    assert (scaled r * 2 ^ K * 2 ^ 52 <= (2 ^ 52 + 1) * (q * 2 ^ (e - EMIN + K)) + 2 ^ K * 2 ^ 52) as H4.
    { destruct (Z.eqb _ _); lia. }
    apply (Z.mul_le_mono_pos_r _ _ (2 ^ K)); [done|]. nia.
  - right. destruct (Z.eq_dec q 0) as [E0|Hq0].
    { exfalso. pose proof (aux_overflow_zero e l) as Hz. rewrite E0 in H2. subst r. by rewrite E0, Hz in Hf. }
    split; [destruct (aux_nonneg q e l H1 H2) as [[Hc _]|]; [|done]; subst r; by destruct (binary_round_aux _ _ _ _ _ _)|].
    pose proof (aux_overflow q e l K ltac:(lia) H2 ltac:(lia) ltac:(lia) Hf) as H3.
    assert (2 ^ (1023 - EMIN + K) = 2 ^ 1023 * unit_scaled * 2 ^ K) as E.
    { rewrite unit_scaled_eq, <- !Z.pow_add_r by lia. done. }
    rewrite E in H3. apply (Z.mul_le_mono_pos_r _ _ (2 ^ K)); [done|]. nia.
Qed.

(** A duration in seconds, at most three units in the last place too large. *)
Lemma as_secs_upper d : (d <= DURATION_MAX)%N ->
  canonical_f64 (as_secs_f64 d) /\ 0 <= scaled (as_secs_f64 d) /\
  scaled (as_secs_f64 d) * Z.of_N NANOS_PER_SEC * 2 ^ 52 <= (2 ^ 52 + 3) * (Z.of_N d * unit_scaled).
Proof.
  intros Hd. destruct (N.eq_dec d 0) as [->|Hd0]; [by cbn|].
  pose proof unit_scaled_pos as HU. assert (2 ^ 100 <= unit_scaled) as HU100 by (by rewrite unit_scaled_eq).
  assert (NANOS_PER_SEC <> 0)%N as HN0 by done.
  pose proof (N.mod_lt d NANOS_PER_SEC HN0) as Hm. pose proof (N.div_mod d NANOS_PER_SEC HN0) as Ed.
  unfold as_secs_f64. set (secs := (d / NANOS_PER_SEC)%N) in *. set (ns := (d mod NANOS_PER_SEC)%N) in *.
  assert (secs < 2 ^ 64)%N as Hsecs.
  { apply N.Div0.div_lt_upper_bound. eapply N.le_lt_trans; [exact Hd|]. reflexivity. }
  destruct (f64_of_u64_rounds secs) as [(C1 & P1 & U1)|[_ O1]].
  2: { exfalso. assert (Z.of_N secs < 2 ^ 64) by (change (2 ^ 64) with (Z.of_N (2 ^ 64)); lia).
       assert (2 ^ 64 < 2 ^ 1023) by reflexivity. nia. }
  destruct (nanos_canonical ns) as [C2 E2]; [lia|]. destruct (nanos_canonical NANOS_PER_SEC) as [C3 E3]; [done|].
  set (x1 := f64_of_u64 secs) in *. set (x2 := f64_of_u64 ns) in *. set (x3 := f64_of_u64 NANOS_PER_SEC) in *.
  set (N9 := Z.of_N NANOS_PER_SEC) in *. assert (N9 = 1000000000) as EN by done.
  assert (Z.of_N ns < N9) as Hns by (unfold N9; lia).
  assert (Z.of_N d = N9 * Z.of_N secs + Z.of_N ns) as ED by (unfold N9; lia). clearbody N9 x1 x2 x3.
  assert (0 <= scaled x2) as P2 by nia. assert (0 < scaled x3) as P3 by nia.
  destruct (div_rounds x2 x3 C2 P2 C3 P3) as [(C4 & P4 & U4)|[_ O4]].
  2: { exfalso. assert (1 < 2 ^ 1023) as Hb by reflexivity. assert (scaled x2 < scaled x3) as Hlt by nia.
       revert O4 Hb. generalize (2 ^ 1023). intros b O4 Hb. assert (scaled x2 * unit_scaled < scaled x3 * unit_scaled) by nia. nia. }
  set (x4 := f64_div x2 x3) in *. clearbody x4. clear C2 C3.
  rewrite E2, E3 in U4. assert (scaled x4 * N9 * 2 ^ 52 <= (2 ^ 52 + 1) * (Z.of_N ns * unit_scaled) + N9 * 2 ^ 52) as U4'.
  { apply (Z.mul_le_mono_pos_r _ _ unit_scaled); [done|]. lia. }
  clear U4 E2 E3 P2 P3.
  destruct (add_rounds x1 x4 C1 P1 C4 P4) as [(C5 & P5 & U5)|[_ O5]].
  2: { exfalso. assert (2 ^ 66 < 2 ^ 1023) as Hb by reflexivity. revert O5 Hb. generalize (2 ^ 1023). intros b O5 Hb.
       assert (Z.of_N secs < 2 ^ 64) by (change (2 ^ 64) with (Z.of_N (2 ^ 64)); lia).
       assert (scaled x1 < 2 ^ 65 * unit_scaled) by nia. assert (scaled x4 < 2 ^ 65 * unit_scaled) by nia. nia. }
  split; [done|]. split; [done|].
  rewrite ED.
  set (A := (N9 * Z.of_N secs + Z.of_N ns) * unit_scaled).
  assert ((scaled x1 + scaled x4) * N9 * 2 ^ 52 <= (2 ^ 52 + 1) * A + N9 * 2 ^ 52) as H1 by (unfold A; nia).
  assert (2 ^ 100 <= A) as H2 by (unfold A; nia).
  assert (scaled (f64_add x1 x4) * N9 * 2 ^ 52 <= (2 ^ 52 + 1) * ((scaled x1 + scaled x4) * N9)) as H3 by nia.
  clearbody A. clear - H1 H2 H3 EN. subst N9.
  set (S := scaled (f64_add x1 x4) * 1000000000) in *. set (T := (scaled x1 + scaled x4) * 1000000000) in *.
  clearbody S T. assert (T * (2 ^ 52 * (2 ^ 52 + 1)) <= ((2 ^ 52 + 1) * A + 1000000000 * 2 ^ 52) * (2 ^ 52 + 1)) by nia.
  lia.
Qed.

Lemma min_le_left x y : canonical_f64 x -> canonical_f64 y ->
  canonical_f64 (f64_min x y) /\ scaled (f64_min x y) <= scaled x.
Proof.
  intros Hx Hy. unfold f64_min. rewrite compare_scaled by done.
  destruct (Z.compare_spec (scaled x) (scaled y)); (split; [done|lia]).
Qed.

(** * Truncation *)

Lemma truncate_scaled m e : EMIN <= e -> Z.shiftl (Zpos m) e = (Zpos m * 2 ^ (e - EMIN)) / unit_scaled.
Proof.
  intros He. rewrite unit_scaled_eq. destruct (Z.le_gt_cases 0 e) as [H|H].
  - rewrite Z.shiftl_mul_pow2 by done. replace (e - EMIN) with (e + - EMIN) by lia.
    rewrite Z.pow_add_r, Z.mul_assoc by lia. rewrite Z.div_mul; [done|]. apply Z.pow_nonzero; lia.
  - replace (- EMIN) with ((e - EMIN) + - e) by lia. rewrite (Z.pow_add_r 2 (e - EMIN)) by lia.
    rewrite (Z.mul_comm (2 ^ (e - EMIN))). rewrite Z.div_mul_cancel_r by (apply Z.pow_nonzero; lia).
    rewrite <- Z.shiftr_div_pow2 by lia. unfold Z.shiftr. by rewrite Z.opp_involutive.
Qed.

(** The cast to an integer is the integral part, up to the width of the integer. *)
Lemma u128_of_f64_floor x : canonical_f64 x -> 0 <= scaled x ->
  u128_of_f64 x = N.min U128_MAX (Z.to_N (scaled x / unit_scaled)).
Proof.
  intros Hx Sx. destruct x as [s|s| |s m e]; try done.
  pose proof (canonical_sign s m e Hx Sx) as ->. cbn [u128_of_f64 scaled cond_Zopp].
  pose proof (canonical_pair_bounds _ _ Hx) as [_ B]. by rewrite truncate_scaled by lia.
Qed.

Lemma u128_of_f64_upper x b : canonical_f64 x -> 0 <= scaled x <= b * unit_scaled -> Z.of_N (u128_of_f64 x) <= b.
Proof.
  intros Hx Sx. rewrite u128_of_f64_floor by (done || lia). pose proof unit_scaled_pos.
  assert (0 <= scaled x / unit_scaled <= b) by (split; [apply Z.div_pos; lia|apply Z.div_le_upper_bound; lia]). lia.
Qed.

Lemma u128_of_f64_exact n : (n < 2 ^ 53)%N -> u128_of_f64 (f64_of_u128 n) = n.
Proof.
  intros Hn. destruct (f64_of_u64_exact_small n Hn) as [C E]. unfold f64_of_u128. pose proof unit_scaled_pos.
  rewrite u128_of_f64_floor; [|done|rewrite E; nia]. rewrite E, Z.div_mul by lia.
  assert (2 ^ 53 < U128_MAX)%N by done. lia.
Qed.

(** Multiplying by one is exact. *)
Lemma mul_one x : canonical_f64 x -> 0 <= scaled x -> f64_mul x (f64_of_u64 1) = x.
Proof.
  intros Hx Sx. destruct x as [s|s| |s m e]; [by destruct s|done|done|].
  change (f64_of_u64 1) with (S754_finite false (2 ^ 52) (-52)). cbn [f64_mul SFmul]. unfold f64_mul, SFmul.
  rewrite xorb_false_r. replace (e + -52) with (e - 52) by lia.
  apply round_aux_canonical; [done|done|]. by rewrite Pos2Z.inj_mul.
Qed.

(** The conversion of an integer, bounded. *)
Lemma f64_of_u128_bounds n : (n < 2 ^ 100)%N ->
  canonical_f64 (f64_of_u128 n) /\ 0 <= scaled (f64_of_u128 n) /\
  scaled (f64_of_u128 n) * 2 ^ 52 <= (2 ^ 52 + 1) * (Z.of_N n * unit_scaled).
Proof.
  intros Hn. unfold f64_of_u128. pose proof unit_scaled_pos. destruct (f64_of_u64_rounds n) as [(C & P & R)|[_ O]]; [split; [done|]; split; [done|]; lia|].
  exfalso. assert (2 ^ 100 < 2 ^ 1023) as Hbig by reflexivity. revert O Hbig. generalize (2 ^ 1023). intros b O Hbig.
  rewrite Z.mul_1_r in O. apply Z.mul_le_mono_pos_r in O; [|done]. assert (Z.of_N n < 2 ^ 100) by lia. lia.
Qed.

Lemma mul_finite x y : canonical_f64 x -> 0 <= scaled x -> nonneg_f64 y -> is_finite (f64_mul x y) = true ->
  canonical_f64 (f64_mul x y) /\ 0 <= scaled (f64_mul x y).
Proof.
  intros Hx Sx [[Hy Sy]| ->] Hf; [by apply nonneg_finite; [apply mul_nonneg|]|]. by destruct x.
Qed.
