(* ===== verification/RateLimit.v ===== *)
(** The token bucket: crates/pcloud-resilience/src/rate_limit.rs.

    The mutex makes a call one critical section; the injected clock is the argument [now].  The
    theorems are about any run of calls of any threads: [burst_bounded] for the calls at one
    reading of the clock, [rate_bounded] over time. *)
From S2P Require Import Prelude Clock Ieee IeeeExact.

Record TokenBucketConfig : Type := mkBucketConfig {
  capacity : N;
  refill_rate_per_sec : f64;
}.

Inductive RateLimitError : Type :=
| InvalidConfig (what : string)
| RequestExceedsCapacity (requested capacity : N).

(** [TokenBucketConfig::new]. *)
Definition bucket_config_new (capacity : N) (rate : f64) : result TokenBucketConfig RateLimitError :=
  if decide (capacity = 0%N) then Err (InvalidConfig "capacity must be > 0")
  else if negb (is_finite rate && SFltb f64_zero rate)
  then Err (InvalidConfig "refill_rate_per_sec must be a positive finite number")
  else Ok (mkBucketConfig capacity rate).

Record BucketState : Type := mkBucket {
  tokens : f64;
  last_refill : Instant;
}.

(** [TokenBucket::with_clock]: the bucket starts full. *)
Definition bucket_new (cfg : TokenBucketConfig) (now : Instant) : BucketState :=
  mkBucket (f64_of_u64 (capacity cfg)) now.

Section TokenBucket.
Variable cfg : TokenBucketConfig.

Definition refill_locked (now : Instant) (st : BucketState) : BucketState :=
  if decide (now <= last_refill st)%N then st
  else
    let elapsed := duration_since now (last_refill st) in
    let added := f64_mul (as_secs_f64 elapsed) (refill_rate_per_sec cfg) in
    mkBucket (f64_min (f64_add (tokens st) added) (f64_of_u64 (capacity cfg))) now.

Definition bucket_try_acquire (now : Instant) (n : N) (st : BucketState) : result bool RateLimitError * BucketState :=
  if decide (n = 0)%N then (Ok true, st)
  else if decide (capacity cfg < n)%N then (Err (RequestExceedsCapacity n (capacity cfg)), st)
  else
    let st := refill_locked now st in
    let need := f64_of_u64 n in
    if SFleb need (tokens st) then (Ok true, mkBucket (f64_sub (tokens st) need) (last_refill st))
    else (Ok false, st).

(** The duration is [None] when [Duration::from_secs_f64] panics. *)
Definition bucket_acquire (now : Instant) (n : N) (st : BucketState)
    : result (option Duration) RateLimitError * BucketState :=
  if decide (n = 0)%N then (Ok (Some 0%N), st)
  else if decide (capacity cfg < n)%N then (Err (RequestExceedsCapacity n (capacity cfg)), st)
  else
    let st := refill_locked now st in
    let left := f64_sub (tokens st) (f64_of_u64 n) in
    let st := mkBucket left (last_refill st) in
    if SFleb f64_zero left then (Ok (Some 0%N), st)
    else (Ok (from_secs_f64 (f64_div (SFopp left) (refill_rate_per_sec cfg))), st).

Definition available_tokens (now : Instant) (st : BucketState) : f64 * BucketState :=
  let st := refill_locked now st in (f64_max (tokens st) f64_zero, st).

Definition peek_wait_for (now : Instant) (n : N) (st : BucketState)
    : result (option Duration) RateLimitError * BucketState :=
  if decide (n = 0)%N then (Ok (Some 0%N), st)
  else if decide (capacity cfg < n)%N then (Err (RequestExceedsCapacity n (capacity cfg)), st)
  else
    let st := refill_locked now st in
    let need := f64_of_u64 n in
    if SFleb need (tokens st) then (Ok (Some 0%N), st)
    else (Ok (from_secs_f64 (f64_div (f64_sub need (tokens st)) (refill_rate_per_sec cfg))), st).

(** The calls that shed; [acquire] is the other way of using a bucket. *)
Inductive bucket_call : Type :=
| CallTryAcquire (n : N)
| CallAvailable
| CallPeek (n : N).

(** A call at a time: the tokens it grants and the new state. *)
Definition bucket_step (now : Instant) (c : bucket_call) (st : BucketState) : N * BucketState :=
  match c with
  | CallTryAcquire n =>
      let '(r, st) := bucket_try_acquire now n st in
      (match r with Ok true => n | _ => 0%N end, st)
  | CallAvailable => (0%N, (available_tokens now st).2)
  | CallPeek n => (0%N, (peek_wait_for now n st).2)
  end.

(** The tokens granted by a run. *)
Fixpoint bucket_run (calls : list (Instant * bucket_call)) (st : BucketState) : N * BucketState :=
  match calls with
  | [] => (0%N, st)
  | (now, c) :: calls =>
      let '(n, st) := bucket_step now c st in
      let '(ns, st) := bucket_run calls st in ((n + ns)%N, st)
  end.
End TokenBucket.

(** The documented example: a full bucket of two, then empty, then one token after a second. *)
Example two_then_refill :
  let cfg := mkBucketConfig 2 (f64_of_u64 1) in
  bucket_run cfg [(0, CallTryAcquire 1); (0, CallTryAcquire 1); (0, CallTryAcquire 1);
    (999999999, CallTryAcquire 1); (1000000000, CallTryAcquire 1)]%N (bucket_new cfg 0) =
  (3%N, mkBucket f64_zero 1000000000).
Proof. vm_compute. reflexivity. Qed.

(** * The invariant *)

(** A configuration that [TokenBucketConfig::new] accepts: a [u32] and a positive finite [f64]. *)
Definition bucket_config_ok (cfg : TokenBucketConfig) : Prop :=
  (0 < capacity cfg < 2 ^ 32)%N /\ canonical_f64 (refill_rate_per_sec cfg) /\ (0 < scaled (refill_rate_per_sec cfg))%Z.

Lemma bucket_config_new_ok capacity rate cfg :
  (capacity < 2 ^ 32)%N -> valid_binary 53 1024 rate = true ->
  bucket_config_new capacity rate = Ok cfg -> bucket_config_ok cfg.
Proof.
  intros Hc Hv. unfold bucket_config_new. case_decide as H0; [done|].
  destruct (is_finite rate) eqn:Hf; [|done]. destruct (SFltb f64_zero rate) eqn:Hl; [|done]. cbn. intros [= <-].
  assert (canonical_f64 rate) as Hcan.
  { destruct rate as [| | |s m e]; try done. by apply bounded_pair. }
  split; [cbn; lia|]. split; [done|]. cbn. rewrite ltb_scaled in Hl by done. by apply Z.ltb_lt.
Qed.

Section Bounds.
Context (cfg : TokenBucketConfig) (Hcfg : bucket_config_ok cfg).
#[local] Open Scope Z_scope.

Abbreviation C := (Z.of_N (capacity cfg)).
Abbreviation U := unit_scaled.

(** The bucket holds between zero and [capacity] tokens. *)
Definition bucket_ok (st : BucketState) : Prop :=
  canonical_f64 (tokens st) /\ 0 <= scaled (tokens st) <= C * U.

Lemma units n : (n <= capacity cfg)%N -> canonical_f64 (f64_of_u64 n) /\ scaled (f64_of_u64 n) = Z.of_N n * U.
Proof.
  intros Hn. destruct Hcfg as [[_ Hc] _]. apply f64_of_u64_exact_small.
  assert (2 ^ 32 < 2 ^ 53)%N by done. lia.
Qed.

Lemma C_bound : 0 < C < 2 ^ 32.
Proof. destruct Hcfg as [[H1 H2] _]. change (2 ^ 32) with (Z.of_N (2 ^ 32)). lia. Qed.

Lemma full_ok now : bucket_ok (bucket_new cfg now).
Proof.
  destruct (units (capacity cfg)) as [H1 H2]; [done|]. split; [done|]. cbn. rewrite H2.
  pose proof unit_scaled_pos. pose proof C_bound. split; [nia|done].
Qed.

Lemma refill_ok now st : bucket_ok st -> bucket_ok (refill_locked cfg now st).
Proof.
  intros [H1 H2]. unfold refill_locked. case_decide; [done|]. unfold bucket_ok. cbn [tokens].
  destruct (units (capacity cfg)) as [H3 H4]; [done|]. rewrite <- H4. pose proof unit_scaled_pos. pose proof C_bound.
  apply min_nonneg; [|done|rewrite H4; nia].
  apply add_nonneg; [left; split; [done|lia]|]. destruct Hcfg as (_ & Hr & Hr').
  destruct (as_secs_nonneg (duration_since now (last_refill st))) as [[Hs Hs']|Hs]; [apply mul_nonneg; auto; lia|].
  rewrite Hs. destruct (refill_rate_per_sec cfg) as [s|s| |s m e]; try done; cbn in Hr'.
  right. cbn. assert (s = false) as ->; [|done]. apply (canonical_sign s m e); [done|cbn; lia].
Qed.

(** What a call grants is taken from the bucket, exactly. *)
Lemma take_units n st : bucket_ok st -> (n <= capacity cfg)%N -> SFleb (f64_of_u64 n) (tokens st) = true ->
  bucket_ok (mkBucket (f64_sub (tokens st) (f64_of_u64 n)) (last_refill st)) /\
  scaled (f64_sub (tokens st) (f64_of_u64 n)) = scaled (tokens st) - Z.of_N n * U.
Proof.
  intros [H1 H2] Hn Hl. destruct (units n Hn) as [H3 H4]. rewrite leb_scaled, H4 in Hl by done. apply Z.leb_le in Hl.
  pose proof C_bound. destruct (sub_units (tokens st) n C H1) as [H5 H6]; [lia|lia|done|].
  pose proof unit_scaled_pos. split; [|done]. split; [done|]. cbn [tokens]. rewrite H6. nia.
Qed.

Lemma refill_last now st : last_refill (refill_locked cfg now st) = N.max (last_refill st) now.
Proof. unfold refill_locked. case_decide; cbn; lia. Qed.

(** A call does nothing, or refills the bucket and takes what it grants. *)
Lemma bucket_step_spec now c st : bucket_ok st ->
  let '(n, st') := bucket_step cfg now c st in
  bucket_ok st' /\
  (n = 0%N /\ st' = st \/
   last_refill st' = N.max (last_refill st) now /\
   scaled (tokens (refill_locked cfg now st)) = scaled (tokens st') + Z.of_N n * U).
Proof.
  intros Hst. pose proof (refill_ok now st Hst) as Hre. pose proof (refill_last now st) as Hlast.
  destruct c as [n| |n]; cbn [bucket_step].
  - unfold bucket_try_acquire. case_decide as H0; [subst n; by auto|]. case_decide as H1; [by auto|].
    destruct (SFleb _ _) eqn:Hl.
    + destruct (take_units n (refill_locked cfg now st) Hre ltac:(lia) Hl) as [H2 H3].
      split; [done|]. right. split; [done|]. cbn [tokens]. lia.
    + split; [done|]. right. split; [done|lia].
  - cbn. split; [done|]. right. split; [done|lia].
  - unfold peek_wait_for. case_decide as H0; [by auto|]. case_decide as H1; [by auto|].
    destruct (SFleb _ _); (split; [done|]; right; split; [done|cbn; lia]).
Qed.

Lemma bucket_run_ok calls st : bucket_ok st -> bucket_ok (bucket_run cfg calls st).2.
Proof.
  revert st. induction calls as [|[now c] calls IH]; intros st Hst; [done|]. cbn [bucket_run].
  pose proof (bucket_step_spec now c st Hst) as H. destruct (bucket_step cfg now c st) as [n st1]. destruct H as (H1 & _).
  specialize (IH st1 H1). by destruct (bucket_run cfg calls st1).
Qed.

(** The last refill is no later than the last reading of the clock. *)
Lemma run_last calls st bound : bucket_ok st -> (last_refill st <= bound)%N -> Forall (λ c, (c.1 <= bound)%N) calls ->
  (last_refill (bucket_run cfg calls st).2 <= bound)%N.
Proof.
  intros Hst Hl Hc. revert st Hst Hl. induction Hc as [|[now c] calls Hnow Hc IH]; intros st Hst Hl; [done|]. cbn [bucket_run].
  pose proof (bucket_step_spec now c st Hst) as H. destruct (bucket_step cfg now c st) as [n st1]. destruct H as (H1 & H2).
  cbn in Hnow. assert (last_refill st1 <= bound)%N as Hl1 by (destruct H2 as [[_ ->]|[-> _]]; lia).
  specialize (IH st1 H1 Hl1). by destruct (bucket_run cfg calls st1).
Qed.

(** * At one reading of the clock *)

Lemma refill_current now st : (now <= last_refill st)%N -> refill_locked cfg now st = st.
Proof. intros H. unfold refill_locked. by rewrite decide_True. Qed.

Lemma burst_takes now calls st : bucket_ok st -> Forall (λ c, c.1 = now) calls ->
  Z.of_N (bucket_run cfg calls st).1 * U <= scaled (tokens (refill_locked cfg now st)).
Proof.
  intros Hst Hc. revert st Hst. induction Hc as [|[t c] calls Ht Hc IH]; intros st Hst.
  - cbn. apply refill_ok, Hst.
  - cbn in Ht. subst t. cbn [bucket_run]. pose proof (bucket_step_spec now c st Hst) as H.
    destruct (bucket_step cfg now c st) as [n st1]. destruct H as [H1 H2]. specialize (IH st1 H1).
    destruct (bucket_run cfg calls st1) as [ns st2]. cbn [fst] in *. destruct H2 as [[-> ->]|[H2 H3]]; [lia|].
    rewrite refill_current in IH by lia. lia.
Qed.
End Bounds.

(** However the bucket was used before, the calls that come at one reading of the clock are
    granted no more than [capacity] tokens together; and a new bucket grants that many single
    tokens at once. *)
Theorem burst_bounded cfg t0 history now calls
  (Hcfg : bucket_config_ok cfg) (Hnow : Forall (λ c, c.1 = now) calls) :
  ((bucket_run cfg calls (bucket_run cfg history (bucket_new cfg t0)).2).1 <= capacity cfg)%N /\
  forall k, (bucket_run cfg (replicate k (t0, CallTryAcquire 1)) (bucket_new cfg t0)).1 = N.min (N.of_nat k) (capacity cfg).
Proof.
  pose proof (full_ok cfg Hcfg t0) as Hfull. pose proof unit_scaled_pos. split.
  - pose proof (bucket_run_ok cfg Hcfg history _ Hfull) as Hst.
    pose proof (burst_takes cfg Hcfg now calls _ Hst Hnow) as H1.
    pose proof (refill_ok cfg Hcfg now _ Hst) as [_ H2]. nia.
  - intros k. assert (scaled (tokens (bucket_new cfg t0)) = Z.of_N (capacity cfg) * unit_scaled)%Z as Es
      by exact (proj2 (units cfg Hcfg (capacity cfg) ltac:(lia))).
    assert (forall st c, bucket_ok cfg st -> last_refill st = t0 -> (c <= capacity cfg)%N ->
      scaled (tokens st) = (Z.of_N c * unit_scaled)%Z ->
      (bucket_run cfg (replicate k (t0, CallTryAcquire 1)) st).1 = N.min (N.of_nat k) c) as Hrun.
    2: { by apply Hrun. }
    clear Es. induction k as [|k IH]; intros st c Hst Hlast Hc Es; [cbn; lia|].
    rewrite replicate_S. cbn [bucket_run bucket_step]. unfold bucket_try_acquire.
    pose proof (proj1 (proj1 Hcfg)) as Hcap. rewrite decide_False by done. rewrite decide_False by lia.
    rewrite refill_current by lia. destruct (units cfg Hcfg 1) as [H1 H2]; [lia|].
    destruct (SFleb _ _) eqn:Hl.
    + destruct (take_units cfg Hcfg 1 st Hst ltac:(lia) Hl) as [H3 H4].
      rewrite leb_scaled, H2, Es in Hl by (done || apply Hst). apply Z.leb_le in Hl.
      pose proof (IH _ (c - 1)%N H3 Hlast) as IH1. destruct (bucket_run _ _ _) as [ns st2]. cbn [fst] in *.
      rewrite IH1; [|lia|cbn [tokens]; nia]. nia.
    + rewrite leb_scaled, H2, Es in Hl by (done || apply Hst). apply Z.leb_gt in Hl.
      pose proof (IH st c Hst Hlast Hc Es) as IH1. destruct (bucket_run _ _ _) as [ns st2]. cbn [fst] in *. nia.
Qed.

(** * Over time *)

Section Rate.
Context (cfg : TokenBucketConfig) (Hcfg : bucket_config_ok cfg).
#[local] Open Scope Z_scope.

Abbreviation C := (Z.of_N (capacity cfg)).
Abbreviation R := (scaled (refill_rate_per_sec cfg)).
Abbreviation U := unit_scaled.
Abbreviation N9 := (Z.of_N NANOS_PER_SEC).

(** The arithmetic of a refill: [s] seconds are rounded to [S], the product to [A], the sum to
    [T']. *)
Lemma refill_arith S A T T' d :
  0 < U -> 0 < C -> 0 < R -> 0 <= T <= C * U -> 0 <= A -> 0 <= d ->
  S * N9 * 2 ^ 52 <= (2 ^ 52 + 3) * (d * U) ->
  A * U * 2 ^ 52 <= (2 ^ 52 + 1) * (S * R) + 1 * U * 2 ^ 52 ->
  T' <= C * U -> (A < C * U -> T' * 2 ^ 52 <= (2 ^ 52 + 1) * (T + A)) ->
  T' * (N9 * 2 ^ 52) <= T * (N9 * 2 ^ 52) + (2 ^ 52 + 5) * (d * R) + N9 * (2 * (C * U) + 2 ^ 52).
Proof.
  intros HU HC HR HT HA Hd HS HAS HT1 HT2. set (n := N9) in *. assert (0 < n) as Hn by done. clearbody n.
  set (CU := C * U) in *. clearbody CU.
  assert (A * n * 2 ^ 52 <= (2 ^ 52 + 5) * (d * R) + n * 2 ^ 52) as H1.
  { apply (Z.mul_le_mono_pos_r _ _ (U * 2 ^ 52)); [lia|].
    assert (A * U * 2 ^ 52 * n * 2 ^ 52 <= (2 ^ 52 + 1) * ((2 ^ 52 + 3) * (d * U) * R) + U * 2 ^ 52 * n * 2 ^ 52) as H2.
    { assert (S * n * 2 ^ 52 * R <= (2 ^ 52 + 3) * (d * U) * R) by (apply Z.mul_le_mono_nonneg_r; lia).
      assert (A * U * 2 ^ 52 * (n * 2 ^ 52) <= ((2 ^ 52 + 1) * (S * R) + 1 * U * 2 ^ 52) * (n * 2 ^ 52)) by (apply Z.mul_le_mono_nonneg_r; lia).
      lia. }
    assert (0 <= d * U * R) by (apply Z.mul_nonneg_nonneg; [apply Z.mul_nonneg_nonneg|]; lia).
    set (X := d * U * R) in *. replace ((2 ^ 52 + 1) * ((2 ^ 52 + 3) * (d * U) * R)) with ((2 ^ 52 + 1) * (2 ^ 52 + 3) * X) in H2 by (unfold X; lia).
    replace (((2 ^ 52 + 5) * (d * R) + n * 2 ^ 52) * (U * 2 ^ 52)) with ((2 ^ 52 + 5) * 2 ^ 52 * X + U * 2 ^ 52 * n * 2 ^ 52) by (unfold X; lia).
    replace (A * n * 2 ^ 52 * (U * 2 ^ 52)) with (A * U * 2 ^ 52 * n * 2 ^ 52) by lia.
    clearbody X. lia. }
  assert (T' * 2 ^ 52 <= 2 ^ 52 * (T + A) + 2 * CU) as H2.
  { destruct (Z.lt_ge_cases A CU) as [Hlt|Hge]; [specialize (HT2 Hlt); lia|lia]. }
  assert (T' * 2 ^ 52 * n <= (2 ^ 52 * (T + A) + 2 * CU) * n) by (apply Z.mul_le_mono_nonneg_r; lia). lia.
Qed.

Lemma refill_rate now st : bucket_ok cfg st -> (now <= DURATION_MAX)%N ->
  scaled (tokens (refill_locked cfg now st)) * (N9 * 2 ^ 52) <=
  scaled (tokens st) * (N9 * 2 ^ 52) + (2 ^ 52 + 5) * (Z.of_N (now - last_refill st) * R) + N9 * (2 * (C * U) + 2 ^ 52).
Proof.
  intros [Hc Ht] Hnow. pose proof unit_scaled_pos as HU. pose proof (C_bound cfg Hcfg) as HC.
  destruct Hcfg as (_ & Hr & Hr'). pose proof (refill_ok cfg Hcfg now st (conj Hc Ht)) as [_ Hcap]. revert Hcap.
  unfold refill_locked. case_decide as Hlt; intros Hcap.
  { assert (now - last_refill st = 0)%N as -> by lia. assert (0 < N9) by done. nia. }
  unfold duration_since in *. set (d := (now - last_refill st)%N) in *. cbn [tokens] in *.
  destruct (as_secs_upper d ltac:(lia)) as (C1 & P1 & U1). set (x := as_secs_f64 d) in *. clearbody x.
  destruct (units cfg Hcfg (capacity cfg)) as [C2 E2]; [done|].
  destruct (mul_rounds x _ C1 P1 Hr ltac:(lia)) as [(C3 & P3 & U3)|[E3 O3]].
  - set (y := f64_mul x (refill_rate_per_sec cfg)) in *. clearbody y.
    apply (refill_arith (scaled x) (scaled y)); [done|lia|done|lia|lia|lia|done|done|lia|]. intros Hlow.
    destruct (add_rounds (tokens st) y Hc ltac:(lia) C3 P3) as [(C4 & P4 & U4)|[E4 O4]].
    + destruct (min_le_left (f64_add (tokens st) y) (f64_of_u64 (capacity cfg)) C4 C2) as [_ H]. lia.
    + exfalso. assert (2 ^ 33 < 2 ^ 1023) as Hb by reflexivity. revert O4 Hb. generalize (2 ^ 1023). intros b O4 Hb.
      assert (2 ^ 33 * U < b * U) by (apply Z.mul_lt_mono_pos_r; lia). nia.
  - assert (2 ^ 1023 * U * N9 * 2 ^ 52 <= (2 ^ 52 + 3) * (Z.of_N d * R)) as H1.
    { apply (Z.mul_le_mono_pos_r _ _ U); [done|].
      assert (2 ^ 1023 * U * U * (N9 * 2 ^ 52) <= scaled x * R * (N9 * 2 ^ 52)) by (apply Z.mul_le_mono_nonneg_r; [done|lia]).
      assert (scaled x * N9 * 2 ^ 52 * R <= (2 ^ 52 + 3) * (Z.of_N d * U) * R) by (apply Z.mul_le_mono_nonneg_r; lia).
      lia. }
    set (m := scaled (f64_min _ _)) in *. clearbody m. assert (0 < N9) as Hn by done.
    assert (2 ^ 33 < 2 ^ 1023) as Hb by reflexivity. revert H1 Hb. generalize (2 ^ 1023). intros b H1 Hb.
    assert (C * U * (N9 * 2 ^ 52) <= b * U * N9 * 2 ^ 52) as H2.
    { replace (b * U * N9 * 2 ^ 52) with (b * U * (N9 * 2 ^ 52)) by lia. apply Z.mul_le_mono_nonneg_r; [lia|].
      apply Z.mul_le_mono_nonneg_r; lia. }
    assert (m * (N9 * 2 ^ 52) <= C * U * (N9 * 2 ^ 52)) by (apply Z.mul_le_mono_nonneg_r; lia).
    assert (0 <= scaled (tokens st) * (N9 * 2 ^ 52)) by (apply Z.mul_nonneg_nonneg; lia).
    assert (0 <= Z.of_N d * R) by (apply Z.mul_nonneg_nonneg; lia).
    assert (0 <= N9 * (2 * (C * U) + 2 ^ 52)) by (apply Z.mul_nonneg_nonneg; nia). lia.
Qed.

Lemma run_rate calls st : bucket_ok cfg st -> Forall (λ c, (c.1 <= DURATION_MAX)%N) calls ->
  let '(granted, st') := bucket_run cfg calls st in
  (last_refill st <= last_refill st')%N /\
  (Z.of_N granted * U + scaled (tokens st')) * (N9 * 2 ^ 52) <=
  scaled (tokens st) * (N9 * 2 ^ 52) + (2 ^ 52 + 5) * (Z.of_N (last_refill st' - last_refill st) * R) +
  Z.of_nat (length calls) * (N9 * (2 * (C * U) + 2 ^ 52)).
Proof.
  pose proof unit_scaled_pos as HU. pose proof (C_bound cfg Hcfg) as HC. destruct Hcfg as (_ & _ & Hr).
  set (W := N9 * 2 ^ 52). set (slack := N9 * (2 * (C * U) + 2 ^ 52)). assert (0 <= slack) as Hs by (unfold slack; nia).
  intros Hst Hc. revert st Hst. induction Hc as [|[now c] calls Hnow Hc IH]; intros st Hst.
  - cbn [bucket_run length]. split; [done|]. rewrite N.sub_diag. lia.
  - cbn [bucket_run]. pose proof (bucket_step_spec cfg Hcfg now c st Hst) as H. cbn in Hnow.
    pose proof (refill_rate now st Hst Hnow) as Hre. fold W slack in Hre.
    destruct (bucket_step cfg now c st) as [n st1]. destruct H as [H1 H2]. specialize (IH st1 H1).
    destruct (bucket_run cfg calls st1) as [ns st2]. destruct IH as [IH1 IH2].
    cbn [length]. rewrite Nat2Z.inj_succ. clearbody W slack.
    destruct H2 as [[-> ->]|[H2 H3]]; [split; [done|]; rewrite N.add_0_l; lia|]. split; [lia|].
    rewrite H3 in Hre. replace (now - last_refill st)%N with (last_refill st1 - last_refill st)%N in Hre by lia.
    replace (last_refill st2 - last_refill st)%N with ((last_refill st2 - last_refill st1) + (last_refill st1 - last_refill st))%N by lia.
    rewrite !N2Z.inj_add. set (g := Z.of_N ns) in *. set (k := Z.of_N n) in *. lia.
Qed.
End Rate.

(** Over any run of calls, the tokens granted are at most the capacity plus the rate times the
    seconds between the creation of the bucket and the last refill, up to the rounding of [f64]:
    [(2 ^ 52 + 5) / 2 ^ 52] on the rate, and [capacity / 2 ^ 51 + 2 ^ -1074] tokens for each
    call.  (Both sides are scaled to integers.) *)
Theorem rate_bounded cfg t0 calls
  (Hcfg : bucket_config_ok cfg) (Hclock : Forall (λ c, (c.1 <= DURATION_MAX)%N) calls) :
  let '(granted, st) := bucket_run cfg calls (bucket_new cfg t0) in
  let cap := Z.of_N (capacity cfg) in
  (Z.of_N granted * unit_scaled * (Z.of_N NANOS_PER_SEC * 2 ^ 52) <=
   cap * unit_scaled * (Z.of_N NANOS_PER_SEC * 2 ^ 52) +
   (2 ^ 52 + 5) * (Z.of_N (last_refill st - t0) * scaled (refill_rate_per_sec cfg)) +
   Z.of_nat (length calls) * (Z.of_N NANOS_PER_SEC * (2 * (cap * unit_scaled) + 2 ^ 52)))%Z.
Proof.
  pose proof (run_rate cfg Hcfg calls _ (full_ok cfg Hcfg t0) Hclock) as H.
  pose proof (bucket_run_ok cfg Hcfg calls _ (full_ok cfg Hcfg t0)) as [_ [Hpos _]].
  destruct (bucket_run cfg calls (bucket_new cfg t0)) as [granted st]. destruct H as [_ H]. cbv zeta.
  assert (scaled (tokens (bucket_new cfg t0)) = Z.of_N (capacity cfg) * unit_scaled)%Z as E
    by exact (proj2 (units cfg Hcfg (capacity cfg) ltac:(lia))).
  rewrite E in H. cbn [bucket_new last_refill] in H. cbn [snd] in Hpos.
  assert (0 <= scaled (tokens st) * (Z.of_N NANOS_PER_SEC * 2 ^ 52))%Z by (apply Z.mul_nonneg_nonneg; [done|done]). lia.
Qed.

(** The defaults of the configuration: sixteen tokens, eight a second. *)
Definition default_bucket : TokenBucketConfig := mkBucketConfig 16 (f64_of_u64 8).

Lemma default_bucket_ok : bucket_config_ok default_bucket.
Proof. apply (bucket_config_new_ok 16 (f64_of_u64 8)); [done|vm_compute; reflexivity..]. Qed.

Lemma burst_bounded_witness :
  ((bucket_run default_bucket [(5, CallTryAcquire 10); (5, CallPeek 1); (5, CallTryAcquire 10)]%N
    (bucket_run default_bucket [(0, CallTryAcquire 16)]%N (bucket_new default_bucket 0)).2).1 <= 16)%N.
Proof.
  apply (burst_bounded default_bucket 0 [(0%N, CallTryAcquire 16)] 5); [exact default_bucket_ok|].
  repeat constructor.
Defined.

Lemma rate_bounded_witness :
  let '(granted, st) := bucket_run default_bucket [(0, CallTryAcquire 16); (2000000000, CallTryAcquire 16)]%N
    (bucket_new default_bucket 0) in
  granted = 32%N /\ last_refill st = 2000000000%N /\
  (Z.of_N granted * unit_scaled * (Z.of_N NANOS_PER_SEC * 2 ^ 52) <=
   16 * unit_scaled * (Z.of_N NANOS_PER_SEC * 2 ^ 52) +
   (2 ^ 52 + 5) * (Z.of_N (last_refill st - 0) * scaled (f64_of_u64 8)) +
   2 * (Z.of_N NANOS_PER_SEC * (2 * (16 * unit_scaled) + 2 ^ 52)))%Z.
Proof.
  pose proof (rate_bounded default_bucket 0 [(0, CallTryAcquire 16); (2000000000, CallTryAcquire 16)]%N
    default_bucket_ok ltac:(repeat constructor; vm_compute; discriminate)) as H.
  destruct (bucket_run _ _ _) as [granted st] eqn:E. split; [|split; [|exact H]].
  - vm_compute in E. congruence.
  - vm_compute in E. injection E as _ <-. reflexivity.
Defined.
