(* ===== verification/Scheduler.v ===== *)
(** The scheduler queue: crates/pcloud-engine/src/scheduler.rs.

    [Scheduler] is the struct; every method is a function from the state to the new state
    (and the returned value).  [Vec::remove] panics out of range, so it is an option here and
    [take_fair_batch_eq] shows that the panic is unreachable. *)
From S2P Require Import Prelude Paths Model.

Record Scheduler : Type := mkScheduler {
  max_parallel_uploads : nat;
  max_parallel_downloads : nat;
  queued_operations : list PlannedOperation;
  dispatched_operations : list PlannedOperation;
}.

Definition Scheduler_default : Scheduler := {|
  max_parallel_uploads := 4;
  max_parallel_downloads := 4;
  queued_operations := [];
  dispatched_operations := [];
|}.

Definition with_queued (s : Scheduler) (q : list PlannedOperation) : Scheduler := {|
  max_parallel_uploads := max_parallel_uploads s;
  max_parallel_downloads := max_parallel_downloads s;
  queued_operations := q;
  dispatched_operations := dispatched_operations s;
|}.

Definition with_dispatched (s : Scheduler) (d : list PlannedOperation) : Scheduler := {|
  max_parallel_uploads := max_parallel_uploads s;
  max_parallel_downloads := max_parallel_downloads s;
  queued_operations := queued_operations s;
  dispatched_operations := d;
|}.

(** The comparator of [replace_queue]: priority, then path. *)
Definition op_order : PlannedOperation -> PlannedOperation -> comparison :=
  cmp_lex (cmp_by op_priority N.compare) (cmp_by op_path String.compare).

Definition replace_queue (operations : list PlannedOperation) (s : Scheduler) : Scheduler :=
  with_queued s (sort_by op_order operations).

Definition replace_queue_for_sync_id (sync_id : SyncId) (operations : list PlannedOperation)
    (s : Scheduler) : Scheduler :=
  let merged := filter (λ op, op_sync_id op ≠ sync_id) (queued_operations s) in
  with_queued s (sort_by op_order (merged ++ operations)).

Definition evict_sync_id (sync_id : SyncId) (s : Scheduler) : Scheduler :=
  with_dispatched
    (with_queued s (filter (λ op, op_sync_id op ≠ sync_id) (queued_operations s)))
    (filter (λ op, op_sync_id op ≠ sync_id) (dispatched_operations s)).

(** [(max_parallel_uploads + max_parallel_downloads).max(1)]. *)
Definition global_limit (s : Scheduler) : nat :=
  (max_parallel_uploads s + max_parallel_downloads s) `max` 1.

Definition div_ceil (a b : nat) : nat := (a + b - 1) / b.

Definition distinct_roots (ops : list PlannedOperation) : gset SyncId :=
  list_to_set (op_sync_id <$> ops).

Definition num_roots (s : Scheduler) : nat := size (distinct_roots (queued_operations s)) `max` 1.

Definition per_root_cap (s : Scheduler) : nat := div_ceil (global_limit s) (num_roots s) `max` 1.

(** The selection loop of [take_fair_batch]: the indices pushed on [batch_indices], where [n]
    is its length so far, [i] the enumeration index and [per_root] the per-root counters. *)
Fixpoint batch_indices (limit cap i n : nat) (per_root : gmap SyncId nat)
    (ops : list PlannedOperation) : list nat :=
  match ops with
  | [] => []
  | op :: ops' =>
      if decide (limit <= n) then []
      else
        let count := default 0 (per_root !! op_sync_id op) in
        if decide (count < cap)
        then i :: batch_indices limit cap (S i) (S n) (<[op_sync_id op := S count]> per_root) ops'
        else batch_indices limit cap (S i) n (<[op_sync_id op := count]> per_root) ops'
  end.

(** [Vec::remove]; [None] is the out-of-range panic. *)
Definition vec_remove {A} (i : nat) (l : list A) : option (A * list A) :=
  x ← l !! i; Some (x, take i l ++ drop (S i) l).

(** [for &i in indices { batch.push(queue.remove(i)) }]. *)
Fixpoint remove_indices {A} (indices : list nat) (batch queue : list A)
    : option (list A * list A) :=
  match indices with
  | [] => Some (batch, queue)
  | i :: indices' =>
      '(x, queue') ← vec_remove i queue; remove_indices indices' (batch ++ [x]) queue'
  end.

Definition take_fair_batch (s : Scheduler) : option (list PlannedOperation * Scheduler) :=
  match queued_operations s with
  | [] => Some ([], s)
  | queue =>
      let indices := batch_indices (global_limit s) (per_root_cap s) 0 0 ∅ queue in
      '(batch, queue') ← remove_indices (reverse indices) [] queue;
      Some (reverse batch, with_queued s queue')
  end.

Definition next_batch (s : Scheduler) : option (list PlannedOperation * Scheduler) :=
  '(batch, s') ← take_fair_batch s;
  Some (batch, with_dispatched s' (dispatched_operations s' ++ batch)).

(** The cloning loop shared by [peek_fair_batch_cloned] and [peek_batch_fair]. *)
Fixpoint pick_fair (limit cap n : nat) (per_root : gmap SyncId nat)
    (ops : list PlannedOperation) : list PlannedOperation :=
  match ops with
  | [] => []
  | op :: ops' =>
      if decide (limit <= n) then []
      else
        let count := default 0 (per_root !! op_sync_id op) in
        if decide (count < cap)
        then op :: pick_fair limit cap (S n) (<[op_sync_id op := S count]> per_root) ops'
        else pick_fair limit cap n (<[op_sync_id op := count]> per_root) ops'
  end.

Definition peek_fair_batch_cloned (s : Scheduler) : list PlannedOperation :=
  match queued_operations s with
  | [] => []
  | queue => pick_fair (global_limit s) (per_root_cap s) 0 ∅ queue
  end.

(** The [debug_assert!] of [peek_batch] only diagnoses callers; it changes no state. *)
Definition peek_batch (s : Scheduler) : list PlannedOperation := peek_fair_batch_cloned s.

Definition peek_batch_fair (max_per_root : nat) (s : Scheduler) : list PlannedOperation :=
  pick_fair (global_limit s) max_per_root 0 ∅ (queued_operations s).

Definition next_batch_fair (max_per_root : nat) (s : Scheduler) : list PlannedOperation :=
  peek_batch_fair max_per_root s.

(** [ack_batch]: nothing to do, the single-item scan, or the hashed index. *)
Definition ack_batch (items : list (SyncId * string)) (s : Scheduler) : Scheduler :=
  match items, dispatched_operations s with
  | [], _ | _, [] => s
  | [(sid, p)], dispatched =>
      with_dispatched s (filter (λ op, ¬ (op_sync_id op = sid ∧ op_path op = p)) dispatched)
  | _, dispatched =>
      let index : gset (SyncId * string) := list_to_set items in
      with_dispatched s (filter (λ op, op_key op ∉ index) dispatched)
  end.

Definition total_queued (s : Scheduler) : nat := length (queued_operations s).

Definition drain_batch (s : Scheduler) : list PlannedOperation * Scheduler :=
  let limit := max_parallel_uploads s + max_parallel_downloads s in
  let limit := (limit `max` 1) `min` length (queued_operations s) in
  (take limit (queued_operations s), with_queued s (drop limit (queued_operations s))).

Definition enqueue (operation : PlannedOperation) (s : Scheduler) : Scheduler :=
  with_queued s (queued_operations s ++ [operation]).

(** * Reference definition of a fair split

    One pass over the queue separating the operations handed out from those left. *)

Fixpoint fair_split (limit cap n : nat) (per_root : gmap SyncId nat)
    (ops : list PlannedOperation) : list PlannedOperation * list PlannedOperation :=
  match ops with
  | [] => ([], [])
  | op :: ops' =>
      if decide (limit <= n) then ([], ops)
      else
        let count := default 0 (per_root !! op_sync_id op) in
        if decide (count < cap)
        then let r := fair_split limit cap (S n) (<[op_sync_id op := S count]> per_root) ops' in
             (op :: r.1, r.2)
        else let r := fair_split limit cap n (<[op_sync_id op := count]> per_root) ops' in
             (r.1, op :: r.2)
  end.

Definition of_root (r : SyncId) (ops : list PlannedOperation) : list PlannedOperation :=
  filter (λ op, op_sync_id op = r) ops.

#[export] Instance op_order_laws : CmpLaws op_order.
Proof. unfold op_order. apply _. Qed.

(** * Removal by index *)

Lemma vec_remove_middle {A} (l1 l2 : list A) x :
  vec_remove (length l1) (l1 ++ x :: l2) = Some (x, l1 ++ l2).
Proof.
  unfold vec_remove. rewrite list_lookup_middle by done. simpl.
  rewrite take_app_length. rewrite (cons_middle x), (assoc_L (++)), drop_app_length'; [done|].
  rewrite length_app. simpl. lia.
Qed.

Lemma remove_indices_app {A} (is1 is2 : list nat) (batch queue : list A) :
  remove_indices (is1 ++ is2) batch queue =
  '(batch', queue') ← remove_indices is1 batch queue; remove_indices is2 batch' queue'.
Proof.
  revert batch queue; induction is1 as [|i is1 IH]; intros batch queue; simpl; [done|].
  destruct (vec_remove i queue) as [[x queue']|]; simpl; [apply IH|done].
Qed.

Lemma remove_batch_indices limit cap n per_root pre ops acc :
  remove_indices (reverse (batch_indices limit cap (length pre) n per_root ops)) acc (pre ++ ops) =
  let r := fair_split limit cap n per_root ops in Some (acc ++ reverse r.1, pre ++ r.2).
Proof.
  revert n per_root pre acc; induction ops as [|op ops IH]; intros n per_root pre acc; simpl.
  - by rewrite reverse_nil, !app_nil_r.
  - case_decide as Hn; simpl; [by rewrite reverse_nil, !app_nil_r|].
    assert (forall r' m acc',
      remove_indices (reverse (batch_indices limit cap (S (length pre)) m r' ops)) acc'
        (pre ++ op :: ops) =
      let r := fair_split limit cap m r' ops in Some (acc' ++ reverse r.1, pre ++ op :: r.2)) as IH'.
    { intros r' m acc'. pose proof (IH m r' (pre ++ [op]) acc') as H.
      cbv zeta in H |- *. rewrite length_app, <- !(assoc_L (++)) in H. simpl in H.
      by rewrite Nat.add_1_r in H. }
    case_decide as Hc; simpl.
    + rewrite reverse_cons, remove_indices_app, IH'. simpl.
      rewrite vec_remove_middle. simpl. by rewrite reverse_cons, <- (assoc_L (++)).
    + apply IH'.
Qed.

Lemma pick_fair_split limit cap n per_root ops :
  pick_fair limit cap n per_root ops = (fair_split limit cap n per_root ops).1.
Proof.
  revert n per_root; induction ops as [|op ops IH]; intros n per_root; simpl; [done|].
  repeat case_decide; simpl; [done|by f_equal|done].
Qed.

(** * Facts about the reference split *)

Lemma fair_split_bound limit cap n per_root ops :
  n + length (fair_split limit cap n per_root ops).1 <= limit `max` n.
Proof.
  revert n per_root; induction ops as [|op ops IH]; intros n per_root; simpl; [lia|].
  case_decide; simpl; [lia|]. case_decide; simpl.
  - specialize (IH (S n) (<[op_sync_id op := S (default 0 (per_root !! op_sync_id op))]> per_root)).
    lia.
  - apply IH.
Qed.

Lemma fair_split_cap limit cap n per_root ops r :
  default 0 (per_root !! r) + length (of_root r (fair_split limit cap n per_root ops).1)
  <= cap `max` default 0 (per_root !! r).
Proof.
  revert n per_root; induction ops as [|op ops IH]; intros n per_root; simpl; [lia|].
  case_decide; simpl; [lia|]. unfold of_root in *. case_decide; simpl.
  - specialize (IH (S n) (<[op_sync_id op := S (default 0 (per_root !! op_sync_id op))]> per_root)).
    rewrite filter_cons. rewrite lookup_insert in IH.
    destruct (decide (op_sync_id op = r)) as [<-|]; simpl in *; lia.
  - specialize (IH n (<[op_sync_id op := default 0 (per_root !! op_sync_id op)]> per_root)).
    rewrite lookup_insert in IH.
    destruct (decide (op_sync_id op = r)) as [<-|]; simpl in *; lia.
Qed.

(** A root whose counter has reached the cap gets nothing more. *)
Lemma fair_split_full limit cap n per_root ops r :
  cap <= default 0 (per_root !! r) -> of_root r (fair_split limit cap n per_root ops).1 = [].
Proof.
  intros H. pose proof (fair_split_cap limit cap n per_root ops r).
  apply nil_length_inv. lia.
Qed.

(** The batch takes a prefix of each root's operations, in queue order. *)
Lemma fair_split_root limit cap n per_root ops r :
  of_root r (fair_split limit cap n per_root ops).1 ++
  of_root r (fair_split limit cap n per_root ops).2 = of_root r ops.
Proof.
  revert n per_root; induction ops as [|op ops IH]; intros n per_root; simpl; [done|].
  case_decide; simpl; [done|]. case_decide as Hc; simpl; unfold of_root in *;
    rewrite !filter_cons; case_decide as Hr; simpl; rewrite ?IH; try done.
  rewrite <- (IH n (<[op_sync_id op := default 0 (per_root !! op_sync_id op)]> per_root)).
  pose proof (fair_split_full limit cap n
    (<[op_sync_id op := default 0 (per_root !! op_sync_id op)]> per_root) ops r) as Hf.
  unfold of_root in Hf. rewrite Hf; [done|].
  rewrite lookup_insert, decide_True by done. simpl. lia.
Qed.

Lemma fair_split_perm limit cap n per_root ops :
  (fair_split limit cap n per_root ops).1 ++ (fair_split limit cap n per_root ops).2 ≡ₚ ops.
Proof.
  revert n per_root; induction ops as [|op ops IH]; intros n per_root; simpl; [done|].
  case_decide; simpl; [done|]. case_decide; simpl.
  - by rewrite IH.
  - by rewrite <- Permutation_middle, IH.
Qed.

Lemma fair_split_order limit cap n per_root ops :
  (fair_split limit cap n per_root ops).1 `sublist_of` ops /\
  (fair_split limit cap n per_root ops).2 `sublist_of` ops.
Proof.
  revert n per_root; induction ops as [|op ops IH]; intros n per_root; simpl; [done|].
  case_decide; simpl; [split; [apply sublist_nil_l|done]|].
  case_decide; simpl; (split; [|]); try apply sublist_skip; try apply sublist_cons; apply IH.
Qed.

(** An operation is left behind only when the batch is full or its root used its share. *)
Lemma fair_split_maximal limit cap n per_root ops op :
  op ∈ (fair_split limit cap n per_root ops).2 ->
  limit <= n + length (fair_split limit cap n per_root ops).1 \/
  cap <= default 0 (per_root !! op_sync_id op) +
         length (of_root (op_sync_id op) (fair_split limit cap n per_root ops).1).
Proof.
  revert n per_root; induction ops as [|o ops IH]; intros n per_root; simpl.
  { by intros ?%not_elem_of_nil. }
  case_decide; simpl; [by left; lia|]. unfold of_root in *. case_decide as Hc; simpl.
  - intros Hin. apply IH in Hin. rewrite lookup_insert in Hin. rewrite filter_cons.
    destruct (decide (op_sync_id o = op_sync_id op)) as [E|E]; simpl in *.
    + rewrite E in Hin |- *. lia.
    + lia.
  - intros [->|Hin]%elem_of_cons; [right; lia|].
    apply IH in Hin. rewrite lookup_insert in Hin.
    destruct (decide (op_sync_id o = op_sync_id op)) as [E|E]; simpl in *; [rewrite E in *|]; lia.
Qed.

(** * The batch operations implement the reference split *)

Definition fair_batch (s : Scheduler) : list PlannedOperation * list PlannedOperation :=
  fair_split (global_limit s) (per_root_cap s) 0 ∅ (queued_operations s).

Lemma with_queued_same s : with_queued s (queued_operations s) = s.
Proof. by destruct s. Qed.

Lemma take_fair_batch_eq s :
  take_fair_batch s = Some ((fair_batch s).1, with_queued s (fair_batch s).2).
Proof.
  unfold take_fair_batch, fair_batch.
  destruct (queued_operations s) as [|op q] eqn:E; simpl fst; simpl snd.
  - by rewrite <- E, with_queued_same.
  - pose proof (remove_batch_indices (global_limit s) (per_root_cap s) 0 ∅ [] (op :: q) []) as H.
    cbv zeta in H. simpl app in H. simpl length in H. rewrite H. simpl.
    by rewrite reverse_involutive.
Qed.

Lemma next_batch_eq s :
  next_batch s = Some ((fair_batch s).1,
    with_dispatched (with_queued s (fair_batch s).2)
      (dispatched_operations s ++ (fair_batch s).1)).
Proof. unfold next_batch. by rewrite take_fair_batch_eq. Qed.

Lemma peek_batch_eq s : peek_batch s = (fair_batch s).1.
Proof.
  unfold peek_batch, peek_fair_batch_cloned, fair_batch.
  destruct (queued_operations s) as [|op q] eqn:E; [done|]. apply pick_fair_split.
Qed.

Lemma per_root_cap_pos s : 1 <= per_root_cap s.
Proof. unfold per_root_cap. lia. Qed.

Lemma global_limit_pos s : 1 <= global_limit s.
Proof. unfold global_limit. lia. Qed.

Lemma fair_batch_nonempty s : queued_operations s <> [] -> (fair_batch s).1 <> [].
Proof.
  unfold fair_batch. destruct (queued_operations s) as [|op q]; [done|]. intros _. simpl.
  pose proof (global_limit_pos s). pose proof (per_root_cap_pos s).
  rewrite decide_False by lia. rewrite lookup_empty; simpl. by rewrite decide_True by lia.
Qed.

(** ** Fairness: a counting argument over the roots *)

Lemma roots_count (X : gset SyncId) (l : list PlannedOperation) cap :
  (forall r, r ∈ X -> length (of_root r l) <= cap) ->
  length (filter (λ op, op_sync_id op ∈ X) l) <= size X * cap.
Proof.
  induction X as [|r X Hr IH] using set_ind_L; intros Hcap.
  - rewrite filter_none by set_solver. simpl. lia.
  - rewrite size_union by set_solver. rewrite size_singleton.
    assert (length (filter (λ op, op_sync_id op ∈ {[r]} ∪ X) l)
            <= length (of_root r l) + length (filter (λ op, op_sync_id op ∈ X) l)) as Hle.
    { clear. unfold of_root. induction l as [|op l IHl]; simpl; [lia|].
      rewrite !filter_cons. repeat case_decide; simpl; try lia. set_solver. }
    pose proof (Hcap r ltac:(set_solver)). specialize (IH ltac:(set_solver)). lia.
Qed.

Lemma of_root_nil r l op : of_root r l = [] -> op ∈ l -> op_sync_id op <> r.
Proof.
  intros Hnil Hin E. assert (op ∈ of_root r l) as Habs by (by apply list_elem_of_filter).
  rewrite Hnil in Habs. by apply not_elem_of_nil in Habs.
Qed.

Lemma fair_batch_roots s op : op ∈ (fair_batch s).1 -> op_sync_id op ∈ distinct_roots (queued_operations s).
Proof.
  intros Hin. unfold distinct_roots. apply elem_of_list_to_set, list_elem_of_fmap.
  exists op; split; [done|].
  eapply elem_of_sublist; [exact Hin|]. apply fair_split_order.
Qed.

Lemma size_pos_elem (X : gset SyncId) r : r ∈ X -> 1 <= size X.
Proof.
  intros Hr. rewrite <- (size_singleton (C:=gset SyncId) r). apply subseteq_size. set_solver.
Qed.

Lemma num_roots_size s op :
  op ∈ queued_operations s -> num_roots s = size (distinct_roots (queued_operations s)).
Proof.
  intros Hin. unfold num_roots.
  assert (1 <= size (distinct_roots (queued_operations s))); [|lia].
  apply (size_pos_elem _ (op_sync_id op)), elem_of_list_to_set, list_elem_of_fmap. eauto.
Qed.

(** ** The bounds of a batch *)

Lemma fair_batch_bounds s :
  length (fair_batch s).1 <= global_limit s /\
  (forall r, length (of_root r (fair_batch s).1) <= per_root_cap s) /\
  (queued_operations s <> [] -> (fair_batch s).1 <> []) /\
  (forall op, op ∈ (fair_batch s).2 ->
     length (fair_batch s).1 = global_limit s \/
     length (of_root (op_sync_id op) (fair_batch s).1) = per_root_cap s).
Proof.
  assert (length (fair_batch s).1 <= global_limit s) as Hlim.
  { pose proof (fair_split_bound (global_limit s) (per_root_cap s) 0 ∅ (queued_operations s)).
    unfold fair_batch. lia. }
  assert (forall r, length (of_root r (fair_batch s).1) <= per_root_cap s) as Hcap.
  { intros r. pose proof (fair_split_cap (global_limit s) (per_root_cap s) 0 ∅
      (queued_operations s) r) as H. rewrite lookup_empty in H. simpl in H.
    unfold fair_batch. lia. }
  repeat split; auto using fair_batch_nonempty.
  intros op Hin. apply fair_split_maximal in Hin. rewrite lookup_empty in Hin. simpl in Hin.
  fold (fair_batch s) in Hin. specialize (Hcap (op_sync_id op)). lia.
Qed.

(** [vm_compute]-able sample queues for the witnesses. *)
Definition sample_op (r : SyncId) (p : string) : PlannedOperation := DeleteLocal r p.
Definition sample_queue (roots : list SyncId) : list PlannedOperation :=
  r ← roots; [sample_op r "a"; sample_op r "b"; sample_op r "c"].
Definition sample_scheduler (roots : list SyncId) : Scheduler :=
  replace_queue (sample_queue roots) Scheduler_default.

(** * Properties *)

(** [next_batch] never panics, and it moves operations without losing, duplicating or
    reordering them: the queue splits into the batch and the remaining queue; for every sync
    root the batch holds a prefix of that root's queued operations; the batch is recorded
    in [dispatched_operations]; the limits are untouched. *)
Theorem next_batch_moves s :
  exists batch s', next_batch s = Some (batch, s') /\
    batch ++ queued_operations s' ≡ₚ queued_operations s /\
    (forall r, of_root r batch ++ of_root r (queued_operations s')
               = of_root r (queued_operations s)) /\
    batch `sublist_of` queued_operations s /\
    queued_operations s' `sublist_of` queued_operations s /\
    dispatched_operations s' = dispatched_operations s ++ batch /\
    max_parallel_uploads s' = max_parallel_uploads s /\
    max_parallel_downloads s' = max_parallel_downloads s.
Proof.
  rewrite next_batch_eq. do 2 eexists; split; [done|]. simpl. unfold fair_batch.
  repeat split; auto using fair_split_perm, fair_split_root; apply fair_split_order.
Qed.

(** [next_batch] respects the parallelism limit and the per-root share, and it is maximal:
    an operation stays queued only when the batch is full or its root used its share. *)
Theorem next_batch_bounds s :
  exists batch s', next_batch s = Some (batch, s') /\
    length batch <= global_limit s /\
    (forall r, length (of_root r batch) <= per_root_cap s) /\
    (queued_operations s <> [] -> batch <> []) /\
    (forall op, op ∈ queued_operations s' ->
       length batch = global_limit s \/
       length (of_root (op_sync_id op) batch) = per_root_cap s).
Proof.
  rewrite next_batch_eq. do 2 eexists; split; [done|]. apply fair_batch_bounds.
Qed.

(** When the per-root share times the number of roots fits in the batch, every root with
    queued work gets at least one operation in the next batch. *)
Theorem next_batch_serves_every_root s op
  (Hfits : num_roots s * per_root_cap s <= global_limit s)
  (Hqueued : op ∈ queued_operations s) :
  exists batch s', next_batch s = Some (batch, s') /\ of_root (op_sync_id op) batch <> [].
Proof.
  rewrite next_batch_eq. do 2 eexists; split; [done|]. intros Hnone.
  assert (op ∈ (fair_batch s).2) as Hleft.
  { pose proof (fair_split_perm (global_limit s) (per_root_cap s) 0 ∅ (queued_operations s)) as Hp.
    rewrite <- Hp in Hqueued. fold (fair_batch s) in Hqueued.
    apply elem_of_app in Hqueued as [Hin|Hin]; [|done].
    by destruct (of_root_nil _ _ _ Hnone Hin). }
  destruct (fair_batch_bounds s) as (_ & Hcap & _ & Hmax).
  specialize (Hmax op Hleft). rewrite Hnone in Hmax. simpl in Hmax.
  pose proof (per_root_cap_pos s). pose proof (global_limit_pos s).
  destruct Hmax as [Hlen|?]; [|lia].
  set (X := distinct_roots (queued_operations s)) in *.
  assert (op_sync_id op ∈ X) as HX.
  { apply elem_of_list_to_set, list_elem_of_fmap. eauto. }
  assert (length (filter (λ o, op_sync_id o ∈ X ∖ {[op_sync_id op]}) (fair_batch s).1)
          <= size (X ∖ {[op_sync_id op]}) * per_root_cap s) as Hcount.
  { apply roots_count. auto. }
  rewrite size_difference, size_singleton in Hcount by set_solver.
  assert (filter (λ o, op_sync_id o ∈ X ∖ {[op_sync_id op]}) (fair_batch s).1 = (fair_batch s).1) as Hall.
  { apply filter_all. intros o Ho. apply elem_of_difference; split.
    - by apply fair_batch_roots.
    - intros E%elem_of_singleton. by apply (of_root_nil _ _ _ Hnone Ho). }
  rewrite Hall, (num_roots_size s op Hqueued) in *. fold X in Hfits.
  pose proof (size_pos_elem X _ HX).
  nia.
Qed.

Lemma next_batch_serves_every_root_witness :
  exists batch s', next_batch (sample_scheduler [1; 2]%N) = Some (batch, s') /\
    of_root (op_sync_id (sample_op 2 "b")) batch <> [].
Proof.
  apply next_batch_serves_every_root; [vm_compute; lia|].
  apply (bool_decide_unpack _). vm_compute. exact I.
Defined.

(** Five roots and a limit of eight: the share is [ceil(8/5) = 2], so four roots fill the
    batch and the fifth gets nothing. *)
Definition starving_scheduler : Scheduler :=
  replace_queue
    [sample_op 1 "a"; sample_op 1 "b"; sample_op 2 "c"; sample_op 2 "d"; sample_op 3 "e";
     sample_op 3 "f"; sample_op 4 "g"; sample_op 4 "h"; sample_op 5 "z"]
    Scheduler_default.

(** The share is rounded up, so the promise that each root gets at least one slot fails: a
    queued root can get nothing although the roots are fewer than the slots. *)
Theorem next_batch_can_starve_a_root :
  exists s op batch s',
    op ∈ queued_operations s /\ num_roots s <= global_limit s /\
    next_batch s = Some (batch, s') /\ of_root (op_sync_id op) batch = [].
Proof.
  exists starving_scheduler, (sample_op 5 "z"). do 2 eexists.
  split; [apply (bool_decide_unpack _); vm_compute; exact I|].
  split; [vm_compute; lia|]. split; [vm_compute; reflexivity|vm_compute; reflexivity].
Qed.

(** [k] successive calls of [next_batch]. *)
Fixpoint drain_rounds (k : nat) (s : Scheduler) : option (list (list PlannedOperation) * Scheduler) :=
  match k with
  | 0 => Some ([], s)
  | S k' =>
      '(batch, s1) ← next_batch s; '(batches, s2) ← drain_rounds k' s1; Some (batch :: batches, s2)
  end.

Lemma drain_rounds_spec k s :
  length (queued_operations s) <= k ->
  exists batches s', drain_rounds k s = Some (batches, s') /\ queued_operations s' = [] /\
    concat batches ≡ₚ queued_operations s /\
    dispatched_operations s' = dispatched_operations s ++ concat batches.
Proof.
  revert s; induction k as [|k IH]; intros s Hk; simpl.
  - exists [], s. assert (queued_operations s = []) as -> by (apply nil_length_inv; lia).
    by rewrite app_nil_r.
  - rewrite next_batch_eq. simpl. pose proof (fair_batch_nonempty s) as Hne.
    assert ((fair_batch s).1 ++ (fair_batch s).2 ≡ₚ queued_operations s) as Hperm
      by apply fair_split_perm.
    pose proof (Permutation_length Hperm) as Hlen. rewrite length_app in Hlen.
    destruct (IH (with_dispatched (with_queued s (fair_batch s).2)
      (dispatched_operations s ++ (fair_batch s).1))) as (bs & s2 & E2 & Hq & Hp & Hd2).
    { simpl. destruct (queued_operations s) eqn:Eq; simpl in *; [lia|].
      destruct (fair_batch s).1; [by destruct Hne|]. simpl in *. lia. }
    rewrite E2. simpl. exists ((fair_batch s).1 :: bs), s2. repeat split; [done| |].
    + simpl. rewrite Hp. exact Hperm.
    + rewrite Hd2. simpl. by rewrite (assoc_L (++)).
Qed.

(** Draining terminates: at most one call per queued operation empties the queue, and every
    queued operation is handed out exactly once and recorded as dispatched. *)
Theorem next_batch_drains s :
  exists batches s', drain_rounds (total_queued s) s = Some (batches, s') /\
    queued_operations s' = [] /\ concat batches ≡ₚ queued_operations s /\
    dispatched_operations s' = dispatched_operations s ++ concat batches.
Proof. by apply drain_rounds_spec. Qed.

Lemma filter_key_eq (items : list (SyncId * string)) (l : list PlannedOperation) (P : PlannedOperation -> Prop)
    `{!forall op, Decision (P op)} :
  (forall op, P op <-> op_key op ∉ items) -> filter P l = filter (λ op, op_key op ∉ items) l.
Proof.
  intros HP. induction l as [|op l IH]; [done|]. rewrite !filter_cons, IH.
  destruct (decide (P op)) as [Hp|Hp], (decide (op_key op ∉ items)) as [H'|H']; try done.
  - by apply HP in Hp.
  - by apply HP in H'.
Qed.

(** The three code paths of [ack_batch] agree: exactly the dispatched operations whose
    [(sync_id, path)] is acknowledged are removed, in order, and nothing else changes; an
    operation of another root at the same path stays. *)
Theorem ack_batch_spec (items : list (SyncId * string)) s :
  ack_batch items s =
  with_dispatched s (filter (λ op, op_key op ∉ items) (dispatched_operations s)).
Proof.
  assert (with_dispatched s (dispatched_operations s) = s) as Hsame by (by destruct s).
  unfold ack_batch. destruct items as [|[sid p] items].
  { rewrite filter_all, Hsame; [done|]. intros op _. apply not_elem_of_nil. }
  destruct (dispatched_operations s) as [|d ds] eqn:E.
  { rewrite filter_nil, Hsame. by destruct items. }
  destruct items as [|it items].
  - f_equal. apply filter_key_eq. intros op. rewrite list_elem_of_singleton. unfold op_key.
    naive_solver.
  - f_equal. apply filter_key_eq. intros op. by rewrite elem_of_list_to_set.
Qed.

(** Replacing one root's plan keeps the queue sorted by priority then path, drops exactly that
    root's old entries and adds the new ones, and leaves every other root's operations as
    they were (sorted). *)
Theorem replace_queue_for_sync_id_spec sync_id operations s :
  let s' := replace_queue_for_sync_id sync_id operations s in
  StronglySorted (cmp_le op_order) (queued_operations s') /\
  queued_operations s' ≡ₚ
    filter (λ op, op_sync_id op ≠ sync_id) (queued_operations s) ++ operations /\
  (forall r, of_root r (queued_operations s') =
     sort_by op_order
       ((if decide (r = sync_id) then [] else of_root r (queued_operations s))
        ++ of_root r operations)) /\
  dispatched_operations s' = dispatched_operations s.
Proof.
  simpl. split; [apply (sort_by_sorted op_order)|]. split; [apply sort_by_perm|].
  split; [|done]. intros r. unfold of_root. rewrite (sort_by_filter op_order). f_equal.
  rewrite filter_app. f_equal. case_decide as Hr.
  - apply filter_none. intros op [? _]%list_elem_of_filter. congruence.
  - rewrite list_filter_filter_l; [done|]. congruence.
Qed.

(** Eviction removes every operation of the root from both lists and keeps the others. *)
Lemma evict_sync_id_none sync_id s op :
  op ∈ queued_operations (evict_sync_id sync_id s) ++ dispatched_operations (evict_sync_id sync_id s)
  -> op_sync_id op ≠ sync_id.
Proof. simpl. intros [H|H]%elem_of_app; by apply list_elem_of_filter in H as [? _]. Qed.

(** ** The queue stays sorted *)

Definition queue_sorted (s : Scheduler) : Prop :=
  StronglySorted (cmp_le op_order) (queued_operations s).

Lemma next_batch_sorted s batch s' :
  queue_sorted s -> next_batch s = Some (batch, s') -> queue_sorted s'.
Proof.
  intros Hs E. rewrite next_batch_eq in E. simplify_eq.
  eapply sublist_sorted; [|exact Hs]. apply fair_split_order.
Qed.

Lemma evict_sorted sync_id s : queue_sorted s -> queue_sorted (evict_sync_id sync_id s).
Proof. intros Hs. eapply sublist_sorted; [apply sublist_filter|done]. Qed.
