(* ===== verification/Planner.v ===== *)
(** The planner: crates/pcloud-engine/src/planner.rs.

    [plan_with_overflow] sorts the candidates, walks the groups of equal path and plans one
    operation per group until the per-tick cap is reached.  The suffix still to be read
    stands for the index [idx] of the source. *)
From S2P Require Import Prelude Paths Model.

Record Planner : Type := mkPlanner { max_operations_per_tick : nat }.

Definition Planner_default : Planner := {| max_operations_per_tick := 1024 |}.

(** The comparator of [plan_with_overflow]: path, then source. *)
Definition cand_order : SyncCandidate -> SyncCandidate -> comparison :=
  cmp_lex (cmp_by cand_path String.compare) (cmp_by cand_source ChangeSource_cmp).

Definition conflict (candidate : SyncCandidate) (kind : ConflictKind) : PlannedOperation :=
  Conflict (cand_sync_id candidate) (cand_path candidate) kind.

Definition plan_single (candidate : SyncCandidate) : PlannedOperation :=
  let sync_id := cand_sync_id candidate in
  let path := cand_path candidate in
  match cand_source candidate, cand_entry_kind candidate, cand_change_kind candidate with
  | Local, File, Upsert =>
      UploadFile sync_id path (cand_remote_folder_id candidate) (basename path)
  | Remote, File, Upsert => DownloadFile sync_id path (cand_remote_file_id candidate)
  | Local, Folder, Upsert => CreateRemoteDirectory sync_id path
  | Remote, Folder, Upsert =>
      CreateLocalDirectory sync_id path (cand_remote_folder_id candidate)
  | Local, _, Delete => DeleteRemote sync_id path
  | Remote, _, Delete => DeleteLocal sync_id path
  end.

Definition plan_conflict_or_resolution (local remote : SyncCandidate) : PlannedOperation :=
  if decide (cand_entry_kind local <> cand_entry_kind remote) then conflict local TypeMismatch
  else
    match cand_change_kind local, cand_change_kind remote with
    | Upsert, Upsert => conflict local LocalModifyVsRemoteModify
    | Delete, Upsert => conflict local LocalDeleteVsRemoteModify
    | Upsert, Delete => conflict local RemoteDeleteVsLocalModify
    | Delete, Delete => DeleteLocal (cand_sync_id remote) (cand_path remote)
    end.

Definition plan_pair (local remote : option SyncCandidate) : option PlannedOperation :=
  match local, remote with
  | Some local, Some remote => Some (plan_conflict_or_resolution local remote)
  | Some local, None => Some (plan_single local)
  | None, Some remote => Some (plan_single remote)
  | None, None => None
  end.

(** The inner loop: the last local and the last remote candidate of the group of [path], and
    the rest of the list. *)
Fixpoint take_group (path : string) (sorted : list SyncCandidate)
    (local remote : option SyncCandidate)
    : option SyncCandidate * option SyncCandidate * list SyncCandidate :=
  match sorted with
  | c :: sorted' =>
      if decide (cand_path c = path) then
        match cand_source c with
        | Local => take_group path sorted' (Some c) remote
        | Remote => take_group path sorted' local (Some c)
        end
      else (local, remote, sorted)
  | [] => (local, remote, [])
  end.

(** The outer loop; every pass consumes a candidate, so [length sorted] passes are enough. *)
Fixpoint plan_loop (fuel cap : nat) (sorted : list SyncCandidate)
    (operations : list PlannedOperation) : list PlannedOperation * list SyncCandidate :=
  match fuel, sorted with
  | S fuel', c :: _ =>
      if decide (length operations < cap) then
        let '(local, remote, rest) := take_group (cand_path c) sorted None None in
        let operations' :=
          match plan_pair local remote with
          | Some operation => operations ++ [operation]
          | None => operations
          end in
        plan_loop fuel' cap rest operations'
      else (operations, sorted)
  | _, _ => (operations, sorted)
  end.

(** The log message about the overflow is not modelled. *)
Definition plan_with_overflow (p : Planner) (candidates : list SyncCandidate)
    : list PlannedOperation * list SyncCandidate :=
  let sorted := sort_by cand_order candidates in
  plan_loop (length sorted) (max_operations_per_tick p) sorted [].

Definition plan (p : Planner) (candidates : list SyncCandidate) : list PlannedOperation :=
  (plan_with_overflow p candidates).1.

Record DeletePolicy : Type := mkDeletePolicy {
  allow_delete_remote : bool;
  allow_delete_local : bool;
}.

Definition DeletePolicy_default : DeletePolicy :=
  {| allow_delete_remote := true; allow_delete_local := true |}.

Definition for_sync_type (sync_type : SyncType) (propagate_deletes : bool) : DeletePolicy :=
  if negb propagate_deletes then {| allow_delete_remote := false; allow_delete_local := false |}
  else
    match sync_type with
    | Full => {| allow_delete_remote := true; allow_delete_local := true |}
    | UploadOnly => {| allow_delete_remote := true; allow_delete_local := false |}
    | DownloadOnly => {| allow_delete_remote := false; allow_delete_local := true |}
    | BackupArchive => {| allow_delete_remote := false; allow_delete_local := false |}
    end.

Definition suppresses (policy : DeletePolicy) (op : PlannedOperation) : bool :=
  match op with
  | DeleteRemote _ _ => negb (allow_delete_remote policy)
  | DeleteLocal _ _ => negb (allow_delete_local policy)
  | _ => false
  end.

Definition plan_filtered_with_overflow (p : Planner) (candidates : list SyncCandidate)
    (delete_policy : DeletePolicy) : list PlannedOperation * list SyncCandidate :=
  let '(ops, overflow) := plan_with_overflow p candidates in
  (filter (λ op, suppresses delete_policy op = false) ops, overflow).

Definition plan_filtered (p : Planner) (candidates : list SyncCandidate)
    (delete_policy : DeletePolicy) : list PlannedOperation :=
  (plan_filtered_with_overflow p candidates delete_policy).1.

(** * Reference definition of a plan

    One decision per path, from the last observation on each side, in path order. *)

Definition latest (source : ChangeSource) (path : string) (cands : list SyncCandidate)
    : option SyncCandidate :=
  last (filter (λ c, cand_path c = path ∧ cand_source c = source) cands).

Definition decision (cands : list SyncCandidate) (path : string) : option PlannedOperation :=
  plan_pair (latest Local path cands) (latest Remote path cands).

Definition distinct_paths (cands : list SyncCandidate) : list string :=
  sort_by String.compare (remove_dups (cand_path <$> cands)).

Definition plan_reference (cands : list SyncCandidate) : list PlannedOperation :=
  omap (decision cands) (distinct_paths cands).

#[export] Instance cand_order_laws : CmpLaws cand_order.
Proof. unfold cand_order. apply _. Qed.

(** * Sorted lists of paths *)

Lemma string_le_antisym x y :
  cmp_le String.compare x y -> cmp_le String.compare y x -> x = y.
Proof. intros Hxy Hyx. by apply String.compare_eq_iff, (cmp_le_antisym String.compare). Qed.

Lemma sorted_nodup_unique (l1 l2 : list string) :
  StronglySorted (cmp_le String.compare) l1 -> StronglySorted (cmp_le String.compare) l2 ->
  NoDup l1 -> NoDup l2 -> (forall x, x ∈ l1 <-> x ∈ l2) -> l1 = l2.
Proof.
  intros Hs1 Hs2 Hn1 Hn2 Hin.
  apply (StronglySorted_unique_strong (cmp_le String.compare)); try done.
  - intros x y _ _. apply string_le_antisym.
  - by apply NoDup_Permutation.
Qed.

Lemma distinct_paths_sorted cands : StronglySorted (cmp_le String.compare) (distinct_paths cands).
Proof. apply (sort_by_sorted String.compare). Qed.

Lemma distinct_paths_nodup cands : NoDup (distinct_paths cands).
Proof. unfold distinct_paths. rewrite sort_by_perm. apply NoDup_remove_dups. Qed.

Lemma elem_of_distinct_paths p cands : p ∈ distinct_paths cands <-> exists c, c ∈ cands /\ cand_path c = p.
Proof.
  unfold distinct_paths. rewrite elem_of_sort_by, elem_of_remove_dups, list_elem_of_fmap. naive_solver.
Qed.

Lemma distinct_paths_ext cands cands' :
  (forall p, p ∈ distinct_paths cands <-> p ∈ distinct_paths cands') ->
  distinct_paths cands = distinct_paths cands'.
Proof.
  intros. apply sorted_nodup_unique; auto using distinct_paths_sorted, distinct_paths_nodup.
Qed.

Lemma distinct_paths_perm cands cands' : cands ≡ₚ cands' -> distinct_paths cands = distinct_paths cands'.
Proof. intros Hp. apply distinct_paths_ext. intros p. rewrite !elem_of_distinct_paths. by setoid_rewrite Hp. Qed.

(** * One group *)

Definition or_last {A} (d : option A) (l : list A) : option A :=
  match last l with Some x => Some x | None => d end.

Lemma or_last_cons {A} (d : option A) x l : or_last d (x :: l) = or_last (Some x) l.
Proof. unfold or_last. rewrite last_cons. by destruct (last l). Qed.

Lemma or_last_None {A} (l : list A) : or_last None l = last l.
Proof. unfold or_last. by destruct (last l). Qed.

Lemma cand_order_path c d :
  cmp_le cand_order c d -> cmp_le String.compare (cand_path c) (cand_path d).
Proof.
  unfold cmp_le, cand_order, cmp_lex, cmp_then, cmp_by. by destruct (String.compare _ _).
Qed.

Definition others (p : string) (l : list SyncCandidate) : list SyncCandidate :=
  filter (λ c, cand_path c ≠ p) l.

Lemma take_group_spec p l a b :
  StronglySorted (cmp_le cand_order) l ->
  (forall c, c ∈ l -> cmp_le String.compare p (cand_path c)) ->
  take_group p l a b =
    (or_last a (filter (λ c, cand_path c = p ∧ cand_source c = Local) l),
     or_last b (filter (λ c, cand_path c = p ∧ cand_source c = Remote) l),
     others p l).
Proof.
  unfold others. intros Hs; revert a b; induction Hs as [|c l Hs IH Hall]; intros a b Hge; [done|].
  simpl take_group. destruct (decide (cand_path c = p)) as [Hp|Hp].
  - rewrite !filter_cons. destruct (cand_source c) eqn:Hsrc; rewrite IH by (intros; apply Hge; by right);
      repeat case_decide; rewrite ?or_last_cons; naive_solver.
  - assert (forall d, d ∈ c :: l -> cand_path d <> p) as Hne.
    { intros d Hd E. destruct Hp. apply string_le_antisym; [|apply Hge; left].
      apply elem_of_cons in Hd as [->|Hd]; [unfold cmp_le; by rewrite E, (cmp_refl String.compare)|].
      rewrite <- E. apply cand_order_path. by eapply Forall_forall in Hall. }
    rewrite (filter_all (λ c, cand_path c ≠ p)) by done.
    rewrite !filter_none; [done|..]; intros d Hd [? _]; by apply (Hne d).
Qed.

Lemma latest_others source p q l : p <> q -> latest source q (others p l) = latest source q l.
Proof.
  intros Hpq. unfold latest, others. rewrite list_filter_filter_l; [done|]. naive_solver.
Qed.

Lemma decision_others p q l : p <> q -> decision (others p l) q = decision l q.
Proof. intros. unfold decision. by rewrite !latest_others. Qed.

Lemma decision_is_Some l p : p ∈ distinct_paths l -> is_Some (decision l p).
Proof.
  intros (c & Hc & Hp)%elem_of_distinct_paths. unfold decision.
  assert (is_Some (latest (cand_source c) p l)) as [d Hd].
  { unfold latest. apply last_is_Some. intros E.
    eapply (not_elem_of_nil c). rewrite <- E. by apply list_elem_of_filter. }
  destruct (cand_source c); rewrite Hd; unfold plan_pair; repeat case_match; eauto.
Qed.

Lemma distinct_paths_head c l :
  StronglySorted (cmp_le cand_order) (c :: l) ->
  distinct_paths (c :: l) = cand_path c :: distinct_paths (others (cand_path c) (c :: l)).
Proof.
  intros Hs. apply sorted_nodup_unique.
  - apply distinct_paths_sorted.
  - constructor; [apply distinct_paths_sorted|]. apply Forall_forall.
    intros p (d & [Hd1 Hd2]%list_elem_of_filter & <-)%elem_of_distinct_paths.
    apply cand_order_path. by eapply (sorted_head_le cand_order).
  - apply distinct_paths_nodup.
  - constructor; [|apply distinct_paths_nodup].
    intros (d & [? _]%list_elem_of_filter & ?)%elem_of_distinct_paths. congruence.
  - intros p. rewrite elem_of_cons, !elem_of_distinct_paths. unfold others.
    setoid_rewrite list_elem_of_filter. split.
    + intros (d & Hd & <-). destruct (decide (cand_path d = cand_path c)); [by left|right; eauto].
    + intros [->|(d & [? ?] & ?)]; [exists c; split; [left|done]|eauto].
Qed.

Lemma others_length c l : length (others (cand_path c) (c :: l)) <= length l.
Proof.
  unfold others. rewrite filter_cons, decide_False by naive_solver. apply length_filter.
Qed.

(** * The loop implements the reference *)

Lemma plan_loop_spec fuel cap l ops :
  StronglySorted (cmp_le cand_order) l -> length l <= fuel ->
  plan_loop fuel cap l ops =
    (ops ++ omap (decision l) (take (cap - length ops) (distinct_paths l)),
     filter (λ c, cand_path c ∉ take (cap - length ops) (distinct_paths l)) l).
Proof.
  revert l ops; induction fuel as [|fuel IH]; intros l ops Hs Hlen.
  - apply Nat.le_0_r, nil_length_inv in Hlen as ->. simpl. unfold distinct_paths. simpl.
    by rewrite take_nil, app_nil_r.
  - destruct l as [|c l].
    { simpl. unfold distinct_paths. simpl. by rewrite take_nil, app_nil_r. }
    simpl plan_loop. case_decide as Hcap.
    + pose proof (take_group_spec (cand_path c) (c :: l) None None Hs) as Hg.
      rewrite !or_last_None in Hg. simpl take_group in Hg. rewrite Hg; clear Hg.
      2:{ intros d Hd. apply cand_order_path. by eapply (sorted_head_le cand_order). }
      fold (latest Local (cand_path c) (c :: l)) (latest Remote (cand_path c) (c :: l)).
      fold (decision (c :: l) (cand_path c)).
      destruct (decision_is_Some (c :: l) (cand_path c)) as [op Hop].
      { apply elem_of_distinct_paths. exists c. by split; [left|]. }
      rewrite Hop, IH; clear IH.
      2:{ eapply sublist_sorted; [apply sublist_filter|done]. }
      2:{ pose proof (others_length c l). simpl in Hlen. lia. }
      rewrite (distinct_paths_head c l Hs), length_app. simpl length.
      replace (cap - length ops) with (S (cap - (length ops + 1))) by lia.
      set (k := cap - (length ops + 1)). set (ps := distinct_paths (others (cand_path c) (c :: l))).
      rewrite firstn_cons. simpl omap. rewrite Hop, <- (assoc_L (++)). simpl. f_equal; [f_equal; f_equal|].
      * apply omap_ext_in. intros p Hp. apply decision_others.
        intros <-. apply elem_of_take in Hp as (i & Hp & _). apply list_elem_of_lookup_2 in Hp.
        apply elem_of_distinct_paths in Hp as (d & [? _]%list_elem_of_filter & ?). congruence.
      * unfold others. rewrite list_filter_filter. apply list_filter_iff.
        intros d. rewrite not_elem_of_cons. tauto.
    + replace (cap - length ops) with 0 by lia. rewrite take_0, app_nil_r.
      rewrite filter_all; [done|]. intros d _. apply not_elem_of_nil.
Qed.

Lemma latest_sort source p cands : latest source p (sort_by cand_order cands) = latest source p cands.
Proof.
  unfold latest. f_equal.
  set (x := {| cand_sync_id := 0; cand_source := source; cand_path := p; cand_entry_kind := File;
               cand_change_kind := Upsert; cand_remote_file_id := None;
               cand_remote_folder_id := None |}).
  assert (forall l : list SyncCandidate, filter (λ c, cand_path c = p ∧ cand_source c = source) l
                    = filter (λ c, cand_order x c = Eq) l) as Hcls.
  { intros l. apply list_filter_iff. intros c. unfold cand_order, cmp_lex, cmp_then, cmp_by. simpl.
    destruct (String.compare p (cand_path c)) eqn:E.
    - apply String.compare_eq_iff in E as <-. unfold ChangeSource_cmp, cmp_by.
      destruct source, (cand_source c); simpl; naive_solver.
    - split; [|done]. intros [<- _]. by rewrite (cmp_refl String.compare) in E.
    - split; [|done]. intros [<- _]. by rewrite (cmp_refl String.compare) in E. }
  rewrite !Hcls. apply (sort_by_class cand_order).
Qed.

Lemma decision_sort cands p : decision (sort_by cand_order cands) p = decision cands p.
Proof. unfold decision. by rewrite !latest_sort. Qed.

Definition planned_paths (p : Planner) (cands : list SyncCandidate) : list string :=
  take (max_operations_per_tick p) (distinct_paths cands).

Lemma plan_with_overflow_eq p cands :
  plan_with_overflow p cands =
    (omap (decision cands) (planned_paths p cands),
     filter (λ c, cand_path c ∉ planned_paths p cands) (sort_by cand_order cands)).
Proof.
  unfold plan_with_overflow. rewrite plan_loop_spec; [|apply (sort_by_sorted cand_order)|done].
  simpl. rewrite Nat.sub_0_r, (distinct_paths_perm _ cands) by apply sort_by_perm.
  f_equal. apply omap_ext_in. intros q _. apply decision_sort.
Qed.

(** C26: What a tick plans and what it defers: the reference decisions of the first
    [max_operations_per_tick] paths, and every candidate of the other paths. *)
Theorem plan_with_overflow_spec p cands :
  plan_with_overflow p cands =
    (omap (decision cands) (planned_paths p cands),
     filter (λ c, cand_path c ∉ planned_paths p cands) (sort_by cand_order cands)).
Proof. apply plan_with_overflow_eq. Qed.

Lemma plan_eq p cands : plan p cands = omap (decision cands) (planned_paths p cands).
Proof. unfold plan. by rewrite plan_with_overflow_eq. Qed.

Lemma planned_paths_in p cands q : q ∈ planned_paths p cands -> q ∈ distinct_paths cands.
Proof. intros H. eapply elem_of_sublist; [exact H|apply sublist_take]. Qed.

Lemma latest_spec source p cands c :
  latest source p cands = Some c -> c ∈ cands /\ cand_path c = p /\ cand_source c = source.
Proof. intros H. apply last_Some_elem_of in H. apply list_elem_of_filter in H. tauto. Qed.

Lemma decision_path cands p op : decision cands p = Some op -> op_path op = p.
Proof.
  unfold decision, plan_pair.
  destruct (latest Local p cands) as [l|] eqn:El; [apply latest_spec in El as (_ & Hl & _)|];
  destruct (latest Remote p cands) as [r|] eqn:Er; try (apply latest_spec in Er as (_ & Hr & _));
    intros [= <-].
  - unfold plan_conflict_or_resolution. repeat case_match; simpl; congruence.
  - unfold plan_single. repeat case_match; simpl; congruence.
  - unfold plan_single. repeat case_match; simpl; congruence.
Qed.

Lemma omap_decision_paths cands (ps : list string) :
  (forall q, q ∈ ps -> q ∈ distinct_paths cands) -> op_path <$> omap (decision cands) ps = ps.
Proof.
  induction ps as [|q ps IH]; intros Hin; [done|]. csimpl.
  destruct (decision_is_Some cands q) as [op Hop]; [apply Hin; left|].
  rewrite Hop. csimpl. rewrite (decision_path _ _ _ Hop), IH; [done|]. intros r Hr. apply Hin. by right.
Qed.

(** A tick plans exactly one operation for each of its paths, the first
    [max_operations_per_tick] paths in byte order; so paths are strictly increasing, no path
    is planned twice and the cap is respected. *)
Theorem plan_one_operation_per_path p cands :
  op_path <$> plan p cands = planned_paths p cands /\
  NoDup (op_path <$> plan p cands) /\
  StronglySorted (cmp_le String.compare) (op_path <$> plan p cands) /\
  length (plan p cands) = max_operations_per_tick p `min` length (distinct_paths cands).
Proof.
  assert (op_path <$> plan p cands = planned_paths p cands) as E.
  { rewrite plan_eq. apply omap_decision_paths, planned_paths_in. }
  rewrite <- (length_fmap op_path (plan p cands)), E. split; [done|]. unfold planned_paths.
  split; [eapply sublist_NoDup; [apply distinct_paths_nodup|apply sublist_take]|].
  split; [eapply sublist_sorted; [apply sublist_take|apply distinct_paths_sorted]|].
  apply length_take.
Qed.

(** ** Replaying the overflow *)

Lemma overflow_paths p cands :
  distinct_paths (plan_with_overflow p cands).2 = drop (max_operations_per_tick p) (distinct_paths cands).
Proof.
  rewrite plan_with_overflow_eq. simpl. set (m := max_operations_per_tick p).
  pose proof (distinct_paths_nodup cands) as Hnd. pose proof (distinct_paths_sorted cands) as Hs.
  rewrite <- (take_drop m (distinct_paths cands)) in Hnd. apply NoDup_app in Hnd as (_ & Hdisj & _).
  apply sorted_nodup_unique.
  - apply distinct_paths_sorted.
  - eapply sublist_sorted; [apply sublist_drop|done].
  - apply distinct_paths_nodup.
  - eapply sublist_NoDup; [apply distinct_paths_nodup|apply sublist_drop].
  - intros q. rewrite elem_of_distinct_paths. setoid_rewrite list_elem_of_filter.
    setoid_rewrite elem_of_sort_by. unfold planned_paths. fold m. split.
    + intros (c & [Hnot Hc] & <-).
      assert (cand_path c ∈ distinct_paths cands) as Hin by (apply elem_of_distinct_paths; eauto).
      rewrite <- (take_drop m (distinct_paths cands)) in Hin. apply elem_of_app in Hin. tauto.
    + intros Hq. assert (q ∈ distinct_paths cands) as Hin.
      { eapply elem_of_sublist; [exact Hq|apply sublist_drop]. }
      apply elem_of_distinct_paths in Hin as (c & Hc & <-). exists c. split; [|done].
      split; [|done]. intros Ht. by apply (Hdisj _ Ht).
Qed.

Lemma overflow_decision p cands q :
  q ∉ planned_paths p cands -> decision (plan_with_overflow p cands).2 q = decision cands q.
Proof.
  intros Hq. rewrite plan_with_overflow_eq, <- (decision_sort cands). simpl.
  unfold decision, latest. rewrite !list_filter_filter_l; [done|..]; naive_solver.
Qed.

(** [k] ticks, each planning what the previous one deferred. *)
Fixpoint plan_ticks (k : nat) (p : Planner) (cands : list SyncCandidate)
    : list PlannedOperation * list SyncCandidate :=
  match k with
  | 0 => ([], cands)
  | S k' =>
      let '(ops, overflow) := plan_with_overflow p cands in
      let '(ops', overflow') := plan_ticks k' p overflow in (ops ++ ops', overflow')
  end.

Lemma plan_ticks_spec k p cands :
  length (distinct_paths cands) <= k * max_operations_per_tick p ->
  plan_ticks k p cands = (plan_reference cands, []).
Proof.
  revert cands; induction k as [|k IH]; intros cands Hk; simpl.
  - unfold plan_reference. assert (distinct_paths cands = []) as -> by (apply nil_length_inv; lia).
    destruct cands as [|c cands]; [done|].
    assert (cand_path c ∈ distinct_paths (c :: cands)) as Hin.
    { apply elem_of_distinct_paths. exists c. by split; [left|]. }
    destruct (distinct_paths (c :: cands)); [by apply not_elem_of_nil in Hin|simpl in Hk; lia].
  - pose proof (overflow_paths p cands) as Hp.
    pose proof (overflow_decision p cands) as Hd. pose proof (plan_eq p cands) as He.
    unfold plan in He. destruct (plan_with_overflow p cands) as [ops ov] eqn:E. simpl in *.
    rewrite IH; [|rewrite Hp, length_drop; lia]. f_equal.
    unfold plan_reference. rewrite He, Hp. unfold planned_paths.
    rewrite <- (take_drop (max_operations_per_tick p) (distinct_paths cands)) at 3.
    rewrite omap_app. f_equal. apply omap_ext_in. intros q Hq. apply Hd. unfold planned_paths.
    pose proof (distinct_paths_nodup cands) as Hnd.
    rewrite <- (take_drop (max_operations_per_tick p) (distinct_paths cands)) in Hnd.
    apply NoDup_app in Hnd as (_ & Hdisj & _). intros Ht. by apply (Hdisj _ Ht).
Qed.

(** No candidate is lost to the per-tick cap: replaying the overflow tick after tick, as soon
    as the ticks together have room for every path, yields exactly the plan without a cap
    and leaves no overflow. *)
Theorem plan_overflow_replay_complete k p cands
  (Hroom : length (distinct_paths cands) <= k * max_operations_per_tick p) :
  plan_ticks k p cands = (plan_reference cands, []).
Proof. by apply plan_ticks_spec. Qed.

Definition local_upsert (sync_id : SyncId) (path : string) : SyncCandidate := {|
  cand_sync_id := sync_id; cand_source := Local; cand_path := path; cand_entry_kind := File;
  cand_change_kind := Upsert; cand_remote_file_id := None; cand_remote_folder_id := None |}.

Lemma plan_overflow_replay_complete_witness :
  length (distinct_paths (local_upsert 1 <$> ["b"; "a"; "c"])) <= 2 * 2 /\
  plan_ticks 2 {| max_operations_per_tick := 2 |} (local_upsert 1 <$> ["b"; "a"; "c"]) =
    (plan_reference (local_upsert 1 <$> ["b"; "a"; "c"]), []).
Proof.
  split; [vm_compute; lia|].
  apply (plan_overflow_replay_complete 2 {| max_operations_per_tick := 2 |}). vm_compute. lia.
Defined.

(** ** Safety of the decisions *)

Definition changed (source : ChangeSource) (kind : ChangeKind) (cands : list SyncCandidate)
    (path : string) : Prop :=
  exists c, latest source path cands = Some c /\ cand_change_kind c = kind.

(** What must have been observed for an operation to be planned. *)
Definition justified (cands : list SyncCandidate) (op : PlannedOperation) : Prop :=
  let path := op_path op in
  let quiet source := latest source path cands = None in
  match op with
  | UploadFile _ _ _ _ | CreateRemoteDirectory _ _ => changed Local Upsert cands path /\ quiet Remote
  | DownloadFile _ _ _ | CreateLocalDirectory _ _ _ => changed Remote Upsert cands path /\ quiet Local
  | DeleteRemote _ _ => changed Local Delete cands path /\ quiet Remote
  | DeleteLocal _ _ =>
      changed Remote Delete cands path /\ (quiet Local \/ changed Local Delete cands path)
  | Conflict _ _ _ =>
      is_Some (latest Local path cands) /\ is_Some (latest Remote path cands)
  end.

Lemma decision_justified cands p op : decision cands p = Some op -> justified cands op.
Proof.
  intros Hop. unfold justified. rewrite (decision_path _ _ _ Hop). revert Hop.
  unfold decision, plan_pair, changed.
  destruct (latest Local p cands) as [l|] eqn:El; destruct (latest Remote p cands) as [r|] eqn:Er;
    intros [= <-].
  - unfold plan_conflict_or_resolution. case_decide; [simpl; eauto|].
    destruct (cand_change_kind l) eqn:Hl, (cand_change_kind r) eqn:Hr; simpl; eauto 10.
  - apply latest_spec in El as (_ & _ & Hs). unfold plan_single. rewrite Hs.
    destruct (cand_entry_kind l), (cand_change_kind l) eqn:Hk; simpl; eauto.
  - apply latest_spec in Er as (_ & _ & Hs). unfold plan_single. rewrite Hs.
    destruct (cand_entry_kind r), (cand_change_kind r) eqn:Hk; simpl; eauto.
Qed.

(** The planner never overwrites or deletes over a change it saw on the other side: every
    planned operation other than a conflict acts on a path that only one side changed, except
    a local delete when both sides deleted the entry. *)
Theorem plan_is_justified p cands : Forall (justified cands) (plan p cands).
Proof.
  rewrite plan_eq. apply Forall_forall. intros op (q & _ & Hq)%list_elem_of_omap.
  by apply decision_justified in Hq.
Qed.

Definition is_delete (op : PlannedOperation) : bool :=
  match op with DeleteLocal _ _ | DeleteRemote _ _ => true | _ => false end.

(** Deletes flow only in the directions the sync type allows, never when [propagate_deletes]
    is off, and every operation that is not a delete survives the filter. *)
Theorem plan_filtered_respects_policy p cands sync_type propagate_deletes :
  let policy := for_sync_type sync_type propagate_deletes in
  Forall (λ op,
    match op with
    | DeleteRemote _ _ =>
        propagate_deletes = true /\ (sync_type = Full \/ sync_type = UploadOnly)
    | DeleteLocal _ _ =>
        propagate_deletes = true /\ (sync_type = Full \/ sync_type = DownloadOnly)
    | _ => True
    end) (plan_filtered p cands policy) /\
  filter (λ op, is_delete op = false) (plan_filtered p cands policy) =
    filter (λ op, is_delete op = false) (plan p cands) /\
  (plan_filtered_with_overflow p cands policy).2 = (plan_with_overflow p cands).2 /\
  (propagate_deletes = true -> sync_type = Full -> plan_filtered p cands policy = plan p cands).
Proof.
  unfold plan_filtered, plan_filtered_with_overflow, plan.
  destruct (plan_with_overflow p cands) as [ops ov]; simpl. repeat split.
  - apply Forall_forall. intros op [Hs _]%list_elem_of_filter. revert Hs.
    destruct op, sync_type, propagate_deletes; simpl; naive_solver.
  - rewrite list_filter_filter_l; [done|]. intros op. by destruct op.
  - intros -> ->. apply filter_all. intros op _. by destruct op.
Qed.

(** Paths are grouped without looking at the sync root: when one batch holds candidates of
    two roots for the same relative path, one root's change is neither planned nor
    deferred. *)
Theorem plan_conflates_roots :
  exists cands c, c ∈ cands /\
    Forall (λ op, op_sync_id op <> cand_sync_id c) (plan Planner_default cands) /\
    (plan_with_overflow Planner_default cands).2 = [].
Proof.
  exists [local_upsert 1 "README"; local_upsert 2 "README"], (local_upsert 1 "README").
  split; [left|]. split; [apply (bool_decide_unpack _); vm_compute; exact I|reflexivity].
Qed.
