(* ===== verification/ConflictResolver.v ===== *)
(** Conflict resolution and failure classification:
    crates/pcloud-engine/src/conflict_resolver.rs and crates/pcloud-engine/src/recovery.rs.

    The modification time that [resolve_with_sync_root] reads from the filesystem is a
    parameter ([read_mtime]); log messages are not modelled. *)
From S2P Require Import Prelude Paths Model.

Module ConflictPolicy.
Inductive t : Type :=
| PreferLocal | PreferRemote | NewestWins | RenameBoth | Error | ManualReview.
End ConflictPolicy.

Record ConflictResolver : Type := mkConflictResolver { default_policy : ConflictPolicy.t }.

Definition ConflictResolver_default : ConflictResolver :=
  {| default_policy := ConflictPolicy.RenameBoth |}.

Definition resolve_prefer_local (sync_id : SyncId) (path : string) (kind : ConflictKind)
    : ConflictResolution :=
  match kind with
  | LocalModifyVsRemoteModify | RemoteDeleteVsLocalModify =>
      Apply (UploadFile sync_id path None (basename path))
  | LocalDeleteVsRemoteModify => Apply (DeleteRemote sync_id path)
  | _ => Res_ManualReview path kind "conflict requires manual review even under prefer-local"
  end.

Definition resolve_prefer_remote (sync_id : SyncId) (path : string) (kind : ConflictKind)
    : ConflictResolution :=
  match kind with
  | LocalModifyVsRemoteModify => Apply (DownloadFile sync_id path None)
  | LocalDeleteVsRemoteModify => Apply (DownloadFile sync_id path None)
  | RemoteDeleteVsLocalModify => Apply (DeleteLocal sync_id path)
  | _ => Res_ManualReview path kind "conflict requires manual review even under prefer-remote"
  end.

Definition resolve_newest_wins (sync_id : SyncId) (path : string) (kind : ConflictKind)
    (local_mtime_secs remote_mtime_secs : option N) : ConflictResolution :=
  match local_mtime_secs, remote_mtime_secs with
  | Some local, Some remote =>
      if decide (remote < local)%N then resolve_prefer_local sync_id path kind
      else resolve_prefer_remote sync_id path kind
  | _, _ => resolve_prefer_remote sync_id path kind
  end.

Definition conflict_rename_path (path label : string) : string :=
  let l := chars path in
  let fallback := path +:+ ".conflict-" +:+ label in
  match rfind dot l with
  | Some dot_pos =>
      let last_sep := match rfind slash l with Some p => p + 1 | None => 0 end in
      if decide (last_sep < dot_pos) then
        let stem := str (take dot_pos l) in
        let ext := str (drop (dot_pos + 1) l) in
        stem +:+ ".conflict-" +:+ label +:+ "." +:+ ext
      else fallback
  | None => fallback
  end.

Definition resolve_rename_both (sync_id : SyncId) (path : string) (kind : ConflictKind)
    : ConflictResolution :=
  match kind with
  | LocalModifyVsRemoteModify =>
      Res_RenameBoth (conflict_rename_path path "local") (conflict_rename_path path "remote")
        path sync_id
  | _ => Res_ManualReview path kind "rename-both: asymmetric conflict requires manual review"
  end.

Definition resolve_with (r : ConflictResolver) (operation : PlannedOperation)
    (local_mtime_secs remote_mtime_secs : option N) : option ConflictResolution :=
  match operation with
  | Conflict sync_id path kind =>
      Some match default_policy r with
           | ConflictPolicy.PreferLocal => resolve_prefer_local sync_id path kind
           | ConflictPolicy.PreferRemote => resolve_prefer_remote sync_id path kind
           | ConflictPolicy.NewestWins =>
               resolve_newest_wins sync_id path kind local_mtime_secs remote_mtime_secs
           | ConflictPolicy.RenameBoth => resolve_rename_both sync_id path kind
           | ConflictPolicy.Error | ConflictPolicy.ManualReview =>
               Res_ManualReview path kind "manual review required by conflict policy"
           end
  | _ => None
  end.

Section SyncRoot.
(** [std::fs::metadata(sync_root.join(path))] read as whole seconds since the epoch. *)
Context (read_mtime : string -> option N).

Definition resolve_with_sync_root (r : ConflictResolver) (operation : PlannedOperation)
    (remote_mtime_secs local_mtime_secs_override : option N) : option ConflictResolution :=
  match operation with
  | Conflict _ path _ =>
      let local_mtime :=
        match local_mtime_secs_override with Some m => Some m | None => read_mtime path end in
      resolve_with r operation local_mtime remote_mtime_secs
  | _ => None
  end.
End SyncRoot.

(** * recovery.rs *)

Record RecoveryManager : Type := mkRecoveryManager { automatic_repair_enabled : bool }.

Definition RecoveryManager_default : RecoveryManager := {| automatic_repair_enabled := true |}.

Inductive RecoveryFailure : Type :=
| RetryableNetworkError | ChecksumMismatch | InvalidPath | PermissionDenied.

Definition classify_failure (m : RecoveryManager) (operation : PlannedOperation)
    (failure : RecoveryFailure) : RecoveryDecision := {|
  dec_operation := operation;
  dec_disposition :=
    match failure with
    | RetryableNetworkError =>
        if automatic_repair_enabled m then RetryLater else ManualIntervention
    | ChecksumMismatch => ManualIntervention
    | InvalidPath => Terminal
    | PermissionDenied => ManualIntervention
    end;
  dec_reason :=
    match failure with
    | RetryableNetworkError => "transient network failure should be retried"
    | ChecksumMismatch => "checksum mismatch requires integrity review"
    | InvalidPath => "invalid path is terminal until state is repaired"
    | PermissionDenied => "permission denied requires operator intervention"
    end;
|}.

(** * Renamed paths *)

Example rename_1 : conflict_rename_path "docs/report.txt" "local" = "docs/report.conflict-local.txt".
Proof. reflexivity. Qed.
Example rename_2 : conflict_rename_path "docs.d/report" "local" = "docs.d/report.conflict-local".
Proof. reflexivity. Qed.
Example rename_3 : conflict_rename_path "docs/.bashrc" "remote" = "docs/.bashrc.conflict-remote".
Proof. reflexivity. Qed.

Definition conflict_tag (label : string) : list ascii := chars (".conflict-" +:+ label).

(** The new name inserts the tag into the path: before the extension of the last segment, or
    at its end. *)
Lemma conflict_rename_path_split path :
  exists stem rest, chars path = stem ++ rest /\ slash ∉ rest /\
    forall label, chars (conflict_rename_path path label) = stem ++ conflict_tag label ++ rest.
Proof.
  unfold conflict_rename_path, conflict_tag.
  assert (forall label, chars (path +:+ ".conflict-" +:+ label)
          = chars path ++ chars (".conflict-" +:+ label) ++ []) as Hfb.
  { intros. by rewrite chars_app, app_nil_r. }
  destruct (rfind dot (chars path)) as [dp|] eqn:Hd.
  2:{ exists (chars path), []. rewrite app_nil_r. repeat split; [by apply not_elem_of_nil|done]. }
  case_decide as Hlt.
  2:{ exists (chars path), []. rewrite app_nil_r. repeat split; [by apply not_elem_of_nil|done]. }
  apply rfind_Some in Hd as (l1 & l2 & E & <- & Hdot). exists l1, (dot :: l2).
  split; [done|]. split.
  - intros Hin. assert (slash ∈ l2) as Hs by (apply elem_of_cons in Hin as [?|?]; done).
    apply list_elem_of_split_r in Hs as (a & b & -> & Hb).
    assert (rfind slash (chars path) = Some (length (l1 ++ dot :: a))) as Hr.
    { rewrite E, <- (rfind_app slash (l1 ++ dot :: a) b Hb). f_equal.
      by rewrite <- (assoc_L (++)). }
    rewrite Hr, length_app in Hlt. simpl in Hlt. lia.
  - intros label. rewrite !chars_app, !chars_str, E.
    rewrite take_app_length.
    assert (drop (length l1 + 1) (l1 ++ dot :: l2) = l2) as ->.
    { rewrite (cons_middle dot), (assoc_L (++)). apply drop_app_length'.
      rewrite length_app. simpl. lia. }
    by rewrite <- !(assoc_L (++)).
Qed.

Lemma conflict_tag_inj l1 l2 : conflict_tag l1 = conflict_tag l2 -> l1 = l2.
Proof.
  unfold conflict_tag. rewrite !chars_app. intros H%app_inv_head. by apply chars_inj.
Qed.

Lemma split_on_last c l1 l2 :
  c ∉ l2 -> removelast (split_on c (l1 ++ l2)) = removelast (split_on c l1).
Proof.
  intros Hc. destruct (split_on_cons c l1) as (s0 & ss0 & E).
  destruct (exists_last (l:=split_on c l1)) as (ss & s & Es); [by rewrite E|].
  rewrite Es, (split_on_app_r c l2 l1 Hc ss s Es), !removelast_last. done.
Qed.

Lemma conflict_tag_no_slash label : slash ∉ chars label -> slash ∉ conflict_tag label.
Proof.
  intros Hl. unfold conflict_tag. rewrite chars_app. intros [H|H]%elem_of_app; [|done].
  revert H. apply (bool_decide_unpack _). vm_compute. exact I.
Qed.

(** Both copies survive a rename-both: the two new names differ from each other and from the
    original path, and they stay in the original's directory. *)
Theorem rename_both_keeps_both_copies path :
  let local := conflict_rename_path path "local" in
  let remote := conflict_rename_path path "remote" in
  local <> remote /\ local <> path /\ remote <> path /\
  parent_segments local = parent_segments path /\
  parent_segments remote = parent_segments path.
Proof.
  destruct (conflict_rename_path_split path) as (stem & rest & E & Hrest & Hnew).
  assert (forall label, conflict_rename_path path label <> path) as Hne.
  { intros label H. apply (f_equal (λ s, length (chars s))) in H.
    rewrite Hnew, E, !length_app in H. unfold conflict_tag in H.
    rewrite chars_app, length_app in H. simpl in H. lia. }
  assert (forall label, slash ∉ chars label ->
    parent_segments (conflict_rename_path path label) = parent_segments path) as Hdir.
  { intros label Hl. unfold parent_segments. rewrite Hnew, E.
    rewrite !split_on_last; [done|done|].
    intros [H|H]%elem_of_app; [|done]. by apply (conflict_tag_no_slash label). }
  simpl. split.
  { intros H. apply (f_equal (λ s, chars s)) in H. rewrite !Hnew in H.
    apply app_inv_head, app_inv_tail, conflict_tag_inj in H. done. }
  repeat split; auto; apply Hdir; apply (bool_decide_unpack _); vm_compute; exact I.
Qed.

(** * Resolution *)

(** The operations a resolution performs. *)
Definition res_ops (res : ConflictResolution) : list PlannedOperation :=
  match res with Apply op => [op] | _ => [] end.

(** [resolve] answers exactly on conflicts; what it applies stays on the conflict's root and
    path and is never itself a conflict; type mismatches and the other structural conflicts
    always go to manual review; and policies other than the prefer- and newest- ones apply
    nothing. *)
Theorem resolve_spec r op lm rm :
  match op with
  | Conflict sync_id path kind =>
      exists res, resolve_with r op lm rm = Some res /\
        Forall (λ o, op_sync_id o = sync_id /\ op_path o = path /\
                     (forall k, o <> Conflict sync_id path k)) (res_ops res) /\
        (kind <> LocalModifyVsRemoteModify -> kind <> LocalDeleteVsRemoteModify ->
         kind <> RemoteDeleteVsLocalModify -> exists reason, res = Res_ManualReview path kind reason) /\
        (default_policy r ∈ [ConflictPolicy.RenameBoth; ConflictPolicy.Error;
                             ConflictPolicy.ManualReview] -> res_ops res = [])
  | _ => resolve_with r op lm rm = None
  end.
Proof.
  destruct op as [| | | | | |sync_id path kind]; try done.
  unfold resolve_with. eexists; split; [done|].
  assert (forall res, (exists k, res = resolve_prefer_local sync_id path k /\ k = kind) \/
                      (exists k, res = resolve_prefer_remote sync_id path k /\ k = kind) \/
                      res_ops res = [] -> 
    Forall (λ o, op_sync_id o = sync_id /\ op_path o = path /\
                 (forall k, o <> Conflict sync_id path k)) (res_ops res)) as Hall.
  { intros res [(k & -> & _)|[(k & -> & _)| ->]]; [destruct k|destruct k|]; repeat constructor; done. }
  split; [|split].
  - apply Hall. destruct (default_policy r); eauto 6.
    + unfold resolve_newest_wins. destruct lm, rm; try case_decide; eauto 6.
    + right; right. by destruct kind.
  - intros H1 H2 H3. destruct (default_policy r), kind; try done; simpl; eauto;
      unfold resolve_newest_wins; destruct lm, rm; try case_decide; simpl; eauto.
  - rewrite !elem_of_cons, elem_of_nil. intros [->|[->|[->|[]]]]; try done. by destruct kind.
Qed.

(** Under newest-wins, with the local time read below the sync root unless it is overridden,
    the local side wins exactly when both times are known and the local one is strictly later;
    ties and unknown times go to the remote side.  For the three modify/delete conflicts the
    winner's change is applied to both sides. *)
Theorem newest_wins_spec read_mtime sync_id path kind rm override :
  let r := {| default_policy := ConflictPolicy.NewestWins |} in
  let res := resolve_with_sync_root read_mtime r (Conflict sync_id path kind) rm override in
  let local_time := match override with Some m => Some m | None => read_mtime path end in
  let local_newer := exists l m, local_time = Some l /\ rm = Some m /\ (m < l)%N in
  let upload := UploadFile sync_id path None (basename path) in
  match kind with
  | LocalModifyVsRemoteModify =>
      (local_newer /\ res = Some (Apply upload)) \/
      (~ local_newer /\ res = Some (Apply (DownloadFile sync_id path None)))
  | LocalDeleteVsRemoteModify =>
      (local_newer /\ res = Some (Apply (DeleteRemote sync_id path))) \/
      (~ local_newer /\ res = Some (Apply (DownloadFile sync_id path None)))
  | RemoteDeleteVsLocalModify =>
      (local_newer /\ res = Some (Apply upload)) \/
      (~ local_newer /\ res = Some (Apply (DeleteLocal sync_id path)))
  | _ => exists reason, res = Some (Res_ManualReview path kind reason)
  end.
Proof.
  simpl. unfold resolve_newest_wins.
  destruct (match override with Some m => Some m | None => read_mtime path end) as [l|], rm as [m|];
    try (destruct kind; simpl; eauto; right; split; try done; naive_solver).
  case_decide as Hlt; destruct kind; simpl; eauto; try (left; split; [by eauto|done]);
    right; (split; [|done]); intros (? & ? & ? & ? & ?); simplify_eq; done.
Qed.
