(* ===== verification/Transfers.v ===== *)
(** The transfer coordinators: crates/pcloud-engine/src/transfers/{uploads,downloads}.rs.

    The two coordinators are different structs with the same shape.  [TransferCoordinator] is
    the interface the engine uses and [TransferCoordinatorLaws] what it promises; both
    coordinators are instances.  A list of tasks is a Rust [Vec<TransferTask>]. *)
From S2P Require Import Prelude Paths Model.

(** * Helpers (the source repeats them in both files) *)

Definition started_task (operation : PlannedOperation) : TransferTask :=
  {| task_operation := operation; task_state := Streaming; task_last_error := None |}.

Definition finish_task (task : TransferTask) (state : TransferState) (error : option string)
    : TransferTask :=
  {| task_operation := task_operation task; task_state := state; task_last_error := error |}.

Definition task_path (task : TransferTask) : string := op_path (task_operation task).

(** [move_task]: the first task at [path] leaves [source] and joins [destination]. *)
Definition move_task (path : string) (source destination : list TransferTask)
    (state : TransferState) (error : option string)
    : bool * (list TransferTask * list TransferTask) :=
  match list_find (λ task, task_path task = path) source with
  | None => (false, (source, destination))
  | Some (index, task) =>
      (true, (take index source ++ drop (S index) source,
              destination ++ [finish_task task state error]))
  end.

Definition retain_other_sync_ids (tasks : list TransferTask) (sync_id : SyncId)
    : list TransferTask :=
  filter (λ task, op_sync_id (task_operation task) ≠ sync_id) tasks.

(** * uploads.rs *)

Record UploadCoordinator : Type := mkUploadCoordinator {
  chunk_size_bytes : N;
  active_uploads : list TransferTask;
  pending_remote_deletes : list TransferTask;
  up_pending_directory_creates : list TransferTask;
  up_completed : list TransferTask;
  up_failed : list TransferTask;
}.

Definition UploadCoordinator_default : UploadCoordinator := {|
  chunk_size_bytes := 8 * 1024 * 1024;
  active_uploads := [];
  pending_remote_deletes := [];
  up_pending_directory_creates := [];
  up_completed := [];
  up_failed := [];
|}.

(** The body of the loop of [accept_batch]. *)
Definition up_accept_one (c : UploadCoordinator) (operation : PlannedOperation)
    : UploadCoordinator :=
  let task := started_task operation in
  match operation with
  | UploadFile _ _ _ _ =>
      mkUploadCoordinator (chunk_size_bytes c) (active_uploads c ++ [task])
        (pending_remote_deletes c) (up_pending_directory_creates c) (up_completed c) (up_failed c)
  | DeleteRemote _ _ =>
      mkUploadCoordinator (chunk_size_bytes c) (active_uploads c)
        (pending_remote_deletes c ++ [task]) (up_pending_directory_creates c) (up_completed c)
        (up_failed c)
  | CreateRemoteDirectory _ _ =>
      mkUploadCoordinator (chunk_size_bytes c) (active_uploads c) (pending_remote_deletes c)
        (up_pending_directory_creates c ++ [task]) (up_completed c) (up_failed c)
  | _ => c
  end.

Definition up_accept_batch (operations : list PlannedOperation) (c : UploadCoordinator)
    : UploadCoordinator :=
  foldl up_accept_one
    (mkUploadCoordinator (chunk_size_bytes c) [] [] [] (up_completed c) (up_failed c)) operations.

Definition up_evict_sync_id (sync_id : SyncId) (c : UploadCoordinator) : UploadCoordinator :=
  mkUploadCoordinator (chunk_size_bytes c)
    (retain_other_sync_ids (active_uploads c) sync_id)
    (retain_other_sync_ids (pending_remote_deletes c) sync_id)
    (retain_other_sync_ids (up_pending_directory_creates c) sync_id)
    (retain_other_sync_ids (up_completed c) sync_id)
    (retain_other_sync_ids (up_failed c) sync_id).

Definition up_active_count (c : UploadCoordinator) : nat :=
  length (active_uploads c) + length (pending_remote_deletes c)
  + length (up_pending_directory_creates c).

(** The short-circuit chain [move_task(..) || move_task(..) || move_task(..)]. *)
Definition up_mark_completed (path : string) (c : UploadCoordinator) : bool * UploadCoordinator :=
  match move_task path (active_uploads c) (up_completed c) Completed None with
  | (true, (src, dst)) =>
      (true, mkUploadCoordinator (chunk_size_bytes c) src (pending_remote_deletes c)
               (up_pending_directory_creates c) dst (up_failed c))
  | (false, _) =>
      match move_task path (pending_remote_deletes c) (up_completed c) Completed None with
      | (true, (src, dst)) =>
          (true, mkUploadCoordinator (chunk_size_bytes c) (active_uploads c) src
                   (up_pending_directory_creates c) dst (up_failed c))
      | (false, _) =>
          match move_task path (up_pending_directory_creates c) (up_completed c) Completed None with
          | (true, (src, dst)) =>
              (true, mkUploadCoordinator (chunk_size_bytes c) (active_uploads c)
                       (pending_remote_deletes c) src dst (up_failed c))
          | (false, _) => (false, c)
          end
      end
  end.

Definition up_mark_failed (path error : string) (c : UploadCoordinator)
    : bool * UploadCoordinator :=
  match move_task path (active_uploads c) (up_failed c) Failed (Some error) with
  | (true, (src, dst)) =>
      (true, mkUploadCoordinator (chunk_size_bytes c) src (pending_remote_deletes c)
               (up_pending_directory_creates c) (up_completed c) dst)
  | (false, _) =>
      match move_task path (pending_remote_deletes c) (up_failed c) Failed (Some error) with
      | (true, (src, dst)) =>
          (true, mkUploadCoordinator (chunk_size_bytes c) (active_uploads c) src
                   (up_pending_directory_creates c) (up_completed c) dst)
      | (false, _) =>
          match move_task path (up_pending_directory_creates c) (up_failed c) Failed (Some error) with
          | (true, (src, dst)) =>
              (true, mkUploadCoordinator (chunk_size_bytes c) (active_uploads c)
                       (pending_remote_deletes c) src (up_completed c) dst)
          | (false, _) => (false, c)
          end
      end
  end.

(** * downloads.rs *)

Record DownloadCoordinator : Type := mkDownloadCoordinator {
  max_range_requests : nat;
  active_downloads : list TransferTask;
  pending_local_deletes : list TransferTask;
  down_pending_directory_creates : list TransferTask;
  down_completed : list TransferTask;
  down_failed : list TransferTask;
}.

Definition DownloadCoordinator_default : DownloadCoordinator := {|
  max_range_requests := 8;
  active_downloads := [];
  pending_local_deletes := [];
  down_pending_directory_creates := [];
  down_completed := [];
  down_failed := [];
|}.

Definition down_accept_one (c : DownloadCoordinator) (operation : PlannedOperation)
    : DownloadCoordinator :=
  let task := started_task operation in
  match operation with
  | DownloadFile _ _ _ =>
      mkDownloadCoordinator (max_range_requests c) (active_downloads c ++ [task])
        (pending_local_deletes c) (down_pending_directory_creates c) (down_completed c)
        (down_failed c)
  | DeleteLocal _ _ =>
      mkDownloadCoordinator (max_range_requests c) (active_downloads c)
        (pending_local_deletes c ++ [task]) (down_pending_directory_creates c) (down_completed c)
        (down_failed c)
  | CreateLocalDirectory _ _ _ =>
      mkDownloadCoordinator (max_range_requests c) (active_downloads c) (pending_local_deletes c)
        (down_pending_directory_creates c ++ [task]) (down_completed c) (down_failed c)
  | _ => c
  end.

Definition down_accept_batch (operations : list PlannedOperation) (c : DownloadCoordinator)
    : DownloadCoordinator :=
  foldl down_accept_one
    (mkDownloadCoordinator (max_range_requests c) [] [] [] (down_completed c) (down_failed c))
    operations.

Definition down_evict_sync_id (sync_id : SyncId) (c : DownloadCoordinator) : DownloadCoordinator :=
  mkDownloadCoordinator (max_range_requests c)
    (retain_other_sync_ids (active_downloads c) sync_id)
    (retain_other_sync_ids (pending_local_deletes c) sync_id)
    (retain_other_sync_ids (down_pending_directory_creates c) sync_id)
    (retain_other_sync_ids (down_completed c) sync_id)
    (retain_other_sync_ids (down_failed c) sync_id).

Definition down_active_count (c : DownloadCoordinator) : nat :=
  length (active_downloads c) + length (pending_local_deletes c)
  + length (down_pending_directory_creates c).

Definition down_mark_completed (path : string) (c : DownloadCoordinator)
    : bool * DownloadCoordinator :=
  match move_task path (active_downloads c) (down_completed c) Completed None with
  | (true, (src, dst)) =>
      (true, mkDownloadCoordinator (max_range_requests c) src (pending_local_deletes c)
               (down_pending_directory_creates c) dst (down_failed c))
  | (false, _) =>
      match move_task path (pending_local_deletes c) (down_completed c) Completed None with
      | (true, (src, dst)) =>
          (true, mkDownloadCoordinator (max_range_requests c) (active_downloads c) src
                   (down_pending_directory_creates c) dst (down_failed c))
      | (false, _) =>
          match move_task path (down_pending_directory_creates c) (down_completed c) Completed None with
          | (true, (src, dst)) =>
              (true, mkDownloadCoordinator (max_range_requests c) (active_downloads c)
                       (pending_local_deletes c) src dst (down_failed c))
          | (false, _) => (false, c)
          end
      end
  end.

Definition down_mark_failed (path error : string) (c : DownloadCoordinator)
    : bool * DownloadCoordinator :=
  match move_task path (active_downloads c) (down_failed c) Failed (Some error) with
  | (true, (src, dst)) =>
      (true, mkDownloadCoordinator (max_range_requests c) src (pending_local_deletes c)
               (down_pending_directory_creates c) (down_completed c) dst)
  | (false, _) =>
      match move_task path (pending_local_deletes c) (down_failed c) Failed (Some error) with
      | (true, (src, dst)) =>
          (true, mkDownloadCoordinator (max_range_requests c) (active_downloads c) src
                   (down_pending_directory_creates c) (down_completed c) dst)
      | (false, _) =>
          match move_task path (down_pending_directory_creates c) (down_failed c) Failed (Some error) with
          | (true, (src, dst)) =>
              (true, mkDownloadCoordinator (max_range_requests c) (active_downloads c)
                       (pending_local_deletes c) src (down_completed c) dst)
          | (false, _) => (false, c)
          end
      end
  end.

(** * The chunked upload tracker of uploads.rs *)

Record ChunkedUploadTracker : Type := mkChunkedUploadTracker {
  upload_id : N;
  total_size : N;
  acked_offset : N;
  chunk_size : N;
  chunks_done : N;
}.

Definition ChunkedUploadTracker_new (upload_id total_size chunk_size : N)
    : ChunkedUploadTracker := {|
  upload_id := upload_id; total_size := total_size; acked_offset := 0;
  chunk_size := chunk_size; chunks_done := 0 |}.

(** [u64] addition wraps in the release profile. *)
Definition advance (bytes_written : N) (t : ChunkedUploadTracker) : N * ChunkedUploadTracker :=
  let acked := u64_wrapping_add (acked_offset t) bytes_written in
  (acked, {| upload_id := upload_id t; total_size := total_size t; acked_offset := acked;
             chunk_size := chunk_size t;
             chunks_done := u64_wrapping_add (chunks_done t) 1 |}).

Definition is_complete (t : ChunkedUploadTracker) : bool :=
  bool_decide (total_size t <= acked_offset t)%N.

(** Truncated subtraction on [N] is [saturating_sub]. *)
Definition remaining (t : ChunkedUploadTracker) : N := total_size t - acked_offset t.

Definition next_chunk_size (t : ChunkedUploadTracker) : N := remaining t `min` chunk_size t.

(** The chunked branch of the upload bridge (crates/pcloud-daemon/src/transfer_bridge.rs) when
    every [upload_bytes] call ends in success: the chunks sent, in order.  Slicing out of range
    panics, so it is an option. *)
Definition slice {A} (l : list A) (from to : N) : option (list A) :=
  if decide (from <= to /\ to <= len l)%N
  then Some (take (N.to_nat (to - from)) (drop (N.to_nat from) l)) else None.

Fixpoint upload_chunks {A} (fuel : nat) (file_bytes : list A) (tracker : ChunkedUploadTracker)
    : option (list (list A) * ChunkedUploadTracker) :=
  if is_complete tracker then Some ([], tracker)
  else
    match fuel with
    | 0 => None
    | S fuel' =>
        let offset := acked_offset tracker in
        let chunk_len := next_chunk_size tracker in
        chunk ← slice file_bytes offset (offset + chunk_len)%N;
        '(chunks, t') ← upload_chunks fuel' file_bytes (advance chunk_len tracker).2;
        Some (chunk :: chunks, t')
    end.

(** * The interface *)

Class TransferCoordinator (C : Type) := {
  handles : PlannedOperation -> bool;
  active_tasks : C -> list TransferTask;
  completed_tasks : C -> list TransferTask;
  failed_tasks : C -> list TransferTask;
  accept_batch : list PlannedOperation -> C -> C;
  coord_evict : SyncId -> C -> C;
  mark_completed : string -> C -> bool * C;
  mark_failed : string -> string -> C -> bool * C;
}.

(** One task at [path] leaves [before] (leaving [after]) and is appended, finished, to [dst]. *)
Definition finishes (path : string) (state : TransferState) (error : option string)
    (before after dst dst' : list TransferTask) : Prop :=
  exists t, task_path t = path /\ before ≡ₚ t :: after /\ dst' = dst ++ [finish_task t state error].

Class TransferCoordinatorLaws (C : Type) `{TransferCoordinator C} : Prop := {
  accept_active ops (c : C) :
    active_tasks (accept_batch ops c) ≡ₚ started_task <$> filter (λ op, handles op = true) ops;
  accept_completed ops (c : C) : completed_tasks (accept_batch ops c) = completed_tasks c;
  accept_failed ops (c : C) : failed_tasks (accept_batch ops c) = failed_tasks c;
  evict_active sid (c : C) : active_tasks (coord_evict sid c) = retain_other_sync_ids (active_tasks c) sid;
  evict_completed sid (c : C) :
    completed_tasks (coord_evict sid c) = retain_other_sync_ids (completed_tasks c) sid;
  evict_failed sid (c : C) :
    failed_tasks (coord_evict sid c) = retain_other_sync_ids (failed_tasks c) sid;
  mark_completed_spec path (c : C) :
    match mark_completed path c with
    | (true, c') =>
        finishes path Completed None (active_tasks c) (active_tasks c')
          (completed_tasks c) (completed_tasks c') /\ failed_tasks c' = failed_tasks c
    | (false, c') => c' = c /\ Forall (λ t, task_path t <> path) (active_tasks c)
    end;
  mark_failed_spec path error (c : C) :
    match mark_failed path error c with
    | (true, c') =>
        finishes path Failed (Some error) (active_tasks c) (active_tasks c')
          (failed_tasks c) (failed_tasks c') /\ completed_tasks c' = completed_tasks c
    | (false, c') => c' = c /\ Forall (λ t, task_path t <> path) (active_tasks c)
    end;
}.

#[export] Instance UploadCoordinator_coordinator : TransferCoordinator UploadCoordinator := {
  handles op :=
    match op with UploadFile _ _ _ _ | DeleteRemote _ _ | CreateRemoteDirectory _ _ => true
                | _ => false end;
  active_tasks c := active_uploads c ++ pending_remote_deletes c ++ up_pending_directory_creates c;
  completed_tasks := up_completed;
  failed_tasks := up_failed;
  accept_batch := up_accept_batch;
  coord_evict := up_evict_sync_id;
  mark_completed := up_mark_completed;
  mark_failed := up_mark_failed;
}.

#[export] Instance DownloadCoordinator_coordinator : TransferCoordinator DownloadCoordinator := {
  handles op :=
    match op with DownloadFile _ _ _ | DeleteLocal _ _ | CreateLocalDirectory _ _ _ => true
                | _ => false end;
  active_tasks c := active_downloads c ++ pending_local_deletes c ++ down_pending_directory_creates c;
  completed_tasks := down_completed;
  failed_tasks := down_failed;
  accept_batch := down_accept_batch;
  coord_evict := down_evict_sync_id;
  mark_completed := down_mark_completed;
  mark_failed := down_mark_failed;
}.

(** * Both coordinators implement the interface *)

Lemma move_task_cases path src dst state error :
  (move_task path src dst state error = (false, (src, dst)) /\ Forall (λ t, task_path t <> path) src)
  \/ exists src' dst', move_task path src dst state error = (true, (src', dst')) /\
       finishes path state error src src' dst dst'.
Proof.
  unfold move_task. destruct (list_find _ src) as [[i t]|] eqn:E.
  - right. apply list_find_Some in E as (Hi & Hp & _). do 2 eexists; split; [done|].
    exists t. split; [done|]. split; [|done].
    rewrite <- (take_drop_middle _ _ _ Hi) at 1. by rewrite <- Permutation_middle.
  - left. split; [done|]. by apply list_find_None in E.
Qed.

(** Permutation goals between concatenations of the three task lists. *)
Ltac task_perm :=
  match goal with
  | H : ?l ≡ₚ _ |- context [?l] => rewrite H
  end; simpl; rewrite <- ?Permutation_middle; done.

(** Case analysis on the chain of [move_task] calls of a [mark_*] operation. *)
Ltac mark_cases c :=
  destruct c; simpl;
  repeat match goal with
  | |- context [move_task ?p ?s ?d ?st ?e] =>
      destruct (move_task_cases p s d st e) as [[-> ?]|(? & ? & -> & (? & ? & ? & ->))]
  end;
  simpl;
  [ split; [done|by rewrite !Forall_app]
  | split; [eexists; split; [eassumption|split; [task_perm|reflexivity]]|done].. ].

Lemma finish_accept (C : Type) (f : C -> PlannedOperation -> C) (act : C -> list TransferTask) (h : PlannedOperation -> bool) :
  (forall c op, act (f c op) ≡ₚ act c ++ (if h op then [started_task op] else [])) ->
  forall ops c, act (foldl f c ops) ≡ₚ act c ++ (started_task <$> filter (λ op, h op = true) ops).
Proof.
  intros Hf ops; induction ops as [|op ops IH]; intros c; simpl; [by rewrite app_nil_r|].
  rewrite IH, Hf, filter_cons. destruct (h op); simpl; by rewrite <- ?(assoc_L (++)), ?app_nil_r.
Qed.

Lemma foldl_same {C A B : Type} (f : C -> A -> C) (g : C -> B) :
  (forall c a, g (f c a) = g c) -> forall l c, g (foldl f c l) = g c.
Proof. intros Hf l; induction l as [|a l IH]; intros c; simpl; [done|]. by rewrite IH. Qed.

Lemma retain_app l1 l2 sid :
  retain_other_sync_ids (l1 ++ l2) sid = retain_other_sync_ids l1 sid ++ retain_other_sync_ids l2 sid.
Proof. apply filter_app. Qed.

Lemma up_accept_one_active (c : UploadCoordinator) op :
  active_tasks (up_accept_one c op) ≡ₚ
  active_tasks c ++ (if handles (C:=UploadCoordinator) op then [started_task op] else []).
Proof.
  destruct op; simpl; rewrite ?app_nil_r; try done; rewrite <- ?(assoc_L (++));
    rewrite ?(Permutation_app_comm [started_task _] _), <- ?(assoc_L (++)); done.
Qed.

#[export] Instance UploadCoordinator_laws : TransferCoordinatorLaws UploadCoordinator.
Proof.
  split; simpl; unfold up_accept_batch, up_mark_completed, up_mark_failed.
  - intros ops c.
    exact (finish_accept _ up_accept_one active_tasks handles up_accept_one_active ops
             (mkUploadCoordinator (chunk_size_bytes c) [] [] [] (up_completed c) (up_failed c))).
  - intros ops c. rewrite (foldl_same up_accept_one up_completed); [done|]. by intros ? [].
  - intros ops c. rewrite (foldl_same up_accept_one up_failed); [done|]. by intros ? [].
  - intros. by rewrite !retain_app.
  - done.
  - done.
  - intros path c. mark_cases c.
  - intros path error c. mark_cases c.
Qed.

Lemma down_accept_one_active (c : DownloadCoordinator) op :
  active_tasks (down_accept_one c op) ≡ₚ
  active_tasks c ++ (if handles (C:=DownloadCoordinator) op then [started_task op] else []).
Proof.
  destruct op; simpl; rewrite ?app_nil_r; try done; rewrite <- ?(assoc_L (++));
    rewrite ?(Permutation_app_comm [started_task _] _), <- ?(assoc_L (++)); done.
Qed.

#[export] Instance DownloadCoordinator_laws : TransferCoordinatorLaws DownloadCoordinator.
Proof.
  split; simpl; unfold down_accept_batch, down_mark_completed, down_mark_failed.
  - intros ops c.
    exact (finish_accept _ down_accept_one active_tasks handles down_accept_one_active ops
             (mkDownloadCoordinator (max_range_requests c) [] [] [] (down_completed c) (down_failed c))).
  - intros ops c. rewrite (foldl_same down_accept_one down_completed); [done|]. by intros ? [].
  - intros ops c. rewrite (foldl_same down_accept_one down_failed); [done|]. by intros ? [].
  - intros. by rewrite !retain_app.
  - done.
  - done.
  - intros path c. mark_cases c.
  - intros path error c. mark_cases c.
Qed.

(** * Properties *)

Definition is_conflict (op : PlannedOperation) : bool :=
  match op with Conflict _ _ _ => true | _ => false end.

(** A batch is partitioned: each operation becomes exactly one started task of exactly one
    coordinator, except conflicts, which neither coordinator takes. *)
Theorem accept_batch_partition ops (u : UploadCoordinator) (d : DownloadCoordinator) :
  (task_operation <$> active_tasks (accept_batch ops u)) ++
  (task_operation <$> active_tasks (accept_batch ops d)) ++
  filter (λ op, is_conflict op = true) ops ≡ₚ ops.
Proof.
  rewrite !accept_active, <- !list_fmap_compose.
  assert (forall l : list PlannedOperation, task_operation ∘ started_task <$> l = l) as Hid.
  { intros l. rewrite <- (list_fmap_id l) at 2. by apply list_fmap_ext. }
  rewrite !Hid. induction ops as [|op ops IH]; [done|]. rewrite !filter_cons.
  destruct op; simpl in *; by rewrite <- ?Permutation_middle, ?(assoc_L (++)), <- ?Permutation_middle,
    <- ?(assoc_L (++)), IH.
Qed.

Section AnyCoordinator.
Context {C : Type} `{TransferCoordinatorLaws C}.

Inductive mark_step : C -> C -> Prop :=
| step_completed path c : mark_step c (mark_completed path c).2
| step_failed path error c : mark_step c (mark_failed path error c).2.

Definition coord_operations (c : C) : list PlannedOperation :=
  task_operation <$> active_tasks c ++ completed_tasks c ++ failed_tasks c.

Lemma finishes_active path state error before after dst dst' rest :
  finishes path state error before after dst dst' ->
  task_operation <$> before ++ dst ++ rest ≡ₚ task_operation <$> after ++ dst' ++ rest.
Proof.
  intros (t & _ & -> & ->). rewrite ?fmap_app. simpl. rewrite ?fmap_app. simpl.
  solve_Permutation.
Qed.

Lemma mark_step_conserves c c' : mark_step c c' -> coord_operations c ≡ₚ coord_operations c'.
Proof.
  unfold coord_operations. intros [path c0|path error c0].
  - pose proof (mark_completed_spec path c0) as Hm. destruct (mark_completed path c0) as [[] c1]; simpl.
    + destruct Hm as [Hf ->]. by eapply finishes_active.
    + by destruct Hm as [-> _].
  - pose proof (mark_failed_spec path error c0) as Hm.
    destruct (mark_failed path error c0) as [[] c1]; simpl.
    + destruct Hm as [Hf ->]. rewrite (Permutation_app_comm (completed_tasks c0) (failed_tasks c0)).
      rewrite (Permutation_app_comm (completed_tasks c0) (failed_tasks c1)).
      by eapply finishes_active.
    + by destruct Hm as [-> _].
Qed.

Lemma mark_steps_conserve c c' : rtc mark_step c c' -> coord_operations c ≡ₚ coord_operations c'.
Proof. induction 1 as [|c c1 c2 Hs _ IH]; [done|]. by rewrite (mark_step_conserves _ _ Hs). Qed.
End AnyCoordinator.

(** Tasks are conserved: whatever sequence of completions and failures is reported, to the
    upload or to the download coordinator, each accepted operation is in exactly one of the
    active, completed and failed lists. *)
Theorem coordinators_conserve_tasks (u u' : UploadCoordinator) (d d' : DownloadCoordinator)
  (Hu : rtc mark_step u u') (Hd : rtc mark_step d d') :
  coord_operations u ≡ₚ coord_operations u' /\ coord_operations d ≡ₚ coord_operations d'.
Proof. split; by apply mark_steps_conserve. Qed.

Lemma coordinators_conserve_tasks_witness :
  let u := accept_batch [UploadFile 1 "a" None "a"; DeleteRemote 2 "b"] UploadCoordinator_default in
  let d := accept_batch [DownloadFile 1 "a" None] DownloadCoordinator_default in
  coord_operations u ≡ₚ coord_operations (mark_completed "b" u).2 /\
  coord_operations d ≡ₚ coord_operations (mark_failed "a" "reset" d).2.
Proof.
  apply coordinators_conserve_tasks; (eapply rtc_l; [|apply rtc_refl]); constructor.
Defined.

(** ** Chunked uploads *)

Lemma advance_within t (file_len : N) :
  total_size t = file_len -> (file_len <= U64_MAX)%N -> (acked_offset t <= total_size t)%N ->
  acked_offset (advance (next_chunk_size t) t).2 = (acked_offset t + next_chunk_size t)%N.
Proof.
  intros. simpl. unfold u64_wrapping_add. apply as_u64_small.
  unfold next_chunk_size, remaining. lia.
Qed.

Lemma slice_within {A} (l : list A) from n :
  (from + n <= len l)%N ->
  slice l from (from + n)%N = Some (take (N.to_nat n) (drop (N.to_nat from) l)).
Proof.
  intros ?. unfold slice. rewrite decide_True by lia. by replace (from + n - from)%N with n by lia.
Qed.

Lemma slice_chunk {A} (l : list A) (from n : N) :
  (0 < n)%N -> (from + n <= len l)%N ->
  take (N.to_nat n) (drop (N.to_nat from) l) <> [] /\
  len (take (N.to_nat n) (drop (N.to_nat from) l)) = n.
Proof.
  intros Hn Hl. assert (len (take (N.to_nat n) (drop (N.to_nat from) l)) = n) as E.
  { unfold len in *. rewrite length_take, length_drop. lia. }
  split; [|done]. intros E'. rewrite E' in E. unfold len in E. simpl in E. lia.
Qed.

Lemma upload_chunks_spec {A} fuel (file : list A) t :
  total_size t = len file -> (len file <= U64_MAX)%N -> (0 < chunk_size t)%N ->
  (acked_offset t <= total_size t)%N -> N.to_nat (remaining t) <= fuel ->
  exists chunks t', upload_chunks fuel file t = Some (chunks, t') /\
    concat chunks = drop (N.to_nat (acked_offset t)) file /\
    Forall (λ c, c <> [] /\ len c <= chunk_size t)%N chunks /\
    acked_offset t' = total_size t /\ total_size t' = total_size t.
Proof.
  revert t; induction fuel as [|fuel IH]; intros t Htot Hmax Hcs Hle Hfuel;
    unfold remaining in Hfuel; destruct (is_complete t) eqn:Hc; pose proof Hc as Hc';
    unfold is_complete in Hc'; rewrite ?bool_decide_eq_true, ?bool_decide_eq_false in Hc'.
  1,3: exists [], t; simpl; rewrite Hc; split; [done|]; split; [|split; [constructor|split; [lia|done]]];
    simpl; rewrite drop_ge; [done|unfold len in *; lia].
  { lia. }
  assert (0 < next_chunk_size t)%N as Hpos by (unfold next_chunk_size, remaining; lia).
  assert (acked_offset t + next_chunk_size t <= len file)%N as Hr
    by (unfold next_chunk_size, remaining; lia).
  pose proof (advance_within t (len file) Htot Hmax Hle) as Ha.
  destruct (slice_chunk file (acked_offset t) (next_chunk_size t) Hpos Hr) as [Hne Hlen].
  destruct (IH (advance (next_chunk_size t) t).2) as (chunks & t' & E & Hcat & Hall & Hend & Ht);
    [done|done|done|rewrite Ha; simpl; lia|unfold remaining; rewrite Ha; simpl; lia|].
  cbn -[slice advance]. rewrite Hc, slice_within by done. cbn -[advance]. rewrite E.
  do 2 eexists; split; [done|]. split; [|split; [|by split]].
  - cbn -[advance]. rewrite Hcat, Ha, N2Nat.inj_add, <- drop_drop. apply take_drop.
  - constructor; [|done]. split; [done|]. rewrite Hlen. unfold next_chunk_size. lia.
Qed.

(** A chunked upload of a file of any size terminates, sends the bytes of the file exactly
    once and in order, in chunks of at most the configured size, never slices out of range,
    and ends with every byte acknowledged. *)
Theorem chunked_upload_sends_file {A} upload_id cs (file : list A)
  (Hsize : (len file <= U64_MAX)%N) (Hcs : (0 < cs)%N) :
  exists chunks t',
    upload_chunks (length file) file (ChunkedUploadTracker_new upload_id (len file) cs)
      = Some (chunks, t') /\
    concat chunks = file /\ Forall (λ c, c <> [] /\ len c <= cs)%N chunks /\
    is_complete t' = true /\ remaining t' = 0%N.
Proof.
  destruct (upload_chunks_spec (length file) file (ChunkedUploadTracker_new upload_id (len file) cs))
    as (chunks & t' & E & Hcat & Hall & Hend & Ht); simpl; try done; try lia.
  { unfold remaining, len. simpl. lia. }
  exists chunks, t'. simpl in *. split; [exact E|]. split; [exact Hcat|]. split; [exact Hall|].
  unfold is_complete, remaining. rewrite bool_decide_eq_true. lia.
Qed.

Lemma chunked_upload_sends_file_witness :
  exists chunks t',
    upload_chunks 5 [1; 2; 3; 4; 5]%N (ChunkedUploadTracker_new 9 5 2) = Some (chunks, t') /\
    concat chunks = [1; 2; 3; 4; 5]%N /\ Forall (λ c, c <> [] /\ len c <= 2)%N chunks /\
    is_complete t' = true /\ remaining t' = 0%N.
Proof.
  apply (chunked_upload_sends_file 9 2 [1; 2; 3; 4; 5]%N); vm_compute; [discriminate|reflexivity].
Defined.
