(* ===== verification/Ingest.v ===== *)
(** Normalisation of raw changes into sync candidates:
    crates/pcloud-engine/src/{diff_poller,local_scan,fs_events}.rs.

    The three sources validate every path with the shared predicate of lib.rs before anything
    is planned.  A file watcher's events are coalesced, a scan can be filtered by a selective
    policy, and [IncrementalScanTracker] decides between a walk and the watcher's events. *)
From S2P Require Import Prelude Paths Model.

(** The three error enums have this one constructor. *)
Inductive DiffNormalizationError : Type :=
| InvalidPath (path : string).

(** [validate_relative_path] (the same function in the three files). *)
Definition validate_relative_path (path : string) : result unit DiffNormalizationError :=
  if is_valid_relative_path path then Ok tt else Err (InvalidPath path).

(** * diff_poller.rs *)

Record DiffPoller : Type := mkDiffPoller { batch_limit : N }.

Definition DiffPoller_default : DiffPoller := {| batch_limit := 512 |}.

Record RemoteDiffEntry : Type := mkRemoteDiffEntry {
  entry_path : string;
  entry_entry_kind : EntryKind;
  entry_change_kind : ChangeKind;
  entry_remote_file_id : option RemoteFileId;
  entry_remote_folder_id : option RemoteFolderId;
  entry_event : option N;
}.

Record RemoteDiffBatch : Type := mkRemoteDiffBatch {
  batch_sync_id : SyncId;
  batch_cursor : N;
  batch_has_more : bool;
  batch_entries : list RemoteDiffEntry;
}.

Definition diff_normalize_entry (sync_id : SyncId) (entry : RemoteDiffEntry)
    : result SyncCandidate DiffNormalizationError :=
  let? _ := validate_relative_path (entry_path entry) in
  Ok {| cand_sync_id := sync_id; cand_source := Remote; cand_path := entry_path entry;
        cand_entry_kind := entry_entry_kind entry; cand_change_kind := entry_change_kind entry;
        cand_remote_file_id := entry_remote_file_id entry;
        cand_remote_folder_id := entry_remote_folder_id entry |}.

Definition normalize_batch (batch : RemoteDiffBatch) : result (list SyncCandidate) DiffNormalizationError :=
  collect_results (diff_normalize_entry (batch_sync_id batch)) (batch_entries batch).

(** * local_scan.rs *)

Record LocalScanEntry : Type := mkLocalScanEntry {
  scan_sync_id : SyncId;
  scan_path : string;
  scan_entry_kind : EntryKind;
  scan_deleted : bool;
  scan_remote_parent_folder_id : option RemoteFolderId;
}.

Definition scan_normalize_entry (entry : LocalScanEntry) : result SyncCandidate DiffNormalizationError :=
  let? _ := validate_relative_path (scan_path entry) in
  Ok {| cand_sync_id := scan_sync_id entry; cand_source := Local; cand_path := scan_path entry;
        cand_entry_kind := scan_entry_kind entry;
        cand_change_kind := if scan_deleted entry then Delete else Upsert;
        cand_remote_file_id := None;
        cand_remote_folder_id := scan_remote_parent_folder_id entry |}.

Definition normalize_entries (entries : list LocalScanEntry)
    : result (list SyncCandidate) DiffNormalizationError :=
  collect_results scan_normalize_entry entries.

(** [matches] is [SelectivePolicy::matches] (file Selective). *)
Fixpoint normalize_entries_filtered (entries : list LocalScanEntry) (matches : string -> bool)
    (out : list SyncCandidate) : result (list SyncCandidate) DiffNormalizationError :=
  match entries with
  | [] => Ok out
  | entry :: entries' =>
      let? candidate := scan_normalize_entry entry in
      if negb (scan_deleted entry) && negb (matches (scan_path entry))
      then normalize_entries_filtered entries' matches out
      else normalize_entries_filtered entries' matches (out ++ [candidate])
  end.

(** * fs_events.rs *)

Inductive FsEventKind : Type := Write | Create | Remove.

Record FsEvent : Type := mkFsEvent {
  ev_sync_id : SyncId;
  ev_path : string;
  ev_entry_kind : EntryKind;
  ev_kind : FsEventKind;
}.

Definition fs_candidate (event : FsEvent) : SyncCandidate :=
  {| cand_sync_id := ev_sync_id event; cand_source := Local; cand_path := ev_path event;
     cand_entry_kind := ev_entry_kind event;
     cand_change_kind := match ev_kind event with Remove => Delete | Write | Create => Upsert end;
     cand_remote_file_id := None; cand_remote_folder_id := None |}.

(** One turn of the loop: the first event at the path is overwritten in place. *)
Definition coalesce_event (coalesced : list FsEvent) (event : FsEvent) : list FsEvent :=
  match list_find (λ candidate, ev_path candidate = ev_path event) coalesced with
  | Some (i, existing) =>
      <[i := {| ev_sync_id := ev_sync_id event; ev_path := ev_path existing;
                ev_entry_kind := ev_entry_kind event; ev_kind := ev_kind event |}]> coalesced
  | None => coalesced ++ [event]
  end.

Fixpoint coalesce_events (events coalesced : list FsEvent) : result (list FsEvent) DiffNormalizationError :=
  match events with
  | [] => Ok coalesced
  | event :: events' =>
      let? _ := validate_relative_path (ev_path event) in
      coalesce_events events' (coalesce_event coalesced event)
  end.

Definition normalize_events (events : list FsEvent) : result (list SyncCandidate) DiffNormalizationError :=
  let? coalesced := coalesce_events events [] in Ok (fs_candidate <$> coalesced).

(** * The incremental scan tracker of local_scan.rs *)

Inductive ScanDecision : Type :=
| FullScan
| IncrementalOnly (pending_events : list FsEvent).

(** [Instant]s are nanoseconds of the monotonic clock; [now] is read by the operations. *)
Record IncrementalScanTracker : Type := mkTracker {
  full_scan_interval : N;
  last_full_scan : gmap SyncId N;
  pending_events : gmap SyncId (list FsEvent);
}.

Definition IncrementalScanTracker_new (full_scan_interval : N) : IncrementalScanTracker :=
  mkTracker full_scan_interval ∅ ∅.

Definition push_event (event : FsEvent) (t : IncrementalScanTracker) : IncrementalScanTracker :=
  mkTracker (full_scan_interval t) (last_full_scan t)
    (<[ev_sync_id event := default [] (pending_events t !! ev_sync_id event) ++ [event]]>
       (pending_events t)).

(** [Instant::duration_since] saturates to zero, as subtraction on [N] does. *)
Definition decide_scan (now : N) (sync_id : SyncId) (t : IncrementalScanTracker)
    : ScanDecision * IncrementalScanTracker :=
  let needs_full :=
    match last_full_scan t !! sync_id with
    | None => true
    | Some last => bool_decide (full_scan_interval t <= now - last)%N
    end in
  let t' := mkTracker (full_scan_interval t) (last_full_scan t)
              (delete sync_id (pending_events t)) in
  if needs_full then (FullScan, t')
  else (IncrementalOnly (default [] (pending_events t !! sync_id)), t').

Definition record_full_scan (now : N) (sync_id : SyncId) (t : IncrementalScanTracker)
    : IncrementalScanTracker :=
  mkTracker (full_scan_interval t) (<[sync_id := now]> (last_full_scan t)) (pending_events t).

Definition untrack (sync_id : SyncId) (t : IncrementalScanTracker) : IncrementalScanTracker :=
  mkTracker (full_scan_interval t) (delete sync_id (last_full_scan t))
    (delete sync_id (pending_events t)).

Definition pending_count (sync_id : SyncId) (t : IncrementalScanTracker) : nat :=
  match pending_events t !! sync_id with Some v => length v | None => 0 end.

Definition has_scanned (sync_id : SyncId) (t : IncrementalScanTracker) : bool :=
  bool_decide (is_Some (last_full_scan t !! sync_id)).

(** * Validation: the first invalid path decides *)

Definition first_invalid (paths : list string) : option string :=
  List.find (λ p, negb (is_valid_relative_path p)) paths.

Lemma first_invalid_None paths :
  first_invalid paths = None <-> Forall (λ p, is_valid_relative_path p = true) paths.
Proof.
  unfold first_invalid. induction paths as [|p paths IH]; simpl; [by split|].
  destruct (is_valid_relative_path p) eqn:E; simpl.
  - rewrite IH, Forall_cons. naive_solver.
  - split; [done|]. rewrite Forall_cons. intros [? _]. congruence.
Qed.

Section Validated.
Context {A : Type} (path_of : A -> string) (cand : A -> SyncCandidate).

Definition validated (x : A) : result SyncCandidate DiffNormalizationError :=
  let? _ := validate_relative_path (path_of x) in Ok (cand x).

Lemma collect_validated l :
  collect_results validated l =
  match first_invalid (path_of <$> l) with
  | None => Ok (cand <$> l)
  | Some p => Err (InvalidPath p)
  end.
Proof.
  unfold first_invalid. induction l as [|x l IH]; simpl; [done|].
  rewrite IH. unfold validated, validate_relative_path.
  destruct (is_valid_relative_path (path_of x)); simpl; [|done].
  by destruct (List.find _ _).
Qed.
End Validated.

Definition diff_candidate (sync_id : SyncId) (entry : RemoteDiffEntry) : SyncCandidate :=
  mkSyncCandidate sync_id Remote (entry_path entry) (entry_entry_kind entry)
    (entry_change_kind entry) (entry_remote_file_id entry) (entry_remote_folder_id entry).

Definition scan_candidate (entry : LocalScanEntry) : SyncCandidate :=
  mkSyncCandidate (scan_sync_id entry) Local (scan_path entry) (scan_entry_kind entry)
    (if scan_deleted entry then Delete else Upsert) None (scan_remote_parent_folder_id entry).

Lemma normalize_entries_filtered_acc entries matches out :
  normalize_entries_filtered entries matches out =
  match first_invalid (scan_path <$> entries) with
  | None => Ok (out ++ (scan_candidate <$>
      filter (λ e, scan_deleted e = true \/ matches (scan_path e) = true) entries))
  | Some p => Err (InvalidPath p)
  end.
Proof.
  unfold first_invalid. revert out; induction entries as [|e entries IH]; intros out; simpl.
  { by rewrite app_nil_r. }
  change (scan_normalize_entry e) with (validated scan_path scan_candidate e).
  unfold validated, validate_relative_path.
  destruct (is_valid_relative_path (scan_path e)); simpl; [|done].
  rewrite filter_cons, !IH.
  destruct (scan_deleted e) eqn:Hd, (matches (scan_path e)) eqn:Hm; simpl;
    rewrite ?decide_True, ?decide_False by naive_solver;
    destruct (List.find _ _); try done; csimpl; by rewrite <- (assoc_L (++)).
Qed.

(** Normalisation is all or nothing: when every path is a valid relative path each entry
    becomes one candidate, in order, with its fields unchanged; otherwise the result is the
    error of the first invalid path and nothing is ingested.  The selective policy is applied
    after validation and never to a deletion. *)
Theorem normalize_all_or_nothing batch entries matches :
  (normalize_batch batch =
     match first_invalid (entry_path <$> batch_entries batch) with
     | None => Ok (diff_candidate (batch_sync_id batch) <$> batch_entries batch)
     | Some p => Err (InvalidPath p)
     end) /\
  (normalize_entries entries =
     match first_invalid (scan_path <$> entries) with
     | None => Ok (scan_candidate <$> entries)
     | Some p => Err (InvalidPath p)
     end) /\
  (normalize_entries_filtered entries matches [] =
     match first_invalid (scan_path <$> entries) with
     | None => Ok (scan_candidate <$>
         filter (λ e, scan_deleted e = true \/ matches (scan_path e) = true) entries)
     | Some p => Err (InvalidPath p)
     end).
Proof.
  split; [apply (collect_validated entry_path)|]. split; [apply (collect_validated scan_path)|].
  apply normalize_entries_filtered_acc.
Qed.

(** * Coalescing keeps the last event of every path *)

(** The distinct elements of a list, in the order of their first occurrence. *)
Definition first_occurrences (l : list string) : list string :=
  foldl (λ acc x, if decide (x ∈ acc) then acc else acc ++ [x]) [] l.

Lemma first_occurrences_snoc l x :
  first_occurrences (l ++ [x]) =
  if decide (x ∈ first_occurrences l) then first_occurrences l else first_occurrences l ++ [x].
Proof. unfold first_occurrences. by rewrite foldl_app. Qed.

Lemma elem_of_first_occurrences x l : x ∈ first_occurrences l <-> x ∈ l.
Proof.
  revert x; induction l as [|y l IH] using rev_ind; intros x; [done|].
  rewrite first_occurrences_snoc, elem_of_app, list_elem_of_singleton.
  case_decide as Hin; [|rewrite elem_of_app, list_elem_of_singleton]; rewrite ?IH; [|done].
  rewrite IH in Hin. naive_solver.
Qed.

Lemma NoDup_first_occurrences l : NoDup (first_occurrences l).
Proof.
  induction l as [|y l IH] using rev_ind; [constructor|]. rewrite first_occurrences_snoc.
  case_decide; [done|]. apply NoDup_app. split; [done|].
  split; [|apply NoDup_singleton]. intros z Hz ->%list_elem_of_singleton. done.
Qed.

Definition last_event (events : list FsEvent) (p : string) : option FsEvent :=
  last (filter (λ e, ev_path e = p) events).

Lemma last_event_snoc events e p :
  last_event (events ++ [e]) p = if decide (ev_path e = p) then Some e else last_event events p.
Proof.
  unfold last_event. rewrite filter_app, filter_cons, filter_nil. case_decide.
  - by rewrite last_snoc.
  - by rewrite app_nil_r.
Qed.

Definition coalesced_of (events : list FsEvent) : list FsEvent :=
  omap (last_event events) (first_occurrences (ev_path <$> events)).

Lemma last_event_path events p e : last_event events p = Some e -> ev_path e = p.
Proof. intros Hl. apply last_Some_elem_of, list_elem_of_filter in Hl. tauto. Qed.

Lemma last_event_is_Some events p : p ∈ ev_path <$> events -> is_Some (last_event events p).
Proof.
  intros (e & -> & He)%list_elem_of_fmap. apply last_is_Some. intros E.
  eapply (not_elem_of_nil e). rewrite <- E. by apply list_elem_of_filter.
Qed.

(** The loop's invariant: the coalesced list holds the last event of every path seen. *)
Definition coalesced_inv (events l : list FsEvent) : Prop :=
  Forall2 (λ p c, last_event events p = Some c) (first_occurrences (ev_path <$> events)) l.

Lemma coalesced_inv_paths events l :
  coalesced_inv events l -> ev_path <$> l = first_occurrences (ev_path <$> events).
Proof.
  unfold coalesced_inv. generalize (first_occurrences (ev_path <$> events)).
  induction 1 as [|p c ps l Hp _ IH]; [done|]. csimpl. by rewrite IH, (last_event_path _ _ _ Hp).
Qed.

Lemma coalesced_inv_eq events l :
  coalesced_inv events l -> l = coalesced_of events.
Proof.
  unfold coalesced_inv, coalesced_of.
  induction 1 as [|p c ps l Hp _ IH]; [done|]. csimpl. by rewrite Hp, <- IH.
Qed.

Lemma coalesced_inv_step events l e :
  coalesced_inv events l -> coalesced_inv (events ++ [e]) (coalesce_event l e).
Proof.
  intros Hinv. pose proof (coalesced_inv_paths _ _ Hinv) as Hpaths.
  pose proof (NoDup_first_occurrences (ev_path <$> events)) as Hnd.
  unfold coalesced_inv in *. rewrite fmap_app. simpl. rewrite first_occurrences_snoc.
  set (ps := first_occurrences (ev_path <$> events)) in *.
  unfold coalesce_event. destruct (list_find _ l) as [[i x]|] eqn:Hf.
  - apply list_find_Some in Hf as (Hi & Hx & _).
    assert (ps !! i = Some (ev_path e)) as Hp by (by rewrite <- Hpaths, list_lookup_fmap, Hi, <- Hx).
    rewrite decide_True by (by eapply list_elem_of_lookup_2).
    apply Forall2_same_length_lookup. split.
    { rewrite length_insert. by eapply Forall2_length. }
    intros j p c Hj Hc. rewrite last_event_snoc. destruct (decide (i = j)) as [<-|Hij].
    + rewrite list_lookup_insert_eq in Hc by (by eapply lookup_lt_Some). simplify_eq.
      rewrite decide_True by done. rewrite Hx. by destruct e.
    + rewrite list_lookup_insert_ne in Hc by done. rewrite decide_False.
      * exact (Forall2_lookup_lr _ _ _ _ _ _ Hinv Hj Hc).
      * intros E. apply Hij. rewrite <- E in Hj. exact (NoDup_lookup _ _ _ _ Hnd Hp Hj).
  - apply list_find_None in Hf. rewrite decide_False.
    + apply Forall2_app.
      * apply Forall2_same_length_lookup. split; [by eapply Forall2_length|].
        intros j p c Hj Hc. rewrite last_event_snoc, decide_False.
        { exact (Forall2_lookup_lr _ _ _ _ _ _ Hinv Hj Hc). }
        intros <-. apply list_elem_of_lookup_2 in Hj as Hp. rewrite <- Hpaths in Hp.
        apply list_elem_of_fmap in Hp as (d & ? & Hd).
        rewrite Forall_forall in Hf. by apply (Hf d Hd).
      * constructor; [|constructor]. by rewrite last_event_snoc, decide_True.
    + rewrite <- Hpaths. intros (d & ? & Hd)%list_elem_of_fmap.
      rewrite Forall_forall in Hf. by apply (Hf d Hd).
Qed.

Lemma coalesce_events_spec seen l events :
  coalesced_inv seen l ->
  coalesce_events events l =
  match first_invalid (ev_path <$> events) with
  | None => Ok (coalesced_of (seen ++ events))
  | Some p => Err (InvalidPath p)
  end.
Proof.
  unfold first_invalid. revert seen l; induction events as [|e events IH]; intros seen l Hinv; simpl.
  - rewrite app_nil_r. f_equal. by apply coalesced_inv_eq.
  - unfold validate_relative_path. destruct (is_valid_relative_path (ev_path e)); simpl; [|done].
    rewrite (IH (seen ++ [e])) by by apply coalesced_inv_step. by rewrite <- (assoc_L (++)).
Qed.

(** A batch of watcher events becomes one local candidate per distinct path, in the order the
    paths first appeared, carrying the kind and the sync root of the path's last event; one
    invalid path rejects the whole batch. *)
Theorem fs_events_coalesced events :
  normalize_events events =
    match first_invalid (ev_path <$> events) with
    | None => Ok (fs_candidate <$>
        omap (last_event events) (first_occurrences (ev_path <$> events)))
    | Some p => Err (InvalidPath p)
    end.
Proof.
  unfold normalize_events. rewrite (coalesce_events_spec [] []) by constructor.
  by destruct (first_invalid _).
Qed.

(** * The tracker loses no event *)

(** The operations on a tracker, with the clock reading each one makes. *)
Inductive scan_call : Type :=
| Push (event : FsEvent)
| Decide (now : N) (sync_id : SyncId)
| Recorded (now : N) (sync_id : SyncId)
| Untrack (sync_id : SyncId).

(** A tracker together with what its caller saw: the events that left the tracker, in order,
    each marked with whether it was delivered ([true]) or subsumed by a walk or a removal. *)
Record scan_history : Type := mkHistory {
  hist_tracker : IncrementalScanTracker;
  hist_pushed : list FsEvent;
  hist_out : list (bool * FsEvent);
}.

Definition pending_of (sync_id : SyncId) (t : IncrementalScanTracker) : list FsEvent :=
  default [] (pending_events t !! sync_id).

Definition scan_step (h : scan_history) (c : scan_call) : scan_history :=
  let t := hist_tracker h in
  match c with
  | Push e => mkHistory (push_event e t) (hist_pushed h ++ [e]) (hist_out h)
  | Decide now sid =>
      match decide_scan now sid t with
      | (FullScan, t') =>
          mkHistory t' (hist_pushed h) (hist_out h ++ (pair false <$> pending_of sid t))
      | (IncrementalOnly evs, t') =>
          mkHistory t' (hist_pushed h) (hist_out h ++ (pair true <$> evs))
      end
  | Recorded now sid => mkHistory (record_full_scan now sid t) (hist_pushed h) (hist_out h)
  | Untrack sid =>
      mkHistory (untrack sid t) (hist_pushed h) (hist_out h ++ (pair false <$> pending_of sid t))
  end.

Definition scan_run (interval : N) (calls : list scan_call) : scan_history :=
  foldl scan_step (mkHistory (IncrementalScanTracker_new interval) [] []) calls.

Definition of_sync_id (sid : SyncId) (l : list FsEvent) : list FsEvent :=
  filter (λ e, ev_sync_id e = sid) l.

Lemma of_sync_id_app sid l1 l2 : of_sync_id sid (l1 ++ l2) = of_sync_id sid l1 ++ of_sync_id sid l2.
Proof. apply filter_app. Qed.

(** What the tracker holds is what was pushed and has not left, per root and in order. *)
Record history_inv (h : scan_history) : Prop := {
  hist_owner sid e : e ∈ pending_of sid (hist_tracker h) -> ev_sync_id e = sid;
  hist_account sid :
    of_sync_id sid (snd <$> hist_out h) ++ pending_of sid (hist_tracker h)
      = of_sync_id sid (hist_pushed h);
}.

Lemma snd_pair_list (b : bool) (l : list FsEvent) : snd <$> (pair b <$> l) = l.
Proof. induction l as [|e l IH]; [done|]. csimpl. by rewrite IH. Qed.

Lemma of_sync_id_pending h sid sid' :
  history_inv h ->
  of_sync_id sid (pending_of sid' (hist_tracker h)) =
  if decide (sid = sid') then pending_of sid (hist_tracker h) else [].
Proof.
  intros Hi. unfold of_sync_id. case_decide as Hs.
  - subst. apply filter_all. intros e He. by eapply hist_owner.
  - apply filter_none. intros e He. rewrite (hist_owner _ Hi _ _ He). congruence.
Qed.

Lemma pending_of_delete sid sid' i l (m : gmap SyncId (list FsEvent)) :
  pending_of sid (mkTracker i l (delete sid' m)) =
  if decide (sid = sid') then [] else pending_of sid (mkTracker i l m).
Proof. unfold pending_of; simpl. rewrite lookup_delete. repeat case_decide; naive_solver. Qed.

Lemma pending_of_push sid e t :
  pending_of sid (push_event e t) = pending_of sid t ++ of_sync_id sid [e].
Proof.
  unfold pending_of, of_sync_id; simpl. rewrite lookup_insert, filter_cons, filter_nil.
  repeat case_decide; subst; try done. by rewrite app_nil_r.
Qed.

(** Emptying one root's slot and logging its events keeps the invariant. *)
Lemma history_drain h b sid i l :
  history_inv h ->
  history_inv (mkHistory (mkTracker i l (delete sid (pending_events (hist_tracker h))))
    (hist_pushed h) (hist_out h ++ (pair b <$> pending_of sid (hist_tracker h)))).
Proof.
  intros Hi. split; simpl.
  - intros r e. rewrite pending_of_delete. case_decide; [by intros ?%not_elem_of_nil|].
    apply (hist_owner _ Hi).
  - intros r. rewrite fmap_app, snd_pair_list, of_sync_id_app, (of_sync_id_pending h) by done.
    rewrite pending_of_delete, <- (hist_account _ Hi r).
    case_decide; rewrite ?app_nil_r; done.
Qed.

Lemma scan_step_inv h c : history_inv h -> history_inv (scan_step h c).
Proof.
  intros Hi. destruct c as [e|now sid|now sid|sid]; simpl.
  - split; simpl.
    + intros r e'. rewrite pending_of_push. intros [He|[? _]%list_elem_of_filter]%elem_of_app; [|done].
      by apply (hist_owner _ Hi).
    + intros r. rewrite of_sync_id_app, pending_of_push, <- (hist_account _ Hi r).
      by rewrite (assoc_L (++)).
  - unfold decide_scan. destruct (match last_full_scan _ !! _ with Some _ => _ | None => _ end).
    + by apply history_drain.
    + by apply history_drain.
  - split; [apply (hist_owner _ Hi)|apply (hist_account _ Hi)].
  - by apply history_drain.
Qed.

Lemma scan_run_inv interval calls : history_inv (scan_run interval calls).
Proof.
  unfold scan_run. induction calls as [|c calls IH] using rev_ind; simpl.
  - split; simpl; [|done]. intros sid e. unfold pending_of. simpl.
    rewrite lookup_empty. by intros ?%not_elem_of_nil.
  - rewrite foldl_app. by apply scan_step_inv.
Qed.

(** No watcher event is lost or reordered: in every history of pushes, decisions, recorded
    walks and removals, the events of a root that were delivered or subsumed by a walk or a
    removal, in the order they left, followed by the events still pending for it, are exactly
    the events pushed for that root, in order. *)
Theorem scan_tracker_loses_nothing interval calls sid :
  of_sync_id sid (snd <$> hist_out (scan_run interval calls))
    ++ pending_of sid (hist_tracker (scan_run interval calls))
  = of_sync_id sid (hist_pushed (scan_run interval calls)).
Proof. apply hist_account, scan_run_inv. Qed.

Lemma decide_scan_first now sid t :
  last_full_scan t !! sid = None -> (decide_scan now sid t).1 = FullScan.
Proof. intros Hl. unfold decide_scan. by rewrite Hl. Qed.

(** A recorded walk suppresses the next ones exactly until the interval has elapsed. *)
Lemma decide_scan_interval now at_ sid t :
  (decide_scan now sid (record_full_scan at_ sid t)).1 = FullScan <->
  (full_scan_interval t <= now - at_)%N.
Proof.
  unfold decide_scan, record_full_scan. simpl. rewrite lookup_insert_eq. case_bool_decide; simpl; naive_solver.
Qed.
