(* ===== verification/DiffEvents.v ===== *)
(** Typed dispatch of diff events: crates/pcloud-engine/src/diff_events.rs.

    [DiffEventDispatcher] is the trait the daemon implements; the theorems hold for every
    implementation, and [event_log] is the one that records its calls. *)
From S2P Require Import Prelude Paths Model Ingest.

Inductive DiffEventKind : Type :=
| CreateFolder | ModifyFolder | DeleteFolder | CreateFile | ModifyFile | DeleteFile
| ModifyUserInfo
| ShareRequestIn | ShareRequestOut | ShareAcceptedIn | ShareAcceptedOut
| ShareDeclinedIn | ShareDeclinedOut | ShareCancelledIn | ShareCancelledOut
| ShareRemovedIn | ShareRemovedOut | ShareModifiedIn | ShareModifiedOut
| BusinessShareEstablishedIn | BusinessShareEstablishedOut
| BusinessShareModifiedIn | BusinessShareModifiedOut
| BusinessShareRemovedIn | BusinessShareRemovedOut
| CryptoPassChange | ModifyAccountInfo
| Unknown (tag : N).

Inductive DiffEventFamily : Type :=
| FilesystemCrud | Share | Crypto | Account | UnknownFamily.

Definition from_event_id (tag : option N) : option DiffEventKind :=
  tag ← tag;
  Some (match tag with
        | 1 => CreateFolder
        | 2 => ModifyFolder
        | 3 => DeleteFolder
        | 4 => CreateFile
        | 5 => ModifyFile
        | 6 => DeleteFile
        | 7 => ModifyUserInfo
        | 8 => ShareRequestIn
        | 9 => ShareRequestOut
        | 10 => ShareAcceptedIn
        | 11 => ShareAcceptedOut
        | 12 => ShareDeclinedIn
        | 13 => ShareDeclinedOut
        | 14 => ShareCancelledIn
        | 15 => ShareCancelledOut
        | 16 => ShareRemovedIn
        | 17 => ShareRemovedOut
        | 18 => ShareModifiedIn
        | 19 => ShareModifiedOut
        | 20 => BusinessShareEstablishedIn
        | 21 => BusinessShareEstablishedOut
        | 22 => BusinessShareModifiedIn
        | 23 => BusinessShareModifiedOut
        | 24 => BusinessShareRemovedIn
        | 25 => BusinessShareRemovedOut
        | 26 => CryptoPassChange
        | 27 => ModifyAccountInfo
        | other => Unknown other
        end)%N.

Definition family (kind : DiffEventKind) : DiffEventFamily :=
  match kind with
  | CreateFolder | ModifyFolder | DeleteFolder | CreateFile | ModifyFile | DeleteFile =>
      FilesystemCrud
  | ShareRequestIn | ShareRequestOut | ShareAcceptedIn | ShareAcceptedOut | ShareDeclinedIn
  | ShareDeclinedOut | ShareCancelledIn | ShareCancelledOut | ShareRemovedIn | ShareRemovedOut
  | ShareModifiedIn | ShareModifiedOut | BusinessShareEstablishedIn
  | BusinessShareEstablishedOut | BusinessShareModifiedIn | BusinessShareModifiedOut
  | BusinessShareRemovedIn | BusinessShareRemovedOut => Share
  | CryptoPassChange => Crypto
  | ModifyUserInfo | ModifyAccountInfo => Account
  | Unknown _ => UnknownFamily
  end.

Record ClassifiedDiffEvent : Type := mkClassified {
  class_sync_id : SyncId;
  class_kind : DiffEventKind;
  class_entry : RemoteDiffEntry;
}.

Class DiffEventDispatcher (D : Type) := {
  handle_filesystem : ClassifiedDiffEvent -> D -> D;
  handle_share : ClassifiedDiffEvent -> D -> D;
  handle_crypto : ClassifiedDiffEvent -> D -> D;
  handle_account : ClassifiedDiffEvent -> D -> D;
  handle_unknown : ClassifiedDiffEvent -> D -> D;
}.

Section Dispatch.
Context {D : Type} `{DiffEventDispatcher D}.

(** The loop over the zip of entries and tags; [dispatched] counts the calls. *)
Fixpoint dispatch_loop (sync_id : SyncId) (pairs : list (RemoteDiffEntry * option N))
    (dispatched : nat) (dispatcher : D) : nat * D :=
  match pairs with
  | [] => (dispatched, dispatcher)
  | (entry, tag) :: pairs' =>
      match from_event_id tag with
      | None => dispatch_loop sync_id pairs' dispatched dispatcher
      | Some kind =>
          let ev := mkClassified sync_id kind entry in
          let dispatcher' :=
            match family kind with
            | FilesystemCrud => handle_filesystem ev dispatcher
            | Share => handle_share ev dispatcher
            | Crypto => handle_crypto ev dispatcher
            | Account => handle_account ev dispatcher
            | UnknownFamily => handle_unknown ev dispatcher
            end in
          dispatch_loop sync_id pairs' (dispatched + 1) dispatcher'
      end
  end.

Definition dispatch_diff_batch (sync_id : SyncId) (entries : list RemoteDiffEntry)
    (event_tags : list (option N)) (dispatcher : D) : nat * D :=
  dispatch_loop sync_id (zip entries event_tags) 0 dispatcher.
End Dispatch.

(** * The reference: every tagged entry once, in order *)

(** A dispatcher that records which handler was called with what. *)
#[export] Instance event_log : DiffEventDispatcher (list (DiffEventFamily * ClassifiedDiffEvent)) := {|
  handle_filesystem ev log := log ++ [(FilesystemCrud, ev)];
  handle_share ev log := log ++ [(Share, ev)];
  handle_crypto ev log := log ++ [(Crypto, ev)];
  handle_account ev log := log ++ [(Account, ev)];
  handle_unknown ev log := log ++ [(UnknownFamily, ev)];
|}.

Definition call_handler {D} `{DiffEventDispatcher D} (d : D)
    (call : DiffEventFamily * ClassifiedDiffEvent) : D :=
  match call.1 with
  | FilesystemCrud => handle_filesystem call.2 d
  | Share => handle_share call.2 d
  | Crypto => handle_crypto call.2 d
  | Account => handle_account call.2 d
  | UnknownFamily => handle_unknown call.2 d
  end.

(** The numeric tag a kind stands for. *)
Definition event_id (kind : DiffEventKind) : N :=
  match kind with
  | CreateFolder => 1 | ModifyFolder => 2 | DeleteFolder => 3
  | CreateFile => 4 | ModifyFile => 5 | DeleteFile => 6 | ModifyUserInfo => 7
  | ShareRequestIn => 8 | ShareRequestOut => 9 | ShareAcceptedIn => 10 | ShareAcceptedOut => 11
  | ShareDeclinedIn => 12 | ShareDeclinedOut => 13 | ShareCancelledIn => 14
  | ShareCancelledOut => 15 | ShareRemovedIn => 16 | ShareRemovedOut => 17
  | ShareModifiedIn => 18 | ShareModifiedOut => 19 | BusinessShareEstablishedIn => 20
  | BusinessShareEstablishedOut => 21 | BusinessShareModifiedIn => 22
  | BusinessShareModifiedOut => 23 | BusinessShareRemovedIn => 24
  | BusinessShareRemovedOut => 25 | CryptoPassChange => 26 | ModifyAccountInfo => 27
  | Unknown tag => tag
  end.

Definition is_unknown (kind : DiffEventKind) : bool :=
  match kind with Unknown _ => true | _ => false end.

Lemma from_event_id_spec tag :
  exists kind, from_event_id (Some tag) = Some kind /\ event_id kind = tag /\
    (is_unknown kind = true <-> tag = 0%N \/ (27 < tag)%N).
Proof.
  eexists; split; [reflexivity|].
  destruct tag as [|p]; [by split; [|split; [left|]]|].
  do 5 (try destruct p as [p|p|]); (split; [reflexivity|split; [intros H; try done; lia|intros [H|H]; try done; lia]]).
Qed.

Lemma dispatch_loop_spec {D} `{DiffEventDispatcher D} sync_id pairs n (d : D) :
  exists calls,
    dispatch_loop sync_id pairs n d = (n + length calls, foldl call_handler d calls) /\
    ((λ c, (class_entry c.2, Some (event_id (class_kind c.2)))) <$> calls)
      = filter (λ p, p.2 <> None) pairs /\
    Forall (λ c, c.1 = family (class_kind c.2) /\ class_sync_id c.2 = sync_id) calls.
Proof.
  revert n d; induction pairs as [|[entry tag] pairs IH]; intros n d; simpl.
  { exists []. rewrite Nat.add_0_r. repeat split. constructor. }
  destruct tag as [tag|].
  - destruct (from_event_id_spec tag) as (kind & -> & Hid & _).
    destruct (IH (n + 1) (call_handler d (family kind, mkClassified sync_id kind entry)))
      as (calls & E & Hmap & Hall).
    exists ((family kind, mkClassified sync_id kind entry) :: calls). split; [|split].
    + rewrite length_cons. replace (n + S (length calls)) with (n + 1 + length calls) by lia.
      unfold call_handler in E at 1. destruct (family kind); exact E.
    + rewrite filter_cons, decide_True by done. csimpl. by rewrite Hid, Hmap.
    + by constructor.
  - destruct (IH n d) as (calls & E & Hmap & Hall). exists calls. split; [exact E|split; [|done]].
    rewrite filter_cons, decide_False by naive_solver. done.
Qed.

(** Whatever the dispatcher does, a batch calls one handler for each entry that carries a tag
    and none for the others: in the order of the batch, with the batch's sync root, the
    unchanged entry, a kind that denotes exactly the entry's numeric tag (unrecognised tags
    included) and the handler of the kind's family; the result counts the calls. *)
Theorem dispatch_diff_batch_spec {D} `{DiffEventDispatcher D} sync_id entries tags (d : D) :
  exists calls,
    dispatch_diff_batch sync_id entries tags d = (length calls, foldl call_handler d calls) /\
    ((λ c, (class_entry c.2, Some (event_id (class_kind c.2)))) <$> calls)
      = filter (λ p, p.2 <> None) (zip entries tags) /\
    Forall (λ c, c.1 = family (class_kind c.2) /\ class_sync_id c.2 = sync_id) calls.
Proof. apply (dispatch_loop_spec sync_id _ 0). Qed.

(** An entry beyond the last tag is dropped: the lengths are compared in debug builds only. *)
Lemma dispatch_short_tags {D} `{DiffEventDispatcher D} sync_id entries (d : D) :
  dispatch_diff_batch sync_id entries [] d = (0, d).
Proof. by destruct entries. Qed.
