(* ===== verification/Selective.v ===== *)
(** The selective-sync policy: crates/pcloud-engine/src/selective.rs.

    Globs are compiled and matched by the globset crate, which is a parameter: [Glob::new],
    [GlobSetBuilder::build] and [GlobSet::is_match].  Strings are lists of bytes. *)
From S2P Require Import Prelude Paths.

Definition hash : ascii := "#".
Definition bang : ascii := "!".

(** [trim_start_matches('/')]. *)
Fixpoint trim_start_slashes (l : list ascii) : list ascii :=
  match l with
  | c :: l' => if decide (c = slash) then trim_start_slashes l' else l
  | [] => []
  end.

Section Globs.
Context {Glob GlobSet : Type}.
Context (glob_new : list ascii -> result Glob string).
Context (globset_build : list Glob -> result GlobSet string).
Context (is_match : GlobSet -> list ascii -> bool).

Record SelectivePolicy : Type := mkSelectivePolicy {
  includes : GlobSet;
  excludes : GlobSet;
  has_includes : bool;
  has_excludes : bool;
}.

Inductive SelectiveError : Type :=
| ParseError (line : N) (pattern : list ascii) (message : string).

(** The loop state: the two builders and the two flags. *)
Record ParseState : Type := mkParseState {
  ps_includes : list Glob;
  ps_excludes : list Glob;
  ps_has_includes : bool;
  ps_has_excludes : bool;
}.

Definition parse_line (idx : N) (raw_line : list ascii) (s : ParseState)
    : result ParseState SelectiveError :=
  let line := trim raw_line in
  if bool_decide (line = []) || starts_with [hash] line then Ok s
  else
    let '(is_exclude, pattern_text) :=
      match strip_prefix [bang] line with
      | Some rest => (true, trim rest)
      | None => (false, line)
      end in
    if bool_decide (pattern_text = []) then Ok s
    else
      match glob_new pattern_text with
      | Err message => Err (ParseError (idx + 1) pattern_text message)
      | Ok glob =>
          if is_exclude : bool
          then Ok (mkParseState (ps_includes s) (ps_excludes s ++ [glob]) (ps_has_includes s) true)
          else Ok (mkParseState (ps_includes s ++ [glob]) (ps_excludes s) true (ps_has_excludes s))
      end.

Fixpoint parse_lines (idx : N) (lines : list (list ascii)) (s : ParseState)
    : result ParseState SelectiveError :=
  match lines with
  | [] => Ok s
  | raw_line :: lines' => let? s' := parse_line idx raw_line s in parse_lines (idx + 1) lines' s'
  end.

Definition build_set (globs : list Glob) : result GlobSet SelectiveError :=
  match globset_build globs with
  | Ok set => Ok set
  | Err message => Err (ParseError 0 [] message)
  end.

Definition parse (contents : list ascii) : result SelectivePolicy SelectiveError :=
  let? s := parse_lines 0 (str_lines contents) (mkParseState [] [] false false) in
  let? includes := build_set (ps_includes s) in
  let? excludes := build_set (ps_excludes s) in
  Ok (mkSelectivePolicy includes excludes (ps_has_includes s) (ps_has_excludes s)).

Definition matches (policy : SelectivePolicy) (relative_path : list ascii) : bool :=
  let normalized := trim_start_slashes relative_path in
  if has_excludes policy && is_match (excludes policy) normalized then false
  else if negb (has_includes policy) then true
  else is_match (includes policy) normalized.

(** * The documented decision tree *)

(** What one line of the file means: nothing, an include pattern or an exclude pattern. *)
Inductive rule : Type := NoRule | Include (pattern : list ascii) | Exclude (pattern : list ascii).

Definition line_rule (raw_line : list ascii) : rule :=
  match trim raw_line with
  | [] => NoRule
  | c :: rest =>
      if decide (c = hash) then NoRule
      else if decide (c = bang) then
        match trim rest with [] => NoRule | pattern => Exclude pattern end
      else Include (c :: rest)
  end.

Definition include_patterns (lines : list (list ascii)) : list (list ascii) :=
  omap (λ l, match line_rule l with Include p => Some p | _ => None end) lines.
Definition exclude_patterns (lines : list (list ascii)) : list (list ascii) :=
  omap (λ l, match line_rule l with Exclude p => Some p | _ => None end) lines.

(** [glob_match p path] is what the pattern means; the documented behaviour of globset is
    that a compiled set matches when one of its patterns does. *)
Context (glob_match : Glob -> list ascii -> bool).
Context (is_match_spec : forall globs set path,
  globset_build globs = Ok set -> is_match set path = existsb (λ g, glob_match g path) globs).

Definition pattern_matches (path pattern : list ascii) : bool :=
  match glob_new pattern with Ok g => glob_match g path | Err _ => false end.

Definition sync_decision (lines : list (list ascii)) (path : list ascii) : bool :=
  if existsb (pattern_matches path) (exclude_patterns lines) then false
  else if decide (include_patterns lines = []) then true
  else existsb (pattern_matches path) (include_patterns lines).

Lemma parse_line_rule idx raw s :
  parse_line idx raw s =
  match line_rule raw with
  | NoRule => Ok s
  | Include p =>
      match glob_new p with
      | Err m => Err (ParseError (idx + 1) p m)
      | Ok g => Ok (mkParseState (ps_includes s ++ [g]) (ps_excludes s) true (ps_has_excludes s))
      end
  | Exclude p =>
      match glob_new p with
      | Err m => Err (ParseError (idx + 1) p m)
      | Ok g => Ok (mkParseState (ps_includes s) (ps_excludes s ++ [g]) (ps_has_includes s) true)
      end
  end.
Proof.
  unfold parse_line, line_rule. destruct (trim raw) as [|c rest]; [done|].
  unfold starts_with, strip_prefix. simpl orb.
  destruct (decide (hash = c)) as [<-|Hh]; [by rewrite decide_True|].
  rewrite (decide_False (P:=c = hash)) by congruence.
  destruct (decide (bang = c)) as [<-|Hb].
  - rewrite decide_True by done. by destruct (trim rest).
  - rewrite decide_False by congruence. done.
Qed.

Definition compiled (p : list ascii) (g : Glob) : Prop := glob_new p = Ok g.

Definition nonempty {A} (l : list A) : bool := match l with [] => false | _ => true end.

Lemma parse_lines_ok idx lines s s' :
  parse_lines idx lines s = Ok s' ->
  exists gi ge,
    s' = mkParseState (ps_includes s ++ gi) (ps_excludes s ++ ge)
           (ps_has_includes s || nonempty (include_patterns lines))
           (ps_has_excludes s || nonempty (exclude_patterns lines)) /\
    Forall2 compiled (include_patterns lines) gi /\ Forall2 compiled (exclude_patterns lines) ge.
Proof.
  revert idx s; induction lines as [|raw lines IH]; intros idx s; simpl.
  { intros [= <-]. exists [], []. rewrite !app_nil_r, !orb_false_r. by destruct s. }
  rewrite parse_line_rule. unfold include_patterns, exclude_patterns. csimpl.
  destruct (line_rule raw) as [|p|p]; simpl.
  - intros Hp. by apply IH in Hp.
  - destruct (glob_new p) as [g|m] eqn:Hg; simpl; [|done]. intros Hp.
    apply IH in Hp as (gi & ge & -> & Hi & He). simpl. exists (g :: gi), ge.
    rewrite <- (assoc_L (++)), orb_true_r. split; [done|]. split; [by constructor|done].
  - destruct (glob_new p) as [g|m] eqn:Hg; simpl; [|done]. intros Hp.
    apply IH in Hp as (gi & ge & -> & Hi & He). simpl. exists gi, (g :: ge).
    rewrite <- (assoc_L (++)), orb_true_r. split; [done|]. split; [done|by constructor].
Qed.

Lemma compiled_matches ps gs path :
  Forall2 compiled ps gs -> existsb (λ g, glob_match g path) gs = existsb (pattern_matches path) ps.
Proof.
  induction 1 as [|p g ps gs Hp _ IH]; [done|]. simpl. rewrite IH. f_equal.
  unfold pattern_matches. by rewrite Hp.
Qed.

(** A parse error names the first line whose pattern does not compile, counted from one. *)
Lemma parse_lines_err idx lines s n p m :
  parse_lines idx lines s = Err (ParseError n p m) ->
  exists l1 raw l2, lines = l1 ++ raw :: l2 /\ n = (idx + N.of_nat (length l1) + 1)%N /\
    (line_rule raw = Include p \/ line_rule raw = Exclude p) /\ glob_new p = Err m /\
    forall q, q ∈ include_patterns l1 ++ exclude_patterns l1 -> is_ok (glob_new q) = true.
Proof.
  revert idx s; induction lines as [|raw lines IH]; intros idx s; simpl; [done|].
  rewrite parse_line_rule.
  destruct (line_rule raw) as [|q|q] eqn:Hr; simpl;
    [|destruct (glob_new q) as [g|m'] eqn:Hg; simpl..].
  3,5: intros [= <- -> ->]; exists [], raw, lines; split; [done|]; split; [simpl; lia|];
    split; [by auto|]; split; [done|]; by intros ? ?%not_elem_of_nil.
  all: intros Hp; apply IH in Hp as (l1 & raw' & l2 & -> & -> & Hrule & Herr & Hall);
    exists (raw :: l1), raw', l2; split; [done|]; split; [simpl; lia|]; split; [done|];
    split; [done|]; intros r; unfold include_patterns, exclude_patterns; csimpl; rewrite Hr.
  - apply Hall.
  - intros [->|Hin]%elem_of_cons; [by rewrite Hg|by apply Hall].
  - intros [Hin|[->|Hin]%elem_of_cons]%elem_of_app; [|by rewrite Hg|];
      apply Hall, elem_of_app; auto.
Qed.

(** A parsed policy makes the documented decision: a path (leading slashes removed) that
    matches an exclude pattern of the file is not synced; otherwise it is synced when the file
    has no include pattern or when one of them matches. *)
Theorem selective_decision contents policy path (Hparse : parse contents = Ok policy) :
  matches policy path = sync_decision (str_lines contents) (trim_start_slashes path).
Proof.
  unfold parse in Hparse. apply result_bind_ok in Hparse as (s & Hs & Hparse).
  apply result_bind_ok in Hparse as (inc & Hinc & Hparse).
  apply result_bind_ok in Hparse as (exc & Hexc & [= <-]).
  apply parse_lines_ok in Hs as (gi & ge & -> & Hi & He). simpl in *.
  unfold build_set in *. destruct (globset_build gi) eqn:Ei, (globset_build ge) eqn:Ee; try done.
  simplify_eq. unfold matches, sync_decision. simpl.
  rewrite (is_match_spec _ _ _ Ei), (is_match_spec _ _ _ Ee).
  rewrite !(compiled_matches _ _ _ Hi), (compiled_matches _ _ _ He).
  destruct (exclude_patterns (str_lines contents)); [|simpl nonempty]; simpl andb;
    destruct (include_patterns (str_lines contents)); done.
Qed.
End Globs.

(** Exact-match globs, with one pattern that does not compile. *)
Definition literal_glob (p : list ascii) : result (list ascii) string :=
  if bool_decide (p = chars "[") then Err "unclosed character class" else Ok p.
Definition literal_match (g path : list ascii) : bool := bool_decide (g = path).
Definition literal_is_match (set : list (list ascii)) (path : list ascii) : bool :=
  existsb (λ g, literal_match g path) set.

Definition sample_policy_file : list ascii :=
  chars "# sync" ++ [newline] ++ chars " docs" ++ [newline] ++ chars "!secret" ++ [carriage_return; newline].

Lemma selective_decision_witness :
  literal_is_match [chars "docs"] (chars "docs") = true /\
  matches literal_is_match (mkSelectivePolicy [chars "docs"] [chars "secret"] true true) (chars "/secret")
  = sync_decision literal_glob literal_match (str_lines sample_policy_file) (trim_start_slashes (chars "/secret")).
Proof.
  split; [vm_compute; reflexivity|].
  apply (selective_decision literal_glob Ok literal_is_match literal_match).
  - intros globs set path [= ->]. reflexivity.
  - vm_compute. reflexivity.
Defined.
