(* ===== verification/Engine.v ===== *)
(** The engine aggregate: EngineShell of crates/pcloud-engine/src/lib.rs, and the part of the
    sync loop that restores it after a restart (crates/pcloud-daemon/src/sync_loop_runtime.rs).

    Every method of the shell that changes state is a function on [EngineShell]; [EngineCall]
    and [engine_call] put them together as the transition system the daemon drives. *)
From S2P Require Import Prelude Paths Model Scheduler Planner ConflictResolver Transfers Ingest.

(** * State *)

Inductive AuthState : Type :=
| LoggedOut | AwaitingCredentials | AuthenticatingWithPassword | AuthenticatingWithDigest
| TwoFactorRequired | AuthenticatingWithToken | Authenticated | AuthFailed | AuthDegraded.

Record EngineShell : Type := mkEngine {
  refresh_margin_secs : N;
  diff_poller : DiffPoller;
  full_scan_interval_secs : N;
  planner : Planner;
  scheduler : Scheduler;
  recovery : RecoveryManager;
  conflict_resolver : ConflictResolver;
  downloads : DownloadCoordinator;
  uploads : UploadCoordinator;
  auth_state : AuthState;
  sync_state : SyncState;
  paused_sync_roots : gset SyncId;
  localscan_wakes : N;
  planner_overflow : list SyncCandidate;
  pending_watcher_evictions : list SyncId;
  last_dispatched_batch : list PlannedOperation;
}.

Definition EngineShell_new : EngineShell := {|
  refresh_margin_secs := 300;
  diff_poller := DiffPoller_default;
  full_scan_interval_secs := 300;
  planner := Planner_default;
  scheduler := Scheduler_default;
  recovery := RecoveryManager_default;
  conflict_resolver := ConflictResolver_default;
  downloads := DownloadCoordinator_default;
  uploads := UploadCoordinator_default;
  auth_state := LoggedOut;
  sync_state := Initializing;
  paused_sync_roots := ∅;
  localscan_wakes := 0;
  planner_overflow := [];
  pending_watcher_evictions := [];
  last_dispatched_batch := [];
|}.

(** Field updates. *)
Definition with_scheduler (s : Scheduler) (e : EngineShell) : EngineShell :=
  mkEngine (refresh_margin_secs e) (diff_poller e) (full_scan_interval_secs e) (planner e) s
    (recovery e) (conflict_resolver e) (downloads e) (uploads e) (auth_state e) (sync_state e)
    (paused_sync_roots e) (localscan_wakes e) (planner_overflow e)
    (pending_watcher_evictions e) (last_dispatched_batch e).
Definition with_transfers (u : UploadCoordinator) (d : DownloadCoordinator) (e : EngineShell)
    : EngineShell :=
  mkEngine (refresh_margin_secs e) (diff_poller e) (full_scan_interval_secs e) (planner e)
    (scheduler e) (recovery e) (conflict_resolver e) d u (auth_state e) (sync_state e)
    (paused_sync_roots e) (localscan_wakes e) (planner_overflow e)
    (pending_watcher_evictions e) (last_dispatched_batch e).
Definition with_paused (p : gset SyncId) (e : EngineShell) : EngineShell :=
  mkEngine (refresh_margin_secs e) (diff_poller e) (full_scan_interval_secs e) (planner e)
    (scheduler e) (recovery e) (conflict_resolver e) (downloads e) (uploads e) (auth_state e)
    (sync_state e) p (localscan_wakes e) (planner_overflow e)
    (pending_watcher_evictions e) (last_dispatched_batch e).
Definition with_wakes (w : N) (e : EngineShell) : EngineShell :=
  mkEngine (refresh_margin_secs e) (diff_poller e) (full_scan_interval_secs e) (planner e)
    (scheduler e) (recovery e) (conflict_resolver e) (downloads e) (uploads e) (auth_state e)
    (sync_state e) (paused_sync_roots e) w (planner_overflow e)
    (pending_watcher_evictions e) (last_dispatched_batch e).
Definition with_overflow (o : list SyncCandidate) (e : EngineShell) : EngineShell :=
  mkEngine (refresh_margin_secs e) (diff_poller e) (full_scan_interval_secs e) (planner e)
    (scheduler e) (recovery e) (conflict_resolver e) (downloads e) (uploads e) (auth_state e)
    (sync_state e) (paused_sync_roots e) (localscan_wakes e) o
    (pending_watcher_evictions e) (last_dispatched_batch e).
Definition with_evictions (l : list SyncId) (e : EngineShell) : EngineShell :=
  mkEngine (refresh_margin_secs e) (diff_poller e) (full_scan_interval_secs e) (planner e)
    (scheduler e) (recovery e) (conflict_resolver e) (downloads e) (uploads e) (auth_state e)
    (sync_state e) (paused_sync_roots e) (localscan_wakes e) (planner_overflow e)
    l (last_dispatched_batch e).
Definition with_batch (b : list PlannedOperation) (e : EngineShell) : EngineShell :=
  mkEngine (refresh_margin_secs e) (diff_poller e) (full_scan_interval_secs e) (planner e)
    (scheduler e) (recovery e) (conflict_resolver e) (downloads e) (uploads e) (auth_state e)
    (sync_state e) (paused_sync_roots e) (localscan_wakes e) (planner_overflow e)
    (pending_watcher_evictions e) b.

(** * Operations *)

Definition wake_localscan (e : EngineShell) : N * EngineShell :=
  let w := u64_saturating_add (localscan_wakes e) 1 in (w, with_wakes w e).

Definition single_sync_id (candidates : list SyncCandidate) : option SyncId :=
  match candidates with
  | [] => None
  | c :: _ =>
      let first := cand_sync_id c in
      if forallb (λ c, bool_decide (cand_sync_id c = first)) candidates then Some first else None
  end.

Definition PLANNER_OVERFLOW_MAX : N := 100000.

(** [Vec::truncate] after a warning. *)
Definition cap_overflow (overflow : list SyncCandidate) : list SyncCandidate :=
  if decide (PLANNER_OVERFLOW_MAX < len overflow)%N
  then take (N.to_nat PLANNER_OVERFLOW_MAX) overflow else overflow.

Definition merge_with_overflow (candidates : list SyncCandidate) (e : EngineShell)
    : list SyncCandidate :=
  match planner_overflow e with
  | [] => candidates
  | overflow => overflow ++ candidates
  end.

(** The tail shared by the two ingest methods: scoped or whole-queue replacement. *)
Definition replace_planned (combined : list SyncCandidate) (operations : list PlannedOperation)
    (s : Scheduler) : Scheduler :=
  match single_sync_id combined with
  | Some sync_id => replace_queue_for_sync_id sync_id operations s
  | None => replace_queue operations s
  end.

Definition ingest_candidates (candidates : list SyncCandidate) (e : EngineShell)
    : list PlannedOperation * EngineShell :=
  let combined := merge_with_overflow candidates e in
  let '(operations, overflow) := plan_with_overflow (planner e) combined in
  let e1 := with_overflow (cap_overflow overflow) e in
  let e2 := with_scheduler (replace_planned combined operations (scheduler e1)) e1 in
  (queued_operations (scheduler e2), e2).

Definition ingest_candidates_filtered (candidates : list SyncCandidate) (policy : DeletePolicy)
    (e : EngineShell) : list PlannedOperation * EngineShell :=
  let combined := merge_with_overflow candidates e in
  let '(operations, overflow) := plan_filtered_with_overflow (planner e) combined policy in
  let e1 := with_overflow (cap_overflow overflow) e in
  let e2 := with_scheduler (replace_planned combined operations (scheduler e1)) e1 in
  (queued_operations (scheduler e2), e2).

Definition drain_planner_overflow (e : EngineShell) : list SyncCandidate * EngineShell :=
  (planner_overflow e, with_overflow [] e).

Definition restore_planner_overflow (candidates : list SyncCandidate) (e : EngineShell)
    : EngineShell := with_overflow candidates e.

Definition ingest_remote_diff (batch : RemoteDiffBatch) (e : EngineShell)
    : result (list PlannedOperation * EngineShell) DiffNormalizationError :=
  let? candidates := normalize_batch batch in Ok (ingest_candidates candidates e).

Definition ingest_remote_diff_filtered (batch : RemoteDiffBatch) (policy : DeletePolicy)
    (e : EngineShell) : result (list PlannedOperation * EngineShell) DiffNormalizationError :=
  let? candidates := normalize_batch batch in Ok (ingest_candidates_filtered candidates policy e).

Definition ingest_local_scan (entries : list LocalScanEntry) (e : EngineShell)
    : result (list PlannedOperation * EngineShell) DiffNormalizationError :=
  let? candidates := normalize_entries entries in Ok (ingest_candidates candidates e).

Definition ingest_local_scan_with_delete_policy (entries : list LocalScanEntry)
    (policy : DeletePolicy) (e : EngineShell)
    : result (list PlannedOperation * EngineShell) DiffNormalizationError :=
  let? candidates := normalize_entries entries in Ok (ingest_candidates_filtered candidates policy e).

Definition ingest_local_scan_filtered (entries : list LocalScanEntry) (matches : string -> bool)
    (e : EngineShell) : result (list PlannedOperation * EngineShell) DiffNormalizationError :=
  let? candidates := normalize_entries_filtered entries matches [] in
  Ok (ingest_candidates candidates e).

Definition ingest_fs_events (events : list FsEvent) (e : EngineShell)
    : result (list PlannedOperation * EngineShell) DiffNormalizationError :=
  let? candidates := normalize_events events in Ok (ingest_candidates candidates e).

Definition unresolved_conflict_count (e : EngineShell) : nat :=
  length (filter (λ op, is_conflict op = true) (queued_operations (scheduler e))).

(** The derived [Debug] name of a [ConflictKind]. *)
Definition ConflictKind_debug (kind : ConflictKind) : string :=
  match kind with
  | LocalModifyVsRemoteModify => "LocalModifyVsRemoteModify"
  | LocalDeleteVsRemoteModify => "LocalDeleteVsRemoteModify"
  | RemoteDeleteVsLocalModify => "RemoteDeleteVsLocalModify"
  | TypeMismatch => "TypeMismatch"
  | RenameCollision => "RenameCollision"
  | ParentPathConflict => "ParentPathConflict"
  | ResumeChecksumMismatch => "ResumeChecksumMismatch"
  | CryptoAvailabilityConflict => "CryptoAvailabilityConflict"
  end.

Definition list_unresolved_conflicts (e : EngineShell) : list (string * string * N) :=
  omap (λ op, match op with
              | Conflict sync_id path kind => Some (path, ConflictKind_debug kind, sync_id)
              | _ => None
              end) (queued_operations (scheduler e)).

Definition resolve_conflicts (e : EngineShell) : list ConflictResolution :=
  omap (λ op, resolve_with (conflict_resolver e) op None None) (queued_operations (scheduler e)).

Definition override_policy (policy : string) : ConflictPolicy.t :=
  if decide (policy = "prefer_local") then ConflictPolicy.PreferLocal
  else if decide (policy = "prefer_remote") then ConflictPolicy.PreferRemote
  else if decide (policy = "newest_wins") then ConflictPolicy.NewestWins
  else if decide (policy = "rename_both") then ConflictPolicy.RenameBoth
  else ConflictPolicy.ManualReview.

Definition conflict_at (path : string) (op : PlannedOperation) : Prop :=
  match op with Conflict _ p _ => p = path | _ => False end.

#[export] Instance conflict_at_dec path op : Decision (conflict_at path op).
Proof. destruct op; simpl; apply _. Defined.

Definition resolve_conflict_by_path (path policy : string) (e : EngineShell)
    : result (ConflictResolution * EngineShell) string :=
  match list_find (conflict_at path) (queued_operations (scheduler e)) with
  | None => Err ("no queued conflict at path: " +:+ path)
  | Some (idx, op) =>
      match resolve_with {| default_policy := override_policy policy |} op None None with
      | None => Err "conflict resolver returned None (internal error)"
      | Some resolution =>
          let q := queued_operations (scheduler e) in
          Ok (resolution,
              with_scheduler (with_queued (scheduler e) (take idx q ++ drop (S idx) q)) e)
      end
  end.

Definition advance_transfer_cycle (e : EngineShell)
    : option (list PlannedOperation * EngineShell) :=
  '(batch, s) ← next_batch (scheduler e);
  let e1 := with_scheduler s e in
  let e2 := with_transfers (up_accept_batch batch (uploads e1)) (down_accept_batch batch (downloads e1)) e1 in
  Some (batch, with_batch batch e2).

(** [||]: the downloads are only consulted when no upload matches. *)
Definition mark_transfer_completed (path : string) (e : EngineShell) : bool * EngineShell :=
  match up_mark_completed path (uploads e) with
  | (true, u) => (true, with_transfers u (downloads e) e)
  | (false, u) =>
      let '(found, d) := down_mark_completed path (downloads e) in (found, with_transfers u d e)
  end.

Definition mark_transfer_failed (path error : string) (e : EngineShell) : bool * EngineShell :=
  match up_mark_failed path error (uploads e) with
  | (true, u) => (true, with_transfers u (downloads e) e)
  | (false, u) =>
      let '(found, d) := down_mark_failed path error (downloads e) in (found, with_transfers u d e)
  end.

(** The three evictions shared by [evict_sync_root] and [pause_sync_root]. *)
Definition evict_work (sync_id : SyncId) (e : EngineShell) : EngineShell :=
  with_transfers (up_evict_sync_id sync_id (uploads e)) (down_evict_sync_id sync_id (downloads e))
    (with_scheduler (evict_sync_id sync_id (scheduler e)) e).

Definition evict_sync_root (sync_id : SyncId) (e : EngineShell) : EngineShell :=
  let e1 := evict_work sync_id e in
  let e2 := with_paused (paused_sync_roots e1 ∖ {[sync_id]}) e1 in
  if decide (sync_id ∈ pending_watcher_evictions e2) then e2
  else with_evictions (pending_watcher_evictions e2 ++ [sync_id]) e2.

Definition drain_watcher_evictions (e : EngineShell) : list SyncId * EngineShell :=
  (pending_watcher_evictions e, with_evictions [] e).

(** [(sync_id, priority, path)]. *)
Definition durable_order : PlannedOperation -> PlannedOperation -> comparison :=
  cmp_lex (cmp_by op_sync_id N.compare)
    (cmp_lex (cmp_by op_priority N.compare) (cmp_by op_path String.compare)).

Definition drain_scheduler_queue (e : EngineShell) : list PlannedOperation * EngineShell :=
  (sort_by durable_order (queued_operations (scheduler e)),
   with_scheduler (with_queued (scheduler e) []) e).

Definition snapshot_scheduler_queue (e : EngineShell) : list PlannedOperation :=
  sort_by durable_order (queued_operations (scheduler e)).

Definition restore_scheduler_queue (operations : list PlannedOperation) (e : EngineShell)
    : EngineShell :=
  with_scheduler (with_dispatched (replace_queue operations (scheduler e)) []) e.

Definition same_key (a b : PlannedOperation) : bool :=
  bool_decide (op_sync_id a = op_sync_id b) && bool_decide (op_path a = op_path b).

Definition snapshot_scheduler_durable (e : EngineShell) : list PlannedOperation :=
  dedup_by same_key
    (sort_by durable_order
       (queued_operations (scheduler e) ++ dispatched_operations (scheduler e))).

Definition ack_dispatched_path (sync_id : SyncId) (path : string) (e : EngineShell) : EngineShell :=
  with_scheduler (ack_batch [(sync_id, path)] (scheduler e)) e.

Definition pause_sync_root (sync_id : SyncId) (e : EngineShell) : bool * EngineShell :=
  if decide (sync_id ∈ paused_sync_roots e) then (false, e)
  else (true, evict_work sync_id (with_paused ({[sync_id]} ∪ paused_sync_roots e) e)).

Definition resume_sync_root (sync_id : SyncId) (e : EngineShell) : bool * EngineShell :=
  (bool_decide (sync_id ∈ paused_sync_roots e),
   with_paused (paused_sync_roots e ∖ {[sync_id]}) e).

Definition is_sync_root_paused (sync_id : SyncId) (e : EngineShell) : bool :=
  bool_decide (sync_id ∈ paused_sync_roots e).

(** A [BTreeSet] iterates in increasing order. *)
Definition paused_sync_root_ids (e : EngineShell) : list SyncId :=
  sort_by N.compare (elements (paused_sync_roots e)).

Definition overflow_sync_root_ids (e : EngineShell) : list SyncId :=
  dedup_by (λ a b, bool_decide (a = b)) (sort_by N.compare (cand_sync_id <$> planner_overflow e)).

Definition scheduler_sync_root_ids (e : EngineShell) : list SyncId :=
  dedup_by (λ a b, bool_decide (a = b))
    (sort_by N.compare (op_sync_id <$> queued_operations (scheduler e))).

(** The start of the sync loop: pause flags, overflow and queue come back from the store, the
    last two only when they are not empty. *)
Definition engine_restart (paused : list SyncId) (overflow : list SyncCandidate)
    (queue : list PlannedOperation) : EngineShell :=
  let e := foldl (λ e sid, (pause_sync_root sid e).2) EngineShell_new paused in
  let e := match overflow with [] => e | _ => restore_planner_overflow overflow e end in
  match queue with [] => e | _ => restore_scheduler_queue queue e end.

(** * The transition system *)

(** What the daemon does to the shell.  [CallRestart] is a crash right after the state was
    persisted, followed by a restart with the persisted pause flags. *)
Inductive EngineCall : Type :=
| CallIngest (candidates : list SyncCandidate)
| CallIngestFiltered (candidates : list SyncCandidate) (policy : DeletePolicy)
| CallAdvance
| CallCompleted (path : string)
| CallFailed (path error : string)
| CallAck (sync_id : SyncId) (path : string)
| CallEvict (sync_id : SyncId)
| CallPause (sync_id : SyncId)
| CallResume (sync_id : SyncId)
| CallResolve (path policy : string)
| CallDrainEvictions
| CallDrainOverflow
| CallDrainQueue
| CallWake
| CallRestart (paused : list SyncId).

(** [None] is a panic. *)
Definition engine_call (e : EngineShell) (c : EngineCall) : option EngineShell :=
  match c with
  | CallIngest candidates => Some (ingest_candidates candidates e).2
  | CallIngestFiltered candidates policy => Some (ingest_candidates_filtered candidates policy e).2
  | CallAdvance => snd <$> advance_transfer_cycle e
  | CallCompleted path => Some (mark_transfer_completed path e).2
  | CallFailed path error => Some (mark_transfer_failed path error e).2
  | CallAck sync_id path => Some (ack_dispatched_path sync_id path e)
  | CallEvict sync_id => Some (evict_sync_root sync_id e)
  | CallPause sync_id => Some (pause_sync_root sync_id e).2
  | CallResume sync_id => Some (resume_sync_root sync_id e).2
  | CallResolve path policy =>
      Some (match resolve_conflict_by_path path policy e with Ok (_, e') => e' | Err _ => e end)
  | CallDrainEvictions => Some (drain_watcher_evictions e).2
  | CallDrainOverflow => Some (drain_planner_overflow e).2
  | CallDrainQueue => Some (drain_scheduler_queue e).2
  | CallWake => Some (wake_localscan e).2
  | CallRestart paused =>
      Some (engine_restart paused (planner_overflow e) (snapshot_scheduler_durable e))
  end.

Fixpoint engine_run (calls : list EngineCall) (e : EngineShell) : option EngineShell :=
  match calls with
  | [] => Some e
  | c :: calls' => e' ← engine_call e c; engine_run calls' e'
  end.

(** * The durable snapshot *)

#[export] Instance durable_order_laws : CmpLaws durable_order.
Proof. unfold durable_order. apply _. Qed.

Lemma same_key_true a b : same_key a b = true <-> op_key a = op_key b.
Proof.
  unfold same_key, op_key. rewrite andb_true_iff, !bool_decide_eq_true. split; [intros [-> ->]; done|intros E; by inversion E].
Qed.

Lemma durable_order_eq a b : durable_order a b = Eq -> op_key a = op_key b.
Proof.
  unfold durable_order, cmp_lex, cmp_then, cmp_by, op_key.
  destruct (N.compare_spec (op_sync_id a) (op_sync_id b)) as [->|?|?]; [|done..].
  destruct (N.compare _ _); [|done..]. by intros ->%String.compare_eq_iff.
Qed.

Lemma dedup_from_keys kept l k :
  k ∈ op_key <$> (kept :: dedup_from same_key kept l) <-> k ∈ op_key <$> (kept :: l).
Proof.
  revert kept; induction l as [|x l IH]; intros kept; [done|]. simpl dedup_from.
  destruct (same_key x kept) eqn:Hs.
  - apply same_key_true in Hs. rewrite IH. csimpl. rewrite !elem_of_cons, Hs. tauto.
  - specialize (IH x). csimpl. csimpl in IH. rewrite elem_of_cons, IH, !elem_of_cons. tauto.
Qed.

Lemma dedup_by_keys l k : k ∈ op_key <$> dedup_by same_key l <-> k ∈ op_key <$> l.
Proof. destruct l; [done|]. apply dedup_from_keys. Qed.

(** The keys of the work that is queued or dispatched and not yet acknowledged. *)
Definition pending_keys (e : EngineShell) : list (SyncId * string) :=
  op_key <$> queued_operations (scheduler e) ++ dispatched_operations (scheduler e).

Lemma snapshot_keys e k : k ∈ op_key <$> snapshot_scheduler_durable e <-> k ∈ pending_keys e.
Proof.
  unfold snapshot_scheduler_durable, pending_keys. rewrite dedup_by_keys.
  by rewrite (sort_by_perm durable_order).
Qed.

Lemma snapshot_strict e : StronglySorted (cmp_lt durable_order) (snapshot_scheduler_durable e).
Proof.
  apply dedup_by_strict; [apply _| |apply (sort_by_sorted durable_order)].
  intros x y E. apply same_key_true. symmetry. by apply durable_order_eq.
Qed.

Lemma snapshot_elem e op :
  op ∈ snapshot_scheduler_durable e ->
  op ∈ queued_operations (scheduler e) ++ dispatched_operations (scheduler e).
Proof.
  intros Hop. apply (elem_of_sort_by durable_order). eapply elem_of_sublist; [exact Hop|].
  apply dedup_by_sublist.
Qed.

(** The durable snapshot is complete and deterministic: it holds exactly the keys that are
    queued or dispatched without an acknowledgement, only operations of the two lists, and it
    is strictly increasing in [(sync_id, priority, path)], so nothing is stored twice. *)
Theorem durable_snapshot_complete e :
  (forall k, k ∈ op_key <$> snapshot_scheduler_durable e <-> k ∈ pending_keys e) /\
  (forall op, op ∈ snapshot_scheduler_durable e ->
     op ∈ queued_operations (scheduler e) ++ dispatched_operations (scheduler e)) /\
  StronglySorted (cmp_lt durable_order) (snapshot_scheduler_durable e).
Proof. split; [apply snapshot_keys|]. split; [apply snapshot_elem|apply snapshot_strict]. Qed.

(** * Unacknowledged work survives *)






Lemma ingest_scheduler cands e :
  scheduler (ingest_candidates cands e).2 =
  replace_planned (merge_with_overflow cands e)
    (plan_with_overflow (planner e) (merge_with_overflow cands e)).1 (scheduler e).
Proof. unfold ingest_candidates. by destruct (plan_with_overflow _ _). Qed.

Lemma ingest_filtered_scheduler cands policy e :
  scheduler (ingest_candidates_filtered cands policy e).2 =
  replace_planned (merge_with_overflow cands e)
    (plan_filtered_with_overflow (planner e) (merge_with_overflow cands e) policy).1 (scheduler e).
Proof. unfold ingest_candidates_filtered. by destruct (plan_filtered_with_overflow _ _ _). Qed.

Lemma advance_eq e :
  exists e', advance_transfer_cycle e = Some ((fair_batch (scheduler e)).1, e') /\
    scheduler e' = with_dispatched (with_queued (scheduler e) (fair_batch (scheduler e)).2)
      (dispatched_operations (scheduler e) ++ (fair_batch (scheduler e)).1) /\
    uploads e' = up_accept_batch (fair_batch (scheduler e)).1 (uploads e) /\
    downloads e' = down_accept_batch (fair_batch (scheduler e)).1 (downloads e) /\
    planner_overflow e' = planner_overflow e /\
    pending_watcher_evictions e' = pending_watcher_evictions e /\
    paused_sync_roots e' = paused_sync_roots e.
Proof. unfold advance_transfer_cycle. rewrite next_batch_eq. simpl. eauto 10. Qed.

Lemma mark_completed_scheduler path e : scheduler (mark_transfer_completed path e).2 = scheduler e.
Proof. unfold mark_transfer_completed. by repeat case_match. Qed.

Lemma mark_failed_scheduler path error e : scheduler (mark_transfer_failed path error e).2 = scheduler e.
Proof. unfold mark_transfer_failed. by repeat case_match. Qed.



Lemma evict_sync_root_scheduler sid e : scheduler (evict_sync_root sid e) = evict_sync_id sid (scheduler e).
Proof. unfold evict_sync_root. by case_decide. Qed.

Lemma pause_scheduler sid e :
  scheduler (pause_sync_root sid e).2 =
  if decide (sid ∈ paused_sync_roots e) then scheduler e else evict_sync_id sid (scheduler e).
Proof. unfold pause_sync_root. by case_decide. Qed.


Lemma restart_scheduler paused overflow queue :
  scheduler (engine_restart paused overflow queue) = replace_queue queue Scheduler_default.
Proof.
  assert (scheduler (foldl (λ e sid, (pause_sync_root sid e).2) EngineShell_new paused)
          = Scheduler_default) as Hp.
  { induction paused as [|sid paused IH] using rev_ind; [done|]. rewrite foldl_app. simpl.
    rewrite pause_scheduler. case_decide; rewrite IH; done. }
  unfold engine_restart. destruct queue, overflow; simpl; by rewrite Hp.
Qed.




Definition sample_engine : EngineShell :=
  (ingest_candidates
     [mkSyncCandidate 1 Local "a" File Upsert None None; mkSyncCandidate 2 Remote "b" File Upsert (Some 7%N) None]
     EngineShell_new).2.


(** * Invariants of the shell *)

Record engine_inv (e : EngineShell) : Prop := {
  inv_sorted : queue_sorted (scheduler e);
  inv_overflow : (len (planner_overflow e) <= PLANNER_OVERFLOW_MAX)%N;
  inv_evictions : NoDup (pending_watcher_evictions e);
}.

Lemma cap_overflow_bound l : (len (cap_overflow l) <= PLANNER_OVERFLOW_MAX)%N.
Proof.
  unfold cap_overflow. case_decide; [|lia]. unfold len in *. rewrite length_take. lia.
Qed.

Lemma replace_planned_sorted combined ops s : queue_sorted (replace_planned combined ops s).
Proof.
  unfold replace_planned, queue_sorted. destruct (single_sync_id combined); simpl;
    apply (sort_by_sorted op_order).
Qed.

Lemma ack_sorted items s : queue_sorted s -> queue_sorted (ack_batch items s).
Proof. unfold ack_batch, queue_sorted. by repeat case_match. Qed.

Lemma delete_sorted (idx : nat) (l : list PlannedOperation) :
  StronglySorted (cmp_le op_order) l ->
  StronglySorted (cmp_le op_order) (take idx l ++ drop (S idx) l).
Proof. intros Hs. eapply sublist_sorted; [|exact Hs]. rewrite <- delete_take_drop. apply sublist_delete. Qed.

Lemma mark_completed_rest path e :
  planner_overflow (mark_transfer_completed path e).2 = planner_overflow e /\
  pending_watcher_evictions (mark_transfer_completed path e).2 = pending_watcher_evictions e.
Proof. unfold mark_transfer_completed. by repeat case_match. Qed.

Lemma mark_failed_rest path error e :
  planner_overflow (mark_transfer_failed path error e).2 = planner_overflow e /\
  pending_watcher_evictions (mark_transfer_failed path error e).2 = pending_watcher_evictions e.
Proof. unfold mark_transfer_failed. by repeat case_match. Qed.

Lemma restart_rest paused overflow queue :
  (len overflow <= PLANNER_OVERFLOW_MAX)%N -> engine_inv (engine_restart paused overflow queue).
Proof.
  intros Hlen. split.
  - rewrite restart_scheduler. apply (sort_by_sorted op_order).
  - unfold engine_restart. destruct overflow, queue; simpl; try done;
      (induction paused as [|sid paused IH] using rev_ind; [done|];
       rewrite foldl_app; simpl; unfold pause_sync_root; by case_decide).
  - unfold engine_restart. destruct overflow, queue; simpl;
      (induction paused as [|sid paused IH] using rev_ind; [constructor|];
       rewrite foldl_app; simpl; unfold pause_sync_root; by case_decide).
Qed.

Lemma ingest_inv cands e : engine_inv e -> engine_inv (ingest_candidates cands e).2.
Proof.
  intros [Hs Ho He]. split.
  - rewrite ingest_scheduler. apply replace_planned_sorted.
  - unfold ingest_candidates. destruct (plan_with_overflow _ _). apply cap_overflow_bound.
  - unfold ingest_candidates. by destruct (plan_with_overflow _ _).
Qed.

Lemma ingest_filtered_inv cands policy e :
  engine_inv e -> engine_inv (ingest_candidates_filtered cands policy e).2.
Proof.
  intros [Hs Ho He]. split.
  - rewrite ingest_filtered_scheduler. apply replace_planned_sorted.
  - unfold ingest_candidates_filtered. destruct (plan_filtered_with_overflow _ _ _).
    apply cap_overflow_bound.
  - unfold ingest_candidates_filtered. by destruct (plan_filtered_with_overflow _ _ _).
Qed.

Lemma evict_inv sid e : engine_inv e -> engine_inv (evict_sync_root sid e).
Proof.
  intros [Hs Ho He]. split.
  - rewrite evict_sync_root_scheduler. by apply evict_sorted.
  - unfold evict_sync_root. by case_decide.
  - unfold evict_sync_root. case_decide as Hin; [done|]. simpl. apply NoDup_app. split; [done|].
    split; [|apply NoDup_singleton]. by intros x Hx ->%list_elem_of_singleton.
Qed.

Lemma engine_call_inv e c : engine_inv e -> exists e', engine_call e c = Some e' /\ engine_inv e'.
Proof.
  intros Hi. destruct c; simpl.
  3:{ destruct (advance_eq e) as (e' & -> & Hsched & _ & _ & Ho & Hev & _). simpl.
      exists e'. split; [done|]. split; [|by rewrite Ho; apply Hi|by rewrite Hev; apply Hi].
      rewrite Hsched. apply (next_batch_sorted (scheduler e) (fair_batch (scheduler e)).1);
        [apply Hi|apply next_batch_eq]. }
  all: eexists; split; [reflexivity|].
  - by apply ingest_inv.
  - by apply ingest_filtered_inv.
  - destruct (mark_completed_rest path e) as [Ho He].
    split; [rewrite mark_completed_scheduler|rewrite Ho|rewrite He]; apply Hi.
  - destruct (mark_failed_rest path error e) as [Ho He].
    split; [rewrite mark_failed_scheduler|rewrite Ho|rewrite He]; apply Hi.
  - split; [apply ack_sorted, Hi|apply Hi|apply Hi].
  - by apply evict_inv.
  - unfold pause_sync_root. case_decide; [done|].
    split; [apply evict_sorted, Hi|apply Hi|apply Hi].
  - split; apply Hi.
  - destruct (resolve_conflict_by_path path policy e) as [[r e']|] eqn:E; [|done].
    unfold resolve_conflict_by_path in E. destruct (list_find _ _) as [[i op]|]; [|done].
    destruct (resolve_with _ _ _ _); [|done]. injection E as _ <-.
    split; [apply delete_sorted, Hi|apply Hi|apply Hi].
  - split; [apply Hi|apply Hi|constructor].
  - split; [apply Hi|done|apply Hi].
  - split; [constructor|apply Hi|apply Hi].
  - split; apply Hi.
  - apply restart_rest, Hi.
Qed.

(** C2: Every sequence of calls on a fresh engine runs without a panic to a state whose queue is
    sorted by priority and path, whose overflow buffer is within its cap and whose pending
    watcher evictions name each root once. *)
Theorem engine_invariant calls :
  exists e, engine_run calls EngineShell_new = Some e /\ engine_inv e.
Proof.
  assert (engine_inv EngineShell_new) as Hi by (split; [constructor|done|constructor]).
  revert Hi. generalize EngineShell_new.
  induction calls as [|c calls IH]; intros e Hi; simpl; [eauto|].
  destruct (engine_call_inv e c Hi) as (e' & -> & Hi'). simpl. by apply IH.
Qed.

(** * Ingestion *)

Lemma single_sync_id_Some cands sid :
  single_sync_id cands = Some sid -> forall c, c ∈ cands -> cand_sync_id c = sid.
Proof.
  unfold single_sync_id. destruct cands as [|d cands]; [done|].
  destruct (forallb _ _) eqn:E; [|done]. intros [= <-] c Hc.
  rewrite forallb_forall in E. apply (bool_decide_eq_true_1 _), E. by apply list_elem_of_In.
Qed.

Lemma single_sync_id_all sid c cands :
  Forall (λ c, cand_sync_id c = sid) (c :: cands) -> single_sync_id (c :: cands) = Some sid.
Proof.
  intros Hall. pose proof Hall as [<- _]%Forall_cons. cbn [single_sync_id].
  rewrite (proj2 (forallb_forall _ _)); [done|]. intros x Hx%list_elem_of_In. apply bool_decide_eq_true.
  by eapply Forall_forall in Hall.
Qed.

Lemma plan_filtered_ops p cands policy :
  (plan_filtered_with_overflow p cands policy).1
  = filter (λ op, suppresses policy op = false) (plan p cands).
Proof. unfold plan_filtered_with_overflow, plan. by destruct (plan_with_overflow p cands). Qed.

Lemma plan_pair_sync_id sid l r op :
  (forall c, l = Some c -> cand_sync_id c = sid) -> (forall c, r = Some c -> cand_sync_id c = sid) ->
  plan_pair l r = Some op -> op_sync_id op = sid.
Proof.
  intros Hl Hr. unfold plan_pair. destruct l as [cl|], r as [cr|]; [| | |done]; intros [= <-].
  - unfold plan_conflict_or_resolution. repeat case_match; simpl; auto.
  - unfold plan_single. repeat case_match; simpl; auto.
  - unfold plan_single. repeat case_match; simpl; auto.
Qed.

(** Every operation planned from candidates of one root is of that root. *)
Lemma plan_sync_id p cands sid op :
  (forall c, c ∈ cands -> cand_sync_id c = sid) -> op ∈ plan p cands -> op_sync_id op = sid.
Proof.
  intros Hall. rewrite plan_eq. intros (q & _ & Hq)%list_elem_of_omap.
  eapply plan_pair_sync_id; [| |exact Hq]; intros c Hc; apply latest_spec in Hc as (Hin & _); auto.
Qed.

Lemma of_root_all (sid : SyncId) (l : list PlannedOperation) :
  (forall op, op ∈ l -> op_sync_id op = sid) -> of_root sid l = l.
Proof. intros Hl. unfold of_root. by apply filter_all. Qed.

Lemma of_root_none (r sid : SyncId) (l : list PlannedOperation) :
  r <> sid -> (forall op, op ∈ l -> op_sync_id op = sid) -> of_root r l = [].
Proof. intros Hne Hl. unfold of_root. apply filter_none. intros op Hop. rewrite (Hl op Hop). congruence. Qed.

Lemma scoped_queue sid r ops s :
  (forall op, op ∈ ops -> op_sync_id op = sid) -> queue_sorted s ->
  of_root r (queued_operations (replace_queue_for_sync_id sid ops s)) =
  if decide (r = sid) then sort_by op_order ops else of_root r (queued_operations s).
Proof.
  intros Hops Hs. simpl. unfold of_root. rewrite (sort_by_filter op_order), filter_app.
  fold (of_root r ops). case_decide as Hr.
  - subst. rewrite of_root_all by done. rewrite filter_none; [done|].
    intros op [? _]%list_elem_of_filter. congruence.
  - rewrite (of_root_none r sid) by done. rewrite app_nil_r, list_filter_filter_l by congruence.
    apply sort_by_sorted_id. eapply sublist_sorted; [apply sublist_filter|exact Hs].
Qed.

(** Ingesting candidates of a single root (the deferred ones included) is scoped to that root:
    its queue becomes its filtered plan in dispatch order, the queue of every other root and
    all dispatched operations are untouched, and what the tick could not plan is deferred. *)
Theorem ingest_scoped e cands policy sid
  (Hroot : single_sync_id (merge_with_overflow cands e) = Some sid)
  (Hsorted : queue_sorted (scheduler e)) :
  let combined := planner_overflow e ++ cands in
  let e' := (ingest_candidates_filtered cands policy e).2 in
  (forall r, of_root r (queued_operations (scheduler e')) =
     if decide (r = sid)
     then sort_by op_order (filter (λ op, suppresses policy op = false) (plan (planner e) combined))
     else of_root r (queued_operations (scheduler e))) /\
  dispatched_operations (scheduler e') = dispatched_operations (scheduler e) /\
  planner_overflow e' = cap_overflow (plan_with_overflow (planner e) combined).2.
Proof.
  assert (merge_with_overflow cands e = planner_overflow e ++ cands) as Hm.
  { unfold merge_with_overflow. by destruct (planner_overflow e). }
  simpl. rewrite ingest_filtered_scheduler, Hm in *. unfold replace_planned. rewrite Hroot.
  rewrite plan_filtered_ops. split; [|split; [done|]].
  - intros r. apply scoped_queue; [|done]. intros op [_ Hop]%list_elem_of_filter.
    eapply plan_sync_id; [|exact Hop]. by apply single_sync_id_Some.
  - unfold ingest_candidates_filtered, plan_filtered_with_overflow. rewrite Hm.
    by destruct (plan_with_overflow (planner e) (planner_overflow e ++ cands)).
Qed.

Lemma ingest_scoped_witness :
  let cands := [mkSyncCandidate 2 Local "d" Folder Delete None None] in
  let e' := (ingest_candidates_filtered cands DeletePolicy_default sample_engine).2 in
  (forall r, of_root r (queued_operations (scheduler e')) =
     if decide (r = 2%N)
     then sort_by op_order (filter (λ op, suppresses DeletePolicy_default op = false)
            (plan (planner sample_engine) (planner_overflow sample_engine ++ cands)))
     else of_root r (queued_operations (scheduler sample_engine))) /\
  dispatched_operations (scheduler e') = dispatched_operations (scheduler sample_engine) /\
  planner_overflow e' =
    cap_overflow (plan_with_overflow (planner sample_engine) (planner_overflow sample_engine ++ cands)).2.
Proof.
  apply (ingest_scoped sample_engine); [vm_compute; reflexivity|].
  apply replace_planned_sorted.
Defined.

Lemma empty_ingest_queue e policy : planner_overflow e = [] ->
  queued_operations (scheduler (ingest_candidates_filtered [] policy e).2) = [].
Proof.
  intros Hnone.
  rewrite ingest_filtered_scheduler, plan_filtered_ops. unfold merge_with_overflow. rewrite Hnone.
  cbn [replace_planned single_sync_id replace_queue with_queued queued_operations].
  rewrite plan_eq. unfold planned_paths, distinct_paths. simpl. by rewrite take_nil.
Qed.

(** An ingest without candidates and without deferred work replaces the whole queue by the
    empty one: the queued operations of every root are dropped. *)
Theorem empty_ingest_drops_every_root e policy (Hnone : planner_overflow e = []) :
  queued_operations (scheduler (ingest_candidates_filtered [] policy e).2) = [].
Proof. by apply empty_ingest_queue. Qed.

Lemma empty_ingest_drops_every_root_witness :
  queued_operations (scheduler sample_engine) <> [] /\
  queued_operations (scheduler (ingest_candidates_filtered [] DeletePolicy_default sample_engine).2) = [].
Proof.
  split; [vm_compute; discriminate|]. apply empty_ingest_drops_every_root. vm_compute. reflexivity.
Defined.

(** * Eviction and pausing *)

Definition engine_operations (e : EngineShell) : list PlannedOperation :=
  queued_operations (scheduler e) ++ dispatched_operations (scheduler e) ++
  coord_operations (uploads e) ++ coord_operations (downloads e).

Definition ops_without (sid : SyncId) (l : list PlannedOperation) : list PlannedOperation :=
  filter (λ op, op_sync_id op ≠ sid) l.

Lemma ops_without_tasks sid tasks :
  task_operation <$> retain_other_sync_ids tasks sid = ops_without sid (task_operation <$> tasks).
Proof.
  induction tasks as [|t tasks IH]; [done|]. unfold retain_other_sync_ids, ops_without in *. csimpl.
  rewrite !filter_cons. case_decide; csimpl; by rewrite IH.
Qed.

Lemma coord_evict_operations {C} `{TransferCoordinatorLaws C} sid (c : C) :
  coord_operations (coord_evict sid c) = ops_without sid (coord_operations c).
Proof.
  unfold coord_operations. rewrite evict_active, evict_completed, evict_failed, !fmap_app.
  rewrite !ops_without_tasks. unfold ops_without. by rewrite !filter_app.
Qed.

Lemma evict_work_operations sid e :
  engine_operations (evict_work sid e) = ops_without sid (engine_operations e).
Proof.
  unfold engine_operations, ops_without. rewrite !filter_app. simpl.
  change (up_evict_sync_id sid (uploads e)) with (coord_evict sid (uploads e)).
  change (down_evict_sync_id sid (downloads e)) with (coord_evict sid (downloads e)).
  by rewrite !coord_evict_operations.
Qed.

(** Evicting a root removes its operations from the queue, the dispatched list and every task
    list of both coordinators, and nothing of any other root; clears its pause flag; and
    schedules the teardown of its watcher exactly once. *)
Theorem evict_sync_root_spec sid e (Hnodup : NoDup (pending_watcher_evictions e)) :
  let e' := evict_sync_root sid e in
  engine_operations e' = filter (λ op, op_sync_id op ≠ sid) (engine_operations e) /\
  paused_sync_roots e' = paused_sync_roots e ∖ {[sid]} /\
  sid ∈ pending_watcher_evictions e' /\ NoDup (pending_watcher_evictions e') /\
  planner_overflow e' = planner_overflow e.
Proof.
  simpl. assert (engine_operations (evict_sync_root sid e) = engine_operations (evict_work sid e)) as ->.
  { unfold evict_sync_root. by case_decide. }
  split; [apply evict_work_operations|].
  unfold evict_sync_root. case_decide as Hin; simpl; [done|].
  split; [done|]. split; [apply elem_of_app; right; by apply list_elem_of_singleton|]. split; [|done].
  apply NoDup_app. split; [done|]. split; [|apply NoDup_singleton].
  by intros x Hx ->%list_elem_of_singleton.
Qed.

Lemma evict_sync_root_spec_witness :
  let e' := evict_sync_root 1%N sample_engine in
  engine_operations e' = filter (λ op, op_sync_id op ≠ 1%N) (engine_operations sample_engine) /\
  paused_sync_roots e' = paused_sync_roots sample_engine ∖ {[1%N]} /\
  1%N ∈ pending_watcher_evictions e' /\ NoDup (pending_watcher_evictions e') /\
  planner_overflow e' = planner_overflow sample_engine.
Proof. apply (evict_sync_root_spec 1%N sample_engine). constructor. Defined.

(** A pause is not enforced by the shell: planning and dispatching go on for a paused root. *)
Theorem paused_root_is_dispatched :
  exists e batch e', is_sync_root_paused 1%N e = true /\ queued_operations (scheduler e) = [] /\
    advance_transfer_cycle (ingest_candidates [mkSyncCandidate 1 Local "a" File Upsert None None] e).2
      = Some (batch, e') /\
    is_sync_root_paused 1%N e' = true /\ exists op, op ∈ batch /\ op_sync_id op = 1%N.
Proof.
  exists (pause_sync_root 1%N EngineShell_new).2. do 2 eexists.
  split; [vm_compute; reflexivity|]. split; [reflexivity|].
  split; [vm_compute; reflexivity|]. split; [vm_compute; reflexivity|].
  exists (UploadFile 1 "a" None "a"). split; [left|reflexivity].
Qed.
