(* ===== verification/Bytes.v ===== *)
(** Bytes, little-endian integers, and the UTF-8 decoding of the Rust standard library.

    A byte is an [ascii] (eight bits), so a Rust [String] and the bytes of a frame share one
    representation; [to_le_bytes]/[from_le_bytes] are the integer codecs of the standard
    library and [from_utf8_lossy] its total decoder. *)
From S2P Require Import Prelude Paths.

Abbreviation byte := ascii.

(** * Integers and bytes *)

(** [x as u8]. *)
Definition to_byte (n : N) : byte := ascii_of_N (as_u8 n).

Lemma N_of_to_byte n : N_of_ascii (to_byte n) = (n mod 256)%N.
Proof.
  unfold to_byte, as_u8. change (2 ^ 8)%N with 256%N. apply N_ascii_embedding.
  by apply N.mod_lt.
Qed.

Lemma N_of_to_byte_small n : (n < 256)%N -> N_of_ascii (to_byte n) = n.
Proof. intros. rewrite N_of_to_byte. by apply N.mod_small. Qed.

Lemma to_byte_of_ascii b : to_byte (N_of_ascii b) = b.
Proof.
  unfold to_byte, as_u8. rewrite N.mod_small by apply N_ascii_bounded. apply ascii_N_embedding.
Qed.

#[export] Hint Resolve N_ascii_bounded : pcloud.

(** [uW::to_le_bytes] and [uW::from_le_bytes], [k] the number of bytes. *)
Fixpoint to_le_bytes (k : nat) (n : N) : list byte :=
  match k with
  | 0 => []
  | S k' => to_byte n :: to_le_bytes k' (n / 256)
  end.

Fixpoint from_le_bytes (l : list byte) : N :=
  match l with
  | [] => 0
  | b :: l' => N_of_ascii b + 256 * from_le_bytes l'
  end.

Lemma length_to_le_bytes k n : length (to_le_bytes k n) = k.
Proof. revert n; induction k as [|k IH]; intros n; simpl; [done|]. by rewrite IH. Qed.

#[export] Hint Rewrite length_to_le_bytes : pcloud.

Lemma from_to_le_bytes k n : from_le_bytes (to_le_bytes k n) = (n mod 256 ^ N.of_nat k)%N.
Proof.
  revert n; induction k as [|k IH]; intros n; cbn [to_le_bytes from_le_bytes].
  - by rewrite N.mod_1_r.
  - rewrite N_of_to_byte, IH, Nat2N.inj_succ, N.pow_succ_r by lia.
    rewrite N.Div0.mod_mul_r. lia.
Qed.

Lemma from_to_le_bytes_small k n :
  (n < 256 ^ N.of_nat k)%N -> from_le_bytes (to_le_bytes k n) = n.
Proof. intros. rewrite from_to_le_bytes. by apply N.mod_small. Qed.

Lemma from_le_bytes_bound l : (from_le_bytes l < 256 ^ len l)%N.
Proof.
  unfold len. induction l as [|b l IH]; [done|]. cbn [from_le_bytes length].
  rewrite Nat2N.inj_succ, N.pow_succ_r by lia. pose proof (N_ascii_bounded b). nia.
Qed.

Lemma to_from_le_bytes l : to_le_bytes (length l) (from_le_bytes l) = l.
Proof.
  induction l as [|b l IH]; [done|]. cbn [from_le_bytes length to_le_bytes]. f_equal.
  - rewrite N.mul_comm. unfold to_byte, as_u8. change (2 ^ 8)%N with 256%N.
    rewrite N.Div0.mod_add, N.mod_small by apply N_ascii_bounded. apply ascii_N_embedding.
  - rewrite N.mul_comm, N.div_add, N.div_small by (done || apply N_ascii_bounded). exact IH.
Qed.

(** A bitwise or of disjoint bits is an addition. *)
Lemma lor_shiftl a b k : (a < 2 ^ k)%N -> N.lor a (N.shiftl b k) = (a + b * 2 ^ k)%N.
Proof.
  intros Ha. rewrite <- N.shiftl_mul_pow2.
  assert (N.land a (N.shiftl b k) = 0%N) as Hl.
  { apply N.bits_inj_0. intros i. rewrite N.land_spec. destruct (N.ltb_spec i k) as [Hi|Hi].
    - by rewrite N.shiftl_spec_low, andb_false_r.
    - rewrite <- (N.mod_small a (2 ^ k)) by done. by rewrite N.mod_pow2_bits_high. }
  by rewrite N.add_nocarry_lxor, N.lxor_lor.
Qed.

(** * [String::from_utf8_lossy] *)

Definition in_range (lo hi : N) (b : byte) : bool :=
  (lo <=? N_of_ascii b)%N && (N_of_ascii b <=? hi)%N.

Definition is_continuation : byte -> bool := in_range 128 191.

(** The byte at [i], or zero past the end ([safe_get] of the decoder). *)
Definition safe_get (l : list byte) (i : nat) : byte := default (ascii_of_N 0) (l !! i).

(** One step of the decoder on a non-empty slice: whether it starts with a valid sequence,
    and the length of that sequence or of the maximal invalid prefix. *)
Definition utf8_step4 (b b1 b2 b3 : byte) : bool * nat :=
  if in_range 0 127 b then (true, 1)
  else if in_range 194 223 b then
    if is_continuation b1 then (true, 2) else (false, 1)
  else if in_range 224 239 b then
    if (in_range 224 224 b && in_range 160 191 b1) || (in_range 225 236 b && in_range 128 191 b1)
       || (in_range 237 237 b && in_range 128 159 b1) || (in_range 238 239 b && in_range 128 191 b1)
    then if is_continuation b2 then (true, 3) else (false, 2)
    else (false, 1)
  else if in_range 240 244 b then
    if (in_range 240 240 b && in_range 144 191 b1) || (in_range 241 243 b && in_range 128 191 b1)
       || (in_range 244 244 b && in_range 128 143 b1)
    then if is_continuation b2 then if is_continuation b3 then (true, 4) else (false, 3)
         else (false, 2)
    else (false, 1)
  else (false, 1).

Definition utf8_step (l : list byte) : bool * nat :=
  utf8_step4 (safe_get l 0) (safe_get l 1) (safe_get l 2) (safe_get l 3).

(** U+FFFD. *)
Definition replacement : list byte := utf8_bytes [239; 191; 189]%N.

Fixpoint lossy_loop (fuel : nat) (l : list byte) : list byte :=
  match fuel, l with
  | _, [] | 0, _ => []
  | S fuel', _ =>
      let '(ok, n) := utf8_step l in
      (if ok : bool then take n l else replacement) ++ lossy_loop fuel' (drop n l)
  end.

(** Each step consumes a byte, so [length l] steps are enough. *)
Definition from_utf8_lossy (l : list byte) : list byte := lossy_loop (length l) l.

Fixpoint valid_loop (fuel : nat) (l : list byte) : bool :=
  match fuel, l with
  | _, [] => true
  | 0, _ => false
  | S fuel', _ => let '(ok, n) := utf8_step l in ok && valid_loop fuel' (drop n l)
  end.

(** A Rust [String] holds valid UTF-8. *)
Definition valid_utf8 (l : list byte) : bool := valid_loop (length l) l.

Example lossy_1 : from_utf8_lossy (chars "a" ++ utf8_bytes [226; 130; 172; 255; 240; 159]%N)
  = chars "a" ++ utf8_bytes [226; 130; 172]%N ++ replacement ++ replacement.
Proof. reflexivity. Qed.

(** ** The step looks at no byte beyond the sequence it accepts *)

Lemma in_range_spec lo hi b : in_range lo hi b = true <-> (lo <= N_of_ascii b <= hi)%N.
Proof. unfold in_range. rewrite andb_true_iff, !N.leb_le. done. Qed.

Lemma utf8_step_pos l : l <> [] -> 1 <= (utf8_step l).2.
Proof. intros _. unfold utf8_step, utf8_step4. repeat case_match; simpl; lia. Qed.

Lemma safe_get_lt l i : N_of_ascii (safe_get l i) <> 0%N -> i < length l.
Proof.
  unfold safe_get. intros Hne. apply lookup_lt_is_Some.
  destruct (l !! i); [eauto|]. by destruct Hne.
Qed.

Lemma safe_get_app l1 l2 i : i < length l1 -> safe_get (l1 ++ l2) i = safe_get l1 i.
Proof. intros. unfold safe_get. by rewrite lookup_app_l. Qed.

Lemma continuation_lt l i : is_continuation (safe_get l i) = true -> i < length l.
Proof. intros Hc%in_range_spec. apply safe_get_lt. lia. Qed.

Lemma in_range_lt lo hi l i : (0 < lo)%N -> in_range lo hi (safe_get l i) = true -> i < length l.
Proof. intros Hlo Hc%in_range_spec. apply safe_get_lt. lia. Qed.

Lemma valid_loop_fuel fuel1 fuel2 l :
  length l <= fuel1 -> length l <= fuel2 -> valid_loop fuel1 l = valid_loop fuel2 l.
Proof.
  revert fuel2 l; induction fuel1 as [|f1 IH]; intros [|f2] [|b l] H1 H2; simpl in H1, H2; try lia; try done.
  cbn [valid_loop]. pose proof (utf8_step_pos (b :: l)) as Hp. destruct (utf8_step (b :: l)) as [ok n]; simpl in Hp.
  f_equal. apply IH; rewrite length_drop; simpl; specialize (Hp ltac:(done)); lia.
Qed.

Lemma lossy_loop_fuel fuel1 fuel2 l :
  length l <= fuel1 -> length l <= fuel2 -> lossy_loop fuel1 l = lossy_loop fuel2 l.
Proof.
  revert fuel2 l; induction fuel1 as [|f1 IH]; intros [|f2] [|b l] H1 H2; simpl in H1, H2; try lia; try done.
  cbn [lossy_loop]. pose proof (utf8_step_pos (b :: l)) as Hp. destruct (utf8_step (b :: l)) as [ok n]; simpl in Hp.
  f_equal. apply IH; rewrite length_drop; simpl; specialize (Hp ltac:(done)); lia.
Qed.

(** Valid UTF-8 is decoded to itself. *)
Lemma lossy_valid l : valid_utf8 l = true -> from_utf8_lossy l = l.
Proof.
  unfold valid_utf8, from_utf8_lossy. generalize (length l) as fuel. intros fuel; revert l.
  induction fuel as [|fuel IH]; intros [|b l] Hv; try done.
  cbn [valid_loop lossy_loop] in *. destruct (utf8_step (b :: l)) as [[] n]; [|done].
  simpl andb in Hv. by rewrite (IH _ Hv), take_drop.
Qed.

(** The bytes of the slice that a step reads, made explicit. *)
Lemma safe_get_take_app (l l' : list byte) n i :
  i < n -> n <= length l -> safe_get (take n l ++ l') i = safe_get l i.
Proof.
  intros Hi Hn. unfold safe_get. rewrite lookup_app_l by (rewrite length_take; lia).
  by rewrite lookup_take_lt.
Qed.

Lemma utf8_step4_valid b b1 b2 b3 n :
  utf8_step4 b b1 b2 b3 = (true, n) ->
  (n = 1 /\ forall c1 c2 c3, utf8_step4 b c1 c2 c3 = (true, 1)) \/
  (n = 2 /\ is_continuation b1 = true /\ forall c2 c3, utf8_step4 b b1 c2 c3 = (true, 2)) \/
  (n = 3 /\ is_continuation b2 = true /\ forall c3, utf8_step4 b b1 b2 c3 = (true, 3)) \/
  (n = 4 /\ is_continuation b3 = true).
Proof.
  unfold utf8_step4.
  destruct (in_range 0 127 b); [intros [= <-]; by left|].
  destruct (in_range 194 223 b).
  { destruct (is_continuation b1) eqn:?; [|done]. intros [= <-]. right; left. done. }
  destruct (in_range 224 239 b).
  { destruct (_ || _ || _ || _); [|done]. destruct (is_continuation b2) eqn:?; [|done].
    intros [= <-]. right; right; left. done. }
  destruct (in_range 240 244 b); [|done]. destruct (_ || _ || _); [|done].
  destruct (is_continuation b2); [|done]. destruct (is_continuation b3) eqn:?; [|done].
  intros [= <-]. right; right; right. done.
Qed.

(** An accepted sequence fits in the slice and is accepted before any other bytes too. *)
Lemma utf8_step_valid_app l l' n :
  l <> [] -> utf8_step l = (true, n) ->
  1 <= n <= length l /\ utf8_step (take n l ++ l') = (true, n).
Proof.
  intros Hne Hs. assert (0 < length l) as H0 by (destruct l; [done|simpl; lia]).
  unfold utf8_step in Hs |- *. pose proof Hs as Hs'.
  apply utf8_step4_valid in Hs' as [[-> Hc]|[(-> & Hb & Hc)|[(-> & Hb & Hc)|(-> & Hb)]]];
    try (apply continuation_lt in Hb); (split; [lia|]);
    rewrite !safe_get_take_app by lia; auto.
Qed.

Lemma valid_utf8_prepend l r n :
  l <> [] -> utf8_step l = (true, n) -> valid_utf8 r = true -> valid_utf8 (take n l ++ r) = true.
Proof.
  intros Hne Hs Hr. destruct (utf8_step_valid_app l r n Hne Hs) as [Hn Hs'].
  unfold valid_utf8. destruct (take n l ++ r) as [|b rest] eqn:E; [done|].
  cbn [length valid_loop]. rewrite Hs'. simpl andb. rewrite <- E.
  rewrite drop_app_length' by (rewrite length_take; lia).
  rewrite (valid_loop_fuel _ (length r)); [exact Hr| |done].
  apply (f_equal length) in E. rewrite length_app, length_take in E. simpl in E. lia.
Qed.

Lemma valid_utf8_replacement r : valid_utf8 r = true -> valid_utf8 (replacement ++ r) = true.
Proof. intros Hr. by apply (valid_utf8_prepend replacement r 3). Qed.

(** The lossy decoder always returns valid UTF-8, so it is idempotent. *)
Lemma lossy_is_valid l : valid_utf8 (from_utf8_lossy l) = true.
Proof.
  unfold from_utf8_lossy. generalize (length l) as fuel. intros fuel; revert l.
  induction fuel as [|fuel IH]; intros [|b l]; try done.
  cbn [lossy_loop]. destruct (utf8_step (b :: l)) as [[] n] eqn:Hs.
  - by apply valid_utf8_prepend.
  - by apply valid_utf8_replacement.
Qed.

(** Each input byte yields at most three output bytes. *)
Lemma lossy_length l : length (from_utf8_lossy l) <= 3 * length l.
Proof.
  unfold from_utf8_lossy. generalize (length l) at 1 as fuel. intros fuel; revert l.
  induction fuel as [|fuel IH]; intros [|b l]; try (simpl; lia).
  cbn [lossy_loop]. pose proof (utf8_step_pos (b :: l) ltac:(done)) as Hp.
  destruct (utf8_step (b :: l)) as [ok n]. simpl in Hp. rewrite length_app.
  pose proof (IH (drop n (b :: l))) as H. rewrite length_drop in H.
  assert (length (if ok then take n (b :: l) else replacement)
          <= 3 * (length (b :: l) `min` n)) as Hc.
  { destruct ok; [rewrite length_take|simpl replacement]; simpl length; lia. }
  lia.
Qed.

#[global] Arguments to_le_bytes : simpl never.
#[global] Arguments from_le_bytes : simpl never.

(** * Slices *)

(** [&l[first..last]], cut at the end of [l]. *)
Definition sub_bytes (first last : N) (l : list byte) : list byte :=
  take (N.to_nat (last - first)) (drop (N.to_nat first) l).

Lemma sub_bytes_length a b l : (a <= b)%N -> (b <= len l)%N -> len (sub_bytes a b l) = (b - a)%N.
Proof. unfold sub_bytes, len. intros. rewrite length_take, length_drop. lia. Qed.

Lemma sub_bytes_sub a b i j l :
  (a + j <= b)%N -> (i <= j)%N -> sub_bytes i j (sub_bytes a b l) = sub_bytes (a + i) (a + j) l.
Proof.
  intros. unfold sub_bytes. rewrite skipn_firstn_comm, take_take, drop_drop. f_equal; [lia|]. f_equal. lia.
Qed.

Lemma sub_bytes_app a b c l :
  (a <= b)%N -> (b <= c)%N -> sub_bytes a b l ++ sub_bytes b c l = sub_bytes a c l.
Proof.
  intros. unfold sub_bytes. replace (drop (N.to_nat b) l) with (drop (N.to_nat (b - a)) (drop (N.to_nat a) l)).
  - rewrite take_take_drop. f_equal. lia.
  - rewrite drop_drop. f_equal. lia.
Qed.

Lemma sub_bytes_empty a l : sub_bytes a a l = [].
Proof. unfold sub_bytes. by rewrite N.sub_diag. Qed.

Lemma sub_bytes_all n l : (len l <= n)%N -> sub_bytes 0 n l = l.
Proof. unfold sub_bytes, len. intros. simpl. apply take_ge. lia. Qed.

Lemma sub_bytes_min a b l : sub_bytes a (N.min b (len l)) l = sub_bytes a b l.
Proof.
  unfold sub_bytes, len. destruct (decide (N.to_nat b <= length l)); [f_equal; lia|].
  rewrite !take_ge by (rewrite length_drop; lia). done.
Qed.

Lemma sub_bytes_len a b l : len (sub_bytes a b l) = (N.min b (len l) - a)%N.
Proof. unfold sub_bytes, len. rewrite length_take, length_drop. lia. Qed.

Lemma sub_bytes_past a b l : (len l <= a)%N -> sub_bytes a b l = [].
Proof. unfold sub_bytes, len. intros. rewrite drop_ge by lia. by rewrite take_nil. Qed.
