(* ===== verification/BinaryApi.v ===== *)
(** The binary request framer: crates/pcloud-proto/src/binary_api.rs.

    [encode_request] is the encoder as written; [decode_request] is a reference decoder of the
    documented wire layout, written from the layout's description, against which the encoder
    is proved. *)
From S2P Require Import Prelude Paths Bytes.

Definition MAX_REQUEST_FRAME_LEN : N := U16_MAX.
Definition MAX_PARAM_NAME_LEN : N := 63.
Definition MAX_RESPONSE_FRAME_LEN : N := 256 * 1024 * 1024.

Inductive BinaryParamValue : Type :=
| PString (value : list byte)
| PNumber (value : N)
| PBool (value : bool).

Record BinaryParam : Type := mkParam {
  param_name : list byte;
  param_value : BinaryParamValue;
}.

Record RequestFrame : Type := mkRequestFrame {
  frame_command : list byte;
  frame_parameter_count : N;
}.

Record EncodedRequest : Type := mkEncodedRequest {
  req_frame : RequestFrame;
  req_params : list BinaryParam;
  req_bytes : list byte;
}.

Inductive FrameParseError : Type :=
| CommandTooLong
| ParamNameTooLong (name : list byte)
| RequestTooLarge
| TruncatedResponseHeader
| ResponseTooLarge (claimed : N).

(** The sizing loop: the accumulated payload length, or the first over-long name. *)
Fixpoint payload_size (params : list BinaryParam) (payload_len : N) : result N FrameParseError :=
  match params with
  | [] => Ok payload_len
  | param :: params' =>
      if decide (MAX_PARAM_NAME_LEN < len (param_name param))%N
      then Err (ParamNameTooLong (param_name param))
      else
        let payload_len := (payload_len + (1 + len (param_name param)))%N in
        payload_size params'
          (match param_value param with
           | PString value => payload_len + (4 + len value)
           | PNumber _ => payload_len + 8
           | PBool _ => payload_len + 1
           end)%N
  end.

(** The body of the writing loop: [(param_type << 6) | name.len() as u8], the name, the value. *)
Definition write_param (param : BinaryParam) : list byte :=
  let '(param_type, value_len) :=
    match param_value param with
    | PString value => (0, len value)
    | PNumber _ => (1, 8)
    | PBool _ => (2, 1)
    end%N in
  let header := N.lor (as_u8 (N.shiftl param_type 6)) (as_u8 (len (param_name param))) in
  to_byte header :: param_name param ++
  match param_value param with
  | PString value => to_le_bytes 4 (as_u32 value_len) ++ value
  | PNumber value => to_le_bytes 8 value
  | PBool value => [to_byte (if value then 1 else 0)]
  end.

Definition encode_request (command : list byte) (params : list BinaryParam)
    (raw_body_len : option N) : result EncodedRequest FrameParseError :=
  let? cmd_len := ok_or (u8_try_from (len command)) CommandTooLong in
  let payload_len := (len command + 2)%N in
  let payload_len := match raw_body_len with Some _ => payload_len + 8 | None => payload_len end%N in
  let? payload_len := payload_size params payload_len in
  let total_len := (payload_len + 2)%N in
  if decide (MAX_REQUEST_FRAME_LEN < total_len)%N then Err RequestTooLarge
  else
    let wire_len := as_u16 payload_len in
    Ok {| req_frame := mkRequestFrame command (len params);
          req_params := params;
          req_bytes :=
            to_le_bytes 2 wire_len ++
            [to_byte (match raw_body_len with Some _ => N.lor cmd_len 128 | None => cmd_len end)] ++
            match raw_body_len with Some body_len => to_le_bytes 8 body_len | None => [] end ++
            command ++
            [to_byte (default U8_MAX (u8_try_from (len params)))] ++
            (params ≫= write_param) |}.

Definition parse_response_frame_len (header : list byte) : result N FrameParseError :=
  match header with
  | b0 :: b1 :: b2 :: b3 :: _ =>
      let claimed := from_le_bytes [b0; b1; b2; b3] in
      if decide (MAX_RESPONSE_FRAME_LEN < claimed)%N then Err (ResponseTooLarge claimed)
      else Ok claimed
  | _ => Err TruncatedResponseHeader
  end.

(** * The reference decoder of the wire layout *)

(** Splits off the first [n] bytes. *)
Definition take_bytes (n : N) (l : list byte) : option (list byte * list byte) :=
  if decide (n <= len l)%N then Some (take (N.to_nat n) l, drop (N.to_nat n) l) else None.

Definition decode_param (l : list byte) : option (BinaryParam * list byte) :=
  match l with
  | [] => None
  | header :: l =>
      '(name, l) ← take_bytes (N_of_ascii header mod 64) l;
      match (N_of_ascii header / 64)%N with
      | 0%N =>
          '(n, l) ← take_bytes 4 l; '(value, l) ← take_bytes (from_le_bytes n) l;
          Some (mkParam name (PString value), l)
      | 1%N => '(n, l) ← take_bytes 8 l; Some (mkParam name (PNumber (from_le_bytes n)), l)
      | 2%N => '(b, l) ← take_bytes 1 l; Some (mkParam name (PBool (bool_decide (b <> [to_byte 0]))), l)
      | _ => None
      end
  end.

Fixpoint decode_params (n : nat) (l : list byte) : option (list BinaryParam * list byte) :=
  match n with
  | 0 => Some ([], l)
  | S n' => '(p, l) ← decode_param l; '(ps, l) ← decode_params n' l; Some (p :: ps, l)
  end.

(** Command, parameters, body length and the bytes after the frame. *)
Definition decode_request (l : list byte)
    : option (list byte * list BinaryParam * option N * list byte) :=
  '(wire_len, l) ← take_bytes 2 l;
  '(payload, rest) ← take_bytes (from_le_bytes wire_len) l;
  match payload with
  | [] => None
  | header :: p =>
      '(body_len, p) ←
        (if decide (128 <= N_of_ascii header)%N
         then '(n, p) ← take_bytes 8 p; Some (Some (from_le_bytes n), p)
         else Some (None, p));
      '(command, p) ← take_bytes (N_of_ascii header mod 128) p;
      match p with
      | [] => None
      | count :: p =>
          '(params, p) ← decode_params (N.to_nat (N_of_ascii count)) p;
          match p with [] => Some (command, params, body_len, rest) | _ => None end
      end
  end.

(** * Sizes *)

Definition param_size (param : BinaryParam) : N :=
  (1 + len (param_name param) +
   match param_value param with PString value => 4 + len value | PNumber _ => 8 | PBool _ => 1 end)%N.

Definition params_size (params : list BinaryParam) : N := foldr (λ p n, param_size p + n)%N 0%N params.

Definition name_fits (param : BinaryParam) : bool :=
  bool_decide (len (param_name param) <= MAX_PARAM_NAME_LEN)%N.

Lemma payload_size_spec params n :
  payload_size params n =
  match List.find (λ p, negb (name_fits p)) params with
  | Some p => Err (ParamNameTooLong (param_name p))
  | None => Ok (n + params_size params)%N
  end.
Proof.
  revert n; induction params as [|p params IH]; intros n; simpl; [by rewrite N.add_0_r|].
  unfold name_fits at 1. case_decide as Hl.
  - by rewrite bool_decide_eq_false_2 by lia.
  - rewrite bool_decide_eq_true_2 by lia. simpl. rewrite IH.
    destruct (List.find _ params); [done|]. f_equal. unfold param_size.
    destruct (param_value p); lia.
Qed.

Lemma len_write_param p : len (write_param p) = param_size p.
Proof.
  unfold write_param, param_size. destruct (param_value p); rewrite len_cons, len_app;
    rewrite ?len_app; unfold len; rewrite ?length_to_le_bytes; simpl; lia.
Qed.

Lemma len_write_params params : len (params ≫= write_param) = params_size params.
Proof.
  induction params as [|p params IH]; [done|]. rewrite bind_cons, len_app, IH, len_write_param. done.
Qed.

Definition body_size (raw_body_len : option N) : N := match raw_body_len with Some _ => 8 | None => 0 end.

(** The bytes of a frame, with every length unchecked. *)
Definition frame_bytes (command : list byte) (params : list BinaryParam) (raw_body_len : option N)
    : list byte :=
  let payload := (len command + 2 + body_size raw_body_len + params_size params)%N in
  to_le_bytes 2 (as_u16 payload) ++
  [to_byte (match raw_body_len with Some _ => N.lor (len command) 128 | None => len command end)] ++
  match raw_body_len with Some body_len => to_le_bytes 8 body_len | None => [] end ++
  command ++ [to_byte (default U8_MAX (u8_try_from (len params)))] ++ (params ≫= write_param).

Lemma len_frame_bytes command params raw :
  len (frame_bytes command params raw) = (len command + 4 + body_size raw + params_size params)%N.
Proof.
  unfold frame_bytes. rewrite !len_app, len_write_params.
  destruct raw; unfold len, body_size; rewrite ?length_to_le_bytes; simpl; lia.
Qed.

Lemma encode_request_eq command params raw :
  encode_request command params raw =
  if decide (255 < len command)%N then Err CommandTooLong
  else
    match List.find (λ p, negb (name_fits p)) params with
    | Some p => Err (ParamNameTooLong (param_name p))
    | None =>
        if decide (65535 < len command + 4 + body_size raw + params_size params)%N
        then Err RequestTooLarge
        else Ok (mkEncodedRequest (mkRequestFrame command (len params)) params
                   (frame_bytes command params raw))
    end.
Proof.
  unfold encode_request, u8_try_from at 1. change U8_MAX with 255%N at 1.
  rewrite (decide_ext (255 < len command)%N (~ len command <= 255)%N) by lia.
  destruct (decide (len command <= 255)%N) as [Hc|Hc]; simpl;
    [rewrite decide_False by tauto|by rewrite decide_True].
  rewrite payload_size_spec. destruct (List.find _ params); simpl; [done|].
  change MAX_REQUEST_FRAME_LEN with 65535%N.
  destruct raw; unfold frame_bytes; cbn [body_size]; rewrite ?N.add_0_r;
    repeat case_decide; try lia; done.
Qed.

(** * Round trip *)

Lemma take_bytes_app l r : take_bytes (len l) (l ++ r) = Some (l, r).
Proof.
  unfold take_bytes. rewrite decide_True by (rewrite len_app; lia).
  unfold len. rewrite Nat2N.id, take_app_length, drop_app_length. done.
Qed.

Lemma take_bytes_le k n r : take_bytes (N.of_nat k) (to_le_bytes k n ++ r)%list = Some (to_le_bytes k n, r).
Proof.
  pose proof (take_bytes_app (to_le_bytes k n) r) as E. unfold len in E.
  by rewrite length_to_le_bytes in E.
Qed.

(** The values a [u64] or a [String] of the source can hold, within the wire's length fields. *)
Definition param_ok (p : BinaryParam) : Prop :=
  (len (param_name p) <= MAX_PARAM_NAME_LEN)%N /\
  match param_value p with
  | PString value => (len value <= U32_MAX)%N
  | PNumber n => (n <= U64_MAX)%N
  | PBool _ => True
  end.

Lemma header_split t n :
  (n < 64)%N -> (t < 4)%N ->
  N_of_ascii (to_byte (N.lor (as_u8 (N.shiftl t 6)) (as_u8 n))) = (n + t * 64)%N.
Proof.
  intros Hn Ht. unfold as_u8. rewrite N.shiftl_mul_pow2. change (2 ^ 6)%N with 64%N.
  change (2 ^ 8)%N with 256%N. rewrite !N.mod_small by lia.
  rewrite N.lor_comm. change 64%N with (2 ^ 6)%N at 1. rewrite <- N.shiftl_mul_pow2.
  rewrite lor_shiftl by done. change (2 ^ 6)%N with 64%N. apply N_of_to_byte_small. lia.
Qed.

Lemma decode_write_param p r : param_ok p -> decode_param (write_param p ++ r) = Some (p, r).
Proof.
  intros [Hn Hv]. unfold MAX_PARAM_NAME_LEN, U32_MAX, U64_MAX in *.
  destruct p as [name v]; simpl in *.
  unfold write_param; cbn [param_value param_name].
  destruct v as [value|n|b]; unfold decode_param; cbn [app]; rewrite header_split by lia;
    rewrite N.Div0.mod_add, N.mod_small, N.div_add, N.div_small by lia;
    rewrite <- !(assoc_L (++)), take_bytes_app; cbn [mbind option_bind N.add].
  - change 4%N with (N.of_nat 4). rewrite take_bytes_le. cbn [mbind option_bind].
    unfold as_u32. rewrite (N.mod_small (len value)) by lia.
    rewrite from_to_le_bytes_small by (cbn; lia). by rewrite take_bytes_app.
  - change 8%N with (N.of_nat 8). rewrite take_bytes_le. cbn [mbind option_bind].
    rewrite from_to_le_bytes_small; [done|cbn; lia].
  - pose proof (take_bytes_app [to_byte (if b then 1 else 0)] r) as E.
    change (len [_]) with 1%N in E. rewrite E. cbn [mbind option_bind]. destruct b; reflexivity.
Qed.

Lemma decode_write_params params r :
  Forall param_ok params ->
  decode_params (length params) ((params ≫= write_param) ++ r) = Some (params, r).
Proof.
  induction 1 as [|p params Hp _ IH]; [done|].
  rewrite bind_cons, <- (assoc_L (++)). cbn [length decode_params].
  rewrite decode_write_param by done. simpl. by rewrite IH.
Qed.

(** What the documented limits require of a request. *)
Definition request_ok (command : list byte) (params : list BinaryParam) (raw_body_len : option N)
    : Prop :=
  (len command <= 127)%N /\ (len params <= 255)%N /\
  Forall (λ p, match param_value p with PNumber n => (n <= U64_MAX)%N | _ => True end) params /\
  match raw_body_len with Some n => (n <= U64_MAX)%N | None => True end.

Lemma command_header (raw : option N) n :
  (n <= 127)%N ->
  N_of_ascii (to_byte (match raw with Some _ => N.lor n 128 | None => n end))
  = (n + match raw with Some _ => 128 | None => 0 end)%N.
Proof.
  intros Hn. destruct raw.
  - change 128%N with (N.shiftl 1 7) at 1. rewrite lor_shiftl by (cbn; lia).
    rewrite N_of_to_byte_small; cbn; lia.
  - rewrite N_of_to_byte_small; lia.
Qed.

Lemma params_fit params :
  List.find (λ p, negb (name_fits p)) params = None ->
  (params_size params <= 65535)%N ->
  Forall (λ p, match param_value p with PNumber n => (n <= U64_MAX)%N | _ => True end) params ->
  Forall param_ok params.
Proof.
  unfold name_fits. induction params as [|p params IH]; intros Hf Hs Hn; [constructor|].
  apply Forall_cons in Hn as [Hp Hn]. cbn [List.find] in Hf. simpl in Hs.
  case_bool_decide as Hl; [|done]. constructor; [|apply IH; [done|lia|done]].
  split; [done|]. unfold param_size in Hs. unfold U32_MAX. destruct (param_value p); try done.
  simpl. lia.
Qed.

(** The part of a frame after the length prefix. *)
Definition frame_payload (command : list byte) (params : list BinaryParam) (raw : option N)
    : list byte :=
  to_byte (match raw with Some _ => N.lor (len command) 128 | None => len command end) ::
  match raw with Some body_len => to_le_bytes 8 body_len | None => [] end ++
  command ++ to_byte (default U8_MAX (u8_try_from (len params))) :: (params ≫= write_param).

Lemma frame_bytes_payload command params raw :
  frame_bytes command params raw =
  to_le_bytes 2 (as_u16 (len (frame_payload command params raw))) ++ frame_payload command params raw.
Proof.
  unfold frame_bytes, frame_payload. do 2 f_equal. f_equal.
  rewrite len_cons, !len_app, len_cons, len_write_params.
  destruct raw; unfold len, body_size; rewrite ?length_to_le_bytes; simpl; lia.
Qed.

Lemma decode_payload_body raw l :
  match raw with Some n => (n <= U64_MAX)%N | None => True end ->
  (if decide (128 <= match raw with Some _ => 128 | None => 0 end)%N
   then '(n, p) ← take_bytes 8 (match raw with Some b => to_le_bytes 8 b | None => [] end ++ l);
        Some (Some (from_le_bytes n), p)
   else Some (None, match raw with Some b => to_le_bytes 8 b | None => [] end ++ l))
  = Some (raw, l).
Proof.
  intros Hr. destruct raw as [n|]; [|done].
  change 8%N with (N.of_nat 8). rewrite take_bytes_le. cbn [decide N.leb mbind option_bind].
  unfold U64_MAX in Hr. rewrite from_to_le_bytes_small; [done|cbn; lia].
Qed.

Lemma decode_frame command params raw rest :
  request_ok command params raw -> Forall param_ok params ->
  (len command + 4 + body_size raw + params_size params <= 65535)%N ->
  decode_request (frame_bytes command params raw ++ rest) = Some (command, params, raw, rest).
Proof.
  intros (Hc & Hp & _ & Hr) Hok Hsize. rewrite frame_bytes_payload.
  assert (len (frame_payload command params raw) <= 65533)%N as Hl.
  { pose proof (len_frame_bytes command params raw) as E.
    rewrite frame_bytes_payload, len_app in E. unfold len in E at 1.
    rewrite length_to_le_bytes in E. lia. }
  unfold decode_request. rewrite <- (assoc_L (++)).
  change 2%N with (N.of_nat 2). rewrite take_bytes_le. cbn [mbind option_bind].
  rewrite from_to_le_bytes_small by (unfold as_u16; rewrite N.mod_small by lia; cbn; lia).
  unfold as_u16. rewrite N.mod_small by lia. rewrite take_bytes_app. cbn [mbind option_bind].
  unfold frame_payload at 1. rewrite command_header by done.
  assert ((len command + match raw with Some _ => 128 | None => 0 end) mod 128 = len command)%N as Hm.
  { destruct raw; [rewrite <- (N.mul_1_l 128) at 1; rewrite N.Div0.mod_add|rewrite N.add_0_r];
      apply N.mod_small; lia. }
  rewrite Hm. rewrite (decide_ext _ (128 <= match raw with Some _ => 128 | None => 0 end)%N)
    by (destruct raw; lia).
  rewrite decode_payload_body by done. cbn [mbind option_bind].
  rewrite take_bytes_app. cbn [mbind option_bind].
  unfold u8_try_from. rewrite decide_True by done. cbn [default from_option id].
  rewrite N_of_to_byte_small by lia. unfold len at 1. rewrite Nat2N.id.
  pose proof (decode_write_params params [] Hok) as E. rewrite app_nil_r in E. by rewrite E.
Qed.

(** The encoder accepts exactly the requests whose command fits a byte, whose names fit the
    header and whose frame fits the length prefix; the first over-long name is reported; and an
    accepted frame has exactly the announced length, within the limit. *)
Theorem encode_request_spec command params raw :
  match encode_request command params raw with
  | Ok req =>
      (len command <= 255)%N /\ Forall (λ p, (len (param_name p) <= MAX_PARAM_NAME_LEN)%N) params /\
      len (req_bytes req) = (len command + 4 + body_size raw + params_size params)%N /\
      (len (req_bytes req) <= MAX_REQUEST_FRAME_LEN)%N /\
      req_params req = params /\ req_frame req = mkRequestFrame command (len params)
  | Err CommandTooLong => (255 < len command)%N
  | Err (ParamNameTooLong name) =>
      exists l1 p l2, params = l1 ++ p :: l2 /\ name = param_name p /\
        (MAX_PARAM_NAME_LEN < len name)%N /\
        Forall (λ q, (len (param_name q) <= MAX_PARAM_NAME_LEN)%N) l1
  | Err RequestTooLarge =>
      (MAX_REQUEST_FRAME_LEN < len command + 4 + body_size raw + params_size params)%N
  | Err _ => False
  end.
Proof.
  rewrite encode_request_eq. case_decide as Hc; [done|].
  assert (forall ps, match List.find (λ p, negb (name_fits p)) ps with
    | Some p => exists l1 l2, ps = l1 ++ p :: l2 /\ (MAX_PARAM_NAME_LEN < len (param_name p))%N /\
        Forall (λ q, (len (param_name q) <= MAX_PARAM_NAME_LEN)%N) l1
    | None => Forall (λ q, (len (param_name q) <= MAX_PARAM_NAME_LEN)%N) ps
    end) as Hfind.
  { induction ps as [|p ps IH]; [constructor|]. cbn [List.find]. unfold name_fits at 1.
    case_bool_decide as Hl; simpl negb; [|exists [], ps; repeat split; [lia|constructor]].
    destruct (List.find _ ps); [|by constructor].
    destruct IH as (l1 & l2 & -> & ? & ?). exists (p :: l1), l2. repeat split; [done|by constructor]. }
  specialize (Hfind params). destruct (List.find _ params) as [p|].
  - destruct Hfind as (l1 & l2 & ? & ? & ?). eauto 10.
  - case_decide as Hs; [done|]. cbn [req_bytes req_params req_frame]. rewrite len_frame_bytes.
    unfold MAX_REQUEST_FRAME_LEN, U16_MAX. repeat split; try done; lia.
Qed.

(** An accepted request decodes. *)
Lemma encoded_request_decodes command params raw req rest :
  request_ok command params raw -> encode_request command params raw = Ok req ->
  decode_request (req_bytes req ++ rest) = Some (command, params, raw, rest).
Proof.
  intros Hok Henc.
  rewrite encode_request_eq in Henc. destruct (decide _); [done|].
  destruct (List.find _ params) eqn:Hf; [done|]. case_decide as Hs; [done|].
  injection Henc as <-. cbn [req_bytes]. apply decode_frame; [done| |lia].
  destruct Hok as (_ & _ & Hn & _). apply params_fit; [done|lia|done].
Qed.

(** C34: Round trip: a request within the documented limits (command of at most 127 bytes, at most
    255 parameters) that encodes is decoded from the wire layout to exactly its command,
    parameters and body length, whatever bytes follow the frame. *)
Theorem request_round_trip command params raw req rest
  (Hok : request_ok command params raw) (Henc : encode_request command params raw = Ok req) :
  decode_request (req_bytes req ++ rest) = Some (command, params, raw, rest).
Proof. by apply encoded_request_decodes. Qed.

Definition login_params : list BinaryParam :=
  [mkParam (chars "username") (PString (chars "alice")); mkParam (chars "os") (PNumber 3);
   mkParam (chars "getauth") (PBool true)].

Lemma request_round_trip_witness :
  exists req, encode_request (chars "login") login_params (Some 77%N) = Ok req /\
    decode_request (req_bytes req ++ chars "next") =
      Some (chars "login", login_params, Some 77%N, chars "next").
Proof.
  eexists; split; [vm_compute; reflexivity|].
  apply (request_round_trip (chars "login") login_params (Some 77%N)); [|vm_compute; reflexivity].
  split; [vm_compute; discriminate|]. split; [vm_compute; discriminate|].
  split; [|vm_compute; discriminate].
  apply Forall_cons; split; [exact I|]. apply Forall_cons; split; [vm_compute; discriminate|].
  apply Forall_cons; split; [exact I|]. apply Forall_nil_2.
Defined.

(** Two requests that a decoder of the wire cannot tell apart: a command of 136 bytes, accepted
    although the header has seven bits for its length, and an upload with an eight-byte
    command, a body length and one parameter. *)
Definition long_command : list byte :=
  chars "bbbbbbbb" ++ chars "aaaaaaaa" ++ [to_byte 1; to_byte 0; to_byte 115; to_byte 0; to_byte 0; to_byte 0]
  ++ replicate 114 "c"%char.
Definition short_command : list byte := chars "aaaaaaaa".
Definition smuggled_param : BinaryParam := mkParam [] (PString (replicate 114 "c"%char ++ [to_byte 0])).

(** The encoder checks the command against 255 bytes, not the documented 127: a longer command
    sets the body flag, so two different requests have the same bytes; and beyond 255
    parameters the count byte saturates, so the frame does not decode. *)
Theorem encode_request_unchecked_limits :
  (exists req1 req2, encode_request long_command [] None = Ok req1 /\
     encode_request short_command [smuggled_param] (Some (from_le_bytes (chars "bbbbbbbb"))) = Ok req2 /\
     req_bytes req1 = req_bytes req2 /\ frame_command (req_frame req1) <> frame_command (req_frame req2)) /\
  (exists req, encode_request (chars "stat") (replicate 256 (mkParam [] (PBool true))) None = Ok req /\
     decode_request (req_bytes req) = None).
Proof.
  split.
  - do 2 eexists. split; [vm_compute; reflexivity|]. split; [vm_compute; reflexivity|].
    split; [vm_compute; reflexivity|]. vm_compute. discriminate.
  - eexists. split; vm_compute; reflexivity.
Qed.

(** The length prefix of a response is decoded exactly and bounded before the body is read. *)
Lemma parse_response_frame_len_spec n rest :
  (n <= U32_MAX)%N ->
  parse_response_frame_len (to_le_bytes 4 n ++ rest) =
  if decide (MAX_RESPONSE_FRAME_LEN < n)%N then Err (ResponseTooLarge n) else Ok n.
Proof.
  intros Hn. unfold U32_MAX in Hn. unfold parse_response_frame_len.
  pose proof (from_to_le_bytes_small 4 n ltac:(cbn; lia)) as E.
  pose proof (length_to_le_bytes 4 n) as Hl.
  destruct (to_le_bytes 4 n) as [|b0 [|b1 [|b2 [|b3 [|]]]]]; try done. cbn [app]. by rewrite E.
Qed.
