(* ===== verification/Response.v ===== *)
(** The response parser: crates/pcloud-proto/src/response.rs.

    The parser is a state-passing function over the frame and a cursor; [None] is running out
    of fuel, which [parse_response_total] shows never happens.  [usize] is 64 bits wide.
    [encodes] is the grammar of the wire format, written down independently of the parser, and
    [encode_value] an encoder for it. *)
From S2P Require Import Prelude Paths Bytes.

Inductive Value : Type :=
| VString (s : list byte)
| VNumber (n : N)
| VBool (b : bool)
| VArray (values : list Value)
| VHash (values : list (list byte * Value))
| VData (n : N).

Record ParseLimits : Type := mkParseLimits {
  max_frame_len : N;
  max_depth : N;
  max_array_len : N;
  max_hash_len : N;
  max_string_len : N;
  max_reused_strings : N;
}.

Definition ParseLimits_default : ParseLimits := {|
  max_frame_len := 1024 * 1024;
  max_depth := 32;
  max_array_len := 4096;
  max_hash_len := 4096;
  max_string_len := 64 * 1024;
  max_reused_strings := 4096;
|}.

Inductive ResponseParseError : Type :=
| TruncatedFrame
| FrameTooLarge
| UnexpectedEof
| InvalidTag (tag : N)
| NestingLimitExceeded
| ArrayLimitExceeded
| HashLimitExceeded
| StringTooLarge
| InvalidReuseReference (id : N)
| InvalidHashKeyType
| TrailingBytes.

Definition RPARAM_END : N := 255.

(** * Reading *)

Definition peek_u8 (bytes : list byte) (cursor : N) : result N ResponseParseError :=
  match bytes !! N.to_nat cursor with
  | Some b => Ok (N_of_ascii b)
  | None => Err UnexpectedEof
  end.

Definition read_u8 (bytes : list byte) (cursor : N) : result (N * N) ResponseParseError :=
  let? b := peek_u8 bytes cursor in Ok (b, cursor + 1)%N.

(** [bytes[start..end]] with the checks both readers make first. *)
Definition read_slice (bytes : list byte) (cursor n : N)
    : result (list byte * N) ResponseParseError :=
  let? end_ := ok_or (u64_checked_add cursor n) UnexpectedEof in
  if decide (len bytes < end_)%N then Err UnexpectedEof
  else Ok (take (N.to_nat n) (drop (N.to_nat cursor) bytes), end_).

(** [value |= (byte as u64) << (idx * 8)]. *)
Fixpoint or_bytes (idx : N) (l : list byte) (value : N) : N :=
  match l with
  | [] => value
  | b :: l' => or_bytes (idx + 1) l' (N.lor value (as_u64 (N.shiftl (N_of_ascii b) (idx * 8))))
  end.

Definition read_var_u64 (bytes : list byte) (cursor n : N) : result (N * N) ResponseParseError :=
  if decide (n = 0 \/ 8 < n)%N then Err UnexpectedEof
  else let? (s, end_) := read_slice bytes cursor n in Ok (or_bytes 0 s 0, end_).

Definition read_var_u32 (bytes : list byte) (cursor n : N) : result (N * N) ResponseParseError :=
  let? (v, cursor) := read_var_u64 bytes cursor n in Ok (as_u32 v, cursor).

Definition parsed : Type := Value * N * list (list byte).

Definition read_string (bytes : list byte) (cursor string_len : N) (limits : ParseLimits)
    (reused : list (list byte)) : result parsed ResponseParseError :=
  if decide (max_string_len limits < string_len)%N then Err StringTooLarge
  else
    let? (s, end_) := read_slice bytes cursor string_len in
    let value := from_utf8_lossy s in
    Ok (VString value, end_,
        if decide (len reused < max_reused_strings limits)%N then reused ++ [value] else reused).

Definition reused_string (id cursor : N) (reused : list (list byte))
    : result parsed ResponseParseError :=
  match reused !! N.to_nat id with
  | Some s => Ok (VString s, cursor, reused)
  | None => Err (InvalidReuseReference id)
  end.

(** * Parsing *)

Definition tag_in (lo hi tag : N) : bool := (lo <=? tag)%N && (tag <=? hi)%N.

(** The tags that do not recurse. *)
Definition parse_scalar (tag : N) (bytes : list byte) (cursor : N) (limits : ParseLimits)
    (reused : list (list byte)) : result parsed ResponseParseError :=
  if tag_in 0 3 tag then
    let? (string_len, cursor) := read_var_u32 bytes cursor (tag - 0 + 1) in
    read_string bytes cursor string_len limits reused
  else if tag_in 4 7 tag then
    let? (id, cursor) := read_var_u32 bytes cursor (tag - 4 + 1) in
    reused_string id cursor reused
  else if tag_in 8 15 tag then
    let? (n, cursor) := read_var_u64 bytes cursor (tag - 8 + 1) in
    Ok (VNumber n, cursor, reused)
  else if tag_in 18 18 tag then Ok (VBool false, cursor, reused)
  else if tag_in 19 19 tag then Ok (VBool true, cursor, reused)
  else if tag_in 20 20 tag then
    let? (n, cursor) := read_var_u64 bytes cursor 8 in Ok (VData n, cursor, reused)
  else if tag_in 100 149 tag then read_string bytes cursor (tag - 100) limits reused
  else if tag_in 150 199 tag then reused_string (tag - 150) cursor reused
  else if tag_in 200 219 tag then Ok (VNumber (tag - 200), cursor, reused)
  else Err (InvalidTag tag).

(** Sequencing with fuel: [None] is out of fuel. *)
Definition fuel_bind {A B} (m : option (result A ResponseParseError))
    (f : A -> option (result B ResponseParseError)) : option (result B ResponseParseError) :=
  match m with
  | Some (Ok a) => f a
  | Some (Err e) => Some (Err e)
  | None => None
  end.

Notation "'let!' p ':=' c1 'in' c2" := (fuel_bind c1 (fun p => c2))
  (at level 10, p pattern, c1 at level 200, c2 at level 200) : pcloud_scope.

Fixpoint parse_value (fuel : nat) (bytes : list byte) (cursor depth : N) (limits : ParseLimits)
    (reused : list (list byte)) : option (result parsed ResponseParseError) :=
  match fuel with
  | 0 => None
  | S fuel' =>
      if decide (max_depth limits < depth)%N then Some (Err NestingLimitExceeded)
      else
        let! (tag, cursor) := Some (read_u8 bytes cursor) in
        if tag_in 16 16 tag then parse_hash fuel' bytes cursor (depth + 1) limits reused []
        else if tag_in 17 17 tag then parse_array fuel' bytes cursor (depth + 1) limits reused []
        else Some (parse_scalar tag bytes cursor limits reused)
  end
with parse_array (fuel : nat) (bytes : list byte) (cursor depth : N) (limits : ParseLimits)
    (reused : list (list byte)) (values : list Value)
    : option (result parsed ResponseParseError) :=
  match fuel with
  | 0 => None
  | S fuel' =>
      let! b := Some (peek_u8 bytes cursor) in
      if decide (b = RPARAM_END) then Some (Ok (VArray values, (cursor + 1)%N, reused))
      else if decide (max_array_len limits <= len values)%N then Some (Err ArrayLimitExceeded)
      else
        let! (v, cursor, reused) := parse_value fuel' bytes cursor depth limits reused in
        parse_array fuel' bytes cursor depth limits reused (values ++ [v])
  end
with parse_hash (fuel : nat) (bytes : list byte) (cursor depth : N) (limits : ParseLimits)
    (reused : list (list byte)) (values : list (list byte * Value))
    : option (result parsed ResponseParseError) :=
  match fuel with
  | 0 => None
  | S fuel' =>
      let! b := Some (peek_u8 bytes cursor) in
      if decide (b = RPARAM_END) then Some (Ok (VHash values, (cursor + 1)%N, reused))
      else if decide (max_hash_len limits <= len values)%N then Some (Err HashLimitExceeded)
      else
        let! (k, cursor, reused) := parse_value fuel' bytes cursor depth limits reused in
        let! key := Some (match k with VString key => Ok key | _ => Err InvalidHashKeyType end) in
        let! (v, cursor, reused) := parse_value fuel' bytes cursor depth limits reused in
        parse_hash fuel' bytes cursor depth limits reused (values ++ [(key, v)])
  end.

(** Every value consumes a byte and every loop turn needs at most two units of fuel per byte. *)
Definition parse_fuel (bytes : list byte) : nat := 2 * length bytes + 2.

Definition parse_response_frame (bytes : list byte) (limits : ParseLimits)
    : option (result Value ResponseParseError) :=
  match bytes with
  | b0 :: b1 :: b2 :: b3 :: _ =>
      let frame_len := from_le_bytes [b0; b1; b2; b3] in
      if decide (max_frame_len limits < frame_len)%N then Some (Err FrameTooLarge)
      else if decide (len bytes < 4 + frame_len)%N then Some (Err TruncatedFrame)
      else
        let! (value, cursor, _) := parse_value (parse_fuel bytes) bytes 4 0 limits [] in
        if decide (cursor <> 4 + frame_len)%N then Some (Err TrailingBytes) else Some (Ok value)
  | _ => Some (Err TruncatedFrame)
  end.

(** * [Value] and [HashView] accessors *)

Definition as_hash (v : Value) : option (list (list byte * Value)) :=
  match v with VHash values => Some values | _ => None end.
Definition as_string (v : Value) : option (list byte) :=
  match v with VString s => Some s | _ => None end.
Definition as_number (v : Value) : option N :=
  match v with VNumber n | VData n => Some n | _ => None end.
Definition as_bool (v : Value) : option bool :=
  match v with VBool b => Some b | _ => None end.
Definition as_array (v : Value) : option (list Value) :=
  match v with VArray values => Some values | _ => None end.

Definition hash_get (view : list (list byte * Value)) (key : list byte) : option Value :=
  snd <$> List.find (λ kv, bool_decide (kv.1 = key)) view.
Definition get_string view key : option (list byte) := v ← hash_get view key; as_string v.
Definition get_number view key : option N := v ← hash_get view key; as_number v.
Definition get_bool view key : option bool := v ← hash_get view key; as_bool v.
Definition get_array view key : option (list Value) := v ← hash_get view key; as_array v.
Definition get_hash view key : option (list (list byte * Value)) := v ← hash_get view key; as_hash v.

(** * Reading: what success means *)

Lemma peek_u8_ok bytes c b :
  peek_u8 bytes c = Ok b -> (c < len bytes)%N /\ exists x, bytes !! N.to_nat c = Some x /\ b = N_of_ascii x.
Proof.
  unfold peek_u8. destruct (bytes !! N.to_nat c) as [x|] eqn:E; [|done]. intros [= <-].
  apply lookup_lt_Some in E as Hl. unfold len. split; [lia|eauto].
Qed.

Lemma read_u8_ok bytes c b c' :
  read_u8 bytes c = Ok (b, c') -> peek_u8 bytes c = Ok b /\ c' = (c + 1)%N /\ (c' <= len bytes)%N.
Proof.
  unfold read_u8. destruct (peek_u8 bytes c) as [x|] eqn:E; [|done]. simpl. intros [= <- <-].
  apply peek_u8_ok in E as [? _]. split; [done|]. split; [done|lia].
Qed.

Lemma read_slice_ok bytes c n s c' :
  read_slice bytes c n = Ok (s, c') ->
  c' = (c + n)%N /\ (c' <= len bytes)%N /\ s = take (N.to_nat n) (drop (N.to_nat c) bytes) /\ len s = n.
Proof.
  unfold read_slice, u64_checked_add. case_decide; [|done]. simpl. case_decide; [done|].
  intros [= <- <-]. repeat split; [lia|]. unfold len in *. rewrite length_take, length_drop. lia.
Qed.

Lemma or_bytes_spec l idx v :
  (v < 2 ^ (8 * idx))%N -> (idx + len l <= 8)%N ->
  or_bytes idx l v = (v + from_le_bytes l * 2 ^ (8 * idx))%N.
Proof.
  revert idx v; induction l as [|b l IH]; intros idx v Hv Hl.
  { cbn [or_bytes]. change (from_le_bytes []) with 0%N. lia. }
  rewrite len_cons in Hl. cbn [or_bytes].
  change (from_le_bytes (b :: l)) with (N_of_ascii b + 256 * from_le_bytes l)%N.
  pose proof (N_ascii_bounded b) as Hb.
  assert (N_of_ascii b * 2 ^ (idx * 8) < 2 ^ 64)%N as Hshift.
  { apply N.lt_le_trans with (256 * 2 ^ (idx * 8))%N.
    - apply N.mul_lt_mono_pos_r; [apply N.neq_0_lt_0, N.pow_nonzero; done|done].
    - change 256%N with (2 ^ 8)%N. rewrite <- N.pow_add_r. apply N.pow_le_mono_r; lia. }
  unfold as_u64. rewrite N.shiftl_mul_pow2, N.mod_small, <- N.shiftl_mul_pow2 by done.
  replace (idx * 8)%N with (8 * idx)%N by lia. rewrite lor_shiftl by done.
  replace (8 * (idx + 1))%N with (8 + 8 * idx)%N in * by lia.
  assert (2 ^ (8 + 8 * idx) = 256 * 2 ^ (8 * idx))%N as Hp by (rewrite N.pow_add_r; done).
  rewrite IH; replace (8 * (idx + 1))%N with (8 + 8 * idx)%N by lia; rewrite ?Hp; nia.
Qed.

Lemma read_var_u64_ok bytes c n v c' :
  read_var_u64 bytes c n = Ok (v, c') ->
  c' = (c + n)%N /\ (c' <= len bytes)%N /\ (v <= U64_MAX)%N /\
  exists s, read_slice bytes c n = Ok (s, c') /\ v = from_le_bytes s.
Proof.
  unfold read_var_u64. case_decide as Hn; [done|]. destruct (read_slice bytes c n) as [[s e]|] eqn:E; [|done].
  simpl. intros [= <- <-]. pose proof E as E'. apply read_slice_ok in E' as (-> & Hle & _ & Hs).
  rewrite or_bytes_spec by (cbn; lia). rewrite N.add_0_l, N.mul_1_r.
  repeat split; [done| |eauto].
  pose proof (from_le_bytes_bound s) as Hb. rewrite Hs in Hb.
  assert (256 ^ n <= 256 ^ 8)%N by (apply N.pow_le_mono_r; lia).
  change (256 ^ 8)%N with (U64_MAX + 1)%N in *. lia.
Qed.

(** * The bounds of a parsed value *)

(** [within strmax lim d v]: at depth [d], [v] respects the limits, its numbers are [u64], its
    strings are UTF-8 of at most [strmax] bytes. *)
Inductive within (strmax : N) (lim : ParseLimits) : N -> Value -> Prop :=
| within_string d s :
    (d <= max_depth lim)%N -> (len s <= strmax)%N -> valid_utf8 s = true ->
    within strmax lim d (VString s)
| within_number d n : (d <= max_depth lim)%N -> (n <= U64_MAX)%N -> within strmax lim d (VNumber n)
| within_bool d b : (d <= max_depth lim)%N -> within strmax lim d (VBool b)
| within_data d n : (d <= max_depth lim)%N -> (n <= U64_MAX)%N -> within strmax lim d (VData n)
| within_array d vs :
    (d <= max_depth lim)%N -> (len vs <= max_array_len lim)%N ->
    Forall (within strmax lim (d + 1)) vs -> within strmax lim d (VArray vs)
| within_hash d kvs :
    (d <= max_depth lim)%N -> (len kvs <= max_hash_len lim)%N ->
    Forall (λ kv, within strmax lim (d + 1) (VString kv.1) /\ within strmax lim (d + 1) kv.2) kvs ->
    within strmax lim d (VHash kvs).

(** The reuse table holds decoded strings and is bounded. *)
Definition table_ok (lim : ParseLimits) (reused : list (list byte)) : Prop :=
  Forall (λ s, valid_utf8 s = true /\ (len s <= 3 * max_string_len lim)%N) reused /\
  (len reused <= max_reused_strings lim)%N.

Lemma read_string_ok bytes c n lim ru v c' ru' :
  read_string bytes c n lim ru = Ok (v, c', ru') ->
  (c <= c' <= len bytes)%N /\
  exists s, v = VString s /\ valid_utf8 s = true /\ (len s <= 3 * max_string_len lim)%N /\
    (table_ok lim ru -> table_ok lim ru').
Proof.
  unfold read_string. case_decide as Hn; [done|].
  destruct (read_slice bytes c n) as [[s e]|] eqn:E; [|done]. cbn [result_bind]. intros [= <- <- <-].
  apply read_slice_ok in E as (-> & Hle & _ & Hs). split; [lia|].
  pose proof (lossy_is_valid s) as Hv. pose proof (lossy_length s) as Hlen.
  assert (len (from_utf8_lossy s) <= 3 * max_string_len lim)%N as Hb by (unfold len in *; lia).
  eexists. split; [done|]. split; [done|]. split; [done|]. intros [Ht Hm]. case_decide; [|done].
  split; [apply Forall_app; auto|]. rewrite len_app. unfold len in *; simpl. lia.
Qed.

Lemma reused_string_ok id c lim ru v c' ru' :
  reused_string id c ru = Ok (v, c', ru') ->
  c' = c /\ ru' = ru /\ exists s, v = VString s /\
    (table_ok lim ru -> valid_utf8 s = true /\ (len s <= 3 * max_string_len lim)%N).
Proof.
  unfold reused_string. destruct (ru !! N.to_nat id) as [s|] eqn:E; [|done]. intros [= <- <- <-].
  repeat split. exists s. split; [done|]. intros [Ht _]. by eapply Forall_lookup_1 in Ht.
Qed.

Lemma parse_scalar_ok tag bytes c d lim ru v c' ru' :
  parse_scalar tag bytes c lim ru = Ok (v, c', ru') ->
  (c <= len bytes)%N -> (d <= max_depth lim)%N -> (tag <= 255)%N ->
  (c <= c' <= len bytes)%N /\
  (table_ok lim ru -> within (3 * max_string_len lim) lim d v /\ table_ok lim ru').
Proof.
  intros Hp Hc Hd Htag. unfold parse_scalar in Hp.
  repeat match type of Hp with
  | (if tag_in ?a ?b tag then _ else _) = _ => destruct (tag_in a b tag) eqn:?
  end; try done.
  - apply result_bind_ok in Hp as ([n e] & Hn & Hp). unfold read_var_u32 in Hn.
    apply result_bind_ok in Hn as ([m e'] & Hm & [= <- <-]). apply read_var_u64_ok in Hm as (-> & Hle & _).
    apply read_string_ok in Hp as (? & s & -> & ? & ? & ?). split; [lia|]. intros Ht. split; [by constructor|auto].
  - apply result_bind_ok in Hp as ([n e] & Hn & Hp). unfold read_var_u32 in Hn.
    apply result_bind_ok in Hn as ([m e'] & Hm & [= <- <-]). apply read_var_u64_ok in Hm as (-> & Hle & _).
    apply (reused_string_ok _ _ lim) in Hp as (-> & -> & s & -> & Hs). split; [lia|].
    intros Ht. destruct (Hs Ht). split; [by constructor|done].
  - apply result_bind_ok in Hp as ([n e] & Hn & [= <- <- <-]).
    apply read_var_u64_ok in Hn as (-> & ? & ? & _). split; [lia|]. intros Ht. split; [by constructor|done].
  - injection Hp as <- <- <-. split; [lia|]. intros; split; [by constructor|done].
  - injection Hp as <- <- <-. split; [lia|]. intros; split; [by constructor|done].
  - apply result_bind_ok in Hp as ([n e] & Hn & [= <- <- <-]).
    apply read_var_u64_ok in Hn as (-> & ? & ? & _). split; [lia|]. intros Ht. split; [by constructor|done].
  - apply read_string_ok in Hp as (? & s & -> & ? & ? & ?). split; [lia|]. intros Ht. split; [by constructor|auto].
  - apply (reused_string_ok _ _ lim) in Hp as (-> & -> & s & -> & Hs). split; [lia|].
    intros Ht. destruct (Hs Ht). split; [by constructor|done].
  - injection Hp as <- <- <-. split; [lia|]. intros; split; [|done]. constructor; [done|].
    unfold U64_MAX. lia.
Qed.

(** * Success of the recursive functions *)

Lemma fuel_bind_ok {A B} (m : option (result A ResponseParseError)) (f : A -> option (result B ResponseParseError)) b :
  fuel_bind m f = Some (Ok b) <-> exists a, m = Some (Ok a) /\ f a = Some (Ok b).
Proof.
  destruct m as [[a|e]|]; simpl; split; [eauto|by intros (? & [= <-] & ?)|done| |done|];
    by intros (? & ? & ?).
Qed.

Lemma tag_in_same k tag : tag_in k k tag = true <-> tag = k.
Proof. unfold tag_in. rewrite andb_true_iff, !N.leb_le. lia. Qed.

(** One unfolding of each function, on success. *)
Lemma parse_value_S fuel bytes c d lim ru r :
  parse_value (S fuel) bytes c d lim ru = Some (Ok r) ->
  (d <= max_depth lim)%N /\ exists tag,
    peek_u8 bytes c = Ok tag /\ (c + 1 <= len bytes)%N /\
    (if tag_in 16 16 tag then parse_hash fuel bytes (c + 1) (d + 1) lim ru []
     else if tag_in 17 17 tag then parse_array fuel bytes (c + 1) (d + 1) lim ru []
     else Some (parse_scalar tag bytes (c + 1) lim ru)) = Some (Ok r).
Proof.
  cbn [parse_value]. case_decide as Hd; [done|]. intros Hp.
  apply fuel_bind_ok in Hp as ([tag c1] & [= Ht] & Hp). apply read_u8_ok in Ht as (Ht & -> & Hle).
  split; [lia|]. eauto.
Qed.

Lemma parse_array_S fuel bytes c d lim ru vs r :
  parse_array (S fuel) bytes c d lim ru vs = Some (Ok r) ->
  exists b, peek_u8 bytes c = Ok b /\ (c + 1 <= len bytes)%N /\
    if decide (b = RPARAM_END) then r = (VArray vs, (c + 1)%N, ru)
    else (len vs < max_array_len lim)%N /\ exists v c1 ru1,
      parse_value fuel bytes c d lim ru = Some (Ok (v, c1, ru1)) /\
      parse_array fuel bytes c1 d lim ru1 (vs ++ [v]) = Some (Ok r).
Proof.
  cbn [parse_array]. intros Hp. apply fuel_bind_ok in Hp as (b & [= Hb] & Hp).
  exists b. split; [done|]. apply peek_u8_ok in Hb as [Hlt _]. split; [lia|].
  case_decide; [by injection Hp as <-|]. case_decide; [done|]. split; [lia|].
  apply fuel_bind_ok in Hp as ([[v c1] ru1] & Hv & Hp). eauto 10.
Qed.

Lemma parse_hash_S fuel bytes c d lim ru kvs r :
  parse_hash (S fuel) bytes c d lim ru kvs = Some (Ok r) ->
  exists b, peek_u8 bytes c = Ok b /\ (c + 1 <= len bytes)%N /\
    if decide (b = RPARAM_END) then r = (VHash kvs, (c + 1)%N, ru)
    else (len kvs < max_hash_len lim)%N /\ exists k c1 ru1 v c2 ru2,
      parse_value fuel bytes c d lim ru = Some (Ok (VString k, c1, ru1)) /\
      parse_value fuel bytes c1 d lim ru1 = Some (Ok (v, c2, ru2)) /\
      parse_hash fuel bytes c2 d lim ru2 (kvs ++ [(k, v)]) = Some (Ok r).
Proof.
  cbn [parse_hash]. intros Hp. apply fuel_bind_ok in Hp as (b & [= Hb] & Hp).
  exists b. split; [done|]. apply peek_u8_ok in Hb as [Hlt _]. split; [lia|].
  case_decide; [by injection Hp as <-|]. case_decide; [done|]. split; [lia|].
  apply fuel_bind_ok in Hp as ([[k c1] ru1] & Hk & Hp).
  apply fuel_bind_ok in Hp as (key & [= Hkey] & Hp).
  destruct k as [key'| | | | |]; try done. injection Hkey as ->.
  apply fuel_bind_ok in Hp as ([[v c2] ru2] & Hv & Hp). eauto 15.
Qed.

Lemma peek_u8_bound bytes c b : peek_u8 bytes c = Ok b -> (b <= 255)%N.
Proof. intros (_ & x & _ & ->)%peek_u8_ok. pose proof (N_ascii_bounded x). lia. Qed.

(** Success moves the cursor forward, stays in the buffer and yields a bounded value. *)
Lemma parse_ok fuel :
  (forall bytes c d lim ru v c' ru',
     parse_value fuel bytes c d lim ru = Some (Ok (v, c', ru')) ->
     (c < c' <= len bytes)%N /\
     (table_ok lim ru -> within (3 * max_string_len lim) lim d v /\ table_ok lim ru')) /\
  (forall bytes c d lim ru vs v c' ru',
     parse_array fuel bytes c d lim ru vs = Some (Ok (v, c', ru')) ->
     (c < c' <= len bytes)%N /\
     (table_ok lim ru -> Forall (within (3 * max_string_len lim) lim d) vs ->
      (len vs <= max_array_len lim)%N ->
      exists vs', v = VArray vs' /\ Forall (within (3 * max_string_len lim) lim d) vs' /\
        (len vs' <= max_array_len lim)%N /\ table_ok lim ru')) /\
  (forall bytes c d lim ru kvs v c' ru',
     parse_hash fuel bytes c d lim ru kvs = Some (Ok (v, c', ru')) ->
     (c < c' <= len bytes)%N /\
     (table_ok lim ru ->
      Forall (λ kv, within (3 * max_string_len lim) lim d (VString kv.1) /\
                    within (3 * max_string_len lim) lim d kv.2) kvs ->
      (len kvs <= max_hash_len lim)%N ->
      exists kvs', v = VHash kvs' /\
        Forall (λ kv, within (3 * max_string_len lim) lim d (VString kv.1) /\
                      within (3 * max_string_len lim) lim d kv.2) kvs' /\
        (len kvs' <= max_hash_len lim)%N /\ table_ok lim ru')).
Proof.
  induction fuel as [|fuel (IHv & IHa & IHh)]; [done|]. split; [|split].
  - intros bytes c d lim ru v c' ru' Hp. apply parse_value_S in Hp as (Hd & tag & Ht & Hle & Hp).
    destruct (tag_in 16 16 tag); [|destruct (tag_in 17 17 tag)].
    + apply IHh in Hp as [Hc Hw]. split; [lia|]. intros Htab.
      destruct (Hw Htab (List.Forall_nil _) ltac:(rewrite len_nil; lia)) as (kvs & -> & ? & ? & ?).
      split; [by constructor|done].
    + apply IHa in Hp as [Hc Hw]. split; [lia|]. intros Htab.
      destruct (Hw Htab (List.Forall_nil _) ltac:(rewrite len_nil; lia)) as (vs & -> & ? & ? & ?).
      split; [by constructor|done].
    + injection Hp as Hp. apply peek_u8_bound in Ht.
      eapply parse_scalar_ok in Hp as [Hc Hw]; [|done..]. split; [lia|done].
  - intros bytes c d lim ru vs v c' ru' Hp. apply parse_array_S in Hp as (b & _ & Hle & Hp).
    case_decide; [injection Hp as -> -> ->; split; [lia|eauto]|].
    destruct Hp as (Hlen & x & c1 & ru1 & Hx & Hp). apply IHv in Hx as [Hc1 Hx].
    apply IHa in Hp as [Hc Hp]. split; [lia|]. intros Htab Hvs Hl. destruct (Hx Htab) as [Hw Htab1].
    apply Hp; [done|apply Forall_app; auto|rewrite len_app; unfold len in *; simpl; lia].
  - intros bytes c d lim ru kvs v c' ru' Hp. apply parse_hash_S in Hp as (b & _ & Hle & Hp).
    case_decide; [injection Hp as -> -> ->; split; [lia|eauto]|].
    destruct Hp as (Hlen & k & c1 & ru1 & x & c2 & ru2 & Hk & Hx & Hp).
    apply IHv in Hk as [Hc1 Hk]. apply IHv in Hx as [Hc2 Hx].
    apply IHh in Hp as [Hc Hp]. split; [lia|]. intros Htab Hvs Hl.
    destruct (Hk Htab) as [Hwk Htab1]. destruct (Hx Htab1) as [Hw Htab2].
    apply Hp; [done|apply Forall_app; auto|rewrite len_app; unfold len in *; simpl; lia].
Qed.

(** * Totality *)

Lemma parse_total_fuel fuel :
  (forall bytes c d lim ru, 2 * (length bytes - N.to_nat c) + 1 <= fuel ->
     exists r, parse_value fuel bytes c d lim ru = Some r) /\
  (forall bytes c d lim ru vs, 2 * (length bytes - N.to_nat c) + 2 <= fuel ->
     exists r, parse_array fuel bytes c d lim ru vs = Some r) /\
  (forall bytes c d lim ru kvs, 2 * (length bytes - N.to_nat c) + 2 <= fuel ->
     exists r, parse_hash fuel bytes c d lim ru kvs = Some r).
Proof.
  induction fuel as [|fuel (IHv & IHa & IHh)]; [repeat split; intros; lia|].
  pose proof (parse_ok fuel) as (Hv & _ & _). split; [|split].
  - intros bytes c d lim ru Hf. cbn [parse_value]. case_decide; [eauto|].
    destruct (read_u8 bytes c) as [[tag c1]|] eqn:E; simpl; [|eauto].
    apply read_u8_ok in E as (_ & -> & Hle). unfold len in Hle.
    destruct (tag_in 16 16 tag); [apply IHh; lia|]. destruct (tag_in 17 17 tag); [apply IHa; lia|eauto].
  - intros bytes c d lim ru vs Hf. cbn [parse_array].
    destruct (peek_u8 bytes c) as [b|] eqn:E; simpl; [|eauto]. apply peek_u8_ok in E as [Hlt _].
    unfold len in Hlt. case_decide; [eauto|]. case_decide; [eauto|].
    destruct (IHv bytes c d lim ru) as [[[[v c1] ru1]|e] Ep]; [lia| |rewrite Ep; simpl; eauto].
    rewrite Ep. simpl. apply Hv in Ep as [Hc _]. apply IHa. lia.
  - intros bytes c d lim ru kvs Hf. cbn [parse_hash].
    destruct (peek_u8 bytes c) as [b|] eqn:E; simpl; [|eauto]. apply peek_u8_ok in E as [Hlt _].
    unfold len in Hlt. case_decide; [eauto|]. case_decide; [eauto|].
    destruct (IHv bytes c d lim ru) as [[[[k c1] ru1]|e] Ep]; [lia| |rewrite Ep; simpl; eauto].
    rewrite Ep. simpl. apply Hv in Ep as [Hc _]. destruct k; simpl; try by eauto.
    destruct (IHv bytes c1 d lim ru1) as [[[[v c2] ru2]|e] Ep2]; [lia| |rewrite Ep2; simpl; eauto].
    rewrite Ep2. simpl. apply Hv in Ep2 as [Hc2 _]. apply IHh. lia.
Qed.

(** [parse_response_total] for the proofs of other files. *)
Lemma parse_response_bounded bytes lim :
  exists r, parse_response_frame bytes lim = Some r /\
    match r with
    | Ok v => within (3 * max_string_len lim) lim 0 v /\
              exists n, n = from_le_bytes (take 4 bytes) /\ (n <= max_frame_len lim)%N /\
                        (4 + n <= len bytes)%N
    | Err _ => True
    end.
Proof.
  unfold parse_response_frame.
  destruct bytes as [|b0 [|b1 [|b2 [|b3 rest]]]]; try (eexists; split; [reflexivity|exact I]).
  set (bytes := b0 :: b1 :: b2 :: b3 :: rest). change (take 4 bytes) with [b0; b1; b2; b3].
  set (n := from_le_bytes [b0; b1; b2; b3]).
  case_decide; [eexists; split; [reflexivity|exact I]|].
  case_decide; [eexists; split; [reflexivity|exact I]|].
  destruct (parse_total_fuel (parse_fuel bytes)) as (Htot & _ & _).
  destruct (Htot bytes 4%N 0%N lim []) as [[[[v c] ru]|e] E]; [unfold parse_fuel; lia| |].
  - rewrite E. cbn [fuel_bind]. case_decide; [eexists; split; [reflexivity|exact I]|]. eexists; split; [done|].
    apply parse_ok in E as [Hc Hw]. destruct Hw as [Hw _]; [by split; [constructor|rewrite len_nil; lia]|].
    split; [done|]. exists n. split; [done|]. split; lia.
  - rewrite E. eexists; split; [reflexivity|exact I].
Qed.

(** C32: The parser is total on every input and every limits, and what it accepts is bounded: the body of
    the frame by [max_frame_len] (the four bytes of the length prefix are not counted, though the
    field's documentation includes them), the nesting depth, the array and hash lengths by their
    limits; numbers fit [u64]; every string is valid UTF-8 and at most three times as long as
    [max_string_len], which bounds its raw bytes (an invalid byte becomes a replacement character of
    three). *)
Theorem parse_response_total bytes lim :
  exists r, parse_response_frame bytes lim = Some r /\
    match r with
    | Ok v => within (3 * max_string_len lim) lim 0 v /\
              exists n, n = from_le_bytes (take 4 bytes) /\ (n <= max_frame_len lim)%N /\
                        (4 + n <= len bytes)%N
    | Err _ => True
    end.
Proof. apply parse_response_bounded. Qed.

(** * The wire format

    The grammar of the tags ([RPARAM_*] of the source), written down from the side of the bytes:
    [encodes lim ru d v l ru'] says that [l] is an encoding of [v] at depth [d] under the limits,
    when the strings seen before are [ru], and that [ru'] are those seen afterwards. *)

(** A string is remembered for later references until the table is full. *)
Definition remember (lim : ParseLimits) (s : list byte) (ru : list (list byte)) : list (list byte) :=
  if decide (len ru < max_reused_strings lim)%N then ru ++ [s] else ru.

(** A string travels as raw bytes and is read as UTF-8, invalid bytes replaced. *)
Inductive scalar_encoding (lim : ParseLimits) (ru : list (list byte))
    : Value -> list byte -> list (list byte) -> Prop :=
| enc_string k raw :
    1 <= k <= 4 -> (len raw < 256 ^ N.of_nat k)%N -> (len raw <= max_string_len lim)%N ->
    scalar_encoding lim ru (VString (from_utf8_lossy raw))
      (to_byte (N.of_nat k - 1) :: to_le_bytes k (len raw) ++ raw) (remember lim (from_utf8_lossy raw) ru)
| enc_short_string raw :
    (len raw <= 49)%N -> (len raw <= max_string_len lim)%N ->
    scalar_encoding lim ru (VString (from_utf8_lossy raw))
      (to_byte (100 + len raw) :: raw) (remember lim (from_utf8_lossy raw) ru)
| enc_reused k id s :
    1 <= k <= 4 -> (id < 256 ^ N.of_nat k)%N -> ru !! N.to_nat id = Some s ->
    scalar_encoding lim ru (VString s) (to_byte (N.of_nat k + 3) :: to_le_bytes k id) ru
| enc_short_reused id s :
    (id <= 49)%N -> ru !! N.to_nat id = Some s ->
    scalar_encoding lim ru (VString s) [to_byte (150 + id)] ru
| enc_number k n :
    1 <= k <= 8 -> (n < 256 ^ N.of_nat k)%N ->
    scalar_encoding lim ru (VNumber n) (to_byte (N.of_nat k + 7) :: to_le_bytes k n) ru
| enc_small_number n :
    (n <= 19)%N -> scalar_encoding lim ru (VNumber n) [to_byte (200 + n)] ru
| enc_bool (b : bool) : scalar_encoding lim ru (VBool b) [to_byte (if b then 19 else 18)] ru
| enc_data n :
    (n <= U64_MAX)%N -> scalar_encoding lim ru (VData n) (to_byte 20 :: to_le_bytes 8 n) ru.

Inductive encodes (lim : ParseLimits)
    : list (list byte) -> N -> Value -> list byte -> list (list byte) -> Prop :=
| enc_scalar ru d v l ru' :
    (d <= max_depth lim)%N -> scalar_encoding lim ru v l ru' -> encodes lim ru d v l ru'
| enc_array ru d vs l ru' :
    (d <= max_depth lim)%N -> (len vs <= max_array_len lim)%N -> encodes_items lim ru (d + 1) vs l ru' ->
    encodes lim ru d (VArray vs) (to_byte 17 :: l ++ [to_byte RPARAM_END]) ru'
| enc_hash ru d kvs l ru' :
    (d <= max_depth lim)%N -> (len kvs <= max_hash_len lim)%N -> encodes_pairs lim ru (d + 1) kvs l ru' ->
    encodes lim ru d (VHash kvs) (to_byte 16 :: l ++ [to_byte RPARAM_END]) ru'
with encodes_items (lim : ParseLimits)
    : list (list byte) -> N -> list Value -> list byte -> list (list byte) -> Prop :=
| items_nil ru d : encodes_items lim ru d [] [] ru
| items_cons ru d v vs l1 ru1 l2 ru2 :
    encodes lim ru d v l1 ru1 -> encodes_items lim ru1 d vs l2 ru2 ->
    encodes_items lim ru d (v :: vs) (l1 ++ l2) ru2
with encodes_pairs (lim : ParseLimits)
    : list (list byte) -> N -> list (list byte * Value) -> list byte -> list (list byte) -> Prop :=
| pairs_nil ru d : encodes_pairs lim ru d [] [] ru
| pairs_cons ru d k v kvs l1 ru1 l2 ru2 l3 ru3 :
    encodes lim ru d (VString k) l1 ru1 -> encodes lim ru1 d v l2 ru2 -> encodes_pairs lim ru2 d kvs l3 ru3 ->
    encodes_pairs lim ru d ((k, v) :: kvs) (l1 ++ l2 ++ l3) ru3.

Scheme encodes_mutual := Minimality for encodes Sort Prop
  with encodes_items_mutual := Minimality for encodes_items Sort Prop
  with encodes_pairs_mutual := Minimality for encodes_pairs Sort Prop.
Combined Scheme encodes_ind3 from encodes_mutual, encodes_items_mutual, encodes_pairs_mutual.

#[local] Hint Constructors scalar_encoding encodes encodes_items encodes_pairs : wire.

(** * Every encoding is parsed *)

(** [l] is what the buffer holds at the cursor, followed by [post]. *)
Definition holds_at (bytes : list byte) (c : N) (l post : list byte) : Prop :=
  drop (N.to_nat c) bytes = l ++ post.

Lemma holds_at_app bytes c l1 l2 post :
  holds_at bytes c (l1 ++ l2) post <-> holds_at bytes c l1 (l2 ++ post).
Proof. unfold holds_at. by rewrite <- (assoc_L (++)). Qed.

Lemma holds_at_next bytes c l post :
  holds_at bytes c l post -> holds_at bytes (c + len l) [] post.
Proof.
  unfold holds_at, len. intros Hd. rewrite N2Nat.inj_add, Nat2N.id, <- drop_drop, Hd.
  by rewrite drop_app_length.
Qed.

Lemma holds_at_skip bytes c l1 l2 post :
  holds_at bytes c (l1 ++ l2) post -> holds_at bytes (c + len l1) l2 post.
Proof. intros Hh%holds_at_app. by apply holds_at_next in Hh. Qed.

Lemma holds_at_tail bytes c x l post : holds_at bytes c (x :: l) post -> holds_at bytes (c + 1) l post.
Proof. apply (holds_at_skip _ _ [x]). Qed.

Lemma holds_at_bound bytes c l post : l <> [] -> holds_at bytes c l post -> (c + len l <= len bytes)%N.
Proof.
  unfold holds_at, len. intros Hne Hd. apply (f_equal length) in Hd.
  rewrite length_drop, length_app in Hd. destruct l; [done|]. simpl length in *. lia.
Qed.

Lemma peek_holds bytes c x l post : holds_at bytes c (x :: l) post -> peek_u8 bytes c = Ok (N_of_ascii x).
Proof.
  unfold holds_at, peek_u8. intros Hd.
  assert (drop (N.to_nat c) bytes !! 0 = Some x) as E by (by rewrite Hd).
  rewrite lookup_drop, Nat.add_0_r in E. by rewrite E.
Qed.

Lemma read_slice_holds bytes c l post :
  (len bytes <= U64_MAX)%N -> (c <= len bytes)%N -> holds_at bytes c l post ->
  read_slice bytes c (len l) = Ok (l, (c + len l)%N).
Proof.
  intros Hb Hc Hh. unfold read_slice, u64_checked_add.
  assert (c + len l <= len bytes)%N as Hle.
  { destruct l; [rewrite len_nil; lia|]. by apply (holds_at_bound _ _ _ post). }
  rewrite decide_True by lia. simpl. rewrite decide_False by lia. do 2 f_equal.
  unfold holds_at in Hh. rewrite Hh. unfold len. by rewrite Nat2N.id, take_app_length.
Qed.

Lemma len_to_le_bytes k n : len (to_le_bytes k n) = N.of_nat k.
Proof. unfold len. by rewrite length_to_le_bytes. Qed.

Lemma read_var_holds bytes c k n post :
  (len bytes <= U64_MAX)%N -> (c <= len bytes)%N -> 1 <= k <= 8 -> (n < 256 ^ N.of_nat k)%N ->
  holds_at bytes c (to_le_bytes k n) post ->
  read_var_u64 bytes c (N.of_nat k) = Ok (n, (c + N.of_nat k)%N).
Proof.
  intros Hb Hc Hk Hn Hh. unfold read_var_u64. rewrite decide_False by lia.
  pose proof (read_slice_holds _ _ _ _ Hb Hc Hh) as E. rewrite len_to_le_bytes in E.
  rewrite E. cbn [result_bind]. rewrite or_bytes_spec; [|cbn; lia|rewrite len_to_le_bytes; lia].
  rewrite from_to_le_bytes_small by done. do 2 f_equal. lia.
Qed.

Lemma read_var32_holds bytes c k n post :
  (len bytes <= U64_MAX)%N -> (c <= len bytes)%N -> 1 <= k <= 4 -> (n < 256 ^ N.of_nat k)%N ->
  holds_at bytes c (to_le_bytes k n) post ->
  read_var_u32 bytes c (N.of_nat k) = Ok (n, (c + N.of_nat k)%N).
Proof.
  intros Hb Hc Hk Hn Hh. unfold read_var_u32. rewrite (read_var_holds _ _ _ n post) by (done || lia).
  cbn [result_bind]. unfold as_u32. rewrite N.mod_small; [done|].
  eapply N.lt_le_trans; [exact Hn|]. change (2 ^ 32)%N with (256 ^ 4)%N. apply N.pow_le_mono_r; lia.
Qed.

Lemma read_string_holds bytes c raw post lim ru :
  (len bytes <= U64_MAX)%N -> (c <= len bytes)%N -> (len raw <= max_string_len lim)%N ->
  holds_at bytes c raw post ->
  read_string bytes c (len raw) lim ru =
    Ok (VString (from_utf8_lossy raw), (c + len raw)%N, remember lim (from_utf8_lossy raw) ru).
Proof.
  intros Hb Hc Hl Hh. unfold read_string. rewrite decide_False by lia.
  by rewrite (read_slice_holds _ _ _ post).
Qed.

Lemma tag_in_spec lo hi tag : tag_in lo hi tag = bool_decide (lo <= tag <= hi)%N.
Proof.
  unfold tag_in. apply eq_bool_prop_intro. rewrite andb_True, bool_decide_spec, !Is_true_true, !N.leb_le. done.
Qed.

(** Decide the tests of a tag by arithmetic. *)
Ltac tag_cases :=
  repeat match goal with
  | |- context [tag_in ?lo ?hi ?tag] =>
      rewrite (tag_in_spec lo hi tag);
      first [rewrite (bool_decide_true (lo <= tag <= hi)%N) by lia
            |rewrite (bool_decide_false (lo <= tag <= hi)%N) by lia]; cbn iota
  end.

Lemma parse_scalar_complete lim ru v l ru' :
  scalar_encoding lim ru v l ru' ->
  exists tag body, l = to_byte tag :: body /\ (tag < 220)%N /\ (tag < 16 \/ 17 < tag)%N /\
    forall bytes c post, (len bytes <= U64_MAX)%N -> (c <= len bytes)%N -> holds_at bytes c body post ->
      parse_scalar tag bytes c lim ru = Ok (v, (c + len body)%N, ru').
Proof.
  intros He. destruct He as [k raw Hk Hl Hm|raw Hl Hm|k id s Hk Hid Hs|id s Hid Hs|k n Hk Hn|n Hn|b|n Hn];
    do 2 eexists; (split; [reflexivity|]).
  - split; [lia|]. split; [lia|]. intros bytes c post Hb Hc Hh. unfold parse_scalar. tag_cases.
    replace (N.of_nat k - 1 - 0 + 1)%N with (N.of_nat k) by lia.
    rewrite (read_var32_holds _ _ _ (len raw) _ Hb Hc Hk Hl (proj1 (holds_at_app _ _ _ _ _) Hh)).
    cbn [result_bind]. assert (to_le_bytes k (len raw) ++ raw <> []) as Hne by (destruct k; [lia|done]).
    pose proof (holds_at_bound _ _ _ _ Hne Hh) as Hle. rewrite len_app, len_to_le_bytes in Hle |- *.
    apply holds_at_skip in Hh. rewrite len_to_le_bytes in Hh.
    rewrite (read_string_holds _ _ _ post) by (done || lia). do 2 f_equal. f_equal. lia.
  - split; [lia|]. split; [lia|]. intros bytes c post Hb Hc Hh. unfold parse_scalar. tag_cases.
    replace (100 + len raw - 100)%N with (len raw) by lia. by apply (read_string_holds _ _ _ post).
  - split; [lia|]. split; [lia|]. intros bytes c post Hb Hc Hh. unfold parse_scalar. tag_cases.
    replace (N.of_nat k + 3 - 4 + 1)%N with (N.of_nat k) by lia.
    rewrite (read_var32_holds _ _ _ id post) by done. cbn [result_bind]. unfold reused_string.
    by rewrite Hs, len_to_le_bytes.
  - split; [lia|]. split; [lia|]. intros bytes c post Hb Hc Hh. unfold parse_scalar. tag_cases.
    replace (150 + id - 150)%N with id by lia. unfold reused_string. by rewrite Hs, len_nil, N.add_0_r.
  - split; [lia|]. split; [lia|]. intros bytes c post Hb Hc Hh. unfold parse_scalar. tag_cases.
    replace (N.of_nat k + 7 - 8 + 1)%N with (N.of_nat k) by lia.
    rewrite (read_var_holds _ _ _ n post) by done. by rewrite len_to_le_bytes.
  - split; [lia|]. split; [lia|]. intros bytes c post Hb Hc Hh. unfold parse_scalar. tag_cases.
    replace (200 + n - 200)%N with n by lia. by rewrite len_nil, N.add_0_r.
  - split; [by destruct b|]. split; [destruct b; lia|]. intros bytes c post Hb Hc Hh.
    change (len []) with 0%N. rewrite N.add_0_r. by destruct b.
  - split; [done|]. split; [lia|]. intros bytes c post Hb Hc Hh. unfold parse_scalar. tag_cases.
    change 8%N with (N.of_nat 8) at 1. rewrite (read_var_holds _ _ _ n post);
      [by rewrite len_to_le_bytes|done|done|lia| |done].
    unfold U64_MAX in Hn. cbn. lia.
Qed.

(** The first byte of an encoding is not the end marker. *)
Definition opens (l : list byte) : Prop := exists tag l', l = to_byte tag :: l' /\ (tag < 255)%N.

Lemma peek_opens bytes c l post : opens l -> holds_at bytes c l post ->
  exists b, peek_u8 bytes c = Ok b /\ b <> RPARAM_END.
Proof.
  intros (tag & l' & -> & Ht) Hh. exists tag. rewrite (peek_holds _ _ _ _ _ Hh), N_of_to_byte_small by lia.
  split; [done|]. unfold RPARAM_END. lia.
Qed.

Lemma opens_length l : opens l -> 1 <= length l.
Proof. intros (tag & l' & -> & _). simpl. lia. Qed.

Lemma parse_value_step fuel bytes c d lim ru tag l post :
  (tag < 256)%N -> (d <= max_depth lim)%N -> holds_at bytes c (to_byte tag :: l) post ->
  parse_value (S fuel) bytes c d lim ru =
  if tag_in 16 16 tag then parse_hash fuel bytes (c + 1) (d + 1) lim ru []
  else if tag_in 17 17 tag then parse_array fuel bytes (c + 1) (d + 1) lim ru []
  else Some (parse_scalar tag bytes (c + 1) lim ru).
Proof.
  intros Ht Hd Hh. cbn [parse_value]. rewrite decide_False by lia.
  unfold read_u8. rewrite (peek_holds _ _ _ _ _ Hh). cbn [result_bind fuel_bind].
  by rewrite N_of_to_byte_small.
Qed.

Lemma parse_array_end fuel bytes c d lim ru acc post :
  holds_at bytes c [to_byte RPARAM_END] post ->
  parse_array (S fuel) bytes c d lim ru acc = Some (Ok (VArray acc, (c + 1)%N, ru)).
Proof.
  intros Hh. cbn [parse_array]. rewrite (peek_holds _ _ _ _ _ Hh), N_of_to_byte_small by done.
  cbn [fuel_bind]. by rewrite decide_True.
Qed.

Lemma parse_hash_end fuel bytes c d lim ru acc post :
  holds_at bytes c [to_byte RPARAM_END] post ->
  parse_hash (S fuel) bytes c d lim ru acc = Some (Ok (VHash acc, (c + 1)%N, ru)).
Proof.
  intros Hh. cbn [parse_hash]. rewrite (peek_holds _ _ _ _ _ Hh), N_of_to_byte_small by done.
  cbn [fuel_bind]. by rewrite decide_True.
Qed.

Section Complete.
Variable lim : ParseLimits.

Definition value_parses ru d v l ru' : Prop :=
  opens l /\ forall fuel bytes c post, (len bytes <= U64_MAX)%N -> holds_at bytes c l post ->
    2 * length l + 1 <= fuel -> parse_value fuel bytes c d lim ru = Some (Ok (v, (c + len l)%N, ru')).

Definition items_parse ru d vs l ru' : Prop :=
  forall fuel bytes c post acc, (len bytes <= U64_MAX)%N -> (len acc + len vs <= max_array_len lim)%N ->
    holds_at bytes c (l ++ [to_byte RPARAM_END]) post -> 2 * length l + 2 <= fuel ->
    parse_array fuel bytes c d lim ru acc = Some (Ok (VArray (acc ++ vs), (c + len l + 1)%N, ru')).

Definition pairs_parse ru d kvs l ru' : Prop :=
  forall fuel bytes c post acc, (len bytes <= U64_MAX)%N -> (len acc + len kvs <= max_hash_len lim)%N ->
    holds_at bytes c (l ++ [to_byte RPARAM_END]) post -> 2 * length l + 2 <= fuel ->
    parse_hash fuel bytes c d lim ru acc = Some (Ok (VHash (acc ++ kvs), (c + len l + 1)%N, ru')).

Lemma scalar_parses ru d v l ru' :
  (d <= max_depth lim)%N -> scalar_encoding lim ru v l ru' -> value_parses ru d v l ru'.
Proof.
  intros Hd (tag & body & -> & Ht & Hne & Hp)%parse_scalar_complete. split; [exists tag, body; split; [done|lia]|].
  intros [|fuel] bytes c post Hb Hh Hf; [lia|].
  rewrite (parse_value_step _ _ _ _ _ _ tag body post) by (done || lia). tag_cases.
  assert (c + len (to_byte tag :: body) <= len bytes)%N as Hle by (by eapply holds_at_bound).
  rewrite len_cons in *.
  rewrite (Hp bytes (c + 1)%N post Hb ltac:(lia) (holds_at_tail _ _ _ _ _ Hh)). do 4 f_equal. lia.
Qed.

Lemma items_parse_cons ru d v vs l1 ru1 l2 ru2 :
  value_parses ru d v l1 ru1 -> items_parse ru1 d vs l2 ru2 -> items_parse ru d (v :: vs) (l1 ++ l2) ru2.
Proof.
  intros [Ho Hv] Hvs [|fuel] bytes c post acc Hb Hl Hh Hf; [lia|]. rewrite len_cons in Hl.
  rewrite length_app in Hf. rewrite <- (assoc_L (++)) in Hh. pose proof (proj1 (holds_at_app _ _ _ _ _) Hh) as H1.
  destruct (peek_opens _ _ _ _ Ho H1) as (b & Eb & Hne). cbn [parse_array]. rewrite Eb. cbn [fuel_bind].
  pose proof (opens_length _ Ho). rewrite decide_False by done. rewrite decide_False by lia.
  rewrite (Hv fuel bytes c _ Hb H1) by lia. cbn [fuel_bind]. apply holds_at_skip in Hh.
  rewrite (Hvs fuel bytes _ post (acc ++ [v]) Hb); [|rewrite len_app; unfold len in *; simpl; lia|done|lia].
  rewrite <- (assoc_L (++)), len_app. do 4 f_equal. lia.
Qed.

Lemma pairs_parse_cons ru d k v kvs l1 ru1 l2 ru2 l3 ru3 :
  value_parses ru d (VString k) l1 ru1 -> value_parses ru1 d v l2 ru2 -> pairs_parse ru2 d kvs l3 ru3 ->
  pairs_parse ru d ((k, v) :: kvs) (l1 ++ l2 ++ l3) ru3.
Proof.
  intros [Ho Hk] [_ Hv] Hkvs [|fuel] bytes c post acc Hb Hl Hh Hf; [lia|]. rewrite len_cons in Hl.
  rewrite !length_app in Hf. rewrite <- !(assoc_L (++)) in Hh. pose proof (proj1 (holds_at_app _ _ _ _ _) Hh) as H1.
  destruct (peek_opens _ _ _ _ Ho H1) as (b & Eb & Hne). cbn [parse_hash]. rewrite Eb. cbn [fuel_bind].
  pose proof (opens_length _ Ho). rewrite decide_False by done. rewrite decide_False by lia.
  rewrite (Hk fuel bytes c _ Hb H1) by lia. cbn [fuel_bind]. apply holds_at_skip in Hh.
  pose proof (proj1 (holds_at_app _ _ _ _ _) Hh) as H2.
  rewrite (Hv fuel bytes _ _ Hb H2) by lia. cbn [fuel_bind]. apply holds_at_skip in Hh.
  rewrite (Hkvs fuel bytes _ post (acc ++ [(k, v)]) Hb); [|rewrite len_app; unfold len in *; simpl; lia|done|lia].
  rewrite <- (assoc_L (++)), !len_app. do 4 f_equal. lia.
Qed.

Lemma encodes_complete :
  (forall ru d v l ru', encodes lim ru d v l ru' -> value_parses ru d v l ru') /\
  (forall ru d vs l ru', encodes_items lim ru d vs l ru' -> items_parse ru d vs l ru') /\
  (forall ru d kvs l ru', encodes_pairs lim ru d kvs l ru' -> pairs_parse ru d kvs l ru').
Proof.
  apply encodes_ind3.
  - intros. by apply scalar_parses.
  - intros ru d vs l ru' Hd Hl _ Hvs. split; [by do 2 eexists|].
    intros [|fuel] bytes c post Hb Hh Hf; [lia|]. rewrite length_cons, length_app in Hf. cbn [length] in Hf.
    rewrite (parse_value_step _ _ _ _ _ _ 17%N _ _ eq_refl Hd Hh). tag_cases.
    rewrite (Hvs fuel bytes _ post [] Hb); [|rewrite len_nil; lia|by eapply holds_at_tail|lia].
    rewrite len_cons, len_app. change (len [_]) with 1%N. do 4 f_equal. lia.
  - intros ru d kvs l ru' Hd Hl _ Hkvs. split; [by do 2 eexists|].
    intros [|fuel] bytes c post Hb Hh Hf; [lia|]. rewrite length_cons, length_app in Hf. cbn [length] in Hf.
    rewrite (parse_value_step _ _ _ _ _ _ 16%N _ _ eq_refl Hd Hh). tag_cases.
    rewrite (Hkvs fuel bytes _ post [] Hb); [|rewrite len_nil; lia|by eapply holds_at_tail|lia].
    rewrite len_cons, len_app. change (len [_]) with 1%N. do 4 f_equal. lia.
  - intros ru d [|fuel] bytes c post acc Hb Hl Hh Hf; [lia|]. rewrite (parse_array_end _ _ _ _ _ _ _ _ Hh).
    by rewrite app_nil_r, len_nil, N.add_0_r.
  - intros. by eapply items_parse_cons.
  - intros ru d [|fuel] bytes c post acc Hb Hl Hh Hf; [lia|]. rewrite (parse_hash_end _ _ _ _ _ _ _ _ Hh).
    by rewrite app_nil_r, len_nil, N.add_0_r.
  - intros. by eapply pairs_parse_cons.
Qed.
End Complete.

(** * Whatever is parsed is an encoding *)

(** The buffer holds exactly [l] between the two cursors. *)
Definition spans (bytes : list byte) (c : N) (l : list byte) (c' : N) : Prop :=
  c' = (c + len l)%N /\ drop (N.to_nat c) bytes = l ++ drop (N.to_nat c') bytes.

Lemma spans_nil bytes c : spans bytes c [] c.
Proof. split; [rewrite len_nil; lia|done]. Qed.

Lemma spans_app bytes c l1 c1 l2 c2 : spans bytes c l1 c1 -> spans bytes c1 l2 c2 -> spans bytes c (l1 ++ l2) c2.
Proof.
  intros [-> H1] [-> H2]. split; [rewrite len_app; lia|]. by rewrite H1, H2, (assoc_L (++)).
Qed.

Lemma spans_cons bytes c x c1 l c2 : spans bytes c [x] c1 -> spans bytes c1 l c2 -> spans bytes c (x :: l) c2.
Proof. apply (spans_app _ _ [x]). Qed.

Lemma spans_peek bytes c b : peek_u8 bytes c = Ok b -> spans bytes c [to_byte b] (c + 1).
Proof.
  intros (_ & x & Hx & ->)%peek_u8_ok. split; [done|]. rewrite to_byte_of_ascii.
  replace (N.to_nat (c + 1)) with (S (N.to_nat c)) by lia. by apply drop_S.
Qed.

Lemma spans_slice bytes c n s c' : read_slice bytes c n = Ok (s, c') -> spans bytes c s c' /\ len s = n.
Proof.
  intros (-> & _ & Es & Hl)%read_slice_ok. split; [|done]. split; [by rewrite Hl|].
  rewrite N2Nat.inj_add, <- drop_drop, Es. symmetry. apply take_drop.
Qed.

Lemma spans_var bytes c k v c' :
  read_var_u64 bytes c k = Ok (v, c') ->
  (1 <= k <= 8)%N /\ spans bytes c (to_le_bytes (N.to_nat k) v) c' /\ (v < 256 ^ k)%N.
Proof.
  intros Hr. assert (1 <= k <= 8)%N as Hk by (unfold read_var_u64 in Hr; case_decide; [done|lia]).
  apply read_var_u64_ok in Hr as (_ & _ & _ & s & [Hs Hl]%spans_slice & ->). split; [done|].
  rewrite <- Hl at 1. unfold len at 1. rewrite Nat2N.id, to_from_le_bytes. split; [done|].
  rewrite <- Hl. apply from_le_bytes_bound.
Qed.

Lemma spans_var32 bytes c k v c' : (k <= 4)%N ->
  read_var_u32 bytes c k = Ok (v, c') ->
  (1 <= k)%N /\ spans bytes c (to_le_bytes (N.to_nat k) v) c' /\ (v < 256 ^ k)%N.
Proof.
  intros Hk Hr. unfold read_var_u32 in Hr. apply result_bind_ok in Hr as ([m e] & Hm & [= <- <-]).
  apply spans_var in Hm as ([? _] & Hs & Hb). split; [done|]. unfold as_u32.
  rewrite N.mod_small; [done|]. eapply N.lt_le_trans; [exact Hb|].
  change (2 ^ 32)%N with (256 ^ 4)%N. apply N.pow_le_mono_r; lia.
Qed.

Lemma read_string_sound bytes c n lim ru v c' ru' :
  read_string bytes c n lim ru = Ok (v, c', ru') ->
  exists raw, spans bytes c raw c' /\ len raw = n /\ (n <= max_string_len lim)%N /\
    v = VString (from_utf8_lossy raw) /\ ru' = remember lim (from_utf8_lossy raw) ru.
Proof.
  unfold read_string. case_decide; [done|]. destruct (read_slice bytes c n) as [[s e]|] eqn:E; [|done].
  cbn [result_bind]. intros [= <- <- <-]. apply spans_slice in E as [Hs Hl]. exists s. split_and!; [done|done|lia|done|done].
Qed.

Lemma reused_string_sound id c ru v c' ru' :
  reused_string id c ru = Ok (v, c', ru') ->
  exists s, ru !! N.to_nat id = Some s /\ v = VString s /\ c' = c /\ ru' = ru.
Proof. unfold reused_string. destruct (_ !! _) as [s|]; [|done]. intros [= <- <- <-]. eauto. Qed.

Lemma parse_scalar_sound tag bytes c lim ru v c' ru' :
  parse_scalar tag bytes c lim ru = Ok (v, c', ru') ->
  exists l, spans bytes c l c' /\ scalar_encoding lim ru v (to_byte tag :: l) ru'.
Proof.
  intros Hp. unfold parse_scalar in Hp. rewrite !tag_in_spec in Hp.
  repeat match type of Hp with
  | (if bool_decide ?P then _ else _) = _ => destruct (bool_decide_reflect P) as [?Ht|?Ht]
  end; [..|done].
  - apply result_bind_ok in Hp as ([n e] & Hn & Hp). apply spans_var32 in Hn as (Hk & Hs1 & Hb); [|lia].
    apply read_string_sound in Hp as (raw & Hs2 & <- & Hm & -> & ->). eexists. split; [eapply spans_app; done|].
    assert (exists k, k = N.to_nat (tag - 0 + 1)) as [k Ek] by eauto. rewrite <- Ek. assert (tag = N.of_nat k - 1)%N as -> by lia.
    apply enc_string; [lia| |done]. replace (N.of_nat k) with (N.of_nat k - 1 - 0 + 1)%N by lia. done.
  - apply result_bind_ok in Hp as ([id e] & Hn & Hp). apply spans_var32 in Hn as (Hk & Hs1 & Hb); [|lia].
    apply reused_string_sound in Hp as (s & Hid & -> & -> & ->). eexists. split; [done|].
    assert (exists k, k = N.to_nat (tag - 4 + 1)) as [k Ek] by eauto. rewrite <- Ek. assert (tag = N.of_nat k + 3)%N as -> by lia.
    apply enc_reused; [lia| |done]. replace (N.of_nat k) with (N.of_nat k + 3 - 4 + 1)%N by lia. done.
  - apply result_bind_ok in Hp as ([n e] & Hn & [= <- <- <-]). apply spans_var in Hn as (Hk & Hs1 & Hb).
    eexists. split; [done|].
    assert (exists k, k = N.to_nat (tag - 8 + 1)) as [k Ek] by eauto. rewrite <- Ek. assert (tag = N.of_nat k + 7)%N as -> by lia.
    apply enc_number; [lia|]. replace (N.of_nat k) with (N.of_nat k + 7 - 8 + 1)%N by lia. done.
  - injection Hp as <- <- <-. assert (tag = 18%N) as -> by lia. exists []. split; [apply spans_nil|apply (enc_bool lim ru false)].
  - injection Hp as <- <- <-. assert (tag = 19%N) as -> by lia. exists []. split; [apply spans_nil|apply (enc_bool lim ru true)].
  - apply result_bind_ok in Hp as ([n e] & Hn & [= <- <- <-]). apply spans_var in Hn as (_ & Hs1 & Hb).
    assert (tag = 20%N) as -> by lia. eexists. split; [exact Hs1|]. apply enc_data. unfold U64_MAX.
    change (256 ^ 8)%N with (2 ^ 64)%N in Hb. lia.
  - apply read_string_sound in Hp as (raw & Hs & Hl & Hm & -> & ->). exists raw. split; [done|].
    assert (tag = 100 + len raw)%N as -> by lia. apply enc_short_string; lia.
  - apply reused_string_sound in Hp as (s & Hid & -> & -> & ->). exists []. split; [apply spans_nil|].
    replace tag with (150 + (tag - 150))%N at 1 by lia. apply enc_short_reused; [lia|done].
  - injection Hp as <- <- <-. exists []. split; [apply spans_nil|].
    replace tag with (200 + (tag - 200))%N at 2 by lia. apply enc_small_number. lia.
Qed.

Lemma parse_sound lim fuel :
  (forall bytes c d ru v c' ru', parse_value fuel bytes c d lim ru = Some (Ok (v, c', ru')) ->
     exists l, spans bytes c l c' /\ encodes lim ru d v l ru') /\
  (forall bytes c d ru acc v c' ru', (len acc <= max_array_len lim)%N ->
     parse_array fuel bytes c d lim ru acc = Some (Ok (v, c', ru')) ->
     exists vs l, v = VArray (acc ++ vs) /\ (len (acc ++ vs) <= max_array_len lim)%N /\
       spans bytes c (l ++ [to_byte RPARAM_END]) c' /\ encodes_items lim ru d vs l ru') /\
  (forall bytes c d ru acc v c' ru', (len acc <= max_hash_len lim)%N ->
     parse_hash fuel bytes c d lim ru acc = Some (Ok (v, c', ru')) ->
     exists kvs l, v = VHash (acc ++ kvs) /\ (len (acc ++ kvs) <= max_hash_len lim)%N /\
       spans bytes c (l ++ [to_byte RPARAM_END]) c' /\ encodes_pairs lim ru d kvs l ru').
Proof.
  induction fuel as [|fuel (IHv & IHa & IHh)]; [done|]. split; [|split].
  - intros bytes c d ru v c' ru' (Hd & tag & Ht & _ & Hp)%parse_value_S. pose proof (spans_peek _ _ _ Ht) as Hs.
    destruct (tag_in 16 16 tag) eqn:E16; [|destruct (tag_in 17 17 tag) eqn:E17].
    + apply tag_in_same in E16 as ->. apply IHh in Hp as (kvs & l & -> & Hl & Hs' & He); [|rewrite len_nil; lia].
      eexists. split; [eapply spans_cons; done|]. by apply enc_hash.
    + apply tag_in_same in E17 as ->. apply IHa in Hp as (vs & l & -> & Hl & Hs' & He); [|rewrite len_nil; lia].
      eexists. split; [eapply spans_cons; done|]. by apply enc_array.
    + injection Hp as (l & Hs' & He)%parse_scalar_sound. exists (to_byte tag :: l).
      split; [by eapply spans_cons|]. by apply enc_scalar.
  - intros bytes c d ru acc v c' ru' Hacc (b & Hb & _ & Hp)%parse_array_S. pose proof (spans_peek _ _ _ Hb) as Hs.
    case_decide as Hend.
    + injection Hp as -> -> ->. subst b. exists [], []. rewrite app_nil_r. split_and!; [done..|constructor].
    + destruct Hp as (Hlt & v1 & c1 & ru1 & (l1 & Hs1 & He1)%IHv & Hp).
      apply IHa in Hp as (vs & l2 & -> & Hl & Hs2 & He2); [|rewrite len_app; unfold len in *; simpl; lia].
      exists (v1 :: vs), (l1 ++ l2). rewrite <- (assoc_L (++)) in Hl |- *. split_and!; [done|done| |by econstructor].
      rewrite <- (assoc_L (++)). by eapply spans_app.
  - intros bytes c d ru acc v c' ru' Hacc (b & Hb & _ & Hp)%parse_hash_S. pose proof (spans_peek _ _ _ Hb) as Hs.
    case_decide as Hend.
    + injection Hp as -> -> ->. subst b. exists [], []. rewrite app_nil_r. split_and!; [done..|constructor].
    + destruct Hp as (Hlt & k & c1 & ru1 & v1 & c2 & ru2 & (l1 & Hs1 & He1)%IHv & (l2 & Hs2 & He2)%IHv & Hp).
      apply IHh in Hp as (kvs & l3 & -> & Hl & Hs3 & He3); [|rewrite len_app; unfold len in *; simpl; lia].
      exists ((k, v1) :: kvs), (l1 ++ l2 ++ l3). rewrite <- (assoc_L (++)) in Hl |- *. split_and!; [done|done| |by econstructor].
      rewrite <- !(assoc_L (++)). eapply spans_app; [done|]. by eapply spans_app.
Qed.

(** * Frames *)

Lemma parse_frame_complete body rest lim v ru :
  encodes lim [] 0 v body ru -> (len body <= N.min U32_MAX (max_frame_len lim))%N ->
  (len (to_le_bytes 4 (len body) ++ body ++ rest) <= U64_MAX)%N ->
  parse_response_frame (to_le_bytes 4 (len body) ++ body ++ rest) lim = Some (Ok v).
Proof.
  intros He Hl Hb. unfold U32_MAX in Hl.
  pose proof (from_to_le_bytes_small 4 (len body) ltac:(cbn; lia)) as E.
  pose proof (length_to_le_bytes 4 (len body)) as Hlen.
  destruct (to_le_bytes 4 _) as [|b0 [|b1 [|b2 [|b3 [|]]]]]; try done. cbn [app] in *.
  unfold parse_response_frame. rewrite E, decide_False by lia.
  set (bytes := b0 :: b1 :: b2 :: b3 :: body ++ rest) in *.
  assert (len bytes = 4 + len body + len rest)%N as Hlb by (unfold bytes; rewrite !len_cons, len_app; lia).
  rewrite decide_False by lia.
  destruct (encodes_complete lim) as (Hc & _ & _). destruct (Hc _ _ _ _ _ He) as [_ Hp].
  rewrite (Hp (parse_fuel bytes) bytes 4%N rest Hb ltac:(done)) by (unfold parse_fuel; unfold len in *; lia).
  cbn [fuel_bind]. by rewrite decide_False by lia.
Qed.

Lemma parse_frame_sound bytes lim v :
  parse_response_frame bytes lim = Some (Ok v) ->
  exists body rest ru, bytes = to_le_bytes 4 (len body) ++ body ++ rest /\
    (len body <= N.min U32_MAX (max_frame_len lim))%N /\ encodes lim [] 0 v body ru.
Proof.
  unfold parse_response_frame. destruct bytes as [|b0 [|b1 [|b2 [|b3 tail]]]]; try done.
  set (bytes := b0 :: b1 :: b2 :: b3 :: tail). set (n := from_le_bytes _).
  case_decide; [done|]. case_decide; [done|]. intros ([[w c] ru] & Hp & Hend)%fuel_bind_ok.
  case_decide as Hc; [done|]. injection Hend as ->. assert (c = 4 + n)%N as -> by lia. clear Hc.
  apply parse_sound in Hp as (body & [Hlen Hspan] & He). assert (len body = n) as Hn by lia.
  exists body, (drop (N.to_nat (4 + n)) bytes), ru. pose proof (from_le_bytes_bound [b0; b1; b2; b3]) as Hbound.
  fold n in Hbound. change (256 ^ len [b0; b1; b2; b3])%N with (U32_MAX + 1)%N in Hbound.
  split_and!; [|lia|done]. rewrite <- Hspan, Hn. unfold n.
  pose proof (to_from_le_bytes [b0; b1; b2; b3]) as E. cbn [length] in E. by rewrite E.
Qed.

(** C33: The parser reads exactly the wire format.  It accepts a buffer with the value [v] if and only
    if the buffer starts with a length prefix and a body of that length, within the frame limit,
    that encodes [v] in the grammar of the tags: long and short strings, references to strings seen
    before, numbers of one to eight bytes and small numbers, booleans, data markers, arrays and
    hashes, within the limits on depth, lengths and raw strings.  What follows the frame plays no
    part. *)
Theorem response_wire_format bytes lim v (Hmemory : (len bytes <= U64_MAX)%N) :
  parse_response_frame bytes lim = Some (Ok v) <->
  exists body rest ru, bytes = to_le_bytes 4 (len body) ++ body ++ rest /\
    (len body <= N.min U32_MAX (max_frame_len lim))%N /\ encodes lim [] 0 v body ru.
Proof.
  split; [apply parse_frame_sound|]. intros (body & rest & ru & -> & Hl & He). by eapply parse_frame_complete.
Qed.

(** * A reference encoder *)

Definition encode_string (s : list byte) : list byte :=
  to_byte 3 :: to_le_bytes 4 (len s) ++ s.

(** One encoding for every value, with the widest form of each field. *)
Fixpoint encode_value (v : Value) : list byte :=
  match v with
  | VString s => encode_string s
  | VNumber n => to_byte 15 :: to_le_bytes 8 n
  | VBool b => [to_byte (if b then 19 else 18)]
  | VData n => to_byte 20 :: to_le_bytes 8 n
  | VArray vs => to_byte 17 :: (vs ≫= encode_value) ++ [to_byte RPARAM_END]
  | VHash kvs =>
      to_byte 16 :: (kvs ≫= λ kv, encode_string kv.1 ++ encode_value kv.2) ++ [to_byte RPARAM_END]
  end.

Definition encode_frame (v : Value) : list byte :=
  to_le_bytes 4 (len (encode_value v)) ++ encode_value v.

(** Induction on values through the nested lists. *)
Section ValueInd.
Variable P : Value -> Prop.
Hypothesis P_string : forall s, P (VString s).
Hypothesis P_number : forall n, P (VNumber n).
Hypothesis P_bool : forall b, P (VBool b).
Hypothesis P_data : forall n, P (VData n).
Hypothesis P_array : forall vs, Forall P vs -> P (VArray vs).
Hypothesis P_hash : forall kvs, Forall (λ kv, P kv.2) kvs -> P (VHash kvs).

Fixpoint value_nested_ind (v : Value) : P v :=
  match v with
  | VString s => P_string s
  | VNumber n => P_number n
  | VBool b => P_bool b
  | VData n => P_data n
  | VArray vs =>
      P_array vs ((fix go vs : Forall P vs :=
        match vs with
        | [] => List.Forall_nil _
        | v :: vs' => @List.Forall_cons _ P v vs' (value_nested_ind v) (go vs')
        end) vs)
  | VHash kvs =>
      P_hash kvs ((fix go kvs : Forall (λ kv, P kv.2) kvs :=
        match kvs with
        | [] => List.Forall_nil _
        | kv :: kvs' => @List.Forall_cons _ (λ kv, P kv.2) kv kvs' (value_nested_ind kv.2) (go kvs')
        end) kvs)
  end.
End ValueInd.

Lemma encode_string_encodes lim ru d s :
  (max_string_len lim <= U32_MAX)%N -> within (max_string_len lim) lim d (VString s) ->
  exists ru', encodes lim ru d (VString s) (encode_string s) ru'.
Proof.
  intros Hlim Hw. inversion Hw as [? ? Hd Hs Hv| | | | |]; subst. unfold U32_MAX in Hlim. eexists.
  apply enc_scalar; [done|]. rewrite <- (lossy_valid s Hv) at 1.
  apply (enc_string lim ru 4 s); [lia|cbn; lia|done].
Qed.

(** Every value within the limits has an encoding. *)
Lemma encode_value_encodes lim v : (max_string_len lim <= U32_MAX)%N ->
  forall ru d, within (max_string_len lim) lim d v -> exists ru', encodes lim ru d v (encode_value v) ru'.
Proof.
  intros Hlim. induction v as [s|n|b|n|vs IH|kvs IH] using value_nested_ind; intros ru d Hw.
  - by apply encode_string_encodes.
  - inversion Hw; subst. eexists. apply enc_scalar; [done|]. apply (enc_number lim ru 8 n); [lia|].
    unfold U64_MAX in *. cbn. lia.
  - inversion Hw; subst. eexists. apply enc_scalar; [done|]. apply enc_bool.
  - inversion Hw; subst. eexists. apply enc_scalar; [done|]. by apply enc_data.
  - inversion Hw as [| | | |? ? Hd Hl Hvs|]; subst.
    assert (exists ru', encodes_items lim ru (d + 1) vs (vs ≫= encode_value) ru') as [ru' He]; [|by exists ru'; apply enc_array].
    clear Hw Hl. revert ru. induction IH as [|v vs Hv _ IHvs]; intros ru; [eexists; constructor|].
    apply Forall_cons in Hvs as [Hw1 Hw2]. destruct (Hv ru _ Hw1) as [ru1 H1]. destruct (IHvs Hw2 ru1) as [ru2 H2].
    exists ru2. rewrite bind_cons. by econstructor.
  - inversion Hw as [| | | | |? ? Hd Hl Hkvs]; subst.
    assert (exists ru', encodes_pairs lim ru (d + 1) kvs (kvs ≫= λ kv, encode_string kv.1 ++ encode_value kv.2) ru')
      as [ru' He]; [|by exists ru'; apply enc_hash].
    clear Hw Hl. revert ru. induction IH as [|[k v] kvs Hv _ IHkvs]; intros ru; [eexists; constructor|].
    apply Forall_cons in Hkvs as [[Hk Hw1] Hw2]. destruct (encode_string_encodes lim ru _ k Hlim Hk) as [ru1 H1].
    destruct (Hv ru1 _ Hw1) as [ru2 H2]. destruct (IHkvs Hw2 ru2) as [ru3 H3].
    exists ru3. rewrite bind_cons, <- (assoc_L (++)). by econstructor.
Qed.

(** Round trip of the reference encoder. *)
Lemma response_round_trip v lim rest :
  within (max_string_len lim) lim 0 v -> (max_string_len lim <= U32_MAX)%N ->
  (len (encode_value v) <= N.min U32_MAX (max_frame_len lim))%N ->
  (len (encode_frame v ++ rest) <= U64_MAX)%N ->
  parse_response_frame (encode_frame v ++ rest) lim = Some (Ok v).
Proof.
  intros Hw Hlim Hl Hb. destruct (encode_value_encodes lim v Hlim [] 0%N Hw) as [ru He].
  unfold encode_frame in *. rewrite <- (assoc_L (++)) in *. by eapply parse_frame_complete.
Qed.

Definition sample_response : Value :=
  VHash [(chars "result", VNumber 0); (chars "list", VArray [VBool true; VString (chars "a"); VData 5])].

(** A frame with short strings, a reference to one of them and numbers of three widths, as the
    service sends them; the byte after it belongs to the next frame. *)
Definition compact_frame : list byte :=
  to_le_bytes 4 20 ++
  to_byte 16 :: (to_byte 106 :: chars "result") ++ to_byte 200 ::
    (to_byte 101 :: chars "n") ++ to_byte 9 :: to_le_bytes 2 700 ++
    to_byte 151 :: to_byte 8 :: to_le_bytes 1 99 ++
    [to_byte 100; to_byte 150; to_byte 255] ++ [to_byte 7].

Definition compact_value : Value :=
  VHash [(chars "result", VNumber 0); (chars "n", VNumber 700); (chars "n", VNumber 99); ([], VString (chars "result"))].

Lemma response_wire_format_witness :
  parse_response_frame compact_frame ParseLimits_default = Some (Ok compact_value) /\
  exists body rest ru, compact_frame = to_le_bytes 4 (len body) ++ body ++ rest /\
    (len body <= N.min U32_MAX (max_frame_len ParseLimits_default))%N /\
    encodes ParseLimits_default [] 0 compact_value body ru.
Proof.
  assert (parse_response_frame compact_frame ParseLimits_default = Some (Ok compact_value)) as E by (vm_compute; reflexivity).
  split; [exact E|]. apply response_wire_format; [vm_compute; discriminate|exact E].
Defined.

(** * A frame is parsed from its own bytes only *)

(** The two buffers hold the same first [k] bytes. *)
Definition agree (k : N) (bytes bytes' : list byte) : Prop :=
  take (N.to_nat k) bytes = take (N.to_nat k) bytes' /\ (k <= len bytes)%N /\ (k <= len bytes')%N.

Lemma agree_lookup k bytes bytes' i :
  agree k bytes bytes' -> (i < N.to_nat k) -> bytes' !! i = bytes !! i.
Proof.
  intros [E _] Hi. rewrite <- (lookup_take_lt bytes _ i Hi), <- (lookup_take_lt bytes' _ i Hi).
  by rewrite E.
Qed.

Lemma peek_agree k bytes bytes' c b :
  agree k bytes bytes' -> (c + 1 <= k)%N -> peek_u8 bytes c = Ok b -> peek_u8 bytes' c = Ok b.
Proof. intros Ha Hc. unfold peek_u8. rewrite (agree_lookup k bytes bytes'); [done|done|lia]. Qed.

Lemma read_slice_agree k bytes bytes' c n s c' :
  agree k bytes bytes' -> (c' <= k)%N ->
  read_slice bytes c n = Ok (s, c') -> read_slice bytes' c n = Ok (s, c').
Proof.
  intros Ha Hc Hr. pose proof Hr as Hr'. apply read_slice_ok in Hr' as (-> & Hle & -> & _).
  pose proof Ha as (_ & _ & Hk). unfold read_slice in *.
  destruct (u64_checked_add c n) as [e|] eqn:He; [|done]. simpl in *.
  unfold u64_checked_add in He. case_decide; simplify_eq. rewrite decide_False by lia. do 2 f_equal.
  apply list_eq. intros i. destruct (decide (i < N.to_nat n)).
  - rewrite !lookup_take_lt, !lookup_drop by done.
    rewrite (agree_lookup k bytes bytes'); [done|done|lia].
  - rewrite !lookup_take_ge by lia. done.
Qed.

Lemma read_var_u64_agree k bytes bytes' c n v c' :
  agree k bytes bytes' -> (c' <= k)%N ->
  read_var_u64 bytes c n = Ok (v, c') -> read_var_u64 bytes' c n = Ok (v, c').
Proof.
  intros Ha Hc. unfold read_var_u64. case_decide; [done|].
  destruct (read_slice bytes c n) as [[s e]|] eqn:E; [|done]. simpl. intros [= <- <-].
  by rewrite (read_slice_agree k bytes bytes' _ _ _ _ Ha Hc E).
Qed.

Lemma read_var_u32_agree k bytes bytes' c n v c' :
  agree k bytes bytes' -> (c' <= k)%N ->
  read_var_u32 bytes c n = Ok (v, c') -> read_var_u32 bytes' c n = Ok (v, c').
Proof.
  intros Ha Hc. unfold read_var_u32. intros ([w e] & Hw & [= <- <-])%result_bind_ok.
  by rewrite (read_var_u64_agree k bytes bytes' _ _ _ _ Ha Hc Hw).
Qed.

Lemma read_string_agree k bytes bytes' c n lim ru v c' ru' :
  agree k bytes bytes' -> (c' <= k)%N ->
  read_string bytes c n lim ru = Ok (v, c', ru') -> read_string bytes' c n lim ru = Ok (v, c', ru').
Proof.
  intros Ha Hc. unfold read_string. case_decide; [done|].
  intros ([s e] & Hs & [= <- <- <-])%result_bind_ok.
  by rewrite (read_slice_agree k bytes bytes' _ _ _ _ Ha Hc Hs).
Qed.

Lemma parse_scalar_agree k tag bytes bytes' c lim ru v c' ru' :
  agree k bytes bytes' -> (c' <= k)%N ->
  parse_scalar tag bytes c lim ru = Ok (v, c', ru') -> parse_scalar tag bytes' c lim ru = Ok (v, c', ru').
Proof.
  intros Ha Hc. unfold parse_scalar. repeat case_match; try done.
  - intros ([n e] & Hn & Hp)%result_bind_ok. pose proof Hp as Hp'. apply read_string_ok in Hp' as [? _].
    assert (e <= k)%N as He by lia.
    rewrite (read_var_u32_agree k bytes bytes' _ _ _ _ Ha He Hn). simpl.
    by eapply read_string_agree.
  - intros ([n e] & Hn & Hp)%result_bind_ok.
    pose proof Hp as Hp'. apply (reused_string_ok _ _ lim) in Hp' as (-> & _).
    by rewrite (read_var_u32_agree k bytes bytes' _ _ _ _ Ha Hc Hn).
  - intros ([n e] & Hn & [= <- <- <-])%result_bind_ok.
    by rewrite (read_var_u64_agree k bytes bytes' _ _ _ _ Ha Hc Hn).
  - intros ([n e] & Hn & [= <- <- <-])%result_bind_ok.
    by rewrite (read_var_u64_agree k bytes bytes' _ _ _ _ Ha Hc Hn).
  - by apply (read_string_agree k).
Qed.

(** Whenever the second run has fuel, it returns what the first run did. *)
Lemma parse_agree fuel :
  (forall fuel' k bytes bytes' c d lim ru v c' ru' r,
     agree k bytes bytes' -> (c' <= k)%N ->
     parse_value fuel bytes c d lim ru = Some (Ok (v, c', ru')) ->
     parse_value fuel' bytes' c d lim ru = Some r -> r = Ok (v, c', ru')) /\
  (forall fuel' k bytes bytes' c d lim ru acc v c' ru' r,
     agree k bytes bytes' -> (c' <= k)%N ->
     parse_array fuel bytes c d lim ru acc = Some (Ok (v, c', ru')) ->
     parse_array fuel' bytes' c d lim ru acc = Some r -> r = Ok (v, c', ru')) /\
  (forall fuel' k bytes bytes' c d lim ru acc v c' ru' r,
     agree k bytes bytes' -> (c' <= k)%N ->
     parse_hash fuel bytes c d lim ru acc = Some (Ok (v, c', ru')) ->
     parse_hash fuel' bytes' c d lim ru acc = Some r -> r = Ok (v, c', ru')).
Proof.
  induction fuel as [|fuel (IHv & IHa & IHh)]; [done|].
  pose proof (parse_ok fuel) as (Hokv & Hoka & Hokh). split; [|split];
    intros [|fuel'] k bytes bytes' c d lim ru; try done.
  - intros v c' ru' r Ha Hc Hp Hp'. pose proof (proj1 (parse_ok (S fuel)) _ _ _ _ _ _ _ _ Hp) as [Hc1 _].
    assert (c + 1 <= k)%N as Hck by lia. apply parse_value_S in Hp as (Hd & tag & Ht & _ & Hp).
    cbn [parse_value] in Hp'. rewrite decide_False in Hp' by lia. unfold read_u8 in Hp'.
    rewrite (peek_agree k bytes bytes' _ _ Ha Hck Ht) in Hp'. cbn [result_bind fuel_bind] in Hp'.
    destruct (tag_in 16 16 tag); [by eapply IHh|]. destruct (tag_in 17 17 tag); [by eapply IHa|].
    injection Hp as Hp. rewrite (parse_scalar_agree k _ bytes bytes' _ _ _ _ _ _ Ha Hc Hp) in Hp'. congruence.
  - intros acc v c' ru' r Ha Hc Hp Hp'. apply parse_array_S in Hp as (b & Hb & _ & Hp).
    cbn [parse_array] in Hp'. destruct (decide (b = RPARAM_END)) as [Hend|Hend].
    + injection Hp as -> -> ->. rewrite (peek_agree k bytes bytes' _ _ Ha Hc Hb) in Hp'.
      cbn [fuel_bind] in Hp'. rewrite decide_True in Hp' by done. congruence.
    + destruct Hp as (Hl & x & c1 & ru1 & Hx & Hp). pose proof (Hokv _ _ _ _ _ _ _ _ Hx) as [Hc1 _].
      pose proof (Hoka _ _ _ _ _ _ _ _ _ Hp) as [Hc2 _].
      assert (c + 1 <= k)%N as Hpk by lia.
      rewrite (peek_agree k bytes bytes' _ _ Ha Hpk Hb) in Hp'.
      cbn [fuel_bind] in Hp'. rewrite decide_False in Hp' by done. rewrite decide_False in Hp' by lia.
      destruct (parse_value fuel' bytes' c d lim ru) as [rx|] eqn:Ex; [|done].
      assert (c1 <= k)%N as Hk1 by lia.
      rewrite (IHv _ _ _ _ _ _ _ _ _ _ _ _ Ha Hk1 Hx Ex) in Hp'. cbn [fuel_bind] in Hp'.
      by eapply IHa.
  - intros acc v c' ru' r Ha Hc Hp Hp'. apply parse_hash_S in Hp as (b & Hb & _ & Hp).
    cbn [parse_hash] in Hp'. destruct (decide (b = RPARAM_END)) as [Hend|Hend].
    + injection Hp as -> -> ->. rewrite (peek_agree k bytes bytes' _ _ Ha Hc Hb) in Hp'.
      cbn [fuel_bind] in Hp'. rewrite decide_True in Hp' by done. congruence.
    + destruct Hp as (Hl & key & c1 & ru1 & x & c2 & ru2 & Hk & Hx & Hp).
      pose proof (Hokv _ _ _ _ _ _ _ _ Hk) as [Hc1 _]. pose proof (Hokv _ _ _ _ _ _ _ _ Hx) as [Hc2 _].
      pose proof (Hokh _ _ _ _ _ _ _ _ _ Hp) as [Hc3 _].
      assert (c + 1 <= k)%N as Hpk by lia.
      rewrite (peek_agree k bytes bytes' _ _ Ha Hpk Hb) in Hp'.
      cbn [fuel_bind] in Hp'. rewrite decide_False in Hp' by done. rewrite decide_False in Hp' by lia.
      destruct (parse_value fuel' bytes' c d lim ru) as [rk|] eqn:Ek; [|done].
      assert (c1 <= k)%N as Hk1 by lia. assert (c2 <= k)%N as Hk2 by lia.
      rewrite (IHv _ _ _ _ _ _ _ _ _ _ _ _ Ha Hk1 Hk Ek) in Hp'. cbn [fuel_bind] in Hp'.
      destruct (parse_value fuel' bytes' c1 d lim ru1) as [rx|] eqn:Ex; [|done].
      rewrite (IHv _ _ _ _ _ _ _ _ _ _ _ _ Ha Hk2 Hx Ex) in Hp'. cbn [fuel_bind] in Hp'.
      by eapply IHh.
Qed.

(** Frame isolation: what a frame parses to depends on its own [4 + n] bytes only.  Two buffers
    that share the frame parse to the same value, so bytes of the next frame, or a shorter
    buffer cut right after the frame, never change a result. *)
Theorem response_frame_isolation frame rest rest' lim v
  (Hframe : len frame = (4 + from_le_bytes (take 4 frame))%N)
  (Hparse : parse_response_frame (frame ++ rest) lim = Some (Ok v)) :
  parse_response_frame (frame ++ rest') lim = Some (Ok v).
Proof.
  destruct frame as [|b0 [|b1 [|b2 [|b3 body]]]];
    try (exfalso; rewrite ?len_cons, len_nil in Hframe; lia).
  cbn [app] in *. change (take 4 _) with [b0; b1; b2; b3] in Hframe. unfold parse_response_frame in *.
  set (n := from_le_bytes [b0; b1; b2; b3]) in *.
  set (bytes := b0 :: b1 :: b2 :: b3 :: body ++ rest) in *.
  set (bytes' := b0 :: b1 :: b2 :: b3 :: body ++ rest').
  assert (agree (4 + n) bytes bytes') as Ha.
  { unfold agree, bytes, bytes'. rewrite !len_cons, !len_app in *. split; [|lia].
    rewrite !app_comm_cons, !take_app_le by (unfold len in *; simpl; lia). done. }
  destruct (decide (max_frame_len lim < n)%N); [done|].
  rewrite decide_False in Hparse by (destruct Ha; lia). rewrite decide_False by (destruct Ha; lia).
  destruct (parse_value (parse_fuel bytes) bytes 4 0 lim []) as [[[[w c] ru]|e]|] eqn:E; try done.
  cbn [fuel_bind] in Hparse. case_decide as Hc; [done|]. injection Hparse as ->.
  destruct (parse_total_fuel (parse_fuel bytes')) as (Htot & _ & _).
  destruct (Htot bytes' 4%N 0%N lim []) as [r Er]; [unfold parse_fuel; lia|]. rewrite Er.
  destruct (parse_agree (parse_fuel bytes)) as (Hag & _ & _).
  assert (c <= 4 + n)%N as Hcn by lia. rewrite (Hag _ _ _ _ _ _ _ _ _ _ _ _ Ha Hcn E Er). cbn [fuel_bind].
  by rewrite decide_False by lia.
Qed.

Lemma response_frame_isolation_witness :
  parse_response_frame (encode_frame sample_response ++ chars "next frame") ParseLimits_default
  = Some (Ok sample_response).
Proof.
  apply (response_frame_isolation (encode_frame sample_response) []); vm_compute; reflexivity.
Defined.
