(* ===== verification/PageCache.v ===== *)
(** The page cache: crates/pcloud-cache/src/page_cache.rs.

    [LinkedHashMap] (the linked-hash-map crate) is an interface: the operations the cache calls,
    with their documented behaviour as laws over the list of entries in insertion order.
    [fifo] is the abstract cache the theorem refines. *)
From S2P Require Import Prelude Paths Bytes.

(** * The map the cache is built on *)

Class LinkedHashMap (M : Type) := {
  lhm_new : M;
  lhm_get : string -> M -> option (list byte);
  lhm_insert : string -> list byte -> M -> M;
  lhm_remove : string -> M -> option (list byte) * M;
  lhm_pop_front : M -> option (string * list byte) * M;
  lhm_len : M -> nat;
  lhm_iter : M -> list (string * list byte);
}.

Class LinkedHashMapLaws (M : Type) `{LinkedHashMap M} : Prop := {
  lhm_new_iter : lhm_iter lhm_new = [];
  lhm_keys m : NoDup (fst <$> lhm_iter m);
  lhm_len_iter m : lhm_len m = length (lhm_iter m);
  lhm_get_iter k v m : lhm_get k m = Some v <-> (k, v) ∈ lhm_iter m;
  lhm_remove_iter k m :
    (lhm_remove k m).1 = lhm_get k m /\
    lhm_iter (lhm_remove k m).2 = filter (λ e, e.1 ≠ k) (lhm_iter m);
  lhm_insert_iter k v m :
    lhm_get k m = None -> lhm_iter (lhm_insert k v m) = lhm_iter m ++ [(k, v)];
  lhm_pop_front_iter m :
    match lhm_iter m with
    | [] => lhm_pop_front m = (None, m)
    | e :: l => exists m', lhm_pop_front m = (Some e, m') /\ lhm_iter m' = l
    end;
}.

(** * The cache *)

Record Inner (M : Type) : Type := mkInner {
  max_bytes : N;
  page_size_bytes : N;
  used_bytes : N;
  entries : M;
}.
Arguments mkInner {M}.
Arguments max_bytes {M}.
Arguments page_size_bytes {M}.
Arguments used_bytes {M}.
Arguments entries {M}.

Section Cache.
Context {M : Type} `{LinkedHashMapLaws M}.

Definition with_capacity (max_bytes page_size_bytes : N) : Inner M :=
  mkInner max_bytes page_size_bytes 0 lhm_new.

Definition Inner_default : Inner M := with_capacity (256 * 1024 * 1024) (128 * 1024).

(** The [while] loop; every turn removes an entry, so one turn more than there are entries is
    enough.  Subtraction on [N] saturates. *)
Fixpoint evict_loop (fuel : nat) (c : Inner M) : Inner M :=
  match fuel with
  | 0 => c
  | S fuel' =>
      if decide (max_bytes c < used_bytes c)%N then
        match lhm_pop_front (entries c) with
        | (None, _) => c
        | (Some (_, removed), m) =>
            evict_loop fuel' (mkInner (max_bytes c) (page_size_bytes c) (used_bytes c - len removed) m)
        end
      else c
  end.

Definition evict_if_needed (c : Inner M) : Inner M := evict_loop (S (lhm_len (entries c))) c.

Definition put (key : string) (data : list byte) (c : Inner M) : Inner M :=
  let '(previous, m) := lhm_remove key (entries c) in
  let used := match previous with Some p => used_bytes c - len p | None => used_bytes c end%N in
  evict_if_needed
    (mkInner (max_bytes c) (page_size_bytes c) (u64_wrapping_add used (len data))
       (lhm_insert key data m)).

Definition cache_get (key : string) (c : Inner M) : option (list byte) := lhm_get key (entries c).

Definition entry_count (c : Inner M) : nat := lhm_len (entries c).

Definition set_max_bytes (max : N) (c : Inner M) : Inner M :=
  evict_if_needed (mkInner max (page_size_bytes c) (used_bytes c) (entries c)).

Definition set_page_size_bytes (page_size : N) (c : Inner M) : Inner M :=
  mkInner (max_bytes c) page_size (used_bytes c) (entries c).

(** * The abstract cache: a capacity and the pages, oldest first *)

Definition total (l : list (string * list byte)) : N := foldr (λ e n, len e.2 + n)%N 0%N l.

(** What is left after evicting the oldest pages until the rest fits. *)
Fixpoint fit (max : N) (l : list (string * list byte)) : list (string * list byte) :=
  match l with
  | [] => []
  | _ :: l' => if decide (total l <= max)%N then l else fit max l'
  end.

Inductive cache_call : Type :=
| Put (key : string) (data : list byte)
| SetMax (max : N)
| SetPageSize (page_size : N).

Definition fifo : Type := N * list (string * list byte).

Definition fifo_step (s : fifo) (c : cache_call) : fifo :=
  match c with
  | Put key data => (s.1, fit s.1 (filter (λ e, e.1 ≠ key) s.2 ++ [(key, data)]))
  | SetMax max => (max, fit max s.2)
  | SetPageSize _ => s
  end.

Definition cache_step (c : Inner M) (call : cache_call) : Inner M :=
  match call with
  | Put key data => put key data c
  | SetMax max => set_max_bytes max c
  | SetPageSize page_size => set_page_size_bytes page_size c
  end.

(** The abstraction function and the invariant. *)
Definition pages (c : Inner M) : list (string * list byte) := lhm_iter (entries c).
Definition cache_abs (c : Inner M) : fifo := (max_bytes c, pages c).

Record cache_ok (c : Inner M) : Prop := {
  ok_used : used_bytes c = total (pages c);
  ok_max : (used_bytes c <= max_bytes c)%N;
}.

Lemma total_app l1 l2 : total (l1 ++ l2) = (total l1 + total l2)%N.
Proof. induction l1 as [|e l1 IH]; simpl; [done|]. rewrite IH. lia. Qed.

Lemma total_fit max l : (total (fit max l) <= max)%N.
Proof. induction l as [|e l IH]; simpl fit; [simpl; lia|]. by case_decide. Qed.

Lemma fit_same max l : (total l <= max)%N -> fit max l = l.
Proof. destruct l; simpl; [done|]. intros. by rewrite decide_True. Qed.

(** [fit] keeps a suffix: the youngest pages. *)
Lemma fit_suffix max l : fit max l `suffix_of` l.
Proof.
  induction l as [|e l IH]; [done|]. simpl fit. case_decide; [done|]. by apply suffix_cons_r.
Qed.

Lemma evict_loop_spec fuel c :
  length (pages c) < fuel -> used_bytes c = total (pages c) ->
  cache_abs (evict_loop fuel c) = (max_bytes c, fit (max_bytes c) (pages c)) /\
  cache_ok (evict_loop fuel c).
Proof.
  revert c; induction fuel as [|fuel IH]; intros c Hf Hu; [lia|]. simpl.
  pose proof (lhm_pop_front_iter (entries c)) as Hpop. fold (pages c) in Hpop.
  case_decide as Hover.
  - destruct (pages c) as [|[k d] l] eqn:E; [simpl in Hu; lia|].
    destruct Hpop as (m' & -> & Hm'). simpl in Hu, Hf.
    destruct (IH (mkInner (max_bytes c) (page_size_bytes c) (used_bytes c - len d) m')) as [Ha Hok].
    { unfold pages; simpl. rewrite Hm'. lia. }
    { unfold pages; simpl. rewrite Hm'. lia. }
    split; [|done]. rewrite Ha. unfold pages; simpl. rewrite Hm'.
    rewrite decide_False by (rewrite <- Hu; lia). done.
  - split; [|split; [done|lia]]. unfold cache_abs. rewrite fit_same by lia. done.
Qed.

Lemma evict_if_needed_spec c :
  used_bytes c = total (pages c) ->
  cache_abs (evict_if_needed c) = (max_bytes c, fit (max_bytes c) (pages c)) /\
  cache_ok (evict_if_needed c).
Proof. intros. apply evict_loop_spec; [|done]. rewrite lhm_len_iter. unfold pages. lia. Qed.

Lemma total_remove k d l :
  NoDup (fst <$> l) -> (k, d) ∈ l -> total l = (len d + total (filter (λ e, e.1 ≠ k) l))%N.
Proof.
  induction l as [|[k' d'] l IH]; intros Hnd Hin; [by apply not_elem_of_nil in Hin|].
  csimpl in Hnd. apply NoDup_cons in Hnd as [Hk Hnd]. rewrite filter_cons. simpl.
  apply elem_of_cons in Hin as [[= <- <-]|Hin].
  - rewrite decide_False by naive_solver. rewrite filter_all; [done|].
    intros [k2 d2] Hin E. simpl in E. subst. apply Hk. apply list_elem_of_fmap. by exists (k, d2).
  - case_decide as Hkk; simpl in Hkk.
    + simpl. rewrite (IH Hnd Hin). lia.
    + subst. exfalso. apply Hk. apply list_elem_of_fmap. by exists (k, d).
Qed.

Lemma get_None k m : lhm_get k m = None -> filter (λ e, e.1 ≠ k) (lhm_iter m) = lhm_iter m.
Proof.
  intros Hn. apply filter_all. intros [k' d] Hin E. simpl in E. subst.
  apply lhm_get_iter in Hin. congruence.
Qed.

Lemma put_spec key data c :
  cache_ok c -> (max_bytes c + len data <= U64_MAX)%N ->
  cache_abs (put key data c) = fifo_step (cache_abs c) (Put key data) /\ cache_ok (put key data c).
Proof.
  intros [Hu Hm] Hsize. unfold put. destruct (lhm_remove_iter key (entries c)) as [Er Hr].
  destruct (lhm_remove key (entries c)) as [prev m]. simpl in Er, Hr. subst prev.
  fold (pages c) in Hr.
  set (used := match lhm_get key (entries c) with Some p => (used_bytes c - len p)%N | None => used_bytes c end).
  assert (used = total (filter (λ e, e.1 ≠ key) (pages c))) as Hused.
  { unfold used. destruct (lhm_get key (entries c)) as [p|] eqn:Eg.
    - apply lhm_get_iter in Eg. rewrite Hu, (total_remove key p (pages c)); [lia|apply lhm_keys|done].
    - rewrite Hu. unfold pages. by rewrite (get_None _ _ Eg). }
  assert (lhm_get key m = None) as Hnone.
  { destruct (lhm_get key m) as [v|] eqn:E; [|done]. apply lhm_get_iter in E. rewrite Hr in E.
    by apply list_elem_of_filter in E as [? _]. }
  assert (used <= used_bytes c)%N as Hle by (unfold used; destruct (lhm_get _ _); lia).
  unfold u64_wrapping_add. rewrite as_u64_small by lia.
  destruct (evict_if_needed_spec
    (mkInner (max_bytes c) (page_size_bytes c) (used + len data) (lhm_insert key data m))) as [Ha Hok].
  { unfold pages; simpl. rewrite lhm_insert_iter, Hr, total_app by done. simpl. lia. }
  split; [|done]. rewrite Ha. unfold pages at 1; simpl. by rewrite lhm_insert_iter, Hr.
Qed.

Lemma cache_step_spec c call :
  cache_ok c ->
  match call with Put _ data => (max_bytes c + len data <= U64_MAX)%N | _ => True end ->
  cache_abs (cache_step c call) = fifo_step (cache_abs c) call /\ cache_ok (cache_step c call).
Proof.
  intros Hok Hsize. destruct call as [key data|max|ps]; simpl cache_step.
  - by apply put_spec.
  - apply (evict_if_needed_spec (mkInner max (page_size_bytes c) (used_bytes c) (entries c))).
    apply Hok.
  - split; [done|]. by destruct Hok.
Qed.

(** Every capacity the calls set, and every page, fits [u64] together. *)
Fixpoint sizes_fit (max : N) (calls : list cache_call) : Prop :=
  match calls with
  | [] => True
  | Put _ data :: calls' => (max + len data <= U64_MAX)%N /\ sizes_fit max calls'
  | SetMax max' :: calls' => sizes_fit max' calls'
  | SetPageSize _ :: calls' => sizes_fit max calls'
  end.

(** The cache refines a bounded queue of pages: after any sequence of calls it holds exactly the
    pages of the abstract cache, in insertion order; [used_bytes] is exactly their total size
    and never exceeds [max_bytes]; and a lookup returns a page exactly when the abstract cache
    holds it. *)
Theorem page_cache_refines_fifo max page_size calls (Hsizes : sizes_fit max calls) :
  let c := foldl cache_step (with_capacity max page_size) calls in
  let spec := foldl fifo_step (max, []) calls in
  (max_bytes c, lhm_iter (entries c)) = spec /\
  used_bytes c = total spec.2 /\ (used_bytes c <= max_bytes c)%N /\
  (forall key data, cache_get key c = Some data <-> (key, data) ∈ spec.2).
Proof.
  simpl. assert (cache_ok (with_capacity max page_size)) as Hok.
  { split; unfold pages; simpl; [by rewrite lhm_new_iter|lia]. }
  assert ((max, []) = cache_abs (with_capacity max page_size)) as Habs.
  { unfold cache_abs, pages. simpl. by rewrite lhm_new_iter. }
  rewrite Habs. change max with (max_bytes (with_capacity max page_size)) in Hsizes at 1.
  clear Habs. revert Hok Hsizes. generalize (with_capacity max page_size).
  induction calls as [|call calls IH]; intros c Hok Hsizes; simpl.
  - destruct Hok as [Hu Hm]. unfold cache_abs. repeat split; try done; apply lhm_get_iter.
  - destruct (cache_step_spec c call Hok) as [Ha Hok']; [by destruct call; try destruct Hsizes|].
    rewrite <- Ha. apply IH; [done|]. change (max_bytes (cache_step c call)) with (cache_abs (cache_step c call)).1.
    rewrite Ha. destruct call; simpl in *; tauto.
Qed.

(** A page that fits is there after it is put; a larger one is not and clears the cache. *)
Lemma fit_last max l key data :
  (key, data) ∈ fit max (l ++ [(key, data)]) <-> (len data <= max)%N.
Proof.
  assert (total [(key, data)] = len data) as Ht by (simpl; lia).
  induction l as [|e l IH]; cbn [app fit].
  - rewrite Ht. case_decide; split; try done; [by rewrite list_elem_of_singleton|].
    by intros ?%not_elem_of_nil.
  - case_decide as Hf; [|done]. split; [|intros _; right; apply elem_of_app; right; by left].
    intros _. simpl in Hf. rewrite total_app, Ht in Hf. lia.
Qed.
(** A page read back was put under its key last, or was there before. *)
Lemma evict_loop_suffix fuel c : pages (evict_loop fuel c) `suffix_of` pages c.
Proof.
  revert c; induction fuel as [|fuel IH]; intros c; [done|]. simpl.
  pose proof (lhm_pop_front_iter (entries c)) as Hpop. fold (pages c) in Hpop.
  case_decide; [|done]. destruct (pages c) as [|e l] eqn:E.
  - rewrite Hpop. by rewrite E.
  - destruct Hpop as (m' & -> & Hm'). destruct e as [k d].
    etrans; [apply IH|]. unfold pages. simpl. rewrite Hm'. by apply suffix_cons_r.
Qed.

Lemma put_lookup k v key data c :
  cache_get k (put key data c) = Some v -> (k = key /\ v = data) \/ cache_get k c = Some v.
Proof.
  unfold cache_get, put. destruct (lhm_remove_iter key (entries c)) as [Er Hr].
  destruct (lhm_remove key (entries c)) as [prev m]. simpl in Er, Hr.
  rewrite !lhm_get_iter. intros Hin.
  eapply elem_of_suffix in Hin; [|apply evict_loop_suffix]. unfold pages in Hin; simpl in Hin.
  rewrite lhm_insert_iter, Hr in Hin.
  - apply elem_of_app in Hin as [[_ Hin]%list_elem_of_filter|Hin%list_elem_of_singleton]; [by right|].
    left. by simplify_eq.
  - destruct (lhm_get key m) as [w|] eqn:Ew; [|done]. apply lhm_get_iter in Ew. rewrite Hr in Ew.
    by apply list_elem_of_filter in Ew as [? _].
Qed.

Lemma put_stays key data c :
  cache_ok c -> (max_bytes c + len data <= U64_MAX)%N -> (len data <= max_bytes c)%N ->
  cache_get key (put key data c) = Some data.
Proof.
  intros Hok Hsize Hfit. destruct (put_spec key data c Hok Hsize) as [Ha _].
  unfold cache_get. apply lhm_get_iter. change (lhm_iter (entries (put key data c))) with (cache_abs (put key data c)).2.
  rewrite Ha. by apply fit_last.
Qed.
End Cache.

(** * The interface is inhabited: an association list *)

Definition alist : Type := { l : list (string * list byte) | bool_decide (NoDup (fst <$> l)) = true }.

Lemma alist_filter_ok k (l : list (string * list byte)) :
  bool_decide (NoDup (fst <$> l)) = true ->
  bool_decide (NoDup (fst <$> filter (λ e, e.1 ≠ k) l)) = true.
Proof.
  rewrite !bool_decide_eq_true. intros Hnd. eapply sublist_NoDup; [exact Hnd|].
  by rewrite sublist_filter.
Qed.

Lemma alist_insert_ok k v (l : list (string * list byte)) :
  bool_decide (NoDup (fst <$> l)) = true ->
  bool_decide (NoDup (fst <$> filter (λ e, e.1 ≠ k) l ++ [(k, v)])) = true.
Proof.
  intros Hl. apply alist_filter_ok with (k := k) in Hl. rewrite bool_decide_eq_true in *.
  rewrite fmap_app. apply NoDup_app. split; [done|]. split; [|apply NoDup_singleton].
  intros x ([k' v'] & -> & [Hk _]%list_elem_of_filter)%list_elem_of_fmap Hx.
  by apply list_elem_of_singleton in Hx.
Qed.

Lemma alist_tail_ok e (l : list (string * list byte)) :
  bool_decide (NoDup (fst <$> e :: l)) = true -> bool_decide (NoDup (fst <$> l)) = true.
Proof. rewrite !bool_decide_eq_true. csimpl. by intros [_ ?]%NoDup_cons. Qed.

Definition alist_get (k : string) (l : list (string * list byte)) : option (list byte) :=
  snd <$> List.find (λ e, bool_decide (e.1 = k)) l.

Definition alist_pop (m : alist) : option (string * list byte) * alist :=
  match m with
  | exist _ [] _ => (None, m)
  | exist _ (e :: l) Hl => (Some e, exist _ l (alist_tail_ok e l Hl))
  end.

#[export] Instance alist_map : LinkedHashMap alist := {|
  lhm_new := exist _ [] eq_refl;
  lhm_get k m := alist_get k (proj1_sig m);
  lhm_insert k v m := exist _ _ (alist_insert_ok k v _ (proj2_sig m));
  lhm_remove k m := (alist_get k (proj1_sig m), exist _ _ (alist_filter_ok k _ (proj2_sig m)));
  lhm_pop_front := alist_pop;
  lhm_len m := length (proj1_sig m);
  lhm_iter m := proj1_sig m;
|}.

Lemma alist_get_spec k v l :
  NoDup (fst <$> l) -> alist_get k l = Some v <-> (k, v) ∈ l.
Proof.
  unfold alist_get. induction l as [|[k' v'] l IH]; intros Hnd; simpl.
  { split; [done|]. by intros ?%not_elem_of_nil. }
  csimpl in Hnd. apply NoDup_cons in Hnd as [Hk Hnd]. rewrite elem_of_cons.
  case_bool_decide as E; simpl in *.
  - subst. split; [intros [= ->]; by left|]. intros [[= ->]|Hin]; [done|].
    exfalso. apply Hk. apply list_elem_of_fmap. by exists (k, v).
  - rewrite (IH Hnd). naive_solver.
Qed.

#[export] Instance alist_laws : LinkedHashMapLaws alist.
Proof.
  split; simpl.
  - done.
  - intros [l Hl]. by apply (bool_decide_eq_true_1 _ Hl).
  - done.
  - intros k v [l Hl]. apply alist_get_spec. by apply (bool_decide_eq_true_1 _ Hl).
  - done.
  - intros k v [l Hl] Hg. simpl in *. rewrite filter_all; [done|].
    intros [k' v'] Hin E. simpl in E. subst.
    apply alist_get_spec in Hin; [congruence|]. by apply (bool_decide_eq_true_1 _ Hl).
  - intros [[|e l] Hl]; simpl; [done|]. by eexists.
Qed.

Definition sample_calls : list cache_call :=
  [Put "a" (chars "xxx"); Put "b" (chars "yy"); Put "c" (chars "z"); SetMax 3; Put "b" (chars "w")].

Lemma page_cache_refines_fifo_witness :
  let c := foldl (cache_step (M:=alist)) (with_capacity 5 4096) sample_calls in
  let spec := foldl fifo_step (5%N, []) sample_calls in
  (max_bytes c, lhm_iter (entries c)) = spec /\
  used_bytes c = total spec.2 /\ (used_bytes c <= max_bytes c)%N /\
  (forall key data, cache_get key c = Some data <-> (key, data) ∈ spec.2).
Proof.
  apply (page_cache_refines_fifo (M:=alist) 5 4096 sample_calls).
  repeat (split; [vm_compute; discriminate|]). exact I.
Defined.
