(* ===== verification/FsShell.v ===== *)
(** The in-memory file system shell: crates/pcloud-fs/src/{read_path,journal,writeback,mount,lib}.rs
    over crates/pcloud-cache/src/{staging,lib}.rs and the page cache of [PageCache].

    The daemon stages downloaded files in it and reads upload payloads from it.  A read goes
    through windows cached under the path; staging a path again does not drop its windows, and
    the theorems say what that does.  Offsets and sizes are [usize]s in [N]. *)
From stdpp Require Import pretty.
From S2P Require Import Prelude Paths Bytes PageCache.

(** * The staging cache: crates/pcloud-cache/src/staging.rs *)

Record StagingCache : Type := mkStagingCache {
  max_open_files : nat;
  files : gmap string (list byte);
  open_order : list string;
}.

Definition StagingCache_default : StagingCache := mkStagingCache 64 ∅ [].

(** The [while] loop of [evict_if_needed] takes one path from the queue in each turn. *)
Fixpoint evict_staged (max : nat) (order : list string) (files : gmap string (list byte))
    : list string * gmap string (list byte) :=
  if decide (max < size files) then
    match order with
    | [] => ([], files)
    | oldest :: order' => evict_staged max order' (delete oldest files)
    end
  else (order, files).

Definition stage (path : string) (bytes : list byte) (s : StagingCache) : StagingCache :=
  let order := if decide (is_Some (files s !! path))
               then filter (λ entry, entry ≠ path) (open_order s) else open_order s in
  let '(order, files) :=
    evict_staged (max_open_files s) (order ++ [path]) (<[path := bytes]> (files s)) in
  mkStagingCache (max_open_files s) files order.

Definition staged_get (s : StagingCache) (path : string) : option (list byte) := files s !! path.

Definition staged_count (s : StagingCache) : nat := size (files s).

(** What the write-back service does to a path it rolls back or flushes. *)
Definition unstage (path : string) (s : StagingCache) : StagingCache :=
  mkStagingCache (max_open_files s) (delete path (files s))
    (filter (λ candidate, candidate ≠ path) (open_order s)).

(** * The write-back journal: crates/pcloud-fs/src/journal.rs *)

Definition CURRENT_VERSION : N := 1.

Inductive JournalError : Type :=
| Full (pending capacity : nat)
| VersionMismatch (found supported : N).

Record JournalEntry : Type := mkJournalEntry {
  entry_path : string;
  operation : string;
  entry_bytes : N;
}.

Record WritebackJournal : Type := mkWritebackJournal {
  version : N;
  max_pending_operations : nat;
  pending : list JournalEntry;
}.

Definition WritebackJournal_default : WritebackJournal :=
  mkWritebackJournal CURRENT_VERSION (N.to_nat 4096) [].

Definition wb_append (entry : JournalEntry) (j : WritebackJournal)
    : result unit JournalError * WritebackJournal :=
  if decide (max_pending_operations j <= length (pending j))
  then (Err (Full (length (pending j)) (max_pending_operations j)), j)
  else (Ok (), mkWritebackJournal (version j) (max_pending_operations j) (pending j ++ [entry])).

(** [for _ in 0..limit], stopping at an empty queue. *)
Fixpoint pop_entries (limit : nat) (pending drained : list JournalEntry)
    : list JournalEntry * list JournalEntry :=
  match limit, pending with
  | S limit', entry :: pending' => pop_entries limit' pending' (drained ++ [entry])
  | _, _ => (drained, pending)
  end.

Definition wb_drain (limit : nat) (j : WritebackJournal) : list JournalEntry * WritebackJournal :=
  let '(drained, rest) := pop_entries limit (pending j) [] in
  (drained, mkWritebackJournal (version j) (max_pending_operations j) rest).

Definition ensure_compatible_version (j : WritebackJournal)
    : result unit JournalError * WritebackJournal :=
  if decide (CURRENT_VERSION < version j)%N
  then (Err (VersionMismatch (version j) CURRENT_VERSION), j)
  else if decide (version j = 0)%N
       then (Ok (), mkWritebackJournal 1 (max_pending_operations j) (pending j))
       else (Ok (), j).

(** * The write-back service: crates/pcloud-fs/src/writeback.rs *)

Record WritebackService : Type := mkWritebackService {
  flush_threshold_bytes : N;
  staging : StagingCache;
  completed_writes : N;
}.

Definition WritebackService_default : WritebackService :=
  mkWritebackService (4 * 1024 * 1024) StagingCache_default 0.

Definition stage_write (path : string) (bytes : list byte) (w : WritebackService) (j : WritebackJournal)
    : result unit JournalError * WritebackService * WritebackJournal :=
  let staged := stage path bytes (staging w) in
  match wb_append (mkJournalEntry path "write" (len bytes)) j with
  | (Ok _, j') => (Ok (), mkWritebackService (flush_threshold_bytes w) staged (completed_writes w), j')
  | (Err e, j') =>
      (Err e, mkWritebackService (flush_threshold_bytes w) (unstage path staged) (completed_writes w), j')
  end.

(** [completed_writes] counts up by the number of drained entries. *)
Definition wb_flush (max_entries : nat) (w : WritebackService) (j : WritebackJournal)
    : list JournalEntry * WritebackService * WritebackJournal :=
  let '(drained, j') := wb_drain max_entries j in
  (drained,
   mkWritebackService (flush_threshold_bytes w)
     (foldl (λ s e, unstage (entry_path e) s) (staging w) drained)
     (completed_writes w + len drained), j').

(** * Mount policy: crates/pcloud-fs/src/mount.rs *)

Inductive MountPolicyError : Type :=
| AllowOtherRequiresReadOnly
| AllowOtherRequiresFuseConf.

Record MountService : Type := mkMountService {
  allow_other : bool;
  read_only : bool;
}.

(** [str::lines] splits at LF and drops a CR before it; [trim] drops that anyway. *)
Fixpoint split_lines (l : list ascii) (line : list ascii) : list (list ascii) :=
  match l with
  | [] => if bool_decide (line = []) then [] else [line]
  | c :: l' => if bool_decide (c = "010"%char) then line :: split_lines l' [] else split_lines l' (line ++ [c])
  end.

(** Linux: [conf] is the content of /etc/fuse.conf, [None] when it cannot be read. *)
Definition check_user_allow_other (conf : option (list ascii)) : result unit MountPolicyError :=
  match conf with
  | None => Err AllowOtherRequiresFuseConf
  | Some contents =>
      if existsb (λ line, let trimmed := trim line in
                          negb (bool_decide (head trimmed = Some "#"%char)) &&
                          bool_decide (trimmed = chars "user_allow_other"))
           (split_lines contents [])
      then Ok () else Err AllowOtherRequiresFuseConf
  end.

Definition validate_mount (conf : option (list ascii)) (m : MountService) : result unit MountPolicyError :=
  if allow_other m && negb (read_only m) then Err AllowOtherRequiresReadOnly
  else if allow_other m then check_user_allow_other conf
  else Ok ().

(** * The read path: crates/pcloud-fs/src/read_path.rs *)

Inductive ReadSource : Type :=
| Stage
| Cache.

Inductive ReadPathError : Type :=
| InvalidRange (path : string) (offset : N)
| MissingPath (path : string).

Record ReadResult : Type := mkReadResult {
  rr_path : string;
  rr_offset : N;
  rr_bytes : list byte;
  rr_source : ReadSource;
  rr_prefetched_until : N;
}.

Definition window_start (window : N) (offset : N) : N :=
  let window := N.max window 1 in (offset / window * window)%N.

Definition window_bounds (window total_len offset : N) : result (N * N) ReadPathError :=
  if decide (total_len < offset)%N then Err (InvalidRange "" offset)
  else let start := window_start window offset in
       Ok (start, N.min total_len (u64_saturating_add start (N.max window 1))).

Definition window_cache_key (window : N) (path : string) (offset : N) : string :=
  "read:" +:+ path +:+ ":" +:+ pretty (window_start window offset).

Section Shell.
Context {M : Type} `{LinkedHashMapLaws M}.

Record ReadPathService : Type := mkReadPathService {
  prefetch_window_bytes : N;
  pages_of : PageCache.Inner M;
}.

Definition ReadPathService_default : ReadPathService := mkReadPathService (256 * 1024) Inner_default.

(** The [while] loop; [None] when it needs more than [fuel] evaluations of its condition. *)
Fixpoint read_loop (fuel : nat) (window : N) (path : string) (staged : list byte) (target_len cursor : N)
    (bytes : list byte) (prefetched_until : N) (all_from_cache : bool) (c : PageCache.Inner M)
    : option (result (list byte * N * bool) ReadPathError * PageCache.Inner M) :=
  match fuel with
  | 0 => None
  | S fuel' =>
      if decide (cursor < target_len)%N then
        let start := window_start window cursor in
        let key := window_cache_key window path cursor in
        let use page source c :=
          let relative_offset := (cursor - start)%N in
          if decide (len page < relative_offset)%N then Some (Err (InvalidRange path cursor), c)
          else
            let chunk_len := N.min (len page - relative_offset) (target_len - cursor) in
            read_loop fuel' window path staged target_len (u64_saturating_add cursor chunk_len)
              (bytes ++ sub_bytes relative_offset (relative_offset + chunk_len) page)
              (N.max prefetched_until (start + len page))
              (all_from_cache && match source with Cache => true | Stage => false end) c in
        match cache_get key c with
        | Some page => use page Cache c
        | None =>
            match window_bounds window (len staged) cursor with
            | Err e => Some (Err e, c)
            | Ok (_, window_end) =>
                let page := sub_bytes start window_end staged in use page Stage (put key page c)
            end
        end
      else Some (Ok (bytes, prefetched_until, all_from_cache), c)
  end.

Definition read_service (fuel : nat) (s : StagingCache) (path : string) (offset requested_bytes : N)
    (r : ReadPathService) : option (result ReadResult ReadPathError * ReadPathService) :=
  match staged_get s path with
  | None => Some (Err (MissingPath path), r)
  | Some staged =>
      if decide (len staged < offset)%N then Some (Err (InvalidRange path offset), r)
      else if decide (requested_bytes = 0)%N then Some (Ok (mkReadResult path offset [] Cache offset), r)
      else
        let target_len := N.min (len staged) (u64_saturating_add offset requested_bytes) in
        match read_loop fuel (prefetch_window_bytes r) path staged target_len offset [] offset true (pages_of r) with
        | None => None
        | Some (Err e, c) => Some (Err e, mkReadPathService (prefetch_window_bytes r) c)
        | Some (Ok (bytes, prefetched_until, all_from_cache), c) =>
            Some (Ok (mkReadResult path offset bytes (if all_from_cache then Cache else Stage) prefetched_until),
                  mkReadPathService (prefetch_window_bytes r) c)
        end
  end.

(** * The shell: crates/pcloud-fs/src/lib.rs *)

Record FilesystemShell : Type := mkFilesystemShell {
  mount : MountService;
  reads : ReadPathService;
  writeback : WritebackService;
  journal : WritebackJournal;
}.

Definition FilesystemShell_default : FilesystemShell :=
  mkFilesystemShell (mkMountService false false) ReadPathService_default WritebackService_default
    WritebackJournal_default.

Definition validate_mount_policy (conf : option (list ascii)) (fs : FilesystemShell)
    : result unit MountPolicyError := validate_mount conf (mount fs).

Definition with_writeback (w : WritebackService) (j : WritebackJournal) (fs : FilesystemShell) : FilesystemShell :=
  mkFilesystemShell (mount fs) (reads fs) w j.

Definition seed_staged_file (path : string) (bytes : list byte) (fs : FilesystemShell) : FilesystemShell :=
  let w := writeback fs in
  with_writeback (mkWritebackService (flush_threshold_bytes w) (stage path bytes (staging w)) (completed_writes w))
    (journal fs) fs.

Definition journal_write (path : string) (bytes : nat) (fs : FilesystemShell)
    : result unit JournalError * FilesystemShell :=
  let '(r, w, j) := stage_write path (replicate bytes "000"%char) (writeback fs) (journal fs) in
  (r, with_writeback w j fs).

Definition read_staged_path (fuel : nat) (path : string) (offset requested_bytes : N) (fs : FilesystemShell)
    : option (result ReadResult ReadPathError * FilesystemShell) :=
  (λ '(r, reads), (r, mkFilesystemShell (mount fs) reads (writeback fs) (journal fs)))
    <$> read_service fuel (staging (writeback fs)) path offset requested_bytes (reads fs).

Definition staged_bytes (fs : FilesystemShell) (path : string) : option (list byte) :=
  staged_get (staging (writeback fs)) path.

Definition staged_len (fs : FilesystemShell) (path : string) : option N := len <$> staged_bytes fs path.

(** [read_local_upload_payload] of crates/pcloud-daemon/src/runtime.rs; [Err tt] is
    [RecoveryFailure::InvalidPath]. *)
Definition read_local_upload_payload (fuel : nat) (path : string) (cache_staging : StagingCache)
    (fs : FilesystemShell) : option (result (list byte) unit * FilesystemShell) :=
  (λ '(r, fs'),
     (match r with
      | Ok res => Ok (rr_bytes res)
      | Err _ => match staged_get cache_staging path with Some bytes => Ok bytes | None => Err tt end
      end, fs'))
    <$> read_staged_path fuel path 0 U64_MAX fs.

Definition flush_writeback (max_entries : nat) (fs : FilesystemShell) : list JournalEntry * FilesystemShell :=
  let '(drained, w, j) := wb_flush max_entries (writeback fs) (journal fs) in
  (drained, with_writeback w j fs).
End Shell.

(** * Staged files *)

Record staged_ok (s : StagingCache) : Prop := {
  so_order : NoDup (open_order s);
  so_files p : is_Some (files s !! p) <-> p ∈ open_order s;
  so_size : size (files s) <= max_open_files s;
}.

Lemma order_size (order : list string) (fs : gmap string (list byte)) :
  NoDup order -> (forall p, is_Some (fs !! p) <-> p ∈ order) -> size fs = length order.
Proof.
  intros Hnd Hf. rewrite <- size_dom, <- (size_list_to_set (C:=gset string)) by done. f_equal.
  apply set_eq. intros p. by rewrite elem_of_dom, elem_of_list_to_set, Hf.
Qed.

Lemma evict_staged_spec max order fs :
  NoDup order -> (forall p, is_Some (fs !! p) <-> p ∈ order) ->
  let '(order', fs') := evict_staged max order fs in
  order' = drop (length order - max) order /\ NoDup order' /\
  (forall p, fs' !! p = if decide (p ∈ order') then fs !! p else None).
Proof.
  revert fs; induction order as [|p order IH]; intros fs Hnd Hf; cbn [evict_staged].
  - rewrite (order_size [] fs) by done. rewrite decide_False by (simpl; lia). split_and!; [done..|].
    intros q. case_decide; [done|]. apply eq_None_not_Some. rewrite Hf. done.
  - rewrite (order_size (p :: order) fs) by done. case_decide as Hover; simpl in Hover.
    + apply NoDup_cons in Hnd as [Hp Hnd].
      specialize (IH (delete p fs) Hnd). destruct (evict_staged max order (delete p fs)) as [o f].
      destruct IH as (Ho & Hnd' & Hl).
      { intros q. rewrite lookup_delete_is_Some, Hf, elem_of_cons.
        split; [naive_solver|]. intros Hq. split; [|by right]. by intros ->. }
      split_and!; [|done|].
      * cbn [length]. replace (S (length order) - max) with (S (length order - max)) by lia. done.
      * intros q. rewrite Hl. case_decide as Hq; [|done]. apply lookup_delete_ne. intros <-.
        apply Hp. rewrite Ho in Hq. eapply elem_of_suffix; [exact Hq|]. apply suffix_drop.
    + cbn [length]. replace (S (length order) - max) with 0 by lia. split_and!; [done..|].
      intros q. case_decide as Hq; [done|]. apply eq_None_not_Some. by rewrite Hf.
Qed.

(** Staging keeps the youngest [max_open_files] paths, the staged one last. *)
Lemma stage_spec path bytes s :
  staged_ok s ->
  let s' := stage path bytes s in
  let order := filter (λ p, p ≠ path) (open_order s) ++ [path] in
  staged_ok s' /\ max_open_files s' = max_open_files s /\
  open_order s' = drop (length order - max_open_files s) order /\
  (forall p, staged_get s' p = if decide (p ∈ open_order s')
                               then if decide (p = path) then Some bytes else staged_get s p else None).
Proof.
  intros [Hnd Hf Hsz]. cbv zeta. unfold stage, staged_get.
  assert ((if decide (is_Some (files s !! path)) then filter (λ entry, entry ≠ path) (open_order s)
           else open_order s) = filter (λ p, p ≠ path) (open_order s)) as ->.
  { case_decide as Hp; [done|]. symmetry. apply filter_all. intros q Hq ->. by apply Hp, Hf. }
  set (order := filter _ _ ++ [path]).
  pose proof (evict_staged_spec (max_open_files s) order (<[path:=bytes]> (files s))) as He.
  destruct (evict_staged _ order _) as [o f]. destruct He as (Ho & Hnd' & Hl).
  { apply NoDup_app. split; [by apply NoDup_filter|]. split; [|apply NoDup_singleton].
    intros q [Hq _]%list_elem_of_filter. by intros ->%list_elem_of_singleton. }
  { intros p. rewrite lookup_insert_is_Some, Hf. unfold order.
    rewrite elem_of_app, list_elem_of_filter, list_elem_of_singleton. split.
    - intros [<-|[? ?]]; [by right|left; split; congruence].
    - intros [[? ?]|<-]; [right; split; congruence|by left]. }
  assert (forall p, is_Some (f !! p) <-> p ∈ o) as Hfo.
  { intros p. rewrite Hl. case_decide as Hp; [|split; [by intros []|done]].
    split; [done|]. intros _. rewrite Ho in Hp.
    eapply elem_of_suffix in Hp; [|apply suffix_drop]. unfold order in Hp.
    rewrite elem_of_app, list_elem_of_filter, list_elem_of_singleton in Hp.
    rewrite lookup_insert_is_Some, Hf. destruct Hp as [[? ?]| ->]; [right; split; congruence|by left]. }
  simpl. split_and!; [|done|done|].
  - split; simpl; [done..|]. rewrite (order_size o f) by done. rewrite Ho, length_drop. lia.
  - intros p. rewrite Hl. case_decide; [|done]. case_decide as Hp.
    + subst. apply lookup_insert_eq.
    + by apply lookup_insert_ne.
Qed.

Lemma unstage_ok path s : staged_ok s -> staged_ok (unstage path s).
Proof.
  intros [Hnd Hf Hsz]. split; simpl.
  - by apply NoDup_filter.
  - intros p. rewrite lookup_delete_is_Some, list_elem_of_filter, Hf. naive_solver.
  - rewrite map_size_delete. destruct (_ !! path); simpl; lia.
Qed.

(** * The journal is a bounded queue *)

Inductive journal_call : Type :=
| Append (e : JournalEntry)
| Drain (limit : nat).

Definition journal_step (s : list JournalEntry * list JournalEntry * WritebackJournal) (c : journal_call)
    : list JournalEntry * list JournalEntry * WritebackJournal :=
  let '(accepted, drained, j) := s in
  match c with
  | Append e => let '(r, j) := wb_append e j in (if is_ok r then accepted ++ [e] else accepted, drained, j)
  | Drain n => let '(l, j) := wb_drain n j in (accepted, drained ++ l, j)
  end.

Lemma pop_entries_spec limit pending drained :
  pop_entries limit pending drained = (drained ++ take limit pending, drop limit pending).
Proof.
  revert pending drained; induction limit as [|n IH]; intros [|e l] d; simpl; try by rewrite app_nil_r.
  rewrite IH. by rewrite <- (assoc_L (++)).
Qed.

(** The write-back journal loses nothing and reorders nothing: over any appends and drains,
    what was drained followed by what is pending is exactly what was accepted, an entry is
    refused exactly when the journal is full, and the journal never exceeds its bound. *)
Theorem writeback_journal_fifo max calls :
  let '(accepted, drained, j) :=
    foldl journal_step ([], [], mkWritebackJournal CURRENT_VERSION max []) calls in
  drained ++ pending j = accepted /\ length (pending j) <= max /\
  (forall e, is_ok (wb_append e j).1 = true <-> length (pending j) < max).
Proof.
  set (P := λ s : list JournalEntry * list JournalEntry * WritebackJournal,
    let '(accepted, drained, j) := s in
    drained ++ pending j = accepted /\ length (pending j) <= max /\ max_pending_operations j = max).
  assert (forall s, P s -> P (foldl journal_step s calls)) as Hrun.
  { induction calls as [|c calls IH]; intros s Hs; [done|]. apply IH. clear IH.
    destruct s as [[accepted drained] j], Hs as (Hd & Hl & Hm), c as [e|n]; simpl.
    - unfold wb_append. case_decide; simpl; [done|]. split_and!; [by rewrite (assoc_L (++)), Hd| |done].
      rewrite length_app; simpl; lia.
    - unfold wb_drain. rewrite pop_entries_spec. simpl. rewrite <- (assoc_L (++)), take_drop.
      split_and!; [done| |done]. rewrite length_drop. lia. }
  specialize (Hrun ([], [], mkWritebackJournal CURRENT_VERSION max [])).
  destruct (foldl _ _ _) as [[accepted drained] j]. destruct Hrun as (H1 & H2 & H3).
  { split_and!; simpl; [done|lia|done]. }
  split_and!; [done..|]. intros e. unfold wb_append. rewrite H3. case_decide; simpl; split; done || lia.
Qed.

(** * Cache keys *)

(** The digits of a number hold no colon. *)
Definition no_colon (s : string) : Prop := ":"%char ∉ chars s.

Lemma pretty_char_no_colon x : pretty_N_char x <> ":"%char.
Proof. unfold pretty_N_char. destruct x as [|p]; [done|]. repeat (destruct p as [p|p|]; try done). Qed.

Lemma pretty_go_no_colon x s : no_colon s -> no_colon (pretty_N_go x s).
Proof.
  revert s; induction (N.lt_wf_0 x) as [x _ IH]; intros s Hs.
  destruct (decide (0 < x)%N) as [Hx|Hx].
  - rewrite pretty_N_go_step by done. apply IH.
    + apply N.div_lt; lia.
    + unfold no_colon. simpl. rewrite elem_of_cons. intros [He|]; [|done]. by eapply pretty_char_no_colon.
  - replace x with 0%N by lia. by rewrite pretty_N_go_0.
Qed.

Lemma pretty_no_colon (n : N) : no_colon (pretty n).
Proof.
  unfold pretty, pretty_N. case_decide.
  - unfold no_colon. simpl. rewrite elem_of_cons, elem_of_nil. by intros [|].
  - apply pretty_go_no_colon. apply not_elem_of_nil.
Qed.

Lemma last_colon (p1 p2 s1 s2 : list ascii) :
  ":"%char ∉ s1 -> ":"%char ∉ s2 -> p1 ++ ":"%char :: s1 = p2 ++ ":"%char :: s2 -> p1 = p2 /\ s1 = s2.
Proof.
  revert p2; induction p1 as [|c p1 IH]; intros [|d p2] H1 H2 E; cbn [app] in E.
  - by injection E.
  - injection E as _ ->. exfalso. apply H1, elem_of_app. right. by left.
  - injection E as _ <-. exfalso. apply H2, elem_of_app. right. by left.
  - injection E as -> E. by destruct (IH p2 H1 H2 E) as [-> ->].
Qed.

(** The windows of two paths never share a key. *)
Lemma window_cache_key_inj w p1 o1 p2 o2 :
  window_cache_key w p1 o1 = window_cache_key w p2 o2 ->
  p1 = p2 /\ window_start w o1 = window_start w o2.
Proof.
  unfold window_cache_key. intros E. apply (f_equal chars) in E. rewrite !chars_app in E.
  apply app_inv_head in E. simpl in E.
  apply last_colon in E as [Hp Hs]; [|apply pretty_no_colon..].
  split; [by apply chars_inj|]. apply chars_inj in Hs. by apply (inj pretty) in Hs.
Qed.

Lemma window_start_bounds w o :
  (window_start w o <= o)%N /\ (o < window_start w o + N.max w 1)%N.
Proof.
  unfold window_start. set (k := N.max w 1).
  pose proof (N.mul_div_le o k ltac:(lia)) as H1.
  pose proof (N.mul_succ_div_gt o k ltac:(lia)) as H2. nia.
Qed.

(** * Reading *)

Section Reading.
Context {M : Type} `{LinkedHashMapLaws M}.

(** The window of [staged] around [offset]. *)
Definition the_window (window : N) (staged : list byte) (offset : N) : list byte :=
  let start := window_start window offset in
  sub_bytes start (N.min (len staged) (start + N.max window 1)) staged.

(** The cached windows of a path are windows of its staged content. *)
Definition windows_of (window : N) (path : string) (staged : list byte) (c : PageCache.Inner M) : Prop :=
  forall offset page, cache_get (window_cache_key window path offset) c = Some page ->
                      page = the_window window staged offset.

Lemma windows_of_put window path staged offset c :
  windows_of window path staged c ->
  windows_of window path staged (put (window_cache_key window path offset) (the_window window staged offset) c).
Proof.
  intros Hc o page Hg. apply put_lookup in Hg as [[Hk ->]|Hg]; [|by apply Hc].
  apply window_cache_key_inj in Hk as [_ Hs]. unfold the_window. by rewrite Hs.
Qed.

Lemma windows_of_put_other window path path' staged offset page c :
  path' <> path -> windows_of window path staged c ->
  windows_of window path staged (put (window_cache_key window path' offset) page c).
Proof.
  intros Hne Hc o page' Hg. apply put_lookup in Hg as [[Hk ->]|Hg]; [|by apply Hc].
  by apply window_cache_key_inj in Hk as [-> _].
Qed.

Lemma window_bounds_spec window total offset :
  (offset <= total)%N -> (total <= U64_MAX)%N ->
  window_bounds window total offset =
  Ok (window_start window offset, N.min total (window_start window offset + N.max window 1)).
Proof.
  intros. unfold window_bounds. rewrite decide_False by lia. cbv zeta. do 2 f_equal.
  unfold u64_saturating_add. lia.
Qed.

(** What a read may do to the cached windows of a path and of the others. *)
Definition keeps_windows (window : N) (path : string) (staged : list byte) (c c' : PageCache.Inner M) : Prop :=
  windows_of window path staged c' /\
  (forall path' staged', path' <> path -> windows_of window path' staged' c -> windows_of window path' staged' c').

(** One turn of the loop when the window is right: it reads on and advances. *)
Lemma read_loop_turn fuel window path staged target cursor bytes pre all c :
  windows_of window path staged c -> (len staged <= U64_MAX)%N ->
  (cursor < target)%N -> (target <= len staged)%N ->
  exists next pre' all' c1,
    read_loop (S fuel) window path staged target cursor bytes pre all c =
      read_loop fuel window path staged target next (bytes ++ sub_bytes cursor next staged) pre' all' c1 /\
    (cursor < next <= target)%N /\ keeps_windows window path staged c c1.
Proof.
  intros Hc Hmax Hlt Htar. cbn [read_loop]. rewrite decide_True by done.
  pose proof (window_start_bounds window cursor) as [Hs1 Hs2].
  rewrite window_bounds_spec by lia. set (start := window_start window cursor) in *. cbv zeta.
  change (sub_bytes start (N.min (len staged) (start + N.max window 1)) staged) with (the_window window staged cursor).
  set (page := the_window window staged cursor).
  assert (len page = N.min (len staged) (start + N.max window 1) - start)%N as Hlen.
  { unfold page, the_window. fold start. apply sub_bytes_length; lia. }
  assert (forall chunk, (start <= cursor)%N -> (chunk <= len page - (cursor - start))%N ->
    sub_bytes (cursor - start) (cursor - start + chunk) page = sub_bytes cursor (cursor + chunk) staged) as Hsub.
  { intros chunk _ Hle. unfold page, the_window. fold start. rewrite sub_bytes_sub by lia. f_equal; lia. }
  set (chunk := N.min (len page - (cursor - start)) (target - cursor)).
  assert (u64_saturating_add cursor chunk = cursor + chunk)%N as Hnext.
  { unfold u64_saturating_add. lia. }
  exists (cursor + chunk)%N, (N.max pre (start + len page)).
  destruct (cache_get _ c) as [p|] eqn:Hg.
  - apply Hc in Hg as ->. fold page chunk. rewrite decide_False, Hnext, Hsub by lia.
    eexists _, c. split; [reflexivity|]. split; [lia|]. by split.
  - rewrite decide_False, Hnext, Hsub by lia. eexists _, _. split; [reflexivity|]. split; [lia|].
    split; [by apply windows_of_put|]. intros. by apply windows_of_put_other.
Qed.

Lemma read_loop_spec fuel window path staged target cursor bytes pre all c :
  windows_of window path staged c -> (len staged <= U64_MAX)%N ->
  (cursor <= target)%N -> (target <= len staged)%N -> N.to_nat (target - cursor) < fuel ->
  exists pre' all' c',
    read_loop fuel window path staged target cursor bytes pre all c =
      Some (Ok (bytes ++ sub_bytes cursor target staged, pre', all'), c') /\
    keeps_windows window path staged c c'.
Proof.
  revert cursor bytes pre all c; induction fuel as [|fuel IH];
    intros cursor bytes pre all c Hc Hmax Hcur Htar Hfuel; [lia|].
  destruct (decide (cursor < target)%N) as [Hlt|Hge].
  - destruct (read_loop_turn fuel window path staged target cursor bytes pre all c)
      as (next & pre1 & all1 & c1 & -> & Hn & Hw1 & Ho1); [done..|].
    destruct (IH next (bytes ++ sub_bytes cursor next staged) pre1 all1 c1)
      as (pre' & all' & c' & -> & Hw & Ho); [done|done|lia|done|lia|].
    exists pre', all', c'. rewrite <- (assoc_L (++)), sub_bytes_app by lia.
    split; [done|]. split; [done|]. eauto.
  - cbn [read_loop]. rewrite decide_False by done. replace target with cursor by lia.
    rewrite sub_bytes_empty, app_nil_r. eexists _, _, _. split; [done|]. by split.
Qed.

Lemma read_loop_mono fuel fuel' window path staged target cursor bytes pre all c r :
  read_loop fuel window path staged target cursor bytes pre all c = Some r -> fuel <= fuel' ->
  read_loop fuel' window path staged target cursor bytes pre all c = Some r.
Proof.
  revert fuel' cursor bytes pre all c; induction fuel as [|fuel IH];
    intros [|fuel'] cursor bytes pre all c E Hf; try done; [lia|]. cbn [read_loop] in *.
  case_decide; [|done]. destruct (cache_get _ c) as [p|].
  - case_decide; [done|]. apply IH; [done|lia].
  - destruct (window_bounds _ _ _) as [[? ?]|]; [|done]. case_decide; [done|]. apply IH; [done|lia].
Qed.

(** The cached windows of every staged file are windows of its content. *)
Definition windows_fresh (s : StagingCache) (r : ReadPathService) : Prop :=
  forall path staged, staged_get s path = Some staged ->
    (len staged <= U64_MAX)%N /\ windows_of (prefetch_window_bytes r) path staged (pages_of r).

(** As long as the cached windows are those of the staged contents, a read terminates within
    one turn per requested byte, reports a missing path and an offset past the end as such,
    and otherwise returns exactly the requested bytes up to the end of the file; and the cached
    windows stay right for every staged file. *)
Theorem read_staged_path_spec path offset requested (fs : FilesystemShell) :
  windows_fresh (staging (writeback fs)) (reads fs) ->
  exists r fs',
    (forall fuel, N.to_nat (N.min (default 0%N (staged_len fs path)) (offset + requested) - offset) < fuel ->
       read_staged_path fuel path offset requested fs = Some (r, fs')) /\
    windows_fresh (staging (writeback fs')) (reads fs') /\ writeback fs' = writeback fs /\
    match staged_bytes fs path with
    | None => r = Err (MissingPath path)
    | Some staged =>
        if decide (len staged < offset)%N then r = Err (InvalidRange path offset)
        else exists source pre,
          r = Ok (mkReadResult path offset (sub_bytes offset (N.min (len staged) (offset + requested)) staged)
                    source pre)
    end.
Proof.
  intros Hfresh. unfold read_staged_path, read_service, staged_len, staged_bytes.
  destruct (staged_get _ path) as [staged|] eqn:Hs; simpl.
  2:{ eexists _, _. split; [intros fuel _; reflexivity|]. done. }
  destruct (Hfresh path staged Hs) as [Hmax Hw].
  case_decide as Hoff.
  { eexists _, _. split; [intros fuel _; reflexivity|]. done. }
  case_decide as Hreq.
  { subst. eexists _, _. split; [intros fuel _; reflexivity|]. split_and!; [done..|].
    exists Cache, offset. do 2 f_equal. replace (N.min _ _) with offset by lia. by rewrite sub_bytes_empty. }
  set (target := N.min (len staged) (offset + requested)).
  replace (N.min (len staged) (u64_saturating_add offset requested)) with target
    by (unfold target, u64_saturating_add; lia).
  set (need := S (N.to_nat (target - offset))).
  destruct (read_loop_spec need (prefetch_window_bytes (reads fs)) path staged target offset [] offset true
              (pages_of (reads fs))) as (pre & all & c & E & Hw' & Ho); try done; [lia..|].
  eexists _, _. split.
  { intros fuel Hf. erewrite (read_loop_mono need fuel) by (exact E || lia). reflexivity. }
  simpl. split_and!; [|done|].
  - intros path' staged' Hs'. destruct (Hfresh path' staged' Hs') as [Hmax' Hw2]. split; [done|].
    destruct (decide (path' = path)) as [->|Hne]; [|by apply Ho].
    assert (staged' = staged) as -> by congruence. done.
  - by eexists _, _.
Qed.

(** * Restaging a path *)

(** A window that ends at the cursor: the loop reads nothing and asks again. *)
Lemma read_loop_stuck fuel window path staged target cursor bytes pre all c page :
  cache_get (window_cache_key window path cursor) c = Some page ->
  (window_start window cursor + len page = cursor)%N -> (cursor < target)%N -> (cursor <= U64_MAX)%N ->
  read_loop fuel window path staged target cursor bytes pre all c = None.
Proof.
  intros Hg Hend Hlt Hmax. revert bytes pre all. induction fuel as [|fuel IH]; intros bytes pre all; [done|].
  cbn [read_loop]. rewrite decide_True, Hg by done. cbv zeta. rewrite decide_False by lia.
  replace (len page - _)%N with 0%N by lia. rewrite N.min_l by lia.
  unfold u64_saturating_add at 1. rewrite N.add_0_r, N.min_l by done. apply IH.
Qed.

Lemma window_start_small window o : (o < window)%N -> window_start window o = 0%N.
Proof. intros. unfold window_start. rewrite N.div_small by lia. lia. Qed.

(** The first read of a short file leaves its one window in the cache. *)
Lemma first_read fuel window path staged c :
  (0 < len staged)%N -> (len staged < window)%N -> cache_ok c -> (max_bytes c + len staged <= U64_MAX)%N ->
  (len staged <= max_bytes c)%N -> cache_get (window_cache_key window path 0) c = None -> 1 < fuel ->
  let c' := put (window_cache_key window path 0) staged c in
  read_loop fuel window path staged (len staged) 0 [] 0 true c = Some (Ok (staged, len staged, false), c') /\
  cache_get (window_cache_key window path 0) c' = Some staged.
Proof.
  intros Hpos Hw Hok Hmax Hfit Hnone Hfuel c'. split; [|by apply put_stays].
  destruct fuel as [|[|fuel]]; [lia..|]. cbn [read_loop]. rewrite decide_True, Hnone by done.
  rewrite window_bounds_spec by lia. rewrite (window_start_small window 0) by lia. cbv zeta.
  rewrite N.min_l by lia. rewrite (sub_bytes_all (len staged)) by lia. rewrite decide_False by lia.
  rewrite N.sub_0_r, N.sub_0_r, N.min_l, N.add_0_l, sub_bytes_all by lia.
  unfold u64_saturating_add. rewrite N.add_0_l, N.min_l by lia. rewrite decide_False by lia.
  by rewrite N.max_r by lia.
Qed.

(** A read of a restaged short file through the old window. *)
Lemma read_through_old_window fuel window path old new c :
  (0 < len old)%N -> (len old < window)%N -> (len new <= U64_MAX)%N ->
  cache_get (window_cache_key window path 0) c = Some old ->
  if decide (len old < len new)%N
  then read_loop fuel window path new (len new) 0 [] 0 true c = None
  else 1 < fuel ->
       exists pre all, read_loop fuel window path new (len new) 0 [] 0 true c =
                       Some (Ok (sub_bytes 0 (len new) old, pre, all), c).
Proof.
  intros Hpos Hw Hmax Hg. case_decide as Hlt.
  - destruct fuel as [|fuel]; [done|]. cbn [read_loop]. rewrite decide_True, Hg by lia.
    rewrite (window_start_small window 0) by lia. cbv zeta. rewrite decide_False by lia.
    rewrite !N.sub_0_r, N.min_l, N.add_0_l by lia. unfold u64_saturating_add. rewrite N.add_0_l, N.min_l by lia.
    apply (read_loop_stuck _ _ _ _ _ _ _ _ _ _ old); try lia.
    + unfold window_cache_key in *. by rewrite (window_start_small window (len old)), (window_start_small window 0) in * by lia.
    + rewrite window_start_small; lia.
  - intros Hfuel. destruct fuel as [|[|fuel]]; [lia..|]. cbn [read_loop].
    destruct (decide (0 < len new)%N) as [Hn|Hn].
    + rewrite Hg, (window_start_small window 0) by lia. cbv zeta. rewrite decide_False by lia.
      rewrite !N.sub_0_r, N.min_r, N.add_0_l by lia. unfold u64_saturating_add. rewrite N.add_0_l, N.min_l by lia.
      rewrite decide_False by lia. eauto.
    + exists 0%N, true. do 3 f_equal. replace (len new) with 0%N by lia. by rewrite sub_bytes_empty.
Qed.
End Reading.

(** A shell whose file at [path] was staged, read once for an upload, and staged again. *)
Definition uploaded_then_restaged {M} `{LinkedHashMap M} (fuel : nat) (path : string) (old new : list byte)
    : option (@FilesystemShell M) :=
  (λ '(_, fs), seed_staged_file path new fs)
    <$> read_local_upload_payload fuel path StagingCache_default
          (seed_staged_file path old FilesystemShell_default).

Lemma staged_default_ok : staged_ok StagingCache_default.
Proof.
  split; simpl; [constructor| |rewrite map_size_empty; lia].
  intros p. rewrite lookup_empty, elem_of_nil. split; [by intros []|done].
Qed.

Lemma staged_get_stage path bytes s :
  staged_ok s -> 0 < max_open_files s -> staged_get (stage path bytes s) path = Some bytes.
Proof.
  intros Hok Hpos. destruct (stage_spec path bytes s Hok) as (_ & _ & Ho & ->).
  rewrite decide_True; [by rewrite decide_True|]. rewrite Ho, length_app, drop_app.
  apply elem_of_app. right. simpl. replace (length _ + 1 - max_open_files s - length _) with 0 by lia. by left.
Qed.

(** The payload read is a read of the loop with the whole file as its target. *)
Lemma payload_spec {M} `{LinkedHashMap M} fuel path cache staged (fs : @FilesystemShell M) :
  staged_bytes fs path = Some staged -> (len staged <= U64_MAX)%N ->
  read_local_upload_payload fuel path cache fs =
  match read_loop fuel (prefetch_window_bytes (reads fs)) path staged (len staged) 0 [] 0 true (pages_of (reads fs)) with
  | None => None
  | Some (Ok (bytes, _, _), c) =>
      Some (Ok bytes, mkFilesystemShell (mount fs) (mkReadPathService (prefetch_window_bytes (reads fs)) c)
                        (writeback fs) (journal fs))
  | Some (Err _, c) =>
      Some (match staged_get cache path with Some bytes => Ok bytes | None => Err tt end,
            mkFilesystemShell (mount fs) (mkReadPathService (prefetch_window_bytes (reads fs)) c)
              (writeback fs) (journal fs))
  end.
Proof.
  intros Hs Hmax. unfold read_local_upload_payload, read_staged_path, read_service, staged_bytes in *. rewrite Hs.
  rewrite decide_False by lia. rewrite decide_False by done.
  replace (N.min (len staged) (u64_saturating_add 0 U64_MAX)) with (len staged)
    by (unfold u64_saturating_add; rewrite N.add_0_l, N.min_id; lia).
  by destruct (read_loop _ _ _ _ _ _ _ _ _ _) as [[[[[? ?] ?]|] ?]|].
Qed.

(** Uploading a file again after its staged content changed does not send the new content.
    The first payload read of a file of less than one window leaves its window in the cache
    under the path alone; when the file is staged again, the next payload is the old content
    cut to the new length, and when the new content is longer, reading the payload never
    returns: at the end of the old window the loop makes no progress. *)
Theorem restaged_upload_is_stale {M} `{LinkedHashMapLaws M} path old new :
  (0 < len old)%N -> (len old < 256 * 1024)%N -> (len new <= U64_MAX)%N ->
  exists fs : FilesystemShell,
    (forall fuel, 1 < fuel -> uploaded_then_restaged fuel path old new = Some fs) /\
    staged_bytes fs path = Some new /\
    if decide (len old < len new)%N
    then forall fuel cache, read_local_upload_payload fuel path cache fs = None
    else forall fuel cache, 1 < fuel ->
           exists fs', read_local_upload_payload fuel path cache fs = Some (Ok (sub_bytes 0 (len new) old), fs').
Proof.
  intros Hpos Hw Hnew. set (fs0 := seed_staged_file path old (FilesystemShell_default (M:=M))).
  destruct (stage_spec path old StagingCache_default staged_default_ok) as (Hok0 & Hmax0 & _ & _).
  assert (staged_bytes fs0 path = Some old) as H0s.
  { apply staged_get_stage; [apply staged_default_ok|simpl; lia]. }
  pose (c1 := put (window_cache_key (256 * 1024) path 0) old (Inner_default (M:=M))).
  pose (fs1 := mkFilesystemShell (mount fs0) (mkReadPathService (256 * 1024) c1) (writeback fs0) (journal fs0)).
  assert (forall fuel, 1 < fuel ->
    read_loop fuel (256 * 1024) path old (len old) 0 [] 0 true (Inner_default (M:=M)) =
      Some (Ok (old, len old, false), c1) /\
    cache_get (window_cache_key (256 * 1024) path 0) c1 = Some old) as Hfirst.
  { intros fuel Hf. apply first_read; try done; simpl; try lia.
    - split; simpl; [|lia]. unfold pages; simpl. by rewrite lhm_new_iter.
    - unfold U64_MAX. lia.
    - destruct (cache_get _ _) as [v|] eqn:Hg; [|done]. exfalso. apply lhm_get_iter in Hg. simpl in Hg.
      rewrite lhm_new_iter in Hg. by apply not_elem_of_nil in Hg. }
  exists (seed_staged_file path new fs1). split; [|split].
  - intros fuel Hf. unfold uploaded_then_restaged. fold fs0.
    rewrite (payload_spec _ _ _ old) by (done || unfold U64_MAX; lia).
    destruct (Hfirst fuel Hf) as [E _]. change (prefetch_window_bytes (reads fs0)) with (256 * 1024)%N.
    change (pages_of (reads fs0)) with (Inner_default (M:=M)). by rewrite E.
  - apply staged_get_stage; [done|]. change (0 < max_open_files (stage path old StagingCache_default)).
    rewrite Hmax0. simpl. lia.
  - assert (staged_bytes (seed_staged_file path new fs1) path = Some new) as H1s.
    { apply staged_get_stage; [done|]. change (0 < max_open_files (stage path old StagingCache_default)).
      rewrite Hmax0. simpl. lia. }
    destruct (Hfirst 2) as [_ Hg]; [lia|].
    pose proof (λ fuel, read_through_old_window fuel (256 * 1024) path old new c1 Hpos Hw Hnew Hg) as Hread.
    case_decide.
    + intros fuel cache. rewrite (payload_spec _ _ _ new) by done. simpl. by rewrite (Hread fuel).
    + intros fuel cache Hf. rewrite (payload_spec _ _ _ new) by done. simpl.
      destruct (Hread fuel Hf) as (pre & all & ->). eauto.
Qed.

Lemma restaged_upload_is_stale_witness :
  let old := chars "abc" in
  let new := chars "abcd" in
  exists fs : @FilesystemShell alist,
    uploaded_then_restaged 5 "report.txt" old new = Some fs /\
    staged_bytes fs "report.txt" = Some new /\
    read_local_upload_payload 1000 "report.txt" StagingCache_default fs = None.
Proof.
  intros old new.
  destruct (restaged_upload_is_stale (M:=alist) "report.txt" old new) as (fs & Hf & Hs & Hr);
    [vm_compute; reflexivity..|vm_compute; discriminate|].
  exists fs. split; [apply Hf; lia|]. split; [exact Hs|].
  rewrite decide_True in Hr by (vm_compute; reflexivity). apply Hr.
Defined.

Lemma read_staged_path_spec_witness :
  let fs := seed_staged_file "a" (chars "abcdef") (FilesystemShell_default (M:=alist)) in
  windows_fresh (staging (writeback fs)) (reads fs) /\
  exists r fs', read_staged_path 10 "a" 2 3 fs = Some (r, fs') /\
                exists source pre, r = Ok (mkReadResult "a" 2 (chars "cde") source pre).
Proof.
  intros fs. assert (windows_fresh (staging (writeback fs)) (reads fs)) as Hf.
  { assert (files (staging (writeback fs)) = {["a"%string := chars "abcdef"]}) as Hfiles
      by (vm_compute; reflexivity).
    intros path staged Hs. unfold staged_get in Hs. rewrite Hfiles in Hs.
    apply lookup_singleton_Some in Hs as [_ <-]. split; [vm_compute; discriminate|].
    intros o page Hg. vm_compute in Hg. discriminate. }
  split; [exact Hf|]. destruct (read_staged_path_spec "a" 2 3 fs Hf) as (r & fs' & Hr & _ & _ & Hm).
  exists r, fs'. split; [apply Hr; vm_compute; lia|].
  vm_compute in Hm. exact Hm.
Defined.

(** * Back-pressure *)

(** A refused write does not restore what the path held before: an earlier write whose journal
    entry is still pending loses its payload. *)
Lemma refused_write_drops_staged path bytes w j :
  max_pending_operations j <= length (pending j) ->
  let '(r, w', j') := stage_write path bytes w j in
  r = Err (Full (length (pending j)) (max_pending_operations j)) /\ j' = j /\
  staged_get (staging w') path = None.
Proof.
  intros Hfull. unfold stage_write, wb_append. rewrite decide_True by done. split_and!; try done.
  apply lookup_delete_eq.
Qed.

(** A flush drops the payload of a path although a later entry of it is still pending. *)
Lemma partial_flush_drops_staged path op1 op2 n1 n2 rest w j :
  pending j = mkJournalEntry path op1 n1 :: mkJournalEntry path op2 n2 :: rest ->
  let '(drained, w', j') := wb_flush 1 w j in
  pending j' = mkJournalEntry path op2 n2 :: rest /\ staged_get (staging w') path = None.
Proof.
  intros Hp. unfold wb_flush, wb_drain. rewrite pop_entries_spec, Hp. simpl. split; [done|]. apply lookup_delete_eq.
Qed.
