(* ===== verification/FilePages.v ===== *)
(** The page cache of the FUSE read path: crates/pcloud-fs/src/page_cache.rs.

    [LruMap] is the lru crate: the operations the cache calls, with their documented behaviour
    as laws over the list of entries from the least to the most recently used.  [file_step] is
    the cache on that list alone; the theorem is that the byte count and the per-file index
    never disagree with it.  The lock makes every method one critical section. *)
From S2P Require Import Prelude Bytes.

Definition DEFAULT_PAGE_SIZE : N := 64 * 1024.
Definition DEFAULT_MAX_BYTES : N := 128 * 1024 * 1024.

Record PageCacheConfig : Type := mkPageCacheConfig {
  page_size : N;
  max_resident : N;
}.

Definition PageCacheConfig_default : PageCacheConfig := mkPageCacheConfig DEFAULT_PAGE_SIZE DEFAULT_MAX_BYTES.

Record PageKey : Type := mkPageKey {
  pk_file_id : N;
  pk_page_index : N;
}.

#[export] Instance PageKey_eq_dec : EqDecision PageKey.
Proof. solve_decision. Defined.

Abbreviation page_entry := (PageKey * list byte)%type.

(** * The map the cache is built on *)

Class LruMap (L : Type) := {
  lru_unbounded : L;
  lru_get : PageKey -> L -> option (list byte) * L;
  lru_put : PageKey -> list byte -> L -> L;
  lru_pop : PageKey -> L -> option (list byte) * L;
  lru_pop_lru : L -> option page_entry * L;
  lru_clear : L -> L;
  lru_len : L -> nat;
  lru_iter : L -> list page_entry;
}.

(** The value of a key in a list of entries, and the entries of the other keys. *)
Definition page_of (k : PageKey) (l : list page_entry) : option (list byte) :=
  snd <$> List.find (λ e, bool_decide (e.1 = k)) l.
Definition drop_key (k : PageKey) (l : list page_entry) : list page_entry := filter (λ e, e.1 ≠ k) l.

Class LruMapLaws (L : Type) `{LruMap L} : Prop := {
  lru_unbounded_iter : lru_iter lru_unbounded = [];
  lru_keys m : NoDup (fst <$> lru_iter m);
  lru_len_iter m : lru_len m = length (lru_iter m);
  lru_get_iter k m :
    (lru_get k m).1 = page_of k (lru_iter m) /\
    lru_iter (lru_get k m).2 =
      match page_of k (lru_iter m) with
      | Some v => drop_key k (lru_iter m) ++ [(k, v)]
      | None => lru_iter m
      end;
  lru_put_iter k v m : lru_iter (lru_put k v m) = drop_key k (lru_iter m) ++ [(k, v)];
  lru_pop_iter k m :
    (lru_pop k m).1 = page_of k (lru_iter m) /\ lru_iter (lru_pop k m).2 = drop_key k (lru_iter m);
  lru_pop_lru_iter m :
    match lru_iter m with
    | [] => lru_pop_lru m = (None, m)
    | e :: l => exists m', lru_pop_lru m = (Some e, m') /\ lru_iter m' = l
    end;
  lru_clear_iter m : lru_iter (lru_clear m) = [];
}.

(** * The cache *)

Record PageCacheStats : Type := mkPageCacheStats {
  st_hits : N;
  st_misses : N;
  st_bytes_resident : N;
  st_pages_resident : nat;
  st_bytes_rejected_oversized : N;
}.

Record FilePages (L : Type) : Type := mkFilePages {
  fp_config : PageCacheConfig;
  fp_entries : L;
  by_file : gmap N (gset N);
  bytes_resident : N;
  hits : N;
  misses : N;
  bytes_rejected_oversized : N;
}.
Arguments mkFilePages {L}.
Arguments fp_config {L}. Arguments fp_entries {L}. Arguments by_file {L}. Arguments bytes_resident {L}.
Arguments hits {L}. Arguments misses {L}. Arguments bytes_rejected_oversized {L}.

(** [PageCache::new]: a zero page size is replaced, and one page always fits. *)
Definition normalise (config : PageCacheConfig) : PageCacheConfig :=
  let page := if decide (page_size config = 0)%N then DEFAULT_PAGE_SIZE else page_size config in
  mkPageCacheConfig page (if decide (max_resident config < page)%N then page else max_resident config).

Section Cache.
Context {L : Type} `{LruMapLaws L}.

Definition FilePages_new (config : PageCacheConfig) : FilePages L :=
  mkFilePages (normalise config) lru_unbounded ∅ 0 0 0 0.

(** Taking the index of a page out of the set of its file, and an empty set out of the map. *)
Definition unindex (key : PageKey) (index : gmap N (gset N)) : gmap N (gset N) :=
  match index !! pk_file_id key with
  | None => index
  | Some pages =>
      let pages := pages ∖ {[pk_page_index key]} in
      if decide (pages = ∅) then delete (pk_file_id key) index else <[pk_file_id key := pages]> index
  end.

(** The [while] loop; a turn takes a page, so one more turn than there are pages is enough. *)
Fixpoint evict_until_fits_loop (fuel : nat) (incoming : N) (c : FilePages L) : FilePages L :=
  match fuel with
  | 0 => c
  | S fuel' =>
      if decide (0 < u64_saturating_add (bytes_resident c) incoming - max_resident (fp_config c))%N then
        match lru_pop_lru (fp_entries c) with
        | (None, _) => c
        | (Some (evicted_key, page), m) =>
            evict_until_fits_loop fuel' incoming
              (mkFilePages (fp_config c) m (unindex evicted_key (by_file c))
                 (bytes_resident c - len page) (hits c) (misses c) (bytes_rejected_oversized c))
        end
      else c
  end.

Definition evict_until_fits (incoming : N) (c : FilePages L) : FilePages L :=
  evict_until_fits_loop (S (lru_len (fp_entries c))) incoming c.

Definition pages_get (key : PageKey) (c : FilePages L) : option (list byte) * FilePages L :=
  let '(r, m) := lru_get key (fp_entries c) in
  match r with
  | Some bytes =>
      (Some bytes, mkFilePages (fp_config c) m (by_file c) (bytes_resident c)
                     (u64_saturating_add (hits c) 1) (misses c) (bytes_rejected_oversized c))
  | None =>
      (None, mkFilePages (fp_config c) m (by_file c) (bytes_resident c)
               (hits c) (u64_saturating_add (misses c) 1) (bytes_rejected_oversized c))
  end.

(** [by_file.entry(file_id).or_default().insert(page_index)]. *)
Definition index_page (key : PageKey) (index : gmap N (gset N)) : gmap N (gset N) :=
  <[pk_file_id key := {[pk_page_index key]} ∪ default ∅ (index !! pk_file_id key)]> index.

Definition pages_put (key : PageKey) (bytes : list byte) (c : FilePages L) : FilePages L :=
  let new_len := len bytes in
  if decide (max_resident (fp_config c) < new_len)%N
  then mkFilePages (fp_config c) (fp_entries c) (by_file c) (bytes_resident c) (hits c) (misses c)
         (u64_saturating_add (bytes_rejected_oversized c) new_len)
  else
    let '(old, m) := lru_pop key (fp_entries c) in
    let resident := match old with Some page => bytes_resident c - len page | None => bytes_resident c end%N in
    let c := evict_until_fits new_len
               (mkFilePages (fp_config c) m (by_file c) resident (hits c) (misses c) (bytes_rejected_oversized c)) in
    mkFilePages (fp_config c) (lru_put key bytes (fp_entries c)) (index_page key (by_file c))
      (u64_saturating_add (bytes_resident c) new_len) (hits c) (misses c) (bytes_rejected_oversized c).

(** The pages of a file are popped in the order of a [HashSet], which makes no difference. *)
Definition pop_page (file_id : N) (s : L * N) (page_index : N) : L * N :=
  let '(m, resident) := s in
  match lru_pop (mkPageKey file_id page_index) m with
  | (Some page, m') => (m', resident - len page)%N
  | (None, m') => (m', resident)
  end.

Definition invalidate_file (file_id : N) (c : FilePages L) : FilePages L :=
  match by_file c !! file_id with
  | None => c
  | Some page_indices =>
      let '(m, resident) := foldl (pop_page file_id) (fp_entries c, bytes_resident c) (elements page_indices) in
      mkFilePages (fp_config c) m (delete file_id (by_file c)) resident (hits c) (misses c)
        (bytes_rejected_oversized c)
  end.

Definition pages_clear (c : FilePages L) : FilePages L :=
  mkFilePages (fp_config c) (lru_clear (fp_entries c)) ∅ 0 (hits c) (misses c) (bytes_rejected_oversized c).

Definition pages_stats (c : FilePages L) : PageCacheStats :=
  mkPageCacheStats (hits c) (misses c) (bytes_resident c) (lru_len (fp_entries c)) (bytes_rejected_oversized c).

(** * Runs, and the cache as a list of pages *)

Inductive pages_call : Type :=
| PagesGet (key : PageKey)
| PagesPut (key : PageKey) (bytes : list byte)
| InvalidateFile (file_id : N)
| PagesClear.

Definition pages_step (c : FilePages L) (call : pages_call) : option (list byte) * FilePages L :=
  match call with
  | PagesGet key => pages_get key c
  | PagesPut key bytes => (None, pages_put key bytes c)
  | InvalidateFile file_id => (None, invalidate_file file_id c)
  | PagesClear => (None, pages_clear c)
  end.
End Cache.

Definition total_bytes (l : list page_entry) : N := foldr (λ e n, len e.2 + n)%N 0%N l.

(** The youngest entries that fit in [room] bytes. *)
Fixpoint keep_young (room : N) (l : list page_entry) : list page_entry :=
  match l with
  | [] => []
  | _ :: l' => if decide (total_bytes l <= room)%N then l else keep_young room l'
  end.

Definition file_step (max : N) (l : list page_entry) (call : pages_call) : option (list byte) * list page_entry :=
  match call with
  | PagesGet key =>
      match page_of key l with
      | Some v => (Some v, drop_key key l ++ [(key, v)])
      | None => (None, l)
      end
  | PagesPut key bytes =>
      (None, if decide (max < len bytes)%N then l
             else keep_young (max - len bytes) (drop_key key l) ++ [(key, bytes)])
  | InvalidateFile file_id => (None, filter (λ e, pk_file_id e.1 ≠ file_id) l)
  | PagesClear => (None, [])
  end.

(** * Lists of pages *)

Lemma page_of_Some k v l : NoDup (fst <$> l) -> page_of k l = Some v <-> (k, v) ∈ l.
Proof.
  unfold page_of. induction l as [|[k' v'] l IH]; intros Hnd; simpl.
  { split; [done|]. by intros ?%not_elem_of_nil. }
  csimpl in Hnd. apply NoDup_cons in Hnd as [Hk Hnd]. rewrite elem_of_cons.
  case_bool_decide as E; simpl in *.
  - subst. split; [intros [= ->]; by left|]. intros [[= ->]|Hin]; [done|].
    exfalso. apply Hk. apply list_elem_of_fmap. by exists (k, v).
  - rewrite (IH Hnd). naive_solver.
Qed.

Lemma elem_of_drop_key k e l : e ∈ drop_key k l <-> e ∈ l /\ e.1 ≠ k.
Proof. unfold drop_key. rewrite list_elem_of_filter. tauto. Qed.

Lemma elem_of_keys (k : PageKey) (l : list page_entry) : k ∈ fst <$> l <-> exists v, (k, v) ∈ l.
Proof.
  rewrite list_elem_of_fmap. split; [intros ([k' v] & -> & Hin); by exists v|].
  intros [v Hin]. by exists (k, v).
Qed.

Lemma page_of_None k l : page_of k l = None <-> k ∉ fst <$> l.
Proof.
  unfold page_of. induction l as [|[k' v] l IH]; csimpl; [by split; [intros _ ?%not_elem_of_nil|]|].
  rewrite not_elem_of_cons. case_bool_decide; simpl; naive_solver.
Qed.

Lemma NoDup_drop_key k l : NoDup (fst <$> l) -> NoDup (fst <$> drop_key k l).
Proof. intros. eapply sublist_NoDup; [done|]. apply fmap_sublist, sublist_filter. Qed.

Lemma drop_key_id k l : k ∉ fst <$> l -> drop_key k l = l.
Proof. intros Hk. apply filter_all. intros [k' v] Hin E. simpl in E. subst. apply Hk, elem_of_keys. by exists v. Qed.

Lemma total_bytes_drop_key k l :
  NoDup (fst <$> l) ->
  total_bytes (drop_key k l) = (total_bytes l - match page_of k l with Some v => len v | None => 0 end)%N.
Proof.
  induction l as [|[k' v] l IH]; intros Hnd; [done|]. csimpl in Hnd. apply NoDup_cons in Hnd as [Hk Hnd].
  unfold drop_key. rewrite filter_cons. unfold page_of. simpl. case_decide as E; simpl in E.
  - rewrite bool_decide_eq_false_2 by done. simpl. fold (page_of k l). fold (drop_key k l). rewrite (IH Hnd).
    destruct (page_of k l) as [w|] eqn:Ew; [|lia]. apply page_of_Some in Ew; [|done].
    enough (len w <= total_bytes l)%N by lia. clear -Ew. induction l as [|e l IH]; [by apply not_elem_of_nil in Ew|].
    apply elem_of_cons in Ew as [<-|Ew]; simpl; [lia|]. specialize (IH Ew). lia.
  - assert (k' = k) as -> by (apply dec_stable; naive_solver).
    rewrite bool_decide_eq_true_2 by done. simpl. fold (drop_key k l). rewrite drop_key_id by done. lia.
Qed.

Lemma total_bytes_keep_young room l : (total_bytes (keep_young room l) <= room)%N.
Proof. induction l as [|e l IH]; simpl keep_young; [simpl; lia|]. by case_decide. Qed.

Lemma total_bytes_app l1 l2 : total_bytes (l1 ++ l2) = (total_bytes l1 + total_bytes l2)%N.
Proof. induction l1 as [|e l1 IH]; simpl; [done|]. rewrite IH. lia. Qed.

Lemma keep_young_suffix room l : keep_young room l `suffix_of` l.
Proof. induction l as [|e l IH]; [done|]. simpl. case_decide; [done|]. by apply suffix_cons_r. Qed.

(** * The index per file *)

(** The index holds exactly the pages of [P], and no empty sets. *)
Definition index_ok (index : gmap N (gset N)) (P : PageKey -> Prop) : Prop :=
  (forall key, pk_page_index key ∈ default ∅ (index !! pk_file_id key) <-> P key) /\
  (forall file_id pages, index !! file_id = Some pages -> pages <> ∅).

Lemma index_ok_iff index P Q : (forall k, P k <-> Q k) -> index_ok index P -> index_ok index Q.
Proof. intros HPQ [H1 H2]. split; [|done]. intros key. by rewrite H1. Qed.

Lemma unindex_ok key index P : index_ok index P -> index_ok (unindex key index) (λ k, P k /\ k ≠ key).
Proof.
  intros [H1 H2]. unfold unindex. destruct (index !! pk_file_id key) as [pages|] eqn:Hp.
  - split.
    + intros [f i]. specialize (H1 (mkPageKey f i)). simpl in *. rewrite <- H1.
      destruct (decide (pk_file_id key = f)) as [<-|Hne].
      * rewrite Hp. simpl. case_decide as He.
        -- rewrite lookup_delete_eq. simpl. destruct key as [f0 i0]. simpl in *. split; [set_solver|].
           intros [Hi Hne]. assert (i ∈ pages ∖ {[i0]}) as Hin; [|rewrite He in Hin; set_solver].
           rewrite elem_of_difference, elem_of_singleton. split; [done|]. congruence.
        -- rewrite lookup_insert_eq. simpl. rewrite elem_of_difference, elem_of_singleton.
           destruct key as [f0 i0]. simpl in *. split; intros [? Hn]; (split; [done|]); congruence.
      * assert (mkPageKey f i ≠ key) as Hk by (intros <-; by apply Hne).
        case_decide; [rewrite lookup_delete_ne by done|rewrite lookup_insert_ne by done]; tauto.
    + intros f s. case_decide.
      * intros [_ Hs]%lookup_delete_Some. by eapply H2.
      * intros [[_ <-]|[_ Hs]]%lookup_insert_Some; [done|]. by eapply H2.
  - split; [|done]. intros k. rewrite H1. split; [|tauto]. intros Hk. split; [done|]. intros ->.
    apply H1 in Hk. rewrite Hp in Hk. set_solver.
Qed.

Lemma index_page_ok key index P : index_ok index P -> index_ok (index_page key index) (λ k, P k \/ k = key).
Proof.
  intros [H1 H2]. unfold index_page. split.
  - intros [f i]. specialize (H1 (mkPageKey f i)). simpl in *. rewrite <- H1.
    destruct key as [f0 i0]. simpl. destruct (decide (f0 = f)) as [<-|Hne].
    + rewrite lookup_insert_eq. simpl. rewrite elem_of_union, elem_of_singleton. split; [|naive_solver].
      intros [->|?]; [by right|by left].
    + rewrite lookup_insert_ne by done. split; [tauto|]. intros [?|[=]]; [done|congruence].
  - intros f s [[_ <-]|[_ Hs]]%lookup_insert_Some; [set_solver|]. by eapply H2.
Qed.

(** * Every call preserves the invariant and does what the list does *)

Section Refinement.
Context {L : Type} `{LruMapLaws L}.

Definition file_pages (c : FilePages L) : list page_entry := lru_iter (fp_entries c).
Definition keys_of (l : list page_entry) (k : PageKey) : Prop := k ∈ fst <$> l.

Record pages_ok (c : FilePages L) : Prop := {
  po_resident : bytes_resident c = total_bytes (file_pages c);
  po_max : (bytes_resident c <= max_resident (fp_config c))%N;
  po_index : index_ok (by_file c) (keys_of (file_pages c));
}.

Lemma evict_until_fits_spec fuel incoming (X : PageKey -> Prop) c :
  length (file_pages c) < fuel -> bytes_resident c = total_bytes (file_pages c) ->
  (max_resident (fp_config c) < U64_MAX)%N -> (incoming <= max_resident (fp_config c))%N ->
  (forall k, keys_of (file_pages c) k -> ~ X k) ->
  index_ok (by_file c) (λ k, keys_of (file_pages c) k \/ X k) ->
  let c' := evict_until_fits_loop fuel incoming c in
  file_pages c' = keep_young (max_resident (fp_config c) - incoming) (file_pages c) /\
  bytes_resident c' = total_bytes (file_pages c') /\
  index_ok (by_file c') (λ k, keys_of (file_pages c') k \/ X k) /\ fp_config c' = fp_config c.
Proof.
  revert c; induction fuel as [|fuel IH]; intros c Hf Hr Hmax Hin HX Hidx; [lia|]. simpl.
  pose proof (lru_pop_lru_iter (fp_entries c)) as Hpop. fold (file_pages c) in Hpop.
  pose proof (lru_keys (fp_entries c)) as Hnd. fold (file_pages c) in Hnd.
  unfold u64_saturating_add. case_decide as Hover.
  - destruct (file_pages c) as [|[k v] l] eqn:E; [simpl in Hr; lia|].
    destruct Hpop as (m' & -> & Hm'). simpl in Hr, Hf. csimpl in Hnd. apply NoDup_cons in Hnd as [Hk Hnd].
    set (c1 := mkFilePages _ m' _ _ _ _ _).
    assert (file_pages c1 = l) as E1 by done.
    destruct (IH c1) as (Hp & Hr1 & Hi1 & Hc1); rewrite ?E1; try done; [simpl; lia|simpl; lia| | |].
    + intros k' Hk'. apply HX. by apply elem_of_cons; right.
    + eapply index_ok_iff; [|by apply unindex_ok]. intros k'. unfold keys_of. csimpl.
      rewrite elem_of_cons. split; [naive_solver|]. intros [Hk'|Hx]; (split; [tauto|]); [congruence|].
      intros ->. apply (HX k); [|done]. by apply elem_of_cons; left.
    + rewrite Hp, E1. split_and!; [|by rewrite E1 in Hp; rewrite <- Hp|by rewrite E1 in Hp; rewrite <- Hp|done].
      cbn [keep_young]. rewrite decide_False; [done|]. simpl. lia.
  - split_and!; try done. assert (total_bytes (file_pages c) <= max_resident (fp_config c) - incoming)%N by lia.
    clear -H1. destruct (file_pages c); [done|]. cbn [keep_young]. by rewrite decide_True.
Qed.

Lemma pages_put_spec key bytes c :
  pages_ok c -> (max_resident (fp_config c) < U64_MAX)%N ->
  pages_ok (pages_put key bytes c) /\ fp_config (pages_put key bytes c) = fp_config c /\
  file_pages (pages_put key bytes c) =
    (file_step (max_resident (fp_config c)) (file_pages c) (PagesPut key bytes)).2.
Proof.
  intros [Hr Hm Hidx] Hmax. unfold pages_put. simpl. case_decide as Hbig; [by split; [split|]|].
  destruct (lru_pop_iter key (fp_entries c)) as [Ev Em]. fold (file_pages c) in Ev, Em.
  destruct (lru_pop key (fp_entries c)) as [old m]. simpl in Ev, Em. subst old.
  pose proof (lru_keys (fp_entries c)) as Hnd. fold (file_pages c) in Hnd.
  set (resident := match page_of key (file_pages c) with Some page => _ | None => _ end).
  set (c1 := mkFilePages _ m _ _ _ _ _).
  assert (file_pages c1 = drop_key key (file_pages c)) as E1 by done.
  destruct (evict_until_fits_spec (S (lru_len m)) (len bytes) (λ k, k = key /\ keys_of (file_pages c) k) c1)
    as (Hp & Hr1 & Hi1 & Hc1); try done.
  - rewrite lru_len_iter. unfold file_pages. simpl. lia.
  - rewrite E1, total_bytes_drop_key by done. simpl. unfold resident. rewrite Hr. destruct (page_of _ _); lia.
  - simpl. lia.
  - intros k (v & Hk)%elem_of_keys [-> _]. rewrite E1 in Hk. by apply elem_of_drop_key in Hk as [_ ?].
  - eapply index_ok_iff; [|exact Hidx]. intros k. unfold keys_of. rewrite E1, !elem_of_keys.
    setoid_rewrite elem_of_drop_key. simpl. destruct (decide (k = key)); naive_solver.
  - unfold evict_until_fits. set (c2 := evict_until_fits_loop _ _ c1) in *.
    assert (key ∉ fst <$> file_pages c2) as Hfresh.
    { rewrite Hp, E1. intros (v & Hv)%elem_of_keys.
      eapply elem_of_suffix in Hv; [|apply keep_young_suffix]. by apply elem_of_drop_key in Hv as [_ ?]. }
    assert (lru_iter (lru_put key bytes (fp_entries c2)) = file_pages c2 ++ [(key, bytes)]) as Eput.
    { rewrite lru_put_iter. fold (file_pages c2). by rewrite drop_key_id. }
    assert (total_bytes (file_pages c2) <= max_resident (fp_config c) - len bytes)%N as Hroom.
    { rewrite Hp. apply total_bytes_keep_young. }
    assert (fp_config c2 = fp_config c) as Hc2 by (by rewrite Hc1).
    unfold u64_saturating_add. split; [split|split]; simpl.
    + unfold file_pages. simpl. rewrite Eput, total_bytes_app, Hr1. simpl. lia.
    + rewrite Hc2, Hr1. lia.
    + eapply index_ok_iff; [|by apply index_page_ok]. intros k. unfold keys_of, file_pages. simpl.
      rewrite Eput, fmap_app, elem_of_app. csimpl. rewrite list_elem_of_singleton. fold (file_pages c2). tauto.
    + done.
    + unfold file_pages at 1. simpl. by rewrite Eput, Hp, E1.
Qed.

(** Popping pages of one file, in any order. *)
Lemma pop_pages_spec f idxs m r :
  r = total_bytes (lru_iter m) ->
  let '(m', r') := foldl (pop_page f) (m, r) idxs in
  lru_iter m' = filter (λ e : page_entry, ~ (pk_file_id e.1 = f /\ pk_page_index e.1 ∈ idxs)) (lru_iter m) /\
  r' = total_bytes (lru_iter m').
Proof.
  revert m r; induction idxs as [|i idxs IH]; intros m r Hr; simpl.
  { split; [|done]. symmetry. apply filter_all. intros e _ [_ ?%not_elem_of_nil]. done. }
  destruct (lru_pop_iter (mkPageKey f i) m) as [Ev Em]. destruct (lru_pop (mkPageKey f i) m) as [v m1].
  simpl in Ev, Em. subst v.
  assert (match page_of (mkPageKey f i) (lru_iter m) with
          | Some page => (m1, (r - len page)%N) | None => (m1, r) end = (m1, total_bytes (lru_iter m1))) as ->.
  { rewrite Em, total_bytes_drop_key by apply lru_keys. subst r. destruct (page_of _ _); [done|]. by rewrite N.sub_0_r. }
  specialize (IH m1 _ eq_refl). destruct (foldl _ _ _) as [m2 r2]. destruct IH as [IHm IHr]. split; [|done].
  rewrite IHm, Em. unfold drop_key. rewrite list_filter_filter. apply list_filter_iff. intros [[f' i'] v]. simpl.
  rewrite elem_of_cons. split.
  - intros [H1 H2] [-> [->|Hi]]; [by apply H2|by apply H1].
  - intros Hn. split; [naive_solver|]. intros [= -> ->]. apply Hn. split; [done|by left].
Qed.

Lemma invalidate_file_spec f c :
  pages_ok c ->
  pages_ok (invalidate_file f c) /\ fp_config (invalidate_file f c) = fp_config c /\
  file_pages (invalidate_file f c) = filter (λ e, pk_file_id e.1 ≠ f) (file_pages c).
Proof.
  intros [Hr Hm [H1 H2]]. unfold invalidate_file. destruct (by_file c !! f) as [pages|] eqn:Hp.
  - pose proof (pop_pages_spec f (elements pages) (fp_entries c) (bytes_resident c) Hr) as Hpop.
    destruct (foldl _ _ _) as [m r]. destruct Hpop as [Em Er].
    assert (lru_iter m = filter (λ e : page_entry, pk_file_id e.1 ≠ f) (file_pages c)) as E.
    { rewrite Em. fold (file_pages c). apply filter_ext_in. intros [[f' i] v] Hin. simpl.
      rewrite elem_of_elements. split; [|naive_solver]. intros Hn ->. apply Hn. split; [done|].
      specialize (H1 (mkPageKey f i)). simpl in H1. rewrite Hp in H1. apply H1, elem_of_keys. by exists v. }
    split; [split|split]; simpl; try done.
    + rewrite Er, E. etrans; [|exact Hm]. rewrite Hr. clear. induction (file_pages c) as [|e l IH]; [done|].
      rewrite filter_cons. case_decide; simpl; lia.
    + split.
      * intros [f' i]. specialize (H1 (mkPageKey f' i)). unfold keys_of, file_pages in *. simpl in *.
        rewrite E, elem_of_keys. setoid_rewrite list_elem_of_filter. simpl.
        destruct (decide (f' = f)) as [->|Hne].
        -- rewrite lookup_delete_eq. simpl. split; [set_solver|]. by intros (? & [] & _).
        -- rewrite lookup_delete_ne, H1, elem_of_keys by done. naive_solver.
      * intros f' s [_ Hs]%lookup_delete_Some. by eapply H2.
  - split; [done|]. split; [done|]. symmetry. apply filter_all. intros [[f' i] v] Hin. simpl. intros ->.
    specialize (H1 (mkPageKey f i)). simpl in H1. rewrite Hp in H1. simpl in H1.
    assert (keys_of (file_pages c) (mkPageKey f i)) as Hk by (apply elem_of_keys; by exists v).
    apply H1 in Hk. set_solver.
Qed.

Lemma pages_step_spec c call :
  pages_ok c -> (max_resident (fp_config c) < U64_MAX)%N ->
  pages_ok (pages_step c call).2 /\ fp_config (pages_step c call).2 = fp_config c /\
  (pages_step c call).1 = (file_step (max_resident (fp_config c)) (file_pages c) call).1 /\
  file_pages (pages_step c call).2 = (file_step (max_resident (fp_config c)) (file_pages c) call).2.
Proof.
  intros Hok Hmax. destruct call as [key|key bytes|f|]; simpl.
  - destruct Hok as [Hr Hm Hidx]. unfold pages_get. destruct (lru_get_iter key (fp_entries c)) as [Ev Em].
    fold (file_pages c) in Ev, Em. destruct (lru_get key (fp_entries c)) as [v m]. simpl in Ev, Em. subst v.
    destruct (page_of key (file_pages c)) as [v|] eqn:Ep; simpl; (split; [split|]); try done; simpl.
    + unfold file_pages. simpl. rewrite Em, total_bytes_app, total_bytes_drop_key, Ep by apply lru_keys.
      simpl. rewrite Hr. enough (len v <= total_bytes (file_pages c))%N by lia.
      apply page_of_Some in Ep; [|apply lru_keys]. clear -Ep.
      induction (file_pages c) as [|e l IH]; [by apply not_elem_of_nil in Ep|].
      apply elem_of_cons in Ep as [<-|Ep]; simpl; [lia|]. specialize (IH Ep). lia.
    + eapply index_ok_iff; [|exact Hidx]. intros k. unfold keys_of, file_pages at 2. simpl. rewrite Em.
      rewrite !elem_of_keys. setoid_rewrite elem_of_app. setoid_rewrite elem_of_drop_key.
      setoid_rewrite list_elem_of_singleton. simpl. apply page_of_Some in Ep; [|apply lru_keys].
      destruct (decide (k = key)) as [->|Hne]; [|naive_solver].
      split; [intros _; exists v; by right|]. intros _. by exists v.
    + unfold file_pages. simpl. by rewrite Em.
    + eapply index_ok_iff; [|exact Hidx]. intros k. unfold file_pages at 2. simpl. by rewrite Em.
  - destruct (pages_put_spec key bytes c Hok Hmax) as (? & ? & ->). simpl. by case_decide.
  - by destruct (invalidate_file_spec f c Hok) as (? & ? & ->).
  - unfold file_pages. simpl. rewrite lru_clear_iter. split_and!; try done. split; simpl.
    + unfold file_pages. simpl. by rewrite lru_clear_iter.
    + lia.
    + unfold file_pages. simpl. rewrite lru_clear_iter. split; [|done]. intros k. rewrite lookup_empty. simpl.
      unfold keys_of. csimpl. set_solver.
Qed.

Lemma pages_new_ok config :
  pages_ok (FilePages_new (L:=L) config) /\ file_pages (FilePages_new (L:=L) config) = [].
Proof.
  assert (file_pages (FilePages_new (L:=L) config) = []) as E by (unfold file_pages; simpl; apply lru_unbounded_iter).
  split; [|done]. split; rewrite ?E; simpl; try done; [lia|]. split; [|done].
  intros k. rewrite lookup_empty. unfold keys_of. simpl. set_solver.
Qed.

Lemma pages_run_spec config calls :
  (max_resident (normalise config) < U64_MAX)%N ->
  let c := FilePages_new (L:=L) config in
  replies pages_step c calls = replies (file_step (max_resident (normalise config))) [] calls /\
  file_pages (run_calls pages_step c calls) = run_calls (file_step (max_resident (normalise config))) [] calls /\
  pages_ok (run_calls pages_step c calls) /\ fp_config (run_calls pages_step c calls) = normalise config.
Proof.
  intros Hmax c. destruct (pages_new_ok config) as [Hnew E]. fold c in Hnew, E. rewrite <- E.
  apply (simulated_run pages_step _ file_pages (λ _ c, pages_ok c /\ fp_config c = normalise config)).
  - intros _ s call [Hs Hc]. destruct (pages_step_spec s call Hs) as (Hok & Hc' & Hr & Ha); [by rewrite Hc|].
    rewrite Hc in *. split_and!; try done.
  - by split.
Qed.
End Refinement.

(** The page cache of the read path refines a list of pages ordered by use.  Over any calls
    the replies are those of the list, which evicts the least recently used pages until a new
    page fits and ignores a page larger than the whole cache; the resident byte count is the
    total size of the pages and never exceeds the limit; and the index per file holds exactly
    the resident pages, so that invalidating a file leaves none of its pages and all others. *)
Theorem file_pages_refine_lru {L} `{LruMapLaws L} config (calls : list pages_call) :
  (max_resident (normalise config) < U64_MAX)%N ->
  let max := max_resident (normalise config) in
  let c := run_calls pages_step (FilePages_new (L:=L) config) calls in
  let pages := run_calls (file_step max) [] calls in
  replies pages_step (FilePages_new (L:=L) config) calls = replies (file_step max) [] calls /\
  file_pages c = pages /\ bytes_resident c = total_bytes pages /\ (total_bytes pages <= max)%N /\
  (forall file_id index, index ∈ default ∅ (by_file c !! file_id) <->
                         exists bytes, (mkPageKey file_id index, bytes) ∈ pages).
Proof.
  intros Hmax max c pages. destruct (pages_run_spec (L:=L) config calls Hmax) as (Hr & Hp & [H1 H2 [H3 _]] & Hc).
  fold c in Hp, H1, H2, H3, Hc. split; [done|]. split; [done|]. rewrite H1, Hp in *. rewrite Hc in H2.
  split_and!; [done..|]. intros f i. specialize (H3 (mkPageKey f i)). simpl in H3. rewrite H3.
  unfold keys_of. apply elem_of_keys.
Qed.

(** * The interface is inhabited *)

Definition lru_list : Type := { l : list page_entry | bool_decide (NoDup (fst <$> l)) = true }.

Lemma lru_list_drop k (l : list page_entry) :
  bool_decide (NoDup (fst <$> l)) = true -> bool_decide (NoDup (fst <$> drop_key k l)) = true.
Proof. rewrite !bool_decide_eq_true. apply NoDup_drop_key. Qed.

Lemma lru_list_push k v (l : list page_entry) :
  bool_decide (NoDup (fst <$> l)) = true -> bool_decide (NoDup (fst <$> drop_key k l ++ [(k, v)])) = true.
Proof.
  rewrite !bool_decide_eq_true. intros Hnd. rewrite fmap_app. apply NoDup_app.
  split; [by apply NoDup_drop_key|]. split; [|apply NoDup_singleton].
  intros k' (v' & [_ Hk]%elem_of_drop_key)%elem_of_keys. csimpl. by rewrite list_elem_of_singleton.
Qed.

Lemma lru_list_tail e (l : list page_entry) :
  bool_decide (NoDup (fst <$> e :: l)) = true -> bool_decide (NoDup (fst <$> l)) = true.
Proof. rewrite !bool_decide_eq_true. csimpl. by intros [_ ?]%NoDup_cons. Qed.

Definition lru_list_get (k : PageKey) (m : lru_list) : option (list byte) * lru_list :=
  match page_of k (proj1_sig m) with
  | Some v => (Some v, exist _ _ (lru_list_push k v _ (proj2_sig m)))
  | None => (None, m)
  end.

Definition lru_list_pop_lru (m : lru_list) : option page_entry * lru_list :=
  match m with
  | exist _ [] _ => (None, m)
  | exist _ (e :: l) Hl => (Some e, exist _ l (lru_list_tail e l Hl))
  end.

#[export] Instance lru_list_map : LruMap lru_list := {|
  lru_unbounded := exist _ [] eq_refl;
  lru_get := lru_list_get;
  lru_put k v m := exist _ _ (lru_list_push k v _ (proj2_sig m));
  lru_pop k m := (page_of k (proj1_sig m), exist _ _ (lru_list_drop k _ (proj2_sig m)));
  lru_pop_lru := lru_list_pop_lru;
  lru_clear _ := exist _ [] eq_refl;
  lru_len m := length (proj1_sig m);
  lru_iter m := proj1_sig m;
|}.

#[export] Instance lru_list_laws : LruMapLaws lru_list.
Proof.
  split; try done.
  - intros [l Hl]. simpl. by rewrite bool_decide_eq_true in Hl.
  - intros k m. simpl. unfold lru_list_get. by destruct (page_of k (proj1_sig m)).
  - intros [[|e l] Hl]; simpl; [done|]. by eexists.
Qed.

Lemma file_pages_refine_lru_witness :
  let page (c : ascii) := [c; c; c; c] in
  let calls := [PagesPut (mkPageKey 1 0) (page "a"%char); PagesPut (mkPageKey 1 1) (page "b"%char);
                PagesGet (mkPageKey 1 0); PagesPut (mkPageKey 2 0) (page "c"%char);
                PagesGet (mkPageKey 1 1); InvalidateFile 1; PagesGet (mkPageKey 2 0)] in
  replies pages_step (FilePages_new (L:=lru_list) (mkPageCacheConfig 4 8)) calls =
  [None; None; Some (page "a"%char); None; None; None; Some (page "c"%char)].
Proof.
  intros page calls. destruct (file_pages_refine_lru (L:=lru_list) (mkPageCacheConfig 4 8) calls) as [Hr _];
    [vm_compute; reflexivity|]. rewrite Hr. vm_compute. reflexivity.
Defined.
