(* ===== verification/Inodes.v ===== *)
(** The inode table of the FUSE adapter: crates/pcloud-fs/src/inode.rs.

    Every method takes the table's mutex; [insert_with_lookup] takes it twice.  A run of the
    table is therefore a sequence of lock sections of any threads, [inode_section]. *)
From S2P Require Import Prelude.

Definition ROOT_INODE : N := 1.

(** crates/pcloud-fs/src/fuse_adapter.rs *)
Inductive FsEntryKind : Type :=
| Directory
| RegularFile
| Symlink.

(** The one error of crates/pcloud-fs/src/errors.rs the table returns. *)
Inductive InodeError : Type :=
| InodeSpaceExhausted.

Record InodeEntry : Type := mkInodeEntry {
  ie_path : string;
  ie_kind : FsEntryKind;
  ie_generation : N;
}.

Record InodeTableInner : Type := mkInodeTable {
  by_ino : gmap N InodeEntry;
  by_path : gmap string N;
  next_ino : N;
  lookup_counts : gmap N N;
}.

Definition InodeTableInner_new : InodeTableInner :=
  mkInodeTable {[ROOT_INODE := mkInodeEntry "/" Directory 1]} {["/"%string := ROOT_INODE]} (ROOT_INODE + 1) ∅.

Definition resolve (t : InodeTableInner) (ino : N) : option (string * N * FsEntryKind) :=
  (λ e, (ie_path e, ie_generation e, ie_kind e)) <$> by_ino t !! ino.

Definition ino_for_path (t : InodeTableInner) (path : string) : option N := by_path t !! path.

Definition insert_or_get (path : string) (kind : FsEntryKind) (t : InodeTableInner)
  : result (N * N) InodeError * InodeTableInner :=
  match by_path t !! path ≫= (λ ino, (λ e, (ino, e)) <$> by_ino t !! ino) with
  | Some (ino, e) =>
      (Ok (ino, ie_generation e),
       mkInodeTable (<[ino := mkInodeEntry (ie_path e) kind (ie_generation e)]> (by_ino t))
         (by_path t) (next_ino t) (lookup_counts t))
  | None =>
      let ino := next_ino t in
      match u64_checked_add ino 1 with
      | None => (Err InodeSpaceExhausted, t)
      | Some next =>
          (Ok (ino, 1%N),
           mkInodeTable (<[ino := mkInodeEntry path kind 1]> (by_ino t))
             (<[path := ino]> (by_path t)) next (lookup_counts t))
      end
  end.

(** The second lock section of [insert_with_lookup]: [entry(ino).or_insert(0)]. *)
Definition bootstrap_lookup (ino : N) (t : InodeTableInner) : InodeTableInner :=
  mkInodeTable (by_ino t) (by_path t) (next_ino t)
    (match lookup_counts t !! ino with
     | Some _ => lookup_counts t
     | None => <[ino := 0%N]> (lookup_counts t)
     end).

Definition insert_with_lookup (path : string) (kind : FsEntryKind) (t : InodeTableInner)
  : result (N * N) InodeError * InodeTableInner :=
  match insert_or_get path kind t with
  | (Ok (ino, generation), t') => (Ok (ino, generation), bootstrap_lookup ino t')
  | (Err e, t') => (Err e, t')
  end.

Definition invalidate_path (path : string) (t : InodeTableInner) : option N * InodeTableInner :=
  if decide (path = "/"%string) then (None, t)
  else
    match by_path t !! path with
    | None => (None, t)
    | Some ino =>
        (Some ino,
         mkInodeTable (delete ino (by_ino t)) (delete path (by_path t)) (next_ino t) (lookup_counts t))
    end.

(** [by_ino.remove(&ino)], then [by_path.remove(&entry.path)]. *)
Definition evict_ino (ino : N) (t : InodeTableInner) : option string * InodeTableInner :=
  match by_ino t !! ino with
  | None => (None, t)
  | Some e =>
      (Some (ie_path e),
       mkInodeTable (delete ino (by_ino t)) (delete (ie_path e) (by_path t)) (next_ino t)
         (lookup_counts t))
  end.

Definition invalidate_ino (ino : N) (t : InodeTableInner) : option string * InodeTableInner :=
  if decide (ino = ROOT_INODE) then (None, t) else evict_ino ino t.

Definition table_len (t : InodeTableInner) : nat := size (by_ino t).

Definition set_lookup_counts (counts : gmap N N) (t : InodeTableInner) : InodeTableInner :=
  mkInodeTable (by_ino t) (by_path t) (next_ino t) counts.

Definition increment_lookup (ino : N) (t : InodeTableInner) : InodeTableInner :=
  set_lookup_counts
    (<[ino := u64_wrapping_add (default 0%N (lookup_counts t !! ino)) 1]> (lookup_counts t)) t.

Definition forget (ino nlookup : N) (t : InodeTableInner) : InodeTableInner :=
  if decide (ino = ROOT_INODE) then t
  else
    match lookup_counts t !! ino with
    | Some count =>
        let count' := (count - nlookup)%N in
        if decide (count' = 0%N)
        then (evict_ino ino (set_lookup_counts (delete ino (lookup_counts t)) t)).2
        else set_lookup_counts (<[ino := count']> (lookup_counts t)) t
    | None => (evict_ino ino t).2
    end.

Definition lookup_count (t : InodeTableInner) (ino : N) : N := default 0%N (lookup_counts t !! ino).

Definition bump_generation (ino : N) (t : InodeTableInner) : option N * InodeTableInner :=
  match by_ino t !! ino with
  | None => (None, t)
  | Some e =>
      let g := default 1%N (u64_checked_add (ie_generation e) 1) in
      (Some g,
       mkInodeTable (<[ino := mkInodeEntry (ie_path e) (ie_kind e) g]> (by_ino t))
         (by_path t) (next_ino t) (lookup_counts t))
  end.

(** * Runs *)

Inductive inode_section : Type :=
| InsertOrGet (path : string) (kind : FsEntryKind)
| BootstrapLookup (ino : N)
| InvalidatePath (path : string)
| InvalidateIno (ino : N)
| IncrementLookup (ino : N)
| Forget (ino nlookup : N)
| BumpGeneration (ino : N).

Definition inode_step (t : InodeTableInner) (s : inode_section) : InodeTableInner :=
  match s with
  | InsertOrGet path kind => (insert_or_get path kind t).2
  | BootstrapLookup ino => bootstrap_lookup ino t
  | InvalidatePath path => (invalidate_path path t).2
  | InvalidateIno ino => (invalidate_ino ino t).2
  | IncrementLookup ino => increment_lookup ino t
  | Forget ino nlookup => forget ino nlookup t
  | BumpGeneration ino => (bump_generation ino t).2
  end.

Definition inode_run (t : InodeTableInner) (ss : list inode_section) : InodeTableInner :=
  foldl inode_step t ss.

(** * The invariant *)

Record table_ok (t : InodeTableInner) : Prop := {
  tbl_maps i p : (exists e, by_ino t !! i = Some e /\ ie_path e = p) <-> by_path t !! p = Some i;
  tbl_next i e : by_ino t !! i = Some e -> (i < next_ino t)%N;
  tbl_root : by_path t !! "/"%string = Some ROOT_INODE;
}.

(** What one step may change: a live inode keeps its path, a new one is numbered from
    [next_ino] on, and [next_ino] never decreases. *)
Definition only_fresh (t t' : InodeTableInner) : Prop :=
  (next_ino t <= next_ino t')%N /\
  forall i e', by_ino t' !! i = Some e' ->
    (exists e, by_ino t !! i = Some e /\ ie_path e = ie_path e') \/ (next_ino t <= i)%N.

#[export] Instance only_fresh_refl : Reflexive only_fresh.
Proof. intros t. split; [lia|]. intros i e' H. left. by exists e'. Qed.

#[export] Instance only_fresh_trans : Transitive only_fresh.
Proof.
  intros t1 t2 t3 [Hn1 H1] [Hn2 H2]. split; [lia|]. intros i e3 H3.
  destruct (H2 i e3 H3) as [(e2 & Hi2 & <-)|?]; [|right; lia]. by apply H1.
Qed.

(** Overwriting the entry of a live inode, its path kept. *)
Lemma update_entry_ok t ino e e' :
  table_ok t -> by_ino t !! ino = Some e -> ie_path e' = ie_path e ->
  let t' := mkInodeTable (<[ino := e']> (by_ino t)) (by_path t) (next_ino t) (lookup_counts t) in
  table_ok t' /\ only_fresh t t'.
Proof.
  intros [Hm Hn Hr] He Hp t'. split; split; simpl.
  - intros i p. rewrite <- Hm. destruct (decide (ino = i)) as [->|Hne].
    + rewrite lookup_insert_eq. naive_solver.
    + by rewrite lookup_insert_ne.
  - intros i x Hx. destruct (decide (ino = i)) as [->|Hne]; [by eapply Hn|].
    rewrite lookup_insert_ne in Hx by done. by eapply Hn.
  - done.
  - lia.
  - intros i x Hx. left. destruct (decide (ino = i)) as [->|Hne].
    + rewrite lookup_insert_eq in Hx. simplify_eq. exists e. by rewrite Hp.
    + rewrite lookup_insert_ne in Hx by done. by exists x.
Qed.

(** Removing a live inode other than the root, together with its path. *)
Lemma remove_entry_ok t ino e counts :
  table_ok t -> by_ino t !! ino = Some e -> ino <> ROOT_INODE ->
  let t' := mkInodeTable (delete ino (by_ino t)) (delete (ie_path e) (by_path t)) (next_ino t) counts in
  table_ok t' /\ only_fresh t t'.
Proof.
  intros [Hm Hn Hr] He Hroot t'. split; split; simpl.
  - intros i p. rewrite lookup_delete_Some, <- Hm. setoid_rewrite lookup_delete_Some. split.
    + intros (x & [Hne Hx] & <-). split; [|by exists x]. intros E. apply Hne.
      assert (by_path t !! ie_path e = Some ino) as H1 by (apply Hm; by exists e).
      assert (by_path t !! ie_path x = Some i) as H2 by (apply Hm; by exists x). congruence.
    + intros [Hne (x & Hx & <-)]. exists x. split; [|done]. split; [|done]. intros ->. congruence.
  - intros i x [_ Hx]%lookup_delete_Some. by eapply Hn.
  - rewrite lookup_delete_ne; [done|]. intros E.
    assert (by_path t !! ie_path e = Some ino) as H1 by (apply Hm; by exists e).
    rewrite E in H1. congruence.
  - lia.
  - intros i x [_ Hx]%lookup_delete_Some. left. by exists x.
Qed.

Lemma evict_ino_ok t ino : table_ok t -> ino <> ROOT_INODE ->
  table_ok (evict_ino ino t).2 /\ only_fresh t (evict_ino ino t).2.
Proof.
  intros Hok Hroot. unfold evict_ino. destruct (by_ino t !! ino) as [e|] eqn:E; [|done].
  by apply remove_entry_ok.
Qed.

Lemma set_lookup_counts_ok t counts :
  table_ok t -> table_ok (set_lookup_counts counts t) /\ only_fresh t (set_lookup_counts counts t).
Proof. intros [Hm Hn Hr]. split; [by split|]. split; [simpl; lia|]. intros i e He. left. by exists e. Qed.

Lemma insert_or_get_known t path kind ino e :
  by_path t !! path = Some ino -> by_ino t !! ino = Some e ->
  insert_or_get path kind t =
    (Ok (ino, ie_generation e),
     mkInodeTable (<[ino := mkInodeEntry (ie_path e) kind (ie_generation e)]> (by_ino t))
       (by_path t) (next_ino t) (lookup_counts t)).
Proof. intros Hp He. unfold insert_or_get. rewrite Hp. simpl. by rewrite He. Qed.

Lemma insert_or_get_new t path kind :
  by_path t !! path = None -> (next_ino t < U64_MAX)%N ->
  insert_or_get path kind t =
    (Ok (next_ino t, 1%N),
     mkInodeTable (<[next_ino t := mkInodeEntry path kind 1]> (by_ino t))
       (<[path := next_ino t]> (by_path t)) (next_ino t + 1) (lookup_counts t)).
Proof.
  intros Hp Hlt. unfold insert_or_get. rewrite Hp. simpl. unfold u64_checked_add.
  by rewrite decide_True by lia.
Qed.

Lemma insert_or_get_full t path kind :
  by_path t !! path = None -> (U64_MAX <= next_ino t)%N ->
  insert_or_get path kind t = (Err InodeSpaceExhausted, t).
Proof.
  intros Hp Hge. unfold insert_or_get. rewrite Hp. simpl. unfold u64_checked_add.
  by rewrite decide_False by lia.
Qed.

Lemma insert_or_get_ok t path kind : table_ok t ->
  table_ok (insert_or_get path kind t).2 /\ only_fresh t (insert_or_get path kind t).2.
Proof.
  intros Hok. destruct Hok as [Hm Hn Hr] eqn:Eok. destruct (by_path t !! path) as [ino|] eqn:Hp.
  - destruct (proj2 (Hm ino path) Hp) as (e & He & Hpe).
    rewrite (insert_or_get_known t path kind ino e) by done. by apply (update_entry_ok t ino e).
  - destruct (decide (next_ino t < U64_MAX)%N); [|by rewrite insert_or_get_full by (done || lia)].
    rewrite insert_or_get_new by done. simpl.
    assert (by_ino t !! next_ino t = None) as Hfree.
    { destruct (by_ino t !! next_ino t) as [x|] eqn:Ex; [|done]. apply Hn in Ex. lia. }
    split; split; simpl.
    + intros i p. destruct (decide (next_ino t = i)) as [<-|Hne].
      * rewrite lookup_insert_eq. split.
        -- intros (x & [= <-] & <-). simpl. by rewrite lookup_insert_eq.
        -- destruct (decide (path = p)) as [<-|Hpp]; [by eexists|]. rewrite lookup_insert_ne by done.
           intros Hx%Hm. destruct Hx as (x & Hx & _). congruence.
      * rewrite lookup_insert_ne by done. rewrite Hm.
        destruct (decide (path = p)) as [<-|Hpp]; [|by rewrite lookup_insert_ne].
        rewrite Hp, lookup_insert_eq. naive_solver.
    + intros i x. destruct (decide (next_ino t = i)) as [<-|Hne]; [lia|].
      rewrite lookup_insert_ne by done. intros Hx%Hn. lia.
    + rewrite lookup_insert_ne; [done|]. congruence.
    + lia.
    + intros i x. destruct (decide (next_ino t = i)) as [<-|Hne]; [right; lia|].
      rewrite lookup_insert_ne by done. intros Hx. left. by exists x.
Qed.

Lemma forget_ok t ino nlookup : table_ok t ->
  table_ok (forget ino nlookup t) /\ only_fresh t (forget ino nlookup t).
Proof.
  intros Hok. unfold forget. case_decide as Hroot; [done|].
  destruct (lookup_counts t !! ino) as [count|]; [|by apply evict_ino_ok].
  case_decide; [|by apply set_lookup_counts_ok].
  destruct (set_lookup_counts_ok t (delete ino (lookup_counts t)) Hok) as [Hok1 Hf1].
  destruct (evict_ino_ok _ ino Hok1 Hroot) as [Hok2 Hf2]. split; [done|]. by etransitivity.
Qed.

Lemma invalidate_path_ok t path : table_ok t ->
  table_ok (invalidate_path path t).2 /\ only_fresh t (invalidate_path path t).2.
Proof.
  intros Hok. unfold invalidate_path. case_decide as Hroot; [done|].
  destruct (by_path t !! path) as [ino|] eqn:Hp; [|done].
  destruct (proj2 (tbl_maps t Hok ino path) Hp) as (e & He & <-).
  apply remove_entry_ok; [done..|]. intros ->. apply Hroot.
  pose proof (tbl_root t Hok) as Hr. apply (tbl_maps t Hok) in Hr as (x & Hx & Hxp). congruence.
Qed.

Lemma inode_step_ok t s : table_ok t -> table_ok (inode_step t s) /\ only_fresh t (inode_step t s).
Proof.
  intros Hok. destruct s as [path kind|ino|path|ino|ino|ino nlookup|ino]; simpl.
  - by apply insert_or_get_ok.
  - by apply (set_lookup_counts_ok t).
  - by apply invalidate_path_ok.
  - unfold invalidate_ino. case_decide; [done|]. by apply evict_ino_ok.
  - by apply set_lookup_counts_ok.
  - by apply forget_ok.
  - unfold bump_generation. destruct (by_ino t !! ino) as [e|] eqn:He; [|done].
    by apply (update_entry_ok t ino e).
Qed.

Lemma table_new_ok : table_ok InodeTableInner_new.
Proof.
  split; simpl.
  - intros i p. rewrite lookup_singleton_Some. setoid_rewrite lookup_singleton_Some. naive_solver.
  - intros i e [<- _]%lookup_singleton_Some. done.
  - apply lookup_singleton_eq.
Qed.

Lemma inode_run_ok t ss : table_ok t -> table_ok (inode_run t ss) /\ only_fresh t (inode_run t ss).
Proof.
  revert t; induction ss as [|s ss IH]; intros t Hok; [done|]. simpl.
  destruct (inode_step_ok t s Hok) as [Hok1 Hf1]. destruct (IH _ Hok1) as [Hok2 Hf2].
  split; [done|]. by etransitivity.
Qed.

Lemma inode_run_app t ss1 ss2 : inode_run t (ss1 ++ ss2) = inode_run (inode_run t ss1) ss2.
Proof. apply foldl_app. Qed.

Lemma resolve_Some t i p g k :
  resolve t i = Some (p, g, k) <-> by_ino t !! i = Some (mkInodeEntry p k g).
Proof.
  unfold resolve. rewrite fmap_Some. split; [|intros ->; by eexists].
  intros ([] & He & [= -> -> ->]). done.
Qed.

(** Whatever lock sections ran, in whatever order: the two maps are inverse to each other, the
    root resolves to "/", and [insert_with_lookup] of any path either fails on a full number
    space without changing the table or returns an inode that resolves to that path and kind,
    is found by it, and has a lookup counter, so that the kernel's [forget] can evict it. *)
Theorem inode_table_invariant ss :
  let t := inode_run InodeTableInner_new ss in
  (forall i p, (exists g k, resolve t i = Some (p, g, k)) <-> ino_for_path t p = Some i) /\
  (exists g k, resolve t ROOT_INODE = Some ("/"%string, g, k)) /\
  forall path kind,
    match insert_with_lookup path kind t with
    | (Ok (i, g), t') =>
        resolve t' i = Some (path, g, kind) /\ ino_for_path t' path = Some i /\
        is_Some (lookup_counts t' !! i) /\
        (ino_for_path t path = None -> resolve t i = None)
    | (Err _, t') => t' = t /\ ino_for_path t path = None /\ (U64_MAX <= next_ino t)%N
    end.
Proof.
  intros t. destruct (inode_run_ok InodeTableInner_new ss table_new_ok) as [Hok _]. fold t in Hok.
  assert (forall i p, (exists g k, resolve t i = Some (p, g, k)) <-> ino_for_path t p = Some i) as Hmap.
  { intros i p. unfold ino_for_path. rewrite <- (tbl_maps t Hok). setoid_rewrite resolve_Some. split.
    - intros (g & k & He). by eexists.
    - intros ([p' k g] & He & <-). by exists g, k. }
  split; [done|]. split; [by apply Hmap, (tbl_root t Hok)|].
  intros path kind. unfold insert_with_lookup.
  assert (forall i t', is_Some (lookup_counts (bootstrap_lookup i t') !! i)) as Hboot.
  { intros i t'. unfold bootstrap_lookup; simpl. destruct (lookup_counts t' !! i) eqn:E.
    - by rewrite E.
    - by rewrite lookup_insert_eq. }
  destruct (by_path t !! path) as [ino|] eqn:Hp.
  - destruct (proj2 (tbl_maps t Hok ino path) Hp) as (e & He & <-).
    rewrite (insert_or_get_known t (ie_path e) kind ino e) by done.
    unfold ino_for_path. rewrite resolve_Some. simpl. rewrite lookup_insert_eq.
    repeat split; [done|apply Hboot|congruence].
  - destruct (decide (next_ino t < U64_MAX)%N); [|rewrite insert_or_get_full by (done || lia); auto with lia].
    rewrite insert_or_get_new by done. unfold ino_for_path. rewrite resolve_Some. simpl.
    rewrite !lookup_insert_eq. repeat split; [apply Hboot|]. intros _. unfold resolve.
    destruct (by_ino t !! next_ino t) as [x|] eqn:Ex; [|done]. apply (tbl_next t Hok) in Ex. lia.
Qed.

(** An inode number the kernel may still hold never addresses another file: if it resolved to a
    path at one moment, then at every later moment it resolves to the same path or not at all,
    and once it does not resolve it never does again. *)
Theorem inode_never_reused ss1 ss2 ss3 i p g k
    (Hlive : resolve (inode_run InodeTableInner_new ss1) i = Some (p, g, k)) :
  let t2 := inode_run InodeTableInner_new (ss1 ++ ss2) in
  let t3 := inode_run InodeTableInner_new (ss1 ++ ss2 ++ ss3) in
  match resolve t2 i with
  | Some (p', _, _) => p' = p
  | None => resolve t3 i = None
  end.
Proof.
  cbv zeta. rewrite app_assoc, !inode_run_app. apply resolve_Some in Hlive.
  destruct (inode_run_ok _ ss1 table_new_ok) as [Hok1 _].
  set (t1 := inode_run InodeTableInner_new ss1) in *.
  destruct (inode_run_ok t1 ss2 Hok1) as [Hok2 [Hn2 Hf2]].
  set (t2 := inode_run t1 ss2) in *.
  destruct (inode_run_ok t2 ss3 Hok2) as [_ [Hn3 Hf3]]. pose proof (tbl_next t1 Hok1 _ _ Hlive) as Hi.
  destruct (resolve t2 i) as [[[p' g'] k']|] eqn:E2.
  - apply resolve_Some in E2. destruct (Hf2 i _ E2) as [(e & He & Hpe)|?]; [|lia].
    rewrite Hlive in He. by simplify_eq/=.
  - destruct (resolve (inode_run t2 ss3) i) as [[[p' g'] k']|] eqn:E3; [|done].
    apply resolve_Some in E3. destruct (Hf3 i _ E3) as [(e & He & _)|?]; [|lia].
    unfold resolve in E2. by rewrite He in E2.
Qed.

Lemma inode_never_reused_witness :
  let t2 := inode_run InodeTableInner_new ([InsertOrGet "/x" RegularFile] ++ [InvalidatePath "/x"]) in
  let t3 := inode_run InodeTableInner_new
    ([InsertOrGet "/x" RegularFile] ++ [InvalidatePath "/x"] ++ [InsertOrGet "/x" Directory]) in
  match resolve t2 2 with
  | Some (p', _, _) => p' = "/x"%string
  | None => resolve t3 2 = None
  end.
Proof. apply (inode_never_reused _ _ _ 2 "/x" 1 RegularFile). reflexivity. Defined.

(** A counted inode lives exactly until as many lookups are forgotten as were counted. *)
Lemma forget_evicts_at_zero t ino nlookup count :
  ino <> ROOT_INODE -> lookup_counts t !! ino = Some count ->
  resolve (forget ino nlookup t) ino = if decide (count <= nlookup)%N then None else resolve t ino.
Proof.
  intros Hr Hc. unfold forget. rewrite decide_False, Hc by done.
  destruct (decide (count - nlookup = 0)%N), (decide (count <= nlookup)%N); try lia; [|done].
  unfold evict_ino, set_lookup_counts; simpl. destruct (by_ino t !! ino) eqn:E; unfold resolve; simpl.
  - by rewrite lookup_delete_eq.
  - by rewrite E.
Qed.
