(* ===== verification/MetadataCache.v ===== *)
(** The metadata cache of the FUSE adapter: crates/pcloud-fs/src/metadata_cache.rs.

    The order queue is cleaned lazily: an element whose sequence number is not that of the live
    slot is a tombstone.  [lru_step] is the cache the code means, a list of entries from the
    least to the most recently used; the theorem is that no caller can tell the two apart.
    Every method is one critical section, with its clock readings as arguments. *)
From S2P Require Import Prelude Clock Inodes.

(** * The cached values: [EntryAttr] and [DirEntry] of crates/pcloud-fs/src/fuse_adapter.rs *)

Record EntryAttr : Type := mkEntryAttr {
  attr_ino : N;
  attr_kind : FsEntryKind;
  attr_size : N;
  attr_mode : N;
  attr_uid : N;
  attr_gid : N;
  attr_mtime_epoch : option N;
  attr_mtime_nsec : N;
}.

Record DirEntry : Type := mkDirEntry {
  de_ino : N;
  de_kind : FsEntryKind;
  de_name : string;
}.

Record CachedMetadata : Type := mkCachedMetadata {
  cm_attr : EntryAttr;
  cm_children : option (list DirEntry);
}.

(** * The cache *)

Definition DEFAULT_TTL : Duration := from_secs 30.
Definition DEFAULT_CAPACITY : N := 4096.

Record MetadataCacheConfig : Type := mkMetadataCacheConfig {
  ttl : Duration;
  capacity : N;
}.

Definition MetadataCacheConfig_default : MetadataCacheConfig :=
  mkMetadataCacheConfig DEFAULT_TTL DEFAULT_CAPACITY.

Record CacheSlot : Type := mkCacheSlot {
  slot_meta : CachedMetadata;
  inserted_at : Instant;
  slot_seq : N;
}.

Record OrderEntry : Type := mkOrderEntry {
  oe_path : string;
  oe_seq : N;
}.

#[export] Instance OrderEntry_eq_dec : EqDecision OrderEntry.
Proof. solve_decision. Defined.

(** [Inner]. *)
Record MetadataCache : Type := mkMetadataCache {
  mc_config : MetadataCacheConfig;
  mc_entries : gmap string CacheSlot;
  mc_order : list OrderEntry;
  mc_next_seq : N;
}.

Definition MetadataCache_new (config : MetadataCacheConfig) : MetadataCache :=
  mkMetadataCache (mkMetadataCacheConfig (ttl config) (N.max (capacity config) 1)) ∅ [] 0.

Definition alloc_seq (c : MetadataCache) : N * MetadataCache :=
  (mc_next_seq c,
   mkMetadataCache (mc_config c) (mc_entries c) (mc_order c) (u64_wrapping_add (mc_next_seq c) 1)).

Definition touch (path : string) (c : MetadataCache) : MetadataCache :=
  match mc_entries c !! path with
  | None => c
  | Some slot =>
      match list_find (λ e, oe_path e = path /\ oe_seq e = slot_seq slot) (mc_order c) with
      | Some (pos, entry) =>
          let '(new_seq, c1) := alloc_seq c in
          mkMetadataCache (mc_config c1)
            (<[path := mkCacheSlot (slot_meta slot) (inserted_at slot) new_seq]> (mc_entries c1))
            (delete pos (mc_order c1) ++ [mkOrderEntry (oe_path entry) new_seq]) (mc_next_seq c1)
      | None => c
      end
  end.

(** The closure of [order.retain] removes expired slots while it runs. *)
Fixpoint retain_live (ttl now : N) (order : list OrderEntry) (entries : gmap string CacheSlot)
    : list OrderEntry * gmap string CacheSlot :=
  match order with
  | [] => ([], entries)
  | entry :: order' =>
      match entries !! oe_path entry with
      | Some slot =>
          if decide (slot_seq slot = oe_seq entry) then
            if decide (duration_since now (inserted_at slot) <= ttl)%N then
              let '(kept, entries) := retain_live ttl now order' entries in (entry :: kept, entries)
            else retain_live ttl now order' (delete (oe_path entry) entries)
          else retain_live ttl now order' entries
      | None => retain_live ttl now order' entries
      end
  end.

Definition evict_expired (now : Instant) (c : MetadataCache) : MetadataCache :=
  let '(order, entries) := retain_live (ttl (mc_config c)) now (mc_order c) (mc_entries c) in
  mkMetadataCache (mc_config c) entries order (mc_next_seq c).

(** The [while] loop pops an element of the queue in every turn. *)
Fixpoint evict_loop_meta (capacity : N) (order : list OrderEntry) (entries : gmap string CacheSlot)
    : list OrderEntry * gmap string CacheSlot :=
  if decide (capacity < N.of_nat (size entries))%N then
    match order with
    | [] => ([], entries)
    | oldest :: order' =>
        evict_loop_meta capacity order'
          (match entries !! oe_path oldest with
           | Some slot =>
               if decide (slot_seq slot = oe_seq oldest) then delete (oe_path oldest) entries else entries
           | None => entries
           end)
    end
  else (order, entries).

Definition evict_if_over_capacity (c : MetadataCache) : MetadataCache :=
  let '(order, entries) := evict_loop_meta (capacity (mc_config c)) (mc_order c) (mc_entries c) in
  mkMetadataCache (mc_config c) entries order (mc_next_seq c).

Definition with_entries (entries : gmap string CacheSlot) (c : MetadataCache) : MetadataCache :=
  mkMetadataCache (mc_config c) entries (mc_order c) (mc_next_seq c).

(** [MetadataCache::get]. *)
Definition meta_get (now : Instant) (path : string) (c : MetadataCache)
    : option CachedMetadata * MetadataCache :=
  match mc_entries c !! path with
  | None => (None, c)
  | Some slot =>
      if decide (ttl (mc_config c) < duration_since now (inserted_at slot))%N
      then (None, with_entries (delete path (mc_entries c)) c)
      else (Some (slot_meta slot), touch path c)
  end.

(** [MetadataCache::put]; [now'] is the reading in [evict_expired]. *)
Definition meta_put (now now' : Instant) (path : string) (meta : CachedMetadata) (c : MetadataCache)
    : MetadataCache :=
  let '(seq, c) := alloc_seq c in
  let c := evict_expired now' c in
  evict_if_over_capacity
    (mkMetadataCache (mc_config c) (<[path := mkCacheSlot meta now seq]> (mc_entries c))
       (mc_order c ++ [mkOrderEntry path seq]) (mc_next_seq c)).

Definition meta_invalidate (path : string) (c : MetadataCache) : MetadataCache :=
  with_entries (delete path (mc_entries c)) c.

Definition meta_clear (c : MetadataCache) : MetadataCache :=
  mkMetadataCache (mc_config c) ∅ [] (mc_next_seq c).

Definition meta_len (c : MetadataCache) : nat := size (mc_entries c).

(** * Runs *)

Inductive meta_call : Type :=
| MetaGet (now : Instant) (path : string)
| MetaPut (now now' : Instant) (path : string) (meta : CachedMetadata)
| MetaInvalidate (path : string)
| MetaClear
| MetaLen.

Inductive meta_reply : Type :=
| Found (m : option CachedMetadata)
| Length (n : nat)
| Unit.

Definition meta_step (c : MetadataCache) (call : meta_call) : meta_reply * MetadataCache :=
  match call with
  | MetaGet now path => let '(r, c) := meta_get now path c in (Found r, c)
  | MetaPut now now' path meta => (Unit, meta_put now now' path meta c)
  | MetaInvalidate path => (Unit, meta_invalidate path c)
  | MetaClear => (Unit, meta_clear c)
  | MetaLen => (Length (meta_len c), c)
  end.

(** * The cache as it is meant: entries from the least to the most recently used *)

Definition lru_entry : Type := string * CachedMetadata * Instant.
Definition lru_path (e : lru_entry) : string := e.1.1.
Definition lru_fresh (config : MetadataCacheConfig) (now : Instant) (e : lru_entry) : Prop :=
  (duration_since now e.2 <= ttl config)%N.

#[export] Instance lru_fresh_dec config now e : Decision (lru_fresh config now e).
Proof. unfold lru_fresh. apply _. Defined.

Definition lru_remove (path : string) (l : list lru_entry) : list lru_entry :=
  filter (λ e, lru_path e ≠ path) l.

Definition lru_step (config : MetadataCacheConfig) (l : list lru_entry) (call : meta_call)
    : meta_reply * list lru_entry :=
  match call with
  | MetaGet now path =>
      match list_find (λ e, lru_path e = path) l with
      | None => (Found None, l)
      | Some (_, e) =>
          if decide (lru_fresh config now e)
          then (Found (Some e.1.2), lru_remove path l ++ [e])
          else (Found None, lru_remove path l)
      end
  | MetaPut now now' path meta =>
      let l := lru_remove path (filter (lru_fresh config now') l) ++ [(path, meta, now)] in
      (Unit, drop (length l - N.to_nat (capacity config)) l)
  | MetaInvalidate path => (Unit, lru_remove path l)
  | MetaClear => (Unit, [])
  | MetaLen => (Length (length l), l)
  end.

(** * Abstraction and invariant *)

Definition live (entries : gmap string CacheSlot) (e : OrderEntry) : option lru_entry :=
  match entries !! oe_path e with
  | Some slot =>
      if decide (slot_seq slot = oe_seq e) then Some (oe_path e, slot_meta slot, inserted_at slot)
      else None
  | None => None
  end.

Definition cache_entries (c : MetadataCache) : list lru_entry := omap (live (mc_entries c)) (mc_order c).

Record order_ok (entries : gmap string CacheSlot) (order : list OrderEntry) : Prop := {
  oo_live path slot : entries !! path = Some slot -> mkOrderEntry path (slot_seq slot) ∈ order;
  oo_sorted : StronglySorted N.lt (oe_seq <$> order);
}.

Record meta_ok (c : MetadataCache) : Prop := {
  mo_order : order_ok (mc_entries c) (mc_order c);
  mo_next : Forall (λ e, (oe_seq e < mc_next_seq c)%N) (mc_order c);
  mo_size : (N.of_nat (size (mc_entries c)) <= capacity (mc_config c))%N;
  mo_length : (len (mc_order c) <= capacity (mc_config c) + 1)%N;
  mo_cap : (1 <= capacity (mc_config c))%N;
}.

(** * The live entries of an order queue *)

Lemma omap_delete {A B} (f : A -> option B) (l : list A) i x :
  l !! i = Some x -> f x = None -> omap f (delete i l) = omap f l.
Proof.
  revert i; induction l as [|y l IH]; intros [|i] Hi Hx; simplify_eq/=; [by rewrite Hx|].
  destruct (f y); [f_equal|]; by eapply IH.
Qed.

Lemma live_Some E e x : live E e = Some x <->
  exists slot, E !! oe_path e = Some slot /\ slot_seq slot = oe_seq e /\
               x = (oe_path e, slot_meta slot, inserted_at slot).
Proof.
  unfold live. destruct (E !! oe_path e) as [slot|]; [|naive_solver].
  case_decide; naive_solver.
Qed.

Lemma live_delete p E e :
  live (delete p E) e = if decide (oe_path e = p) then None else live E e.
Proof.
  unfold live. case_decide as Hp; [by rewrite Hp, lookup_delete_eq|]. by rewrite lookup_delete_ne.
Qed.

(** Removing a slot removes its entry and leaves a tombstone. *)
Lemma omap_live_delete p E o : omap (live (delete p E)) o = lru_remove p (omap (live E) o).
Proof.
  induction o as [|e o IH]; [done|]. simpl. rewrite live_delete.
  destruct (live E e) as [x|] eqn:Hx; [|by case_decide].
  unfold lru_remove. rewrite filter_cons. apply live_Some in Hx as (slot & _ & _ & ->). simpl.
  unfold lru_path at 1; simpl.
  repeat case_decide; [congruence|done|simpl; by f_equal|congruence].
Qed.

Lemma elem_of_live E o x : order_ok E o ->
  x ∈ omap (live E) o <->
  exists slot, E !! lru_path x = Some slot /\ x = (lru_path x, slot_meta slot, inserted_at slot).
Proof.
  intros [Hl _]. rewrite list_elem_of_omap. split.
  - intros (e & _ & (slot & ? & ? & ->)%live_Some). by exists slot.
  - intros (slot & Hs & ->). simpl in Hs. exists (mkOrderEntry (lru_path x) (slot_seq slot)).
    split; [by apply Hl|]. apply live_Some. by exists slot.
Qed.

Lemma Forall_sublist {A} (P : A -> Prop) (l l' : list A) : l' `sublist_of` l -> Forall P l -> Forall P l'.
Proof. rewrite !Forall_forall. intros Hs Hf x Hx. apply Hf. by eapply elem_of_sublist. Qed.

Lemma sorted_lt_tail e (o : list OrderEntry) :
  StronglySorted N.lt (oe_seq <$> e :: o) ->
  StronglySorted N.lt (oe_seq <$> o) /\ forall x, x ∈ o -> (oe_seq e < oe_seq x)%N.
Proof.
  csimpl. intros [Hs Hf]%StronglySorted_inv. split; [done|]. intros x Hx.
  rewrite Forall_fmap, Forall_forall in Hf. by apply Hf.
Qed.

(** Behind a live element there is no other live element of its path. *)
Lemma live_tail E e o slot :
  StronglySorted N.lt (oe_seq <$> e :: o) -> E !! oe_path e = Some slot -> slot_seq slot = oe_seq e ->
  omap (live (delete (oe_path e) E)) o = omap (live E) o.
Proof.
  intros [_ Hlt]%sorted_lt_tail Hs Hq. apply omap_ext_in. intros x Hx. rewrite live_delete.
  case_decide as Hp; [|done]. symmetry. unfold live. rewrite Hp, Hs.
  rewrite decide_False; [done|]. specialize (Hlt x Hx). lia.
Qed.

Lemma live_NoDup E o : StronglySorted N.lt (oe_seq <$> o) -> NoDup (lru_path <$> omap (live E) o).
Proof.
  induction o as [|e o IH]; intros Hs; [constructor|]. pose proof (sorted_lt_tail _ _ Hs) as [Hs' Hlt].
  simpl. destruct (live E e) as [x|] eqn:Hx; [|by apply IH]. csimpl. constructor; [|by apply IH].
  apply live_Some in Hx as (slot & Hl & Hq & ->). simpl.
  intros (y & Hp & (e' & He' & (slot' & Hl' & Hq' & ->)%live_Some)%list_elem_of_omap)%list_elem_of_fmap.
  unfold lru_path in Hp; simpl in Hp. rewrite <- Hp in Hl'. specialize (Hlt _ He').
  simplify_eq. lia.
Qed.

Lemma live_size E o : order_ok E o -> length (omap (live E) o) = size E.
Proof.
  intros Hok. rewrite <- (length_fmap lru_path). rewrite <- size_dom.
  rewrite <- (size_list_to_set (C:=gset string)) by (apply live_NoDup, Hok).
  f_equal. apply set_eq. intros p. rewrite elem_of_list_to_set, list_elem_of_fmap, elem_of_dom. split.
  - intros (x & -> & (slot & Hs & _)%elem_of_live); [|done]. by exists slot.
  - intros [slot Hs]. exists (p, slot_meta slot, inserted_at slot). split; [done|].
    apply elem_of_live; [done|]. by exists slot.
Qed.

(** The entry of a path, if there is one. *)
Lemma find_live E o p : order_ok E o ->
  snd <$> list_find (λ e, lru_path e = p) (omap (live E) o) =
  (λ slot, (p, slot_meta slot, inserted_at slot)) <$> E !! p.
Proof.
  intros Hok. destruct (list_find _ _) as [[i e]|] eqn:Hf; simpl.
  - apply list_find_Some in Hf as (Hi & Hp & _).
    apply list_elem_of_lookup_2, elem_of_live in Hi as (slot & Hs & He); [|done].
    rewrite Hp in Hs, He. by rewrite Hs, He.
  - apply list_find_None in Hf. rewrite Forall_forall in Hf.
    destruct (E !! p) as [slot|] eqn:Hs; [|done]. exfalso.
    apply (Hf (p, slot_meta slot, inserted_at slot)); [|done]. apply elem_of_live; [done|]. by exists slot.
Qed.

(** * The pieces of the methods *)

Lemma lru_remove_idemp p l : lru_remove p (lru_remove p l) = lru_remove p l.
Proof. apply filter_all. intros x Hx. apply list_elem_of_filter in Hx. apply Hx. Qed.

Lemma elem_of_lt_next o s e : Forall (λ e, (oe_seq e < s)%N) o -> e ∈ o -> (oe_seq e < s)%N.
Proof. rewrite Forall_forall. auto. Qed.

Lemma sorted_snoc (o : list OrderEntry) e :
  StronglySorted N.lt (oe_seq <$> o) -> Forall (λ x, (oe_seq x < oe_seq e)%N) o ->
  StronglySorted N.lt (oe_seq <$> o ++ [e]).
Proof.
  induction o as [|x o IH]; intros Hs Hf; csimpl; [by repeat constructor|].
  csimpl in Hs. apply StronglySorted_inv in Hs as [Hs Hx]. apply Forall_cons in Hf as [Hf1 Hf].
  constructor; [by apply IH|]. rewrite fmap_app. apply Forall_app. split; [done|]. by repeat constructor.
Qed.

(** A new slot with a new sequence number, at the end of the queue. *)
Lemma insert_fresh E o p m t s :
  order_ok E o -> Forall (λ e, (oe_seq e < s)%N) o ->
  let E' := <[p := mkCacheSlot m t s]> E in
  let o' := o ++ [mkOrderEntry p s] in
  order_ok E' o' /\ omap (live E') o' = lru_remove p (omap (live E) o) ++ [(p, m, t)].
Proof.
  intros [Hl Hs] Hf E' o'. split.
  - split; [|by apply sorted_snoc]. intros q slot. unfold E', o'.
    rewrite lookup_insert_Some, elem_of_app, list_elem_of_singleton.
    intros [[<- <-]|[_ Hq]]; [by right|]. left. by apply Hl.
  - unfold o'. rewrite omap_app. f_equal.
    + rewrite <- omap_live_delete. apply omap_ext_in. intros x Hx. rewrite live_delete. unfold live, E'.
      case_decide as Hp; [|by rewrite lookup_insert_ne].
      rewrite Hp, lookup_insert_eq, decide_False; [done|]. simpl.
      pose proof (elem_of_lt_next _ _ _ Hf Hx). lia.
    + simpl. unfold live, E'. simpl. by rewrite lookup_insert_eq, decide_True.
Qed.

(** Dropping a live element together with its slot. *)
Lemma remove_live E o i p slot :
  order_ok E o -> E !! p = Some slot -> o !! i = Some (mkOrderEntry p (slot_seq slot)) ->
  order_ok (delete p E) (delete i o) /\
  omap (live (delete p E)) (delete i o) = lru_remove p (omap (live E) o).
Proof.
  intros [Hl Hs] Hp Hi. split.
  - split.
    + intros q slot' [Hne Hq]%lookup_delete_Some. pose proof (Hl _ _ Hq) as Hin.
      rewrite <- (take_drop_middle _ _ _ Hi) in Hin. rewrite delete_take_drop.
      rewrite elem_of_app, elem_of_cons in Hin. rewrite elem_of_app.
      destruct Hin as [?|[[= -> _]|?]]; [by left|done|by right].
    + eapply sublist_sorted; [|exact Hs]. apply fmap_sublist, sublist_delete.
  - rewrite <- omap_live_delete. eapply omap_delete; [exact Hi|]. rewrite live_delete. by rewrite decide_True.
Qed.

Definition live_fresh (ttl now : N) (E : gmap string CacheSlot) (e : OrderEntry) : Prop :=
  exists slot, E !! oe_path e = Some slot /\ slot_seq slot = oe_seq e /\
               (duration_since now (inserted_at slot) <= ttl)%N.

#[export] Instance live_fresh_dec ttl now E e : Decision (live_fresh ttl now E e).
Proof.
  unfold live_fresh. destruct (E !! oe_path e) as [slot|].
  - destruct (decide (slot_seq slot = oe_seq e /\ (duration_since now (inserted_at slot) <= ttl)%N)) as [Hd|Hd].
    + left. by exists slot.
    + right. intros (slot' & [= <-] & ? & ?). by apply Hd.
  - right. by intros (? & ? & _).
Defined.

Definition slot_fresh (ttl now : N) (slot : CacheSlot) : Prop :=
  (duration_since now (inserted_at slot) <= ttl)%N.

(** Deleting a live slot that has expired does not change which elements are live and fresh. *)
Lemma live_fresh_delete ttl now E e x slot :
  E !! oe_path e = Some slot -> ~ slot_fresh ttl now slot ->
  live_fresh ttl now (delete (oe_path e) E) x <-> live_fresh ttl now E x.
Proof.
  intros Hs Hexp. unfold live_fresh. destruct (decide (oe_path x = oe_path e)) as [->|Hne].
  - rewrite lookup_delete_eq, Hs. split; [naive_solver|]. intros (? & [= <-] & ? & ?). by destruct Hexp.
  - by rewrite lookup_delete_ne by done.
Qed.

Lemma retain_live_order ttl now o E : (retain_live ttl now o E).1 = filter (live_fresh ttl now E) o.
Proof.
  revert E; induction o as [|e o IH]; intros E; [done|]. simpl. rewrite filter_cons.
  destruct (E !! oe_path e) as [slot|] eqn:Hs.
  - case_decide as Hq; [case_decide as Ht|].
    + rewrite decide_True by (by exists slot). specialize (IH E).
      destruct (retain_live ttl now o E). simpl in *. by rewrite IH.
    + rewrite decide_False by (intros (? & Hs' & ? & ?); by simplify_eq). rewrite IH.
      apply list_filter_iff. intros x. by eapply live_fresh_delete.
    + rewrite decide_False by (intros (? & Hs' & ? & ?); by simplify_eq). apply IH.
  - rewrite decide_False by (intros (? & Hs' & ? & ?); by simplify_eq). apply IH.
Qed.

Lemma retain_live_lookup ttl now o E p slot :
  (retain_live ttl now o E).2 !! p = Some slot <->
  E !! p = Some slot /\ (mkOrderEntry p (slot_seq slot) ∈ o -> slot_fresh ttl now slot).
Proof.
  revert E; induction o as [|e o IH]; intros E; simpl.
  { split; [|naive_solver]. intros ?. split; [done|]. by intros ?%not_elem_of_nil. }
  rewrite elem_of_cons. destruct (E !! oe_path e) as [slot'|] eqn:Hs.
  - case_decide as Hq; [case_decide as Ht|].
    + specialize (IH E). destruct (retain_live ttl now o E) as [kept E']. simpl in *. rewrite IH.
      split; [|naive_solver]. intros [Hp Hf]. split; [done|]. intros [He|]; [|auto].
      subst e. simpl in Hs. by simplify_eq.
    + rewrite IH, lookup_delete_Some. split.
      * intros [[Hne Hp] Hf]. split; [done|]. intros [He|]; [|auto]. by subst e.
      * intros [Hp Hf]. split; [|auto]. split; [|done]. intros He. rewrite He in Hs.
        assert (slot' = slot) as -> by congruence. apply Ht, Hf. left. destruct e; simpl in *. by f_equal.
    + rewrite IH. split; [|naive_solver]. intros [Hp Hf]. split; [done|]. intros [He|]; [|auto].
      subst e. simpl in *. congruence.
  - rewrite IH. split; [|naive_solver]. intros [Hp Hf]. split; [done|]. intros [He|]; [|auto].
    subst e. simpl in *. congruence.
Qed.

Lemma omap_filter_ext {A B} (f g : A -> option B) (P : A -> Prop) (Q : B -> Prop)
    `{!forall a, Decision (P a), !forall b, Decision (Q b)} (l : list A) :
  (forall a, P a -> exists b, f a = Some b /\ g a = Some b /\ Q b) ->
  (forall a b, ~ P a -> f a = Some b -> ~ Q b) ->
  omap g (filter P l) = filter Q (omap f l).
Proof.
  intros HP HN. induction l as [|a l IH]; [done|]. rewrite filter_cons. simpl. case_decide as Ha.
  - destruct (HP a Ha) as (b & Hf & Hg & Hq). simpl. rewrite Hf, Hg, filter_cons, decide_True by done.
    by f_equal.
  - destruct (f a) as [b|] eqn:Hf; [|done]. rewrite filter_cons, decide_False by eauto. done.
Qed.

Lemma retain_live_spec ttl now o E E' o' config :
  order_ok E o -> retain_live ttl now o E = (o', E') -> config.(MetadataCache.ttl) = ttl ->
  order_ok E' o' /\ o' `sublist_of` o /\
  omap (live E') o' = filter (lru_fresh config now) (omap (live E) o) /\ length o' = size E'.
Proof.
  intros [Hl Hs] Hr Hc.
  pose proof (retain_live_order ttl now o E) as Ho. rewrite Hr in Ho. simpl in Ho.
  assert (forall p slot, E' !! p = Some slot <-> E !! p = Some slot /\ slot_fresh ttl now slot) as HE.
  { intros p slot. pose proof (retain_live_lookup ttl now o E p slot) as Hp. rewrite Hr in Hp. simpl in Hp.
    rewrite Hp. split; intros [? ?]; split; auto. }
  assert (o' `sublist_of` o) as Hsub by (subst o'; apply sublist_filter).
  assert (order_ok E' o') as Hok.
  { split; [|eapply sublist_sorted; [|exact Hs]; by apply fmap_sublist].
    intros p slot [Hp Hf]%HE. subst o'. apply list_elem_of_filter. split; [|by apply Hl]. by exists slot. }
  assert (omap (live E') o' = filter (lru_fresh config now) (omap (live E) o)) as Habs.
  { subst o'. apply omap_filter_ext.
    - intros e (slot & Hp & Hq & Hf). exists (oe_path e, slot_meta slot, inserted_at slot).
      split; [apply live_Some; by exists slot|]. split; [|unfold lru_fresh; simpl; by rewrite Hc].
      apply live_Some. exists slot. split; [|done]. by apply HE.
    - intros e b Hn (slot & Hp & Hq & ->)%live_Some Hf. apply Hn. exists slot. split_and!; [done..|].
      unfold lru_fresh in Hf; simpl in Hf. by rewrite Hc in Hf. }
  split_and!; [done..|]. rewrite <- (live_size _ _ Hok). symmetry.
  assert (forall l, (forall e, e ∈ l -> is_Some (live E' e)) -> length (omap (live E') l) = length l) as Hall.
  { induction l as [|e l IHl]; intros He; [done|]. simpl.
    destruct (He e) as [x ->]; [by left|]. simpl. f_equal. apply IHl. intros y Hy. apply He. by right. }
  apply Hall. intros e. subst o'. rewrite list_elem_of_filter. intros [(slot & Hp & Hq & Hf) _].
  exists (oe_path e, slot_meta slot, inserted_at slot). apply live_Some. exists slot.
  split; [|done]. by apply HE.
Qed.

(** Popping the oldest element: its entry goes when it is live, nothing goes otherwise. *)
Lemma pop_oldest E e o :
  order_ok E (e :: o) ->
  let E' := match E !! oe_path e with
            | Some slot => if decide (slot_seq slot = oe_seq e) then delete (oe_path e) E else E
            | None => E
            end in
  order_ok E' o /\ omap (live E') o = drop (size E - size E') (omap (live E) (e :: o)) /\
  size E <= S (size E') /\ size E' <= size E.
Proof.
  intros Hok E'. pose proof (sorted_lt_tail _ _ (oo_sorted _ _ Hok)) as [Hs' _].
  destruct (live E e) as [x|] eqn:Hx.
  - pose proof Hx as (slot & Hp & Hq & _)%live_Some.
    assert (E' = delete (oe_path e) E) as ->.
    { unfold E'. by rewrite Hp, decide_True. }
    destruct (remove_live E (e :: o) 0 (oe_path e) slot) as [Hok' _]; [done..| |].
    { simpl. rewrite Hq. by destruct e. }
    pose proof (live_tail E e o slot (oo_sorted _ _ Hok) Hp Hq) as Ht.
    assert (size E = S (size (delete (oe_path e) E))) as Hsz.
    { rewrite <- (insert_delete_id E (oe_path e) slot) at 1 by done.
      rewrite map_size_insert_None; [done|]. apply lookup_delete_eq. }
    split; [exact Hok'|]. rewrite Ht, Hsz. simpl. rewrite Hx.
    replace (S _ - _) with 1 by lia. split; [done|lia].
  - assert (E' = E) as ->.
    { unfold E'. unfold live in Hx. destruct (E !! oe_path e); [|done]. by case_decide. }
    rewrite Nat.sub_diag. simpl. rewrite Hx. split; [|split; [done|lia]]. split; [|done].
    intros p slot Hp. pose proof (oo_live _ _ Hok p slot Hp) as [He|]%elem_of_cons; [|done].
    subst e. unfold live in Hx; simpl in Hx. by rewrite Hp, decide_True in Hx.
Qed.

Lemma evict_loop_meta_spec cap E o :
  order_ok E o ->
  let '(o', E') := evict_loop_meta cap o E in
  order_ok E' o' /\ o' `suffix_of` o /\
  omap (live E') o' = drop (size E - N.to_nat cap) (omap (live E) o) /\
  (N.of_nat (size E') <= cap)%N.
Proof.
  revert E; induction o as [|e o IH]; intros E Hok; cbn [evict_loop_meta].
  - assert (size E = 0) as Hz by (by rewrite <- (live_size _ _ Hok)).
    case_decide; [lia|]. rewrite Hz. simpl. split_and!; [done..|lia].
  - case_decide as Hover.
    + destruct (pop_oldest E e o Hok) as (Hok' & Ho & Hsz & Hsz').
      set (E' := match E !! oe_path e with Some _ => _ | None => _ end) in *.
      specialize (IH E' Hok'). destruct (evict_loop_meta cap o E') as [o2 E2].
      destruct IH as (H1 & H2 & H3 & H4). split_and!; [done|by apply suffix_cons_r| |done].
      rewrite H3, Ho, drop_drop. f_equal. lia.
    + split_and!; [done..| |lia]. by replace (size E - N.to_nat cap) with 0 by lia.
Qed.

(** * Every call preserves the invariant and does what the abstract cache does *)

Lemma touch_spec c p slot :
  meta_ok c -> mc_entries c !! p = Some slot -> (mc_next_seq c < U64_MAX)%N ->
  meta_ok (touch p c) /\
  cache_entries (touch p c) = lru_remove p (cache_entries c) ++ [(p, slot_meta slot, inserted_at slot)].
Proof.
  intros [Hok Hnext Hsize Hlen Hcap] Hp Hseq. unfold touch. rewrite Hp.
  destruct (list_find_elem_of (λ e, oe_path e = p /\ oe_seq e = slot_seq slot) (mc_order c)
              (mkOrderEntry p (slot_seq slot))) as [[i e] Hf]; [by eapply oo_live|done|].
  rewrite Hf. simpl. apply list_find_Some in Hf as (Hi & [Hep Heq] & _).
  assert (e = mkOrderEntry p (slot_seq slot)) as -> by (destruct e; simpl in *; by f_equal).
  destruct (remove_live _ _ _ _ _ Hok Hp Hi) as [Hok1 Habs1].
  assert (Forall (λ e, (oe_seq e < mc_next_seq c)%N) (delete i (mc_order c))) as Hf1.
  { by eapply Forall_sublist; [apply sublist_delete|]. }
  destruct (insert_fresh _ _ p (slot_meta slot) (inserted_at slot) (mc_next_seq c) Hok1 Hf1) as [Hok2 Habs2].
  rewrite insert_delete_eq in Hok2, Habs2. split.
  - unfold u64_wrapping_add. split; simpl; [done| | | |done].
    + rewrite as_u64_small by lia. apply Forall_app. split; [|by repeat constructor; simpl; lia].
      eapply Forall_impl; [exact Hf1|]. intros x Hx. simpl in Hx. lia.
    + rewrite map_size_insert_Some; [done|]. by exists slot.
    + rewrite len_app. unfold len in *. rewrite length_delete by (by eexists). apply lookup_lt_Some in Hi. simpl. lia.
  - unfold cache_entries. simpl. rewrite Habs2, Habs1, lru_remove_idemp. done.
Qed.

Lemma meta_put_spec c now now' p m :
  meta_ok c -> (mc_next_seq c < U64_MAX)%N ->
  meta_ok (meta_put now now' p m c) /\
  cache_entries (meta_put now now' p m c) =
    (lru_step (mc_config c) (cache_entries c) (MetaPut now now' p m)).2.
Proof.
  intros [Hok Hnext Hsize Hlen Hcap] Hseq. unfold meta_put, evict_expired, evict_if_over_capacity. simpl.
  destruct (retain_live _ now' (mc_order c) (mc_entries c)) as [o1 E1] eqn:Hr.
  destruct (retain_live_spec _ _ _ _ _ _ (mc_config c) Hok Hr eq_refl) as (Hok1 & Hsub & Habs1 & Hl1).
  assert (Forall (λ e, (oe_seq e < mc_next_seq c)%N) o1) as Hf1 by (by eapply Forall_sublist).
  assert (size E1 <= N.to_nat (capacity (mc_config c))) as Hs1.
  { rewrite <- (live_size _ _ Hok1), Habs1. etrans; [apply length_filter|].
    rewrite (live_size _ _ Hok). lia. }
  simpl. destruct (insert_fresh _ _ p m now (mc_next_seq c) Hok1 Hf1) as [Hok2 Habs2].
  set (E2 := <[p := _]> E1) in *. set (o2 := o1 ++ _) in *.
  pose proof (evict_loop_meta_spec (capacity (mc_config c)) E2 o2 Hok2) as He.
  destruct (evict_loop_meta _ o2 E2) as [o3 E3]. destruct He as (Hok3 & Hsuf & Habs3 & Hsz3).
  split.
  - assert (Forall (λ e, (oe_seq e < mc_next_seq c + 1)%N) o2) as Hf2.
    { apply Forall_app. split; [|by repeat constructor; simpl; lia].
      eapply Forall_impl; [exact Hf1|]. intros x Hx. simpl in Hx. lia. }
    unfold u64_wrapping_add. split; simpl; [done| |done| |done].
    + rewrite as_u64_small by lia. destruct Hsuf as [k Hk]. rewrite Hk in Hf2. by apply Forall_app in Hf2 as [_ ?].
    + apply suffix_length in Hsuf. unfold o2, len in *. rewrite length_app in Hsuf. simpl in Hsuf. lia.
  - unfold cache_entries at 1. simpl. rewrite Habs3, Habs2, Habs1. f_equal.
    rewrite <- (live_size _ _ Hok2), Habs2, Habs1. done.
Qed.

Lemma delete_ok c p : meta_ok c ->
  let c' := with_entries (delete p (mc_entries c)) c in
  meta_ok c' /\ cache_entries c' = lru_remove p (cache_entries c).
Proof.
  intros [[Hl Hs] Hnext Hsize Hlen Hcap] c'. split; [|apply omap_live_delete].
  split; simpl; try done.
  - split; [|done]. intros q slot [_ Hq]%lookup_delete_Some. by apply Hl.
  - enough (size (delete p (mc_entries c)) <= size (mc_entries c)) by lia.
    rewrite map_size_delete. destruct (mc_entries c !! p); simpl; lia.
Qed.

Lemma meta_step_spec c call :
  meta_ok c -> (mc_next_seq c < U64_MAX)%N ->
  (meta_step c call).1 = (lru_step (mc_config c) (cache_entries c) call).1 /\
  cache_entries (meta_step c call).2 = (lru_step (mc_config c) (cache_entries c) call).2 /\
  meta_ok (meta_step c call).2 /\
  mc_config (meta_step c call).2 = mc_config c /\
  (mc_next_seq (meta_step c call).2 <= mc_next_seq c + 1)%N.
Proof.
  intros Hok Hseq. destruct call as [now p|now now' p m|p| |]; simpl.
  - pose proof (find_live (mc_entries c) (mc_order c) p (mo_order _ Hok)) as Hf.
    fold (cache_entries c) in Hf. unfold meta_get.
    destruct (mc_entries c !! p) as [slot|] eqn:Hp; destruct (list_find _ _) as [[i e]|];
      simplify_eq/=; [|by split_and!; try done; lia].
    unfold lru_fresh; simpl. destruct (delete_ok c p Hok) as [Hok1 Habs1].
    destruct (touch_spec c p slot Hok Hp Hseq) as [Hok2 Habs2]. repeat case_decide; try lia; simpl.
    + split_and!; try done; lia.
    + split_and!; try done.
      * unfold touch. rewrite Hp. by destruct (list_find _ _) as [[]|].
      * unfold touch. rewrite Hp. destruct (list_find _ _) as [[]|]; simpl; [|lia].
        unfold u64_wrapping_add. rewrite as_u64_small by lia. lia.
  - destruct (meta_put_spec c now now' p m Hok Hseq) as [Hok1 Habs1]. split_and!; try done.
    + unfold meta_put, evict_expired, evict_if_over_capacity. simpl.
      destruct (retain_live _ _ _ _). simpl. by destruct (evict_loop_meta _ _ _).
    + unfold meta_put, evict_expired, evict_if_over_capacity. simpl.
      destruct (retain_live _ _ _ _). simpl. destruct (evict_loop_meta _ _ _). simpl.
      unfold u64_wrapping_add. rewrite as_u64_small by lia. lia.
  - destruct (delete_ok c p Hok) as [Hok1 Habs1]. split_and!; try done; simpl; lia.
  - split_and!; try done; simpl; [|lia].
    destruct Hok. split; simpl; try done; [|rewrite map_size_empty; lia|unfold len; simpl; lia].
    split; [|constructor].
    intros q slot Hq. by rewrite lookup_empty in Hq.
  - unfold meta_len. rewrite <- (live_size _ _ (mo_order _ Hok)). split_and!; try done. lia.
Qed.

Lemma meta_new_ok config : meta_ok (MetadataCache_new config) /\ cache_entries (MetadataCache_new config) = [].
Proof.
  split; [|done]. split; simpl; try done; try lia; [|rewrite map_size_empty; lia|unfold len; simpl; lia].
  split; [|constructor]. intros q slot Hq. by rewrite lookup_empty in Hq.
Qed.

Definition meta_inv (config : MetadataCacheConfig) (n : nat) (c : MetadataCache) : Prop :=
  meta_ok c /\ mc_config c = config /\ (mc_next_seq c + N.of_nat n <= U64_MAX)%N.

Lemma meta_run_spec config calls :
  (len calls <= U64_MAX)%N ->
  let c := MetadataCache_new config in
  replies meta_step c calls = replies (lru_step (mc_config c)) [] calls /\
  cache_entries (run_calls meta_step c calls) = run_calls (lru_step (mc_config c)) [] calls /\
  meta_inv (mc_config c) 0 (run_calls meta_step c calls).
Proof.
  intros Hn c. destruct (meta_new_ok config) as [Hok Habs]. fold c in Hok, Habs. rewrite <- Habs.
  apply simulated_run.
  - intros n s call (Hs & <- & Hseq). destruct (meta_step_spec s call Hs) as (Hr & Ha & Hok' & Hc & Hq); [lia|].
    split; [done|]. split; [done|]. split_and!; [done..|lia].
  - split_and!; [done..|]. simpl. unfold len in Hn. lia.
Qed.

(** C17: No sequence of fewer than 2^64 calls, at any readings of the clock, can tell the
    metadata cache from the cache it means to be: a list ordered by use, without the entries
    that are forgotten, too old at a look-up or at an insertion, or the least recently used
    ones beyond the capacity (at least one).  Tombstones, the reused order queue and lazy
    eviction are not observable. *)
Theorem metadata_cache_refines_lru config (calls : list meta_call) :
  (len calls <= U64_MAX)%N ->
  replies meta_step (MetadataCache_new config) calls =
  replies (lru_step (mc_config (MetadataCache_new config))) [] calls.
Proof. intros Hn. by destruct (meta_run_spec config calls Hn). Qed.

Definition sample_meta (ino : N) : CachedMetadata :=
  mkCachedMetadata (mkEntryAttr ino RegularFile 0 420 0 0 None 0) None.

Lemma metadata_cache_refines_lru_witness :
  let calls := [MetaPut 0 0 "/a" (sample_meta 2); MetaPut 1 1 "/b" (sample_meta 3); MetaGet 2 "/a";
                MetaPut 3 3 "/c" (sample_meta 4); MetaGet 4 "/b"; MetaGet 12 "/a"; MetaLen] in
  replies meta_step (MetadataCache_new (mkMetadataCacheConfig 10 2)) calls =
  [Unit; Unit; Found (Some (sample_meta 2)); Unit; Found None; Found None; Length 1].
Proof.
  intros calls. rewrite (metadata_cache_refines_lru (mkMetadataCacheConfig 10 2) calls).
  - vm_compute. reflexivity.
  - vm_compute. discriminate.
Defined.

(** The queue holds at most one element more than the capacity, whatever is invalidated. *)
Lemma order_queue_bounded config calls :
  (len calls <= U64_MAX)%N ->
  let c := run_calls meta_step (MetadataCache_new config) calls in
  (len (mc_order c) <= N.max (capacity config) 1 + 1)%N.
Proof.
  intros Hn c. destruct (meta_run_spec config calls Hn) as (_ & _ & Hok & Hc & _).
  fold c in Hok, Hc. pose proof (mo_length _ Hok) as Hl. by rewrite Hc in Hl.
Qed.
