(* ===== verification/WriteJournal.v ===== *)
(** The write-ahead journal of the FUSE write path: crates/pcloud-fs/src/write_journal.rs.

    The journal file is its bytes, and a handle adds the position it writes at.  serde_json is
    the interface [JournalCodec]; the outcome of the file system is an argument of [append]:
    [Some n] when a write fails after [n] bytes of the frame reached the file. *)
From S2P Require Import Prelude Paths Bytes.

(** "PCJ1" *)
Definition MAGIC : N := 0x50434A31.
Definition MAX_RECORD_BYTES : N := 16 * 1024 * 1024.

Inductive JournalOp : Type :=
| Create (parent_path name : string)
| Write (path : string) (offset length : N) (staging_blob : string)
| Truncate (path : string) (new_size : N)
| Unlink (path : string)
| Rename (from to : string)
| FlushBarrier (path : string)
| ChunkAck (path : string) (upload_id offset length : N).

Record JournalRecord : Type := mkRecord { seq : N; op : JournalOp }.

Inductive WriteJournalError : Type :=
| Io
| Codec
| RecordTooLarge (size : N).

(** [serde_json::to_vec] and [serde_json::from_slice]. *)
Class JournalCodec : Type := {
  to_vec : JournalRecord -> option (list byte);
  from_slice : list byte -> option JournalRecord;
}.

(** Reading back what was written. *)
Class JournalCodecLaws `{JournalCodec} : Prop := {
  codec_round_trip r payload : to_vec r = Some payload -> from_slice payload = Some r;
}.

(** * The checksum *)

Definition crc_bit (c : N) : N :=
  if decide (N.land c 1 <> 0%N) then N.lxor (N.shiftr c 1) 0xEDB88320 else N.shiftr c 1.

Definition crc_byte (crc : N) (b : byte) : N :=
  let c := N.land (N.lxor crc (N_of_ascii b)) 0xFF in
  N.lxor (N.shiftr crc 8) (Nat.iter 8 crc_bit c).

Definition crc32_ieee (bytes : list byte) : N :=
  N.lxor (foldl crc_byte 0xFFFFFFFF%N bytes) 0xFFFFFFFF.

(** The check value of CRC-32/ISO-HDLC. *)
Example crc32_check : crc32_ieee (chars "123456789") = 0xCBF43926%N.
Proof. vm_compute. reflexivity. Qed.

(** * The journal *)

Record WriteJournal : Type := mkJournal {
  file : list byte;
  pos : nat;
  next_seq : N;
}.

(** [File::write_all] at the handle's position; a gap before it reads as zero bytes. *)
Definition write_at (n : nat) (bytes content : list byte) : list byte :=
  take n content ++ replicate (n - length content) (to_byte 0) ++ bytes ++ drop (n + length bytes) content.

Definition open (content : list byte) : WriteJournal := mkJournal content (length content) 1.

Definition frame (payload : list byte) : list byte :=
  to_le_bytes 4 MAGIC ++ to_le_bytes 4 (len payload) ++ to_le_bytes 4 (crc32_ieee payload) ++ payload.

Section Journal.
Context `{JournalCodec}.

Definition append (io : option nat) (o : JournalOp) (j : WriteJournal)
  : result N WriteJournalError * WriteJournal :=
  let seq := next_seq j in
  match to_vec (mkRecord seq o) with
  | None => (Err Codec, j)
  | Some payload =>
      if decide (MAX_RECORD_BYTES < len payload)%N then
        (Err (RecordTooLarge (default U32_MAX (u32_try_from (len payload)))), j)
      else
        match io with
        | Some n =>
            let written := take n (frame payload) in
            (Err Io, mkJournal (write_at (pos j) written (file j)) (pos j + length written) seq)
        | None =>
            (Ok seq,
             mkJournal (write_at (pos j) (frame payload) (file j)) (pos j + length (frame payload))
               (u64_wrapping_add seq 1))
        end
  end.

Definition reset (j : WriteJournal) : WriteJournal := mkJournal [] 0 (next_seq j).

Definition byte_len (j : WriteJournal) : N := len (file j).

Definition is_empty (j : WriteJournal) : bool := bool_decide (byte_len j = 0%N).

(** One turn of the replay loop on the bytes not read yet: stop, fail, or a record and the rest.
    [cursor == total] is that no bytes are left; [read_exact] stops on a short read. *)
Inductive replay_turn : Type :=
| ReplayStop
| ReplayFail (e : WriteJournalError)
| ReplayRecord (r : JournalRecord) (rest : list byte).

Definition replay_one (bytes : list byte) : replay_turn :=
  if decide (length bytes < 12) then ReplayStop
  else
    let header := take 12 bytes in
    let rest := drop 12 bytes in
    let magic := from_le_bytes (take 4 header) in
    let payload_len := from_le_bytes (take 4 (drop 4 header)) in
    let crc_expected := from_le_bytes (drop 8 header) in
    if decide (magic <> MAGIC) then ReplayStop
    else if decide (MAX_RECORD_BYTES < payload_len)%N then ReplayFail (RecordTooLarge payload_len)
    else if decide (len rest < payload_len)%N then ReplayStop
    else
      let payload := take (N.to_nat payload_len) rest in
      if decide (crc32_ieee payload <> crc_expected) then ReplayStop
      else
        match from_slice payload with
        | Some r => ReplayRecord r (drop (N.to_nat payload_len) rest)
        | None => ReplayStop
        end.

Fixpoint replay_loop (fuel : nat) (bytes : list byte) (out : list JournalRecord)
  : result (list JournalRecord) WriteJournalError :=
  match fuel with
  | 0 => Ok out
  | S fuel' =>
      match replay_one bytes with
      | ReplayStop => Ok out
      | ReplayFail e => Err e
      | ReplayRecord r rest => replay_loop fuel' rest (out ++ [r])
      end
  end.

(** A turn that goes on consumes at least the twelve bytes of a header, so one turn more than
    there are bytes is never used up ([replay_loop_fuel]). *)
Definition replay_path (content : list byte) : result (list JournalRecord) WriteJournalError :=
  replay_loop (S (length content)) content [].

Definition replay (j : WriteJournal) : result (list JournalRecord) WriteJournalError :=
  replay_path (file j).
End Journal.

(** * Framing *)

Lemma length_frame payload : length (frame payload) = 12 + length payload.
Proof. unfold frame. by rewrite !length_app, !length_to_le_bytes. Qed.

Lemma lxor_bound k a b : (a < 2 ^ k)%N -> (b < 2 ^ k)%N -> (N.lxor a b < 2 ^ k)%N.
Proof.
  intros Ha Hb. assert (N.lxor a b = N.land (N.lxor a b) (N.ones k)) as ->.
  { apply N.bits_inj. intros i. rewrite N.land_spec, N.lxor_spec.
    rewrite <- (N.mod_small a (2 ^ k)), <- (N.mod_small b (2 ^ k)), <- !N.land_ones by done.
    rewrite !N.land_spec. destruct (N.testbit a i), (N.testbit b i), (N.testbit (N.ones k) i); done. }
  rewrite N.land_ones. apply N.mod_lt. by apply N.pow_nonzero.
Qed.

Lemma shiftr_bound k n a : (a < 2 ^ k)%N -> (N.shiftr a n < 2 ^ k)%N.
Proof.
  intros Ha. rewrite N.shiftr_div_pow2. eapply N.le_lt_trans; [|exact Ha].
  apply N.Div0.div_le_upper_bound. pose proof (N.pow_nonzero 2 n). nia.
Qed.

Lemma crc_bit_bound c : (c < 2 ^ 32)%N -> (crc_bit c < 2 ^ 32)%N.
Proof.
  intros Hc. unfold crc_bit. case_decide; [apply lxor_bound; [|done]|]; by apply shiftr_bound.
Qed.

Lemma crc_byte_bound crc b : (crc < 2 ^ 32)%N -> (crc_byte crc b < 2 ^ 32)%N.
Proof.
  intros Hc. unfold crc_byte. apply lxor_bound; [by apply shiftr_bound|].
  assert (forall n c, c < 2 ^ 32 -> Nat.iter n crc_bit c < 2 ^ 32)%N as Hiter.
  { intros n c Hcc. induction n as [|n IH]; simpl; [done|]. by apply crc_bit_bound. }
  apply Hiter. change 0xFF%N with (N.ones 8). rewrite N.land_ones.
  eapply N.lt_trans; [by apply N.mod_lt|done].
Qed.

(** The checksum is a [u32]. *)
Lemma crc32_bound bytes : (crc32_ieee bytes < 2 ^ 32)%N.
Proof.
  unfold crc32_ieee. apply lxor_bound; [|done].
  assert (forall crc, crc < 2 ^ 32 -> foldl crc_byte crc bytes < 2 ^ 32)%N as Hf; [|by apply Hf].
  induction bytes as [|b bytes IH]; intros crc Hc; simpl; [done|]. by apply IH, crc_byte_bound.
Qed.

Lemma max_record_u32 n : (n <= MAX_RECORD_BYTES)%N -> (n < 2 ^ 32)%N.
Proof. unfold MAX_RECORD_BYTES. lia. Qed.

Lemma write_at_end bytes content : write_at (length content) bytes content = content ++ bytes.
Proof.
  unfold write_at. rewrite take_ge, Nat.sub_diag, drop_ge by lia. simpl. by rewrite app_nil_r.
Qed.

Section Replay.
Context `{JournalCodecLaws}.

(** The decision of a turn as a function of the three header fields. *)
Lemma replay_one_header m n c (rest : list byte) :
  (m < 2 ^ 32)%N -> (n < 2 ^ 32)%N -> (c < 2 ^ 32)%N ->
  replay_one (to_le_bytes 4 m ++ to_le_bytes 4 n ++ to_le_bytes 4 c ++ rest) =
    if decide (m <> MAGIC) then ReplayStop
    else if decide (MAX_RECORD_BYTES < n)%N then ReplayFail (RecordTooLarge n)
    else if decide (len rest < n)%N then ReplayStop
    else
      let payload := take (N.to_nat n) rest in
      if decide (crc32_ieee payload <> c) then ReplayStop
      else
        match from_slice payload with
        | Some r => ReplayRecord r (drop (N.to_nat n) rest)
        | None => ReplayStop
        end.
Proof.
  intros Hm Hn Hc. unfold replay_one.
  rewrite decide_False by (rewrite !length_app, !length_to_le_bytes; lia).
  set (header := to_le_bytes 4 m ++ to_le_bytes 4 n ++ to_le_bytes 4 c).
  assert (length header = 12) as Hh by (unfold header; by rewrite !length_app, !length_to_le_bytes).
  replace (to_le_bytes 4 m ++ to_le_bytes 4 n ++ to_le_bytes 4 c ++ rest) with (header ++ rest)
    by (unfold header; by rewrite <- !app_assoc).
  rewrite take_app_length', drop_app_length' by done.
  assert (from_le_bytes (take 4 header) = m) as ->.
  { unfold header. rewrite take_app_length' by by rewrite length_to_le_bytes. by apply from_to_le_bytes_small. }
  assert (drop 4 header = to_le_bytes 4 n ++ to_le_bytes 4 c) as E4.
  { unfold header. by rewrite drop_app_length' by by rewrite length_to_le_bytes. }
  rewrite E4, take_app_length' by by rewrite length_to_le_bytes.
  assert (from_le_bytes (drop 8 header) = c) as ->.
  { change 8 with (4 + 4). rewrite <- drop_drop, E4, drop_app_length' by by rewrite length_to_le_bytes.
    by apply from_to_le_bytes_small. }
  by rewrite (from_to_le_bytes_small 4 n).
Qed.

Lemma replay_one_frame r payload rest :
  to_vec r = Some payload -> (len payload <= MAX_RECORD_BYTES)%N ->
  replay_one (frame payload ++ rest) = ReplayRecord r rest.
Proof.
  intros Hr Hs. unfold frame. rewrite <- !app_assoc, replay_one_header
    by (done || apply crc32_bound || by apply max_record_u32).
  rewrite decide_False by naive_solver. rewrite !decide_False by (rewrite ?len_app; lia).
  cbv zeta. unfold len. rewrite Nat2N.id, take_app_length, drop_app_length.
  rewrite decide_False by naive_solver. by rewrite (codec_round_trip r payload Hr).
Qed.

(** A frame cut at any byte ends the replay. *)
Lemma replay_one_torn payload n :
  (len payload <= MAX_RECORD_BYTES)%N -> n < length (frame payload) ->
  replay_one (take n (frame payload)) = ReplayStop.
Proof.
  intros Hs Hn. rewrite length_frame in Hn. destruct (decide (n < 12)) as [Hlt|Hge].
  - unfold replay_one. rewrite decide_True; [done|]. rewrite length_take. lia.
  - assert (take n (frame payload) = to_le_bytes 4 MAGIC ++ to_le_bytes 4 (len payload) ++
      to_le_bytes 4 (crc32_ieee payload) ++ take (n - 12) payload) as ->.
    { unfold frame. rewrite !take_app, !length_to_le_bytes.
      rewrite !(take_ge (to_le_bytes 4 _)) by (rewrite length_to_le_bytes; lia).
      do 3 f_equal. f_equal. lia. }
    rewrite replay_one_header by (done || apply crc32_bound || by apply max_record_u32).
    rewrite decide_False by naive_solver. rewrite decide_False by lia.
    rewrite decide_True; [done|]. unfold len. rewrite length_take. lia.
Qed.

Lemma replay_one_progress bytes r rest : replay_one bytes = ReplayRecord r rest -> length rest < length bytes.
Proof.
  unfold replay_one. case_decide; [done|]. intros E. repeat (case_match || case_decide; try done).
  simplify_eq. rewrite !length_drop. lia.
Qed.

Lemma replay_loop_fuel fuel1 fuel2 bytes out :
  length bytes < fuel1 -> length bytes < fuel2 ->
  replay_loop fuel1 bytes out = replay_loop fuel2 bytes out.
Proof.
  revert fuel2 bytes out; induction fuel1 as [|fuel1 IH]; intros [|fuel2] bytes out H1 H2; try lia.
  simpl. destruct (replay_one bytes) as [| |r rest] eqn:E; [done..|].
  apply replay_one_progress in E. apply IH; lia.
Qed.
(** * Runs of the journal *)

(** The operations one after the other; the records whose [append] returned [Ok], and the
    journal. *)
Fixpoint append_all (ops : list JournalOp) (j : WriteJournal) : list JournalRecord * WriteJournal :=
  match ops with
  | [] => ([], j)
  | o :: ops' =>
      match append None o j with
      | (Ok s, j') => let '(rs, j'') := append_all ops' j' in (mkRecord s o :: rs, j'')
      | (Err _, j') => append_all ops' j'
      end
  end.

(** The file holds exactly the frames of [rs] and the handle stands at its end. *)
Definition encodes (payload : list byte) (r : JournalRecord) : Prop :=
  to_vec r = Some payload /\ (len payload <= MAX_RECORD_BYTES)%N.

Definition holds (j : WriteJournal) (rs : list JournalRecord) : Prop :=
  pos j = length (file j) /\
  exists payloads, Forall2 encodes payloads rs /\ file j = concat (frame <$> payloads).

Lemma replay_frames payloads rs tail fuel out :
  Forall2 encodes payloads rs -> (forall r rest, replay_one tail <> ReplayRecord r rest) ->
  length (concat (frame <$> payloads) ++ tail) < fuel ->
  replay_loop fuel (concat (frame <$> payloads) ++ tail) out =
    match replay_one tail with ReplayFail e => Err e | _ => Ok (out ++ rs) end.
Proof.
  intros Henc Htail. revert fuel out.
  induction Henc as [|payload r payloads rs [Hr Hs] Henc IH]; intros fuel out Hf.
  - destruct fuel as [|fuel]; [lia|]. cbn [replay_loop fmap list_fmap concat app].
    destruct (replay_one tail) as [| |r rest] eqn:E; [by rewrite app_nil_r|done|by destruct (Htail r rest)].
  - cbn [fmap list_fmap concat] in *. rewrite <- app_assoc in *.
    destruct fuel as [|fuel]; [lia|]. cbn [replay_loop].
    rewrite (replay_one_frame r) by done. rewrite length_app, length_frame in Hf.
    rewrite IH by lia. by rewrite <- app_assoc.
Qed.

Lemma replay_held j rs tail :
  holds j rs -> (forall r rest, replay_one tail <> ReplayRecord r rest) ->
  replay_path (file j ++ tail) = match replay_one tail with ReplayFail e => Err e | _ => Ok rs end.
Proof.
  intros (_ & payloads & Henc & Hf) Htail. unfold replay_path. rewrite Hf.
  by rewrite (replay_frames payloads rs) by (done || lia).
Qed.

Lemma replay_holds j rs : holds j rs -> replay j = Ok rs.
Proof. intros Hh. unfold replay. pose proof (replay_held j rs [] Hh) as Hr. rewrite app_nil_r in Hr. by apply Hr. Qed.

(** The two failures that leave the journal alone, and the bytes the other outcomes write. *)
Lemma append_cases io o j :
  pos j = length (file j) ->
  (exists e, append io o j = (Err e, j) /\ e <> Io /\
     forall payload, to_vec (mkRecord (next_seq j) o) = Some payload -> (MAX_RECORD_BYTES < len payload)%N) \/
  exists payload, encodes payload (mkRecord (next_seq j) o) /\
    append io o j =
      match io with
      | Some n =>
          let written := take n (frame payload) in
          (Err Io, mkJournal (file j ++ written) (length (file j ++ written)) (next_seq j))
      | None =>
          (Ok (next_seq j),
           mkJournal (file j ++ frame payload) (length (file j ++ frame payload))
             (u64_wrapping_add (next_seq j) 1))
      end.
Proof.
  intros Hp. unfold append. destruct (to_vec _) as [payload|] eqn:Ev; [|left; by eexists].
  case_decide; [left; eexists; repeat split; [done|by intros ? [= <-]]|].
  right. exists payload. split; [split; [done|lia]|]. rewrite Hp.
  destruct io; cbv zeta; by rewrite write_at_end, !length_app.
Qed.

Lemma holds_snoc j rs payload r n :
  holds j rs -> encodes payload r ->
  holds (mkJournal (file j ++ frame payload) (length (file j ++ frame payload)) n) (rs ++ [r]).
Proof.
  intros (_ & payloads & Henc & Hf) Hr. split; [done|]. exists (payloads ++ [payload]).
  split; [by apply Forall2_app; [|constructor]|]. simpl.
  by rewrite fmap_app, concat_app, Hf; csimpl; rewrite app_nil_r.
Qed.

Lemma append_all_holds ops j rs0 :
  holds j rs0 -> let '(rs, j') := append_all ops j in holds j' (rs0 ++ rs).
Proof.
  revert j rs0; induction ops as [|o ops IH]; intros j rs0 Hj; simpl; [by rewrite app_nil_r|].
  destruct (append_cases None o j (proj1 Hj)) as [(e & -> & _)|(payload & Henc & ->)]; [by apply IH|].
  pose proof (IH _ _ (holds_snoc j rs0 _ _ (u64_wrapping_add (next_seq j) 1) Hj Henc)) as H1.
  destruct (append_all ops _) as [rs j']. by rewrite <- app_assoc in H1.
Qed.

Lemma holds_reset j : holds (reset j) [].
Proof. split; [done|]. exists []. by split. Qed.

(** The acknowledged records are numbered one after the other and carry the operations in
    their order. *)
Lemma append_all_seq ops j :
  pos j = length (file j) -> (next_seq j + len ops <= U64_MAX)%N ->
  let '(rs, j') := append_all ops j in
  seq <$> rs = (λ i, next_seq j + N.of_nat i)%N <$> List.seq 0 (length rs) /\
  op <$> rs `sublist_of` ops /\ next_seq j' = (next_seq j + len rs)%N.
Proof.
  revert j; induction ops as [|o ops IH]; intros j Hp Hs; simpl.
  { rewrite len_nil. repeat split; [done|lia]. }
  rewrite len_cons in Hs.
  destruct (append_cases None o j Hp) as [(e & -> & _)|(payload & Henc & ->)].
  - specialize (IH j Hp ltac:(lia)). destruct (append_all ops j) as [rs j'].
    destruct IH as (H1 & H2 & H3). repeat split; [done| |done]. by apply sublist_cons.
  - set (j1 := mkJournal _ _ _).
    assert (next_seq j1 = next_seq j + 1)%N as Hn by (apply as_u64_small; lia).
    specialize (IH j1 eq_refl ltac:(lia)). destruct (append_all ops j1) as [rs j'].
    destruct IH as (H1 & H2 & H3). csimpl. rewrite len_cons, H1, H3, Hn.
    repeat split; [|by constructor|lia].
    f_equal; [lia|]. rewrite <- seq_shift, <- list_fmap_compose. apply list_fmap_ext. intros; simpl. lia.
Qed.

(** C37: Crash safety.  From a reset journal, append any operations, with no write failing (an operation
    may be refused because it does not encode or is too large), and let the next append stop after
    any number of bytes: replay returns exactly the acknowledged records, in order, plus
    the last one when all of its bytes were written.  The acknowledged records are numbered
    consecutively and follow the order of the operations. *)
Theorem write_journal_recovers j0 ops o n
    (Hroom : (next_seq j0 + len ops <= U64_MAX)%N) :
  let '(rs, j) := append_all ops (reset j0) in
  let last := mkRecord (next_seq j) o in
  replay (append (Some n) o j).2 =
    Ok (rs ++ match to_vec last with
              | Some payload =>
                  if decide ((len payload <= MAX_RECORD_BYTES)%N /\ length (frame payload) <= n)
                  then [last] else []
              | None => []
              end) /\
  seq <$> rs = (λ i, next_seq j0 + N.of_nat i)%N <$> List.seq 0 (length rs) /\
  op <$> rs `sublist_of` ops.
Proof.
  pose proof (append_all_holds ops _ _ (holds_reset j0)) as Hh.
  pose proof (append_all_seq ops (reset j0) eq_refl Hroom) as Hs.
  destruct (append_all ops (reset j0)) as [rs j]. destruct Hs as (Hs & Ho & _). simpl in Hh.
  split; [|done]. unfold replay. destruct (append_cases (Some n) o j (proj1 Hh)) as [(e & -> & _ & Hbig)|(payload & [Hv Hl] & ->)].
  - change (replay j = Ok (rs ++ match to_vec (mkRecord (next_seq j) o) with
      | Some payload => if decide ((len payload <= MAX_RECORD_BYTES)%N /\ length (frame payload) <= n)
                        then [mkRecord (next_seq j) o] else []
      | None => [] end)). rewrite (replay_holds j rs Hh).
    destruct (to_vec _) as [payload|]; [|by rewrite app_nil_r].
    rewrite decide_False by (specialize (Hbig _ eq_refl); lia). by rewrite app_nil_r.
  - cbv zeta. rewrite Hv. destruct (decide (length (frame payload) <= n)) as [Hn|Hn].
    + rewrite decide_True, take_ge by done. apply replay_holds, holds_snoc; done.
    + rewrite decide_False by lia. simpl. rewrite (replay_held j rs) by
        (done || by rewrite (replay_one_torn payload n) by (done || lia)).
      rewrite (replay_one_torn payload n) by (done || lia). by rewrite app_nil_r.
Qed.

(** A write that fails after the four bytes of the magic number makes the journal unreadable:
    when a later append succeeds, on the same handle or after reopening the file, [replay]
    returns an error, and every record acknowledged before and after is lost. *)
Theorem failed_append_loses_journal j0 ops o1 o2 s :
  let '(_, j) := append_all ops (reset j0) in
  let '(r1, j1) := append (Some 4) o1 j in
  forall j1', file j1' = file j1 -> pos j1' = length (file j1') ->
  let '(r2, j2) := append None o2 j1' in
  r1 = Err Io -> r2 = Ok s -> replay j2 = Err (RecordTooLarge MAGIC).
Proof.
  pose proof (append_all_holds ops _ _ (holds_reset j0)) as Hh.
  destruct (append_all ops (reset j0)) as [rs j]. simpl in Hh.
  destruct (append (Some 4) o1 j) as [r1 j1] eqn:E1. intros j1' Hf1 Hp1.
  destruct (append None o2 j1') as [r2 j2] eqn:E2. intros -> ->.
  destruct (append_cases (Some 4) o1 j (proj1 Hh)) as [(e & Ha & Hio & _)|(payload1 & _ & Ha)];
    rewrite Ha in E1; [simplify_eq|injection E1 as <-].
  change (file j1' = file j ++ take 4 (frame payload1)) in Hf1.
  destruct (append_cases None o2 j1' Hp1) as [(e & Ha2 & _)|(payload2 & Henc2 & Ha2)];
    rewrite Ha2 in E2; simplify_eq. unfold replay. cbn [file]. rewrite Hf1, <- app_assoc.
  assert (replay_one (take 4 (frame payload1) ++ frame payload2) = ReplayFail (RecordTooLarge MAGIC)) as Ht.
  { assert (take 4 (frame payload1) = to_le_bytes 4 MAGIC) as ->.
    { unfold frame. by rewrite take_app_length' by by rewrite length_to_le_bytes. }
    unfold frame. rewrite replay_one_header; [done|done..|]. apply max_record_u32, Henc2. }
  rewrite (replay_held j rs) by (done || by rewrite Ht). by rewrite Ht.
Qed.
End Replay.

(** * The interface is inhabited: a codec of [Unlink] records *)

#[export] Instance unlink_codec : JournalCodec := {|
  to_vec r :=
    match op r with
    | Unlink path => if decide (seq r <= U64_MAX)%N then Some (to_le_bytes 8 (seq r) ++ chars path) else None
    | _ => None
    end;
  from_slice bytes :=
    if decide (length bytes < 8) then None
    else Some (mkRecord (from_le_bytes (take 8 bytes)) (Unlink (str (drop 8 bytes))));
|}.

#[export] Instance unlink_codec_laws : JournalCodecLaws.
Proof.
  split. intros [s o] payload. cbn [to_vec from_slice unlink_codec op seq]. destruct o; try done. case_decide as Hs; [|done].
  intros E. apply (inj Some) in E. subst payload.
  rewrite decide_False by (rewrite length_app, length_to_le_bytes; lia).
  rewrite take_app_length', drop_app_length' by by rewrite length_to_le_bytes.
  rewrite from_to_le_bytes_small, str_chars; [done|]. unfold U64_MAX in Hs. lia.
Qed.

Lemma write_journal_recovers_witness :
  let '(rs, j) := append_all [Unlink "/a"; Truncate "/b" 3; Unlink "/c"] (reset (open [])) in
  let last := mkRecord (next_seq j) (Unlink "/d") in
  replay (append (Some 7) (Unlink "/d") j).2 =
    Ok (rs ++ match to_vec last with
              | Some payload =>
                  if decide ((len payload <= MAX_RECORD_BYTES)%N /\ length (frame payload) <= 7)
                  then [last] else []
              | None => []
              end) /\
  seq <$> rs = (λ i, 1 + N.of_nat i)%N <$> List.seq 0 (length rs) /\
  op <$> rs `sublist_of` [Unlink "/a"; Truncate "/b" 3; Unlink "/c"].
Proof.
  apply (write_journal_recovers (open []) [Unlink "/a"; Truncate "/b" 3; Unlink "/c"] (Unlink "/d") 7).
  vm_compute. discriminate.
Defined.

Lemma failed_append_loses_journal_witness :
  let j := (append_all [Unlink "/a"] (reset (open []))).2 in
  let j1 := (append (Some 4) (Unlink "/b") j).2 in
  let j2 := (append None (Unlink "/c") j1).2 in
  replay j = Ok [mkRecord 1 (Unlink "/a")] /\ replay j2 = Err (RecordTooLarge MAGIC).
Proof.
  split; [vm_compute; reflexivity|].
  exact (failed_append_loses_journal (open []) [Unlink "/a"] (Unlink "/b") (Unlink "/c") 2
    (append (Some 4) (Unlink "/b") (append_all [Unlink "/a"] (reset (open []))).2).2
    eq_refl eq_refl eq_refl eq_refl).
Defined.
