(* ===== verification/Breaker.v ===== *)
(** The circuit breaker: crates/pcloud-resilience/src/circuit_breaker.rs.

    [Inner] is the state the mutex guards and every method one critical section.  The injected
    clock is the argument [now]; durations and instants are nanoseconds in [N].  A run is a list
    of [breaker_event]s of any number of threads, each holding [ProbeGuard]s. *)
From S2P Require Import Prelude.

Inductive BreakerState : Type :=
| Closed
| Open
| HalfOpen.

#[export] Instance BreakerState_eq_dec : EqDecision BreakerState.
Proof. solve_decision. Defined.

Record CircuitBreakerConfig : Type := mkConfig {
  failure_threshold : N;
  reset_timeout : N;
}.

(** [CircuitBreakerConfig::new]; [None] is the panic of its assertion. *)
Definition config_new (failure_threshold reset_timeout : N) : option CircuitBreakerConfig :=
  if decide (1 <= failure_threshold)%N then Some (mkConfig failure_threshold reset_timeout) else None.

Inductive CircuitBreakerError : Type :=
| ErrOpen
| ErrProbeInFlight.

Record Inner : Type := mkInner {
  state : BreakerState;
  consecutive_failures : N;
  opened_at : option N;
  probe_in_flight : bool;
}.

Definition with_clock : Inner := mkInner Closed 0 None false.

Section Breaker.
Context (cfg : CircuitBreakerConfig).

Definition tick_locked (now : N) (g : Inner) : Inner :=
  match state g, opened_at g with
  | Open, Some opened =>
      if decide (reset_timeout cfg <= now - opened)%N
      then mkInner HalfOpen (consecutive_failures g) (opened_at g) false
      else g
  | _, _ => g
  end.

Definition breaker_state (now : N) (g : Inner) : BreakerState * Inner :=
  let g := tick_locked now g in (state g, g).

Definition try_acquire (now : N) (g : Inner) : result unit CircuitBreakerError * Inner :=
  let g := tick_locked now g in
  match state g with
  | Closed => (Ok (), g)
  | Open => (Err ErrOpen, g)
  | HalfOpen =>
      if probe_in_flight g then (Err ErrProbeInFlight, g)
      else (Ok (), mkInner HalfOpen (consecutive_failures g) (opened_at g) true)
  end.

Definition record_success (g : Inner) : Inner :=
  match state g with
  | Closed => mkInner Closed 0 (opened_at g) (probe_in_flight g)
  | HalfOpen => mkInner Closed 0 None false
  | Open => g
  end.

Definition record_failure (now : N) (g : Inner) : Inner :=
  match state g with
  | Closed =>
      let failures := u32_saturating_add (consecutive_failures g) 1 in
      if decide (failure_threshold cfg <= failures)%N
      then mkInner Open failures (Some now) (probe_in_flight g)
      else mkInner Closed failures (opened_at g) (probe_in_flight g)
  | HalfOpen => mkInner Open (consecutive_failures g) (Some now) false
  | Open => g
  end.

(** What ends the life of a [ProbeGuard]. *)
Inductive GuardEnd : Type :=
| GuardSuccess
| GuardFailure
| GuardDrop.

(** The consuming methods set [finished], so that [drop] records nothing more. *)
Definition guard_end (now : N) (e : GuardEnd) (g : Inner) : Inner :=
  match e with
  | GuardSuccess => record_success g
  | GuardFailure => record_failure now g
  | GuardDrop => record_failure now g
  end.

(** * Runs: the breaker, the clock and the live guards with the state each was admitted in *)

Record World : Type := mkWorld {
  inner : Inner;
  clock : N;
  guards : list BreakerState;
}.

Definition initial (now : N) : World := mkWorld with_clock now [].

Inductive breaker_event : Type :=
| Advance (d : N)
| AcquireGuarded
| ObserveState
| EndGuard (i : nat) (e : GuardEnd).

(** The caller's view of an event. *)
Inductive breaker_reply : Type :=
| Granted
| Rejected (e : CircuitBreakerError)
| Observed (s : BreakerState)
| NoReply.

Definition breaker_step (w : World) (ev : breaker_event) : breaker_reply * World :=
  match ev with
  | Advance d => (NoReply, mkWorld (inner w) (clock w + d) (guards w))
  | AcquireGuarded =>
      match try_acquire (clock w) (inner w) with
      | (Ok _, g) => (Granted, mkWorld g (clock w) (guards w ++ [state g]))
      | (Err e, g) => (Rejected e, mkWorld g (clock w) (guards w))
      end
  | ObserveState =>
      let '(s, g) := breaker_state (clock w) (inner w) in (Observed s, mkWorld g (clock w) (guards w))
  | EndGuard i e =>
      match guards w !! i with
      | Some _ => (NoReply, mkWorld (guard_end (clock w) e (inner w)) (clock w) (delete i (guards w)))
      | None => (NoReply, w)
      end
  end.

Fixpoint breaker_run (w : World) (evs : list breaker_event) : list breaker_reply * World :=
  match evs with
  | [] => ([], w)
  | ev :: evs' =>
      let '(r, w') := breaker_step w ev in
      let '(rs, w'') := breaker_run w' evs' in (r :: rs, w'')
  end.

(** * The abstract breaker: a state carries exactly the data it needs *)

Inductive abstract_breaker : Type :=
| AClosed (failures : N)
| AOpen (since : N)
| AHalfOpen (probing : bool).

Definition abstract_tick (now : N) (a : abstract_breaker) : abstract_breaker :=
  match a with
  | AOpen since => if decide (since + reset_timeout cfg <= now)%N then AHalfOpen false else a
  | _ => a
  end.

Definition abstract_acquire (now : N) (a : abstract_breaker) : breaker_reply * abstract_breaker :=
  match abstract_tick now a with
  | AClosed n => (Granted, AClosed n)
  | AOpen t => (Rejected ErrOpen, AOpen t)
  | AHalfOpen true => (Rejected ErrProbeInFlight, AHalfOpen true)
  | AHalfOpen false => (Granted, AHalfOpen true)
  end.

Definition abstract_record (now : N) (success : bool) (a : abstract_breaker) : abstract_breaker :=
  match a with
  | AClosed n =>
      if success then AClosed 0
      else if decide (n + 1 < failure_threshold cfg)%N then AClosed (n + 1) else AOpen now
  | AOpen t => AOpen t
  | AHalfOpen _ => if success then AClosed 0 else AOpen now
  end.

Definition abstract_name (a : abstract_breaker) : BreakerState :=
  match a with AClosed _ => Closed | AOpen _ => Open | AHalfOpen _ => HalfOpen end.

(** The clock and the number of live guards are part of the specification too. *)
Definition abstract_step (s : abstract_breaker * N * nat) (ev : breaker_event)
  : breaker_reply * (abstract_breaker * N * nat) :=
  let '(a, now, n) := s in
  match ev with
  | Advance d => (NoReply, (a, (now + d)%N, n))
  | AcquireGuarded =>
      match abstract_acquire now a with
      | (Granted, a') => (Granted, (a', now, S n))
      | (r, a') => (r, (a', now, n))
      end
  | ObserveState => (Observed (abstract_name (abstract_tick now a)), (abstract_tick now a, now, n))
  | EndGuard i e =>
      if decide (i < n)
      then (NoReply, (abstract_record now (match e with GuardSuccess => true | _ => false end) a, now, pred n))
      else (NoReply, s)
  end.

Fixpoint abstract_run (s : abstract_breaker * N * nat) (evs : list breaker_event) : list breaker_reply :=
  match evs with
  | [] => []
  | ev :: evs' => let '(r, s') := abstract_step s ev in r :: abstract_run s' evs'
  end.

(** The simulation relation; it contains the invariant of the concrete state. *)
Definition simulates (g : Inner) (now : N) (a : abstract_breaker) : Prop :=
  match a with
  | AClosed n => g = mkInner Closed n None false /\ (n < failure_threshold cfg)%N
  | AOpen t => exists n, g = mkInner Open n (Some t) false /\ (t <= now)%N
  | AHalfOpen b => exists n t, g = mkInner HalfOpen n (Some t) b /\ (t <= now)%N
  end.

Lemma tick_simulates g now a :
  simulates g now a -> simulates (tick_locked now g) now (abstract_tick now a).
Proof.
  destruct a as [n|t|b]; simpl.
  - by intros [-> ?].
  - intros (n & -> & Ht). unfold tick_locked; simpl.
    destruct (decide (reset_timeout cfg <= now - t)%N), (decide (t + reset_timeout cfg <= now)%N); simpl;
      try lia; eauto.
  - intros (n & t & -> & Ht). eauto.
Qed.

Lemma acquire_simulates g now a :
  simulates g now a ->
  let '(r, g') := try_acquire now g in
  let '(r', a') := abstract_acquire now a in
  r' = match r with Ok _ => Granted | Err e => Rejected e end /\ simulates g' now a'.
Proof.
  intros Hs%tick_simulates. unfold try_acquire, abstract_acquire.
  destruct (abstract_tick now a) as [n|t|[]]; simpl in Hs.
  - by destruct Hs as [-> ?].
  - destruct Hs as (n & -> & ?). simpl. eauto.
  - destruct Hs as (n & t & -> & ?). simpl. eauto.
  - destruct Hs as (n & t & -> & ?). simpl. eauto.
Qed.

Lemma end_simulates g now a e :
  (1 <= failure_threshold cfg <= U32_MAX)%N -> simulates g now a ->
  simulates (guard_end now e g) now
    (abstract_record now (match e with GuardSuccess => true | _ => false end) a).
Proof.
  intros [Hmin Hmax]. assert (forall n, (n < failure_threshold cfg)%N -> u32_saturating_add n 1 = (n + 1)%N) as Hsat.
  { intros n Hn. unfold u32_saturating_add. lia. }
  destruct a as [n|t|b]; simpl.
  - intros [-> Hn]. destruct e; simpl; unfold record_failure; simpl; [split; [done|lia]|..];
      rewrite Hsat by done; destruct (decide (n + 1 < _)%N); case_decide; try lia; simpl; eauto with lia.
  - intros (n & -> & Ht). destruct e; simpl; eauto.
  - intros (n & t & -> & Ht). destruct e; simpl; [split; [done|lia]|eauto..].
Qed.

(** The world and its abstraction, with the guards of the current state accounted for: a taken
    probe slot has a live guard that was admitted as the probe. *)
Definition represents (w : World) (s : abstract_breaker * N * nat) : Prop :=
  let '(a, now, n) := s in
  simulates (inner w) (clock w) a /\ clock w = now /\ length (guards w) = n /\
  (a = AHalfOpen true -> HalfOpen ∈ guards w).

Lemma simulates_advance g now d a : simulates g now a -> simulates g (now + d) a.
Proof. destruct a; simpl; naive_solver lia. Qed.

Lemma step_represents w s ev :
  (1 <= failure_threshold cfg <= U32_MAX)%N -> represents w s ->
  (breaker_step w ev).1 = (abstract_step s ev).1 /\
  represents (breaker_step w ev).2 (abstract_step s ev).2.
Proof.
  intros Hcfg. destruct s as [[a now] n]. intros (Hs & <- & <- & Hprobe). destruct ev as [d| | |i e]; simpl.
  - split; [done|]. split; [by apply simulates_advance|done].
  - pose proof (acquire_simulates _ _ _ Hs) as Ha.
    destruct (try_acquire _ _) as [[[]|e] g] eqn:Et;
      destruct (abstract_acquire _ _) as [r a'] eqn:Ea; destruct Ha as [-> Ha]; simpl.
    + split; [done|]. repeat split; [done|by rewrite length_app; simpl; lia|].
      intros ->. destruct Ha as (n & t & -> & _). simpl. apply elem_of_app. right. by left.
    + split; [done|]. repeat split; [done|]. intros ->. apply Hprobe.
      revert Ea. unfold abstract_acquire, abstract_tick.
      destruct a as [|t|[]]; repeat case_decide; by intros [=].
  - pose proof (tick_simulates _ _ _ Hs) as Ht. split.
    + destruct (abstract_tick _ a) as [n|t|b]; simpl in Ht;
        [destruct Ht as [-> _]|destruct Ht as (n & -> & _)|destruct Ht as (n & t & -> & _)]; done.
    + repeat split; [done|]. intros E. apply Hprobe. revert E. unfold abstract_tick.
      destruct a; repeat case_decide; done.
  - destruct (guards w !! i) as [st|] eqn:Eg.
    + rewrite decide_True by by eapply lookup_lt_Some. split; [done|].
      repeat split; simpl; [by apply end_simulates| |].
      * pose proof (lookup_lt_Some _ _ _ Eg). rewrite length_delete by by eexists. lia.
      * unfold abstract_record. destruct a, e; repeat case_decide; done.
    + rewrite decide_False by (apply lookup_ge_None in Eg; lia). done.
Qed.

Lemma run_represents w s evs :
  (1 <= failure_threshold cfg <= U32_MAX)%N -> represents w s ->
  (breaker_run w evs).1 = abstract_run s evs /\
  exists s', represents (breaker_run w evs).2 s'.
Proof.
  intros Hcfg. revert w s; induction evs as [|ev evs IH]; intros w s Hr; simpl; [eauto|].
  destruct (step_represents w s ev Hcfg Hr) as [Hreply Hr'].
  destruct (breaker_step w ev) as [r w'], (abstract_step s ev) as [r' s']. simpl in *. subst r'.
  destruct (IH w' s' Hr') as [Hrs Hs'']. destruct (breaker_run w' evs) as [rs w'']. simpl in *.
  by rewrite Hrs.
Qed.

Lemma initial_represents now :
  (1 <= failure_threshold cfg)%N -> represents (initial now) (AClosed 0, now, 0).
Proof. intros. repeat split; [lia|done]. Qed.
End Breaker.

Lemma config_new_some t r cfg :
  config_new t r = Some cfg -> failure_threshold cfg = t /\ reset_timeout cfg = r /\ (1 <= t)%N.
Proof. unfold config_new. case_decide; naive_solver. Qed.

(** C40: The breaker refines the three-state automaton: for every configuration its constructor
    accepts and every interleaving of clock advances, acquisitions, observations and guard ends
    of any number of threads, each caller gets the answer of the automaton. *)
Theorem breaker_refines_automaton threshold timeout cfg now evs
    (Hcfg : config_new threshold timeout = Some cfg) (Hu32 : (threshold <= U32_MAX)%N) :
  (breaker_run cfg (initial now) evs).1 = abstract_run cfg (AClosed 0, now, 0) evs.
Proof.
  apply config_new_some in Hcfg as (Ht & _ & H1).
  by apply run_represents; [lia|]; apply initial_represents; lia.
Qed.

(** The breaker never gets stuck: whatever happened before, once every guard has ended and the
    reset timeout has passed, the next call is admitted. *)
Theorem breaker_never_stuck threshold timeout cfg now evs
    (Hcfg : config_new threshold timeout = Some cfg) (Hu32 : (threshold <= U32_MAX)%N)
    (Hended : guards (breaker_run cfg (initial now) evs).2 = []) :
  let w := (breaker_run cfg (initial now) evs).2 in
  (breaker_run cfg w [Advance timeout; AcquireGuarded]).1 = [NoReply; Granted].
Proof.
  intros w. apply config_new_some in Hcfg as (Ht & Hr & H1).
  destruct (run_represents cfg (initial now) (AClosed 0, now, 0) evs) as [_ [[[a now'] n] Hrep]];
    [lia|by apply initial_represents; lia|].
  fold w in Hrep, Hended. destruct (run_represents cfg w _ [Advance timeout; AcquireGuarded] ltac:(lia) Hrep) as [-> _].
  destruct Hrep as (Hs & <- & _ & Hprobe). rewrite Hended in Hprobe. simpl. unfold abstract_acquire, abstract_tick.
  destruct a as [f|t|[]]; simpl in *.
  - done.
  - destruct Hs as (k & _ & Hle). rewrite decide_True by lia. done.
  - by specialize (Hprobe eq_refl); apply not_elem_of_nil in Hprobe.
  - done.
Qed.

Definition sample_config : CircuitBreakerConfig := mkConfig 2 10.

(** Two failures trip the breaker; the third call is rejected, the probe is admitted after the
    timeout and its guard dropped. *)
Definition sample_events : list breaker_event :=
  [AcquireGuarded; EndGuard 0 GuardFailure; AcquireGuarded; EndGuard 0 GuardFailure;
   AcquireGuarded; Advance 10; AcquireGuarded; AcquireGuarded; EndGuard 0 GuardDrop].

Lemma breaker_refines_automaton_witness :
  (breaker_run sample_config (initial 0) sample_events).1 = abstract_run sample_config (AClosed 0, 0%N, 0) sample_events /\
  (breaker_run sample_config (initial 0) sample_events).1 =
    [Granted; NoReply; Granted; NoReply; Rejected ErrOpen; NoReply; Granted; Rejected ErrProbeInFlight; NoReply].
Proof.
  split; [|reflexivity].
  apply (breaker_refines_automaton 2 10 sample_config 0 sample_events); [reflexivity|discriminate].
Defined.

Lemma breaker_never_stuck_witness :
  let w := (breaker_run sample_config (initial 0) sample_events).2 in
  state (inner w) = Open /\
  (breaker_run sample_config w [Advance 10; AcquireGuarded]).1 = [NoReply; Granted].
Proof.
  split; [reflexivity|].
  apply (breaker_never_stuck 2 10 sample_config 0 sample_events); [reflexivity|discriminate|reflexivity].
Defined.

(** A call admitted while the breaker was closed may end after it tripped.  Its failure reopens
    a half-open breaker whose probe is still running, so that two probes run at once; its
    success closes a half-open breaker although no probe ever succeeded. *)
Theorem stale_calls_steer_the_probe :
  (breaker_run (mkConfig 1 10) (initial 0)
     [AcquireGuarded; AcquireGuarded; EndGuard 0 GuardFailure; Advance 10; AcquireGuarded;
      EndGuard 0 GuardFailure; Advance 10; AcquireGuarded]).2 =
    mkWorld (mkInner HalfOpen 1 (Some 10%N) true) 20 [HalfOpen; HalfOpen] /\
  (breaker_run (mkConfig 1 10) (initial 0)
     [AcquireGuarded; AcquireGuarded; EndGuard 0 GuardFailure; Advance 10; AcquireGuarded;
      EndGuard 0 GuardSuccess]).2 =
    mkWorld (mkInner Closed 0 None false) 10 [HalfOpen].
Proof. split; reflexivity. Qed.
