(* ===== verification/PathNorm.v ===== *)
(** Path canonicalisation of the FUSE adapter: crates/pcloud-fs/src/path_norm.rs.

    A path is the list of its UTF-8 bytes; a [Vec<&str>] used as a stack is a list with its top
    at the end. *)
From S2P Require Import Prelude Paths.

Definition nul : ascii := ascii_of_N 0.

Inductive PathError : Type :=
| EmbeddedNul
| InvalidComponent (name : list ascii)
| EmptyName
| EscapesRoot.

Definition validate_no_nul (s : list ascii) : result unit PathError :=
  if decide (nul ∈ s) then Err EmbeddedNul else Ok ().

Fixpoint canonicalise_loop (stack segments : list (list ascii)) : result (list (list ascii)) PathError :=
  match segments with
  | [] => Ok stack
  | s :: ss =>
      if decide (s = [] \/ s = [dot]) then canonicalise_loop stack ss
      else if decide (s = [dot; dot]) then
        if decide (stack = []) then Err EscapesRoot else canonicalise_loop (removelast stack) ss
      else canonicalise_loop (stack ++ [s]) ss
  end.

Definition render (stack : list (list ascii)) : list ascii :=
  if decide (stack = []) then [slash] else concat ((λ s, slash :: s) <$> stack).

Definition canonicalise (path : list ascii) : result (list ascii) PathError :=
  let? _ := validate_no_nul path in
  let? stack := canonicalise_loop [] (split_on slash path) in
  Ok (render stack).

Definition parent_of (path : list ascii) : result (list ascii) PathError :=
  let? canon := canonicalise path in
  if decide (canon = [slash]) then Err EscapesRoot
  else
    match rfind slash canon with
    | Some 0 => Ok [slash]
    | Some idx => Ok (take idx canon)
    | None => Err EscapesRoot
    end.

Definition join_child (parent name : list ascii) : result (list ascii) PathError :=
  let? _ := validate_no_nul parent in
  let? _ := validate_no_nul name in
  if decide (name = []) then Err EmptyName
  else if decide (name = [dot]) then canonicalise parent
  else if decide (name = [dot; dot]) then parent_of parent
  else if decide (slash ∈ name) then Err (InvalidComponent name)
  else
    let? base := canonicalise parent in
    Ok (if decide (base = [slash]) then slash :: name else base ++ slash :: name).

(** * Canonical paths *)

(** A proper file name. *)
Definition good_name (s : list ascii) : Prop := bad_segment s = false /\ slash ∉ s /\ nul ∉ s.

(** Names entered minus levels left by the segments. *)
Definition net_depth (segments : list (list ascii)) : Z :=
  foldr (λ s d, if decide (s = [] \/ s = [dot]) then d
                else if decide (s = [dot; dot]) then d - 1 else d + 1)%Z 0%Z segments.

(** Some prefix of the path leaves more levels than it entered. *)
Definition escapes (segments : list (list ascii)) : Prop :=
  exists pre suf, segments = pre ++ suf /\ (net_depth pre < 0)%Z.

Lemma not_escapes_below k segments :
  (k + 0 >= 0)%Z ->
  (exists pre suf, segments = pre ++ suf /\ (k + net_depth pre < 0)%Z) <->
  match segments with
  | [] => False
  | s :: ss => exists pre suf, ss = pre ++ suf /\ (k + net_depth [s] + net_depth pre < 0)%Z
  end.
Proof.
  intros Hk. split.
  - intros (pre & suf & E & Hlt). destruct pre as [|s pre]; [simpl in Hlt; lia|].
    destruct segments as [|s' ss]; [done|]. simplify_eq/=. exists pre, suf. split; [done|].
    repeat case_decide; lia.
  - destruct segments as [|s ss]; [done|]. intros (pre & suf & -> & Hlt).
    exists (s :: pre), suf. split; [done|]. simpl in *. repeat case_decide; lia.
Qed.

(** The loop computes the lexical resolution of [Paths.resolve], or fails exactly when some
    prefix climbs above the bottom of the stack. *)
Lemma canonicalise_loop_spec stack segments :
  match canonicalise_loop stack segments with
  | Ok stack' => stack' = resolve stack segments /\
      forall pre suf, segments = pre ++ suf -> (0 <= Z.of_nat (length stack) + net_depth pre)%Z
  | Err e => e = EscapesRoot /\
      exists pre suf, segments = pre ++ suf /\ (Z.of_nat (length stack) + net_depth pre < 0)%Z
  end.
Proof.
  revert stack; induction segments as [|s ss IH]; intros stack; simpl.
  { split; [done|]. intros pre suf E. symmetry in E. apply app_nil in E as [-> ->]. simpl. lia. }
  assert (forall stack', Z.of_nat (length stack') = (Z.of_nat (length stack) + net_depth [s])%Z ->
    match canonicalise_loop stack' ss with
    | Ok stack'' => stack'' = resolve stack' ss /\
        forall pre suf, s :: ss = pre ++ suf -> (0 <= Z.of_nat (length stack) + net_depth pre)%Z
    | Err e => e = EscapesRoot /\
        exists pre suf, s :: ss = pre ++ suf /\ (Z.of_nat (length stack) + net_depth pre < 0)%Z
    end) as Hstep.
  { intros stack' Hlen. specialize (IH stack').
    pose proof (not_escapes_below (Z.of_nat (length stack)) (s :: ss) ltac:(lia)) as Hesc. simpl in Hesc, Hlen.
    destruct (canonicalise_loop stack' ss) as [stack''|e]; destruct IH as [-> IH]; split; try done.
    - intros pre suf E. destruct (decide (0 <= Z.of_nat (length stack) + net_depth pre)%Z) as [|Hn]; [done|].
      destruct (proj1 Hesc) as (pre' & suf' & E' & Hlt); [by exists pre, suf; split; [|lia]|].
      specialize (IH pre' suf' E'). lia.
    - apply Hesc. destruct IH as (pre & suf & -> & Hlt). exists pre, suf. split; [done|]. lia. }
  unfold net_depth in Hstep at 1; simpl in Hstep.
  destruct (decide (s = [] \/ s = [dot])) as [Hd|Hd]; [apply Hstep; lia|].
  destruct (decide (s = [dot; dot])) as [->|Hdd].
  - destruct (decide (stack = [])) as [->|Hne].
    + split; [done|]. exists [[dot; dot]], ss. by split.
    + destruct stack as [|x stack _] using rev_ind; [done|]. rewrite removelast_last in *.
      apply Hstep. rewrite length_app. simpl. lia.
  - apply Hstep. rewrite length_app. simpl. lia.
Qed.

Lemma split_no_nul p : nul ∉ p -> Forall (λ s, nul ∉ s) (split_on slash p).
Proof.
  induction p as [|c p IH]; intros Hn; simpl; [repeat constructor; by apply not_elem_of_nil|].
  apply not_elem_of_cons in Hn as [Hc Hn]. specialize (IH Hn).
  case_decide; [constructor; [by apply not_elem_of_nil|done]|].
  destruct (split_on slash p) as [|s ss]; [repeat constructor; set_solver|].
  inversion IH; subst. constructor; [set_solver|done].
Qed.

Lemma resolve_names stack segments :
  Forall good_name stack -> Forall (λ s, slash ∉ s) segments -> Forall (λ s, nul ∉ s) segments ->
  Forall good_name (resolve stack segments).
Proof.
  revert stack; induction segments as [|s ss IH]; intros stack Hst Hsl Hnul; simpl; [done|].
  inversion Hsl; inversion Hnul; subst. case_decide as Hd; [by apply IH|].
  case_decide as Hdd; apply IH; try done.
  - destruct stack as [|x stack _] using rev_ind; [done|]. rewrite removelast_last. by apply Forall_app in Hst as [? _].
  - apply Forall_app. split; [done|]. repeat constructor; try done.
    rewrite bad_segment_false. naive_solver.
Qed.

Lemma split_names s names :
  slash ∉ s -> Forall (λ x, slash ∉ x) names ->
  split_on slash (s ++ concat ((λ x, slash :: x) <$> names)) = s :: names.
Proof.
  revert s; induction names as [|x names IH]; intros s Hs Hn; csimpl.
  - rewrite (split_on_app_l slash s [] Hs [] []) by done. by rewrite app_nil_r.
  - inversion Hn; subst.
    rewrite (split_on_app_l slash s _ Hs [] (x :: names)); [by rewrite app_nil_r|].
    cbn [split_on app]. rewrite decide_True by done. f_equal. by apply IH.
Qed.

Lemma good_no_slash names : Forall good_name names -> Forall (λ x, slash ∉ x) names.
Proof. intros H. eapply Forall_impl; [exact H|]. by intros x (_ & ? & _). Qed.

Lemma split_render names :
  Forall good_name names -> split_on slash (render names) = [] :: (if decide (names = []) then [[]] else names).
Proof.
  intros Hg. unfold render. case_decide as Hn; [by subst|].
  apply (split_names [] names); [by apply not_elem_of_nil|by apply good_no_slash].
Qed.

Lemma render_no_nul names : Forall good_name names -> nul ∉ render names.
Proof.
  intros Hg. unfold render. case_decide; [by intros Hin%list_elem_of_singleton|].
  induction Hg as [|s names (_ & _ & Hs) Hg IH]; csimpl; [by apply not_elem_of_nil|].
  rewrite not_elem_of_cons, not_elem_of_app. repeat split; [done|done|].
  destruct names; [by apply not_elem_of_nil|]. by apply IH.
Qed.

Lemma canonicalise_loop_good stack names :
  Forall good_name names -> canonicalise_loop stack names = Ok (stack ++ names).
Proof.
  intros Hg. revert stack; induction Hg as [|s names (Hb & _) Hg IH]; intros stack; simpl; [by rewrite app_nil_r|].
  apply bad_segment_false in Hb as (? & ? & ?). rewrite !decide_False by tauto.
  by rewrite IH, <- app_assoc.
Qed.

(** A canonical path is its own canonical form. *)
Lemma canonicalise_render names : Forall good_name names -> canonicalise (render names) = Ok (render names).
Proof.
  intros Hg. unfold canonicalise, validate_no_nul. rewrite decide_False by by apply render_no_nul.
  cbn [result_bind]. rewrite split_render by done. cbn [canonicalise_loop]. rewrite decide_True by auto.
  case_decide as Hn; [by subst|].
  by rewrite canonicalise_loop_good.
Qed.

Lemma canonicalise_cases p :
  match canonicalise p with
  | Ok q => nul ∉ p /\ ~ escapes (split_on slash p) /\
      exists names, Forall good_name names /\ names = resolve [] (split_on slash p) /\ q = render names
  | Err e => (e = EmbeddedNul /\ nul ∈ p) \/ (e = EscapesRoot /\ nul ∉ p /\ escapes (split_on slash p))
  end.
Proof.
  unfold canonicalise, validate_no_nul. case_decide as Hn; cbn [result_bind]; [by left|].
  pose proof (canonicalise_loop_spec [] (split_on slash p)) as Hl.
  destruct (canonicalise_loop _ _) as [stack|e]; cbn [result_bind].
  - destruct Hl as [-> Hnon]. split; [done|]. split.
    + intros (pre & suf & E & Hlt). specialize (Hnon pre suf E). simpl in Hnon. lia.
    + eexists. split; [|done]. apply resolve_names; [done|apply split_on_no_sep|by apply split_no_nul].
  - destruct Hl as (-> & pre & suf & E & Hlt). right. repeat split; [done|]. exists pre, suf. by split.
Qed.

(** Canonicalisation computes the lexical resolution of the path from the root, as proper names
    joined by single slashes; it is idempotent; and it fails exactly on an embedded NUL byte and
    on a path some prefix of which climbs above the root. *)
Theorem canonicalise_spec p :
  match canonicalise p with
  | Ok q =>
      nul ∉ p /\ ~ escapes (split_on slash p) /\ canonicalise q = Ok q /\
      exists names, Forall good_name names /\ names = resolve [] (split_on slash p) /\ q = render names
  | Err e => (e = EmbeddedNul /\ nul ∈ p) \/ (e = EscapesRoot /\ nul ∉ p /\ escapes (split_on slash p))
  end.
Proof.
  pose proof (canonicalise_cases p) as H. destruct (canonicalise p) as [q|e]; [|done].
  destruct H as (? & ? & names & Hg & Hr & ->). eauto 10 using canonicalise_render.
Qed.

(** * Children and parents *)

Lemma render_root names : Forall good_name names -> render names = [slash] <-> names = [].
Proof.
  intros Hg. unfold render. case_decide as Hn; [done|]. split; [|done]. intros E.
  pose proof (split_names [] names) as Hs. simpl in Hs. rewrite E in Hs.
  specialize (Hs ltac:(by apply not_elem_of_nil) (good_no_slash _ Hg)).
  injection Hs as <-. inversion Hg as [|? ? (Hb & _) _]; subst. done.
Qed.

Lemma render_snoc names x :
  Forall good_name names ->
  render (names ++ [x]) = if decide (render names = [slash]) then slash :: x else render names ++ slash :: x.
Proof.
  intros Hg. unfold render at 1. rewrite decide_False by (by destruct names).
  rewrite fmap_app, concat_app. csimpl. rewrite app_nil_r.
  destruct (decide (render names = [slash])) as [E|E]; [apply render_root in E as ->; done|].
  unfold render in *. destruct (decide (names = [])); [by subst|done].
Qed.

Lemma parent_of_render names x p :
  Forall good_name (names ++ [x]) -> canonicalise p = Ok (render (names ++ [x])) ->
  parent_of p = Ok (render names).
Proof.
  intros Hg Hc. unfold parent_of. rewrite Hc. cbn [result_bind].
  rewrite decide_False by (rewrite render_root by done; by destruct names).
  pose proof Hg as [Hg1 Hx]%Forall_app. inversion Hx as [|? ? (_ & Hsl & _) _]; subst.
  rewrite render_snoc by done. case_decide as E.
  - change (slash :: x) with ([] ++ slash :: x). by rewrite rfind_app, E.
  - rewrite rfind_app by done. destruct (render names) as [|c l] eqn:Er.
    + unfold render in Er. case_decide; [done|]. by destruct names.
    + rewrite <- Er. replace (length (render names)) with (S (length l)) by (by rewrite Er).
      rewrite Er. f_equal. change (S (length l)) with (length (c :: l)). by rewrite take_app_length.
Qed.

(** The lookups of the file system stay inside the tree: a joined path is canonical and is the
    parent itself for ".", the parent's parent for ".." (an error at the root), and otherwise
    the child of the parent with exactly that name, whose parent is the parent.  Each error has
    its own cause. *)
Theorem join_child_spec parent name :
  match join_child parent name with
  | Ok q =>
      canonicalise q = Ok q /\
      exists names, Forall good_name names /\ canonicalise parent = Ok (render names) /\
        ((name = [dot] /\ q = render names) \/
         (name = [dot; dot] /\ exists init last, names = init ++ [last] /\ q = render init) \/
         (good_name name /\ q = render (names ++ [name]) /\ parent_of q = Ok (render names)))
  | Err e =>
      canonicalise parent = Err e \/ (e = EmbeddedNul /\ nul ∈ name) \/ (e = EmptyName /\ name = []) \/
      (e = InvalidComponent name /\ slash ∈ name) \/
      (e = EscapesRoot /\ name = [dot; dot] /\ canonicalise parent = Ok [slash])
  end.
Proof.
  unfold join_child. pose proof (canonicalise_cases parent) as Hc. unfold validate_no_nul.
  destruct (decide (nul ∈ parent)) as [Hp|Hp]; cbn [result_bind].
  { left. destruct (canonicalise parent) as [q|e]; [by destruct Hc|]. by destruct Hc as [[-> _]|(_ & ? & _)]. }
  destruct (decide (nul ∈ name)) as [Hn|Hn]; cbn [result_bind]; [auto|].
  case_decide as H0; [auto|]. case_decide as H1.
  { destruct (canonicalise parent) as [q|e]; [|auto]. destruct Hc as (_ & _ & names & Hg & _ & ->).
    split; [by apply canonicalise_render|]. exists names. auto. }
  case_decide as H2.
  { destruct (canonicalise parent) as [q|e] eqn:Ec.
    - destruct Hc as (_ & _ & names & Hg & _ & ->).
      destruct names as [|x names _] using rev_ind.
      + unfold parent_of. rewrite Ec. simpl. auto 10.
      + rewrite (parent_of_render names x) by done. apply Forall_app in Hg as Hg'. destruct Hg' as [Hg' _].
        split; [by apply canonicalise_render|]. exists (names ++ [x]). eauto 10.
    - unfold parent_of. rewrite Ec. cbn [result_bind]. auto. }
  case_decide as H3; [auto 10|].
  destruct (canonicalise parent) as [q|e] eqn:Ec; cbn [result_bind]; [|auto].
  destruct Hc as (_ & _ & names & Hg & _ & ->). rewrite <- render_snoc by done.
  assert (good_name name) as Hname by (repeat split; try done; by apply bad_segment_false).
  assert (Forall good_name (names ++ [name])) as Hg' by (apply Forall_app; auto).
  split; [by apply canonicalise_render|]. exists names. repeat split; try done. right. right.
  repeat split; try apply Hname. eapply parent_of_render; [done|by apply canonicalise_render].
Qed.

Example canonicalise_1 : canonicalise (chars "/a//b/../c/.") = Ok (chars "/a/c").
Proof. reflexivity. Qed.

Example canonicalise_2 : canonicalise (chars "a/../../b") = Err EscapesRoot.
Proof. reflexivity. Qed.
