(* ===== verification/Budget.v ===== *)
(** The shared retry budget: crates/pcloud-resilience/src/global_budget.rs.

    The counter is an atomic [i64] that threads change without a lock, so a call is several
    atomic steps and any other thread may run between them.  [Budget] is the counter with every
    thread's position in its call; [budget_step] is the interleaving semantics, one atomic
    operation per step. *)
From S2P Require Import Prelude.
From stdpp Require Import relations.

(** Where a thread stands: outside a call; in [try_consume] after a [fetch_sub] that found
    nothing, about to put the token back; in the loop of [replenish] before the [load], and
    before the [compare_exchange_weak] with the value it loaded. *)
Inductive Thread : Type :=
| Idle
| PutBack
| AtLoad (add : Z)
| AtCas (add current : Z).

(** [consumed] and [offered] are history: the calls of [try_consume] that returned [true], and
    the sum of the [n] of the calls of [replenish]. *)
Record Budget : Type := mkBudget {
  tokens : Z;
  capacity : Z;
  threads : list Thread;
  consumed : Z;
  offered : Z;
}.

(** [GlobalRetryBudget::new] shared by [n] threads; [None] is the panic on a zero capacity. *)
Definition budget_new (capacity : N) (n : nat) : option Budget :=
  if decide (0 < capacity)%N
  then Some (mkBudget (Z.of_N capacity) (Z.of_N capacity) (replicate n Idle) 0 0)
  else None.

Definition with_thread (i : nat) (t : Thread) (b : Budget) : Budget :=
  mkBudget (tokens b) (capacity b) (<[i := t]> (threads b)) (consumed b) (offered b).

Definition with_tokens (x : Z) (b : Budget) : Budget :=
  mkBudget x (capacity b) (threads b) (consumed b) (offered b).

(** The [fetch_sub] of [try_consume]: done when the previous value was positive. *)
Definition consume_sub (i : nat) (b : Budget) : Budget :=
  let prev := tokens b in
  let b := with_tokens (prev - 1) b in
  if decide (prev <= 0)%Z then with_thread i PutBack b
  else mkBudget (tokens b) (capacity b) (threads b) (consumed b + 1) (offered b).

(** The [fetch_add] that restores the token. *)
Definition put_back (i : nat) (b : Budget) : Budget :=
  with_thread i Idle (with_tokens (tokens b + 1) b).

(** [replenish(n)] up to its loop. *)
Definition replenish_start (i : nat) (n : N) (b : Budget) : Budget :=
  if decide (n = 0%N) then b
  else with_thread i (AtLoad (Z.of_N n))
         (mkBudget (tokens b) (capacity b) (threads b) (consumed b) (offered b + Z.of_N n)).

Definition replenish_load (i : nat) (add : Z) (b : Budget) : Budget :=
  with_thread i (AtCas add (tokens b)) b.

(** The weak exchange may fail although the value is the expected one ([spurious]). *)
Definition replenish_cas (i : nat) (add current : Z) (spurious : bool) (b : Budget) : Budget :=
  let desired := Z.min (current + add) (capacity b) in
  if decide (tokens b = current /\ spurious = false)
  then with_thread i Idle (with_tokens desired b)
  else with_thread i (AtLoad add) b.

Definition available (b : Budget) : N := Z.to_N (Z.max (tokens b) 0).

Inductive budget_step : Budget -> Budget -> Prop :=
| step_consume b i :
    threads b !! i = Some Idle -> budget_step b (consume_sub i b)
| step_put_back b i :
    threads b !! i = Some PutBack -> budget_step b (put_back i b)
| step_replenish b i n :
    threads b !! i = Some Idle -> budget_step b (replenish_start i n b)
| step_load b i add :
    threads b !! i = Some (AtLoad add) -> budget_step b (replenish_load i add b)
| step_cas b i add current spurious :
    threads b !! i = Some (AtCas add current) -> budget_step b (replenish_cas i add current spurious b).

(** * Accounting *)

Definition is_put_back (t : Thread) : Z := match t with PutBack => 1 | _ => 0 end.

(** What a running [replenish] may still add. *)
Definition still_to_add (t : Thread) : Z :=
  match t with AtLoad add => add | AtCas add _ => add | _ => 0 end.

Definition sum_of (f : Thread -> Z) (ts : list Thread) : Z := foldr (λ t s, f t + s)%Z 0%Z ts.

Lemma sum_of_insert f ts i t t' :
  ts !! i = Some t -> sum_of f (<[i := t']> ts) = (sum_of f ts - f t + f t')%Z.
Proof.
  revert i; induction ts as [|x ts IH]; intros [|i] Hi; simpl in *; simplify_eq; [lia|].
  rewrite (IH i Hi). lia.
Qed.

Lemma sum_of_nonneg f ts : (forall t, t ∈ ts -> 0 <= f t)%Z -> (0 <= sum_of f ts)%Z.
Proof.
  induction ts as [|t ts IH]; intros Hf; simpl; [lia|].
  pose proof (Hf t ltac:(left)). assert (0 <= sum_of f ts)%Z by (apply IH; intros; apply Hf; by right). lia.
Qed.

(** [put_backs]: tokens taken by calls that will return [false] and are about to restore them. *)
Definition put_backs (b : Budget) : Z := sum_of is_put_back (threads b).

Record budget_ok (b : Budget) : Prop := {
  ok_floor : (0 <= tokens b + put_backs b)%Z;
  ok_account : (consumed b + tokens b + put_backs b + sum_of still_to_add (threads b)
                <= capacity b + offered b)%Z;
  ok_adds : Forall (λ t, 0 <= still_to_add t)%Z (threads b);
  ok_capacity : (0 < capacity b)%Z;
}.

Lemma put_backs_nonneg b : (0 <= put_backs b)%Z.
Proof. apply sum_of_nonneg. intros [] _; simpl; lia. Qed.

Lemma budget_step_ok b b' : budget_step b b' -> budget_ok b -> budget_ok b'.
Proof.
  intros Hstep [Hfloor Hacc Hadds Hcap].
  pose proof (put_backs_nonneg b) as Hpb.
  destruct Hstep as [b i Hi|b i Hi|b i n Hi|b i add Hi|b i add current spurious Hi];
    pose proof (Forall_lookup_1 _ _ _ _ Hadds Hi) as Hpos; simpl in Hpos;
    unfold consume_sub, put_back, replenish_start, replenish_load, replenish_cas, with_thread, with_tokens;
    try case_decide as Hd; try done; split; unfold put_backs in *; simpl;
    rewrite ?(sum_of_insert is_put_back _ i _ _ Hi), ?(sum_of_insert still_to_add _ i _ _ Hi); simpl;
    try (apply Forall_insert; [done|simpl; lia]); try done; lia.
Qed.

Lemma budget_new_ok cap n b : budget_new cap n = Some b -> budget_ok b.
Proof.
  unfold budget_new. case_decide as Hc; [|done]. intros [= <-].
  assert (forall f, f Idle = 0%Z -> sum_of f (replicate n Idle) = 0%Z) as Hz.
  { intros f Hf. induction n as [|n IH]; simpl; [done|]. by rewrite Hf, IH. }
  split; unfold put_backs; simpl; rewrite ?Hz by done; try lia.
  apply Forall_replicate. simpl. lia.
Qed.

Lemma put_backs_others ts i t :
  ts !! i = Some t -> is_put_back t = 0%Z -> (sum_of is_put_back ts <= Z.of_nat (pred (length ts)))%Z.
Proof.
  assert (forall ts', sum_of is_put_back ts' <= Z.of_nat (length ts'))%Z as Hall.
  { induction ts' as [|[] ts' IH]; simpl in *; lia. }
  revert i; induction ts as [|x ts IH]; intros [|i] Hi Ht; simpl in *; simplify_eq.
  - rewrite Ht. pose proof (Hall ts). lia.
  - specialize (IH i Hi Ht). pose proof (lookup_lt_Some _ _ _ Hi). destruct x; simpl; lia.
Qed.

(** The overshoot is bounded by the other threads' pending restores; and as long as nothing was
    offered, the tokens are exactly accounted for. *)
Record budget_tight (n : nat) (b : Budget) : Prop := {
  tight_threads : length (threads b) = n;
  tight_ceiling : (tokens b + put_backs b <= capacity b + Z.of_nat (pred n))%Z;
  tight_offered : (0 <= offered b)%Z;
  tight_exact : offered b = 0%Z ->
    (consumed b + tokens b + put_backs b = capacity b)%Z /\ Forall (λ t, t = Idle \/ t = PutBack) (threads b);
}.

Lemma budget_step_tight n b b' : budget_step b b' -> budget_tight n b -> budget_tight n b'.
Proof.
  intros Hstep [Hn Hceil Hoff Hexact].
  destruct Hstep as [b i Hi|b i Hi|b i k Hi|b i add Hi|b i add current spurious Hi];
    unfold consume_sub, put_back, replenish_start, replenish_load, replenish_cas, with_thread, with_tokens;
    try case_decide as Hd; try done; split; unfold put_backs in *; simpl;
    rewrite ?length_insert, ?(sum_of_insert is_put_back _ i _ _ Hi); simpl; try done; try lia.
  all: try (pose proof (put_backs_others _ _ _ Hi eq_refl); lia).
  all: intros Ho; destruct (Hexact ltac:(lia)) as [He Hall];
    pose proof (Forall_lookup_1 _ _ _ _ Hall Hi) as Ht; simpl in Ht; destruct Ht; try discriminate.
  all: split; [lia|]; try done; apply Forall_insert; auto.
Qed.

Lemma budget_new_tight cap n b :
  budget_new cap n = Some b -> budget_tight n b.
Proof.
  unfold budget_new. case_decide as Hc; [|done]. intros [= <-].
  assert (sum_of is_put_back (replicate n Idle) = 0%Z) as Hz by (induction n as [|n IH]; done).
  split; unfold put_backs; simpl; rewrite ?Hz, ?length_replicate; try lia.
  intros _. split; [lia|]. apply Forall_replicate. by left.
Qed.

Lemma capacity_step b b' : budget_step b b' -> capacity b' = capacity b.
Proof.
  destruct 1; unfold consume_sub, put_back, replenish_start, replenish_load, replenish_cas;
    by repeat case_decide.
Qed.

Lemma budget_reachable cap n b0 b :
  budget_new cap n = Some b0 -> rtc budget_step b0 b ->
  budget_ok b /\ budget_tight n b /\ capacity b = Z.of_N cap.
Proof.
  intros Hnew Hreach. assert (capacity b0 = Z.of_N cap) as Hcap.
  { unfold budget_new in Hnew. case_decide; [|done]. by injection Hnew as <-. }
  pose proof (budget_new_ok _ _ _ Hnew) as Hok. pose proof (budget_new_tight _ _ _ Hnew) as Ht. clear Hnew.
  induction Hreach as [b|b0 b1 b Hstep _ IH]; [done|].
  apply IH; [by rewrite (capacity_step _ _ Hstep)|by eapply budget_step_ok|by eapply budget_step_tight].
Qed.

(** The budget bounds the retries of all threads together, whatever the interleaving: no more
    calls of [try_consume] return [true] than the capacity plus everything offered by
    [replenish].  The counter is never negative but for the calls about to put a token back, and
    exceeds the capacity by at most one for each other thread.  While nothing was offered no
    token is lost: the counter is exactly what is left. *)
Theorem budget_bounds_retries cap n b0 b
    (Hnew : budget_new cap n = Some b0) (Hreach : rtc budget_step b0 b) :
  (consumed b <= Z.of_N cap + offered b)%Z /\
  (0 <= tokens b + put_backs b)%Z /\
  (tokens b <= Z.of_N cap + Z.of_nat (pred n))%Z /\
  (offered b = 0%Z -> (consumed b + tokens b + put_backs b = Z.of_N cap)%Z).
Proof.
  destruct (budget_reachable cap n b0 b Hnew Hreach) as ([Hf Ha Hadds _] & [_ Hceil _ Hex] & Hcap).
  pose proof (put_backs_nonneg b). assert (0 <= sum_of still_to_add (threads b))%Z.
  { apply sum_of_nonneg. intros t Ht. by eapply Forall_forall in Hadds. }
  repeat split; lia.
Qed.

(** Two threads on one token: the second call of [try_consume] takes the counter to minus one,
    a replenishment clamps it to the capacity, and the pending restore pushes it above. *)
Definition overshoot_run : list (Budget -> Budget) :=
  [consume_sub 0; consume_sub 0; replenish_start 1 5; replenish_load 1 5;
   replenish_cas 1 5 (-1) false; put_back 0].

Definition start : Budget := mkBudget 1 1 [Idle; Idle] 0 0.

Lemma overshoot_reachable : rtc budget_step start (foldl (λ b f, f b) start overshoot_run).
Proof.
  simpl foldl.
  eapply rtc_l; [by apply (step_consume _ 0)|]. eapply rtc_l; [by apply (step_consume _ 0)|].
  eapply rtc_l; [by apply (step_replenish _ 1 5)|]. eapply rtc_l; [by apply (step_load _ 1 5)|].
  eapply rtc_l; [by apply (step_cas _ 1 5 (-1) false)|]. eapply rtc_l; [by apply (step_put_back _ 0)|].
  apply rtc_refl.
Qed.

Lemma budget_overshoots_capacity :
  exists b, budget_new 1 2 = Some start /\ rtc budget_step start b /\ tokens b = 2%Z /\ capacity b = 1%Z.
Proof. eexists. split; [done|]. split; [apply overshoot_reachable|]. split; reflexivity. Qed.

Lemma budget_bounds_retries_witness :
  let b := foldl (λ b f, f b) start overshoot_run in
  (consumed b <= 1 + offered b)%Z /\
  (0 <= tokens b + put_backs b)%Z /\
  (tokens b <= 1 + Z.of_nat (pred 2))%Z /\
  (offered b = 0%Z -> (consumed b + tokens b + put_backs b = 1)%Z).
Proof. exact (budget_bounds_retries 1 2 start _ eq_refl overshoot_reachable). Defined.
