(* ===== verification/Retry.v ===== *)
(** Retry policies: crates/pcloud-resilience/src/retry.rs.

    Durations are nanoseconds.  The exponential delay is [f64] arithmetic (Ieee); [f64::powi],
    whose precision the standard library leaves open, is the interface [Powi]. *)
From S2P Require Import Prelude Bytes Clock Ieee IeeeExact.

Class Powi : Type := powi : f64 -> Z -> f64.

(** What is used of it: a power of a number of at least one is no NaN and not negative, and
    the power zero is one. *)
Class PowiLaws `{Powi} : Prop := {
  powi_nonneg x n : canonical_f64 x -> (unit_scaled <= scaled x)%Z -> (0 <= n)%Z -> nonneg_f64 (powi x n);
  powi_zero x : canonical_f64 x -> (unit_scaled <= scaled x)%Z -> powi x 0 = f64_of_u64 1;
}.

Inductive BackoffSchedule : Type :=
| Fixed (delay : Duration)
| Exponential (base : Duration) (factor : f64) (max : Duration)
| ExponentialJittered (base : Duration) (factor : f64) (max : Duration) (seed : N).

Inductive RetryDecision : Type :=
| Retry (wait : N)
| GiveUp.

Record RetryPolicy : Type := mkPolicy {
  max_attempts : N;
  schedule : BackoffSchedule;
}.

Definition splitmix64 (x : N) : N :=
  let x := u64_wrapping_add x 0x9E3779B97F4A7C15 in
  let z := x in
  let z := u64_wrapping_mul (N.lxor z (N.shiftr z 30)) 0xBF58476D1CE4E5B9 in
  let z := u64_wrapping_mul (N.lxor z (N.shiftr z 27)) 0x94D049BB133111EB in
  N.lxor z (N.shiftr z 31).

Definition apply_equal_jitter (d seed attempt : N) : N :=
  if decide (d = 0%N) then d
  else
    let half_nanos := as_u64 (d / 2) in
    let rnd := splitmix64 (N.lxor seed (u64_wrapping_mul attempt 0x9E3779B97F4A7C15)) in
    let extra := if decide (half_nanos = 0%N) then 0%N else (rnd mod half_nanos)%N in
    u64_wrapping_add half_nanos extra.

(** [x as i32] for a [u32]. *)
Definition i32_of_u32 (n : N) : Z := if decide (n < 2 ^ 31)%N then Z.of_N n else (Z.of_N n - 2 ^ 32)%Z.

(** [Duration::new(secs, nanos)] for less than a second of nanoseconds. *)
Definition duration_new (secs nanos : N) : Duration := (secs * NANOS_PER_SEC + nanos)%N.

Section Policy.
Context {Hpowi : Powi}.

Definition exp_delay (base : Duration) (factor : f64) (max : Duration) (attempt : N) : Duration :=
  let exp := powi factor (i32_of_u32 (attempt - 1)) in
  let nanos := f64_mul (f64_of_u128 base) exp in
  if negb (is_finite nanos) || SFltb nanos f64_zero then max
  else
    let max_nanos := f64_of_u128 max in
    let clamped := f64_min nanos max_nanos in
    let as_u128 := u128_of_f64 clamped in
    duration_new (as_u64 (as_u128 / NANOS_PER_SEC)) (as_u128 mod NANOS_PER_SEC).

(** [RetryPolicy::with_clock]; [None] is the panic of an assertion. *)
Definition policy_new (max_attempts : N) (schedule : BackoffSchedule) : option RetryPolicy :=
  if decide (1 <= max_attempts)%N then
    match schedule with
    | Exponential _ factor _ | ExponentialJittered _ factor _ _ =>
        if SFleb (f64_of_u64 1) factor && is_finite factor then Some (mkPolicy max_attempts schedule) else None
    | Fixed _ => Some (mkPolicy max_attempts schedule)
    end
  else None.

Definition compute_wait (p : RetryPolicy) (attempt : N) : N :=
  match schedule p with
  | Fixed delay => delay
  | Exponential base factor max => exp_delay base factor max attempt
  | ExponentialJittered base factor max seed =>
      apply_equal_jitter (exp_delay base factor max attempt) seed attempt
  end.

Definition next_wait (p : RetryPolicy) (attempt : N) (override_wait : option N) : RetryDecision :=
  if decide (max_attempts p <= attempt)%N then GiveUp
  else Retry (default (compute_wait p attempt) override_wait).

Definition next (p : RetryPolicy) (attempt : N) : RetryDecision := next_wait p attempt None.

(** * Method-aware policies *)

Inductive RetryClass : Type :=
| Idempotent
| Mutation
| Unknown.

Record MethodRetryPolicy : Type := mkMethodPolicy {
  inner_policy : RetryPolicy;
  retry_idempotent : bool;
  retry_mutations : bool;
  retry_unknown : bool;
}.

Definition secure_default (inner : RetryPolicy) : MethodRetryPolicy :=
  mkMethodPolicy inner true false false.

Definition method_next_wait (p : MethodRetryPolicy) (class : RetryClass) (attempt : N)
    (override_wait : option N) : RetryDecision :=
  let allowed := match class with
                 | Idempotent => retry_idempotent p
                 | Mutation => retry_mutations p
                 | Unknown => retry_unknown p
                 end in
  if allowed : bool then next_wait (inner_policy p) attempt override_wait else GiveUp.

Lemma next_gives_up (p : RetryPolicy) attempt : next p attempt = GiveUp <-> (max_attempts p <= attempt)%N.
Proof. unfold next, next_wait. by case_decide. Qed.

(** Under the secure default only idempotent methods are retried, and those no more than the
    inner policy allows, whatever wait the server asks for. *)
Lemma secure_default_retries p class attempt override wait :
  method_next_wait (secure_default p) class attempt override = Retry wait ->
  class = Idempotent /\ (attempt < max_attempts p)%N /\
  wait = default (compute_wait p attempt) override.
Proof.
  unfold method_next_wait, next_wait. destruct class; simpl; [|done..].
  case_decide; [done|]. intros [= <-]. repeat split. lia.
Qed.
End Policy.

(** Equal jitter keeps at least half of the delay and never exceeds it, for every seed and
    attempt and every delay of less than 584 years. *)
Lemma jitter_bounds d seed attempt :
  (d <= U64_MAX)%N ->
  (d / 2 <= apply_equal_jitter d seed attempt)%N /\ (apply_equal_jitter d seed attempt <= d)%N.
Proof.
  intros Hd. unfold apply_equal_jitter. case_decide as H0; [subst; by vm_compute|].
  pose proof (N.div_lt_upper_bound d 2 (2 ^ 63) ltac:(done)) as Hh.
  assert (d / 2 < 2 ^ 63)%N as Hlt by (apply Hh; unfold U64_MAX in Hd; lia).
  pose proof (N.Div0.mul_div_le d 2) as H2.
  rewrite (as_u64_small (d / 2)) by (unfold U64_MAX; lia). cbv zeta.
  generalize (splitmix64 (N.lxor seed (u64_wrapping_mul attempt 0x9E3779B97F4A7C15))) as rnd. intros rnd.
  case_decide as Hz.
  - rewrite Hz. unfold u64_wrapping_add. rewrite as_u64_small by (unfold U64_MAX; lia). lia.
  - pose proof (N.mod_lt rnd (d / 2) Hz) as Hr. revert Hr Hlt H2.
    generalize (rnd mod (d / 2))%N. generalize (d / 2)%N. intros h e Hr Hlt H2. unfold u64_wrapping_add.
    rewrite as_u64_small by (unfold U64_MAX; lia). lia.
Qed.

(** * The exponential delay *)

(** A growth factor that the constructor accepts: a finite number of at least one. *)
Definition factor_ok (x : f64) : Prop := canonical_f64 x /\ (unit_scaled <= scaled x)%Z.

Lemma factor_checked x : valid_binary 53 1024 x = true ->
  SFleb (f64_of_u64 1) x && is_finite x = true -> factor_ok x.
Proof.
  intros Hv [Hl Hf]%andb_prop. assert (canonical_f64 x) as Hc.
  { destruct x as [| | |s m e]; try done. by apply bounded_pair. }
  destruct (f64_of_u64_exact_small 1) as [C1 E1]; [done|]. rewrite leb_scaled, E1 in Hl by done.
  split; [done|]. apply Z.leb_le in Hl. lia.
Qed.

Section Delays.
Context `{PowiLaws}.
#[local] Open Scope Z_scope.

(** The delay never exceeds the maximum by more than its rounding to [f64], for every base,
    factor and attempt, overflow included. *)
Lemma exp_delay_rounded base factor max attempt :
  factor_ok factor -> (attempt <= 2 ^ 31)%N -> (base < 2 ^ 100)%N -> (max < 2 ^ 100)%N ->
  Z.of_N (exp_delay base factor max attempt) * 2 ^ 52 <= (2 ^ 52 + 1) * Z.of_N max /\
  ((max < 2 ^ 53)%N -> (exp_delay base factor max attempt <= max)%N).
Proof.
  intros [Cf Sf] Ha Hb Hm. pose proof unit_scaled_pos as HU. unfold exp_delay.
  set (y := powi factor _). assert (nonneg_f64 y) as Hy.
  { apply powi_nonneg; [done..|]. unfold i32_of_u32. case_decide; lia. }
  clearbody y.
  destruct (is_finite _) eqn:Hfin; [|cbn; lia].
  destruct (f64_of_u128_bounds base Hb) as (Cb & Pb & _). destruct (f64_of_u128_bounds max Hm) as (Cm & Pm & Rm).
  destruct (mul_finite _ _ Cb Pb Hy Hfin) as [Cn Pn].
  rewrite ltb_scaled by done. rewrite (proj2 (Z.ltb_ge _ _)) by (cbn; lia). cbn [negb orb].
  destruct (min_nonneg (f64_mul (f64_of_u128 base) y) (f64_of_u128 max)) as [Cc Sc]; [by left|done|done|].
  set (clamped := f64_min _ _) in *. clearbody clamped.
  assert (duration_new (as_u64 (u128_of_f64 clamped / NANOS_PER_SEC)) (u128_of_f64 clamped mod NANOS_PER_SEC) <=
    u128_of_f64 clamped)%N as Hd.
  { unfold duration_new, as_u64. set (n := u128_of_f64 clamped).
    pose proof (N.Div0.mod_le (n / NANOS_PER_SEC) (2 ^ 64)). pose proof (N.div_mod n NANOS_PER_SEC ltac:(done)).
    assert (n / NANOS_PER_SEC mod 2 ^ 64 * NANOS_PER_SEC <= n / NANOS_PER_SEC * NANOS_PER_SEC)%N by (by apply N.mul_le_mono_r). lia. }
  split.
  - pose proof (u128_of_f64_floor clamped Cc ltac:(lia)) as Hq. set (S := scaled clamped) in *. set (M := scaled _) in Rm, Sc.
    assert (unit_scaled * (S / unit_scaled) <= S) by (apply Z.mul_div_le; done).
    set (q := S / unit_scaled) in *. assert (0 <= q) by (apply Z.div_pos; lia). 
    assert (q * 2 ^ 52 <= (2 ^ 52 + 1) * Z.of_N max).
    { apply (Z.mul_le_mono_pos_r _ _ unit_scaled HU). clearbody q S M. lia. }
    clearbody q. lia.
  - intros Hsmall. destruct (f64_of_u64_exact_small max Hsmall) as [_ E]. fold (f64_of_u128 max) in E. rewrite E in Sc.
    pose proof (u128_of_f64_upper clamped (Z.of_N max) Cc Sc). lia.
Qed.

(** The first retry waits for the base delay, or the maximum when that is shorter. *)
Lemma exp_delay_first base factor max :
  factor_ok factor -> (base < 2 ^ 53)%N -> (max < 2 ^ 53)%N -> exp_delay base factor max 1 = N.min base max.
Proof.
  intros [Cf Sf] Hb Hm. pose proof unit_scaled_pos as HU. unfold exp_delay. change (i32_of_u32 (1 - 1)) with 0.
  rewrite powi_zero by done.
  destruct (f64_of_u64_exact_small base Hb) as [Cb Eb]. destruct (f64_of_u64_exact_small max Hm) as [Cm Em].
  unfold f64_of_u128. assert (0 <= scaled (f64_of_u64 base)) as Pb by (rewrite Eb; lia). rewrite mul_one by done.
  assert (is_finite (f64_of_u64 base) = true) as -> by (by destruct (f64_of_u64 base)).
  rewrite ltb_scaled by done. rewrite (proj2 (Z.ltb_ge _ _)) by (cbn; lia). cbn [negb orb].
  assert (f64_min (f64_of_u64 base) (f64_of_u64 max) = f64_of_u64 (N.min base max)) as ->.
  { unfold f64_min. rewrite compare_scaled, Eb, Em by done. destruct (Z.compare_spec (Z.of_N base * unit_scaled) (Z.of_N max * unit_scaled)); f_equal; nia. }
  rewrite u128_of_f64_exact by lia. set (n := N.min base max). assert (n < 2 ^ 53)%N by lia.
  unfold duration_new. rewrite as_u64_small; [pose proof (N.div_mod n NANOS_PER_SEC ltac:(done)); lia|].
  apply N.le_trans with n; [apply N.Div0.div_le_upper_bound; unfold NANOS_PER_SEC; lia|].
  assert (2 ^ 53 <= U64_MAX)%N by done. lia.
Qed.

(** The longest wait of a schedule. *)
Definition schedule_cap (s : BackoffSchedule) : Duration :=
  match s with
  | Fixed delay => delay
  | Exponential _ _ max | ExponentialJittered _ _ max _ => max
  end.

(** A schedule whose delays are [Duration]s of less than 104 days and whose factor is an [f64]. *)
Definition schedule_ok (s : BackoffSchedule) : Prop :=
  match s with
  | Fixed delay => True
  | Exponential base factor max | ExponentialJittered base factor max _ =>
      (base <= DURATION_MAX)%N /\ valid_binary 53 1024 factor = true /\ (max < 2 ^ 53)%N
  end.

Lemma policy_new_ok attempts s p : policy_new attempts s = Some p -> schedule_ok s ->
  max_attempts p = attempts /\ schedule p = s /\
  match s with
  | Fixed _ => True
  | Exponential _ factor _ | ExponentialJittered _ factor _ _ => factor_ok factor
  end.
Proof.
  unfold policy_new. case_decide; [|done]. destruct s as [delay|base factor max|base factor max seed]; [by intros [= <-]|..];
    (destruct (_ && _) eqn:Hf; [|done]); intros [= <-] (_ & Hv & _); eauto using factor_checked.
Qed.

Lemma policy_delay attempts s p attempt : policy_new attempts s = Some p -> schedule_ok s -> (attempt <= 2 ^ 31)%N ->
  (compute_wait p attempt <= schedule_cap s)%N.
Proof.
  intros Hnew Hs Ha. destruct (policy_new_ok _ _ _ Hnew Hs) as (_ & Es & Hf). unfold compute_wait. rewrite Es.
  assert (DURATION_MAX < 2 ^ 100)%N as HD by reflexivity. assert (2 ^ 53 < 2 ^ 100)%N as H53 by reflexivity.
  destruct s as [delay|base factor max|base factor max seed]; cbn [schedule_cap schedule_ok] in *; [done|..];
    destruct Hs as (Hb & _ & Hm); destruct (exp_delay_rounded base factor max attempt Hf Ha) as [_ Hle]; [lia..| |lia|lia|];
    specialize (Hle Hm); [done|].
  assert (2 ^ 53 <= U64_MAX)%N by done. destruct (jitter_bounds (exp_delay base factor max attempt) seed attempt); lia.
Qed.
End Delays.

(** For every schedule that the constructor accepts and whatever the precision of [powi], a
    policy retries exactly while the attempts are fewer than [max_attempts], no computed wait is
    longer than the schedule's maximum, and the first exponential delay is the base. *)
Theorem retry_policy_spec `{PowiLaws} attempts s p attempt
  (Hnew : policy_new attempts s = Some p) (Hs : schedule_ok s) (Ha : (attempt <= 2 ^ 31)%N) :
  (next p attempt = GiveUp <-> (attempts <= attempt)%N) /\
  (forall wait, next p attempt = Retry wait -> (wait <= schedule_cap s)%N) /\
  (forall server_wait, (attempt < attempts)%N -> next_wait p attempt (Some server_wait) = Retry server_wait) /\
  match s with
  | Exponential base _ max => (1 < attempts)%N -> (base < 2 ^ 53)%N -> next p 1 = Retry (N.min base max)
  | _ => True
  end.
Proof.
  destruct (policy_new_ok _ _ _ Hnew Hs) as (Em & Es & Hf). split; [|split; [|split]].
  - rewrite next_gives_up. by rewrite Em.
  - intros wait. unfold next, next_wait. case_decide; [done|]. intros [= <-]. by apply (policy_delay attempts).
  - intros server_wait Hlt. unfold next_wait. rewrite Em. by rewrite decide_False by lia.
  - destruct s as [|base factor max|]; [done| |done]. intros H1 Hb. unfold next, next_wait. rewrite Em.
    rewrite decide_False by lia. unfold compute_wait. rewrite Es. cbn [default]. destruct Hs as (_ & _ & Hm).
    by rewrite exp_delay_first.
Qed.

(** Powers by repeated multiplication. *)
Fixpoint power (x : f64) (n : nat) : f64 :=
  match n with O => f64_of_u64 1 | S n => f64_mul x (power x n) end.
Definition powi_by_products : Powi := λ x n, if (0 <=? n)%Z then power x (Z.to_nat n) else f64_div (f64_of_u64 1) (power x (Z.to_nat (- n))).

(** The first output of the published SplitMix64 generator from the state 0. *)
Example splitmix64_zero : splitmix64 0 = 0xE220A8397B1DCDAF%N.
Proof. vm_compute. reflexivity. Qed.

#[local] Existing Instance powi_by_products.

#[local] Instance powi_by_products_laws : PowiLaws.
Proof.
  split; [|done]. intros x n Cx Sx Hn. unfold powi, powi_by_products. rewrite (proj2 (Z.leb_le 0 n) Hn).
  induction (Z.to_nat n) as [|k IH]; [by left; split; [vm_compute|vm_compute]|]. cbn [power].
  pose proof unit_scaled_pos. destruct IH as [[C S]|E]; [apply mul_nonneg; lia || done|].
  rewrite E. right. destruct x as [s|s| |s m e]; try done; cbn in Sx; try lia.
  by rewrite (canonical_sign s m e) by (done || cbn; lia).
Qed.

(** The schedule of the defaults: 100 ms, doubled up to five seconds, with jitter. *)
Definition default_schedule : BackoffSchedule :=
  ExponentialJittered 100000000 (f64_of_u64 2) 5000000000 0x00C0FFEEF00D.

Example doubling : map (λ a, exp_delay 10000000 (f64_of_u64 2) 80000000 a) [1; 2; 3; 4; 5]%N =
  [10000000; 20000000; 40000000; 80000000; 80000000]%N.
Proof. vm_compute. reflexivity. Qed.

Lemma default_schedule_ok : schedule_ok default_schedule.
Proof. repeat split; vm_compute; congruence. Qed.

Lemma retry_policy_spec_witness :
  let p := mkPolicy 3 default_schedule in
  (next p 2 = GiveUp <-> (3 <= 2)%N) /\ (forall wait, next p 2 = Retry wait -> (wait <= 5000000000)%N).
Proof.
  assert (2 <= 2 ^ 31)%N as Ha by (vm_compute; congruence).
  destruct (retry_policy_spec 3 default_schedule (mkPolicy 3 default_schedule) 2 eq_refl default_schedule_ok Ha) as (H1 & H2 & _).
  exact (conj H1 H2).
Defined.
