(* ===== verification/ResilientTransport.v ===== *)
(** Rate limit, circuit breaker, retries and the shared retry budget around a transport:
    crates/pcloud-proto/src/resilient_transport.rs, with the policy of
    crates/pcloud-config/src/resilience.rs.

    The transport is shared by threads.  [execute] is a program ([Prog]) whose atomic operations
    ([Op]) are the critical sections of the bucket, the breaker and the budget, the call of the
    inner transport and the waits; a [Pool] runs any number of calls of any threads interleaved
    in any order, under any clock and any answers of the inner transport.  Labels and metrics
    are not modelled. *)
From stdpp Require Import relations.
From S2P Require Import Prelude Paths Bytes BinaryApi Response Clock Ieee IeeeExact Budget Breaker RateLimit Retry.

Inductive ErrorClass : Type :=
| Transient
| Permanent.

#[export] Instance ErrorClass_eq_dec : EqDecision ErrorClass.
Proof. solve_decision. Defined.

Inductive ResilientError (TE : Type) : Type :=
| CircuitOpen
| ProbeInFlight
| RateLimited
| RateLimitConfig (e : RateLimitError)
| Inner (e : TE)
| BudgetExhausted.
Arguments CircuitOpen {TE}.
Arguments ProbeInFlight {TE}.
Arguments RateLimited {TE}.
Arguments RateLimitConfig {TE} e.
Arguments Inner {TE} e.
Arguments BudgetExhausted {TE}.

Inductive RateLimitMode : Type :=
| Shed
| Wait.

(** * The policy *)

Record ResiliencePolicy : Type := mkResiliencePolicy {
  enabled : bool;
  rate_limit_capacity : N;
  rate_limit_refill_per_sec : f64;
  breaker_failure_threshold : N;
  breaker_reset_timeout_ms : N;
  retry_max_attempts : N;
  retry_base_delay_ms : N;
  retry_factor : f64;
  retry_max_delay_ms : N;
  retry_jitter_seed : N;
}.

Definition secure_defaults : ResiliencePolicy :=
  mkResiliencePolicy true 16 (f64_of_u64 8) 5 30000 3 100 (f64_of_u64 2) 5000 0x00C0FFEEF00D.

(** [Duration::from_millis]. *)
Definition from_millis (ms : N) : Duration := (ms * 1000000)%N.

Definition breaker_reset_timeout (p : ResiliencePolicy) : Duration := from_millis (breaker_reset_timeout_ms p).
Definition retry_base_delay (p : ResiliencePolicy) : Duration := from_millis (retry_base_delay_ms p).
Definition retry_max_delay (p : ResiliencePolicy) : Duration := from_millis (retry_max_delay_ms p).

(** * Programs over the shared state *)

Section Programs.
Context {TE : Type}.

(** The atomic operations, by the type of their result.  [Take] gives [None] when the bucket's
    conversion to a [Duration] panics. *)
Inductive Op : Type -> Type :=
| TryTake (n : N) : Op (result bool RateLimitError)
| Take (n : N) : Op (result (option Duration) RateLimitError)
| Sleep (d : Duration) : Op unit
| Admit : Op (result unit CircuitBreakerError)
| CallInner : Op (result Value TE)
| RecordSuccess : Op unit
| RecordFailure : Op unit
| TryConsume : Op bool
| Replenish (n : N) : Op unit.

Inductive Prog (A : Type) : Type :=
| Ret (a : A)
| Panics
| OutOfFuel
| Do {B : Type} (o : Op B) (k : B -> Prog A).
End Programs.
Arguments Op TE : clear implicits.
Arguments Prog TE A : clear implicits.
Arguments Ret {TE A} a.
Arguments Panics {TE A}.
Arguments OutOfFuel {TE A}.
Arguments Do {TE A B} o k.

Declare Scope prog_scope.
Notation "'let*' x ':=' o 'in' k" := (Do o (fun x => k))
  (at level 200, x pattern, o at level 100, k at level 200, right associativity) : prog_scope.
#[local] Open Scope prog_scope.

(** * The transport *)

(** What a transport is built with; its inner transport and its clock are the pool's. *)
Record ResilientTransport (TE : Type) : Type := mkTransport {
  bucket_cfg : TokenBucketConfig;
  breaker_cfg : CircuitBreakerConfig;
  retry : RetryPolicy;
  classifier : TE -> ErrorClass;
  rate_mode : RateLimitMode;
  has_budget : bool;
}.
Arguments mkTransport {TE}.
Arguments bucket_cfg {TE}.
Arguments breaker_cfg {TE}.
Arguments retry {TE}.
Arguments classifier {TE}.
Arguments rate_mode {TE}.
Arguments has_budget {TE}.

(** [ResilientTransport::build]; [None] is the panic of an assertion of the breaker's or the retry
    policy's constructor. *)
Definition build {TE} (policy : ResiliencePolicy) (classifier : TE -> ErrorClass) (rate_mode : RateLimitMode)
    (budget : bool) : option (result (ResilientTransport TE) RateLimitError) :=
  match bucket_config_new (rate_limit_capacity policy) (rate_limit_refill_per_sec policy) with
  | Err e => Some (Err e)
  | Ok bucket_cfg =>
      match config_new (breaker_failure_threshold policy) (breaker_reset_timeout policy) with
      | None => None
      | Some breaker_cfg =>
          let schedule := ExponentialJittered (retry_base_delay policy) (retry_factor policy)
                            (retry_max_delay policy) (retry_jitter_seed policy) in
          match policy_new (retry_max_attempts policy) schedule with
          | None => None
          | Some retry => Some (Ok (mkTransport bucket_cfg breaker_cfg retry classifier rate_mode budget))
          end
      end
  end.

Definition default_classifier {TE} : TE -> ErrorClass := λ _, Permanent.

Definition from_policy {TE} (policy : ResiliencePolicy) := build (TE := TE) policy default_classifier Wait false.

(** [TransportError] of crates/pcloud-proto/src/transport.rs; an [io::Error] is its kind, and the
    errors of rustls are a parameter. *)
Inductive IoErrorKind : Type :=
| TimedOut
| ConnectionReset
| BrokenPipe
| ConnectionAborted
| Interrupted
| WouldBlock
| OtherKind (kind : string).

Inductive TransportError (TlsError : Type) : Type :=
| InvalidAddress (host : list byte) (port : N)
| Connect (e : IoErrorKind)
| SocketConfig (e : IoErrorKind)
| Io (e : IoErrorKind)
| Tls (e : TlsError)
| InvalidServerName (name : list byte)
| ResponseHeader (e : FrameParseError)
| ResponseBody (e : ResponseParseError)
| ResponseTooLargeErr (actual limit : N).
Arguments InvalidAddress {TlsError}.
Arguments Connect {TlsError}.
Arguments SocketConfig {TlsError}.
Arguments Io {TlsError}.
Arguments Tls {TlsError}.
Arguments InvalidServerName {TlsError}.
Arguments ResponseHeader {TlsError}.
Arguments ResponseBody {TlsError}.
Arguments ResponseTooLargeErr {TlsError}.

Definition transport_error_classifier {TlsError} (err : TransportError TlsError) : ErrorClass :=
  match err with
  | InvalidAddress _ _ | InvalidServerName _ | Tls _ | SocketConfig _ | ResponseTooLargeErr _ _
  | ResponseHeader _ | ResponseBody _ => Permanent
  | Io (TimedOut | ConnectionReset | BrokenPipe | ConnectionAborted | Interrupted | WouldBlock) => Transient
  | Io _ => Permanent
  | Connect _ => Transient
  end.

(** The upload commands, which the transport never repeats. *)
Definition is_upload_mutation (request : EncodedRequest) : bool :=
  bool_decide (frame_command (req_frame request) = chars "upload_write" \/
    frame_command (req_frame request) = chars "upload_writefromfile" \/
    frame_command (req_frame request) = chars "upload_save").

Section Transport.
Context {TE : Type} `{Powi} (t : ResilientTransport TE) (request : EncodedRequest).

Abbreviation Outcome := (result Value (ResilientError TE)).

(** The loop of [execute]: [continue attempt] is its [continue].  The inner call failed. *)
Definition after_failure (continue : N -> Prog TE Outcome) (attempt : N) (err : TE) : Prog TE Outcome :=
  let* _ := RecordFailure in
  match classifier t err with
  | Permanent => Ret (Err (Inner err))
  | Transient =>
      if is_upload_mutation request then Ret (Err (Inner err))
      else
        match next (retry t) attempt with
        | Retry wait =>
            let again := if decide (wait = 0%N) then continue attempt
                         else let* _ := Sleep wait in continue attempt in
            if has_budget t then
              let* granted := TryConsume in
              if granted : bool then again else Ret (Err BudgetExhausted)
            else again
        | GiveUp => Ret (Err (Inner err))
        end
  end.

(** Admission by the breaker and the inner call. *)
Definition admission (continue : N -> Prog TE Outcome) (attempt : N) : Prog TE Outcome :=
  let* admitted := Admit in
  match admitted with
  | Err ErrOpen => Ret (Err CircuitOpen)
  | Err ErrProbeInFlight => Ret (Err ProbeInFlight)
  | Ok _ =>
      let* answer := CallInner in
      match answer with
      | Ok v =>
          let* _ := RecordSuccess in
          if has_budget t then let* _ := Replenish 1 in Ret (Ok v) else Ret (Ok v)
      | Err err => after_failure continue attempt err
      end
  end.

Definition execute_round (continue : N -> Prog TE Outcome) (attempt : N) : Prog TE Outcome :=
  let attempt := u32_saturating_add attempt 1 in
  match rate_mode t with
  | Shed =>
      let* taken := TryTake 1 in
      match taken with
      | Err e => Ret (Err (RateLimitConfig e))
      | Ok false => Ret (Err RateLimited)
      | Ok true => admission continue attempt
      end
  | Wait =>
      let* taken := Take 1 in
      match taken with
      | Err e => Ret (Err (RateLimitConfig e))
      | Ok None => Panics
      | Ok (Some wait) =>
          if decide (wait = 0%N) then admission continue attempt
          else let* _ := Sleep wait in admission continue attempt
      end
  end.

Fixpoint execute_loop (fuel : nat) (attempt : N) : Prog TE Outcome :=
  match fuel with
  | O => OutOfFuel
  | S fuel => execute_round (execute_loop fuel) attempt
  end.

(** The fuel is the greatest number of attempts. *)
Definition execute : Prog TE Outcome := execute_loop (N.to_nat (max_attempts (retry t))) 0.
End Transport.

(** * Threads *)

(** What a call did so far: the answers of the inner transport, the last one first, whether it
    holds a token of the bucket or the breaker's admission, how often it took from the budget,
    and whether it gave back. *)
Record History (TE : Type) : Type := mkHistory {
  answers : list (result Value TE);
  holds_token : bool;
  admitted : bool;
  paid : nat;
  rewarded : bool;
}.
Arguments mkHistory {TE}.
Arguments answers {TE}.
Arguments holds_token {TE}.
Arguments admitted {TE}.
Arguments paid {TE}.
Arguments rewarded {TE}.

Section Pool.
Context {TE : Type} `{Powi} (t : ResilientTransport TE).

Abbreviation Outcome := (result Value (ResilientError TE)).

Definition fresh_history : History TE := mkHistory [] false false 0 false.

Definition track {B} (h : History TE) (o : Op TE B) : B -> History TE :=
  match o in Op _ B return B -> History TE with
  | TryTake _ => λ b, match b with
                      | Ok true => mkHistory (answers h) true (admitted h) (paid h) (rewarded h)
                      | _ => h
                      end
  | Take _ => λ b, match b with
                   | Ok _ => mkHistory (answers h) true (admitted h) (paid h) (rewarded h)
                   | _ => h
                   end
  | Admit => λ b, match b with
                  | Ok _ => mkHistory (answers h) (holds_token h) true (paid h) (rewarded h)
                  | _ => h
                  end
  | CallInner => λ b, mkHistory (b :: answers h) false (admitted h) (paid h) (rewarded h)
  | RecordSuccess | RecordFailure => λ _, mkHistory (answers h) (holds_token h) false (paid h) (rewarded h)
  | TryConsume => λ b, if b then mkHistory (answers h) (holds_token h) (admitted h) (S (paid h)) (rewarded h) else h
  | Replenish _ => λ _, mkHistory (answers h) (holds_token h) (admitted h) (paid h) true
  | Sleep _ => λ _, h
  end.

Record Call : Type := mkCall {
  request : EncodedRequest;
  prog : Prog TE Outcome;
  wake : Instant;
  history : History TE;
}.

(** The shared state, the call each thread is in (or was in last), and counts of the calls begun,
    the answers of the inner transport and its successes. *)
Record Pool : Type := mkPool {
  clock : Instant;
  bucket : BucketState;
  breaker : Breaker.Inner;
  budget : Budget;
  calls : list (option Call);
  begun : nat;
  answered : nat;
  succeeded : nat;
}.

Definition pool_new (budget : Budget) (now : Instant) : Pool :=
  mkPool now (bucket_new (bucket_cfg t) now) with_clock budget (replicate (length (threads budget)) None) 0 0 0.

Definition with_bucket (b : BucketState) (p : Pool) : Pool :=
  mkPool (clock p) b (breaker p) (budget p) (calls p) (begun p) (answered p) (succeeded p).
Definition with_breaker (g : Breaker.Inner) (p : Pool) : Pool :=
  mkPool (clock p) (bucket p) g (budget p) (calls p) (begun p) (answered p) (succeeded p).
Definition with_budget (b : Budget) (p : Pool) : Pool :=
  mkPool (clock p) (bucket p) (breaker p) b (calls p) (begun p) (answered p) (succeeded p).
Definition with_call (i : nat) (c : Call) (p : Pool) : Pool :=
  mkPool (clock p) (bucket p) (breaker p) (budget p) (<[i := Some c]> (calls p)) (begun p) (answered p) (succeeded p).

(** One atomic operation of thread [i]; a positive duration is a wait that follows it. *)
Definition run_op (i : nat) {B} (o : Op TE B) (p : Pool) : option (B * Pool * Duration) :=
  match o in Op _ B return option (B * Pool * Duration) with
  | TryTake n =>
      let '(r, b) := bucket_try_acquire (bucket_cfg t) (clock p) n (bucket p) in Some (r, with_bucket b p, 0%N)
  | Take n =>
      let '(r, b) := bucket_acquire (bucket_cfg t) (clock p) n (bucket p) in Some (r, with_bucket b p, 0%N)
  | Sleep d => Some (tt, p, d)
  | Admit => let '(r, g) := try_acquire (breaker_cfg t) (clock p) (breaker p) in Some (r, with_breaker g p, 0%N)
  | CallInner => None
  | RecordSuccess => Some (tt, with_breaker (record_success (breaker p)) p, 0%N)
  | RecordFailure => Some (tt, with_breaker (record_failure (breaker_cfg t) (clock p) (breaker p)) p, 0%N)
  | TryConsume =>
      Some (bool_decide (0 < Budget.tokens (budget p))%Z, with_budget (consume_sub i (budget p)) p, 0%N)
  | Replenish n => Some (tt, with_budget (replenish_start i n (budget p)) p, 0%N)
  end.

(** The rest of a call of the budget that thread [i] is in. *)
Definition budget_rest (i : nat) (spurious : bool) (b : Budget) : option Budget :=
  match threads b !! i with
  | Some PutBack => Some (put_back i b)
  | Some (AtLoad add) => Some (replenish_load i add b)
  | Some (AtCas add current) => Some (replenish_cas i add current spurious b)
  | _ => None
  end.

Definition proceed {B} (i : nat) (c : Call) (o : Op TE B) (k : B -> Prog TE Outcome) (b : B) (d : Duration)
    (p : Pool) : Pool :=
  with_call i (mkCall (request c) (k b) (clock p + d) (track (history c) o b)) p.

Inductive pool_event : Type :=
| Advance (d : Duration)
| Begin (i : nat) (req : EncodedRequest)
| Step (i : nat) (spurious : bool)
| Answer (i : nat) (r : result Value TE)
| InnerPanics (i : nat).

Definition can_begin (c : option Call) : bool :=
  match c with
  | None => true
  | Some c => match prog c with Ret _ => true | _ => false end
  end.

(** A step; an event that is not possible changes nothing. *)
Definition pool_step (p : Pool) (ev : pool_event) : Pool :=
  match ev with
  | Advance d => mkPool (clock p + d) (bucket p) (breaker p) (budget p) (calls p) (begun p) (answered p) (succeeded p)
  | Begin i req =>
      match calls p !! i, threads (budget p) !! i with
      | Some c, Some Idle =>
          if can_begin c then
            let c := mkCall req (execute t req) (clock p) fresh_history in
            mkPool (clock p) (bucket p) (breaker p) (budget p) (<[i := Some c]> (calls p)) (S (begun p))
              (answered p) (succeeded p)
          else p
      | _, _ => p
      end
  | Step i spurious =>
      match budget_rest i spurious (budget p) with
      | Some b => with_budget b p
      | None =>
          match calls p !! i with
          | Some (Some c) =>
              if decide (wake c <= clock p)%N then
                match prog c with
                | Do o k => match run_op i o p with Some (b, p', d) => proceed i c o k b d p' | None => p end
                | _ => p
                end
              else p
          | _ => p
          end
      end
  | Answer i r =>
      match calls p !! i with
      | Some (Some c) =>
          match prog c with
          | Do o k =>
              match o in Op _ B return (B -> Prog TE Outcome) -> Pool with
              | CallInner => λ k,
                  let p := mkPool (clock p) (bucket p) (breaker p) (budget p) (calls p) (begun p)
                             (S (answered p)) (succeeded p + (if is_ok r then 1 else 0)) in
                  proceed i c CallInner k r 0 p
              | _ => λ _, p
              end k
          | _ => p
          end
      | _ => p
      end
  | InnerPanics i =>
      match calls p !! i with
      | Some (Some c) =>
          match prog c with
          | Do CallInner _ => with_call i (mkCall (request c) Panics (wake c) (history c)) p
          | _ => p
          end
      | _ => p
      end
  end.

Definition pool_run (p : Pool) (evs : list pool_event) : Pool := foldl pool_step p evs.
End Pool.
