(* ===== verification/TransportRuns.v ===== *)
(** The resilient transport in use: what every call does to the inner transport, the breaker, the
    bucket and the budget, over all runs of any number of threads.

    [follows] is the protocol of one call, a specification over its program; [execute] follows it.
    The theorems about a [Pool] are proved from the protocol and the shared components' own. *)
From stdpp Require Import relations.
From S2P Require Import Prelude Paths Bytes BinaryApi Response Clock Ieee IeeeExact Budget Breaker RateLimit Retry ResilientTransport.

(** * The protocol of a call *)

Section Protocol.
Context {TE : Type} (t : ResilientTransport TE) (req : EncodedRequest).

Abbreviation Outcome := (result Value (ResilientError TE)).

(** The calls of the inner transport that one request may cost. *)
Definition attempt_limit : nat := if is_upload_mutation req then 1 else N.to_nat (max_attempts (retry t)).

Definition transient_failure (a : result Value TE) : Prop := exists e, a = Err e /\ classifier t e = Transient.

(** When an operation may come, by the history of the call. *)
Definition allowed {B} (h : History TE) (o : Op TE B) : Prop :=
  match o with
  | TryTake n => n = 1%N /\ rate_mode t = Shed /\ holds_token h = false
  | Take n => n = 1%N /\ rate_mode t = Wait /\ holds_token h = false
  | Sleep _ => True
  | Admit => admitted h = false /\ holds_token h = true
  | CallInner =>
      admitted h = true /\ holds_token h = true /\ Forall transient_failure (answers h) /\
      length (answers h) < attempt_limit /\ (has_budget t = true -> paid h = length (answers h))
  | RecordSuccess => admitted h = true /\ exists v, head (answers h) = Some (Ok v)
  | RecordFailure => admitted h = true /\ exists e, head (answers h) = Some (Err e)
  | TryConsume => has_budget t = true /\ S (paid h) = length (answers h)
  | Replenish n => n = 1%N /\ rewarded h = false /\ exists v, head (answers h) = Some (Ok v)
  end.

(** What is known of a result: the bucket refuses no request within its capacity. *)
Definition possible {B} (o : Op TE B) : B -> Prop :=
  match o in Op _ B return B -> Prop with
  | TryTake n => λ b, forall e, b = Err e -> (capacity (bucket_cfg t) < n)%N
  | Take n => λ b, forall e, b = Err e -> (capacity (bucket_cfg t) < n)%N
  | _ => λ _, True
  end.

(** The end of a call: what was returned, by the answers of the inner transport. *)
Definition settled (h : History TE) (r : Outcome) : Prop :=
  admitted h = false /\
  match r with
  | Ok v => exists before, answers h = Ok v :: before /\ Forall transient_failure before
  | Err (Inner e) =>
      exists before, answers h = Err e :: before /\ Forall transient_failure before /\
        (classifier t e = Permanent \/ length (answers h) = attempt_limit)
  | Err BudgetExhausted =>
      has_budget t = true /\ answers h <> [] /\ Forall transient_failure (answers h) /\
      length (answers h) < attempt_limit
  | Err CircuitOpen | Err ProbeInFlight =>
      Forall transient_failure (answers h) /\ length (answers h) < attempt_limit
  | Err RateLimited =>
      rate_mode t = Shed /\ Forall transient_failure (answers h) /\ length (answers h) < attempt_limit
  | Err (RateLimitConfig _) => False
  end.

Fixpoint follows (h : History TE) (p : Prog TE Outcome) : Prop :=
  match p with
  | Ret r => settled h r
  | Panics => admitted h = false
  | OutOfFuel => False
  | Do o k => allowed h o /\ forall b, possible o b -> follows (track h o b) (k b)
  end.
End Protocol.

Section Execute.
Context {TE : Type} `{Powi} (t : ResilientTransport TE) (req : EncodedRequest).
Hypothesis capacity_pos : (1 <= capacity (bucket_cfg t))%N.
Hypothesis attempts_pos : (1 <= max_attempts (retry t) <= U32_MAX)%N.

(** The start of a round: nothing is held and all answers so far were transient failures. *)
Record round_start (h : History TE) (attempt : N) : Prop := {
  rs_count : length (answers h) = N.to_nat attempt;
  rs_retry : Forall (transient_failure t) (answers h);
  rs_token : holds_token h = false;
  rs_admitted : admitted h = false;
  rs_paid : has_budget t = true -> paid h = length (answers h);
  rs_rewarded : rewarded h = false;
  rs_upload : is_upload_mutation req = true -> attempt = 0%N;
}.

Lemma attempt_limit_pos : 1 <= attempt_limit t req.
Proof. unfold attempt_limit. destruct (is_upload_mutation req); lia. Qed.

Lemma round_start_limit h attempt : round_start h attempt -> (attempt < max_attempts (retry t))%N ->
  length (answers h) < attempt_limit t req.
Proof.
  intros Hs Ha. rewrite (rs_count _ _ Hs). unfold attempt_limit. destruct (is_upload_mutation req) eqn:Hu; [|lia].
  rewrite (rs_upload _ _ Hs Hu). lia.
Qed.

(** The state after the token was taken, before the admission. *)
Lemma admission_follows continue attempt h :
  round_start h attempt -> (attempt < max_attempts (retry t))%N ->
  (forall h', round_start h' (attempt + 1) -> (attempt + 1 < max_attempts (retry t))%N ->
    follows t req h' (continue (attempt + 1)%N)) ->
  follows t req (mkHistory (answers h) true (admitted h) (paid h) (rewarded h)) (admission t req continue (attempt + 1)).
Proof.
  intros Hs Ha Hcont. pose proof (round_start_limit h attempt Hs Ha) as Hlim.
  destruct Hs as [Hcount Hretry Htok Hadm Hpaid Hrew Hup]. destruct h as [ans tok adm pd rw]. cbn in *. subst tok adm rw.
  split; [done|]. intros [[]|[]] _; cbn; [|by repeat split..].
  split; [done|]. intros [v|err] _; cbn.
  - split; [by eauto|]. intros _ _. assert (settled t req (mkHistory (Ok v :: ans) false false pd false) (Ok v)) by (split; eauto).
    destruct (has_budget t); cbn; [|done]. split; [by eauto|]. intros _ _. by split; eauto.
  - split; [by eauto|]. intros _ _. destruct (classifier t err) eqn:Hc; cbn; [|by split; eauto 10].
    destruct (is_upload_mutation req) eqn:Hu.
    { split; [done|]. exists ans. repeat split; [done|]. right. cbn. rewrite (Hup eq_refl) in Hcount. rewrite Hcount.
      unfold attempt_limit. by rewrite Hu. }
    assert (transient_failure t (Err err)) as Herr by (by exists err).
    destruct (next (retry t) (attempt + 1)) as [wait|] eqn:Hn.
    2: { split; [done|]. exists ans. repeat split; [done|]. right. apply next_gives_up in Hn. cbn.
         unfold attempt_limit in *. rewrite Hu in *. lia. }
    assert (attempt + 1 < max_attempts (retry t))%N as Hlt.
    { apply N.nle_gt. rewrite <- next_gives_up. by rewrite Hn. }
    assert (forall pd', (has_budget t = true -> pd' = S (length ans)) ->
      follows t req (mkHistory (Err err :: ans) false false pd' false)
        (if decide (wait = 0%N) then continue (attempt + 1)%N else Do (Sleep wait) (λ _, continue (attempt + 1)%N))) as Hagain.
    { intros pd' Hpd. assert (follows t req (mkHistory (Err err :: ans) false false pd' false) (continue (attempt + 1)%N)) as Hk.
      { apply Hcont; [|done]. split; cbn; [lia|by constructor|done|done|done|done|]. by rewrite Hu. }
      case_decide; [done|]. by split. }
    destruct (has_budget t) eqn:Hbud; [|by apply Hagain].
    split; [cbn; split; [done|]; by rewrite Hpaid|]. intros [] _; cbn.
    + apply Hagain. intros _. by rewrite Hpaid.
    + split; [done|]. split; [done|]. split; [done|]. split; [by constructor|]. cbn. unfold attempt_limit in *. rewrite Hu in *. lia.
Qed.

Lemma round_follows continue attempt h :
  round_start h attempt -> (attempt < max_attempts (retry t))%N ->
  (forall h', round_start h' (attempt + 1) -> (attempt + 1 < max_attempts (retry t))%N ->
    follows t req h' (continue (attempt + 1)%N)) ->
  follows t req h (execute_round t req continue attempt).
Proof.
  intros Hs Ha Hcont. pose proof (admission_follows continue attempt h Hs Ha Hcont) as Hadm.
  pose proof (round_start_limit h attempt Hs Ha) as Hlim. unfold execute_round.
  assert (u32_saturating_add attempt 1 = attempt + 1)%N as -> by (unfold u32_saturating_add; lia).
  destruct Hs as [Hcount Hretry Htok Had Hpaid Hrew Hup].
  destruct (rate_mode t) eqn:Hm; (split; [done|]).
  - intros [[|]|e] He; cbn in *; [done|by repeat split|]. specialize (He e eq_refl). lia.
  - intros [[wait|]|e] He; cbn in *; [|done|specialize (He e eq_refl); lia]. case_decide; [done|]. by split.
Qed.

Lemma loop_follows fuel attempt h :
  round_start h attempt -> (attempt < max_attempts (retry t))%N -> N.of_nat fuel = (max_attempts (retry t) - attempt)%N ->
  follows t req h (execute_loop t req fuel attempt).
Proof.
  revert attempt h. induction fuel as [|fuel IH]; intros attempt h Hs Ha Hf; [lia|].
  cbn [execute_loop]. apply round_follows; [done..|]. intros h' Hs' Ha'. apply IH; [done|done|lia].
Qed.

(** [execute] follows the protocol, and its fuel is enough. *)
Lemma execute_follows : follows t req fresh_history (execute t req).
Proof. apply loop_follows; [|lia|lia]. by split. Qed.
End Execute.

(** * Steps of the pool *)

Section Steps.
Context {TE : Type} `{Powi} (t : ResilientTransport TE).

Abbreviation Pool := (@Pool TE).
Abbreviation Call := (@Call TE).

(** What a step can be; everything else changes nothing. *)
Inductive moved (p : Pool) : Pool -> Prop :=
| moved_clock d : moved p (pool_step t p (Advance d))
| moved_begin i c req :
    calls p !! i = Some c -> threads (budget p) !! i = Some Idle -> can_begin c = true ->
    moved p (mkPool (clock p) (bucket p) (breaker p) (budget p)
      (<[i := Some (mkCall req (execute t req) (clock p) fresh_history)]> (calls p)) (S (begun p)) (answered p) (succeeded p))
| moved_budget b :
    budget_step (budget p) b -> consumed b = consumed (budget p) -> offered b = offered (budget p) ->
    length (threads b) = length (threads (budget p)) -> moved p (with_budget b p)
| moved_op i c {B} (o : Op TE B) k b p' d :
    calls p !! i = Some (Some c) -> prog c = Do o k ->
    (length (threads (budget p)) = length (calls p) -> threads (budget p) !! i = Some Idle) ->
    run_op t i o p = Some (b, p', d) ->
    moved p (proceed i c o k b d p')
| moved_answer i c k r :
    calls p !! i = Some (Some c) -> prog c = Do CallInner k ->
    moved p (proceed i c CallInner k r 0
      (mkPool (clock p) (bucket p) (breaker p) (budget p) (calls p) (begun p) (S (answered p))
        (succeeded p + (if is_ok r then 1 else 0))))
| moved_panic i c k :
    calls p !! i = Some (Some c) -> prog c = Do CallInner k ->
    moved p (with_call i (mkCall (request c) Panics (wake c) (history c)) p).

Lemma budget_rest_some i s b b' : budget_rest i s b = Some b' ->
  budget_step b b' /\ consumed b' = consumed b /\ offered b' = offered b /\ length (threads b') = length (threads b).
Proof.
  unfold budget_rest. destruct (threads b !! i) as [[| |add|add current]|] eqn:Hi; intros [= <-].
  - split; [by constructor|]. cbn. by rewrite length_insert.
  - split; [by constructor|]. cbn. by rewrite length_insert.
  - split; [by constructor|]. unfold replenish_cas. case_decide; cbn; by rewrite length_insert.
Qed.

Lemma budget_rest_none i s b : budget_rest i s b = None -> i < length (threads b) -> threads b !! i = Some Idle.
Proof. unfold budget_rest. intros Hn [x Hx]%lookup_lt_is_Some_2. rewrite Hx in *. by destruct x. Qed.

Lemma pool_step_moved p ev : pool_step t p ev = p \/ moved p (pool_step t p ev).
Proof.
  destruct ev as [d|i req|i s|i r|i]; [right; constructor|..]; cbn [pool_step].
  - destruct (calls p !! i) as [c|] eqn:Hc; [|by left]. destruct (threads _ !! i) as [[]|] eqn:Ht; try by left.
    destruct (can_begin c) eqn:Hb; [|by left]. right. by eapply moved_begin.
  - destruct (budget_rest i s (budget p)) as [b|] eqn:Hb.
    { right. apply budget_rest_some in Hb as (H1 & H2 & H3 & H4). by constructor. }
    destruct (calls p !! i) as [[c|]|] eqn:Hc; try by left. case_decide; [|by left].
    destruct (prog c) as [| | |B o k] eqn:Hp; try by left.
    destruct (run_op t i o p) as [[[b p'] d]|] eqn:Hr; [|by left]. right. eapply moved_op; [done..| |done].
    intros Hlen. eapply budget_rest_none; [done|]. rewrite Hlen. by eapply lookup_lt_Some.
  - destruct (calls p !! i) as [[c|]|] eqn:Hc; try by left.
    destruct (prog c) as [| | |B o k] eqn:Hp; try by left.
    destruct o; try by left. right. by apply moved_answer.
  - destruct (calls p !! i) as [[c|]|] eqn:Hc; try by left.
    destruct (prog c) as [| | |B o k] eqn:Hp; try by left.
    destruct o; try by left. right. by eapply moved_panic.
Qed.

(** Invariants of runs, by the steps that are possible. *)
Lemma pool_run_invariant (I : nat -> Pool -> Prop) p evs n :
  (forall n p, I n p -> I (S n) p) -> (forall n p p', I n p -> moved p p' -> I (S n) p') ->
  I n p -> I (length evs + n) (pool_run t p evs).
Proof.
  intros Hweak Hstep. revert n p. induction evs as [|ev evs IH]; intros n p Hp; [done|].
  cbn [length pool_run foldl]. replace (S (length evs) + n) with (length evs + S n) by lia. apply IH.
  destruct (pool_step_moved p ev) as [->|Hm]; eauto.
Qed.

(** * Every call follows the protocol *)

Hypothesis capacity_pos : (1 <= capacity (bucket_cfg t))%N.
Hypothesis attempts_pos : (1 <= max_attempts (retry t) <= U32_MAX)%N.
Context (b0 : Budget).

Definition call_ok (c : Call) : Prop :=
  (length (answers (history c)) <= attempt_limit t (request c) /\ Forall (transient_failure t) (tail (answers (history c)))) /\
  (follows t (request c) (history c) (prog c) \/ prog c = Panics).

Record pool_ok (p : Pool) : Prop := {
  ok_threads : length (threads (budget p)) = length (calls p);
  ok_calls i c : calls p !! i = Some (Some c) -> call_ok c;
  ok_budget : rtc budget_step b0 (budget p);
}.

Lemma run_op_possible i {B} (o : Op TE B) p b p' d : run_op t i o p = Some (b, p', d) -> possible t o b.
Proof.
  destruct o; cbn; intros Hr; try done.
  - intros e ->. destruct (bucket_try_acquire _ _ _ _) as [r st] eqn:E. injection Hr as -> _ _.
    unfold bucket_try_acquire in E. repeat case_decide; try done. by destruct (SFleb _ _).
  - intros e ->. destruct (bucket_acquire _ _ _ _) as [r st] eqn:E. injection Hr as -> _ _.
    unfold bucket_acquire in E. repeat case_decide; try done. by destruct (SFleb _ _).
Qed.

(** An operation changes one part of the shared state. *)
Lemma run_op_calls i {B} (o : Op TE B) p b p' d : run_op t i o p = Some (b, p', d) ->
  calls p' = calls p /\ clock p' = clock p /\ begun p' = begun p /\ answered p' = answered p /\ succeeded p' = succeeded p.
Proof. destruct o; cbn; intros Hr; repeat case_match; by simplify_eq. Qed.

Lemma run_op_budget i {B} (o : Op TE B) p b p' d : run_op t i o p = Some (b, p', d) ->
  threads (budget p) !! i = Some Idle ->
  rtc budget_step (budget p) (budget p') /\ length (threads (budget p')) = length (threads (budget p)).
Proof.
  intros Hr Hi. destruct o; cbn in Hr; repeat case_match; simplify_eq; try done; cbn.
  - split; [by apply rtc_once, step_consume|]. unfold consume_sub. case_decide; cbn; [by rewrite length_insert|done].
  - split; [by apply rtc_once, step_replenish|]. unfold replenish_start. case_decide; cbn; [done|by rewrite length_insert].
Qed.

Lemma call_ok_begin req now : call_ok (mkCall req (execute t req) now fresh_history).
Proof. split; [by split; [cbn; lia|]|]. left. by apply execute_follows. Qed.

Lemma call_ok_proceed (c : Call) {B} (o : Op TE B) k b d :
  call_ok c -> prog c = Do o k -> possible t o b -> call_ok (mkCall (request c) (k b) d (track (history c) o b)).
Proof.
  intros [Hl [Hf|Hf]] Hp Hb; [|by rewrite Hp in Hf]. rewrite Hp in Hf. destruct Hf as [Hal Hk]. split; [|left; by apply Hk].
  destruct o; cbn [track]; repeat case_match; cbn; try done. destruct Hal as (_ & _ & Hall & Hlt & _). split; [lia|done].
Qed.

Lemma insert_calls_ok p i c l :
  (forall j c', calls p !! j = Some (Some c') -> call_ok c') -> l = calls p -> call_ok c ->
  forall j c', <[i := Some c]> l !! j = Some (Some c') -> call_ok c'.
Proof.
  intros Hall -> Hc j c' Hj. destruct (decide (j = i)) as [->|Hn].
  - apply list_lookup_insert_Some in Hj as [(_ & E & _)|(? & _)]; [|done]. by injection E as <-.
  - rewrite list_lookup_insert_ne in Hj by done. by eapply Hall.
Qed.

Lemma moved_ok p p' : pool_ok p -> moved p p' -> pool_ok p'.
Proof.
  intros [Hl Hc Hb] Hm. destruct Hm as [d|i c req Hi Ht Hcb|b Hs _ _ Hlen|i c B o k b p1 d Hi Hp Hidle Hr|i c k r Hi Hp|i c k Hi Hp].
  - by split.
  - split; cbn; [by rewrite length_insert|by eapply insert_calls_ok, call_ok_begin|done].
  - split; cbn; [by rewrite Hlen|done|by eapply rtc_r].
  - destruct (run_op_calls _ _ _ _ _ _ Hr) as (E1 & E2 & _). destruct (run_op_budget _ _ _ _ _ _ Hr (Hidle Hl)) as [H1 H2].
    unfold proceed. split; cbn; [by rewrite length_insert, E1, H2| |by etrans].
    eapply insert_calls_ok; [done|done|]. eapply call_ok_proceed; eauto using run_op_possible.
  - split; cbn; [by rewrite length_insert| |done]. eapply insert_calls_ok; [done|done|]. by apply (call_ok_proceed c CallInner k r); eauto.
  - split; cbn; [by rewrite length_insert| |done]. eapply insert_calls_ok; [done|done|]. split; [by apply (Hc i c Hi)|by right].
Qed.

Lemma pool_new_ok now : pool_ok (pool_new t b0 now).
Proof.
  split; cbn; [by rewrite length_replicate| |done].
  intros i c Hi. apply lookup_replicate in Hi as [? _]. done.
Qed.

Lemma pool_run_ok evs now : pool_ok (pool_run t (pool_new t b0 now) evs).
Proof.
  apply (pool_run_invariant (λ _ p, pool_ok p) _ evs 0); [done|intros _; apply moved_ok|apply pool_new_ok].
Qed.
End Steps.

(** * Counting over the threads *)

Section Totals.
Context {TE : Type}.

Definition weight (f : History TE -> nat) (c : option (@Call TE)) : nat :=
  match c with Some c => f (history c) | None => 0 end.
Definition total (f : History TE -> nat) (l : list (option (@Call TE))) : nat := sum_list_with (weight f) l.

Lemma total_cons f c l : total f (c :: l) = weight f c + total f l.
Proof. done. Qed.

Lemma total_insert f l i c c' : l !! i = Some c -> total f (<[i := c']> l) + weight f c = total f l + weight f c'.
Proof.
  revert i. induction l as [|x l IH]; intros [|i] Hi; [done|done| |].
  - injection Hi as ->. change (<[0 := c']> (c :: l)) with (c' :: l). rewrite !total_cons. lia.
  - change (<[S i := c']> (x :: l)) with (x :: <[i := c']> l). rewrite !total_cons. specialize (IH i Hi). lia.
Qed.

Lemma total_lookup f l i c : l !! i = Some c -> weight f c <= total f l.
Proof.
  revert i. induction l as [|x l IH]; intros [|i] Hi; [done|done| |]; rewrite total_cons.
  - injection Hi as ->. lia.
  - specialize (IH i Hi). lia.
Qed.

Lemma total_none f n : total f (replicate n None) = 0.
Proof. induction n; [done|]. done. Qed.

(** Inner calls paid for and not made yet. *)
Definition unspent (h : History TE) : nat := S (paid h) - length (answers h).
(** A success not given back to the budget yet. *)
Definition reward (h : History TE) : nat :=
  if rewarded h then 0 else match answers h with Ok _ :: _ => 1 | _ => 0 end.
Definition in_flight (h : History TE) : nat := if admitted h then 1 else 0.
Definition tokens_held (h : History TE) : nat := if holds_token h then 1 else 0.
End Totals.

#[local] Arguments total : simpl never.
#[local] Arguments unspent : simpl never.
#[local] Arguments reward : simpl never.
#[local] Arguments in_flight : simpl never.
#[local] Arguments tokens_held : simpl never.

#[local] Arguments total : simpl never.
#[local] Arguments unspent : simpl never.
#[local] Arguments reward : simpl never.
#[local] Arguments in_flight : simpl never.
#[local] Arguments tokens_held : simpl never.

(** The totals before and after the call of thread [i] is replaced. *)
Ltac totals Hi :=
  match goal with
  | |- context [<[_ := ?x]> _] =>
      let T1 := fresh "T1" in let T2 := fresh "T2" in
      pose proof (total_insert unspent _ _ _ x Hi) as T1; pose proof (total_insert reward _ _ _ x Hi) as T2;
      cbn [weight history] in T1, T2
  end.

Section Counts.
Context {TE : Type} `{Powi} (t : ResilientTransport TE) (b0 : Budget).

Definition touches_budget {B} (o : Op TE B) : bool :=
  match o with CallInner | TryConsume | Replenish _ => true | _ => false end.

Lemma track_plain {B} (o : Op TE B) b h : touches_budget o = false ->
  unspent (track h o b) = unspent h /\ reward (track h o b) = reward h.
Proof. destruct o; try done; intros _; cbn; repeat case_match; done. Qed.

Lemma run_op_plain i {B} (o : Op TE B) (p : @Pool TE) b p' d : touches_budget o = false ->
  run_op t i o p = Some (b, p', d) -> budget p' = budget p.
Proof. destruct o; try done; intros _; cbn; intros Hr; repeat case_match; by simplify_eq. Qed.

(** What an operation adds to the counts of its thread is taken from the budget. *)
Lemma op_counts i {B} (o : Op TE B) (p : @Pool TE) b p' d h req : run_op t i o p = Some (b, p', d) -> allowed t req h o ->
  (Z.of_nat (unspent (track h o b)) - Z.of_nat (unspent h) <= consumed (budget p') - consumed (budget p))%Z /\
  (offered (budget p') - offered (budget p) + Z.of_nat (reward (track h o b)) <= Z.of_nat (reward h))%Z.
Proof.
  intros Hr Hal. destruct (touches_budget o) eqn:Ht.
  2: { destruct (track_plain o b h Ht) as [-> ->]. rewrite (run_op_plain _ _ _ _ _ _ Ht Hr). lia. }
  destruct h as [ans tok adm pd rw]. destruct o; try done; cbn in Hr, Hal; injection Hr as <- <- <-; cbn [track].
  - destruct Hal as [_ Hal]. unfold consume_sub. case_decide; cbn.
    + rewrite bool_decide_eq_false_2 by lia. lia.
    + rewrite bool_decide_eq_true_2 by lia. unfold unspent, reward. cbn. lia.
  - destruct Hal as (-> & -> & v & Hv). destruct ans as [|[v'|] ans]; try done. unfold replenish_start. rewrite decide_False by done. unfold unspent, reward. cbn. lia.
Qed.

Definition counts_ok (p : @Pool TE) : Prop :=
  (has_budget t = true ->
    (Z.of_nat (answered p + total unspent (calls p)) <= Z.of_nat (begun p) + (consumed (budget p) - consumed b0))%Z) /\
  (offered (budget p) - offered b0 + Z.of_nat (total reward (calls p)) <= Z.of_nat (succeeded p))%Z /\
  succeeded p <= answered p.

Lemma counts_moved p p' : pool_ok t b0 p -> counts_ok p -> moved t p p' -> counts_ok p'.
Proof.
  intros Hok (H1 & H2 & H3) Hm. unfold counts_ok.
  destruct Hm as [d|i c req Hi Ht Hcb|b Hs Hcon Hoff Hlen|i c B o k b p1 d Hi Hp Hidle Hr|i c k r Hi Hp|i c k Hi Hp].
  - done.
  - cbn. totals Hi. change (unspent fresh_history) with 1 in T1. change (reward fresh_history) with 0 in T2.
    split; [intros Hb; specialize (H1 Hb); lia|]. split; [lia|done].
  - cbn. by rewrite Hcon, Hoff.
  - destruct (ok_calls _ _ _ Hok i c Hi) as [_ [Hf|Hf]]; [|by rewrite Hp in Hf]. rewrite Hp in Hf. destruct Hf as [Hal _].
    destruct (run_op_calls _ _ _ _ _ _ _ Hr) as (E1 & E2 & E3 & E4 & E5). unfold proceed. cbn. rewrite E1, E3, E4, E5.
    destruct (op_counts _ _ _ _ _ _ _ _ Hr Hal) as [C1 C2]. totals Hi.
    split; [intros Hb; specialize (H1 Hb); lia|]. split; [lia|done].
  - destruct (ok_calls _ _ _ Hok i c Hi) as [_ [Hf|Hf]]; [|by rewrite Hp in Hf]. rewrite Hp in Hf.
    destruct Hf as [(_ & _ & Hfail & _ & Hpaid) _]. cbn. totals Hi. cbn [track] in T1, T2.
    split.
    { intros Hb. specialize (H1 Hb). specialize (Hpaid Hb).
      assert (unspent (mkHistory (r :: answers (history c)) false (admitted (history c)) (paid (history c)) (rewarded (history c))) + 1 =
        unspent (history c)) by (unfold unspent; cbn; lia). lia. }
    assert (reward (mkHistory (r :: answers (history c)) false (admitted (history c)) (paid (history c)) (rewarded (history c))) <=
      if is_ok r then 1 else 0).
    { unfold reward. cbn. by destruct (rewarded (history c)), r; cbn; lia. }
    split; [lia|]. destruct r; cbn; lia.
  - cbn. totals Hi. split; [intros Hb; specialize (H1 Hb); lia|]. split; [lia|done].
Qed.
End Counts.

(** * The breaker sees every admission and every outcome *)

Lemma breaker_run_app cfg w evs1 evs2 :
  (breaker_run cfg w (evs1 ++ evs2)).2 = (breaker_run cfg (breaker_run cfg w evs1).2 evs2).2.
Proof.
  revert w. induction evs1 as [|ev evs1 IH]; intros w; [done|]. cbn [app breaker_run].
  destruct (breaker_step cfg w ev) as [r w']. specialize (IH w'). destruct (breaker_run cfg w' (evs1 ++ evs2)).
  by destruct (breaker_run cfg w' evs1).
Qed.

Section BreakerView.
Context {TE : Type} `{Powi} (t : ResilientTransport TE) (b0 : Budget) (now0 : Instant).

Definition touches_breaker {B} (o : Op TE B) : bool :=
  match o with Admit | RecordSuccess | RecordFailure => true | _ => false end.

Lemma breaker_plain i {B} (o : Op TE B) (p : @Pool TE) b p' d h : touches_breaker o = false ->
  run_op t i o p = Some (b, p', d) -> breaker p' = breaker p /\ in_flight (track h o b) = in_flight h.
Proof. destruct o; try done; intros _; cbn; intros Hr; repeat case_match; by simplify_eq. Qed.

(** An operation is at most one event of the breaker. *)
Lemma op_breaker i {B} (o : Op TE B) (p : @Pool TE) b p' d h req w :
  run_op t i o p = Some (b, p', d) -> allowed t req h o ->
  Breaker.inner w = breaker p -> Breaker.clock w = clock p -> in_flight h <= length (guards w) ->
  exists evs, let w' := (breaker_run (breaker_cfg t) w evs).2 in
    Breaker.inner w' = breaker p' /\ Breaker.clock w' = clock p /\
    length (guards w') + in_flight h = length (guards w) + in_flight (track h o b).
Proof.
  intros Hr Hal Hi Hc Hg. destruct (touches_breaker o) eqn:Ht.
  2: { destruct (breaker_plain _ _ _ _ _ _ h Ht Hr) as [-> ->]. by exists []. }
  destruct h as [ans tok adm pd rw]. unfold in_flight in *. destruct o; try done; cbn in Hr, Hal.
  - exists [AcquireGuarded]. destruct Hal as [-> _]. cbn. rewrite Hi, Hc.
    destruct (try_acquire _ _ _) as [[[]|e] g]; injection Hr as <- <- <-; cbn; [rewrite length_app; cbn; split; [done|]; split; [done|]; lia|done].
  - exists [EndGuard 0 GuardSuccess]. destruct Hal as [-> _]. injection Hr as <- <- <-. cbn in Hg.
    destruct (guards w) as [|x l] eqn:E; cbn in *; [lia|]. rewrite E. cbn. rewrite Hi. split; [done|]. split; [done|]. lia.
  - exists [EndGuard 0 GuardFailure]. destruct Hal as [-> _]. injection Hr as <- <- <-. cbn in Hg.
    destruct (guards w) as [|x l] eqn:E; cbn in *; [lia|]. rewrite E. cbn. rewrite Hi, Hc. split; [done|]. split; [done|]. lia.
Qed.

(** The breaker is in the state that a run of its own reaches, with a guard for each call between
    its admission and its record. *)
Definition breaker_view (p : @Pool TE) : Prop :=
  exists evs, let w := (breaker_run (breaker_cfg t) (Breaker.initial now0) evs).2 in
    Breaker.inner w = breaker p /\ Breaker.clock w = clock p /\ length (guards w) = total in_flight (calls p).

Lemma view_moved p p' : pool_ok t b0 p -> breaker_view p -> moved t p p' -> breaker_view p'.
Proof.
  intros Hok (evs & H1 & H2 & H3) Hm. unfold breaker_view.
  destruct Hm as [d|i c req Hi Ht Hcb|b Hs Hcon Hoff Hlen|i c B o k b p1 d Hi Hp Hidle Hr|i c k r Hi Hp|i c k Hi Hp].
  - exists (evs ++ [Breaker.Advance d]). rewrite breaker_run_app. cbn. by rewrite H1, H2.
  - exists evs. split; [done|]. split; [done|]. cbn. rewrite H3.
    match goal with |- _ = total _ (<[_ := ?x]> _) => pose proof (total_insert in_flight _ _ _ x Hi) as T end.
    cbn [weight history] in T. change (in_flight fresh_history) with 0 in T. assert (weight in_flight c = 0); [|lia].
    destruct c as [c|]; [|done]. cbn in Hcb. destruct (ok_calls _ _ _ Hok i c Hi) as [_ [Hf|Hf]]; [|by rewrite Hf in Hcb].
    destruct (prog c); try done. destruct Hf as [Hadm _]. cbn. unfold in_flight. by rewrite Hadm.
  - by exists evs.
  - destruct (ok_calls _ _ _ Hok i c Hi) as [_ [Hf|Hf]]; [|by rewrite Hp in Hf]. rewrite Hp in Hf. destruct Hf as [Hal _].
    destruct (run_op_calls _ _ _ _ _ _ _ Hr) as (E1 & E2 & _).
    pose proof (total_lookup in_flight _ _ _ Hi) as Hle. cbn [weight] in Hle.
    destruct (op_breaker _ _ _ _ _ _ _ _ _ Hr Hal H1 H2 ltac:(lia)) as (evs' & G1 & G2 & G3).
    exists (evs ++ evs'). rewrite breaker_run_app. unfold proceed. cbn. rewrite E1, E2. split; [done|]. split; [done|].
    match goal with |- _ = total _ (<[_ := ?x]> _) => pose proof (total_insert in_flight _ _ _ x Hi) as T end.
    cbn [weight history] in T. lia.
  - exists evs. split; [done|]. split; [done|]. cbn. rewrite H3.
    match goal with |- _ = total _ (<[_ := ?x]> _) => pose proof (total_insert in_flight _ _ _ x Hi) as T end.
    cbn [weight history] in T.
    assert (in_flight (mkHistory (r :: answers (history c)) false (admitted (history c)) (paid (history c)) (rewarded (history c))) =
      in_flight (history c)) by done. lia.
  - exists evs. split; [done|]. split; [done|]. cbn. rewrite H3.
    match goal with |- _ = total _ (<[_ := ?x]> _) => pose proof (total_insert in_flight _ _ _ x Hi) as T end.
    cbn [weight history] in T. lia.
Qed.
End BreakerView.

(** * In shedding mode every call of the inner transport costs a token *)

Lemma bucket_run_app cfg cs1 cs2 st :
  bucket_run cfg (cs1 ++ cs2) st =
  let '(n1, st1) := bucket_run cfg cs1 st in let '(n2, st2) := bucket_run cfg cs2 st1 in ((n1 + n2)%N, st2).
Proof.
  revert st. induction cs1 as [|[now c] cs1 IH]; intros st; cbn [app bucket_run].
  - by destruct (bucket_run cfg cs2 st).
  - destruct (bucket_step cfg now c st) as [n st']. rewrite IH. destruct (bucket_run cfg cs1 st') as [n1 st1].
    destruct (bucket_run cfg cs2 st1) as [n2 st2]. by rewrite N.add_assoc.
Qed.

Section BucketView.
Context {TE : Type} `{Powi} (t : ResilientTransport TE) (b0 : Budget) (now0 : Instant).
Hypothesis shedding : rate_mode t = Shed.

(** An operation is at most one call of the bucket. *)
Lemma op_bucket i {B} (o : Op TE B) (p : @Pool TE) b p' d h req :
  run_op t i o p = Some (b, p', d) -> allowed t req h o ->
  exists cs granted, bucket_run (bucket_cfg t) cs (bucket p) = (granted, bucket p') /\
    Forall (λ c, c.1 = clock p) cs /\ length cs <= 1 /\
    tokens_held (track h o b) <= tokens_held h + N.to_nat granted.
Proof.
  intros Hr Hal. destruct o; cbn in Hr, Hal.
  { destruct Hal as (-> & _ & Ht). destruct (bucket_try_acquire _ _ _ _) as [r st] eqn:E. injection Hr as <- <- <-.
    exists [(clock p, CallTryAcquire 1)]. cbn [bucket_run bucket_step]. rewrite E.
    eexists. split; [reflexivity|]. split; [by constructor|]. split; [done|].
    unfold tokens_held. rewrite Ht. destruct r as [[]|]; cbn; [lia|rewrite Ht; lia|rewrite Ht; lia]. }
  { destruct Hal as (_ & Hm & _). congruence. }
  all: exists [], 0%N; repeat case_match; simplify_eq; cbn; (split; [done|]; split; [done|]; split; [lia|]; unfold tokens_held; cbn;
    repeat case_match; simplify_eq; lia).
Qed.

Definition bucket_view (n : nat) (p : @Pool TE) : Prop :=
  exists cs granted, bucket_run (bucket_cfg t) cs (bucket_new (bucket_cfg t) now0) = (granted, bucket p) /\
    Forall (λ c, (c.1 <= clock p)%N) cs /\ length cs <= n /\
    answered p + total tokens_held (calls p) <= N.to_nat granted.

Lemma bucket_moved n p p' : pool_ok t b0 p -> bucket_view n p -> moved t p p' -> bucket_view (S n) p'.
Proof.
  intros Hok (cs & g & H1 & H2 & H3 & H4) Hm. unfold bucket_view.
  destruct Hm as [d|i c req Hi Ht Hcb|b Hs Hcon Hoff Hlen|i c B o k b p1 d Hi Hp Hidle Hr|i c k r Hi Hp|i c k Hi Hp].
  - exists cs, g. split; [done|]. split; [|split; [lia|done]]. eapply Forall_impl; [done|]. cbn. intros; lia.
  - exists cs, g. split; [done|]. split; [done|]. split; [lia|]. cbn.
    match goal with |- context [<[_ := ?x]> _] => pose proof (total_insert tokens_held _ _ _ x Hi) as T end.
    cbn [weight history] in T. change (tokens_held fresh_history) with 0 in T. lia.
  - exists cs, g. split; [done|]. split; [done|]. split; [lia|done].
  - destruct (ok_calls _ _ _ Hok i c Hi) as [_ [Hf|Hf]]; [|by rewrite Hp in Hf]. rewrite Hp in Hf. destruct Hf as [Hal _].
    destruct (run_op_calls _ _ _ _ _ _ _ Hr) as (E1 & E2 & E3 & E4 & E5).
    destruct (op_bucket _ _ _ _ _ _ _ _ Hr Hal) as (cs' & g' & G1 & G2 & G3 & G4).
    exists (cs ++ cs'), (g + g')%N. rewrite bucket_run_app, H1, G1. unfold proceed. cbn. rewrite E1, E2, E4.
    split; [done|]. split; [apply Forall_app; split; [done|]; eapply Forall_impl; [exact G2|]; cbn; intros ? ->; done|].
    rewrite length_app. split; [lia|].
    match goal with |- context [<[_ := ?x]> _] => pose proof (total_insert tokens_held _ _ _ x Hi) as T end.
    cbn [weight history] in T. lia.
  - exists cs, g. split; [done|]. split; [done|]. split; [lia|]. cbn.
    destruct (ok_calls _ _ _ Hok i c Hi) as [_ [Hf|Hf]]; [|by rewrite Hp in Hf]. rewrite Hp in Hf.
    destruct Hf as [(_ & Htok & _) _].
    match goal with |- context [<[_ := ?x]> _] => pose proof (total_insert tokens_held _ _ _ x Hi) as T end.
    cbn [weight history] in T. unfold tokens_held in T at 2 4. cbn in T. rewrite Htok in T. lia.
  - exists cs, g. split; [done|]. split; [done|]. split; [lia|]. cbn.
    match goal with |- context [<[_ := ?x]> _] => pose proof (total_insert tokens_held _ _ _ x Hi) as T end.
    cbn [weight history] in T. lia.
Qed.
End BucketView.

(** * The transport as it is built *)

(** The widths of the fields. *)
Record policy_typed (policy : ResiliencePolicy) : Prop := {
  pt_capacity : (rate_limit_capacity policy < 2 ^ 32)%N;
  pt_refill : valid_binary 53 1024 (rate_limit_refill_per_sec policy) = true;
  pt_threshold : (breaker_failure_threshold policy <= U32_MAX)%N;
  pt_attempts : (retry_max_attempts policy <= U32_MAX)%N;
}.

Section Built.
Context {TE : Type} `{Powi} (policy : ResiliencePolicy) (classify : TE -> ErrorClass) (mode : RateLimitMode) (budgeted : bool).
Context (t : ResilientTransport TE) (Hbuild : build policy classify mode budgeted = Some (Ok t)) (Htyped : policy_typed policy).

Lemma build_parts :
  bucket_config_ok (bucket_cfg t) /\
  config_new (breaker_failure_threshold policy) (breaker_reset_timeout policy) = Some (breaker_cfg t) /\
  (1 <= max_attempts (retry t) <= U32_MAX)%N /\ max_attempts (retry t) = retry_max_attempts policy /\
  capacity (bucket_cfg t) = rate_limit_capacity policy /\
  refill_rate_per_sec (bucket_cfg t) = rate_limit_refill_per_sec policy /\ classifier t = classify /\ rate_mode t = mode /\ has_budget t = budgeted.
Proof.
  destruct Htyped as [T1 T2 T3 T4]. unfold build in Hbuild.
  destruct (bucket_config_new _ _) as [bc|] eqn:E1; [|done]. destruct (config_new _ _) as [cc|] eqn:E2; [|done].
  destruct (policy_new _ _) as [rp|] eqn:E3; [|done]. injection Hbuild as <-. cbn.
  assert (max_attempts rp = retry_max_attempts policy /\ (1 <= retry_max_attempts policy)%N) as [Em Hm].
  { unfold policy_new in E3. case_decide; [|done]. by repeat case_match; simplify_eq. }
  repeat split; try done; try lia; [by apply (bucket_config_new_ok _ _ _ T1 T2 E1)..| |];
    unfold bucket_config_new in E1; repeat case_match; by simplify_eq.
Qed.

Context (cap : N) (n : nat) (b0 : Budget) (Hbudget : budget_new cap n = Some b0) (now0 : Instant).

Abbreviation start := (pool_new t b0 now0).

Lemma built_capacity : (1 <= capacity (bucket_cfg t))%N.
Proof. destruct build_parts as ([[Hc _] _] & _). lia. Qed.

Lemma built_attempts : (1 <= max_attempts (retry t) <= U32_MAX)%N.
Proof. by destruct build_parts as (_ & _ & Ha & _). Qed.

Lemma run_ok evs : pool_ok t b0 (pool_run t start evs).
Proof. apply pool_run_ok; [apply built_capacity|apply built_attempts]. Qed.

(** An invariant that steps from well-formed pools preserve. *)
Lemma run_invariant (I : nat -> @Pool TE -> Prop) evs :
  (forall k p, I k p -> I (S k) p) -> (forall k p p', pool_ok t b0 p -> I k p -> moved t p p' -> I (S k) p') ->
  I 0 start -> I (length evs) (pool_run t start evs).
Proof.
  intros Hweak Hstep H0.
  pose proof (pool_run_invariant t (λ k p, pool_ok t b0 p /\ I k p) start evs 0) as Hrun.
  rewrite Nat.add_0_r in Hrun. apply Hrun.
  - intros k p [H1 H2]. by split; [|apply Hweak].
  - intros k p p' [H1 H2] Hm. split; [|by eapply Hstep].
    by apply (moved_ok t built_capacity built_attempts b0 p).
  - split; [apply pool_new_ok|done].
Qed.

Lemma run_counts evs : counts_ok t b0 (pool_run t start evs).
Proof.
  apply (run_invariant (λ _ p, counts_ok t b0 p)); [done|intros _; apply counts_moved|].
  unfold counts_ok. cbn. rewrite !total_none. cbn. lia.
Qed.

Lemma run_breaker evs : breaker_view t now0 (pool_run t start evs).
Proof.
  apply (run_invariant (λ _ p, breaker_view t now0 p)); [done|intros _; apply view_moved|].
  exists []. cbn. by rewrite total_none.
Qed.

Lemma run_bucket evs : rate_mode t = Shed -> bucket_view t now0 (length evs) (pool_run t start evs).
Proof.
  intros Hm. apply (run_invariant (bucket_view t now0)); [|intros k p p'; by apply bucket_moved|].
  - intros k p (cs & g & H1 & H2 & H3 & H4). exists cs, g. repeat split; try done. lia.
  - exists [], 0%N. cbn. rewrite total_none. split; [done|]. split; [constructor|]. by split.
Qed.
End Built.

(** C18: What a call of [execute] does, in any run of any threads under any answers of the inner
    transport: it makes at most [retry_max_attempts] inner calls, and only one for an upload
    command; it ends (the fuel is enough), and what it returns is settled by the answers: a value
    is that of the last answer after transient failures only, an error of the inner transport is
    permanent or the last one allowed, and the limiter's configuration error never comes. *)
Theorem execute_outcomes {TE} `{Powi} policy (classify : TE -> ErrorClass) mode budgeted t cap n b0 now0 evs i c
  (Hbuild : build policy classify mode budgeted = Some (Ok t)) (Htyped : policy_typed policy)
  (Hbudget : budget_new cap n = Some b0)
  (Hcall : calls (pool_run t (pool_new t b0 now0) evs) !! i = Some (Some c)) :
  let made := length (answers (history c)) in
  (N.of_nat made <= retry_max_attempts policy)%N /\
  (is_upload_mutation (request c) = true -> made <= 1) /\
  match prog c with
  | Ret r => settled t (request c) (history c) r
  | OutOfFuel => False
  | _ => True
  end.
Proof.
  destruct (ok_calls _ _ _ (run_ok policy classify mode budgeted t Hbuild Htyped b0 now0 evs) i c Hcall) as [[Hl _] Hf].
  destruct (build_parts policy classify mode budgeted t Hbuild Htyped) as (_ & _ & Ha & Em & _).
  cbv zeta. unfold attempt_limit in Hl. split; [destruct (is_upload_mutation (request c)); lia|].
  split; [by intros Hu; rewrite Hu in Hl|]. destruct Hf as [Hf| ->]; [|done]. by destruct (prog c).
Qed.

(** C19: With a retry budget, all calls of all threads together make at most one inner call each,
    one for each token of the budget's capacity and one for each success: an endpoint that only
    fails sees [calls + capacity] requests, however many retries the policy would allow. *)
Theorem retries_within_budget {TE} `{Powi} policy (classify : TE -> ErrorClass) mode t cap n b0 now0 evs
  (Hbuild : build policy classify mode true = Some (Ok t)) (Htyped : policy_typed policy)
  (Hbudget : budget_new cap n = Some b0) :
  let p := pool_run t (pool_new t b0 now0) evs in
  (N.of_nat (answered p) <= N.of_nat (begun p) + cap + N.of_nat (succeeded p))%N.
Proof.
  cbv zeta. destruct (run_counts policy classify mode true t Hbuild Htyped b0 now0 evs) as (H1 & H2 & H3).
  destruct (build_parts policy classify mode true t Hbuild Htyped) as (_ & _ & _ & _ & _ & _ & _ & _ & Hb).
  specialize (H1 Hb). pose proof (ok_budget _ _ _ (run_ok policy classify mode true t Hbuild Htyped b0 now0 evs)) as Hreach.
  destruct (budget_reachable cap n b0 _ Hbudget Hreach) as ([Hf Ha Hadds _] & _ & Hcap).
  assert (consumed b0 = 0%Z /\ offered b0 = 0%Z) as [E1 E2].
  { unfold budget_new in Hbudget. case_decide; [|done]. by injection Hbudget as <-. }
  pose proof (put_backs_nonneg (budget (pool_run t (pool_new t b0 now0) evs))).
  assert (0 <= sum_of still_to_add (threads (budget (pool_run t (pool_new t b0 now0) evs))))%Z.
  { apply sum_of_nonneg. intros x Hx. by eapply Forall_forall in Hadds. }
  lia.
Qed.

(** In shedding mode the endpoint is never called faster than the bucket allows: over any run
    the inner calls of all threads are at most the capacity plus the refill rate times the
    elapsed seconds, up to the rounding of [f64] ([rate_bounded] has the same terms). *)
Theorem inner_call_rate {TE} `{Powi} policy (classify : TE -> ErrorClass) budgeted t cap n b0 now0 evs
  (Hbuild : build policy classify Shed budgeted = Some (Ok t)) (Htyped : policy_typed policy)
  (Hbudget : budget_new cap n = Some b0) :
  let p := pool_run t (pool_new t b0 now0) evs in
  let capacity := Z.of_N (rate_limit_capacity policy) in
  (clock p <= DURATION_MAX)%N ->
  (Z.of_nat (answered p) * unit_scaled * (Z.of_N NANOS_PER_SEC * 2 ^ 52) <=
   capacity * unit_scaled * (Z.of_N NANOS_PER_SEC * 2 ^ 52) +
   (2 ^ 52 + 5) * (Z.of_N (clock p - now0) * scaled (rate_limit_refill_per_sec policy)) +
   Z.of_nat (length evs) * (Z.of_N NANOS_PER_SEC * (2 * (capacity * unit_scaled) + 2 ^ 52)))%Z.
Proof.
  cbv zeta. intros Hclock. destruct (build_parts policy classify Shed budgeted t Hbuild Htyped) as (Hcfg & _ & _ & _ & Ec & Er & _ & Em & _).
  destruct (run_bucket policy classify Shed budgeted t Hbuild Htyped b0 now0 evs Em) as (cs & g & H1 & H2 & H3 & H4).
  set (p := pool_run t (pool_new t b0 now0) evs) in *.
  assert (Forall (λ c, (c.1 <= DURATION_MAX)%N) cs) as Hcs by (eapply Forall_impl; [exact H2|]; cbn; intros; lia).
  pose proof (run_rate (bucket_cfg t) Hcfg cs _ (full_ok (bucket_cfg t) Hcfg now0) Hcs) as Hrate.
  pose proof (bucket_run_ok (bucket_cfg t) Hcfg cs _ (full_ok (bucket_cfg t) Hcfg now0)) as [_ [Hpos _]].
  assert (last_refill (bucket p) <= N.max now0 (clock p))%N as Hlast.
  { replace (bucket p) with (bucket_run (bucket_cfg t) cs (bucket_new (bucket_cfg t) now0)).2 by (by rewrite H1).
    apply run_last; [exact Hcfg|by apply full_ok|cbn; lia|]. eapply Forall_impl; [exact H2|]. cbn. intros; lia. }
  rewrite H1 in Hrate, Hpos. destruct Hrate as [Hmono Hrate]. cbn [snd] in Hpos.
  assert (scaled (RateLimit.tokens (bucket_new (bucket_cfg t) now0)) = Z.of_N (RateLimit.capacity (bucket_cfg t)) * unit_scaled)%Z as E
    by exact (proj2 (units (bucket_cfg t) Hcfg (RateLimit.capacity (bucket_cfg t)) ltac:(lia))).
  rewrite E, Ec in Hrate. rewrite <- Er. change (last_refill (bucket_new (bucket_cfg t) now0)) with now0 in *.
  pose proof unit_scaled_pos as HU. destruct Hcfg as (_ & _ & HR).
  set (W := (Z.of_N NANOS_PER_SEC * 2 ^ 52)%Z) in *. set (sl := (Z.of_N NANOS_PER_SEC * (2 * (Z.of_N (rate_limit_capacity policy) * unit_scaled) + 2 ^ 52))%Z) in *.
  assert (0 <= sl)%Z by (unfold sl; apply Z.mul_nonneg_nonneg; [done|nia]). assert (0 < W)%Z by done.
  set (R := scaled (refill_rate_per_sec (bucket_cfg t))) in *. set (T := scaled (RateLimit.tokens (bucket p))) in *.
  assert (Z.of_nat (answered p) * unit_scaled <= Z.of_N g * unit_scaled + T)%Z as K5 by nia.
  assert (Z.of_nat (answered p) * unit_scaled * W <= (Z.of_N g * unit_scaled + T) * W)%Z as K6 by (apply Z.mul_le_mono_nonneg_r; lia).
  assert (Z.of_nat (length cs) * sl <= Z.of_nat (length evs) * sl)%Z as K7 by (apply Z.mul_le_mono_nonneg_r; lia).
  assert (Z.of_N (last_refill (bucket p) - now0) * R <= Z.of_N (clock p - now0) * R)%Z as K8 by (apply Z.mul_le_mono_nonneg_r; lia).
  clearbody W sl R T. lia.
Qed.

(** C20: The endpoint recovers.  Whatever happened before, once no call is between its admission
    and its record, the breaker admits the next call as soon as the reset timeout has passed: no
    way through [execute] keeps the probe slot. *)
Theorem transport_recovers {TE} `{Powi} policy (classify : TE -> ErrorClass) mode budgeted t cap n b0 now0 evs
  (Hbuild : build policy classify mode budgeted = Some (Ok t)) (Htyped : policy_typed policy)
  (Hbudget : budget_new cap n = Some b0) :
  let p := pool_run t (pool_new t b0 now0) evs in
  (forall i c, calls p !! i = Some (Some c) -> admitted (history c) = false) ->
  let p' := pool_step t p (Advance (breaker_reset_timeout policy)) in
  (try_acquire (breaker_cfg t) (clock p') (breaker p')).1 = Ok ().
Proof.
  cbv zeta. set (p := pool_run t (pool_new t b0 now0) evs). intros Hidle.
  destruct (build_parts policy classify mode budgeted t Hbuild Htyped) as (_ & Hcfg & _).
  destruct (run_breaker policy classify mode budgeted t Hbuild Htyped b0 now0 evs) as (bevs & H1 & H2 & H3). fold p in H1, H2, H3.
  assert (total in_flight (calls p) = 0) as Hzero.
  { clear - Hidle. induction (calls p) as [|c l IH]; [done|]. rewrite total_cons, IH.
    - destruct c as [c|]; [|done]. cbn. unfold in_flight. by rewrite (Hidle 0 c eq_refl).
    - intros i c' Hi. by apply (Hidle (S i)). }
  pose proof (breaker_never_stuck _ _ _ now0 bevs Hcfg (pt_threshold _ Htyped)) as Hgo. cbv zeta in Hgo.
  set (w := (breaker_run (breaker_cfg t) (Breaker.initial now0) bevs).2) in *. specialize (Hgo ltac:(apply length_zero_iff_nil; lia)).
  cbn in Hgo. rewrite H1, H2 in Hgo. cbn. destruct (try_acquire _ _ _) as [[[]|e] g]; [done|]. by injection Hgo.
Qed.

(** The probe slot and its owner: the breaker is half open with its probe taken, and no call that
    is still running was admitted. *)
Definition blocked {TE} (p : @Pool TE) : Prop :=
  Breaker.state (breaker p) = HalfOpen /\ probe_in_flight (breaker p) = true /\
  forall i c, calls p !! i = Some (Some c) -> admitted (history c) = true -> prog c = Panics.

Lemma blocked_moved {TE} `{Powi} (t : ResilientTransport TE) b0 p p' :
  pool_ok t b0 p -> blocked p -> moved t p p' -> blocked p' /\ answered p' = answered p.
Proof.
  intros Hok (Hs & Hpr & Hc) Hm.
  destruct Hm as [d|i c req Hi Ht Hcb|b Hst Hcon Hoff Hlen|i c B o k b p1 d Hi Hp Hidle Hr|i c k r Hi Hp|i c k Hi Hp].
  - done.
  - split; [|done]. split; [done|]. split; [done|]. cbn. intros j c' Hj Ha.
    apply list_lookup_insert_Some in Hj as [(_ & E & _)|(_ & Hj)]; [by injection E as <-|by eapply Hc].
  - done.
  - assert (admitted (history c) = false) as Hadm.
    { destruct (admitted (history c)) eqn:Ha; [|done]. specialize (Hc i c Hi Ha). by rewrite Hc in Hp. }
    destruct (ok_calls _ _ _ Hok i c Hi) as [_ [Hf|Hf]]; [|by rewrite Hp in Hf]. rewrite Hp in Hf. destruct Hf as [Hal _].
    destruct (run_op_calls _ _ _ _ _ _ _ Hr) as (E1 & E2 & E3 & E4 & E5).
    assert (breaker p1 = breaker p /\ admitted (track (history c) o b) = false) as [Eb Ea].
    { destruct (touches_breaker o) eqn:Ht.
      - destruct o; try done; cbn in Hr, Hal; [|by destruct Hal; congruence..].
        unfold try_acquire, tick_locked in Hr. rewrite Hs in Hr. cbn in Hr. rewrite Hs, Hpr in Hr. injection Hr as <- <- <-. by split.
      - split; [exact (proj1 (breaker_plain _ _ _ _ _ _ _ (history c) Ht Hr))|]. destruct o; try done; cbn; repeat case_match; done. }
    unfold proceed. split; [|by cbn]. split; [by cbn; rewrite Eb|]. split; [by cbn; rewrite Eb|].
    cbn. rewrite E1. intros j c' Hj Ha. apply list_lookup_insert_Some in Hj as [(_ & E & _)|(_ & Hj)]; [|by eapply Hc].
    injection E as <-. cbn in Ha. congruence.
  - exfalso. destruct (ok_calls _ _ _ Hok i c Hi) as [_ [Hf|Hf]]; [|by rewrite Hp in Hf]. rewrite Hp in Hf.
    destruct Hf as [(Ha & _) _]. specialize (Hc i c Hi Ha). by rewrite Hc in Hp.
  - exfalso. destruct (ok_calls _ _ _ Hok i c Hi) as [_ [Hf|Hf]]; [|by rewrite Hp in Hf]. rewrite Hp in Hf.
    destruct Hf as [(Ha & _) _]. specialize (Hc i c Hi Ha). by rewrite Hc in Hp.
Qed.

(** When the inner transport panics during a probe, the slot is never released: the endpoint is
    cut off for good, and no event of any thread brings another answer of the inner transport. *)
Theorem panicked_probe_blocks_the_endpoint {TE} `{Powi} policy (classify : TE -> ErrorClass) mode budgeted t cap n b0 now0 evs
  (Hbuild : build policy classify mode budgeted = Some (Ok t)) (Htyped : policy_typed policy)
  (Hbudget : budget_new cap n = Some b0) (Hblocked : blocked (pool_run t (pool_new t b0 now0) evs)) evs' :
  let p := pool_run t (pool_new t b0 now0) evs in
  answered (pool_run t p evs') = answered p /\
  (try_acquire (breaker_cfg t) (clock (pool_run t p evs')) (breaker (pool_run t p evs'))).1 = Err ErrProbeInFlight.
Proof.
  cbv zeta. pose proof (run_ok policy classify mode budgeted t Hbuild Htyped b0 now0 evs) as Hok.
  set (p := pool_run t (pool_new t b0 now0) evs) in *. clearbody p. revert p Hok Hblocked.
  induction evs' as [|ev evs' IH]; intros p Hok Hb.
  - split; [done|]. destruct Hb as (Hs & Hp & _). cbn. unfold try_acquire, tick_locked. rewrite Hs. cbn. by rewrite Hs, Hp.
  - cbn [pool_run foldl]. destruct (pool_step_moved t p ev) as [->|Hm]; [by apply IH|].
    destruct (blocked_moved t b0 _ _ Hok Hb Hm) as [Hb' Ha].
    assert (pool_ok t b0 (pool_step t p ev)) as Hok'.
    { apply (moved_ok t (built_capacity policy classify mode budgeted t Hbuild Htyped)
        (built_attempts policy classify mode budgeted t Hbuild Htyped) b0 p); done. }
    destruct (IH _ Hok' Hb') as [E1 E2]. split; [etrans; [exact E1|exact Ha]|exact E2].
Qed.

(** [from_policy] never retries, whatever [retry_max_attempts] says: its default classifier takes
    every error for permanent. *)
Theorem from_policy_never_retries {TE} `{Powi} policy (t : ResilientTransport TE) cap n b0 now0 evs i c
  (Hbuild : from_policy policy = Some (Ok t)) (Htyped : policy_typed policy)
  (Hbudget : budget_new cap n = Some b0)
  (Hcall : calls (pool_run t (pool_new t b0 now0) evs) !! i = Some (Some c)) :
  length (answers (history c)) <= 1.
Proof.
  destruct (ok_calls _ _ _ (run_ok _ _ _ _ t Hbuild Htyped b0 now0 evs) i c Hcall) as [[_ Ht] _].
  destruct (build_parts _ _ _ _ t Hbuild Htyped) as (_ & _ & _ & _ & _ & _ & Ec & _).
  destruct (answers (history c)) as [|a [|a' l]]; cbn in *; [lia|lia|]. exfalso.
  apply Forall_inv in Ht as (e & _ & He). by rewrite Ec in He.
Qed.

(** * Runs *)

Section Samples.
#[local] Existing Instance powi_by_products.

Inductive SampleError : Type := Temp | Perm.

Definition sample_classifier (e : SampleError) : ErrorClass := match e with Temp => Transient | Perm => Permanent end.

(** The policy of the defaults with a breaker that trips at once, a rate of one request a second
    and a burst of two, and no delay between the attempts. *)
Definition sample_policy : ResiliencePolicy :=
  mkResiliencePolicy true 2 (f64_of_u64 1) 1 10 3 0 (f64_of_u64 2) 0 0.

Definition sample_transport (mode : RateLimitMode) (threshold : N) : ResilientTransport SampleError :=
  mkTransport (mkBucketConfig 2 (f64_of_u64 1)) (mkConfig threshold 10000000)
    (mkPolicy 3 (ExponentialJittered 0 (f64_of_u64 2) 0 0)) sample_classifier mode true.

Definition sample_request (command : string) : EncodedRequest :=
  mkEncodedRequest (mkRequestFrame (chars command) 0) [] [].

Definition steps (i : nat) (k : nat) : list (@pool_event SampleError) := replicate k (Step i false).

Example sample_builds :
  build sample_policy sample_classifier Shed true = Some (Ok (sample_transport Shed 1)).
Proof. vm_compute. reflexivity. Qed.

Definition sample_pool : @Pool SampleError :=
  pool_new (sample_transport Shed 1) (mkBudget 4 4 [Idle; Idle] 0 0) 0.

(** The probe's inner call panics: the slot of the half-open breaker is never released. *)
Definition panic_run : list (@pool_event SampleError) :=
  [Begin 0 (sample_request "userinfo")] ++ steps 0 2 ++ [Answer 0 (Err Perm)] ++ steps 0 2 ++
  [Advance 1000000000; Begin 0 (sample_request "userinfo")] ++ steps 0 2 ++ [InnerPanics 0].

Example panic_blocks : blocked (pool_run (sample_transport Shed 1) sample_pool panic_run).
Proof.
  split; [vm_compute; reflexivity|]. split; [vm_compute; reflexivity|]. intros [|[|i]] c Hi Ha.
  - vm_compute in Hi. injection Hi as <-. reflexivity.
  - vm_compute in Hi. discriminate.
  - vm_compute in Hi. discriminate.
Qed.

Lemma sample_typed : policy_typed sample_policy.
Proof. split; vm_compute; congruence. Qed.

(** Two threads: an upload fails once and is returned at once; another request fails, is retried
    out of the budget and succeeds. *)
Definition two_calls : list (@pool_event SampleError) :=
  [Begin 0 (sample_request "upload_write"); Begin 1 (sample_request "userinfo")] ++
  steps 0 2 ++ steps 1 2 ++ [Answer 1 (Ok (VNumber 7))] ++ steps 1 4 ++ [Answer 0 (Err Temp)] ++ steps 0 1.

Example two_calls_end :
  let p := pool_run (sample_transport Shed 1) sample_pool two_calls in
  (answered p, begun p, succeeded p) = (2, 2, 1) /\
  Breaker.state (breaker p) = Open /\ Budget.tokens (budget p) = 4%Z.
Proof. vm_compute. repeat split. Qed.

Lemma execute_outcomes_witness :
  exists c, calls (pool_run (sample_transport Shed 1) sample_pool two_calls) !! 0 = Some (Some c) /\
    prog c = Ret (Err (Inner Temp)) /\ length (answers (history c)) <= 1.
Proof.
  destruct (calls (pool_run (sample_transport Shed 1) sample_pool two_calls) !! 0) as [[c|]|] eqn:E.
  2, 3: vm_compute in E; discriminate.
  exists c. split; [reflexivity|].
  destruct (execute_outcomes sample_policy sample_classifier Shed true (sample_transport Shed 1) 4 2
    (mkBudget 4 4 [Idle; Idle] 0 0) 0 two_calls 0 c sample_builds sample_typed eq_refl E) as (_ & H2 & _).
  vm_compute in E. injection E as <-. split; [reflexivity|]. apply H2. vm_compute. reflexivity.
Defined.

Lemma retries_within_budget_witness :
  let p := pool_run (sample_transport Shed 1) sample_pool two_calls in
  (N.of_nat (answered p) <= N.of_nat (begun p) + 4 + N.of_nat (succeeded p))%N.
Proof.
  exact (retries_within_budget sample_policy sample_classifier Shed (sample_transport Shed 1) 4 2
    (mkBudget 4 4 [Idle; Idle] 0 0) 0 two_calls sample_builds sample_typed eq_refl).
Defined.

Lemma inner_call_rate_witness :
  let p := pool_run (sample_transport Shed 1) sample_pool two_calls in
  answered p = 2 /\
  (Z.of_nat (answered p) * unit_scaled * (Z.of_N NANOS_PER_SEC * 2 ^ 52) <=
   2 * unit_scaled * (Z.of_N NANOS_PER_SEC * 2 ^ 52) +
   (2 ^ 52 + 5) * (Z.of_N (clock p - 0) * scaled (f64_of_u64 1)) +
   Z.of_nat (length two_calls) * (Z.of_N NANOS_PER_SEC * (2 * (2 * unit_scaled) + 2 ^ 52)))%Z.
Proof.
  split; [vm_compute; reflexivity|].
  apply (inner_call_rate sample_policy sample_classifier true (sample_transport Shed 1) 4 2
    (mkBudget 4 4 [Idle; Idle] 0 0) 0 two_calls sample_builds sample_typed eq_refl).
  vm_compute. congruence.
Defined.

(** Both calls have ended; the breaker is open. *)
Lemma transport_recovers_witness :
  let p := pool_run (sample_transport Shed 1) sample_pool two_calls in
  Breaker.state (breaker p) = Open /\
  let p' := pool_step (sample_transport Shed 1) p (Advance 10000000) in
  (try_acquire (mkConfig 1 10000000) (clock p') (breaker p')).1 = Ok ().
Proof.
  split; [vm_compute; reflexivity|].
  apply (transport_recovers sample_policy sample_classifier Shed true (sample_transport Shed 1) 4 2
    (mkBudget 4 4 [Idle; Idle] 0 0) 0 two_calls sample_builds sample_typed eq_refl).
  intros [|[|i]] c Hi; vm_compute in Hi; [injection Hi as <-; reflexivity..|discriminate].
Defined.

Lemma panicked_probe_witness evs :
  answered (pool_run (sample_transport Shed 1) (pool_run (sample_transport Shed 1) sample_pool panic_run) evs) = 1.
Proof.
  exact (proj1 (panicked_probe_blocks_the_endpoint sample_policy sample_classifier Shed true (sample_transport Shed 1) 4 2
    (mkBudget 4 4 [Idle; Idle] 0 0) 0 panic_run sample_builds sample_typed eq_refl panic_blocks evs)).
Defined.
End Samples.
