(* ===== verification/CryptoPrims.v ===== *)
(** The primitives that crates/pcloud-crypto builds on.

    The AES-256 block cipher and HMAC-SHA-512 are not under src/: they are the classes
    [BlockCipher] and [HmacSha512], with the documented facts the code relies on as laws (a
    block is 16 bytes, decryption inverts encryption, a digest is 64 bytes).  The xor loops
    and the cipher block chaining loop that three of the modules repeat are written out. *)
From S2P Require Import Prelude Paths Bytes.

Definition BLOCK : nat := 16.
#[global] Arguments BLOCK : simpl never.

(** * Exclusive or *)

(** [a ^ b] on [u8]. *)
Definition bxor (a b : byte) : byte :=
  match a, b with
  | Ascii a0 a1 a2 a3 a4 a5 a6 a7, Ascii b0 b1 b2 b3 b4 b5 b6 b7 =>
      Ascii (xorb a0 b0) (xorb a1 b1) (xorb a2 b2) (xorb a3 b3)
            (xorb a4 b4) (xorb a5 b5) (xorb a6 b6) (xorb a7 b7)
  end.

Definition zero : byte := ascii_of_N 0.

(** [for (d, s) in dst.iter_mut().zip(src) { *d ^= *s }]: what [src] does not reach is kept. *)
Fixpoint xor_into (dst src : list byte) : list byte :=
  match dst, src with
  | d :: dst', s :: src' => bxor d s :: xor_into dst' src'
  | _, _ => dst
  end.

Lemma bxor_comm a b : bxor a b = bxor b a.
Proof. destruct a, b; simpl; f_equal; apply xorb_comm. Qed.

Lemma bxor_assoc a b c : bxor (bxor a b) c = bxor a (bxor b c).
Proof. destruct a, b, c; simpl; f_equal; apply xorb_assoc. Qed.

Lemma bxor_zero_r a : bxor a zero = a.
Proof. destruct a; simpl; f_equal; apply xorb_false_r. Qed.

Lemma bxor_cancel a b : bxor (bxor a b) b = a.
Proof. destruct a, b; simpl; f_equal; rewrite xorb_assoc, xorb_nilpotent; apply xorb_false_r. Qed.

Lemma bxor_cancel_l a b : bxor a (bxor b a) = b.
Proof. by rewrite bxor_comm, bxor_cancel. Qed.

Example bxor_ex : bxor (to_byte 165) (to_byte 60) = to_byte (N.lxor 165 60).
Proof. reflexivity. Qed.

Lemma length_xor_into dst src : length (xor_into dst src) = length dst.
Proof. revert src; induction dst as [|d dst IH]; intros [|s src]; simpl; congruence. Qed.

Lemma xor_into_twice dst src : xor_into (xor_into dst src) src = dst.
Proof.
  revert src; induction dst as [|d dst IH]; intros [|s src]; simpl; [done..|].
  by rewrite bxor_cancel, IH.
Qed.

Lemma xor_into_comm a b : length a = length b -> xor_into a b = xor_into b a.
Proof.
  revert b; induction a as [|x a IH]; intros [|y b] Hl; simpl in *; try done.
  f_equal; [apply bxor_comm|]. apply IH. lia.
Qed.

Lemma xor_into_app a1 a2 b1 b2 :
  length a1 = length b1 -> xor_into (a1 ++ a2) (b1 ++ b2) = xor_into a1 b1 ++ xor_into a2 b2.
Proof.
  revert b1; induction a1 as [|x a IH]; intros [|y b] Hl; simpl in *; try done.
  f_equal. apply IH. lia.
Qed.

(** The part of [dst] that [src] does not reach is kept. *)
Lemma xor_into_short a1 a2 b : length a1 = length b -> xor_into (a1 ++ a2) b = xor_into a1 b ++ a2.
Proof.
  intros Hl. rewrite <- (app_nil_r b), xor_into_app by done. rewrite app_nil_r. by destruct a2.
Qed.

Lemma take_xor_into n a b : take n (xor_into a b) = xor_into (take n a) (take n b).
Proof.
  revert a b; induction n as [|n IH]; intros [|x a] [|y b]; simpl; try done. by rewrite IH.
Qed.

Lemma drop_xor_into n a b : drop n (xor_into a b) = xor_into (drop n a) (drop n b).
Proof.
  revert a b; induction n as [|n IH]; intros [|x a] [|y b]; simpl; try done.
  by destruct (drop n a).
Qed.

Lemma lookup_xor_into a b i x y :
  a !! i = Some x -> b !! i = Some y -> xor_into a b !! i = Some (bxor x y).
Proof.
  revert b i; induction a as [|u a IH]; intros [|v b] [|i] Ha Hb; simpl in *; simplify_eq; [done|].
  by apply IH.
Qed.

Lemma xor_into_cancel_l a b : length a = length b -> xor_into a (xor_into b a) = b.
Proof.
  intros Hl. rewrite xor_into_comm by (rewrite length_xor_into; done). apply xor_into_twice.
Qed.

(** Xor with a source longer than the destination only reads its prefix. *)
Lemma xor_into_take a b : xor_into a (take (length a) b) = xor_into a b.
Proof. revert b; induction a as [|x a IH]; intros [|y b]; simpl; try done. by rewrite IH. Qed.

(** * AES-256 and HMAC-SHA-512 *)

(** [Aes256::new(key)] with [encrypt_block]/[decrypt_block]. *)
Class BlockCipher : Type := {
  encrypt_block : list byte -> list byte -> list byte;
  decrypt_block : list byte -> list byte -> list byte;
}.

Class BlockCipherLaws `{BlockCipher} : Prop := {
  length_encrypt_block k b : length b = BLOCK -> length (encrypt_block k b) = BLOCK;
  length_decrypt_block k b : length b = BLOCK -> length (decrypt_block k b) = BLOCK;
  decrypt_encrypt_block k b : length b = BLOCK -> decrypt_block k (encrypt_block k b) = b;
  encrypt_decrypt_block k b : length b = BLOCK -> encrypt_block k (decrypt_block k b) = b;
}.

(** [Hmac::<Sha512>::new_from_slice(key)], [update(msg)], [finalize()]. *)
Class HmacSha512 : Type := hmac_sha512_digest : list byte -> list byte -> list byte.

Class HmacSha512Laws `{HmacSha512} : Prop :=
  length_hmac_digest k m : length (hmac_sha512_digest k m) = 64.

(** * The chaining loop

    [blocks] iterations over the front of the input; the second component is [prev] after the
    loop, the last ciphertext block (or the initial vector). *)
Section Cbc.
Context `{BlockCipher}.

Fixpoint cbc_encrypt_loop (key : list byte) (blocks : nat) (prev pt : list byte)
    : list byte * list byte :=
  match blocks with
  | 0 => ([], prev)
  | S blocks' =>
      let blk := encrypt_block key (xor_into (take BLOCK pt) prev) in
      let '(out, last) := cbc_encrypt_loop key blocks' blk (drop BLOCK pt) in
      (blk ++ out, last)
  end.

Fixpoint cbc_decrypt_loop (key : list byte) (blocks : nat) (prev ct : list byte)
    : list byte * list byte :=
  match blocks with
  | 0 => ([], prev)
  | S blocks' =>
      let c_in := take BLOCK ct in
      let '(out, last) := cbc_decrypt_loop key blocks' c_in (drop BLOCK ct) in
      (xor_into (decrypt_block key c_in) prev ++ out, last)
  end.
End Cbc.

Section CbcFacts.
Context `{BlockCipherLaws}.

Lemma length_take_block (l : list byte) n :
  (S n * BLOCK <= length l) -> length (take BLOCK l) = BLOCK /\ n * BLOCK <= length (drop BLOCK l).
Proof. unfold BLOCK. rewrite length_take, length_drop. lia. Qed.

Lemma cbc_encrypt_lengths key blocks prev pt :
  length prev = BLOCK -> blocks * BLOCK <= length pt ->
  length (cbc_encrypt_loop key blocks prev pt).1 = blocks * BLOCK /\
  length (cbc_encrypt_loop key blocks prev pt).2 = BLOCK.
Proof.
  revert prev pt; induction blocks as [|n IH]; intros prev pt Hp Hl; [done|].
  apply length_take_block in Hl as [Ht Hd]. cbn [cbc_encrypt_loop].
  assert (length (encrypt_block key (xor_into (take BLOCK pt) prev)) = BLOCK) as He.
  { apply length_encrypt_block. by rewrite length_xor_into. }
  pose proof (IH _ (drop BLOCK pt) He Hd) as [H1 H2].
  destruct (cbc_encrypt_loop _ _ _ _) as [out last]. cbn [fst snd] in H1, H2 |- *.
  rewrite length_app, He, H1. by split.
Qed.

Lemma cbc_decrypt_lengths key blocks prev ct :
  length prev = BLOCK -> blocks * BLOCK <= length ct ->
  length (cbc_decrypt_loop key blocks prev ct).1 = blocks * BLOCK /\
  length (cbc_decrypt_loop key blocks prev ct).2 = BLOCK.
Proof.
  revert prev ct; induction blocks as [|n IH]; intros prev ct Hp Hl; [done|].
  apply length_take_block in Hl as [Ht Hd]. cbn [cbc_decrypt_loop].
  pose proof (IH _ (drop BLOCK ct) Ht Hd) as [H1 H2].
  destruct (cbc_decrypt_loop _ _ _ _) as [out last]. cbn [fst snd] in H1, H2 |- *.
  rewrite length_app, length_xor_into, length_decrypt_block, H1 by done. by split.
Qed.

(** Decrypting what the loop encrypted gives the plaintext back, with the same [prev] ... *)
Lemma cbc_decrypt_encrypt key blocks prev pt rest :
  length prev = BLOCK -> blocks * BLOCK <= length pt ->
  cbc_decrypt_loop key blocks prev ((cbc_encrypt_loop key blocks prev pt).1 ++ rest)
  = (take (blocks * BLOCK) pt, (cbc_encrypt_loop key blocks prev pt).2).
Proof.
  revert prev pt; induction blocks as [|n IH]; intros prev pt Hp Hl; [done|].
  apply length_take_block in Hl as [Ht Hd]. cbn [cbc_encrypt_loop].
  set (blk := encrypt_block key (xor_into (take BLOCK pt) prev)).
  assert (length blk = BLOCK) as He by (apply length_encrypt_block; by rewrite length_xor_into).
  pose proof (IH blk (drop BLOCK pt) He Hd) as IH'.
  destruct (cbc_encrypt_loop key n blk (drop BLOCK pt)) as [out last].
  cbn [fst snd cbc_decrypt_loop] in IH' |- *.
  rewrite <- app_assoc, take_app_length', drop_app_length' by done.
  rewrite IH'. unfold blk at 1. rewrite decrypt_encrypt_block by (by rewrite length_xor_into).
  rewrite xor_into_twice. f_equal. change (S n * BLOCK) with (BLOCK + n * BLOCK).
  by rewrite <- take_take_drop.
Qed.

(** ... and conversely. *)
Lemma cbc_encrypt_decrypt key blocks prev ct rest :
  length prev = BLOCK -> blocks * BLOCK <= length ct ->
  cbc_encrypt_loop key blocks prev ((cbc_decrypt_loop key blocks prev ct).1 ++ rest)
  = (take (blocks * BLOCK) ct, (cbc_decrypt_loop key blocks prev ct).2).
Proof.
  revert prev ct; induction blocks as [|n IH]; intros prev ct Hp Hl; [done|].
  apply length_take_block in Hl as [Ht Hd]. cbn [cbc_decrypt_loop].
  pose proof (IH (take BLOCK ct) (drop BLOCK ct) Ht Hd) as IH'.
  destruct (cbc_decrypt_loop key n (take BLOCK ct) (drop BLOCK ct)) as [out last].
  cbn [fst snd cbc_encrypt_loop] in IH' |- *.
  assert (length (xor_into (decrypt_block key (take BLOCK ct)) prev) = BLOCK) as He.
  { by rewrite length_xor_into, length_decrypt_block. }
  rewrite <- app_assoc, take_app_length', drop_app_length' by done.
  rewrite xor_into_twice, encrypt_decrypt_block by done.
  rewrite IH'. f_equal. change (S n * BLOCK) with (BLOCK + n * BLOCK).
  by rewrite <- take_take_drop.
Qed.

(** The loop reads only its blocks. *)
Lemma cbc_encrypt_take key blocks prev pt rest :
  blocks * BLOCK <= length pt ->
  cbc_encrypt_loop key blocks prev (pt ++ rest) = cbc_encrypt_loop key blocks prev pt.
Proof.
  revert prev pt; induction blocks as [|n IH]; intros prev pt Hl; [done|].
  apply length_take_block in Hl as [Ht Hd]. rewrite length_take in Ht.
  cbn [cbc_encrypt_loop]. rewrite take_app_le, drop_app_le by lia. by rewrite IH.
Qed.
End CbcFacts.

(** * A small instance, for evaluating the definitions on concrete inputs

    Reversal and xor with the key; the digest depends on every byte of the key and of the
    message.  Nothing is proved from its details. *)
Definition toy_cipher : BlockCipher := {|
  encrypt_block k b := rev (xor_into b k);
  decrypt_block k c := xor_into (rev c) k;
|}.

Lemma toy_cipher_laws : @BlockCipherLaws toy_cipher.
Proof.
  split; intros k b Hb; simpl.
  - by rewrite length_rev, length_xor_into.
  - by rewrite length_xor_into, length_rev.
  - by rewrite rev_involutive, xor_into_twice.
  - by rewrite xor_into_twice, rev_involutive.
Defined.

Definition toy_hmac : HmacSha512 := λ k m,
  to_le_bytes 64 (7 + 3 * from_le_bytes m + 5 * from_le_bytes k).

Lemma toy_hmac_laws : @HmacSha512Laws toy_hmac.
Proof. intros k m. apply length_to_le_bytes. Defined.
