(* ===== verification/Modes.v ===== *)
(** The cipher modes of crates/pcloud-crypto/src/pclsync_modes.rs: the counter mode of the
    legacy client and CBC with ciphertext stealing (CS3).

    [aes256_ctr_pclsync_xor_inplace] is compared byte by byte with a reference keystream; the
    stealing mode is inverted in both directions. *)
From S2P Require Import Prelude Paths Bytes CryptoPrims.

(** * Counter mode *)
Section Ctr.
Context `{BlockCipher}.

(** The counter, little endian, xored into the first eight bytes of the vector. *)
Definition ctr_block_iv (iv : list byte) (counter : N) : list byte :=
  xor_into iv (to_le_bytes 8 counter).

(** The keystream block of the [i]-th block of the buffer. *)
Definition ctr_keystream (key iv : list byte) (block_offset i : N) : list byte :=
  encrypt_block key (ctr_block_iv iv (u64_wrapping_add block_offset i)).

(** The loop over the full blocks, then the tail. *)
Fixpoint ctr_loop (key iv : list byte) (block_offset i : N) (full_blocks : nat)
    (buf : list byte) : list byte :=
  match full_blocks with
  | 0 => match buf with
         | [] => []
         | _ => xor_into buf (ctr_keystream key iv block_offset i)
         end
  | S n => xor_into (take BLOCK buf) (ctr_keystream key iv block_offset i)
           ++ ctr_loop key iv block_offset (i + 1) n (drop BLOCK buf)
  end.

Definition aes256_ctr_pclsync_xor_inplace (key iv : list byte) (block_offset : N)
    (buf : list byte) : list byte :=
  match buf with
  | [] => []
  | _ => ctr_loop key iv block_offset 0 (length buf / BLOCK) buf
  end.
End Ctr.

(** * CBC with ciphertext stealing *)

Inductive ModesError : Type :=
| InputTooShort (n : N).

(** The exchange of the last two of [blocks] blocks. *)
Definition swap_last_two (blocks : nat) (out : list byte) : list byte :=
  if 2 <=? blocks then
    let last_two := drop ((blocks - 2) * BLOCK) out in
    take ((blocks - 2) * BLOCK) out ++ drop BLOCK last_two ++ take BLOCK last_two
  else out.

Section Cts.
Context `{BlockCipher}.

Definition aes256_cbc_cts_encrypt (key iv plaintext : list byte)
    : result (list byte) ModesError :=
  let n := length plaintext in
  if n <? BLOCK then Err (InputTooShort (len plaintext))
  else if n mod BLOCK =? 0 then
    let blocks := n / BLOCK in
    Ok (swap_last_two blocks (cbc_encrypt_loop key blocks iv plaintext).1)
  else
    let r := n mod BLOCK in
    let full_prefix_blocks := (n - BLOCK - r) / BLOCK in
    let tail_offset := full_prefix_blocks * BLOCK in
    let '(out, prev) := cbc_encrypt_loop key full_prefix_blocks iv plaintext in
    let p_pen := take BLOCK (drop tail_offset plaintext) in
    let p_last := drop (tail_offset + BLOCK) plaintext in
    let c_pen_raw := encrypt_block key (xor_into p_pen prev) in
    let p_last_padded := p_last ++ replicate (BLOCK - r) zero in
    let c_last_full := encrypt_block key (xor_into p_last_padded c_pen_raw) in
    Ok (out ++ c_last_full ++ take r c_pen_raw).

Definition aes256_cbc_cts_decrypt (key iv ciphertext : list byte)
    : result (list byte) ModesError :=
  let n := length ciphertext in
  if n <? BLOCK then Err (InputTooShort (len ciphertext))
  else if n mod BLOCK =? 0 then
    let blocks := n / BLOCK in
    Ok (cbc_decrypt_loop key blocks iv (swap_last_two blocks ciphertext)).1
  else
    let r := n mod BLOCK in
    let full_prefix_blocks := (n - BLOCK - r) / BLOCK in
    let tail_offset := full_prefix_blocks * BLOCK in
    let '(out, prev) := cbc_decrypt_loop key full_prefix_blocks iv ciphertext in
    let c_last_full := take BLOCK (drop tail_offset ciphertext) in
    let c_pen_prefix := drop (tail_offset + BLOCK) ciphertext in
    let dec_last := decrypt_block key c_last_full in
    let c_pen_raw := c_pen_prefix ++ drop r dec_last in
    let p_last := xor_into (take r dec_last) (take r c_pen_raw) in
    let dec_pen := decrypt_block key c_pen_raw in
    let p_pen := xor_into dec_pen prev in
    Ok (out ++ p_pen ++ p_last).
End Cts.

(** * Theorems: counter mode *)
Section CtrFacts.
Context `{BlockCipherLaws}.

Lemma length_ctr_keystream key iv off i :
  length iv = BLOCK -> length (ctr_keystream key iv off i) = BLOCK.
Proof. intros Hiv. apply length_encrypt_block. unfold ctr_block_iv. by rewrite length_xor_into. Qed.

Lemma ctr_loop_0 key iv off i buf :
  ctr_loop key iv off i 0 buf = xor_into buf (ctr_keystream key iv off i).
Proof. by destruct buf. Qed.

Lemma ctr_unfold key iv off buf :
  aes256_ctr_pclsync_xor_inplace key iv off buf = ctr_loop key iv off 0 (length buf / BLOCK) buf.
Proof. by destruct buf. Qed.

Lemma length_ctr_loop key iv off i n buf : length (ctr_loop key iv off i n buf) = length buf.
Proof.
  revert i buf; induction n as [|n IH]; intros i buf.
  - by rewrite ctr_loop_0, length_xor_into.
  - cbn [ctr_loop]. rewrite length_app, length_xor_into, IH, length_take, length_drop. lia.
Qed.

Lemma length_ctr key iv off buf : length (aes256_ctr_pclsync_xor_inplace key iv off buf) = length buf.
Proof. rewrite ctr_unfold. apply length_ctr_loop. Qed.

Lemma block_div (m : nat) : m mod BLOCK < BLOCK /\ m = BLOCK * (m / BLOCK) + m mod BLOCK.
Proof. unfold BLOCK. split; [by apply Nat.mod_upper_bound|by apply Nat.div_mod_eq]. Qed.

(** The reference keystream: byte [p] of the buffer meets byte [p mod 16] of the encryption of
    the vector xored with block [p / 16]'s counter. *)
Definition keystream_byte (key iv : list byte) (off : N) (p : nat) : byte :=
  default zero (ctr_keystream key iv off (N.of_nat (p / BLOCK)) !! (p mod BLOCK)).

Lemma ctr_loop_lookup key iv off i n buf p b :
  length iv = BLOCK -> n * BLOCK <= length buf -> length buf < S n * BLOCK -> buf !! p = Some b ->
  ctr_loop key iv off i n buf !! p
  = Some (bxor b (default zero (ctr_keystream key iv off (i + N.of_nat (p / BLOCK)) !! (p mod BLOCK)))).
Proof.
  intros Hiv. revert i buf p b; induction n as [|n IH]; intros i buf p b Hlo Hhi Hp.
  - pose proof (lookup_lt_Some _ _ _ Hp) as Hlt.
    rewrite ctr_loop_0, Nat.div_small, Nat.mod_small, N.add_0_r by lia.
    destruct (lookup_lt_is_Some_2 (ctr_keystream key iv off i) p) as [k Hk].
    { rewrite length_ctr_keystream by done. lia. }
    rewrite Hk. by apply lookup_xor_into.
  - apply length_take_block in Hlo as Htd. destruct Htd as [Ht Hd]. cbn [ctr_loop].
    assert (length (xor_into (take BLOCK buf) (ctr_keystream key iv off i)) = BLOCK) as Hx.
    { by rewrite length_xor_into. }
    destruct (decide (p < BLOCK)) as [Hpb|Hpb].
    + rewrite lookup_app_l by lia. rewrite Nat.div_small, Nat.mod_small, N.add_0_r by lia.
      destruct (lookup_lt_is_Some_2 (ctr_keystream key iv off i) p) as [k Hk].
      { by rewrite length_ctr_keystream. }
      rewrite Hk. apply lookup_xor_into; [|done]. by rewrite lookup_take_lt.
    + rewrite lookup_app_r by lia. rewrite Hx.
      assert (p / BLOCK = S ((p - BLOCK) / BLOCK) /\ p mod BLOCK = (p - BLOCK) mod BLOCK) as [-> ->].
      { replace p with ((p - BLOCK) + 1 * BLOCK) at 1 3 by lia.
        rewrite Nat.div_add, Nat.Div0.mod_add by done. split; [lia|done]. }
      rewrite (IH (i + 1)%N (drop BLOCK buf) (p - BLOCK) b); [|done| |].
      * do 5 f_equal. lia.
      * rewrite length_drop. lia.
      * rewrite lookup_drop. rewrite <- Hp. f_equal. lia.
Qed.

(** The loop is the byte-wise xor with the reference keystream, whatever the tail. *)
Lemma ctr_is_keystream_xor key iv off buf :
  length iv = BLOCK ->
  aes256_ctr_pclsync_xor_inplace key iv off buf
  = imap (λ p b, bxor b (keystream_byte key iv off p)) buf.
Proof.
  intros Hiv. apply list_eq. intros p. rewrite list_lookup_imap, ctr_unfold.
  pose proof (block_div (length buf)) as [Hm Hd]. set (n := length buf / BLOCK) in *.
  destruct (buf !! p) as [b|] eqn:Hp; simpl.
  - rewrite (ctr_loop_lookup _ _ _ _ _ _ _ b) by (done || lia). unfold keystream_byte.
    by rewrite N.add_0_l.
  - apply lookup_ge_None in Hp. apply lookup_ge_None. by rewrite length_ctr_loop.
Qed.

Lemma keystream_byte_offset key iv off k p :
  keystream_byte key iv (u64_wrapping_add off (N.of_nat k)) p
  = keystream_byte key iv off (k * BLOCK + p).
Proof.
  unfold keystream_byte, ctr_keystream.
  rewrite Nat.add_comm, Nat.div_add, Nat.Div0.mod_add by done.
  assert (u64_wrapping_add (u64_wrapping_add off (N.of_nat k)) (N.of_nat (p / BLOCK))
          = u64_wrapping_add off (N.of_nat (p / BLOCK + k))) as ->; [|done].
  unfold u64_wrapping_add, as_u64. rewrite N.Div0.add_mod_idemp_l. f_equal. lia.
Qed.

(** The mode seeks: the ciphertext of a suffix is computed from its block index alone. *)
Lemma ctr_app key iv off k buf1 buf2 :
  length iv = BLOCK -> length buf1 = k * BLOCK ->
  aes256_ctr_pclsync_xor_inplace key iv off (buf1 ++ buf2)
  = aes256_ctr_pclsync_xor_inplace key iv off buf1
    ++ aes256_ctr_pclsync_xor_inplace key iv (u64_wrapping_add off (N.of_nat k)) buf2.
Proof.
  intros Hiv Hl. rewrite !ctr_is_keystream_xor by done. rewrite imap_app. f_equal.
  apply imap_ext. intros p b _. simpl. by rewrite Hl, keystream_byte_offset.
Qed.

Lemma ctr_involutive key iv off buf :
  length iv = BLOCK ->
  aes256_ctr_pclsync_xor_inplace key iv off (aes256_ctr_pclsync_xor_inplace key iv off buf) = buf.
Proof.
  intros Hiv. rewrite !ctr_is_keystream_xor by done. apply list_eq. intros p.
  rewrite !list_lookup_imap. destruct (buf !! p); simpl; [|done]. by rewrite bxor_cancel.
Qed.

Theorem ctr_decrypts_any_range key iv off k before range after :
  length iv = BLOCK -> length before = k * BLOCK ->
  aes256_ctr_pclsync_xor_inplace key iv (u64_wrapping_add off (N.of_nat k))
    (take (length range) (drop (k * BLOCK)
       (aes256_ctr_pclsync_xor_inplace key iv off (before ++ range ++ after)))) = range.
Proof.
  intros Hiv Hl. rewrite (ctr_app _ _ _ k) by done.
  rewrite drop_app_length' by (by rewrite length_ctr).
  set (off' := u64_wrapping_add _ _).
  assert (take (length range) (aes256_ctr_pclsync_xor_inplace key iv off' (range ++ after))
          = aes256_ctr_pclsync_xor_inplace key iv off' range) as ->.
  { rewrite !ctr_is_keystream_xor by done. rewrite imap_app.
    by rewrite take_app_length' by (by rewrite length_imap). }
  by apply ctr_involutive.
Qed.
End CtrFacts.

Definition toy_iv : list byte := to_le_bytes 16 987654321987654321.
Definition toy_key : list byte := to_le_bytes 32 12345678901234567890123456789.

Lemma ctr_decrypts_any_range_witness :
  @aes256_ctr_pclsync_xor_inplace toy_cipher toy_key toy_iv 1
    (take 3 (drop 32 (@aes256_ctr_pclsync_xor_inplace toy_cipher toy_key toy_iv U64_MAX
       (to_le_bytes 32 77 ++ chars "abc" ++ chars "defghijklmnopqrstuvwxyz")))) = chars "abc".
Proof.
  pose proof toy_cipher_laws as Hlaws.
  apply (ctr_decrypts_any_range toy_key toy_iv U64_MAX 2 (to_le_bytes 32 77) (chars "abc")
           (chars "defghijklmnopqrstuvwxyz")); reflexivity.
Defined.

(** * Theorems: ciphertext stealing *)
Section CtsFacts.
Context `{BlockCipherLaws}.

Lemma length_swap_last_two blocks out :
  blocks * BLOCK <= length out -> length (swap_last_two blocks out) = length out.
Proof.
  unfold swap_last_two. case_match eqn:E; [|done]. apply Nat.leb_le in E.
  rewrite !length_app, !length_take, !length_drop. unfold BLOCK. lia.
Qed.

Lemma swap_last_two_twice blocks out :
  length out = blocks * BLOCK -> swap_last_two blocks (swap_last_two blocks out) = out.
Proof.
  unfold swap_last_two. case_match eqn:E; [|done]. apply Nat.leb_le in E. intros Hl.
  set (k := (blocks - 2) * BLOCK).
  assert (length (take k out) = k) as Hk by (unfold k, BLOCK in *; rewrite length_take; lia).
  assert (length (drop BLOCK (drop k out)) = BLOCK) as Hd.
  { unfold k, BLOCK in *. rewrite !length_drop. lia. }
  rewrite drop_app_length', take_app_length' by done.
  rewrite drop_app_length', take_app_length' by done. by rewrite !take_drop.
Qed.

(** The last full block and the tail of the stealing case. *)
Lemma cts_split (l : list byte) :
  BLOCK <= length l -> length l mod BLOCK <> 0 ->
  exists k, (length l - BLOCK - length l mod BLOCK) / BLOCK = k /\
    length l = k * BLOCK + BLOCK + length l mod BLOCK /\ 0 < length l mod BLOCK < BLOCK.
Proof.
  intros Hl Hr. exists ((length l - BLOCK - length l mod BLOCK) / BLOCK).
  pose proof (block_div (length l)) as [Hm Hd]. split; [done|].
  assert (1 <= length l / BLOCK) by (apply Nat.div_le_lower_bound; [done|lia]).
  replace (length l - BLOCK - length l mod BLOCK) with ((length l / BLOCK - 1) * BLOCK) by nia.
  rewrite Nat.div_mul by done. nia.
Qed.

Lemma parts_of (l : list byte) k r :
  length l = k * BLOCK + BLOCK + r ->
  exists a b c, l = a ++ b ++ c /\ length a = k * BLOCK /\ length b = BLOCK /\ length c = r.
Proof.
  intros Hl. exists (take (k * BLOCK) l), (take BLOCK (drop (k * BLOCK) l)), (drop (k * BLOCK + BLOCK) l).
  rewrite <- drop_drop, !take_drop, !length_take, !length_drop. repeat split; lia.
Qed.

(** Padding with zeros and xoring keeps the end of the other operand. *)
Lemma xor_padded c p :
  length c <= BLOCK -> length p = BLOCK ->
  xor_into (c ++ replicate (BLOCK - length c) zero) p
  = xor_into c (take (length c) p) ++ drop (length c) p.
Proof.
  intros Hc Hp. rewrite <- (take_drop (length c) p) at 1.
  rewrite xor_into_app by (rewrite length_take; lia). f_equal.
  assert (BLOCK - length c = length (drop (length c) p)) as -> by (rewrite length_drop; lia).
  generalize (drop (length c) p) as q. intros q; induction q as [|x q IH]; simpl; [done|].
  rewrite IH. f_equal. by destruct x.
Qed.

(** The two modes on an input split into full blocks, a last full block and a tail. *)
Lemma parts_arith (l a b c : list byte) k :
  l = a ++ b ++ c -> length a = k * BLOCK -> length b = BLOCK -> 0 < length c < BLOCK ->
  (length l <? BLOCK) = false /\ (length l mod BLOCK =? 0) = false /\
  length l mod BLOCK = length c /\ (length l - BLOCK - length c) / BLOCK = k.
Proof.
  intros -> Ha Hb Hc. assert (length (a ++ b ++ c) = length c + S k * BLOCK) as Hl.
  { rewrite !length_app. lia. }
  assert (length (a ++ b ++ c) mod BLOCK = length c) as Hm.
  { by rewrite Hl, Nat.Div0.mod_add, Nat.mod_small by lia. }
  rewrite Hm, Nat.eqb_neq, Nat.ltb_ge. repeat split; [lia..|].
  replace (length (a ++ b ++ c) - BLOCK - length c) with (k * BLOCK) by lia. by apply Nat.div_mul.
Qed.

Lemma parts_slices (a b c : list byte) k :
  length a = k * BLOCK -> length b = BLOCK ->
  take BLOCK (drop (k * BLOCK) (a ++ b ++ c)) = b /\ drop (k * BLOCK + BLOCK) (a ++ b ++ c) = c.
Proof.
  intros Ha Hb. rewrite <- drop_drop, drop_app_length' by done.
  by rewrite take_app_length', drop_app_length' by done.
Qed.

Lemma cts_encrypt_parts key iv a b c k :
  length a = k * BLOCK -> length b = BLOCK -> 0 < length c < BLOCK -> length iv = BLOCK ->
  aes256_cbc_cts_encrypt key iv (a ++ b ++ c)
  = let '(out, prev) := cbc_encrypt_loop key k iv a in
    let c_pen := encrypt_block key (xor_into b prev) in
    Ok (out ++ encrypt_block key (xor_into c (take (length c) c_pen) ++ drop (length c) c_pen)
            ++ take (length c) c_pen).
Proof.
  intros Ha Hb Hc Hiv. destruct (parts_arith _ a b c k eq_refl Ha Hb Hc) as (H1 & H2 & H3 & H4).
  destruct (parts_slices a b c k Ha Hb) as [Hs1 Hs2].
  unfold aes256_cbc_cts_encrypt. rewrite H1, H2, H3, H4, Hs1, Hs2, cbc_encrypt_take by lia.
  pose proof (cbc_encrypt_lengths key k iv a Hiv ltac:(lia)) as [_ Hp].
  destruct (cbc_encrypt_loop key k iv a) as [out prev]. cbn [snd] in Hp.
  by rewrite xor_padded by (lia || by rewrite length_encrypt_block by (by rewrite length_xor_into)).
Qed.

Lemma cbc_decrypt_take key blocks prev ct rest :
  blocks * BLOCK <= length ct ->
  cbc_decrypt_loop key blocks prev (ct ++ rest) = cbc_decrypt_loop key blocks prev ct.
Proof.
  revert prev ct; induction blocks as [|n IH]; intros prev ct Hl; [done|].
  apply length_take_block in Hl as [Ht Hd]. rewrite length_take in Ht.
  cbn [cbc_decrypt_loop]. rewrite take_app_le, drop_app_le by lia. by rewrite IH.
Qed.

Lemma cts_decrypt_parts key iv a b c k :
  length a = k * BLOCK -> length b = BLOCK -> 0 < length c < BLOCK ->
  aes256_cbc_cts_decrypt key iv (a ++ b ++ c)
  = let '(out, prev) := cbc_decrypt_loop key k iv a in
    let dec_last := decrypt_block key b in
    Ok (out ++ xor_into (decrypt_block key (c ++ drop (length c) dec_last)) prev
            ++ xor_into (take (length c) dec_last) c).
Proof.
  intros Ha Hb Hc. destruct (parts_arith _ a b c k eq_refl Ha Hb Hc) as (H1 & H2 & H3 & H4).
  destruct (parts_slices a b c k Ha Hb) as [Hs1 Hs2].
  unfold aes256_cbc_cts_decrypt. rewrite H1, H2, H3, H4, Hs1, Hs2, cbc_decrypt_take by lia.
  destruct (cbc_decrypt_loop key k iv a) as [out prev]. by rewrite take_app_length.
Qed.

Lemma cts_roundtrip_parts key iv a b c k ct :
  length a = k * BLOCK -> length b = BLOCK -> 0 < length c < BLOCK -> length iv = BLOCK ->
  aes256_cbc_cts_encrypt key iv (a ++ b ++ c) = Ok ct ->
  aes256_cbc_cts_decrypt key iv ct = Ok (a ++ b ++ c) /\ length ct = length (a ++ b ++ c).
Proof.
  intros Ha Hb Hc Hiv. rewrite (cts_encrypt_parts _ _ _ _ _ k) by done.
  pose proof (cbc_encrypt_lengths key k iv a Hiv ltac:(lia)) as [Ho Hp].
  pose proof (cbc_decrypt_encrypt key k iv a [] Hiv ltac:(lia)) as Hde.
  destruct (cbc_encrypt_loop key k iv a) as [out prev]. cbn [fst snd] in *.
  set (c_pen := encrypt_block key (xor_into b prev)). intros [= <-].
  assert (length c_pen = BLOCK) as Hcp.
  { apply length_encrypt_block. by rewrite length_xor_into. }
  set (y := xor_into c (take (length c) c_pen) ++ drop (length c) c_pen).
  assert (length y = BLOCK) as Hy.
  { unfold y. rewrite length_app, length_xor_into, length_drop. lia. }
  assert (length (take (length c) c_pen) = length c) as Ht by (rewrite length_take; lia).
  split; [|rewrite !length_app, length_encrypt_block, Ht by done; lia].
  rewrite (cts_decrypt_parts _ _ _ _ _ k) by (done || (rewrite ?Ht; first [done|by apply length_encrypt_block])).
  rewrite app_nil_r in Hde. rewrite Hde, decrypt_encrypt_block, Ht by done.
  assert (length (xor_into c (take (length c) c_pen)) = length c) as Hx by apply length_xor_into.
  unfold y. rewrite drop_app_length', take_app_length' by done.
  rewrite (take_drop (length c) c_pen). unfold c_pen at 1.
  rewrite decrypt_encrypt_block by (by rewrite length_xor_into).
  rewrite !xor_into_twice. rewrite <- Ha, firstn_all. done.
Qed.

Lemma cts_roundtrip_parts_inv key iv a b c k pt :
  length a = k * BLOCK -> length b = BLOCK -> 0 < length c < BLOCK -> length iv = BLOCK ->
  aes256_cbc_cts_decrypt key iv (a ++ b ++ c) = Ok pt ->
  aes256_cbc_cts_encrypt key iv pt = Ok (a ++ b ++ c).
Proof.
  intros Ha Hb Hc Hiv. rewrite (cts_decrypt_parts _ _ _ _ _ k) by done.
  pose proof (cbc_decrypt_lengths key k iv a Hiv ltac:(lia)) as [Ho Hp].
  pose proof (cbc_encrypt_decrypt key k iv a [] Hiv ltac:(lia)) as Hed.
  destruct (cbc_decrypt_loop key k iv a) as [out prev]. cbn [fst snd] in *.
  set (d := decrypt_block key b). intros [= <-].
  assert (length d = BLOCK) as Hd by by apply length_decrypt_block.
  set (c_pen := c ++ drop (length c) d).
  assert (length c_pen = BLOCK) as Hcp by (unfold c_pen; rewrite length_app, length_drop; lia).
  set (p_last := xor_into (take (length c) d) c).
  assert (length p_last = length c) as Hpl.
  { unfold p_last. rewrite length_xor_into, length_take. lia. }
  rewrite (cts_encrypt_parts _ _ _ _ _ k);
    [|done|rewrite length_xor_into; by apply length_decrypt_block|lia|done].
  rewrite app_nil_r in Hed. rewrite Hed. cbv beta iota zeta.
  rewrite Hpl, xor_into_twice. fold c_pen. rewrite encrypt_decrypt_block by done.
  assert (take (length c) c_pen = c /\ drop (length c) c_pen = drop (length c) d) as [-> ->].
  { unfold c_pen. by rewrite take_app_length, drop_app_length. }
  unfold p_last. rewrite xor_into_twice, take_drop. unfold d.
  rewrite encrypt_decrypt_block by done. by rewrite <- Ha, firstn_all.
Qed.

(** An input of at least one block is a number of blocks, or has the three parts above. *)
Lemma block_cases (l : list byte) :
  BLOCK <= length l ->
  ((length l mod BLOCK = 0 /\ length l = length l / BLOCK * BLOCK) \/
   exists k a b c, l = a ++ b ++ c /\ length a = k * BLOCK /\ length b = BLOCK /\ 0 < length c < BLOCK).
Proof.
  intros Hl. destruct (decide (length l mod BLOCK = 0)) as [Hm|Hm].
  - left. split; [done|]. pose proof (block_div (length l)) as [_ Hd].
    rewrite Hm, Nat.add_0_r in Hd. by rewrite Nat.mul_comm.
  - right. destruct (cts_split l Hl Hm) as (k & _ & Hk & Hr).
    destruct (parts_of l k _ Hk) as (a & b & c & -> & Ha & Hb & Hc).
    exists k, a, b, c. by rewrite Hc.
Qed.

Lemma cts_encrypt_multiple key iv l :
  BLOCK <= length l -> length l mod BLOCK = 0 ->
  aes256_cbc_cts_encrypt key iv l
  = Ok (swap_last_two (length l / BLOCK) (cbc_encrypt_loop key (length l / BLOCK) iv l).1).
Proof.
  intros Hl Hm. unfold aes256_cbc_cts_encrypt. rewrite Hm.
  by rewrite (proj2 (Nat.ltb_ge _ _) Hl).
Qed.

Lemma cts_decrypt_multiple key iv l :
  BLOCK <= length l -> length l mod BLOCK = 0 ->
  aes256_cbc_cts_decrypt key iv l
  = Ok (cbc_decrypt_loop key (length l / BLOCK) iv (swap_last_two (length l / BLOCK) l)).1.
Proof.
  intros Hl Hm. unfold aes256_cbc_cts_decrypt. rewrite Hm.
  by rewrite (proj2 (Nat.ltb_ge _ _) Hl).
Qed.

Lemma cts_encrypt_decrypts key iv pt ct :
  length iv = BLOCK -> aes256_cbc_cts_encrypt key iv pt = Ok ct ->
  aes256_cbc_cts_decrypt key iv ct = Ok pt /\ length ct = length pt.
Proof.
  intros Hiv He. destruct (decide (BLOCK <= length pt)) as [Hl|Hl].
  2:{ unfold aes256_cbc_cts_encrypt in He. by rewrite (proj2 (Nat.ltb_lt _ _)) in He by lia. }
  destruct (block_cases pt Hl) as [[Hm Hn]|(k & a & b & c & -> & Ha & Hb & Hc)];
    [|by apply (cts_roundtrip_parts _ _ _ _ _ k)].
  rewrite cts_encrypt_multiple in He by done. set (n := length pt / BLOCK) in *.
  pose proof (cbc_encrypt_lengths key n iv pt Hiv ltac:(lia)) as [Ho _].
  pose proof (cbc_decrypt_encrypt key n iv pt [] Hiv ltac:(lia)) as Hde.
  destruct (cbc_encrypt_loop key n iv pt) as [out prev]. cbn [fst snd] in *. injection He as <-.
  assert (length (swap_last_two n out) = length pt) as Hs.
  { rewrite length_swap_last_two; lia. }
  split; [|done]. rewrite cts_decrypt_multiple by (by rewrite Hs). rewrite Hs. fold n.
  rewrite swap_last_two_twice by done. rewrite app_nil_r in Hde.
  by rewrite Hde, <- Hn, firstn_all.
Qed.

Lemma cts_decrypt_encrypts key iv ct pt :
  length iv = BLOCK -> aes256_cbc_cts_decrypt key iv ct = Ok pt ->
  aes256_cbc_cts_encrypt key iv pt = Ok ct.
Proof.
  intros Hiv He. destruct (decide (BLOCK <= length ct)) as [Hl|Hl].
  2:{ unfold aes256_cbc_cts_decrypt in He. by rewrite (proj2 (Nat.ltb_lt _ _)) in He by lia. }
  destruct (block_cases ct Hl) as [[Hm Hn]|(k & a & b & c & -> & Ha & Hb & Hc)];
    [|by apply (cts_roundtrip_parts_inv _ _ _ _ _ k)].
  rewrite cts_decrypt_multiple in He by done. set (n := length ct / BLOCK) in *.
  assert (length (swap_last_two n ct) = length ct) as Hs by (rewrite length_swap_last_two; lia).
  pose proof (cbc_decrypt_lengths key n iv _ Hiv ltac:(rewrite Hs; lia)) as [Ho _].
  pose proof (cbc_encrypt_decrypt key n iv (swap_last_two n ct) [] Hiv ltac:(rewrite Hs; lia)) as Hed.
  destruct (cbc_decrypt_loop key n iv (swap_last_two n ct)) as [out prev]. cbn [fst snd] in *.
  injection He as <-. rewrite app_nil_r in Hed.
  assert (length out = length ct) as Hlo by lia.
  rewrite cts_encrypt_multiple by (by rewrite Hlo). rewrite Hlo. fold n. rewrite Hed. cbn [fst].
  rewrite <- Hn, <- Hs, firstn_all. by rewrite swap_last_two_twice.
Qed.

(** Decryption and encryption are inverse to each other, errors included: a ciphertext opens to a
    plaintext if and only if the plaintext is encrypted to it. *)
Theorem cts_decrypt_inverts_encrypt key iv pt ct :
  length iv = BLOCK ->
  aes256_cbc_cts_decrypt key iv ct = Ok pt <-> aes256_cbc_cts_encrypt key iv pt = Ok ct.
Proof.
  intros Hiv. split; [by apply cts_decrypt_encrypts|].
  intros He. by apply cts_encrypt_decrypts.
Qed.

(** Every input of a block or more is encrypted, to its own length; the others are refused. *)
Lemma cts_encrypt_outcome key iv pt :
  length iv = BLOCK ->
  match aes256_cbc_cts_encrypt key iv pt with
  | Ok ct => BLOCK <= length pt /\ length ct = length pt
  | Err e => length pt < BLOCK /\ e = InputTooShort (len pt)
  end.
Proof.
  intros Hiv. destruct (aes256_cbc_cts_encrypt key iv pt) as [ct|e] eqn:E.
  - split; [|by eapply cts_encrypt_decrypts]. unfold aes256_cbc_cts_encrypt in E.
    case_match eqn:Hlt; [done|]. by apply Nat.ltb_ge.
  - unfold aes256_cbc_cts_encrypt in E. case_match eqn:Hlt.
    + apply Nat.ltb_lt in Hlt. by injection E as <-.
    + case_match; [done|]. by destruct (cbc_encrypt_loop _ _ _ _).
Qed.
End CtsFacts.

Lemma cts_decrypt_inverts_encrypt_witness :
  let pt := to_le_bytes 37 31415926535897932384626433832795 in
  exists ct, @aes256_cbc_cts_encrypt toy_cipher toy_key toy_iv pt = Ok ct /\
    @aes256_cbc_cts_decrypt toy_cipher toy_key toy_iv ct = Ok pt.
Proof.
  intros pt. pose proof toy_cipher_laws as Hlaws.
  destruct (@aes256_cbc_cts_encrypt toy_cipher toy_key toy_iv pt) as [ct|e] eqn:E;
    [|vm_compute in E; discriminate].
  exists ct. split; [done|].
  by apply (cts_decrypt_inverts_encrypt toy_key toy_iv pt ct eq_refl).
Defined.
