(* ===== verification/Sector.v ===== *)
(** The sector AEAD of crates/pcloud-crypto/src/pclsync_sector.rs.

    A sector of 1 to 4096 bytes is sealed under a 16-byte nonce into a ciphertext of the same
    length and a 32-byte tag; [open_sector] recovers plaintext and nonce and compares the
    digest.  Sealing never panics, and opening succeeds exactly on the sealings. *)
From S2P Require Import Prelude Paths Bytes CryptoPrims Modes.

Definition PCLSYNC_SECTOR_SIZE : nat := 4096.

Record SectorKeys : Type := mkSectorKeys { aes_key : list byte; hmac_key : list byte }.

Record SealedSector : Type := mkSealedSector { ciphertext : list byte; auth_tag : list byte }.

Inductive SectorError : Type :=
| PlaintextTooLong (n : N)
| CiphertextTooLong (n : N)
| AuthFailed
| Rng (e : string)
| EmptySector.

Section Sector.
Context `{BlockCipher, HmacSha512}.

(** The digest of the concatenated parts. *)
Definition hmac_sha512 (key : list byte) (parts : list (list byte)) : list byte :=
  hmac_sha512_digest key (concat parts).

Definition ecb_encrypt_two_blocks (key blocks : list byte) : list byte :=
  encrypt_block key (take BLOCK blocks) ++ encrypt_block key (drop BLOCK blocks).

Definition ecb_decrypt_two_blocks (key blocks : list byte) : list byte :=
  decrypt_block key (take BLOCK blocks) ++ decrypt_block key (drop BLOCK blocks).

(** [needsteal] and the length of the chained part; the subtraction panics when it underflows. *)
Definition steal_split (n : nat) : option (nat * nat) :=
  if n mod BLOCK =? 0 then Some (0, n)
  else if n <? n mod BLOCK + BLOCK then None
  else Some (n mod BLOCK, n - (n mod BLOCK + BLOCK)).

Definition cbc_cs_encrypt (key iv plaintext : list byte) : option (list byte) :=
  '(needsteal, chained) ← steal_split (length plaintext);
  let '(out, prev) := cbc_encrypt_loop key (chained / BLOCK) iv plaintext in
  if needsteal =? 0 then Some out
  else
    let pen_pt := take BLOCK (drop chained plaintext) in
    let tail_pt := take needsteal (drop (chained + BLOCK) plaintext) in
    let aessrc := xor_into prev pen_pt in
    let aesdst := encrypt_block key aessrc in
    let tail_ct := take needsteal aesdst in
    let aesdst := xor_into (take needsteal aesdst) tail_pt ++ drop needsteal aesdst in
    let final_ct := encrypt_block key aesdst in
    Some (out ++ final_ct ++ tail_ct).

Definition cbc_cs_decrypt (key iv ciphertext : list byte) : option (list byte) :=
  '(needsteal, chained) ← steal_split (length ciphertext);
  let '(out, prev) := cbc_decrypt_loop key (chained / BLOCK) iv ciphertext in
  if needsteal =? 0 then Some out
  else
    let tail_ct := take needsteal (drop (chained + BLOCK) ciphertext) in
    let aessrc := take BLOCK (drop chained ciphertext) in
    let aesdst := decrypt_block key aessrc in
    let aesdst := xor_into (take needsteal aesdst) tail_ct ++ drop needsteal aesdst in
    let tail_out := take needsteal aesdst in
    let aesdst := tail_ct ++ drop needsteal aesdst in
    let again := decrypt_block key aesdst in
    let again := xor_into again prev in
    Some (out ++ again ++ tail_out).

(** [None] is a panic of the chaining helper. *)
Definition seal_sector_with_rnd (keys : SectorKeys) (sector_id : N) (plaintext rnd : list byte)
    : option (result SealedSector SectorError) :=
  if bool_decide (plaintext = []) then Some (Err EmptySector)
  else if PCLSYNC_SECTOR_SIZE <? length plaintext then Some (Err (PlaintextTooLong (len plaintext)))
  else
    let sector_id_le := to_le_bytes 8 sector_id in
    let hmac_digest := hmac_sha512 (hmac_key keys) [plaintext; sector_id_le; rnd] in
    let datalen := length plaintext in
    if datalen <? BLOCK then
      let tag_plain := xor_into (take datalen rnd) plaintext ++ drop datalen rnd
                       ++ take BLOCK hmac_digest in
      Some (Ok (mkSealedSector (take datalen rnd) (ecb_encrypt_two_blocks (aes_key keys) tag_plain)))
    else
      let tag_plain := take (BLOCK / 2) rnd ++ take BLOCK hmac_digest ++ drop (BLOCK / 2) rnd in
      let auth_tag := ecb_encrypt_two_blocks (aes_key keys) tag_plain in
      let iv := take BLOCK hmac_digest in
      ciphertext ← cbc_cs_encrypt (aes_key keys) iv plaintext;
      Some (Ok (mkSealedSector ciphertext auth_tag)).

(** [seal_sector]: the same checks, then the nonce from the system's generator. *)
Definition seal_sector (rng : result (list byte) string) (keys : SectorKeys) (sector_id : N)
    (plaintext : list byte) : option (result SealedSector SectorError) :=
  if bool_decide (plaintext = []) then Some (Err EmptySector)
  else if PCLSYNC_SECTOR_SIZE <? length plaintext then Some (Err (PlaintextTooLong (len plaintext)))
  else match rng with
       | Err e => Some (Err (Rng e))
       | Ok rnd => seal_sector_with_rnd keys sector_id plaintext rnd
       end.

Definition open_sector (keys : SectorKeys) (sector_id : N) (ciphertext auth_tag : list byte)
    : option (result (list byte) SectorError) :=
  if bool_decide (ciphertext = []) then Some (Err EmptySector)
  else if PCLSYNC_SECTOR_SIZE <? length ciphertext then Some (Err (CiphertextTooLong (len ciphertext)))
  else
    let tag_plain := ecb_decrypt_two_blocks (aes_key keys) auth_tag in
    let datalen := length ciphertext in
    '(plaintext, hmac16, rnd_recovered) ←
      (if datalen <? BLOCK then
         let rnd_xored_pt := take BLOCK tag_plain in
         let hmac_digest_slot := drop BLOCK tag_plain in
         Some (xor_into (take datalen rnd_xored_pt) ciphertext,
               hmac_digest_slot,
               ciphertext ++ drop datalen rnd_xored_pt)
       else
         let iv := take BLOCK (drop (BLOCK / 2) tag_plain) in
         plaintext ← cbc_cs_decrypt (aes_key keys) iv ciphertext;
         Some (plaintext, iv,
               take (BLOCK / 2) tag_plain ++ drop (BLOCK + BLOCK / 2) tag_plain));
    let sector_id_le := to_le_bytes 8 sector_id in
    let recomputed := hmac_sha512 (hmac_key keys) [plaintext; sector_id_le; rnd_recovered] in
    if bool_decide (take BLOCK recomputed = hmac16) then Some (Ok plaintext)
    else Some (Err AuthFailed).
End Sector.

(** * The chaining helper *)
Section ChainFacts.
Context `{BlockCipherLaws}.

Lemma steal_split_parts (a b c : list byte) k :
  length a = k * BLOCK -> length b = BLOCK -> 0 < length c < BLOCK ->
  steal_split (length (a ++ b ++ c)) = Some (length c, k * BLOCK).
Proof.
  intros Ha Hb Hc. destruct (parts_arith _ a b c k eq_refl Ha Hb Hc) as (H1 & H2 & H3 & H4).
  unfold steal_split. rewrite H2, H3, (proj2 (Nat.ltb_ge _ _)) by (rewrite !length_app; lia).
  do 2 f_equal. rewrite !length_app. lia.
Qed.

(** On a length that is no multiple of the block, the helper is the CS3 mode of
    pclsync_modes.rs ... *)
Lemma cbc_cs_encrypt_cts key iv pt :
  BLOCK <= length pt -> length pt mod BLOCK <> 0 -> length iv = BLOCK ->
  exists ct, cbc_cs_encrypt key iv pt = Some ct /\ aes256_cbc_cts_encrypt key iv pt = Ok ct.
Proof.
  intros Hl Hm Hiv. destruct (block_cases pt Hl) as [[? _]|(k & a & b & c & -> & Ha & Hb & Hc)]; [done|].
  rewrite (cts_encrypt_parts _ _ _ _ _ k) by done. unfold cbc_cs_encrypt.
  rewrite (steal_split_parts a b c k) by done. cbn [mbind option_bind]. rewrite Nat.div_mul, cbc_encrypt_take by (done || lia).
  pose proof (cbc_encrypt_lengths key k iv a Hiv ltac:(lia)) as [_ Hp].
  destruct (cbc_encrypt_loop key k iv a) as [out prev]. cbn [snd] in Hp.
  rewrite (proj2 (Nat.eqb_neq _ _)) by lia.
  destruct (parts_slices a b c k Ha Hb) as [-> ->]. rewrite firstn_all.
  rewrite (xor_into_comm prev b) by congruence.
  set (p := encrypt_block key (xor_into b prev)).
  assert (length p = BLOCK) as Hlp by (apply length_encrypt_block; by rewrite length_xor_into).
  rewrite (xor_into_comm (take (length c) p) c) by (rewrite length_take; lia). eauto.
Qed.

Lemma cbc_cs_decrypt_cts key iv ct :
  BLOCK <= length ct -> length ct mod BLOCK <> 0 -> length iv = BLOCK ->
  exists pt, cbc_cs_decrypt key iv ct = Some pt /\ aes256_cbc_cts_decrypt key iv ct = Ok pt.
Proof.
  intros Hl Hm Hiv. destruct (block_cases ct Hl) as [[? _]|(k & a & b & c & -> & Ha & Hb & Hc)]; [done|].
  rewrite (cts_decrypt_parts _ _ _ _ _ k) by done. unfold cbc_cs_decrypt.
  rewrite (steal_split_parts a b c k) by done. cbn [mbind option_bind]. rewrite Nat.div_mul, cbc_decrypt_take by (done || lia).
  destruct (cbc_decrypt_loop key k iv a) as [out prev].
  rewrite (proj2 (Nat.eqb_neq _ _)) by lia.
  destruct (parts_slices a b c k Ha Hb) as [-> ->]. rewrite firstn_all.
  set (d := decrypt_block key b).
  assert (length d = BLOCK) as Hd by by apply length_decrypt_block.
  assert (length (xor_into (take (length c) d) c) = length c) as Hx.
  { rewrite length_xor_into, length_take. lia. }
  rewrite take_app_length', drop_app_length' by done. eauto.
Qed.

(** ... and plain chaining on the others. *)
Lemma cbc_cs_multiple key iv l :
  length l mod BLOCK = 0 ->
  cbc_cs_encrypt key iv l = Some (cbc_encrypt_loop key (length l / BLOCK) iv l).1 /\
  cbc_cs_decrypt key iv l = Some (cbc_decrypt_loop key (length l / BLOCK) iv l).1.
Proof.
  intros Hm. unfold cbc_cs_encrypt, cbc_cs_decrypt, steal_split. rewrite Hm.
  cbn [mbind option_bind Nat.eqb].
  split; [by destruct (cbc_encrypt_loop _ _ _ _)|by destruct (cbc_decrypt_loop _ _ _ _)].
Qed.

(** The helper succeeds on a block or more, keeps the length and is inverted by its dual. *)
Lemma cbc_cs_encrypt_ok key iv pt :
  BLOCK <= length pt -> length iv = BLOCK ->
  exists ct, cbc_cs_encrypt key iv pt = Some ct /\ length ct = length pt /\
    cbc_cs_decrypt key iv ct = Some pt.
Proof.
  intros Hl Hiv. destruct (decide (length pt mod BLOCK = 0)) as [Hm|Hm].
  - destruct (block_cases pt Hl) as [[_ Hn]|(k & a & b & c & -> & Ha & Hb & Hc)].
    2:{ by destruct (parts_arith _ a b c k eq_refl Ha Hb Hc) as (_ & E%Nat.eqb_neq & _). }
    rewrite (proj1 (cbc_cs_multiple key iv pt Hm)). set (n := length pt / BLOCK) in *.
    pose proof (cbc_encrypt_lengths key n iv pt Hiv ltac:(lia)) as [Ho _].
    pose proof (cbc_decrypt_encrypt key n iv pt [] Hiv ltac:(lia)) as Hde.
    eexists; split; [done|]. rewrite app_nil_r in Hde.
    assert (length (cbc_encrypt_loop key n iv pt).1 = length pt) as Hs by lia. split; [done|].
    rewrite (proj2 (cbc_cs_multiple key iv _ (eq_trans (f_equal (λ m, m mod BLOCK) Hs) Hm))).
    rewrite Hs. fold n. by rewrite Hde, <- Hn, firstn_all.
  - destruct (cbc_cs_encrypt_cts key iv pt Hl Hm Hiv) as (ct & Hc & He).
    apply cts_encrypt_decrypts in He as [Hd Hlen]; [|done]. exists ct. split; [done|]. split; [done|].
    destruct (cbc_cs_decrypt_cts key iv ct) as (pt' & Hc' & Hd'); [by rewrite Hlen..|done|].
    congruence.
Qed.

Lemma cbc_cs_decrypt_ok key iv ct :
  BLOCK <= length ct -> length iv = BLOCK ->
  exists pt, cbc_cs_decrypt key iv ct = Some pt /\ length pt = length ct /\
    cbc_cs_encrypt key iv pt = Some ct.
Proof.
  intros Hl Hiv. destruct (decide (length ct mod BLOCK = 0)) as [Hm|Hm].
  - destruct (block_cases ct Hl) as [[_ Hn]|(k & a & b & c & -> & Ha & Hb & Hc)].
    2:{ by destruct (parts_arith _ a b c k eq_refl Ha Hb Hc) as (_ & E%Nat.eqb_neq & _). }
    rewrite (proj2 (cbc_cs_multiple key iv ct Hm)). set (n := length ct / BLOCK) in *.
    pose proof (cbc_decrypt_lengths key n iv ct Hiv ltac:(lia)) as [Ho _].
    pose proof (cbc_encrypt_decrypt key n iv ct [] Hiv ltac:(lia)) as Hed.
    eexists; split; [done|]. rewrite app_nil_r in Hed.
    assert (length (cbc_decrypt_loop key n iv ct).1 = length ct) as Hs by lia. split; [done|].
    rewrite (proj1 (cbc_cs_multiple key iv _ (eq_trans (f_equal (λ m, m mod BLOCK) Hs) Hm))).
    rewrite Hs. fold n. by rewrite Hed, <- Hn, firstn_all.
  - destruct (cbc_cs_decrypt_cts key iv ct Hl Hm Hiv) as (pt & Hc & Hd).
    pose proof (cts_decrypt_encrypts _ _ _ _ Hiv Hd) as He.
    apply cts_encrypt_decrypts in He as [_ Hlen] ; [|done]. exists pt. split; [done|]. split; [done|].
    destruct (cbc_cs_encrypt_cts key iv pt) as (ct' & Hc' & He'); [by rewrite <- Hlen..|done|].
    apply cts_decrypt_encrypts in Hd; [|done]. congruence.
Qed.
End ChainFacts.

(** * Sealing and opening *)
Section SectorFacts.
Context `{BlockCipherLaws, HmacSha512Laws}.

Lemma length_ecb_encrypt key l : length l = 2 * BLOCK -> length (ecb_encrypt_two_blocks key l) = 2 * BLOCK.
Proof.
  intros Hl. unfold ecb_encrypt_two_blocks.
  rewrite length_app, !length_encrypt_block by (rewrite ?length_take, ?length_drop; lia). lia.
Qed.

Lemma ecb_decrypt_encrypt key l :
  length l = 2 * BLOCK -> ecb_decrypt_two_blocks key (ecb_encrypt_two_blocks key l) = l.
Proof.
  intros Hl. unfold ecb_encrypt_two_blocks, ecb_decrypt_two_blocks.
  assert (length (take BLOCK l) = BLOCK /\ length (drop BLOCK l) = BLOCK) as [Ht Hd].
  { rewrite length_take, length_drop. lia. }
  rewrite take_app_length', drop_app_length' by (symmetry + idtac; by apply length_encrypt_block).
  rewrite !decrypt_encrypt_block by done. apply take_drop.
Qed.

Lemma ecb_encrypt_decrypt key l :
  length l = 2 * BLOCK -> ecb_encrypt_two_blocks key (ecb_decrypt_two_blocks key l) = l.
Proof.
  intros Hl. unfold ecb_encrypt_two_blocks, ecb_decrypt_two_blocks.
  assert (length (take BLOCK l) = BLOCK /\ length (drop BLOCK l) = BLOCK) as [Ht Hd].
  { rewrite length_take, length_drop. lia. }
  rewrite take_app_length', drop_app_length' by (symmetry + idtac; by apply length_decrypt_block).
  rewrite !encrypt_decrypt_block by done. apply take_drop.
Qed.

Lemma length_ecb_decrypt key l : length l = 2 * BLOCK -> length (ecb_decrypt_two_blocks key l) = 2 * BLOCK.
Proof.
  intros Hl. unfold ecb_decrypt_two_blocks.
  rewrite length_app, !length_decrypt_block by (rewrite ?length_take, ?length_drop; lia). lia.
Qed.

Lemma length_iv key parts : length (take BLOCK (hmac_sha512 key parts)) = BLOCK.
Proof. unfold hmac_sha512. rewrite length_take, length_hmac_digest. done. Qed.

(** Three-part slices of a tag. *)
Lemma tag_parts (a b c : list byte) :
  length a = BLOCK / 2 -> length b = BLOCK -> length c = BLOCK / 2 ->
  take (BLOCK / 2) (a ++ b ++ c) = a /\ take BLOCK (drop (BLOCK / 2) (a ++ b ++ c)) = b /\
  drop (BLOCK + BLOCK / 2) (a ++ b ++ c) = c /\ length (a ++ b ++ c) = 2 * BLOCK.
Proof.
  intros Ha Hb Hc. rewrite (Nat.add_comm BLOCK), <- drop_drop, drop_app_length' by done.
  rewrite !take_app_length', drop_app_length' by done. rewrite !length_app, Ha, Hb, Hc. done.
Qed.

Lemma block_le_sector : BLOCK <= PCLSYNC_SECTOR_SIZE.
Proof. apply Nat.leb_le. reflexivity. Qed.

Lemma seal_checks (pt : list byte) :
  pt <> [] -> length pt <= PCLSYNC_SECTOR_SIZE ->
  bool_decide (pt = []) = false /\ (PCLSYNC_SECTOR_SIZE <? length pt) = false.
Proof.
  intros Hne Hl. rewrite bool_decide_eq_false, Nat.ltb_ge. done.
Qed.

(** The short path, with the nonce split at the length of the data. *)
Lemma seal_short keys sid pt r1 r2 :
  0 < length pt < BLOCK -> length r1 = length pt ->
  seal_sector_with_rnd keys sid pt (r1 ++ r2)
  = Some (Ok (mkSealedSector r1 (ecb_encrypt_two_blocks (aes_key keys)
      ((xor_into r1 pt ++ r2)
        ++ take BLOCK (hmac_sha512 (hmac_key keys) [pt; to_le_bytes 8 sid; r1 ++ r2]))))).
Proof.
  intros Hl Hr. unfold seal_sector_with_rnd.
  destruct (seal_checks pt) as [-> ->];
    [by intros ->; simpl in Hl; lia|pose proof block_le_sector; lia|].
  rewrite (proj2 (Nat.ltb_lt _ _)) by lia. rewrite <- Hr.
  by rewrite take_app_length, drop_app_length, <- app_assoc.
Qed.

Lemma open_short keys sid ct tag x1 x2 h :
  0 < length ct < BLOCK -> length x1 = length ct -> length (x1 ++ x2) = BLOCK -> length h = BLOCK ->
  ecb_decrypt_two_blocks (aes_key keys) tag = (x1 ++ x2) ++ h ->
  open_sector keys sid ct tag
  = if bool_decide (take BLOCK (hmac_sha512 (hmac_key keys)
        [xor_into x1 ct; to_le_bytes 8 sid; ct ++ x2]) = h)
    then Some (Ok (xor_into x1 ct)) else Some (Err AuthFailed).
Proof.
  intros Hl Hx Hb Hh Ht. unfold open_sector.
  destruct (seal_checks ct) as [-> ->];
    [by intros ->; simpl in Hl; lia|pose proof block_le_sector; lia|].
  rewrite Ht, (proj2 (Nat.ltb_lt _ _)) by lia.
  rewrite (take_app_length' (x1 ++ x2)), (drop_app_length' (x1 ++ x2)) by done.
  cbn [mbind option_bind]. rewrite <- Hx, take_app_length, drop_app_length. done.
Qed.

Lemma seal_long keys sid pt rnd ct :
  BLOCK <= length pt <= PCLSYNC_SECTOR_SIZE ->
  let h := take BLOCK (hmac_sha512 (hmac_key keys) [pt; to_le_bytes 8 sid; rnd]) in
  cbc_cs_encrypt (aes_key keys) h pt = Some ct ->
  seal_sector_with_rnd keys sid pt rnd
  = Some (Ok (mkSealedSector ct (ecb_encrypt_two_blocks (aes_key keys)
      (take (BLOCK / 2) rnd ++ h ++ drop (BLOCK / 2) rnd)))).
Proof.
  intros Hl h Hc. unfold seal_sector_with_rnd.
  destruct (seal_checks pt) as [-> ->];
    [by intros ->; simpl in Hl; unfold BLOCK in *; lia|lia|].
  rewrite (proj2 (Nat.ltb_ge _ _)) by lia. fold h. by rewrite Hc.
Qed.

Lemma open_long keys sid ct tag pt a h c :
  BLOCK <= length ct <= PCLSYNC_SECTOR_SIZE ->
  length a = BLOCK / 2 -> length h = BLOCK -> length c = BLOCK / 2 ->
  ecb_decrypt_two_blocks (aes_key keys) tag = a ++ h ++ c ->
  cbc_cs_decrypt (aes_key keys) h ct = Some pt ->
  open_sector keys sid ct tag
  = if bool_decide (take BLOCK (hmac_sha512 (hmac_key keys) [pt; to_le_bytes 8 sid; a ++ c]) = h)
    then Some (Ok pt) else Some (Err AuthFailed).
Proof.
  intros Hl Ha Hh Hc Ht Hd. unfold open_sector.
  destruct (seal_checks ct) as [-> ->];
    [by intros ->; simpl in Hl; unfold BLOCK in *; lia|lia|].
  destruct (tag_parts a h c Ha Hh Hc) as (H3 & H4 & H5 & _).
  rewrite Ht, (proj2 (Nat.ltb_ge _ _)), H3, H4, H5, Hd by lia. done.
Qed.

(** The outcome of sealing on every input; what is sealed opens to the plaintext. *)
Lemma seal_open keys sid pt rnd :
  length rnd = BLOCK -> pt <> [] -> length pt <= PCLSYNC_SECTOR_SIZE ->
  exists s, seal_sector_with_rnd keys sid pt rnd = Some (Ok s) /\
    length (ciphertext s) = length pt /\ length (auth_tag s) = 2 * BLOCK /\
    open_sector keys sid (ciphertext s) (auth_tag s) = Some (Ok pt).
Proof.
  intros Hr Hne Hl. assert (0 < length pt) as Hpos by (destruct pt; [done|simpl; lia]).
  destruct (decide (length pt < BLOCK)) as [Hs|Hs].
  - rewrite <- (take_drop (length pt) rnd) in Hr |- *.
    assert (length (take (length pt) rnd) = length pt) as Hr1.
    { rewrite take_drop in Hr. rewrite length_take. lia. }
    generalize dependent (drop (length pt) rnd). generalize dependent (take (length pt) rnd).
    intros r1 Hr1 r2 Hr.
    rewrite seal_short by done. eexists; split; [done|]. cbn [ciphertext auth_tag].
    pose proof (length_iv (hmac_key keys) [pt; to_le_bytes 8 sid; r1 ++ r2]) as Hiv.
    set (h := take BLOCK _) in *.
    assert (length (xor_into r1 pt ++ r2) = BLOCK) as Hx.
    { rewrite <- Hr, !length_app, length_xor_into. done. }
    split; [done|]. split; [apply length_ecb_encrypt; rewrite length_app; lia|].
    rewrite (open_short _ _ _ _ (xor_into r1 pt) r2 h);
      [|lia|by rewrite length_xor_into|done|done|by rewrite ecb_decrypt_encrypt by (rewrite length_app; lia)].
    rewrite (xor_into_comm r1 pt), xor_into_twice by done. by rewrite bool_decide_eq_true_2.
  - pose proof (length_iv (hmac_key keys) [pt; to_le_bytes 8 sid; rnd]) as Hiv.
    destruct (cbc_cs_encrypt_ok (aes_key keys) _ pt ltac:(lia) Hiv) as (ct & Hc & Hcl & Hd).
    rewrite (seal_long _ _ _ _ ct) by (done || lia). eexists; split; [done|]. cbn [ciphertext auth_tag].
    set (h := take BLOCK (hmac_sha512 _ _)) in *.
    assert (length (take (BLOCK / 2) rnd) = BLOCK / 2 /\ length (drop (BLOCK / 2) rnd) = BLOCK / 2)
      as [Ha Hb] by (rewrite length_take, length_drop, Hr; done).
    destruct (tag_parts _ h _ Ha Hiv Hb) as (_ & _ & _ & Hlt).
    split; [done|]. split; [by apply length_ecb_encrypt|].
    rewrite (open_long _ _ _ _ pt (take (BLOCK / 2) rnd) h (drop (BLOCK / 2) rnd));
      [|lia|exact Ha|done|exact Hb|by apply ecb_decrypt_encrypt|done].
    rewrite take_drop. by rewrite bool_decide_eq_true_2.
Qed.

(** What opens is a sealing: under the recovered nonce, sealing the plaintext gives back this
    very ciphertext and tag. *)
Lemma open_sealed keys sid ct tag pt :
  length tag = 2 * BLOCK -> open_sector keys sid ct tag = Some (Ok pt) ->
  exists rnd, length rnd = BLOCK /\
    seal_sector_with_rnd keys sid pt rnd = Some (Ok (mkSealedSector ct tag)).
Proof.
  intros Ht Ho. pose proof (length_ecb_decrypt (aes_key keys) tag Ht) as Hd.
  pose proof (ecb_encrypt_decrypt (aes_key keys) tag Ht) as Hed.
  assert (0 < length ct <= PCLSYNC_SECTOR_SIZE) as [Hpos Hl].
  { unfold open_sector in Ho. case_bool_decide as Hne; [done|].
    destruct (PCLSYNC_SECTOR_SIZE <? length ct) eqn:Hlt; [done|]. apply Nat.ltb_ge in Hlt.
    destruct ct; [done|]. cbn [length] in *. lia. }
  set (tp := ecb_decrypt_two_blocks (aes_key keys) tag) in *.
  destruct (decide (length ct < BLOCK)) as [Hs|Hs].
  - assert (length (take BLOCK tp) = BLOCK /\ length (drop BLOCK tp) = BLOCK) as [Hx Hh].
    { rewrite length_take, length_drop. lia. }
    set (x1 := take (length ct) (take BLOCK tp)). set (x2 := drop (length ct) (take BLOCK tp)).
    assert (length x1 = length ct) as Hx1 by (unfold x1; rewrite length_take; lia).
    assert (x1 ++ x2 = take BLOCK tp) as Hx12 by apply take_drop.
    rewrite (open_short _ _ _ _ x1 x2 (drop BLOCK tp)) in Ho;
      [|lia|done|by rewrite Hx12|done|by rewrite Hx12, take_drop].
    case_bool_decide as Heq; simplify_eq. exists (ct ++ x2).
    rewrite seal_short by (by rewrite length_xor_into, ?Hx1).
    rewrite Heq, xor_into_cancel_l, Hx12, take_drop, Hed by done.
    split; [|done]. rewrite length_app, <- Hx1, <- length_app, Hx12. done.
  - set (a := take (BLOCK / 2) tp). set (h := take BLOCK (drop (BLOCK / 2) tp)).
    set (c := drop (BLOCK + BLOCK / 2) tp).
    assert (length a = BLOCK / 2 /\ length h = BLOCK /\ length c = BLOCK / 2) as (Ha & Hh & Hc).
    { unfold a, h, c. rewrite !length_take, !length_drop, Hd. done. }
    assert (a ++ h ++ c = tp) as Htp.
    { unfold a, h, c. rewrite (Nat.add_comm BLOCK), <- drop_drop. by rewrite !take_drop. }
    destruct (cbc_cs_decrypt_ok (aes_key keys) h ct ltac:(lia) Hh) as (pt' & Hdec & Hlen & Henc).
    rewrite (open_long _ _ _ _ pt' a h c) in Ho by (done || lia).
    case_bool_decide as Heq; simplify_eq. exists (a ++ c).
    assert (length (a ++ c) = BLOCK) as Hac by (rewrite length_app, Ha, Hc; done).
    split; [done|]. rewrite (seal_long _ _ _ _ ct) by (lia || by rewrite Heq).
    by rewrite Heq, take_app_length', drop_app_length', Htp, Hed.
Qed.

(** C13: A sector opens if and only if it is a sealing of the plaintext under some nonce: no other
    ciphertext and tag is ever accepted. *)
Theorem open_accepts_exactly_the_sealings keys sid ct tag pt :
  length tag = 2 * BLOCK ->
  open_sector keys sid ct tag = Some (Ok pt) <->
  exists rnd, length rnd = BLOCK /\
    seal_sector_with_rnd keys sid pt rnd = Some (Ok (mkSealedSector ct tag)).
Proof.
  intros Ht. split; [by apply open_sealed|]. intros (rnd & Hr & Hs).
  assert (pt <> [] /\ length pt <= PCLSYNC_SECTOR_SIZE) as [Hne Hl].
  { unfold seal_sector_with_rnd in Hs. case_bool_decide as Hne; [done|].
    destruct (PCLSYNC_SECTOR_SIZE <? length pt) eqn:Hlt; [done|]. by apply Nat.ltb_ge in Hlt. }
  destruct (seal_open keys sid pt rnd Hr Hne Hl) as (s & Hs' & _ & _ & Ho).
  rewrite Hs in Hs'. by injection Hs' as <-.
Qed.

(** Sealing never panics, and its outcome on every input. *)
Theorem seal_sector_outcome rng keys sid pt :
  (forall rnd, rng = Ok rnd -> length rnd = BLOCK) ->
  exists r, seal_sector rng keys sid pt = Some r /\
    match r with
    | Ok s => pt <> [] /\ length pt <= PCLSYNC_SECTOR_SIZE /\ is_ok rng = true /\
        length (ciphertext s) = length pt /\ length (auth_tag s) = 2 * BLOCK /\
        open_sector keys sid (ciphertext s) (auth_tag s) = Some (Ok pt)
    | Err EmptySector => pt = []
    | Err (PlaintextTooLong n) => n = len pt /\ PCLSYNC_SECTOR_SIZE < length pt
    | Err (Rng e) => rng = Err e
    | Err _ => False
    end.
Proof.
  intros Hrng. unfold seal_sector. case_bool_decide as Hne; [by eexists|].
  case_match eqn:Hl; [eexists; split; [done|]; by apply Nat.ltb_lt in Hl|].
  apply Nat.ltb_ge in Hl. destruct rng as [rnd|e]; [|by eexists].
  destruct (seal_open keys sid pt rnd (Hrng rnd eq_refl) Hne Hl) as (s & Hs & H3 & H4 & H5).
  by exists (Ok s).
Qed.

(** Opening returns for every ciphertext and every 32-byte tag. *)
Lemma open_sector_total keys sid ct tag :
  length tag = 2 * BLOCK -> is_Some (open_sector keys sid ct tag).
Proof.
  intros Ht. pose proof (length_ecb_decrypt (aes_key keys) tag Ht) as Hd. unfold open_sector.
  case_match; [done|]. case_match; [done|]. case_match eqn:Hs.
  - cbn [mbind option_bind]. by case_match.
  - apply Nat.ltb_ge in Hs.
    destruct (cbc_cs_decrypt_ok (aes_key keys)
      (take BLOCK (drop (BLOCK / 2) (ecb_decrypt_two_blocks (aes_key keys) tag))) ct Hs)
      as (pt & -> & _); [rewrite length_take, length_drop, Hd; done|].
    cbn [mbind option_bind]. by case_match.
Qed.
End SectorFacts.

Definition toy_keys : SectorKeys := mkSectorKeys toy_key (chars "mac key").

Lemma open_accepts_exactly_the_sealings_witness :
  let rnd := to_le_bytes 16 4242424242 in
  exists s, @seal_sector_with_rnd toy_cipher toy_hmac toy_keys 7 (chars "a sector of 24 bytes....") rnd
            = Some (Ok s) /\
    @open_sector toy_cipher toy_hmac toy_keys 7 (ciphertext s) (auth_tag s)
    = Some (Ok (chars "a sector of 24 bytes....")).
Proof.
  intros rnd. pose proof toy_cipher_laws as Hc. pose proof toy_hmac_laws as Hh.
  destruct (@seal_sector_with_rnd toy_cipher toy_hmac toy_keys 7 (chars "a sector of 24 bytes....") rnd)
    as [[[ct tag]|e]|] eqn:E; [|vm_compute in E; discriminate..].
  exists (mkSealedSector ct tag). split; [done|].
  apply (open_accepts_exactly_the_sealings toy_keys 7 ct tag (chars "a sector of 24 bytes....")).
  - vm_compute in E. by injection E as <- <-.
  - exists rnd. split; [done|exact E].
Defined.

Lemma seal_sector_outcome_witness :
  exists r, @seal_sector toy_cipher toy_hmac (Ok (to_le_bytes 16 5)) toy_keys 7 (chars "short") = Some r /\
    is_ok r = true.
Proof.
  pose proof toy_cipher_laws as Hc. pose proof toy_hmac_laws as Hh.
  destruct (@seal_sector_outcome toy_cipher Hc toy_hmac Hh (Ok (to_le_bytes 16 5)) toy_keys 7 (chars "short")) as (r & Hr & Hm).
  { by intros rnd [= <-]. }
  exists r. split; [exact Hr|]. destruct r as [s|[]]; try done.
Defined.

(** A wrong sector id is refused. *)
Example open_other_sector :
  (s ← @seal_sector_with_rnd toy_cipher toy_hmac toy_keys 7 (chars "short") (to_le_bytes 16 5);
   match s with
   | Ok s => @open_sector toy_cipher toy_hmac toy_keys 8 (ciphertext s) (auth_tag s)
   | Err e => Some (Err e)
   end) = Some (Err AuthFailed).
Proof. vm_compute. reflexivity. Qed.

(** The two modules disagree on whole blocks: the exported CS3 mode exchanges the last two
    blocks, the mode the sectors use does not. *)
Lemma sector_mode_is_not_the_exported_mode `{BlockCipherLaws} key iv pt :
  length iv = BLOCK -> length pt mod BLOCK = 0 -> 2 * BLOCK <= length pt ->
  exists ct, cbc_cs_encrypt key iv pt = Some ct /\
    aes256_cbc_cts_encrypt key iv pt
    = Ok (take (length ct - 2 * BLOCK) ct ++ drop (length ct - BLOCK) ct
          ++ take BLOCK (drop (length ct - 2 * BLOCK) ct)).
Proof.
  intros Hiv Hm Hl. destruct (block_cases pt ltac:(lia)) as [[_ Hn]|(k & a & b & c & -> & Ha & Hb & Hc)].
  2:{ by destruct (parts_arith _ a b c k eq_refl Ha Hb Hc) as (_ & E%Nat.eqb_neq & _). }
  rewrite (proj1 (cbc_cs_multiple key iv pt Hm)). eexists; split; [done|].
  rewrite cts_encrypt_multiple by lia. set (n := length pt / BLOCK) in *.
  pose proof (cbc_encrypt_lengths key n iv pt Hiv ltac:(lia)) as [Ho _].
  destruct (cbc_encrypt_loop key n iv pt) as [out prev]. cbn [fst] in *.
  assert (2 <= n) as H2 by (unfold BLOCK in *; lia). unfold swap_last_two.
  rewrite (proj2 (Nat.leb_le _ _)) by done. f_equal. rewrite drop_drop, Ho.
  replace (n * BLOCK - 2 * BLOCK) with ((n - 2) * BLOCK) by (unfold BLOCK; lia).
  by replace (n * BLOCK - BLOCK) with ((n - 2) * BLOCK + BLOCK) by (unfold BLOCK in *; lia).
Qed.
