(* ===== verification/Base32.v ===== *)
(** The base-32 envelope of encoded file names: [base32_encode] and [base32_decode] of
    crates/pcloud-crypto/src/pclsync_filename.rs.

    Both loops keep a 32-bit accumulator that is shifted left without ever being cleared.  They
    are shown equal to the description of RFC 4648 on the list of bits: quintets of the bits
    padded with zeros one way, the complete octets of the bits the other way. *)
From S2P Require Import Prelude Paths Bytes.

Definition BASE32_ALPHABET : list byte := chars "ABCDEFGHIJKLMNOPQRSTUVWXYZ234567".

(** [BASE32_ALPHABET[i]]; the index is below 32 everywhere. *)
Definition alphabet (i : N) : byte := safe_get BASE32_ALPHABET (N.to_nat i).

(** [x << k] and [x >> k] on [u32]. *)
Definition u32_shl (x k : N) : N := as_u32 (N.shiftl x k).

(** * The code *)

(** The main loop: take a byte when fewer than five bits are pending, emit five bits.  The
    second and third components are the accumulator and the number of pending bits at the
    [break]; each byte allows at most two iterations. *)
Fixpoint base32_encode_loop (fuel : nat) (buff bits : N) (input out : list byte)
    : option (list byte * N * N) :=
  match fuel with
  | 0 => None
  | S fuel' =>
      let emit buff bits input :=
        let bits := (bits - 5)%N in
        base32_encode_loop fuel' buff bits input
          (out ++ [alphabet (N.land (N.shiftr buff bits) 31)]) in
      if (bits <? 5)%N then
        match input with
        | b :: input' => emit (N.lor (u32_shl buff 8) (N_of_ascii b)) (bits + 8)%N input'
        | [] => Some (out, buff, bits)
        end
      else emit buff bits input
  end.

(** The final [while bits > 0], which runs at most once. *)
Definition base32_encode_flush (out : list byte) (buff bits : N) : list byte :=
  if (0 <? bits)%N then
    let buff := if (bits <? 5)%N then u32_shl buff (5 - bits) else buff in
    let bits := if (bits <? 5)%N then 5%N else bits in
    let bits := (bits - 5)%N in
    out ++ [alphabet (N.land (N.shiftr buff bits) 31)]
  else out.

Definition base32_encode (input : list byte) : list byte :=
  match base32_encode_loop (S (2 * length input)) 0 0 input [] with
  | Some (out, buff, bits) => base32_encode_flush out buff bits
  | None => []
  end.

(** The value of a character, [None] outside the alphabet. *)
Definition base32_value (ch : byte) : option N :=
  if in_range 65 90 ch then Some (N.land (N_of_ascii ch) 31 - 1)%N
  else if in_range 50 55 ch then Some (N_of_ascii ch - (50 - 26))%N
  else None.

Fixpoint base32_decode_loop (buff bits : N) (input : list byte) : option (list byte) :=
  match input with
  | [] => Some []
  | ch :: input' =>
      v ← base32_value ch;
      let buff := N.lor (u32_shl buff 5) v in
      let bits := (bits + 5)%N in
      if (8 <=? bits)%N then
        let bits := (bits - 8)%N in
        rest ← base32_decode_loop buff bits input';
        Some (to_byte (N.shiftr buff bits) :: rest)
      else base32_decode_loop buff bits input'
  end.

(** [None] is [FilenameError::Base32Decode]. *)
Definition base32_decode (input : list byte) : option (list byte) := base32_decode_loop 0 0 input.

(** * The reference: lists of bits, most significant first *)

Fixpoint bits_of (w : nat) (n : N) : list bool :=
  match w with
  | 0 => []
  | S w' => N.testbit n (N.of_nat w') :: bits_of w' n
  end.

Fixpoint of_bits (acc : N) (l : list bool) : N :=
  match l with
  | [] => acc
  | b :: l' => of_bits (2 * acc + N.b2n b) l'
  end.

(** Groups of five, the last one padded with zeros. *)
Fixpoint quintets (l : list bool) : list (list bool) :=
  match l with
  | a :: b :: c :: d :: e :: l' => [a; b; c; d; e] :: quintets l'
  | [] => []
  | _ => [l ++ replicate (5 - length l) false]
  end.

(** The complete groups of eight. *)
Fixpoint octets (l : list bool) : list (list bool) :=
  match l with
  | a :: b :: c :: d :: e :: f :: g :: h :: l' => [a; b; c; d; e; f; g; h] :: octets l'
  | _ => []
  end.

Definition byte_bits (l : list byte) : list bool := flat_map (λ b, bits_of 8 (N_of_ascii b)) l.

Definition base32_encode_spec (input : list byte) : list byte :=
  (λ q, alphabet (of_bits 0 q)) <$> quintets (byte_bits input).

Definition base32_decode_spec (input : list byte) : option (list byte) :=
  vs ← mapM base32_value input;
  Some ((λ o, to_byte (of_bits 0 o)) <$> octets (flat_map (bits_of 5) vs)).

Example base32_ex : base32_encode (chars "pcloud") = chars "OBRWY33VMQ".
Proof. vm_compute. reflexivity. Qed.

Example base32_ex2 : base32_decode (chars "OBRWY33VMQ") = Some (chars "pcloud").
Proof. vm_compute. reflexivity. Qed.

(** * Bits *)

Lemma length_bits_of w n : length (bits_of w n) = w.
Proof. induction w; simpl; congruence. Qed.

Lemma of_bits_bits_of w n acc : of_bits acc (bits_of w n) = (acc * 2 ^ N.of_nat w + n mod 2 ^ N.of_nat w)%N.
Proof.
  revert acc; induction w as [|w IH]; intros acc; cbn [bits_of of_bits].
  - rewrite N.mod_1_r. simpl. lia.
  - rewrite IH, Nat2N.inj_succ, N.pow_succ_r by lia.
    rewrite (N.mul_comm 2 (2 ^ _)), N.Div0.mod_mul_r.
    rewrite N.testbit_spec' . nia.
Qed.

Lemma bits_of_mod w n k : w <= k -> bits_of w (n mod 2 ^ N.of_nat k) = bits_of w n.
Proof.
  induction w as [|w IH]; intros Hk; [done|]. cbn [bits_of].
  rewrite IH by lia. f_equal. apply N.mod_pow2_bits_low. lia.
Qed.

(** The low [v] bits of a number follow the others. *)
Lemma bits_of_app w v n : bits_of (w + v) n = bits_of w (N.shiftr n (N.of_nat v)) ++ bits_of v n.
Proof.
  induction w as [|w IH]; [done|]. cbn [plus bits_of app]. rewrite IH. f_equal.
  rewrite N.shiftr_spec by lia. f_equal. lia.
Qed.

Lemma bits_of_ext w n m :
  (forall i, (i < N.of_nat w)%N -> N.testbit n i = N.testbit m i) -> bits_of w n = bits_of w m.
Proof.
  induction w as [|w IH]; intros Hi; [done|]. cbn [bits_of].
  rewrite Hi by lia. f_equal. apply IH. intros i Hlt. apply Hi. lia.
Qed.

(** Shifting the accumulator and or-ing [v] new bits appends them, as long as the pending bits
    fit in the 32. *)
Lemma bits_of_push w v b x :
  (x < 2 ^ N.of_nat v)%N -> w + v <= 32 ->
  bits_of (w + v) (N.lor (u32_shl b (N.of_nat v)) x) = bits_of w b ++ bits_of v x.
Proof.
  intros Hx Hw. rewrite bits_of_app. f_equal; apply bits_of_ext; intros i Hi.
  - rewrite N.shiftr_spec, N.lor_spec by lia. unfold u32_shl, as_u32.
    rewrite N.mod_pow2_bits_low, N.shiftl_spec_high by lia.
    replace (i + N.of_nat v - N.of_nat v)%N with i by lia.
    rewrite <- (N.mod_small x (2 ^ N.of_nat v)) by done.
    rewrite N.mod_pow2_bits_high by lia. apply orb_false_r.
  - rewrite N.lor_spec. unfold u32_shl, as_u32.
    rewrite N.mod_pow2_bits_low, N.shiftl_spec_low by lia. done.
Qed.

Lemma of_bits_5 x : of_bits 0 (bits_of 5 x) = N.land x 31.
Proof. rewrite of_bits_bits_of. change 31%N with (N.ones 5). by rewrite N.land_ones. Qed.

Lemma of_bits_8 x : of_bits 0 (bits_of 8 x) = (x mod 256)%N.
Proof. by rewrite of_bits_bits_of. Qed.

Lemma to_byte_mod x : to_byte (x mod 256) = to_byte x.
Proof. unfold to_byte, as_u8. change (2 ^ 8)%N with 256%N. by rewrite N.Div0.mod_mod. Qed.

Lemma byte_of_bits b : to_byte (of_bits 0 (bits_of 8 (N_of_ascii b))) = b.
Proof. rewrite of_bits_8, to_byte_mod. apply to_byte_of_ascii. Qed.

Lemma quintets_app x l : length x = 5 -> quintets (x ++ l) = x :: quintets l.
Proof. intros Hx. by destruct x as [|? [|? [|? [|? [|? []]]]]]. Qed.

Lemma octets_app x l : length x = 8 -> octets (x ++ l) = x :: octets l.
Proof. intros Hx. by destruct x as [|? [|? [|? [|? [|? [|? [|? [|? []]]]]]]]]. Qed.

Lemma octets_short l : length l < 8 -> octets l = [].
Proof.
  intros Hl. destruct l as [|? [|? [|? [|? [|? [|? [|? [|? l]]]]]]]]; try done. simpl in Hl. lia.
Qed.

Lemma byte_bits_cons b l : byte_bits (b :: l) = bits_of 8 (N_of_ascii b) ++ byte_bits l.
Proof. done. Qed.

Lemma length_byte_bits l : length (byte_bits l) = 8 * length l.
Proof.
  induction l as [|b l IH]; [done|]. rewrite byte_bits_cons, length_app, length_bits_of, IH.
  simpl. lia.
Qed.

(** One emission: the first five pending bits leave. *)
Lemma emit_quintet w buff rest :
  (λ q, alphabet (of_bits 0 q)) <$> quintets (bits_of (5 + w) buff ++ rest)
  = alphabet (N.land (N.shiftr buff (N.of_nat w)) 31)
    :: ((λ q, alphabet (of_bits 0 q)) <$> quintets (bits_of w buff ++ rest)).
Proof.
  rewrite bits_of_app, <- app_assoc, quintets_app by apply length_bits_of.
  by rewrite fmap_cons, of_bits_5.
Qed.

(** What the flush adds is the padded last quintet. *)
Lemma flush_quintet w buff out :
  w < 5 ->
  base32_encode_flush out buff (N.of_nat w)
  = out ++ ((λ q, alphabet (of_bits 0 q)) <$> quintets (bits_of w buff)).
Proof.
  intros Hw. unfold base32_encode_flush. destruct (decide (w = 0)) as [->|Hw0]; [by rewrite app_nil_r|].
  rewrite (proj2 (N.ltb_lt _ _)), (proj2 (N.ltb_lt (N.of_nat w) 5)) by lia. f_equal.
  assert (quintets (bits_of w buff) = [bits_of w buff ++ replicate (5 - w) false]) as ->.
  { pose proof (length_bits_of w buff) as Hl. rewrite <- Hl at 3.
    generalize dependent (bits_of w buff). intros l Hl.
    destruct l as [|? [|? [|? [|? [|? l]]]]]; try done; simpl in Hl; lia. }
  rewrite fmap_cons. cbn [fmap list_fmap]. do 2 f_equal.
  assert (bits_of w buff ++ replicate (5 - w) false
          = bits_of 5 (N.lor (u32_shl buff (N.of_nat (5 - w))) 0)) as ->.
  { replace 5 with (w + (5 - w)) at 2 by lia.
    rewrite bits_of_push by (lia || (apply N.neq_0_lt_0, N.pow_nonzero; lia)). f_equal.
    generalize (5 - w) as k. induction k as [|k IH]; [done|]. cbn [replicate bits_of]. by rewrite IH. }
  rewrite of_bits_5, N.lor_0_r. f_equal. change (5 - 5)%N with 0%N. rewrite N.shiftr_0_r.
  f_equal. f_equal. lia.
Qed.

Lemma base32_encode_loop_spec fuel w buff input out :
  w <= 7 -> 2 * length input + (if decide (5 <= w) then 2 else 1) <= fuel ->
  exists out' buff' bits',
    base32_encode_loop fuel buff (N.of_nat w) input out = Some (out', buff', bits') /\
    base32_encode_flush out' buff' bits'
    = out ++ ((λ q, alphabet (of_bits 0 q)) <$> quintets (bits_of w buff ++ byte_bits input)).
Proof.
  revert w buff input out; induction fuel as [|fuel IH]; intros w buff input out Hw Hf.
  { case_decide; lia. }
  cbn [base32_encode_loop]. case_decide as H5.
  - rewrite (proj2 (N.ltb_ge _ _)) by lia.
    replace (N.of_nat w - 5)%N with (N.of_nat (w - 5)) by lia.
    destruct (IH (w - 5) buff input (out ++ [alphabet (N.land (N.shiftr buff (N.of_nat (w - 5))) 31)]))
      as (o & b & k & Hl & Hfl); [lia|rewrite decide_False by lia; lia|].
    exists o, b, k. split; [done|]. rewrite Hfl.
    assert (bits_of w buff = bits_of (5 + (w - 5)) buff) as -> by (f_equal; lia).
    by rewrite emit_quintet, <- app_assoc.
  - rewrite (proj2 (N.ltb_lt _ _)) by lia. destruct input as [|c input].
    + exists out, buff, (N.of_nat w). split; [done|]. rewrite flush_quintet by lia.
      change (byte_bits []) with (@nil bool). by rewrite app_nil_r.
    + replace (N.of_nat w + 8 - 5)%N with (N.of_nat (w + 3)) by lia.
      set (buff' := N.lor (u32_shl buff 8) (N_of_ascii c)).
      destruct (IH (w + 3) buff' input (out ++ [alphabet (N.land (N.shiftr buff' (N.of_nat (w + 3))) 31)]))
        as (o & b & k & Hl & Hfl); [lia|simpl in Hf; case_decide; lia|].
      exists o, b, k. split; [done|]. rewrite Hfl, <- app_assoc. f_equal.
      rewrite byte_bits_cons, app_assoc.
      change 8%N with (N.of_nat 8) in buff'. unfold buff'.
      rewrite <- (bits_of_push w 8 buff (N_of_ascii c)) by (apply N_ascii_bounded || lia).
      replace (w + 8) with (5 + (w + 3)) by lia. by rewrite emit_quintet.
Qed.

(** The encoder is the reference: it never runs out of fuel, and its accumulator loses no
    pending bit. *)
Lemma base32_encode_correct input : base32_encode input = base32_encode_spec input.
Proof.
  unfold base32_encode. destruct (base32_encode_loop_spec (S (2 * length input)) 0 0 input [])
    as (o & b & k & Hl & Hfl); [lia|rewrite decide_False by lia; lia|].
  change 0%N with (N.of_nat 0) at 2. rewrite Hl, Hfl. done.
Qed.

Lemma in_range_bound lo hi b : in_range lo hi b = true -> (lo <= N_of_ascii b <= hi)%N.
Proof. apply in_range_spec. Qed.

Lemma base32_value_bound ch v : base32_value ch = Some v -> (v < 32)%N.
Proof.
  unfold base32_value. case_match eqn:E1.
  - intros [= <-]. change 31%N with (N.ones 5). rewrite N.land_ones.
    pose proof (N.mod_lt (N_of_ascii ch) (2 ^ 5)). lia.
  - case_match eqn:E2; [|done]. intros [= <-]. apply in_range_spec in E2. lia.
Qed.

Lemma base32_decode_loop_spec w buff input :
  w < 8 ->
  base32_decode_loop buff (N.of_nat w) input
  = vs ← mapM base32_value input;
    Some ((λ o, to_byte (of_bits 0 o)) <$> octets (bits_of w buff ++ (flat_map (bits_of 5) vs))).
Proof.
  revert w buff; induction input as [|ch input IH]; intros w buff Hw.
  - simpl. rewrite app_nil_r, octets_short by (by rewrite length_bits_of). done.
  - cbn [base32_decode_loop mapM]. destruct (base32_value ch) as [v|] eqn:Hv; [|done].
    apply base32_value_bound in Hv. cbn [mbind option_bind].
    set (buff' := N.lor (u32_shl buff 5) v).
    assert (forall vs, bits_of w buff ++ (flat_map (bits_of 5) (v :: vs))
                       = bits_of (w + 5) buff' ++ (flat_map (bits_of 5) vs)) as Hp.
    { intros vs. cbn [flat_map]. rewrite app_assoc. unfold buff'. change 5%N with (N.of_nat 5).
      by rewrite bits_of_push by (done || lia). }
    case_match eqn:Hb.
    + apply N.leb_le in Hb. replace (N.of_nat w + 5 - 8)%N with (N.of_nat (w - 3)) by lia.
      rewrite IH by lia. destruct (mapM base32_value input) as [vs|]; [|done]. cbn [mbind option_bind mret option_ret].
      rewrite Hp. replace (w + 5) with (8 + (w - 3)) by lia.
      rewrite (bits_of_app 8), <- app_assoc, (octets_app (bits_of 8 _)) by apply length_bits_of.
      by rewrite fmap_cons, of_bits_8, to_byte_mod.
    + apply N.leb_gt in Hb. replace (N.of_nat w + 5)%N with (N.of_nat (w + 5)) by lia.
      rewrite IH by lia. destruct (mapM base32_value input) as [vs|]; [|done]. cbn [mbind option_bind mret option_ret].
      by rewrite Hp.
Qed.

Lemma base32_decode_correct input : base32_decode input = base32_decode_spec input.
Proof. exact (base32_decode_loop_spec 0 0 input ltac:(lia)). Qed.

(** * The two directions together *)

Lemma base32_value_alphabet i : (i < 32)%N -> base32_value (alphabet i) = Some i.
Proof.
  intros Hi. assert (forallb (λ k, bool_decide (base32_value (alphabet (N.of_nat k)) = Some (N.of_nat k)))
    (seq 0 32) = true) as Hall by (vm_compute; reflexivity).
  rewrite forallb_forall in Hall. specialize (Hall (N.to_nat i)).
  rewrite N2Nat.id in Hall. apply (bool_decide_eq_true_1 _), Hall.
  apply (proj2 (in_seq 32 0 (N.to_nat i))). lia.
Qed.

Lemma bits_of_of_bits_5 q : length q = 5 -> bits_of 5 (of_bits 0 q) = q /\ (of_bits 0 q < 32)%N.
Proof.
  intros Hq. destruct q as [|a [|b [|c [|d [|e []]]]]]; try done.
  by destruct a, b, c, d, e.
Qed.

(** Five at a time, with the last group explicit. *)
Lemma quintets_concat l :
  exists k, k < 5 /\ concat (quintets l) = l ++ replicate k false /\
    Forall (λ q, length q = 5) (quintets l) /\ length (quintets l) = (length l + 4) / 5.
Proof.
  induction l as [l IH] using (induction_ltof1 _ (@length bool)); unfold ltof in IH.
  destruct l as [|a [|b [|c [|d [|e l]]]]];
    [exists 0|exists 4|exists 3|exists 2|exists 1|]; try (split; [lia|]; by repeat constructor).
  destruct (IH l) as (k & Hk & Hc & Hall & Hlen); [simpl; lia|].
  exists k. split; [done|]. cbn [quintets concat]. rewrite Hc. split; [done|]. split; [by constructor|].
  cbn [length]. rewrite Hlen. replace (S (S (S (S (S (length l))))) + 4) with (length l + 4 + 1 * 5) by lia.
  rewrite Nat.div_add by lia. lia.
Qed.

Lemma octets_byte_bits l pad :
  length pad < 8 -> octets (byte_bits l ++ pad) = (λ b, bits_of 8 (N_of_ascii b)) <$> l.
Proof.
  intros Hp. induction l as [|b l IH]; [by apply octets_short|].
  rewrite byte_bits_cons, <- app_assoc, (octets_app (bits_of 8 _)) by apply length_bits_of.
  by rewrite IH.
Qed.

Lemma mapM_value_encode qs :
  Forall (λ q, length q = 5) qs ->
  mapM base32_value ((λ q, alphabet (of_bits 0 q)) <$> qs) = Some (of_bits 0 <$> qs) /\
  flat_map (bits_of 5) (of_bits 0 <$> qs) = concat qs.
Proof.
  induction 1 as [|q qs Hq _ [IH1 IH2]]; [done|]. apply bits_of_of_bits_5 in Hq as [Hq Hlt].
  rewrite !fmap_cons. cbn [mapM flat_map concat]. rewrite base32_value_alphabet, Hq, IH2 by done.
  by rewrite IH1.
Qed.

Theorem base32_decode_encode input : base32_decode (base32_encode input) = Some input.
Proof.
  rewrite base32_encode_correct, base32_decode_correct.
  unfold base32_encode_spec, base32_decode_spec.
  destruct (quintets_concat (byte_bits input)) as (k & Hk & Hc & Hall & _).
  destruct (mapM_value_encode _ Hall) as [-> Hf]. cbn [mbind option_bind].
  rewrite Hf, Hc, octets_byte_bits by (rewrite length_replicate; lia). f_equal.
  rewrite <- list_fmap_compose. rewrite <- (list_fmap_id input) at 2.
  apply list_fmap_ext. intros _ b _. apply byte_of_bits.
Qed.

(** [out_len] of the source: eight fifths of the input, rounded up. *)
Lemma length_base32_encode input : length (base32_encode input) = (8 * length input + 4) / 5.
Proof.
  rewrite base32_encode_correct. unfold base32_encode_spec. rewrite length_fmap.
  destruct (quintets_concat (byte_bits input)) as (k & _ & _ & _ & ->). by rewrite length_byte_bits.
Qed.

(** The decoder rejects exactly the strings with a character outside the alphabet; it accepts
    any length and ignores what is left after the last complete byte. *)
Lemma base32_decode_accepts s :
  is_Some (base32_decode s) <-> Forall (λ ch, is_Some (base32_value ch)) s.
Proof.
  rewrite base32_decode_correct. unfold base32_decode_spec.
  etransitivity; [|apply mapM_is_Some].
  destruct (mapM base32_value s); simpl; split; intros [? ?]; done || eauto.
Qed.

Lemma octets_length l : length (octets l) = length l / 8.
Proof.
  induction l as [l IH] using (induction_ltof1 _ (@length bool)); unfold ltof in IH.
  destruct (decide (length l < 8)) as [Hs|Hs]; [rewrite octets_short, Nat.div_small; done|].
  rewrite <- (take_drop 8 l) at 1. rewrite octets_app by (rewrite length_take; lia).
  cbn [length]. rewrite IH, length_drop by (rewrite length_drop; lia).
  replace (length l) with (length l - 8 + 1 * 8) at 2 by lia. rewrite Nat.div_add by lia. lia.
Qed.

Lemma length_flat_map_bits5 vs : length (flat_map (bits_of 5) vs) = 5 * length vs.
Proof.
  induction vs as [|v vs IH]; [done|]. cbn [flat_map]. rewrite length_app, length_bits_of, IH. simpl. lia.
Qed.

Lemma length_base32_decode s out : base32_decode s = Some out -> length out = 5 * length s / 8.
Proof.
  rewrite base32_decode_correct. unfold base32_decode_spec.
  destruct (mapM base32_value s) as [vs|] eqn:E; [|done]. intros [= <-].
  rewrite length_fmap, octets_length, length_flat_map_bits5. apply mapM_Some, Forall2_length in E.
  by rewrite E.
Qed.
