(* ===== verification/Filename.v ===== *)
(** The reversible file name encoding of crates/pcloud-crypto/src/pclsync_filename.rs.

    A name is padded with zeros to whole blocks, enciphered with a tweak that depends on its
    tail, and written in base 32.  Names without a NUL byte survive the round trip, so distinct
    names never collide in a directory; the decoder returns only non-empty, NUL-free UTF-8. *)
From S2P Require Import Prelude Paths Bytes CryptoPrims Base32.

Definition PCLSYNC_MAX_FILENAME_PLAINTEXT : nat := 255.

Record FilenameKeys : Type := mkFilenameKeys { fn_aes_key : list byte; fn_hmac_key : list byte }.

Inductive FilenameError : Type :=
| FnEmpty
| FnTooLong (n : N)
| Base32Decode
| InvalidPlaintext
| InvalidUtf8.

(** [txt.len().div_ceil(16) * 16]. *)
Definition padded_len (n : nat) : nat := (n + (BLOCK - 1)) / BLOCK * BLOCK.

(** [iter().position(|&b| b == 0)]. *)
Fixpoint position_nul (l : list byte) : option nat :=
  match l with
  | [] => None
  | b :: l' => if bool_decide (b = zero) then Some 0 else S <$> position_nul l'
  end.

Section Filename.
Context `{BlockCipher, HmacSha512}.

Definition hmac_sha512_tweak (hmac_key msg : list byte) : list byte :=
  take BLOCK (hmac_sha512_digest hmac_key msg).

(** The ciphertext of a non-empty name. *)
Definition encipher_name (keys : FilenameKeys) (txt : list byte) : list byte :=
  let padded := txt ++ replicate (padded_len (length txt) - length txt) zero in
  if length padded =? BLOCK then
    encrypt_block (fn_aes_key keys) (xor_into padded (take BLOCK (fn_hmac_key keys)))
  else
    let tweak := hmac_sha512_tweak (fn_hmac_key keys) (drop BLOCK txt) in
    let prev := encrypt_block (fn_aes_key keys) (xor_into (take BLOCK padded) tweak) in
    prev ++ (cbc_encrypt_loop (fn_aes_key keys) (length padded / BLOCK - 1) prev (drop BLOCK padded)).1.

Definition encode_filename (keys : FilenameKeys) (txt : list byte)
    : result (list byte) FilenameError :=
  if bool_decide (txt = []) then Err FnEmpty
  else if PCLSYNC_MAX_FILENAME_PLAINTEXT <? length txt then Err (FnTooLong (len txt))
  else Ok (base32_encode (encipher_name keys txt)).

(** The padded text of a whole number of blocks. *)
Definition decipher_name (keys : FilenameKeys) (data : list byte) : list byte :=
  let blk0 := decrypt_block (fn_aes_key keys) (take BLOCK data) in
  if length data =? BLOCK then xor_into blk0 (take BLOCK (fn_hmac_key keys))
  else
    let tail := (cbc_decrypt_loop (fn_aes_key keys) (length data / BLOCK - 1)
                   (take BLOCK data) (drop BLOCK data)).1 in
    let tail_len := default (length tail) (position_nul tail) in
    xor_into blk0 (hmac_sha512_tweak (fn_hmac_key keys) (take tail_len tail)) ++ tail.

(** The structural validation: nothing but zeros after the first NUL. *)
Definition validate_plain (plain : list byte) : result (list byte) FilenameError :=
  let first_nul := position_nul plain in
  let name_end := default (length plain) first_nul in
  let pad_ok := match first_nul with
                | Some _ => bool_decide (drop (name_end + 1) plain
                                         = replicate (length plain - name_end - 1) zero)
                | None => true
                end in
  if negb pad_ok then Err InvalidPlaintext
  else if name_end =? 0 then Err InvalidPlaintext
  else let name := take name_end plain in
       if valid_utf8 name then Ok name else Err InvalidUtf8.

Definition decode_filename (keys : FilenameKeys) (encoded : list byte)
    : result (list byte) FilenameError :=
  if bool_decide (encoded = []) then Err FnEmpty
  else match base32_decode encoded with
       | None => Err Base32Decode
       | Some data =>
           if bool_decide (data = []) || negb (length data mod BLOCK =? 0) then Err InvalidPlaintext
           else validate_plain (decipher_name keys data)
       end.
End Filename.

(** * Padding *)

Lemma padded_len_spec n :
  exists k, padded_len n = k * BLOCK /\ n <= padded_len n < n + BLOCK.
Proof.
  exists ((n + (BLOCK - 1)) / BLOCK). split; [done|]. unfold padded_len, BLOCK. change (16 - 1) with 15.
  pose proof (Nat.div_mod_eq (n + 15) 16). pose proof (Nat.mod_upper_bound (n + 15) 16). lia.
Qed.

Definition pad_name (txt : list byte) : list byte :=
  txt ++ replicate (padded_len (length txt) - length txt) zero.

Lemma length_pad_name txt : length (pad_name txt) = padded_len (length txt).
Proof.
  destruct (padded_len_spec (length txt)) as (k & _ & Hp).
  unfold pad_name. rewrite length_app, length_replicate. lia.
Qed.

Lemma position_nul_none l : zero ∉ l -> position_nul l = None.
Proof.
  induction l as [|b l IH]; intros Hl; [done|]. cbn [position_nul].
  rewrite not_elem_of_cons in Hl. destruct Hl as [Hb Hl].
  rewrite bool_decide_eq_false_2 by done. by rewrite IH.
Qed.

Lemma position_nul_pad txt k :
  zero ∉ txt ->
  position_nul (txt ++ replicate k zero) = if k =? 0 then None else Some (length txt).
Proof.
  induction txt as [|b txt IH]; intros Hl; [by destruct k|].
  rewrite not_elem_of_cons in Hl. destruct Hl as [Hb Hl]. cbn [app position_nul length].
  rewrite bool_decide_eq_false_2 by done. rewrite IH by done. by destruct k.
Qed.

Lemma position_nul_some l i :
  position_nul l = Some i -> l !! i = Some zero /\ zero ∉ take i l /\ i < length l.
Proof.
  revert i; induction l as [|b l IH]; intros i; cbn [position_nul]; [done|].
  case_bool_decide as Hb; [intros [= <-]; subst; simpl; split; [done|split; [set_solver|lia]]|].
  destruct (position_nul l) as [j|]; simpl; [|done]. intros [= <-].
  destruct (IH j eq_refl) as (H1 & H2 & H3). simpl. rewrite not_elem_of_cons.
  repeat split; [done|done|done|lia].
Qed.

Lemma position_nul_is_none l : position_nul l = None -> zero ∉ l.
Proof.
  induction l as [|b l IH]; cbn [position_nul]; [set_solver|].
  case_bool_decide as Hb; [done|]. destruct (position_nul l); [done|].
  intros _. rewrite not_elem_of_cons. split; [by apply not_eq_sym in Hb || done|by apply IH].
Qed.

(** Validation recovers exactly the padded NUL-free names. *)
Lemma validate_pad txt k :
  txt <> [] -> zero ∉ txt ->
  validate_plain (txt ++ replicate k zero)
  = if valid_utf8 txt then Ok txt else Err InvalidUtf8.
Proof.
  intros Hne Hz. unfold validate_plain. rewrite position_nul_pad by done.
  assert (length txt =? 0 = false) as Hn by (destruct txt; done).
  destruct k as [|k]; cbn [Nat.eqb from_option id].
  - rewrite app_nil_r, Hn, firstn_all. done.
  - assert (drop (length txt + 1) (txt ++ replicate (S k) zero) = replicate k zero) as ->.
    { rewrite <- drop_drop, drop_app_length. simpl. by rewrite drop_0. }
    assert (length (txt ++ replicate (S k) zero) - length txt - 1 = k) as ->.
    { rewrite length_app, length_replicate. lia. }
    rewrite bool_decide_eq_true_2, Hn, take_app_length by done. done.
Qed.

Lemma validate_plain_ok plain name :
  validate_plain plain = Ok name ->
  name <> [] /\ zero ∉ name /\ valid_utf8 name = true /\
  plain = name ++ replicate (length plain - length name) zero.
Proof.
  unfold validate_plain. intros Hv.
  destruct (position_nul plain) as [i|] eqn:Hp; cbn [from_option id] in Hv.
  - apply position_nul_some in Hp as (Hl & Hz & Hlt).
    case_bool_decide as Hpad; [|done]. cbn [negb] in Hv.
    destruct (i =? 0) eqn:Hi; [done|]. apply Nat.eqb_neq in Hi.
    case_match eqn:Hu; [|done]. injection Hv as <-.
    assert (length (take i plain) = i) as Hti by (rewrite length_take; lia).
    split; [intros E; rewrite E in Hti; simpl in Hti; lia|]. split; [done|]. split; [done|].
    rewrite Hti. rewrite <- (take_drop_middle plain i zero Hl) at 1. f_equal.
    replace (S i) with (i + 1) by lia. rewrite Hpad.
    destruct (length plain - i) as [|m] eqn:E; [lia|]. cbn [replicate]. do 2 f_equal. lia.
  - apply position_nul_is_none in Hp. cbn [negb] in Hv.
    destruct (length plain =? 0) eqn:Hi; [done|]. apply Nat.eqb_neq in Hi.
    rewrite firstn_all in Hv. case_match eqn:Hu; [|done]. injection Hv as <-.
    split; [by intros ->|]. split; [done|]. split; [done|].
    rewrite Nat.sub_diag. by rewrite app_nil_r.
Qed.

(** * Enciphering *)
Section FilenameFacts.
Context `{BlockCipherLaws, HmacSha512}.

(** The padded tail of a long name gives back the message of the tweak. *)
Lemma pad_name_split txt :
  BLOCK < length txt ->
  take BLOCK (pad_name txt) = take BLOCK txt /\
  drop BLOCK (pad_name txt)
  = drop BLOCK txt ++ replicate (padded_len (length txt) - length txt) zero.
Proof. intros Hl. unfold pad_name. by rewrite take_app_le, drop_app_le by lia. Qed.

Lemma tail_message tail k :
  zero ∉ tail ->
  let padded := tail ++ replicate k zero in
  take (default (length padded) (position_nul padded)) padded = tail.
Proof.
  intros Hz padded. unfold padded. rewrite position_nul_pad by done. destruct k as [|k]; simpl.
  - by rewrite app_nil_r, firstn_all.
  - by rewrite take_app_length.
Qed.

(** A padded name is one block, or a block and a tail of whole blocks. *)
Lemma padded_cases n :
  0 < n ->
  (padded_len n = BLOCK /\ n <= BLOCK) \/
  (BLOCK < n /\ exists k, padded_len n = S (S k) * BLOCK).
Proof.
  intros Hn. destruct (padded_len_spec n) as (k & Hk & Hp).
  destruct (decide (n <= BLOCK)) as [Hle|Hgt].
  - left. split; [|done]. destruct k as [|[|k]]; unfold BLOCK in *; lia.
  - right. split; [lia|]. destruct k as [|[|k]]; [unfold BLOCK in *; lia..|]. by exists k.
Qed.

Lemma multi_block_len (l : list byte) k :
  length l = S (S k) * BLOCK ->
  (length l =? BLOCK) = false /\ length l / BLOCK - 1 = S k /\
  length (take BLOCK l) = BLOCK /\ length (drop BLOCK l) = S k * BLOCK.
Proof.
  intros Hl. rewrite Hl, Nat.div_mul by done. rewrite Nat.eqb_neq, length_take, length_drop, Hl.
  unfold BLOCK. lia.
Qed.

Lemma encipher_single keys txt :
  padded_len (length txt) = BLOCK ->
  encipher_name keys txt
  = encrypt_block (fn_aes_key keys) (xor_into (pad_name txt) (take BLOCK (fn_hmac_key keys))).
Proof.
  intros Hp. unfold encipher_name. fold (pad_name txt). by rewrite length_pad_name, Hp, Nat.eqb_refl.
Qed.

Lemma encipher_multi keys txt k :
  padded_len (length txt) = S (S k) * BLOCK -> BLOCK < length txt ->
  encipher_name keys txt
  = let tweak := hmac_sha512_tweak (fn_hmac_key keys) (drop BLOCK txt) in
    let prev := encrypt_block (fn_aes_key keys) (xor_into (take BLOCK txt) tweak) in
    prev ++ (cbc_encrypt_loop (fn_aes_key keys) (S k) prev (drop BLOCK (pad_name txt))).1.
Proof.
  intros Hp Hl. unfold encipher_name. fold (pad_name txt).
  destruct (multi_block_len (pad_name txt) k) as (-> & -> & _ & _); [by rewrite length_pad_name|].
  by rewrite (proj1 (pad_name_split txt Hl)).
Qed.

Lemma elem_of_drop (x : byte) n l : x ∈ drop n l -> x ∈ l.
Proof. intros Hx. rewrite <- (take_drop n l), elem_of_app. by right. Qed.

Lemma length_take_pad (txt : list byte) : BLOCK < length txt -> length (take BLOCK txt) = BLOCK.
Proof. intros. rewrite length_take. lia. Qed.

Lemma length_encipher keys txt :
  txt <> [] -> length (encipher_name keys txt) = padded_len (length txt).
Proof.
  intros Hne. destruct (padded_cases (length txt)) as [[Hp Hl]|[Hl (k & Hk)]];
    [destruct txt; [done|simpl; lia]| |].
  - rewrite encipher_single, length_encrypt_block by (rewrite ?length_xor_into, ?length_pad_name; done).
    done.
  - rewrite (encipher_multi _ _ k) by done. cbv zeta.
    set (prev := encrypt_block _ _).
    assert (length prev = BLOCK) as Hpv.
    { apply length_encrypt_block. rewrite length_xor_into. by apply length_take_pad. }
    destruct (multi_block_len (pad_name txt) k) as (_ & _ & _ & Hd); [by rewrite length_pad_name|].
    pose proof (cbc_encrypt_lengths (fn_aes_key keys) (S k) prev _ Hpv ltac:(by rewrite Hd)) as [Ho _].
    rewrite length_app, Hpv, Ho. lia.
Qed.

Lemma decipher_encipher keys txt :
  txt <> [] -> zero ∉ txt -> decipher_name keys (encipher_name keys txt) = pad_name txt.
Proof.
  intros Hne Hz. pose proof (length_encipher keys txt Hne) as Hlen.
  destruct (padded_cases (length txt)) as [[Hp Hl]|[Hl (k & Hk)]]; [destruct txt; [done|simpl; lia]| |].
  - unfold decipher_name. rewrite Hlen, Hp, Nat.eqb_refl. rewrite <- Hp at 1.
    rewrite <- Hlen, firstn_all, encipher_single, decrypt_encrypt_block by
      (rewrite ?length_xor_into, ?length_pad_name; done).
    apply xor_into_twice.
  - rewrite Hk in Hlen. destruct (multi_block_len _ k Hlen) as (He & Hb & _ & _).
    unfold decipher_name. rewrite He, Hb. rewrite (encipher_multi _ _ k) by done. cbv zeta.
    set (tweak := hmac_sha512_tweak _ _). set (prev := encrypt_block _ _).
    assert (length prev = BLOCK) as Hpv.
    { apply length_encrypt_block. rewrite length_xor_into. by apply length_take_pad. }
    rewrite take_app_length', drop_app_length' by done.
    destruct (multi_block_len (pad_name txt) k) as (_ & _ & _ & Hd); [by rewrite length_pad_name|].
    pose proof (cbc_decrypt_encrypt (fn_aes_key keys) (S k) prev (drop BLOCK (pad_name txt)) [] Hpv
      ltac:(by rewrite Hd)) as Hde.
    rewrite app_nil_r in Hde. rewrite Hde. cbn [fst]. rewrite <- Hd, firstn_all.
    rewrite (proj2 (pad_name_split txt Hl)), tail_message by (intros Hin; by apply Hz, (elem_of_drop _ BLOCK)).
    fold tweak. unfold prev. rewrite decrypt_encrypt_block by (rewrite length_xor_into; by apply length_take_pad).
    rewrite xor_into_twice. rewrite <- (proj1 (pad_name_split txt Hl)), <- (proj2 (pad_name_split txt Hl)).
    apply take_drop.
Qed.

Lemma length_decipher keys data k :
  length data = S k * BLOCK -> length (decipher_name keys data) = length data.
Proof.
  intros Hl. assert (length (take BLOCK data) = BLOCK) as Ht by (rewrite length_take; unfold BLOCK in *; lia).
  unfold decipher_name. destruct k as [|k].
  - replace (length data) with BLOCK by (unfold BLOCK in *; lia). rewrite Nat.eqb_refl.
    rewrite length_xor_into. by apply length_decrypt_block.
  - destruct (multi_block_len _ k Hl) as (-> & -> & _ & Hd).
    pose proof (cbc_decrypt_lengths (fn_aes_key keys) (S k) (take BLOCK data) (drop BLOCK data) Ht
      ltac:(by rewrite Hd)) as [Ho _].
    rewrite length_app, length_xor_into, length_decrypt_block by done. rewrite Ho. lia.
Qed.

(** The other direction, when the ciphertext has the length the encoder would choose. *)
Lemma encipher_decipher keys data name k :
  length data = S k * BLOCK -> name <> [] -> zero ∉ name ->
  decipher_name keys data = pad_name name -> encipher_name keys name = data.
Proof.
  intros Hl Hne Hz Hd. pose proof (length_decipher keys data k Hl) as Hlen.
  rewrite Hd, length_pad_name in Hlen.
  assert (length (take BLOCK data) = BLOCK) as Ht by (rewrite length_take; unfold BLOCK in *; lia).
  destruct (padded_cases (length name)) as [[Hp Hs]|[Hs (j & Hj)]]; [destruct name; [done|simpl; lia]| |].
  - rewrite encipher_single, <- Hd by done. unfold decipher_name.
    rewrite <- Hlen, Hp, Nat.eqb_refl, xor_into_twice, encrypt_decrypt_block by done.
    by rewrite <- Hp, Hlen, firstn_all.
  - assert (length data = S (S j) * BLOCK) as Hl' by lia.
    destruct (multi_block_len _ j Hl') as (He & Hb & _ & Hdl).
    unfold decipher_name in Hd. rewrite He, Hb in Hd.
    pose proof (cbc_decrypt_lengths (fn_aes_key keys) (S j) (take BLOCK data) (drop BLOCK data) Ht
      ltac:(by rewrite Hdl)) as [Ho _].
    pose proof (cbc_encrypt_decrypt (fn_aes_key keys) (S j) (take BLOCK data) (drop BLOCK data) [] Ht
      ltac:(by rewrite Hdl)) as Hed. rewrite app_nil_r in Hed.
    set (tail := (cbc_decrypt_loop _ _ _ _).1) in *. set (tweak := hmac_sha512_tweak _ _) in Hd.
    set (blk0 := decrypt_block (fn_aes_key keys) (take BLOCK data)) in *.
    assert (length (xor_into blk0 tweak) = BLOCK) as Hx.
    { rewrite length_xor_into. by apply length_decrypt_block. }
    assert (drop BLOCK (pad_name name) = tail) as Htail by by rewrite <- Hd, drop_app_length'.
    assert (take BLOCK name = xor_into blk0 tweak) as Hhead.
    { rewrite <- (proj1 (pad_name_split name Hs)), <- Hd. by rewrite take_app_length'. }
    assert (tweak = hmac_sha512_tweak (fn_hmac_key keys) (drop BLOCK name)) as Htw.
    { unfold tweak. rewrite <- Htail, (proj2 (pad_name_split name Hs)).
      rewrite tail_message; [done|]. intros Hin. by apply Hz, (elem_of_drop _ BLOCK). }
    rewrite (encipher_multi _ _ j) by done. cbv zeta.
    rewrite <- Htw, Hhead, xor_into_twice, Htail. unfold blk0. rewrite encrypt_decrypt_block by done.
    rewrite Hed. cbn [fst]. rewrite <- Hdl, firstn_all. apply take_drop.
Qed.

Lemma encode_filename_ok keys txt :
  txt <> [] -> length txt <= PCLSYNC_MAX_FILENAME_PLAINTEXT ->
  encode_filename keys txt = Ok (base32_encode (encipher_name keys txt)).
Proof.
  intros Hne Hl. unfold encode_filename.
  by rewrite bool_decide_eq_false_2, (proj2 (Nat.ltb_ge _ _)).
Qed.

Lemma encoded_nonempty data : data <> [] -> base32_encode data <> [].
Proof.
  intros Hne E. apply (f_equal base32_decode) in E. rewrite base32_decode_encode in E.
  by injection E as ->.
Qed.

(** Any string that base-32 decodes to the ciphertext of a NUL-free name decodes to the name. *)
Lemma decode_of_ciphertext keys s txt :
  txt <> [] -> zero ∉ txt -> valid_utf8 txt = true ->
  s <> [] -> base32_decode s = Some (encipher_name keys txt) ->
  decode_filename keys s = Ok txt.
Proof.
  intros Hne Hz Hu Hs Hd. pose proof (length_encipher keys txt Hne) as Hlen.
  unfold decode_filename. rewrite bool_decide_eq_false_2, Hd by done.
  destruct (padded_len_spec (length txt)) as (k & Hk & Hp).
  rewrite bool_decide_eq_false_2.
  2:{ intros E. rewrite E in Hlen. destruct txt; [done|]. simpl in Hlen, Hp. lia. }
  rewrite Hlen, Hk, Nat.Div0.mod_mul. cbn [Nat.eqb negb orb].
  rewrite decipher_encipher by done. unfold pad_name. by rewrite validate_pad, Hu.
Qed.

(** C38: A valid name is encoded, to the announced length, and decodes to itself. *)
Theorem filename_roundtrip keys txt :
  txt <> [] -> length txt <= PCLSYNC_MAX_FILENAME_PLAINTEXT -> zero ∉ txt -> valid_utf8 txt = true ->
  exists enc, encode_filename keys txt = Ok enc /\ decode_filename keys enc = Ok txt /\
    length enc = (8 * padded_len (length txt) + 4) / 5.
Proof.
  intros Hne Hl Hz Hu. rewrite encode_filename_ok by done. eexists; split; [done|].
  pose proof (length_encipher keys txt Hne) as Hlen. split.
  - apply decode_of_ciphertext; [done..| |apply base32_decode_encode].
    apply encoded_nonempty. intros E. rewrite E in Hlen. destruct (padded_len_spec (length txt)) as (k & _ & Hp).
    destruct txt; [done|]. simpl in Hlen, Hp. lia.
  - by rewrite length_base32_encode, Hlen.
Qed.

Lemma decode_filename_inv keys s name :
  decode_filename keys s = Ok name ->
  exists data k, base32_decode s = Some data /\ length data = S k * BLOCK /\
    validate_plain (decipher_name keys data) = Ok name.
Proof.
  unfold decode_filename. case_bool_decide as Hs; [done|]. destruct (base32_decode s) as [data|]; [|done].
  case_bool_decide as Hd; [done|]. destruct (length data mod BLOCK =? 0) eqn:Hm; [|done].
  intros Hv. apply Nat.eqb_eq in Hm. exists data, (length data / BLOCK - 1). split; [done|]. split; [|done].
  pose proof (Nat.div_mod_eq (length data) BLOCK). rewrite Hm in *.
  destruct data; [done|]. cbn [length] in *. unfold BLOCK in *.
  destruct (S (length data) / 16) as [|q]; lia.
Qed.

(** C39: What the decoder returns is a well-formed name: non-empty, NUL-free, valid UTF-8, and no
    longer than the bytes that were sent. *)
Theorem decoded_names_are_well_formed keys s name :
  decode_filename keys s = Ok name ->
  name <> [] /\ zero ∉ name /\ valid_utf8 name = true /\ length name <= 5 * length s / 8 /\
  Forall (λ ch, is_Some (base32_value ch)) s.
Proof.
  intros Hd. apply decode_filename_inv in Hd as (data & k & Hb & Hl & Hv).
  apply validate_plain_ok in Hv as (Hne & Hz & Hu & Hp). split; [done|]. split; [done|]. split; [done|].
  split; [|by apply base32_decode_accepts; exists data].
  apply length_base32_decode in Hb as <-. rewrite <- (length_decipher keys data k Hl).
  rewrite Hp, length_app. lia.
Qed.

(** Decoding accepts nothing else than the encoder's output, up to the unused bits of the last
    characters, when the ciphertext has the length the encoder gives that name. *)
Lemma decoded_names_reencode keys s name data :
  decode_filename keys s = Ok name -> base32_decode s = Some data ->
  length data = padded_len (length name) -> length name <= PCLSYNC_MAX_FILENAME_PLAINTEXT ->
  encode_filename keys name = Ok (base32_encode data).
Proof.
  intros Hd Hb Hl Hmax. apply decode_filename_inv in Hd as (data' & k & Hb' & Hk & Hv).
  rewrite Hb in Hb'. injection Hb' as <-.
  apply validate_plain_ok in Hv as (Hne & Hz & Hu & Hp).
  rewrite (length_decipher keys data k Hk), Hl in Hp.
  rewrite encode_filename_ok by done. do 2 f_equal.
  by apply (encipher_decipher keys data name k).
Qed.

(** The base-32 form is not unique: a 16-byte ciphertext is 26 characters, and a 27th is
    ignored, so the server's name and the re-encoded one can differ. *)
Lemma decode_ignores_a_character keys txt ch :
  txt <> [] -> length txt <= BLOCK -> zero ∉ txt -> valid_utf8 txt = true ->
  is_Some (base32_value ch) ->
  exists enc, encode_filename keys txt = Ok enc /\ decode_filename keys (enc ++ [ch]) = Ok txt.
Proof.
  intros Hne Hl Hz Hu [v Hv].
  rewrite encode_filename_ok by (done || unfold BLOCK, PCLSYNC_MAX_FILENAME_PLAINTEXT in *; lia).
  eexists; split; [done|]. apply decode_of_ciphertext; [done..|by destruct (base32_encode _)|].
  set (data := encipher_name keys txt).
  assert (length data = BLOCK) as Hlen.
  { unfold data. rewrite length_encipher by done.
    destruct (padded_cases (length txt)) as [[Hp _]|[Hgt _]]; [destruct txt; [done|simpl; lia]|done|lia]. }
  rewrite base32_decode_correct, base32_encode_correct. unfold base32_decode_spec, base32_encode_spec.
  destruct (quintets_concat (byte_bits data)) as (k & Hk & Hc & Hall & Hql).
  assert (k = 2) as ->.
  { apply (f_equal length) in Hc. rewrite length_app, length_replicate, length_byte_bits, Hlen in Hc.
    rewrite length_byte_bits, Hlen in Hql.
    rewrite length_concat, (sum_list_fmap_same 5), Hql in Hc by done.
    change ((8 * BLOCK + 4) / 5) with 26 in Hc. unfold BLOCK in Hc. lia. }
  destruct (mapM_value_encode _ Hall) as [Hm Hf].
  assert (mapM base32_value (((λ q, alphabet (of_bits 0 q)) <$> quintets (byte_bits data)) ++ [ch])
          = Some ((of_bits 0 <$> quintets (byte_bits data)) ++ [v])) as ->.
  { apply mapM_Some. apply mapM_Some in Hm. apply Forall2_app; [done|]. by repeat constructor. }
  cbn [mbind option_bind]. rewrite flat_map_app, Hf, Hc. cbn [flat_map]. rewrite app_nil_r, <- app_assoc.
  rewrite octets_byte_bits by (rewrite length_app, length_replicate, length_bits_of; lia). f_equal.
  rewrite <- list_fmap_compose. rewrite <- (list_fmap_id data) at 2.
  apply list_fmap_ext. intros _ b _. apply byte_of_bits.
Qed.

(** The encoder accepts NUL bytes and then two names share one ciphertext. *)
Lemma encode_nul_collision keys txt :
  txt <> [] -> length txt < BLOCK ->
  encode_filename keys (txt ++ [zero]) = encode_filename keys txt.
Proof.
  intros Hne Hl. assert (length (txt ++ [zero]) = S (length txt)) as Hs by (rewrite length_app; simpl; lia).
  assert (forall n, 0 < n <= BLOCK -> padded_len n = BLOCK) as Hp.
  { intros n Hn. destruct (padded_cases n) as [[? _]|[? _]]; [lia|done|lia]. }
  assert (0 < length txt) by (destruct txt; [done|simpl; lia]).
  rewrite !encode_filename_ok; [|done| |by destruct txt|]; try (rewrite ?Hs; unfold BLOCK, PCLSYNC_MAX_FILENAME_PLAINTEXT in *; lia).
  do 2 f_equal. rewrite !encipher_single by (rewrite ?Hs; apply Hp; lia). do 2 f_equal.
  unfold pad_name. rewrite Hs, !Hp, <- app_assoc by lia. f_equal.
  destruct (BLOCK - length txt) as [|m] eqn:E; [lia|]. cbn [replicate app]. do 2 f_equal. lia.
Qed.
End FilenameFacts.

Definition toy_filename_keys : FilenameKeys :=
  mkFilenameKeys (to_le_bytes 32 1234567890) (to_le_bytes 128 987654321987654321).

Lemma filename_roundtrip_witness :
  exists enc, @encode_filename toy_cipher toy_hmac toy_filename_keys (chars "annual report.pdf") = Ok enc /\
    @decode_filename toy_cipher toy_hmac toy_filename_keys enc = Ok (chars "annual report.pdf").
Proof.
  pose proof toy_cipher_laws as Hc.
  destruct (@filename_roundtrip toy_cipher Hc toy_hmac toy_filename_keys (chars "annual report.pdf"))
    as (enc & He & Hd & _).
  - done.
  - apply Nat.leb_le. reflexivity.
  - apply (bool_decide_eq_true_1 _). vm_compute. reflexivity.
  - reflexivity.
  - exists enc. by split.
Defined.

Lemma decoded_names_are_well_formed_witness :
  exists s, @decode_filename toy_cipher toy_hmac toy_filename_keys s = Ok (chars "a.txt") /\
    zero ∉ chars "a.txt".
Proof.
  pose proof toy_cipher_laws as Hc.
  destruct (@encode_filename toy_cipher toy_hmac toy_filename_keys (chars "a.txt")) as [s|e] eqn:E;
    [|vm_compute in E; discriminate].
  assert (@decode_filename toy_cipher toy_hmac toy_filename_keys s = Ok (chars "a.txt")) as Hd.
  { vm_compute in E. injection E as <-. vm_compute. reflexivity. }
  exists s. split; [exact Hd|].
  by destruct (@decoded_names_are_well_formed toy_cipher Hc toy_hmac toy_filename_keys s _ Hd) as (_ & Hz & _).
Defined.

(** Three blocks are 77 characters. *)
Example three_blocks : length (base32_encode (replicate 48 zero)) = 77.
Proof. vm_compute. reflexivity. Qed.
