(* ===== verification/AuthTree.v ===== *)
(** The 128-ary authentication tree over sector tags:
    crates/pcloud-crypto/src/pclsync_auth_tree.rs.

    Levels are byte strings of packed 32-byte tags, as in the code.  The built tree is a chain
    of levels up to one root tag; every leaf of it verifies at its own index and no other value
    does; and a tree that shares the root and the depth cannot make another leaf verify unless
    two of their sectors have the same digest. *)
From S2P Require Import Prelude Paths Bytes CryptoPrims.

Definition PCLSYNC_TREE_FANOUT : nat := 128.
Definition PCLSYNC_AUTH_TAG_LEN : nat := 32.
Definition PCLSYNC_AUTH_SECTOR_SIZE : nat := PCLSYNC_TREE_FANOUT * PCLSYNC_AUTH_TAG_LEN.
Definition PCLSYNC_MAX_TREE_LEVELS : nat := 6.

#[global] Arguments PCLSYNC_TREE_FANOUT : simpl never.
#[global] Arguments PCLSYNC_AUTH_TAG_LEN : simpl never.
#[global] Arguments PCLSYNC_AUTH_SECTOR_SIZE : simpl never.
#[global] Arguments PCLSYNC_MAX_TREE_LEVELS : simpl never.

Local Abbreviation FAN := PCLSYNC_TREE_FANOUT.
Local Abbreviation TAG := PCLSYNC_AUTH_TAG_LEN.
Local Abbreviation SECTOR := PCLSYNC_AUTH_SECTOR_SIZE.

Record AuthTree : Type := mkAuthTree {
  levels : list (list byte);
  treelevels : nat;
  masterauthoff : N;
  needmasterauth : bool;
}.

(** [bytes.div_ceil(PCLSYNC_AUTH_SECTOR_SIZE)]. *)
Definition level_sector_count (bytes : nat) : nat := (bytes + (SECTOR - 1)) / SECTOR.

(** [slice.chunks(n)]; every step consumes a byte, so the length is enough fuel. *)
Fixpoint chunks_loop (fuel n : nat) (l : list byte) : list (list byte) :=
  match fuel, l with
  | _, [] | 0, _ => []
  | S fuel', _ => take n l :: chunks_loop fuel' n (drop n l)
  end.

Definition chunks (n : nat) (l : list byte) : list (list byte) := chunks_loop (length l) n l.

(** [compute_master_auth]. *)
Definition compute_master_auth (tree : AuthTree) : list byte :=
  match last (levels tree) with
  | Some top => if TAG <=? length top then take TAG top else replicate TAG zero
  | None => replicate TAG zero
  end.

Section Tree.
Context `{HmacSha512} (hmac_key : list byte).

Definition hmac_sha512_trunc32 (data : list byte) : list byte :=
  take TAG (hmac_sha512_digest hmac_key data).

Definition build_parent_level (child_level : list byte) : list byte :=
  concat (hmac_sha512_trunc32 <$> chunks SECTOR child_level).

(** The loop that grows levels, capped at six of them. *)
Fixpoint grow_levels (fuel : nat) (levels : list (list byte)) : list (list byte) :=
  match fuel with
  | 0 => levels
  | S fuel' =>
      let top := default [] (last levels) in
      if 1 <? level_sector_count (length top) then
        if PCLSYNC_MAX_TREE_LEVELS <=? length levels then levels
        else grow_levels fuel' (levels ++ [build_parent_level top])
      else levels
  end.

Definition build_auth_tree (sector_tags : list (list byte)) : AuthTree :=
  match sector_tags with
  | [] => mkAuthTree [] 0 0 false
  | _ =>
      let auth_levels := grow_levels PCLSYNC_MAX_TREE_LEVELS [concat sector_tags] in
      let needmasterauth := 1 <? length sector_tags in
      let levels :=
        if needmasterauth then
          auth_levels ++ [hmac_sha512_trunc32 (default [] (last auth_levels))]
        else auth_levels in
      let treelevels := if needmasterauth then length levels - 1 else 0 in
      let data_bytes := (len sector_tags * N.of_nat SECTOR)%N in
      let auth_bytes := foldr N.add 0%N (len <$> take (length levels - 1) levels) in
      mkAuthTree levels treelevels (data_bytes + auth_bytes) needmasterauth
  end.

(** The walk from level [level] with [n] levels to go; [None] is an index out of bounds. *)
Fixpoint verify_walk (tree : AuthTree) (n level : nat) (current : list byte) (child_index : nat)
    : option bool :=
  match n with
  | 0 => Some (bool_decide (current = compute_master_auth tree))
  | S n' =>
      child_level ← levels tree !! level;
      let chunk_start := child_index / FAN * SECTOR in
      if length child_level <=? chunk_start then Some false
      else
        let chunk := take SECTOR (drop chunk_start child_level) in
        let slot := child_index mod FAN * TAG in
        if length chunk <? slot + TAG then Some false
        else if bool_decide (take TAG (drop slot chunk) = current) then
          verify_walk tree n' (S level) (hmac_sha512_trunc32 chunk) (child_index / FAN)
        else Some false
  end.

(** [None] is a panic: the addition after the saturating product overflows. *)
Definition verify_path (tree : AuthTree) (sector_index : N) (sector_tag : list byte)
    : option bool :=
  match levels tree with
  | [] => Some false
  | leaf_bytes :: _ =>
      let offset := N.min (sector_index * N.of_nat TAG) U64_MAX in
      if bool_decide (U64_MAX < offset + N.of_nat TAG)%N then None
      else if bool_decide (len leaf_bytes < offset + N.of_nat TAG)%N then Some false
      else
        let stored_leaf := take TAG (drop (N.to_nat offset) leaf_bytes) in
        if bool_decide (stored_leaf = sector_tag) then
          if treelevels tree =? 0 then Some (bool_decide (compute_master_auth tree = sector_tag))
          else verify_walk tree (treelevels tree) 0 sector_tag (N.to_nat sector_index)
        else Some false
  end.
End Tree.

(** * Levels as sequences of tags *)

(** The [i]-th tag and the [j]-th auth sector of a level. *)
Definition tag_at (l : list byte) (i : nat) : list byte := take TAG (drop (i * TAG) l).
Definition sector_at (l : list byte) (j : nat) : list byte := take SECTOR (drop (j * SECTOR) l).

Lemma fan_pos : 0 < FAN.
Proof. apply Nat.ltb_lt. reflexivity. Qed.

Lemma fan_N : N.of_nat FAN = 128%N.
Proof. reflexivity. Qed.

Lemma tag_pos : 0 < TAG.
Proof. apply Nat.ltb_lt. reflexivity. Qed.

Lemma sector_eq : SECTOR = FAN * TAG.
Proof. done. Qed.

Lemma sector_pos : 0 < SECTOR.
Proof. rewrite sector_eq. pose proof fan_pos. pose proof tag_pos. nia. Qed.

(** Every auth sector of a tree: what the digests are taken of. *)
Definition auth_sectors (t : AuthTree) : list (list byte) := flat_map (chunks SECTOR) (levels t).

#[global] Opaque PCLSYNC_TREE_FANOUT PCLSYNC_AUTH_TAG_LEN PCLSYNC_AUTH_SECTOR_SIZE.

#[local] Hint Resolve fan_pos tag_pos sector_pos : pcloud.

(** A tag of a level, looked up in its sector. *)
Lemma tag_at_sector l i : tag_at (sector_at l (i / FAN)) (i mod FAN) = tag_at l i.
Proof.
  unfold tag_at, sector_at. pose proof fan_pos. pose proof tag_pos.
  pose proof (Nat.mod_upper_bound i FAN ltac:(lia)) as Hm.
  rewrite skipn_firstn_comm, drop_drop, take_take.
  rewrite Nat.min_l by (rewrite sector_eq; nia). do 2 f_equal.
  transitivity ((FAN * (i / FAN) + i mod FAN) * TAG); [rewrite sector_eq; lia|].
  by rewrite <- Nat.div_mod_eq.
Qed.

Lemma tag_at_concat (tags : list (list byte)) i :
  Forall (λ t, length t = TAG) tags -> i < length tags -> tags !! i = Some (tag_at (concat tags) i).
Proof.
  intros Hall. revert i; induction Hall as [|t tags Ht _ IH]; intros i Hi; [simpl in Hi; lia|].
  unfold tag_at. destruct i as [|i]; cbn [concat].
  - simpl. by rewrite drop_0, take_app_length'.
  - change (S i * TAG) with (TAG + i * TAG).
    rewrite <- drop_drop, drop_app_length' by done. simpl. apply IH. simpl in Hi. lia.
Qed.

Lemma length_concat_tags (tags : list (list byte)) :
  Forall (λ t, length t = TAG) tags -> length (concat tags) = length tags * TAG.
Proof.
  induction 1 as [|t tags Ht _ IH]; [done|]. cbn [concat]. rewrite length_app, Ht, IH. simpl. lia.
Qed.

Lemma level_sector_count_le bytes k : level_sector_count bytes <= k <-> bytes <= k * SECTOR.
Proof.
  unfold level_sector_count. pose proof sector_pos. split; intros Hb.
  - pose proof (Nat.div_mod_eq (bytes + (SECTOR - 1)) SECTOR).
    pose proof (Nat.mod_upper_bound (bytes + (SECTOR - 1)) SECTOR ltac:(lia)). nia.
  - apply Nat.lt_succ_r, Nat.Div0.div_lt_upper_bound. nia.
Qed.

Lemma chunks_loop_spec fuel l j :
  length l <= fuel ->
  chunks_loop fuel SECTOR l !! j
  = if decide (j * SECTOR < length l) then Some (sector_at l j) else None.
Proof.
  pose proof sector_pos as Hs. revert l j; induction fuel as [|fuel IH]; intros l j Hl.
  { destruct l; [|simpl in Hl; lia]. rewrite decide_False by (simpl; lia). done. }
  destruct l as [|b l]; [rewrite decide_False by (simpl; lia); done|].
  set (l' := b :: l) in *. assert (0 < length l') by (simpl; lia).
  change (chunks_loop (S fuel) SECTOR l') with (take SECTOR l' :: chunks_loop fuel SECTOR (drop SECTOR l')).
  destruct j as [|j].
  - rewrite decide_True by lia. unfold sector_at. by rewrite drop_0.
  - change ((take SECTOR l' :: chunks_loop fuel SECTOR (drop SECTOR l')) !! S j)
      with (chunks_loop fuel SECTOR (drop SECTOR l') !! j).
    rewrite IH by (rewrite length_drop; lia). unfold sector_at. rewrite drop_drop, length_drop.
    change (S j * SECTOR) with (SECTOR + j * SECTOR).
    do 2 case_decide; done || lia.
Qed.

Lemma chunks_spec l j :
  chunks SECTOR l !! j = if decide (j * SECTOR < length l) then Some (sector_at l j) else None.
Proof. by apply chunks_loop_spec. Qed.

Lemma length_chunks l : length (chunks SECTOR l) = level_sector_count (length l).
Proof.
  pose proof sector_pos as Hs. apply Nat.le_antisymm.
  - destruct (decide (length (chunks SECTOR l) <= level_sector_count (length l))) as [|Hgt]; [done|].
    destruct (lookup_lt_is_Some_2 (chunks SECTOR l) (level_sector_count (length l))) as [x Hx]; [lia|].
    rewrite chunks_spec in Hx.
    case_decide as Hd; [|done]. pose proof (proj1 (level_sector_count_le (length l) _) (le_n _)). lia.
  - apply level_sector_count_le. destruct (decide (length l <= length (chunks SECTOR l) * SECTOR)) as [|Hgt]; [done|].
    assert (chunks SECTOR l !! length (chunks SECTOR l) = None) as Hn by (by apply lookup_ge_None).
    rewrite chunks_spec, decide_True in Hn by lia. done.
Qed.

Lemma auth_sectors_elem t level l j :
  levels t !! level = Some l -> j * SECTOR < length l -> sector_at l j ∈ auth_sectors t.
Proof.
  intros Hl Hj. apply list_elem_of_In, in_flat_map. exists l.
  split; [apply list_elem_of_In; by eapply list_elem_of_lookup_2|].
  apply list_elem_of_In, (list_elem_of_lookup_2 _ j). by rewrite chunks_spec, decide_True.
Qed.

(** * The levels of a built tree *)
Section TreeFacts.
Context `{HmacSha512Laws} (hmac_key : list byte).

Lemma length_trunc32 data : length (hmac_sha512_trunc32 hmac_key data) = TAG.
Proof.
  unfold hmac_sha512_trunc32. rewrite length_take, length_hmac_digest.
  apply Nat.min_l, Nat.leb_le. reflexivity.
Qed.

Lemma parent_tags child :
  Forall (λ t, length t = TAG) (hmac_sha512_trunc32 hmac_key <$> chunks SECTOR child).
Proof. apply Forall_fmap, Forall_true. intros x. apply length_trunc32. Qed.

Lemma length_parent child :
  length (build_parent_level hmac_key child) = level_sector_count (length child) * TAG.
Proof.
  unfold build_parent_level. rewrite length_concat_tags by apply parent_tags.
  by rewrite length_fmap, length_chunks.
Qed.

(** The [j]-th tag of a parent level is the digest of the [j]-th sector of its child. *)
Lemma tag_at_parent child j :
  j * SECTOR < length child ->
  tag_at (build_parent_level hmac_key child) j = hmac_sha512_trunc32 hmac_key (sector_at child j).
Proof.
  intros Hj. assert (chunks SECTOR child !! j = Some (sector_at child j)) as Hc.
  { by rewrite chunks_spec, decide_True. }
  pose proof (tag_at_concat _ j (parent_tags child)) as Ht.
  rewrite length_fmap in Ht. specialize (Ht (lookup_lt_Some _ _ _ Hc)).
  rewrite list_lookup_fmap, Hc in Ht. simpl in Ht. by injection Ht.
Qed.

(** A level of [n] tags, at most a sector, has the one-tag parent that hashes all of it. *)
Lemma parent_of_one_sector top :
  top <> [] -> level_sector_count (length top) <= 1 ->
  build_parent_level hmac_key top = hmac_sha512_trunc32 hmac_key top.
Proof.
  intros Hne Hc. apply level_sector_count_le in Hc. rewrite Nat.mul_1_l in Hc.
  unfold build_parent_level, chunks. destruct top as [|b top]; [done|]. set (l := b :: top) in *.
  change (length l) with (S (length top)) at 1.
  change (chunks_loop (S (length top)) SECTOR l) with (take SECTOR l :: chunks_loop (length top) SECTOR (drop SECTOR l)).
  rewrite firstn_all2, drop_ge by done. destruct (length top); cbn [chunks_loop fmap list_fmap concat]; by rewrite app_nil_r.
Qed.

(** What the growth loop returns: a chain that starts with the given levels. *)
Record chain (ls : list (list byte)) : Prop := {
  chain_step j child parent :
    ls !! j = Some child -> ls !! S j = Some parent -> parent = build_parent_level hmac_key child;
  chain_nonempty l : l ∈ ls -> l <> [];
}.

Lemma chain_snoc ls top :
  chain (ls ++ [top]) -> top <> [] -> chain ((ls ++ [top]) ++ [build_parent_level hmac_key top]).
Proof.
  intros [Hs Hne] Ht. split.
  - intros j c p Hc Hp. destruct (decide (S j < length (ls ++ [top]))) as [Hlt|Hge].
    + rewrite lookup_app_l in Hc, Hp by lia. by apply (Hs j).
    + assert (S j = length (ls ++ [top])) as Hj.
      { apply lookup_lt_Some in Hp. rewrite length_app in Hp. simpl in Hp. lia. }
      rewrite lookup_app_r, Hj, Nat.sub_diag in Hp by lia. simpl in Hp. injection Hp as <-.
      rewrite lookup_app_l in Hc by lia. rewrite length_app in Hj. simpl in Hj.
      rewrite lookup_app_r in Hc by lia. replace (j - length ls) with 0 in Hc by lia.
      simpl in Hc. by injection Hc as <-.
  - intros l [Hl|Hl]%elem_of_app; [by apply Hne|]. apply list_elem_of_singleton in Hl as ->.
    intros E. apply (f_equal length) in E. rewrite length_parent in E. cbn [length] in E.
    assert (level_sector_count (length top) <= 0) as Hz by (pose proof tag_pos; nia).
    apply level_sector_count_le in Hz. destruct top; [done|]. simpl in Hz. lia.
Qed.

(** The loop ends with a top level of one sector when the number of tags allows it: a level
    that is the [n]-th has at most 128^(7 - n) tags. *)
Lemma grow_levels_spec fuel ls top :
  chain (ls ++ [top]) -> top <> [] ->
  PCLSYNC_MAX_TREE_LEVELS - length ls <= fuel -> length ls < PCLSYNC_MAX_TREE_LEVELS ->
  length top <= FAN ^ (PCLSYNC_MAX_TREE_LEVELS - length ls) * TAG ->
  exists more top',
    grow_levels hmac_key fuel (ls ++ [top]) = ls ++ more ++ [top'] /\
    chain (ls ++ more ++ [top']) /\ top' <> [] /\ head (more ++ [top']) = Some top /\
    level_sector_count (length top') <= 1 /\
    length ls + length more < PCLSYNC_MAX_TREE_LEVELS /\
    (TAG < length top -> TAG < length top').
Proof.
  revert ls top; induction fuel as [|fuel IH]; intros ls top Hch Hne Hf Hls Hcap; [lia|].
  cbn [grow_levels]. rewrite last_snoc. cbn [from_option id].
  destruct (1 <? level_sector_count (length top)) eqn:Hc.
  2:{ apply Nat.ltb_ge in Hc. exists [], top. simpl. rewrite Nat.add_0_r. done. }
  apply Nat.ltb_lt in Hc.
  assert (length top <= SECTOR -> False) as Hbig.
  { intros Hle. assert (level_sector_count (length top) <= 1); [|lia]. apply level_sector_count_le. lia. }
  assert (S (length ls) < PCLSYNC_MAX_TREE_LEVELS) as Hlt.
  { destruct (decide (S (length ls) < PCLSYNC_MAX_TREE_LEVELS)) as [|Hge]; [done|]. destruct Hbig.
    replace (PCLSYNC_MAX_TREE_LEVELS - length ls) with 1 in Hcap by lia.
    by rewrite Nat.pow_1_r, <- sector_eq in Hcap. }
  rewrite (proj2 (Nat.leb_gt _ _)) by (rewrite length_app; simpl; lia).
  destruct (IH (ls ++ [top]) (build_parent_level hmac_key top)) as (more & top' & Hg & Hch' & Hne' & Hh & Hm1 & Hm2 & Hm3).
  - by apply chain_snoc.
  - apply (chain_nonempty _ (chain_snoc ls top Hch Hne)). apply elem_of_app. right. by left.
  - rewrite length_app. simpl. lia.
  - rewrite length_app. simpl. lia.
  - rewrite length_parent. apply Nat.mul_le_mono_r, level_sector_count_le.
    replace (PCLSYNC_MAX_TREE_LEVELS - length ls)
      with (S (PCLSYNC_MAX_TREE_LEVELS - length (ls ++ [top]))) in Hcap by (rewrite length_app; simpl; lia).
    rewrite Nat.pow_succ_r' in Hcap. rewrite sector_eq. lia.
  - rewrite <- !app_assoc in *. exists (top :: more), top'. split; [done|]. split; [done|].
    split; [done|]. split; [done|]. split; [done|]. rewrite length_app in Hm2. simpl in Hm2 |- *.
    split; [lia|]. intros _. apply Hm3. rewrite length_parent. pose proof tag_pos. nia.
Qed.

(** What a tree over [tags] must satisfy: a chain of levels from the packed tags to one root. *)
Record well_formed_tree (tags : list (list byte)) (t : AuthTree) : Prop := {
  wf_length : length (levels t) = S (treelevels t);
  wf_leaves : levels t !! 0 = Some (concat tags);
  wf_chain : chain (levels t);
  wf_root root : levels t !! treelevels t = Some root -> length root = TAG;
  wf_depth : treelevels t <= PCLSYNC_MAX_TREE_LEVELS;
  wf_master : needmasterauth t = (1 <? length tags) /\ (treelevels t = 0 <-> length tags = 1);
}.

Lemma chain_one top : top <> [] -> chain [top].
Proof.
  intros Hne. split; [by intros [|j] c p ?|]. intros l Hl. by apply list_elem_of_singleton in Hl as ->.
Qed.

Lemma leaves_facts (tags : list (list byte)) :
  tags <> [] -> Forall (λ t, length t = TAG) tags ->
  length (concat tags) = length tags * TAG /\ concat tags <> [].
Proof.
  intros Hne Hall. pose proof (length_concat_tags tags Hall) as Hl. split; [done|].
  intros E. rewrite E in Hl. pose proof tag_pos. destruct tags; [done|]. simpl in Hl. lia.
Qed.

Lemma build_well_formed tags :
  tags <> [] -> Forall (λ t, length t = TAG) tags -> length tags <= FAN ^ PCLSYNC_MAX_TREE_LEVELS ->
  well_formed_tree tags (build_auth_tree hmac_key tags).
Proof.
  intros Hne Hall Hcap. destruct (leaves_facts tags Hne Hall) as [Hlen Hc].
  pose proof tag_pos as Htp.
  destruct (grow_levels_spec PCLSYNC_MAX_TREE_LEVELS [] (concat tags)) as
    (more & top & Hg & Hch & Htop & Hhead & Hcnt & Hdepth & Hbig); simpl app in *;
    [by apply chain_one|done|unfold PCLSYNC_MAX_TREE_LEVELS; simpl; lia..|rewrite Hlen; simpl length; rewrite Nat.sub_0_r; by apply Nat.mul_le_mono_r|].
  unfold build_auth_tree. destruct tags as [|t0 tags']; [done|]. set (tags := t0 :: tags') in *.
  rewrite Hg, last_snoc. cbn [from_option id]. destruct (1 <? length tags) eqn:Hone.
  - apply Nat.ltb_lt in Hone.
    rewrite <- (parent_of_one_sector top Htop Hcnt).
    pose proof (chain_snoc more top Hch Htop) as Hch'.
    assert (length ((more ++ [top]) ++ [build_parent_level hmac_key top]) = S (S (length more))) as Hl2.
    { rewrite !length_app. simpl. lia. }
    split; cbn [levels treelevels needmasterauth]; rewrite ?Hl2.
    + lia.
    + by destruct more; simpl in *; simplify_eq.
    + done.
    + intros root. rewrite lookup_app_r by (rewrite length_app; simpl; lia). rewrite length_app. simpl.
      replace (length more - 0 - (length more + 1)) with 0 by lia.
      replace (S (length more) - (length more + 1)) with 0 by lia. simpl. intros [= <-].
      rewrite parent_of_one_sector by done. apply length_trunc32.
    + simpl in Hdepth. lia.
    + split; [symmetry; by apply Nat.ltb_lt|lia].
  - apply Nat.ltb_ge in Hone. assert (tags' = []) as Ht' by (destruct tags'; [done|simpl in Hone; lia]).
    assert (more = [] /\ top = concat tags) as [-> ->].
    { assert (grow_levels hmac_key PCLSYNC_MAX_TREE_LEVELS [concat tags] = [concat tags]) as Hone'.
      { change PCLSYNC_MAX_TREE_LEVELS with (S 5). cbn [grow_levels last from_option id].
        rewrite (proj2 (Nat.ltb_ge _ _)); [done|]. apply level_sector_count_le. rewrite Hlen, sector_eq.
        pose proof fan_pos. nia. }
      rewrite Hone' in Hg. destruct more as [|m more]; simpl in Hg; [by simplify_eq|].
      destruct more; simplify_eq. }
    unfold tags in *. subst tags'. split; cbn [levels treelevels needmasterauth app].
    + done.
    + done.
    + by apply chain_one.
    + simpl. intros root [= <-]. rewrite app_nil_r. by inversion Hall.
    + lia.
    + done.
Qed.

(** * Walking up *)

Lemma index_up child idx :
  idx * TAG + TAG <= length child ->
  idx / FAN * SECTOR < length child /\
  idx mod FAN * TAG + TAG <= length (sector_at child (idx / FAN)) /\
  idx / FAN * TAG + TAG <= length (build_parent_level hmac_key child).
Proof.
  intros Hi. pose proof fan_pos. pose proof tag_pos.
  pose proof (Nat.mod_upper_bound idx FAN ltac:(lia)) as Hm.
  assert (idx * TAG = idx / FAN * SECTOR + idx mod FAN * TAG) as He.
  { rewrite (Nat.div_mod_eq idx FAN) at 1. rewrite sector_eq. lia. }
  assert (idx / FAN * SECTOR < length child) as Hlt by lia. split; [done|]. split.
  - unfold sector_at. rewrite length_take, length_drop.
    assert (idx mod FAN * TAG + TAG <= SECTOR) by (rewrite sector_eq; nia). lia.
  - rewrite length_parent. assert (idx / FAN < level_sector_count (length child)); [|nia].
    destruct (decide (level_sector_count (length child) <= idx / FAN)) as [Hle|]; [|lia].
    apply level_sector_count_le in Hle. lia.
Qed.

Lemma master_of_tree tags t root :
  well_formed_tree tags t -> levels t !! treelevels t = Some root -> compute_master_auth t = root.
Proof.
  intros Hwf Hr. pose proof (wf_root tags t Hwf root Hr) as Hl. unfold compute_master_auth.
  rewrite last_lookup, (wf_length tags t Hwf). simpl pred. rewrite Hr, Hl, Nat.leb_refl.
  by rewrite <- Hl, firstn_all.
Qed.

Lemma tag_at_whole l i : length l = TAG -> i * TAG + TAG <= length l -> tag_at l i = l.
Proof.
  intros Hl Hi. pose proof tag_pos. assert (i = 0) as -> by nia. unfold tag_at.
  by rewrite Nat.mul_0_l, drop_0, <- Hl, firstn_all.
Qed.

(** From any position of any level, the walk with the stored tag reaches the root. *)
Lemma walk_accepts tags t n level l idx :
  well_formed_tree tags t -> level + n = treelevels t -> levels t !! level = Some l ->
  idx * TAG + TAG <= length l ->
  verify_walk hmac_key t n level (tag_at l idx) idx = Some true.
Proof.
  intros Hwf. revert level l idx; induction n as [|n IH]; intros level l idx Hn Hl Hi.
  - cbn [verify_walk]. rewrite Nat.add_0_r in Hn. subst level.
    rewrite (master_of_tree tags t l) by done.
    rewrite tag_at_whole; [by rewrite bool_decide_eq_true_2|by apply (wf_root tags t)|done].
  - cbn [verify_walk]. rewrite Hl. cbn [mbind option_bind].
    destruct (index_up l idx Hi) as (Hs & Hslot & Hup).
    rewrite (proj2 (Nat.leb_gt _ _)) by done. fold (sector_at l (idx / FAN)).
    rewrite (proj2 (Nat.ltb_ge _ _)) by lia. fold (tag_at (sector_at l (idx / FAN)) (idx mod FAN)).
    rewrite tag_at_sector, bool_decide_eq_true_2 by done.
    destruct (lookup_lt_is_Some_2 (levels t) (S level)) as [p Hp].
    { rewrite (wf_length tags t Hwf). lia. }
    rewrite (chain_step _ (wf_chain tags t Hwf) _ _ _ Hl Hp) in Hp.
    rewrite <- tag_at_parent by done. by apply IH; [lia| |].
Qed.

(** The walk through another tree [t'], from a position of [t]: if it reaches the root of [t]
    and no two different sectors of the trees have the same digest, it started from the tag
    stored in [t]. *)
Lemma walk_binds tags t t' n level l idx current :
  well_formed_tree tags t -> compute_master_auth t' = compute_master_auth t ->
  (forall x y, x ∈ auth_sectors t -> y ∈ auth_sectors t' ->
     hmac_sha512_trunc32 hmac_key x = hmac_sha512_trunc32 hmac_key y -> x = y) ->
  level + n = treelevels t -> levels t !! level = Some l -> idx * TAG + TAG <= length l ->
  verify_walk hmac_key t' n level current idx = Some true -> current = tag_at l idx.
Proof.
  intros Hwf Hm Hcoll. revert level l idx current; induction n as [|n IH];
    intros level l idx current Hn Hl Hi Hw; cbn [verify_walk] in Hw.
  - rewrite Nat.add_0_r in Hn. subst level. injection Hw as Hw. apply bool_decide_eq_true_1 in Hw as ->.
    rewrite Hm, (master_of_tree tags t l) by done.
    by rewrite tag_at_whole by (done || by apply (wf_root tags t)).
  - destruct (levels t' !! level) as [l'|] eqn:Hl'; [|done]. cbn [mbind option_bind] in Hw.
    fold (sector_at l' (idx / FAN)) in Hw.
    case_match; [done|]. case_match; [done|].
    fold (tag_at (sector_at l' (idx / FAN)) (idx mod FAN)) in Hw.
    case_bool_decide as Hc; [|done].
    destruct (index_up l idx Hi) as (Hs & Hslot & Hup).
    destruct (lookup_lt_is_Some_2 (levels t) (S level)) as [p Hp].
    { rewrite (wf_length tags t Hwf). lia. }
    rewrite (chain_step _ (wf_chain tags t Hwf) _ _ _ Hl Hp) in Hp.
    apply (IH (S level) (build_parent_level hmac_key l) (idx / FAN)) in Hw; [|lia|exact Hp|done].
    rewrite tag_at_parent in Hw by done.
    rewrite <- Hc, <- (tag_at_sector l idx). f_equal. symmetry.
    apply Hcoll; [by eapply auth_sectors_elem| |done].
    eapply auth_sectors_elem; [done|]. by apply Nat.leb_gt.
Qed.

(** * Verification against the leaves *)

Lemma pow_fan tags : (len tags <= 128 ^ 6)%N -> @length (list byte) tags <= FAN ^ PCLSYNC_MAX_TREE_LEVELS.
Proof.
  unfold len. intros Hl. assert (N.of_nat (FAN ^ PCLSYNC_MAX_TREE_LEVELS) = 128 ^ 6)%N as Hp; [|lia].
  by rewrite Nat2N.inj_pow, fan_N.
Qed.

(** Verification of one leaf, in terms of the stored tags. *)
Lemma verify_path_unfold (t : AuthTree) leaves rest i tag :
  levels t = leaves :: rest -> (i * N.of_nat TAG + N.of_nat TAG <= U64_MAX)%N ->
  verify_path hmac_key t i tag
  = if decide (N.to_nat i * TAG + TAG <= length leaves /\ tag_at leaves (N.to_nat i) = tag) then
      if treelevels t =? 0 then Some (bool_decide (compute_master_auth t = tag))
      else verify_walk hmac_key t (treelevels t) 0 tag (N.to_nat i)
    else Some false.
Proof.
  intros Hl Hi. unfold verify_path. rewrite Hl, N.min_l by lia.
  rewrite bool_decide_eq_false_2 by lia. unfold len, tag_at.
  replace (N.to_nat (i * N.of_nat TAG)) with (N.to_nat i * TAG) by lia.
  case_bool_decide as Hlen.
  - rewrite decide_False by lia. done.
  - case_bool_decide as Htag.
    + rewrite decide_True; [done|]. split; [lia|done].
    + rewrite decide_False; [done|]. by intros [_ ?].
Qed.

(** On a tree that was built from them, [verify_path] accepts the stored tags, each at its own
    index, and nothing else. *)
Theorem verify_path_exact tags i tag :
  tags <> [] -> Forall (λ t, length t = TAG) tags -> (len tags <= 128 ^ 6)%N ->
  (i * N.of_nat TAG + N.of_nat TAG <= U64_MAX)%N ->
  verify_path hmac_key (build_auth_tree hmac_key tags) i tag
  = Some (bool_decide (tags !! N.to_nat i = Some tag)).
Proof.
  intros Hne Hall Hcap%pow_fan Hi. pose proof (build_well_formed tags Hne Hall Hcap) as Hwf.
  set (t := build_auth_tree hmac_key tags) in *. destruct (leaves_facts tags Hne Hall) as [Hlen _].
  pose proof (wf_leaves tags t Hwf) as Hleaf. pose proof tag_pos.
  destruct (levels t) as [|l0 rest] eqn:El; [done|]. simpl in Hleaf. injection Hleaf as ->.
  rewrite (verify_path_unfold t _ rest) by done. rewrite Hlen.
  destruct (decide (N.to_nat i < length tags)) as [Hlt|Hge].
  - rewrite (tag_at_concat tags _ Hall Hlt).
    case_decide as Hd; [|rewrite bool_decide_eq_false_2; [done|]; intros [= E]; apply Hd; split; [nia|done]].
    destruct Hd as [Hb <-]. rewrite (bool_decide_eq_true_2 (Some _ = _)) by done.
    destruct (treelevels t =? 0) eqn:Hz.
    + apply Nat.eqb_eq in Hz. rewrite (master_of_tree tags t (concat tags));
        [|done|by rewrite Hz, El].
      rewrite bool_decide_eq_true_2; [done|]. symmetry. apply tag_at_whole; [|lia].
      by apply (wf_root tags t Hwf); rewrite Hz, El.
    + apply (walk_accepts tags t); [done|lia|by rewrite El|lia].
  - rewrite (bool_decide_eq_false_2 (tags !! _ = _)) by (intros E; apply lookup_lt_Some in E; lia).
    rewrite decide_False; [done|]. intros [Hb _]. nia.
Qed.

(** C31: A tree that is not the built one but has its root and its depth cannot make a different tag
    verify, as long as no two different sectors of the two trees have the same digest. *)
Theorem verify_path_binds_the_root tags t' i tag :
  tags <> [] -> Forall (λ t, length t = TAG) tags -> (len tags <= 128 ^ 6)%N ->
  let t := build_auth_tree hmac_key tags in
  compute_master_auth t' = compute_master_auth t -> treelevels t' = treelevels t ->
  (forall x y, x ∈ auth_sectors t -> y ∈ auth_sectors t' ->
     hmac_sha512_trunc32 hmac_key x = hmac_sha512_trunc32 hmac_key y -> x = y) ->
  N.to_nat i < length tags -> verify_path hmac_key t' i tag = Some true ->
  tags !! N.to_nat i = Some tag.
Proof.
  intros Hne Hall Hcap%pow_fan t Hm Htl Hcoll Hi Hv.
  pose proof (build_well_formed tags Hne Hall Hcap) as Hwf. fold t in Hwf.
  destruct (leaves_facts tags Hne Hall) as [Hlen _]. pose proof tag_pos.
  assert (N.to_nat i * TAG + TAG <= length (concat tags)) as Hb by (rewrite Hlen; nia).
  rewrite (tag_at_concat tags _ Hall Hi). f_equal. symmetry.
  destruct (levels t') as [|l0 rest] eqn:El; [unfold verify_path in Hv; by rewrite El in Hv|].
  assert (i * N.of_nat TAG + N.of_nat TAG <= U64_MAX)%N as Hov.
  { unfold verify_path in Hv. rewrite El in Hv. case_bool_decide; [done|]. lia. }
  rewrite (verify_path_unfold t' _ rest) in Hv by done. case_decide as Hd; [|done].
  pose proof (wf_leaves tags t Hwf) as Hleaf.
  destruct (treelevels t' =? 0) eqn:Hz.
  - apply Nat.eqb_eq in Hz. injection Hv as Hv. apply bool_decide_eq_true_1 in Hv.
    rewrite Htl in Hz. rewrite <- Hv, Hm, (master_of_tree tags t (concat tags)) by (done || by rewrite Hz).
    symmetry. apply tag_at_whole; [|done]. by apply (wf_root tags t Hwf); rewrite Hz.
  - rewrite Htl in Hv. apply (walk_binds tags t t' (treelevels t) 0 (concat tags) (N.to_nat i) tag);
      done.
Qed.

(** An index whose byte offset does not fit panics instead of being refused. *)
Lemma verify_path_overflow (t : AuthTree) i tag :
  levels t <> [] -> (U64_MAX < i * N.of_nat TAG + N.of_nat TAG)%N ->
  verify_path hmac_key t i tag = None.
Proof.
  intros Hne Hi. pose proof tag_pos. unfold verify_path. destruct (levels t); [done|].
  rewrite bool_decide_eq_true_2; [done|]. lia.
Qed.
End TreeFacts.

Definition toy_leaves : list (list byte) := [to_le_bytes 32 11; to_le_bytes 32 22; to_le_bytes 32 33].

Lemma toy_leaves_ok :
  toy_leaves <> [] /\ Forall (λ t, length t = PCLSYNC_AUTH_TAG_LEN) toy_leaves /\
  (len toy_leaves <= 128 ^ 6)%N.
Proof. split; [done|]. split; [by repeat constructor|done]. Defined.

Lemma verify_path_exact_witness :
  @verify_path toy_hmac (chars "mac") (@build_auth_tree toy_hmac (chars "mac") toy_leaves) 1
    (to_le_bytes 32 22) = Some true.
Proof.
  pose proof toy_hmac_laws as Hh. destruct toy_leaves_ok as (H1 & H2 & H3).
  rewrite (@verify_path_exact toy_hmac Hh (chars "mac") toy_leaves 1 (to_le_bytes 32 22) H1 H2 H3).
  - reflexivity.
  - by apply N.leb_le.
Defined.

(** Two trees with one root: the one built, against itself. *)
Lemma verify_path_binds_the_root_witness : toy_leaves !! 2 = Some (to_le_bytes 32 33).
Proof.
  pose proof toy_hmac_laws as Hh. destruct toy_leaves_ok as (H1 & H2 & H3).
  apply (@verify_path_binds_the_root toy_hmac Hh (chars "mac") toy_leaves
    (@build_auth_tree toy_hmac (chars "mac") toy_leaves) 2 (to_le_bytes 32 33) H1 H2 H3); try reflexivity.
  - assert (forallb (λ x, forallb (λ y,
       bool_decide (@hmac_sha512_trunc32 toy_hmac (chars "mac") x = @hmac_sha512_trunc32 toy_hmac (chars "mac") y
                    -> x = y))
       (auth_sectors (@build_auth_tree toy_hmac (chars "mac") toy_leaves)))
       (auth_sectors (@build_auth_tree toy_hmac (chars "mac") toy_leaves)) = true) as Hall
      by (vm_compute; reflexivity).
    intros x y Hx%list_elem_of_In Hy%list_elem_of_In.
    rewrite forallb_forall in Hall. specialize (Hall x Hx). rewrite forallb_forall in Hall.
    exact (bool_decide_eq_true_1 _ (Hall y Hy)).
  - apply Nat.ltb_lt. reflexivity.
Defined.
