(* ===== verification/Workers.v ===== *)
(** The background workers of the engine:
    crates/pcloud-engine/src/{reconcile_worker,stall_detector,divergence_sweeper,power}.rs.

    All are state machines stepped by the daemon.  Time is an argument ([Clock]). *)
From S2P Require Import Prelude Paths Model Clock.
From stdpp Require Import pretty.

(** * reconcile_worker.rs *)
Module Reconcile.

Inductive ReconcileTickOutcome : Type :=
| Idle
| RunScan (sync_ids : list SyncId)
| NoSyncRoots.

Record ReconcileWorker : Type := mkReconcileWorker {
  interval : Duration;
  last_scan_at : option Instant;
  tracked : list SyncId;
}.

Definition reconcile_new (interval : Duration) : ReconcileWorker := mkReconcileWorker interval None [].

Definition reconcile_track (sync_id : SyncId) (w : ReconcileWorker) : bool * ReconcileWorker :=
  if bool_decide (sync_id ∈ tracked w) then (false, w)
  else (true, mkReconcileWorker (interval w) (last_scan_at w) (tracked w ++ [sync_id])).

Definition reconcile_untrack (sync_id : SyncId) (w : ReconcileWorker) : bool * ReconcileWorker :=
  let kept := filter (λ id, id <> sync_id) (tracked w) in
  (bool_decide (length kept <> length (tracked w)),
   mkReconcileWorker (interval w) (last_scan_at w) kept).

Definition reconcile_tick (now : Instant) (w : ReconcileWorker) : ReconcileTickOutcome * ReconcileWorker :=
  match tracked w with
  | [] => (NoSyncRoots, w)
  | _ =>
      let due := match last_scan_at w with
                 | None => true
                 | Some last => bool_decide (interval w <= duration_since now last)%N
                 end in
      if due then
        (RunScan (tracked w), mkReconcileWorker (interval w) (Some now) (tracked w))
      else (Idle, w)
  end.

Definition request_scan (w : ReconcileWorker) : ReconcileWorker :=
  mkReconcileWorker (interval w) None (tracked w).

(** What the daemon does with the worker. *)
Inductive reconcile_call : Type :=
| Track (id : SyncId)
| Untrack (id : SyncId)
| Tick (now : Instant)
| RequestScan.

Definition reconcile_step (c : reconcile_call) (w : ReconcileWorker) : ReconcileWorker :=
  match c with
  | Track id => (reconcile_track id w).2
  | Untrack id => (reconcile_untrack id w).2
  | Tick now => (reconcile_tick now w).2
  | RequestScan => request_scan w
  end.

(** The scans of a run: the instant and the roots of each. *)
Fixpoint scans (w : ReconcileWorker) (cs : list reconcile_call) : list (Instant * list SyncId) :=
  match cs with
  | [] => []
  | c :: cs' =>
      match c with
      | Tick now => match (reconcile_tick now w).1 with RunScan ids => [(now, ids)] | _ => [] end
      | _ => []
      end ++ scans (reconcile_step c w) cs'
  end.

Definition ticks (cs : list reconcile_call) : list Instant :=
  omap (λ c, match c with Tick now => Some now | _ => None end) cs.

Lemma tick_spec now w :
  reconcile_tick now w = (NoSyncRoots, w) /\ tracked w = [] \/
  reconcile_tick now w = (Idle, w) /\ tracked w <> [] /\
    (exists last, last_scan_at w = Some last /\ (duration_since now last < interval w)%N) \/
  reconcile_tick now w = (RunScan (tracked w), mkReconcileWorker (interval w) (Some now) (tracked w)) /\
    tracked w <> [] /\
    (forall last, last_scan_at w = Some last -> (interval w <= duration_since now last)%N).
Proof.
  unfold reconcile_tick. destruct (tracked w) as [|i l] eqn:Et; [by left|].
  destruct (last_scan_at w) as [last|]; [case_bool_decide as Hd|].
  - right; right. split; [done|]. split; [done|]. by intros ? [= <-].
  - right; left. split; [done|]. split; [done|]. exists last. split; [done|lia].
  - by right; right.
Qed.

(** The worker's invariant: no root is tracked twice. *)
Lemma step_nodup c w : NoDup (tracked w) -> NoDup (tracked (reconcile_step c w)).
Proof.
  intros Hn. destruct c as [id|id|now|]; simpl; [| | |done].
  - unfold reconcile_track. case_bool_decide as Hin; [done|]. simpl. apply NoDup_app.
    split; [done|]. split; [|apply NoDup_singleton]. intros x Hx ->%list_elem_of_singleton. done.
  - by apply NoDup_filter.
  - by destruct (tick_spec now w) as [[-> _]|[[-> _]|[-> _]]].
Qed.

(** ** Spacing *)

(** Without [request_scan], and on a clock that does not go back, the first scan comes at least
    an interval after the last one. *)
Lemma first_scan_after w cs last :
  last_scan_at w = Some last -> Forall (λ c, c <> RequestScan) cs ->
  Forall (λ s, (interval w <= duration_since s.1 last)%N) (take 1 (scans w cs)).
Proof.
  revert w; induction cs as [|c cs IH]; intros w Hl Hr; [constructor|].
  inversion Hr as [|? ? Hc Hr']; subst. cbn [scans].
  destruct c as [id|id|now|]; [| | |done].
  - simpl. replace (interval w) with (interval (reconcile_track id w).2)
      by (unfold reconcile_track; by case_bool_decide).
    apply IH; [|done]. unfold reconcile_track. by case_bool_decide.
  - simpl. by apply (IH (reconcile_untrack id w).2).
  - simpl. destruct (tick_spec now w) as [[-> _]|[[-> _]|[-> [_ Hd]]]]; simpl; [by apply IH..|].
    rewrite take_0. constructor; [by apply Hd|constructor].
Qed.

Fixpoint spaced (d : Duration) (l : list Instant) : Prop :=
  match l with
  | [] | [_] => True
  | t1 :: (t2 :: _) as l' => (t1 + d <= t2)%N /\ spaced d l'
  end.

(** Scans are never closer than the interval, however often the daemon ticks. *)
Theorem scans_are_spaced w cs :
  (0 < interval w)%N -> Forall (λ c, c <> RequestScan) cs -> spaced (interval w) (scans w cs).*1.
Proof.
  intros Hpos. revert w Hpos; induction cs as [|c cs IH]; intros w Hpos Hr; [done|].
  inversion Hr as [|? ? Hc Hr']; subst. cbn [scans].
  destruct c as [id|id|now|]; [| | |done]; cbn [app reconcile_step].
  - replace (interval w) with (interval (reconcile_track id w).2) by (unfold reconcile_track; by case_bool_decide).
    apply IH; [|done]. unfold reconcile_track. by case_bool_decide.
  - by apply (IH (reconcile_untrack id w).2).
  - destruct (tick_spec now w) as [[-> _]|[[-> _]|[-> [_ Hd]]]]; cbn [fst snd app]; [by apply IH..|].
    set (w' := mkReconcileWorker _ _ _). pose proof (first_scan_after w' cs now eq_refl Hr') as Hf.
    pose proof (IH w' Hpos Hr') as Hs. cbn [fmap list_fmap].
    destruct (scans w' cs) as [|s1 ss]; [done|]. cbn [fmap list_fmap fst] in Hs |- *. split; [|exact Hs].
    simpl take in Hf. inversion Hf as [|? ? H1 _]; subst. unfold duration_since in H1.
    change (interval w') with (interval w) in H1. lia.
Qed.

(** A tick an interval after the last scan always fires, with exactly the tracked roots. *)
Lemma due_tick_scans now w :
  tracked w <> [] -> (forall last, last_scan_at w = Some last -> (last + interval w <= now)%N) ->
  (reconcile_tick now w).1 = RunScan (tracked w) /\ last_scan_at (reconcile_tick now w).2 = Some now.
Proof.
  intros Ht Hd. destruct (tick_spec now w) as [[-> ?]|[[_ (_ & last & Hl & Hlt)]|[-> _]]]; [done| |done].
  specialize (Hd last Hl). unfold duration_since in Hlt. lia.
Qed.

Lemma scans_are_spaced_witness :
  let cs := [Tick 5; Track 1; Tick 10; Tick 12; Track 2; Tick 40; Tick 41] in
  scans (reconcile_new 30) cs = [(10, [1]); (40, [1; 2])]%N /\
  spaced 30 (scans (reconcile_new 30) cs).*1.
Proof.
  intros cs. split; [reflexivity|].
  apply (scans_are_spaced (reconcile_new 30) cs); [reflexivity|by repeat constructor].
Defined.
End Reconcile.

(** * stall_detector.rs *)
Module Stall.

Definition DEFAULT_STALL_TIMEOUT : Duration := from_secs 300.
Definition MIN_STALL_TIMEOUT : Duration := from_secs 1.

Record ByteProgress : Type := mkByteProgress { total_bytes : N; bp_last_progress : Instant }.

Record StallDetector : Type := mkStallDetector {
  stall_timeout : Duration;
  last_progress : Instant;
  byte_progress : gmap string ByteProgress;
}.

Definition stall_new (now : Instant) (timeout : Duration) : StallDetector :=
  mkStallDetector (N.max timeout MIN_STALL_TIMEOUT) now ∅.

(** [checked_sub] on an [Instant] fails before the clock's origin. *)
Definition new_with_elapsed (now : Instant) (timeout already_elapsed : Duration) : StallDetector :=
  let timeout := N.max timeout MIN_STALL_TIMEOUT in
  let budget_consumed := N.min already_elapsed (timeout - 1000000) in
  let last_progress := if bool_decide (budget_consumed <= now)%N then (now - budget_consumed)%N else now in
  mkStallDetector timeout last_progress ∅.

Definition mark_progress (now : Instant) (d : StallDetector) : StallDetector :=
  mkStallDetector (stall_timeout d) now (byte_progress d).

Definition observe_bytes (now : Instant) (transfer_id : string) (bytes_delta : N)
    (d : StallDetector) : StallDetector :=
  let entry := default (mkByteProgress 0 now) (byte_progress d !! transfer_id) in
  let entry := mkByteProgress (u64_saturating_add (total_bytes entry) bytes_delta) now in
  mkStallDetector (stall_timeout d) (last_progress d) (<[transfer_id := entry]> (byte_progress d)).

Definition forget_transfer (transfer_id : string) (d : StallDetector) : StallDetector :=
  mkStallDetector (stall_timeout d) (last_progress d) (delete transfer_id (byte_progress d)).

Definition elapsed_since_progress (now : Instant) (d : StallDetector) : Duration :=
  duration_since now (last_progress d).

(** [guard.values().any(..)]; the order of a hash map's values does not matter here. *)
Definition check_stall (now : Instant) (d : StallDetector) : bool :=
  if bool_decide (duration_since now (last_progress d) < stall_timeout d)%N then false
  else
    negb (existsb (λ kv, bool_decide (duration_since now (bp_last_progress kv.2) < stall_timeout d)%N)
            (map_to_list (byte_progress d))).

(** ** A history of progress events *)

Inductive stall_event : Type :=
| MarkProgress (now : Instant)
| ObserveBytes (now : Instant) (id : string) (delta : N)
| ForgetTransfer (id : string).

Definition stall_step (d : StallDetector) (e : stall_event) : StallDetector :=
  match e with
  | MarkProgress now => mark_progress now d
  | ObserveBytes now id delta => observe_bytes now id delta d
  | ForgetTransfer id => forget_transfer id d
  end.

(** The instants that still count: the last mark, and for each transfer that was not forgotten
    its last byte. *)
Fixpoint live_marks (start : Instant) (es : list stall_event) : Instant * gmap string Instant :=
  match es with
  | [] => (start, ∅)
  | e :: es' => (* latest event first *)
      let '(m, ts) := live_marks start es' in
      match e with
      | MarkProgress now => (now, ts)
      | ObserveBytes now id _ => (m, <[id := now]> ts)
      | ForgetTransfer id => (m, delete id ts)
      end
  end.

Lemma check_stall_spec now d :
  check_stall now d = true <->
  (last_progress d + stall_timeout d <= now)%N /\
  map_Forall (λ _ bp, bp_last_progress bp + stall_timeout d <= now)%N (byte_progress d) \/
  stall_timeout d = 0%N.
Proof.
  unfold check_stall, duration_since. case_bool_decide as Hw.
  - split; [done|]. intros [[? _]|Hz]; lia.
  - rewrite negb_true_iff, <- not_true_iff_false, existsb_exists. split.
    + intros Hn. destruct (decide (stall_timeout d = 0%N)) as [|Hz]; [by right|left].
      split; [lia|]. intros k bp Hk.
      destruct (decide (bp_last_progress bp + stall_timeout d <= now)%N) as [|Hgt]; [done|].
      destruct Hn. exists (k, bp). split; [by apply list_elem_of_In, elem_of_map_to_list|].
      apply bool_decide_eq_true_2. simpl. lia.
    + intros Hor ([k bp] & Hin & Hb). apply bool_decide_eq_true_1 in Hb. simpl in Hb.
      apply list_elem_of_In, elem_of_map_to_list in Hin.
      destruct Hor as [[_ Hall]|Hz]; [|lia]. specialize (Hall k bp Hin). simpl in Hall. lia.
Qed.

Lemma step_timeout d es : stall_timeout (foldr (λ e d, stall_step d e) d es) = stall_timeout d.
Proof. induction es as [|e es IH]; [done|]. by destruct e. Qed.

Lemma step_marks now timeout es :
  let d := foldr (λ e d, stall_step d e) (stall_new now timeout) es in
  last_progress d = (live_marks now es).1 /\ bp_last_progress <$> byte_progress d = (live_marks now es).2.
Proof.
  induction es as [|e es [IH1 IH2]]; cbn [foldr live_marks]; [simpl; by rewrite fmap_empty|].
  destruct (live_marks now es) as [m ts]. cbn [fst snd] in IH1, IH2.
  set (d := foldr _ _ es) in *. destruct e; simpl; rewrite ?IH1; split; try done.
  - by rewrite fmap_insert, IH2.
  - by rewrite fmap_delete, IH2.
Qed.

(** The detector reports a stall exactly when the last mark and the last byte of every transfer
    that is still tracked are all older than the timeout: a slow transfer that moves is never
    reported, and a forgotten one no longer masks a stall. *)
Theorem check_stall_iff_no_recent_progress start now timeout es :
  check_stall now (foldr (λ e d, stall_step d e) (stall_new start timeout) es) = true <->
  let limit := N.max timeout MIN_STALL_TIMEOUT in
  ((live_marks start es).1 + limit <= now)%N /\
  map_Forall (λ _ t, t + limit <= now)%N (live_marks start es).2.
Proof.
  destruct (step_marks start timeout es) as [H1 H2]. cbv zeta. rewrite check_stall_spec, step_timeout, H1, <- H2.
  assert (stall_timeout (stall_new start timeout) = N.max timeout MIN_STALL_TIMEOUT) as -> by done.
  assert (0 < N.max timeout MIN_STALL_TIMEOUT)%N as Hpos.
  { assert (0 < MIN_STALL_TIMEOUT)%N by (by apply N.ltb_lt). lia. }
  split; [intros [[H3 H4]|?]; [|lia]|intros [H3 H4]; left]; (split; [done|]).
  - intros id t Ht. rewrite lookup_fmap in Ht.
    destruct (byte_progress _ !! id) as [bp|] eqn:E; [|done]. simpl in Ht. injection Ht as <-. by apply (H4 id).
  - intros id bp Hb. apply (H4 id). by rewrite lookup_fmap, Hb.
Qed.

(** A detector just built never fires, even when the whole budget was already consumed. *)
Lemma fresh_detector_is_quiet now timeout already :
  check_stall now (stall_new now timeout) = false /\
  check_stall now (new_with_elapsed now timeout already) = false.
Proof.
  assert (0 < MIN_STALL_TIMEOUT)%N by (by apply N.ltb_lt).
  assert (1000000 < MIN_STALL_TIMEOUT)%N by (by apply N.ltb_lt).
  split; apply not_true_iff_false; rewrite check_stall_spec; cbn [stall_timeout last_progress stall_new new_with_elapsed];
    intros [[Hle _]|Hz]; try case_bool_decide; lia.
Qed.

(** The byte total of a transfer never decreases and stays a [u64]. *)
Lemma observe_bytes_total now id delta d :
  exists bp, byte_progress (observe_bytes now id delta d) !! id = Some bp /\
    total_bytes bp = u64_saturating_add (from_option total_bytes 0%N (byte_progress d !! id)) delta /\
    forall id', id' <> id -> byte_progress (observe_bytes now id delta d) !! id' = byte_progress d !! id'.
Proof.
  eexists. simpl. rewrite lookup_insert_eq. split; [done|]. simpl. split.
  - by destruct (byte_progress d !! id).
  - intros id' Hne. by rewrite lookup_insert_ne.
Qed.
End Stall.

(** * divergence_sweeper.rs *)
Module Divergence.

Definition MAX_QUARANTINE_ENTRIES : nat := 1024.
Definition MIN_PERIOD_SECS : N := 60.
Definition MAX_PERIOD_SECS : N := 7 * 24 * 60 * 60.

Record DivergenceSweeperConfig : Type := mkConfig { enabled : bool; period_secs : N }.

Definition sweeper_validate (c : DivergenceSweeperConfig) : result unit string :=
  if (period_secs c <? MIN_PERIOD_SECS)%N || (MAX_PERIOD_SECS <? period_secs c)%N
  then Err "sync.divergence_sweeper.period_secs must be between 60 and 604800"%string
  else Ok tt.

Inductive DivergenceKind : Type := OrphanPausedRoot | OrphanOverflow | SchedulerOverlap.

Record QuarantineEntry : Type := mkQuarantineEntry {
  q_sync_id : option SyncId;
  q_kind : DivergenceKind;
  q_detail : string;
  q_recorded_at_tick : N;
}.

Record DivergenceSweeper : Type := mkDivergenceSweeper {
  config : DivergenceSweeperConfig;
  last_run : option Instant;
  tick_count : N;
  evicted : N;
  quarantine : list QuarantineEntry;
}.

Record EngineSnapshot : Type := mkEngineSnapshot {
  paused_roots : list SyncId;
  overflow_sync_ids : list SyncId;
  scheduler_sync_ids : list SyncId;
  active_roots : list SyncId;
}.

Definition sweeper_new (c : DivergenceSweeperConfig) : DivergenceSweeper := mkDivergenceSweeper c None 0 0 [].

Definition sweeper_push (entry : QuarantineEntry) (s : DivergenceSweeper) : DivergenceSweeper :=
  let s := if MAX_QUARANTINE_ENTRIES <=? length (quarantine s)
           then mkDivergenceSweeper (config s) (last_run s) (tick_count s)
                  (u64_saturating_add (evicted s) 1) (drop 1 (quarantine s))
           else s in
  mkDivergenceSweeper (config s) (last_run s) (tick_count s) (evicted s) (quarantine s ++ [entry]).

(** One of the three scans: [sweeper_push] for each id that satisfies the predicate, in order. *)
Fixpoint push_where (P : SyncId -> bool) (mk : SyncId -> N -> QuarantineEntry) (ids : list SyncId)
    (s : DivergenceSweeper) : DivergenceSweeper :=
  match ids with
  | [] => s
  | sid :: ids' => push_where P mk ids' (if P sid then sweeper_push (mk sid (tick_count s)) s else s)
  end.

Definition orphan_paused (sid : SyncId) (tick : N) : QuarantineEntry :=
  mkQuarantineEntry (Some sid) OrphanPausedRoot
    ("paused sync_id " +:+ pretty sid +:+ " not present in active root list") tick.

Definition orphan_overflow (sid : SyncId) (tick : N) : QuarantineEntry :=
  mkQuarantineEntry (Some sid) OrphanOverflow
    ("planner overflow contains entries for inactive sync_id " +:+ pretty sid) tick.

Definition scheduler_overlap (sid : SyncId) (tick : N) : QuarantineEntry :=
  mkQuarantineEntry (Some sid) SchedulerOverlap
    ("scheduler retains queued ops for paused sync_id " +:+ pretty sid) tick.

Definition run_tick (now : Instant) (snapshot : EngineSnapshot) (s : DivergenceSweeper)
    : DivergenceSweeper :=
  let s := mkDivergenceSweeper (config s) (Some now) (u64_saturating_add (tick_count s) 1)
             (evicted s) (quarantine s) in
  let s := push_where (λ sid, negb (bool_decide (sid ∈ active_roots snapshot))) orphan_paused
             (paused_roots snapshot) s in
  let s := push_where (λ sid, negb (bool_decide (sid ∈ active_roots snapshot))) orphan_overflow
             (overflow_sync_ids snapshot) s in
  push_where (λ sid, bool_decide (sid ∈ paused_roots snapshot)) scheduler_overlap
    (scheduler_sync_ids snapshot) s.

Definition run_now (now : Instant) (snapshot : EngineSnapshot) (s : DivergenceSweeper)
    : DivergenceSweeper := run_tick now snapshot s.

Definition tick_if_due (now : Instant) (snapshot : EngineSnapshot) (s : DivergenceSweeper)
    : bool * DivergenceSweeper :=
  if negb (enabled (config s)) then (false, s)
  else
    let due := match last_run s with
               | None => true
               | Some t => bool_decide (from_secs (period_secs (config s)) <= duration_since now t)%N
               end in
    if due then (true, run_tick now snapshot s) else (false, s).

Definition drain_quarantine (s : DivergenceSweeper) : list QuarantineEntry * DivergenceSweeper :=
  (quarantine s, mkDivergenceSweeper (config s) (last_run s) (tick_count s) (evicted s) []).

(** The divergences of a snapshot. *)
Definition divergences (snapshot : EngineSnapshot) (tick : N) : list QuarantineEntry :=
  ((λ sid, orphan_paused sid tick) <$> filter (λ sid, sid ∉ active_roots snapshot) (paused_roots snapshot))
  ++ ((λ sid, orphan_overflow sid tick) <$> filter (λ sid, sid ∉ active_roots snapshot) (overflow_sync_ids snapshot))
  ++ ((λ sid, scheduler_overlap sid tick) <$> filter (λ sid, sid ∈ paused_roots snapshot) (scheduler_sync_ids snapshot)).

(** Keeping the newest entries of a list. *)
Definition newest (l : list QuarantineEntry) : list QuarantineEntry :=
  drop (length l - MAX_QUARANTINE_ENTRIES) l.

#[global] Arguments MAX_QUARANTINE_ENTRIES : simpl never.

(** Two sweepers with the same ring. *)
Lemma push_spec e s :
  length (quarantine s) <= MAX_QUARANTINE_ENTRIES ->
  quarantine (sweeper_push e s) = newest (quarantine s ++ [e]) /\
  length (quarantine (sweeper_push e s)) <= MAX_QUARANTINE_ENTRIES /\
  tick_count (sweeper_push e s) = tick_count s /\ config (sweeper_push e s) = config s /\ last_run (sweeper_push e s) = last_run s.
Proof.
  intros Hl. unfold sweeper_push, newest. rewrite length_app. cbn [length].
  assert (0 < MAX_QUARANTINE_ENTRIES) by (apply Nat.ltb_lt; reflexivity).
  case_match eqn:Hc; cbn [quarantine tick_count config last_run].
  - apply Nat.leb_le in Hc.
    replace (length (quarantine s) + 1 - MAX_QUARANTINE_ENTRIES) with 1 by lia.
    rewrite drop_app_le by lia. split; [done|]. rewrite length_app, length_drop. simpl. split; [lia|done].
  - apply Nat.leb_gt in Hc.
    replace (length (quarantine s) + 1 - MAX_QUARANTINE_ENTRIES) with 0 by lia.
    rewrite drop_0. split; [done|]. rewrite length_app. simpl. split; [lia|done].
Qed.

Lemma newest_app l1 l2 : newest (newest l1 ++ l2) = newest (l1 ++ l2).
Proof.
  unfold newest. rewrite !length_app, length_drop.
  set (m := MAX_QUARANTINE_ENTRIES). destruct (decide (length l1 <= m)) as [Hle|Hgt].
  - replace (length l1 - m) with 0 by lia. rewrite drop_0. do 2 f_equal. lia.
  - replace (length l1 + length l2 - m)
      with ((length l1 - m) + (length l1 - (length l1 - m) + length l2 - m)) by lia.
    rewrite <- drop_drop. f_equal. rewrite drop_app_le by lia. done.
Qed.

(** What the ring gains when [added] goes through it. *)
Record gained (added : list QuarantineEntry) (s s' : DivergenceSweeper) : Prop := {
  gained_ring : quarantine s' = newest (quarantine s ++ added);
  gained_bound : length (quarantine s) <= length (quarantine s') <= MAX_QUARANTINE_ENTRIES;
  gained_count : (evicted s + len added <= U64_MAX)%N ->
    (evicted s' + len (quarantine s') = evicted s + len (quarantine s) + len added)%N;
  gained_rest : tick_count s' = tick_count s /\ config s' = config s /\ last_run s' = last_run s;
}.

Lemma gained_nil s : length (quarantine s) <= MAX_QUARANTINE_ENTRIES -> gained [] s s.
Proof.
  intros Hl. split; [|lia|rewrite len_nil; lia|done]. unfold newest. rewrite app_nil_r.
  replace (length (quarantine s) - MAX_QUARANTINE_ENTRIES) with 0 by lia. by rewrite drop_0.
Qed.

Lemma gained_push e s :
  length (quarantine s) <= MAX_QUARANTINE_ENTRIES -> gained [e] s (sweeper_push e s).
Proof.
  intros Hl. destruct (push_spec e s Hl) as (Hq & Hl' & Ht & Hc & Hr).
  split; [done| |intros Hov|done]; unfold sweeper_push in *; case_match eqn:Hm; cbn [quarantine evicted] in *.
  - rewrite length_app, length_drop in *. simpl in *. lia.
  - rewrite length_app in *. simpl in *. lia.
  - apply Nat.leb_le in Hm. unfold u64_saturating_add. rewrite !len_app, !len_cons, !len_nil in *.
    assert (0 < MAX_QUARANTINE_ENTRIES) by (apply Nat.ltb_lt; reflexivity).
    unfold len in *. rewrite length_drop. lia.
  - rewrite !len_app. lia.
Qed.

Lemma gained_trans added1 added2 s1 s2 s3 :
  gained added1 s1 s2 -> gained added2 s2 s3 -> gained (added1 ++ added2) s1 s3.
Proof.
  intros [Hq1 Hl1 He1 Hr1] [Hq2 Hl2 He2 Hr2]. split; [|lia| |naive_solver congruence].
  - by rewrite Hq2, Hq1, newest_app, app_assoc.
  - rewrite len_app. intros Hov. specialize (He1 ltac:(lia)).
    assert (len (quarantine s1) <= len (quarantine s2))%N by (unfold len; lia).
    specialize (He2 ltac:(lia)). lia.
Qed.

Lemma gained_push_where P mk ids s :
  length (quarantine s) <= MAX_QUARANTINE_ENTRIES ->
  gained ((λ sid, mk sid (tick_count s)) <$> filter (λ sid, P sid = true) ids) s (push_where P mk ids s).
Proof.
  revert s; induction ids as [|sid ids IH]; intros s Hl; [by apply gained_nil|].
  cbn [push_where]. rewrite filter_cons. destruct (P sid) eqn:HP.
  - rewrite decide_True by done. rewrite fmap_cons.
    pose proof (gained_push (mk sid (tick_count s)) s Hl) as Hp.
    destruct (gained_rest _ _ _ Hp) as (Ht & _). pose proof (gained_bound _ _ _ Hp) as Hb.
    change (?x :: ?l) with ([x] ++ l). apply (gained_trans _ _ _ (sweeper_push (mk sid (tick_count s)) s)); [done|].
    pose proof (IH (sweeper_push (mk sid (tick_count s)) s) ltac:(lia)) as G. by rewrite Ht in G.
  - rewrite decide_False by done. by apply IH.
Qed.

(** A sweep adds exactly the divergences of the snapshot to the ring, keeps the newest 1024
    entries, and accounts for every entry it dropped. *)
Theorem run_tick_quarantines_the_divergences now snapshot s :
  length (quarantine s) <= MAX_QUARANTINE_ENTRIES ->
  let s' := run_tick now snapshot s in
  let found := divergences snapshot (u64_saturating_add (tick_count s) 1) in
  quarantine s' = newest (quarantine s ++ found) /\
  length (quarantine s') <= MAX_QUARANTINE_ENTRIES /\
  ((evicted s + len found <= U64_MAX)%N ->
   evicted s' + len (quarantine s') = evicted s + len (quarantine s) + len found)%N /\
  last_run s' = Some now /\ tick_count s' = u64_saturating_add (tick_count s) 1 /\ config s' = config s.
Proof.
  intros Hl s' found. set (s0 := mkDivergenceSweeper (config s) (Some now)
    (u64_saturating_add (tick_count s) 1) (evicted s) (quarantine s)).
  assert (gained found s0 s') as [Hq Hb He (Ht & Hc & Hr)].
  { unfold s', run_tick. fold s0. set (P := λ sid, negb (bool_decide (sid ∈ active_roots snapshot))).
    set (Q := λ sid, bool_decide (sid ∈ paused_roots snapshot)).
    pose proof (gained_push_where P orphan_paused (paused_roots snapshot) s0 Hl) as G1.
    set (s1 := push_where P orphan_paused _ s0) in *.
    pose proof (gained_push_where P orphan_overflow (overflow_sync_ids snapshot) s1
      ltac:(apply (gained_bound _ _ _ G1))) as G2.
    set (s2 := push_where P orphan_overflow _ s1) in *.
    pose proof (gained_push_where Q scheduler_overlap (scheduler_sync_ids snapshot) s2
      ltac:(apply (gained_bound _ _ _ G2))) as G3.
    destruct (gained_rest _ _ _ G1) as (T1 & _). destruct (gained_rest _ _ _ G2) as (T2 & _).
    rewrite T2, T1 in G3. rewrite T1 in G2.
    pose proof (gained_trans _ _ _ _ _ G1 (gained_trans _ _ _ _ _ G2 G3)) as G.
    unfold found, divergences. cbn [tick_count s0] in G.
    assert (forall ids : list SyncId, filter (λ sid, P sid = true) ids = filter (λ sid, sid ∉ active_roots snapshot) ids) as FP.
    { intros ids. apply list_filter_iff. intros x. unfold P. by rewrite negb_true_iff, bool_decide_eq_false. }
    assert (forall ids : list SyncId, filter (λ sid, Q sid = true) ids = filter (λ sid, sid ∈ paused_roots snapshot) ids) as FQ.
    { intros ids. apply list_filter_iff. intros x. unfold Q. by rewrite bool_decide_eq_true. }
    rewrite !FP, FQ in G. exact G. }
  split; [exact Hq|]. split; [lia|]. split; [exact He|]. by rewrite Ht, Hc, Hr.
Qed.

Definition stale_snapshot : EngineSnapshot := mkEngineSnapshot [1; 2]%N [3; 1]%N [2; 4]%N [1; 4]%N.

Lemma run_tick_quarantines_the_divergences_witness :
  q_kind <$> quarantine (run_tick 50 stale_snapshot (sweeper_new (mkConfig true 86400)))
  = [OrphanPausedRoot; OrphanOverflow; SchedulerOverlap].
Proof.
  destruct (run_tick_quarantines_the_divergences 50 stale_snapshot (sweeper_new (mkConfig true 86400)))
    as (-> & _); [simpl; lia|]. reflexivity.
Defined.

(** The timer: a disabled sweeper never runs on it, an enabled one runs once per period ... *)
Lemma tick_if_due_spec now snapshot s :
  (tick_if_due now snapshot s).1 = true <->
  enabled (config s) = true /\
  (forall t, last_run s = Some t -> (from_secs (period_secs (config s)) <= duration_since now t)%N).
Proof.
  unfold tick_if_due. destruct (enabled (config s)); simpl; [|by split; [|intros []]].
  destruct (last_run s) as [t|]; [case_bool_decide as Hd|]; simpl.
  - split; [|done]. intros _. split; [done|]. by intros ? [= <-].
  - split; [done|]. intros [_ Ht]. by destruct Hd; apply Ht.
  - by split.
Qed.

(** ... but the forced sweep ignores the switch. *)
Lemma run_now_ignores_enabled :
  quarantine (run_now 5 stale_snapshot (sweeper_new (mkConfig false 86400))) <> [].
Proof. vm_compute. discriminate. Qed.
End Divergence.

(** * power.rs *)
Module Power.

Inductive PowerState : Type := OnAc | OnBattery | Unknown.

(** [eq_ignore_ascii_case]. *)
Definition to_ascii_lowercase (c : ascii) : ascii :=
  let n := N_of_ascii c in if ((65 <=? n) && (n <=? 90))%N then ascii_of_N (n + 32) else c.

Definition eq_ignore_ascii_case (a b : list ascii) : bool :=
  bool_decide (to_ascii_lowercase <$> a = to_ascii_lowercase <$> b).

Definition should_pause (read : PowerState) (pause_on_battery : bool) : bool :=
  if negb pause_on_battery then false
  else match read with OnBattery => true | _ => false end.

(** The loop over the supplies: the text of each readable status file. *)
Fixpoint scan_supplies (entries : list (option (list ascii))) (saw_ac saw_battery : bool) : bool * bool :=
  match entries with
  | [] => (saw_ac, saw_battery)
  | None :: es => scan_supplies es saw_ac saw_battery
  | Some raw :: es =>
      let trimmed := trim raw in
      if eq_ignore_ascii_case trimmed (chars "Discharging") then scan_supplies es saw_ac true
      else if eq_ignore_ascii_case trimmed (chars "Charging") || eq_ignore_ascii_case trimmed (chars "Full")
      then scan_supplies es true saw_battery
      else scan_supplies es saw_ac saw_battery
  end.

(** [None] when the directory cannot be listed. *)
Definition read_linux_sysfs (entries : option (list (option (list ascii)))) : PowerState :=
  match entries with
  | None => Unknown
  | Some es =>
      let '(saw_ac, saw_battery) := scan_supplies es false false in
      if saw_battery && negb saw_ac then OnBattery
      else if saw_ac then OnAc
      else Unknown
  end.

Definition status_is (names : list string) (e : option (list ascii)) : bool :=
  match e with
  | Some raw => existsb (λ n, eq_ignore_ascii_case (trim raw) (chars n)) names
  | None => false
  end.

Lemma eq_ignore_case_fun a b c :
  eq_ignore_ascii_case a b = true -> eq_ignore_ascii_case a c = eq_ignore_ascii_case b c.
Proof. unfold eq_ignore_ascii_case. intros H%bool_decide_eq_true_1. by rewrite H. Qed.

Lemma scan_supplies_spec es ac bat :
  scan_supplies es ac bat
  = (ac || existsb (status_is ["Charging"; "Full"]%string) es,
     bat || existsb (status_is ["Discharging"]%string) es).
Proof.
  revert ac bat; induction es as [|[raw|] es IH]; intros ac bat; cbn [scan_supplies existsb].
  - by rewrite !orb_false_r.
  - cbn [status_is existsb]. rewrite !orb_false_r.
    destruct (eq_ignore_ascii_case (trim raw) (chars "Discharging")) eqn:Hd.
    + rewrite !(eq_ignore_case_fun _ _ _ Hd), IH. simpl. by rewrite orb_true_r.
    + destruct (_ || _) eqn:Hc; rewrite IH; simpl; [|done]. by rewrite orb_true_r.
  - by rewrite IH.
Qed.

(** Sync pauses on battery exactly when it is configured to, a readable supply discharges and
    none charges or is full: a host without supplies is never frozen. *)
Theorem should_pause_iff entries pause :
  should_pause (read_linux_sysfs entries) pause = true <->
  pause = true /\ exists es, entries = Some es /\
    existsb (status_is ["Discharging"]%string) es = true /\
    existsb (status_is ["Charging"; "Full"]%string) es = false.
Proof.
  unfold should_pause, read_linux_sysfs. destruct pause; simpl; [|by split; [|intros []]].
  destruct entries as [es|]; [|split; [done|]; by intros (_ & ? & ? & _)].
  rewrite scan_supplies_spec. simpl.
  destruct (existsb (status_is ["Discharging"]%string) es) eqn:Hd,
    (existsb (status_is ["Charging"; "Full"]%string) es) eqn:Ha; simpl;
    (split; [intros|intros (_ & ? & [= <-] & H1 & H2)]; try congruence).
  by split; [|exists es].
Qed.

Example power_ex : read_linux_sysfs (Some [Some (chars "discharging
"); None]) = OnBattery.
Proof. vm_compute. reflexivity. Qed.
End Power.
