(* ===== verification/AuditLog.v ===== *)
(** The tamper-evident audit log of crates/pcloud-store/src/repositories/audit.rs and the
    scheduled verifier of crates/pcloud-daemon/src/audit_verifier_service.rs.

    The table [audit_events] is the list of its rows in the order of their ids; SQLite chooses
    the id and the timestamp of a new row, so they are arguments.  SHA-256 and HMAC-SHA-256 are
    the classes [Sha256] and [HmacSha256].  What the verifier accepts is a chain; accepted
    chains with one last hash have one content; and two ways of losing rows are not noticed. *)
From S2P Require Import Prelude Paths Bytes CryptoPrims.

Definition AUDIT_HASH_LEN : nat := 32.
Definition AUDIT_ZERO_PREV : list byte := replicate AUDIT_HASH_LEN zero.
#[global] Arguments AUDIT_HASH_LEN : simpl never.

(** [Sha256::digest] and [Hmac::<Sha256>]. *)
Class Sha256 : Type := sha256 : list byte -> list byte.
Class Sha256Laws `{Sha256} : Prop := length_sha256 m : length (sha256 m) = AUDIT_HASH_LEN.
Class HmacSha256 : Type := hmac_sha256 : list byte -> list byte -> list byte.

(** A row of the table; the three last columns may be [NULL]. *)
Record AuditRow : Type := mkAuditRow {
  row_id : Z;
  row_category : list byte;
  row_details : option (list byte);
  row_created_at : list byte;
  row_prev_hash : option (list byte);
  row_entry_hash : option (list byte);
  row_hmac : option (list byte);
}.

Record AuditRepository : Type := mkAuditRepository {
  retained_event_count : N;
  last_event_details : option (list byte);
  last_entry_hash : list byte;
  repo_hmac_key : option (list byte);
}.

Record VerifiedChain : Type := mkVerifiedChain {
  first_id : option Z;
  last_id : option Z;
  entries_checked : N;
}.

Inductive AuditChainError : Type :=
| PrevHashMismatch (id : Z)
| EntryHashMismatch (id : Z)
| MissingStoredHash (id : Z)
| HmacMismatch (id : Z)
| Sql (e : string).

(** * Framing *)

(** [i64::to_le_bytes]. *)
Definition i64_to_le_bytes (z : Z) : list byte := to_le_bytes 8 (Z.to_N (z mod 2 ^ 64)).

Definition push_str (out s : list byte) : list byte := out ++ to_le_bytes 8 (as_u64 (len s)) ++ s.

Definition canonical_event_bytes (id : Z) (category : list byte) (details : option (list byte))
    (created_at : list byte) : list byte :=
  let out := i64_to_le_bytes id in
  let out := push_str out category in
  let out := match details with
             | Some s => push_str (out ++ [to_byte 1]) s
             | None => out ++ [to_byte 0]
             end in
  push_str out created_at.

Definition row_bytes (r : AuditRow) : list byte :=
  canonical_event_bytes (row_id r) (row_category r) (row_details r) (row_created_at r).

Section Audit.
Context `{Sha256, HmacSha256}.

Definition compute_entry_hash (prev_hash event_bytes : list byte) : list byte :=
  sha256 (prev_hash ++ event_bytes).

Definition compute_hmac (key entry_hash : list byte) : list byte :=
  hmac_sha256 (if bool_decide (key = []) then [to_byte 0] else key) entry_hash.

(** * The repository *)

Definition load (table : list AuditRow) : AuditRepository :=
  let last_row := last table in
  mkAuditRepository (len table) (r ← last_row; row_details r)
    (match r ← last_row; row_entry_hash r with
     | Some bytes => if length bytes =? AUDIT_HASH_LEN then bytes else AUDIT_ZERO_PREV
     | None => AUDIT_ZERO_PREV
     end) None.

Definition set_hmac_key (key : option (list byte)) (repo : AuditRepository) : AuditRepository :=
  mkAuditRepository (retained_event_count repo) (last_event_details repo) (last_entry_hash repo) key.

(** [id] and [created_at] are what SQLite assigns; [sql] is the error of a statement of the
    transaction, which leaves both the table and the cache as they were. *)
Definition append_event (sql : option string) (id : Z) (created_at category : list byte)
    (details : option (list byte)) (repo : AuditRepository) (table : list AuditRow)
    : result unit string * AuditRepository * list AuditRow :=
  match sql with
  | Some e => (Err e, repo, table)
  | None =>
      let event_bytes := canonical_event_bytes id category details created_at in
      let entry_hash := compute_entry_hash (last_entry_hash repo) event_bytes in
      let hmac_bytes := (λ key, compute_hmac key entry_hash) <$> repo_hmac_key repo in
      let row := mkAuditRow id category details created_at (Some (last_entry_hash repo))
                   (Some entry_hash) hmac_bytes in
      (Ok tt,
       mkAuditRepository (retained_event_count repo + 1) details entry_hash (repo_hmac_key repo),
       table ++ [row])
  end.

(** The body of the walk for one row: the recomputed hash. *)
Definition verify_row (key : option (list byte)) (running_prev : option (list byte)) (r : AuditRow)
    : result (list byte) AuditChainError :=
  let id := row_id r in
  match row_prev_hash r, row_entry_hash r with
  | Some prev_hash_stored, Some entry_hash_stored =>
      if negb (length prev_hash_stored =? AUDIT_HASH_LEN)
         || negb (length entry_hash_stored =? AUDIT_HASH_LEN)
      then Err (MissingStoredHash id)
      else if match running_prev with
              | Some expected_prev => bool_decide (prev_hash_stored <> expected_prev)
              | None => false
              end
      then Err (PrevHashMismatch id)
      else
        let recomputed := compute_entry_hash prev_hash_stored (row_bytes r) in
        if bool_decide (recomputed <> entry_hash_stored) then Err (EntryHashMismatch id)
        else if match key, row_hmac r with
                | Some key, Some stored_hmac => bool_decide (stored_hmac <> compute_hmac key recomputed)
                | _, _ => false
                end
        then Err (HmacMismatch id)
        else Ok recomputed
  | _, _ => Err (MissingStoredHash id)
  end.

Fixpoint verify_rows (key : option (list byte)) (rows : list AuditRow)
    (running_prev : option (list byte)) (first last : option Z) (entries : N)
    : result VerifiedChain AuditChainError :=
  match rows with
  | [] => Ok (mkVerifiedChain first last entries)
  | r :: rows' =>
      let? recomputed := verify_row key running_prev r in
      verify_rows key rows' (Some recomputed)
        (match first with None => Some (row_id r) | _ => first end)
        (Some (row_id r)) (entries + 1)
  end.

Definition in_bounds (from to : option Z) (r : AuditRow) : bool :=
  match from with Some f => bool_decide (f <= row_id r)%Z | None => true end
  && match to with Some t => bool_decide (row_id r <= t)%Z | None => true end.

Definition verify_chain (repo : AuditRepository) (table : list AuditRow) (from to : option Z)
    : result VerifiedChain AuditChainError :=
  verify_rows (repo_hmac_key repo) (filter (λ r, in_bounds from to r = true) table) None None None 0.

(** [verify_audit_chain] of lib.rs: a fresh repository over the stored table. *)
Definition verify_audit_chain (table : list AuditRow) (from to : option Z)
    (hmac_key : option (list byte)) : result VerifiedChain AuditChainError :=
  verify_chain (set_hmac_key hmac_key (load table)) table from to.

(** The loop of [rebuild_hash_chain]. *)
Fixpoint rebuild_rows (prev : list byte) (rows : list AuditRow) : list AuditRow :=
  match rows with
  | [] => []
  | r :: rows' =>
      let entry_hash := compute_entry_hash prev (row_bytes r) in
      mkAuditRow (row_id r) (row_category r) (row_details r) (row_created_at r)
        (Some prev) (Some entry_hash) None :: rebuild_rows entry_hash rows'
  end.

Definition rebuild_hash_chain (table : list AuditRow) : list AuditRow :=
  rebuild_rows AUDIT_ZERO_PREV table.
End Audit.

(** * The framing is injective *)

(** What a row may hold: an [i64] and strings whose length is a [u64]. *)
Record row_ok (r : AuditRow) : Prop := {
  ok_id : (- 2 ^ 63 <= row_id r < 2 ^ 63)%Z;
  ok_category : (len (row_category r) <= U64_MAX)%N;
  ok_details s : row_details r = Some s -> (len s <= U64_MAX)%N;
  ok_created : (len (row_created_at r) <= U64_MAX)%N;
}.

Lemma le8_inj n m :
  (n <= U64_MAX)%N -> (m <= U64_MAX)%N -> to_le_bytes 8 n = to_le_bytes 8 m -> n = m.
Proof.
  intros Hn Hm E. apply (f_equal from_le_bytes) in E.
  by rewrite !from_to_le_bytes_small in E by (unfold U64_MAX in *; simpl; lia).
Qed.

Lemma app_inj_len (a a' b b' : list byte) :
  length a = length a' -> a ++ b = a' ++ b' -> a = a' /\ b = b'.
Proof. intros Hl E. by apply app_inj_1 in E. Qed.

Lemma frame_inj (s s' r r' : list byte) :
  (len s <= U64_MAX)%N -> (len s' <= U64_MAX)%N ->
  to_le_bytes 8 (as_u64 (len s)) ++ s ++ r = to_le_bytes 8 (as_u64 (len s')) ++ s' ++ r' ->
  s = s' /\ r = r'.
Proof.
  intros Hs Hs' E. rewrite !as_u64_small in E by done.
  apply app_inj_len in E as [El E]; [|by rewrite !length_to_le_bytes].
  apply le8_inj in El; [|done..]. apply app_inj_len in E; [done|]. unfold len in El. lia.
Qed.

Lemma i64_le_inj z z' :
  (- 2 ^ 63 <= z < 2 ^ 63)%Z -> (- 2 ^ 63 <= z' < 2 ^ 63)%Z ->
  i64_to_le_bytes z = i64_to_le_bytes z' -> z = z'.
Proof.
  intros Hz Hz' E. unfold i64_to_le_bytes in E.
  pose proof (Z.mod_pos_bound z (2 ^ 64) ltac:(lia)). pose proof (Z.mod_pos_bound z' (2 ^ 64) ltac:(lia)).
  apply le8_inj in E; [|unfold U64_MAX; lia..].
  assert (z mod 2 ^ 64 = z' mod 2 ^ 64)%Z as Em by lia.
  destruct (Z_lt_le_dec z 0), (Z_lt_le_dec z' 0).
  - rewrite <- (Z_mod_plus_full z 1), <- (Z_mod_plus_full z' 1) in Em.
    rewrite !Z.mod_small in Em by lia. lia.
  - rewrite <- (Z_mod_plus_full z 1) in Em. rewrite !Z.mod_small in Em by lia. lia.
  - rewrite <- (Z_mod_plus_full z' 1) in Em. rewrite !Z.mod_small in Em by lia. lia.
  - rewrite !Z.mod_small in Em by lia. lia.
Qed.

(** Equal canonical forms come from equal events. *)
Lemma row_bytes_inj r r' :
  row_ok r -> row_ok r' -> row_bytes r = row_bytes r' ->
  row_id r = row_id r' /\ row_category r = row_category r' /\
  row_details r = row_details r' /\ row_created_at r = row_created_at r'.
Proof.
  intros [Hi Hc Hd Ht] [Hi' Hc' Hd' Ht'] E.
  unfold row_bytes, canonical_event_bytes, push_str in E.
  assert (length (i64_to_le_bytes (row_id r)) = length (i64_to_le_bytes (row_id r'))) as Hl.
  { unfold i64_to_le_bytes. by rewrite !length_to_le_bytes. }
  assert (forall t t' : list byte, (len t <= U64_MAX)%N -> (len t' <= U64_MAX)%N ->
    to_le_bytes 8 (as_u64 (len t)) ++ t = to_le_bytes 8 (as_u64 (len t')) ++ t' -> t = t') as Hlast.
  { intros t t' ? ? Et. rewrite <- (app_nil_r t), <- (app_nil_r t') in Et at 2.
    by apply frame_inj in Et as [? _]. }
  destruct (row_details r) as [s|], (row_details r') as [s'|]; rewrite <- !app_assoc in E;
    apply app_inj_len in E as [Ei E]; try exact Hl.
  all: apply i64_le_inj in Ei; [|done..]; apply frame_inj in E as [Ec E]; [|done..].
  - apply app_inj_len in E as [_ E]; [|done]. apply frame_inj in E as [Es E]; [|by auto..].
    apply Hlast in E; [|done..]. by subst.
  - discriminate E.
  - discriminate E.
  - apply app_inj_len in E as [_ E]; [|done]. by apply Hlast in E.
Qed.

(** * The walk *)
Section AuditFacts.
Context `{Sha256Laws, HmacSha256}.

(** The running hash at the end of the walk. *)
Fixpoint walk (key : option (list byte)) (rows : list AuditRow) (prev : option (list byte))
    : result (option (list byte)) AuditChainError :=
  match rows with
  | [] => Ok prev
  | r :: rows' => let? h := verify_row key prev r in walk key rows' (Some h)
  end.

Lemma verify_rows_walk key rows prev first last_ n :
  verify_rows key rows prev first last_ n
  = let? _ := walk key rows prev in
    Ok (mkVerifiedChain (match first with None => row_id <$> head rows | _ => first end)
         (match last rows with Some r => Some (row_id r) | None => last_ end) (n + len rows)).
Proof.
  revert prev first last_ n; induction rows as [|r rows IH]; intros prev first last_ n.
  { cbn. rewrite len_nil, N.add_0_r. by destruct first. }
  cbn [verify_rows walk]. destruct (verify_row key prev r) as [h|e]; [|done]. cbn [result_bind].
  rewrite IH. destruct (walk key rows (Some h)) as [p|e]; [|done]. cbn [result_bind].
  rewrite len_cons. do 2 f_equal; [by destruct first| |lia].
  destruct rows as [|r' rows]; [done|]. change (last (r :: r' :: rows)) with (last (r' :: rows)).
  destruct (last (r' :: rows)) eqn:E; [done|]. by apply last_None in E.
Qed.

Lemma walk_app key l1 l2 prev :
  walk key (l1 ++ l2) prev = let? p := walk key l1 prev in walk key l2 p.
Proof.
  revert prev; induction l1 as [|r l1 IH]; intros prev; [done|]. cbn [app walk].
  destruct (verify_row key prev r) as [h|e]; [|done]. apply IH.
Qed.

Lemma verify_chain_all repo table :
  verify_chain repo table None None
  = let? _ := walk (repo_hmac_key repo) table None in
    Ok (mkVerifiedChain (row_id <$> head table) (row_id <$> last table) (len table)).
Proof.
  unfold verify_chain. rewrite filter_all by done. rewrite verify_rows_walk.
  destruct (walk _ _ _); [|done]. cbn [result_bind]. by destruct (last table).
Qed.

(** The chain condition of one row. *)
Lemma verify_row_ok key prev r h :
  verify_row key prev r = Ok h <->
  exists p, row_prev_hash r = Some p /\ row_entry_hash r = Some h /\ length p = AUDIT_HASH_LEN /\
    length h = AUDIT_HASH_LEN /\ (forall q, prev = Some q -> p = q) /\
    compute_entry_hash p (row_bytes r) = h /\
    (forall k s, key = Some k -> row_hmac r = Some s -> s = compute_hmac k h).
Proof.
  unfold verify_row. destruct (row_prev_hash r) as [p|]; [|split; [done|by intros (? & ? & _)]].
  destruct (row_entry_hash r) as [e|]; [|split; [done|by intros (? & _ & ? & _)]].
  destruct (length p =? AUDIT_HASH_LEN) eqn:Hp, (length e =? AUDIT_HASH_LEN) eqn:He; cbn [negb orb];
    rewrite ?Nat.eqb_eq, ?Nat.eqb_neq in *;
    try (split; [done|]; intros (? & [= <-] & [= <-] & ? & ? & _); done).
  set (recomputed := compute_entry_hash p (row_bytes r)).
  assert (match prev with Some q => bool_decide (p <> q) | None => false end = false <->
          forall q, prev = Some q -> p = q) as Hcont.
  { destruct prev as [q|]; [|by split]. rewrite bool_decide_eq_false. split.
    - intros Hn ? [= <-]. destruct (decide (p = q)); [done|]. by destruct Hn.
    - intros Hq Hn. by apply Hn, Hq. }
  assert (match key, row_hmac r with Some k, Some s => bool_decide (s <> compute_hmac k recomputed) | _, _ => false end
          = false <-> forall k s, key = Some k -> row_hmac r = Some s -> s = compute_hmac k recomputed) as Hmac.
  { destruct key as [k|]; [|by split]. destruct (row_hmac r) as [s|]; [|by split].
    rewrite bool_decide_eq_false. split.
    - intros Hn ? ? [= <-] [= <-]. destruct (decide (s = compute_hmac k recomputed)); [done|]. by destruct Hn.
    - intros Hk Hn. by apply Hn, Hk. }
  destruct (match prev with Some q => _ | None => false end) eqn:E1.
  { split; [done|]. intros (p' & [= <-] & _ & _ & _ & Hq & _). apply Hcont in Hq. congruence. }
  case_bool_decide as E2.
  { split; [done|]. by intros (p' & [= <-] & [= <-] & _ & _ & _ & Hc & _). }
  assert (recomputed = e) as Hre by (destruct (decide (recomputed = e)); [done|by destruct E2]).
  clear E2. rewrite Hre in Hmac |- *.
  destruct (match key with Some k => _ | None => false end) eqn:E3.
  { split; [done|]. intros (p' & [= <-] & [= <-] & _ & _ & _ & _ & Hk). apply Hmac in Hk. congruence. }
  split.
  - intros [= <-]. exists p. repeat split; try done; [by apply Hcont|by apply Hmac].
  - by intros (p' & _ & [= <-] & _).
Qed.

(** The row's own link does not depend on what precedes it, apart from the continuity check. *)
Lemma verify_row_none key prev r h : verify_row key prev r = Ok h -> verify_row key None r = Ok h.
Proof.
  rewrite !verify_row_ok. intros (p & G1 & G2 & G3 & G4 & _ & G5 & G6). exists p. repeat split; done.
Qed.

(** ** Appending *)

(** The cache mirrors the table and the table verifies under [key]. *)
Definition synced (key : option (list byte)) (repo : AuditRepository) (table : list AuditRow) : Prop :=
  retained_event_count repo = len table /\ length (last_entry_hash repo) = AUDIT_HASH_LEN /\
  exists p, walk key table None = Ok p /\ (forall h, p = Some h -> last_entry_hash repo = h).

Lemma length_zero_prev : length AUDIT_ZERO_PREV = AUDIT_HASH_LEN.
Proof. apply length_replicate. Qed.

Lemma append_synced key sql id created_at category details repo table :
  (key = None \/ key = repo_hmac_key repo) -> synced key repo table ->
  let '(r, repo', table') := append_event sql id created_at category details repo table in
  synced key repo' table' /\ repo_hmac_key repo' = repo_hmac_key repo /\ (is_ok r = true <-> sql = None).
Proof.
  intros Hk (Hc & Hl & p & Hw & Hp). unfold append_event. destruct sql as [e|].
  { split; [by repeat split; eauto|]. split; [done|]. by split. }
  split; [|by split]. split; [cbn [retained_event_count]; rewrite len_app, len_cons, len_nil; lia|].
  cbn [last_entry_hash]. split; [apply length_sha256|].
  rewrite walk_app, Hw. cbn [result_bind walk]. set (row := mkAuditRow _ _ _ _ _ _ _).
  set (h := compute_entry_hash _ _). assert (verify_row key p row = Ok h) as ->; [|by exists (Some h); split; [|by intros ? [= <-]]].
  apply verify_row_ok. exists (last_entry_hash repo). repeat split; try done; [apply length_sha256|].
  intros k s -> Hs. destruct Hk as [|Hk]; [done|]. simpl in Hs. rewrite <- Hk in Hs. by injection Hs as <-.
Qed.

(** A session: appends, some of which SQLite refuses. *)
Record append_call : Type := mkAppend {
  ap_sql : option string; ap_id : Z; ap_created_at : list byte;
  ap_category : list byte; ap_details : option (list byte);
}.

Fixpoint appends (cs : list append_call) (repo : AuditRepository) (table : list AuditRow)
    : AuditRepository * list AuditRow :=
  match cs with
  | [] => (repo, table)
  | c :: cs' =>
      let '(_, repo, table) := append_event (ap_sql c) (ap_id c) (ap_created_at c) (ap_category c)
                                 (ap_details c) repo table in
      appends cs' repo table
  end.

Lemma appends_synced key cs repo table :
  (key = None \/ key = repo_hmac_key repo) -> synced key repo table ->
  synced key (appends cs repo table).1 (appends cs repo table).2.
Proof.
  revert repo table; induction cs as [|c cs IH]; intros repo table Hk Hs; [done|]. cbn [appends].
  pose proof (append_synced key (ap_sql c) (ap_id c) (ap_created_at c) (ap_category c) (ap_details c)
    repo table Hk Hs) as Ha.
  destruct (append_event _ _ _ _ _ _ _) as [[r repo'] table']. destruct Ha as (Hs' & Hk' & _).
  apply IH; [by rewrite Hk'|done].
Qed.

Lemma synced_verifies key repo table :
  synced key repo table ->
  verify_audit_chain table None None key
  = Ok (mkVerifiedChain (row_id <$> head table) (row_id <$> last table) (retained_event_count repo)).
Proof.
  intros (Hc & _ & p & Hw & _). unfold verify_audit_chain. rewrite verify_chain_all.
  cbn [set_hmac_key repo_hmac_key]. by rewrite Hw, Hc.
Qed.

(** Whatever is appended to a fresh log, and whichever statements fail, the log verifies, with
    and without the key, and the walk counts exactly the retained events. *)
Theorem appended_log_verifies key key' cs :
  key' = None \/ key' = key ->
  let '(repo, table) := appends cs (set_hmac_key key (load [])) [] in
  verify_audit_chain table None None key'
  = Ok (mkVerifiedChain (row_id <$> head table) (row_id <$> last table) (retained_event_count repo)) /\
  retained_event_count repo = len (filter (λ c, ap_sql c = None) cs).
Proof.
  intros Hk. assert (synced key' (set_hmac_key key (load [])) []) as Hs.
  { split; [done|]. split; [apply length_zero_prev|]. by exists None. }
  pose proof (appends_synced key' cs (set_hmac_key key (load [])) [] Hk Hs) as Hs'.
  assert (forall repo table, retained_event_count (appends cs repo table).1
          = retained_event_count repo + len (filter (λ c, ap_sql c = None) cs))%N as Hn.
  { clear. induction cs as [|c cs IH]; intros repo table; [by rewrite filter_nil, (len_nil (A:=append_call)), N.add_0_r|].
    cbn [appends]. rewrite filter_cons. unfold append_event. destruct (ap_sql c); rewrite IH; [done|].
    rewrite decide_True, len_cons by done. simpl. lia. }
  specialize (Hn (set_hmac_key key (load [])) []).
  destruct (appends cs _ []) as [repo table]. split; [by apply synced_verifies|exact Hn].
Qed.

(** ** Tampering *)

(** The row's preimage. *)
Definition preimage (r : AuditRow) : list byte := default [] (row_prev_hash r) ++ row_bytes r.

(** A changed field of one row, its hash columns kept, is reported at that row. *)
Theorem tampered_row_is_reported key l1 r r' l2 v :
  verify_audit_chain (l1 ++ r :: l2) None None key = Ok v ->
  row_ok r -> row_ok r' -> row_id r' = row_id r ->
  row_prev_hash r' = row_prev_hash r -> row_entry_hash r' = row_entry_hash r ->
  (row_category r', row_details r', row_created_at r') <> (row_category r, row_details r, row_created_at r) ->
  (sha256 (preimage r) = sha256 (preimage r') -> preimage r = preimage r') ->
  verify_audit_chain (l1 ++ r' :: l2) None None key = Err (EntryHashMismatch (row_id r)).
Proof.
  intros Hv Hok Hok' Hid Hpv Hev Hne Hcoll. unfold verify_audit_chain in *. rewrite verify_chain_all in *.
  cbn [set_hmac_key repo_hmac_key] in *. rewrite walk_app in *.
  destruct (walk key l1 None) as [p|e]; [|done]. cbn [result_bind walk] in *.
  destruct (verify_row key p r) as [h|e] eqn:Hr; [|done].
  assert (verify_row key p r' = Err (EntryHashMismatch (row_id r))) as ->; [|done].
  apply verify_row_ok in Hr as (q & G1 & G2 & G3 & G4 & G5 & G6 & _).
  unfold verify_row. rewrite Hpv, Hev, G1, G2, G3, G4, !Nat.eqb_refl, Hid. cbn [negb orb].
  assert (match p with Some e => bool_decide (q <> e) | None => false end = false) as ->.
  { destruct p as [e|]; [|done]. apply bool_decide_eq_false_2. intros Hq. by apply Hq, G5. }
  rewrite bool_decide_eq_true_2; [done|]. intros Hc. apply Hne.
  assert (preimage r = preimage r') as Hpre.
  { apply Hcoll. unfold preimage. rewrite Hpv, G1. simpl. unfold compute_entry_hash in *. congruence. }
  unfold preimage in Hpre. rewrite Hpv, G1 in Hpre. apply app_inv_head in Hpre.
  destruct (row_bytes_inj r r' Hok Hok' Hpre) as (_ & -> & -> & ->). done.
Qed.

(** What two rows of one chain position share. *)
Definition same_event (r r' : AuditRow) : Prop :=
  row_id r = row_id r' /\ row_category r = row_category r' /\ row_details r = row_details r' /\
  row_created_at r = row_created_at r' /\ row_prev_hash r = row_prev_hash r' /\
  row_entry_hash r = row_entry_hash r'.

Lemma walk_snoc key t r h :
  walk key (t ++ [r]) None = Ok h ->
  exists p, walk key t None = Ok p /\ exists q, h = Some q /\ verify_row key p r = Ok q.
Proof.
  rewrite walk_app. destruct (walk key t None) as [p|e]; [|done]. cbn [result_bind walk].
  destruct (verify_row key p r) as [q|e] eqn:Hq; [|done]. cbn [result_bind]. intros [= <-]. eauto.
Qed.

Lemma walk_last key t p h :
  walk key t p = Ok h -> t <> [] -> h = (r ← last t; row_entry_hash r) /\ exists e, h = Some e.
Proof.
  destruct t as [|r t _] using rev_ind; [done|]. rewrite walk_app. intros Hw _.
  destruct (walk key t p) as [q|]; [|done]. cbn [result_bind walk] in Hw.
  destruct (verify_row key q r) as [x|] eqn:Hx; [|done]. injection Hw as <-.
  apply verify_row_ok in Hx as (? & _ & Hr & _). rewrite last_snoc. simpl. rewrite Hr. eauto.
Qed.

Lemma walks_bind key key' t t' h :
  Forall row_ok t -> Forall row_ok t' ->
  (forall r r', r ∈ t -> r' ∈ t' -> sha256 (preimage r) = sha256 (preimage r') -> preimage r = preimage r') ->
  length t = length t' -> walk key t None = Ok h -> walk key' t' None = Ok h -> Forall2 same_event t t'.
Proof.
  intros Hok Hok' Hcoll Hlen. revert t' h Hok Hok' Hcoll Hlen.
  induction t as [|r t IH] using rev_ind; intros t' h Hok Hok' Hcoll Hlen Hw Hw'.
  { destruct t'; [constructor|done]. }
  destruct t' as [|r' t' _] using rev_ind; [rewrite length_app in Hlen; simpl in Hlen; lia|].
  rewrite !length_app in Hlen. simpl in Hlen. apply Forall_app in Hok as [Hok Hr]. apply Forall_app in Hok' as [Hok' Hr'].
  rewrite Forall_singleton in Hr, Hr'.
  apply walk_snoc in Hw as (p & Hp & q & -> & Hq). apply walk_snoc in Hw' as (p' & Hp' & q' & [= <-] & Hq').
  apply verify_row_ok in Hq as (a & G1 & G2 & G3 & _ & G4 & G5 & _).
  apply verify_row_ok in Hq' as (a' & G1' & G2' & G3' & _ & G4' & G5' & _).
  assert (preimage r = preimage r') as Hpre.
  { apply Hcoll; [apply elem_of_app; right; by left..|]. unfold preimage. rewrite G1, G1'. simpl.
    unfold compute_entry_hash in *. congruence. }
  unfold preimage in Hpre. rewrite G1, G1' in Hpre. cbn [from_option id] in Hpre. apply app_inj_len in Hpre as [-> Hb]; [|congruence].
  destruct (row_bytes_inj r r' Hr Hr' Hb) as (E1 & E2 & E3 & E4).
  apply Forall2_app; [|by repeat constructor; congruence].
  destruct t as [|r0 t0]; [destruct t'; [constructor|simpl in Hlen; lia]|].
  assert (t' <> []) as Hne by (intros ->; simpl in Hlen; lia).
  destruct (walk_last _ _ _ _ Hp ltac:(done)) as (_ & e & ->).
  destruct (walk_last _ _ _ _ Hp' Hne) as (_ & e' & ->).
  rewrite <- (G4 e eq_refl) in Hp. rewrite <- (G4' e' eq_refl) in Hp'.
  apply (IH t' (Some a')); try done; [|lia].
  intros x x' Hx Hx'. apply Hcoll; apply elem_of_app; by left.
Qed.

(** C29: Two logs that verify, have as many rows and end in the same hash record the same events:
    rewriting any of them needs a collision of the hash. *)
Theorem verified_logs_with_one_head_agree key key' t t' v v' :
  Forall row_ok t -> Forall row_ok t' ->
  (forall r r', r ∈ t -> r' ∈ t' -> sha256 (preimage r) = sha256 (preimage r') -> preimage r = preimage r') ->
  verify_audit_chain t None None key = Ok v -> verify_audit_chain t' None None key' = Ok v' ->
  entries_checked v = entries_checked v' ->
  (r ← last t; row_entry_hash r) = (r ← last t'; row_entry_hash r) ->
  Forall2 same_event t t'.
Proof.
  intros Hok Hok' Hcoll Hv Hv' Hn Hlast. unfold verify_audit_chain in *. rewrite verify_chain_all in *.
  cbn [set_hmac_key repo_hmac_key] in *.
  destruct (walk key t None) as [h|e] eqn:Hw; [|done]. destruct (walk key' t' None) as [h'|e] eqn:Hw'; [|done].
  injection Hv as <-. injection Hv' as <-. cbn [entries_checked] in Hn. unfold len in Hn.
  apply (walks_bind key key' t t' h); try done; [lia|]. rewrite Hw'. f_equal.
  destruct t as [|r t]; [destruct t'; [by injection Hw; injection Hw'; intros <- <-|simpl in Hn; lia]|].
  destruct t' as [|r' t']; [simpl in Hn; lia|].
  destruct (walk_last _ _ _ _ Hw ltac:(done)) as [-> _].
  by destruct (walk_last _ _ _ _ Hw' ltac:(done)) as [-> _].
Qed.

(** ** Losing rows *)

Lemma walk_suffix key t p h : walk key t p = Ok h -> is_ok (walk key t None) = true.
Proof.
  destruct t as [|r t]; [done|]. cbn [walk]. destruct (verify_row key p r) as [q|e] eqn:Hr; [|done].
  apply verify_row_none in Hr. rewrite Hr. cbn [result_bind]. by intros ->.
Qed.

(** Even from the genesis row the walk takes the first stored [prev_hash] on trust, so a log
    that lost its oldest rows still verifies ... *)
Theorem head_truncation_is_not_detected key l1 l2 v :
  verify_audit_chain (l1 ++ l2) None None key = Ok v ->
  verify_audit_chain l2 None None key
  = Ok (mkVerifiedChain (row_id <$> head l2) (row_id <$> last l2) (len l2)).
Proof.
  unfold verify_audit_chain. rewrite !verify_chain_all. cbn [set_hmac_key repo_hmac_key]. rewrite walk_app.
  destruct (walk key l1 None) as [p|e]; [|done]. cbn [result_bind].
  destruct (walk key l2 p) as [h|e] eqn:Hw; [|done]. intros _.
  apply walk_suffix in Hw. by destruct (walk key l2 None).
Qed.

(** ... as does one that lost its newest. *)
Lemma tail_truncation_is_not_detected key l1 l2 v :
  verify_audit_chain (l1 ++ l2) None None key = Ok v ->
  is_ok (verify_audit_chain l1 None None key) = true.
Proof.
  unfold verify_audit_chain. rewrite !verify_chain_all. cbn [set_hmac_key repo_hmac_key]. rewrite walk_app.
  by destruct (walk key l1 None).
Qed.

(** A hole in the middle is reported at the first row after it. *)
Lemma removed_rows_are_reported key l1 r1 m r2 l2 v :
  verify_audit_chain ((l1 ++ [r1]) ++ m ++ r2 :: l2) None None key = Ok v ->
  m <> [] -> row_entry_hash r1 <> (r ← last m; row_entry_hash r) ->
  verify_audit_chain ((l1 ++ [r1]) ++ r2 :: l2) None None key = Err (PrevHashMismatch (row_id r2)).
Proof.
  unfold verify_audit_chain. rewrite !verify_chain_all. cbn [set_hmac_key repo_hmac_key].
  intros Hv Hm Hne. rewrite walk_app in Hv. rewrite walk_app.
  destruct (walk key (l1 ++ [r1]) None) as [p|e] eqn:Hw1; [|done]. cbn [result_bind] in *.
  destruct (walk_last _ _ _ _ Hw1 ltac:(by destruct l1)) as [Hp [e He]]. rewrite last_snoc in Hp. simpl in Hp.
  rewrite walk_app in Hv. destruct (walk key m p) as [q|] eqn:Hwm; [|done]. cbn [result_bind walk] in *.
  destruct (walk_last _ _ _ _ Hwm Hm) as [Hq [e' ->]]. subst p.
  destruct (verify_row key (Some e') r2) as [h|] eqn:Hr2; [|done].
  apply verify_row_ok in Hr2 as (a & G1 & G2 & G3 & G4 & G5 & _).
  rewrite He in Hne |- *. assert (verify_row key (Some e) r2 = Err (PrevHashMismatch (row_id r2))) as ->; [|done].
  unfold verify_row. rewrite G1, G2, G3, G4, !Nat.eqb_refl. cbn [negb orb].
  rewrite bool_decide_eq_true_2; [done|]. intros ->. specialize (G5 e' eq_refl). congruence.
Qed.

(** ** The migration *)

Lemma rebuild_walk key prev rows p :
  length prev = AUDIT_HASH_LEN -> (forall q, p = Some q -> q = prev) ->
  is_ok (walk key (rebuild_rows prev rows) p) = true.
Proof.
  revert prev p; induction rows as [|r rows IH]; intros prev p Hl Hp; [done|]. cbn [rebuild_rows walk].
  set (h := compute_entry_hash prev (row_bytes r)). set (row := mkAuditRow _ _ _ _ _ _ _).
  assert (verify_row key p row = Ok h) as ->.
  { apply verify_row_ok. exists prev. repeat split; try done; [apply length_sha256|].
    intros q Hq. symmetry. by apply Hp. }
  cbn [result_bind]. apply IH; [apply length_sha256|]. by intros q [= <-].
Qed.

(** Rebuilding keeps every event, makes any table verify, and is idempotent; it also launders a
    table that was tampered with. *)
Theorem rebuild_hash_chain_verifies key table :
  verify_audit_chain (rebuild_hash_chain table) None None key
  = Ok (mkVerifiedChain (row_id <$> head table) (row_id <$> last table) (len table)) /\
  row_bytes <$> rebuild_hash_chain table = row_bytes <$> table /\
  rebuild_hash_chain (rebuild_hash_chain table) = rebuild_hash_chain table.
Proof.
  assert (forall prev, row_bytes <$> rebuild_rows prev table = row_bytes <$> table) as Hb.
  { induction table as [|r t IH]; intros prev; [done|]. cbn [rebuild_rows]. rewrite !fmap_cons. by rewrite IH. }
  assert (forall prev, row_id <$> rebuild_rows prev table = row_id <$> table) as Hi.
  { clear Hb. induction table as [|r t IH]; intros prev; [done|]. cbn [rebuild_rows]. rewrite !fmap_cons. by rewrite IH. }
  split; [|split; [apply Hb|]].
  - unfold verify_audit_chain. rewrite verify_chain_all. cbn [set_hmac_key repo_hmac_key].
    pose proof (rebuild_walk key AUDIT_ZERO_PREV table None length_zero_prev ltac:(done)) as Hw.
    unfold rebuild_hash_chain. destruct (walk _ _ _); [|done]. cbn [result_bind]. f_equal. f_equal.
    + by destruct table.
    + by rewrite <- !fmap_last, Hi.
    + unfold len. f_equal. by rewrite <- (length_fmap row_id), Hi, length_fmap.
  - unfold rebuild_hash_chain. generalize AUDIT_ZERO_PREV. clear.
    induction table as [|r t IH]; intros prev; [done|]. cbn [rebuild_rows]. f_equal. apply IH.
Qed.
End AuditFacts.

(** A small hash for evaluating the definitions. *)
Definition toy_sha256 : Sha256 := λ m,
  to_le_bytes 32 (foldr (λ b acc, N.land (acc * 257 + N_of_ascii b + 1) 0xFFFF)%N 7%N m).

Lemma toy_sha256_laws : @Sha256Laws toy_sha256.
Proof. intros m. apply length_to_le_bytes. Defined.

Definition toy_hmac256 : HmacSha256 := λ k m, @sha256 toy_sha256 (k ++ m).

Definition toy_session : list append_call :=
  [mkAppend None 1 (chars "t1") (chars "auth") (Some (chars "login"));
   mkAppend (Some "disk full"%string) 2 (chars "t2") (chars "auth") None;
   mkAppend None 2 (chars "t3") (chars "sync") None;
   mkAppend None 3 (chars "t4") (chars "auth") (Some (chars "logout"))].

Definition toy_log : list AuditRow :=
  (@appends toy_sha256 toy_hmac256 toy_session (set_hmac_key (Some (chars "k")) (load [])) []).2.

Lemma toy_log_ok : Forall row_ok toy_log.
Proof.
  vm_compute. repeat constructor; cbn [row_id row_category row_details row_created_at];
    try discriminate; by (intros s [= <-]) || idtac.
Defined.

Lemma appended_log_verifies_witness :
  @verify_audit_chain toy_sha256 toy_hmac256 toy_log None None (Some (chars "k"))
  = Ok (mkVerifiedChain (Some 1%Z) (Some 3%Z) 3).
Proof.
  pose proof (@appended_log_verifies toy_sha256 toy_sha256_laws toy_hmac256 (Some (chars "k"))
    (Some (chars "k")) toy_session (or_intror eq_refl)) as Hv.
  rewrite (surjective_pairing (appends toy_session _ [])) in Hv. destruct Hv as [Hv _].
  fold toy_log in Hv. rewrite Hv. vm_compute. reflexivity.
Defined.

(** One detail changed. *)
Definition forged_row (r : AuditRow) : AuditRow :=
  mkAuditRow (row_id r) (row_category r) (Some (chars "nothing")) (row_created_at r)
    (row_prev_hash r) (row_entry_hash r) (row_hmac r).

Definition toy_row : AuditRow := default (mkAuditRow 0 [] None [] None None None) (toy_log !! 1).

Lemma forged_row_ok r : row_ok r -> row_ok (forged_row r).
Proof.
  intros [Hi Hc Hd Ht]. split; try done. intros s [= <-]. by apply N.leb_le.
Qed.

Lemma toy_row_ok : row_ok toy_row.
Proof. eapply (Forall_lookup_1 row_ok toy_log 1); [exact toy_log_ok|vm_compute; reflexivity]. Qed.

Lemma tampered_row_is_reported_witness :
  @verify_audit_chain toy_sha256 toy_hmac256 (take 1 toy_log ++ forged_row toy_row :: drop 2 toy_log)
    None None None = Err (EntryHashMismatch 2).
Proof.
  eapply (@tampered_row_is_reported toy_sha256 toy_hmac256 None (take 1 toy_log) toy_row
    (forged_row toy_row) (drop 2 toy_log)).
  - vm_compute. reflexivity.
  - exact toy_row_ok.
  - exact (forged_row_ok _ toy_row_ok).
  - vm_compute. reflexivity.
  - vm_compute. reflexivity.
  - vm_compute. reflexivity.
  - vm_compute. discriminate.
  - intros Hc. exfalso. vm_compute in Hc. discriminate.
Defined.

Lemma verified_logs_with_one_head_agree_witness : Forall2 same_event toy_log toy_log.
Proof.
  pose proof toy_log_ok as Hok.
  eapply (@verified_logs_with_one_head_agree toy_sha256 toy_hmac256 None None toy_log toy_log);
    [exact Hok|exact Hok| | | |vm_compute; reflexivity|vm_compute; reflexivity].
  - assert (forallb (λ r, forallb (λ r', bool_decide (@sha256 toy_sha256 (preimage r) = @sha256 toy_sha256 (preimage r')
      -> preimage r = preimage r')) toy_log) toy_log = true) as Hall by (vm_compute; reflexivity).
    intros r r' Hr%list_elem_of_In Hr'%list_elem_of_In Hc.
    rewrite forallb_forall in Hall. specialize (Hall r Hr). rewrite forallb_forall in Hall.
    exact (bool_decide_eq_true_1 _ (Hall r' Hr') Hc).
  - vm_compute. reflexivity.
  - vm_compute. reflexivity.
Defined.

Lemma head_truncation_is_not_detected_witness :
  @verify_audit_chain toy_sha256 toy_hmac256 (drop 1 toy_log) None None None
  = Ok (mkVerifiedChain (Some 2%Z) (Some 3%Z) 2).
Proof.
  eapply (@head_truncation_is_not_detected toy_sha256 toy_hmac256 None (take 1 toy_log) (drop 1 toy_log)).
  rewrite take_drop. vm_compute. reflexivity.
Defined.
