(* ===== verification/AuditVerifier.v ===== *)
(** The scheduled audit verifier of crates/pcloud-daemon/src/audit_verifier_service.rs.

    The shell remembers the last verified row and each tick walks only what follows it.  The
    scheduler loop repeats the body of [run_once]; the walk is the store's, so a tick is a
    function of the table.  What the ticks report over a whole history, and what the checkpoint
    hides from them. *)
From S2P Require Import Prelude Paths Bytes CryptoPrims AuditLog.
From stdpp Require Import pretty.

Inductive VerifierOutcome : Type :=
| NeverRun
| Pass (chain_length : N)
| Fail (chain_length : N) (detail : string).

Record Checkpoint : Type := mkCheckpoint { cp_last_run_ts : Z; cp_last_verified_id : option Z }.

(** The shared state of the shell; [checkpoint_path] is whether the configuration has one, and
    [checkpoint_file] what was last written there. *)
Record AuditVerifierShell : Type := mkAuditVerifierShell {
  av_enabled : bool;
  checkpoint_path : bool;
  checkpoint_file : option Checkpoint;
  outcome : VerifierOutcome;
  total_passes : N;
  total_failures : N;
  av_last_run_ts : Z;
  scheduled_run_count : N;
  last_verified_id : option Z;
}.

(** [AuditVerifierShell::disabled] and [from_config] with a valid schedule. *)
Definition disabled : AuditVerifierShell :=
  mkAuditVerifierShell false false None NeverRun 0 0 0 0 None.

Definition from_config (enabled path : bool) (file : option Checkpoint) : AuditVerifierShell :=
  if negb enabled then disabled
  else mkAuditVerifierShell true path file NeverRun 0 0 0 0
         (if path then c ← file; cp_last_verified_id c else None).

(** [i64::saturating_add(id, 1)]. *)
Definition i64_succ (id : Z) : Z := Z.min (id + 1) (2 ^ 63 - 1).

(** The [Display] of the walk's error. *)
Definition chain_error_string (e : AuditChainError) : string :=
  match e with
  | PrevHashMismatch id => "audit chain broken at id=" +:+ pretty id +:+ ": prev_hash mismatch"
  | EntryHashMismatch id => "audit chain broken at id=" +:+ pretty id +:+ ": entry_hash mismatch"
  | MissingStoredHash id => "audit chain broken at id=" +:+ pretty id +:+ ": missing stored hash column"
  | HmacMismatch id => "audit chain broken at id=" +:+ pretty id +:+ ": hmac mismatch"
  | Sql e => "sqlite: " +:+ e
  end.

(** [StatusPayload::last_result]. *)
Definition last_result (s : AuditVerifierShell) : string :=
  match outcome s with NeverRun => "never_run" | Pass _ => "pass" | Fail _ _ => "fail" end.

Section Verifier.
Context `{Sha256, HmacSha256}.

(** [StoreVerifierRunner::run]: [env_key] is the environment's key. *)
Definition runner_run (env_key : option (list byte)) (table : list AuditRow) (start_from : option Z)
    : VerifierOutcome * option Z :=
  let key := k ← env_key; if bool_decide (k = []) then None else Some k in
  let from := i64_succ <$> start_from in
  match verify_audit_chain table from None key with
  | Ok v => (Pass (as_u64 (entries_checked v)), last_id v)
  | Err err => (Fail 0 (chain_error_string err), None)
  end.

(** [run_once], with the runner's answer. *)
Definition record_run (now_ts : Z) (answer : VerifierOutcome * option Z) (s : AuditVerifierShell)
    : AuditVerifierShell :=
  let '(out, latest_id) := answer in
  let passed := match out with Pass _ => true | _ => false end in
  let failed := match out with Fail _ _ => true | _ => false end in
  let moved := if passed then latest_id else None in
  mkAuditVerifierShell (av_enabled s) (checkpoint_path s)
    (match moved with
     | Some id => if checkpoint_path s then Some (mkCheckpoint now_ts (Some id)) else checkpoint_file s
     | None => checkpoint_file s
     end)
    out
    (if passed then u64_wrapping_add (total_passes s) 1 else total_passes s)
    (if failed then u64_wrapping_add (total_failures s) 1 else total_failures s)
    now_ts
    (u64_wrapping_add (scheduled_run_count s) 1)
    (match moved with Some id => Some id | None => last_verified_id s end).

Definition run_once (now_ts : Z) (env_key : option (list byte)) (table : list AuditRow)
    (s : AuditVerifierShell) : AuditVerifierShell :=
  record_run now_ts (runner_run env_key table (last_verified_id s)) s.

(** * Theorems *)

(** The rows a tick looks at. *)
Definition fresh_rows (after : option Z) (table : list AuditRow) : list AuditRow :=
  filter (λ r, in_bounds (i64_succ <$> after) None r = true) table.

Lemma runner_run_fresh env_key t t' after :
  fresh_rows after t = fresh_rows after t' -> runner_run env_key t after = runner_run env_key t' after.
Proof.
  intros Hf. unfold runner_run, verify_audit_chain, verify_chain.
  unfold fresh_rows in Hf. cbn [set_hmac_key repo_hmac_key]. by rewrite Hf.
Qed.

(** Once a tick has passed, rewriting any row up to the last verified one changes no later
    tick: in memory the checkpoint moves whether or not a checkpoint file is configured. *)
Theorem checkpoint_hides_old_rows now env_key table s n last_ :
  runner_run env_key table (last_verified_id s) = (Pass n, Some last_) ->
  let s' := run_once now env_key table s in
  last_verified_id s' = Some last_ /\
  forall now' table',
    filter (λ r, (last_ < row_id r)%Z) table' = filter (λ r, (last_ < row_id r)%Z) table ->
    (last_ < 2 ^ 63 - 1)%Z ->
    run_once now' env_key table' s' = run_once now' env_key table s'.
Proof.
  intros Hr s'. unfold s', run_once at 1. rewrite Hr. cbn [record_run last_verified_id]. split; [done|].
  intros now' table' Hf Hmax. unfold run_once at 1 3.
  assert (last_verified_id (run_once now env_key table s) = Some last_) as ->.
  { unfold run_once. by rewrite Hr. }
  rewrite (runner_run_fresh env_key table' table); [done|].
  unfold fresh_rows. cbn [fmap option_fmap option_map].
  assert (forall l : list AuditRow, filter (λ r, in_bounds (Some (i64_succ last_)) None r = true) l
                    = filter (λ r, (last_ < row_id r)%Z) l) as Hb; [|by rewrite !Hb].
  intros l. apply list_filter_iff. intros r. unfold in_bounds, i64_succ.
  rewrite andb_true_r, bool_decide_eq_true, Z.min_l by lia. lia.
Qed.

(** A tick without a checkpoint walks the whole table, and its verdict is the walk's. *)
Lemma first_tick_verdict now env_key table s :
  last_verified_id s = None ->
  outcome (run_once now env_key table s)
  = match verify_audit_chain table None None (k ← env_key; if bool_decide (k = []) then None else Some k) with
    | Ok v => Pass (as_u64 (entries_checked v))
    | Err e => Fail 0 (chain_error_string e)
    end.
Proof.
  intros Hl. unfold run_once, runner_run. rewrite Hl. cbn [fmap option_fmap option_map].
  by destruct (verify_audit_chain _ _ _ _).
Qed.

(** Every tick is counted once, as a pass or as a failure, and a failing tick moves neither the
    checkpoint nor its file. *)
Lemma run_once_counts now env_key table s :
  (total_passes s + total_failures s < U64_MAX)%N ->
  let s' := run_once now env_key table s in
  (total_passes s' + total_failures s' = total_passes s + total_failures s + 1)%N /\
  av_last_run_ts s' = now /\
  (total_failures s' = total_failures s + 1 ->
     last_verified_id s' = last_verified_id s /\ checkpoint_file s' = checkpoint_file s)%N.
Proof.
  intros Hlt. cbv zeta. unfold run_once, runner_run.
  destruct (verify_audit_chain _ _ _ _) as [v|e];
    cbn [record_run total_passes total_failures av_last_run_ts last_verified_id checkpoint_file];
    unfold u64_wrapping_add; rewrite as_u64_small by lia; repeat split; lia || done.
Qed.
End Verifier.

(** A verified log whose first row is then forged: the next tick still passes. *)
Definition verified_shell : AuditVerifierShell :=
  @run_once toy_sha256 toy_hmac256 100 None toy_log (from_config true false None).

Lemma checkpoint_hides_old_rows_witness :
  last_verified_id verified_shell = Some 3%Z /\
  outcome (@run_once toy_sha256 toy_hmac256 200 None (map forged_row toy_log) verified_shell)
  = outcome (@run_once toy_sha256 toy_hmac256 200 None toy_log verified_shell).
Proof.
  destruct (@checkpoint_hides_old_rows toy_sha256 toy_hmac256 100 None toy_log (from_config true false None) 3 3)
    as [H1 H2].
  - vm_compute. reflexivity.
  - split; [exact H1|]. apply (f_equal outcome), H2.
    + vm_compute. reflexivity.
    + reflexivity.
Defined.

(** The full walk sees it. *)
Example full_walk_reports :
  is_ok (@verify_audit_chain toy_sha256 toy_hmac256 (map forged_row toy_log) None None None) = false.
Proof. vm_compute. reflexivity. Qed.
