(* ===== verification/StateError.v ===== *)
(** State with errors: methods that thread a mutable state through fallible calls.

    [ST W E A] is a method on the state [W] that returns a [result] with error type [E]; [?]
    leaves the method early and keeps the changes made so far, as in the source.  [wp] is its
    weakest precondition and [respects] says that every outcome is related to the initial state
    by a preorder; both have one rule per construct. *)
From S2P Require Import Prelude.

Definition ST (W E A : Type) : Type := W -> result A E * W.

Section Constructs.
Context {W E : Type}.

Definition ok {A} (a : A) : ST W E A := λ w, (Ok a, w).
Definition throw {A} (e : E) : ST W E A := λ w, (Err e, w).

Definition bind {A B} (m : ST W E A) (f : A -> ST W E B) : ST W E B := λ w,
  match m w with (Ok a, w') => f a w' | (Err e, w') => (Err e, w') end.

Definition gets {A} (f : W -> A) : ST W E A := λ w, (Ok (f w), w).
Definition modify (f : W -> W) : ST W E unit := λ w, (Ok tt, f w).
Definition lift {A} (r : result A E) : ST W E A := λ w, (r, w).
End Constructs.

(** [match m { .. }]: the outcome as a value. *)
Definition attempt {W E E' A} (m : ST W E A) : ST W E' (result A E) := λ w,
  let '(r, w') := m w in (Ok r, w').

(** A method of a part of the state. *)
Definition zoom {W V E A} (get : W -> V) (set : V -> W -> W) (m : ST V E A) : ST W E A := λ w,
  let '(r, v) := m (get w) in (r, set v w).

(** [m.map_err(f)]. *)
Definition map_err {W E E' A} (f : E -> E') (m : ST W E A) : ST W E' A := λ w,
  match m w with (Ok a, w') => (Ok a, w') | (Err e, w') => (Err (f e), w') end.

Notation "'let!' p ':=' c1 'in' c2" := (bind c1 (fun p => c2))
  (at level 10, p pattern, c1 at level 200, c2 at level 200) : pcloud_scope.
Notation "'do!' c1 'in' c2" := (bind c1 (fun _ => c2))
  (at level 10, c1 at level 200, c2 at level 200) : pcloud_scope.

(** * Weakest preconditions *)

Definition wp {W E A} (m : ST W E A) (Q : result A E -> W -> Prop) (w : W) : Prop :=
  let '(r, w') := m w in Q r w'.

Section Wp.
Context {W E : Type}.

Lemma wp_run {A} (m : ST W E A) Q w : wp m Q w <-> Q (m w).1 (m w).2.
Proof. unfold wp. by destruct (m w). Qed.

Lemma wp_mono {A} (m : ST W E A) (Q Q' : result A E -> W -> Prop) w :
  wp m Q w -> (forall r w', Q r w' -> Q' r w') -> wp m Q' w.
Proof. rewrite !wp_run. eauto. Qed.

Lemma wp_ok {A} (a : A) (Q : result A E -> W -> Prop) w : Q (Ok a) w -> wp (ok a) Q w.
Proof. done. Qed.

Lemma wp_throw {A} (e : E) (Q : result A E -> W -> Prop) w : Q (Err e) w -> wp (throw e) Q w.
Proof. done. Qed.

Lemma wp_gets {A} (f : W -> A) (Q : result A E -> W -> Prop) w : Q (Ok (f w)) w -> wp (gets f) Q w.
Proof. done. Qed.

Lemma wp_modify f (Q : result unit E -> W -> Prop) w : Q (Ok tt) (f w) -> wp (modify f) Q w.
Proof. done. Qed.

Lemma wp_lift {A} (x : result A E) (Q : result A E -> W -> Prop) w : Q x w -> wp (lift x) Q w.
Proof. done. Qed.

Lemma wp_bind {A B} (m : ST W E A) (f : A -> ST W E B) Q w :
  wp m (λ r w', match r with Ok a => wp (f a) Q w' | Err e => Q (Err e) w' end) w ->
  wp (bind m f) Q w.
Proof. unfold wp, bind. by destruct (m w) as [[a|e] w']. Qed.

Lemma wp_attempt {E' A} (m : ST W E A) (Q : result (result A E) E' -> W -> Prop) w :
  wp m (λ r, Q (Ok r)) w -> wp (attempt m) Q w.
Proof. unfold wp, attempt. by destruct (m w). Qed.

Lemma wp_map_err {E' A} (g : E -> E') (m : ST W E A) Q w :
  wp m (λ r, Q (match r with Ok a => Ok a | Err e => Err (g e) end)) w -> wp (map_err g m) Q w.
Proof. unfold wp, map_err. by destruct (m w) as [[a|e] w']. Qed.

Lemma wp_zoom {V A} (get : W -> V) (set : V -> W -> W) (m : ST V E A) (Q : result A E -> W -> Prop) w :
  wp m (λ r v, Q r (set v w)) (get w) -> wp (zoom get set m) Q w.
Proof. unfold wp, zoom. by destruct (m (get w)). Qed.
End Wp.

(** * Every outcome is related to the initial state *)

Definition respects {W E A} (R : relation W) (m : ST W E A) : Prop := forall w, R w (m w).2.

Section Respects.
Context {W E : Type} (R : relation W) `{!PreOrder R}.

Lemma respects_ok {A} (a : A) : respects (E:=E) R (ok a).
Proof. by intros w. Qed.

Lemma respects_throw {A} (e : E) : respects R (throw (A:=A) e).
Proof. by intros w. Qed.

Lemma respects_gets {A} (f : W -> A) : respects (E:=E) R (gets f).
Proof. by intros w. Qed.

Lemma respects_lift {A} (r : result A E) : respects R (lift r).
Proof. by intros w. Qed.

Lemma respects_modify f : (forall w, R w (f w)) -> respects (E:=E) R (modify f).
Proof. by intros Hf w. Qed.

Lemma respects_bind {A B} (m : ST W E A) (f : A -> ST W E B) :
  respects R m -> (forall a, respects R (f a)) -> respects R (bind m f).
Proof.
  intros Hm Hf w. specialize (Hm w). unfold bind.
  destruct (m w) as [[a|e] w']; [|done]. by etrans; [|apply Hf].
Qed.

Lemma respects_attempt {E' A} (m : ST W E A) : respects R m -> respects (E:=E') R (attempt m).
Proof. intros Hm w. specialize (Hm w). unfold attempt. by destruct (m w). Qed.

Lemma respects_map_err {E' A} (g : E -> E') (m : ST W E A) : respects R m -> respects R (map_err g m).
Proof. intros Hm w. specialize (Hm w). unfold map_err. by destruct (m w) as [[] ?]. Qed.
End Respects.

(** A weaker postcondition from [respects]. *)
Lemma respects_wp {W E A} (R : relation W) (m : ST W E A) w : respects R m -> wp m (λ _ w', R w w') w.
Proof. intros Hm. rewrite wp_run. apply Hm. Qed.

Lemma wp_and {W E A} (m : ST W E A) (Q Q' : result A E -> W -> Prop) w :
  wp m Q w -> wp m Q' w -> wp m (λ r w', Q r w' /\ Q' r w') w.
Proof. by rewrite !wp_run. Qed.

Lemma wp_forall {W E A X} (m : ST W E A) (P : X -> Prop) (Q : X -> result A E -> W -> Prop) w :
  (forall x, P x -> wp m (Q x) w) -> wp m (λ r w', forall x, P x -> Q x r w') w.
Proof. intros Hm. rewrite wp_run. intros x Hx. by apply wp_run, Hm. Qed.

Create HintDb respects.

(** Walk through a method whose calls all respect [R]; what is left are the changes of the state
    and the calls without a lemma. *)
Ltac respects_step :=
  match goal with
  | |- respects _ (bind _ _) => apply respects_bind; [try apply _| |intros ?]
  | |- respects _ (ok _) => apply respects_ok; apply _
  | |- respects _ (throw _) => apply respects_throw; apply _
  | |- respects _ (gets _) => apply respects_gets; apply _
  | |- respects _ (lift _) => apply respects_lift; apply _
  | |- respects _ (attempt _) => apply respects_attempt; try apply _
  | |- respects _ (map_err _ _) => apply respects_map_err; try apply _
  | |- respects _ (match ?x with _ => _ end) => destruct x
  | |- respects _ (let '(_, _) := ?x in _) => destruct x
  | |- respects _ _ => solve [eauto 4 with respects]
  end.
Ltac respects_auto := repeat respects_step.

(** One step of a weakest precondition through the constructs. *)
Ltac wp_step :=
  match goal with
  | |- wp (bind _ _) _ _ => apply wp_bind
  | |- wp (ok _) _ _ => apply wp_ok
  | |- wp (throw _) _ _ => apply wp_throw
  | |- wp (gets _) _ _ => apply wp_gets
  | |- wp (modify _) _ _ => apply wp_modify
  | |- wp (lift _) _ _ => apply wp_lift
  | |- wp (attempt _) _ _ => apply wp_attempt
  | |- wp (map_err _ _) _ _ => apply wp_map_err
  | |- wp (zoom _ _ _) _ _ => apply wp_zoom
  end.

(** The next call by its specification. *)
Ltac wp_call H := eapply wp_mono; [apply H|].
