(* ===== verification/Staging.v ===== *)
(** The staging directory of the write path: crates/pcloud-fs/src/staging.rs.

    The directory is its files: the blobs under blobs/ and the files at its root, each the bytes
    it holds.  Every system call takes the next outcome of [outcomes] ([Some n]: it fails, a
    write after [n] bytes; the list is empty when all further calls succeed), so a theorem about
    every state is about every failure.  [open] and its permission checks are not modelled: they
    decide whether there is a staging directory at all. *)
From S2P Require Import Prelude Paths Bytes StateError WriteJournal.

Inductive IoErrorKind : Type := IoNotFound | IoAlreadyExists | IoOther.

Inductive StagingError : Type :=
| StagingIo (kind : IoErrorKind)
| InsecurePermissions (mode : N)
| InsecureOwnership (owner current : N)
| InvalidName.

#[export] Instance IoErrorKind_eq_dec : EqDecision IoErrorKind.
Proof. solve_decision. Defined.
#[export] Instance StagingError_eq_dec : EqDecision StagingError.
Proof. solve_decision. Defined.

Record StagingDir : Type := mkStagingDir {
  blobs : gmap string (list byte);
  root_files : gmap string (list byte);
  outcomes : list (option nat);
}.

Definition with_blobs (b : gmap string (list byte)) (d : StagingDir) : StagingDir :=
  mkStagingDir b (root_files d) (outcomes d).
Definition with_root_files (f : gmap string (list byte)) (d : StagingDir) : StagingDir :=
  mkStagingDir (blobs d) f (outcomes d).

(** * System calls *)

(** The outcome of the next system call. *)
Definition syscall {E} : ST StagingDir E (option nat) := λ d,
  match outcomes d with
  | [] => (Ok None, d)
  | f :: fs => (Ok f, mkStagingDir (blobs d) (root_files d) fs)
  end.

(** A call without partial effects: it succeeds or fails with [e]. *)
Definition sys {E} (e : E) : ST StagingDir E unit :=
  let! f := syscall in match f with None => ok tt | Some _ => throw e end.

Definition io_other : StagingError := StagingIo IoOther.

(** [file.metadata()?.len()]. *)
Definition file_len (path : string) : ST StagingDir StagingError N :=
  do! sys io_other in
  let! files := gets blobs in
  match files !! path with Some c => ok (len c) | None => throw (StagingIo IoNotFound) end.

(** [file.set_len(n)?]: cut, or extended with zeroes. *)
Definition set_len (path : string) (n : N) : ST StagingDir StagingError unit :=
  do! sys io_other in
  modify (λ d, with_blobs (alter (resize (N.to_nat n) (to_byte 0)) path (blobs d)) d).

(** [file.seek(SeekFrom::Start(offset))?; file.write_all(bytes)?]. *)
Definition write_all (path : string) (offset : N) (bytes : list byte) : ST StagingDir StagingError unit :=
  let! f := syscall in
  let written := match f with None => bytes | Some n => take n bytes end in
  do! modify (λ d, with_blobs (alter (write_at (N.to_nat offset) written) path (blobs d)) d) in
  match f with None => ok tt | Some _ => throw io_other end.

(** * The operations *)

Definition has_char (c : ascii) (s : string) : bool := bool_decide (c ∈ chars s).

Definition blob_path (blob_name : string) : result string StagingError :=
  if bool_decide (blob_name = EmptyString) || has_char "/"%char blob_name ||
     has_char "\"%char blob_name || bool_decide (blob_name = ".") ||
     bool_decide (blob_name = "..") || has_char (to_byte 0) blob_name
  then Err InvalidName
  else Ok blob_name.

Definition create_blob (blob_name : string) : ST StagingDir StagingError unit :=
  let! path := lift (blob_path blob_name) in
  do! sys io_other in
  let! files := gets blobs in
  match files !! path with
  | Some _ => throw (StagingIo IoAlreadyExists)
  | None => modify (λ d, with_blobs (<[path := []]> (blobs d)) d)
  end.

Definition open_blob (blob_name : string) : ST StagingDir StagingError unit :=
  let! path := lift (blob_path blob_name) in
  do! sys io_other in
  let! files := gets blobs in
  match files !! path with Some _ => ok tt | None => throw (StagingIo IoNotFound) end.

Definition remove_blob (blob_name : string) : ST StagingDir StagingError unit :=
  let! path := lift (blob_path blob_name) in
  do! sys io_other in
  modify (λ d, with_blobs (delete path (blobs d)) d).

Definition read_blob (blob_name : string) : ST StagingDir StagingError (list byte) :=
  do! open_blob blob_name in
  do! sys io_other in
  let! files := gets blobs in
  ok (default [] (files !! blob_name)).

Definition write_blob_full (blob_name : string) (bytes : list byte) : ST StagingDir StagingError N :=
  let! path := lift (blob_path blob_name) in
  do! sys io_other in
  do! modify (λ d, with_blobs (<[path := []]> (blobs d)) d) in
  do! write_all path 0 bytes in
  do! sys io_other in
  ok (len bytes).

(** The [match self.open_blob(..)] of [write_blob_at] and [truncate_blob]. *)
Definition open_or_create (blob_name : string) : ST StagingDir StagingError unit :=
  let! r := attempt (open_blob blob_name) in
  match r with
  | Ok _ => ok tt
  | Err e => if decide (e = StagingIo IoNotFound) then create_blob blob_name else throw e
  end.

Definition write_blob_at (blob_name : string) (offset : N) (bytes : list byte)
  : ST StagingDir StagingError N :=
  do! open_or_create blob_name in
  let! current_len := file_len blob_name in
  do! (if decide (current_len < offset)%N then set_len blob_name offset else ok tt) in
  do! write_all blob_name offset bytes in
  do! sys io_other in
  file_len blob_name.

Definition truncate_blob (blob_name : string) (new_size : N) : ST StagingDir StagingError unit :=
  do! open_or_create blob_name in
  do! set_len blob_name new_size in
  sys io_other.

(** * What the operations do under any failure *)

(** The outcomes left are fewer; none are left when there were none. *)
Definition calm (d d' : StagingDir) : Prop := outcomes d = [] -> outcomes d' = [].

#[export] Instance calm_preorder : PreOrder calm.
Proof. split; unfold calm; repeat intro; auto. Qed.

Lemma wp_syscall {E} (Q : result (option nat) E -> StagingDir -> Prop) d :
  (forall f fs, (outcomes d = [] -> f = None /\ fs = []) -> Q (Ok f) (mkStagingDir (blobs d) (root_files d) fs)) ->
  wp syscall Q d.
Proof.
  intros HQ. destruct d as [b r fs]. unfold wp, syscall. cbn [outcomes blobs root_files] in *.
  destruct fs as [|f fs]; apply HQ; [done|]. intros Hf. discriminate Hf.
Qed.

Lemma wp_sys {E} (e : E) (Q : result unit E -> StagingDir -> Prop) d :
  (forall fs, (outcomes d = [] -> fs = []) -> Q (Ok tt) (mkStagingDir (blobs d) (root_files d) fs)) ->
  (forall fs, outcomes d <> [] -> Q (Err e) (mkStagingDir (blobs d) (root_files d) fs)) ->
  wp (sys e) Q d.
Proof.
  intros Hok Herr. unfold sys. apply wp_bind, wp_syscall. intros [n|] fs Hf.
  - apply wp_throw, Herr. intros Ho. by destruct (Hf Ho).
  - apply wp_ok, Hok. naive_solver.
Qed.

(** Only the blob [name] changes. *)
Record only_blob (name : string) (d d' : StagingDir) : Prop := {
  ob_root : root_files d' = root_files d;
  ob_calm : calm d d';
  ob_other n : n <> name -> blobs d' !! n = blobs d !! n;
}.

#[export] Instance only_blob_preorder name : PreOrder (only_blob name).
Proof.
  split.
  - intros d. by split.
  - intros d1 d2 d3 [R1 C1 O1] [R2 C2 O2]. split; [congruence|by etrans|].
    intros n Hn. by rewrite O2, O1.
Qed.

Lemma respects_syscall {E} name : respects (E:=E) (only_blob name) syscall.
Proof. intros d. unfold syscall. destruct (outcomes d) eqn:E1; [done|]. split; [done| |done]. by intros ?; congruence. Qed.

Lemma respects_sys {E} name (e : E) : respects (only_blob name) (sys e).
Proof. unfold sys. respects_auto. apply respects_syscall. Qed.

Lemma respects_with_blobs {E} name f :
  (forall b n, n <> name -> f b !! n = b !! n) ->
  respects (E:=E) (only_blob name) (modify (λ d, with_blobs (f (blobs d)) d)).
Proof. intros Hf. apply respects_modify. intros d. split; [done|by intros ?|]. intros n Hn. by apply Hf. Qed.

#[export] Hint Resolve respects_syscall respects_sys : respects.

Ltac blob_auto :=
  respects_auto; try (apply respects_with_blobs; intros ? ? ?; by simplify_map_eq).

Lemma respects_file_len name p : respects (only_blob name) (file_len p).
Proof. unfold file_len. blob_auto. Qed.
Lemma respects_set_len name n : respects (only_blob name) (set_len name n).
Proof. unfold set_len. blob_auto. Qed.
Lemma respects_write_all name off bytes : respects (only_blob name) (write_all name off bytes).
Proof. unfold write_all. blob_auto. Qed.

Lemma blob_path_ok name file : blob_path name = Ok file -> file = name.
Proof. unfold blob_path. case_match; congruence. Qed.

Lemma respects_blob_path {A} name (f : string -> ST StagingDir StagingError A) :
  respects (only_blob name) (f name) -> respects (only_blob name) (bind (lift (blob_path name)) f).
Proof.
  intros Hf d. unfold bind, lift. destruct (blob_path name) as [file|e] eqn:E; [|done].
  apply blob_path_ok in E as ->. apply Hf.
Qed.

#[export] Hint Resolve respects_file_len respects_set_len respects_write_all : respects.

Lemma respects_create_blob name : respects (only_blob name) (create_blob name).
Proof. apply respects_blob_path. blob_auto. Qed.
Lemma respects_open_blob name : respects (only_blob name) (open_blob name).
Proof. apply respects_blob_path. blob_auto. Qed.
Lemma respects_remove_blob name : respects (only_blob name) (remove_blob name).
Proof. apply respects_blob_path. blob_auto. Qed.
Lemma respects_write_blob_full name bytes : respects (only_blob name) (write_blob_full name bytes).
Proof. apply respects_blob_path. blob_auto. Qed.

#[export] Hint Resolve respects_create_blob respects_open_blob respects_remove_blob
  respects_write_blob_full : respects.

Lemma respects_open_or_create name : respects (only_blob name) (open_or_create name).
Proof. unfold open_or_create. blob_auto. Qed.

#[export] Hint Resolve respects_open_or_create : respects.

Lemma respects_write_blob_at name off bytes : respects (only_blob name) (write_blob_at name off bytes).
Proof. unfold write_blob_at. blob_auto. Qed.
Lemma respects_truncate_blob name n : respects (only_blob name) (truncate_blob name n).
Proof. unfold truncate_blob. blob_auto. Qed.
Lemma respects_read_blob name : respects (only_blob name) (read_blob name).
Proof. unfold read_blob. blob_auto. Qed.

#[export] Hint Resolve respects_write_blob_at respects_truncate_blob respects_read_blob : respects.

(** * What the operations do when they succeed, and when they must *)

Definition blobs_kept (d d' : StagingDir) : Prop :=
  blobs d' = blobs d /\ root_files d' = root_files d /\ calm d d'.

Lemma wp_sys_kept {E} (e : E) (Q : result unit E -> StagingDir -> Prop) d :
  (forall d', blobs_kept d d' -> Q (Ok tt) d') ->
  (forall d', blobs_kept d d' -> outcomes d <> [] -> Q (Err e) d') ->
  wp (sys e) Q d.
Proof.
  intros Hok Herr. apply wp_sys; intros fs Hfs; [apply Hok|apply Herr; [|done]]; repeat split; by intros ?; auto.
Qed.

Lemma blobs_kept_trans d1 d2 d3 : blobs_kept d1 d2 -> blobs_kept d2 d3 -> blobs_kept d1 d3.
Proof. intros (B1 & R1 & C1) (B2 & R2 & C2). repeat split; [congruence..|by etrans]. Qed.

Lemma wp_file_len p d :
  wp (file_len p) (λ r d', blobs_kept d d' /\
    match r with
    | Ok n => exists c, blobs d !! p = Some c /\ n = len c
    | Err _ => outcomes d <> [] \/ blobs d !! p = None
    end) d.
Proof.
  unfold file_len. wp_step. apply wp_sys_kept; [|by auto]. intros d' K. repeat wp_step.
  destruct K as (B & R & C). rewrite B. by case_match; split; eauto.
Qed.

Lemma wp_open_blob name d :
  wp (open_blob name) (λ r d', blobs_kept d d' /\
    match r with
    | Ok _ => blob_path name = Ok name /\ is_Some (blobs d !! name)
    | Err _ => outcomes d <> [] \/ blobs d !! name = None \/ blob_path name = Err InvalidName
    end) d.
Proof.
  unfold open_blob. do 2 wp_step. destruct (blob_path name) as [file|e] eqn:Hn.
  - pose proof (blob_path_ok _ _ Hn) as ->. wp_step. apply wp_sys_kept; [|by auto].
    intros d' K. repeat wp_step. destruct K as (B & R & C). rewrite B. by case_match; repeat split; eauto.
  - repeat split; [done|]. right. right. unfold blob_path in Hn. case_match; congruence.
Qed.

Lemma wp_set_len p n c d :
  blobs d !! p = Some c ->
  wp (set_len p n) (λ r d',
    match r with
    | Ok _ => blobs d' = <[p := resize (N.to_nat n) (to_byte 0) c]> (blobs d)
    | Err _ => True
    end) d.
Proof.
  intros Hc. unfold set_len. wp_step. apply wp_sys_kept; [|done]. intros d' (B & _). wp_step. cbn [blobs with_blobs].
  rewrite B. by apply alter_alt_Some.
Qed.

Lemma write_at_resize n (bytes c : list byte) :
  length c <= n -> write_at n bytes (resize n (to_byte 0) c) = write_at n bytes c.
Proof.
  intros Hn. unfold write_at. rewrite length_resize, Nat.sub_diag, take_ge by (rewrite length_resize; lia).
  rewrite !drop_ge by (rewrite ?length_resize; lia). rewrite resize_ge, take_ge by lia.
  cbn [replicate app]. by rewrite <- !app_assoc.
Qed.

Lemma wp_write_all p off bytes c d :
  blobs d !! p = Some c ->
  wp (write_all p off bytes) (λ r d',
    match r with
    | Ok _ => blobs d' = <[p := write_at (N.to_nat off) bytes c]> (blobs d)
    | Err _ => True
    end) d.
Proof.
  intros Hc. unfold write_all. wp_step. apply wp_syscall. intros [n|] fs _; repeat wp_step; [done|].
  cbn [blobs with_blobs]. by apply alter_alt_Some.
Qed.

Lemma wp_open_or_create name d :
  wp (open_or_create name) (λ r d', root_files d' = root_files d /\ calm d d' /\
    match r with
    | Ok _ => blobs d' !! name = Some (default [] (blobs d !! name)) /\
              forall n, n <> name -> blobs d' !! n = blobs d !! n
    | Err _ => True
    end) d.
Proof.
  unfold open_or_create. do 2 wp_step. wp_call wp_open_blob. intros r d1 ((B & R & C) & Hr).
  destruct r as [[]|e]; [wp_step; destruct Hr as (_ & [c Hc]); rewrite B, Hc; by auto|].
  case_decide; [|by wp_step]. unfold create_blob. do 2 wp_step.
  destruct (blob_path name) as [file|] eqn:Hn; [|done]. apply blob_path_ok in Hn as ->.
  wp_step. apply wp_sys; intros fs Hfs.
  - do 2 wp_step. cbn [blobs]. case_match eqn:E; [wp_step; by split; [|split; [intros ?; auto|]]|].
    wp_step. rewrite B in *. cbn [blobs root_files with_blobs outcomes]. repeat split; [done|intros ?; auto| |].
    + by rewrite E, lookup_insert_eq.
    + intros n Hne. by rewrite lookup_insert_ne.
  - split; [done|]. split; [intros Ho; by apply C in Ho|done].
Qed.

Lemma insert_agree (b b' : gmap string (list byte)) name c c0 :
  b' !! name = Some c0 -> (forall n, n <> name -> b' !! n = b !! n) -> <[name := c]> b' = <[name := c]> b.
Proof.
  intros Hc Ho. apply map_eq. intros n. destruct (decide (n = name)) as [->|Hne].
  - by rewrite !lookup_insert_eq.
  - by rewrite !lookup_insert_ne, Ho.
Qed.

(** The functional behaviour of the two mutators: on success, and whatever fails, no other file
    changes. *)
Lemma wp_write_blob_at name off bytes d :
  wp (write_blob_at name off bytes) (λ r d', only_blob name d d' /\
    match r with
    | Ok _ => blobs d' = <[name := write_at (N.to_nat off) bytes (default [] (blobs d !! name))]> (blobs d)
    | Err _ => True
    end) d.
Proof.
  apply wp_and; [apply respects_wp, respects_write_blob_at|]. unfold write_blob_at.
  set (c := default [] (blobs d !! name)).
  wp_step. wp_call wp_open_or_create. intros [[]|e] d1 (_ & _ & H1); [|done]. destruct H1 as [Hc Ho].
  fold c in Hc. wp_step. wp_call wp_file_len. intros [n|e] d2 ((B2 & _) & Hn); [|done].
  destruct Hn as (c' & Hc' & ->). assert (c' = c) as -> by congruence. rewrite <- B2 in Hc, Ho.
  assert (forall d3 c3, blobs d3 !! name = Some c3 -> (forall n, n <> name -> blobs d3 !! n = blobs d !! n) ->
    write_at (N.to_nat off) bytes c3 = write_at (N.to_nat off) bytes c ->
    wp (do! write_all name off bytes in do! sys io_other in file_len name)
      (λ r d', match r with Ok _ => blobs d' = <[name := write_at (N.to_nat off) bytes c]> (blobs d) | Err _ => True end) d3) as Hrest.
  { intros d3 c3 Hc3 Ho3 Ew. wp_step. wp_call (wp_write_all name off bytes c3 d3 Hc3).
    intros [[]|e] d4 H4; [|done]. wp_step. apply wp_sys_kept; [|done]. intros d5 (B5 & _).
    wp_call wp_file_len. intros [n|e] d6 ((B6 & _) & _); [|done].
    rewrite B6, B5, H4, Ew. by eapply insert_agree. }
  wp_step. case_decide as Hlt; [|wp_step; by apply (Hrest _ c)].
  wp_call (wp_set_len name off c d2 Hc). intros [[]|e] d3 H3; [|done].
  apply (Hrest d3 (resize (N.to_nat off) (to_byte 0) c)).
  - by rewrite H3, lookup_insert_eq.
  - intros n Hn. by rewrite H3, lookup_insert_ne, Ho.
  - apply write_at_resize. unfold len in Hlt. lia.
Qed.

Lemma wp_write_blob_full name bytes d :
  wp (write_blob_full name bytes) (λ r d', only_blob name d d' /\
    match r with
    | Ok n => n = len bytes /\ blobs d' = <[name := bytes]> (blobs d)
    | Err _ => True
    end) d.
Proof.
  apply wp_and; [apply respects_wp, respects_write_blob_full|]. unfold write_blob_full.
  wp_step. wp_step. destruct (blob_path name) as [file|] eqn:Hn; [|done]. apply blob_path_ok in Hn as ->.
  wp_step. apply wp_sys_kept; [|done]. intros d1 (B1 & _). do 3 wp_step.
  wp_call (wp_write_all name 0 bytes []); [apply lookup_insert_eq|].
  intros [[]|e] d2 H2; [|done]. wp_step. apply wp_sys_kept; [|done]. intros d3 (B3 & _). wp_step. split; [done|].
  rewrite B3, H2. cbn [blobs with_blobs]. rewrite B1, insert_insert_eq. unfold write_at. cbn [N.to_nat length replicate].
  by rewrite take_nil, drop_nil, app_nil_r.
Qed.

Lemma wp_truncate_blob name n d :
  wp (truncate_blob name n) (λ r d', only_blob name d d' /\
    match r with
    | Ok _ => blobs d' = <[name := resize (N.to_nat n) (to_byte 0) (default [] (blobs d !! name))]> (blobs d)
    | Err _ => True
    end) d.
Proof.
  apply wp_and; [apply respects_wp, respects_truncate_blob|]. unfold truncate_blob.
  wp_step. wp_call wp_open_or_create. intros [[]|e] d1 (_ & _ & H1); [|done]. destruct H1 as [Hc Ho].
  wp_step. wp_call (wp_set_len name n _ d1 Hc). intros [[]|e] d2 H2; [|done].
  apply wp_sys_kept; [|done]. intros d3 (B3 & _). rewrite B3, H2. by eapply insert_agree.
Qed.

Lemma wp_read_blob name d :
  wp (read_blob name) (λ r d', blobs_kept d d' /\
    match r with Ok c => blobs d !! name = Some c | Err _ => True end) d.
Proof.
  unfold read_blob. wp_step. wp_call wp_open_blob. intros [[]|e] d1 (K1 & H1); [|done].
  destruct H1 as (_ & [c Hc]). wp_step. apply wp_sys_kept; [|by intros d2 K2; split; [eapply blobs_kept_trans|]].
  intros d2 K2. repeat wp_step. split; [by eapply blobs_kept_trans|].
  destruct K1 as (B1 & _), K2 as (B2 & _). by rewrite B2, B1, Hc.
Qed.
