(* ===== verification/WritePath.v ===== *)
(** The FUSE write path: crates/pcloud-fs/src/write_path.rs, with the errno mapping of errors.rs.

    A service is its staging directory, journal, open handles and backend, the process-wide
    staging counter, and the clocks.  The backend is the trait of the source, over any state;
    serde_json is an interface; [laps] are the times between the readings of the monotone clock.
    Calls of one service are taken one after the other, so mutexes are not visible; the order
    in which a [HashMap] or a directory is walked is an argument. *)
From S2P Require Import Prelude Paths Bytes Clock StateError WriteJournal Staging.
From stdpp Require Import pretty.

(** * errors.rs *)

Inductive FsError : Type :=
| FsNotFound
| FsPermissionDenied
| FsNotDirectory
| FsInvalid
| FsIo
| FsInodeSpaceExhausted
| FsTransport (message : string).

Definition ENOENT : Z := 2.
Definition EIO : Z := 5.
Definition EACCES : Z := 13.
Definition ENOTDIR : Z := 20.
Definition EINVAL : Z := 22.

Definition from_pcloud_result (code : N) : FsError :=
  if bool_decide (code ∈ [2002; 2005; 2009; 2010]%N) then FsNotFound
  else if bool_decide (code ∈ [1004; 1027; 2003; 2004; 2014]%N) then FsPermissionDenied
  else FsIo.

Definition fs_to_errno (e : FsError) : Z :=
  match e with
  | FsNotFound => ENOENT
  | FsPermissionDenied => EACCES
  | FsNotDirectory => ENOTDIR
  | FsInvalid => EINVAL
  | FsIo | FsTransport _ | FsInodeSpaceExhausted => EIO
  end.

(** * Errors and the backend trait *)

(** The texts of operating-system and serde errors are left out of the messages. *)
Inductive WritePathError : Type :=
| WpJournal (e : WriteJournalError)
| WpStaging (e : StagingError)
| Upload (msg : string)
| UploadTransient (msg : string)
| UploadPermanent (msg : string)
| NotOpen (ino : N)
| Invalid (msg : string)
| WpFs (e : FsError)
| Internal (msg : string).

Definition wp_to_errno (e : WritePathError) : Z :=
  match e with
  | WpFs e => fs_to_errno e
  | Invalid _ => EINVAL
  | NotOpen _ => EINVAL
  | _ => EIO
  end.

Inductive UploadStatus : Type := StatusBytes (n : N) | StatusNotFound.

Definition STATUS_NOT_SUPPORTED : string := "upload_status api not implemented".
Definition CHUNKED_NOT_SUPPORTED : string := "chunked upload api not implemented".

(** A staging file is passed by path; the argument is what it holds, [None] when it is absent. *)
Class FileUploadBackend (B : Type) : Type := {
  upload_file (parent_path name : string) (staging_file : option (list byte)) : ST B WritePathError unit;
  unlink_remote (path : string) : ST B WritePathError unit;
  rename_remote (from to : string) : ST B WritePathError unit;
  upload_create (parent_path name : string) : ST B WritePathError N;
  upload_write (upload_id offset : N) (chunk : list byte) : ST B WritePathError unit;
  upload_save (upload_id : N) (parent_path name : string) (total_size : N) : ST B WritePathError unit;
  upload_status (upload_id : N) : ST B WritePathError UploadStatus;
}.

(** The bodies the trait provides for a backend with the whole-file surface only. *)
Definition default_upload_create {B} (parent_path name : string) : ST B WritePathError N :=
  throw (Upload CHUNKED_NOT_SUPPORTED).
Definition default_upload_write {B} (upload_id offset : N) (chunk : list byte) : ST B WritePathError unit :=
  throw (Upload CHUNKED_NOT_SUPPORTED).
Definition default_upload_save {B} (upload_id : N) (parent_path name : string) (total_size : N)
  : ST B WritePathError unit := throw (Upload CHUNKED_NOT_SUPPORTED).
Definition default_upload_status {B} (upload_id : N) : ST B WritePathError UploadStatus :=
  throw (Upload STATUS_NOT_SUPPORTED).

(** * Options *)

Definition DEFAULT_CHUNK_SIZE_BYTES : N := 4 * 1024 * 1024.
Definition DEFAULT_FLUSH_THRESHOLD_BYTES : N := 64 * 1024 * 1024.
Definition DEFAULT_MAX_STAGING_BYTES : N := 512 * 1024 * 1024.
Definition DEFAULT_MAX_GLOBAL_STAGING_BYTES : N := 2 * 1024 * 1024 * 1024.
Definition DEFAULT_CHUNK_RETRY_ATTEMPTS : N := 5.
Definition DEFAULT_CHUNK_RETRY_INITIAL_BACKOFF : Duration := from_secs 1.
Definition DEFAULT_FLUSH_INTERVAL : Duration := from_secs 30.
Definition DEFAULT_HEARTBEAT_TIMEOUT : Duration := from_secs (10 * 60).

Record WritePathOptions : Type := mkWritePathOptions {
  flush_threshold_bytes : N;
  flush_interval : Duration;
  chunk_size_bytes : N;
  max_staging_bytes : N;
  chunk_retry_attempts : N;
  chunk_retry_initial_backoff : Duration;
  max_global_staging_bytes : N;
}.

Definition WritePathOptions_default : WritePathOptions :=
  mkWritePathOptions DEFAULT_FLUSH_THRESHOLD_BYTES DEFAULT_FLUSH_INTERVAL DEFAULT_CHUNK_SIZE_BYTES
    DEFAULT_MAX_STAGING_BYTES DEFAULT_CHUNK_RETRY_ATTEMPTS DEFAULT_CHUNK_RETRY_INITIAL_BACKOFF
    DEFAULT_MAX_GLOBAL_STAGING_BYTES.

(** * Paths and names *)

Definition blob_name_for_ino (ino : N) : string := "ino-" +:+ pretty ino +:+ ".blob".

(** The file name of [progress_path]; the directory is the root of the staging directory. *)
Definition progress_path (ino : N) : string := "ino-" +:+ pretty ino +:+ ".upload-progress".

Definition join_path (parent name : string) : string :=
  if bool_decide (parent = "/") then "/" +:+ name else parent +:+ "/" +:+ name.

Definition split_parent_name (path : string) : option (string * string) :=
  if bool_decide (path = "/") then None
  else
    match rfind slash (chars path) with
    | None => None
    | Some idx =>
        let parent := if bool_decide (idx = 0) then "/" else str (take idx (chars path)) in
        let name := str (drop (idx + 1) (chars path)) in
        if bool_decide (name = EmptyString) then None else Some (parent, name)
    end.

Definition exp_backoff (initial : Duration) (attempt : N) : Duration :=
  let CAP := from_secs 60 in
  match duration_checked_mul initial (2 ^ N.min attempt 20) with
  | Some d => if decide (d <= CAP)%N then d else CAP
  | None => CAP
  end.

(** * The progress sidecar *)

Record UploadProgress : Type := mkUploadProgress {
  upload_id : N;
  up_blob_name : string;
  up_total_size : N;
  acked_offset : N;
  heartbeat_unix_secs : N;
}.

(** [serde_json::to_vec] and [serde_json::from_slice]. *)
Class ProgressCodec : Type := {
  encode_progress : UploadProgress -> option (list byte);
  decode_progress : list byte -> option UploadProgress;
}.

Class ProgressCodecLaws `{ProgressCodec} : Prop :=
  progress_round_trip p bytes : encode_progress p = Some bytes -> decode_progress bytes = Some p.

Section Sidecar.
Context `{ProgressCodec}.

Definition load_progress (path : string) : ST StagingDir WritePathError (option UploadProgress) :=
  do! sys (Upload "read upload-progress") in
  let! files := gets root_files in
  match files !! path with
  | None => ok None
  | Some bytes =>
      match decode_progress bytes with
      | Some p => ok (Some p)
      | None => throw (Upload "decode upload-progress")
      end
  end.

(** Written to a temporary file, synced and renamed, so the file named [path] is the old one or
    the new one; the sync of the directory never fails the call. *)
Definition save_progress (p : UploadProgress) (path : string) : ST StagingDir WritePathError unit :=
  let! bytes := lift (ok_or (encode_progress p) (Upload "encode upload-progress")) in
  do! sys (Upload "open progress tmp") in
  do! sys (Upload "write progress tmp") in
  do! sys (Upload "fsync progress tmp") in
  do! sys (Upload "rename progress tmp") in
  modify (λ d, with_root_files (<[path := bytes]> (root_files d)) d).

(** [let _ = std::fs::remove_file(path)]. *)
Definition forget_progress (path : string) : ST StagingDir WritePathError unit :=
  let! f := syscall in
  match f with
  | None => modify (λ d, with_root_files (delete path (root_files d)) d)
  | Some _ => ok tt
  end.

Definition idle_for_if_stalled (progress : UploadProgress) (now_secs : N) (heartbeat_timeout : Duration)
  : option Duration :=
  if bool_decide (heartbeat_unix_secs progress = 0%N) then None
  else
    let idle := from_secs (now_secs - heartbeat_unix_secs progress) in
    if decide (heartbeat_timeout <= idle)%N then Some idle else None.
End Sidecar.

(** * The service *)

Record WriteHandle : Type := mkWriteHandle {
  path : string;
  blob_name : string;
  dirty_bytes : N;
  last_flush : Instant;
  append_mode : bool;
}.

Definition with_path (p : string) (h : WriteHandle) : WriteHandle :=
  mkWriteHandle p (blob_name h) (dirty_bytes h) (last_flush h) (append_mode h).
Definition with_dirty (d : N) (h : WriteHandle) : WriteHandle :=
  mkWriteHandle (path h) (blob_name h) d (last_flush h) (append_mode h).
Definition flushed_at (now : Instant) (h : WriteHandle) : WriteHandle :=
  mkWriteHandle (path h) (blob_name h) 0 now (append_mode h).

(** [global] is the process-wide GLOBAL_STAGING_BYTES. *)
Record Service (B : Type) : Type := mkService {
  stage : StagingDir;
  journal : WriteJournal;
  handles : gmap N WriteHandle;
  backend : B;
  global : N;
  clock : Instant;
  laps : list Duration;
  unix_clock : list N;
}.
Arguments mkService {B}.
Arguments stage {B} s. Arguments journal {B} s. Arguments handles {B} s. Arguments backend {B} s.
Arguments global {B} s. Arguments clock {B} s. Arguments laps {B} s. Arguments unix_clock {B} s.

Section Fields.
Context {B : Type}.
Definition with_stage (d : StagingDir) (w : Service B) : Service B :=
  mkService d (journal w) (handles w) (backend w) (global w) (clock w) (laps w) (unix_clock w).
Definition with_journal (j : WriteJournal) (w : Service B) : Service B :=
  mkService (stage w) j (handles w) (backend w) (global w) (clock w) (laps w) (unix_clock w).
Definition with_handles (h : gmap N WriteHandle) (w : Service B) : Service B :=
  mkService (stage w) (journal w) h (backend w) (global w) (clock w) (laps w) (unix_clock w).
Definition with_backend (b : B) (w : Service B) : Service B :=
  mkService (stage w) (journal w) (handles w) b (global w) (clock w) (laps w) (unix_clock w).
Definition with_global (g : N) (w : Service B) : Service B :=
  mkService (stage w) (journal w) (handles w) (backend w) g (clock w) (laps w) (unix_clock w).
Definition at_clock (c : Instant) (l : list Duration) (w : Service B) : Service B :=
  mkService (stage w) (journal w) (handles w) (backend w) (global w) c l (unix_clock w).
Definition with_unix_clock (u : list N) (w : Service B) : Service B :=
  mkService (stage w) (journal w) (handles w) (backend w) (global w) (clock w) (laps w) u.
End Fields.

Definition USIZE_MAX : N := U64_MAX.

Section WritePath.
Context {B : Type} `{FileUploadBackend B, JournalCodec, ProgressCodec}.

Abbreviation M A := (ST (Service B) WritePathError A).

Definition on_stage {A} (m : ST StagingDir StagingError A) : M A :=
  map_err WpStaging (zoom stage with_stage m).
Definition on_root {A} (m : ST StagingDir WritePathError A) : M A := zoom stage with_stage m.
Definition call {A} (m : ST B WritePathError A) : M A := zoom backend with_backend m.

Definition instant_now : M Instant := λ w,
  let now := (clock w + default 0 (head (laps w)))%N in (Ok now, at_clock now (tail (laps w)) w).

(** Zero when the system clock is before 1970 (or not set: no more readings). *)
Definition now_unix_secs : M N := λ w,
  (Ok (default 0%N (head (unix_clock w))), with_unix_clock (tail (unix_clock w)) w).

Definition sleep (d : Duration) : M unit := modify (λ w, at_clock (clock w + d) (laps w) w).

Definition get_handle (ino : N) : M WriteHandle :=
  let! hs := gets handles in
  match hs !! ino with Some h => ok h | None => throw (NotOpen ino) end.

(** A change through the [Arc] of the handle. *)
Definition update_handle (ino : N) (f : WriteHandle -> WriteHandle) : M unit :=
  modify (λ w, with_handles (alter f ino (handles w)) w).

(** The journal's write takes the next outcome of the file system. *)
Definition journal_append (o : JournalOp) : M N :=
  let! io := on_root syscall in
  λ w, let '(r, j) := append io o (journal w) in
       (match r with Ok s => Ok s | Err e => Err (WpJournal e) end, with_journal j w).

(** GLOBAL_STAGING_BYTES.fetch_sub(n.min(GLOBAL_STAGING_BYTES.load())). *)
Definition release_global (o : WritePathOptions) (n : N) : M unit :=
  if decide (max_global_staging_bytes o < USIZE_MAX /\ 0 < n)%N
  then modify (λ w, with_global (global w - N.min n (global w)) w)
  else ok tt.

(** The speculative [fetch_add], rolled back beyond the ceiling. *)
Definition reserve_global (o : WritePathOptions) (n : N) : M unit :=
  if decide (max_global_staging_bytes o < USIZE_MAX)%N then
    let! prev := gets global in
    do! modify (λ w, with_global (u64_wrapping_add (global w) n) w) in
    if decide (max_global_staging_bytes o < u64_saturating_add prev n)%N then
      do! modify (λ w, with_global (u64_wrapping_sub (global w) n) w) in
      throw (Invalid "write would exceed process-wide max_global_staging_bytes ceiling")
    else ok tt
  else ok tt.

(** [self.stage.blob_path(name)?]. *)
Definition staged_path (blob : string) : M string := on_stage (lift (blob_path blob)).

(** [path.exists()]: [false] when the file cannot be looked up. *)
Definition exists_file (file : string) : M bool :=
  let! f := on_root syscall in
  let! d := gets stage in
  ok (match f with None => bool_decide (is_Some (blobs d !! file)) | Some _ => false end).

Definition open_for_write (ino : N) (p : string) (append_mode o_trunc : bool) : M unit :=
  let blob := blob_name_for_ino ino in
  do! (if o_trunc then on_stage (truncate_blob blob 0)
       else
         let! file := staged_path blob in
         let! present := exists_file file in
         if present then ok tt else do! on_stage (write_blob_full blob []) in ok tt) in
  let! now := instant_now in
  modify (λ w, with_handles (<[ino := mkWriteHandle p blob 0 now append_mode]> (handles w)) w).

Definition seed_blob (ino : N) (bytes : list byte) : M unit :=
  do! on_stage (write_blob_full (blob_name_for_ino ino) bytes) in ok tt.

Definition create (ino : N) (parent_path name : string) : M unit :=
  if bool_decide (name = EmptyString) || has_char slash name || has_char (to_byte 0) name
  then throw (Invalid "name")
  else
    do! open_for_write ino (join_path parent_path name) false true in
    do! journal_append (Create parent_path name) in ok tt.

(** * Flushing *)

(** The end of [flush] and [chunked_flush]: the dirty bytes leave the counter. *)
Definition reset_dirty (o : WritePathOptions) (ino : N) (now : Instant) : M unit :=
  let! h := get_handle ino in
  do! release_global o (dirty_bytes h) in
  update_handle ino (flushed_at now).

Definition flush (o : WritePathOptions) (ino : N) : M unit :=
  let! _ := instant_now in
  let! h := get_handle ino in
  do! journal_append (FlushBarrier (path h)) in
  let! file := staged_path (blob_name h) in
  match split_parent_name (path h) with
  | None => throw (Invalid "path has no parent")
  | Some (parent, name) =>
      let! _ := attempt (on_stage (file_len file)) in
      let! d := gets stage in
      do! call (upload_file parent name (blobs d !! file)) in
      let! now := instant_now in
      reset_dirty o ino now
  end.

Definition fsync (o : WritePathOptions) (ino : N) : M unit := flush o ino.

(** The retry loop around one [upload_write]; [remaining] is [max_attempts - k]. *)
Fixpoint send_chunk (o : WritePathOptions) (id offset : N) (chunk : list byte) (remaining : nat) (k : N)
  : M unit :=
  let! r := attempt (call (upload_write id offset chunk)) in
  match r with
  | Ok _ => ok tt
  | Err (UploadTransient msg) =>
      match remaining with
      | 0 => throw (UploadTransient ("exhausted " +:+ pretty (chunk_retry_attempts o) +:+
                                     " retries at offset " +:+ pretty offset +:+ ": " +:+ msg))
      | S remaining' =>
          do! sleep (exp_backoff (chunk_retry_initial_backoff o) k) in
          send_chunk o id offset chunk remaining' (k + 1)
      end
  | Err e => throw e
  end.

(** [reader.read_exact(chunk)] at the reader's position. *)
Definition read_exact (blob : string) (offset want : N) : M (list byte) :=
  do! on_root (sys (Upload "read staging blob")) in
  let! d := gets stage in
  let chunk := take (N.to_nat want) (drop (N.to_nat offset) (default [] (blobs d !! blob))) in
  if decide (len chunk < want)%N then throw (Upload "read staging blob") else ok chunk.

(** A turn sends at least one byte, so [total_size - offset] turns are enough
    ([chunk_loop_fuel]). *)
Fixpoint chunk_loop (o : WritePathOptions) (fuel : nat) (logical_path blob sidecar : string)
    (id chunk_bytes total_size offset : N) : M unit :=
  if decide (offset < total_size)%N then
    match fuel with
    | 0 => throw (Internal "fuel")
    | S fuel' =>
        let want := N.min chunk_bytes (total_size - offset) in
        let! chunk := read_exact blob offset want in
        do! send_chunk o id offset chunk (N.to_nat (chunk_retry_attempts o)) 0 in
        do! journal_append (ChunkAck logical_path id offset want) in
        let! secs := now_unix_secs in
        do! on_root (save_progress (mkUploadProgress id blob total_size (offset + want) secs) sidecar) in
        chunk_loop o fuel' logical_path blob sidecar id chunk_bytes total_size (offset + want)
    end
  else ok tt.

Definition chunk_bytes (o : WritePathOptions) : N :=
  if decide (chunk_size_bytes o = 0%N) then DEFAULT_CHUNK_SIZE_BYTES else chunk_size_bytes o.

(** The upload to continue: from the sidecar when it matches, else a new one. *)
Definition begin_session (parent name blob sidecar : string) (total_size : N) : M (N * N) :=
  let! loaded := on_root (load_progress sidecar) in
  let fresh :=
    let! id := call (upload_create parent name) in
    let! secs := now_unix_secs in
    do! on_root (save_progress (mkUploadProgress id blob total_size 0 secs) sidecar) in
    ok (id, 0%N) in
  match loaded with
  | Some p =>
      if decide (up_blob_name p = blob /\ up_total_size p = total_size)
      then ok (upload_id p, acked_offset p) else fresh
  | None => fresh
  end.

Definition run_chunked_session (o : WritePathOptions) (parent name blob sidecar : string) (total_size : N)
  : M unit :=
  let! (id, resume_offset) := begin_session parent name blob sidecar total_size in
  do! map_err (λ _, Upload "open staging blob") (zoom stage with_stage (open_blob blob)) in
  do! on_root (sys (Upload "seek staging blob")) in
  do! chunk_loop o (N.to_nat (total_size - resume_offset)) (join_path parent name) blob sidecar
        id (chunk_bytes o) total_size resume_offset in
  do! call (upload_save id parent name total_size) in
  on_root (forget_progress sidecar).

(** One session, and one more after a permanent failure. *)
Fixpoint session_loop (o : WritePathOptions) (restarts : nat) (parent name blob sidecar : string)
    (total_size : N) : M unit :=
  let! r := attempt (run_chunked_session o parent name blob sidecar total_size) in
  match r, restarts with
  | Ok _, _ => ok tt
  | Err (UploadPermanent _), S restarts' =>
      do! on_root (forget_progress sidecar) in
      session_loop o restarts' parent name blob sidecar total_size
  | Err e, _ => throw e
  end.

Definition chunked_flush (o : WritePathOptions) (ino : N) : M unit :=
  let! _ := instant_now in
  let! h := get_handle ino in
  match split_parent_name (path h) with
  | None => throw (Invalid "path has no parent")
  | Some (parent, name) =>
      do! journal_append (FlushBarrier (path h)) in
      let! file := staged_path (blob_name h) in
      let! total_size := map_err (λ _, Upload "staging metadata") (zoom stage with_stage (file_len file)) in
      do! session_loop o 1 parent name (blob_name h) (progress_path ino) total_size in
      let! now := instant_now in
      reset_dirty o ino now
  end.

(** * The FUSE operations *)

(** [blob_path(..).ok().and_then(metadata.ok()).map(len).unwrap_or(0)]. *)
Definition append_offset (blob : string) : M N :=
  let! r := attempt (on_stage (let! file := lift (blob_path blob) in file_len file)) in
  ok (match r with Ok n => n | Err _ => 0%N end).

(** The flush a write triggers: by size, chunked where the backend can; by time. *)
Definition trigger_flush (o : WritePathOptions) (ino : N) (dirty : N) (now last_flush : Instant) : M unit :=
  if decide (flush_threshold_bytes o <= dirty)%N then
    let! r := attempt (chunked_flush o ino) in
    match r with
    | Ok _ => ok tt
    | Err (Upload msg) => if bool_decide (msg = CHUNKED_NOT_SUPPORTED) then flush o ino else throw (Upload msg)
    | Err e => throw e
    end
  else if decide (flush_interval o <= duration_since now last_flush)%N then flush o ino
  else ok tt.

Definition write (o : WritePathOptions) (ino offset : N) (data : list byte) : M N :=
  let! h := get_handle ino in
  let! effective_offset := (if append_mode h then append_offset (blob_name h) else ok offset) in
  if decide (max_staging_bytes o < USIZE_MAX /\ max_staging_bytes o < u64_saturating_add effective_offset (len data))%N
  then throw (Invalid "write would exceed max_staging_bytes ceiling")
  else
    do! reserve_global o (len data) in
    do! on_stage (write_blob_at (blob_name h) effective_offset data) in
    do! journal_append (Write (path h) effective_offset (len data) (blob_name h)) in
    let dirty := u64_saturating_add (dirty_bytes h) (len data) in
    do! update_handle ino (with_dirty dirty) in
    let! now := instant_now in
    do! trigger_flush o ino dirty now (last_flush h) in
    ok (len data).

Definition truncate (ino new_size : N) : M unit :=
  let! h := get_handle ino in
  do! on_stage (truncate_blob (blob_name h) new_size) in
  do! journal_append (Truncate (path h) new_size) in ok tt.

Definition unlink (ino : option N) (p : string) : M unit :=
  do! journal_append (Unlink p) in
  do! match ino with
      | Some i =>
          let! _ := attempt (on_stage (remove_blob (blob_name_for_ino i))) in
          modify (λ w, with_handles (delete i (handles w)) w)
      | None => ok tt
      end in
  call (unlink_remote p).

Definition rename (from to : string) : M unit :=
  do! journal_append (Rename from to) in
  do! call (rename_remote from to) in
  modify (λ w, with_handles ((λ h, if bool_decide (path h = from) then with_path to h else h) <$> handles w) w).

(** [order] is the iteration order of the [HashMap]. *)
Definition due (o : WritePathOptions) (now : Instant) (hs : gmap N WriteHandle) (ino : N) : bool :=
  match hs !! ino with
  | Some h => bool_decide (0 < dirty_bytes h)%N &&
              bool_decide (flush_interval o <= duration_since now (last_flush h))%N
  | None => false
  end.

Fixpoint flush_all (o : WritePathOptions) (inos : list N) : M unit :=
  match inos with
  | [] => ok tt
  | ino :: inos' => do! flush o ino in flush_all o inos'
  end.

Definition tick (o : WritePathOptions) (order : list N) : M unit :=
  let! now := instant_now in
  let! hs := gets handles in
  flush_all o (filter (λ ino, due o now hs ino = true) order).

Definition is_dirty (hs : gmap N WriteHandle) (ino : N) : bool :=
  match hs !! ino with Some h => bool_decide (0 < dirty_bytes h)%N | None => false end.

Fixpoint drain (o : WritePathOptions) (inos : list N) : M (list (N * result unit WritePathError)) :=
  match inos with
  | [] => ok []
  | ino :: inos' =>
      let! r := attempt (flush o ino) in
      let! rs := drain o inos' in
      ok ((ino, r) :: rs)
  end.

Definition drain_all (o : WritePathOptions) (order : list N) : M (list (N * result unit WritePathError)) :=
  let! hs := gets handles in
  drain o (filter (λ ino, is_dirty hs ino = true) order).

Definition read_staged (ino offset : N) (n : N) : M (list byte) :=
  let! h := get_handle ino in
  let! bytes := on_stage (read_blob (blob_name h)) in
  if decide (len bytes <= offset)%N then ok []
  else
    let end_ := N.min (u64_saturating_add offset n) (len bytes) in
    ok (take (N.to_nat (end_ - offset)) (drop (N.to_nat offset) bytes)).

Definition replay_journal : M (list JournalRecord) :=
  let! j := gets journal in
  lift (match replay j with Ok rs => Ok rs | Err e => Err (WpJournal e) end).

Definition release (o : WritePathOptions) (ino : N) : M unit :=
  let! hs := gets handles in
  do! match hs !! ino with Some h => release_global o (dirty_bytes h) | None => ok tt end in
  modify (λ w, with_handles (delete ino (handles w)) w).

Definition open_inode_count (w : Service B) : nat := size (handles w).
Definition has_open_handle (ino : N) (w : Service B) : bool := bool_decide (is_Some (handles w !! ino)).

Definition total_dirty_bytes (w : Service B) : N :=
  map_fold (λ _ h n, dirty_bytes h + n)%N 0%N (handles w).
End WritePath.
