(* ===== verification/UploadMock.v ===== *)
(** Concrete interfaces for the write path: the in-memory backend of the source's own tests
    ([MockUploadBackend] of crates/pcloud-fs/src/write_path.rs; its call log and crash counter
    are left out) and binary codecs for journal records and sidecars. *)
From S2P Require Import Prelude Paths Bytes StateError WriteJournal Staging WritePath.
From stdpp Require Import countable.

(** * Codecs *)

Definition to_bytes (n : N) : list byte := to_le_bytes (S (N.to_nat (N.log2 n / 8))) n.

Lemma from_to_bytes n : from_le_bytes (to_bytes n) = n.
Proof.
  unfold to_bytes. apply from_to_le_bytes_small. rewrite Nat2N.inj_succ, N2Nat.id.
  change 256%N with (2 ^ 8)%N. rewrite <- N.pow_mul_r.
  destruct (decide (n = 0)%N) as [->|Hn]; [by vm_compute|].
  eapply N.lt_le_trans; [apply N.log2_spec; lia|]. apply N.pow_le_mono_r; [done|].
  pose proof (N.div_mod (N.log2 n) 8 ltac:(done)). pose proof (N.mod_lt (N.log2 n) 8 ltac:(done)). lia.
Qed.

Section Codec.
Context {A : Type} `{Countable A}.
Definition to_codec (a : A) : list byte := to_bytes (Npos (encode a)).
Definition of_codec (l : list byte) : option A :=
  match from_le_bytes l with Npos p => decode p | N0 => None end.
Lemma of_to_codec a : of_codec (to_codec a) = Some a.
Proof. unfold of_codec, to_codec. rewrite from_to_bytes. apply decode_encode. Qed.
End Codec.

#[export] Instance JournalOp_eq_dec : EqDecision JournalOp.
Proof. solve_decision. Defined.
#[export] Instance JournalRecord_eq_dec : EqDecision JournalRecord.
Proof. solve_decision. Defined.
#[export] Instance UploadProgress_eq_dec : EqDecision UploadProgress.
Proof. solve_decision. Defined.

Definition op_parts (o : JournalOp) : N * (list string * list N) :=
  match o with
  | Create a b => (0, ([a; b], []))
  | Write p off n blob => (1, ([p; blob], [off; n]))
  | Truncate p n => (2, ([p], [n]))
  | Unlink p => (3, ([p], []))
  | Rename a b => (4, ([a; b], []))
  | FlushBarrier p => (5, ([p], []))
  | ChunkAck p id off n => (6, ([p], [id; off; n]))
  end%N.

Definition op_of_parts (x : N * (list string * list N)) : option JournalOp :=
  match x with
  | (0, ([a; b], [])) => Some (Create a b)
  | (1, ([p; blob], [off; n])) => Some (Write p off n blob)
  | (2, ([p], [n])) => Some (Truncate p n)
  | (3, ([p], [])) => Some (Unlink p)
  | (4, ([a; b], [])) => Some (Rename a b)
  | (5, ([p], [])) => Some (FlushBarrier p)
  | (6, ([p], [id; off; n])) => Some (ChunkAck p id off n)
  | _ => None
  end%N.

#[export] Instance JournalOp_countable : Countable JournalOp.
Proof. apply (inj_countable op_parts op_of_parts). by intros []. Defined.
#[export] Instance JournalRecord_countable : Countable JournalRecord.
Proof.
  apply (inj_countable (λ r, (WriteJournal.seq r, op r)) (λ x, Some (mkRecord x.1 x.2))). by intros [].
Defined.
#[export] Instance UploadProgress_countable : Countable UploadProgress.
Proof.
  apply (inj_countable (λ p, (upload_id p, up_blob_name p, up_total_size p, acked_offset p, heartbeat_unix_secs p))
    (λ '(a, b, c, d, e), Some (mkUploadProgress a b c d e))). by intros [].
Defined.

Definition binary_journal : JournalCodec := {| to_vec r := Some (to_codec r); from_slice := of_codec |}.
Definition binary_progress : ProgressCodec := {| encode_progress p := Some (to_codec p); decode_progress := of_codec |}.

Lemma binary_journal_laws : @JournalCodecLaws binary_journal.
Proof. split. intros r payload [= <-]. apply of_to_codec. Qed.
Lemma binary_progress_laws : @ProgressCodecLaws binary_progress.
Proof. intros p bytes [= <-]. apply of_to_codec. Qed.

(** * The in-memory backend *)

Record MockUploadBackend : Type := mkMock {
  uploads : gmap string (list byte);
  in_progress : gmap N (list byte);
  next_upload_id : N;
  disable_chunked : bool;
  fail_next_upload : bool;
  transient_writes_remaining : N;
  permanent_next_write : bool;
}.

Definition set_uploads (u : gmap string (list byte)) (b : MockUploadBackend) : MockUploadBackend :=
  mkMock u (in_progress b) (next_upload_id b) (disable_chunked b) (fail_next_upload b)
    (transient_writes_remaining b) (permanent_next_write b).
Definition set_in_progress (p : gmap N (list byte)) (b : MockUploadBackend) : MockUploadBackend :=
  mkMock (uploads b) p (next_upload_id b) (disable_chunked b) (fail_next_upload b)
    (transient_writes_remaining b) (permanent_next_write b).

Definition mock_new : MockUploadBackend := mkMock ∅ ∅ 1 false false 0 false.

#[export] Instance mock_backend : FileUploadBackend MockUploadBackend := {|
  upload_file parent name staging_file b :=
    if fail_next_upload b then
      (Err (Upload "injected"),
       mkMock (uploads b) (in_progress b) (next_upload_id b) (disable_chunked b) false
         (transient_writes_remaining b) (permanent_next_write b))
    else
      match staging_file with
      | None => (Err (Upload "read"), b)
      | Some bytes => (Ok tt, set_uploads (<[join_path parent name := bytes]> (uploads b)) b)
      end;
  unlink_remote p b := (Ok tt, set_uploads (delete p (uploads b)) b);
  rename_remote from to b :=
    (Ok tt,
     match uploads b !! from with
     | Some bytes => set_uploads (<[to := bytes]> (delete from (uploads b))) b
     | None => b
     end);
  upload_create parent name b :=
    if disable_chunked b then default_upload_create parent name b
    else
      (Ok (next_upload_id b),
       mkMock (uploads b) (<[next_upload_id b := []]> (in_progress b)) (next_upload_id b + 1)
         (disable_chunked b) (fail_next_upload b) (transient_writes_remaining b) (permanent_next_write b));
  upload_write id offset chunk b :=
    if disable_chunked b then default_upload_write id offset chunk b
    else if decide (0 < transient_writes_remaining b)%N then
      (Err (UploadTransient "injected transient"),
       mkMock (uploads b) (in_progress b) (next_upload_id b) (disable_chunked b) (fail_next_upload b)
         (transient_writes_remaining b - 1) (permanent_next_write b))
    else if permanent_next_write b then
      (Err (UploadPermanent "injected permanent"),
       mkMock (uploads b) (in_progress b) (next_upload_id b) (disable_chunked b) (fail_next_upload b)
         (transient_writes_remaining b) false)
    else
      match in_progress b !! id with
      | None => (Err (Upload "upload_write: unknown id"), b)
      | Some bytes => (Ok tt, set_in_progress (<[id := write_at (N.to_nat offset) chunk bytes]> (in_progress b)) b)
      end;
  upload_save id parent name total_size b :=
    if disable_chunked b then default_upload_save id parent name total_size b
    else
      match in_progress b !! id with
      | None => (Err (Upload "save: unknown id"), b)
      | Some bytes =>
          let b' := set_in_progress (delete id (in_progress b)) b in
          if decide (len bytes <> total_size) then (Err (Upload "save: short upload"), b')
          else (Ok tt, set_uploads (<[join_path parent name := bytes]> (uploads b')) b')
      end;
  upload_status id b :=
    if disable_chunked b then default_upload_status id b
    else (Ok match in_progress b !! id with Some bytes => StatusBytes (len bytes) | None => StatusNotFound end, b);
|}.

(** A service over the mock with nothing staged. *)
Definition mock_service : Service MockUploadBackend :=
  mkService (mkStagingDir ∅ ∅ []) (open []) ∅ mock_new 0 0 [] [].
