(* ===== verification/FuseAdapter.v ===== *)
(** The FUSE adapter: crates/pcloud-fs/src/fuse_adapter.rs.

    [ProtoFuseAdapter] resolves the kernel's inode requests through the inode table and the
    metadata cache, reads file content through the page cache, and forwards writes to the write
    path.  The folder and file backends are the traits of crates/pcloud-fs/src/backend.rs over
    any state; the write path is the service of [WritePath].  Requests are taken one at a time,
    so mutexes are not visible; [ad_laps] are the times between the readings of the clock.  An
    error is the errno of the reply. *)
From S2P Require Import Prelude Paths Bytes Clock StateError PathNorm Inodes MetadataCache FilePages WriteJournal Staging WritePath.

Definition ENOSYS : Z := 38.
Definition EBADF : Z := 9.
Definition EROFS : Z := 30.

(** * The backends: crates/pcloud-fs/src/backend.rs *)

(** The fields of [RemoteFolderEntry] and [RemoteFolderListing] that the adapter reads. *)
Record RemoteFolderEntry : Type := mkRemoteFolderEntry {
  rfe_name : string;
  rfe_is_folder : bool;
  rfe_file_id : option N;
  rfe_size : option N;
  rfe_modified : option N;
}.

Class FolderBackend (D : Type) : Type := {
  list_contents (path : string) : ST D FsError (list RemoteFolderEntry);
  create_folder (parent_path name : string) : ST D FsError N;
  delete_folder (path : string) : ST D FsError unit;
}.

Record FileHandle : Type := mkFileHandle {
  fh_file_id : N;
  fh_size : N;
  fh_host : string;
  fh_path : string;
  fh_dwltag : option string;
}.

Definition with_size (size : N) (h : FileHandle) : FileHandle :=
  mkFileHandle (fh_file_id h) size (fh_host h) (fh_path h) (fh_dwltag h).

Class FileBackend (F : Type) : Type := {
  be_open (file_id : N) : ST F FsError FileHandle;
  be_read (handle : FileHandle) (offset len : N) : ST F FsError (list byte);
  be_release (handle : FileHandle) : ST F FsError unit;
}.

(** The default body of [open_with_size], which no backend of the source overrides. *)
Definition open_with_size {F} `{FileBackend F} (file_id size : N) : ST F FsError FileHandle :=
  let! handle := be_open file_id in ok (with_size size handle).

(** * What a file backend promises *)

(** The documented contract of [FileBackend::read]: exactly the bytes asked for, fewer only at
    the end of the file.  [serves] are the states in which the backend serves these contents;
    [reliable] are the files for which it does not fail in them. *)
Class FileBackendLaws (F : Type) `{FileBackend F} (content : N -> list byte) (serves : F -> Prop) (reliable : N -> Prop)
    : Prop := {
  be_open_exact file_id f : serves f ->
    wp (be_open file_id) (λ r f', serves f' /\
      match r with Ok h => fh_file_id h = file_id | Err _ => ~ reliable file_id end) f;
  be_release_serves h f : serves f -> serves (be_release h f).2;
  be_read_exact h offset n f : serves f ->
    wp (be_read h offset n) (λ r f', serves f' /\
      match r with Ok b => b = sub_bytes offset (offset + n) (content (fh_file_id h)) | Err _ => ~ reliable (fh_file_id h) end) f;
  content_len file_id : (len (content file_id) <= U64_MAX)%N;
}.

(** * State *)

Record AdapterOptions : Type := mkAdapterOptions {
  opt_uid : N;
  opt_gid : N;
  opt_file_mode : N;
  opt_dir_mode : N;
  opt_cache : MetadataCacheConfig;
  opt_page_cache : PageCacheConfig;
}.

(** [Default], with the user and group id of the process. *)
Definition AdapterOptions_default (uid gid : N) : AdapterOptions :=
  mkAdapterOptions uid gid 420 493 MetadataCacheConfig_default PageCacheConfig_default.

Inductive HandleKind : Type :=
| Server (handle : FileHandle)
| Staged.

Record HandleSlot : Type := mkHandleSlot {
  hs_ino : N;
  hs_kind : HandleKind;
}.

(** The [Arc]s of a shared handle are the one in [by_ino] and those in the slots of its inode. *)
Record HandleTable : Type := mkHandleTable {
  ht_by_id : gmap N HandleSlot;
  ht_by_ino : gmap N FileHandle;
  ht_next_id : N;
}.

Definition is_server (s : HandleSlot) : bool := match hs_kind s with Server _ => true | Staged => false end.

Definition strong_count (t : HandleTable) (ino : N) : nat :=
  S (size (filter (λ '(_, s), hs_ino s = ino /\ is_server s = true) (ht_by_id t))).

(** [next_id.checked_add(1).unwrap_or(1)] and the insertion of the slot. *)
Definition add_slot (slot : HandleSlot) (t : HandleTable) : N * HandleTable :=
  let id := default 1%N (u64_checked_add (ht_next_id t) 1) in
  (id, mkHandleTable (<[id := slot]> (ht_by_id t)) (ht_by_ino t) id).

Record ProtoFuseAdapter (D F L B : Type) : Type := mkAdapter {
  ad_folders : D;
  ad_files : F;
  ad_inodes : InodeTableInner;
  ad_cache : MetadataCache;
  ad_pages : FilePages L;
  ad_file_ids : gmap N N;
  ad_file_sizes : gmap N N;
  ad_handles : HandleTable;
  ad_writer : option (Service B);
  ad_options : AdapterOptions;
  ad_now : Instant;
  ad_laps : list Duration;
}.
Arguments mkAdapter {D F L B}.
Arguments ad_folders {D F L B}. Arguments ad_files {D F L B}. Arguments ad_inodes {D F L B}.
Arguments ad_cache {D F L B}. Arguments ad_pages {D F L B}. Arguments ad_file_ids {D F L B}.
Arguments ad_file_sizes {D F L B}. Arguments ad_handles {D F L B}. Arguments ad_writer {D F L B}.
Arguments ad_options {D F L B}. Arguments ad_now {D F L B}. Arguments ad_laps {D F L B}.

Section Fields.
Context {D F L B : Type}.
Abbreviation A := (ProtoFuseAdapter D F L B).

Definition set_folders (d : D) (w : A) : A :=
  mkAdapter d (ad_files w) (ad_inodes w) (ad_cache w) (ad_pages w) (ad_file_ids w) (ad_file_sizes w)
    (ad_handles w) (ad_writer w) (ad_options w) (ad_now w) (ad_laps w).
Definition set_files (f : F) (w : A) : A :=
  mkAdapter (ad_folders w) f (ad_inodes w) (ad_cache w) (ad_pages w) (ad_file_ids w) (ad_file_sizes w)
    (ad_handles w) (ad_writer w) (ad_options w) (ad_now w) (ad_laps w).
Definition set_inodes (t : InodeTableInner) (w : A) : A :=
  mkAdapter (ad_folders w) (ad_files w) t (ad_cache w) (ad_pages w) (ad_file_ids w) (ad_file_sizes w)
    (ad_handles w) (ad_writer w) (ad_options w) (ad_now w) (ad_laps w).
Definition set_cache (c : MetadataCache) (w : A) : A :=
  mkAdapter (ad_folders w) (ad_files w) (ad_inodes w) c (ad_pages w) (ad_file_ids w) (ad_file_sizes w)
    (ad_handles w) (ad_writer w) (ad_options w) (ad_now w) (ad_laps w).
Definition set_pages (p : FilePages L) (w : A) : A :=
  mkAdapter (ad_folders w) (ad_files w) (ad_inodes w) (ad_cache w) p (ad_file_ids w) (ad_file_sizes w)
    (ad_handles w) (ad_writer w) (ad_options w) (ad_now w) (ad_laps w).
Definition set_file_ids (m : gmap N N) (w : A) : A :=
  mkAdapter (ad_folders w) (ad_files w) (ad_inodes w) (ad_cache w) (ad_pages w) m (ad_file_sizes w)
    (ad_handles w) (ad_writer w) (ad_options w) (ad_now w) (ad_laps w).
Definition set_file_sizes (m : gmap N N) (w : A) : A :=
  mkAdapter (ad_folders w) (ad_files w) (ad_inodes w) (ad_cache w) (ad_pages w) (ad_file_ids w) m
    (ad_handles w) (ad_writer w) (ad_options w) (ad_now w) (ad_laps w).
Definition set_handles (t : HandleTable) (w : A) : A :=
  mkAdapter (ad_folders w) (ad_files w) (ad_inodes w) (ad_cache w) (ad_pages w) (ad_file_ids w) (ad_file_sizes w)
    t (ad_writer w) (ad_options w) (ad_now w) (ad_laps w).
Definition set_writer (s : option (Service B)) (w : A) : A :=
  mkAdapter (ad_folders w) (ad_files w) (ad_inodes w) (ad_cache w) (ad_pages w) (ad_file_ids w) (ad_file_sizes w)
    (ad_handles w) s (ad_options w) (ad_now w) (ad_laps w).
Definition set_clock (now : Instant) (laps : list Duration) (w : A) : A :=
  mkAdapter (ad_folders w) (ad_files w) (ad_inodes w) (ad_cache w) (ad_pages w) (ad_file_ids w) (ad_file_sizes w)
    (ad_handles w) (ad_writer w) (ad_options w) now laps.

(** [with_file_backend]; [with_write_path] sets the writer. *)
Definition with_file_backend `{LruMap L} (folders : D) (files : F) (o : AdapterOptions)
    (now : Instant) (laps : list Duration) : A :=
  mkAdapter folders files InodeTableInner_new (MetadataCache_new (opt_cache o)) (FilePages_new (opt_page_cache o))
    ∅ ∅ (mkHandleTable ∅ ∅ 0) None o now laps.
End Fields.

Definition path_err_to_fs (err : PathError) : FsError := FsInvalid.

Definition inode_err_to_fs (err : InodeError) : FsError := match err with InodeSpaceExhausted => FsInodeSpaceExhausted end.

(** [join_child] on strings. *)
Definition child_of (parent name : string) : result string FsError :=
  match join_child (chars parent) (chars name) with
  | Ok p => Ok (str p)
  | Err e => Err (path_err_to_fs e)
  end.

(** [write_err_to_errno]. *)
Definition write_err_to_errno (e : WritePathError) : Z :=
  match e with Upload _ => EROFS | other => wp_to_errno other end.

Section Adapter.
Context {D F L B : Type} `{FolderBackend D, FileBackend F, LruMap L, FileUploadBackend B, JournalCodec, ProgressCodec}.
Context (wo : WritePathOptions).

Abbreviation Adapter := (ProtoFuseAdapter D F L B).
Abbreviation M := (ST Adapter FsError).
Abbreviation E := (ST Adapter Z).

(** * Access to the parts *)

Definition on_folders {T} (m : ST D FsError T) : M T := zoom ad_folders set_folders m.
Definition on_files {T} (m : ST F FsError T) : M T := zoom ad_files set_files m.

Definition read_clock {X} : ST Adapter X Instant := λ w,
  let now := (ad_now w + default 0 (head (ad_laps w)))%N in (Ok now, set_clock now (tail (ad_laps w)) w).

Definition cache_lookup {X} (path : string) : ST Adapter X (option CachedMetadata) :=
  let! now := read_clock in
  λ w, let '(r, c) := meta_get now path (ad_cache w) in (Ok r, set_cache c w).

Definition cache_put {X} (path : string) (meta : CachedMetadata) : ST Adapter X unit :=
  let! now := read_clock in
  let! now' := read_clock in
  modify (λ w, set_cache (meta_put now now' path meta (ad_cache w)) w).

Definition invalidate_cache {X} (path : string) : ST Adapter X unit :=
  modify (λ w, set_cache (meta_invalidate path (ad_cache w)) w).

Definition insert_inode (path : string) (kind : FsEntryKind) : M N := λ w,
  match insert_or_get path kind (ad_inodes w) with
  | (Ok (ino, _), t) => (Ok ino, set_inodes t w)
  | (Err e, t) => (Err (inode_err_to_fs e), set_inodes t w)
  end.

Definition errno {T} (m : M T) : E T := map_err fs_to_errno m.

(** [self.writer.as_ref().ok_or(ENOSYS)?] and a call of the delegate. *)
Definition delegate {T} (m : ST (Service B) WritePathError T) : E T := λ w,
  match ad_writer w with
  | None => (Err ENOSYS, w)
  | Some s =>
      let '(r, s') := m s in
      (match r with Ok a => Ok a | Err e => Err (write_err_to_errno e) end, set_writer (Some s') w)
  end.

(** * Attributes and listings *)

Definition mode_for (o : AdapterOptions) (kind : FsEntryKind) : N :=
  match kind with Directory => opt_dir_mode o | RegularFile | Symlink => opt_file_mode o end.

Definition build_attr_with_mtime (o : AdapterOptions) (ino : N) (kind : FsEntryKind) (size : N)
    (mtime_epoch : option N) : EntryAttr :=
  mkEntryAttr ino kind size (mode_for o kind) (opt_uid o) (opt_gid o) mtime_epoch 0.

Definition build_attr (o : AdapterOptions) (ino : N) (kind : FsEntryKind) (size : N) : EntryAttr :=
  build_attr_with_mtime o ino kind size None.

Definition resolve_path (ino : N) (w : Adapter) : option string := (λ x, x.1.1) <$> resolve (ad_inodes w) ino.

Definition path_from_ino (ino : N) : E string :=
  let! p := gets (resolve_path ino) in lift (ok_or p ENOENT).

(** One entry of a fresh listing: its inode, the mirrors of its file id and size, its cache entry. *)
Definition adopt_entry (path : string) (entry : RemoteFolderEntry) : M DirEntry :=
  let! child_path := lift (child_of path (rfe_name entry)) in
  let kind := if rfe_is_folder entry then Directory else RegularFile in
  let! ino := insert_inode child_path kind in
  do! (if rfe_is_folder entry then ok tt
       else
         do! match rfe_file_id entry with
             | Some file_id => modify (λ w, set_file_ids (<[ino := file_id]> (ad_file_ids w)) w)
             | None => ok tt
             end in
         match rfe_size entry with
         | Some sz => modify (λ w, set_file_sizes (<[ino := sz]> (ad_file_sizes w)) w)
         | None => ok tt
         end) in
  let entry_size := if rfe_is_folder entry then 0%N else default 0%N (rfe_size entry) in
  let! o := gets ad_options in
  do! cache_put child_path
        (mkCachedMetadata (build_attr_with_mtime o ino kind entry_size (rfe_modified entry)) None) in
  ok (mkDirEntry ino kind (rfe_name entry)).

Fixpoint adopt_entries (path : string) (entries : list RemoteFolderEntry) : M (list DirEntry) :=
  match entries with
  | [] => ok []
  | entry :: entries' =>
      let! e := adopt_entry path entry in
      let! es := adopt_entries path entries' in
      ok (e :: es)
  end.

(** The part of [fetch_directory] after a cache miss. *)
Definition list_directory (path : string) : M CachedMetadata :=
  let! listing := on_folders (list_contents path) in
  let! dir_ino := insert_inode path Directory in
  let! child_entries := adopt_entries path listing in
  let! o := gets ad_options in
  let meta := mkCachedMetadata (build_attr o dir_ino Directory 0) (Some child_entries) in
  do! cache_put path meta in
  ok meta.

Definition fetch_directory (path : string) : M CachedMetadata :=
  let! cached := cache_lookup path in
  match cached with
  | Some meta => match cm_children meta with Some _ => ok meta | None => list_directory path end
  | None => list_directory path
  end.

Definition with_attr_size (size : N) (mtime : option N) (m : CachedMetadata) : CachedMetadata :=
  let a := cm_attr m in
  mkCachedMetadata
    (mkEntryAttr (attr_ino a) (attr_kind a) size (attr_mode a) (attr_uid a) (attr_gid a)
       (match mtime with Some _ => mtime | None => attr_mtime_epoch a end) (attr_mtime_nsec a))
    (cm_children m).

Definition publish_local_size {X} (ino new_size : N) (mtime_epoch : option N) : ST Adapter X unit :=
  let! p := gets (resolve_path ino) in
  match p with
  | None => ok tt
  | Some path =>
      let! cached := cache_lookup path in
      match cached with
      | Some meta => cache_put path (with_attr_size new_size mtime_epoch meta)
      | None => ok tt
      end
  end.

Definition cached_attr {X} (path : string) : ST Adapter X (option EntryAttr) :=
  let! cached := cache_lookup path in ok (cm_attr <$> cached).

Definition forget_local_entry {X} (parent_path name : string) : ST Adapter X unit :=
  match child_of parent_path name with
  | Err _ => ok tt
  | Ok child_path =>
      do! invalidate_cache child_path in
      let! cached := cache_lookup parent_path in
      match cached with
      | Some (mkCachedMetadata attr (Some children)) =>
          cache_put parent_path (mkCachedMetadata attr (Some (filter (λ e, de_name e ≠ name) children)))
      | _ => ok tt
      end
  end.

Definition publish_local_entry {X} (parent_path name : string) (attr : EntryAttr) : ST Adapter X unit :=
  match child_of parent_path name with
  | Err _ => ok tt
  | Ok child_path =>
      do! cache_put child_path (mkCachedMetadata attr None) in
      let! cached := cache_lookup parent_path in
      match cached with
      | None => ok tt
      | Some (mkCachedMetadata parent_attr (Some children)) =>
          let children := if existsb (λ e, bool_decide (de_name e = name)) children then children
                          else children ++ [mkDirEntry (attr_ino attr) (attr_kind attr) name] in
          cache_put parent_path (mkCachedMetadata parent_attr (Some children))
      | Some (mkCachedMetadata _ None) => invalidate_cache parent_path
      end
  end.

(** * Read-side requests *)

(** The child named [name] of a listing, with size 0. *)
Definition attr_of_child (name : string) (meta : CachedMetadata) : E EntryAttr :=
  let! o := gets ad_options in
  match cm_children meta ≫= List.find (λ e, bool_decide (de_name e = name)) with
  | Some entry => ok (build_attr o (de_ino entry) (de_kind entry) 0)
  | None => throw ENOENT
  end.

Definition fuse_lookup (parent : N) (name : string) : E EntryAttr :=
  let! parent_path := path_from_ino parent in
  let! child_path := errno (lift (child_of parent_path name)) in
  let! cached := cache_lookup child_path in
  match cached with
  | Some meta => ok (cm_attr meta)
  | None =>
      let! parent_meta := errno (fetch_directory parent_path) in attr_of_child name parent_meta
  end.

Definition fuse_getattr (ino : N) : E EntryAttr :=
  let! path := path_from_ino ino in
  let! cached := cache_lookup path in
  match cached with
  | Some meta => ok (cm_attr meta)
  | None =>
      if bool_decide (ino = ROOT_INODE) then
        do! errno (fetch_directory "/") in
        let! root := cache_lookup "/" in
        match root with Some meta => ok (cm_attr meta) | None => throw EIO end
      else
        match canonicalise (chars path) with
        | Err e => throw (fs_to_errno (path_err_to_fs e))
        | Ok canon =>
            match split_parent_name (str canon) with
            | None => throw ENOENT
            | Some (parent_path, name) =>
                let! parent_meta := errno (fetch_directory parent_path) in attr_of_child name parent_meta
            end
        end
  end.

(** [offset.max(0) as usize]. *)
Definition fuse_readdir (ino : N) (offset : Z) : E (list DirEntry) :=
  let! path := path_from_ino ino in
  let! meta := errno (fetch_directory path) in
  match cm_children meta with
  | None => throw ENOTDIR
  | Some children => ok (drop (Z.to_nat (Z.max offset 0)) children)
  end.

Definition fuse_mkdir (parent_path name : string) : E EntryAttr :=
  do! errno (on_folders (create_folder parent_path name)) in
  let! child_path := errno (lift (child_of parent_path name)) in
  let! ino := errno (insert_inode child_path Directory) in
  let! o := gets ad_options in
  let attr := build_attr o ino Directory 0 in
  do! publish_local_entry parent_path name attr in
  ok attr.

Definition invalidate_inode_path {X} (path : string) : ST Adapter X unit :=
  modify (λ w, set_inodes (invalidate_path path (ad_inodes w)).2 w).

Definition fuse_rmdir (path : string) : E unit :=
  do! errno (on_folders (delete_folder path)) in
  do! invalidate_inode_path path in
  match split_parent_name path with
  | Some (parent, name) => forget_local_entry parent name
  | None => invalidate_cache path
  end.

Definition forget_ino {X} (ino nlookup : N) : ST Adapter X unit :=
  modify (λ w, set_inodes (forget ino nlookup (ad_inodes w)) w).

(** * Open, read, release *)

Definition resolve_file_id (ino : N) : M N :=
  let! ids := gets ad_file_ids in
  match ids !! ino with
  | Some fid => ok fid
  | None =>
      let! p := gets (resolve_path ino) in
      let! path := lift (ok_or p FsNotFound) in
      let! canon := lift (match canonicalise (chars path) with Ok c => Ok (str c) | Err e => Err (path_err_to_fs e) end) in
      let! pn := lift (ok_or (split_parent_name canon) FsNotFound) in
      do! fetch_directory pn.1 in
      let! ids := gets ad_file_ids in
      lift (ok_or (ids !! ino) FsNotFound)
  end.

Definition new_slot {X} (slot : HandleSlot) : ST Adapter X N := λ w,
  let '(id, t) := add_slot slot (ad_handles w) in (Ok id, set_handles t w).

Definition writer_has_handle (ino : N) (w : Adapter) : bool :=
  match ad_writer w with Some s => has_open_handle ino s | None => false end.

(** The shared handle of an inode: the one in the table, or a new one that goes there. *)
Definition shared_handle (ino file_id : N) : M FileHandle :=
  let! t := gets ad_handles in
  match ht_by_ino t !! ino with
  | Some existing => ok existing
  | None =>
      let! sizes := gets ad_file_sizes in
      let! handle := on_files (match sizes !! ino with
                               | Some sz => open_with_size file_id sz
                               | None => be_open file_id
                               end) in
      do! modify (λ w, let t := ad_handles w in
                       set_handles (mkHandleTable (ht_by_id t) (<[ino := handle]> (ht_by_ino t)) (ht_next_id t)) w) in
      ok handle
  end.

Definition fuse_open (ino : N) : E N :=
  let! staged := gets (writer_has_handle ino) in
  if staged then new_slot (mkHandleSlot ino Staged)
  else
    let! file_id := errno (resolve_file_id ino) in
    let! shared := errno (shared_handle ino file_id) in
    new_slot (mkHandleSlot ino (Server shared)).

(** The page at [page_index]: from the cache, or fetched and cached.  [None] is the end of the
    file; a page the cache does not keep reads back as empty. *)
Definition load_page (handle : FileHandle) (page_size page_index : N) : M (option (list byte)) :=
  let key := mkPageKey (fh_file_id handle) page_index in
  let get : M (option (list byte)) := λ w, let '(r, p) := pages_get key (ad_pages w) in (Ok r, set_pages p w) in
  let! cached := get in
  match cached with
  | Some b => ok (Some b)
  | None =>
      let! fetched := on_files (be_read handle (page_index * page_size) page_size) in
      if bool_decide (fetched = []) then ok None
      else
        do! modify (λ w, set_pages (pages_put key fetched (ad_pages w)) w) in
        let! kept := get in
        ok (Some (default [] kept))
  end.

(** The [while] loop; every turn but the last reads a byte, so one turn more than the bytes
    asked for is enough; [None] never happens then. *)
Fixpoint read_pages (fuel : nat) (handle : FileHandle) (page_size cursor stop : N) (out : list byte)
    : M (option (list byte)) :=
  match fuel with
  | 0 => ok None
  | S fuel' =>
      if decide (cursor < stop)%N then
        let page_index := (cursor / page_size)%N in
        let page_start := (page_index * page_size)%N in
        let! page := load_page handle page_size page_index in
        match page with
        | None => ok (Some out)
        | Some page_bytes =>
            let page_off := (cursor - page_start)%N in
            if decide (len page_bytes <= page_off)%N then ok (Some out)
            else
              let take_len := N.min (stop - cursor) (len page_bytes - page_off) in
              let out := out ++ take (N.to_nat take_len) (drop (N.to_nat page_off) page_bytes) in
              let cursor := u64_saturating_add cursor take_len in
              if decide (len page_bytes < page_size)%N then ok (Some out)
              else read_pages fuel' handle page_size cursor stop out
        end
      else ok (Some out)
  end.

Definition read_server (handle : FileHandle) (offset n : N) : E (list byte) :=
  let! o := gets ad_options in
  let page_size := page_size (opt_page_cache o) in
  if decide (page_size = 0)%N then throw EIO
  else
    let! out := errno (read_pages (S (N.to_nat n)) handle page_size offset (u64_saturating_add offset n) []) in
    ok (default [] out).

Definition fuse_read (handle offset n : N) : E (list byte) :=
  if decide (n = 0)%N then ok []
  else
    let! t := gets ad_handles in
    match ht_by_id t !! handle with
    | None => throw EBADF
    | Some slot =>
        match hs_kind slot with
        | Server shared => read_server shared offset n
        | Staged =>
            let! w := gets ad_writer in
            match w with
            | None => throw EIO
            | Some _ => delegate (read_staged (hs_ino slot) offset n)
            end
        end
    end.

Definition fuse_release (handle : N) : E unit :=
  let! t := gets ad_handles in
  match ht_by_id t !! handle with
  | None => throw EBADF
  | Some slot =>
      let t := mkHandleTable (delete handle (ht_by_id t)) (ht_by_ino t) (ht_next_id t) in
      do! modify (set_handles t) in
      if is_server slot then
        match ht_by_ino t !! hs_ino slot with
        | Some shared =>
            if decide (strong_count t (hs_ino slot) = 1) then
              do! modify (set_handles (mkHandleTable (ht_by_id t) (delete (hs_ino slot) (ht_by_ino t)) (ht_next_id t))) in
              let! _ := attempt (on_files (be_release shared)) in ok tt
            else ok tt
        | None => ok tt
        end
      else ok tt
  end.

(** * Write-side requests *)

Definition bad_name (name : string) : bool :=
  bool_decide (name = EmptyString) || has_char slash name || has_char (to_byte 0) name.

Definition fuse_create (parent_path name : string) : E N :=
  let! w := gets ad_writer in
  match w with
  | None => throw ENOSYS
  | Some _ =>
      if bad_name name then throw EINVAL
      else
        let! ino := errno (insert_inode (join_path parent_path name) RegularFile) in
        do! delegate (create ino parent_path name) in
        let! o := gets ad_options in
        do! publish_local_entry parent_path name (build_attr o ino RegularFile 0) in
        ok ino
  end.

Definition fuse_write (ino offset : N) (data : list byte) : E N := delegate (write wo ino offset data).
Definition fuse_flush_write (ino : N) : E unit := delegate (flush wo ino).
Definition fuse_fsync_write (ino : N) : E unit := delegate (fsync wo ino).

Definition fuse_truncate (ino new_size : N) : E unit :=
  let! r := attempt (delegate (truncate ino new_size)) in
  match r with
  | Ok _ => ok tt
  | Err errno =>
      if bool_decide (errno = EINVAL) then
        let! p := gets (resolve_path ino) in
        let! path := lift (ok_or p ENOENT) in
        do! delegate (open_for_write ino path false false) in
        delegate (truncate ino new_size)
      else throw errno
  end.

Definition fuse_unlink (parent_path name : string) : E unit :=
  let! w := gets ad_writer in
  match w with
  | None => throw ENOSYS
  | Some _ =>
      if bad_name name then throw EINVAL
      else
        let full := join_path parent_path name in
        let! t := gets ad_inodes in
        do! delegate (unlink (ino_for_path t full) full) in
        do! invalidate_inode_path full in
        do! invalidate_cache parent_path in
        invalidate_cache full
  end.

Definition fuse_rename (from to : string) : E unit :=
  do! delegate (rename from to) in
  do! invalidate_cache from in
  invalidate_cache to.
End Adapter.
