(* ===== verification/FuseMock.v ===== *)
(** The in-memory folder and file backends of crates/pcloud-fs/src/backend.rs (module [mock]):
    canned listings by path and canned contents by file id.  They stand for the server in the
    witnesses of the FUSE adapter and shim. *)
From S2P Require Import Prelude Paths Bytes StateError WritePath FuseAdapter.
From stdpp Require Import pretty.

Definition MockFolderBackend : Type := gmap string (result (list RemoteFolderEntry) FsError).

(** A tuple of [insert_dir_with_sizes]; folder ids are not read by the adapter. *)
Definition mock_entry (e : string * bool * option N * option N) : RemoteFolderEntry :=
  let '(name, is_folder, file_id, size) := e in mkRemoteFolderEntry name is_folder file_id size None.

Definition insert_dir_with_sizes (path : string) (entries : list (string * bool * option N * option N))
    (m : MockFolderBackend) : MockFolderBackend :=
  <[path := Ok (map mock_entry entries)]> m.

Definition insert_dir_error (path : string) (err : FsError) (m : MockFolderBackend) : MockFolderBackend :=
  <[path := Err err]> m.

(** The trait's own [create_folder] and [delete_folder] refuse. *)
#[export] Instance mock_folders : FolderBackend MockFolderBackend := {|
  list_contents path m :=
    (match m !! path with Some (Ok l) => Ok l | Some (Err e) => Err e | None => Err FsNotFound end, m);
  create_folder _ _ := throw FsInvalid;
  delete_folder _ := throw FsInvalid;
|}.

Record MockFileBackend : Type := mkMockFiles {
  mf_files : gmap N (list byte);
  mf_errors : gmap N FsError;
  mf_opens : N;
  mf_reads : N;
  mf_releases : N;
}.

Definition MockFileBackend_new : MockFileBackend := mkMockFiles ∅ ∅ 0 0 0.

Definition insert_file (file_id : N) (bytes : list byte) (m : MockFileBackend) : MockFileBackend :=
  mkMockFiles (<[file_id := bytes]> (mf_files m)) (mf_errors m) (mf_opens m) (mf_reads m) (mf_releases m).

Definition insert_file_error (file_id : N) (err : FsError) (m : MockFileBackend) : MockFileBackend :=
  mkMockFiles (mf_files m) (<[file_id := err]> (mf_errors m)) (mf_opens m) (mf_reads m) (mf_releases m).

(** The canned error of a file, else its content. *)
Definition mock_content (file_id : N) (m : MockFileBackend) : result (list byte) FsError :=
  match mf_errors m !! file_id with
  | Some err => Err err
  | None => ok_or (mf_files m !! file_id) FsNotFound
  end.

Definition mock_open (file_id : N) : ST MockFileBackend FsError FileHandle :=
  do! modify (λ m, mkMockFiles (mf_files m) (mf_errors m) (u64_wrapping_add (mf_opens m) 1) (mf_reads m) (mf_releases m)) in
  let! m := gets id in
  let! bytes := lift (mock_content file_id m) in
  ok (mkFileHandle file_id (len bytes) "mock" ("/mock/" +:+ pretty file_id) None).

Definition mock_read (handle : FileHandle) (offset n : N) : ST MockFileBackend FsError (list byte) :=
  do! modify (λ m, mkMockFiles (mf_files m) (mf_errors m) (mf_opens m) (u64_wrapping_add (mf_reads m) 1) (mf_releases m)) in
  let! m := gets id in
  let! bytes := lift (mock_content (fh_file_id handle) m) in
  if decide (len bytes <= offset)%N then ok []
  else
    let end_ := N.min (u64_saturating_add offset n) (len bytes) in
    ok (take (N.to_nat (end_ - offset)) (drop (N.to_nat offset) bytes)).

Definition mock_release (handle : FileHandle) : ST MockFileBackend FsError unit :=
  modify (λ m, mkMockFiles (mf_files m) (mf_errors m) (mf_opens m) (mf_reads m) (u64_wrapping_add (mf_releases m) 1)).

#[export] Instance mock_files : FileBackend MockFileBackend := {|
  be_open := mock_open;
  be_read := mock_read;
  be_release := mock_release;
|}.

(** * The mock keeps the contract of the trait *)

Section Laws.
Context (files : gmap N (list byte)) (errors : gmap N FsError)
  (Hlen : forall file_id bytes, files !! file_id = Some bytes -> (len bytes <= U64_MAX)%N).

Definition mock_serves (m : MockFileBackend) : Prop := mf_files m = files /\ mf_errors m = errors.

Definition mock_reliable (file_id : N) : Prop := is_Some (files !! file_id) /\ errors !! file_id = None.

#[export] Instance mock_files_laws :
  FileBackendLaws MockFileBackend (λ file_id, default [] (files !! file_id)) mock_serves mock_reliable.
Proof.
  split.
  - intros fid m [Ef Ee]. unfold be_open, mock_files, mock_open. do 6 wp_step. unfold mock_content, mock_reliable.
    simpl. rewrite Ef, Ee. destruct (errors !! fid), (files !! fid) as [b|] eqn:Hb; split; try done; by intros [[] ?].
  - done.
  - intros h off n m [Ef Ee]. unfold be_read, mock_files, mock_read. do 6 wp_step. unfold mock_content, mock_reliable.
    simpl. rewrite Ef, Ee.
    destruct (errors !! fh_file_id h), (files !! fh_file_id h) as [b|] eqn:Hb; try (split; [done|]; by intros [[] ?]).
    simpl. pose proof (Hlen _ _ Hb). case_decide as Hd; wp_step; (split; [done|]); [by rewrite sub_bytes_past|].
    unfold u64_saturating_add. rewrite <- (sub_bytes_min off (off + n)). unfold sub_bytes. do 2 f_equal. lia.
  - intros fid. destruct (files !! fid) as [b|] eqn:Hb; [by eapply Hlen|]. done.
Qed.
End Laws.
