(* ===== verification/FuseReads.v ===== *)
(** Reading through the FUSE adapter (crates/pcloud-fs/src/fuse_adapter.rs): the cached pages are
    pages of the remote files, so a read returns the bytes of the file; and the table of open
    handles, which keeps one backend handle per open inode. *)
From S2P Require Import Prelude Paths Bytes Clock StateError PathNorm Inodes MetadataCache FilePages WriteJournal Staging WritePath UploadMock FuseAdapter FuseMock.

Section Reads.
Context {D F L B : Type} `{FolderBackend D, FileBackend F, LruMapLaws L, FileUploadBackend B, JournalCodec, ProgressCodec}.
Context (content : N -> list byte) (serves : F -> Prop) (reliable : N -> Prop) `{!FileBackendLaws F content serves reliable}.

Abbreviation Adapter := (ProtoFuseAdapter D F L B).

Definition page_at (page_size : N) (key : PageKey) : list byte :=
  let start := (pk_page_index key * page_size)%N in
  sub_bytes start (start + page_size) (content (pk_file_id key)).

Abbreviation psize w := (page_size (opt_page_cache (ad_options w))).

(** The cached pages are pages of the files. *)
Record reads_ok (w : Adapter) : Prop := {
  ro_serves : serves (ad_files w);
  ro_pages : pages_ok (ad_pages w);
  ro_config : fp_config (ad_pages w) = normalise (opt_page_cache (ad_options w));
  ro_max : (max_resident (fp_config (ad_pages w)) < U64_MAX)%N;
  ro_content key bytes : (key, bytes) ∈ file_pages (ad_pages w) -> bytes = page_at (psize w) key;
}.

(** What a read leaves alone: everything but the file backend and the page cache. *)
Definition only_pages (w w' : Adapter) : Prop :=
  w' = set_pages (ad_pages w') (set_files (ad_files w') w).

#[export] Instance only_pages_refl : Reflexive only_pages.
Proof. by intros []. Qed.

#[export] Instance only_pages_trans : Transitive only_pages.
Proof. intros w1 w2 w3 E1 E2. unfold only_pages in *. rewrite E2, E1. by destruct w1. Qed.

Lemma page_put_get key bytes (c : FilePages L) :
  pages_ok c -> (max_resident (fp_config c) < U64_MAX)%N -> (len bytes <= max_resident (fp_config c))%N ->
  (pages_get key (pages_put key bytes c)).1 = Some bytes.
Proof.
  intros Hok Hmax Hfit. destruct (pages_put_spec key bytes c Hok Hmax) as (Hok' & Hc & Hp).
  destruct (pages_step_spec (pages_put key bytes c) (PagesGet key) Hok') as (_ & _ & Hr & _); [by rewrite Hc|].
  simpl in Hr, Hp. rewrite decide_False in Hp by lia.
  assert (page_of key (file_pages (pages_put key bytes c)) = Some bytes) as Hv.
  { apply page_of_Some; [apply lru_keys|]. rewrite Hp. apply elem_of_app. right. by left. }
  by rewrite Hr, Hv.
Qed.

(** A look-up does not change which pages are cached, an insertion adds its page alone. *)
Lemma pages_get_mem key e (c : FilePages L) :
  pages_ok c -> (max_resident (fp_config c) < U64_MAX)%N ->
  e ∈ file_pages (pages_get key c).2 -> e ∈ file_pages c.
Proof.
  intros Hok Hmax. destruct (pages_step_spec c (PagesGet key) Hok Hmax) as (_ & _ & _ & Hp). simpl in Hp.
  rewrite Hp. destruct (page_of key (file_pages c)) as [v|] eqn:Hv; [|done]. simpl.
  rewrite elem_of_app, elem_of_drop_key, list_elem_of_singleton. intros [[? _]| ->]; [done|].
  apply page_of_Some in Hv; [done|]. apply lru_keys.
Qed.

Lemma pages_put_mem key bytes e (c : FilePages L) :
  pages_ok c -> (max_resident (fp_config c) < U64_MAX)%N ->
  e ∈ file_pages (pages_put key bytes c) -> e = (key, bytes) \/ e ∈ file_pages c.
Proof.
  intros Hok Hmax. destruct (pages_put_spec key bytes c Hok Hmax) as (_ & _ & ->). simpl.
  case_decide; [by right|]. rewrite elem_of_app, list_elem_of_singleton. intros [He| ->]; [|by left].
  right. eapply elem_of_suffix in He; [|apply keep_young_suffix]. by apply elem_of_drop_key in He as [? _].
Qed.

Lemma get_step_ok key (w : Adapter) :
  reads_ok w ->
  let w' := set_pages (pages_get key (ad_pages w)).2 w in
  reads_ok w' /\ only_pages w w' /\
  forall b, (pages_get key (ad_pages w)).1 = Some b -> b = page_at (psize w) key.
Proof.
  intros [Hs Hp Hc Hm Hcon] w'. destruct (pages_step_spec (ad_pages w) (PagesGet key) Hp Hm) as (Hok & Hc' & Hr & _).
  simpl in Hok, Hc', Hr. split_and!.
  - split; simpl; try done; [by rewrite Hc'|by rewrite Hc'|].
    intros k b Hin. apply Hcon. by eapply pages_get_mem.
  - by destruct w.
  - intros b Hb. rewrite Hr in Hb. destruct (page_of key (file_pages (ad_pages w))) as [v|] eqn:Hv; [|done].
    simpl in Hb. simplify_eq. apply Hcon. apply page_of_Some in Hv; [done|]. apply lru_keys.
Qed.

Lemma put_step_ok key (w : Adapter) :
  reads_ok w ->
  let w' := set_pages (pages_put key (page_at (psize w) key) (ad_pages w)) w in
  reads_ok w' /\ only_pages w w'.
Proof.
  intros [Hs Hp Hc Hm Hcon] w'. destruct (pages_put_spec key (page_at (psize w) key) (ad_pages w) Hp Hm) as (Hok & Hc' & _).
  split; [|by destruct w]. split; simpl; try done; [by rewrite Hc'|by rewrite Hc'|].
  intros k b [[= -> ->]|Hin]%pages_put_mem; try done. by apply Hcon.
Qed.

Lemma page_at_fits w key : reads_ok w -> (len (page_at (psize w) key) <= max_resident (fp_config (ad_pages w)))%N.
Proof.
  intros Hok. rewrite (ro_config _ Hok). unfold page_at. rewrite sub_bytes_len. unfold normalise. simpl.
  repeat case_decide; lia.
Qed.

(** A step of the adapter that calls the file backend. *)
Lemma files_step_ok {T} (m : ST F FsError T) (w : Adapter) (Q : result T FsError -> F -> Prop) :
  reads_ok w -> wp m (λ r f, serves f /\ Q r f) (ad_files w) ->
  wp (on_files m) (λ r w', reads_ok w' /\ only_pages w w' /\ Q r (ad_files w')) w.
Proof.
  intros [Hs Hp Hc Hm Hcon] Hq. unfold on_files. apply wp_zoom. eapply wp_mono; [exact Hq|].
  intros r f [Hf HQ]. split_and!; [by split|by destruct w|done].
Qed.

(** Loading a page gives that page of the file, [None] when it is past the end. *)
Lemma load_page_spec handle index (w : Adapter) :
  reads_ok w ->
  let page := page_at (psize w) (mkPageKey (fh_file_id handle) index) in
  wp (load_page handle (psize w) index) (λ r w', reads_ok w' /\ only_pages w w' /\
    match r with
    | Ok (Some b) => b = page
    | Ok None => page = []
    | Err _ => ~ reliable (fh_file_id handle)
    end) w.
Proof.
  intros Hok page. unfold load_page. set (key := mkPageKey _ _) in *. apply wp_bind. unfold wp at 1.
  destruct (get_step_ok key w Hok) as (Hok1 & Hw1 & Hb). destruct (pages_get key (ad_pages w)) as [r p]. simpl in *.
  destruct r as [b|]; [apply wp_ok; split_and!; [done|done|by apply Hb]|].
  set (w1 := set_pages p w) in *. assert (psize w1 = psize w) as Ep by done.
  apply wp_bind. eapply wp_mono.
  { apply (files_step_ok _ w1 (λ r _, match r with Ok b => b = page | Err _ => ~ reliable (fh_file_id handle) end)); [done|].
    eapply wp_mono; [apply be_read_exact, Hok1|]. intros [b|e] f [Hf Hr]; (split; [done|]); [by rewrite Hr|done]. }
  intros [b|e] w2 (Hok2 & Hw2 & Hr); [|split_and!; [done|by etrans|done]]. subst b.
  assert (psize w2 = psize w) as Ep2 by (rewrite Hw2; by destruct w1).
  case_bool_decide; [apply wp_ok; split_and!; [done|by etrans|done]|].
  apply wp_bind, wp_modify.
  pose proof (put_step_ok key w2 Hok2) as Hput. rewrite Ep2 in Hput. fold page in Hput. destruct Hput as [Hok3 Hw3].
  set (w3 := set_pages _ w2) in *. apply wp_bind. unfold wp at 1.
  destruct (get_step_ok key w3 Hok3) as (Hok4 & Hw4 & _).
  assert ((pages_get key (ad_pages w3)).1 = Some page) as Hkept.
  { apply page_put_get; [apply Hok2|apply Hok2|]. pose proof (page_at_fits w2 key Hok2) as Hf. by rewrite Ep2 in Hf. }
  destruct (pages_get key (ad_pages w3)) as [r4 p4]. simpl in *. subst r4.
  apply wp_ok. split_and!; [done| |done]. etrans; [exact Hw1|]. etrans; [exact Hw2|]. by etrans.
Qed.

(** * The loop *)

Lemma page_at_slice ps fid cursor :
  (0 < ps)%N ->
  let index := (cursor / ps)%N in
  let page := page_at ps (mkPageKey fid index) in
  let off := (cursor - index * ps)%N in
  (index * ps <= cursor)%N /\ (off < ps)%N /\
  len page = (N.min ((index + 1) * ps) (len (content fid)) - index * ps)%N /\
  (forall k, (off + k <= ps)%N -> sub_bytes off (off + k) page = sub_bytes cursor (cursor + k) (content fid)).
Proof.
  intros Hps index page off. pose proof (N.mul_div_le cursor ps ltac:(lia)) as H1'.
  pose proof (N.mul_succ_div_gt cursor ps ltac:(lia)) as H2'. fold index in H1', H2'.
  assert (index * ps <= cursor)%N by nia. assert (cursor < index * ps + ps)%N by nia.
  split_and!; [done|unfold off; lia| |].
  - unfold page, page_at. simpl. rewrite sub_bytes_len. f_equal. f_equal. nia.
  - intros k Hk. unfold page, page_at, off. simpl. rewrite sub_bytes_sub by (unfold off in Hk; lia). f_equal; lia.
Qed.

Lemma read_pages_spec fuel handle cursor stop out (w : Adapter) :
  reads_ok w -> (0 < psize w)%N -> (cursor <= stop)%N -> (stop <= U64_MAX)%N -> N.to_nat (stop - cursor) < fuel ->
  wp (read_pages fuel handle (psize w) cursor stop out) (λ r w', reads_ok w' /\ only_pages w w' /\
    match r with
    | Ok o => o = Some (out ++ sub_bytes cursor stop (content (fh_file_id handle)))
    | Err _ => ~ reliable (fh_file_id handle)
    end) w.
Proof.
  revert cursor out w; induction fuel as [|fuel IH]; intros cursor out w Hok Hps Hcur Hmax Hf; [lia|].
  cbn [read_pages]. case_decide as Hlt.
  2:{ apply wp_ok. split_and!; [done..|]. replace stop with cursor by lia. by rewrite sub_bytes_empty, app_nil_r. }
  destruct (page_at_slice (psize w) (fh_file_id handle) cursor Hps) as (Hle & Hoff & Hlen & Hsub).
  set (index := (cursor / psize w)%N) in *. set (page := page_at _ _) in *. set (off := (cursor - index * psize w)%N) in *.
  set (c := content (fh_file_id handle)) in *.
  apply wp_bind. eapply wp_mono; [by apply load_page_spec|]. fold page.
  intros [[b|]|e] w1 (Hok1 & Hw1 & Hr); [| |done]; [subst b|].
  2:{ apply wp_ok. split_and!; [done..|]. assert (len page = 0)%N as Hz by (by rewrite Hr).
      rewrite sub_bytes_past by lia. by rewrite app_nil_r. }
  assert (psize w1 = psize w) as Ep by (rewrite Hw1; by destruct w).
  case_decide as Heof.
  { apply wp_ok. split_and!; [done..|]. rewrite sub_bytes_past by lia. by rewrite app_nil_r. }
  set (k := N.min (stop - cursor) (len page - off)).
  assert (take (N.to_nat k) (drop (N.to_nat off) page) = sub_bytes cursor (cursor + k) c) as Ek.
  { rewrite <- Hsub by lia. unfold sub_bytes. f_equal. lia. }
  cbv zeta. rewrite Ek. unfold u64_saturating_add. rewrite N.min_l by lia. case_decide as Hshort.
  - apply wp_ok. split_and!; [done..|]. do 2 f_equal.
    rewrite <- (sub_bytes_min cursor stop), <- (sub_bytes_min cursor (cursor + k)). f_equal. lia.
  - rewrite <- Ep. eapply wp_mono; [apply IH; rewrite ?Ep; done || lia|].
    intros r w2 (Hok2 & Hw2 & Hr). split_and!; [done|by etrans|]. destruct r as [o|]; [|done].
    rewrite Hr, <- (assoc_L (++)), sub_bytes_app by lia. done.
Qed.

Lemma fuse_read_spec handle ino shared offset n (w : Adapter) :
  reads_ok w -> (0 < psize w)%N -> (offset <= U64_MAX)%N ->
  ht_by_id (ad_handles w) !! handle = Some (mkHandleSlot ino (Server shared)) ->
  wp (fuse_read handle offset n) (λ r w', reads_ok w' /\ only_pages w w' /\
    match r with
    | Ok bytes => bytes = sub_bytes offset (offset + n) (content (fh_file_id shared))
    | Err _ => ~ reliable (fh_file_id shared)
    end) w.
Proof.
  intros Hok Hps Hoff Hslot. unfold fuse_read. case_decide as Hn.
  { apply wp_ok. split_and!; [done..|]. subst. by rewrite N.add_0_r, sub_bytes_empty. }
  apply wp_bind, wp_gets. rewrite Hslot. simpl. unfold read_server. apply wp_bind, wp_gets. cbv zeta.
  rewrite decide_False by lia. apply wp_bind. unfold errno. apply wp_map_err.
  eapply wp_mono; [apply read_pages_spec; try done; unfold u64_saturating_add; lia|].
  intros [o|e] w' (Hok' & Hw & Hr); [|done]. apply wp_ok. split_and!; [done..|]. subst o. simpl.
  unfold u64_saturating_add. rewrite <- (sub_bytes_min offset (offset + n)), <- sub_bytes_min.
  pose proof (content_len (FileBackendLaws:=FileBackendLaws0) (fh_file_id shared)). f_equal. lia.
Qed.

(** C16: A read through an open handle returns exactly the bytes of the remote file in the
    requested range, cut at the end of the file, whatever pages are cached and whatever was
    read, evicted or failed before; it fails only when the backend fails; and it changes nothing
    but the page cache, whose pages stay pages of the files.  The end of the range saturates: when
    offset and length add up to more than a [u64] the read succeeds with the bytes there are, although
    the documentation of the trait asks for [EINVAL]. *)
Theorem fuse_read_returns_the_file handle ino shared offset n (w : Adapter) :
  reads_ok w -> (0 < psize w)%N -> (offset <= U64_MAX)%N ->
  ht_by_id (ad_handles w) !! handle = Some (mkHandleSlot ino (Server shared)) ->
  wp (fuse_read handle offset n) (λ r w', reads_ok w' /\ only_pages w w' /\
    match r with
    | Ok bytes => bytes = sub_bytes offset (offset + n) (content (fh_file_id shared))
    | Err _ => ~ reliable (fh_file_id shared)
    end) w.
Proof. apply fuse_read_spec. Qed.

(** * What the directory side of the adapter leaves alone *)

Definition metadata_only (w w' : Adapter) : Prop :=
  ad_files w' = ad_files w /\ ad_pages w' = ad_pages w /\ ad_handles w' = ad_handles w /\
  ad_writer w' = ad_writer w /\ ad_options w' = ad_options w.

#[export] Instance metadata_only_preorder : PreOrder metadata_only.
Proof. split; [done|]. intros w1 w2 w3 (?&?&?&?&?) (?&?&?&?&?). split_and!; congruence. Qed.

Lemma metadata_zoom {T} (m : ST D FsError T) : respects metadata_only (on_folders (F:=F) (L:=L) (B:=B) m).
Proof. intros w. unfold on_folders, zoom. by destruct (m (ad_folders w)). Qed.

Lemma metadata_clock {X} : respects metadata_only (read_clock (X:=X) (D:=D) (F:=F) (L:=L) (B:=B)).
Proof. done. Qed.

Lemma metadata_lookup {X} p : respects metadata_only (cache_lookup (X:=X) (D:=D) (F:=F) (L:=L) (B:=B) p).
Proof.
  apply respects_bind; [apply _|apply metadata_clock|]. intros now w. by destruct (meta_get now p (ad_cache w)).
Qed.

Lemma metadata_inode p k : respects metadata_only (insert_inode (D:=D) (F:=F) (L:=L) (B:=B) p k).
Proof. intros w. unfold insert_inode. by destruct (insert_or_get p k (ad_inodes w)) as [[[]|] ?]. Qed.

Hint Resolve metadata_zoom metadata_clock metadata_lookup metadata_inode : respects.

Ltac metadata_auto := respects_auto; try (apply respects_modify; by intros w); try apply _.

Lemma metadata_put {X} p m : respects metadata_only (cache_put (X:=X) (D:=D) (F:=F) (L:=L) (B:=B) p m).
Proof. unfold cache_put. metadata_auto. Qed.

Lemma metadata_invalidate {X} p : respects metadata_only (invalidate_cache (X:=X) (D:=D) (F:=F) (L:=L) (B:=B) p).
Proof. unfold invalidate_cache. metadata_auto. Qed.

Hint Resolve metadata_put metadata_invalidate : respects.

Lemma metadata_entry path e : respects metadata_only (adopt_entry (D:=D) (F:=F) (L:=L) (B:=B) path e).
Proof. unfold adopt_entry. metadata_auto. Qed.

Hint Resolve metadata_entry : respects.

Lemma metadata_entries path es : respects metadata_only (adopt_entries (D:=D) (F:=F) (L:=L) (B:=B) path es).
Proof. induction es as [|e es IH]; simpl; metadata_auto. Qed.

Hint Resolve metadata_entries : respects.

Lemma metadata_fetch path : respects metadata_only (fetch_directory (D:=D) (F:=F) (L:=L) (B:=B) path).
Proof. unfold fetch_directory, list_directory. metadata_auto. Qed.

Hint Resolve metadata_fetch : respects.

Lemma metadata_file_id ino : respects metadata_only (resolve_file_id (D:=D) (F:=F) (L:=L) (B:=B) ino).
Proof. unfold resolve_file_id. metadata_auto. Qed.

(** * The table of open handles *)

(** One shared backend handle for each inode with an open server-backed slot. *)
Record handles_ok (t : HandleTable) : Prop := {
  hk_shared ino : is_Some (ht_by_ino t !! ino) <->
    exists id s, ht_by_id t !! id = Some s /\ hs_ino s = ino /\ is_server s = true;
  hk_same id ino h : ht_by_id t !! id = Some (mkHandleSlot ino (Server h)) -> ht_by_ino t !! ino = Some h;
  hk_next id : is_Some (ht_by_id t !! id) -> (id <= ht_next_id t)%N;
}.

Lemma add_slot_ok t slot :
  handles_ok t -> (ht_next_id t < U64_MAX)%N ->
  (forall h, hs_kind slot = Server h -> ht_by_ino t !! hs_ino slot = Some h) ->
  let '(id, t') := add_slot slot t in
  handles_ok t' /\ ht_by_id t !! id = None /\ ht_by_id t' !! id = Some slot /\ ht_by_ino t' = ht_by_ino t /\
  ht_next_id t' = (ht_next_id t + 1)%N.
Proof.
  intros [Hs Hsame Hn] Hnext Hslot. unfold add_slot, u64_checked_add. rewrite decide_True by lia. simpl.
  assert (ht_by_id t !! (ht_next_id t + 1)%N = None) as Hfresh.
  { apply eq_None_not_Some. intros Hi. specialize (Hn _ Hi). lia. }
  split_and!; [|done|apply lookup_insert_eq|done|done]. split; simpl.
  - intros ino. rewrite Hs. split.
    + intros (id & s & Hid & Hx). exists id, s. split; [|done]. rewrite lookup_insert_ne; [done|]. congruence.
    + intros (id & s & [[_ <-]|[_ Hid]]%lookup_insert_Some & Hi & Hx); [|by exists id, s].
      apply Hs. unfold is_server in Hx. destruct (hs_kind slot) as [h|] eqn:Hk; [|done].
      rewrite <- Hi. exists h. by apply Hslot.
  - intros id ino h [[_ ->]|[_ Hid]]%lookup_insert_Some; [by apply Hslot|]. by eapply Hsame.
  - intros id [s [[<- _]|[_ Hid]]%lookup_insert_Some]; [done|]. etrans; [by apply Hn; eexists|]. lia.
Qed.

(** The table with the shared handle of an inode in place, before its slot is added. *)
Lemma share_ok t ino h :
  handles_ok t -> ht_by_ino t !! ino = None ->
  let slot := mkHandleSlot ino (Server h) in
  (ht_next_id t < U64_MAX)%N ->
  let '(id, t') := add_slot slot (mkHandleTable (ht_by_id t) (<[ino := h]> (ht_by_ino t)) (ht_next_id t)) in
  handles_ok t' /\ ht_by_id t !! id = None /\ ht_by_id t' !! id = Some slot /\ ht_next_id t' = (ht_next_id t + 1)%N.
Proof.
  intros [Hs Hsame Hn] Hnone slot Hnext. unfold add_slot, u64_checked_add. simpl. rewrite decide_True by lia. simpl.
  assert (ht_by_id t !! (ht_next_id t + 1)%N = None) as Hfresh.
  { apply eq_None_not_Some. intros Hi. specialize (Hn _ Hi). lia. }
  split_and!; [|done|apply lookup_insert_eq|done]. split; simpl.
  - intros i. destruct (decide (ino = i)) as [<-|Hne].
    + rewrite lookup_insert_eq. split; [|by eexists]. intros _. exists (ht_next_id t + 1)%N, slot.
      by rewrite lookup_insert_eq.
    + rewrite lookup_insert_ne, Hs by done. split; intros (id & s & Hid & Hi & Hx).
      * exists id, s. split; [|done]. rewrite lookup_insert_ne; [done|]. congruence.
      * apply lookup_insert_Some in Hid as [[_ <-]|[_ Hid]]; [done|]. by exists id, s.
  - intros id i h' [[_ [= <- <-]]|[_ Hid]]%lookup_insert_Some; [apply lookup_insert_eq|].
    specialize (Hsame _ _ _ Hid). rewrite lookup_insert_ne; [done|]. congruence.
  - intros id [s [[<- _]|[_ Hid]]%lookup_insert_Some]; [done|]. etrans; [by apply Hn; eexists|]. lia.
Qed.

Lemma strong_count_more t ino :
  strong_count t ino <> 1 -> exists id s, ht_by_id t !! id = Some s /\ hs_ino s = ino /\ is_server s = true.
Proof.
  unfold strong_count. intros Hn.
  destruct (map_choose (filter (λ '(_, s), hs_ino s = ino /\ is_server s = true) (ht_by_id t))) as (id & s & Hid).
  - intros E. apply Hn. by rewrite E, map_size_empty.
  - apply map_lookup_filter_Some in Hid as [Hid [Hi Hx]]. by exists id, s.
Qed.

Lemma strong_count_one t ino :
  strong_count t ino = 1 <->
  ~ exists id s, ht_by_id t !! id = Some s /\ hs_ino s = ino /\ is_server s = true.
Proof.
  split.
  - unfold strong_count. intros [= Hsz] (id & s & Hid & Hx). apply map_size_empty_iff in Hsz.
    assert (filter (λ '(_, s), hs_ino s = ino /\ is_server s = true) (ht_by_id t) !! id = Some s) as Hin
      by (by apply map_lookup_filter_Some).
    by rewrite Hsz, lookup_empty in Hin.
  - intros Hn. destruct (decide (strong_count t ino = 1)) as [|Hm]; [done|]. by apply strong_count_more in Hm.
Qed.

Lemma reads_ok_metadata w w' : metadata_only w w' -> reads_ok w -> reads_ok w'.
Proof.
  intros (Ef & Ep & _ & _ & Eo) [Hs Hp Hc Hm Hcon]. split; rewrite ?Ef, ?Ep, ?Eo; done.
Qed.

Lemma reads_ok_handles w t : reads_ok w -> reads_ok (set_handles t w).
Proof. intros [Hs Hp Hc Hm Hcon]. by split. Qed.

Lemma reads_ok_release h (w : Adapter) : reads_ok w -> reads_ok (set_files (be_release h (ad_files w)).2 w).
Proof. intros [Hs Hp Hc Hm Hcon]. split; simpl; try done. by apply be_release_serves. Qed.

(** Releasing a handle keeps the invariant; the backend handle goes with the last of them. *)
Lemma fuse_release_ok handle slot (w : Adapter) :
  handles_ok (ad_handles w) -> ht_by_id (ad_handles w) !! handle = Some slot ->
  wp (fuse_release (H0:=H0) handle) (λ r w', r = Ok tt /\ handles_ok (ad_handles w') /\ (reads_ok w -> reads_ok w') /\
    ht_by_id (ad_handles w') = delete handle (ht_by_id (ad_handles w)) /\
    ht_next_id (ad_handles w') = ht_next_id (ad_handles w)) w.
Proof.
  intros [Hs Hsame Hn] Hslot. unfold fuse_release. apply wp_bind, wp_gets. rewrite Hslot. cbv zeta.
  set (t1 := mkHandleTable (delete handle (ht_by_id (ad_handles w))) _ _).
  assert (ht_by_id t1 = delete handle (ht_by_id (ad_handles w))) as E1 by done.
  assert (forall id i h, ht_by_id t1 !! id = Some (mkHandleSlot i (Server h)) -> ht_by_ino t1 !! i = Some h) as Hsame1.
  { intros id i h Hid. rewrite E1 in Hid. apply lookup_delete_Some in Hid as [_ Hid]. by eapply Hsame. }
  assert (forall id, is_Some (ht_by_id t1 !! id) -> (id <= ht_next_id t1)%N) as Hn1.
  { intros id [s Hid]. rewrite E1 in Hid. apply lookup_delete_Some in Hid as [_ Hid]. apply Hn. by exists s. }
  assert (forall ino, (exists id s, ht_by_id t1 !! id = Some s /\ hs_ino s = ino /\ is_server s = true) ->
    is_Some (ht_by_ino t1 !! ino)) as Hto.
  { intros ino (id & s & Hid & Hx). rewrite E1 in Hid. apply lookup_delete_Some in Hid as [_ Hid].
    apply Hs. by exists id, s. }
  assert (forall ino, hs_ino slot <> ino \/ is_server slot = false -> is_Some (ht_by_ino t1 !! ino) ->
    exists id s, ht_by_id t1 !! id = Some s /\ hs_ino s = ino /\ is_server s = true) as Hfrom.
  { intros ino Hne (id & s & Hid & Hi & Hx)%Hs. exists id, s. split; [|done]. rewrite E1. apply lookup_delete_Some.
    split; [|done]. intros <-. rewrite Hslot in Hid. simplify_eq. destruct Hne as [|E]; [done|congruence]. }
  apply wp_bind, wp_modify. destruct (is_server slot) eqn:Hsrv.
  2:{ apply wp_ok. split_and!; try done; [|apply reads_ok_handles]. split; [|done|done].
      intros ino. split; [apply Hfrom; by right|apply Hto]. }
  destruct (ht_by_ino t1 !! hs_ino slot) as [shared|] eqn:Hsh.
  2:{ exfalso. assert (is_Some (ht_by_ino t1 !! hs_ino slot)) as [? ?]; [|congruence]. apply Hs. by exists handle, slot. }
  case_decide as Hone.
  - apply wp_bind, wp_modify, wp_bind, wp_attempt. unfold on_files. apply wp_zoom.
    rewrite wp_run. apply wp_ok. split_and!; try done.
    2:{ intros Hro. apply (reads_ok_release shared), reads_ok_handles, reads_ok_handles, Hro. }
    apply strong_count_one in Hone. split; simpl; [| |done].
    + intros ino. destruct (decide (hs_ino slot = ino)) as [<-|Hne].
      * rewrite lookup_delete_eq. split; [by intros []|]. by intros ?%Hone.
      * rewrite lookup_delete_ne by done. split; [apply Hfrom; by left|apply Hto].
    + intros id ino h Hid. rewrite lookup_delete_ne; [by eapply Hsame1|]. intros <-. apply Hone.
      by exists id, (mkHandleSlot (hs_ino slot) (Server h)).
  - apply wp_ok. split_and!; try done; [|apply reads_ok_handles]. split; [|done|done]. intros ino. split; [|apply Hto].
    intros Hi. destruct (decide (hs_ino slot = ino)) as [<-|Hne]; [|apply Hfrom; [by left|done]].
    by apply strong_count_more.
Qed.

(** The shared handle of an inode: the table's, or a new one for this file id. *)
Lemma shared_handle_spec ino file_id (w : Adapter) :
  reads_ok w -> handles_ok (ad_handles w) -> (ht_next_id (ad_handles w) < U64_MAX)%N ->
  wp (shared_handle ino file_id) (λ r w', reads_ok w' /\
    match r with
    | Ok h =>
        (fh_file_id h = file_id \/ ht_by_ino (ad_handles w) !! ino = Some h) /\
        (let '(id, t') := add_slot (mkHandleSlot ino (Server h)) (ad_handles w') in
         handles_ok t' /\ ht_by_id (ad_handles w) !! id = None /\ ht_by_id t' !! id = Some (mkHandleSlot ino (Server h)) /\
         ht_next_id t' = (ht_next_id (ad_handles w) + 1)%N)
    | Err _ => ad_handles w' = ad_handles w
    end /\ ad_writer w' = ad_writer w /\ ad_options w' = ad_options w) w.
Proof.
  intros Hok Hh Hn. unfold shared_handle. apply wp_bind, wp_gets.
  destruct (ht_by_ino (ad_handles w) !! ino) as [existing|] eqn:Hex.
  - apply wp_ok. split_and!; try done; [by right|].
    pose proof (add_slot_ok (ad_handles w) (mkHandleSlot ino (Server existing)) Hh Hn) as Ha.
    destruct (add_slot _ _) as [id t']. destruct Ha as (? & ? & ? & _ & ?); [by intros h [= ->]|]. done.
  - apply wp_bind, wp_gets, wp_bind. eapply wp_mono.
    { apply (files_step_ok _ w (λ r _, match r with Ok h => fh_file_id h = file_id | Err _ => True end)); [done|].
      destruct (ad_file_sizes w !! ino) as [sz|].
      - unfold open_with_size. apply wp_bind. eapply wp_mono; [apply be_open_exact, Hok|].
        intros [h|e] f [Hf Hr]; [by apply wp_ok|done].
      - eapply wp_mono; [apply be_open_exact, Hok|]. intros [h|e] f [Hf Hr]; done. }
    intros [h|e] w1 (Hok1 & Hw1 & Hr).
    2:{ split_and!; [done|by rewrite Hw1|by rewrite Hw1; destruct w|by rewrite Hw1; destruct w]. }
    apply wp_bind, wp_modify, wp_ok. assert (ad_handles w1 = ad_handles w) as Et by (by rewrite Hw1; destruct w).
    split_and!; [by apply reads_ok_handles|by left| |by rewrite Hw1; destruct w|by rewrite Hw1; destruct w].
    change (ad_handles (set_handles ?t w1)) with t. rewrite Et. pose proof (share_ok (ad_handles w) ino h Hh Hex Hn) as Ha.
    destruct (add_slot _ _) as [id t']. destruct Ha as (? & ? & ? & ?). by split_and!.
Qed.

(** Opening an inode adds one slot under a new number, or fails and leaves the table as it was;
    an inode that is open for writing is served from its staging blob. *)
Lemma fuse_open_ok ino (w : Adapter) :
  reads_ok w -> handles_ok (ad_handles w) -> (ht_next_id (ad_handles w) < U64_MAX)%N ->
  wp (fuse_open ino) (λ r w', reads_ok w' /\ handles_ok (ad_handles w') /\
    ad_writer w' = ad_writer w /\ ad_options w' = ad_options w /\
    match r with
    | Ok id =>
        ht_by_id (ad_handles w) !! id = None /\ ht_next_id (ad_handles w') = (ht_next_id (ad_handles w) + 1)%N /\
        exists kind, ht_by_id (ad_handles w') !! id = Some (mkHandleSlot ino kind) /\
          (kind = Staged <-> writer_has_handle ino w = true)
    | Err _ => ad_handles w' = ad_handles w /\ writer_has_handle ino w = false
    end) w.
Proof.
  intros Hok Hh Hn. unfold fuse_open. apply wp_bind, wp_gets. destruct (writer_has_handle ino w) eqn:Hw.
  - unfold wp, new_slot. pose proof (add_slot_ok (ad_handles w) (mkHandleSlot ino Staged) Hh Hn) as Ha.
    destruct (add_slot _ _) as [id t']. destruct Ha as (H1' & H2' & H3' & _ & H5'); [done|].
    split_and!; simpl; try done; [by apply reads_ok_handles|]. by exists Staged.
  - apply wp_bind. unfold errno. apply wp_map_err.
    eapply wp_mono; [exact (respects_wp metadata_only _ w (metadata_file_id ino))|].
    intros [fid|e] w1 Hmeta; pose proof (reads_ok_metadata _ _ Hmeta Hok) as Hok1;
      destruct Hmeta as (_ & _ & Et & Ew & Eo); [|by rewrite Et].
    apply wp_bind, wp_map_err. eapply wp_mono; [apply shared_handle_spec; by rewrite ?Et|].
    intros [h|e] w2 (Hok2 & Hr & Ew2 & Eo2); [|by rewrite Hr, Et, Ew2, Eo2].
    destruct Hr as [_ Hr]. unfold wp, new_slot. destruct (add_slot _ _) as [id t'].
    destruct Hr as (H1' & H2' & H3' & H4'). rewrite Et in *. split_and!; simpl; try done; try congruence.
    + by apply reads_ok_handles.
    + exists (Server h). split; [done|]. by split; [|congruence].
Qed.

(** A fresh adapter. *)
Lemma fresh_reads_ok folders files o now laps :
  serves files -> (max_resident (normalise (opt_page_cache o)) < U64_MAX)%N ->
  reads_ok (with_file_backend (D:=D) (B:=B) folders files o now laps).
Proof.
  intros Hs Hm. destruct (pages_new_ok (L:=L) (opt_page_cache o)) as [Hok Hp].
  split; simpl; try done. intros key bytes Hin. rewrite Hp in Hin. by apply not_elem_of_nil in Hin.
Qed.

Lemma fresh_handles_ok : handles_ok (mkHandleTable ∅ ∅ 0).
Proof.
  split; simpl.
  - intros ino. rewrite lookup_empty. split; [by intros []|]. intros (id & s & Hid & _). by rewrite lookup_empty in Hid.
  - intros id ino h Hid. by rewrite lookup_empty in Hid.
  - intros id [s Hid]. by rewrite lookup_empty in Hid.
Qed.

Lemma metadata_readdir ino offset : respects metadata_only (fuse_readdir (D:=D) (F:=F) (L:=L) (B:=B) ino offset).
Proof. unfold fuse_readdir, path_from_ino, errno. metadata_auto. Qed.

(** * Sequences of opens and releases *)

Inductive handle_call : Type :=
| OpenIno (ino : N)
| ReleaseHandle (handle : N).

Definition handle_step (w : Adapter) (c : handle_call) : Adapter :=
  match c with OpenIno ino => (fuse_open ino w).2 | ReleaseHandle h => (fuse_release h w).2 end.

(** Over any opens and releases there is exactly one shared backend handle for each inode
    that has a server-backed file handle open, and it is the handle in all of them; so once the
    last is released none is left, and the numbers of live handles are never given out again. *)
Theorem open_handles_are_shared (calls : list handle_call) (w : Adapter) :
  reads_ok w -> handles_ok (ad_handles w) -> (ht_next_id (ad_handles w) + len calls <= U64_MAX)%N ->
  let w' := foldl handle_step w calls in
  handles_ok (ad_handles w') /\ reads_ok w' /\
  (ht_by_id (ad_handles w') = ∅ -> ht_by_ino (ad_handles w') = ∅).
Proof.
  intros Hok Hh Hn. simpl.
  enough (handles_ok (ad_handles (foldl handle_step w calls)) /\ reads_ok (foldl handle_step w calls)) as [Hh' Hok'].
  { split_and!; [done..|]. intros E. apply map_empty. intros ino. apply eq_None_not_Some.
    intros (id & s & Hid & _)%(hk_shared _ Hh'). by rewrite E, lookup_empty in Hid. }
  revert w Hok Hh Hn. induction calls as [|c calls IH]; intros w Hok Hh Hn; [done|]. rewrite len_cons in Hn. simpl.
  destruct c as [ino|h]; simpl.
  - pose proof (fuse_open_ok ino w Hok Hh ltac:(lia)) as Ho. rewrite wp_run in Ho.
    destruct Ho as (Hok1 & Hh1 & _ & _ & Hr). apply IH; [done|done|].
    destruct (fuse_open ino w).1; [destruct Hr as (_ & -> & _)|destruct Hr as [-> _]]; lia.
  - destruct (ht_by_id (ad_handles w) !! h) as [slot|] eqn:Hslot.
    + pose proof (fuse_release_ok h slot w Hh Hslot) as Hr. rewrite wp_run in Hr.
      destruct Hr as (_ & Hh1 & Hok1 & _ & Hn1). apply IH; [by apply Hok1|done|rewrite Hn1; lia].
    + assert ((fuse_release h w).2 = w) as -> by (unfold fuse_release, bind, gets; simpl; by rewrite Hslot).
      apply IH; done || lia.
Qed.
End Reads.

(** * A concrete adapter *)

(** Two files in the root folder, pages of four bytes, two of them kept. *)
Definition example_files : MockFileBackend :=
  insert_file 100 (chars "hello, world") (insert_file 101 (chars "abc") MockFileBackend_new).
Definition example_folders : MockFolderBackend :=
  insert_dir_with_sizes "/" [("data", false, Some 100%N, Some 12%N); ("note", false, Some 101%N, None)] ∅.
Definition example_options : AdapterOptions :=
  mkAdapterOptions 0 0 420 493 MetadataCacheConfig_default (mkPageCacheConfig 4 8).
Definition example_adapter : ProtoFuseAdapter MockFolderBackend MockFileBackend lru_list MockUploadBackend :=
  with_file_backend example_folders example_files example_options 0 [].

#[local] Existing Instance binary_journal.
#[local] Existing Instance binary_progress.

(** The adapter after the kernel listed the root, and after it opened "data". *)
Definition listed_adapter := (fuse_readdir 1 0 example_adapter).2.
Definition opened_adapter := (fuse_open 2 listed_adapter).2.

Lemma example_laws :
  FileBackendLaws MockFileBackend (λ file_id, default [] (mf_files example_files !! file_id))
    (mock_serves (mf_files example_files) ∅) (mock_reliable (mf_files example_files) ∅).
Proof.
  apply mock_files_laws. intros fid b Hb. unfold example_files, insert_file in Hb. simpl in Hb.
  apply lookup_insert_Some in Hb as [[_ <-]|[_ Hb]]; [done|].
  apply lookup_insert_Some in Hb as [[_ <-]|[_ Hb]]; [done|]. by rewrite lookup_empty in Hb.
Qed.

Lemma listed_example_ok :
  reads_ok (λ file_id, default [] (mf_files example_files !! file_id)) (mock_serves (mf_files example_files) ∅)
    listed_adapter /\ ad_handles listed_adapter = mkHandleTable ∅ ∅ 0.
Proof.
  pose proof example_laws. unfold listed_adapter.
  pose proof (metadata_readdir 1 0 example_adapter) as Hm. set (w1 := (fuse_readdir 1 0 example_adapter).2) in *.
  clearbody w1. split; [|by destruct Hm as (_ & _ & -> & _)].
  eapply reads_ok_metadata; [exact Hm|]. by apply fresh_reads_ok.
Qed.

Lemma opened_example_ok :
  reads_ok (λ file_id, default [] (mf_files example_files !! file_id)) (mock_serves (mf_files example_files) ∅)
    opened_adapter /\ handles_ok (ad_handles opened_adapter).
Proof.
  pose proof example_laws. destruct listed_example_ok as [Hok Et]. unfold opened_adapter.
  set (w1 := listed_adapter) in *. clearbody w1.
  pose proof (fuse_open_ok _ _ (mock_reliable (mf_files example_files) ∅) 2 w1 Hok) as Ho.
  rewrite wp_run, Et in Ho. by destruct Ho as (? & ? & _); [apply fresh_handles_ok|done|].
Qed.

Lemma fuse_read_returns_the_file_witness :
  (fuse_read 1 3 6 opened_adapter).1 = Ok (chars "lo, wo").
Proof.
  pose proof example_laws as Hl.
  pose proof (fuse_read_returns_the_file _ _ (mock_reliable (mf_files example_files) ∅) 1 2
    (mkFileHandle 100 12 "mock" "/mock/100" None) 3 6 opened_adapter (proj1 opened_example_ok)) as Hr.
  rewrite wp_run in Hr. destruct Hr as (_ & _ & Hr); [by vm_compute..|].
  destruct (fuse_read 1 3 6 opened_adapter).1 as [bytes|e]; [rewrite Hr; by vm_compute|].
  exfalso. apply Hr. split; [by eexists|done].
Defined.

Lemma open_handles_are_shared_witness :
  let w := foldl handle_step opened_adapter [OpenIno 2; ReleaseHandle 1; ReleaseHandle 2] in
  mf_opens (ad_files w) = 1%N /\ mf_releases (ad_files w) = 1%N /\ ht_by_ino (ad_handles w) = ∅.
Proof.
  pose proof example_laws as Hl. destruct opened_example_ok as [Hok Hh].
  destruct (open_handles_are_shared _ _ (mock_reliable (mf_files example_files) ∅)
    [OpenIno 2; ReleaseHandle 1; ReleaseHandle 2] opened_adapter Hok Hh) as (_ & _ & He); [by vm_compute|].
  split_and!; [by vm_compute|by vm_compute|]. apply He. by vm_compute.
Defined.
