(* ===== verification/FuseShim.v ===== *)
(** The kernel-facing filesystem: crates/pcloud-fs/src/fuser_shim.rs.

    [PcloudFsShim] decodes the requests of the fuser crate, keeps the table of kernel file
    handles and calls the adapter and the write path.  The adapter's write delegate is the shim's
    own service (crates/pcloud-daemon/src/mount_runtime.rs wires both to one), so the model hands
    the service to the adapter for the time of a call.  A reply is the result of the method: the
    errno, or what the kernel is told.  A name is [None] when it is not UTF-8; the wall clock is
    an argument. *)
From S2P Require Import Prelude Paths Bytes Clock StateError PathNorm Inodes MetadataCache FilePages WriteJournal Staging WritePath FuseAdapter.

(** * Attributes *)

Inductive FileType : Type := FtDirectory | FtRegularFile | FtSymlink.

Definition map_kind (kind : FsEntryKind) : FileType :=
  match kind with Directory => FtDirectory | RegularFile => FtRegularFile | Symlink => FtSymlink end.

(** Times in seconds of the epoch. *)
Record FileAttr : Type := mkFileAttr {
  fa_ino : N;
  fa_size : N;
  fa_blocks : N;
  fa_mtime : N;
  fa_kind : FileType;
  fa_perm : N;
  fa_nlink : N;
  fa_uid : N;
  fa_gid : N;
  fa_blksize : N;
}.

Definition file_attr_from (now : N) (entry : EntryAttr) : FileAttr :=
  mkFileAttr (attr_ino entry) (attr_size entry) ((attr_size entry + 511) / 512) (default now (attr_mtime_epoch entry))
    (map_kind (attr_kind entry)) (attr_mode entry) 1 (attr_uid entry) (attr_gid entry) 4096.

(** * Directory replies *)

Record DirReply : Type := mkDirReply {
  dr_ino : N;
  dr_offset : Z;
  dr_kind : FileType;
  dr_name : string;
}.

(** [ReplyDirectory::add]: [true] when the entry does not fit the buffer, which is then left as
    it was; [fits] is the rule of the fuser crate. *)
Definition reply_add (fits : list DirReply -> DirReply -> bool) (e : DirReply) (buffer : list DirReply)
    : bool * list DirReply :=
  if fits buffer e then (false, buffer ++ [e]) else (true, buffer).

(** The loop over the entries of the listing. *)
Fixpoint add_entries (fits : list DirReply -> DirReply -> bool) (entries : list DirEntry) (next_off : Z)
    (buffer : list DirReply) : list DirReply :=
  match entries with
  | [] => buffer
  | entry :: entries' =>
      let '(full, buffer) :=
        reply_add fits (mkDirReply (de_ino entry) next_off (map_kind (de_kind entry)) (de_name entry)) buffer in
      if full then buffer else add_entries fits entries' (next_off + 1) buffer
  end.

(** The body of [readdir] after the adapter's listing. *)
Definition fill_reply (fits : list DirReply -> DirReply -> bool) (ino parent : N) (offset : Z)
    (entries : list DirEntry) : list DirReply :=
  let next_off := (offset + 1)%Z in
  if decide (offset = 0%Z) then
    let '(full, buffer) := reply_add fits (mkDirReply ino next_off FtDirectory ".") [] in
    if full then buffer
    else
      let '(full, buffer) := reply_add fits (mkDirReply parent (next_off + 1) FtDirectory "..") buffer in
      if full then buffer else add_entries fits entries (next_off + 2) buffer
  else add_entries fits entries next_off [].

(** * The table of kernel file handles *)

Record FhEntry : Type := mkFhEntry {
  fhe_ino : N;
  fhe_read_handle : option N;
  fhe_write_open : bool;
}.

Record FhTable : Type := mkFhTable {
  fht_entries : gmap N FhEntry;
  fht_next : N;
}.

(** [next.fetch_add(1).wrapping_add(1)], once more when that is 0. *)
Definition fh_allocate (e : FhEntry) (t : FhTable) : N * FhTable :=
  let id := u64_wrapping_add (fht_next t) 1 in
  if decide (id = 0%N) then
    let id' := u64_wrapping_add id 1 in (id', mkFhTable (<[id' := e]> (fht_entries t)) id')
  else (id, mkFhTable (<[id := e]> (fht_entries t)) id).

Definition fh_remove (fh : N) (t : FhTable) : option FhEntry * FhTable :=
  (fht_entries t !! fh, mkFhTable (delete fh (fht_entries t)) (fht_next t)).

(** * State *)

Record PcloudFsShim (D F L B : Type) : Type := mkShim {
  sh_adapter : ProtoFuseAdapter D F L B;
  sh_writer : Service B;
  sh_fhs : FhTable;
}.
Arguments mkShim {D F L B}.
Arguments sh_adapter {D F L B}. Arguments sh_writer {D F L B}. Arguments sh_fhs {D F L B}.

Definition PcloudFsShim_new {D F L B} (adapter : ProtoFuseAdapter D F L B) (writer : Service B)
    : PcloudFsShim D F L B :=
  mkShim adapter writer (mkFhTable ∅ 0).

Definition CHUNK : N := 1024 * 1024.

(** [join_child] of the shim. *)
Definition shim_child (parent : string) (name : option string) : option string :=
  match name with
  | None => None
  | Some n => if bad_name n then None else Some (join_path parent n)
  end.

(** [&path[..slash]], the root for a slash in front. *)
Definition shim_parent (path : string) : option string :=
  (λ slash_at, if bool_decide (slash_at = 0) then "/"%string else str (take slash_at (chars path))) <$> rfind slash (chars path).

Definition parent_ino_of (t : InodeTableInner) (ino : N) : option N :=
  match (λ x, x.1.1) <$> resolve t ino with
  | None => None
  | Some path => if bool_decide (path = "/"%string) then Some ino else shim_parent path ≫= ino_for_path t
  end.

Definition O_ACCMODE : Z := 3.
Definition O_WRONLY : Z := 1.
Definition O_RDWR : Z := 2.
Definition O_APPEND : Z := 1024.
Definition O_TRUNC : Z := 512.

Definition want_write (flags : Z) : bool :=
  let acc := Z.land flags O_ACCMODE in bool_decide (acc = O_WRONLY) || bool_decide (acc = O_RDWR).

Section Shim.
Context {D F L B : Type} `{FolderBackend D, FileBackend F, LruMap L, FileUploadBackend B, JournalCodec, ProgressCodec}.
Context (wo : WritePathOptions).

Abbreviation Adapter := (ProtoFuseAdapter D F L B).
Abbreviation Shim := (PcloudFsShim D F L B).
Abbreviation M := (ST Shim Z).

(** The adapter with the shim's writer behind its delegate. *)
Definition shared_adapter (s : Shim) : Adapter := set_writer (Some (sh_writer s)) (sh_adapter s).

Definition on_adapter {T} (m : ST Adapter Z T) : M T := λ s,
  let '(r, a) := m (shared_adapter s) in (r, mkShim a (default (sh_writer s) (ad_writer a)) (sh_fhs s)).

Definition on_writer {T} (m : ST (Service B) WritePathError T) : M T :=
  map_err wp_to_errno (zoom sh_writer (λ v s, mkShim (sh_adapter s) v (sh_fhs s)) m).

Definition shim_inodes (s : Shim) : InodeTableInner := ad_inodes (sh_adapter s).

Definition path_for (ino : N) (s : Shim) : option string := resolve_path ino (sh_adapter s).

Definition allocate (e : FhEntry) : M N := λ s,
  let '(fh, t) := fh_allocate e (sh_fhs s) in (Ok fh, mkShim (sh_adapter s) (sh_writer s) t).

Definition get_snapshot (fh : N) (s : Shim) : option FhEntry := fht_entries (sh_fhs s) !! fh.

(** [let Some(path) = self.path_for(ino) else { reply.error(ENOENT); return; };] *)
Definition require_path (ino : N) : M string := let! p := gets (path_for ino) in lift (ok_or p ENOENT).

(** A turn of the loop reads a whole chunk or is the last one, so [len / CHUNK + 2] turns are
    enough ([read_whole_file_spec]); [None] never happens then. *)
Fixpoint read_whole_file (fuel : nat) (handle offset : N) (out : list byte) : M (option (list byte)) :=
  match fuel with
  | 0 => ok None
  | S fuel' =>
      let! bytes := on_adapter (fuse_read handle offset CHUNK) in
      if bool_decide (bytes = []) then ok (Some out)
      else
        let out := out ++ bytes in
        if decide (len bytes < CHUNK)%N then ok (Some out)
        else read_whole_file fuel' handle (u64_saturating_add offset (len bytes)) out
  end.

(** * Requests *)

(** A failed replay is logged and the mount goes on. *)
Definition sh_init : M unit := let! _ := attempt (on_writer replay_journal) in ok tt.

Definition sh_lookup (now parent : N) (name : option string) : M FileAttr :=
  match name with
  | None => throw EINVAL
  | Some name => let! attr := on_adapter (fuse_lookup parent name) in ok (file_attr_from now attr)
  end.

Definition sh_getattr (now ino : N) : M FileAttr :=
  let! attr := on_adapter (fuse_getattr ino) in ok (file_attr_from now attr).

Definition sh_readdir (fits : list DirReply -> DirReply -> bool) (ino : N) (offset : Z) : M (list DirReply) :=
  let! entries := on_adapter (fuse_readdir ino offset) in
  let! t := gets shim_inodes in
  ok (fill_reply fits ino (default ino (parent_ino_of t ino)) offset entries).

(** The bytes the staging blob is seeded with. *)
Definition existing_bytes (fuel : nat) (trunc : bool) (read_handle : option N) : M (list byte) :=
  if trunc then ok []
  else
    match read_handle with
    | None => ok []
    | Some rh => let! b := read_whole_file fuel rh 0 [] in lift (ok_or b EIO)
    end.

Definition sh_open (fuel : nat) (ino : N) (flags : Z) : M N :=
  let append_mode := bool_decide (Z.land flags O_APPEND ≠ 0%Z) in
  let trunc := bool_decide (Z.land flags O_TRUNC ≠ 0%Z) in
  let! opened := attempt (on_adapter (fuse_open ino)) in
  let! read_handle := match opened with
                      | Ok h => ok (Some h)
                      | Err errno => if want_write flags then ok None else throw errno
                      end in
  if want_write flags then
    let! existing := existing_bytes fuel trunc read_handle in
    let! path := require_path ino in
    do! on_writer (seed_blob ino existing) in
    do! on_writer (open_for_write ino path append_mode trunc) in
    allocate (mkFhEntry ino read_handle true)
  else allocate (mkFhEntry ino read_handle false).

Definition sh_read (fh : N) (offset : Z) (size : N) : M (list byte) :=
  let! snapshot := gets (get_snapshot fh) in
  match snapshot ≫= fhe_read_handle with
  | None => throw EBADF
  | Some read_h => on_adapter (fuse_read read_h (Z.to_N (Z.max offset 0)) size)
  end.

Definition sh_release (ino fh : N) : M unit :=
  let! snapshot := gets (get_snapshot fh) in
  match snapshot with
  | None => throw EBADF
  | Some entry =>
      do! modify (λ s, mkShim (sh_adapter s) (sh_writer s) (fh_remove fh (sh_fhs s)).2) in
      do! match fhe_read_handle entry with
          | Some h => let! _ := attempt (on_adapter (fuse_release h)) in ok tt
          | None => ok tt
          end in
      if fhe_write_open entry then
        do! on_writer (release wo ino) in
        let! p := gets (path_for ino) in
        match p with
        | None => ok tt
        | Some path =>
            match shim_parent path with
            | None => ok tt
            | Some parent => do! on_adapter (invalidate_cache parent) in on_adapter (invalidate_cache path)
            end
        end
      else ok tt
  end.

Definition sh_create (now parent : N) (name : option string) : M (FileAttr * N) :=
  let! parent_path := require_path parent in
  let! full_path := lift (ok_or (shim_child parent_path name) EINVAL) in
  let! ino := on_adapter (errno (insert_inode full_path RegularFile)) in
  let name_str := default EmptyString name in
  do! on_writer (create ino parent_path name_str) in
  let! o := gets (λ s, ad_options (sh_adapter s)) in
  let attr := build_attr o ino RegularFile 0 in
  do! on_adapter (publish_local_entry parent_path name_str attr) in
  let! fh := allocate (mkFhEntry ino None true) in
  ok (file_attr_from now attr, fh).

(** [now] is [None] when the wall clock is before the epoch. *)
Definition sh_write (now : option N) (ino fh : N) (offset : Z) (data : list byte) : M N :=
  let! snapshot := gets (get_snapshot fh) in
  match snapshot with
  | None => throw EBADF
  | Some _ =>
      let off := Z.to_N (Z.max offset 0) in
      let! n := on_writer (write wo ino off data) in
      do! on_adapter (publish_local_size ino (off + n)%N now) in
      ok n
  end.

Definition sh_flush (ino fh : N) : M unit :=
  let! snapshot := gets (get_snapshot fh) in
  match snapshot with
  | Some (mkFhEntry _ _ true) => on_writer (flush wo ino)
  | _ => ok tt
  end.

Definition sh_fsync (ino : N) : M unit := on_writer (fsync wo ino).

Definition sh_setattr (now ino : N) (size : option N) : M FileAttr :=
  do! match size with
      | Some new_size => on_writer (truncate ino new_size)
      | None => ok tt
      end in
  let! attr := on_adapter (fuse_getattr ino) in
  let sized := mkEntryAttr (attr_ino attr) (attr_kind attr) (default (attr_size attr) size) (attr_mode attr)
                 (attr_uid attr) (attr_gid attr) (attr_mtime_epoch attr) (attr_mtime_nsec attr) in
  ok (file_attr_from now sized).

Definition sh_mkdir (now parent : N) (name : option string) : M FileAttr :=
  let! parent_path := require_path parent in
  match name with
  | None => throw EINVAL
  | Some name_str =>
      if bad_name name_str then throw EINVAL
      else let! attr := on_adapter (fuse_mkdir parent_path name_str) in ok (file_attr_from now attr)
  end.

Definition sh_rmdir (parent : N) (name : option string) : M unit :=
  let! parent_path := require_path parent in
  let! full := lift (ok_or (shim_child parent_path name) EINVAL) in
  on_adapter (fuse_rmdir full).

Definition sh_unlink (parent : N) (name : option string) : M unit :=
  let! parent_path := require_path parent in
  let! full := lift (ok_or (shim_child parent_path name) EINVAL) in
  let! t := gets shim_inodes in
  do! on_writer (unlink (ino_for_path t full) full) in
  do! on_adapter (invalidate_inode_path full) in
  on_adapter (forget_local_entry parent_path (default EmptyString name)).

Definition sh_rename (parent : N) (name : option string) (newparent : N) (newname : option string) : M unit :=
  let! from_parent := require_path parent in
  let! to_parent := require_path newparent in
  let! from := lift (ok_or (shim_child from_parent name) EINVAL) in
  let! to := lift (ok_or (shim_child to_parent newname) EINVAL) in
  do! on_writer (rename from to) in
  do! on_adapter (forget_local_entry from_parent (default EmptyString name)) in
  let! cached := on_adapter (cached_attr from) in
  match cached with
  | None => ok tt
  | Some attr =>
      let! t := gets shim_inodes in
      let moved := mkEntryAttr (default (attr_ino attr) (ino_for_path t to)) (attr_kind attr) (attr_size attr)
                     (attr_mode attr) (attr_uid attr) (attr_gid attr) (attr_mtime_epoch attr) (attr_mtime_nsec attr) in
      on_adapter (publish_local_entry to_parent (default EmptyString newname) moved)
  end.
End Shim.
