(* ===== verification/ShimListing.v ===== *)
(** Listing a directory through the kernel (readdir of crates/pcloud-fs/src/fuser_shim.rs): the
    kernel asks again with the offset of the last entry it got until a reply is empty. *)
From S2P Require Import Prelude Paths Bytes Clock StateError PathNorm Inodes MetadataCache FilePages WriteJournal Staging WritePath FuseAdapter FuseShim.

Section Listing.
Context (fits : list DirReply -> DirReply -> bool) (ino parent : N).

(** The requests of one listing of a directory with these children, which do not change
    meanwhile; a reply with no entry ends it. *)
Fixpoint list_all (fuel : nat) (children : list DirEntry) (offset : Z) : list DirReply :=
  match fuel with
  | 0 => []
  | S fuel' =>
      let page := fill_reply fits ino parent offset (drop (Z.to_nat offset) children) in
      match last page with
      | None => []
      | Some e => page ++ list_all fuel' children (dr_offset e)
      end
  end.

(** The entries of a reply, numbered from [off]. *)
Fixpoint numbered (off : Z) (es : list DirEntry) : list DirReply :=
  match es with
  | [] => []
  | e :: es' => mkDirReply (de_ino e) off (map_kind (de_kind e)) (de_name e) :: numbered (off + 1) es'
  end.

Lemma numbered_names off es : dr_name <$> numbered off es = de_name <$> es.
Proof. revert off; induction es as [|e es IH]; intros off; [done|]. csimpl. by rewrite IH. Qed.

Lemma numbered_last off e es : exists r, last (numbered off (e :: es)) = Some r /\ dr_offset r = (off + Z.of_nat (length es))%Z.
Proof.
  revert off e; induction es as [|e' es IH]; intros off e; [eexists; split; [done|simpl; lia]|].
  destruct (IH (off + 1)%Z e') as (r & Hr & Ho). exists r. split; [exact Hr|]. simpl length. lia.
Qed.

(** A reply takes a prefix of the entries. *)
Lemma add_entries_prefix es off buffer :
  exists k, k <= length es /\ add_entries fits es off buffer = buffer ++ numbered off (take k es) /\
    (buffer = [] -> es <> [] -> (forall e, fits [] e = true) -> 0 < k).
Proof.
  revert off buffer; induction es as [|e es IH]; intros off buffer.
  { exists 0. split_and!; [done|by rewrite app_nil_r|done]. }
  simpl. unfold reply_add. destruct (fits buffer _) eqn:Hf.
  - destruct (IH (off + 1)%Z (buffer ++ [mkDirReply (de_ino e) off (map_kind (de_kind e)) (de_name e)])) as (k & Hk & E & _).
    exists (S k). split_and!; [lia| |lia]. rewrite E, <- (assoc_L (++)). done.
  - exists 0. split_and!; [lia|by rewrite app_nil_r|]. intros -> _ Hfits. by rewrite Hfits in Hf.
Qed.

Context (Hfits : forall e, fits [] e = true).

(** After the first request the listing gives every child from the offset on. *)
Lemma list_rest fuel children offset :
  (0 < offset)%Z -> length children - Z.to_nat offset < fuel ->
  dr_name <$> list_all fuel children offset = de_name <$> drop (Z.to_nat offset) children.
Proof.
  revert offset; induction fuel as [|fuel IH]; intros offset Hpos Hf; [lia|]. simpl. unfold fill_reply.
  rewrite decide_False by lia. set (rest := drop (Z.to_nat offset) children).
  destruct (add_entries_prefix rest (offset + 1) []) as (k & Hk & -> & Hprog). rewrite app_nil_l.
  assert (length rest = length children - Z.to_nat offset) as Hlen by apply length_drop.
  destruct rest as [|e rest'] eqn:Hrest; [by rewrite take_nil|].
  assert (0 < k) as Hk0 by (by apply Hprog). destruct k as [|k]; [lia|]. rewrite <- Hrest in *.
  assert (take (S k) rest = e :: take k rest') as Et by (by rewrite Hrest). rewrite Et.
  destruct (numbered_last (offset + 1) e (take k rest')) as (r & -> & Ho). rewrite <- Et, fmap_app, numbered_names.
  assert (dr_offset r = offset + Z.of_nat (S k))%Z as ->.
  { rewrite Ho, length_take. rewrite Hrest in Hk. simpl in Hk. lia. }
  rewrite IH by lia. unfold rest. rewrite <- fmap_app. f_equal.
  replace (Z.to_nat (offset + Z.of_nat (S k))) with (Z.to_nat offset + S k) by lia.
  rewrite <- drop_drop. apply take_drop.
Qed.

(** A listing that needs a second request loses two entries.  The offsets of a reply count the
    entries "." and "..", but the adapter takes the offset it is asked for as an index into the
    children: when the first reply holds [n] entries, of which [n - 2] are children, the next
    request continues at child [n], and the two in between are never listed. *)
Theorem continued_listing_skips_two fuel children :
  length children < fuel ->
  let first := fill_reply fits ino parent 0 children in
  2 <= length first ->
  dr_name <$> list_all (S fuel) children 0 =
    [".";".."]%string ++ (de_name <$> take (length first - 2) children) ++ (de_name <$> drop (length first) children).
Proof.
  intros Hf first Hlen. cbn [list_all]. change (drop (Z.to_nat 0) children) with children. fold first.
  assert (exists k, k <= length children /\
    first = mkDirReply ino 1 FtDirectory "." :: mkDirReply parent 2 FtDirectory ".." :: numbered 3 (take k children))
    as (k & Hk & E).
  { unfold first, fill_reply, reply_add in *. rewrite decide_True in * by done.
    destruct (fits [] _); [|simpl in Hlen; lia]. destruct (fits _ _); [|simpl in Hlen; lia].
    destruct (add_entries_prefix children 3 [mkDirReply ino 1 FtDirectory "."; mkDirReply parent 2 FtDirectory ".."])
      as (k & Hk & E & _). exists k. by split. }
  assert (length first = 2 + k) as El.
  { rewrite E. simpl. do 2 f_equal. rewrite <- (length_fmap dr_name), numbered_names, length_fmap, length_take. lia. }
  assert (exists r, last first = Some r /\ dr_offset r = Z.of_nat (2 + k)) as (r & Hr & Ho).
  { rewrite E. destruct (take k children) as [|e es] eqn:Et.
    - assert (k = 0 \/ children = []) as [-> | ->]; [destruct k, children; naive_solver|by eexists|].
      simpl in Hk. assert (k = 0) as -> by lia. by eexists.
    - destruct (numbered_last 3 e es) as (r & Hr & Ho). exists r. split; [exact Hr|].
      apply (f_equal length) in Et. rewrite length_take in Et. simpl in Et. lia. }
  rewrite Hr, fmap_app, Ho, list_rest by lia. rewrite Nat2Z.id, <- El.
  replace (length first - 2) with k by lia. rewrite (assoc_L (++)). f_equal. rewrite E. csimpl. by rewrite numbered_names.
Qed.
End Listing.

(** A buffer for four entries and a directory of five files: the third and fourth are never seen. *)
Lemma continued_listing_skips_two_witness :
  let fits (buffer : list DirReply) (_ : DirReply) := bool_decide (length buffer < 4) in
  let file i n := mkDirEntry i RegularFile n in
  dr_name <$> list_all fits 1 1 7 [file 2 "a"; file 3 "b"; file 4 "c"; file 5 "d"; file 6 "e"]%string%N 0 =
    [".";"..";"a";"b";"e"]%string.
Proof.
  intros fits file. etrans; [apply (continued_listing_skips_two fits 1 1 (λ _, eq_refl) 6); apply Nat.leb_le; vm_compute; reflexivity|].
  vm_compute. reflexivity.
Defined.
