(* ===== verification/StagingBudget.v ===== *)
(** The staging ceilings of the write path (crates/pcloud-fs/src/write_path.rs): what the
    process-wide counter promises about the dirty bytes, over every sequence of calls and every
    failure of the file system, the journal and the backend. *)
From S2P Require Import Prelude Paths Bytes Clock StateError WriteJournal Staging WritePath UploadMock.

(** * The sum over the handles *)

Definition dirty_sum (hs : gmap N WriteHandle) : N :=
  map_fold (λ _ h n, dirty_bytes h + n)%N 0%N hs.

Lemma dirty_sum_insert (hs : gmap N WriteHandle) i h :
  hs !! i = None -> dirty_sum (<[i:=h]> hs) = (dirty_bytes h + dirty_sum hs)%N.
Proof. intros Hi. unfold dirty_sum. rewrite map_fold_insert_L; [done|intros; lia|done]. Qed.

Lemma dirty_sum_lookup (hs : gmap N WriteHandle) i h :
  hs !! i = Some h -> dirty_sum hs = (dirty_bytes h + dirty_sum (delete i hs))%N.
Proof.
  intros Hi. rewrite <- (insert_delete_id hs i h Hi) at 1. apply dirty_sum_insert, lookup_delete_eq.
Qed.

Lemma dirty_sum_delete (hs : gmap N WriteHandle) i : (dirty_sum (delete i hs) <= dirty_sum hs)%N.
Proof.
  destruct (hs !! i) as [h|] eqn:Hi; [rewrite (dirty_sum_lookup hs i h Hi); lia|].
  by rewrite delete_id.
Qed.

Lemma dirty_sum_set (hs : gmap N WriteHandle) i h :
  dirty_sum (<[i:=h]> hs) = (dirty_bytes h + dirty_sum (delete i hs))%N.
Proof. rewrite <- insert_delete_eq. apply dirty_sum_insert, lookup_delete_eq. Qed.

Lemma dirty_sum_alter (f : WriteHandle -> WriteHandle) (hs : gmap N WriteHandle) i h :
  hs !! i = Some h -> (dirty_sum (alter f i hs) + dirty_bytes h = dirty_bytes (f h) + dirty_sum hs)%N.
Proof.
  intros Hi. rewrite (alter_alt_Some f hs i h Hi), dirty_sum_set, (dirty_sum_lookup hs i h Hi). lia.
Qed.

Lemma dirty_sum_fmap (f : WriteHandle -> WriteHandle) (hs : gmap N WriteHandle) :
  (forall h, dirty_bytes (f h) = dirty_bytes h) -> dirty_sum (f <$> hs) = dirty_sum hs.
Proof.
  intros Hf. induction hs as [|i h hs Hi IH] using map_ind; [by rewrite fmap_empty|].
  rewrite fmap_insert, !dirty_sum_insert by (rewrite ?lookup_fmap, ?Hi; done). by rewrite Hf, IH.
Qed.

(** * Calls *)

Section Budget.
Context {B : Type} `{FileUploadBackend B, JournalCodec, ProgressCodec}.

Inductive fuse_call : Type :=
| OpenForWrite (ino : N) (p : string) (append_mode o_trunc : bool)
| SeedBlob (ino : N) (bytes : list byte)
| CreateFile (ino : N) (parent_path name : string)
| WriteAt (ino offset : N) (data : list byte)
| Flush (ino : N)
| Fsync (ino : N)
| SetSize (ino new_size : N)
| UnlinkFile (ino : option N) (p : string)
| RenameFile (from to : string)
| Tick (order : list N)
| DrainAll (order : list N)
| ReadStaged (ino offset n : N)
| Release (ino : N).

Definition fuse_step (o : WritePathOptions) (c : fuse_call) (w : Service B) : Service B :=
  match c with
  | OpenForWrite ino p app trunc => (open_for_write ino p app trunc w).2
  | SeedBlob ino bytes => (seed_blob ino bytes w).2
  | CreateFile ino parent name => (create ino parent name w).2
  | WriteAt ino offset data => (write o ino offset data w).2
  | Flush ino => (flush o ino w).2
  | Fsync ino => (fsync o ino w).2
  | SetSize ino n => (truncate ino n w).2
  | UnlinkFile ino p => (unlink ino p w).2
  | RenameFile from to => (rename from to w).2
  | Tick order => (tick o order w).2
  | DrainAll order => (drain_all o order w).2
  | ReadStaged ino offset n => (read_staged ino offset n w).2
  | Release ino => (release o ino w).2
  end.

Definition fuse_run (o : WritePathOptions) (cs : list fuse_call) (w : Service B) : Service B :=
  foldl (λ w c, fuse_step o c w) w cs.

(** * Handles and counter alone *)

Definition budget_frame (w w' : Service B) : Prop := handles w' = handles w /\ global w' = global w.

#[export] Instance frame_preorder : PreOrder budget_frame.
Proof.
  split; [done|]. intros w1 w2 w3 [A1 A2] [B1 B2]. split; congruence.
Qed.

Lemma frame_zoom {V E A} (get : Service B -> V) (set : V -> Service B -> Service B) (m : ST V E A) :
  (forall v w, handles (set v w) = handles w /\ global (set v w) = global w) ->
  respects budget_frame (zoom get set m).
Proof. intros Hs w. unfold zoom. destruct (m (get w)) as [r v]. apply Hs. Qed.

Lemma frame_stage {A} (m : ST StagingDir StagingError A) : respects budget_frame (on_stage (B:=B) m).
Proof. apply respects_map_err. by apply frame_zoom. Qed.
Lemma frame_root {A E} (m : ST StagingDir E A) : respects budget_frame (zoom (stage (B:=B)) with_stage m).
Proof. by apply frame_zoom. Qed.
Lemma frame_call {A} (m : ST B WritePathError A) : respects budget_frame (call m).
Proof. by apply frame_zoom. Qed.
Lemma frame_now : respects budget_frame instant_now.
Proof. by intros w. Qed.
Lemma frame_unix : respects budget_frame now_unix_secs.
Proof. by intros w. Qed.
Lemma frame_sleep d : respects budget_frame (sleep d).
Proof. by intros w. Qed.
Lemma frame_get_handle ino : respects budget_frame (get_handle ino).
Proof. unfold get_handle. respects_auto. Qed.

#[local] Hint Resolve frame_stage frame_root frame_call frame_now frame_unix frame_sleep
  frame_get_handle : respects.

Lemma frame_journal_append o : respects budget_frame (journal_append o).
Proof.
  unfold journal_append, on_root. respects_auto. intros w. by destruct (append _ _ _).
Qed.
#[local] Hint Resolve frame_journal_append : respects.

Lemma frame_send_chunk o id off chunk remaining k : respects budget_frame (send_chunk o id off chunk remaining k).
Proof. revert k; induction remaining as [|remaining IH]; intros k; cbn [send_chunk]; respects_auto. Qed.
#[local] Hint Resolve frame_send_chunk : respects.

Lemma frame_chunk_loop o fuel lp blob sc id cb total off :
  respects budget_frame (chunk_loop o fuel lp blob sc id cb total off).
Proof.
  revert off; induction fuel as [|fuel IH]; intros off; cbn [chunk_loop]; unfold read_exact, on_root; respects_auto.
Qed.
#[local] Hint Resolve frame_chunk_loop : respects.

Lemma frame_session o parent name blob sc total : respects budget_frame (run_chunked_session o parent name blob sc total).
Proof. unfold run_chunked_session, begin_session, on_root. respects_auto. Qed.
#[local] Hint Resolve frame_session : respects.

Lemma frame_session_loop o n parent name blob sc total : respects budget_frame (session_loop o n parent name blob sc total).
Proof. induction n as [|n IH]; cbn [session_loop]; unfold on_root; respects_auto. Qed.
#[local] Hint Resolve frame_session_loop : respects.

(** * The accounting relation *)

Context (o : WritePathOptions) (Hmax : (max_global_staging_bytes o < USIZE_MAX)%N).

Definition budgeted (w : Service B) : Prop :=
  (dirty_sum (handles w) <= global w <= max_global_staging_bytes o)%N.

(** The bytes counted that no handle will give back. *)
Definition leaked (w : Service B) : N := (global w - dirty_sum (handles w))%N.

Definition accounts (w w' : Service B) : Prop := budgeted w -> budgeted w' /\ (leaked w <= leaked w')%N.

#[local] Instance accounts_preorder : PreOrder accounts.
Proof.
  split; unfold accounts; repeat intro; [by split|].
  match goal with Hb : budgeted _ |- _ => rename Hb into Hw end.
  destruct (H2 Hw) as [Hy Hl]. destruct (H3 Hy) as [Hz Hl']. split; [done|lia].
Qed.

Lemma frame_accounts w w' : budget_frame w w' -> accounts w w'.
Proof. intros [Hh Hg] Hb. unfold budgeted, leaked in *. by rewrite Hh, Hg. Qed.

Lemma accounts_frame {E A} (m : ST (Service B) E A) : respects budget_frame m -> respects accounts m.
Proof. intros Hm w. apply frame_accounts, Hm. Qed.
#[local] Hint Extern 3 (respects accounts _) => apply accounts_frame; eauto with respects; fail : respects.

(** Giving back the dirty bytes of a handle that becomes clean or goes away. *)
Lemma accounts_release w hs (h : WriteHandle) :
  (dirty_sum hs + dirty_bytes h = dirty_sum (handles w))%N ->
  accounts w (with_handles hs (release_global o (dirty_bytes h) w).2).
Proof.
  intros Hs [Hb1 Hb2]. unfold release_global, budgeted, leaked.
  case_decide as Hd; cbn [snd modify ok handles global with_handles with_global]; lia.
Qed.

Lemma release_global_run n (w : Service B) :
  release_global o n w = (Ok tt, (release_global o n w).2) /\
  handles (release_global o n w).2 = handles w.
Proof. unfold release_global. by case_decide. Qed.

Lemma accounts_reset_dirty ino now : respects accounts (reset_dirty o ino now).
Proof.
  intros w. unfold reset_dirty, get_handle, bind, gets. destruct (handles w !! ino) as [h|] eqn:Hh; [|done].
  cbn [ok]. destruct (release_global_run (dirty_bytes h) w) as [Er E]. rewrite Er.
  cbn [snd update_handle modify]. rewrite E. apply accounts_release.
  pose proof (dirty_sum_alter (flushed_at now) _ _ _ Hh). cbn [flushed_at dirty_bytes] in *. lia.
Qed.
#[local] Hint Resolve accounts_reset_dirty : respects.

Lemma accounts_staged_path blob : respects accounts (staged_path blob).
Proof. apply accounts_frame, frame_stage. Qed.
#[local] Hint Resolve accounts_staged_path : respects.

Lemma accounts_flush ino : respects accounts (flush o ino).
Proof. unfold flush. respects_auto. Qed.
#[local] Hint Resolve accounts_flush : respects.

Lemma accounts_chunked_flush ino : respects accounts (chunked_flush o ino).
Proof. unfold chunked_flush. respects_auto. Qed.
#[local] Hint Resolve accounts_chunked_flush : respects.

Lemma accounts_trigger ino dirty now last : respects accounts (trigger_flush o ino dirty now last).
Proof. unfold trigger_flush. respects_auto. Qed.
#[local] Hint Resolve accounts_trigger : respects.

(** A handle that is closed or replaced by a clean one keeps its share of the counter. *)
Lemma accounts_forget w hs : (dirty_sum hs <= dirty_sum (handles w))%N -> accounts w (with_handles hs w).
Proof. intros Hs [Hb1 Hb2]. unfold budgeted, leaked. cbn [handles global with_handles]. lia. Qed.

Lemma accounts_forgetting f :
  (forall hs, dirty_sum (f hs) <= dirty_sum hs)%N ->
  respects (E:=WritePathError) accounts (modify (λ w, with_handles (f (handles w)) w)).
Proof. intros Hf. apply respects_modify. intros w. by apply accounts_forget. Qed.

Lemma accounts_open ino p app trunc : respects accounts (open_for_write ino p app trunc).
Proof.
  unfold open_for_write, exists_file, on_root. respects_auto.
  apply (accounts_forgetting (λ hs, <[ino := _]> hs)). intros hs. rewrite dirty_sum_set. apply dirty_sum_delete.
Qed.
#[local] Hint Resolve accounts_open : respects.

Lemma accounts_unlink ino p : respects accounts (unlink ino p).
Proof.
  unfold unlink. respects_auto. apply (accounts_forgetting (λ hs, delete _ hs)). intros hs. apply dirty_sum_delete.
Qed.

Lemma accounts_rename from to : respects accounts (rename from to).
Proof.
  unfold rename. respects_auto. apply (accounts_forgetting (λ hs, _ <$> hs)). intros hs.
  rewrite dirty_sum_fmap; [done|]. intros h. by case_bool_decide.
Qed.

Lemma accounts_flush_all inos : respects accounts (flush_all o inos).
Proof. induction inos as [|ino inos IH]; cbn [flush_all]; respects_auto. Qed.

Lemma accounts_drain inos : respects accounts (drain o inos).
Proof. induction inos as [|ino inos IH]; cbn [drain]; respects_auto. Qed.

Lemma accounts_fuse_release ino : respects accounts (release o ino).
Proof.
  intros w. unfold release, bind, gets. destruct (handles w !! ino) as [h|] eqn:Hh.
  - destruct (release_global_run (dirty_bytes h) w) as [Er E]. rewrite Er. cbn [snd modify]. rewrite E. apply accounts_release. rewrite (dirty_sum_lookup _ _ _ Hh). lia.
  - cbn [ok snd modify]. apply accounts_forget, dirty_sum_delete.
Qed.

(** A write: the reservation is either rolled back or ends up in the dirty bytes, or leaks. *)
Lemma accounts_reserve n (w : Service B) :
  budgeted w ->
  match reserve_global o n w with
  | (Ok _, w') => budget_frame (with_global (global w + n) w) w' /\ (global w + n <= max_global_staging_bytes o)%N
  | (Err _, w') => budget_frame w w'
  end.
Proof.
  intros [Hb1 Hb2]. unfold reserve_global, bind, gets, modify, throw, ok.
  rewrite decide_True by done. cbn [fst snd].
  assert (USIZE_MAX < 2 ^ 64)%N as HU by done.
  unfold u64_saturating_add. change U64_MAX with USIZE_MAX.
  case_decide as Hc; unfold budget_frame; cbn [handles global with_global].
  - split; [done|]. apply wrapping_add_sub. lia.
  - split; [split; [done|]|lia]. apply as_u64_small. unfold U64_MAX. change USIZE_MAX with (2 ^ 64 - 1)%N in *. lia.
Qed.

Lemma wp_frame {A} (m : ST (Service B) WritePathError A) Q w :
  respects budget_frame m -> (forall r w', budget_frame w w' -> Q r w') -> wp m Q w.
Proof. intros Hm HQ. rewrite wp_run. apply HQ, Hm. Qed.

Lemma wp_instant_now (Q : result Instant WritePathError -> Service B -> Prop) w :
  (forall now w', budget_frame w w' -> Q (Ok now) w') -> wp instant_now Q w.
Proof. intros HQ. by apply HQ. Qed.

Lemma wp_get_handle ino (Q : result WriteHandle WritePathError -> Service B -> Prop) w :
  (forall h, handles w !! ino = Some h -> Q (Ok h) w) -> (handles w !! ino = None -> Q (Err (NotOpen ino)) w) ->
  wp (get_handle ino) Q w.
Proof. intros Hs Hn. unfold get_handle. repeat wp_step. case_match; wp_step; auto. Qed.

Lemma accounts_wp {A} (m : ST (Service B) WritePathError A) w0 w :
  respects accounts m -> accounts w0 w -> budgeted w0 -> wp m (λ _ w', budgeted w' /\ (leaked w0 <= leaked w')%N) w.
Proof.
  intros Hm Hw Hb. rewrite wp_run. destruct (Hw Hb) as [Hb1 Hl1]. destruct (Hm w Hb1). split; [done|lia].
Qed.

(** The reserved bytes are still counted when the rest of the write fails. *)
Lemma accounts_reserved w w' n :
  budget_frame (with_global (global w + n) w) w' -> (global w + n <= max_global_staging_bytes o)%N -> accounts w w'.
Proof.
  intros [Hh Hg] Hn [Hb1 Hb2]. unfold budgeted, leaked. rewrite Hh, Hg.
  cbn [handles global with_global]. lia.
Qed.

Lemma accounts_write ino offset data : respects accounts (write o ino offset data).
Proof.
  intros w Hb. apply (wp_run (write o ino offset data) (λ _ w', budgeted w' /\ (leaked w <= leaked w')%N)).
  unfold write. wp_step. apply wp_get_handle; [intros h Hh|done]. wp_step.
  apply wp_frame; [by destruct (append_mode h); unfold append_offset; respects_auto|].
  intros [off|e] w1 F1; [|by apply (frame_accounts w)].
  assert (handles w1 !! ino = Some h) as Hh1 by by rewrite (proj1 F1).
  destruct (frame_accounts w w1 F1 Hb) as [Hb1 Hl1].
  case_decide; [by wp_step|]. wp_step. apply wp_run.
  pose proof (accounts_reserve (len data) w1 Hb1) as Hr.
  destruct (reserve_global o (len data) w1) as [[[]|e] w2]; [|by cbn [fst snd];
    destruct (frame_accounts w1 w2 Hr Hb1); split; [|lia]].
  destruct Hr as [F2 Hn]. cbn [fst snd].
  assert (forall w', budget_frame (with_global (global w1 + len data) w1) w' -> budgeted w' /\ (leaked w <= leaked w')%N) as Hfail.
  { intros w' F. destruct (accounts_reserved w1 w' _ F Hn Hb1). split; [done|lia]. }
  wp_step. apply wp_frame; [by apply frame_stage|]. intros [n|e] w3 F3; [|by apply Hfail; etrans].
  wp_step. apply wp_frame; [by apply frame_journal_append|]. intros [s|e] w4 F4; [|by apply Hfail; do 2 (etrans; [done|])].
  assert (budget_frame (with_global (global w1 + len data) w1) w4) as F by by do 2 (etrans; [done|]).
  wp_step. unfold update_handle. wp_step. wp_step. apply wp_instant_now. intros now w5 F5.
  wp_step. apply (wp_mono _ (λ _ w', budgeted w' /\ (leaked w <= leaked w')%N)); [|by intros [[]|] w' Hw'; [wp_step|]].
    apply (accounts_wp _ w); [apply accounts_trigger| |done].
    etrans; [by apply frame_accounts, F1|]. etrans; [|apply frame_accounts, F5].
    intros _. destruct F as [Fh Fg]. unfold budgeted, leaked. cbn [handles global with_handles with_global] in *.
    rewrite Fh, Fg. pose proof (dirty_sum_alter (with_dirty (u64_saturating_add (dirty_bytes h) (len data))) _ _ _ Hh1) as Hs.
    cbn [with_dirty dirty_bytes] in Hs. unfold u64_saturating_add in *. destruct Hb1. lia.
Qed.

Lemma accounts_at {A} (m : ST (Service B) WritePathError A) w : respects accounts m -> accounts w (m w).2.
Proof. intros Hm. apply Hm. Qed.

Lemma accounts_seed ino bytes : respects accounts (seed_blob ino bytes).
Proof. unfold seed_blob. respects_auto. Qed.
Lemma accounts_create ino parent name : respects accounts (create ino parent name).
Proof. unfold create. respects_auto. Qed.
Lemma accounts_truncate ino n : respects accounts (truncate ino n).
Proof. unfold truncate. respects_auto. Qed.
Lemma accounts_tick order : respects accounts (tick o order).
Proof. unfold tick. respects_auto. apply accounts_flush_all. Qed.
Lemma accounts_drain_all order : respects accounts (drain_all o order).
Proof. unfold drain_all. respects_auto. apply accounts_drain. Qed.
Lemma accounts_read ino offset n : respects accounts (read_staged ino offset n).
Proof. unfold read_staged. respects_auto. Qed.

Lemma accounts_step c w : accounts w (fuse_step o c w).
Proof.
  destruct c; apply accounts_at;
    eauto using accounts_open, accounts_seed, accounts_create, accounts_write, accounts_flush,
      accounts_truncate, accounts_unlink, accounts_rename, accounts_tick, accounts_drain_all,
      accounts_read, accounts_fuse_release.
Qed.

Lemma accounts_run cs w : accounts w (fuse_run o cs w).
Proof.
  revert w; induction cs as [|c cs IH]; intros w; [done|].
  etrans; [apply accounts_step|apply IH].
Qed.

(** C25: The process-wide ceiling.  Whatever calls are made and whatever fails, the dirty bytes of the
    open handles never exceed the counter, nor the counter the configured maximum; and the bytes
    counted beyond the dirty ones are never given back. *)
Theorem staging_accounting cs w :
  budgeted w ->
  (total_dirty_bytes (fuse_run o cs w) <= global (fuse_run o cs w) <= max_global_staging_bytes o)%N /\
  (leaked w <= leaked (fuse_run o cs w))%N.
Proof. apply accounts_run. Qed.

(** Once failed writes have left more than [max - n] bytes in the counter, every write of [n]
    bytes is refused, after any flushes, closes and other calls. *)
Theorem leaked_bytes_block_writes cs w ino offset data :
  budgeted w -> (max_global_staging_bytes o < leaked w + len data)%N ->
  has_open_handle ino (fuse_run o cs w) = true ->
  exists msg, (write o ino offset data (fuse_run o cs w)).1 = Err (Invalid msg).
Proof.
  intros Hb Hl Hopen%bool_decide_eq_true_1. destruct (accounts_run cs w Hb) as [Hb' Hl'].
  set (w1 := fuse_run o cs w) in *. clearbody w1. destruct Hopen as [h0 Hh0].
  apply (wp_run (write o ino offset data) (λ r _, exists msg, r = Err (Invalid msg))).
  unfold write. wp_step. apply wp_get_handle; [intros h Hh|by rewrite Hh0]. wp_step.
  assert (forall off w2, budget_frame w1 w2 ->
    wp (if decide (max_staging_bytes o < USIZE_MAX /\ max_staging_bytes o < u64_saturating_add off (len data))%N
        then throw (Invalid "write would exceed max_staging_bytes ceiling")
        else reserve_global o (len data)) (λ r _, exists msg, r = Err (Invalid msg)) w2) as Hres.
  { intros off w2 [Fh Fg]. case_decide; [wp_step; eauto|]. unfold reserve_global.
    rewrite decide_True by done. repeat wp_step.
    unfold budgeted, leaked in *. rewrite Fg, decide_True by (unfold u64_saturating_add, USIZE_MAX in *; lia).
    repeat wp_step. eauto. }
  assert (wp (if append_mode h then append_offset (B:=B) (blob_name h) else ok offset) (λ r w2, budget_frame w1 w2 /\ is_ok r = true) w1) as Hoff.
  { destruct (append_mode h); [|by repeat wp_step]. unfold append_offset. do 2 wp_step.
    apply wp_frame; [respects_auto|]. intros r w2 F. by wp_step. }
  wp_call Hoff. intros [off|e] w2 [F Hr]; [|done]. specialize (Hres off w2 F).
  revert Hres. case_decide; intros Hres; [repeat wp_step; eauto|].
    wp_step. wp_call Hres. intros ? ? [msg ->]. eauto.
Qed.
End Budget.

(** * Witnesses *)

#[local] Existing Instance binary_progress.
#[local] Existing Instance binary_journal.

Definition tight_options : WritePathOptions :=
  mkWritePathOptions 6 (from_secs 30) 4 100 2 (from_secs 1) 10.

Lemma staging_accounting_witness :
  let cs := [CreateFile 7 "/" "f"; WriteAt 7 0 (chars "abcd"); WriteAt 7 4 (chars "efg"); WriteAt 7 7 (chars "h")] in
  (total_dirty_bytes (fuse_run tight_options cs mock_service) <=
     global (fuse_run tight_options cs mock_service) <= 10)%N /\
  (leaked mock_service <= leaked (fuse_run tight_options cs mock_service))%N.
Proof.
  apply (staging_accounting tight_options eq_refl _ mock_service). by vm_compute.
Defined.

(** Two opened files; the disk is full during one write of seven bytes to the first. *)
Definition leaky_service : Service MockUploadBackend :=
  fuse_run tight_options [CreateFile 7 "/" "f"; CreateFile 8 "/" "g"; WriteAt 7 0 (chars "abcdefg")]
    (with_stage (mkStagingDir ∅ ∅ (replicate 12 None ++ [Some 0])) mock_service).

Example failed_write_leaks : leaked leaky_service = 7%N /\ total_dirty_bytes leaky_service = 0%N.
Proof. by vm_compute. Qed.

Lemma leaked_bytes_block_writes_witness :
  let cs := [Flush 7; Tick [7; 8]%N; Release 7; UnlinkFile (Some 7%N) "/f"] in
  exists msg, (write tight_options 8 0 (chars "wxyz") (fuse_run tight_options cs leaky_service)).1 = Err (Invalid msg).
Proof.
  apply (leaked_bytes_block_writes tight_options eq_refl [Flush 7; Tick [7; 8]%N; Release 7; UnlinkFile (Some 7%N) "/f"] leaky_service).
  - by vm_compute.
  - by vm_compute.
  - by vm_compute.
Defined.
