(* ===== verification/ChunkedFlush.v ===== *)
(** The chunked upload of the write path (crates/pcloud-fs/src/write_path.rs): what reaches the
    server through any failures, retries, restarts and resumed sessions. *)
From S2P Require Import Prelude Paths Bytes Clock StateError WriteJournal Staging WritePath UploadMock StagingBudget.

(** * What the upload methods of a backend promise

    [sessions] are the bytes received for each live upload, [remote] the saved files.  A new
    session is empty, a write that fails may have stored a prefix of the chunk, a save publishes
    the bytes received, whatever total size it is given, and a session may be gone at any time. *)
Class UploadBackendLaws (B : Type) `{FileUploadBackend B} : Type := {
  sessions : B -> gmap N (list byte);
  remote : B -> gmap string (list byte);
  create_ok_law parent name b id b' :
    upload_create parent name b = (Ok id, b') -> default [] (sessions b' !! id) = [];
  write_ok_law id off chunk b b' :
    upload_write id off chunk b = (Ok tt, b') ->
    exists d, sessions b !! id = Some d /\ sessions b' !! id = Some (write_at (N.to_nat off) chunk d);
  write_err_law id off chunk b e b' :
    upload_write id off chunk b = (Err e, b') ->
    sessions b' !! id = None \/ sessions b' !! id = sessions b !! id \/
    exists d n, sessions b !! id = Some d /\ sessions b' !! id = Some (write_at (N.to_nat off) (take n chunk) d);
  save_ok_law id parent name total b b' :
    upload_save id parent name total b = (Ok tt, b') ->
    exists d, sessions b !! id = Some d /\ remote b' !! join_path parent name = Some d;
  save_session_law id parent name total b :
    let b' := (upload_save id parent name total b).2 in
    sessions b' !! id = None \/ sessions b' !! id = sessions b !! id;
}.

Lemma take_write_at_prefix k n (bytes d : list byte) :
  k <= n -> n <= length d -> take k (write_at n bytes d) = take k d.
Proof.
  intros Hk Hn. unfold write_at. rewrite take_app_le by (rewrite length_take; lia).
  rewrite take_take. f_equal. lia.
Qed.

Lemma take_write_at n (bytes d : list byte) :
  n <= length d -> take (n + length bytes) (write_at n bytes d) = take n d ++ bytes.
Proof.
  intros Hn. unfold write_at. replace (n - length d) with 0 by lia. cbn [replicate app].
  rewrite app_assoc, take_app_length'; [done|]. rewrite length_app, length_take. lia.
Qed.

Lemma length_write_at n (bytes d : list byte) :
  n <= length d -> length (write_at n bytes d) = Nat.max (length d) (n + length bytes).
Proof.
  intros Hn. unfold write_at. replace (n - length d) with 0 by lia. cbn [replicate app].
  rewrite !length_app, length_take, length_drop. lia.
Qed.

Lemma take_split (n k : nat) (l : list byte) : take n l ++ take k (drop n l) = take (n + k) l.
Proof.
  rewrite take_drop_commute. replace (take n l) with (take n (take (n + k) l)) by (rewrite take_take; f_equal; lia).
  apply take_drop.
Qed.

Section Chunked.
Context {B : Type} `{UploadBackendLaws B, JournalCodec, ProgressCodecLaws}.

(** The session [id], if it still exists, holds the first [off] bytes of the content, and no more
    bytes than the content has. *)
Definition agrees (b : B) (id : N) (content : list byte) (off : N) : Prop :=
  forall d, sessions b !! id = Some d ->
    take (N.to_nat off) d = take (N.to_nat off) content /\ length d <= length content.

Lemma agrees_none b id content off : sessions b !! id = None -> agrees b id content off.
Proof. intros Hn d Hd. congruence. Qed.

Lemma agrees_same b b' id content off :
  sessions b' !! id = sessions b !! id -> agrees b id content off -> agrees b' id content off.
Proof. intros Hs Ha d Hd. apply Ha. congruence. Qed.

Lemma agrees_length b id content off d :
  agrees b id content off -> sessions b !! id = Some d -> (off <= len content)%N -> N.to_nat off <= length d.
Proof.
  intros Ha Hd Ho. destruct (Ha d Hd) as [E _]. apply (f_equal length) in E.
  rewrite !length_take in E. unfold len in Ho. lia.
Qed.

(** Another part of the content at [off]. *)
Lemma agrees_write b b' id content off n d :
  (off + N.of_nat n <= len content)%N -> agrees b id content off -> sessions b !! id = Some d ->
  sessions b' !! id = Some (write_at (N.to_nat off) (take n (drop (N.to_nat off) content)) d) ->
  agrees b' id content (off + N.of_nat n).
Proof.
  intros Hlen Ha Hd Hd' d' E. rewrite Hd' in E. injection E as <-. unfold len in Hlen.
  pose proof (agrees_length _ _ _ _ _ Ha Hd ltac:(unfold len; lia)) as Hl. destruct (Ha d Hd) as [Ht Hmax].
  assert (length (take n (drop (N.to_nat off) content)) = n) as Hn by (rewrite length_take, length_drop; lia).
  split; [|rewrite length_write_at by done; lia].
  rewrite N2Nat.inj_add, Nat2N.id. rewrite <- Hn at 1. by rewrite take_write_at, Ht, take_split.
Qed.

(** The session and the content are the same when all of it has arrived. *)
Lemma agrees_all b id content d : agrees b id content (len content) -> sessions b !! id = Some d -> d = content.
Proof.
  intros Ha Hd. destruct (Ha d Hd) as [Ht Hl]. unfold len in Ht. rewrite Nat2N.id in Ht.
  by rewrite !take_ge in Ht by lia.
Qed.

Lemma agrees_le b id content k off : (k <= off)%N -> agrees b id content off -> agrees b id content k.
Proof.
  intros Hk Ha d Hd. destruct (Ha d Hd) as [Ht Hl]. split; [|done]. apply (f_equal (take (N.to_nat k))) in Ht.
  rewrite !take_take in Ht. by rewrite !Nat.min_l in Ht by lia.
Qed.

(** * One chunk *)

Lemma wp_send_chunk o id off want content remaining k w :
  (off + want <= len content)%N -> agrees (backend w) id content off ->
  let chunk := take (N.to_nat want) (drop (N.to_nat off) content) in
  wp (send_chunk o id off chunk remaining k) (λ r w', stage w' = stage w /\
    match r with
    | Ok _ => agrees (backend w') id content (off + want)
    | Err _ => agrees (backend w') id content off
    end) w.
Proof.
  intros Hlen Ha chunk.
  revert k w Ha; induction remaining as [|remaining IH]; intros k w Ha; cbn [send_chunk]; do 2 wp_step; unfold call at 1; wp_step; apply wp_run;
    destruct (upload_write id off chunk (backend w)) as [[[]|e] b'] eqn:E; cbn [fst snd].
  1, 3: wp_step; split; [done|]; cbn [backend with_backend]; apply write_ok_law in E as (d & Hd & Hd');
    rewrite <- (N2Nat.id want); eapply agrees_write; [lia|exact Ha|exact Hd|exact Hd'].
  all: assert (agrees b' id content off) as Ha'
    by (apply write_err_law in E as [Hn|[Hs|(d & n & Hd & Hd')]];
        [by apply agrees_none|by eapply agrees_same|];
        apply (agrees_le _ _ _ _ (off + N.of_nat (Nat.min n (N.to_nat want)))); [lia|];
        eapply agrees_write; [lia|exact Ha|exact Hd|]; unfold chunk in Hd'; rewrite take_take in Hd'; exact Hd').
  - by destruct e; wp_step.
  - destruct e; try (by wp_step). wp_step. unfold sleep. wp_step. exact (IH _ (at_clock _ _ (with_backend b' w)) Ha').
Qed.

(** * The session and its sidecar *)

(** The sidecar on disk is of this upload and records [off]. *)
Definition sidecar_is (sidecar blob : string) (id total off : N) (d : StagingDir) : Prop :=
  exists bytes secs, root_files d !! sidecar = Some bytes /\
    decode_progress bytes = Some (mkUploadProgress id blob total off secs).

(** What a later flush relies on: a matching sidecar claims no more than its session, if that still
    exists, holds of the content, and the session is not longer than the content. *)
Definition resumable (sidecar blob : string) (content : list byte) (w : Service B) : Prop :=
  forall bytes p, root_files (stage w) !! sidecar = Some bytes -> decode_progress bytes = Some p ->
    up_blob_name p = blob -> up_total_size p = len content ->
    agrees (backend w) (upload_id p) content (acked_offset p).

Lemma sidecar_resumable sidecar blob content id off w :
  sidecar_is sidecar blob id (len content) off (stage w) -> agrees (backend w) id content off ->
  resumable sidecar blob content w.
Proof.
  intros (bytes & secs & Hs & Hd) Ha bytes' p Hs' Hd' _ _. by simplify_eq/=.
Qed.

(** The staged files and what the server knows stay as they are. *)
Definition settled (w w' : Service B) : Prop :=
  blobs (stage w') = blobs (stage w) /\ root_files (stage w') = root_files (stage w) /\
  backend w' = backend w.

#[export] Instance settled_preorder : PreOrder settled.
Proof.
  split; [by repeat split|]. intros w1 w2 w3 (A1 & A2 & A3) (B1 & B2 & B3). repeat split; congruence.
Qed.

Lemma settled_disk {E A} (m : ST StagingDir E A) :
  (forall d, blobs (m d).2 = blobs d /\ root_files (m d).2 = root_files d) ->
  respects settled (zoom (stage (B:=B)) with_stage m).
Proof.
  intros Hm w. unfold zoom. specialize (Hm (stage w)). destruct (m (stage w)) as [r d].
  by destruct Hm.
Qed.

Lemma settled_kept {E A} (m : ST StagingDir E A) :
  (forall d, wp m (λ _ d', blobs_kept d d') d) -> respects settled (zoom (stage (B:=B)) with_stage m).
Proof. intros Hm. apply settled_disk. intros d. specialize (Hm d). apply wp_run in Hm as (? & ? & _). done. Qed.

Lemma settled_sys {E} (e : E) : respects settled (zoom (stage (B:=B)) with_stage (sys e)).
Proof. apply settled_kept. intros d. by apply wp_sys_kept. Qed.
Lemma settled_syscall {E} : respects (E:=E) settled (zoom (stage (B:=B)) with_stage syscall).
Proof. apply settled_disk. intros d. unfold syscall. by destruct (outcomes d). Qed.
Lemma settled_file_len p : respects settled (zoom (stage (B:=B)) with_stage (file_len p)).
Proof. apply settled_kept. intros d. wp_call wp_file_len. by intros ? ? []. Qed.
Lemma settled_open_blob p : respects settled (zoom (stage (B:=B)) with_stage (open_blob p)).
Proof. apply settled_kept. intros d. wp_call wp_open_blob. by intros ? ? []. Qed.
Lemma settled_now : respects settled (instant_now (B:=B)).
Proof. by intros w. Qed.
Lemma settled_unix : respects settled (now_unix_secs (B:=B)).
Proof. by intros w. Qed.
#[local] Hint Resolve settled_sys settled_syscall settled_file_len settled_open_blob settled_now
  settled_unix : respects.

Lemma settled_journal_append op : respects settled (journal_append (B:=B) op).
Proof. unfold journal_append, on_root. respects_auto. intros w. by destruct (append _ _ _). Qed.
#[local] Hint Resolve settled_journal_append : respects.

Lemma settled_read_exact blob off want : respects settled (read_exact (B:=B) blob off want).
Proof. unfold read_exact, on_root. respects_auto. Qed.

Lemma wp_settled {E A} (m : ST (Service B) E A) Q w :
  respects settled m -> (forall r w', settled w w' -> Q r w') -> wp m Q w.
Proof. intros Hm HQ. rewrite wp_run. apply HQ, Hm. Qed.


Lemma wp_save_progress p sidecar d :
  wp (save_progress p sidecar) (λ r d', blobs d' = blobs d /\
    match r with
    | Ok _ => exists bytes, encode_progress p = Some bytes /\ root_files d' = <[sidecar := bytes]> (root_files d)
    | Err _ => root_files d' = root_files d
    end) d.
Proof.
  unfold save_progress. do 2 wp_step. destruct (encode_progress p) as [bytes|] eqn:E; [|done].
  cbn [ok_or]. wp_step. apply wp_sys_kept; [|by intros ? (? & ? & _)]. intros d1 (B1 & R1 & _).
  wp_step. apply wp_sys_kept; [|by intros ? (? & ? & _); split; congruence]. intros d2 (B2 & R2 & _).
  wp_step. apply wp_sys_kept; [|by intros ? (? & ? & _); split; congruence]. intros d3 (B3 & R3 & _).
  wp_step. apply wp_sys_kept; [|by intros ? (? & ? & _); split; congruence]. intros d4 (B4 & R4 & _).
  wp_step. cbn [blobs root_files with_root_files]. split; [congruence|]. exists bytes. split; congruence.
Qed.

(** The upload and its sidecar are in step at some offset. *)
Definition in_step (sidecar blob : string) (id : N) (content : list byte) (w : Service B) : Prop :=
  exists off, sidecar_is sidecar blob id (len content) off (stage w) /\ agrees (backend w) id content off.

Lemma wp_chunk_loop o fuel lp blob sidecar id cb content off w :
  blobs (stage w) !! blob = Some content ->
  sidecar_is sidecar blob id (len content) off (stage w) -> agrees (backend w) id content off ->
  wp (chunk_loop o fuel lp blob sidecar id cb (len content) off) (λ r w',
    blobs (stage w') = blobs (stage w) /\ in_step sidecar blob id content w' /\
    match r with Ok _ => agrees (backend w') id content (len content) | Err _ => True end) w.
Proof.
  revert off w; induction fuel as [|fuel IH]; intros off w Hb Hs Ha; cbn [chunk_loop]; case_decide as Hlt.
  1: wp_step; split; [done|]; split; [by exists off|done].
  1, 3: wp_step; split; [done|]; split; [by exists off|]; eapply agrees_le; [|done]; lia.
  set (want := N.min cb (len content - off)).
  assert (off + want <= len content)%N as Hw by lia.
  wp_step. unfold read_exact. wp_step. apply (wp_settled (on_root _)); [apply settled_sys|].
  assert (forall w1, settled w w1 -> in_step sidecar blob id content w1) as Hset.
  { intros w1 (_ & R1 & E1). exists off. split; [|by rewrite E1].
    destruct Hs as (bytes & secs & Hf & Hd). exists bytes, secs. by rewrite R1. }
  intros [[]|e] w1 F1; [|destruct (Hset _ F1); split; [apply F1|by split; [apply Hset|]]].
  wp_step. wp_step. case_decide as Hshort; [wp_step; split; [apply F1|by split; [apply Hset|]]|]. wp_step.
  pose proof F1 as (B1 & R1 & E1). rewrite B1, Hb. change (default [] (Some content)) with content. wp_step.
  wp_call (wp_send_chunk o id off want content (N.to_nat (chunk_retry_attempts o)) 0 w1 Hw ltac:(by rewrite E1)).
  intros [[]|e] w2 [S2 Ha2].
  2:{ split; [by rewrite S2|]. split; [|done]. exists off. split; [|done].
      destruct Hs as (bytes & secs & Hf & Hd). exists bytes, secs. by rewrite S2, R1. }
  assert (forall w3, settled w2 w3 -> blobs (stage w3) = blobs (stage w) /\ in_step sidecar blob id content w3 /\
    agrees (backend w3) id content (off + want)) as H23.
  { intros w3 (B3 & R3 & E3). split; [congruence|]. split; [|by rewrite E3]. exists off. split.
    - destruct Hs as (bytes & secs & Hf & Hd). exists bytes, secs. by rewrite R3, S2, R1.
    - rewrite E3. eapply agrees_le; [|done]. lia. }
  wp_step. apply wp_settled; [apply settled_journal_append|].
  intros [s|e] w3 F3; [|by destruct (H23 w3 F3) as (? & ? & _)].
  wp_step. apply wp_settled; [apply settled_unix|].
  intros [secs|e] w4 F4; assert (settled w2 w4) as F24 by (by etrans); [|by destruct (H23 w4 F24) as (? & ? & _)].
  destruct (H23 w4 F24) as (B4 & I4 & A4).
  wp_step. unfold on_root. wp_step. wp_call wp_save_progress. intros r d' [Bd Rd].
  destruct r as [[]|e].
  - destruct Rd as (bytes & Hbytes & Rd).
    eapply wp_mono; [apply IH|]; cbn [stage with_stage backend].
    + by rewrite Bd, B4.
    + exists bytes, secs. rewrite Rd, lookup_insert_eq. split; [done|]. by apply progress_round_trip.
    + done.
    + cbn. intros r w' (Hb' & Hi & Hr). split; [|done]. rewrite Hb'. congruence.
  - cbn [stage with_stage]. split; [congruence|]. split; [|done].
    destruct I4 as (off' & (by' & secs' & Hf & Hd) & Ha'). exists off'. split; [|done].
    exists by', secs'. cbn [stage with_stage]. by rewrite Rd.
Qed.

(** * A whole session *)

Lemma wp_load_progress sidecar d :
  wp (load_progress sidecar) (λ r d', blobs_kept d d' /\
    match r with
    | Ok (Some p) => exists bytes, root_files d !! sidecar = Some bytes /\ decode_progress bytes = Some p
    | Ok None => root_files d !! sidecar = None
    | Err _ => True
    end) d.
Proof.
  unfold load_progress. wp_step. apply wp_sys_kept; [|done]. intros d' K. do 2 wp_step.
  pose proof K as (_ & R & _). rewrite R. case_match; [|by wp_step]. case_match; wp_step; eauto.
Qed.

Lemma wp_forget_progress sidecar d :
  wp (forget_progress sidecar) (λ r d', r = Ok tt /\ blobs d' = blobs d /\ calm d d' /\
    (root_files d' = root_files d \/ root_files d' = delete sidecar (root_files d)) /\
    (outcomes d = [] -> root_files d' = delete sidecar (root_files d))) d.
Proof.
  unfold forget_progress. wp_step. apply wp_syscall. intros [n|] fs Hf; wp_step.
  - repeat split; [|by left|]; intros Ho; destruct (Hf Ho); [done|]. congruence.
  - repeat split; [|by right]. intros Ho. by destruct (Hf Ho).
Qed.

Lemma resumable_files sidecar blob content w w' :
  (root_files (stage w') = root_files (stage w) \/ root_files (stage w') = delete sidecar (root_files (stage w))) ->
  (forall id, sessions (backend w') !! id = None \/ sessions (backend w') !! id = sessions (backend w) !! id) ->
  resumable sidecar blob content w -> resumable sidecar blob content w'.
Proof.
  intros Hf Hs Hr bytes p Hp Hd Hb Ht.
  assert (root_files (stage w) !! sidecar = Some bytes) as Hp'.
  { destruct Hf as [E|E]; rewrite E in Hp; [done|]. by rewrite lookup_delete_eq in Hp. }
  destruct (Hs (upload_id p)) as [Hn|Hsame]; [by apply agrees_none|].
  eapply agrees_same; [done|]. by eapply Hr.
Qed.

Lemma in_step_resumable sidecar blob id content w : in_step sidecar blob id content w -> resumable sidecar blob content w.
Proof. intros (off & Hs & Ha). by eapply sidecar_resumable. Qed.

Lemma settled_resumable sidecar blob content w w' :
  settled w w' -> resumable sidecar blob content w -> resumable sidecar blob content w'.
Proof. intros (_ & R & E). apply resumable_files; [by left|]. intros id. right. by rewrite E. Qed.

Lemma settled_in_step sidecar blob id content w w' :
  settled w w' -> in_step sidecar blob id content w -> in_step sidecar blob id content w'.
Proof.
  intros (_ & R & E) (off & (bytes & secs & Hf & Hd) & Ha). exists off. split; [|by rewrite E].
  exists bytes, secs. by rewrite R.
Qed.

Lemma wp_begin_session parent name blob sidecar content w :
  resumable sidecar blob content w ->
  wp (begin_session parent name blob sidecar (len content)) (λ r w', blobs (stage w') = blobs (stage w) /\
    match r with
    | Ok (id, off) => sidecar_is sidecar blob id (len content) off (stage w') /\ agrees (backend w') id content off
    | Err _ => resumable sidecar blob content w'
    end) w.
Proof.
  intros Hr. unfold begin_session. wp_step. unfold on_root at 1. wp_step. wp_call wp_load_progress.
  intros r d (K & Hl). pose proof K as (B1 & R1 & _).
  set (w1 := with_stage d w).
  assert (settled w w1) as F1 by by repeat split.
  pose proof (settled_resumable _ _ _ _ _ F1 Hr) as Hr1.
  destruct r as [loaded|e]; [|done].
  assert ((forall bytes p, root_files (stage w) !! sidecar = Some bytes -> decode_progress bytes = Some p ->
             ~ (up_blob_name p = blob /\ up_total_size p = len content)) ->
    wp (let! id := call (upload_create parent name) in
        let! secs := now_unix_secs in
        do! on_root (save_progress (mkUploadProgress id blob (len content) 0 secs) sidecar) in ok (id, 0%N))
      (λ r w', blobs (stage w') = blobs (stage w) /\
        match r with
        | Ok (id, off) => sidecar_is sidecar blob id (len content) off (stage w') /\ agrees (backend w') id content off
        | Err _ => resumable sidecar blob content w'
        end) w1) as Hfresh.
  { intros Hno.
    assert (forall w', root_files (stage w') = root_files (stage w) -> resumable sidecar blob content w') as Hvac.
    { intros w' E bytes p Hp Hd Hb Ht. rewrite E in Hp. by destruct (Hno bytes p Hp Hd). }
    wp_step. unfold call. wp_step. apply wp_run. destruct (upload_create parent name (backend w1)) as [[id|e] b'] eqn:Ecreate;
      cbn [fst snd]; [apply create_ok_law in Ecreate|by split; [|apply Hvac]].
    wp_step. apply wp_settled; [apply settled_unix|]. intros [secs|e] w2 (B2 & R2 & E2); cbn [stage with_backend] in *;
      [|split; [by rewrite B2|apply Hvac; by rewrite R2]].
    wp_step. unfold on_root. wp_step. wp_call wp_save_progress. intros [[]|e] d' [Bd Rd].
    - destruct Rd as (bytes & Hb & Rd). wp_step. cbn [stage with_stage backend].
      split; [by rewrite Bd, B2|].
      split; [|intros data Hd; rewrite E2 in Hd; cbn in Hd; rewrite Hd in Ecreate; cbn in Ecreate; subst; split; [done|cbn; lia]].
      exists bytes, secs. rewrite Rd, lookup_insert_eq. split; [done|]. by apply progress_round_trip.
    - cbn [stage with_stage]. split; [by rewrite Bd, B2|]. apply Hvac. cbn [stage with_stage]. by rewrite Rd, R2. }
  destruct loaded as [p|].
  - destruct Hl as (bytes & Hf & Hd). case_decide as Hm.
    + wp_step. split; [done|]. destruct Hm as [Hb Ht]. split.
      * exists bytes, (heartbeat_unix_secs p). cbn [stage w1 with_stage]. rewrite R1. split; [done|].
        rewrite Hd. by destruct p; simplify_eq/=.
      * by eapply Hr1; [cbn [stage w1 with_stage]; rewrite R1| | |].
    + apply Hfresh. intros bytes' p' Hf' Hd'. by simplify_eq.
  - apply Hfresh. intros bytes' p' Hf'. congruence.
Qed.

(** A session that ends well has published the staged content; one that fails leaves a state from
    which the next flush resumes. *)
Lemma wp_session o parent name blob sidecar content w :
  blobs (stage w) !! blob = Some content -> resumable sidecar blob content w ->
  wp (run_chunked_session o parent name blob sidecar (len content)) (λ r w',
    blobs (stage w') = blobs (stage w) /\ resumable sidecar blob content w' /\
    match r with Ok _ => remote (backend w') !! join_path parent name = Some content | Err _ => True end) w.
Proof.
  intros Hb Hr. unfold run_chunked_session. wp_step. wp_call (wp_begin_session parent name blob sidecar content w Hr).
  intros [[id off]|e] w1 (B1 & G1); [|done]. destruct G1 as (Hs1 & Ha1).
  assert (in_step sidecar blob id content w1) as I1 by by exists off.
  do 2 wp_step. apply wp_settled; [apply settled_open_blob|]. intros r w2 F2.
  pose proof (settled_in_step _ _ _ _ _ _ F2 I1) as I2.
  destruct r as [[]|e]; [|split; [by rewrite (proj1 F2)|split; [by eapply in_step_resumable|done]]].
  wp_step. apply wp_settled; [apply settled_sys|]. intros r w3 F3.
  assert (settled w1 w3) as F13 by by etrans. pose proof (settled_in_step _ _ _ _ _ _ F13 I1) as I3.
  destruct r as [[]|e]; [|split; [by rewrite (proj1 F13)|split; [by eapply in_step_resumable|done]]].
  destruct F13 as (B3 & R3 & E3).
  wp_step. eapply wp_mono; [apply (wp_chunk_loop o _ _ blob sidecar id _ content off w3)|].
  - by rewrite B3, B1.
  - destruct Hs1 as (bytes & secs & Hf & Hd). exists bytes, secs. by rewrite R3.
  - by rewrite E3.
  - intros r w4 (B4 & I4 & H4). destruct r as [[]|e];
      [|split; [congruence|split; [by eapply in_step_resumable|done]]].
    wp_step. unfold call. wp_step. apply wp_run.
    pose proof (save_session_law id parent name (len content) (backend w4)) as Hss.
    destruct (upload_save id parent name (len content) (backend w4)) as [r b'] eqn:Esave. cbn [fst snd] in *.
    set (w5 := with_backend b' w4).
    assert (in_step sidecar blob id content w5) as I5.
    { destruct I4 as (off' & Hs4 & Ha4). exists off'. split; [done|]. cbn [w5 backend with_backend].
      destruct Hss as [Hn|Hsame]; [by apply agrees_none|by eapply agrees_same]. }
    destruct r as [[]|e]; [|split; [cbn; congruence|split; [by eapply in_step_resumable|done]]].
    apply save_ok_law in Esave as (data & Hd & Hrem).
    unfold on_root. wp_step. wp_call wp_forget_progress. intros r d (_ & Bd & _ & Rd & _).
    cbn [stage with_stage backend]. split; [rewrite Bd; cbn; congruence|]. split.
    + eapply (resumable_files _ _ _ w5); [exact Rd|by right|by eapply in_step_resumable].
    + destruct r; [|done]. cbn [w5 backend with_backend]. rewrite Hrem. f_equal.
      by eapply agrees_all.
Qed.

Lemma wp_session_loop o n parent name blob sidecar content w :
  blobs (stage w) !! blob = Some content -> resumable sidecar blob content w ->
  wp (session_loop o n parent name blob sidecar (len content)) (λ r w',
    blobs (stage w') = blobs (stage w) /\ resumable sidecar blob content w' /\
    match r with Ok _ => remote (backend w') !! join_path parent name = Some content | Err _ => True end) w.
Proof.
  revert w; induction n as [|n IH]; intros w Hb Hr; cbn [session_loop]; do 2 wp_step;
    wp_call (wp_session o parent name blob sidecar content w Hb Hr); intros r w1 (B1 & R1 & G1).
  - by destruct r as [[]|[]]; wp_step.
  - destruct r as [[]|[]]; try (by wp_step). wp_step. unfold on_root at 1. wp_step. wp_call wp_forget_progress.
    intros r d (-> & Bd & _ & Rd & _). eapply wp_mono; [apply IH|].
    + cbn [stage with_stage]. by rewrite Bd, B1.
    + by apply (resumable_files _ _ _ w1); [exact Rd|right|].
    + cbn. intros r w' (Hb' & Hr'). split; [|done]. rewrite Hb'. congruence.
Qed.

(** * Names *)

(** Splitting and joining are inverse, on every path but the doubled root "//name". *)
Lemma split_join p parent name :
  split_parent_name p = Some (parent, name) -> (forall l, chars p <> slash :: slash :: l) ->
  join_path parent name = p.
Proof.
  unfold split_parent_name. case_bool_decide as Hp; [done|]. destruct (rfind slash (chars p)) as [idx|] eqn:Hr; [|done].
  case_bool_decide as Hn; [done|]. intros [= <- <-] Hcanon.
  apply rfind_Some in Hr as (l1 & l2 & E & Hl & _). rewrite E in *.
  rewrite <- Hl, take_app_length, Nat.add_1_r. change (l1 ++ slash :: l2) with (l1 ++ [slash] ++ l2).
  rewrite app_assoc, drop_app_length' by (rewrite length_app; cbn [length]; lia).
  apply chars_inj. rewrite E. unfold join_path. destruct l1 as [|c l1]; cbn [length].
  - rewrite !bool_decide_true by done. by rewrite chars_app, chars_str.
  - rewrite (bool_decide_false (S _ = 0)) by done.
    case_bool_decide as Hroot.
    + apply (f_equal chars) in Hroot. rewrite chars_str in Hroot. change (chars "/") with [slash] in Hroot.
      injection Hroot as -> ->. by destruct (Hcanon l2).
    + by rewrite !chars_app, !chars_str.
Qed.

(** * The property *)

Lemma wp_quiet {E A} (m : ST (Service B) E A) Q w :
  respects settled m -> respects budget_frame m -> (forall r w', settled w w' -> budget_frame w w' -> Q r w') -> wp m Q w.
Proof. intros Hs Hf HQ. rewrite wp_run. by apply HQ; [apply Hs|apply Hf]. Qed.

Lemma reset_dirty_handles o ino now w h :
  handles w !! ino = Some h ->
  exists w', reset_dirty o ino now w = (Ok tt, w') /\ settled w w' /\
    handles w' = <[ino := flushed_at now h]> (handles w).
Proof.
  intros Hh. unfold reset_dirty, get_handle, bind, gets. rewrite Hh. cbn [ok].
  unfold release_global. case_decide; eexists; (split; [reflexivity|]); (split; [done|]); by apply alter_alt_Some.
Qed.

Lemma wp_staged_path blob (Q : result string WritePathError -> Service B -> Prop) w :
  (blob_path blob = Ok blob -> Q (Ok blob) w) ->
  (blob_path blob = Err InvalidName -> Q (Err (WpStaging InvalidName)) w) -> wp (staged_path blob) Q w.
Proof.
  intros Hok Herr. unfold staged_path, on_stage. do 3 wp_step.
  assert (with_stage (stage w) w = w) as -> by by destruct w.
  destruct (blob_path blob) as [f|e] eqn:E.
  - pose proof (blob_path_ok _ _ E) as ->. by apply Hok.
  - assert (e = InvalidName) as -> by (unfold blob_path in E; case_match; congruence). by apply Herr.
Qed.

(** C11: Resuming is safe from a [resumable] state: a matching sidecar on disk, if there is one,
    claims no more than its session holds of the staged content, and the session is not longer than
    that. Whatever fails and however often it is retried, a chunked flush then does not touch the
    staged files; when it reports success the server's file is exactly the staged content and the
    handle is clean; and in any case what it leaves on disk and on the server is again resumable. A
    write over bytes already sent, between two flushes, leaves a state that is not:
    [resumed_flush_publishes_stale_bytes]. *)
Theorem chunked_flush_publishes_the_blob o ino w h content :
  handles w !! ino = Some h -> blobs (stage w) !! blob_name h = Some content ->
  resumable (progress_path ino) (blob_name h) content w ->
  let '(r, w') := chunked_flush o ino w in
  blobs (stage w') = blobs (stage w) /\ resumable (progress_path ino) (blob_name h) content w' /\
  match r with
  | Ok _ =>
      exists parent name now, split_parent_name (path h) = Some (parent, name) /\
        remote (backend w') !! join_path parent name = Some content /\
        handles w' = <[ino := flushed_at now h]> (handles w)
  | Err _ => handles w' = handles w
  end.
Proof.
  intros Hh Hb Hr. 
  assert (wp (chunked_flush o ino) (λ r w', blobs (stage w') = blobs (stage w) /\
    resumable (progress_path ino) (blob_name h) content w' /\
    match r with
    | Ok _ => exists parent name now, split_parent_name (path h) = Some (parent, name) /\
        remote (backend w') !! join_path parent name = Some content /\
        handles w' = <[ino := flushed_at now h]> (handles w)
    | Err _ => handles w' = handles w
    end) w) as Hwp; [|unfold wp in Hwp; by destruct (chunked_flush o ino w)].
  unfold chunked_flush. wp_step. unfold instant_now at 1, wp at 1.
  set (w1 := at_clock _ _ w). wp_step. apply wp_get_handle; [|cbn; congruence].
  intros h' Hh'. assert (h' = h) as -> by (cbn in Hh'; congruence).
  destruct (split_parent_name (path h)) as [[parent name]|] eqn:Hp; [|by wp_step].
  assert (forall w', settled w1 w' -> budget_frame w1 w' -> blobs (stage w') = blobs (stage w) /\
    resumable (progress_path ino) (blob_name h) content w' /\ handles w' = handles w) as Hkeep.
  { intros w' F [Fh _]. split; [apply F|]. split; [by eapply (settled_resumable _ _ _ w1)|done]. }
  wp_step. apply wp_quiet; [apply settled_journal_append|apply frame_journal_append|].
  intros [s|e] w2 F2 G2; [|by apply Hkeep].
  wp_step. apply wp_staged_path; intros _; [|by apply Hkeep].
  do 3 wp_step. wp_call wp_file_len. intros r d ((Bd & Rd & _) & Hr3). set (w3 := with_stage d w2).
  assert (settled w1 w3) as F13 by (etrans; [exact F2|by repeat split]).
  assert (budget_frame w1 w3) as G13 by (etrans; [exact G2|done]).
  destruct (Hkeep w3 F13 G13) as (B3 & R3 & H3h). destruct r as [total|e]; [|done].
  destruct Hr3 as (c & Hc & ->). rewrite (proj1 F2) in Hc. cbn in Hc.
  assert (c = content) as -> by congruence.
  wp_step. eapply wp_mono; [apply wp_and; [apply (wp_session_loop o 1 parent name (blob_name h) (progress_path ino) content w3)|
    apply respects_wp, frame_session_loop]|]; [by rewrite B3|done|].
  intros r w4 ((B4 & R4 & H4) & [G4 _]). destruct r as [[]|e]; [|split; [congruence|split; [done|congruence]]].
  wp_step. unfold instant_now at 1, wp at 1. set (w5 := at_clock _ _ w4). set (now := (_ + _)%N).
  apply wp_run. destruct (reset_dirty_handles o ino now w5 h) as (w6 & -> & F6 & Hh6); [cbn; congruence|].
  cbn [fst snd]. split; [rewrite (proj1 F6); cbn; congruence|]. split.
  - by eapply (settled_resumable _ _ _ w5).
  - exists parent, name, now. split; [done|]. destruct F6 as (_ & _ & ->). split; [done|].
    rewrite Hh6. cbn. congruence.
Qed.

(** * Fuel *)

Lemma bind_ext {W E A C} (m : ST W E A) (f g : A -> ST W E C) w :
  (forall a w', f a w' = g a w') -> bind m f w = bind m g w.
Proof. intros Hfg. unfold bind. by destruct (m w) as [[]]. Qed.

(** [total - off] turns are enough: more fuel changes nothing. *)
Lemma chunk_loop_fuel o fuel1 fuel2 lp blob sidecar id cb total off (w : Service B) :
  (0 < cb)%N -> N.to_nat (total - off) <= fuel1 -> N.to_nat (total - off) <= fuel2 ->
  chunk_loop o fuel1 lp blob sidecar id cb total off w = chunk_loop o fuel2 lp blob sidecar id cb total off w.
Proof.
  intros Hcb. revert fuel2 off w; induction fuel1 as [|fuel1 IH]; intros [|fuel2] off w L1 L2;
    cbn [chunk_loop]; case_decide as Hlt; try done; [lia..|].
  do 5 (apply bind_ext; intros ? ?). apply IH; lia.
Qed.

Lemma chunk_bytes_pos o : (0 < chunk_bytes o)%N.
Proof. unfold chunk_bytes. case_decide; [done|lia]. Qed.

(** * Success on an undisturbed system *)

(** The journal takes every [recordable] operation and the codec every sidecar; a [steady]
    backend takes every request in order and stays so. *)
Class Undisturbed (recordable : JournalOp -> Prop) (steady : B -> Prop) : Prop := {
  journal_accepts op j : recordable op -> exists s j', append None op j = (Ok s, j');
  codec_accepts p : is_Some (encode_progress p);
  create_accepts parent name b :
    steady b -> exists id b', upload_create parent name b = (Ok id, b') /\ sessions b' !! id = Some [] /\ steady b';
  write_accepts id off chunk b d :
    steady b -> sessions b !! id = Some d -> (off <= len d)%N ->
    exists b', upload_write id off chunk b = (Ok tt, b') /\ steady b';
  save_accepts id parent name b d :
    steady b -> sessions b !! id = Some d -> (upload_save id parent name (len d) b).1 = Ok tt;
}.

Section Completes.
Context `{!Undisturbed recordable steady}.

Lemma sys_ok {E} (e : E) d : outcomes d = [] -> sys e d = (Ok tt, d).
Proof. intros Ho. unfold sys, bind, syscall. by rewrite Ho. Qed.

Lemma journal_append_ok op (w : Service B) :
  recordable op -> outcomes (stage w) = [] -> exists s j, journal_append op w = (Ok s, with_journal j w).
Proof.
  intros Hop Ho. unfold journal_append, bind, on_root, zoom, syscall. rewrite Ho.
  assert (with_stage (stage w) w = w) as -> by by destruct w.
  destruct (journal_accepts op (journal w) Hop) as (s & j & ->). eauto.
Qed.

Lemma save_progress_ok p sidecar d :
  outcomes d = [] -> exists bytes, encode_progress p = Some bytes /\
    save_progress p sidecar d = (Ok tt, with_root_files (<[sidecar := bytes]> (root_files d)) d).
Proof.
  intros Ho. destruct (codec_accepts p) as [bytes Hb]. exists bytes. split; [done|].
  unfold save_progress, bind, lift. rewrite Hb. cbn [ok_or]. by rewrite !sys_ok.
Qed.

Lemma send_chunk_ok o id off chunk n k (w : Service B) d :
  steady (backend w) -> sessions (backend w) !! id = Some d -> len d = off ->
  exists b', send_chunk o id off chunk n k w = (Ok tt, with_backend b' w) /\
    sessions b' !! id = Some (d ++ chunk) /\ steady b'.
Proof.
  intros Hst Hd Ho. destruct (write_accepts id off chunk (backend w) d Hst Hd ltac:(lia)) as (b' & E & Hst').
  exists b'. split_and!; [| |done].
  - destruct n; cbn [send_chunk]; unfold bind, attempt, call, zoom; by rewrite E.
  - apply write_ok_law in E as (d' & Hd' & ->). f_equal. assert (d' = d) as -> by congruence.
    unfold len in Ho. rewrite <- Ho, Nat2N.id. apply write_at_end.
Qed.

Lemma chunk_loop_ok o fuel lp blob sidecar id content off (w : Service B) :
  (forall off n, (off + n <= len content)%N -> recordable (ChunkAck lp id off n)) ->
  steady (backend w) -> outcomes (stage w) = [] -> blobs (stage w) !! blob = Some content ->
  (off <= len content)%N -> sessions (backend w) !! id = Some (take (N.to_nat off) content) ->
  N.to_nat (len content - off) <= fuel ->
  wp (chunk_loop o fuel lp blob sidecar id (chunk_bytes o) (len content) off) (λ r w',
    r = Ok tt /\ outcomes (stage w') = [] /\ sessions (backend w') !! id = Some content /\ steady (backend w')) w.
Proof.
  intros Hack. pose proof (chunk_bytes_pos o) as Hcb.
  revert off w; induction fuel as [|fuel IH]; intros off w Hst Ho Hb Hle Hs Hf; cbn [chunk_loop]; case_decide as Hlt.
  1: lia.
  1, 3: wp_step; split_and!; [done..| |done]; rewrite Hs, take_ge; [done|]; unfold len in *; lia.
  set (want := N.min (chunk_bytes o) (len content - off)).
  assert (off + want <= len content)%N as Hw by lia. unfold len in Hle, Hw.
  set (chunk := take (N.to_nat want) (drop (N.to_nat off) content)).
  assert (length chunk = N.to_nat want) as Hc by (unfold chunk; rewrite length_take, length_drop; lia).
  wp_step. unfold read_exact, on_root. do 2 wp_step. unfold wp at 1. rewrite sys_ok by done.
  do 2 wp_step. cbn [stage with_stage]. rewrite Hb. change (default [] (Some content)) with content. fold chunk.
  rewrite decide_False by (unfold len; lia). wp_step.
  wp_step. unfold wp at 1.
  destruct (send_chunk_ok o id off chunk (N.to_nat (chunk_retry_attempts o)) 0 (with_stage (stage w) w) _ Hst Hs) as (b' & -> & Hs' & Hst').
  { unfold len. rewrite length_take. lia. }
  wp_step. unfold wp at 1.
  destruct (journal_append_ok (ChunkAck lp id off want) (with_backend b' (with_stage (stage w) w))
    (Hack off want Hw) Ho) as (s & j & ->).
  wp_step. unfold now_unix_secs at 1, wp at 1. do 2 wp_step. unfold wp at 1.
  match goal with |- context[save_progress ?p sidecar ?d] => destruct (save_progress_ok p sidecar d Ho) as (bytes & _ & ->) end.
  apply IH; [done|done|done|lia| |].
  - cbn [backend with_stage with_unix_clock with_journal with_backend]. rewrite Hs'. f_equal.
    unfold chunk. rewrite take_split. f_equal. lia.
  - unfold len in *. lia.
Qed.

Definition no_sidecar (ino : N) (w : Service B) : Prop := root_files (stage w) !! progress_path ino = None.

Lemma session_ok o parent name blob sidecar content (w : Service B) :
  (forall id off n, (off + n <= len content)%N -> recordable (ChunkAck (join_path parent name) id off n)) ->
  steady (backend w) -> outcomes (stage w) = [] -> blobs (stage w) !! blob = Some content -> blob_path blob = Ok blob ->
  root_files (stage w) !! sidecar = None ->
  wp (run_chunked_session o parent name blob sidecar (len content)) (λ r w',
    r = Ok tt /\ outcomes (stage w') = [] /\ root_files (stage w') !! sidecar = None) w.
Proof.
  intros Hack Hst Ho Hb Hn Hsc. unfold run_chunked_session, begin_session.
  wp_step. wp_step. unfold on_root at 1. wp_step. unfold load_progress. wp_step. unfold wp at 1. rewrite sys_ok by done.
  do 2 wp_step. rewrite Hsc. wp_step. wp_step. unfold call. wp_step. unfold wp at 1.
  cbn [backend with_stage].
  destruct (create_accepts parent name (backend w) Hst) as (id & b1 & -> & Hs1 & Hst1).
  wp_step. unfold now_unix_secs at 1, wp at 1. wp_step. unfold on_root at 1. wp_step. unfold wp at 1.
  match goal with |- context[save_progress ?p sidecar ?d] => destruct (save_progress_ok p sidecar d Ho) as (bytes & _ & ->) end.
  do 4 wp_step. unfold open_blob. do 2 wp_step. rewrite Hn. wp_step. unfold wp at 1. rewrite sys_ok by done.
  do 2 wp_step. cbn [stage with_stage with_unix_clock with_backend with_root_files blobs]. rewrite Hb. wp_step.
  wp_step. unfold on_root. wp_step. unfold wp at 1. rewrite sys_ok by done.
  wp_step. rewrite N.sub_0_r. eapply wp_mono; [apply (chunk_loop_ok o _ _ blob sidecar id content 0)|]; try done; [by apply Hack|lia|lia|].
  intros r w2 (-> & Ho2 & Hs2 & Hst2). wp_step. wp_step. unfold wp at 1.
  pose proof (save_accepts id parent name (backend w2) content Hst2 Hs2) as Hsave.
  destruct (upload_save id parent name (len content) (backend w2)) as [r b2]. cbn in Hsave. subst r.
  wp_step. wp_call wp_forget_progress. intros r d (-> & _ & Hc & _ & Hdel).
  split; [done|]. cbn [stage with_stage with_backend] in *. split; [by apply Hc|].
  by rewrite (Hdel Ho2), lookup_delete_eq.
Qed.

(** On an undisturbed system a chunked flush of an open file ends with success, hence with the
    staged content on the server, and leaves no sidecar. *)
Theorem chunked_flush_completes o ino (w : Service B) h content parent name :
  recordable (FlushBarrier (path h)) ->
  (forall id off n, (off + n <= len content)%N -> recordable (ChunkAck (join_path parent name) id off n)) ->
  steady (backend w) -> handles w !! ino = Some h -> blobs (stage w) !! blob_name h = Some content ->
  split_parent_name (path h) = Some (parent, name) -> blob_path (blob_name h) = Ok (blob_name h) ->
  outcomes (stage w) = [] -> no_sidecar ino w ->
  let '(r, w') := chunked_flush o ino w in
  r = Ok tt /\ no_sidecar ino w'.
Proof.
  intros Hbar Hack Hst Hh Hb Hp Hn Ho Hsc. unfold no_sidecar in *.
  enough (wp (chunked_flush o ino) (λ r w', r = Ok tt /\ root_files (stage w') !! progress_path ino = None) w) as Hwp
    by (unfold wp in Hwp; by destruct (chunked_flush o ino w)).
  unfold chunked_flush. wp_step. unfold instant_now at 1, wp at 1. set (w1 := at_clock _ _ w).
  wp_step. apply wp_get_handle; [|cbn; congruence].
  intros h' Hh'. assert (h' = h) as -> by (cbn in Hh'; congruence). rewrite Hp.
  wp_step. unfold wp at 1. destruct (journal_append_ok (FlushBarrier (path h)) w1 Hbar Ho) as (s & j & ->).
  wp_step. apply wp_staged_path; intros Hn'; [|congruence].
  do 3 wp_step. unfold file_len. wp_step. unfold wp at 1. rewrite sys_ok by done. do 2 wp_step.
  cbn [stage with_journal w1 at_clock]. rewrite Hb. wp_step. wp_step.
  cbn [session_loop]. do 2 wp_step.
  eapply wp_mono; [apply wp_and; [apply (session_ok o parent name (blob_name h) (progress_path ino) content); done|
    apply respects_wp, frame_session]|].
  intros r w2 ((-> & Ho2 & Hsc2) & [G2 _]). wp_step. wp_step. unfold instant_now at 1, wp at 1. set (w3 := at_clock _ _ w2).
  apply wp_run. match goal with |- context[reset_dirty o ino ?now w3] =>
    destruct (reset_dirty_handles o ino now w3 h) as (w4 & -> & F4 & _) end.
  { cbn [w3 handles at_clock]. by rewrite G2. }
  split; [done|]. cbn [snd]. destruct F4 as (_ & -> & _). done.
Qed.
End Completes.
End Chunked.

(** * The in-memory backend keeps the promises *)

#[export] Instance mock_laws : UploadBackendLaws MockUploadBackend.
Proof.
  refine {| sessions := in_progress; remote := uploads |}.
  - intros parent name b id b'. cbn [upload_create mock_backend]. intros E.
    destruct (disable_chunked b); [done|]. injection E as <- <-. cbn. by rewrite lookup_insert_eq.
  - intros id off chunk b b'. cbn [upload_write mock_backend]. intros E.
    repeat (case_match || case_decide; try done). simplify_eq. eexists. split; [done|].
    apply lookup_insert_eq.
  - intros id off chunk b e b'. cbn [upload_write mock_backend]. intros E.
    right. left. unfold default_upload_write, throw in E. repeat (case_match || case_decide); by simplify_eq.
  - intros id parent name total b b'. cbn [upload_save mock_backend]. intros E.
    destruct (disable_chunked b); [done|]. destruct (in_progress b !! id) as [bytes|] eqn:Hb; [|done].
    case_decide; [done|]. injection E as <-. exists bytes. split; [done|]. apply lookup_insert_eq.
  - intros id parent name total b. cbn [upload_save mock_backend].
    destruct (disable_chunked b); [by right|].
    destruct (in_progress b !! id) as [bytes|] eqn:Hb; [|by left].
    left. case_decide; apply lookup_delete_eq.
Defined.

(** A codec with room for every record: it keeps the sequence numbers of no operation. *)
Definition terse_journal : JournalCodec := {| to_vec _ := Some []; from_slice _ := None |}.

Definition mock_steady (b : MockUploadBackend) : Prop :=
  disable_chunked b = false /\ transient_writes_remaining b = 0%N /\ permanent_next_write b = false.

Lemma mock_undisturbed :
  @Undisturbed MockUploadBackend mock_backend mock_laws terse_journal binary_progress (λ _, True) mock_steady.
Proof.
  split.
  - intros op j _. unfold append. cbn [to_vec terse_journal]. eexists _, _. reflexivity.
  - intros p. by eexists.
  - intros parent name b (Hd & Ht & Hp). cbn [upload_create mock_backend]. rewrite Hd.
    eexists _, _. split; [done|]. split; [apply lookup_insert_eq|done].
  - intros id off chunk b d (Hd & Ht & Hp) Hs _. cbn [upload_write mock_backend]. rewrite Hd, Ht, Hp.
    cbn [sessions mock_laws] in Hs. rewrite Hs. eexists. by split.
  - intros id parent name b d (Hd & Ht & Hp) Hs. cbn [upload_save mock_backend]. rewrite Hd.
    cbn [sessions mock_laws] in Hs. rewrite Hs. by case_decide.
Qed.

(** * Examples and counterexamples *)

#[local] Existing Instance binary_progress.
#[local] Existing Instance binary_progress_laws.
#[local] Existing Instance terse_journal.

Definition toy_options : WritePathOptions :=
  mkWritePathOptions 1000 (from_secs 30) 4 100 2 (from_secs 1) 500.

(** The test of [resumable] on a given state. *)
Definition resumable_now (sidecar blob : string) (content : list byte) (w : Service MockUploadBackend) : bool :=
  match root_files (stage w) !! sidecar with
  | None => true
  | Some bytes =>
      match decode_progress bytes with
      | None => true
      | Some p =>
          match in_progress (backend w) !! upload_id p with
          | None => true
          | Some d => bool_decide (take (N.to_nat (acked_offset p)) d = take (N.to_nat (acked_offset p)) content
                                   /\ length d <= length content)
          end
      end
  end.

Lemma resumable_now_ok sidecar blob content w :
  resumable_now sidecar blob content w = true -> resumable sidecar blob content w.
Proof.
  unfold resumable_now. intros Hn bytes p Hf Hd _ _ d Hs. cbn [sessions mock_laws] in Hs.
  rewrite Hf, Hd, Hs in Hn. by apply bool_decide_eq_true in Hn.
Qed.

(** An upload of ten bytes that stops after its first chunk of four. *)
Definition toy_staged : Service MockUploadBackend :=
  fuse_run toy_options [CreateFile 7 "/" "f"; WriteAt 7 0 (chars "abcdefghij")] mock_service.

Definition with_outcomes (fs : list (option nat)) (w : Service MockUploadBackend) : Service MockUploadBackend :=
  with_stage (mkStagingDir (blobs (stage w)) (root_files (stage w)) fs) w.

Definition toy_interrupted : Service MockUploadBackend :=
  (chunked_flush toy_options 7 (with_outcomes (replicate 15 None ++ [Some 0]) toy_staged)).2.

Definition toy_handle : WriteHandle := mkWriteHandle "/f" "ino-7.blob" 10 0 false.

Example toy_interrupted_sidecar :
  (root_files (stage toy_interrupted) !! "ino-7.upload-progress" ≫= decode_progress) =
    Some (mkUploadProgress 1 "ino-7.blob" 10 4 0).
Proof. vm_compute. reflexivity. Qed.

Lemma chunked_flush_publishes_the_blob_witness :
  let '(r, w') := chunked_flush toy_options 7 toy_interrupted in
  blobs (stage w') = blobs (stage toy_interrupted) /\
  resumable (progress_path 7) "ino-7.blob" (chars "abcdefghij") w' /\
  match r with
  | Ok _ =>
      exists parent name now, split_parent_name "/f" = Some (parent, name) /\
        remote (backend w') !! join_path parent name = Some (chars "abcdefghij") /\
        handles w' = <[7%N := flushed_at now toy_handle]> (handles toy_interrupted)
  | Err _ => handles w' = handles toy_interrupted
  end.
Proof.
  apply (chunked_flush_publishes_the_blob toy_options 7 toy_interrupted toy_handle (chars "abcdefghij")).
  - vm_compute. reflexivity.
  - vm_compute. reflexivity.
  - apply resumable_now_ok. vm_compute. reflexivity.
Defined.

Lemma chunked_flush_completes_witness :
  let '(r, w') := chunked_flush toy_options 7 toy_staged in
  r = Ok tt /\ root_files (stage w') !! progress_path 7 = None.
Proof.
  apply (@chunked_flush_completes _ _ mock_laws _ _ _ _ mock_undisturbed toy_options 7 toy_staged toy_handle
    (chars "abcdefghij") "/" "f"); try done; vm_compute; reflexivity.
Defined.

(** The sidecar compares sizes only: a byte overwritten between an interrupted upload and the
    next one is not sent, and the flush reports success. *)
Definition toy_overwritten : Service MockUploadBackend :=
  fuse_run toy_options [WriteAt 7 0 (chars "X")] (with_outcomes [] toy_interrupted).

Lemma resumed_flush_publishes_stale_bytes :
  let '(r, w') := chunked_flush toy_options 7 toy_overwritten in
  r = Ok tt /\ blobs (stage w') !! "ino-7.blob" = Some (chars "Xbcdefghij") /\
  remote (backend w') !! "/f" = Some (chars "abcdefghij").
Proof. vm_compute. by split_and!. Qed.

(** A sidecar that cannot be decoded is neither removed nor overwritten, so no chunked flush of
    the inode ever succeeds again. *)
Lemma corrupt_sidecar_blocks {B} `{FileUploadBackend B, JournalCodec, ProgressCodec} o ino (w : Service B) bytes :
  root_files (stage w) !! progress_path ino = Some bytes -> decode_progress bytes = None ->
  let '(r, w') := chunked_flush o ino w in
  is_ok r = false /\ root_files (stage w') = root_files (stage w).
Proof.
  intros Hf Hd.
  enough (wp (chunked_flush o ino) (λ r w', is_ok r = false /\ root_files (stage w') = root_files (stage w)) w) as Hwp
    by (unfold wp in Hwp; by destruct (chunked_flush o ino w)).
  unfold chunked_flush. wp_step. unfold instant_now at 1, wp at 1. wp_step.
  apply wp_get_handle; [|done]. intros h _. destruct (split_parent_name (path h)) as [[parent name]|]; [|by wp_step].
  wp_step. apply wp_settled; [apply settled_journal_append|]. intros [sq|e] w2 (_ & R2 & _); [|done].
  wp_step. apply wp_staged_path; intros _; [|done].
  do 2 wp_step. apply wp_settled; [apply settled_file_len|]. intros [total|e] w3 (_ & R3 & _);
    assert (root_files (stage w3) = root_files (stage w)) as R13 by (etrans; [exact R3|exact R2]); [|done].
  wp_step. cbn [session_loop]. do 2 wp_step. unfold run_chunked_session, begin_session. do 2 wp_step.
  unfold on_root at 1. wp_step. unfold load_progress. wp_step.
  apply wp_sys_kept; [|by intros d (_ & Rd & _) _; wp_step; split; [|cbn; congruence]].
  intros d (_ & Rd & _). do 2 wp_step. rewrite Rd, R13, Hf, Hd. repeat wp_step. split; [done|]. cbn. congruence.
Qed.
