(* ===== verification/StagedData.v ===== *)
(** Where written bytes go (crates/pcloud-fs/src/write_path.rs): the staging blob a write changes,
    the record of it in the journal, and reading it back. *)
From S2P Require Import Prelude Paths Bytes Clock StateError WriteJournal Staging WritePath UploadMock StagingBudget ChunkedFlush.

Section Data.
Context {B : Type} `{FileUploadBackend B, JournalCodecLaws, ProgressCodec}.

(** * Calls that leave every blob alone *)

Definition same_blobs (w w' : Service B) : Prop := blobs (stage w') = blobs (stage w).

#[local] Instance same_blobs_preorder : PreOrder same_blobs.
Proof. split; [done|]. intros w1 w2 w3 E1 E2. unfold same_blobs in *. congruence. Qed.

Lemma same_blobs_settled {E A} (m : ST (Service B) E A) : respects settled m -> respects same_blobs m.
Proof. intros Hm w. apply Hm. Qed.

Lemma same_blobs_call {A} (m : ST B WritePathError A) : respects same_blobs (call m).
Proof. intros w. unfold call, zoom. by destruct (m (backend w)). Qed.

Lemma same_blobs_sleep d : respects same_blobs (sleep d).
Proof. by intros w. Qed.

Lemma same_blobs_disk {E A} (m : ST StagingDir E A) :
  (forall d, wp m (λ _ d', blobs d' = blobs d) d) -> respects same_blobs (zoom stage with_stage m).
Proof.
  intros Hm w. specialize (Hm (stage w)). unfold wp, zoom in *. by destruct (m (stage w)).
Qed.

Lemma same_blobs_save p sidecar : respects same_blobs (on_root (save_progress p sidecar)).
Proof. apply same_blobs_disk. intros d. wp_call wp_save_progress. by intros ? ? []. Qed.
Lemma same_blobs_load sidecar : respects same_blobs (on_root (load_progress sidecar)).
Proof. apply same_blobs_disk. intros d. wp_call wp_load_progress. by intros ? ? [[]]. Qed.
Lemma same_blobs_forget sidecar : respects same_blobs (on_root (forget_progress sidecar)).
Proof. apply same_blobs_disk. intros d. wp_call wp_forget_progress. by intros ? ? (? & ? & ?). Qed.
Lemma same_blobs_append op : respects same_blobs (journal_append op).
Proof. apply same_blobs_settled, settled_journal_append. Qed.
Lemma same_blobs_read_exact blob off want : respects same_blobs (read_exact blob off want).
Proof. apply same_blobs_settled, settled_read_exact. Qed.
Lemma same_blobs_sys {E} (e : E) : respects same_blobs (zoom stage with_stage (sys e)).
Proof. apply same_blobs_settled, settled_sys. Qed.
Lemma same_blobs_open p : respects same_blobs (zoom stage with_stage (open_blob p)).
Proof. apply same_blobs_settled, settled_open_blob. Qed.
Lemma same_blobs_len p : respects same_blobs (zoom stage with_stage (file_len p)).
Proof. apply same_blobs_settled, settled_file_len. Qed.
Lemma same_blobs_now : respects same_blobs instant_now.
Proof. by intros w. Qed.
Lemma same_blobs_unix : respects same_blobs now_unix_secs.
Proof. by intros w. Qed.
Lemma same_blobs_staged_path blob : respects same_blobs (staged_path blob).
Proof. intros w. apply (wp_run (staged_path blob) (λ _, same_blobs w)). by apply wp_staged_path. Qed.
Lemma same_blobs_get ino : respects same_blobs (get_handle ino).
Proof. unfold get_handle. respects_auto. Qed.
Lemma same_blobs_reset o ino now : respects same_blobs (reset_dirty o ino now).
Proof.
  unfold reset_dirty, release_global. respects_auto; try apply same_blobs_get;
    by apply respects_modify.
Qed.

#[local] Hint Resolve same_blobs_call same_blobs_sleep same_blobs_save same_blobs_load
  same_blobs_forget same_blobs_append same_blobs_read_exact same_blobs_sys same_blobs_open same_blobs_len
  same_blobs_now same_blobs_unix same_blobs_staged_path same_blobs_get same_blobs_reset : respects.

Lemma same_blobs_send o id off chunk n k : respects same_blobs (send_chunk o id off chunk n k).
Proof. revert k; induction n as [|n IH]; intros k; cbn [send_chunk]; respects_auto. Qed.
#[local] Hint Resolve same_blobs_send : respects.

Lemma same_blobs_chunk_loop o fuel lp blob sc id cb total off :
  respects same_blobs (chunk_loop o fuel lp blob sc id cb total off).
Proof. revert off; induction fuel as [|fuel IH]; intros off; cbn [chunk_loop]; respects_auto. Qed.
#[local] Hint Resolve same_blobs_chunk_loop : respects.

Lemma same_blobs_session o parent name blob sc total :
  respects same_blobs (run_chunked_session o parent name blob sc total).
Proof. unfold run_chunked_session, begin_session. respects_auto. Qed.
#[local] Hint Resolve same_blobs_session : respects.

Lemma same_blobs_session_loop o n parent name blob sc total :
  respects same_blobs (session_loop o n parent name blob sc total).
Proof. induction n as [|n IH]; cbn [session_loop]; respects_auto. Qed.
#[local] Hint Resolve same_blobs_session_loop : respects.

Lemma same_blobs_chunked_flush o ino : respects same_blobs (chunked_flush o ino).
Proof. unfold chunked_flush. respects_auto. Qed.

Lemma same_blobs_flush o ino : respects same_blobs (flush o ino).
Proof. unfold flush, on_stage. respects_auto. Qed.
#[local] Hint Resolve same_blobs_chunked_flush same_blobs_flush : respects.

Lemma same_blobs_trigger o ino dirty now last : respects same_blobs (trigger_flush o ino dirty now last).
Proof. unfold trigger_flush. respects_auto. Qed.
#[local] Hint Resolve same_blobs_trigger : respects.

(** * Calls and the journal *)

Definition same_journal (w w' : Service B) : Prop := journal w' = journal w.

#[local] Instance same_journal_preorder : PreOrder same_journal.
Proof. split; [done|]. intros w1 w2 w3 E1 E2. unfold same_journal in *. congruence. Qed.

Lemma same_journal_zoom {V E A} (get : Service B -> V) set (m : ST V E A) :
  (forall v w, journal (set v w) = journal w) -> respects same_journal (zoom get set m).
Proof. intros Hs w. unfold zoom. destruct (m (get w)). apply Hs. Qed.
Lemma same_journal_stage {E A} (m : ST StagingDir E A) : respects same_journal (zoom (stage (B:=B)) with_stage m).
Proof. by apply same_journal_zoom. Qed.
Lemma same_journal_call {A} (m : ST B WritePathError A) : respects same_journal (call m).
Proof. by apply same_journal_zoom. Qed.
Lemma same_journal_modify f :
  (forall w : Service B, journal (f w) = journal w) -> respects (E:=WritePathError) same_journal (modify f).
Proof. intros Hf w. apply Hf. Qed.

#[local] Hint Resolve same_journal_stage same_journal_call : respects.

(** The journal, when intact, gains complete records unless its own append fails. *)
Definition tracks {A} (m : ST (Service B) WritePathError A) : Prop := forall w rs,
  holds (journal w) rs ->
  wp m (λ r w', match r with Err (WpJournal _) => True | _ => exists more, holds (journal w') (rs ++ more) end) w.

Lemma tracks_same {A} (m : ST (Service B) WritePathError A) : respects same_journal m -> tracks m.
Proof.
  intros Hm w rs Hj. rewrite wp_run, (Hm w).
  assert (exists more, holds (journal w) (rs ++ more)) by by exists []; rewrite app_nil_r.
  by destruct (m w).1 as [|[]].
Qed.

Lemma tracks_bind {A C} (m : ST (Service B) WritePathError A) (f : A -> ST (Service B) WritePathError C) :
  tracks m -> (forall a, tracks (f a)) -> tracks (bind m f).
Proof.
  intros Hm Hf w rs Hj. wp_step. wp_call (Hm w rs Hj). intros [a|e] w1; [|done].
  intros [more1 G1]. wp_call (Hf a w1 _ G1). intros r w2 G2.
  assert (forall m2, holds (journal w2) ((rs ++ more1) ++ m2) -> exists more, holds (journal w2) (rs ++ more)) as Ha.
  { intros m2. rewrite <- app_assoc. eauto. }
  destruct r as [|[]]; naive_solver.
Qed.

Lemma tracks_try {A C} (m : ST (Service B) WritePathError A) (f : result A WritePathError -> ST (Service B) WritePathError C) :
  tracks m -> (forall a, tracks (f (Ok a))) -> (forall e, tracks (f (Err e))) ->
  (forall j, f (Err (WpJournal j)) = throw (WpJournal j)) -> tracks (bind (attempt m) f).
Proof.
  intros Hm Hok Herr Hj w rs Hw. do 2 wp_step. wp_call (Hm w rs Hw). intros r w1 G1.
  assert (forall m1 Q, holds (journal w1) (rs ++ m1) -> tracks Q -> wp Q (λ (r : result C _) w',
    match r with Err (WpJournal _) => True | _ => exists more, holds (journal w') (rs ++ more) end) w1) as Ha.
  { intros m1 Q Hm1 HQ. wp_call (HQ w1 _ Hm1). intros r2 w2 G2. destruct r2 as [|[]]; try done;
      destruct G2 as [m2 G2]; exists (m1 ++ m2); by rewrite app_assoc. }
  destruct r as [a|e]; [destruct G1 as [m1 G1]; by eapply Ha|].
  destruct e; try (destruct G1 as [m1 G1]; by eapply Ha). by rewrite Hj.
Qed.

Lemma journal_append_spec op (w : Service B) rs :
  holds (journal w) rs ->
  wp (journal_append op) (λ r w', blobs (stage w') = blobs (stage w) /\ handles w' = handles w /\
    match r with
    | Ok s => holds (journal w') (rs ++ [mkRecord s op])
    | Err e => exists j, e = WpJournal j
    end) w.
Proof.
  intros Hj. apply (wp_mono _ (λ r w', (same_blobs w w' /\ budget_frame w w') /\ match r with
    | Ok s => holds (journal w') (rs ++ [mkRecord s op]) | Err e => exists j, e = WpJournal j end));
    [|by intros r w' ((? & ? & ?) & ?)].
  apply wp_and; [apply wp_and; apply respects_wp; [apply same_blobs_append|apply frame_journal_append]|].
  unfold journal_append, on_root. do 2 wp_step. apply wp_syscall. intros io fs _.
  set (w1 := with_stage _ w). assert (holds (journal w1) rs) as Hj1 by done. clearbody w1. unfold wp.
  destruct (append_cases io op (journal w1) (proj1 Hj1)) as [(e & -> & _)|(payload & Henc & ->)]; [by eexists|].
  destruct io; [by eexists|]. by apply holds_snoc.
Qed.

Lemma journal_append_kept op (w : Service B) :
  wp (journal_append op) (λ r w', blobs (stage w') = blobs (stage w) /\
    forall rs, holds (journal w) rs -> match r with
      | Ok s => holds (journal w') (rs ++ [mkRecord s op])
      | Err e => exists j, e = WpJournal j
      end) w.
Proof.
  apply wp_and; [exact (respects_wp same_blobs _ w (same_blobs_append op))|]. apply wp_forall. intros rs Hj.
  wp_call (journal_append_spec op w rs Hj). by intros r w' (_ & _ & Hr).
Qed.

Lemma tracks_append op : tracks (journal_append op).
Proof.
  intros w rs Hj. wp_call (journal_append_spec op w rs Hj). intros r w' (_ & _ & Hr).
  destruct r as [s|e]; [eauto|]. by destruct Hr as [j ->].
Qed.

Ltac same_journal_auto :=
  apply tracks_same; respects_auto; try (by apply same_journal_modify); try (by intros ?).
Ltac tracks_step :=
  match goal with
  | |- tracks (journal_append _) => apply tracks_append
  | |- tracks (match ?x with _ => _ end) => destruct x
  | |- tracks (let '(_, _) := ?x in _) => destruct x
  | |- tracks (bind ?m _) => apply tracks_bind; [solve [same_journal_auto]|intros ?]
  | |- tracks (bind (attempt _) _) => apply tracks_try; [|intros ?..|done]
  | |- tracks (bind _ _) => apply tracks_bind; [|intros ?]
  | |- tracks _ => solve [same_journal_auto]
  end.
Ltac tracks_auto := repeat tracks_step.

Lemma tracks_send o id off chunk n k : tracks (send_chunk o id off chunk n k).
Proof.
  apply tracks_same. revert k; induction n as [|n IH]; intros k; cbn [send_chunk]; respects_auto. by intros ?.
Qed.

Lemma tracks_chunk_loop o fuel lp blob sc id cb total off :
  tracks (chunk_loop o fuel lp blob sc id cb total off).
Proof.
  revert off; induction fuel as [|fuel IH]; intros off; cbn [chunk_loop]; unfold read_exact, on_root, now_unix_secs;
    tracks_auto; try apply tracks_send; apply IH.
Qed.

Lemma tracks_session o parent name blob sc total : tracks (run_chunked_session o parent name blob sc total).
Proof.
  unfold run_chunked_session, begin_session, on_root, now_unix_secs. tracks_auto. apply tracks_chunk_loop.
Qed.

Lemma tracks_session_loop o n parent name blob sc total : tracks (session_loop o n parent name blob sc total).
Proof.
  induction n as [|n IH]; cbn [session_loop]; unfold on_root; tracks_auto; try apply tracks_session; apply IH.
Qed.

Lemma tracks_reset o ino now : tracks (reset_dirty o ino now).
Proof. unfold reset_dirty, get_handle, release_global, update_handle. tracks_auto. Qed.

Lemma tracks_chunked_flush o ino : tracks (chunked_flush o ino).
Proof.
  unfold chunked_flush, get_handle, staged_path, on_stage, instant_now.
  tracks_auto; [apply tracks_session_loop|apply tracks_reset].
Qed.

Lemma tracks_flush o ino : tracks (flush o ino).
Proof.
  unfold flush, get_handle, staged_path, on_stage, instant_now. tracks_auto. apply tracks_reset.
Qed.

Lemma tracks_trigger o ino dirty now last : tracks (trigger_flush o ino dirty now last).
Proof.
  unfold trigger_flush. tracks_auto; try apply tracks_chunked_flush; apply tracks_flush.
Qed.

(** * Handles keep their file *)

Definition same_names (w w' : Service B) : Prop :=
  forall ino, (λ h, (blob_name h, path h)) <$> handles w' !! ino = (λ h, (blob_name h, path h)) <$> handles w !! ino.

#[local] Instance same_names_preorder : PreOrder same_names.
Proof. split; [by intros w ino|]. intros w1 w2 w3 E1 E2 ino. by rewrite E2. Qed.

Lemma same_names_frame {E A} (m : ST (Service B) E A) : respects budget_frame m -> respects same_names m.
Proof. intros Hm w ino. by rewrite (proj1 (Hm w)). Qed.

Lemma same_names_update ino f :
  (forall h, blob_name (f h) = blob_name h /\ path (f h) = path h) -> respects same_names (update_handle ino f).
Proof.
  intros Hf w i. cbn [update_handle modify snd handles with_handles].
  destruct (decide (ino = i)) as [->|Hne]; [|by rewrite lookup_alter_ne].
  rewrite lookup_alter_eq. destruct (handles w !! i) as [h|]; [|done]. cbn. by destruct (Hf h) as [-> ->].
Qed.

Lemma same_names_reset o ino now : respects same_names (reset_dirty o ino now).
Proof.
  unfold reset_dirty, release_global. respects_auto; try (by intros w i);
    try (by apply same_names_update); apply same_names_frame, frame_get_handle.
Qed.

#[local] Hint Resolve same_names_reset same_names_frame frame_stage frame_root frame_call
  frame_get_handle frame_journal_append frame_session_loop : respects.

Lemma same_names_now : respects same_names instant_now.
Proof. by intros w ino. Qed.
Lemma same_names_staged_path blob : respects same_names (staged_path blob).
Proof. apply same_names_frame, frame_stage. Qed.
#[local] Hint Resolve same_names_now same_names_staged_path : respects.

Lemma same_names_trigger o ino dirty now last : respects same_names (trigger_flush o ino dirty now last).
Proof. unfold trigger_flush, chunked_flush, flush. respects_auto. Qed.

(** * The properties *)

Lemma wp_reserve o n (w : Service B) :
  wp (reserve_global o n) (λ _ w', stage w' = stage w /\ journal w' = journal w /\ handles w' = handles w) w.
Proof. unfold reserve_global. repeat (case_decide || wp_step); done. Qed.

Lemma wp_append_offset blob (w : Service B) :
  wp (append_offset blob) (λ r w', same_blobs w w' /\ journal w' = journal w /\ handles w' = handles w /\
    exists off, r = Ok off /\
      (outcomes (stage w) = [] -> blob_path blob = Ok blob -> off = len (default [] (blobs (stage w) !! blob)))) w.
Proof.
  unfold append_offset, on_stage. do 6 wp_step. destruct (blob_path blob) as [f|e] eqn:Hp.
  - apply blob_path_ok in Hp as ->. wp_call wp_file_len. intros r d ((Bd & _) & Hr). wp_step.
    split; [done|]. do 2 (split; [done|]). eexists. split; [done|]. intros Ho _.
    destruct r as [n|e]; [by destruct Hr as (c & -> & ->)|]. destruct Hr as [?|E]; [done|by rewrite E].
  - wp_step. do 3 (split; [by destruct w|]). eexists. by split.
Qed.

(** What a blob holds; an absent one reads as empty. *)
Definition staged_content (blob : string) (w : Service B) : list byte := default [] (blobs (stage w) !! blob).

Definition write_outcome (ino offset : N) (data : list byte) (w : Service B) (h : WriteHandle)
    (r : result N WritePathError) (w' : Service B) : Prop :=
  (forall name, name <> blob_name h -> blobs (stage w') !! name = blobs (stage w) !! name) /\
  match r with
  | Ok n => n = len data /\ exists off,
      (append_mode h = false -> off = offset) /\
      (append_mode h = true -> outcomes (stage w) = [] -> blob_path (blob_name h) = Ok (blob_name h) ->
         off = len (default [] (blobs (stage w) !! blob_name h))) /\
      blobs (stage w') !! blob_name h =
        Some (write_at (N.to_nat off) data (default [] (blobs (stage w) !! blob_name h))) /\
      forall rs, holds (journal w) rs -> exists s more,
        replay (journal w') = Ok (rs ++ mkRecord s (Write (path h) off (len data) (blob_name h)) :: more)
  | Err _ => True
  end.

Lemma wp_write o ino offset data (w : Service B) h :
  handles w !! ino = Some h -> wp (write o ino offset data) (write_outcome ino offset data w h) w.
Proof.
  intros Hh. unfold write_outcome. set (blob := blob_name h). set (old := default [] (blobs (stage w) !! blob)).
  unfold write. wp_step. apply wp_get_handle; [|congruence]. intros h' Hh'. assert (h' = h) as -> by congruence.
  fold blob. wp_step.
  assert (wp (if append_mode h then append_offset blob else ok offset) (λ r w', same_blobs w w' /\
    journal w' = journal w /\ exists off, r = Ok off /\ (append_mode h = false -> off = offset) /\
      (append_mode h = true -> outcomes (stage w) = [] -> blob_path blob = Ok blob -> off = len old)) w) as Hoff.
  { destruct (append_mode h); [|wp_step; naive_solver].
    wp_call wp_append_offset. intros r w1 (B1 & J1 & _ & off & -> & E). split; [done|]. split; [done|].
    exists off. by split_and!. }
  wp_call Hoff. intros r w1 (B1 & J1 & off & -> & Eoff & Eapp).
  case_decide; [wp_step; split; [intros; by rewrite B1|done]|].
  wp_step. wp_call wp_reserve. intros r w2 (S2 & J2 & _).
  destruct r as [[]|e]; [|split; [intros; by rewrite S2, B1|done]].
  wp_step. unfold on_stage. do 2 wp_step. wp_call wp_write_blob_at. intros r d ([_ _ Od] & Hd).
  assert (forall name, name <> blob -> blobs d !! name = blobs (stage w) !! name) as Hother.
  { intros name Hn. by rewrite Od, S2, B1. }
  destruct r as [n|e]; [|done].
  assert (blobs d !! blob = Some (write_at (N.to_nat off) data old)) as Hblob.
  { rewrite Hd, S2, B1. apply lookup_insert_eq. }
  wp_step. wp_call (journal_append_kept (Write (path h) off (len data) blob) (with_stage d w2)).
  intros r w3 (B3 & J3). cbn [stage journal with_stage] in B3, J3. rewrite J2, J1 in J3.
  destruct r as [s|e]; [|split; [intros; rewrite B3; auto|done]].
  wp_step. unfold update_handle. wp_step. wp_step. unfold instant_now at 1, wp at 1.
  set (w4 := at_clock _ _ _). set (dirty := u64_saturating_add (dirty_bytes h) (len data)). set (now := (_ + _)%N).
  wp_step. eapply wp_mono; [apply wp_and; [apply respects_wp, (same_blobs_trigger o ino dirty now (last_flush h))|
    apply (wp_forall _ (λ rs, holds (journal w) rs)); intros rs Hj;
    exact (tracks_trigger o ino dirty now (last_flush h) w4 _ (J3 rs Hj))]|].
  intros r w5 (B5 & Hr5). change (blobs (stage w5) = blobs (stage w3)) in B5.
  destruct r as [[]|e]; [|split; [intros; rewrite B5, B3; auto|done]]. wp_step.
  split; [intros; rewrite B5, B3; auto|]. split; [done|].
  exists off. split_and!; [done|done|by rewrite B5, B3|]. intros rs Hj.
  destruct (Hr5 rs Hj) as [more Hm]. exists s, more. rewrite (replay_holds _ _ Hm). by rewrite <- app_assoc.
Qed.

(** C12: An acknowledged write is durable.  Whatever else fails, when [write] returns [Ok] the bytes
    are in the inode's staging blob at the offset asked for (at its end for an append on a
    working disk), the other blobs are untouched, and a journal that was intact replays to what
    it held before, the record of this write, and later records. *)
Theorem acknowledged_write_is_durable o ino offset data (w : Service B) h rs :
  handles w !! ino = Some h -> holds (journal w) rs ->
  let '(r, w') := write o ino offset data w in
  (forall name, name <> blob_name h -> blobs (stage w') !! name = blobs (stage w) !! name) /\
  match r with
  | Ok n => n = len data /\ exists off s more,
      (append_mode h = false -> off = offset) /\
      (append_mode h = true -> outcomes (stage w) = [] -> blob_path (blob_name h) = Ok (blob_name h) ->
         off = len (staged_content (blob_name h) w)) /\
      blobs (stage w') !! blob_name h =
        Some (write_at (N.to_nat off) data (staged_content (blob_name h) w)) /\
      replay (journal w') = Ok (rs ++ mkRecord s (Write (path h) off (len data) (blob_name h)) :: more)
  | Err _ => True
  end.
Proof.
  intros Hh Hj. pose proof (wp_write o ino offset data w h Hh) as Hwp. unfold wp in Hwp.
  destruct (write o ino offset data w) as [r w']. destruct Hwp as [Ho Hr]. split; [done|].
  destruct r as [n|e]; [|done]. destruct Hr as (-> & off & E1 & E2 & Hb & Hrep). split; [done|].
  destruct (Hrep rs Hj) as (s & more & Hm). exists off, s, more. by split_and!.
Qed.

Lemma slice_write_at n (d c : list byte) :
  n + length d <= length (write_at n d c) /\ take (length d) (drop n (write_at n d c)) = d.
Proof.
  unfold write_at. set (pre := take n c ++ replicate (n - length c) (to_byte 0)).
  assert (length pre = n) as Hp by (unfold pre; rewrite length_app, length_take, length_replicate; lia).
  rewrite app_assoc. fold pre. split; [rewrite !length_app; lia|].
  rewrite drop_app_length' by done. apply take_app_length.
Qed.

Lemma same_names_write o ino offset data : respects same_names (write o ino offset data).
Proof.
  unfold write, reserve_global, append_offset. respects_auto; try (by intros w i);
    try (by apply same_names_update); try apply same_names_trigger.
Qed.

(** Reading back an acknowledged write gives exactly the bytes written, also when the write
    uploaded the file on the way. *)
Theorem written_bytes_read_back o ino offset data (w : Service B) h :
  handles w !! ino = Some h -> append_mode h = false -> blob_path (blob_name h) = Ok (blob_name h) ->
  (offset + len data <= U64_MAX)%N ->
  let '(r, w') := write o ino offset data w in
  is_ok r = true -> outcomes (stage w') = [] -> (read_staged ino offset (len data) w').1 = Ok data.
Proof.
  intros Hh Happ Hp Hmax. pose proof (wp_write o ino offset data w h Hh) as Hwp. unfold wp in Hwp.
  pose proof (same_names_write o ino offset data w ino) as Hn. rewrite Hh in Hn.
  destruct (write o ino offset data w) as [r w']. cbn [snd] in Hn. destruct Hwp as [_ Hr].
  intros Hok Ho. destruct r as [n|e]; [|done]. destruct Hr as (_ & off & E1 & _ & Hb & _).
  rewrite (E1 Happ) in Hb. clear E1.
  destruct (handles w' !! ino) as [h'|] eqn:Hh'; [|done]. cbn in Hn. injection Hn as Hn _.
  destruct (slice_write_at (N.to_nat offset) data (default [] (blobs (stage w) !! blob_name h))) as [Hl Hs].
  set (c := write_at _ _ _) in *. clearbody c.
  unfold read_staged, get_handle, bind, gets. rewrite Hh'. cbn [ok].
  unfold on_stage, map_err, zoom, read_blob, open_blob, bind, lift. rewrite Hn, Hp, sys_ok by done.
  unfold gets. rewrite Hb. cbn [ok]. rewrite sys_ok by done. rewrite Hb. change (default [] (Some c)) with c.
  cbn [ok]. case_decide as Hd; unfold ok; cbn [fst]; f_equal.
  - unfold len in Hd. destruct data; [done|]. cbn [length] in Hl. lia.
  - rewrite <- Hs at 2. f_equal. unfold u64_saturating_add, len in *. lia.
Qed.
End Data.

(** * Witnesses and counterexamples *)

#[local] Existing Instance binary_progress.
#[local] Existing Instance binary_journal.
#[local] Existing Instance binary_journal_laws.

Definition one_record : list JournalRecord := [mkRecord 1 (Create "/" "f")].
Definition opened_service : Service MockUploadBackend := fuse_run toy_options [CreateFile 7 "/" "f"] mock_service.
Definition opened_handle : WriteHandle := mkWriteHandle "/f" "ino-7.blob" 0 0 false.

Lemma opened_holds : holds (journal opened_service) one_record.
Proof.
  split; [by vm_compute|]. exists [to_codec (mkRecord 1 (Create "/" "f"))]. split.
  - repeat constructor. vm_compute. discriminate.
  - vm_compute. reflexivity.
Qed.

Lemma acknowledged_write_is_durable_witness :
  let '(r, w') := write toy_options 7 2 (chars "xyz") opened_service in
  (forall name, name <> "ino-7.blob" -> blobs (stage w') !! name = blobs (stage opened_service) !! name) /\
  match r with
  | Ok n => n = 3%N /\ exists off s more,
      (false = false -> off = 2%N) /\
      (false = true -> outcomes (stage opened_service) = [] -> blob_path "ino-7.blob" = Ok "ino-7.blob" ->
         off = len (default [] (blobs (stage opened_service) !! "ino-7.blob"))) /\
      blobs (stage w') !! "ino-7.blob" =
        Some (write_at (N.to_nat off) (chars "xyz") (default [] (blobs (stage opened_service) !! "ino-7.blob"))) /\
      replay (journal w') = Ok (one_record ++ mkRecord s (Write "/f" off 3 "ino-7.blob") :: more)
  | Err _ => True
  end.
Proof.
  apply (acknowledged_write_is_durable toy_options 7 2 (chars "xyz") opened_service opened_handle one_record).
  - vm_compute. reflexivity.
  - exact opened_holds.
Defined.

Example that_write_succeeds : is_ok (write toy_options 7 2 (chars "xyz") opened_service).1 = true.
Proof. vm_compute. reflexivity. Qed.

(** The write reaches the threshold of one byte and uploads the file before it returns. *)
Definition eager_options : WritePathOptions := mkWritePathOptions 1 (from_secs 30) 4 100 2 (from_secs 1) 500.

Lemma written_bytes_read_back_witness :
  (read_staged 7 2 3 (write eager_options 7 2 (chars "xyz") opened_service).2).1 = Ok (chars "xyz") /\
  uploads (backend (write eager_options 7 2 (chars "xyz") opened_service).2) !! "/f" =
    Some (replicate 2 (to_byte 0) ++ chars "xyz").
Proof.
  split; [|vm_compute; reflexivity].
  pose proof (written_bytes_read_back eager_options 7 2 (chars "xyz") opened_service opened_handle
    ltac:(vm_compute; reflexivity) eq_refl ltac:(vm_compute; reflexivity) ltac:(vm_compute; discriminate)) as Hr.
  destruct (write eager_options 7 2 (chars "xyz") opened_service) as [r w'] eqn:E.
  apply Hr; [replace r with (write eager_options 7 2 (chars "xyz") opened_service).1 by (by rewrite E)
            |replace w' with (write eager_options 7 2 (chars "xyz") opened_service).2 by (by rewrite E)];
    vm_compute; reflexivity.
Defined.

(** A truncation is not counted as dirty, so the drain at unmount does not upload it, and it
    ignores the ceiling on the size of a blob. *)
Lemma truncation_is_not_drained :
  let w := fuse_run eager_options [WriteAt 7 0 (chars "abcdef"); SetSize 7 2; DrainAll [7%N]] opened_service in
  uploads (backend w) !! "/f" = Some (chars "abcdef") /\ blobs (stage w) !! "ino-7.blob" = Some (chars "ab").
Proof. by vm_compute. Qed.

Lemma truncate_ignores_the_ceiling :
  max_staging_bytes toy_options = 100%N /\
  (length <$> blobs (stage (truncate 7 300 opened_service).2) !! "ino-7.blob") = Some 300.
Proof. by vm_compute. Qed.

(** In append mode a failing [metadata] counts as an empty file: the data overwrites its start. *)
Lemma failed_stat_overwrites_the_start :
  let w := fuse_run toy_options
    [OpenForWrite 7 "/f" true false; WriteAt 7 0 (chars "abcdef")] opened_service in
  let '(r, w') := write toy_options 7 0 (chars "XY") (with_outcomes [Some 0] w) in
  r = Ok 2%N /\ blobs (stage w') !! "ino-7.blob" = Some (chars "XYcdef").
Proof. by vm_compute. Qed.
