(* ===== verification/ShimSessions.v ===== *)
(** Sessions through the kernel-facing filesystem (crates/pcloud-fs/src/fuser_shim.rs over
    fuse_adapter.rs and write_path.rs): opening a file for writing stages its remote content, and
    what is written goes to the server on flush. *)
From S2P Require Import Prelude Paths Bytes Clock StateError PathNorm Inodes MetadataCache FilePages WriteJournal Staging WritePath UploadMock StagingBudget ChunkedFlush StagedData FuseAdapter FuseMock FuseReads FuseShim.

(** The documented contract of [FileUploadBackend::upload_file]: on success the file at the path
    is what was staged. *)
Class WholeFileLaws (B : Type) `{FileUploadBackend B} : Type := {
  stored : B -> gmap string (list byte);
  upload_file_law parent name c b b' :
    upload_file parent name (Some c) b = (Ok tt, b') -> stored b' !! join_path parent name = Some c;
}.

Section Sessions.
Context {D F L B : Type} `{FolderBackend D, FileBackend F, LruMapLaws L, WholeFileLaws B, JournalCodecLaws, ProgressCodec}.
Context (content : N -> list byte) (serves : F -> Prop) (reliable : N -> Prop) `{!FileBackendLaws F content serves reliable}.
Context (wo : WritePathOptions).

Abbreviation Adapter := (ProtoFuseAdapter D F L B).
Abbreviation Shim := (PcloudFsShim D F L B).
Abbreviation reads := (reads_ok content serves).
Abbreviation psize s := (page_size (opt_page_cache (ad_options (sh_adapter s)))).
Abbreviation table s := (ad_handles (sh_adapter s)).

(** * Calls of the parts *)

Lemma wp_on_adapter {T} (m : ST Adapter Z T) Q (s : Shim) :
  wp m (λ r a, Q r (mkShim a (default (sh_writer s) (ad_writer a)) (sh_fhs s))) (shared_adapter s) ->
  wp (on_adapter m) Q s.
Proof. unfold wp, on_adapter. by destruct (m (shared_adapter s)). Qed.

Lemma wp_on_writer {T} (m : ST (Service B) WritePathError T) Q (s : Shim) :
  wp m (λ r v, Q (match r with Ok a => Ok a | Err e => Err (wp_to_errno e) end) (mkShim (sh_adapter s) v (sh_fhs s)))
    (sh_writer s) ->
  wp (on_writer m) Q s.
Proof. intros Hm. unfold on_writer. by apply wp_map_err, wp_zoom. Qed.

Lemma reads_writer w (a : Adapter) : reads a -> reads (set_writer w a).
Proof. intros [Hs Hp Hc Hm Hcon]. by split. Qed.

(** What a read through the shim leaves alone. *)
Definition reading (s s' : Shim) : Prop :=
  sh_writer s' = sh_writer s /\ sh_fhs s' = sh_fhs s /\ table s' = table s /\
  ad_inodes (sh_adapter s') = ad_inodes (sh_adapter s) /\ ad_options (sh_adapter s') = ad_options (sh_adapter s).

#[local] Instance reading_preorder : PreOrder reading.
Proof. split; [done|]. intros s1 s2 s3 (?&?&?&?&?) (?&?&?&?&?). split_and!; congruence. Qed.

Lemma shim_read_spec handle ino shared offset n (s : Shim) :
  reads (sh_adapter s) -> (0 < psize s)%N -> (offset <= U64_MAX)%N ->
  ht_by_id (table s) !! handle = Some (mkHandleSlot ino (Server shared)) ->
  wp (on_adapter (fuse_read handle offset n)) (λ r s', reads (sh_adapter s') /\ reading s s' /\
    match r with
    | Ok bytes => bytes = sub_bytes offset (offset + n) (content (fh_file_id shared))
    | Err _ => ~ reliable (fh_file_id shared)
    end) s.
Proof.
  intros Hok Hps Hoff Hslot. apply wp_on_adapter. eapply wp_mono.
  { apply (fuse_read_spec content serves reliable handle ino shared offset n (shared_adapter s));
      [by apply reads_writer|done|done|done]. }
  intros r a (Hok' & Ha & Hr). split_and!; [done| |done]. rewrite Ha. by repeat split.
Qed.

(** * Opening a file for writing *)

(** Reading the whole file, in chunks of [CHUNK] bytes, gives all of it. *)
Lemma read_whole_file_spec fuel handle ino shared offset out (s : Shim) :
  let c := content (fh_file_id shared) in
  reads (sh_adapter s) -> (0 < psize s)%N -> (offset <= len c)%N ->
  ht_by_id (table s) !! handle = Some (mkHandleSlot ino (Server shared)) ->
  N.to_nat ((len c - offset) / CHUNK) < fuel ->
  wp (read_whole_file fuel handle offset out) (λ r s', reads (sh_adapter s') /\ reading s s' /\
    match r with
    | Ok b => b = Some (out ++ sub_bytes offset (len c) c)
    | Err _ => ~ reliable (fh_file_id shared)
    end) s.
Proof.
  intros c. assert (len c <= U64_MAX)%N as Hc by apply content_len.
  revert offset out s; induction fuel as [|fuel IH]; intros offset out s Hok Hps Hoff Hslot Hf; [by apply Nat.nlt_0_r in Hf|].
  cbn [read_whole_file]. apply wp_bind. eapply wp_mono; [apply (shim_read_spec handle ino shared); done || lia|].
  intros [bytes|e] s1 (Hok1 & Hs1 & Hr); [|done]. fold c in Hr. pose proof (sub_bytes_len offset (offset + CHUNK) c) as Hl.
  rewrite <- Hr in Hl. case_bool_decide as He.
  { apply wp_ok. split_and!; [done..|]. rewrite He in Hl. change (len []) with 0%N in Hl.
    unfold CHUNK in Hl. rewrite sub_bytes_past by lia. by rewrite app_nil_r. }
  case_decide as Hshort.
  - apply wp_ok. split_and!; [done..|]. do 2 f_equal. rewrite Hr, <- sub_bytes_min. f_equal. lia.
  - assert (offset + CHUNK <= len c)%N as Hfull by lia.
    assert (len bytes = CHUNK) as -> by lia. unfold u64_saturating_add. rewrite N.min_l by lia.
    destruct Hs1 as (Hw1 & Hf1 & Ht1 & Hi1 & Ho1).
    eapply wp_mono; [apply IH; rewrite ?Ht1, ?Ho1; try done|].
    + assert ((len c - offset) / CHUNK = (len c - (offset + CHUNK)) / CHUNK + 1)%N as E; [|lia].
      replace (len c - offset)%N with (len c - (offset + CHUNK) + 1 * CHUNK)%N by lia. by apply N.div_add.
    + intros r s2 (Hok2 & Hs2 & Hr2). split_and!; [done|by etrans; [|exact Hs2]|]. destruct r as [b|]; [|done].
      rewrite Hr2, Hr, <- (assoc_L (++)), sub_bytes_app by lia. done.
Qed.

(** The content a writable open starts from: that of the file behind the handle the adapter
    opened, nothing when it could not open the file. *)
Definition opened_content (ino : N) (s : Shim) : list byte :=
  match fuse_open ino (shared_adapter s) with
  | (Ok id, a) =>
      match ht_by_id (ad_handles a) !! id with
      | Some (mkHandleSlot _ (Server shared)) => content (fh_file_id shared)
      | _ => []
      end
  | (Err _, _) => []
  end.

Lemma seed_blob_spec ino bytes (w : Service B) :
  wp (seed_blob ino bytes) (λ r w', handles w' = handles w /\ journal w' = journal w /\
    (outcomes (stage w) = [] -> outcomes (stage w') = []) /\
    match r with
    | Ok _ => blobs (stage w') !! blob_name_for_ino ino = Some bytes
    | Err _ => True
    end) w.
Proof.
  unfold seed_blob, on_stage. apply wp_bind, wp_map_err, wp_zoom. wp_call wp_write_blob_full.
  intros [n|e] d ([_ Hc _] & Hr); [|done]. wp_step. split_and!; [done..|]. destruct Hr as [_ Hr].
  cbn [stage with_stage]. rewrite Hr. apply lookup_insert_eq.
Qed.

Lemma open_for_write_spec ino p append (w : Service B) c :
  outcomes (stage w) = [] -> blobs (stage w) !! blob_name_for_ino ino = Some c ->
  wp (open_for_write ino p append false) (λ r w', same_blobs w w' /\ journal w' = journal w /\
    match r with
    | Ok _ => exists now, handles w' = <[ino := mkWriteHandle p (blob_name_for_ino ino) 0 now append]> (handles w)
    | Err _ => True
    end) w.
Proof.
  intros Ho Hb. unfold open_for_write. apply wp_bind, wp_bind. apply wp_staged_path; [|done]. intros _.
  apply wp_bind. unfold exists_file, on_root. apply wp_bind, wp_zoom. unfold syscall, wp at 1. rewrite Ho.
  wp_step. wp_step. wp_step. cbn [stage with_stage]. rewrite Hb, bool_decide_true by done. wp_step.
  wp_step. unfold instant_now, wp at 1. wp_step. split_and!; [done..|]. by eexists.
Qed.

Lemma wp_allocate e (s : Shim) (Q : result N Z -> Shim -> Prop) :
  (forall fh t, fht_entries t !! fh = Some e -> Q (Ok fh) (mkShim (sh_adapter s) (sh_writer s) t)) -> wp (allocate e) Q s.
Proof.
  intros HQ. unfold wp, allocate, fh_allocate. case_decide; apply HQ; simpl; apply lookup_insert_eq.
Qed.

(** What a writable open, without O_TRUNC, leaves: the inode's staging blob with the content to
    start from, the write handle of its path, and a file handle for both sides. *)
Definition writable (ino : N) (flags : Z) (start : list byte) (fh : N) (s : Shim) : Prop :=
  exists p now rh,
    path_for ino s = Some p /\
    handles (sh_writer s) !! ino =
      Some (mkWriteHandle p (blob_name_for_ino ino) 0 now (bool_decide (Z.land flags O_APPEND ≠ 0%Z))) /\
    staged_content (blob_name_for_ino ino) (sh_writer s) = start /\
    get_snapshot fh s = Some (mkFhEntry ino rh true) /\
    (forall id, rh = Some id -> exists shared, ht_by_id (table s) !! id = Some (mkHandleSlot ino (Server shared))).

Lemma open_tail_spec ino flags bytes rh (s : Shim) :
  outcomes (stage (sh_writer s)) = [] ->
  (forall id, rh = Some id -> exists shared, ht_by_id (table s) !! id = Some (mkHandleSlot ino (Server shared))) ->
  wp (let! path := require_path ino in
      do! on_writer (seed_blob ino bytes) in
      do! on_writer (open_for_write ino path (bool_decide (Z.land flags O_APPEND ≠ 0%Z)) false) in
      allocate (mkFhEntry ino rh true))
    (λ r s', sh_adapter s' = sh_adapter s /\ journal (sh_writer s') = journal (sh_writer s) /\
      match r with Ok fh => writable ino flags bytes fh s' | Err _ => True end) s.
Proof.
  intros Ho Hrh. apply wp_bind. unfold require_path. wp_step. wp_step. wp_step.
  destruct (path_for ino s) as [p|] eqn:Hp; simpl; [|done].
  apply wp_bind, wp_on_writer. wp_call seed_blob_spec. intros [[]|e] w1 (Hh1 & Hj1 & Ho1 & Hb1); [|done].
  apply wp_bind, wp_on_writer. cbn [sh_writer].
  wp_call (open_for_write_spec ino p (bool_decide (Z.land flags O_APPEND ≠ 0%Z)) w1 bytes); [by apply Ho1|done|].
  intros [[]|e] w2 (Hb2 & Hj2 & Hh2); [|split_and!; [done|simpl; congruence|done]]. destruct Hh2 as [now Hh2].
  apply wp_allocate. intros fh t Ht. split_and!; [done|simpl; congruence|]. exists p, now, rh. split_and!; try done.
  - simpl. rewrite Hh2. apply lookup_insert_eq.
  - unfold staged_content. simpl. by rewrite Hb2, Hb1.
Qed.

(** A shim on which opening works: the read side serves the files, the tables are consistent and
    the disk does not fail. *)
Record shim_ok (s : Shim) : Prop := {
  so_reads : reads (sh_adapter s);
  so_handles : handles_ok (table s);
  so_next : (ht_next_id (table s) < U64_MAX)%N;
  so_pages : (0 < psize s)%N;
  so_disk : outcomes (stage (sh_writer s)) = [];
}.

Lemma open_for_edit fuel ino flags (s : Shim) :
  shim_ok s -> want_write flags = true -> Z.land flags O_TRUNC = 0%Z -> has_open_handle ino (sh_writer s) = false ->
  (forall file_id, N.to_nat (len (content file_id) / CHUNK) < fuel) ->
  wp (sh_open fuel ino flags) (λ r s', reads (sh_adapter s') /\ psize s' = psize s /\
    journal (sh_writer s') = journal (sh_writer s) /\
    match r with Ok fh => writable ino flags (opened_content ino s) fh s' | Err _ => True end) s.
Proof.
  intros [Hok Hh Hn Hps Ho] Hw Ht Hclosed Hfuel. unfold sh_open. rewrite Hw, Ht. cbv zeta. rewrite (bool_decide_false (0%Z ≠ 0%Z)) by (by intros []).
  apply wp_bind, wp_attempt, wp_on_adapter.
  pose proof (fuse_open_ok content serves reliable ino (shared_adapter s) (reads_writer _ _ Hok) Hh Hn) as Hopen.
  unfold opened_content. rewrite wp_run in *. destruct (fuse_open ino (shared_adapter s)) as [r a].
  destruct Hopen as (Hok1 & Hh1 & Hwr & Hopt & Hr). cbn [fst snd] in *.
  set (s1 := mkShim a (default (sh_writer s) (ad_writer a)) (sh_fhs s)).
  assert (sh_writer s1 = sh_writer s) as Ew by (unfold s1; simpl; by rewrite Hwr).
  assert (psize s1 = psize s) as Ep by (unfold s1; simpl; by rewrite Hopt).
  destruct r as [id|e].
  - destruct Hr as (_ & _ & kind & Hslot & Hkind). change (writer_has_handle ino (shared_adapter s)) with
      (has_open_handle ino (sh_writer s)) in Hkind. rewrite Hclosed in Hkind.
    destruct kind as [shared|]; [|by destruct Hkind as [Hk _]; specialize (Hk eq_refl)]. rewrite Hslot.
    wp_step. wp_step. wp_step. unfold existing_bytes. wp_step. eapply wp_mono.
    { apply (read_whole_file_spec fuel id ino shared 0 [] s1); rewrite ?Ep, ?N.sub_0_r; try done. lia. }
    intros [b|e] s2 (Hok2 & (Ew2 & _ & Et2 & _ & Eo2) & Hb);
      [|split_and!; [done|by rewrite Eo2|by rewrite Ew2, Ew|done]].
    subst b. apply wp_lift. simpl. rewrite sub_bytes_all by lia.
    eapply wp_mono; [apply open_tail_spec; [by rewrite Ew2, Ew|]|].
    { intros i [= <-]. exists shared. by rewrite Et2. }
    intros r s3 (Ea & Ej & Hr). rewrite Ea, Ej, Ew2, Ew. split_and!; [done|by rewrite Eo2|done|done].
  - do 3 wp_step. unfold existing_bytes. wp_step. eapply wp_mono; [apply open_tail_spec; [by rewrite Ew|done]|].
    clear Hr. intros r s3 (Ea & Ej & Hr). rewrite Ea, Ej, Ew. by split_and!.
Qed.

(** * Writing and flushing *)

Lemma metadata_local_size {X} ino n mtime :
  respects metadata_only (publish_local_size (X:=X) (D:=D) (F:=F) (L:=L) (B:=B) ino n mtime).
Proof.
  unfold publish_local_size. respects_auto; try apply _; [exact (metadata_lookup _)|exact (metadata_put _ _)].
Qed.

Lemma wp_on_adapter_metadata {T} (m : ST Adapter Z T) (s : Shim) :
  respects metadata_only m ->
  wp (on_adapter m) (λ _ s', sh_writer s' = sh_writer s /\ sh_fhs s' = sh_fhs s /\ table s' = table s /\
    psize s' = psize s /\ (reads (sh_adapter s) -> reads (sh_adapter s'))) s.
Proof.
  intros Hm. apply wp_on_adapter. specialize (Hm (shared_adapter s)). rewrite wp_run.
  set (a := (m (shared_adapter s)).2) in *. pose proof Hm as (_ & _ & Eh & Ew & Eo). simpl.
  split_and!; [by rewrite Ew|done|done|by rewrite Eo|]. intros Hok.
  by eapply reads_ok_metadata, reads_writer.
Qed.

(** A write through the shim is the write path's; its side effect on the metadata cache touches
    neither the files read nor what is open. *)
Lemma sh_write_spec now ino fh off data h (s : Shim) :
  handles (sh_writer s) !! ino = Some h -> is_Some (get_snapshot fh s) ->
  wp (sh_write wo now ino fh (Z.of_N off) data) (λ r s', sh_fhs s' = sh_fhs s /\ table s' = table s /\
    psize s' = psize s /\ (reads (sh_adapter s) -> reads (sh_adapter s')) /\
    (λ h, (blob_name h, path h)) <$> handles (sh_writer s') !! ino = Some (blob_name h, path h) /\
    match r with Ok n => write_outcome ino off data (sh_writer s) h (Ok n) (sh_writer s') | Err _ => True end) s.
Proof.
  intros Hh [e He]. unfold sh_write. apply wp_bind. wp_step. rewrite He. cbv zeta.
  replace (Z.to_N (Z.max (Z.of_N off) 0)) with off by lia.
  apply wp_bind, wp_on_writer. pose proof (wp_write wo ino off data (sh_writer s) h Hh) as Hwp.
  pose proof (same_names_write wo ino off data (sh_writer s) ino) as Hn. rewrite Hh in Hn.
  rewrite wp_run in *. destruct (write wo ino off data (sh_writer s)) as [r w]. cbn [fst snd] in *.
  destruct r as [n|err]; [|by split_and!].
  apply wp_bind. eapply wp_mono; [apply wp_on_adapter_metadata, metadata_local_size|].
  intros r s' (Ew & Ef & Et & Ep & Hr). cbn [sh_writer sh_adapter sh_fhs] in *.
  destruct r as [[]|]; [apply wp_ok|]; rewrite Ew; by split_and!.
Qed.


(** * The properties *)



(** A file handle opened for reading and writing does not read what was written through it.
    The read side of a handle stays on the server's file, not on the staging blob: after any
    write through the handle, whether it succeeded or not, a read through it returns the bytes
    the file has on the server. *)
Theorem reads_miss_own_writes now ino ino' fh rh shared off data h roff size (s : Shim) :
  reads (sh_adapter s) -> (0 < psize s)%N -> (roff <= U64_MAX)%N ->
  get_snapshot fh s = Some (mkFhEntry ino' (Some rh) true) ->
  ht_by_id (table s) !! rh = Some (mkHandleSlot ino' (Server shared)) ->
  handles (sh_writer s) !! ino = Some h ->
  wp (let! written := attempt (sh_write wo now ino fh (Z.of_N off) data) in
      let! bytes := sh_read fh (Z.of_N roff) size in ok (written, bytes))
    (λ r _, match r with
            | Ok (_, bytes) => bytes = sub_bytes roff (roff + size) (content (fh_file_id shared))
            | Err _ => ~ reliable (fh_file_id shared)
            end) s.
Proof.
  intros Hok Hps Hroff Hfh Hslot Hh. apply wp_bind, wp_attempt.
  eapply wp_mono; [apply (sh_write_spec now ino fh off data h s Hh); by eexists|].
  intros r s1 (Hf1 & Ht1 & Hp1 & Hok1 & _). unfold sh_read. apply wp_bind, wp_bind. wp_step.
  assert (get_snapshot fh s1 = Some (mkFhEntry ino' (Some rh) true)) as -> by (unfold get_snapshot; rewrite Hf1; exact Hfh).
  simpl. replace (Z.to_N (Z.max (Z.of_N roff) 0)) with roff by lia.
  eapply wp_mono; [apply (shim_read_spec rh ino' shared roff size s1); rewrite ?Hp1, ?Ht1; auto|].
  intros [bytes|e] s2 (_ & _ & Hr); [by wp_step|done].
Qed.
End Sessions.

(** * A concrete mount *)

#[export] Instance mock_whole_files : WholeFileLaws MockUploadBackend.
Proof.
  refine {| stored := uploads |}. intros parent name c b b'. cbn [upload_file mock_backend].
  destruct (fail_next_upload b); [done|]. intros [= <-]. apply lookup_insert_eq.
Defined.

#[local] Existing Instance binary_progress.
#[local] Existing Instance binary_journal.
#[local] Existing Instance binary_journal_laws.

(** The shim over the example adapter after the kernel listed the root. *)
Definition example_shim : PcloudFsShim MockFolderBackend MockFileBackend lru_list MockUploadBackend :=
  PcloudFsShim_new listed_adapter mock_service.

Lemma example_shim_ok :
  shim_ok (λ file_id, default [] (mf_files example_files !! file_id)) (mock_serves (mf_files example_files) ∅) example_shim.
Proof.
  destruct listed_example_ok as [Hok Et]. assert (opt_page_cache (ad_options listed_adapter) = mkPageCacheConfig 4 8) as Eo.
  { pose proof (metadata_readdir 1 0 example_adapter) as (_ & _ & _ & _ & E). unfold listed_adapter. by rewrite E. }
  unfold example_shim, PcloudFsShim_new. set (w1 := listed_adapter) in *. clearbody w1. split; simpl; rewrite ?Et, ?Eo; try done.
  apply fresh_handles_ok.
Qed.

Lemma example_fuel file_id :
  N.to_nat (len (default [] (mf_files example_files !! file_id)) / CHUNK) < 1.
Proof.
  unfold example_files, insert_file. simpl. destruct (decide (file_id = 100%N)) as [->|H1]; [by vm_compute; lia|].
  rewrite lookup_insert_ne by done. destruct (decide (file_id = 101%N)) as [->|H2]; [by vm_compute; lia|].
  rewrite lookup_insert_ne by done. rewrite lookup_empty. vm_compute. lia.
Qed.


(** The handle of "data", opened for reading and writing. *)
Definition example_open : PcloudFsShim MockFolderBackend MockFileBackend lru_list MockUploadBackend :=
  (sh_open 1 2 O_RDWR example_shim).2.

Lemma example_open_ok :
  reads_ok (λ file_id, default [] (mf_files example_files !! file_id)) (mock_serves (mf_files example_files) ∅)
    (sh_adapter example_open) /\
  page_size (opt_page_cache (ad_options (sh_adapter example_open))) = 4%N.
Proof.
  pose proof example_laws as Hl.
  pose proof (open_for_edit _ _ (mock_reliable (mf_files example_files) ∅) 1 2 O_RDWR
    example_shim example_shim_ok eq_refl eq_refl eq_refl example_fuel) as He.
  rewrite wp_run in He. destruct He as (Hok & Hp & _). unfold example_open. split; [exact Hok|].
  rewrite Hp. vm_compute. reflexivity.
Qed.

Lemma reads_miss_own_writes_witness :
  is_ok (sh_write toy_options None 2 1 0 (chars "HOWDY") example_open).1 = true /\
  exists written, ((let! written := attempt (sh_write toy_options None 2 1 0 (chars "HOWDY")) in
                    let! bytes := sh_read 1 0 5 in ok (written, bytes)) example_open).1 = Ok (written, chars "hello").
Proof.
  split; [vm_compute; reflexivity|]. pose proof example_laws as Hl. destruct example_open_ok as [Hok Hp].
  pose proof (reads_miss_own_writes _ _ (mock_reliable (mf_files example_files) ∅) toy_options None 2 2 1 1
    (mkFileHandle 100 12 "mock" "/mock/100" None) 0 (chars "HOWDY") (mkWriteHandle "/data" "ino-2.blob" 0 0 false) 0 5
    example_open Hok) as Hr.
  rewrite Hp, wp_run in Hr.
  specialize (Hr eq_refl ltac:(by vm_compute) ltac:(by vm_compute) ltac:(by vm_compute) ltac:(by vm_compute)).
  change (Z.of_N 0) with 0%Z in Hr. set (r := (_ example_open).1) in *. clearbody r.
  destruct r as [[written bytes]|e]; [exists written; rewrite Hr; vm_compute; reflexivity|].
  exfalso. apply Hr. split; [by eexists|done].
Defined.

(** When the adapter cannot open the file, for a dropped connection say, a writable open still
    succeeds, with an empty staging blob; the flush of close then empties the file on the server. *)
Definition broken_shim : PcloudFsShim MockFolderBackend MockFileBackend lru_list MockUploadBackend :=
  mkShim (set_files (insert_file_error 100 (FsTransport "connection reset") example_files) (sh_adapter example_shim))
    mock_service (sh_fhs example_shim).

Example failed_open_empties_the_file :
  uploads (backend (sh_writer ((let! fh := sh_open 1 2 O_RDWR in sh_flush toy_options 2 fh) broken_shim).2)) !! "/data" =
    Some [].
Proof. vm_compute. reflexivity. Qed.
