(* ===== verification/ShimNames.v ===== *)
(** Names through the kernel-facing filesystem (crates/pcloud-fs/src/fuser_shim.rs over
    fuse_adapter.rs): what a rename leaves of the metadata cache and the inode table, and what a
    first look-up reports. *)
From S2P Require Import Prelude Paths Bytes Clock StateError PathNorm Inodes MetadataCache FilePages WriteJournal Staging WritePath UploadMock StagingBudget ChunkedFlush StagedData FuseAdapter FuseMock FuseReads FuseShim ShimSessions.

(** * What the calls of the metadata cache can add *)

Definition cached_meta (p : string) (c : MetadataCache) : option CachedMetadata := slot_meta <$> mc_entries c !! p.

(** Every entry but those of [P] is as it was, or gone. *)
Definition adds_only (P : string -> Prop) (c c' : MetadataCache) : Prop :=
  forall p, ~ P p -> cached_meta p c' = None \/ cached_meta p c' = cached_meta p c.

#[local] Instance adds_only_preorder P : PreOrder (adds_only P).
Proof.
  split; [by right|]. intros c1 c2 c3 H12 H23 p Hp. destruct (H23 p Hp) as [|E]; [by left|].
  rewrite E. by apply H12.
Qed.

Lemma adds_get P now p c : adds_only P c (meta_get now p c).2.
Proof.
  intros q Hq. unfold meta_get, touch, cached_meta. destruct (mc_entries c !! p) as [slot|] eqn:Hp; [|by right].
  case_decide; simpl.
  - destruct (decide (p = q)) as [->|Hne]; [left; by rewrite lookup_delete_eq|right; by rewrite lookup_delete_ne].
  - destruct (list_find _ _) as [[i e]|]; simpl; [|by right]. right.
    destruct (decide (p = q)) as [->|Hne]; [by rewrite lookup_insert_eq, Hp|by rewrite lookup_insert_ne].
Qed.

Lemma adds_invalidate P p c : adds_only P c (meta_invalidate p c).
Proof.
  intros q Hq. unfold cached_meta, meta_invalidate. simpl.
  destruct (decide (p = q)) as [->|Hne]; [left; by rewrite lookup_delete_eq|right; by rewrite lookup_delete_ne].
Qed.

Lemma retain_live_sub ttl now o E o' E' : retain_live ttl now o E = (o', E') -> E' ⊆ E.
Proof.
  revert E o' E'; induction o as [|e o IH]; intros E o' E' Hr; simpl in Hr; [by simplify_eq|].
  repeat case_match; simplify_eq/=; eauto. etrans; [by eapply IH|]. apply delete_subseteq.
Qed.

Lemma evict_loop_meta_sub cap o E o' E' : evict_loop_meta cap o E = (o', E') -> E' ⊆ E.
Proof.
  revert E o' E'; induction o as [|e o IH]; intros E o' E' Hr; simpl in Hr; case_decide; simplify_eq; try done.
  repeat case_match; eauto. etrans; [by eapply IH|]. apply delete_subseteq.
Qed.

Lemma cached_sub (E E' : gmap string CacheSlot) p :
  E' ⊆ E -> slot_meta <$> E' !! p = None \/ slot_meta <$> E' !! p = slot_meta <$> E !! p.
Proof.
  intros Hs. destruct (E' !! p) as [slot|] eqn:Hp; [|by left]. right. by rewrite (lookup_weaken _ _ _ _ Hp Hs).
Qed.

Lemma adds_put now now' p m c : adds_only (eq p) c (meta_put now now' p m c).
Proof.
  intros q Hq. unfold meta_put, evict_expired, evict_if_over_capacity, cached_meta. simpl.
  destruct (retain_live _ _ _ _) as [o1 E1] eqn:H1. apply retain_live_sub in H1. simpl.
  destruct (evict_loop_meta _ _ _) as [o2 E2] eqn:H2. apply evict_loop_meta_sub in H2. simpl.
  destruct (cached_sub _ _ q H2) as [ | -> ]; [by left|]. rewrite lookup_insert_ne by congruence. by apply cached_sub.
Qed.

Section Rename.
Context {D F L B : Type} `{FolderBackend D, FileBackend F, LruMap L, FileUploadBackend B, JournalCodec, ProgressCodec}.

Abbreviation Adapter := (ProtoFuseAdapter D F L B).
Abbreviation Shim := (PcloudFsShim D F L B).

(** A call that keeps the inode table, and adds entries for [P] alone to the cache. *)
Definition caches_only (P : string -> Prop) (a a' : Adapter) : Prop :=
  ad_inodes a' = ad_inodes a /\ adds_only P (ad_cache a) (ad_cache a').

#[local] Instance caches_only_preorder P : PreOrder (caches_only P).
Proof.
  split; [by split|]. intros a1 a2 a3 [I1 C1] [I2 C2]. split; [congruence|by etrans].
Qed.

Lemma caches_lookup {X} P p : respects (caches_only P) (cache_lookup (X:=X) (D:=D) (F:=F) (L:=L) (B:=B) p).
Proof.
  apply respects_bind; [apply _|by intros a|]. intros now a.
  pose proof (adds_get P now p (ad_cache a)) as Ha. by destruct (meta_get now p (ad_cache a)).
Qed.

Lemma caches_invalidate {X} P p : respects (caches_only P) (invalidate_cache (X:=X) (D:=D) (F:=F) (L:=L) (B:=B) p).
Proof. apply respects_modify. intros a. split; [done|apply adds_invalidate]. Qed.

Lemma caches_put {X} (P : string -> Prop) p m : P p -> respects (caches_only P) (cache_put (X:=X) (D:=D) (F:=F) (L:=L) (B:=B) p m).
Proof.
  intros HP. apply respects_bind; [apply _|by intros a|]. intros now. apply respects_bind; [apply _|by intros a|].
  intros now'. apply respects_modify. intros a. split; [done|]. intros q Hq. apply adds_put. congruence.
Qed.

(** Forgetting an entry touches the listing of its parent alone, and leaves the entry uncached. *)
Lemma forget_local_entry_spec {X} parent name child (a : Adapter) :
  child_of parent name = Ok child -> child <> parent ->
  wp (forget_local_entry (X:=X) parent name) (λ r a', r = Ok tt /\ caches_only (eq parent) a a' /\
    cached_meta child (ad_cache a') = None) a.
Proof.
  intros Hc Hne. unfold forget_local_entry. rewrite Hc. apply wp_bind. unfold invalidate_cache. wp_step.
  set (a1 := set_cache _ a).
  assert (caches_only (eq parent) a a1) as H1' by (split; [done|apply adds_invalidate]).
  assert (cached_meta child (ad_cache a1) = None) as Hn1 by (unfold cached_meta; simpl; by rewrite lookup_delete_eq).
  clearbody a1.
  assert (forall a2, caches_only (eq parent) a1 a2 ->
    caches_only (eq parent) a a2 /\ cached_meta child (ad_cache a2) = None) as Hstep.
  { intros a2 H2'. split; [by etrans|]. destruct H2' as [_ H2']. destruct (H2' child) as [|E]; [congruence|done|by rewrite E]. }
  apply wp_bind. eapply wp_mono.
  { apply wp_and; [apply (respects_wp (caches_only (eq parent)) _ a1 (caches_lookup _ parent))|].
    instantiate (1 := λ r _, exists m, r = Ok m). unfold cache_lookup, bind, read_clock, wp. simpl.
    destruct (meta_get _ _ _). by eexists. }
  intros r a2 [H2' [m ->]]. destruct m as [[attr [children|]]|]; try (wp_step; split; [done|by apply Hstep]).
  eapply wp_mono.
  { apply wp_and; [apply (respects_wp (caches_only (eq parent)) _ a2 (caches_put (eq parent) parent _ eq_refl))|].
    instantiate (1 := λ r _, r = Ok tt). done. }
  intros r a3 [H3' ->]. split; [done|]. apply Hstep. by etrans.
Qed.

Lemma shim_child_longer parent name child : shim_child parent (Some name) = Some child -> child <> parent.
Proof.
  unfold shim_child, bad_name. destruct (bool_decide (name = EmptyString)) eqn:Hn; [done|]. apply bool_decide_eq_false in Hn.
  case_match; [done|]. intros [= <-] E. apply (f_equal chars) in E. revert E. unfold join_path.
  assert (length (chars name) <> 0) as Hl by (by destruct name).
  case_bool_decide; subst; rewrite ?chars_app; intros E%(f_equal length); rewrite ?length_app in E; simpl in E; lia.
Qed.

#[local] Arguments shim_child : simpl never.

(** A rename leaves no trace of the new name.  The source is forgotten before its attributes
    are looked up, so the branch that would publish them under the new name never runs: whatever
    the outcome, no entry of the metadata cache is made or changed but the listing of the source
    directory, and the inode table still has the old path. *)
Theorem rename_publishes_nothing parent name newparent newname from_parent from (s : Shim) :
  path_for parent s = Some from_parent -> shim_child from_parent (Some name) = Some from ->
  child_of from_parent name = Ok from ->
  wp (sh_rename parent (Some name) newparent newname) (λ _ s', shim_inodes s' = shim_inodes s /\
    adds_only (eq from_parent) (ad_cache (sh_adapter s)) (ad_cache (sh_adapter s'))) s.
Proof.
  intros Hp Hc Hchild. pose proof (shim_child_longer _ _ _ Hc) as Hne.
  change (wp (sh_rename parent (Some name) newparent newname)
    (λ _ s', caches_only (eq from_parent) (sh_adapter s) (sh_adapter s')) s).
  unfold sh_rename, require_path. do 4 wp_step. rewrite Hp. simpl. do 4 wp_step.
  destruct (path_for newparent s) as [to_parent|]; simpl; [|done]. do 2 wp_step. rewrite Hc. simpl. do 2 wp_step.
  destruct (shim_child to_parent newname) as [to|]; simpl; [|done].
  wp_step. apply wp_on_writer. rewrite wp_run. destruct (rename from to (sh_writer s)) as [[[]|] w]; [|done]. simpl.
  set (s1 := mkShim (sh_adapter s) w (sh_fhs s)).
  wp_step. apply wp_on_adapter. wp_call (forget_local_entry_spec (X:=Z) from_parent name from (shared_adapter s1) Hchild Hne).
  intros r a (-> & Hk & Hn). wp_step. apply wp_on_adapter. unfold cached_attr, cache_lookup. do 2 wp_step.
  unfold read_clock at 1, wp at 1. simpl. unfold wp at 1. unfold meta_get. simpl.
  apply fmap_None in Hn. rewrite Hn. exact Hk.
Qed.
End Rename.

#[local] Existing Instance binary_progress.
#[local] Existing Instance binary_journal.

Definition renamed_shim : PcloudFsShim MockFolderBackend MockFileBackend lru_list MockUploadBackend :=
  (sh_rename 1 (Some "data"%string) 1 (Some "moved"%string) example_shim).2.

Lemma rename_publishes_nothing_witness :
  (sh_rename 1 (Some "data"%string) 1 (Some "moved"%string) example_shim).1 = Ok tt /\
  cached_meta "/moved" (ad_cache (sh_adapter renamed_shim)) = None /\
  path_for 2 renamed_shim = Some "/data"%string.
Proof.
  split; [vm_compute; reflexivity|].
  pose proof (rename_publishes_nothing 1 "data" 1 (Some "moved"%string) "/" "/data" example_shim
    ltac:(vm_compute; reflexivity) ltac:(vm_compute; reflexivity) ltac:(vm_compute; reflexivity)) as Hr.
  rewrite wp_run in Hr. fold renamed_shim in Hr. destruct Hr as [Hi Hc]. split.
  - destruct (Hc "/moved"%string) as [|E]; [done|done|]. etrans; [exact E|]. vm_compute. reflexivity.
  - unfold path_for, resolve_path. unfold shim_inodes in Hi. rewrite Hi. vm_compute. reflexivity.
Defined.

(** The renamed file is on the server, but while the listing of its directory is cached it has
    neither its new name nor its old one, and its inode is gone for the kernel. *)
Example renamed_file_is_lost :
  (sh_lookup 0 1 (Some "moved"%string) renamed_shim).1 = Err ENOENT /\
  (sh_lookup 0 1 (Some "data"%string) renamed_shim).1 = Err ENOENT /\
  (sh_getattr 0 2 renamed_shim).1 = Err ENOENT.
Proof. vm_compute. done. Qed.

(** The first look-up of a file lists its directory and reports size 0; the next one reports the
    size of the listing. *)
Example first_lookup_reports_size_zero :
  let size_of (r : result FileAttr Z) := match r with Ok a => Some (fa_size a) | Err _ => None end in
  let fresh := PcloudFsShim_new example_adapter mock_service in
  let first := sh_lookup 0 1 (Some "data"%string) fresh in
  size_of first.1 = Some 0%N /\ size_of (sh_lookup 0 1 (Some "data"%string) first.2).1 = Some 12%N.
Proof. vm_compute. done. Qed.

(** A write inside a file makes it look as short as the write. *)
Example write_shrinks_the_reported_size :
  let s := (sh_write toy_options None 2 1 0 (chars "HE") example_open).2 in
  match (sh_getattr 0 2 s).1 with Ok a => fa_size a = 2%N | Err _ => False end.
Proof. vm_compute. reflexivity. Qed.

(** Setting the size of a file that is not open is refused. *)
Example truncate_needs_an_open_file : (sh_setattr 0 2 (Some 0%N) example_shim).1 = Err EINVAL.
Proof. vm_compute. reflexivity. Qed.

(** Closing one of two handles opened for writing closes the file for the other. *)
Example second_writer_is_closed :
  let s := (sh_open 1 2 O_RDWR example_open).2 in
  (sh_write toy_options None 2 2 0 (chars "x") (sh_release toy_options 2 1 s).2).1 = Err EINVAL.
Proof. vm_compute. reflexivity. Qed.
