(* ===== verification/UploadResume.v ===== *)
(** Reconciling the progress sidecars at startup: [replay_upload_sidecars] and
    [enumerate_upload_sidecars] of crates/pcloud-fs/src/write_path.rs.

    The listing of the staging directory is an argument, in any order.  The two functions run
    before a mount is live, so only the staging directory, the backend and the wall clock of the
    service matter. *)
From S2P Require Import Prelude Paths Bytes Clock StateError WriteJournal Staging WritePath UploadMock StagingBudget ChunkedFlush.

Inductive ResumeOutcome : Type :=
| Resumed (sidecar : string) (id acked : N)
| ServerAhead (sidecar : string) (id acked : N)
| SidecarTrimmed (sidecar : string) (id acked : N)
| Expired (sidecar : string) (id : N)
| Stalled (sidecar : string) (id : N) (idle_for : Duration)
| Unparseable (sidecar : string) (reason : WritePathError)
| BackendError (sidecar : string) (id : N) (reason : WritePathError).

Definition outcome_sidecar (x : ResumeOutcome) : string :=
  match x with
  | Resumed s _ _ | ServerAhead s _ _ | SidecarTrimmed s _ _ | Expired s _ | Stalled s _ _
  | Unparseable s _ | BackendError s _ _ => s
  end.

(** [file_name.starts_with("ino-") && file_name.ends_with(".upload-progress")]. *)
Definition starts_with (s pre : string) : bool := bool_decide (take (length (chars pre)) (chars s) = chars pre).
Definition ends_with (s suf : string) : bool :=
  bool_decide (length (chars suf) <= length (chars s)) &&
  bool_decide (drop (length (chars s) - length (chars suf)) (chars s) = chars suf).
Definition is_sidecar_name (file_name : string) : bool :=
  starts_with file_name "ino-" && ends_with file_name ".upload-progress".

Section Resume.
Context {B : Type} `{FileUploadBackend B, ProgressCodec}.

Abbreviation M A := (ST (Service B) WritePathError A).

Definition with_acked (acked now : N) (p : UploadProgress) : UploadProgress :=
  mkUploadProgress (upload_id p) (up_blob_name p) (up_total_size p) acked now.

(** [updated.save(&path)] and the outcome it decides. *)
Definition rewrite_sidecar (sidecar : string) (p : UploadProgress) (acked now : N) (done : ResumeOutcome)
  : M ResumeOutcome :=
  let! r := attempt (on_root (save_progress (with_acked acked now p) sidecar)) in
  match r with
  | Ok _ => ok done
  | Err e => ok (BackendError sidecar (upload_id p) e)
  end.

Definition drop_stalled (sidecar : string) (p : UploadProgress) (idle : Duration) : M ResumeOutcome :=
  do! on_root (forget_progress sidecar) in ok (Stalled sidecar (upload_id p) idle).

(** One decoded sidecar. *)
Definition reconcile (now : N) (heartbeat_timeout : Duration) (sidecar : string) (p : UploadProgress)
  : M ResumeOutcome :=
  let! status := attempt (call (upload_status (upload_id p))) in
  match status with
  | Err e =>
      match e with
      | Upload msg =>
          if bool_decide (msg = STATUS_NOT_SUPPORTED) || bool_decide (msg = CHUNKED_NOT_SUPPORTED) then
            match idle_for_if_stalled p now heartbeat_timeout with
            | Some idle => drop_stalled sidecar p idle
            | None => ok (Resumed sidecar (upload_id p) (acked_offset p))
            end
          else ok (BackendError sidecar (upload_id p) e)
      | _ => ok (BackendError sidecar (upload_id p) e)
      end
  | Ok StatusNotFound =>
      do! on_root (forget_progress sidecar) in ok (Expired sidecar (upload_id p))
  | Ok (StatusBytes server_bytes) =>
      let rest :=
        match N.compare server_bytes (acked_offset p) with
        | Eq => ok (Resumed sidecar (upload_id p) (acked_offset p))
        | Gt =>
            let new_offset := N.min server_bytes (up_total_size p) in
            rewrite_sidecar sidecar p new_offset now (ServerAhead sidecar (upload_id p) new_offset)
        | Lt =>
            rewrite_sidecar sidecar p server_bytes now (SidecarTrimmed sidecar (upload_id p) server_bytes)
        end in
      if decide (server_bytes <= acked_offset p)%N then
        match idle_for_if_stalled p now heartbeat_timeout with
        | Some idle => drop_stalled sidecar p idle
        | None => rest
        end
      else rest
  end.

Definition replay_entry (now : N) (heartbeat_timeout : Duration) (file_name : string)
  : M (list ResumeOutcome) :=
  if is_sidecar_name file_name then
    let! loaded := attempt (on_root (load_progress file_name)) in
    match loaded with
    | Ok (Some p) => let! x := reconcile now heartbeat_timeout file_name p in ok [x]
    | Ok None => ok []
    | Err e => ok [Unparseable file_name e]
    end
  else ok [].

Fixpoint replay_entries (now : N) (heartbeat_timeout : Duration) (entries : list string)
  : M (list ResumeOutcome) :=
  match entries with
  | [] => ok []
  | file_name :: entries' =>
      let! xs := replay_entry now heartbeat_timeout file_name in
      let! ys := replay_entries now heartbeat_timeout entries' in
      ok (xs ++ ys)
  end.

Definition replay_upload_sidecars (heartbeat_timeout : Duration) (entries : list string)
  : M (list ResumeOutcome) :=
  do! on_root (sys (Upload "staging read_dir")) in
  let! now := now_unix_secs in
  replay_entries now heartbeat_timeout entries.

Definition enumerate_entry (file_name : string) : M (list ResumeOutcome) :=
  if is_sidecar_name file_name then
    let! loaded := attempt (on_root (load_progress file_name)) in
    match loaded with
    | Ok (Some p) => ok [Resumed file_name (upload_id p) (acked_offset p)]
    | Ok None => ok []
    | Err e => ok [Unparseable file_name e]
    end
  else ok [].

Fixpoint enumerate_entries (entries : list string) : M (list ResumeOutcome) :=
  match entries with
  | [] => ok []
  | file_name :: entries' =>
      let! xs := enumerate_entry file_name in
      let! ys := enumerate_entries entries' in
      ok (xs ++ ys)
  end.

Definition enumerate_upload_sidecars (entries : list string) : M (list ResumeOutcome) :=
  do! on_root (sys (Upload "staging read_dir")) in enumerate_entries entries.
End Resume.

(** * What the status query promises *)

Class UploadStatusLaws (B : Type) `{UploadBackendLaws B} : Prop := {
  status_pure_law id b : (upload_status id b).2 = b;
  status_law id b :
    match (upload_status id b).1 with
    | Ok (StatusBytes n) => exists d, sessions b !! id = Some d /\ len d = n
    | Ok StatusNotFound => sessions b !! id = None
    | Err _ => True
    end;
}.

Definition status_supported {B} `{FileUploadBackend B} (b : B) : Prop :=
  forall id msg, (upload_status id b).1 = Err (Upload msg) ->
    msg <> STATUS_NOT_SUPPORTED /\ msg <> CHUNKED_NOT_SUPPORTED.

Section Safety.
Context {B : Type} `{UploadStatusLaws B, ProgressCodecLaws}.

(** A decodable sidecar at [name] never claims more of [content] than its session holds. *)
Definition safe_sidecar (name : string) (content : list byte) (w : Service B) : Prop :=
  forall bytes p, root_files (stage w) !! name = Some bytes -> decode_progress bytes = Some p ->
    agrees (backend w) (upload_id p) content (acked_offset p).

(** The session of the sidecar at [name], if it is alive, holds a beginning of [content]. *)
Definition session_of_prefix (name : string) (content : list byte) (w : Service B) : Prop :=
  forall bytes p d, root_files (stage w) !! name = Some bytes -> decode_progress bytes = Some p ->
    sessions (backend w) !! upload_id p = Some d -> d `prefix_of` content.

Definition excused (w : Service B) (name : string) (x : ResumeOutcome) : Prop :=
  outcome_sidecar x = name /\
  match x with
  | BackendError _ _ _ | Unparseable _ _ => True
  | Stalled _ _ _ => outcomes (stage w) <> []
  | _ => False
  end.

(** Only the file [name] at the root changes. *)
Record only_file (name : string) (w w' : Service B) : Prop := {
  of_backend : backend w' = backend w;
  of_calm : calm (stage w) (stage w');
  of_other n : n <> name -> root_files (stage w') !! n = root_files (stage w) !! n;
}.

#[export] Instance only_file_preorder name : PreOrder (only_file name).
Proof.
  split; [by split|]. intros w1 w2 w3 [E1 C1 O1] [E2 C2 O2]. split; [congruence|by etrans|].
  intros n Hn. by rewrite O2, O1.
Qed.

Lemma prefix_agrees b id content d off :
  sessions b !! id = Some d -> d `prefix_of` content -> (off <= len d)%N -> agrees b id content off.
Proof.
  intros Hs [tl ->] Ho d' Hd'. assert (d' = d) as -> by congruence.
  unfold len in Ho. split; [by rewrite take_app_le by lia|rewrite length_app; lia].
Qed.

Lemma calm_syscall {E} : respects (E:=E) calm syscall.
Proof. intros d Ho. unfold syscall. by rewrite Ho. Qed.
Lemma calm_save p sidecar : respects calm (save_progress p sidecar).
Proof. unfold save_progress, sys. respects_auto; try apply calm_syscall. by intros d Ho. Qed.

Lemma only_file_safe name other content w w' :
  only_file name w w' -> other <> name ->
  (safe_sidecar other content w -> safe_sidecar other content w') /\
  (session_of_prefix other content w -> session_of_prefix other content w').
Proof.
  intros [E _ O] Hn. unfold safe_sidecar, session_of_prefix. by rewrite O, E by done.
Qed.

Lemma wp_rewrite_sidecar sidecar p acked now x w d content :
  sessions (backend w) !! upload_id p = Some d -> d `prefix_of` content -> (acked <= len d)%N ->
  wp (rewrite_sidecar sidecar p acked now x) (λ r w', only_file sidecar w w' /\
    exists y, r = Ok y /\
      (y = x /\ safe_sidecar sidecar content w' \/ exists e, y = BackendError sidecar (upload_id p) e)) w.
Proof.
  intros Hs Hpre Ha. unfold rewrite_sidecar, on_root. do 3 wp_step.
  eapply wp_mono; [apply wp_and; [apply wp_save_progress|apply respects_wp, calm_save]|].
  intros r d' [[Bd Rd] Hc]. destruct r as [[]|e]; wp_step.
  - destruct Rd as (bytes & Hb & Rd). split.
    + split; [done|done|]. intros n Hn. cbn [stage with_stage]. by rewrite Rd, lookup_insert_ne.
    + eexists. split; [done|]. left. split; [done|]. intros bytes' p' Hf' Hd'. cbn [stage with_stage backend] in *.
      rewrite Rd, lookup_insert_eq in Hf'. injection Hf' as <-.
      rewrite (progress_round_trip _ _ Hb) in Hd'. injection Hd' as <-. by eapply prefix_agrees.
  - split; [split; [done|done|]; intros n Hn; cbn; by rewrite Rd|]. eauto.
Qed.

Lemma wp_drop sidecar (x : ResumeOutcome) w content :
  wp (do! on_root (forget_progress sidecar) in ok x : ST (Service B) WritePathError ResumeOutcome)
    (λ r w', only_file sidecar w w' /\ r = Ok x /\
      (outcomes (stage w) = [] \/ safe_sidecar sidecar content w -> safe_sidecar sidecar content w')) w.
Proof.
  wp_step. unfold on_root. wp_step. wp_call wp_forget_progress. intros r d (-> & Bd & Hc & Rd & Rdel). wp_step.
  assert (root_files d = delete sidecar (root_files (stage w)) -> safe_sidecar sidecar content (with_stage d w)) as Hdel.
  { intros E bytes p Hf. cbn [stage with_stage] in Hf. by rewrite E, lookup_delete_eq in Hf. }
  split; [split; [done|done|]|split; [done|]].
  - intros n Hn. cbn. destruct Rd as [-> | ->]; [done|]. by rewrite lookup_delete_ne.
  - intros [Ho|Hsafe]; [auto|]. destruct Rd as [E|E]; [|auto]. intros bytes p. cbn [stage with_stage backend].
    rewrite E. apply Hsafe.
Qed.

(** After one sidecar: it is safe, or its outcome tells why not. *)
Definition reconciled (sidecar : string) (content : list byte) (w : Service B)
    (r : result ResumeOutcome WritePathError) (w' : Service B) : Prop :=
  only_file sidecar w w' /\
  exists x, r = Ok x /\ outcome_sidecar x = sidecar /\ (safe_sidecar sidecar content w' \/ excused w sidecar x).

Lemma wp_reconcile now timeout sidecar p bytes w content :
  status_supported (backend w) ->
  root_files (stage w) !! sidecar = Some bytes -> decode_progress bytes = Some p ->
  session_of_prefix sidecar content w ->
  wp (reconcile now timeout sidecar p) (reconciled sidecar content w) w.
Proof.
  intros Hsup Hf Hd Hpre. unfold reconcile. do 2 wp_step. unfold call. wp_step. apply wp_run.
  pose proof (status_pure_law (upload_id p) (backend w)) as Hpure.
  pose proof (status_law (upload_id p) (backend w)) as Hlaw.
  pose proof (Hsup (upload_id p)) as Hmsg.
  destruct (upload_status (upload_id p) (backend w)) as [r b']. cbn [fst snd] in *. subst b'.
  assert (with_backend (backend w) w = w) as -> by by destruct w.
  assert (forall d n, sessions (backend w) !! upload_id p = Some d -> (n <= len d)%N ->
    agrees (backend w) (upload_id p) content n) as Hag.
  { intros d n Hs Hn. eapply prefix_agrees; [done| |done]. by eapply Hpre. }
  assert (forall y idle, y = Stalled sidecar (upload_id p) idle ->
    wp (drop_stalled sidecar p idle) (reconciled sidecar content w) w) as Hstalled.
  { intros y idle _. unfold drop_stalled. wp_call (wp_drop sidecar (Stalled sidecar (upload_id p) idle) w content).
    intros r1 w1 (F & -> & Hsafe). split; [done|]. eexists. split; [done|]. split; [done|].
    destruct (decide (outcomes (stage w) = [])) as [Ho|Ho]; [left; auto|right; by split]. }
  destruct r as [[n|]|e].
  - destruct Hlaw as (d & Hs & <-).
    assert (d `prefix_of` content) as Hdc by by eapply Hpre.
    match goal with |- wp (if decide _ then _ else ?rest) _ _ =>
      assert (wp rest (reconciled sidecar content w) w) as Hrest end.
    { destruct (N.compare_spec (len d) (acked_offset p)) as [E|Hlt|Hgt].
      - wp_step. split; [done|]. eexists. split; [done|]. split; [done|]. left.
        intros bytes' p' Hf' Hd'. simplify_eq. apply (Hag d); [done|]. by rewrite E.
      - wp_call (wp_rewrite_sidecar sidecar p (len d) now (SidecarTrimmed sidecar (upload_id p) (len d)) w d content Hs Hdc (N.le_refl _)).
        intros r w1 (F & y & -> & Hy). split; [done|]. exists y. split; [done|].
        destruct Hy as [[-> Hsafe]|[e ->]]; (split; [done|]); [by left|by right].
      - wp_call (wp_rewrite_sidecar sidecar p (N.min (len d) (up_total_size p)) now
          (ServerAhead sidecar (upload_id p) (N.min (len d) (up_total_size p))) w d content Hs Hdc ltac:(lia)).
        intros r w1 (F & y & -> & Hy). split; [done|]. exists y. split; [done|].
        destruct Hy as [[-> Hsafe]|[e ->]]; (split; [done|]); [by left|by right]. }
    case_decide; [|done]. destruct (idle_for_if_stalled p now timeout); [by eapply Hstalled|done].
  - wp_call (wp_drop sidecar (Expired sidecar (upload_id p)) w content). intros r w1 (F & -> & Hsafe).
    split; [done|]. eexists. split; [done|]. split; [done|]. left. apply Hsafe. right.
    intros bytes' p' Hf' Hd'. simplify_eq. by apply agrees_none.
  - assert (wp (ok (BackendError sidecar (upload_id p) e) : ST (Service B) WritePathError ResumeOutcome)
      (reconciled sidecar content w) w) as Herr.
    { wp_step. split; [done|]. eexists. split; [done|]. split; [done|]. right. by split. }
    destruct e as [|e|msg|msg|msg|ino|msg|e|msg]; try done. destruct (Hmsg msg eq_refl) as [H1' H2'].
    by rewrite !bool_decide_false by done.
Qed.

Lemma wp_replay_entry now timeout name w content :
  status_supported (backend w) -> session_of_prefix name content w -> is_sidecar_name name = true ->
  wp (replay_entry now timeout name) (λ r w', only_file name w w' /\
    exists xs, r = Ok xs /\ (safe_sidecar name content w' \/ Exists (excused w name) xs)) w.
Proof.
  intros Hsup Hpre Hn. unfold replay_entry. rewrite Hn. do 2 wp_step. unfold on_root. wp_step.
  wp_call wp_load_progress. intros r d ((Bd & Rd & Hc) & Hl).
  assert (only_file name w (with_stage d w)) as F by (split; [done|done|]; intros; cbn; by rewrite Rd).
  assert (stage (with_stage d w) = d) as Est by done.
  destruct r as [[p|]|e].
  - destruct Hl as (bytes & Hf & Hd). wp_step.
    eapply wp_mono; [apply (wp_reconcile now timeout name p bytes (with_stage d w) content); cbn [stage with_stage backend]|].
    + done.
    + by rewrite Rd.
    + done.
    + intros b' p' d'. cbn [stage with_stage backend]. rewrite Rd. apply Hpre.
    + intros r w1 (F1 & x & -> & Hx & Hs). wp_step. split; [by etrans|]. eexists. split; [done|].
      destruct Hs as [Hs|[E Hs]]; [by left|right]. apply Exists_cons_hd. split; [done|].
      destruct x; try done. cbn [stage with_stage] in Hs. intros Ho. by apply Hs, Hc.
  - wp_step. split; [done|]. eexists. split; [done|]. left. intros bytes p Hf. cbn in Hf. rewrite Rd in Hf. congruence.
  - wp_step. split; [done|]. eexists. split; [done|]. right. by apply Exists_cons_hd.
Qed.

Lemma only_file_disk {E A} name (m : ST StagingDir E A) :
  (forall d, wp m (λ _ d', calm d d' /\ forall n, n <> name -> root_files d' !! n = root_files d !! n) d) ->
  respects (only_file name) (zoom (stage (B:=B)) with_stage m).
Proof.
  intros Hm w. specialize (Hm (stage w)). unfold wp, zoom in *. destruct (m (stage w)) as [r d].
  destruct Hm as [Hc Ho]. by split.
Qed.

Lemma only_file_save name p : respects (only_file name) (zoom (stage (B:=B)) with_stage (save_progress p name)).
Proof.
  apply only_file_disk. intros d. eapply wp_mono; [apply wp_and; [apply wp_save_progress|apply respects_wp, calm_save]|].
  intros r d' [[_ Rd] Hc]. split; [done|]. intros n Hn.
  destruct r; [destruct Rd as (bytes & _ & ->); by rewrite lookup_insert_ne|by rewrite Rd].
Qed.

Lemma only_file_forget name : respects (only_file name) (zoom (stage (B:=B)) with_stage (forget_progress name)).
Proof.
  apply only_file_disk. intros d. wp_call wp_forget_progress. intros r d' (_ & _ & Hc & Rd & _). split; [done|].
  intros n Hn. destruct Rd as [-> | ->]; [done|]. by rewrite lookup_delete_ne.
Qed.

Lemma only_file_load name : respects (only_file name) (zoom (stage (B:=B)) with_stage (load_progress name)).
Proof.
  apply only_file_disk. intros d. wp_call wp_load_progress. intros r d' ((_ & Rd & Hc) & _). split; [done|].
  intros n _. by rewrite Rd.
Qed.

Lemma only_file_status name id : respects (only_file name) (call (upload_status id)).
Proof.
  intros w. unfold call, zoom. pose proof (status_pure_law id (backend w)) as Hp.
  destruct (upload_status id (backend w)) as [r b']. cbn in *. subst b'. by destruct w.
Qed.

#[local] Hint Resolve only_file_save only_file_forget only_file_load only_file_status : respects.

Lemma only_file_entry now timeout name : respects (only_file name) (replay_entry now timeout name).
Proof. unfold replay_entry, reconcile, rewrite_sidecar, drop_stalled, on_root. respects_auto. Qed.

(** The scan of the entries never fails. *)
Definition infallible {A} (m : ST (Service B) WritePathError A) : Prop := forall w, is_ok (m w).1 = true.

Lemma infallible_bind {A C} (m : ST (Service B) WritePathError A) (f : A -> ST (Service B) WritePathError C) :
  infallible m -> (forall a, infallible (f a)) -> infallible (bind m f).
Proof.
  intros Hm Hf w. specialize (Hm w). unfold bind. destruct (m w) as [[a|e] w']; [apply Hf|done].
Qed.

Lemma infallible_attempt {A} (m : ST (Service B) WritePathError A) : infallible (attempt m).
Proof. intros w. unfold attempt. by destruct (m w). Qed.

Lemma infallible_forget name : infallible (on_root (forget_progress name)).
Proof.
  intros w. unfold on_root, zoom. pose proof (wp_forget_progress name (stage w)) as Hwp. unfold wp in Hwp.
  destruct (forget_progress name (stage w)) as [r d]. by destruct Hwp as [-> _].
Qed.

Ltac infallible_auto :=
  repeat match goal with
  | |- infallible (bind _ _) => apply infallible_bind; [|intros ?]
  | |- infallible (attempt _) => apply infallible_attempt
  | |- infallible (ok _) => by intros ?
  | |- infallible (on_root (forget_progress _)) => apply infallible_forget
  | |- infallible (match ?x with _ => _ end) => destruct x
  end.

Lemma infallible_entry now timeout name : infallible (replay_entry now timeout name).
Proof. unfold replay_entry, reconcile, rewrite_sidecar, drop_stalled. infallible_auto. Qed.

Lemma wp_replay_entries now timeout entries w :
  status_supported (backend w) -> NoDup entries ->
  wp (replay_entries now timeout entries) (λ r w', backend w' = backend w /\
    (forall n, n ∉ entries -> root_files (stage w') !! n = root_files (stage w) !! n) /\
    exists xs, r = Ok xs /\ forall name content, name ∈ entries -> is_sidecar_name name = true ->
      session_of_prefix name content w -> safe_sidecar name content w' \/ Exists (excused w name) xs) w.
Proof.
  intros Hsup Hnd. revert w Hsup. induction Hnd as [|e entries He Hnd IH]; intros w Hsup; cbn [replay_entries].
  { wp_step. split; [done|]. split; [done|]. eexists. split; [done|]. intros name content Hin. by apply elem_of_nil in Hin. }
  wp_step.
  assert (wp (replay_entry now timeout e) (λ r w1, only_file e w w1 /\ exists xs, r = Ok xs /\
    forall content, is_sidecar_name e = true -> session_of_prefix e content w ->
      safe_sidecar e content w1 \/ Exists (excused w e) xs) w) as Hentry.
  { apply wp_and; [apply respects_wp, only_file_entry|]. pose proof (infallible_entry now timeout e w) as Hok.
    apply wp_run. destruct (replay_entry now timeout e w) as [[xs|err] w1] eqn:E; [|done].
    eexists. split; [done|]. intros content Hn Hpre.
    pose proof (wp_replay_entry now timeout e w content Hsup Hpre Hn) as Hwp. unfold wp in Hwp. rewrite E in Hwp.
    destruct Hwp as (_ & ys & [= <-] & Hs). done. }
  wp_call Hentry. intros r w1 ([Eb Hc Ho] & xs & -> & Hx). wp_step.
  wp_call (IH w1 ltac:(by rewrite Eb)). intros r w2 (Eb2 & Ho2 & ys & -> & Hy). wp_step.
  split; [congruence|]. split.
  - intros n Hn. rewrite Ho2, Ho by set_solver. done.
  - eexists. split; [done|]. intros name content Hin Hsn Hpre. rewrite Exists_app.
    apply elem_of_cons in Hin as [->|Hin].
    + destruct (Hx content Hsn Hpre) as [Hs|Hs]; [left|by right; left].
      intros bytes p. rewrite Ho2, Eb2 by done. apply Hs.
    + assert (name <> e) as Hne by set_solver.
      destruct (only_file_safe e name content w w1 ltac:(by split) Hne) as [_ Hpre1].
      destruct (Hy name content Hin Hsn (Hpre1 Hpre)) as [Hs|Hs]; [by left|right; right].
      eapply Exists_impl; [exact Hs|]. intros x [E Hx']. split; [done|].
      destruct x; try done. intros Hout. by apply Hx', Hc.
Qed.

(** C30: Startup makes resuming safe.  Let the server answer status queries and the directory list every
    name once.  After [replay_upload_sidecars], whatever failed, a listed sidecar whose session holds a
    beginning of the staged content (not the case when the staged file was overwritten after a part
    of it was sent) claims no more than its session holds, or its outcome says that the server could
    not be asked, that the file could not be read or rewritten, or that it should have been removed
    and the disk failed.  Files that are not listed and the server are left alone. *)
Theorem replayed_sidecars_are_safe timeout entries (w : Service B) :
  status_supported (backend w) -> NoDup entries ->
  let '(r, w') := replay_upload_sidecars timeout entries w in
  match r with
  | Err _ => root_files (stage w') = root_files (stage w)
  | Ok xs =>
      backend w' = backend w /\
      (forall n, n ∉ entries -> root_files (stage w') !! n = root_files (stage w) !! n) /\
      forall name content, name ∈ entries -> is_sidecar_name name = true ->
        session_of_prefix name content w -> safe_sidecar name content w' \/ Exists (excused w name) xs
  end.
Proof.
  intros Hsup Hnd.
  match goal with |- let '(r, w') := _ in @?Q r w' =>
    enough (wp (replay_upload_sidecars timeout entries) (λ r w', Q r w') w) as Hwp
      by (unfold wp in Hwp; by destruct (replay_upload_sidecars timeout entries w)) end.
  unfold replay_upload_sidecars, on_root. do 2 wp_step. apply wp_sys_kept; [|by intros d (_ & Rd & _)].
  intros d (Bd & Rd & Hc). wp_step. unfold now_unix_secs at 1, wp at 1. set (w1 := with_unix_clock _ _).
  wp_call (wp_replay_entries (default 0%N (head (unix_clock (with_stage d w)))) timeout entries w1 Hsup Hnd).
  intros r w2 (Eb & Ho & xs & -> & Hx). split; [done|]. split; [intros n Hn; rewrite Ho by done; cbn; by rewrite Rd|].
  intros name content Hin Hn Hpre.
  assert (session_of_prefix name content w1) as Hpre1.
  { intros bytes p d'. cbn [w1 stage with_unix_clock with_stage backend]. rewrite Rd. apply Hpre. }
  destruct (Hx name content Hin Hn Hpre1) as [Hs|Hs]; [by left|right].
  eapply Exists_impl; [exact Hs|]. intros x [E Hx']. split; [done|]. destruct x; try done.
  intros Hout. by apply Hx', Hc.
Qed.
End Safety.

(** A safe sidecar is one a chunked flush may resume from
    ([ChunkedFlush.chunked_flush_publishes_the_blob]). *)
Lemma safe_resumable {B} `{UploadBackendLaws B, ProgressCodecLaws} sidecar blob content (w : Service B) :
  safe_sidecar sidecar content w -> resumable sidecar blob content w.
Proof. intros Hs bytes p Hf Hd _ _. by eapply Hs. Qed.

#[export] Instance mock_status_laws : @UploadStatusLaws MockUploadBackend mock_backend mock_laws.
Proof.
  split; intros id b; cbn [upload_status mock_backend]; destruct (disable_chunked b); try done.
  cbn [fst]. destruct (in_progress b !! id) as [d|] eqn:E; [by exists d|done].
Qed.

#[local] Existing Instance binary_progress.
#[local] Existing Instance binary_progress_laws.
#[local] Existing Instance terse_journal.

(** The interrupted upload of [ChunkedFlush], its sidecar ahead of the server (which has four
    bytes), at [now] seconds with the last heartbeat at 1000. *)
Definition ahead_service (now : N) (disk : list (option nat)) : Service MockUploadBackend :=
  with_unix_clock [now]
    (with_stage (mkStagingDir (blobs (stage toy_interrupted))
                   {[ "ino-7.upload-progress" := to_codec (mkUploadProgress 1 "ino-7.blob" 10 8 1000) ]} disk)
       toy_interrupted).

Lemma ahead_prefix now disk :
  session_of_prefix "ino-7.upload-progress" (chars "abcdefghij") (ahead_service now disk).
Proof.
  intros bytes p d Hf Hd Hs. cbn [ahead_service stage with_unix_clock with_stage root_files backend] in Hf, Hs.
  rewrite lookup_singleton_eq in Hf. injection Hf as <-.
  cbn [decode_progress binary_progress] in Hd. rewrite of_to_codec in Hd. injection Hd as <-. cbn [upload_id] in Hs.
  assert (sessions (backend toy_interrupted) !! 1%N = Some (chars "abcd")) as Hs1 by (vm_compute; reflexivity).
  rewrite Hs1 in Hs. injection Hs as <-. by exists (chars "efghij").
Qed.

Lemma replayed_sidecars_are_safe_witness :
  let w := ahead_service 1010 [] in
  let '(r, w') := replay_upload_sidecars (from_secs 600) ["ino-7.blob"; "ino-7.upload-progress"] w in
  match r with
  | Err _ => root_files (stage w') = root_files (stage w)
  | Ok xs =>
      backend w' = backend w /\
      (forall n, n ∉ ["ino-7.blob"; "ino-7.upload-progress"] -> root_files (stage w') !! n = root_files (stage w) !! n) /\
      forall name content, name ∈ ["ino-7.blob"; "ino-7.upload-progress"] -> is_sidecar_name name = true ->
        session_of_prefix name content w -> safe_sidecar name content w' \/ Exists (excused w name) xs
  end.
Proof.
  apply (replayed_sidecars_are_safe (from_secs 600) ["ino-7.blob"; "ino-7.upload-progress"] (ahead_service 1010 [])).
  - intros id msg. vm_compute. discriminate.
  - repeat constructor; set_solver.
Defined.

Example ahead_is_trimmed :
  (replay_upload_sidecars (from_secs 600) ["ino-7.upload-progress"] (ahead_service 1010 [])).1 =
    Ok [SidecarTrimmed "ino-7.upload-progress" 1 4].
Proof. vm_compute. reflexivity. Qed.

(** The excuse is real: when a stalled sidecar that is ahead of the server cannot be removed, the
    next flush resumes past the bytes the server lacks and reports success for a file with a hole. *)
Lemma stalled_sidecar_left_behind :
  let w := (replay_upload_sidecars (from_secs 600) ["ino-7.upload-progress"]
              (ahead_service 2000 [None; None; Some 0])).2 in
  let '(r, w') := chunked_flush toy_options 7 w in
  r = Ok tt /\ uploads (backend w') !! "/f" = Some (chars "abcd" ++ replicate 4 (to_byte 0) ++ chars "ij").
Proof. vm_compute. by split. Qed.
