(* ===== verification/UploadState.v ===== *)
(** Resumable uploads: crates/pcloud-backends/src/upload_state.rs over the resume table of
    crates/pcloud-store/src/repositories/upload_resume.rs.

    The network driver and the session refresher are the traits of the source.  A run has a
    budget of effects (driver calls and writes of the table): when it is used up the process is
    killed there, [Killed], and the table and the server stay as they are.  [now] gives the
    clock reading of each effect. *)
From S2P Require Import Prelude Paths Bytes Retry.

(** * The resume table *)

Inductive ConflictHint : Type :=
| HintNone
| HintIfHash (hash : N)
| HintIfNew.

Inductive ConflictMode : Type :=
| Overwrite
| IfHashMatches (hash : N)
| CreateIfNew.

#[export] Instance ConflictMode_eq_dec : EqDecision ConflictMode.
Proof. solve_decision. Defined.

Definition to_hint (m : ConflictMode) : ConflictHint :=
  match m with
  | Overwrite => HintNone
  | IfHashMatches h => HintIfHash h
  | CreateIfNew => HintIfNew
  end.

Definition from_hint (h : ConflictHint) : ConflictMode :=
  match h with
  | HintNone => Overwrite
  | HintIfHash h => IfHashMatches h
  | HintIfNew => CreateIfNew
  end.

Record UploadResumeRecord : Type := mkResumeRecord {
  rec_parent_folder_id : N;
  rec_file_name : string;
  rec_upload_id : N;
  rec_offset : N;
  rec_total_size : N;
  rec_prefix_sha1 : option string;
  rec_conflict : ConflictHint;
  rec_updated_at : Z;
}.

(** The rows by their primary key [local_path].  A [u64] is stored as an [i64] and read back as
    a [u64]; the table's CHECK constraints refuse a negative offset or size. *)
Abbreviation ResumeTable := (gmap string UploadResumeRecord).

Definition fits_i64 (n : N) : bool := bool_decide (n < 2 ^ 63)%N.

Definition repo_put (local_path : string) (r : UploadResumeRecord) (t : ResumeTable) : option ResumeTable :=
  if fits_i64 (rec_offset r) && fits_i64 (rec_total_size r) then Some (<[local_path := r]> t) else None.

Definition set_offset (offset : N) (sha : option string) (now : Z) (r : UploadResumeRecord) : UploadResumeRecord :=
  mkResumeRecord (rec_parent_folder_id r) (rec_file_name r) (rec_upload_id r) offset (rec_total_size r)
    sha (rec_conflict r) now.

Definition repo_update_offset (local_path : string) (offset : N) (sha : option string) (now : Z)
    (t : ResumeTable) : option ResumeTable :=
  match t !! local_path with
  | None => Some t
  | Some r => if fits_i64 offset then Some (<[local_path := set_offset offset sha now r]> t) else None
  end.

Definition repo_delete (local_path : string) (t : ResumeTable) : ResumeTable := delete local_path t.

(** * The traits *)

Record UploadRequest : Type := mkRequest {
  local_path : string;
  parent_folder_id : N;
  file_name : string;
  total_size : N;
  req_conflict : ConflictMode;
}.

Inductive UploadErrorClass : Type :=
| Auth
| PermFail
| TempFail.

Class UploadDriver (D : Type) : Type := {
  drv_create : UploadRequest -> string -> D -> result N UploadErrorClass * D;
  drv_write : N -> N -> N -> string -> D -> result N UploadErrorClass * D;
  drv_save : N -> UploadRequest -> string -> D -> result unit UploadErrorClass * D;
}.

Class SessionRefresher (R : Type) : Type := {
  refresh : R -> result string string * R;
}.

(** * The state machine *)

Inductive UploadState : Type :=
| Idle
| Creating
| Writing (offset : N)
| Saving
| Done
| Paused (offset : N)
| Failed.

Inductive UploadStateError : Type :=
| Store
| Permanent (attempts : N)
| RetriesExhausted (attempts : N)
| AuthRefresh (msg : string).

Definition DEFAULT_RETRY_DELAY : N := 2000 * 1000000.
Definition DEFAULT_MAX_ATTEMPTS : N := 5.

(** Everything a run changes. *)
Record World (D R : Type) : Type := mkWorld {
  table : ResumeTable;
  driver : D;
  refresher : R;
  state : UploadState;
  waits : list N;
}.
Arguments mkWorld {D R}.
Arguments table {D R}.
Arguments driver {D R}.
Arguments refresher {D R}.
Arguments state {D R}.
Arguments waits {D R}.

(** The result of a run, or the point the process was killed at. *)
Inductive outcome (A : Type) : Type :=
| Finished (r : A)
| Killed.
Arguments Finished {A} r.
Arguments Killed {A}.

Section Machine.
Context {D R : Type} `{UploadDriver D} `{SessionRefresher R}.
Context `{Powi} (policy : RetryPolicy) (now : nat -> Z).

Definition set_state (s : UploadState) (w : World D R) : World D R :=
  mkWorld (table w) (driver w) (refresher w) s (waits w).

Definition set_table (t : ResumeTable) (w : World D R) : World D R :=
  mkWorld t (driver w) (refresher w) (state w) (waits w).

Definition set_driver (d : D) (w : World D R) : World D R :=
  mkWorld (table w) d (refresher w) (state w) (waits w).

Definition set_refresher (r : R) (w : World D R) : World D R :=
  mkWorld (table w) (driver w) r (state w) (waits w).

Definition record_wait (wait : N) (w : World D R) : World D R :=
  mkWorld (table w) (driver w) (refresher w) (state w) (waits w ++ [wait]).

(** [run_step]; its result is the operation's value and the token in use afterwards, and the
    effects left. *)
Fixpoint run_step (fuel : nat) (op : string -> D -> result N UploadErrorClass * D) (attempts : N)
    (auth_refreshed : bool) (auth : string) (w : World D R)
    : outcome (result (N * string) UploadStateError) * nat * World D R :=
  match fuel with
  | 0 => (Killed, 0, w)
  | S fuel' =>
      let attempts := (attempts + 1)%N in
      let '(res, d) := op auth (driver w) in
      let w := set_driver d w in
      match res with
      | Ok value => (Finished (Ok (value, auth)), fuel', w)
      | Err PermFail => (Finished (Err (Permanent attempts)), fuel', set_state Failed w)
      | Err Auth =>
          if auth_refreshed then (Finished (Err (Permanent attempts)), fuel', set_state Failed w)
          else
            match refresh (refresher w) with
            | (Ok token, r) => run_step fuel' op attempts true token (set_refresher r w)
            | (Err msg, r) =>
                (Finished (Err (AuthRefresh msg)), fuel', set_state Failed (set_refresher r w))
            end
      | Err TempFail =>
          match next policy attempts with
          | Retry wait => run_step fuel' op attempts auth_refreshed auth (record_wait wait w)
          | GiveUp => (Finished (Err (RetriesExhausted attempts)), fuel', set_state Failed w)
          end
      end
  end.

(** A write of the table: one effect; [None] is an SQLite error. *)
Definition store_step (fuel : nat) (f : Z -> ResumeTable -> option ResumeTable) (w : World D R)
    : outcome (result unit UploadStateError) * nat * World D R :=
  match fuel with
  | 0 => (Killed, 0, w)
  | S fuel' =>
      match f (now fuel) (table w) with
      | Some t => (Finished (Ok ()), fuel', set_table t w)
      | None => (Finished (Err Store), fuel', w)
      end
  end.

Definition run_result : Type := outcome (result unit UploadStateError) * World D R.

(** Go on after an effect, unless the process was killed or the effect failed. *)
Definition and_then {A} (o : outcome (result A UploadStateError) * nat * World D R)
    (k : A -> nat -> World D R -> run_result) : run_result :=
  match o with
  | (Killed, _, w) => (Killed, w)
  | (Finished (Err e), _, w) => (Finished (Err e), w)
  | (Finished (Ok a), fuel, w) => k a fuel w
  end.

Definition save_phase (fuel : nat) (req : UploadRequest) (upload_id : N) (auth : string) (w : World D R)
    : run_result :=
  and_then
    (run_step fuel (λ token d, let '(r, d) := drv_save upload_id req token d in
                               (match r with Ok _ => Ok 0%N | Err e => Err e end, d)) 0 false auth
       (set_state Saving w))
    (λ _ fuel w,
      and_then (store_step fuel (λ _ t, Some (repo_delete (local_path req) t)) w)
        (λ _ _ w, (Finished (Ok ()), set_state Done w))).

(** The [while] loop.  Every turn takes effects, so [turns] at least [fuel] is never used up
    before the budget. *)
Fixpoint write_loop (turns fuel : nat) (req : UploadRequest) (upload_id offset : N) (auth : string)
    (w : World D R) : run_result :=
  if decide (offset < total_size req)%N then
    match turns with
    | 0 => (Killed, w)
    | S turns' =>
        let remaining := (total_size req - offset)%N in
        and_then (run_step fuel (drv_write upload_id offset remaining) 0 false auth w)
          (λ '(new_offset, auth) fuel w,
            let offset := N.min new_offset (total_size req) in
            and_then (store_step fuel (repo_update_offset (local_path req) offset None) w)
              (λ _ fuel w, write_loop turns' fuel req upload_id offset auth (set_state (Writing offset) w)))
    end
  else save_phase fuel req upload_id auth w.

Definition compatible (req : UploadRequest) (r : UploadResumeRecord) : bool :=
  bool_decide (rec_total_size r = total_size req) &&
  bool_decide (rec_parent_folder_id r = parent_folder_id req) &&
  bool_decide (rec_file_name r = file_name req) &&
  bool_decide (from_hint (rec_conflict r) = req_conflict req).

Definition new_record (req : UploadRequest) (upload_id : N) (now : Z) : UploadResumeRecord :=
  mkResumeRecord (parent_folder_id req) (file_name req) upload_id 0 (total_size req) None
    (to_hint (req_conflict req)) now.

Definition create_phase (fuel : nat) (req : UploadRequest) (auth : string) (w : World D R) : run_result :=
  and_then (run_step fuel (drv_create req) 0 false auth (set_state Creating w))
    (λ '(uid, auth) fuel w,
      and_then (store_step fuel (λ now t, repo_put (local_path req) (new_record req uid now) t) w)
        (λ _ fuel w, write_loop fuel fuel req uid 0 auth (set_state (Writing 0) w))).

Definition run (fuel : nat) (req : UploadRequest) (auth : string) (w : World D R) : run_result :=
  match table w !! local_path req with
  | Some r =>
      if compatible req r then
        write_loop fuel fuel req (rec_upload_id r) (rec_offset r) auth (set_state (Writing (rec_offset r)) w)
      else
        and_then (store_step fuel (λ _ t, Some (repo_delete (local_path req) t)) w)
          (λ _ fuel w, create_phase fuel req auth w)
  | None => create_phase fuel req auth w
  end.

Definition pause (w : World D R) : World D R :=
  set_state (Paused (match state w with Writing o | Paused o => o | _ => 0%N end)) w.
End Machine.

(** * What the server promises *)

(** [accepted d id] is the length of the prefix the server holds of an upload, and
    [committed d req] that it published a file with all the bytes of the request. *)
Class UploadServer (D : Type) : Type := {
  accepted : D -> N -> N;
  committed : D -> UploadRequest -> Prop;
}.

Definition keeps {D} `{UploadServer D} (d d' : D) : Prop := forall id, (accepted d id <= accepted d' id)%N.

(** No call takes accepted bytes back; a write at an accepted offset that returns [new] leaves
    [new] bytes accepted; saving an upload that holds the whole file commits it. *)
Class UploadServerLaws (D : Type) `{UploadDriver D, UploadServer D} : Prop := {
  create_keeps req auth d : keeps d (drv_create req auth d).2;
  write_keeps id off rem auth d : keeps d (drv_write id off rem auth d).2;
  save_keeps id req auth d : keeps d (drv_save id req auth d).2;
  write_accepts id off rem auth d new d' :
    drv_write id off rem auth d = (Ok new, d') -> (off <= accepted d id)%N -> (new <= accepted d' id)%N;
  save_commits id req auth d d' :
    drv_save id req auth d = (Ok (), d') -> (total_size req <= accepted d id)%N -> committed d' req;
}.

(** A driver on an undisturbed network, for the upload of one file.  A call succeeds in the states
    where the service can answer it: [calm], before the upload exists; [holds d id off], when the
    upload [id] is alive and holds the first [off] bytes of the file.  [uploaded] is what a save
    leaves behind. *)
Class UndisturbedDriver (D : Type) `{UploadDriver D} (req : UploadRequest) (auth : string) : Type := {
  calm : D -> Prop;
  holds : D -> N -> N -> Prop;
  uploaded : D -> Prop;
  create_succeeds d : calm d -> exists id d', drv_create req auth d = (Ok id, d') /\ holds d' id 0;
  write_succeeds id off d :
    holds d id off -> (off < total_size req)%N ->
    exists new d', drv_write id off (total_size req - off) auth d = (Ok new, d') /\ (off < new)%N /\
      holds d' id (N.min new (total_size req));
  save_succeeds id off d :
    holds d id off -> (total_size req <= off)%N -> exists d', drv_save id req auth d = (Ok (), d') /\ uploaded d';
}.

#[export] Instance keeps_refl {D} `{UploadServer D} : Reflexive keeps.
Proof. intros d id. lia. Qed.

#[export] Instance keeps_trans {D} `{UploadServer D} : Transitive keeps.
Proof. intros d1 d2 d3 H1 H2 id. specialize (H1 id). specialize (H2 id). lia. Qed.

Section Theorems.
Context {D R : Type} `{UploadServerLaws D} `{SessionRefresher R}.
Context `{Powi} (policy : RetryPolicy) (now : nat -> Z).

(** The resume table never claims more than the server holds. *)
Definition resume_ok (w : World D R) : Prop :=
  forall path r, table w !! path = Some r -> (rec_offset r <= accepted (driver w) (rec_upload_id r))%N.

Lemma resume_ok_keeps w w' :
  resume_ok w -> table w' = table w -> keeps (driver w) (driver w') -> resume_ok w'.
Proof.
  intros Hok Ht Hk path r Hr. rewrite Ht in Hr. etransitivity; [by apply (Hok path)|apply Hk].
Qed.

(** What any phase guarantees, however it ends. *)
Definition safe_end (req : UploadRequest) (w : World D R) (o : run_result (D:=D) (R:=R)) : Prop :=
  resume_ok o.2 /\ keeps (driver w) (driver o.2) /\
  (o.1 = Finished (Ok ()) -> committed (driver o.2) req /\ table o.2 !! local_path req = None).

Lemma safe_end_state s req w o : safe_end req (set_state s w) o -> safe_end req w o.
Proof. done. Qed.

Lemma run_step_spec fuel op attempts refreshed auth (w : World D R) :
  (forall token d, keeps d (op token d).2) ->
  let '(o, _, w') := run_step policy fuel op attempts refreshed auth w in
  table w' = table w /\ keeps (driver w) (driver w') /\
  match o with
  | Finished (Ok (v, _)) => exists token d, op token d = (Ok v, driver w') /\ keeps (driver w) d
  | _ => True
  end.
Proof.
  intros Hop. revert attempts refreshed auth w.
  induction fuel as [|fuel IH]; intros attempts refreshed auth w; [done|]. cbn [run_step].
  pose proof (Hop auth (driver w)) as Hk. destruct (op auth (driver w)) as [[v|[]] d] eqn:Eo; simpl in Hk.
  - split; [done|]. split; [done|]. by exists auth, (driver w).
  - destruct refreshed; [done|]. destruct (refresh _) as [[token|msg] r]; [|by repeat split].
    specialize (IH (attempts + 1)%N true token (set_refresher r (set_driver d w))).
    destruct (run_step _ _ _ _ _ _ _) as [[o f] w']. destruct IH as (Ht & Hk' & Ho). simpl in *.
    split; [done|]. split; [by transitivity d|]. destruct o as [[[v a]|]|]; try done.
    destruct Ho as (tk & d1 & E & Hd). exists tk, d1. split; [done|]. by transitivity d.
  - done.
  - destruct (next policy (attempts + 1)) as [wait|]; [|done].
    specialize (IH (attempts + 1)%N refreshed auth (record_wait wait (set_driver d w))).
    destruct (run_step _ _ _ _ _ _ _) as [[o f] w']. destruct IH as (Ht & Hk' & Ho). simpl in *.
    split; [done|]. split; [by transitivity d|]. destruct o as [[[v a]|]|]; try done.
    destruct Ho as (tk & d1 & E & Hd). exists tk, d1. split; [done|]. by transitivity d.
Qed.

(** A step followed by the rest of a phase. *)
Lemma step_then req fuel op auth (w w0 : World D R) k :
  (forall token d, keeps d (op token d).2) -> resume_ok w -> keeps (driver w0) (driver w) ->
  (forall v a fuel' w' token d, op token d = (Ok v, driver w') -> keeps (driver w) d ->
     keeps (driver w) (driver w') -> table w' = table w -> safe_end req w' (k (v, a) fuel' w')) ->
  safe_end req w0 (and_then (run_step policy fuel op 0 false auth w) k).
Proof.
  intros Hop Hok Hk0 Hrest. pose proof (run_step_spec fuel op 0 false auth w Hop) as Hs.
  destruct (run_step _ _ _ _ _ _ _) as [[o f] w']. destruct Hs as (Ht & Hk & Ho).
  destruct o as [[[v a]|e]|]; simpl.
  - destruct Ho as (token & d & E & Hd). destruct (Hrest v a f w' token d E Hd Hk Ht) as (Sok & Skp & Sfin).
    split; [done|]. split; [|done]. transitivity (driver w); [done|]. by transitivity (driver w').
  - split; [by eapply resume_ok_keeps|]. split; [by transitivity (driver w)|done].
  - split; [by eapply resume_ok_keeps|]. split; [by transitivity (driver w)|done].
Qed.

Lemma store_then req fuel f (w w0 : World D R) k :
  resume_ok w -> keeps (driver w0) (driver w) ->
  (forall n t fuel', f n (table w) = Some t -> safe_end req (set_table t w) (k () fuel' (set_table t w))) ->
  safe_end req w0 (and_then (store_step now fuel f w) k).
Proof.
  intros Hok Hk0 Hrest. destruct fuel as [|fuel]; simpl; [by split|].
  destruct (f _ _) as [t|] eqn:E; simpl; [|by split].
  destruct (Hrest _ t fuel E) as (Sok & Skp & Sfin). split; [done|]. split; [|done]. by transitivity (driver w).
Qed.

Lemma resume_ok_delete path w : resume_ok w -> resume_ok (set_table (repo_delete path (table w)) w).
Proof. intros Hok p r Hr. simpl in Hr. unfold repo_delete in Hr. apply lookup_delete_Some in Hr as [_ Hr]. by apply (Hok p). Qed.

Lemma resume_ok_insert path r w :
  resume_ok w -> (rec_offset r <= accepted (driver w) (rec_upload_id r))%N ->
  resume_ok (set_table (<[path := r]> (table w)) w).
Proof.
  intros Hok Hr p r' Hp. simpl in *. destruct (decide (path = p)) as [->|Hne].
  - rewrite lookup_insert_eq in Hp. by simplify_eq.
  - rewrite lookup_insert_ne in Hp by done. by apply (Hok p).
Qed.

Lemma save_phase_safe fuel req id auth w :
  resume_ok w -> (total_size req <= accepted (driver w) id)%N ->
  safe_end req w (save_phase policy now fuel req id auth w).
Proof.
  intros Hok Hall. unfold save_phase.
  apply step_then; [|by apply (resume_ok_keeps w)|done|].
  { intros token d. pose proof (save_keeps id req token d) as Hk. by destruct (drv_save _ _ _ _) as [[]]. }
  intros v a fuel' w' token d E Hd Hk Ht.
  assert (committed (driver w') req) as Hc.
  { destruct (drv_save id req token d) as [[[]|e] d'] eqn:Es; [|done]. injection E as _ <-.
    eapply save_commits; [exact Es|]. etransitivity; [exact Hall|apply Hd]. }
  assert (resume_ok w') as Hok' by (by eapply (resume_ok_keeps w)).
  apply store_then; [done|done|]. intros n t f [= <-]. split; [by apply resume_ok_delete|].
  split; [done|]. intros _. split; [done|]. apply lookup_delete_eq.
Qed.

Lemma repo_update_lookup path offset sha t0 t t' p r' :
  repo_update_offset path offset sha t0 t = Some t' -> t' !! p = Some r' ->
  t !! p = Some r' \/
  (p = path /\ exists r, t !! path = Some r /\ r' = set_offset offset sha t0 r).
Proof.
  unfold repo_update_offset. destruct (t !! path) as [r|] eqn:Er; [|intros [= <-]; auto].
  destruct (fits_i64 offset); [|done]. intros [= <-]. destruct (decide (path = p)) as [->|Hne].
  - rewrite lookup_insert_eq. intros [= <-]. eauto.
  - rewrite lookup_insert_ne by done. auto.
Qed.

(** The row of the request, if there is one, belongs to the upload being written. *)
Definition row_of (req : UploadRequest) (id : N) (w : World D R) : Prop :=
  forall r, table w !! local_path req = Some r -> rec_upload_id r = id.

Lemma write_loop_safe turns fuel req id off auth w :
  resume_ok w -> (off <= accepted (driver w) id)%N -> row_of req id w ->
  safe_end req w (write_loop policy now turns fuel req id off auth w).
Proof.
  revert fuel off auth w; induction turns as [|turns IH]; intros fuel off auth w Hok Hoff Hrow; cbn [write_loop].
  { case_decide; [by split|]. apply save_phase_safe; [done|lia]. }
  case_decide as Hlt; [|apply save_phase_safe; [done|lia]].
  apply step_then; [intros; apply write_keeps|done|done|].
  intros v a fuel' w' token d E Hd Hk Ht.
  assert (v <= accepted (driver w') id)%N as Hv.
  { eapply write_accepts; [exact E|]. etransitivity; [exact Hoff|apply Hd]. }
  assert (resume_ok w') as Hok' by (by eapply (resume_ok_keeps w)).
  assert (row_of req id w') as Hrow' by (intros r; rewrite Ht; apply Hrow).
  apply store_then; [done|done|]. intros n t f Hf.
  eapply safe_end_state, IH; [|simpl; lia|].
  - intros p r Hp. simpl in *. destruct (repo_update_lookup _ _ _ _ _ _ _ _ Hf Hp) as [Hp'|(-> & r0 & Hr0 & ->)].
    + by apply (Hok' p).
    + simpl. rewrite (Hrow' r0 Hr0). lia.
  - intros r Hr. simpl in Hr. destruct (repo_update_lookup _ _ _ _ _ _ _ _ Hf Hr) as [Hp'|(_ & r0 & Hr0 & ->)].
    + by apply Hrow'.
    + simpl. by apply Hrow'.
Qed.

Lemma create_phase_safe fuel req auth w :
  resume_ok w -> safe_end req w (create_phase policy now fuel req auth w).
Proof.
  intros Hok. unfold create_phase. apply step_then; [intros; apply create_keeps|done|done|].
  intros uid a fuel' w' token d E Hd Hk Ht. assert (resume_ok w') as Hok' by (by eapply (resume_ok_keeps w)).
  apply store_then; [done|done|]. intros n t f Hf. unfold repo_put in Hf.
  destruct (_ && _); [|done]. injection Hf as <-.
  eapply safe_end_state, write_loop_safe; [|simpl; lia|].
  - apply (resume_ok_insert _ _ w'); [done|simpl; lia].
  - intros r Hr. simpl in Hr. rewrite lookup_insert_eq in Hr. by simplify_eq.
Qed.

Lemma run_safe fuel req auth w : resume_ok w -> safe_end req w (run policy now fuel req auth w).
Proof.
  intros Hok. unfold run. destruct (table w !! local_path req) as [r|] eqn:Er; [|by apply create_phase_safe].
  destruct (compatible req r).
  - eapply safe_end_state, write_loop_safe; [done|by apply (Hok (local_path req))|]. intros r' Hr'. simpl in Hr'. congruence.
  - apply store_then; [done|done|]. intros n t f [= <-]. apply create_phase_safe. by apply resume_ok_delete.
Qed.

(** A process: runs one after the other, each killed when its budget is used up. *)
Definition run_all (runs : list (nat * UploadRequest * string)) (w : World D R) : World D R :=
  foldl (λ w '(fuel, req, auth), (run policy now fuel req auth w).2) w runs.

Lemma run_all_ok runs w : resume_ok w -> resume_ok (run_all runs w).
Proof.
  revert w; induction runs as [|[[fuel req] auth] runs IH]; intros w Hok; simpl; [done|].
  apply IH, run_safe, Hok.
Qed.

(** C35: An upload reported as done is complete on the server, whatever happened before: after any
    number of runs, of this and other files, that failed or were killed between two effects,
    the resume table never claims more bytes than the server accepted, and a run that returns
    [Ok] has committed all the bytes of its request and removed its row. *)
Theorem upload_done_is_complete runs fuel req auth (w0 : World D R) (Hfresh : table w0 = ∅) :
  let w := run_all runs w0 in
  let '(o, w') := run policy now fuel req auth w in
  (forall path r, table w' !! path = Some r -> (rec_offset r <= accepted (driver w') (rec_upload_id r))%N) /\
  (o = Finished (Ok ()) -> committed (driver w') req /\ table w' !! local_path req = None).
Proof.
  intros w. assert (resume_ok w) as Hok.
  { apply run_all_ok. intros path r. by rewrite Hfresh. }
  pose proof (run_safe fuel req auth w Hok) as (Sok & _ & Sfin).
  by destruct (run _ _ _ _ _ _) as [o w'].
Qed.

(** * Bounds and termination *)

Lemma run_step_bound fuel op attempts (refreshed : bool) auth (w : World D R) :
  let calls := N.to_nat (N.max (max_attempts policy) (attempts + 1) - attempts) + (if refreshed then 0 else 1) in
  let '(o, rest, w') := run_step policy fuel op attempts refreshed auth w in
  fuel - rest <= calls /\ (calls <= fuel -> o <> Killed) /\
  length (waits w') + N.to_nat attempts + 1 <= length (waits w) + N.to_nat (N.max (max_attempts policy) (attempts + 1)).
Proof.
  cbv zeta. revert attempts refreshed auth w.
  induction fuel as [|fuel IH]; intros attempts refreshed auth w; cbn [run_step].
  { split; [lia|]. split; [destruct refreshed; lia|lia]. }
  destruct (op auth (driver w)) as [[v|[]] d].
  - split; [destruct refreshed; lia|]. split; [done|]. simpl. lia.
  - destruct refreshed.
    + split; [lia|]. split; [done|]. simpl. lia.
    + destruct (refresh _) as [[token|msg] r]; [|split; [lia|]; split; [done|]; simpl; lia].
      specialize (IH (attempts + 1)%N true token (set_refresher r (set_driver d w))).
      destruct (run_step _ _ _ _ _ _ _) as [[o rest] w']. destruct IH as (I1 & I2 & I3). simpl in I3.
      split; [lia|]. split; [intros; apply I2; lia|lia].
  - split; [destruct refreshed; lia|]. split; [done|]. simpl. lia.
  - destruct (next policy (attempts + 1)) as [wait|] eqn:En.
    + assert (~ (max_attempts policy <= attempts + 1)%N) as Hlt.
      { intros Hge%next_gives_up. congruence. }
      specialize (IH (attempts + 1)%N refreshed auth (record_wait wait (set_driver d w))).
      destruct (run_step _ _ _ _ _ _ _) as [[o rest] w']. destruct IH as (I1 & I2 & I3).
      cbn [waits record_wait set_driver] in I3. rewrite length_app in I3. simpl in I3.
      split; [destruct refreshed; lia|]. split; [intros; apply I2; destruct refreshed; lia|lia].
    + split; [destruct refreshed; lia|]. split; [done|]. simpl. lia.
Qed.
End Theorems.

(** A step makes at most [max_attempts + 1] network calls (the extra one after a refreshed
    session) and records at most [max_attempts - 1] waits, whatever the driver answers; with
    that budget it ends. *)
Theorem upload_step_bounded {D R} `{Powi, SessionRefresher R} max sched (p : RetryPolicy)
    fuel op auth (w : World D R) (Hp : policy_new max sched = Some p) :
  let '(o, rest, w') := run_step p fuel op 0 false auth w in
  fuel - rest <= N.to_nat max + 1 /\
  (N.to_nat max + 1 <= fuel -> o <> Killed) /\
  length (waits w') <= length (waits w) + N.to_nat (max - 1).
Proof.
  assert (max_attempts p = max /\ (1 <= max)%N) as [Hmax H1].
  { unfold policy_new in Hp. repeat case_match; simplify_eq/=; repeat case_decide; done. }
  pose proof (run_step_bound p fuel op 0 false auth w) as Hb. cbv zeta in Hb.
  destruct (run_step _ _ _ _ _ _ _) as [[o rest] w']. rewrite Hmax in Hb.
  destruct Hb as (I1 & I2 & I3). split; [lia|]. split; [intros; apply I2; lia|lia].
Qed.

Section Completion.
Context {D R : Type} `{UndisturbedDriver D req auth} `{SessionRefresher R}.
Context `{Powi} (policy : RetryPolicy) (now : nat -> Z).

Lemma run_step_ok fuel op attempts refreshed token (w : World D R) v d :
  op token (driver w) = (Ok v, d) ->
  run_step policy (S fuel) op attempts refreshed token w = (Finished (Ok (v, token)), fuel, set_driver d w).
Proof. intros E. simpl. by rewrite E. Qed.

(** A run ended well: done, the file is uploaded, and the only change of the table is that the row
    is gone. *)
Definition completed (w : World D R) (o : run_result (D:=D) (R:=R)) : Prop :=
  o.1 = Finished (Ok ()) /\ state o.2 = Done /\ table o.2 = delete (local_path req) (table w) /\
  uploaded (driver o.2).

Lemma save_phase_completes fuel id off w :
  2 <= fuel -> holds (driver w) id off -> (total_size req <= off)%N ->
  completed w (save_phase policy now fuel req id auth w).
Proof.
  intros Hf Hh Hoff. destruct fuel as [|[|fuel]]; [lia..|]. unfold save_phase.
  destruct (save_succeeds id off (driver w) Hh Hoff) as (d & Ed & Hd).
  rewrite (run_step_ok _ _ _ _ _ _ 0%N d); [done|]. simpl. by rewrite Ed.
Qed.

Lemma update_offset_some path offset sha t0 t :
  (offset < 2 ^ 63)%N ->
  exists t', repo_update_offset path offset sha t0 t = Some t' /\ delete path t' = delete path t.
Proof.
  intros Ho. unfold repo_update_offset. destruct (t !! path) as [r|]; [|by eexists].
  unfold fits_i64. rewrite bool_decide_eq_true_2 by done. eexists. split; [done|].
  apply delete_insert_eq.
Qed.

Lemma write_loop_completes turns fuel id off w :
  (total_size req < 2 ^ 63)%N -> (total_size req - off <= N.of_nat turns)%N ->
  2 * N.to_nat (total_size req - off) + 2 <= fuel -> holds (driver w) id off ->
  completed w (write_loop policy now turns fuel req id off auth w).
Proof.
  intros Hsize. revert fuel off w; induction turns as [|turns IH]; intros fuel off w Ht Hf Hh; cbn [write_loop].
  { case_decide; [lia|]. eapply save_phase_completes; [lia|done|lia]. }
  case_decide as Hlt; [|eapply save_phase_completes; [lia|done|lia]].
  destruct fuel as [|[|fuel]]; [lia..|].
  destruct (write_succeeds id off (driver w) Hh Hlt) as (new & d & Ed & Hnew & Hd).
  rewrite (run_step_ok _ _ _ _ _ _ new d Ed). cbn [and_then store_step].
  destruct (update_offset_some (local_path req) (N.min new (total_size req)) None (now (S fuel))
    (table (set_driver d w)) ltac:(lia)) as (t & -> & Hdel). cbn [and_then].
  set (w1 := set_state _ _).
  destruct (IH fuel (N.min new (total_size req)) w1) as (I1 & I2 & I3 & I4); [lia|lia|done|].
  split; [done|]. split; [done|]. split; [|done]. rewrite I3. exact Hdel.
Qed.

Lemma create_phase_completes fuel w :
  (total_size req < 2 ^ 63)%N -> 2 * N.to_nat (total_size req) + 4 <= fuel -> calm (driver w) ->
  completed w (create_phase policy now fuel req auth w).
Proof.
  intros Hsize Hf Hc. destruct fuel as [|[|fuel]]; [lia..|]. unfold create_phase.
  destruct (create_succeeds (driver w) Hc) as (id & d & Ed & Hd).
  rewrite (run_step_ok _ _ _ _ _ (set_state Creating w) id d Ed). cbn [and_then store_step]. unfold repo_put, fits_i64.
  rewrite !bool_decide_eq_true_2 by (simpl; lia). cbn [andb and_then].
  set (w1 := set_state (Writing 0) _).
  destruct (write_loop_completes fuel fuel id 0 w1) as (I1 & I2 & I3 & I4); [done|lia|lia|done|].
  split; [done|]. split; [done|]. split; [|done]. rewrite I3. apply delete_insert_eq.
Qed.

(** Where a run can start: a row that is resumed records an upload that is alive and holds the bytes
    it claims. *)
Definition can_start (w : World D R) : Prop :=
  match table w !! local_path req with
  | Some r => if compatible req r then holds (driver w) (rec_upload_id r) (rec_offset r) else calm (driver w)
  | None => calm (driver w)
  end.

(** On an undisturbed network every upload terminates as [Done], from scratch or resumed from a row,
    within two effects for each byte still to send and five more; the file is uploaded, its row is
    gone and no other row is touched. *)
Lemma upload_completes fuel (w : World D R) :
  (total_size req < 2 ^ 63)%N -> 2 * N.to_nat (total_size req) + 5 <= fuel -> can_start w ->
  completed w (run policy now fuel req auth w).
Proof.
  intros Hsize Hfuel Hstart. unfold can_start in Hstart. unfold run.
  destruct (table w !! local_path req) as [r|]; [|apply create_phase_completes; [done|lia|done]].
  destruct (compatible req r).
  { apply (write_loop_completes fuel fuel (rec_upload_id r) (rec_offset r)
       (set_state (Writing (rec_offset r)) w)); [done|lia|lia|done]. }
  destruct fuel as [|fuel]; [lia|]. cbn [store_step and_then].
  destruct (create_phase_completes fuel (set_table (repo_delete (local_path req) (table w)) w))
    as (I1 & I2 & I3 & I4); [done|lia|done|].
  split; [done|]. split; [done|]. split; [|done]. rewrite I3. apply delete_delete_eq.
Qed.

End Completion.

(** * The interfaces are inhabited: a server holding the bytes it was sent

    The driver reads the local file as it is at the moment of each call. *)

Record Server : Type := mkServer {
  uploads : gmap N (list byte);
  next_id : N;
  chunk : nat;
  local_file : list byte;
  published : gmap string (list byte);
}.

Definition server_write (id off rem : N) (d : Server) : result N UploadErrorClass * Server :=
  match uploads d !! id with
  | None => (Err PermFail, d)
  | Some held =>
      if decide (len held < off)%N then (Err PermFail, d)
      else
        let data := take (Nat.min (chunk d) (N.to_nat rem)) (drop (N.to_nat off) (local_file d)) in
        let n := (off + len data)%N in
        (Ok n, mkServer (<[id := take (N.to_nat off) held ++ data ++ drop (N.to_nat n) held]> (uploads d))
                 (next_id d) (chunk d) (local_file d) (published d))
  end.

#[export] Instance server_driver : UploadDriver Server := {|
  drv_create _ _ d :=
    (Ok (next_id d), mkServer (match uploads d !! next_id d with
                               | Some _ => uploads d
                               | None => <[next_id d := []]> (uploads d)
                               end) (next_id d + 1) (chunk d) (local_file d) (published d));
  drv_write id off rem _ d := server_write id off rem d;
  drv_save id req _ d :=
    match uploads d !! id with
    | None => (Err PermFail, d)
    | Some held => (Ok (), mkServer (uploads d) (next_id d) (chunk d) (local_file d)
                             (<[file_name req := held]> (published d)))
    end;
|}.

#[export] Instance server_promises : UploadServer Server := {|
  accepted d id := match uploads d !! id with Some held => len held | None => 0%N end;
  committed d req := exists bytes, published d !! file_name req = Some bytes /\ (total_size req <= len bytes)%N;
|}.

Lemma server_write_spec id off rem d held :
  uploads d !! id = Some held ->
  keeps d (server_write id off rem d).2 /\
  forall new, (server_write id off rem d).1 = Ok new -> (new <= accepted (server_write id off rem d).2 id)%N.
Proof.
  intros Eh. unfold server_write, keeps. rewrite Eh. case_decide as Hoff; [by split; [intros; reflexivity|]|].
  simpl. set (data := take (Nat.min _ _) _).
  assert (len (take (N.to_nat off) held ++ data ++ drop (N.to_nat (off + len data)) held)
    = N.max (off + len data) (len held)) as Hlen.
  { unfold len in *. rewrite !length_app, length_take, length_drop. lia. }
  split.
  - intros i. simpl. destruct (decide (id = i)) as [<-|Hne].
    + rewrite lookup_insert_eq, Eh, Hlen. lia.
    + by rewrite lookup_insert_ne.
  - intros new [= <-]. simpl. rewrite lookup_insert_eq, Hlen. lia.
Qed.

#[export] Instance server_laws : UploadServerLaws Server.
Proof.
  split; simpl.
  - intros req _ d id. simpl. destruct (uploads d !! next_id d) eqn:En; simpl; [done|].
    destruct (decide (next_id d = id)) as [<-|Hne]; [by rewrite En, lookup_insert_eq|by rewrite lookup_insert_ne].
  - intros id off rem _ d. destruct (uploads d !! id) as [held|] eqn:Eh; [by eapply server_write_spec|].
    unfold server_write. by rewrite Eh.
  - intros id req _ d. destruct (uploads d !! id); by intros i.
  - intros id off rem _ d new d' E _. destruct (uploads d !! id) as [held|] eqn:Eh.
    + destruct (server_write_spec id off rem d held Eh) as [_ Hn]. rewrite E in Hn. by apply Hn.
    + unfold server_write in E. by rewrite Eh in E.
  - intros id req _ d d' E Hall. destruct (uploads d !! id) as [held|]; [|done]. injection E as <-.
    exists held. simpl. by rewrite lookup_insert_eq.
Qed.

#[export] Instance no_refresh : SessionRefresher unit := {| refresh r := (Err "no credentials"%string, r) |}.

#[local] Existing Instance powi_by_products.

Definition sample_policy : RetryPolicy := mkPolicy DEFAULT_MAX_ATTEMPTS (Fixed DEFAULT_RETRY_DELAY).
Definition sample_request : UploadRequest := mkRequest "/home/a" 0 "a" 6 Overwrite.
Definition sample_world (file : string) : World Server unit :=
  mkWorld ∅ (mkServer ∅ 1 2 (chars file) ∅) () Idle [].

(** Killed after the second write, before its row is updated; then run to the end. *)
Lemma upload_done_is_complete_witness :
  let w := run_all sample_policy (λ _, 0%Z) [(5, sample_request, "t"%string)] (sample_world "abcdef") in
  let '(o, w') := run sample_policy (λ _, 0%Z) 20 sample_request "t" w in
  (forall path r, table w' !! path = Some r -> (rec_offset r <= accepted (driver w') (rec_upload_id r))%N) /\
  (o = Finished (Ok ()) -> committed (driver w') sample_request /\ table w' !! local_path sample_request = None).
Proof. apply upload_done_is_complete. reflexivity. Defined.

Lemma upload_step_bounded_witness :
  let '(o, rest, w') :=
    run_step sample_policy 9 (λ _ d, (Err TempFail : result N UploadErrorClass, d)) 0 false "t" (sample_world "x") in
  9 - rest <= N.to_nat 5 + 1 /\ (N.to_nat 5 + 1 <= 9 -> o <> Killed) /\
  length (waits w') <= length (waits (sample_world "x")) + N.to_nat (5 - 1).
Proof. apply (upload_step_bounded 5 (Fixed DEFAULT_RETRY_DELAY)). reflexivity. Defined.

(** The server is undisturbed while it holds a beginning of the local file. *)
Definition server_ready (req : UploadRequest) (d : Server) : Prop :=
  0 < chunk d /\ len (local_file d) = total_size req.

Definition server_holds (req : UploadRequest) (d : Server) (id off : N) : Prop :=
  server_ready req d /\ exists held, uploads d !! id = Some held /\ (off <= len held)%N /\
    take (N.to_nat off) held = take (N.to_nat off) (local_file d).

#[export] Program Instance server_undisturbed req auth : UndisturbedDriver Server req auth := {|
  calm d := server_ready req d /\ uploads d !! next_id d = None;
  holds := server_holds req;
  uploaded d := exists bytes, published d !! file_name req = Some bytes /\
    take (N.to_nat (total_size req)) bytes = local_file d;
|}.
Next Obligation.
  intros req auth d [Hr Hn]. eexists _, _. split; [reflexivity|]. split; [done|]. exists []. cbn.
  rewrite Hn, lookup_insert_eq. split_and!; [done|done|]. by rewrite !take_0.
Qed.
Next Obligation.
  intros req auth id off d [[Hc Hl] (held & Hh & Hoff & Ht)] Hlt. cbn. unfold server_write. rewrite Hh.
  rewrite decide_False by lia. set (k := Nat.min (chunk d) (N.to_nat (total_size req - off))).
  assert (0 < k) as Hk by (unfold k; lia).
  assert (length (take k (drop (N.to_nat off) (local_file d))) = k) as Hlk.
  { rewrite length_take, length_drop. unfold len in Hl. unfold k. lia. }
  eexists _, _. split; [reflexivity|]. unfold len at 1 3. rewrite Hlk. split; [lia|]. split; [by split|].
  cbn. eexists. split; [apply lookup_insert_eq|]. unfold len in *.
  rewrite !length_app, length_take, Hlk, length_drop. split; [lia|].
  rewrite N.min_l by (unfold k; lia). replace (N.to_nat (off + N.of_nat k)) with (N.to_nat off + k) by lia.
  rewrite (assoc_L (++)), take_app_le, take_ge by (rewrite length_app, length_take, Hlk; lia).
  rewrite Ht, <- (take_drop (N.to_nat off) (local_file d)) at 1. rewrite take_app_le, take_take by (rewrite length_take; lia).
  rewrite Nat.min_id, <- take_take_drop. done.
Qed.
Next Obligation.
  intros req auth id off d [[Hc Hl] (held & Hh & Hoff & Ht)] Hle. cbn. rewrite Hh. eexists. split; [reflexivity|].
  cbn. exists held. split; [apply lookup_insert_eq|]. apply (f_equal (take (N.to_nat (total_size req)))) in Ht.
  rewrite !take_take, !Nat.min_l in Ht by lia. rewrite Ht. apply take_ge. unfold len in Hl. lia.
Qed.

(** * What the machine does not check *)

(** The table's [prefix_sha1] is always empty and the local file is not compared with what was
    sent: when the file is rewritten with the same size between a killed run and the next one,
    the upload is reported as done and the published file is neither version. *)
Lemma resume_mixes_versions :
  let w := (run sample_policy (λ _, 0%Z) 5 sample_request "t" (sample_world "abcdef")).2 in
  let d := driver w in
  let w1 := set_driver (mkServer (uploads d) (next_id d) (chunk d) (chars "ABCDEF") (published d)) w in
  let '(o, w2) := run sample_policy (λ _, 0%Z) 20 sample_request "t" w1 in
  o = Finished (Ok ()) /\ published (driver w2) !! "a"%string = Some (chars "abCDEF").
Proof. vm_compute. by split. Qed.

(** A driver whose writes succeed without advancing keeps the loop running for ever: the retry
    budget counts failures only. *)
Inductive Stuck : Type := StuckDriver.

#[export] Instance stuck_driver : UploadDriver Stuck := {|
  drv_create _ _ d := (Ok 1%N, d);
  drv_write _ off _ _ d := (Ok off, d);
  drv_save _ _ _ d := (Ok (), d);
|}.

Lemma stuck_upload_never_ends turns fuel req id off auth (w : World Stuck unit) :
  (off < total_size req)%N ->
  (write_loop sample_policy (λ _, 0%Z) turns fuel req id off auth w).1 = Killed \/
  (write_loop sample_policy (λ _, 0%Z) turns fuel req id off auth w).1 = Finished (Err Store).
Proof.
  intros Hlt. revert fuel w; induction turns as [|turns IH]; intros fuel w; cbn [write_loop];
    rewrite decide_True by done; [by left|].
  destruct fuel as [|[|fuel]]; [by left..|].
  rewrite (run_step_ok _ _ _ _ _ _ _ off (driver w)) by done. cbn [and_then store_step].
  destruct (repo_update_offset _ _ _ _ _) as [t|]; cbn [and_then]; [|by right].
  replace (N.min off (total_size req)) with off by lia. apply IH.
Qed.

(** The retry after a refreshed session is counted: with two attempts allowed, an expired
    session followed by one temporary failure gives up without a wait. *)
Definition answers (_ : string) (d : list (result N UploadErrorClass)) : result N UploadErrorClass * list (result N UploadErrorClass) :=
  match d with [] => (Ok 0%N, []) | r :: d' => (r, d') end.

#[export] Instance always_refresh : SessionRefresher bool := {| refresh r := (Ok "fresh"%string, r) |}.

Lemma auth_retry_consumes_an_attempt :
  let p := mkPolicy 2 (Fixed DEFAULT_RETRY_DELAY) : RetryPolicy in
  (run_step p 9 answers 0 false "t" (mkWorld ∅ [Err TempFail; Ok 7%N] true Idle [])).1.1 = Finished (Ok (7%N, "t"%string)) /\
  (run_step p 9 answers 0 false "t" (mkWorld ∅ [Err Auth; Err TempFail; Ok 7%N] true Idle [])).1.1
    = Finished (Err (RetriesExhausted 2)).
Proof. split; reflexivity. Qed.
