(* ===== verification/AuthApi.v ===== *)
(** The authentication calls of the binary API: crates/pcloud-proto/src/auth_api.rs and the
    request builders of crates/pcloud-proto/src/methods/auth.rs.

    The transport is the interface [ProtocolTransport] (a request goes out, a value or an error
    comes back; the consumer of server hints is a change of its state) and SHA-1 the interface
    [Sha1].  A secret string is its bytes. *)
From stdpp Require Import pretty.
From S2P Require Import Prelude Paths Bytes BinaryApi Response StateError.

(** * Interfaces *)

Class Sha1 : Type := sha1 : list byte -> list byte.
Class Sha1Laws `{Sha1} : Prop := length_sha1 m : length (sha1 m) = 20.

(** [T] is the state behind the transport's shared reference, [TE] its error type. *)
Class ProtocolTransport (T TE : Type) : Type := {
  execute : EncodedRequest -> ST T TE Value;
  consume_api_server_hint : list byte -> T -> T;
  display_transport_error : TE -> list byte;
}.

(** [ProtocolMethod]: a command and its parameters; [encode] is the provided method. *)
Class ProtocolMethod (R : Type) : Type := {
  command_name : R -> list byte;
  params : R -> list BinaryParam;
}.

Definition encode {R} `{ProtocolMethod R} (request : R) : result EncodedRequest FrameParseError :=
  encode_request (command_name request) (params request) (Some 0%N).

(** * Request builders *)

Definition string_param (name : string) (value : list byte) : BinaryParam := mkParam (chars name) (PString value).
Definition number_param (name : string) (value : N) : BinaryParam := mkParam (chars name) (PNumber value).
Definition bool_param (name : string) (value : bool) : BinaryParam := mkParam (chars name) (PBool value).

Record AuthRequestContext : Type := mkContext {
  timeformat : list byte;
  os_version : list byte;
  app_version : list byte;
  device_id : list byte;
  device_name : list byte;
  os_id : N;
  get_auth : bool;
  crypto_keys_sign : bool;
  get_api_server : bool;
  get_last_subscription : bool;
}.

Definition hex_digit (n : N) : byte :=
  default "0"%char (chars "0123456789abcdef" !! N.to_nat n).
Definition hex_lower (bytes : list byte) : list byte :=
  bytes ≫= λ b, [hex_digit (N.shiftr (N_of_ascii b) 4); hex_digit (N.land (N_of_ascii b) 15)].

(** The environment variables HOSTNAME and HOST are arguments. *)
Definition legacy_compatible_device_id `{Sha1} (hostname host : option (list byte)) : list byte :=
  let host := default (default (chars "pcloud-rust") host) hostname in
  take 32 (hex_lower (sha1 (host ++ chars ":pcloud-rust-dev"))).

Definition AuthRequestContext_default `{Sha1} (hostname host : option (list byte)) : AuthRequestContext := {|
  timeformat := chars "timestamp";
  os_version := chars "Desktop, Linux";
  app_version := chars "1.5.1";
  device_id := legacy_compatible_device_id hostname host;
  device_name := chars "Desktop, Linux, 1.5.1";
  os_id := 7;
  get_auth := true;
  crypto_keys_sign := true;
  get_api_server := true;
  get_last_subscription := true;
|}.

Definition standard_params (c : AuthRequestContext) : list BinaryParam :=
  [string_param "timeformat" (timeformat c);
   string_param "osversion" (os_version c);
   string_param "appversion" (app_version c);
   string_param "deviceid" (device_id c);
   string_param "device" (device_name c);
   bool_param "getauth" (get_auth c);
   bool_param "cryptokeyssign" (crypto_keys_sign c);
   bool_param "getapiserver" (get_api_server c);
   bool_param "getlastsubscription" (get_last_subscription c);
   number_param "os" (os_id c)].

Record GetDigestRequest : Type := mkGetDigestRequest {}.

#[export] Instance GetDigestRequest_method : ProtocolMethod GetDigestRequest := {|
  command_name _ := chars "getdigest";
  params _ := [string_param "MS" (chars "sucks")];
|}.

Record LoginRequest : Type := mkLoginRequest { lr_username : list byte }.

#[export] Instance LoginRequest_method : ProtocolMethod LoginRequest := {|
  command_name _ := chars "login";
  params r := [string_param "username" (lr_username r)];
|}.

Definition password_params (r : LoginRequest) (password : list byte) : list BinaryParam :=
  [string_param "username" (lr_username r); string_param "password" password].

Record UserInfoRequest : Type := mkUserInfoRequest {
  ui_auth_token : list byte;
  ui_context : AuthRequestContext;
}.

#[export] Instance UserInfoRequest_method : ProtocolMethod UserInfoRequest := {|
  command_name _ := chars "userinfo";
  params r := string_param "auth" (ui_auth_token r) :: standard_params (ui_context r);
|}.

Record TwoFactorLoginRequest : Type := mkTwoFactorLoginRequest {
  tf_token : list byte;
  tf_code : list byte;
  tf_trust_device : bool;
  tf_recovery_code : bool;
  tf_context : AuthRequestContext;
}.

#[export] Instance TwoFactorLoginRequest_method : ProtocolMethod TwoFactorLoginRequest := {|
  command_name r := if tf_recovery_code r then chars "tfa_loginwithrecoverycode" else chars "tfa_login";
  params r :=
    [string_param "token" (tf_token r); string_param "code" (tf_code r);
     bool_param "trustdevice" (tf_trust_device r)] ++ standard_params (tf_context r);
|}.

Record TwoFactorSendSmsRequest : Type := mkTwoFactorSendSmsRequest { sms_token : list byte }.

#[export] Instance TwoFactorSendSmsRequest_method : ProtocolMethod TwoFactorSendSmsRequest := {|
  command_name _ := chars "tfa_sendcodeviasms";
  params r := [string_param "token" (sms_token r)];
|}.

Record TwoFactorSendNotificationRequest : Type := mkTwoFactorSendNotificationRequest { notify_token : list byte }.

#[export] Instance TwoFactorSendNotificationRequest_method : ProtocolMethod TwoFactorSendNotificationRequest := {|
  command_name _ := chars "tfa_sendcodeviasysnotification";
  params r := [string_param "token" (notify_token r)];
|}.

Record LoginDigestRequest : Type := mkLoginDigestRequest {
  ld_username : list byte;
  ld_digest_token : list byte;
  ld_password_digest : list byte;
  ld_code : option (list byte);
  ld_context : AuthRequestContext;
}.

#[export] Instance LoginDigestRequest_method : ProtocolMethod LoginDigestRequest := {|
  command_name _ := chars "login";
  params r :=
    [string_param "username" (ld_username r); string_param "digest" (ld_digest_token r);
     string_param "passworddigest" (ld_password_digest r)] ++
    match ld_code r with Some code => [string_param "code" code] | None => [] end ++
    standard_params (ld_context r);
|}.

(** * Outcomes and errors *)

Inductive AuthApiError (TE : Type) : Type :=
| Encode (e : FrameParseError)
| Transport (e : TE)
| Malformed (what : string).
Arguments Encode {TE} e.
Arguments Transport {TE} e.
Arguments Malformed {TE} what.

Record DigestChallenge : Type := mkDigestChallenge { digest : list byte }.
Record ApiServerHint : Type := mkApiServerHint { binapi : list byte }.

Inductive PasswordLoginOutcome : Type :=
| OutcomeAuthenticated (auth_token : list byte) (user_id : option N) (api_server : option ApiServerHint)
| OutcomeTwoFactorRequired (challenge_token : list byte) (trust_device : bool) (api_server : option ApiServerHint)
| OutcomeFailed (result : N) (message : option (list byte)) (api_server : option ApiServerHint).

Record UserInfo : Type := mkUserInfo {
  user_id : option N;
  user_email : option (list byte);
  user_api_server : option ApiServerHint;
  quota : option N;
  used_quota : option N;
  premium : option bool;
  premium_expires : option N;
  email_verified : option bool;
  plan : option N;
}.

Record TwoFactorSmsDelivery : Type := mkTwoFactorSmsDelivery {
  country_code : option (list byte);
  phone_number : option (list byte);
}.

Record LoggedDevice : Type := mkLoggedDevice {
  logged_name : option (list byte);
  device_type : option N;
}.

Record TwoFactorNotificationDelivery : Type := mkTwoFactorNotificationDelivery { devices : list LoggedDevice }.

Inductive AuthRefreshError (TE : Type) : Type :=
| RefreshAuthExpired (result : N)
| RefreshTemporaryFailure (e : AuthApiError TE)
| RefreshMissingAuthField.
Arguments RefreshAuthExpired {TE} result.
Arguments RefreshTemporaryFailure {TE} e.
Arguments RefreshMissingAuthField {TE}.

(** [Display] of the errors. *)
Definition display_frame_error (e : FrameParseError) : list byte :=
  match e with
  | CommandTooLong => chars "command name is too long for on-wire encoding"
  | ParamNameTooLong name =>
      chars "parameter name '" ++ name ++ chars "' is too long for on-wire encoding"
  | RequestTooLarge => chars "request frame exceeds protocol limit"
  | TruncatedResponseHeader => chars "response frame header is truncated"
  | ResponseTooLarge claimed =>
      chars ("response frame length " +:+ pretty claimed +:+ " exceeds parser limit")
  end.

Definition display_api_error {T TE} `{ProtocolTransport T TE} (e : AuthApiError TE) : list byte :=
  match e with
  | Encode e => chars "request encoding failed: " ++ display_frame_error e
  | Transport e => chars "transport failed: " ++ display_transport_error e
  | Malformed what => chars ("response was malformed: " +:+ what)
  end.

(** * Reading the responses *)

Definition AUTH_EXPIRED_RESULTS : list N := [1000; 2000; 2094; 2297]%N.
Definition is_auth_expired_result (result : N) : bool := bool_decide (result ∈ AUTH_EXPIRED_RESULTS).

(** A [HashView]. *)
Abbreviation view := (list (list byte * Value)).

Definition result_of (hash : view) : N := default 0%N (get_number hash (chars "result")).

Definition extract_api_server_hint (hash : view) : option ApiServerHint :=
  let direct := get_string hash (chars "binapi") in
  let nested :=
    apiserver ← get_hash hash (chars "apiserver");
    match (entries ← get_array apiserver (chars "binapi"); first ← head entries; as_string first) with
    | Some binapi => Some binapi
    | None => get_string apiserver (chars "binapi")
    end in
  mkApiServerHint <$> match direct with Some binapi => Some binapi | None => nested end.

Definition parse_login_outcome {TE} (response : Value) : result PasswordLoginOutcome (AuthApiError TE) :=
  let? hash := ok_or (as_hash response) (Malformed "login response was not a hash") in
  let result := result_of hash in
  if decide (result = 0%N) then
    let? auth_token := ok_or (get_string hash (chars "auth")) (Malformed "missing auth token on successful login") in
    Ok (OutcomeAuthenticated auth_token (get_number hash (chars "userid")) (extract_api_server_hint hash))
  else
    let trust_device := default false (get_bool hash (chars "trustdevice")) in
    match (match get_string hash (chars "token") with
           | Some token => Some token
           | None => get_string hash (chars "tfa_token")
           end) with
    | Some challenge_token =>
        Ok (OutcomeTwoFactorRequired challenge_token trust_device (extract_api_server_hint hash))
    | None =>
        if decide (result = 2297%N)
        then Ok (OutcomeTwoFactorRequired [] trust_device (extract_api_server_hint hash))
        else Ok (OutcomeFailed result (get_string hash (chars "error")) (extract_api_server_hint hash))
    end.

Definition parse_two_factor_sms_delivery {TE} (response : Value)
    : result TwoFactorSmsDelivery (AuthApiError TE) :=
  let? hash := ok_or (as_hash response) (Malformed "tfa sms response was not a hash") in
  if decide (result_of hash <> 0%N) then Err (Malformed "tfa sms result was non-zero")
  else
    let phone := get_hash hash (chars "phonedata") in
    Ok (mkTwoFactorSmsDelivery
          (p ← phone; get_string p (chars "countrycode"))
          (p ← phone; get_string p (chars "msisdn"))).

Definition parse_two_factor_notification_delivery {TE} (response : Value)
    : result TwoFactorNotificationDelivery (AuthApiError TE) :=
  let? hash := ok_or (as_hash response) (Malformed "tfa notification response was not a hash") in
  if decide (result_of hash <> 0%N) then Err (Malformed "tfa notification result was non-zero")
  else
    Ok (mkTwoFactorNotificationDelivery
          (match get_array hash (chars "devices") with
           | Some entries =>
               (λ device, mkLoggedDevice (get_string device (chars "name")) (get_number device (chars "type")))
                 <$> omap as_hash entries
           | None => []
           end)).

Definition login_outcome_api_server_hint (outcome : PasswordLoginOutcome) : option ApiServerHint :=
  match outcome with
  | OutcomeAuthenticated _ _ api_server
  | OutcomeTwoFactorRequired _ _ api_server
  | OutcomeFailed _ _ api_server => api_server
  end.

Definition to_ascii_lowercase (c : byte) : byte :=
  let n := N_of_ascii c in if ((65 <=? n) && (n <=? 90))%N then ascii_of_N (n + 32) else c.

Definition compute_password_digest `{Sha1} (username password server_digest : list byte) : list byte :=
  let lower_user := to_ascii_lowercase <$> username in
  let user_hex := hex_lower (sha1 lower_user) in
  hex_lower (sha1 (password ++ user_hex ++ server_digest)).

(** * The calls

    [AuthApi] is its transport (the state) and its request context (fixed). *)
Section Api.
Context {T TE : Type} `{!ProtocolTransport T TE} `{!Sha1} (context : AuthRequestContext).

Abbreviation API := (ST T (AuthApiError TE)).

(** [request.encode()?] and [transport.execute(&encoded).map_err(AuthApiError::Transport)?]. *)
Definition call {R} `{!ProtocolMethod R} (request : R) : API Value :=
  let! encoded := lift (match encode request with Ok e => Ok e | Err e => Err (Encode e) end) in
  map_err Transport (execute encoded).

Definition apply_api_server_hint (api_server : option ApiServerHint) : API unit :=
  match api_server with
  | Some hint => modify (consume_api_server_hint (binapi hint))
  | None => ok tt
  end.

Definition refresh_auth_token (current : list byte) : ST T (AuthRefreshError TE) (list byte) :=
  let context := mkContext (timeformat context) (os_version context) (app_version context)
    (device_id context) (device_name context) (os_id context) true (crypto_keys_sign context)
    (get_api_server context) (get_last_subscription context) in
  let! response := map_err RefreshTemporaryFailure (call (mkUserInfoRequest current context)) in
  let! hash := lift (ok_or (as_hash response)
    (RefreshTemporaryFailure (Malformed "refresh response was not a hash"))) in
  let result := result_of hash in
  if decide (result <> 0%N) then
    if is_auth_expired_result result then throw (RefreshAuthExpired result)
    else throw (RefreshTemporaryFailure (Malformed "refresh returned non-zero result"))
  else
    do! map_err RefreshTemporaryFailure (apply_api_server_hint (extract_api_server_hint hash)) in
    let! new_token := lift (ok_or (get_string hash (chars "auth")) RefreshMissingAuthField) in
    if decide (new_token = []) then throw RefreshMissingAuthField else ok new_token.

Definition get_digest : API DigestChallenge :=
  let! response := call mkGetDigestRequest in
  let! hash := lift (ok_or (as_hash response) (Malformed "getdigest response was not a hash")) in
  if decide (result_of hash <> 0%N) then throw (Malformed "getdigest result was non-zero")
  else
    let! digest := lift (ok_or (get_string hash (chars "digest")) (Malformed "getdigest response was missing digest")) in
    ok (mkDigestChallenge digest).

Definition login_password_with_code (username password : list byte) (code : option (list byte))
    : API PasswordLoginOutcome :=
  let! challenge := get_digest in
  let! response := call {|
    ld_username := username;
    ld_digest_token := digest challenge;
    ld_password_digest := compute_password_digest username password (digest challenge);
    ld_code := code;
    ld_context := context |} in
  let! outcome := lift (parse_login_outcome response) in
  do! apply_api_server_hint (login_outcome_api_server_hint outcome) in
  ok outcome.

Definition login_password (username password : list byte) : API PasswordLoginOutcome :=
  login_password_with_code username password None.

Definition submit_two_factor_code (token code : list byte) (trust_device recovery_code : bool)
    : API PasswordLoginOutcome :=
  let! response := call (mkTwoFactorLoginRequest token code trust_device recovery_code context) in
  let! outcome := lift (parse_login_outcome response) in
  do! apply_api_server_hint (login_outcome_api_server_hint outcome) in
  ok outcome.

Definition userinfo (auth_token : list byte) : API UserInfo :=
  let! response := call (mkUserInfoRequest auth_token context) in
  let! hash := lift (ok_or (as_hash response) (Malformed "userinfo response was not a hash")) in
  let info := {|
    user_id := get_number hash (chars "userid");
    user_email := get_string hash (chars "email");
    user_api_server := extract_api_server_hint hash;
    quota := get_number hash (chars "quota");
    used_quota := get_number hash (chars "usedquota");
    premium := get_bool hash (chars "premium");
    premium_expires := get_number hash (chars "premiumexpires");
    email_verified := get_bool hash (chars "emailverified");
    plan := get_number hash (chars "plan") |} in
  do! apply_api_server_hint (user_api_server info) in
  ok info.

Definition send_two_factor_sms (token : list byte) : API TwoFactorSmsDelivery :=
  let! response := call (mkTwoFactorSendSmsRequest token) in
  lift (parse_two_factor_sms_delivery response).

Definition send_two_factor_notification (token : list byte) : API TwoFactorNotificationDelivery :=
  let! response := call (mkTwoFactorSendNotificationRequest token) in
  lift (parse_two_factor_notification_delivery response).
End Api.

(** * The requests on the wire *)

(** A request of the session within the machine integers: its context's [os_id] is a [u64]. *)
Class AuthMethod (R : Type) `{ProtocolMethod R} : Type := {
  os_ids : R -> list N;
  numbers_are_os_ids r :
    Forall (λ n, (n <= U64_MAX)%N) (os_ids r) ->
    Forall (λ p, match param_value p with PNumber n => (n <= U64_MAX)%N | _ => True end) (params r);
  few_params r : (len (params r) <= 255)%N;
  short_command r : (len (command_name r) <= 127)%N;
}.

(** One parameter at a time; the only number is the context's. *)
Ltac auth_numbers :=
  intros ? Hn; repeat (apply Forall_cons; split; [exact I || exact (List.Forall_inv Hn)|]); apply Forall_nil_2.

#[export] Instance GetDigestRequest_auth : AuthMethod GetDigestRequest.
Proof. refine {| os_ids _ := [] |}; [auth_numbers|by intros|by intros]. Defined.

#[export] Instance UserInfoRequest_auth : AuthMethod UserInfoRequest.
Proof. refine {| os_ids r := [os_id (ui_context r)] |}; [auth_numbers|by intros|by intros]. Defined.

#[export] Instance TwoFactorLoginRequest_auth : AuthMethod TwoFactorLoginRequest.
Proof.
  refine {| os_ids r := [os_id (tf_context r)] |}; [auth_numbers|by intros|].
  intros r. cbn. by destruct (tf_recovery_code r).
Defined.

#[export] Instance TwoFactorSendSmsRequest_auth : AuthMethod TwoFactorSendSmsRequest.
Proof. refine {| os_ids _ := [] |}; [auth_numbers|by intros|by intros]. Defined.

#[export] Instance TwoFactorSendNotificationRequest_auth : AuthMethod TwoFactorSendNotificationRequest.
Proof. refine {| os_ids _ := [] |}; [auth_numbers|by intros|by intros]. Defined.

#[export] Instance LoginDigestRequest_auth : AuthMethod LoginDigestRequest.
Proof.
  refine {| os_ids r := [os_id (ld_context r)] |}; [|intros r; cbn; by destruct (ld_code r)|by intros].
  intros [username digest_token password [code|] c]; revert username; auth_numbers.
Defined.

(** Every request of the session that fits a frame is read back from the wire as its command and
    its parameters, with an empty body, whatever bytes follow. *)
Theorem auth_request_decodes {R} `{AuthMethod R} (request : R) encoded rest
  (Hos : Forall (λ n, (n <= U64_MAX)%N) (os_ids request))
  (Hfits : encode request = Ok encoded) :
  decode_request (req_bytes encoded ++ rest) =
  Some (command_name request, params request, Some 0%N, rest).
Proof.
  apply encoded_request_decodes; [|exact Hfits]. split; [apply short_command|]. split; [apply few_params|].
  split; [by apply numbers_are_os_ids|by vm_compute].
Qed.

Definition sample_login : LoginDigestRequest :=
  mkLoginDigestRequest (chars "alice@example.com") (chars "digest") (chars "0a1b") (Some (chars "123456"))
    (mkContext (chars "timestamp") (chars "Linux") (chars "1.5.1") (chars "id") (chars "dev") 7 true true true true).

Lemma auth_request_decodes_witness :
  match encode sample_login with
  | Ok encoded =>
      decode_request (req_bytes encoded ++ chars "next") =
      Some (chars "login", params sample_login, Some 0%N, chars "next")
  | Err _ => False
  end.
Proof.
  destruct (encode sample_login) as [encoded|e] eqn:E; [|vm_compute in E; discriminate].
  assert (Forall (λ n, (n <= U64_MAX)%N) (os_ids sample_login)) as Hos.
  { apply Forall_cons; split; [vm_compute; discriminate|apply Forall_nil_2]. }
  exact (auth_request_decodes sample_login encoded (chars "next") Hos E).
Defined.

(** * Digests *)

Lemma length_hex_lower bytes : length (hex_lower bytes) = 2 * length bytes.
Proof. induction bytes as [|b bytes IH]; [done|]. unfold hex_lower in *. rewrite bind_cons, length_app, IH. cbn. lia. Qed.

(** The slice [hex\[..32\]] is within the forty digits. *)
Lemma device_id_length `{Sha1Laws} hostname host : length (legacy_compatible_device_id hostname host) = 32.
Proof.
  unfold legacy_compatible_device_id. rewrite length_take, length_hex_lower, length_sha1. lia.
Qed.

Lemma password_digest_length `{Sha1Laws} username password challenge :
  length (compute_password_digest username password challenge) = 40.
Proof. unfold compute_password_digest. rewrite length_hex_lower, length_sha1. done. Qed.

Lemma to_ascii_lowercase_idem c : to_ascii_lowercase (to_ascii_lowercase c) = to_ascii_lowercase c.
Proof. destruct c as [[] [] [] [] [] [] [] []]; vm_compute; reflexivity. Qed.

(** The case of the user name does not matter to the digest. *)
Lemma password_digest_ignores_case `{Sha1} username password challenge :
  compute_password_digest (to_ascii_lowercase <$> username) password challenge =
  compute_password_digest username password challenge.
Proof.
  unfold compute_password_digest. rewrite <- list_fmap_compose.
  erewrite list_fmap_ext; [reflexivity|]. intros i c _. apply to_ascii_lowercase_idem.
Qed.
