(* ===== verification/ChunkedDriver.v ===== *)
(** The network driver of resumable uploads: ChunkedUploadDriver and upload_bytes_chunked of
    crates/pcloud-backends/src/transfer_backend.rs, with the requests of
    crates/pcloud-proto/src/methods/upload.rs.

    [BinaryApiTransport] sends a frame with the bytes of a body and returns the parsed answer;
    [UploadService] is what the upload calls of the service promise while it is undisturbed.  The
    bandwidth pacer only sleeps and is left out, and so is the byte observer; the calls of the
    progress closure are a list. *)
From S2P Require Import Prelude Paths Bytes BinaryApi Response StateError Retry UploadState AuthApi.

(** * Requests *)

Definition PSYNC_COPY_BUFFER_SIZE : N := 256 * 1024.
Definition PSYNC_CHECKSUM_FIELD : list byte := chars "sha1".
Definition PSYNC_HASH_DIGEST_HEXLEN : N := 40.

Definition upload_sha1_hex `{Sha1} (bytes : list byte) : list byte := hex_lower (sha1 bytes).

Inductive ConflictParam : Type :=
| IfHash (hash : N)
| New.

Definition ConflictParam_to_binary (c : ConflictParam) : BinaryParam :=
  match c with
  | IfHash h => number_param "ifhash" h
  | New => string_param "ifhash" (chars "new")
  end.

(** An optional parameter of a request. *)
Definition optional {A} (f : A -> BinaryParam) (o : option A) : list BinaryParam :=
  match o with Some a => [f a] | None => [] end.

Record UploadCreateRequest : Type := mkUploadCreate {
  uc_auth_token : list byte;
  uc_parent_folder_id : N;
  uc_file_name : list byte;
  uc_file_size : N;
  uc_idempotency_key : option (list byte);
}.

#[export] Instance UploadCreateRequest_method : ProtocolMethod UploadCreateRequest := {|
  command_name _ := chars "upload_create";
  params r :=
    [string_param "auth" (uc_auth_token r); number_param "folderid" (uc_parent_folder_id r);
     string_param "name" (uc_file_name r); number_param "filesize" (uc_file_size r)]
    ++ optional (string_param "idempotencykey") (uc_idempotency_key r);
|}.

Record UploadWriteRequest : Type := mkUploadWrite {
  uw_auth_token : list byte;
  uw_upload_id : N;
  uw_upload_offset : N;
  uw_chunk_id : N;
  uw_idempotency_key : option (list byte);
}.

#[export] Instance UploadWriteRequest_method : ProtocolMethod UploadWriteRequest := {|
  command_name _ := chars "upload_write";
  params r :=
    [string_param "auth" (uw_auth_token r); number_param "uploadoffset" (uw_upload_offset r);
     number_param "id" (uw_chunk_id r); number_param "uploadid" (uw_upload_id r)]
    ++ optional (string_param "idempotencykey") (uw_idempotency_key r);
|}.

Definition encode_with_body {R} `{ProtocolMethod R} (request : R) (body_len : N)
    : result EncodedRequest FrameParseError :=
  encode_request (command_name request) (params request) (Some body_len).

Record UploadInfoRequest : Type := mkUploadInfo {
  ui_upload_auth : list byte;
  ui_upload_id : N;
  ui_chunk_id : N;
}.

#[export] Instance UploadInfoRequest_method : ProtocolMethod UploadInfoRequest := {|
  command_name _ := chars "upload_info";
  params r :=
    [string_param "auth" (ui_upload_auth r); number_param "uploadid" (ui_upload_id r);
     number_param "id" (ui_chunk_id r)];
|}.

Record UploadSaveRequest : Type := mkUploadSave {
  us_auth_token : list byte;
  us_parent_folder_id : N;
  us_file_name : list byte;
  us_upload_id : N;
  us_modified_at_unix : N;
  us_ctime : option N;
  us_conflict : option ConflictParam;
  us_idempotency_key : option (list byte);
}.

#[export] Instance UploadSaveRequest_method : ProtocolMethod UploadSaveRequest := {|
  command_name _ := chars "upload_save";
  params r :=
    [string_param "auth" (us_auth_token r); number_param "folderid" (us_parent_folder_id r);
     string_param "name" (us_file_name r); number_param "uploadid" (us_upload_id r);
     string_param "timeformat" (chars "timestamp")]
    ++ optional (number_param "ctime") (us_ctime r)
    ++ [number_param "mtime" (us_modified_at_unix r)]
    ++ optional ConflictParam_to_binary (us_conflict r)
    ++ optional (string_param "idempotencykey") (us_idempotency_key r);
|}.

Record UploadDeleteRequest : Type := mkUploadDelete {
  ud_auth_token : list byte;
  ud_upload_id : N;
}.

#[export] Instance UploadDeleteRequest_method : ProtocolMethod UploadDeleteRequest := {|
  command_name _ := chars "upload_delete";
  params r := [string_param "auth" (ud_auth_token r); number_param "uploadid" (ud_upload_id r)];
|}.

(** [UploadErrorClass::classify]. *)
Definition classify (result : N) : option UploadErrorClass :=
  if decide (result = 0)%N then None
  else if decide (result = 2000)%N then Some Auth
  else if decide (result ∈ [2003; 2005; 2007; 2009; 2029; 2067; 5002]%N) then Some PermFail
  else Some TempFail.

(** * The transport *)

(** [T] is the connection with the service behind it, [TE] the transport's error. *)
Class BinaryApiTransport (T TE : Type) : Type :=
  execute_with_body : EncodedRequest -> list byte -> ST T TE Value.

Definition api_execute {T TE} `{BinaryApiTransport T TE} (request : EncodedRequest) : ST T TE Value :=
  execute_with_body request [].

(** * The driver *)

Inductive ChunkedConflictMode : Type :=
| ChunkedIfHash (hash : N)
| ChunkedCreateIfNew.

Definition into_state (c : ChunkedConflictMode) : ConflictMode :=
  match c with
  | ChunkedIfHash h => IfHashMatches h
  | ChunkedCreateIfNew => CreateIfNew
  end.

Definition to_param (c : ChunkedConflictMode) : ConflictParam :=
  match c with
  | ChunkedIfHash h => IfHash h
  | ChunkedCreateIfNew => New
  end.

Record ChunkedUploadRequest : Type := mkChunkedRequest {
  cr_local_path : string;
  cr_parent_folder_id : N;
  cr_file_name : string;
  cr_total_size : N;
  cr_modified_at_unix : N;
  cr_ctime : option N;
  cr_conflict : ChunkedConflictMode;
}.

Record ChunkedUploadDriver (T : Type) : Type := mkDriver {
  cd_transport : T;
  cd_payload : list byte;
  cd_local_sha1 : list byte;
  cd_req : ChunkedUploadRequest;
  cd_progress : list N;
  cd_upload_id_cell : option N;
  cd_auth_cache : string;
  cd_idempotency_key : list byte;
}.
Arguments mkDriver {T}.
Arguments cd_transport {T}.
Arguments cd_payload {T}.
Arguments cd_local_sha1 {T}.
Arguments cd_req {T}.
Arguments cd_progress {T}.
Arguments cd_upload_id_cell {T}.
Arguments cd_auth_cache {T}.
Arguments cd_idempotency_key {T}.

Definition driver_new {T} (transport : T) (payload local_sha1 : list byte) (req : ChunkedUploadRequest)
    (key : list byte) : ChunkedUploadDriver T :=
  mkDriver transport payload local_sha1 req [] None "" key.

Section Driver.
Context {T TE : Type} `{!BinaryApiTransport T TE}.

Abbreviation Driver := (ChunkedUploadDriver T).
Abbreviation CD := (ST Driver UploadErrorClass).

Definition set_transport (t : T) (d : Driver) : Driver :=
  mkDriver t (cd_payload d) (cd_local_sha1 d) (cd_req d) (cd_progress d) (cd_upload_id_cell d)
    (cd_auth_cache d) (cd_idempotency_key d).
Definition set_auth_cache (auth : string) (d : Driver) : Driver :=
  mkDriver (cd_transport d) (cd_payload d) (cd_local_sha1 d) (cd_req d) (cd_progress d) (cd_upload_id_cell d)
    auth (cd_idempotency_key d).
Definition set_upload_id (id : N) (d : Driver) : Driver :=
  mkDriver (cd_transport d) (cd_payload d) (cd_local_sha1 d) (cd_req d) (cd_progress d) (Some id)
    (cd_auth_cache d) (cd_idempotency_key d).
Definition report_progress (offset : N) (d : Driver) : Driver :=
  mkDriver (cd_transport d) (cd_payload d) (cd_local_sha1 d) (cd_req d) (cd_progress d ++ [offset])
    (cd_upload_id_cell d) (cd_auth_cache d) (cd_idempotency_key d).

Definition classify_result (hash : option (list (list byte * Value))) : result unit UploadErrorClass :=
  let? hash := ok_or hash TempFail in
  match get_number hash (chars "result") with
  | Some 0%N | None => Ok ()
  | Some code => Err (default TempFail (classify code))
  end.

(** A request on the wire: an error of the encoder or of the transport is temporary. *)
Definition send (encoded : result EncodedRequest FrameParseError) (body : list byte) : CD Value :=
  let! e := lift (match encoded with Ok e => Ok e | Err _ => Err TempFail end) in
  map_err (λ _, TempFail) (zoom cd_transport set_transport (execute_with_body e body)).

Definition chunked_create (auth : string) : CD N :=
  do! modify (set_auth_cache auth) in
  let! d := gets id in
  let req := cd_req d in
  let! response := send (encode (mkUploadCreate (chars auth) (cr_parent_folder_id req) (chars (cr_file_name req))
    (cr_total_size req) (Some (cd_idempotency_key d)))) [] in
  let! hash := lift (ok_or (as_hash response) TempFail) in
  do! lift (classify_result (Some hash)) in
  let! upload_id := lift (ok_or (get_number hash (chars "uploadid")) TempFail) in
  do! modify (set_upload_id upload_id) in
  ok upload_id.

Definition chunked_write (upload_id offset remaining : N) (auth : string) : CD N :=
  do! modify (set_auth_cache auth) in
  let! d := gets id in
  let chunk_len := N.min remaining PSYNC_COPY_BUFFER_SIZE in
  if decide (len (cd_payload d) < offset + chunk_len)%N then throw PermFail
  else
    let slice := take (N.to_nat chunk_len) (drop (N.to_nat offset) (cd_payload d)) in
    let! response := send (encode_with_body (mkUploadWrite (chars auth) upload_id offset
      (offset / PSYNC_COPY_BUFFER_SIZE) (Some (cd_idempotency_key d))) chunk_len) slice in
    do! lift (classify_result (as_hash response)) in
    do! modify (report_progress (offset + chunk_len)) in
    ok (offset + chunk_len)%N.

Definition chunked_save (upload_id : N) (auth : string) : CD unit :=
  do! modify (set_auth_cache auth) in
  let! info := send (encode (mkUploadInfo (chars auth) upload_id 0)) [] in
  let! hash := lift (ok_or (as_hash info) TempFail) in
  do! lift (classify_result (Some hash)) in
  let! reported_size := lift (ok_or (get_number hash (chars "size")) TempFail) in
  let! reported_sha1 := lift (ok_or (get_string hash PSYNC_CHECKSUM_FIELD) TempFail) in
  let! d := gets id in
  let req := cd_req d in
  if decide (reported_size <> cr_total_size req \/ len reported_sha1 <> PSYNC_HASH_DIGEST_HEXLEN \/
             reported_sha1 <> cd_local_sha1 d)
  then throw PermFail
  else
    let! response := send (encode (mkUploadSave (chars auth) (cr_parent_folder_id req) (chars (cr_file_name req))
      upload_id (cr_modified_at_unix req) (cr_ctime req) (Some (to_param (cr_conflict req)))
      (Some (cd_idempotency_key d)))) [] in
    lift (classify_result (as_hash response)).

#[export] Instance chunked_driver : UploadDriver Driver := {|
  drv_create _ auth := chunked_create auth;
  drv_write := chunked_write;
  drv_save upload_id _ auth := chunked_save upload_id auth;
|}.
End Driver.

(** * upload_bytes_chunked *)

Record ChunkedUploadResult : Type := mkChunkedResult {
  res_upload_id : N;
  res_bytes_uploaded : N;
  res_sha1_hex : list byte;
}.

Inductive ChunkedUploadError : Type :=
| NoNetworkTransport
| PayloadSizeMismatch (declared actual : N)
| StateFailed (e : UploadStateError).

Section Upload.
Context {T TE R : Type} `{!BinaryApiTransport T TE, !SessionRefresher R, !Sha1, !Powi}.
Context (policy : RetryPolicy) (now : nat -> Z).

Definition state_request (req : ChunkedUploadRequest) : UploadRequest :=
  mkRequest (cr_local_path req) (cr_parent_folder_id req) (cr_file_name req) (cr_total_size req)
    (into_state (cr_conflict req)).

(** The best-effort [upload_delete]: whatever it returns is ignored. *)
Definition delete_orphan (auth : string) (id : N) (t : T) : T :=
  match encode (mkUploadDelete (chars auth) id) with
  | Ok e => (api_execute e t).2
  | Err _ => t
  end.

Definition with_driver {D D'} (d : D') (w : World D R) : World D' R :=
  mkWorld (table w) d (refresher w) (state w) (waits w).

(** The transport is [None] in development mode; [key] is the random idempotency key. *)
Definition upload_bytes_chunked (fuel : nat) (auth : string) (req : ChunkedUploadRequest)
    (payload key : list byte) (w : World (option T) R)
    : outcome (result ChunkedUploadResult ChunkedUploadError) * World (option T) R :=
  match driver w with
  | None => (Finished (Err NoNetworkTransport), w)
  | Some transport =>
      if decide (len payload <> cr_total_size req)
      then (Finished (Err (PayloadSizeMismatch (cr_total_size req) (len payload))), w)
      else
        let local_sha1 := upload_sha1_hex payload in
        let d := driver_new transport payload local_sha1 req key in
        let '(o, w') := run policy now fuel (state_request req) auth (with_driver d w) in
        let d' := driver w' in
        match o with
        | Killed => (Killed, with_driver (Some (cd_transport d')) w')
        | Finished (Ok _) =>
            (Finished (Ok (mkChunkedResult (default 0%N (cd_upload_id_cell d')) (cr_total_size req) local_sha1)),
             with_driver (Some (cd_transport d')) w')
        | Finished (Err err) =>
            let t := match err, cd_upload_id_cell d' with
                     | Permanent _, Some uid => delete_orphan (cd_auth_cache d') uid (cd_transport d')
                     | _, _ => cd_transport d'
                     end in
            (Finished (Err (StateFailed err)), with_driver (Some t) w')
        end
  end.
End Upload.

(** * What the service promises *)

(** [bytes] put at [off] into [d]. *)
Definition overwrite (off : N) (bytes d : list byte) : list byte :=
  take (N.to_nat off) d ++ bytes ++ drop (N.to_nat off + length bytes) d.

Lemma len_overwrite off bytes d :
  (off <= len d)%N -> len (overwrite off bytes d) = N.max (len d) (off + len bytes).
Proof. intros Ho. unfold overwrite, len in *. rewrite !length_app, length_take, length_drop. lia. Qed.

Lemma take_overwrite off bytes d :
  (off <= len d)%N -> take (N.to_nat (off + len bytes)) (overwrite off bytes d) = take (N.to_nat off) d ++ bytes.
Proof.
  intros Ho. unfold overwrite, len in *. rewrite (assoc_L (++)), take_app_le, take_ge; [done|..];
    rewrite length_app, length_take; lia.
Qed.

Definition answers_ok (h : list (list byte * Value)) : Prop :=
  get_number h (chars "result") = None \/ get_number h (chars "result") = Some 0%N.

(** The upload calls of the service while it is undisturbed ([sv_steady]).  [sv_sessions] are the
    bytes of each live upload, [sv_files] the files by folder and name.  A write within or at the
    end of an upload stores its body at its offset; [upload_info] reports size and digest; a save
    publishes the upload when the conflict parameter admits the file. *)
Class UploadService (T TE : Type) `{BinaryApiTransport T TE, Sha1} : Type := {
  sv_sessions : T -> gmap N (list byte);
  sv_files : T -> gmap (N * list byte) (list byte);
  sv_steady : T -> Prop;
  sv_admits : gmap (N * list byte) (list byte) -> N -> list byte -> option ConflictParam -> Prop;
  sv_create r e t :
    sv_steady t -> request_ok (command_name r) (params r) (Some 0%N) -> encode (r : UploadCreateRequest) = Ok e ->
    exists h id t', api_execute e t = (Ok (VHash h), t') /\ answers_ok h /\
      get_number h (chars "uploadid") = Some id /\ (id <= U64_MAX)%N /\
      sv_sessions t' !! id = Some [] /\ sv_files t' = sv_files t /\ sv_steady t';
  sv_write r slice e t d :
    sv_steady t -> request_ok (command_name r) (params r) (Some (len slice)) ->
    encode_with_body (r : UploadWriteRequest) (len slice) = Ok e ->
    sv_sessions t !! uw_upload_id r = Some d -> (uw_upload_offset r <= len d)%N ->
    exists h t', execute_with_body e slice t = (Ok (VHash h), t') /\ answers_ok h /\
      sv_sessions t' !! uw_upload_id r = Some (overwrite (uw_upload_offset r) slice d) /\
      sv_files t' = sv_files t /\ sv_steady t';
  sv_info r e t d :
    sv_steady t -> request_ok (command_name r) (params r) (Some 0%N) -> encode (r : UploadInfoRequest) = Ok e ->
    sv_sessions t !! ui_upload_id r = Some d ->
    exists h t', api_execute e t = (Ok (VHash h), t') /\ answers_ok h /\
      get_number h (chars "size") = Some (len d) /\ get_string h PSYNC_CHECKSUM_FIELD = Some (upload_sha1_hex d) /\
      sv_sessions t' !! ui_upload_id r = Some d /\ sv_files t' = sv_files t /\ sv_steady t';
  sv_save r e t d :
    sv_steady t -> request_ok (command_name r) (params r) (Some 0%N) -> encode (r : UploadSaveRequest) = Ok e ->
    sv_sessions t !! us_upload_id r = Some d ->
    sv_admits (sv_files t) (us_parent_folder_id r) (us_file_name r) (us_conflict r) ->
    exists h t', api_execute e t = (Ok (VHash h), t') /\ answers_ok h /\
      sv_files t' = <[(us_parent_folder_id r, us_file_name r) := d]> (sv_files t);
}.

(** * Requests that fit a frame *)

Lemma encode_fits command ps raw :
  (len command <= 127)%N -> Forall (λ p, (len (param_name p) <= 63)%N) ps ->
  (len command + 4 + body_size raw + params_size ps <= 65535)%N ->
  exists e, encode_request command ps raw = Ok e.
Proof.
  intros Hc Hn Hs. pose proof (encode_request_spec command ps raw) as H.
  destruct (encode_request command ps raw) as [e|err]; [by eexists|]. exfalso. destruct err; try done; [lia| |].
  - destruct H as (l1 & p & l2 & -> & -> & Hlong & _). apply Forall_app in Hn as [_ [Hp _]%Forall_cons].
    unfold MAX_PARAM_NAME_LEN in Hlong. lia.
  - unfold MAX_REQUEST_FRAME_LEN, U16_MAX in H. lia.
Qed.

Section Undisturbed.
Context {T TE : Type} `{!BinaryApiTransport T TE, !Sha1, !Sha1Laws, !UploadService T TE}.
Context (auth : string) (req : ChunkedUploadRequest) (payload key : list byte).
Context (files : gmap (N * list byte) (list byte)).

Abbreviation Driver := (ChunkedUploadDriver T).

Definition option_le (o : option N) : Prop := match o with Some n => (n <= U64_MAX)%N | None => True end.

(** The request is of machine integers and its strings fit a frame. *)
Record fits : Prop := {
  fits_folder : (cr_parent_folder_id req <= U64_MAX)%N;
  fits_size : (cr_total_size req < 2 ^ 63)%N;
  fits_mtime : (cr_modified_at_unix req <= U64_MAX)%N;
  fits_ctime : option_le (cr_ctime req);
  fits_conflict : match cr_conflict req with ChunkedIfHash h => (h <= U64_MAX)%N | ChunkedCreateIfNew => True end;
  fits_strings : (len (chars auth) + len (chars (cr_file_name req)) + len key <= 65000)%N;
  fits_payload : len payload = cr_total_size req;
}.

Context (Hfits : fits).
Context (Hadmits : sv_admits files (cr_parent_folder_id req) (chars (cr_file_name req)) (Some (to_param (cr_conflict req)))).

(** The driver of this upload on an undisturbed service whose files are still [files]. *)
Record driver_ready (d : Driver) : Prop := {
  ready_payload : cd_payload d = payload;
  ready_sha1 : cd_local_sha1 d = upload_sha1_hex payload;
  ready_req : cd_req d = req;
  ready_key : cd_idempotency_key d = key;
  ready_steady : sv_steady (cd_transport d);
  ready_files : sv_files (cd_transport d) = files;
}.

(** The upload [id] is alive and holds at least the first [off] bytes of the payload and no more
    bytes than the payload has. *)
Definition session_holds (t : T) (id off : N) : Prop :=
  (id <= U64_MAX)%N /\ exists held, sv_sessions t !! id = Some held /\ (off <= len held)%N /\
    take (N.to_nat off) held = take (N.to_nat off) payload /\ (len held <= len payload)%N.

(** The payload is the file, and every other file is as before. *)
Definition published (t : T) : Prop :=
  sv_files t = <[(cr_parent_folder_id req, chars (cr_file_name req)) := payload]> files.

Lemma ready_update d d' :
  cd_payload d' = cd_payload d -> cd_local_sha1 d' = cd_local_sha1 d -> cd_req d' = cd_req d ->
  cd_idempotency_key d' = cd_idempotency_key d ->
  sv_files (cd_transport d') = sv_files (cd_transport d) -> sv_steady (cd_transport d') ->
  driver_ready d -> driver_ready d'.
Proof. intros E1 E2 E3 E4 Ef Hs [R1 R2 R3 R4 R5 R6]. by split; rewrite ?E1, ?E2, ?E3, ?E4, ?Ef. Qed.

Lemma bind_ok {W E A B} (m : ST W E A) (f : A -> ST W E B) w a w' :
  m w = (Ok a, w') -> bind m f w = f a w'.
Proof. unfold bind. by intros ->. Qed.

Lemma send_ok encoded body e v (d : Driver) t' :
  encoded = Ok e -> execute_with_body e body (cd_transport d) = (Ok v, t') ->
  send encoded body d = (Ok v, set_transport t' d).
Proof. intros -> E. unfold send, bind, lift, map_err, zoom. by rewrite E. Qed.

Lemma classify_ok h : answers_ok h -> classify_result (Some h) = Ok ().
Proof. unfold classify_result. cbn [ok_or result_bind]. by intros [-> | ->]. Qed.

(** Go through a call that succeeds. *)
Ltac goes_on tac := erewrite bind_ok by tac; cbn [cd_req cd_payload cd_idempotency_key cd_local_sha1 set_auth_cache
  set_transport id as_hash ok_or].

(** The size of a frame with constant names: the lengths of literals are computed. *)
Ltac literal_lengths :=
  repeat match goal with
  | |- context [len (chars ?s)] =>
      let n := eval vm_compute in (len (chars s)) in
      lazymatch n with N0 => idtac | Npos _ => idtac end; change (len (chars s)) with n
  end.
Ltac frame_size :=
  unfold params_size;
  cbn [params command_name optional app foldr to_param ConflictParam_to_binary UploadCreateRequest_method UploadWriteRequest_method
    UploadInfoRequest_method UploadSaveRequest_method param_name param_value body_size
    uc_auth_token uc_parent_folder_id uc_file_name uc_file_size uc_idempotency_key
    uw_auth_token uw_upload_id uw_upload_offset uw_chunk_id uw_idempotency_key
    us_auth_token us_parent_folder_id us_file_name us_upload_id us_modified_at_unix us_ctime us_conflict
    us_idempotency_key ui_upload_auth ui_upload_id ui_chunk_id];
  unfold param_size, string_param, number_param; cbn [param_name param_value]; literal_lengths.
Ltac names_fit := repeat constructor; vm_compute; discriminate.

Lemma fits_create :
  let r := mkUploadCreate (chars auth) (cr_parent_folder_id req) (chars (cr_file_name req)) (cr_total_size req) (Some key) in
  request_ok (command_name r) (params r) (Some 0%N) /\ exists e, encode r = Ok e.
Proof.
  destruct Hfits as [Hfo Hsz _ _ _ Hst _]. split.
  - split; [done|]. split; [done|]. split; [|done]. repeat constructor; cbn; unfold U64_MAX in *; lia.
  - apply encode_fits; [done|names_fit|]. frame_size. lia.
Qed.

Lemma fits_write id off body : (id <= U64_MAX)%N -> (off <= cr_total_size req)%N -> (body <= PSYNC_COPY_BUFFER_SIZE)%N ->
  let r := mkUploadWrite (chars auth) id off (off / PSYNC_COPY_BUFFER_SIZE) (Some key) in
  request_ok (command_name r) (params r) (Some body) /\ exists e, encode_with_body r body = Ok e.
Proof.
  intros Hid Hoff Hb. destruct Hfits as [_ Hsz _ _ _ Hst _].
  assert (off / PSYNC_COPY_BUFFER_SIZE <= off)%N by (apply N.Div0.div_le_upper_bound; unfold PSYNC_COPY_BUFFER_SIZE; lia).
  split.
  - split; [done|]. split; [done|]. split; [|unfold U64_MAX, PSYNC_COPY_BUFFER_SIZE in *; lia].
    repeat constructor; cbn [param_value number_param uw_upload_offset uw_chunk_id uw_upload_id]; unfold U64_MAX in *; lia.
  - apply encode_fits; [done|names_fit|]. frame_size. lia.
Qed.

Lemma fits_info id : (id <= U64_MAX)%N ->
  let r := mkUploadInfo (chars auth) id 0 in
  request_ok (command_name r) (params r) (Some 0%N) /\ exists e, encode r = Ok e.
Proof.
  intros Hid. destruct Hfits as [_ _ _ _ _ Hst _]. split.
  - split; [done|]. split; [done|]. split; [|done]. repeat constructor; cbn; unfold U64_MAX in *; lia.
  - apply encode_fits; [done|names_fit|]. frame_size. lia.
Qed.

Lemma fits_save id : (id <= U64_MAX)%N ->
  let r := mkUploadSave (chars auth) (cr_parent_folder_id req) (chars (cr_file_name req)) id (cr_modified_at_unix req)
             (cr_ctime req) (Some (to_param (cr_conflict req))) (Some key) in
  request_ok (command_name r) (params r) (Some 0%N) /\ exists e, encode r = Ok e.
Proof.
  intros Hid. destruct Hfits as [Hfo _ Hm Hc Hcf Hst _]. split.
  - split; [done|]. split; [by destruct (cr_ctime req)|]. split; [|done].
    cbn [params UploadSaveRequest_method us_ctime us_conflict us_idempotency_key optional].
    unfold option_le in Hc.
    destruct (cr_ctime req), (cr_conflict req); repeat constructor; cbn; unfold U64_MAX in *; lia.
  - apply encode_fits; [done| |].
    + cbn [params UploadSaveRequest_method us_ctime us_conflict us_idempotency_key optional].
      destruct (cr_ctime req), (cr_conflict req); names_fit.
    + destruct (cr_ctime req), (cr_conflict req); frame_size; lia.
Qed.

Lemma digest_length bytes : len (upload_sha1_hex bytes) = PSYNC_HASH_DIGEST_HEXLEN.
Proof. unfold upload_sha1_hex, len. by rewrite length_hex_lower, length_sha1. Qed.

Lemma create_undisturbed d : driver_ready d ->
  exists id d', drv_create (state_request req) auth d = (Ok id, d') /\ driver_ready d' /\
    session_holds (cd_transport d') id 0.
Proof.
  intros Hr. destruct fits_create as [Hok [e Ee]]. pose proof (ready_req d Hr) as Rr. pose proof (ready_key d Hr) as Rk.
  destruct (sv_create _ e (cd_transport d) (ready_steady d Hr) Hok Ee) as (h & uid & t' & Et & Ha & Hid & Hu & Hs & Hf & Hst).
  exists uid. eexists. split; [|split].
  - change (drv_create _ _ d) with (chunked_create auth d). unfold chunked_create.
    goes_on ltac:(reflexivity). goes_on ltac:(reflexivity). rewrite Rr, Rk.
    goes_on ltac:(by eapply send_ok). goes_on ltac:(reflexivity). rewrite classify_ok, Hid by done.
    do 3 goes_on ltac:(reflexivity). reflexivity.
  - by apply (ready_update d).
  - split; [done|]. exists []. cbn. split; [done|]. split; [done|]. split; [by rewrite !take_0|]. unfold len; cbn; lia.
Qed.

Lemma write_undisturbed uid off d : driver_ready d -> session_holds (cd_transport d) uid off ->
  (off < cr_total_size req)%N ->
  exists new d', drv_write uid off (cr_total_size req - off) auth d = (Ok new, d') /\ (off < new <= cr_total_size req)%N /\
    driver_ready d' /\ session_holds (cd_transport d') uid new.
Proof.
  intros Hr (Hid & held & Hh & Hoff & Ht & Hle) Hlt. pose proof (fits_payload Hfits) as Hp.
  set (c := N.min (cr_total_size req - off) PSYNC_COPY_BUFFER_SIZE).
  assert (0 < c /\ c <= cr_total_size req - off)%N as [Hc0 Hc] by (unfold c, PSYNC_COPY_BUFFER_SIZE; lia).
  set (slice := take (N.to_nat c) (drop (N.to_nat off) payload)).
  assert (len slice = c) as Hslice by (unfold slice, len in *; rewrite length_take, length_drop; lia).
  destruct (fits_write uid off c Hid ltac:(lia) ltac:(unfold c; lia)) as [Hok [e Ee]].
  destruct (sv_write _ slice e (cd_transport d) held (ready_steady d Hr) ltac:(by rewrite Hslice)
    ltac:(by rewrite Hslice) Hh Hoff) as (h & t' & Et & Ha & Hs & Hf & Hst).
  exists (off + c)%N. eexists. split; [|split; [lia|split]].
  - change (drv_write _ _ _ _ d) with (chunked_write uid off (cr_total_size req - off) auth d). unfold chunked_write.
    do 2 goes_on ltac:(reflexivity). fold c. rewrite (ready_payload d Hr), (ready_key d Hr), decide_False by lia.
    fold slice. goes_on ltac:(by eapply send_ok). rewrite classify_ok by done.
    do 2 goes_on ltac:(reflexivity). reflexivity.
  - by apply (ready_update d).
  - split; [done|]. eexists. split; [exact Hs|]. cbn [uw_upload_offset].
    rewrite len_overwrite, <- Hslice, take_overwrite, Hslice by done. split; [lia|]. split; [|lia].
    rewrite Ht. unfold slice. rewrite N2Nat.inj_add. apply take_take_drop.
Qed.

Lemma save_undisturbed uid off d : driver_ready d -> session_holds (cd_transport d) uid off ->
  (cr_total_size req <= off)%N ->
  exists d', drv_save uid (state_request req) auth d = (Ok (), d') /\ published (cd_transport d').
Proof.
  intros Hr (Hid & held & Hh & Hoff & Ht & Hle) Hlt. pose proof (fits_payload Hfits) as Hp.
  assert (held = payload) as ->.
  { rewrite <- (take_ge held (N.to_nat off)), Ht by (unfold len in *; lia). apply take_ge. unfold len in *; lia. }
  destruct (fits_info uid Hid) as [Hok [e Ee]]. destruct (fits_save uid Hid) as [Hok' [e' Ee']].
  destruct (sv_info _ e (cd_transport d) payload (ready_steady d Hr) Hok Ee Hh)
    as (h & t1 & E1 & Ha & Hsz & Hsha & Hs1 & Hf1 & Hst1).
  destruct (sv_save _ e' t1 payload Hst1 Hok' Ee' Hs1) as (h' & t2 & E2 & Ha' & Hf2).
  { rewrite Hf1, (ready_files d Hr). exact Hadmits. }
  eexists. split.
  - change (drv_save _ _ _ d) with (chunked_save uid auth d). unfold chunked_save.
    goes_on ltac:(reflexivity). goes_on ltac:(by eapply send_ok). goes_on ltac:(reflexivity).
    rewrite classify_ok, Hsz, Hsha by done. do 4 goes_on ltac:(reflexivity).
    rewrite (ready_req d Hr), (ready_sha1 d Hr), (ready_key d Hr), <- Hp, decide_False by (rewrite digest_length; tauto).
    goes_on ltac:(by eapply send_ok). rewrite classify_ok by done. reflexivity.
  - cbn. unfold published. rewrite Hf2, Hf1. by rewrite (ready_files d Hr).
Qed.

(** A session with another digest is refused; nothing but the answer of [upload_info] is used. *)
Lemma save_refused uid held d :
  sv_steady (cd_transport d) -> cd_local_sha1 d = upload_sha1_hex payload -> (uid <= U64_MAX)%N ->
  sv_sessions (cd_transport d) !! uid = Some held -> upload_sha1_hex held <> upload_sha1_hex payload ->
  exists t', chunked_save uid auth d = (Err PermFail, set_transport t' (set_auth_cache auth d)) /\
    sv_steady t' /\ sv_sessions t' !! uid = Some held /\ sv_files t' = sv_files (cd_transport d).
Proof.
  intros Hst Hl Hid Hh Hne. destruct (fits_info uid Hid) as [Hok [e Ee]].
  destruct (sv_info _ e (cd_transport d) held Hst Hok Ee Hh) as (h & t1 & E1 & Ha & Hsz & Hsha & Hs1 & Hf1 & Hst1).
  exists t1. split; [|done]. unfold chunked_save. goes_on ltac:(reflexivity). goes_on ltac:(by eapply send_ok).
  goes_on ltac:(reflexivity). rewrite classify_ok, Hsz, Hsha by done. do 4 goes_on ltac:(reflexivity).
  rewrite Hl, decide_True by tauto. reflexivity.
Qed.

#[local] Program Instance chunked_undisturbed : UndisturbedDriver Driver (state_request req) auth := {|
  calm := driver_ready;
  holds d uid off := driver_ready d /\ session_holds (cd_transport d) uid off;
  uploaded d := published (cd_transport d);
|}.
Next Obligation.
  intros d Hr. destruct (create_undisturbed d Hr) as (uid & d' & ? & ? & ?). by exists uid, d'.
Qed.
Next Obligation.
  intros uid off d [Hr Hs] Hlt. destruct (write_undisturbed uid off d Hr Hs Hlt) as (new & d' & E & Hn & Hr' & Hs').
  exists new, d'. split; [exact E|]. split; [lia|]. cbn [total_size state_request]. by rewrite N.min_l by lia.
Qed.
Next Obligation. intros uid off d [Hr Hs] Hle. exact (save_undisturbed uid off d Hr Hs Hle). Qed.

Context {R : Type} `{!SessionRefresher R, !Powi} (policy : RetryPolicy) (now : nat -> Z).

Lemma chunked_run_completes fuel (w : World Driver R) :
  2 * N.to_nat (cr_total_size req) + 5 <= fuel -> driver_ready (driver w) ->
  match table w !! cr_local_path req with
  | Some r => compatible (state_request req) r = true -> session_holds (cd_transport (driver w)) (rec_upload_id r) (rec_offset r)
  | None => True
  end ->
  completed (req:=state_request req) (auth:=auth) w (run policy now fuel (state_request req) auth w).
Proof.
  intros Hf Hr Hrow. apply upload_completes; [apply Hfits|done|]. unfold can_start. cbn [calm holds chunked_undisturbed].
  cbn [local_path state_request]. destruct (table w !! _) as [r|]; [|done].
  destruct (compatible _ r); [by split; [|apply Hrow]|done].
Qed.
End Undisturbed.

Section Completion.
Context {T TE R : Type} `{!BinaryApiTransport T TE, !Sha1, !Sha1Laws, !UploadService T TE}.
Context `{!SessionRefresher R, !Powi} (policy : RetryPolicy) (now : nat -> Z).

(** C36: While the service is undisturbed, an upload through the network driver terminates and
    succeeds, whether it starts from scratch, from a row of another request or from a row of its own
    whose session is alive and holds a beginning of the payload up to the row's offset: the machine
    ends in [Done] within two effects for each byte and five more, the file on the service is the
    payload and every other file is as before, the row is gone and no other row is touched.  The
    request must fit a frame and the service must admit the file under the conflict parameter.

    The last call before the save asks the service for the digest of the upload, so a session that
    does not hold the payload is refused: [stale_row_blocks_the_file]. *)
Theorem chunked_upload_completes fuel auth req payload key (t : T) (w : World (option T) R)
  (Hfits : fits auth req payload key)
  (Hsteady : sv_steady t)
  (Hadmits : sv_admits (sv_files t) (cr_parent_folder_id req) (chars (cr_file_name req)) (Some (to_param (cr_conflict req))))
  (Hrow : match table w !! cr_local_path req with
          | Some r => compatible (state_request req) r = true ->
                      session_holds payload t (rec_upload_id r) (rec_offset r)
          | None => True
          end)
  (Hdriver : driver w = Some t) (Hfuel : 2 * N.to_nat (cr_total_size req) + 5 <= fuel) :
  exists upload_id t' w',
    upload_bytes_chunked policy now fuel auth req payload key w =
      (Finished (Ok (mkChunkedResult upload_id (cr_total_size req) (upload_sha1_hex payload))), w') /\
    state w' = Done /\ table w' = delete (cr_local_path req) (table w) /\ driver w' = Some t' /\
    sv_files t' = <[(cr_parent_folder_id req, chars (cr_file_name req)) := payload]> (sv_files t).
Proof.
  unfold upload_bytes_chunked. rewrite Hdriver, decide_False by (rewrite (fits_payload _ _ _ _ Hfits); tauto).
  set (w0 := with_driver _ _).
  destruct (chunked_run_completes auth req payload key (sv_files t) Hfits Hadmits policy now fuel w0) as (E & Es & Et & Ep);
    [done|by split|exact Hrow|].
  destruct (run _ _ _ _ _ w0) as [o w']. cbn in E, Es, Et, Ep. subst o.
  do 3 eexists. split; [reflexivity|]. split_and!; [done..|exact Ep].
Qed.

(** A row whose session holds everything that was to be sent, but not the payload: the local file
    was rewritten with the same length after the last write.  The digest is refused, which is a
    permanent failure; the row is kept, and so is the session, because the cell the cleanup looks at
    is filled by a create only.  The service and the row are then as before, so every later upload of
    the file that resumes the row ends in the same way. *)
Lemma stale_row_blocks_the_file fuel auth req payload key (t : T) (w : World (option T) R) r held :
  fits auth req payload key -> sv_steady t -> driver w = Some t -> 0 < fuel ->
  table w !! cr_local_path req = Some r -> compatible (state_request req) r = true ->
  (rec_upload_id r <= U64_MAX)%N -> (cr_total_size req <= rec_offset r)%N ->
  sv_sessions t !! rec_upload_id r = Some held -> upload_sha1_hex held <> upload_sha1_hex payload ->
  exists t' w',
    upload_bytes_chunked policy now fuel auth req payload key w = (Finished (Err (StateFailed (Permanent 1))), w') /\
    table w' = table w /\ driver w' = Some t' /\ sv_steady t' /\ sv_sessions t' !! rec_upload_id r = Some held /\
    sv_files t' = sv_files t.
Proof.
  intros Hfits Hst Hd Hfuel Hrow Hc Hid Hoff Hh Hne. unfold upload_bytes_chunked.
  rewrite Hd, decide_False by (rewrite (fits_payload _ _ _ _ Hfits); tauto).
  set (d0 := driver_new t payload _ req key).
  destruct (save_refused auth req payload key Hfits (rec_upload_id r) held d0) as (t' & E & Ht'); [done..|].
  unfold run. cbn [table with_driver local_path state_request]. rewrite Hrow, Hc.
  destruct fuel as [|fuel]; [lia|]. cbn [write_loop]. rewrite decide_False by (cbn; lia).
  unfold save_phase. cbn [run_step and_then drv_save chunked_driver driver set_state with_driver]. rewrite E.
  eexists t', _. split; [reflexivity|]. by split; [|split].
Qed.
End Completion.

(** * The contract is inhabited: a service that reads the requests from the wire *)

Module Cloud.

Record Cloud : Type := mkCloud {
  sessions : gmap N (list byte);
  next_session : N;
  files : gmap (N * list byte) (list byte);
}.

#[local] Instance toy_digest : Sha1 := λ m, take 20 (m ++ replicate 20 (to_byte 0)).
#[local] Instance toy_digest_laws : Sha1Laws.
Proof. intros m. unfold sha1, toy_digest. rewrite length_take, length_app, length_replicate. lia. Qed.

Definition param_of (ps : list BinaryParam) (name : string) : option BinaryParamValue :=
  param_value <$> List.find (λ p, bool_decide (param_name p = chars name)) ps.
Definition string_of (ps : list BinaryParam) (name : string) : list byte :=
  match param_of ps name with Some (PString v) => v | _ => [] end.
Definition number_of (ps : list BinaryParam) (name : string) : N :=
  match param_of ps name with Some (PNumber n) => n | _ => 0%N end.

Definition reply (code : N) (fields : list (list byte * Value)) : list (list byte * Value) :=
  (chars "result", VNumber code) :: fields.

(** The service's hash of a file is its length here. *)
Definition conflicts (ps : list BinaryParam) (old : option (list byte)) : bool :=
  match param_of ps "ifhash" with
  | Some (PString _) => bool_decide (is_Some old)
  | Some (PNumber h) => bool_decide (len <$> old <> Some h)
  | _ => false
  end.

Definition service_answer (command : list byte) (ps : list BinaryParam) (body : list byte) (c : Cloud)
    : list (list byte * Value) * Cloud :=
  let uid := number_of ps "uploadid" in
  if decide (command = chars "upload_create") then
    (reply 0 [(chars "uploadid", VNumber (next_session c))],
     mkCloud (<[next_session c := []]> (sessions c)) ((next_session c + 1) mod 2 ^ 64) (files c))
  else
    match sessions c !! uid with
    | None => (reply 2000 [], c)
    | Some d =>
        if decide (command = chars "upload_write") then
          let off := number_of ps "uploadoffset" in
          if decide (len d < off)%N then (reply 2001 [], c)
          else (reply 0 [], mkCloud (<[uid := overwrite off body d]> (sessions c)) (next_session c) (files c))
        else if decide (command = chars "upload_info") then
          (reply 0 [(chars "size", VNumber (len d)); (chars "sha1", VString (upload_sha1_hex d))], c)
        else
          let key := (number_of ps "folderid", string_of ps "name") in
          if conflicts ps (files c !! key) then (reply 2004 [], c)
          else (reply 0 [], mkCloud (delete uid (sessions c)) (next_session c) (<[key := d]> (files c)))
    end.

#[local] Instance cloud_transport : BinaryApiTransport Cloud unit := λ e body c,
  match decode_request (req_bytes e) with
  | Some (command, ps, Some n, []) =>
      if decide (n = len body) then let '(h, c') := service_answer command ps body c in (Ok (VHash h), c') else (Err tt, c)
  | _ => (Err tt, c)
  end.

Lemma execute_answers command ps body e c :
  request_ok command ps (Some (len body)) -> encode_request command ps (Some (len body)) = Ok e ->
  execute_with_body e body c = (Ok (VHash (service_answer command ps body c).1), (service_answer command ps body c).2).
Proof.
  intros Hok He. unfold execute_with_body, cloud_transport.
  rewrite <- (app_nil_r (req_bytes e)), (encoded_request_decodes _ _ _ _ [] Hok He), decide_True by done.
  by destruct (service_answer _ _ _ _).
Qed.

Definition admits (fs : gmap (N * list byte) (list byte)) (folder : N) (name : list byte) (o : option ConflictParam) : Prop :=
  match o with
  | Some New => fs !! (folder, name) = None
  | Some (IfHash h) => len <$> fs !! (folder, name) = Some h
  | None => True
  end.

#[local] Program Instance cloud_service : UploadService Cloud unit := {|
  sv_sessions := sessions;
  sv_files := files;
  sv_steady c := (next_session c <= U64_MAX)%N;
  sv_admits := admits;
|}.
Next Obligation.
  intros r e c Hs Hok He. exists (reply 0 [(chars "uploadid", VNumber (next_session c))]), (next_session c). eexists.
  split; [exact (execute_answers _ _ [] e c Hok He)|]. split_and!; try done; [by right|apply lookup_insert_eq|].
  change ((next_session c + 1) mod 2 ^ 64 <= U64_MAX)%N.
  pose proof (N.mod_lt (next_session c + 1) (2 ^ 64) ltac:(done)). unfold U64_MAX. lia.
Qed.
Next Obligation.
  intros [au uid off ch key] slice e c d Hs Hok He Hd Hoff. exists (reply 0 []). eexists. cbn in Hd, Hoff.
  assert (service_answer (chars "upload_write") (params (mkUploadWrite au uid off ch key)) slice c =
    (reply 0 [], mkCloud (<[uid := overwrite off slice d]> (sessions c)) (next_session c) (files c))) as Ea.
  { unfold service_answer. rewrite decide_False by done. change (number_of _ "uploadid") with uid.
    change (number_of _ "uploadoffset") with off. by rewrite Hd, decide_True, decide_False by (done || lia). }
  split; [rewrite (execute_answers _ _ slice e c Hok He); cbn [command_name UploadWriteRequest_method]; by rewrite Ea|].
  cbn. split_and!; [by right|apply lookup_insert_eq|done..].
Qed.
Next Obligation.
  intros [au uid ch] e c d Hs Hok He Hd. cbn in Hd. eexists _, _.
  assert (service_answer (chars "upload_info") (params (mkUploadInfo au uid ch)) [] c =
    (reply 0 [(chars "size", VNumber (len d)); (chars "sha1", VString (upload_sha1_hex d))], c)) as Ea.
  { unfold service_answer. rewrite decide_False by done. change (number_of _ "uploadid") with uid.
    by rewrite Hd, decide_False, decide_True by done. }
  split; [unfold api_execute; rewrite (execute_answers _ _ [] e c Hok He); cbn [command_name UploadInfoRequest_method]; by rewrite Ea|].
  split_and!; try done. by right.
Qed.
Next Obligation.
  intros [au fo nm uid mt ct cf key] e c d Hs Hok He Hd Ha. cbn in Hd. eexists _, _.
  assert (service_answer (chars "upload_save") (params (mkUploadSave au fo nm uid mt ct cf key)) [] c =
    (reply 0 [], mkCloud (delete uid (sessions c)) (next_session c) (<[(fo, nm) := d]> (files c)))) as Ea.
  { unfold service_answer. rewrite decide_False by done. change (number_of _ "uploadid") with uid.
    rewrite Hd, !decide_False by done. change (number_of _ "folderid") with fo. change (string_of _ "name") with nm.
    enough (conflicts (params (mkUploadSave au fo nm uid mt ct cf key)) (files c !! (fo, nm)) = false) as -> by done.
    assert (param_of (params (mkUploadSave au fo nm uid mt ct cf key)) "ifhash" =
      match cf with Some (IfHash h) => Some (PNumber h) | Some New => Some (PString (chars "new")) | None => None end) as Ec
      by by destruct ct, cf as [[]|], key.
    unfold conflicts. rewrite Ec. cbn in Ha. destruct cf as [[h|]|]; [|by rewrite Ha|done].
    by apply bool_decide_eq_false_2; intros []. }
  split; [unfold api_execute; rewrite (execute_answers _ _ [] e c Hok He); cbn [command_name UploadSaveRequest_method]; by rewrite Ea|].
  split_and!; try done. by right.
Qed.

#[local] Existing Instance powi_by_products.

Definition note : ChunkedUploadRequest := mkChunkedRequest "/home/note" 0 "note" 5 1700000000 None (ChunkedIfHash 3).
Definition note_row : UploadResumeRecord := mkResumeRecord 0 "note" 7 2 5 None (HintIfHash 3) 0.

(** Three bytes were received and two of them recorded; an older version of the file has three bytes. *)
Definition note_cloud (received : string) : Cloud :=
  mkCloud {[7%N := chars received]} 8 {[(0%N, chars "note") := chars "old"]}.

Definition note_world (row : UploadResumeRecord) (received : string) : World (option Cloud) unit :=
  mkWorld {["/home/note"%string := row]} (Some (note_cloud received)) () Idle [].

Lemma note_fits : fits "token" note (chars "hello") (chars "key").
Proof. by split; vm_compute. Qed.

Lemma chunked_upload_completes_witness :
  exists upload_id t' w',
    upload_bytes_chunked sample_policy (λ _, 0%Z) 20 "token" note (chars "hello") (chars "key") (note_world note_row "hel") =
      (Finished (Ok (mkChunkedResult upload_id (cr_total_size note) (upload_sha1_hex (chars "hello")))), w') /\
    state w' = Done /\ table w' = delete (cr_local_path note) (table (note_world note_row "hel")) /\
    driver w' = Some t' /\
    sv_files t' = <[(cr_parent_folder_id note, chars (cr_file_name note)) := chars "hello"]> (sv_files (note_cloud "hel")).
Proof.
  apply (chunked_upload_completes sample_policy (λ _, 0%Z) 20 "token" note (chars "hello") (chars "key")
    (note_cloud "hel") (note_world note_row "hel")).
  - exact note_fits.
  - done.
  - reflexivity.
  - change (table _ !! _) with (Some note_row). intros _. split; [done|]. exists (chars "hel"). by repeat split.
  - reflexivity.
  - cbn. lia.
Defined.

(** All five bytes were sent before the file was rewritten. *)
Example rewritten_file_is_stuck :
  let row := mkResumeRecord 0 "note" 7 5 5 None (HintIfHash 3) 0 in
  exists t' w',
    upload_bytes_chunked sample_policy (λ _, 0%Z) 20 "token" note (chars "hello") (chars "key") (note_world row "HELLO") =
      (Finished (Err (StateFailed (Permanent 1))), w') /\
    table w' = table (note_world row "HELLO") /\ driver w' = Some t' /\ (next_session t' <= U64_MAX)%N /\
    sessions t' !! 7%N = Some (chars "HELLO") /\ files t' = {[(0%N, chars "note") := chars "old"]}.
Proof.
  intros row. destruct (stale_row_blocks_the_file sample_policy (λ _, 0%Z) 20 "token" note (chars "hello") (chars "key")
    (note_cloud "HELLO") (note_world row "HELLO") row (chars "HELLO")) as (t' & w' & H);
    [exact note_fits|done|done|lia|done|done|done|done|done|by vm_compute|]. by exists t', w'.
Qed.
End Cloud.
