(* ===== verification/DevAuth.v ===== *)
(** The authentication transport of development mode and the runtime's choice of transport:
    crates/pcloud-backends/src/auth_backend.rs.

    [AuthRuntime] forwards each call to the flow of the same name (AuthFlow), so the flows over
    [AuthTransportMode] are its methods; the network transport is an interface. *)
From stdpp Require Import pretty.
From S2P Require Import Prelude Paths Bytes BinaryApi Response StateError AuthApi.

(** * The response encoder of development mode *)

Inductive EncodedValue : Type :=
| EBool (b : bool)
| ENumber (n : N)
| EString (s : list byte)
| EOwnedString (s : list byte)
| EHash (entries : list (list byte * EncodedValue))
| EArray (entries : list EncodedValue).

(** [std::io::Error] as its kind and message. *)
Record IoError : Type := mkIoError { io_kind : string; io_message : list byte }.

Definition dev_encode_string (value : list byte) : result (list byte) IoError :=
  if decide (49 < len value)%N then
    Err (mkIoError "InvalidInput" (chars "development response encoder only supports short strings"))
  else Ok (to_byte (100 + as_u8 (len value)) :: value).

(** The bytes pushed for each of a list, in order; the first error wins. *)
Fixpoint dev_concat (parts : list (result (list byte) IoError)) : result (list byte) IoError :=
  match parts with
  | [] => Ok []
  | p :: ps => let? b := p in let? bs := dev_concat ps in Ok (b ++ bs)
  end.

Fixpoint dev_encode_value (value : EncodedValue) : result (list byte) IoError :=
  match value with
  | EBool false => Ok [to_byte 18]
  | EBool true => Ok [to_byte 19]
  | ENumber n =>
      if decide (n < 20)%N then Ok [to_byte (200 + as_u8 n)] else Ok (to_byte 15 :: to_le_bytes 8 n)
  | EString s | EOwnedString s => dev_encode_string s
  | EHash entries =>
      let? body := dev_concat (concat (map (λ kv, [dev_encode_string kv.1; dev_encode_value kv.2]) entries)) in
      Ok (to_byte 16 :: body ++ [to_byte 255])
  | EArray entries =>
      let? body := dev_concat (map dev_encode_value entries) in
      Ok (to_byte 17 :: body ++ [to_byte 255])
  end.

Definition encode_hash_response (entries : list (list byte * EncodedValue)) : result (list byte) IoError :=
  let? body := dev_concat (concat (map (λ kv, [dev_encode_string kv.1; dev_encode_value kv.2]) entries)) in
  let payload := to_byte 16 :: body ++ [to_byte 255] in
  Ok (to_le_bytes 4 (as_u32 (len payload)) ++ payload).

(** * The transport *)

Record DevelopmentAuthTransport : Type := mkDevelopment {
  expected_username : list byte;
  expected_password : list byte;
  expected_tfa_code : list byte;
}.

Definition DevelopmentAuthTransport_default : DevelopmentAuthTransport :=
  mkDevelopment (chars "alice@example.com") (chars "correct-horse") (chars "654321").

(** The first parameter of the name that is a string. *)
Fixpoint find_string_param (params : list BinaryParam) (name : list byte) : option (list byte) :=
  match params with
  | [] => None
  | p :: params =>
      match (if decide (param_name p = name) then match param_value p with PString v => Some v | _ => None end else None) with
      | Some v => Some v
      | None => find_string_param params name
      end
  end.

Definition display_parse_error (e : ResponseParseError) : list byte :=
  chars match e with
  | TruncatedFrame => "response frame is truncated"
  | FrameTooLarge => "response frame exceeds configured limit"
  | UnexpectedEof => "response payload is truncated"
  | InvalidTag tag => "response contained invalid tag " +:+ pretty tag
  | NestingLimitExceeded => "response nesting limit exceeded"
  | ArrayLimitExceeded => "response array exceeded configured limit"
  | HashLimitExceeded => "response hash exceeded configured limit"
  | StringTooLarge => "response string exceeded configured limit"
  | InvalidReuseReference id => "response referenced invalid reused string id " +:+ pretty id
  | InvalidHashKeyType => "response hash key was not a string"
  | TrailingBytes => "response had trailing bytes after root value"
  end.

Definition map_response_parse_err (e : ResponseParseError) : IoError := mkIoError "InvalidData" (display_parse_error e).

Section Execute.
Variable dev : DevelopmentAuthTransport.

Definition rejected (code : N) (error : string) : result (list byte) IoError :=
  encode_hash_response [(chars "result", ENumber code); (chars "error", EString (chars error))].

(** The arms of login and of userinfo with a user name. *)
Definition credentials_accepted (p : list BinaryParam) : bool :=
  let param name := find_string_param p (chars name) in
  bool_decide (param "username"%string = Some (expected_username dev)) &&
  (bool_decide (param "password"%string = Some (expected_password dev)) ||
   bool_decide (param "digest"%string = Some (chars "development-digest")) &&
   match param "passworddigest"%string with Some _ => true | None => false end).

Definition challenge_response : result (list byte) IoError :=
  encode_hash_response
    [(chars "result", ENumber 2000); (chars "token", EString (chars "challenge-token"));
     (chars "trustdevice", EBool false)].

Definition response_frame (request : EncodedRequest) : result (list byte) IoError :=
  let p := req_params request in
  let param name := find_string_param p (chars name) in
  let command := str (frame_command (req_frame request)) in
  if decide (command = "getdigest") then
    encode_hash_response [(chars "result", ENumber 0); (chars "digest", EString (chars "development-digest"))]
  else if decide (command = "login") then
    if credentials_accepted p then challenge_response else rejected 4000 "invalid credentials"
  else if decide (command = "tfa_login" \/ command = "tfa_loginwithrecoverycode") then
    if bool_decide (param "token"%string = Some (chars "challenge-token")) &&
       bool_decide (param "code"%string = Some (expected_tfa_code dev))
    then encode_hash_response
           [(chars "result", ENumber 0); (chars "auth", EString (chars "auth-token-42")); (chars "userid", ENumber 42)]
    else rejected 4001 "invalid two-factor code"
  else if decide (command = "tfa_sendcodeviasms") then
    if decide (param "token"%string = Some (chars "challenge-token")) then
      encode_hash_response
        [(chars "result", ENumber 0);
         (chars "phonedata", EHash [(chars "countrycode", EString (chars "+49")); (chars "msisdn", EString (chars "123456789"))])]
    else rejected 4001 "missing two-factor token"
  else if decide (command = "tfa_sendcodeviasysnotification") then
    if decide (param "token"%string = Some (chars "challenge-token")) then
      encode_hash_response
        [(chars "result", ENumber 0);
         (chars "devices", EArray
            [EHash [(chars "name", EString (chars "Pixel")); (chars "type", ENumber 1)];
             EHash [(chars "name", EString (chars "iPad"))]])]
    else rejected 4001 "missing two-factor token"
  else if decide (command = "userinfo") then
    let auth := param "auth"%string in
    if bool_decide (auth = Some (chars "auth-token-42")) || bool_decide (auth = Some (chars "digest-auth-token")) then
      encode_hash_response
        [(chars "result", ENumber 0); (chars "userid", ENumber 42);
         (chars "email", EOwnedString (expected_username dev));
         (chars "auth", EString (chars "auth-token-42-refreshed"))]
    else if credentials_accepted p then challenge_response
    else rejected 4000 "invalid credentials"
  else Err (mkIoError "Unsupported" (chars ("unsupported command: " +:+ command))).

(** [None] of the parser is running out of fuel, which it never does. *)
Definition dev_execute (request : EncodedRequest) : result Value IoError :=
  let? frame := response_frame request in
  match parse_response_frame frame ParseLimits_default with
  | Some (Ok v) => Ok v
  | Some (Err e) => Err (map_response_parse_err e)
  | None => Err (mkIoError "fuel" [])
  end.
End Execute.

#[export] Instance development_transport : ProtocolTransport DevelopmentAuthTransport IoError := {|
  execute request := λ dev, (dev_execute dev request, dev);
  consume_api_server_hint _ dev := dev;
  display_transport_error := io_message;
|}.

(** * Development or network *)

Inductive AuthBackendError (NE : Type) : Type := BackendDevelopment (e : IoError) | BackendNetwork (e : NE).
Arguments BackendDevelopment {NE} e.
Arguments BackendNetwork {NE} e.

Inductive AuthTransportMode (NT : Type) : Type := ModeDevelopment (dev : DevelopmentAuthTransport) | ModeNetwork (net : NT).
Arguments ModeDevelopment {NT} dev.
Arguments ModeNetwork {NT} net.

#[export] Instance mode_transport {NT NE} `{!ProtocolTransport NT NE}
    : ProtocolTransport (AuthTransportMode NT) (AuthBackendError NE) := {|
  execute request := λ mode,
    match mode with
    | ModeDevelopment dev =>
        (match dev_execute dev request with Ok v => Ok v | Err e => Err (BackendDevelopment e) end, mode)
    | ModeNetwork net =>
        let '(r, net) := execute request net in
        (match r with Ok v => Ok v | Err e => Err (BackendNetwork e) end, ModeNetwork net)
    end;
  consume_api_server_hint hint mode :=
    match mode with
    | ModeDevelopment dev => ModeDevelopment dev
    | ModeNetwork net => ModeNetwork (consume_api_server_hint hint net)
    end;
  display_transport_error e :=
    match e with BackendDevelopment e => io_message e | BackendNetwork e => display_transport_error e end;
|}.

(** The parser never runs out of fuel on a response. *)
Lemma dev_parse_total frame : parse_response_frame frame ParseLimits_default <> None.
Proof. destruct (parse_response_bounded frame ParseLimits_default) as (r & -> & _). done. Qed.
