(* ===== verification/Auth.v ===== *)
(** The session: crates/pcloud-auth/src/{state,commands,events,lifecycle,manager,refresh}.rs and
    the policy of crates/pcloud-daemon/src/session_refresh.rs.

    [SessionManager] is the state machine with the live token, [SessionLifecycle] its timers,
    [RefreshGuard] the single-flight slot.  The readings of the clock are arguments, in the order
    in which the code takes them; a secret string is its bytes. *)
From stdpp Require Import pretty.
From S2P Require Import Prelude Paths Clock Ieee Bytes StateError.

Abbreviation SecretString := (list byte).

(** * state.rs, commands.rs, events.rs *)

Inductive SessionState : Type :=
| LoggedOut
| AwaitingCredentials
| AuthenticatingWithPassword
| AuthenticatingWithToken
| TwoFactorRequired
| Authenticated
| AuthFailed.

#[export] Instance SessionState_eq_dec : EqDecision SessionState.
Proof. solve_decision. Defined.

Record PendingChallenge : Type := mkChallenge {
  challenge_token : SecretString;
  trust_device : bool;
}.

Record SessionSnapshot : Type := mkSnapshot {
  state : SessionState;
  authenticated_user : option N;
  auth_token : option SecretString;
  email : option (list byte);
  pending_challenge : option PendingChallenge;
  last_auth_error : option (list byte);
}.

Inductive AuthCommand : Type :=
| BeginLogin
| LoginWithPassword (username : list byte) (password : SecretString)
| LoginWithToken (token : SecretString)
| SubmitTwoFactorCode (code : SecretString) (trust : bool)
| MarkAuthenticated (user_id : option N) (token : SecretString)
| MarkAuthenticationFailed (message : option (list byte))
| MarkTwoFactorCodeInvalid (message : option (list byte))
| Logout.

Inductive AuthEvent : Type :=
| EventLoginStarted
| EventLoginSucceeded (user_id : option N)
| EventLoginFailed (message : option (list byte))
| EventTwoFactorChallengeIssued
| EventLoggedOut
| EventTokenRefreshed (user_id : option N)
| EventTokenRefreshExpired (result : N)
| EventTokenRefreshTemporaryFailure (message : list byte).

(** * lifecycle.rs *)

Record RefreshPolicy : Type := mkPolicy {
  lifetime : Duration;
  refresh_threshold : f32;
  max_idle : option Duration;
}.

(** [Duration::as_secs]. *)
Definition as_secs (d : Duration) : N := d / NANOS_PER_SEC.

Definition RefreshPolicy_default : RefreshPolicy := mkPolicy (from_secs 3600) (f32_lit 8 1) None.

Definition sanitized (p : RefreshPolicy) : RefreshPolicy := {|
  lifetime := if decide (lifetime p = 0%N) then from_secs 3600 else lifetime p;
  refresh_threshold := if in_unit_interval (refresh_threshold p) then refresh_threshold p else f32_lit 8 1;
  max_idle := max_idle p;
|}.

Definition refresh_after_secs (p : RefreshPolicy) : N :=
  u64_of_f64 (f64_mul (f64_of_u64 (as_secs (lifetime p))) (f64_of_f32 (refresh_threshold p))).

Record SessionLifecycle : Type := mkLifecycle {
  established_at : N;
  expires_at : N;
  last_used_at : N;
  credentials_retained : bool;
}.

Definition SessionLifecycle_new (now_secs : N) (p : RefreshPolicy) (retained : bool) : SessionLifecycle :=
  mkLifecycle now_secs (u64_saturating_add now_secs (as_secs (lifetime p))) now_secs retained.

Definition lifecycle_mark_used (now_secs : N) (lc : SessionLifecycle) : SessionLifecycle :=
  mkLifecycle (established_at lc) (expires_at lc) now_secs (credentials_retained lc).

Definition should_refresh (lc : SessionLifecycle) (now_secs : N) (p : RefreshPolicy) : bool :=
  bool_decide (u64_saturating_add (established_at lc) (refresh_after_secs p) <= now_secs)%N.

Definition is_expired (lc : SessionLifecycle) (now_secs : N) : bool :=
  bool_decide (expires_at lc <= now_secs)%N.

Definition is_idle_expired (lc : SessionLifecycle) (now_secs : N) (p : RefreshPolicy) : bool :=
  match max_idle p with
  | Some max => bool_decide (as_secs max <= now_secs - last_used_at lc)%N
  | None => false
  end.

Definition lifecycle_record_refresh (now_secs : N) (p : RefreshPolicy) (lc : SessionLifecycle) : SessionLifecycle :=
  mkLifecycle now_secs (u64_saturating_add now_secs (as_secs (lifetime p))) now_secs (credentials_retained lc).

Inductive LifecycleError : Type :=
| RefreshInFlight
| AuthExpired
| NoSession.

(** The slot of the guard; a ticket is the right to clear it. *)
Definition try_begin (in_flight : bool) : option unit * bool :=
  if in_flight then (None, in_flight) else (Some tt, true).
Definition drop_ticket (in_flight : bool) : bool := false.

(** * manager.rs *)

Record SessionManager : Type := mkManager {
  snapshot : SessionSnapshot;
  lifecycle : option SessionLifecycle;
}.

Inductive SessionManagerError : Type :=
| NoPendingChallenge
| InvalidAuthenticatedTransition.

Definition display_session_error (e : SessionManagerError) : list byte :=
  match e with
  | NoPendingChallenge => chars "two-factor code was submitted while no challenge is pending"
  | InvalidAuthenticatedTransition => chars "authenticated transition requires an active login flow"
  end.

Definition logged_out : SessionSnapshot := mkSnapshot LoggedOut None None None None None.
Definition SessionManager_new : SessionManager := mkManager logged_out None.

Abbreviation SM := (ST SessionManager SessionManagerError).

(** [self.snapshot = ..] with the lifecycle untouched. *)
Definition set_snapshot (f : SessionSnapshot -> SessionSnapshot) (m : SessionManager) : SessionManager :=
  mkManager (f (snapshot m)) (lifecycle m).

Definition attach_lifecycle (now_secs : N) (p : RefreshPolicy) (retained : bool) (m : SessionManager) : SessionManager :=
  mkManager (snapshot m) (Some (SessionLifecycle_new now_secs p retained)).

Definition mark_used (now_secs : N) (m : SessionManager) : SessionManager :=
  mkManager (snapshot m) (lifecycle_mark_used now_secs <$> lifecycle m).

Definition with_token (token : SecretString) (s : SessionSnapshot) : SessionSnapshot :=
  mkSnapshot (state s) (authenticated_user s) (Some token) (email s) (pending_challenge s) (last_auth_error s).

Definition record_refresh (now_secs : N) (p : RefreshPolicy) (new_token : SecretString) : SM unit :=
  let! m := gets id in
  if decide (state (snapshot m) = Authenticated) then
    do! modify (set_snapshot (with_token new_token)) in
    modify (λ m, mkManager (snapshot m)
      (Some (match lifecycle m with
             | Some lc => lifecycle_record_refresh now_secs p lc
             | None => SessionLifecycle_new now_secs p false
             end)))
  else throw InvalidAuthenticatedTransition.

Definition revoke (m : SessionManager) : AuthEvent * SessionManager := (EventLoggedOut, SessionManager_new).

Definition update_userinfo (user_id : option N) (new_email : option (list byte)) : SM unit :=
  let! m := gets id in
  match state (snapshot m) with
  | Authenticated =>
      modify (set_snapshot (λ s,
        mkSnapshot (state s)
          (match user_id with Some _ => user_id | None => authenticated_user s end)
          (auth_token s) new_email (pending_challenge s) (last_auth_error s)))
  | _ => throw InvalidAuthenticatedTransition
  end.

Definition replace_auth_token (token : SecretString) : SM unit :=
  let! m := gets id in
  match state (snapshot m) with
  | Authenticated => modify (set_snapshot (with_token token))
  | _ => throw InvalidAuthenticatedTransition
  end.

(** The start of a login: the state changes, an old challenge and error are forgotten. *)
Definition begin_attempt (st : SessionState) (s : SessionSnapshot) : SessionSnapshot :=
  mkSnapshot st (authenticated_user s) (auth_token s) (email s) None None.

Definition apply (command : AuthCommand) : SM AuthEvent :=
  match command with
  | BeginLogin =>
      do! modify (set_snapshot (λ s, mkSnapshot AwaitingCredentials (authenticated_user s) (auth_token s)
        (email s) (pending_challenge s) None)) in
      ok EventLoginStarted
  | LoginWithPassword _ _ =>
      do! modify (set_snapshot (begin_attempt AuthenticatingWithPassword)) in ok EventLoginStarted
  | LoginWithToken _ =>
      do! modify (set_snapshot (begin_attempt AuthenticatingWithToken)) in ok EventLoginStarted
  | SubmitTwoFactorCode _ trust =>
      let! m := gets id in
      match pending_challenge (snapshot m) with
      | None => throw NoPendingChallenge
      | Some challenge =>
          do! modify (set_snapshot (λ s, mkSnapshot AuthenticatingWithPassword (authenticated_user s)
            (auth_token s) (email s) (Some (mkChallenge (challenge_token challenge) trust)) (last_auth_error s))) in
          ok EventLoginStarted
      end
  | MarkAuthenticated user_id token =>
      let! m := gets id in
      match state (snapshot m) with
      | AuthenticatingWithPassword | AuthenticatingWithToken | TwoFactorRequired =>
          do! modify (set_snapshot (λ s, mkSnapshot Authenticated user_id (Some token) (email s) None None)) in
          ok (EventLoginSucceeded user_id)
      | _ => throw InvalidAuthenticatedTransition
      end
  | MarkAuthenticationFailed message =>
      do! modify (λ _, mkManager (mkSnapshot AuthFailed None None None None message) None) in
      ok (EventLoginFailed message)
  | MarkTwoFactorCodeInvalid message =>
      do! modify (set_snapshot (λ s, mkSnapshot (state s) (authenticated_user s) (auth_token s) (email s)
        (pending_challenge s) message)) in
      ok (EventLoginFailed message)
  | Logout =>
      do! modify (λ _, SessionManager_new) in ok EventLoggedOut
  end.

Definition issue_two_factor_challenge (token : SecretString) (trust : bool) (m : SessionManager)
    : AuthEvent * SessionManager :=
  (EventTwoFactorChallengeIssued,
   set_snapshot (λ s, mkSnapshot TwoFactorRequired (authenticated_user s) (auth_token s) (email s)
     (Some (mkChallenge token trust)) None) m).

(** * refresh.rs and session_lifecycle.rs

    A coordinator's call borrows the session, holds the slot of the guard and runs a closure on
    the rest of the world [W]. *)
Record SessionWorld (W : Type) : Type := mkWorld {
  session : SessionManager;
  in_flight : bool;
  rest : W;
}.
Arguments mkWorld {W} session in_flight rest.
Arguments session {W} s.
Arguments in_flight {W} s.
Arguments rest {W} s.

Inductive RefreshDecision : Type :=
| DecideNoSession
| DecideOk
| DecideRefresh
| DecideIdleLogout
| DecideExpired.

Inductive RefreshOutcome : Type :=
| Refreshed
| AlreadyInFlight
| OutcomeNoSession.

Definition evaluate (policy : RefreshPolicy) (now : N) (m : SessionManager) : RefreshDecision :=
  match lifecycle m with
  | None => DecideNoSession
  | Some lc =>
      if is_expired lc now then DecideExpired
      else if is_idle_expired lc now policy then DecideIdleLogout
      else if should_refresh lc now policy then DecideRefresh
      else DecideOk
  end.

Section Coordinator.
Context {W E : Type} (policy : RefreshPolicy) (from_lifecycle : LifecycleError -> E).

Abbreviation RC := (ST (SessionWorld W) E).

Definition set_session (m : SessionManager) (w : SessionWorld W) : SessionWorld W :=
  mkWorld m (in_flight w) (rest w).
Definition set_in_flight (b : bool) (w : SessionWorld W) : SessionWorld W :=
  mkWorld (session w) b (rest w).
Definition set_rest (r : W) (w : SessionWorld W) : SessionWorld W :=
  mkWorld (session w) (in_flight w) r.

(** [m] under a ticket; the ticket is dropped on every way out.  [Ok None] when the slot is taken. *)
Definition under_ticket {A} (m : RC A) : RC (option A) := λ w,
  match try_begin (in_flight w) with
  | (None, _) => (Ok None, w)
  | (Some _, taken) =>
      let '(r, w') := m (set_in_flight taken w) in
      (match r with Ok a => Ok (Some a) | Err e => Err e end,
       set_in_flight (drop_ticket (in_flight w')) w')
  end.

(** [now] is the clock's reading after the closure has returned. *)
Definition run_refresh (now : N) (refresh_fn : ST W E SecretString) : RC RefreshOutcome :=
  let! w := gets id in
  match lifecycle (session w) with
  | None => ok OutcomeNoSession
  | Some _ =>
      let! r := under_ticket (
        let! new_token := zoom rest set_rest refresh_fn in
        do! map_err (λ _, from_lifecycle NoSession)
              (zoom session set_session (record_refresh now policy new_token)) in
        ok tt) in
      match r with Some _ => ok Refreshed | None => ok AlreadyInFlight end
  end.

Definition handle_auth_expired (now : N) (reauth_fn : option (ST W E SecretString)) : RC RefreshOutcome :=
  let! w := gets id in
  let retained := match lifecycle (session w) with Some lc => credentials_retained lc | None => false end in
  match retained, reauth_fn with
  | true, Some f => run_refresh now f
  | _, _ =>
      do! modify (λ w, set_session (revoke (session w)).2 w) in
      throw (from_lifecycle AuthExpired)
  end.
End Coordinator.

(** * session_refresh.rs: the policy of the operator's configuration *)

Record AuthPolicy : Type := mkAuthPolicy {
  refresh_check_interval_secs : N;
  refresh_margin_secs : N;
}.

Definition policy_from_config (auth : AuthPolicy) : RefreshPolicy :=
  let base := RefreshPolicy_default in
  let lifetime_secs := as_secs (lifetime base) in
  let margin := N.min (refresh_margin_secs auth) lifetime_secs in
  let threshold :=
    if decide (0 < lifetime_secs)%N
    then f32_sub f32_one (f32_div (f32_of_u64 margin) (f32_of_u64 lifetime_secs))
    else f32_lit 8 1 in
  sanitized (mkPolicy (from_secs lifetime_secs) threshold (max_idle base)).

Definition accept_timeout (auth : AuthPolicy) : option Duration :=
  let secs := refresh_check_interval_secs auth in
  if decide (secs = 0%N) then None else Some (from_secs (N.min secs 60)).

(** * The policy *)

Lemma policy_from_config_min auth :
  policy_from_config auth =
  policy_from_config (mkAuthPolicy 0 (N.min (refresh_margin_secs auth) 3600)).
Proof.
  unfold policy_from_config. change (as_secs (lifetime RefreshPolicy_default)) with 3600%N.
  cbn [refresh_margin_secs]. replace (N.min (N.min (refresh_margin_secs auth) 3600) 3600)
    with (N.min (refresh_margin_secs auth) 3600) by lia. done.
Qed.

(** Within one second before the margin, never after it. *)
Definition margin_kept (margin : N) : bool :=
  let p := policy_from_config (mkAuthPolicy 0 margin) in
  let after := refresh_after_secs p in
  (3599 - margin <=? after)%N && (after <=? 3600 - margin)%N.

Lemma margin_kept_all : forallb (λ n, margin_kept (N.of_nat n)) (seq 0 3601) = true.
Proof. vm_compute. reflexivity. Qed.

Lemma margin_kept_le margin : (margin <= 3600)%N -> margin_kept margin = true.
Proof.
  intros Hm. pose proof (proj1 (forallb_forall _ _) margin_kept_all (N.to_nat margin)) as H.
  cbv beta in H. rewrite N2Nat.id in H. apply H, in_seq. lia.
Qed.

(** The single-precision threshold computed from the configured margin: a refresh falls due when
    the margin is left of the hour's lifetime, or up to one second before, for every
    configuration; a margin of the whole lifetime or more makes it due at once, and no
    configuration enables the idle logout. *)
Theorem policy_keeps_the_margin auth :
  let p := policy_from_config auth in
  let margin := N.min (refresh_margin_secs auth) 3600 in
  as_secs (lifetime p) = 3600%N /\ max_idle p = None /\
  (3599 - margin <= refresh_after_secs p <= 3600 - margin)%N /\
  ((3600 <= refresh_margin_secs auth)%N -> refresh_after_secs p = 0%N).
Proof.
  cbv zeta. rewrite policy_from_config_min. set (m := N.min (refresh_margin_secs auth) 3600).
  pose proof (margin_kept_le m ltac:(lia)) as H. unfold margin_kept in H.
  apply andb_prop in H as [H1%N.leb_le H2%N.leb_le].
  assert (lifetime (policy_from_config (mkAuthPolicy 0 m)) = from_secs 3600) as E by (vm_compute; reflexivity).
  rewrite E. repeat split; [done|done|].
  intros. lia.
Qed.

(** The default margin of ten minutes: a second early. *)
Example default_policy_refreshes_after :
  refresh_after_secs (policy_from_config (mkAuthPolicy 300 600)) = 2999%N.
Proof. vm_compute. reflexivity. Qed.

Example builtin_policy_refreshes_after : refresh_after_secs RefreshPolicy_default = 2880%N.
Proof. vm_compute. reflexivity. Qed.
