(* ===== verification/AuthFlow.v ===== *)
(** The authentication flows: crates/pcloud-auth/src/orchestrator.rs, the refresh loop of
    crates/pcloud-session/src/{session_lifecycle,refresh_loop}.rs, and what
    crates/pcloud-daemon/src/runtime.rs does with the events of a login.

    The state of a flow is a [SessionWorld]: the session, the slot of the refresh guard, and the
    state of the transport. *)
From stdpp Require Import pretty.
From S2P Require Import Prelude Paths Clock Bytes BinaryApi Response StateError AuthApi Auth.

Inductive RefreshTokenError (TE : Type) : Type :=
| NotAuthenticated
| TokenAuthExpired (result : N)
| TemporaryFailure (reason : list byte)
| RefreshSession (e : SessionManagerError)
| MissingAuthField
| RefreshProtocol (e : AuthApiError TE).
Arguments NotAuthenticated {TE}.
Arguments TokenAuthExpired {TE} result.
Arguments TemporaryFailure {TE} reason.
Arguments RefreshSession {TE} e.
Arguments MissingAuthField {TE}.
Arguments RefreshProtocol {TE} e.

Inductive AuthFlowError (TE : Type) : Type :=
| FlowSession (e : SessionManagerError)
| FlowProtocol (e : AuthApiError TE).
Arguments FlowSession {TE} e.
Arguments FlowProtocol {TE} e.

Inductive RefreshLoopError : Type :=
| LoopLifecycle (e : LifecycleError)
| Orchestrator (message : list byte).

Inductive TickOutcome : Type :=
| TickNoSession
| TickOk
| TickRefreshed
| TickAlreadyInFlight
| TickIdleLogout (audit_details : string)
| TickExpired
| TickAuthExpired (result : N)
| TickTemporaryFailure (reason : list byte).

Section Flow.
Context {T TE : Type} `{!ProtocolTransport T TE} `{!Sha1} (context : AuthRequestContext).

Abbreviation World := (SessionWorld T).
Abbreviation Flow := (ST World (AuthFlowError TE)).

(** A method of the session manager, and one of the API, inside a flow. *)
Definition on_session {A} (m : SM A) : Flow A := map_err FlowSession (zoom session set_session m).
Definition on_api {A E} (m : ST T E A) : ST World E A := zoom rest set_rest m.
Definition api {A} (m : ST T (AuthApiError TE) A) : Flow A := map_err FlowProtocol (on_api m).

Definition issue_challenge (token : SecretString) (trust : bool) : Flow AuthEvent :=
  let! w := gets id in
  let '(event, m) := issue_two_factor_challenge token trust (session w) in
  do! modify (set_session m) in ok event.

(** [match self.api.call() { Ok(x) => x, Err(err) => { mark failed; return Err(err) } }]. *)
Definition api_or_fail {A} (m : ST T (AuthApiError TE) A) : Flow A :=
  let! r := attempt (on_api m) in
  match r with
  | Ok a => ok a
  | Err err =>
      do! attempt (E := SessionManagerError) (zoom session set_session (apply (MarkAuthenticationFailed (Some (display_api_error err))))) in
      throw (FlowProtocol err)
  end.

Definition login_with_token (token : SecretString) : Flow AuthEvent :=
  do! on_session (apply (LoginWithToken token)) in
  let! info := api_or_fail (userinfo context token) in
  let! event := on_session (apply (MarkAuthenticated (user_id info) token)) in
  do! on_session (update_userinfo (user_id info) (user_email info)) in
  ok event.

(** The arm of a successful password or code: fetch the user, install the token. *)
Definition finish_login (token : SecretString) (uid : option N) : Flow AuthEvent :=
  let! info := api (userinfo context token) in
  let uid := match user_id info with Some u => Some u | None => uid end in
  let! event := on_session (apply (MarkAuthenticated uid token)) in
  do! on_session (update_userinfo uid (user_email info)) in
  ok event.

Definition login_with_password (username : list byte) (password : SecretString) : Flow AuthEvent :=
  do! on_session (apply (LoginWithPassword username password)) in
  let! outcome := api_or_fail (login_password context username password) in
  match outcome with
  | OutcomeAuthenticated token uid _ => finish_login token uid
  | OutcomeTwoFactorRequired challenge trust _ => issue_challenge challenge trust
  | OutcomeFailed _ message _ => on_session (apply (MarkAuthenticationFailed message))
  end.

Definition flow_submit_two_factor_code (code : SecretString) (trust recovery : bool) : Flow AuthEvent :=
  let! w := gets id in
  let! challenge := lift (ok_or (pending_challenge (snapshot (session w))) (FlowSession NoPendingChallenge)) in
  do! on_session (apply (SubmitTwoFactorCode code trust)) in
  let! outcome := api_or_fail (submit_two_factor_code context (challenge_token challenge) code trust recovery) in
  match outcome with
  | OutcomeAuthenticated token uid _ => finish_login token uid
  | OutcomeTwoFactorRequired challenge trust _ => issue_challenge challenge trust
  | OutcomeFailed _ message _ => on_session (apply (MarkTwoFactorCodeInvalid message))
  end.

Definition submit_two_factor_code_with_password (username : list byte) (password code : SecretString)
    : Flow AuthEvent :=
  do! on_session (apply (SubmitTwoFactorCode code false)) in
  let! outcome := api_or_fail (login_password_with_code context username password (Some code)) in
  match outcome with
  | OutcomeAuthenticated token uid _ => finish_login token uid
  | OutcomeTwoFactorRequired challenge trust _ => issue_challenge challenge trust
  | OutcomeFailed _ message _ => on_session (apply (MarkAuthenticationFailed message))
  end.

Definition flow_userinfo (token : SecretString) : Flow UserInfo := api (userinfo context token).

Definition refresh_token (current : SecretString) : ST World (RefreshTokenError TE) AuthEvent :=
  let! w := gets id in
  if decide (state (snapshot (session w)) <> Authenticated) then throw NotAuthenticated
  else
    let! r := attempt (on_api (refresh_auth_token context current)) in
    match r with
    | Ok new_token =>
        do! map_err RefreshSession (zoom session set_session (replace_auth_token new_token)) in
        let! w := gets id in
        ok (EventTokenRefreshed (authenticated_user (snapshot (session w))))
    | Err (RefreshAuthExpired result) =>
        do! modify (λ w, set_session (revoke (session w)).2 w) in
        throw (TokenAuthExpired result)
    | Err RefreshMissingAuthField => throw MissingAuthField
    | Err (RefreshTemporaryFailure inner) => throw (TemporaryFailure (display_api_error inner))
    end.

Definition flow_send_two_factor_sms : Flow TwoFactorSmsDelivery :=
  let! w := gets id in
  let! challenge := lift (ok_or (pending_challenge (snapshot (session w))) (FlowSession NoPendingChallenge)) in
  api (send_two_factor_sms (challenge_token challenge)).

Definition flow_send_two_factor_notification : Flow TwoFactorNotificationDelivery :=
  let! w := gets id in
  let! challenge := lift (ok_or (pending_challenge (snapshot (session w))) (FlowSession NoPendingChallenge)) in
  api (send_two_factor_notification (challenge_token challenge)).

Definition display_refresh_error (e : RefreshTokenError TE) : list byte :=
  match e with
  | NotAuthenticated => chars "no authenticated session"
  | TokenAuthExpired result => chars ("auth token expired (result " +:+ pretty result +:+ ")")
  | TemporaryFailure reason => chars "temporary refresh failure: " ++ reason
  | RefreshSession e => chars "session manager rejected refresh: " ++ display_session_error e
  | MissingAuthField => chars "refresh response missing auth field"
  | RefreshProtocol e => chars "protocol refresh failed: " ++ display_api_error e
  end.

(** * One iteration of the refresh loop

    [now] is the clock's reading of [evaluate], [now'] the one after the transport's answer. *)
Definition refresh_arm (policy : RefreshPolicy) (now' : N) : ST World RefreshLoopError TickOutcome :=
  let! w := gets id in
  match auth_token (snapshot (session w)) with
  | None => ok TickNoSession
  | Some current =>
      let! r := attempt (refresh_token current) in
      match r with
      | Ok (EventTokenRefreshed _) =>
          let! w := gets id in
          do! match auth_token (snapshot (session w)) with
              | Some token =>
                  do! attempt (zoom session set_session (record_refresh now' policy token)) in ok tt
              | None => ok tt
              end in
          ok TickRefreshed
      | Ok _ => ok TickOk
      | Err (TokenAuthExpired result) => ok (TickAuthExpired result)
      | Err (TemporaryFailure reason) => ok (TickTemporaryFailure reason)
      | Err NotAuthenticated => ok TickNoSession
      | Err other => throw (Orchestrator (display_refresh_error other))
      end
  end.

Definition tick (policy : RefreshPolicy) (now now' : N) : ST World RefreshLoopError TickOutcome :=
  let! w := gets id in
  match evaluate policy now (session w) with
  | DecideNoSession => ok TickNoSession
  | DecideOk => ok TickOk
  | DecideExpired =>
      do! modify (λ w, set_session (revoke (session w)).2 w) in ok TickExpired
  | DecideIdleLogout =>
      let user := match authenticated_user (snapshot (session w)) with
                  | Some uid => pretty uid
                  | None => "unknown"
                  end in
      do! modify (λ w, set_session (revoke (session w)).2 w) in
      ok (TickIdleLogout ("idle_logout user_id=" +:+ user))
  | DecideRefresh =>
      if in_flight w then ok TickAlreadyInFlight
      else
        let! r := under_ticket (refresh_arm policy now') in
        ok (match r with Some outcome => outcome | None => TickAlreadyInFlight end)
  end.
End Flow.

(** * The daemon's use of the flows

    [auth_response] attaches the timers to the session when a login has succeeded; [now] is the
    clock's reading. *)
Definition auth_response {T} (policy : RefreshPolicy) (now : N) (event : AuthEvent) (w : SessionWorld T)
    : SessionWorld T :=
  match event with
  | EventLoginSucceeded _ => set_session (attach_lifecycle now policy false (session w)) w
  | _ => w
  end.

(** * Logging in with a token *)

Section TokenLogin.
Context {T TE : Type} `{PT : !ProtocolTransport T TE} `{SH : !Sha1} (context : AuthRequestContext).

(** [userinfo] answers whenever the response is a hash. *)
Lemma userinfo_hash token t value t' hash :
  call (mkUserInfoRequest token context) t = (Ok value, t') -> as_hash value = Some hash ->
  exists info t'', userinfo context token t = (Ok info, t'') /\
    user_id info = get_number hash (chars "userid") /\ user_email info = get_string hash (chars "email").
Proof.
  intros Hc Hh. unfold userinfo, bind, lift. rewrite Hc, Hh. cbn [ok_or].
  unfold apply_api_server_hint. cbn [user_api_server].
  destruct (extract_api_server_hint hash); do 2 eexists; (split; [reflexivity|by split]).
Qed.

Lemma userinfo_fails token t e t' :
  call (mkUserInfoRequest token context) t = (Err e, t') -> userinfo context token t = (Err e, t').
Proof. intros Hc. unfold userinfo, bind. by rewrite Hc. Qed.

Lemma userinfo_malformed token t value t' :
  call (mkUserInfoRequest token context) t = (Ok value, t') -> as_hash value = None ->
  userinfo context token t = (Err (Malformed "userinfo response was not a hash"), t').
Proof. intros Hc Hh. unfold userinfo, bind, lift. by rewrite Hc, Hh. Qed.

(** The session after a token login, for every answer to the userinfo request. *)
Lemma login_with_token_result token (w : SessionWorld T) :
  let '(r, w') := login_with_token context token w in
  match call (mkUserInfoRequest token context) (rest w) with
  | (Ok value, _) =>
      match as_hash value with
      | Some hash =>
          let user := get_number hash (chars "userid") in
          r = Ok (EventLoginSucceeded user) /\
          session w' = mkManager
            (mkSnapshot Authenticated user (Some token) (get_string hash (chars "email")) None None)
            (lifecycle (session w))
      | None => state (snapshot (session w')) = AuthFailed /\ auth_token (snapshot (session w')) = None /\
          r = Err (FlowProtocol (Malformed "userinfo response was not a hash"))
      end
  | (Err e, _) => state (snapshot (session w')) = AuthFailed /\ auth_token (snapshot (session w')) = None /\
      r = Err (FlowProtocol e)
  end.
Proof.
  destruct w as [m fl t]. cbn [rest].
  unfold login_with_token, on_session, api_or_fail, on_api, attempt, zoom, map_err.
  unfold apply, bind, modify, gets, ok, set_session. cbn [session rest].
  destruct (call (mkUserInfoRequest token context) t) as [[value|e] t'] eqn:Ec.
  - destruct (as_hash value) as [hash|] eqn:Eh.
    + destruct (userinfo_hash token t value t' hash Ec Eh) as (info & t2 & -> & Hu & Hm).
      destruct info as [uid mail]. cbn [user_id user_email] in Hu, Hm.
      rewrite <- Hu, <- Hm. clear. destruct uid; split; reflexivity.
    + rewrite (userinfo_malformed token t value t' Ec Eh). split; [reflexivity|]. split; reflexivity.
  - rewrite (userinfo_fails token t e t' Ec). split; [reflexivity|]. split; reflexivity.
Qed.

(** The session after a token login, for every answer to the userinfo request.  Any hash
    authenticates the session with the presented token: the result field, which says whether the
    server accepted the token, is not read.  Only a failed or malformed exchange ends in
    [AuthFailed], and then nothing of an earlier session is left. *)
Theorem token_login_spec token (w : SessionWorld T) :
  let '(r, w') := login_with_token context token w in
  match call (mkUserInfoRequest token context) (rest w) with
  | (Ok value, _) =>
      match as_hash value with
      | Some hash =>
          let user := get_number hash (chars "userid") in
          r = Ok (EventLoginSucceeded user) /\
          session w' = mkManager
            (mkSnapshot Authenticated user (Some token) (get_string hash (chars "email")) None None)
            (lifecycle (session w))
      | None => state (snapshot (session w')) = AuthFailed /\ auth_token (snapshot (session w')) = None /\
          r = Err (FlowProtocol (Malformed "userinfo response was not a hash"))
      end
  | (Err e, _) => state (snapshot (session w')) = AuthFailed /\ auth_token (snapshot (session w')) = None /\
      r = Err (FlowProtocol e)
  end.
Proof. apply login_with_token_result. Qed.
End TokenLogin.
