(* ===== verification/AuthInvariant.v ===== *)
(** The invariant of the session state machine under every flow, and where its token comes from.

    [session_ok] says what each state of the session holds, and that nothing of an account (user, email,
    timers) outlives its token; [sourced known] that the token is
    one of [known].  Every method of the manager, every flow of the orchestrator and a tick of
    the refresh loop keep both, whatever the transport answers, when [known] contains the token
    the caller presents and those the server sends. *)
From S2P Require Import Prelude Paths Clock Bytes BinaryApi Response StateError AuthApi Auth AuthFlow.

(** What a session knows of an account, next to its token. *)
Definition has_account (m : SessionManager) : Prop :=
  authenticated_user (snapshot m) <> None \/ email (snapshot m) <> None \/ lifecycle m <> None.

(** What the fields of a session hold in each state.  A login that has begun keeps the token of the
    session before it until it ends, so the token and the challenge of a login under way are free;
    whatever is known of an account comes with a token, in every state. *)
Definition session_ok (m : SessionManager) : Prop :=
  let s := snapshot m in
  (has_account m -> auth_token s <> None) /\
  match state s with
  | LoggedOut | AuthFailed =>
      authenticated_user s = None /\ auth_token s = None /\ email s = None /\
      pending_challenge s = None /\ lifecycle m = None
  | Authenticated => auth_token s <> None /\ pending_challenge s = None
  | AuthenticatingWithToken => pending_challenge s = None
  | TwoFactorRequired => pending_challenge s <> None
  | AwaitingCredentials | AuthenticatingWithPassword => True
  end.

Definition sourced (known : SecretString -> Prop) (m : SessionManager) : Prop :=
  forall token, auth_token (snapshot m) = Some token -> known token.

(** [w -> w'] keeps a property of the session. *)
Definition keeps (P : SessionManager -> Prop) (m m' : SessionManager) : Prop := P m -> P m'.

#[export] Instance keeps_preorder P : PreOrder (keeps P).
Proof. split; [by intros m H|]. intros m1 m2 m3 H1 H2 H. apply H2, H1, H. Qed.

(** The same of the session in a world. *)
Definition keeps_world {T} (P : SessionManager -> Prop) (w w' : SessionWorld T) : Prop :=
  keeps P (session w) (session w').

#[export] Instance keeps_world_preorder {T} P : PreOrder (@keeps_world T P).
Proof. split; [by intros w H|]. intros w1 w2 w3 H1 H2 H. apply H2, H1, H. Qed.

(** * The methods of the manager *)

Section Manager.
Variable known : SecretString -> Prop.

Definition inv (m : SessionManager) : Prop := session_ok m /\ sourced known m.

Lemma inv_new : inv SessionManager_new.
Proof. split; [|by intros token]. split; [|done]. by intros [?|[?|?]]. Qed.

Lemma inv_revoke m : inv (revoke m).2.
Proof. apply inv_new. Qed.

(** A token the command carries must be known. *)
Definition command_known (c : AuthCommand) : Prop :=
  match c with MarkAuthenticated _ token => known token | _ => True end.

Ltac open_session := unfold inv, session_ok, sourced, has_account in *; cbn in *.

Lemma inv_apply c m : command_known c -> inv m -> inv (apply c m).2.
Proof.
  intros Hc [[Ha Hok] Hs]. destruct m as [s lc].
  destruct c as [ | | | ? trust|uid token|message|message| ]; unfold apply, bind, modify, gets, ok, throw; open_session;
    try (split; [split; [exact Ha|done]|exact Hs]).
  - destruct (pending_challenge s) eqn:Ep; cbn; rewrite ?Ep; split; [by split|done|by split|done].
  - destruct (state s) eqn:Es; cbn; rewrite ?Es;
      first [by split|split; [by split|by intros ? [= <-]]].
  - split; [split; [tauto|done]|done].
  - split; [split; [tauto|done]|done].
Qed.

Lemma inv_issue token trust m : inv m -> inv (issue_two_factor_challenge token trust m).2.
Proof. intros [[Ha Hok] Hs]. by repeat split. Qed.

Lemma inv_attach now p retained m :
  state (snapshot m) = Authenticated -> inv m -> inv (attach_lifecycle now p retained m).
Proof. intros Hst [[Ha Hok] Hs]. open_session. rewrite Hst in *. by split; [split; [intros _; apply Hok|]|]. Qed.

Lemma inv_record_refresh now p token m : known token -> inv m -> inv (record_refresh now p token m).2.
Proof.
  intros Hk Hi. unfold record_refresh. cbn. destruct (decide _) as [Hst|]; [|done].
  destruct Hi as [[Ha Hok] Hs]. open_session. rewrite Hst in *. repeat split; [done..|apply Hok|by intros ? [= <-]].
Qed.

Lemma inv_update_userinfo user mail m : inv m -> inv (update_userinfo user mail m).2.
Proof.
  intros Hi. unfold update_userinfo. cbn. destruct (state (snapshot m)) eqn:Hst; try done.
  destruct Hi as [[Ha Hok] Hs]. open_session. rewrite Hst in *. by split; [split; [intros _; apply Hok|]|].
Qed.

Lemma inv_replace_auth_token token m : known token -> inv m -> inv (replace_auth_token token m).2.
Proof.
  intros Hk Hi. unfold replace_auth_token. cbn. destruct (state (snapshot m)) eqn:Hst; try done.
  destruct Hi as [[Ha Hok] Hs]. open_session. rewrite Hst in *. repeat split; [done..|apply Hok|by intros ? [= <-]].
Qed.
End Manager.

(** * The flows *)

Section Flows.
Context {T TE : Type} `{PT : !ProtocolTransport T TE} `{SH : !Sha1} (context : AuthRequestContext).
Variable known : SecretString -> Prop.

(** Every token the server sends is known. *)
Hypothesis server_tokens : forall request t value t' hash token,
  execute request t = (Ok value, t') -> as_hash value = Some hash ->
  get_string hash (chars "auth") = Some token -> known token.

Abbreviation inv := (inv known).
Abbreviation kept := (keeps_world (T := T) inv).

(** What a call of the API may return. *)
Definition outcome_known (o : PasswordLoginOutcome) : Prop :=
  match o with OutcomeAuthenticated token _ _ => known token | _ => True end.

Lemma call_hash {R} `{!ProtocolMethod R} (request : R) t value t' hash token :
  call request t = (Ok value, t') -> as_hash value = Some hash ->
  get_string hash (chars "auth") = Some token -> known token.
Proof.
  unfold call, bind, lift, map_err. destruct (encode request); [|done].
  destruct (execute _ t) as [[v|e] t1] eqn:E; [|done]. intros [= <- <-]. by eapply server_tokens.
Qed.

Lemma parse_login_known {R} `{!ProtocolMethod R} (request : R) t value t' o :
  call request t = (Ok value, t') -> parse_login_outcome (TE := TE) value = Ok o -> outcome_known o.
Proof.
  intros Hc. unfold parse_login_outcome. destruct (as_hash value) as [hash|] eqn:Eh; [|done]. cbn [ok_or result_bind].
  case_decide.
  - destruct (get_string hash (chars "auth")) as [token|] eqn:Et; [|done]. intros [= <-]. exact (call_hash _ _ _ _ _ _ Hc Eh Et).
  - destruct (match get_string hash (chars "token") with Some _ => _ | None => _ end); [by intros [= <-]|].
    case_decide; by intros [= <-].
Qed.

(** A call that ends by reading a login outcome. *)
Definition yields {A} (m : ST T (AuthApiError TE) A) (P : A -> Prop) : Prop :=
  forall t, wp m (λ r _, match r with Ok a => P a | Err _ => True end) t.

Lemma yields_outcome {R} `{!ProtocolMethod R} (request : R) :
  yields (let! response := call request in
          let! outcome := lift (parse_login_outcome response) in
          do! apply_api_server_hint (login_outcome_api_server_hint outcome) in
          ok outcome) outcome_known.
Proof.
  intros t. unfold wp, bind, lift. destruct (call request t) as [[value|e] t'] eqn:E; [|done].
  destruct (parse_login_outcome value) as [o|e] eqn:Eo; [|done].
  pose proof (parse_login_known _ _ _ _ _ E Eo) as Hk.
  destruct (apply_api_server_hint _ t') as [[?|?] ?]; done.
Qed.

Lemma yields_bind {A B} (m : ST T (AuthApiError TE) A) (f : A -> ST T (AuthApiError TE) B) P :
  (forall a, yields (f a) P) -> yields (bind m f) P.
Proof. intros Hf t. unfold wp, bind. destruct (m t) as [[a|e] t']; [apply Hf|done]. Qed.

Lemma yields_login username password code :
  yields (login_password_with_code context username password code) outcome_known.
Proof. apply yields_bind. intros challenge. apply yields_outcome. Qed.

Lemma yields_two_factor token code trust recovery :
  yields (submit_two_factor_code context token code trust recovery) outcome_known.
Proof. apply yields_outcome. Qed.

Lemma yields_refresh current t :
  wp (refresh_auth_token context current)
    (λ r _, match r with Ok token => known token /\ token <> [] | Err _ => True end) t.
Proof.
  unfold refresh_auth_token, wp, bind, map_err, lift.
  match goal with |- context [call ?r t] => destruct (call r t) as [[value|e] t'] eqn:E end; [|done].
  destruct (as_hash value) as [hash|] eqn:Eh; [|done]. cbn [ok_or].
  case_decide; [by destruct (is_auth_expired_result _)|].
  destruct (apply_api_server_hint _ t') as [[?|?] t2]; [|done].
  destruct (get_string hash (chars "auth")) as [token|] eqn:Et; [|done]. cbn [ok_or].
  case_decide; [done|]. split; [|done]. exact (call_hash _ _ _ _ _ _ E Eh Et).
Qed.

(** A method of the session that keeps the invariant, inside a world. *)
Lemma kept_session {E A} (m : ST SessionManager E A) :
  respects (keeps inv) m -> respects (E := E) kept (zoom session set_session m).
Proof.
  intros Hm w. specialize (Hm (session w)). unfold zoom. destruct (m (session w)) as [r m']. exact Hm.
Qed.

Lemma kept_command (c : AuthCommand) : command_known known c -> respects (keeps inv) (apply c).
Proof. intros Hc m Hm. by apply inv_apply. Qed.

Lemma kept_on_session {A} (m : SM A) :
  respects (keeps inv) m -> respects kept (on_session (T := T) (TE := TE) m).
Proof. intros Hm. apply respects_map_err. by apply kept_session. Qed.

Lemma kept_on_api {E A} (m : ST T E A) : respects kept (on_api m).
Proof. intros w Hw. unfold on_api, zoom. by destruct (m (rest w)). Qed.

Lemma kept_api {A} (m : ST T (AuthApiError TE) A) : respects kept (api m).
Proof. apply respects_map_err, kept_on_api. Qed.

Lemma kept_issue token trust : respects kept (issue_challenge (T := T) (TE := TE) token trust).
Proof. intros w Hw. exact (inv_issue known token trust (session w) Hw). Qed.

Lemma kept_revoke : respects (E := RefreshTokenError TE) kept (modify (λ w, set_session (revoke (session w)).2 w)).
Proof. apply respects_modify. intros w _. apply inv_revoke. Qed.

(** A call that marks the session failed: it keeps the invariant, and its result is that of [m]. *)
Lemma wp_api_or_fail {A} (m : ST T (AuthApiError TE) A) (P : A -> Prop) (w : SessionWorld T) :
  inv (session w) -> yields m P ->
  wp (api_or_fail m) (λ r w', inv (session w') /\ match r with Ok a => P a | Err _ => True end) w.
Proof.
  intros Hi Hm. specialize (Hm (rest w)). unfold wp, api_or_fail, bind, attempt, on_api, zoom in *.
  destruct (m (rest w)) as [[a|e] t']; [by split|]. split; [|done].
  exact (inv_apply known (MarkAuthenticationFailed (Some (display_api_error e))) (session w) I Hi).
Qed.

Lemma yields_any {A} (m : ST T (AuthApiError TE) A) : yields m (λ _, True).
Proof. intros t. unfold wp. by destruct (m t) as [[a|e] t']. Qed.

(** From now on the postcondition of every step is that the invariant holds. *)
Abbreviation inv_after := (λ _ w', inv (session w')).

Lemma wp_respects {E A} (m : ST (SessionWorld T) E A) w :
  respects kept m -> inv (session w) -> wp m inv_after w.
Proof. intros Hm Hi. apply wp_run. exact (Hm w Hi). Qed.

Lemma wp_inv_bind {E A B} (m : ST (SessionWorld T) E A) (f : A -> ST (SessionWorld T) E B) w :
  wp m inv_after w -> (forall a w', inv (session w') -> wp (f a) inv_after w') -> wp (bind m f) inv_after w.
Proof.
  intros Hm Hf. apply wp_bind. eapply wp_mono; [apply Hm|]. intros [a|e] w' H; [by apply Hf|done].
Qed.

Lemma wp_on_session {A} (m : SM A) w :
  respects (keeps inv) m -> inv (session w) -> wp (on_session (T := T) (TE := TE) m) inv_after w.
Proof. intros Hm. apply wp_respects. by apply kept_on_session. Qed.

Lemma kept_update user mail : respects (keeps inv) (update_userinfo user mail).
Proof. intros m Hm. by apply inv_update_userinfo. Qed.

Lemma finish_login_inv token uid w :
  known token -> inv (session w) -> wp (finish_login context token uid) inv_after w.
Proof.
  intros Hk Hi. apply wp_inv_bind; [by apply wp_respects, Hi; apply kept_api|]. intros info w1 H1.
  apply wp_inv_bind; [by apply wp_on_session; [apply kept_command|]|]. intros event w2 H2.
  apply wp_inv_bind; [by apply wp_on_session; [apply kept_update|]|]. done.
Qed.

(** What all the logins do with the outcome of their call. *)
Lemma outcome_inv o w (rejected : option (list byte) -> AuthCommand) :
  (forall message, command_known known (rejected message)) ->
  outcome_known o -> inv (session w) ->
  wp (match o with
      | OutcomeAuthenticated token uid _ => finish_login context token uid
      | OutcomeTwoFactorRequired challenge trust _ => issue_challenge challenge trust
      | OutcomeFailed _ message _ => on_session (apply (rejected message))
      end) inv_after w.
Proof.
  intros Hr Ho Hi. destruct o as [token uid ?|challenge trust ?|? message ?].
  - by apply finish_login_inv.
  - apply wp_respects; [apply kept_issue|done].
  - apply wp_on_session; [by apply kept_command|done].
Qed.

Lemma api_then_outcome_inv m w (rejected : option (list byte) -> AuthCommand) :
  (forall message, command_known known (rejected message)) ->
  yields m outcome_known -> inv (session w) ->
  wp (let! outcome := api_or_fail m in
      match outcome with
      | OutcomeAuthenticated token uid _ => finish_login context token uid
      | OutcomeTwoFactorRequired challenge trust _ => issue_challenge challenge trust
      | OutcomeFailed _ message _ => on_session (apply (rejected message))
      end) inv_after w.
Proof.
  intros Hr Hm Hi. apply wp_bind. eapply wp_mono; [by apply wp_api_or_fail|].
  intros [o|e] w' [H1 H2]; [by apply outcome_inv|done].
Qed.

Lemma login_with_password_inv username password w :
  inv (session w) -> wp (login_with_password context username password) inv_after w.
Proof.
  intros Hi. apply wp_inv_bind; [by apply wp_on_session; [apply kept_command|]|].
  intros _ w1 H1. apply (api_then_outcome_inv _ w1 MarkAuthenticationFailed); [done|apply yields_login|done].
Qed.

Lemma submit_with_password_inv username password code w :
  inv (session w) -> wp (submit_two_factor_code_with_password context username password code) inv_after w.
Proof.
  intros Hi. apply wp_inv_bind; [by apply wp_on_session; [apply kept_command|]|].
  intros _ w1 H1. apply (api_then_outcome_inv _ w1 MarkAuthenticationFailed); [done|apply yields_login|done].
Qed.

Lemma submit_two_factor_inv code trust recovery w :
  inv (session w) -> wp (flow_submit_two_factor_code context code trust recovery) inv_after w.
Proof.
  intros Hi. apply wp_inv_bind; [done|]. intros w0 w1 H1.
  apply wp_inv_bind; [apply wp_lift; exact H1|]. intros challenge w2 H2.
  apply wp_inv_bind; [by apply wp_on_session; [apply kept_command|]|].
  intros _ w3 H3. apply (api_then_outcome_inv _ w3 MarkTwoFactorCodeInvalid); [done|apply yields_two_factor|done].
Qed.

Lemma login_with_token_inv token w :
  known token -> inv (session w) -> wp (login_with_token context token) inv_after w.
Proof.
  intros Hk Hi. apply wp_inv_bind; [by apply wp_on_session; [apply kept_command|]|]. intros _ w1 H1.
  apply wp_inv_bind.
  { eapply wp_mono; [apply (wp_api_or_fail _ (λ _, True)); [exact H1|apply yields_any]|]. by intros r w' [? _]. }
  intros info w2 H2. apply wp_inv_bind; [by apply wp_on_session; [apply kept_command|]|]. intros event w3 H3.
  apply wp_inv_bind; [by apply wp_on_session; [apply kept_update|]|]. done.
Qed.

Lemma refresh_token_inv current w :
  inv (session w) -> wp (refresh_token context current) inv_after w.
Proof.
  intros Hi. unfold refresh_token, wp, bind, gets, attempt, on_api, zoom, id.
  case_decide; [done|]. pose proof (yields_refresh current (rest w)) as Hy. unfold wp in Hy.
  destruct (refresh_auth_token context current (rest w)) as [[token|e] t']; cbn [set_rest session].
  - destruct Hy as [Hk _]. unfold map_err. cbn [session set_rest].
    pose proof (inv_replace_auth_token known token (session w) Hk Hi) as H1.
    destruct (replace_auth_token token (session w)) as [[[]|e] m']; exact H1.
  - destruct e; cbn; try done. apply inv_new.
Qed.

Lemma refresh_arm_inv policy now' w :
  inv (session w) -> wp (refresh_arm context policy now') inv_after w.
Proof.
  intros Hi. apply wp_inv_bind; [done|]. intros w0 w1 H1.
  destruct (auth_token (snapshot (session w0))); [|done].
  apply wp_inv_bind; [apply wp_attempt; by apply refresh_token_inv|].
  intros [event|e] w2 H2; [|by destruct e].
  destruct event; try done. apply wp_bind, wp_gets. unfold id.
  apply wp_inv_bind; [|done].
  destruct (auth_token (snapshot (session w2))) as [token|] eqn:Et; [|done].
  apply wp_inv_bind; [|done]. apply wp_attempt, wp_respects; [|done]. apply kept_session.
  intros m Hm. apply inv_record_refresh; [|done]. by apply H2.
Qed.

(** A tick of the refresh loop. *)
Lemma under_ticket_inv {E A} (m : ST (SessionWorld T) E A) w :
  (forall w, inv (session w) -> wp m inv_after w) -> inv (session w) -> wp (under_ticket m) inv_after w.
Proof.
  intros Hm Hi. unfold under_ticket, wp. destruct (in_flight w); cbn; [done|].
  specialize (Hm (set_in_flight true w) Hi). unfold wp in Hm. by destruct (m (set_in_flight true w)) as [[?|?] ?].
Qed.

Lemma tick_inv policy now now' w :
  inv (session w) -> wp (tick context policy now now') inv_after w.
Proof.
  intros Hi. apply wp_bind, wp_gets. unfold id.
  destruct (evaluate policy now (session w)); try done; try exact (inv_new known).
  - destruct (in_flight w); [done|]. apply wp_inv_bind; [|done].
    apply under_ticket_inv; [|done]. intros w1 H1. by apply refresh_arm_inv.
Qed.
End Flows.
