(* ===== verification/AuthTimers.v ===== *)
(** What a refresh of the token does to the session, and what the timers do over a run of ticks.

    [refresh_token_spec] is the documented table of outcomes.  [session_stays_alive] is about any
    run of ticks that is dense enough; the examples are concrete runs. *)
From S2P Require Import Prelude Paths Clock Ieee Bytes BinaryApi Response StateError AuthApi Auth AuthFlow.

Section Timers.
Context {T TE : Type} `{PT : !ProtocolTransport T TE} `{SH : !Sha1} (context : AuthRequestContext).

Abbreviation World := (SessionWorld T).

(** [refresh_auth_token] returns a token that is not empty. *)
Lemma refreshed_token_nonempty current t token t' :
  refresh_auth_token context current t = (Ok token, t') -> token <> [].
Proof.
  unfold refresh_auth_token, bind, map_err, lift.
  match goal with |- context [call ?r t] => destruct (call r t) as [[value|e] t1] end; [|done].
  destruct (as_hash value) as [hash|]; [|done]. cbn [ok_or].
  case_decide; [by destruct (is_auth_expired_result _)|].
  destruct (apply_api_server_hint _ t1) as [[?|?] t2]; [|done].
  destruct (get_string hash (chars "auth")); [|done]. cbn [ok_or].
  case_decide; [done|]. by intros [= <- _].
Qed.

Lemma replace_authenticated token (m : SessionManager) :
  state (snapshot m) = Authenticated ->
  replace_auth_token token m = (Ok tt, set_snapshot (with_token token) m).
Proof. intros H. unfold replace_auth_token, bind, gets, id. by rewrite H. Qed.

(** The table in the documentation of [RefreshTokenError], for any answer of the server: the
    session changes only on success, when the new token, never empty, is all that changes, and on
    a server-classified expiry, when it is logged out with nothing kept; the session manager
    never rejects a token, and outside [Authenticated] nothing is sent. *)
Theorem refresh_token_spec current (w : World) :
  let '(r, w') := refresh_token context current w in
  in_flight w' = in_flight w /\
  match r with
  | Ok event =>
      state (snapshot (session w)) = Authenticated /\
      event = EventTokenRefreshed (authenticated_user (snapshot (session w))) /\
      exists token, token <> [] /\ session w' = set_snapshot (with_token token) (session w)
  | Err NotAuthenticated => state (snapshot (session w)) <> Authenticated /\ w' = w
  | Err (TokenAuthExpired result) =>
      result ∈ AUTH_EXPIRED_RESULTS /\ session w' = SessionManager_new
  | Err (TemporaryFailure _) | Err MissingAuthField => session w' = session w
  | Err (RefreshSession _) | Err (RefreshProtocol _) => False
  end.
Proof.
  unfold refresh_token, bind, gets, attempt, on_api, zoom, id.
  case_decide as Hst; [done|].
  destruct (refresh_auth_token context current (rest w)) as [[token|e] t'] eqn:E.
  - unfold map_err. cbn [session set_rest]. rewrite replace_authenticated by done. cbn.
    split; [done|]. split; [done|]. split; [done|]. exists token.
    split; [by eapply refreshed_token_nonempty|done].
  - destruct e as [result|inner|]; [|by split|by split]. split; [reflexivity|]. split; [|reflexivity].
    revert E. unfold refresh_auth_token, bind, map_err, lift.
    match goal with |- context [call ?r ?t] => destruct (call r t) as [[value|e] t1] end; [|done].
    destruct (as_hash value) as [hash|]; [|done]. cbn [ok_or].
    case_decide; [|destruct (apply_api_server_hint _ t1) as [[?|?] t2]; [|done]].
    + destruct (is_auth_expired_result (result_of hash)) eqn:Ex; [|done]. intros [= <- _].
      unfold is_auth_expired_result in Ex. by apply bool_decide_eq_true in Ex.
    + destruct (get_string hash (chars "auth")); [|done]. cbn [ok_or]. by case_decide.
Qed.

(** * Runs of ticks *)

Fixpoint run_ticks (policy : RefreshPolicy) (times : list (N * N)) (w : World)
    : list (result TickOutcome RefreshLoopError) * World :=
  match times with
  | [] => ([], w)
  | (now, now') :: times =>
      let '(r, w) := tick context policy now now' w in
      let '(rs, w) := run_ticks policy times w in (r :: rs, w)
  end.

(** The clock does not go backwards and the ticks start at most [gap] seconds apart; the preceding
    tick started at [started] and ended at [ended]. *)
Fixpoint dense (gap started ended : N) (times : list (N * N)) : Prop :=
  match times with
  | [] => True
  | (now, now') :: times =>
      (ended <= now <= started + gap)%N /\ (now <= now')%N /\ dense gap now now' times
  end.

(** A session established, and last used, at [e], with a token the server still honours. *)
Definition established (good : SecretString -> Prop) (policy : RefreshPolicy) (e : N) (w : World) : Prop :=
  in_flight w = false /\ state (snapshot (session w)) = Authenticated /\
  (exists token, auth_token (snapshot (session w)) = Some token /\ good token) /\
  exists retained, lifecycle (session w) = Some (SessionLifecycle_new e policy retained).

Definition idle_allows (policy : RefreshPolicy) (age : N) : Prop :=
  match max_idle policy with Some max => (age < as_secs max)%N | None => True end.

(** What a tick decides on such a session. *)
Lemma evaluate_established good policy e w now :
  established good policy e w -> (e + as_secs (lifetime policy) <= U64_MAX)%N ->
  (refresh_after_secs policy <= as_secs (lifetime policy))%N ->
  (e <= now < e + as_secs (lifetime policy))%N -> idle_allows policy (now - e) ->
  evaluate policy now (session w) =
  if decide (e + refresh_after_secs policy <= now)%N then DecideRefresh else DecideOk.
Proof.
  intros (_ & _ & _ & retained & E) Hmax Hra Hnow Hidle. unfold evaluate. rewrite E.
  unfold is_expired, is_idle_expired, should_refresh, SessionLifecycle_new.
  cbn [expires_at established_at last_used_at]. unfold u64_saturating_add.
  rewrite !N.min_l by lia. rewrite bool_decide_eq_false_2 by lia.
  unfold idle_allows in Hidle. destruct (max_idle policy) as [max|].
  - rewrite bool_decide_eq_false_2 by lia. case_decide; [by rewrite bool_decide_eq_true_2|by rewrite bool_decide_eq_false_2].
  - case_decide; [by rewrite bool_decide_eq_true_2|by rewrite bool_decide_eq_false_2].
Qed.

(** The server grants a refresh of every good token, by a good token. *)
Definition grants_refreshes (good : SecretString -> Prop) : Prop :=
  forall current t, good current ->
    exists token t', refresh_auth_token context current t = (Ok token, t') /\ good token.

Lemma refresh_arm_established good policy e w now' :
  grants_refreshes good -> established good policy e (set_in_flight false w) ->
  exists w', refresh_arm context policy now' w = (Ok TickRefreshed, w') /\
    established good policy now' (set_in_flight false w').
Proof.
  intros Hserver (Hf & Hst & (current & Et & Hgood) & retained & Hlc).
  destruct w as [m fl t]. cbn [session in_flight set_in_flight] in *.
  destruct (Hserver current t Hgood) as (token & t' & Er & Hgood').
  unfold refresh_arm, refresh_token, bind, gets, attempt, on_api, zoom, id. cbn [session rest in_flight].
  rewrite Et. cbn [session]. rewrite decide_False by (intros Hne; by apply Hne). cbn [rest]. rewrite Er.
  unfold map_err. cbn [session set_rest]. rewrite replace_authenticated by done. cbn.
  unfold record_refresh, bind, gets, id. cbn. rewrite decide_True by done. cbn. rewrite Hlc.
  eexists. split; [reflexivity|]. split; [done|]. split; [done|]. split; [exists token; split; [reflexivity|exact Hgood']|].
  exists retained. reflexivity.
Qed.

Lemma tick_established good policy e w now now' :
  grants_refreshes good -> established good policy e w -> (e + as_secs (lifetime policy) <= U64_MAX)%N ->
  (refresh_after_secs policy <= as_secs (lifetime policy))%N ->
  (e <= now < e + as_secs (lifetime policy))%N -> idle_allows policy (now - e) ->
  exists r e' w', tick context policy now now' w = (Ok r, w') /\ established good policy e' w' /\
    if decide (e + refresh_after_secs policy <= now)%N then r = TickRefreshed /\ e' = now'
    else r = TickOk /\ e' = e.
Proof.
  intros Hserver He Hmax Hra Hnow Hidle. unfold tick, bind at 1, gets, id.
  rewrite (evaluate_established good policy e) by done. case_decide; [|by eauto 10].
  destruct He as (Hf & Hrest). rewrite Hf.
  destruct (refresh_arm_established good policy e (set_in_flight true w) now' Hserver) as (w' & E & He').
  { split; [done|exact Hrest]. }
  unfold bind, under_ticket. rewrite Hf. cbn [try_begin]. rewrite E.
  exists TickRefreshed, now', (set_in_flight false w'). done.
Qed.

(** C27: Whatever the times of the ticks, as long as the server grants the refreshes and the longest
    time between two ticks fits between the moment a refresh falls due and the end of the
    lifetime (and the idle limit, if any): every tick finds the session healthy or refreshes it,
    and it is still authenticated after the last.  No use of the session takes part in this: a
    session nobody uses is never logged out as idle. *)
Theorem session_stays_alive good policy gap times e w
  (Hserver : grants_refreshes good)
  (Hgap : (refresh_after_secs policy + gap < as_secs (lifetime policy))%N)
  (Hidle : idle_allows policy (refresh_after_secs policy + gap))
  (Hclock : Forall (λ t, (t.2 + as_secs (lifetime policy) <= U64_MAX)%N) ((e, e) :: times))
  (Hdense : dense gap e e times)
  (Hestablished : established good policy e w) :
  let '(outcomes, w') := run_ticks policy times w in
  Forall (λ r, r = Ok TickOk \/ r = Ok TickRefreshed) outcomes /\
  state (snapshot (session w')) = Authenticated /\
  exists e', established good policy e' w' /\
    match last times with Some (now, _) => (now < e' + as_secs (lifetime policy))%N | None => True end.
Proof.
  apply Forall_cons in Hclock as [He Hclock]. cbn in He.
  assert (exists started ended, dense gap started ended times /\ (e <= ended)%N /\
    (started <= e + refresh_after_secs policy)%N) as (started & ended & Hd & Hs1 & Hs2).
  { exists e, e. split; [done|lia]. }
  clear Hdense. revert e w started ended He Hd Hs1 Hs2 Hestablished.
  induction times as [|[now now'] times IH]; intros e w started ended He Hd Hs1 Hs2 Hw.
  { cbn. split; [constructor|]. split; [apply Hw|]. eauto. }
  cbn in Hd. destruct Hd as (Hnow & Hnow' & Hd). apply Forall_cons in Hclock as [Hc Hclock]. cbn in Hc.
  destruct (tick_established good policy e w now now') as (r & e' & w1 & E & Hw1 & Hr);
    [done|done|done|lia|lia|unfold idle_allows in *; destruct (max_idle policy); [lia|done]|].
  cbn [run_ticks]. rewrite E.
  assert ((e' + as_secs (lifetime policy) <= U64_MAX)%N /\ (e' <= now')%N /\
    (now <= e' + refresh_after_secs policy)%N /\ (r = TickOk \/ r = TickRefreshed)) as (H1 & H2 & H3 & H4).
  { case_decide; destruct Hr as [-> ->]; repeat split; try lia; auto. }
  specialize (IH Hclock e' w1 now now' H1 Hd H2 H3 Hw1).
  destruct times as [|t times].
  { cbn in *. split; [by constructor; [destruct H4; subst; auto|]|]. split; [apply Hw1|].
    exists e'. split; [done|lia]. }
  destruct (run_ticks policy (t :: times) w1) as [rs w2]. destruct IH as (IH1 & IH2 & e2 & IH3 & IH4).
  split; [constructor; [destruct H4; subst; auto|done]|]. split; [done|]. by exists e2.
Qed.

(** When the idle limit does not lie after the refresh, the session is logged out as idle that
    many seconds after it was established or refreshed: nothing records its use. *)
Lemma idle_logout_ignores_use good policy e w now now' max :
  established good policy e w -> (e + as_secs (lifetime policy) <= U64_MAX)%N ->
  max_idle policy = Some max -> (as_secs max <= now - e)%N ->
  (now < e + as_secs (lifetime policy))%N ->
  let '(r, w') := tick context policy now now' w in
  session w' = SessionManager_new /\ exists details, r = Ok (TickIdleLogout details).
Proof.
  intros (_ & _ & _ & retained & E) Hc Hmax H1 H2. unfold tick, bind at 1, gets, id, evaluate. rewrite E.
  unfold is_expired, is_idle_expired, SessionLifecycle_new. cbn [expires_at last_used_at].
  unfold u64_saturating_add. rewrite N.min_l by lia. rewrite bool_decide_eq_false_2 by lia.
  rewrite Hmax, bool_decide_eq_true_2 by lia. cbn. eauto.
Qed.
End Timers.

(** * Concrete runs *)

(** A server that grants every request. *)
Definition granted : Value := VHash [(chars "result", VNumber 0); (chars "auth", VString (chars "fresh"))].

#[local] Instance granting_transport : ProtocolTransport unit unit := {|
  execute _ := ok granted;
  consume_api_server_hint _ t := t;
  display_transport_error _ := [];
|}.

#[local] Instance no_sha1 : Sha1 := λ _, [].

Definition bare_context : AuthRequestContext := mkContext [] [] [] [] [] 7 true true true true.

Definition session_of (token : SecretString) (lc : option SessionLifecycle) : SessionManager :=
  mkManager (mkSnapshot Authenticated (Some 42%N) (Some token) None None None) lc.

Definition hourly : RefreshPolicy := Eval vm_compute in policy_from_config (mkAuthPolicy 300 600).

Definition fresh_session : SessionWorld unit :=
  mkWorld (session_of (chars "fresh") (Some (SessionLifecycle_new 1000 hourly false))) false tt.

(** Ticks every ten minutes: the fifth one refreshes the token. *)
Definition ten_minutes : list (N * N) :=
  [(1600, 1600); (2200, 2200); (2800, 2800); (3400, 3400); (4000, 4003); (4600, 4600)]%N.

Lemma session_stays_alive_witness :
  let '(outcomes, w') := run_ticks (PT := granting_transport) bare_context hourly ten_minutes fresh_session in
  outcomes = [Ok TickOk; Ok TickOk; Ok TickOk; Ok TickOk; Ok TickRefreshed; Ok TickOk] /\
  state (snapshot (session w')) = Authenticated.
Proof.
  pose proof (session_stays_alive (PT := granting_transport) bare_context (λ token, token = chars "fresh")
    hourly 600 ten_minutes 1000 fresh_session) as H.
  destruct (run_ticks bare_context hourly ten_minutes fresh_session) as [outcomes w'] eqn:E.
  split; [revert E; vm_compute; by intros [= <- _]|].
  apply H.
  - intros current [] ->. exists (chars "fresh"), tt. split; [vm_compute; reflexivity|reflexivity].
  - vm_compute. reflexivity.
  - exact I.
  - repeat constructor; vm_compute; discriminate.
  - vm_compute. repeat split; discriminate.
  - split; [reflexivity|]. split; [reflexivity|]. split; [exists (chars "fresh"); split; reflexivity|]. exists false. reflexivity.
Defined.

(** A margin of the whole lifetime makes every tick refresh, also two ticks at the same second. *)
Example excessive_margin_refreshes_at_once :
  let eager := policy_from_config (mkAuthPolicy 300 3600) in
  (run_ticks bare_context eager [(1000, 1000); (1000, 1000); (1000, 1000)]%N
    (mkWorld (session_of (chars "fresh") (Some (SessionLifecycle_new 1000 eager false))) false tt)).1 =
  [Ok TickRefreshed; Ok TickRefreshed; Ok TickRefreshed].
Proof. vm_compute. reflexivity. Qed.

(** The timers of an earlier session run on during a new login: here they log out the session
    while it waits for the second factor of the new login. *)
Example old_timers_end_a_new_login :
  let pending := mkManager (mkSnapshot TwoFactorRequired (Some 42%N) (Some (chars "old")) None
    (Some (mkChallenge (chars "challenge") false)) None) (Some (SessionLifecycle_new 1000 hourly false)) in
  let '(r, w') := tick bare_context hourly 4700 4700 (mkWorld pending false tt) in
  r = Ok TickExpired /\ session w' = SessionManager_new.
Proof. vm_compute. split; reflexivity. Qed.
