(* ===== verification/Vault.v ===== *)
(** The vault of the durable auth token: crates/pcloud-daemon/src/vault/{mod,file}.rs and
    auth_vault.rs, as built for Unix.

    The disk has the vault file and its temporary sibling; every system call takes the next
    outcome of a list, so that any of them may fail (a failed write leaves a prefix).  A failure
    also stands for the daemon being killed at that point, since nothing is cleaned up then. *)
From S2P Require Import Prelude Paths Bytes StateError Auth.

(** * The trait *)

Inductive AuthVaultError : Type :=
| VaultIo (what : string)
| InsecureMetadata (what : string).

Record PlatformVault (D : Type) : Type := mkVault {
  vault_load : ST D AuthVaultError (option SecretString);
  vault_store : SecretString -> ST D AuthVaultError unit;
  vault_clear : ST D AuthVaultError unit;
  backend_name : string;
}.
Arguments mkVault {D} vault_load vault_store vault_clear backend_name.
Arguments vault_load {D} p.
Arguments vault_store {D} p.
Arguments vault_clear {D} p.
Arguments backend_name {D} p.

(** What the trait's documentation asks of a backend, [held] being the token a disk holds: a call
    that succeeds has its effect, and one that fails leaves the token or has its effect. *)
Class VaultLaws {D} (v : PlatformVault D) (held : D -> option SecretString) (storable : SecretString -> Prop)
    : Prop := {
  load_law d : wp (vault_load v)
    (λ r d', held d' = held d /\ match r with Ok o => o = held d | Err _ => True end) d;
  store_law token d : storable token -> wp (vault_store v token)
    (λ r d', held d' = Some token \/ is_ok r = false /\ held d' = held d) d;
  clear_law d : wp (vault_clear v)
    (λ r d', held d' = None \/ is_ok r = false /\ held d' = held d) d;
}.

(** * The file vault *)

Record VaultFile : Type := mkVaultFile {
  vf_regular : bool;
  vf_uid : N;
  vf_mode : N;
  vf_bytes : list byte;
}.

(** The fate of a system call: [None] is success, [Some n] failure, for a write after [n] bytes. *)
Abbreviation fate := (option nat).

Record VaultDisk : Type := mkVaultDisk {
  vault_file : option VaultFile;
  tmp_file : option VaultFile;
  parent_mode : N;
  parent_uid : N;
  fates : list fate;
}.

Abbreviation VF := (ST VaultDisk AuthVaultError).

Definition set_vault_file f d := mkVaultDisk f (tmp_file d) (parent_mode d) (parent_uid d) (fates d).
Definition set_tmp_file f d := mkVaultDisk (vault_file d) f (parent_mode d) (parent_uid d) (fates d).
Definition set_parent_mode m d := mkVaultDisk (vault_file d) (tmp_file d) m (parent_uid d) (fates d).

(** The next system call: its fate. *)
Definition syscall : VF fate := λ d,
  (Ok (default None (head (fates d))),
   mkVaultDisk (vault_file d) (tmp_file d) (parent_mode d) (parent_uid d) (tail (fates d))).

(** A call that changes the disk when it succeeds, and fails with [?] otherwise. *)
Definition effect (what : string) (f : VaultDisk -> VaultDisk) : VF unit :=
  let! s := syscall in
  match s with None => modify f | Some _ => throw (VaultIo what) end.

Definition is_ascii_whitespace (b : byte) : bool :=
  let n := N_of_ascii b in bool_decide (n ∈ [32; 9; 10; 12; 13]%N).

(** [iter.position(p)] and [iter.rposition(p)]. *)
Fixpoint position {A} (p : A -> bool) (l : list A) : option nat :=
  match l with
  | [] => None
  | x :: l => if p x then Some 0 else S <$> position p l
  end.
Fixpoint rposition {A} (p : A -> bool) (l : list A) : option nat :=
  match l with
  | [] => None
  | x :: l => match rposition p l with Some i => Some (S i) | None => if p x then Some 0 else None end
  end.

(** The token in the bytes of the file. *)
Definition trimmed_token (buf : list byte) : result (option SecretString) AuthVaultError :=
  let start := default (length buf) (position (λ b, negb (is_ascii_whitespace b)) buf) in
  let stop := match rposition (λ b, negb (is_ascii_whitespace b)) buf with Some i => i + 1 | None => start end in
  if decide (stop <= start) then Ok None
  else
    let bytes := take (stop - start) (drop start buf) in
    if valid_utf8 bytes then Ok (Some bytes)
    else Err (InsecureMetadata "vault file must contain valid utf-8 token bytes").

Section FileVault.
(** The daemon's effective user. *)
Variable uid : N.

(** [Ok None] is the file not being found. *)
Definition validate_vault_file : VF (option unit) :=
  let! s := syscall in
  let! d := gets id in
  match s, vault_file d with
  | Some _, _ => throw (VaultIo "symlink_metadata")
  | None, None => ok None
  | None, Some f =>
      if negb (vf_regular f) then throw (InsecureMetadata "vault path must be a regular file")
      else if decide (vf_uid f <> uid) then throw (InsecureMetadata "vault file must be owned by the current user")
      else if decide (N.land (vf_mode f) 63 <> 0)%N
      then throw (InsecureMetadata "vault file must not grant group or other access")
      else
        let! s := syscall in
        match s with
        | None => do! modify (set_parent_mode 448) in ok (Some tt)
        | Some _ =>
            let! s := syscall in
            let! d := gets id in
            if match s with None => bool_decide (parent_uid d = uid) | Some _ => false end
            then throw (InsecureMetadata "vault parent directory chmod to 0700 failed on owner-matched path")
            else ok (Some tt)
        end
  end.

(** The part of [load_token] after the validation. *)
Definition read_vault_file : VF (option SecretString) :=
  let! s := syscall in
  let! d := gets id in
  match s, vault_file d with
  | Some _, _ => throw (VaultIo "open")
  | None, None => ok None
  | None, Some f =>
      let! s := syscall in
      match s with
      | Some _ => throw (VaultIo "read_to_end")
      | None => lift (trimmed_token (vf_bytes f))
      end
  end.

Definition load_token : VF (option SecretString) :=
  let! found := validate_vault_file in
  match found with
  | None => ok None
  | Some _ => read_vault_file
  end.

(** [umask] restricts the mode a new file is opened with. *)
Definition store_token (umask : N) (token : SecretString) : VF unit :=
  do! effect "create_dir_all" id in
  do! effect "set_permissions" (set_parent_mode 448) in
  do! effect "remove_file" (set_tmp_file None) in
  do! effect "open" (set_tmp_file (Some (mkVaultFile true uid (N.ldiff 384 umask) []))) in
  do! effect "set_permissions" (set_tmp_file (Some (mkVaultFile true uid 384 []))) in
  let! s := syscall in
  do! modify (set_tmp_file (Some (mkVaultFile true uid 384
        (match s with None => token | Some n => take n token end)))) in
  do! match s with None => ok tt | Some _ => throw (VaultIo "write_all") end in
  do! effect "sync_all" id in
  do! effect "rename" (λ d, set_tmp_file None (set_vault_file (tmp_file d) d)) in
  do! effect "set_permissions" (λ d, set_vault_file
        ((λ f, mkVaultFile (vf_regular f) (vf_uid f) 384 (vf_bytes f)) <$> vault_file d) d) in
  do! effect "open" id in
  effect "sync_all" id.

(** A file that is not found is no error. *)
Definition clear_token : VF unit := effect "remove_file" (set_vault_file None).

Definition FileVault (umask : N) : PlatformVault VaultDisk :=
  mkVault load_token (store_token umask) clear_token "file".
End FileVault.

(** * Choosing the backend *)

Inductive VaultBackend : Type := VaultAuto | VaultFileBackend | VaultKeychain | VaultDpapi | VaultSecretService.
Inductive HostFamily : Type := MacOs | Windows | Linux | Bsd | OtherUnix.

Record VaultSelection : Type := mkSelection {
  effective : VaultBackend;
  warning : bool;
}.

Definition UnsupportedOnPlatform : Type := string * HostFamily.

#[export] Instance HostFamily_eq_dec : EqDecision HostFamily.
Proof. solve_decision. Defined.

(** [target] is the family the binary is built for, [secret_service] whether a Secret Service
    answers on the session bus. *)
Definition select_vault_for (target : HostFamily) (secret_service : bool) (requested : VaultBackend) (host : HostFamily)
    : result VaultSelection UnsupportedOnPlatform :=
  let native family backend :=
    if decide (target = family) then mkSelection backend false else mkSelection VaultFileBackend true in
  let explicit family name backend :=
    if decide (host = family) then
      if decide (target = family) then Ok (mkSelection backend false) else Err (name, host)
    else Err (name, host) in
  match requested with
  | VaultFileBackend => Ok (mkSelection VaultFileBackend false)
  | VaultAuto =>
      Ok match host with
         | MacOs => native MacOs VaultKeychain
         | Windows => native Windows VaultDpapi
         | Linux =>
             if decide (target = Linux)
             then if secret_service then mkSelection VaultSecretService false else mkSelection VaultFileBackend true
             else mkSelection VaultFileBackend true
         | Bsd | OtherUnix => mkSelection VaultFileBackend false
         end
  | VaultKeychain => explicit MacOs "keychain"%string VaultKeychain
  | VaultDpapi => explicit Windows "dpapi"%string VaultDpapi
  | VaultSecretService => explicit Linux "secret-service"%string VaultSecretService
  end.

Definition select_vault (target : HostFamily) (secret_service : bool) (requested : VaultBackend)
    : result VaultSelection UnsupportedOnPlatform :=
  select_vault_for target secret_service requested target.

(** * The file vault keeps the contract *)

(** The disk with the next fate taken. *)
Definition spent (d : VaultDisk) : VaultDisk :=
  mkVaultDisk (vault_file d) (tmp_file d) (parent_mode d) (parent_uid d) (tail (fates d)).

Lemma wp_vault_call (Q : result fate AuthVaultError -> VaultDisk -> Prop) d :
  (forall s, Q (Ok s) (spent d)) -> wp syscall Q d.
Proof. intros H. apply H. Qed.

Lemma wp_effect what f (Q : result unit AuthVaultError -> VaultDisk -> Prop) d :
  Q (Err (VaultIo what)) (spent d) -> Q (Ok tt) (f (spent d)) -> wp (effect what f) Q d.
Proof. intros He Ho. apply wp_bind, wp_vault_call. by intros [n|]. Qed.

(** The files that hold bytes of a token are for their owner alone. *)
Definition owner_only (f : VaultFile) : Prop := vf_bytes f = [] \/ N.land (vf_mode f) 63 = 0%N.

Definition token_file (uid : N) (token : SecretString) : VaultFile := mkVaultFile true uid 384 token.

Lemma store_token_leaves uid umask token d :
  let '(r, d') := store_token uid umask token d in
  (vault_file d' = Some (token_file uid token) /\ tmp_file d' = None \/
   is_ok r = false /\ vault_file d' = vault_file d) /\
  (forall f, tmp_file d' = Some f -> tmp_file d = Some f \/ owner_only f).
Proof.
  set (Q := λ (r : result unit AuthVaultError) (d' : VaultDisk),
    (vault_file d' = Some (token_file uid token) /\ tmp_file d' = None \/
     is_ok r = false /\ vault_file d' = vault_file d) /\
    (forall f, tmp_file d' = Some f -> tmp_file d = Some f \/ owner_only f)).
  change (wp (store_token uid umask token) Q d). unfold store_token.
  assert (forall d1 what, vault_file d1 = vault_file d ->
    (forall f, tmp_file d1 = Some f -> tmp_file d = Some f \/ owner_only f) -> Q (Err (VaultIo what)) d1) as Hfail.
  { intros d1 what E H. split; [by right|done]. }
  do 3 (apply wp_bind, wp_effect; [apply Hfail; cbn; auto; by intros ? [=]|]).
  apply wp_bind, wp_effect; [apply Hfail; cbn; [done|by intros ? [=]]|].
  do 1 (apply wp_bind, wp_effect; [apply Hfail; cbn; [done|intros f [= <-]; right; by left]|]).
  apply wp_bind, wp_vault_call. intros s. apply wp_bind, wp_modify. apply wp_bind.
  destruct s as [n|]; [apply Hfail; cbn; [done|intros f [= <-]; right; by right]|]. apply wp_ok.
  do 2 (apply wp_bind, wp_effect; [apply Hfail; cbn; [done|intros f [= <-]; right; by right]|]).
  assert (forall r d1, vault_file d1 = Some (token_file uid token) -> tmp_file d1 = None -> Q r d1) as Hdone.
  { intros r d1 E1 E2. split; [by left|]. rewrite E2. by intros ? [=]. }
  do 2 (apply wp_bind, wp_effect; [by apply Hdone|]).
  apply wp_effect; by apply Hdone.
Qed.

(** C28: Storing a token is atomic under any failure of any system call, and a kill at any point: the
    vault file is the old one or the complete new one, the latter if the call reports success; and
    no file with bytes of the token is ever open to others, whatever the umask. *)
Theorem store_token_atomic uid umask token d :
  let '(r, d') := store_token uid umask token d in
  (vault_file d' = Some (token_file uid token) /\ tmp_file d' = None \/
   is_ok r = false /\ vault_file d' = vault_file d) /\
  (forall f, tmp_file d' = Some f -> tmp_file d = Some f \/ owner_only f).
Proof. apply store_token_leaves. Qed.

(** What a load without failures returns. *)
Definition file_held (d : VaultDisk) : option SecretString :=
  f ← vault_file d; match trimmed_token (vf_bytes f) with Ok o => o | Err _ => None end.

Definition canonical (token : SecretString) : Prop := trimmed_token token = Ok (Some token).

Lemma file_held_eq d d' : vault_file d' = vault_file d -> file_held d' = file_held d.
Proof. unfold file_held. by intros ->. Qed.

Lemma wp_validate uid d :
  wp (validate_vault_file uid) (λ r d', vault_file d' = vault_file d /\ (r = Ok None -> vault_file d = None)) d.
Proof.
  unfold validate_vault_file. apply wp_bind, wp_vault_call. intros s. apply wp_bind, wp_gets. unfold id.
  change (vault_file (spent d)) with (vault_file d).
  destruct s as [n|]; [done|]. destruct (vault_file d) as [f|] eqn:Ef; [|by apply wp_ok].
  destruct (negb (vf_regular f)); [by apply wp_throw|]. case_decide; [by apply wp_throw|].
  case_decide; [by apply wp_throw|]. apply wp_bind, wp_vault_call. intros [n|].
  - apply wp_bind, wp_vault_call. intros s. apply wp_bind, wp_gets.
    destruct (match s with Some _ => _ | None => _ end); [by apply wp_throw|by apply wp_ok].
  - apply wp_bind, wp_modify. by apply wp_ok.
Qed.

Lemma wp_read_vault_file d :
  wp read_vault_file
    (λ r d', vault_file d' = vault_file d /\ match r with Ok o => o = file_held d | Err _ => True end) d.
Proof.
  unfold read_vault_file. apply wp_bind, wp_vault_call. intros s. apply wp_bind, wp_gets. unfold id.
  change (vault_file (spent d)) with (vault_file d). unfold file_held.
  destruct s; [done|]. destruct (vault_file d) as [f|] eqn:Ef; [|by apply wp_ok].
  apply wp_bind, wp_vault_call. intros [n|]; [by apply wp_throw|]. apply wp_lift. split; [done|].
  cbn. by destruct (trimmed_token (vf_bytes f)).
Qed.

Lemma wp_load_token uid d :
  wp (load_token uid)
    (λ r d', file_held d' = file_held d /\ match r with Ok o => o = file_held d | Err _ => True end) d.
Proof.
  apply wp_bind. eapply wp_mono; [apply wp_validate|]. intros [[[]|]|e] d1 [E H].
  - eapply wp_mono; [apply wp_read_vault_file|]. intros r d2 [E2 Hr].
    rewrite <- (file_held_eq d d1 E), (file_held_eq d1 d2 E2). done.
  - apply wp_ok. rewrite (file_held_eq d d1 E). split; [done|]. unfold file_held. by rewrite H.
  - by rewrite (file_held_eq d d1 E).
Qed.

Lemma file_held_token uid token d :
  canonical token -> vault_file d = Some (token_file uid token) -> file_held d = Some token.
Proof. unfold file_held. intros Hc ->. cbn. by rewrite Hc. Qed.

#[export] Instance FileVault_laws uid umask : VaultLaws (FileVault uid umask) file_held canonical.
Proof.
  split.
  - apply wp_load_token.
  - intros token d Hc. cbn [vault_store FileVault]. unfold wp. pose proof (store_token_leaves uid umask token d) as H.
    destruct (store_token uid umask token d) as [r d']. destruct H as [[[Hf _]|[Hr Hf]] _].
    + left. exact (file_held_token uid token d' Hc Hf).
    + right. split; [done|]. exact (file_held_eq d d' Hf).
  - intros d. apply wp_effect; [by right|by left].
Qed.

(** A token with no white space around it survives the vault: what a successful store wrote, the
    next successful load returns, whatever the vault held before. *)
Theorem file_vault_round_trip uid umask token d
  (Htoken : canonical token) (Hstored : is_ok (store_token uid umask token d).1 = true) :
  match load_token uid (store_token uid umask token d).2 with
  | (Ok o, _) => o = Some token
  | (Err _, _) => True
  end.
Proof.
  pose proof (store_law (VaultLaws := FileVault_laws uid umask) token d Htoken) as H. apply wp_run in H.
  cbn [vault_store FileVault] in H. destruct (store_token uid umask token d) as [r d']. cbn in *.
  pose proof (wp_load_token uid d') as Hl. unfold wp in Hl. destruct (load_token uid d') as [[o|e] d2]; [|done].
  destruct H as [<-|[Hr _]]; [by destruct Hl|]. by rewrite Hr in Hstored.
Qed.

Definition sample_vault : VaultDisk :=
  mkVaultDisk (Some (mkVaultFile true 1000 384 (chars "old-token"))) None 493 1000 [].

Lemma file_vault_round_trip_witness :
  is_ok (store_token 1000 18 (chars "new-token") sample_vault).1 = true /\
  (load_token 1000 (store_token 1000 18 (chars "new-token") sample_vault).2).1 = Ok (Some (chars "new-token")).
Proof.
  assert (canonical (chars "new-token")) as Hc by (vm_compute; reflexivity).
  assert (is_ok (store_token 1000 18 (chars "new-token") sample_vault).1 = true) as Hs by (vm_compute; reflexivity).
  split; [exact Hs|]. pose proof (file_vault_round_trip 1000 18 (chars "new-token") sample_vault Hc Hs) as H.
  destruct (load_token 1000 (store_token 1000 18 (chars "new-token") sample_vault).2) as [[o|e] d'] eqn:E.
  - cbn. by rewrite H.
  - revert E. vm_compute. discriminate.
Defined.

(** White space around a token is lost, and a file readable by the group is refused. *)
Example padded_token_is_trimmed :
  (load_token 1000 (store_token 1000 18 (chars " padded ") sample_vault).2).1 = Ok (Some (chars "padded")).
Proof. vm_compute. reflexivity. Qed.

Example group_readable_is_refused :
  (load_token 1000 (mkVaultDisk (Some (mkVaultFile true 1000 416 (chars "t"))) None 448 1000 [])).1 =
  Err (InsecureMetadata "vault file must not grant group or other access").
Proof. vm_compute. reflexivity. Qed.

(** Only the automatic choice falls back, and it says so, except where the file is the native backend. *)
Lemma select_vault_spec target ss requested sel :
  select_vault target ss requested = Ok sel ->
  match requested with
  | VaultAuto =>
      effective sel = VaultFileBackend /\ (warning sel = false -> target = Bsd \/ target = OtherUnix) \/
      effective sel <> VaultFileBackend /\ warning sel = false
  | _ => effective sel = requested /\ warning sel = false
  end.
Proof.
  unfold select_vault, select_vault_for.
  destruct requested, target; cbn; repeat case_decide; try done; try (by intros [= <-]; auto);
    intros [= <-]; try (destruct ss); cbn; auto; try (by left); try (by right).
Qed.
