(* ===== verification/AuthDaemon.v ===== *)
(** Authentication in the daemon: the requests that log in and out of
    crates/pcloud-daemon/src/runtime.rs, the persistence of the token and the account record, the
    refresh tick of serve.rs, and the credentials of bootstrap.rs.

    The runtime persists the token through the free functions of the file vault; the bootstrap
    through the backend that was selected.  Both vaults, the store and the audit log live on one
    disk [D] and may fail.  Of a response the model keeps the status. *)
From S2P Require Import Prelude Paths Clock Ieee Bytes BinaryApi Response StateError AuthApi Auth AuthFlow AuthInvariant Vault.

Inductive ResponseStatus : Type := RespOk | RespInvalidRequest | RespConflict | RespUnavailable | RespInternalError.

Record AccountRecord : Type := mkAccount {
  account_user : N;
  account_email : list byte;
  auth_token_present : bool;
}.

(** The repositories of the store that take part. *)
Record StoreProfile : Type := mkProfile {
  primary_account : option AccountRecord;
  preferred_durable : option bool;
}.

Inductive PersistAuthStateError : Type := PersistStore | PersistVault (e : AuthVaultError).

Record Daemon (D T : Type) : Type := mkDaemon {
  auth : SessionWorld T;
  pending_password_auth : option (list byte * SecretString);
  durable_auth_tokens_enabled : bool;
  store : StoreProfile;
  disk : D;
}.
Arguments mkDaemon {D T} auth pending_password_auth durable_auth_tokens_enabled store disk.
Arguments auth {D T} d.
Arguments pending_password_auth {D T} d.
Arguments durable_auth_tokens_enabled {D T} d.
Arguments store {D T} d.
Arguments disk {D T} d.

Inductive Request : Type :=
| LoginBegin
| PasswordSubmission (username : list byte) (value : SecretString)
| AuthTokenSubmission (value : SecretString)
| TwoFactorCodeSubmission (value : SecretString) (trust recovery : bool)
| LogoutRequest
| GetUserInfo
| SendTwoFactorSms
| SendTwoFactorNotification
| SetAuthPersistence (enabled : bool)
| AccountChangePassword (current new : SecretString) (answer : result SecretString unit)
| RefreshTick (now now' : N).

(** The credentials found at startup. *)
Record BootstrapCredentials : Type := mkCredentials {
  cred_token : option SecretString;
  cred_username : option (list byte);
  cred_password : option SecretString;
  two_factor_code : option SecretString;
  recovery_code : option SecretString;
  cred_trust_device : bool;
}.

Inductive BootstrapError (TE : Type) : Type :=
| BootStore
| BootVault (e : AuthVaultError)
| BootFlow (e : AuthFlowError TE)
| BootCredentials (what : string).
Arguments BootStore {TE}.
Arguments BootVault {TE} e.
Arguments BootFlow {TE} e.
Arguments BootCredentials {TE} what.

Definition desired_account_record (s : SessionSnapshot) : option AccountRecord :=
  match authenticated_user s, email s with
  | Some user, Some mail => Some (mkAccount user mail (match auth_token s with Some _ => true | None => false end))
  | _, _ => None
  end.

Section Daemon.
Context {D T TE : Type} `{PT : !ProtocolTransport T TE} `{SH : !Sha1} (context : AuthRequestContext).
(** The vault of the runtime, the vault selected at startup, the store, the audit log. *)
Variables file_vault platform_vault : PlatformVault D.
Variable persist_profile : StoreProfile -> ST D unit unit.
Variable record_audit_event : ST D unit unit.
(** The policy of the session supervisor. *)
Variable policy : RefreshPolicy.

Abbreviation DM := (Daemon D T).

Definition set_auth (a : SessionWorld T) (d : DM) : DM :=
  mkDaemon a (pending_password_auth d) (durable_auth_tokens_enabled d) (store d) (disk d).
Definition set_pending (p : option (list byte * SecretString)) (d : DM) : DM :=
  mkDaemon (auth d) p (durable_auth_tokens_enabled d) (store d) (disk d).
Definition set_durable (b : bool) (d : DM) : DM :=
  mkDaemon (auth d) (pending_password_auth d) b (store d) (disk d).
Definition set_store (p : StoreProfile) (d : DM) : DM :=
  mkDaemon (auth d) (pending_password_auth d) (durable_auth_tokens_enabled d) p (disk d).
Definition set_disk (x : D) (d : DM) : DM :=
  mkDaemon (auth d) (pending_password_auth d) (durable_auth_tokens_enabled d) (store d) x.

Definition set_primary_account (a : option AccountRecord) (d : DM) : DM :=
  set_store (mkProfile a (preferred_durable (store d))) d.

Definition on_disk {E A} (m : ST D E A) : ST DM E A := zoom disk set_disk m.
Definition on_auth {E A} (m : ST (SessionWorld T) E A) : ST DM E A := zoom auth set_auth m.
Definition token_of (d : DM) : option SecretString := auth_token (snapshot (session (auth d))).

(** * Persistence *)

Definition sync_auth_vault : ST DM AuthVaultError unit :=
  let! d := gets id in
  if negb (durable_auth_tokens_enabled d) then on_disk (vault_clear file_vault)
  else match token_of d with
       | Some token => on_disk (vault_store file_vault token)
       | None => on_disk (vault_clear file_vault)
       end.

Definition restore_vault_state (previous : option SecretString) : ST DM AuthVaultError unit :=
  let! d := gets id in
  if negb (durable_auth_tokens_enabled d) then on_disk (vault_clear file_vault)
  else match previous with
       | Some token => on_disk (vault_store file_vault token)
       | None => on_disk (vault_clear file_vault)
       end.

Definition sync_account_store : ST DM unit unit :=
  let! d := gets id in
  do! modify (set_primary_account (desired_account_record (snapshot (session (auth d))))) in
  let! d := gets id in
  on_disk (persist_profile (store d)).

Definition persist_auth_state : ST DM PersistAuthStateError unit :=
  let! d := gets id in
  let previous_account := primary_account (store d) in
  let! previous_vault_token := map_err PersistVault (on_disk (vault_load file_vault)) in
  do! map_err PersistVault sync_auth_vault in
  let! r := attempt sync_account_store in
  match r with
  | Ok _ => ok tt
  | Err _ =>
      do! modify (set_primary_account previous_account) in
      do! map_err PersistVault (restore_vault_state previous_vault_token) in
      throw PersistStore
  end.

(** A handler always returns a response: it has no error. *)
Abbreviation Handler := (ST DM Empty_set ResponseStatus).

Definition audited_response : Handler :=
  let! r := attempt (on_disk record_audit_event) in
  ok (match r with Ok _ => RespOk | Err _ => RespInternalError end).

(** [now] is the clock's reading when a login has succeeded. *)
Definition auth_response (now : N) (event : AuthEvent) : Handler :=
  do! match event with
      | EventLoginSucceeded _ =>
          do! modify (set_pending None) in
          modify (λ d, set_auth (set_session (attach_lifecycle now policy false (session (auth d))) (auth d)) d)
      | EventLoginFailed _ | EventLoggedOut => modify (set_pending None)
      | _ => ok tt
      end in
  let! r := attempt persist_auth_state in
  match r with Err _ => ok RespInternalError | Ok _ => audited_response end.

Definition map_auth_flow_error (e : AuthFlowError TE) : ResponseStatus :=
  match e with FlowSession _ => RespConflict | FlowProtocol _ => RespUnavailable end.

(** [match flow { Ok(event) => self.auth_response(event), Err(err) => map_auth_flow_error(err) }]. *)
Definition answer_flow (now : N) (r : result AuthEvent (AuthFlowError TE)) : Handler :=
  match r with Ok event => auth_response now event | Err e => ok (map_auth_flow_error e) end.

(** * The requests *)

Definition login_begin : Handler :=
  let! r := attempt (on_auth (zoom session set_session (apply BeginLogin))) in
  ok (match r with Ok _ => RespOk | Err _ => RespConflict end).

Definition password_submission (now : N) (username : list byte) (value : SecretString) : Handler :=
  do! modify (set_pending (Some (username, value))) in
  let! r := attempt (on_auth (login_with_password context username value)) in
  match r with
  | Ok event => auth_response now event
  | Err e => do! modify (set_pending None) in ok (map_auth_flow_error e)
  end.

Definition auth_token_submission (now : N) (value : SecretString) : Handler :=
  let! r := attempt (on_auth (login_with_token context value)) in answer_flow now r.

Definition two_factor_code_submission (now : N) (value : SecretString) (trust recovery : bool) : Handler :=
  let! d := gets id in
  let empty_challenge :=
    match pending_challenge (snapshot (session (auth d))) with
    | Some challenge => bool_decide (challenge_token challenge = [])
    | None => false
    end in
  let! r :=
    if empty_challenge then
      match pending_password_auth d with
      | Some (username, password) =>
          attempt (on_auth (submit_two_factor_code_with_password context username password value))
      | None => ok (Err (FlowSession NoPendingChallenge))
      end
    else attempt (on_auth (flow_submit_two_factor_code context value trust recovery)) in
  answer_flow now r.

(** The mount and the crypto session, torn down first, are not modelled. *)
Definition logout (now : N) : Handler :=
  let! r := attempt (on_auth (zoom session set_session (apply Logout))) in
  match r with Ok event => auth_response now event | Err _ => ok RespConflict end.

Definition fetch_userinfo : Handler :=
  let! d := gets id in
  match token_of d with
  | None => ok RespConflict
  | Some token =>
      let! r := attempt (on_auth (flow_userinfo context token)) in
      match r with
      | Err e => ok (map_auth_flow_error e)
      | Ok info =>
          let! u := attempt (on_auth (zoom session set_session (update_userinfo (user_id info) (user_email info)))) in
          match u with
          | Err _ => ok RespConflict
          | Ok _ =>
              let! s := attempt sync_account_store in
              match s with Err _ => ok RespInternalError | Ok _ => audited_response end
          end
      end
  end.

(** Both deliveries need a challenge with a token. *)
Definition two_factor_delivery {A} (m : ST (SessionWorld T) (AuthFlowError TE) A) : Handler :=
  let! d := gets id in
  match pending_challenge (snapshot (session (auth d))) with
  | Some challenge =>
      if decide (challenge_token challenge = []) then ok RespConflict
      else
        let! r := attempt (on_auth m) in
        match r with Ok _ => audited_response | Err e => ok (map_auth_flow_error e) end
  | None => ok RespConflict
  end.

Definition set_auth_persistence (enabled : bool) : Handler :=
  let! d := gets id in
  let previous_enabled := durable_auth_tokens_enabled d in
  let previous_preference := preferred_durable (store d) in
  let rollback : ST DM Empty_set unit :=
    modify (λ d, set_durable previous_enabled
      (set_store (mkProfile (primary_account (store d)) previous_preference) d)) in
  let! r := attempt (on_disk (vault_load file_vault)) in
  match r with
  | Err _ => ok RespInternalError
  | Ok previous_vault_token =>
      do! modify (λ d, set_durable enabled (set_store (mkProfile (primary_account (store d)) (Some enabled)) d)) in
      let! d := gets id in
      let! p := attempt (on_disk (persist_profile (store d))) in
      match p with
      | Err _ => do! rollback in ok RespInternalError
      | Ok _ =>
          let! s := attempt sync_auth_vault in
          match s with
          | Err _ =>
              do! rollback in
              let! d := gets id in
              do! attempt (on_disk (persist_profile (store d))) in
              do! attempt (restore_vault_state previous_vault_token) in
              ok RespInternalError
          | Ok _ => audited_response
          end
      end
  end.

(** [answer] is that of the account service: the new token, or a failure. *)
Definition account_change_password (current new : SecretString) (answer : result SecretString unit) : Handler :=
  let! d := gets id in
  match token_of d with
  | None => ok RespConflict
  | Some _ =>
      if decide (current = [] \/ new = []) then ok RespInvalidRequest
      else match answer with
           | Err _ => ok RespInternalError
           | Ok new_token =>
               let user := authenticated_user (snapshot (session (auth d))) in
               let! r := attempt (on_auth (zoom session set_session (apply (MarkAuthenticated user new_token)))) in
               match r with Err _ => ok RespInternalError | Ok _ => audited_response end
           end
  end.

(** [run_refresh_tick]: only an idle logout is recorded. *)
Definition run_refresh_tick (now now' : N) : ST DM Empty_set unit :=
  let! outcome := attempt (on_auth (tick context policy now now')) in
  match outcome with
  | Ok (TickIdleLogout _) => do! attempt (on_disk record_audit_event) in ok tt
  | _ => ok tt
  end.

Definition handle (now : N) (request : Request) : Handler :=
  match request with
  | LoginBegin => login_begin
  | PasswordSubmission username value => password_submission now username value
  | AuthTokenSubmission value => auth_token_submission now value
  | TwoFactorCodeSubmission value trust recovery => two_factor_code_submission now value trust recovery
  | LogoutRequest => logout now
  | GetUserInfo => fetch_userinfo
  | SendTwoFactorSms => two_factor_delivery flow_send_two_factor_sms
  | SendTwoFactorNotification => two_factor_delivery flow_send_two_factor_notification
  | SetAuthPersistence enabled => set_auth_persistence enabled
  | AccountChangePassword current new answer => account_change_password current new answer
  | RefreshTick now now' => do! run_refresh_tick now now' in ok RespOk
  end.

(** * Startup *)

Abbreviation Boot := (ST DM (BootstrapError TE)).

(** [?] on the calls of the vault, the store and the flows. *)
Definition boot_vault {A} (m : ST D AuthVaultError A) : Boot A := map_err BootVault (on_disk m).
Definition boot_store : Boot unit :=
  let! d := gets id in map_err (λ _, BootStore) (on_disk (persist_profile (store d))).
Definition boot_flow {A} (m : ST (SessionWorld T) (AuthFlowError TE) A) : Boot A := map_err BootFlow (on_auth m).

Definition sync_bootstrap_auth_state : Boot unit :=
  let! d := gets id in
  do! modify (set_primary_account (desired_account_record (snapshot (session (auth d))))) in
  do! (if durable_auth_tokens_enabled d then
         match token_of d with
         | Some token => boot_vault (vault_store platform_vault token)
         | None => boot_vault (vault_clear platform_vault)
         end
       else ok tt) in
  boot_store.

Definition is_some {A} (o : option A) : bool := match o with Some _ => true | None => false end.

Definition apply_bootstrap_credentials (creds : BootstrapCredentials) : Boot bool :=
  let attempted := is_some (cred_token creds) || is_some (cred_username creds) || is_some (cred_password creds) ||
    is_some (two_factor_code creds) || is_some (recovery_code creds) in
  if negb attempted then ok false
  else match cred_token creds with
  | Some token =>
      do! boot_flow (login_with_token context token) in
      do! sync_bootstrap_auth_state in
      ok true
  | None =>
      let! username := lift (ok_or (cred_username creds)
        (BootCredentials "username/password bootstrap requires PCLOUDRS_USERNAME_FILE")) in
      let! password := lift (ok_or (cred_password creds)
        (BootCredentials "username/password bootstrap requires PCLOUDRS_PASSWORD_FILE")) in
      do! boot_flow (login_with_password context username password) in
      let! d := gets id in
      do! match pending_challenge (snapshot (session (auth d))) with
          | None => ok tt
          | Some _ =>
              let! (code, recovery) := lift
                match recovery_code creds, two_factor_code creds with
                | Some code, None => Ok (code, true)
                | None, Some code => Ok (code, false)
                | Some _, Some _ => Err (BootCredentials
                    "set either PCLOUDRS_TFA_CODE_FILE or PCLOUDRS_RECOVERY_CODE_FILE, not both")
                | None, None => Err (BootCredentials
                    "two-factor authentication is required; provide PCLOUDRS_TFA_CODE_FILE or PCLOUDRS_RECOVERY_CODE_FILE")
                end in
              do! boot_flow (flow_submit_two_factor_code context code (cred_trust_device creds) recovery) in
              ok tt
          end in
      do! sync_bootstrap_auth_state in
      ok true
  end.

(** A login with the token the vault held; if it fails, the vault is emptied. *)
Definition restore_durable_token (token : SecretString) : Boot unit :=
  let! r := attempt (on_auth (login_with_token context token)) in
  match r with
  | Err _ =>
      do! boot_vault (vault_clear platform_vault) in
      do! attempt (E := AuthVaultError) (on_disk (vault_clear file_vault)) in
      do! modify (set_primary_account None) in
      boot_store
  | Ok _ => sync_bootstrap_auth_state
  end.

(** The authentication part of [bootstrap_with_config]: the credentials, else the durable token. *)
Definition bootstrap_auth (creds : BootstrapCredentials) : Boot unit :=
  let! used_external_credentials := apply_bootstrap_credentials creds in
  let! d := gets id in
  if negb used_external_credentials && durable_auth_tokens_enabled d then
    let! held := boot_vault (vault_load platform_vault) in
    match held with
    | Some token => restore_durable_token token
    | None => ok tt
    end
  else if negb used_external_credentials && is_some (token_of d) then sync_bootstrap_auth_state
  else ok tt.

(** A daemon as it starts: no session; the store and the disk are what was left, and the
    preference overrides the configuration. *)
Definition start (config_durable : bool) (profile : StoreProfile) (x : D) (t : T) : DM :=
  mkDaemon (mkWorld SessionManager_new false t) None
    (default config_durable (preferred_durable profile)) profile x.

(** A run of requests, each with the clock's reading. *)
Fixpoint run (requests : list (N * Request)) (d : DM) : DM :=
  match requests with
  | [] => d
  | (now, request) :: requests => run requests (handle now request d).2
  end.
End Daemon.
