(* ===== verification/AuthMock.v ===== *)
(** A disk for the witnesses: the file vault of Vault, a Secret Service that holds one item, a
    profile and a count of audit events; and the development transport as the server. *)
From S2P Require Import Prelude Paths Bytes BinaryApi Response StateError AuthApi DevAuth Auth AuthFlow AuthInvariant Vault AuthDaemon.

Record Disk : Type := mkDisk {
  dk_file : VaultDisk;
  dk_ring : option SecretString;
  dk_profile : option StoreProfile;
  dk_events : nat;
}.

Definition set_file (f : VaultDisk) (x : Disk) : Disk := mkDisk f (dk_ring x) (dk_profile x) (dk_events x).
Definition set_ring (r : option SecretString) (x : Disk) : Disk := mkDisk (dk_file x) r (dk_profile x) (dk_events x).

(** A vault as a part of the disk. *)
Definition vault_part {V D} (get : D -> V) (set : V -> D -> D) (v : PlatformVault V) : PlatformVault D :=
  mkVault (zoom get set (vault_load v)) (λ token, zoom get set (vault_store v token))
    (zoom get set (vault_clear v)) (backend_name v).

#[export] Instance vault_part_laws {V D} (get : D -> V) set (v : PlatformVault V) held storable
    `{!forall x d, TCEq (get (set x d)) x} `{!VaultLaws v held storable} :
  VaultLaws (vault_part get set v) (λ d, held (get d)) storable.
Proof.
  assert (forall x d, get (set x d) = x) as Hgs by (intros x d; apply TCEq_eq; apply _).
  split.
  - intros d. apply wp_zoom. eapply wp_mono; [apply load_law|]. intros r x Hx. cbn. by rewrite Hgs.
  - intros token d Hs. apply wp_zoom. eapply wp_mono; [by apply store_law|]. intros r x Hx. cbn. by rewrite Hgs.
  - intros d. apply wp_zoom. eapply wp_mono; [apply clear_law|]. intros r x Hx. cbn. by rewrite Hgs.
Qed.

Definition runtime_vault : PlatformVault Disk := vault_part dk_file set_file (FileVault 1000 18).

#[export] Instance set_file_get x d : TCEq (dk_file (set_file x d)) x.
Proof. done. Qed.

(** The vault of the Secret Service, with one item. *)
Definition keyring : PlatformVault Disk :=
  mkVault (gets dk_ring) (λ token, modify (set_ring (Some token))) (modify (set_ring None)) "secret-service".

#[export] Instance keyring_laws : VaultLaws keyring dk_ring (λ _, True).
Proof. split; [by split|by left|by left]. Qed.

(** A Secret Service without an item, whatever is stored. *)
Definition no_keyring : PlatformVault Disk := mkVault (ok None) (λ _, ok tt) (ok tt) "secret-service".

(** The calls of the file vault leave the item. *)
Lemma ring_kept {E A} (m : ST VaultDisk E A) x : dk_ring (zoom dk_file set_file m x).2 = dk_ring x.
Proof. unfold zoom. by destruct (m (dk_file x)). Qed.

Definition write_profile (p : StoreProfile) : ST Disk unit unit :=
  modify (λ x, mkDisk (dk_file x) (dk_ring x) (Some p) (dk_events x)).
Definition count_event : ST Disk unit unit :=
  modify (λ x, mkDisk (dk_file x) (dk_ring x) (dk_profile x) (S (dk_events x))).

(** A SHA-1 for the witnesses: its value does not matter to the development transport. *)
#[export] Instance sample_sha1 : Sha1 := λ _, replicate 20 "0"%char.

#[export] Instance sample_sha1_laws : Sha1Laws.
Proof. intros m. apply length_replicate. Qed.

Definition dev_context : AuthRequestContext := AuthRequestContext_default (Some (chars "host")) None.
Definition dev : DevelopmentAuthTransport := DevelopmentAuthTransport_default.

Definition empty_vault : VaultDisk := mkVaultDisk None None 448 1000 [].
Definition no_profile : StoreProfile := mkProfile None None.
Definition blank_disk : Disk := mkDisk empty_vault None None 0.
Definition default_policy : RefreshPolicy := Eval vm_compute in policy_from_config (mkAuthPolicy 300 600).

(** ** A session in development mode *)

(** The password opens a challenge, the code answers it. *)
Example login_with_the_second_factor :
  let d := run dev_context runtime_vault write_profile count_event default_policy
    [(100, PasswordSubmission (chars "alice@example.com") (chars "correct-horse"));
     (110, TwoFactorCodeSubmission (chars "654321") false false)]%N
    (start true no_profile blank_disk dev) in
  token_of d = Some (chars "auth-token-42") /\
  state (snapshot (session (auth d))) = Authenticated /\
  vault_file (dk_file (disk d)) = Some (token_file 1000 (chars "auth-token-42")).
Proof. vm_compute. repeat split. Qed.

(** A wrong code keeps the challenge, but the session waits in the state of a password login
    although the documentation has it back in the second-factor state. *)
Example wrong_code_stays_authenticating :
  let d := run dev_context runtime_vault write_profile count_event default_policy
    [(100, PasswordSubmission (chars "alice@example.com") (chars "correct-horse"));
     (110, TwoFactorCodeSubmission (chars "000000") false false)]%N
    (start true no_profile blank_disk dev) in
  state (snapshot (session (auth d))) = AuthenticatingWithPassword /\
  pending_challenge (snapshot (session (auth d))) = Some (mkChallenge (chars "challenge-token") false).
Proof. vm_compute. split; reflexivity. Qed.

(** A token that the server rejects logs in; and the token of a refresh is not written to the
    vault, so that a restart uses the old one. *)
Example made_up_token_logs_in :
  let d := run dev_context runtime_vault write_profile count_event default_policy
    [(100, AuthTokenSubmission (chars "made-up"))]%N (start true no_profile blank_disk dev) in
  state (snapshot (session (auth d))) = Authenticated /\ token_of d = Some (chars "made-up") /\
  vault_file (dk_file (disk d)) = Some (token_file 1000 (chars "made-up")).
Proof. vm_compute. repeat split. Qed.

Example refreshed_token_is_not_stored :
  let d := run dev_context runtime_vault write_profile count_event default_policy
    [(100, AuthTokenSubmission (chars "auth-token-42")); (3200, RefreshTick 3200 3201)]%N
    (start true no_profile blank_disk dev) in
  token_of d = Some (chars "auth-token-42-refreshed") /\
  vault_file (dk_file (disk d)) = Some (token_file 1000 (chars "auth-token-42")).
Proof. vm_compute. split; reflexivity. Qed.

(** A wrong password at startup is not an error: the start succeeds without a session, and the
    durable token of the vault is erased. *)
Example wrong_password_at_start_erases_the_token :
  let '(r, d) := bootstrap_auth dev_context runtime_vault keyring write_profile
    (mkCredentials None (Some (chars "alice@example.com")) (Some (chars "wrong")) None None false)
    (start true no_profile (mkDisk empty_vault (Some (chars "auth-token-42")) None 0)
      (mkDevelopment (chars "bob@example.com") (chars "x") (chars "y"))) in
  r = Ok tt /\ state (snapshot (session (auth d))) = AuthFailed /\ dk_ring (disk d) = None.
Proof. vm_compute. repeat split. Qed.

(** A server that gives every request the same answer. *)
Definition constant_transport (answer : Value) : ProtocolTransport unit unit := {|
  execute _ := ok answer;
  consume_api_server_hint _ t := t;
  display_transport_error _ := [];
|}.

Definition grant : Value :=
  VHash [(chars "result", VNumber 0); (chars "auth", VString (chars "fresh")); (chars "userid", VNumber 42);
         (chars "email", VString (chars "alice@example.com")); (chars "digest", VString (chars "d"))].

Definition granting : ProtocolTransport unit unit := constant_transport grant.

Lemma grant_tokens (known : SecretString -> Prop) :
  known (chars "fresh") -> forall request t value t' hash token,
  execute (ProtocolTransport := granting) request t = (Ok value, t') -> as_hash value = Some hash ->
  get_string hash (chars "auth") = Some token -> known token.
Proof.
  intros Hk request t value t' hash token E Eh Et. cbn in E. injection E as <- _. cbn in Eh. injection Eh as <-.
  vm_compute in Et. injection Et as <-. exact Hk.
Qed.
