(* ===== verification/AuthDurable.v ===== *)
(** Theorems about authentication in the daemon: the session invariant over any run of requests,
    what the vaults hold, and what a restart does with it.

    [handle_respects] walks once through all the handlers, for any preorder that the flows and
    the operations on the disk respect; the theorems instantiate it. *)
From S2P Require Import Prelude Paths Clock Ieee Bytes BinaryApi Response StateError AuthApi DevAuth Auth AuthFlow AuthInvariant Vault AuthDaemon AuthMock.

(** * A login that succeeds leaves the session authenticated *)

Section Succeeds.
Context {T TE : Type} `{PT : !ProtocolTransport T TE} `{SH : !Sha1} (context : AuthRequestContext).

Definition authenticated (w : SessionWorld T) : Prop := state (snapshot (session w)) = Authenticated.

Definition success_authenticates {E} (m : ST (SessionWorld T) E AuthEvent) : Prop :=
  forall w, wp m (λ r w', forall user, r = Ok (EventLoginSucceeded user) -> authenticated w') w.

Lemma success_bind {E A} (m : ST (SessionWorld T) E A) f :
  (forall a, success_authenticates (f a)) -> success_authenticates (bind m f).
Proof.
  intros Hf w. apply wp_bind. apply wp_run. destruct (m w) as [[a|e] w']; cbn; [apply Hf|done].
Qed.

Lemma success_lift {E} (r : result AuthEvent E) :
  (forall user, r <> Ok (EventLoginSucceeded user)) -> success_authenticates (lift r).
Proof. intros Hr w. apply wp_lift. intros user E'. by destruct (Hr user). Qed.

(** Commands that never report a success. *)
Lemma success_command c :
  (forall user token, c <> MarkAuthenticated user token) ->
  success_authenticates (on_session (T := T) (TE := TE) (apply c)).
Proof.
  intros Hc [m fl t]. unfold on_session, wp, map_err, zoom. cbn [session].
  destruct c; cbn; try by intros ? [=].
  - by destruct (pending_challenge (snapshot m)); intros ? [=].
  - by destruct (Hc user_id token).
Qed.

Lemma success_issue token trust : success_authenticates (issue_challenge (T := T) (TE := TE) token trust).
Proof. by intros w user [=]. Qed.

(** The end of every successful login. *)
Lemma success_mark user token uid mail :
  success_authenticates (
    let! event := on_session (T := T) (TE := TE) (apply (MarkAuthenticated user token)) in
    do! on_session (update_userinfo uid mail) in
    ok event).
Proof.
  intros [m fl t]. unfold wp, bind at 1, on_session, map_err, zoom. cbn [session apply].
  unfold bind, gets, modify, ok, id. destruct (state (snapshot m)); cbn; try done; by destruct uid.
Qed.

Lemma success_finish token uid : success_authenticates (E := AuthFlowError TE) (finish_login context token uid).
Proof. apply success_bind. intros info. apply success_mark. Qed.

Lemma success_outcome o (rejected : option (list byte) -> AuthCommand) :
  (forall message user token, rejected message <> MarkAuthenticated user token) ->
  success_authenticates (E := AuthFlowError TE)
    (match o with
     | OutcomeAuthenticated token uid _ => finish_login context token uid
     | OutcomeTwoFactorRequired challenge trust _ => issue_challenge challenge trust
     | OutcomeFailed _ message _ => on_session (apply (rejected message))
     end).
Proof.
  intros Hr. destruct o; [apply success_finish|apply success_issue|].
  apply success_command. intros user token. apply Hr.
Qed.

Lemma success_login_with_password username password :
  success_authenticates (E := AuthFlowError TE) (login_with_password context username password).
Proof.
  apply success_bind. intros _. apply success_bind. intros o. by apply (success_outcome o MarkAuthenticationFailed).
Qed.

Lemma success_submit_with_password username password code :
  success_authenticates (E := AuthFlowError TE) (submit_two_factor_code_with_password context username password code).
Proof.
  apply success_bind. intros _. apply success_bind. intros o. by apply (success_outcome o MarkAuthenticationFailed).
Qed.

Lemma success_submit code trust recovery :
  success_authenticates (E := AuthFlowError TE) (flow_submit_two_factor_code context code trust recovery).
Proof.
  apply success_bind. intros w0. apply success_bind. intros challenge. apply success_bind. intros _.
  apply success_bind. intros o. by apply (success_outcome o MarkTwoFactorCodeInvalid).
Qed.

Lemma success_login_with_token token : success_authenticates (E := AuthFlowError TE) (login_with_token context token).
Proof. apply success_bind. intros _. apply success_bind. intros info. apply success_mark. Qed.
End Succeeds.

(** * The handlers respect what their parts respect *)

Section Walk.
Context {D T TE : Type} `{PT : !ProtocolTransport T TE} `{SH : !Sha1} (context : AuthRequestContext).
Variables file_vault platform_vault : PlatformVault D.
Variable persist_profile : StoreProfile -> ST D unit unit.
Variable record_audit_event : ST D unit unit.
Variable policy : RefreshPolicy.

Abbreviation DM := (Daemon D T).

(** The tokens that may be in the session. *)
Variable known : SecretString -> Prop.
Hypothesis server_tokens : forall request t value t' hash token,
  execute request t = (Ok value, t') -> as_hash value = Some hash ->
  get_string hash (chars "auth") = Some token -> known token.

Definition keeps_inv {E A} (m : ST (SessionWorld T) E A) : Prop :=
  forall w, inv known (session w) -> wp m (λ _ w', inv known (session w')) w.

Variable R : relation DM.
Context `{!PreOrder R}.
Hypothesis R_same : forall d d', auth d' = auth d -> disk d' = disk d -> R d d'.
Hypothesis R_store : forall token, respects R (on_disk (vault_store file_vault token)).
Hypothesis R_clear : respects R (on_disk (vault_clear file_vault)).
Hypothesis R_load : respects R (on_disk (vault_load file_vault)).
Hypothesis R_profile : forall p, respects R (on_disk (persist_profile p)).
Hypothesis R_audit : respects R (on_disk record_audit_event).
Hypothesis R_auth : forall {E A} (m : ST (SessionWorld T) E A), keeps_inv m -> respects R (on_auth m).
Hypothesis R_attach : forall now d, authenticated (auth d) ->
  R d (set_auth (set_session (attach_lifecycle now policy false (session (auth d))) (auth d)) d).

Lemma respects_same {E} f :
  (forall d, auth (f d) = auth d /\ disk (f d) = disk d) -> respects (E := E) R (modify f).
Proof. intros Hf. apply respects_modify. intros d. by apply R_same; destruct (Hf d). Qed.

#[local] Hint Resolve R_store R_clear R_load R_profile R_audit respects_same : respects.

(** Changes of the fields beside the session and the disk. *)
Lemma respects_pending {E} p : respects (E := E) R (modify (set_pending p)).
Proof. by apply respects_same. Qed.

Lemma respects_account {E} a : respects (E := E) R (modify (set_primary_account a)).
Proof. by apply respects_same. Qed.

#[local] Hint Resolve respects_pending respects_account : respects.

Lemma respects_sync_vault : respects R (sync_auth_vault (T := T) file_vault).
Proof. unfold sync_auth_vault. respects_auto. Qed.

Lemma respects_restore previous : respects R (restore_vault_state (T := T) file_vault previous).
Proof. unfold restore_vault_state. respects_auto. Qed.

Lemma respects_account_store : respects R (sync_account_store (T := T) persist_profile).
Proof. unfold sync_account_store. respects_auto. Qed.

#[local] Hint Resolve respects_sync_vault respects_restore respects_account_store : respects.

Lemma respects_persist : respects R (persist_auth_state (T := T) file_vault persist_profile).
Proof. unfold persist_auth_state. respects_auto. Qed.

Lemma respects_audited : respects R (audited_response (T := T) record_audit_event).
Proof. unfold audited_response. respects_auto. Qed.

#[local] Hint Resolve respects_persist respects_audited : respects.

Lemma respects_set_persistence enabled :
  respects R (set_auth_persistence (T := T) file_vault persist_profile record_audit_event enabled).
Proof. unfold set_auth_persistence. respects_auto; by apply respects_same. Qed.

(** [auth_response] of an event that does not claim a success the session does not show. *)
Lemma auth_response_R now event d :
  (forall user, event = EventLoginSucceeded user -> authenticated (auth d)) ->
  R d (auth_response file_vault persist_profile record_audit_event policy now event d).2.
Proof.
  intros He. unfold auth_response.
  assert (forall d1, R d d1 -> R d ((let! r := attempt (persist_auth_state file_vault persist_profile) in
    match r with Err _ => ok RespInternalError | Ok _ => audited_response record_audit_event end) d1).2) as Hrest.
  { intros d1 H1. etrans; [exact H1|]. revert d1 H1. intros d1 _.
    assert (respects (E := Empty_set) R (let! r := attempt (persist_auth_state (T := T) file_vault persist_profile) in
      match r with Err _ => ok RespInternalError | Ok _ => audited_response record_audit_event end)) as H
      by respects_auto. apply H. }
  destruct event; unfold bind at 1; cbn -[persist_auth_state]; apply Hrest; try done; try by apply R_same.
  transitivity (set_pending None d); [by apply R_same|].
  exact (R_attach now (set_pending None d) (He user_id eq_refl)).
Qed.

Lemma flow_R {A} (m : ST (SessionWorld T) (AuthFlowError TE) A) d : keeps_inv m -> R d (set_auth (m (auth d)).2 d).
Proof.
  intros Hm. specialize (R_auth m Hm d). unfold on_auth, zoom in R_auth. by destruct (m (auth d)).
Qed.

Lemma respects_answer_flow (m : ST (SessionWorld T) (AuthFlowError TE) AuthEvent) now (f : DM -> DM) :
  keeps_inv m -> success_authenticates m -> (forall d, auth (f d) = auth d /\ disk (f d) = disk d) ->
  respects R (let! r := attempt (on_auth m) in
    match r with
    | Ok event => auth_response file_vault persist_profile record_audit_event policy now event
    | Err e => do! modify f in ok (map_auth_flow_error e)
    end).
Proof.
  intros Hm Hs Hf d. unfold bind, attempt, on_auth, zoom. pose proof (flow_R m d Hm) as H1.
  specialize (Hs (auth d)). unfold wp in Hs. destruct (m (auth d)) as [[event|e] w']; cbn in *.
  - etrans; [exact H1|]. apply auth_response_R. intros user ->. by eapply Hs.
  - etrans; [exact H1|]. by apply R_same; destruct (Hf (set_auth w' d)).
Qed.

(** ** The flows and commands keep the invariant of the session *)

Lemma keeps_command c : command_known known c -> keeps_inv (zoom (E := SessionManagerError) session set_session (apply c)).
Proof. intros Hc w Hw. apply wp_respects; [|done]. by apply kept_session, kept_command. Qed.

Lemma keeps_api {A} (m : ST T (AuthApiError TE) A) : keeps_inv (api m).
Proof. intros w Hw. apply wp_respects; [|done]. apply kept_api. Qed.

Lemma keeps_challenge {A} (f : PendingChallenge -> ST T (AuthApiError TE) A) :
  keeps_inv (let! w := gets id in
    let! challenge := lift (ok_or (pending_challenge (snapshot (session w))) (FlowSession NoPendingChallenge)) in
    api (f challenge)).
Proof.
  intros w Hw. apply wp_bind, wp_gets, wp_bind, wp_lift. unfold id.
  destruct (pending_challenge (snapshot (session w))); [by apply keeps_api|done].
Qed.

(** The tokens a request brings are known. *)
Definition request_known (request : Request) : Prop :=
  match request with
  | AuthTokenSubmission value => known value
  | AccountChangePassword _ _ (Ok token) => known token
  | _ => True
  end.

Abbreviation handle := (handle context file_vault persist_profile record_audit_event policy).

Lemma respects_delivery {A} (m : ST (SessionWorld T) (AuthFlowError TE) A) :
  keeps_inv m -> respects R (two_factor_delivery (D := D) record_audit_event m).
Proof. intros Hm. unfold two_factor_delivery. pose proof (R_auth m Hm). respects_auto. Qed.

Lemma respects_fetch_userinfo : respects R (fetch_userinfo (D := D) context persist_profile record_audit_event).
Proof.
  unfold fetch_userinfo. respects_auto; apply R_auth; [apply keeps_api|].
  intros w Hw. apply wp_respects; [|done]. apply kept_session, kept_update.
Qed.

Lemma respects_change_password current new answer :
  match answer with Ok token => known token | Err _ => True end ->
  respects R (account_change_password (T := T) record_audit_event current new answer).
Proof.
  intros Ha. unfold account_change_password. respects_auto. apply R_auth. by apply keeps_command.
Qed.

Lemma respects_tick now now' : respects R (run_refresh_tick context record_audit_event policy now now').
Proof.
  unfold run_refresh_tick. respects_auto. apply R_auth. intros w Hw. by apply tick_inv.
Qed.

Lemma respects_two_factor now value trust recovery :
  respects R (two_factor_code_submission context file_vault persist_profile record_audit_event policy now value trust recovery).
Proof.
  intros d. unfold two_factor_code_submission, bind at 1, gets, id.
  assert (forall m : ST (SessionWorld T) (AuthFlowError TE) AuthEvent, keeps_inv m -> success_authenticates m ->
    R d ((let! r := attempt (on_auth m) in
      answer_flow file_vault persist_profile record_audit_event policy now r) d).2) as Hflow.
  { intros m Hm Hs. by apply (respects_answer_flow m now id). }
  destruct (match pending_challenge (snapshot (session (auth d))) with Some _ => _ | None => _ end).
  - destruct (pending_password_auth d) as [[username password]|]; [|done].
    apply Hflow; [|apply success_submit_with_password]. intros w Hw. by apply submit_with_password_inv.
  - apply Hflow; [|apply success_submit]. intros w Hw. by apply submit_two_factor_inv.
Qed.

Lemma handle_respects now request : request_known request -> respects R (handle now request).
Proof.
  intros Hk. destruct request as [|username value|value|value trust recovery| | | | |enabled|current new answer|t t'];
    cbn [AuthDaemon.handle].
  - unfold login_begin. respects_auto. apply R_auth. by apply keeps_command.
  - unfold password_submission. apply respects_bind; [done|by apply respects_same|]. intros _.
    apply respects_answer_flow; [|apply success_login_with_password|done]. intros w Hw. by apply login_with_password_inv.
  - apply (respects_answer_flow _ now id); [|apply success_login_with_token|done]. intros w Hw. by apply login_with_token_inv.
  - apply respects_two_factor.
  - intros d. etrans; [apply (R_auth _ (keeps_command Logout I) d)|].
    apply (auth_response_R now EventLoggedOut (set_auth (set_session SessionManager_new (auth d)) d)). done.
  - apply respects_fetch_userinfo.
  - apply respects_delivery, keeps_challenge.
  - apply respects_delivery, keeps_challenge.
  - apply respects_set_persistence.
  - by apply respects_change_password.
  - apply respects_bind; [done|apply respects_tick|]. intros _. by apply respects_ok.
Qed.

Lemma run_respects requests d :
  Forall (λ r, request_known r.2) requests ->
  R d (run context file_vault persist_profile record_audit_event policy requests d).
Proof.
  intros Hall. revert d. induction Hall as [|[now request] requests Hk _ IH]; intros d; [done|].
  cbn [run]. etrans; [apply (handle_respects now request Hk)|apply IH].
Qed.
End Walk.

(** * The theorems *)

Section Durable.
Context {D T TE : Type} `{PT : !ProtocolTransport T TE} `{SH : !Sha1} (context : AuthRequestContext).
Variables file_vault platform_vault : PlatformVault D.
Variable persist_profile : StoreProfile -> ST D unit unit.
Variable record_audit_event : ST D unit unit.
Variable policy : RefreshPolicy.

Abbreviation DM := (Daemon D T).
Abbreviation handle := (handle context file_vault persist_profile record_audit_event policy).
Abbreviation run := (run context file_vault persist_profile record_audit_event policy).
Abbreviation bootstrap_auth := (bootstrap_auth context file_vault platform_vault persist_profile).
Abbreviation restore := (restore_durable_token context file_vault platform_vault persist_profile).

Lemma on_disk_auth {E A} (m : ST D E A) (d : DM) : auth (on_disk m d).2 = auth d.
Proof. unfold on_disk, zoom. by destruct (m (disk d)). Qed.

Lemma on_auth_disk {E A} (m : ST (SessionWorld T) E A) (d : DM) : disk (on_auth m d).2 = disk d.
Proof. unfold on_auth, zoom. by destruct (m (auth d)). Qed.

(** ** The invariant of the session *)

Section Invariant.
Variable known : SecretString -> Prop.
Hypothesis server_tokens : forall request t value t' hash token,
  execute request t = (Ok value, t') -> as_hash value = Some hash ->
  get_string hash (chars "auth") = Some token -> known token.

Definition inv_kept (d d' : DM) : Prop := inv known (session (auth d)) -> inv known (session (auth d')).

#[export] Instance inv_kept_preorder : PreOrder inv_kept.
Proof. split; [by intros d Hd|]. intros d1 d2 d3 H1 H2 Hd. apply H2, H1, Hd. Qed.

Lemma inv_kept_disk {E A} (m : ST D E A) : respects inv_kept (on_disk m).
Proof. intros d Hd. by rewrite on_disk_auth. Qed.

Lemma inv_kept_auth {E A} (m : ST (SessionWorld T) E A) : keeps_inv known m -> respects inv_kept (on_auth m).
Proof.
  intros Hm d Hd. specialize (Hm (auth d) Hd). unfold wp in Hm. unfold on_auth, zoom.
  by destruct (m (auth d)).
Qed.

Lemma inv_kept_same (d d' : DM) : auth d' = auth d -> inv_kept d d'.
Proof. intros E Hd. by rewrite E. Qed.

Lemma run_inv requests d : Forall (λ r, request_known known r.2) requests -> inv_kept d (run requests d).
Proof.
  intros Hall. apply (run_respects context file_vault persist_profile record_audit_event policy known server_tokens inv_kept);
    try done; try (intros; apply inv_kept_disk); try apply inv_kept_disk.
  - intros ? ? E _. by apply inv_kept_same.
  - intros ? ? m. apply inv_kept_auth.
  - intros now d1 Ha Hd. by apply inv_attach.
Qed.

(** Startup keeps it, when the credentials and the vault bring known tokens. *)
Hypothesis vault_tokens : forall x token x', vault_load platform_vault x = (Ok (Some token), x') -> known token.

Abbreviation kept m := (respects (E := BootstrapError TE) inv_kept m).

Lemma kept_boot_vault {A} (m : ST D AuthVaultError A) : kept (boot_vault m).
Proof. apply respects_map_err, inv_kept_disk. Qed.

Lemma kept_boot_store : kept (boot_store persist_profile).
Proof. unfold boot_store. respects_auto. apply inv_kept_disk. Qed.

Lemma kept_boot_flow {A} (m : ST (SessionWorld T) (AuthFlowError TE) A) : keeps_inv known m -> kept (boot_flow m).
Proof. intros Hm. by apply respects_map_err, inv_kept_auth. Qed.

#[local] Hint Resolve kept_boot_vault kept_boot_store : respects.

Lemma kept_account {E} a : respects (E := E) inv_kept (modify (set_primary_account a)).
Proof. apply respects_modify. intros d. by apply inv_kept_same. Qed.

#[local] Hint Resolve kept_account : respects.

Lemma kept_sync : kept (sync_bootstrap_auth_state platform_vault persist_profile).
Proof. unfold sync_bootstrap_auth_state. respects_auto. Qed.

#[local] Hint Resolve kept_sync : respects.

Lemma kept_credentials creds :
  (forall token, cred_token creds = Some token -> known token) ->
  kept (apply_bootstrap_credentials context platform_vault persist_profile creds).
Proof.
  intros Hk. unfold apply_bootstrap_credentials. case_match; [by apply respects_ok, _|].
  destruct (cred_token creds) as [token|].
  - respects_auto. apply kept_boot_flow. intros w Hw. apply login_with_token_inv; auto.
  - respects_auto; apply kept_boot_flow; intros w Hw; [by apply login_with_password_inv|by apply submit_two_factor_inv].
Qed.

Lemma kept_bootstrap creds :
  (forall token, cred_token creds = Some token -> known token) -> kept (bootstrap_auth creds).
Proof.
  intros Hk. apply respects_bind; [apply _|by apply kept_credentials|]. intros used.
  apply respects_bind; [apply _|by apply respects_gets, _|]. intros d0.
  case_match; [|case_match; [apply kept_sync|by apply respects_ok, _]].
  intros d Hd. unfold bind at 1. unfold boot_vault at 1, map_err, on_disk, zoom.
  destruct (vault_load platform_vault (disk d)) as [[[token|]|e] x] eqn:El; [|exact Hd|exact Hd].
  match goal with |- inv known (session (auth (?m ?d1).2)) => assert (kept m) as Hkept; [|by apply Hkept] end.
  unfold restore_durable_token. respects_auto; try (by apply respects_map_err, inv_kept_disk); try apply inv_kept_disk.
  apply inv_kept_auth. intros w Hw. apply login_with_token_inv; eauto.
Qed.
End Invariant.

(** C15: From a start, through any credentials or durable token and any requests, in any order, with
    any answers of the server and any failures of the disk, the session satisfies [session_ok] and its
    token is one that a caller presented, the vault held, or the server sent.  [session_ok]: user,
    email and timers are there only next to a token; an authenticated session has a token and no
    challenge; a logged-out or failed one has neither, and nothing of an account; one that waits for a
    two-factor code has a challenge, one that is checking a token has none.

    In the other cases token and challenge are free, because the code does not follow the manager's
    table of transitions: a login can begin in every state and keeps the token of the session before
    it, [BeginLogin] keeps the challenge too, and a code can be submitted in every state with a
    challenge. *)
Theorem daemon_session_invariant known creds requests config_durable profile x t
  (Hserver : forall request t value t' hash token, execute request t = (Ok value, t') ->
     as_hash value = Some hash -> get_string hash (chars "auth") = Some token -> known token)
  (Hvault : forall x token x', vault_load platform_vault x = (Ok (Some token), x') -> known token)
  (Hcreds : forall token, cred_token creds = Some token -> known token)
  (Hrequests : Forall (λ r, request_known known r.2) requests) :
  let d := run requests (bootstrap_auth creds (start config_durable profile x t)).2 in
  session_ok (session (auth d)) /\ sourced known (session (auth d)).
Proof.
  apply (run_inv known Hserver); [done|]. apply (kept_bootstrap known Hserver Hvault creds Hcreds). apply inv_new.
Qed.

(** ** The vault of the startup is not the vault of the runtime *)

(** The operations on the disk do not change what the startup's vault holds. *)
Definition apart (held : D -> option SecretString) : Prop :=
  (forall token x, held (vault_store file_vault token x).2 = held x) /\
  (forall x, held (vault_clear file_vault x).2 = held x) /\
  (forall x, held (vault_load file_vault x).2 = held x) /\
  (forall p x, held (persist_profile p x).2 = held x) /\
  (forall x, held (record_audit_event x).2 = held x).

Definition same_held (held : D -> option SecretString) (d d' : DM) : Prop := held (disk d') = held (disk d).

#[export] Instance same_held_preorder held : PreOrder (same_held held).
Proof. split; [done|]. intros d1 d2 d3 H1 H2. unfold same_held in *. by rewrite H2. Qed.

Lemma same_held_disk {E A} held (m : ST D E A) :
  (forall x, held (m x).2 = held x) -> respects (same_held held) (on_disk m).
Proof.
  intros Hm d. unfold same_held, on_disk, zoom. specialize (Hm (disk d)). by destruct (m (disk d)).
Qed.

Lemma run_same_held held requests d : apart held -> held (disk (run requests d)) = held (disk d).
Proof.
  intros (H1 & H2 & H3 & H4 & H5).
  apply (run_respects context file_vault persist_profile record_audit_event policy (λ _, True) ltac:(done) (same_held held));
    try (intros; by apply same_held_disk); try (by apply same_held_disk); try done.
  - intros d1 d2 _ E. unfold same_held. by rewrite E.
  - intros E A m _ d1. unfold same_held. by rewrite on_auth_disk.
  - apply Forall_true. intros [now r]. destruct r; try done. by destruct answer.
Qed.

(** What a start does with a durable token, when no credentials are given. *)
Definition no_credentials : BootstrapCredentials := mkCredentials None None None None None false.

Lemma bootstrap_no_credentials d :
  apply_bootstrap_credentials context platform_vault persist_profile no_credentials d = (Ok false, d).
Proof. reflexivity. Qed.

Lemma sync_keeps_auth (d : DM) : auth (sync_bootstrap_auth_state (TE := TE) platform_vault persist_profile d).2 = auth d.
Proof.
  assert (respects (E := BootstrapError TE) (λ d d' : DM, auth d' = auth d)
    (sync_bootstrap_auth_state platform_vault persist_profile)) as H; [|apply H].
  assert (PreOrder (λ d d' : DM, auth d' = auth d)) by (split; [done|intros ? ? ? -> ->; done]).
  unfold sync_bootstrap_auth_state, boot_store, boot_vault.
  respects_auto; try (intros d0; apply on_disk_auth). by apply respects_modify.
Qed.

(** The contract of the vault, and what else touches the disk during a restore. *)
Definition restores (held : D -> option SecretString) (storable : SecretString -> Prop) : Prop :=
  VaultLaws platform_vault held storable /\
  (forall p x, held (persist_profile p x).2 = held x) /\
  (forall x, held x = None -> held (vault_clear file_vault x).2 = None).

(** The part of [bootstrap_auth] after the vault has been read. *)
Lemma restore_unfold held storable d token :
  restores held storable -> durable_auth_tokens_enabled d = true -> held (disk d) = Some token ->
  is_ok (vault_load platform_vault (disk d)).1 = true ->
  exists x, bootstrap_auth no_credentials d = restore token (set_disk x d).
Proof.
  intros [Hlaws _] Hd Hh Hl. unfold AuthDaemon.bootstrap_auth. unfold bind at 1.
  rewrite bootstrap_no_credentials. unfold bind at 1, gets, id. rewrite Hd. cbn [negb andb].
  unfold bind at 1, boot_vault at 1, map_err, on_disk at 1, zoom.
  pose proof (load_law (VaultLaws := Hlaws) (disk d)) as Hlaw. unfold wp in Hlaw.
  destruct (vault_load platform_vault (disk d)) as [[o|e] x]; [|done]. destruct Hlaw as [_ ->]. rewrite Hh.
  by exists x.
Qed.

(** One that succeeds leaves the session as the flow left it. *)
Lemma restore_succeeds d x event w' token :
  login_with_token (TE := TE) context token (auth d) = (Ok event, w') ->
  auth (restore token (set_disk x d)).2 = w'.
Proof.
  intros E. unfold restore_durable_token, bind at 1, attempt, on_auth, zoom. cbn [auth set_disk]. rewrite E.
  apply sync_keeps_auth.
Qed.

(** A login that fails during the restore empties the vault. *)
Lemma restore_gives_up held storable d x r w' token :
  restores held storable -> login_with_token context token (auth d) = (Err r, w') ->
  let '(b, d') := restore token (set_disk x d) in
  session (auth d') = session w' /\ (held (disk d') = None \/ is_ok b = false).
Proof.
  intros (Hlaws & Hp & Hc) E. unfold restore_durable_token, bind at 1, attempt at 1, on_auth, zoom. cbn [auth set_disk]. rewrite E.
  unfold bind at 1, boot_vault, map_err, on_disk at 1, zoom. cbn [disk set_auth set_disk].
  pose proof (clear_law (VaultLaws := Hlaws) x) as Hlaw. unfold wp in Hlaw.
  destruct (vault_clear platform_vault x) as [[[]|e] x1]; [|by split; [|right]].
  destruct Hlaw as [Hx1|[? _]]; [|done].
  unfold bind at 1, attempt, on_disk at 1, zoom. cbn [disk set_auth set_disk].
  pose proof (Hc x1 Hx1) as Hx2. destruct (vault_clear file_vault x1) as [rc x2]. cbn [snd] in Hx2.
  unfold bind at 1, modify, boot_store, bind, gets, id, map_err, on_disk, zoom. cbn.
  match goal with |- context [persist_profile ?p x2] =>
    pose proof (Hp p x2) as Hx3; destruct (persist_profile p x2) as [[[]|[]] x3] end;
    cbn in *; (split; [done|]); [left|by right]. by rewrite Hx3.
Qed.

(** What becomes of the durable token at a start, for every answer to the userinfo request.  Any
    hash, also one whose result says the token is revoked, leaves the session authenticated with
    it; a connection that fails, or a malformed answer, erases it from the vault, so that the user
    has to log in again (unless erasing it fails, which stops the start). *)
Theorem durable_token_at_start held storable d token
  (Hvault : restores held storable)
  (Hdurable : durable_auth_tokens_enabled d = true)
  (Hheld : held (disk d) = Some token)
  (Hload : is_ok (vault_load platform_vault (disk d)).1 = true) :
  let '(b, d') := bootstrap_auth no_credentials d in
  match call (mkUserInfoRequest token context) (rest (auth d)) with
  | (Ok (VHash hash), _) =>
      session (auth d') = mkManager
        (mkSnapshot Authenticated (get_number hash (chars "userid")) (Some token)
          (get_string hash (chars "email")) None None)
        (lifecycle (session (auth d)))
  | _ =>
      state (snapshot (session (auth d'))) = AuthFailed /\ token_of d' = None /\
      (held (disk d') = None \/ is_ok b = false)
  end.
Proof.
  destruct (restore_unfold held storable d token Hvault Hdurable Hheld Hload) as [x ->].
  pose proof (login_with_token_result context token (auth d)) as Hlogin.
  destruct (login_with_token context token (auth d)) as [r w'] eqn:E.
  assert (forall e, r = Err e -> state (snapshot (session w')) = AuthFailed ->
    auth_token (snapshot (session w')) = None ->
    let '(b, d') := restore token (set_disk x d) in
    state (snapshot (session (auth d'))) = AuthFailed /\ token_of d' = None /\
    (held (disk d') = None \/ is_ok b = false)) as Hfail.
  { intros e -> Hst Htok. pose proof (restore_gives_up held storable d x e w' token Hvault E) as H1.
    destruct (restore token (set_disk x d)) as [b d']. destruct H1 as [H1 H2].
    unfold token_of. rewrite H1. split; [exact Hst|]. split; [exact Htok|exact H2]. }
  destruct (call (mkUserInfoRequest token context) (rest (auth d))) as [[value|e] t'].
  2: { destruct Hlogin as (H1 & H2 & H3). specialize (Hfail _ H3 H1 H2).
       destruct (restore token (set_disk x d)). exact Hfail. }
  destruct (as_hash value) as [hash|] eqn:Eh.
  2: { destruct Hlogin as (H1 & H2 & H3). specialize (Hfail _ H3 H1 H2).
       destruct (restore token (set_disk x d)). destruct value; try exact Hfail. discriminate Eh. }
  destruct value; try discriminate Eh. injection Eh as ->. destruct Hlogin as [Hr Hw]. rewrite Hr in E. clear Hfail Hr.
  pose proof (restore_succeeds d x _ w' token E) as Hs.
  destruct (restore token (set_disk x d)) as [b d']. cbn [snd] in Hs. by rewrite Hs.
Qed.

(** ** The sessions of a start have no timers *)

Definition untimed (m : SessionManager) : Prop := lifecycle m = None.

Abbreviation untimed_world := (keeps_world (T := T) untimed).

Lemma untimed_session {E A} (m : ST SessionManager E A) :
  respects (keeps untimed) m -> respects (E := E) untimed_world (zoom session set_session m).
Proof. intros Hm w. specialize (Hm (session w)). unfold zoom. by destruct (m (session w)). Qed.

Lemma untimed_apply c : respects (keeps untimed) (apply c).
Proof.
  intros m Hm. destruct c; unfold apply, bind, modify, gets, ok, id; cbn; try done.
  - by destruct (pending_challenge (snapshot m)).
  - by destruct (state (snapshot m)).
Qed.

Lemma untimed_update user mail : respects (keeps untimed) (update_userinfo user mail).
Proof. intros m Hm. unfold update_userinfo, bind, gets, id. by destruct (state (snapshot m)). Qed.

Lemma untimed_on_session {A} (m : SM A) :
  respects (keeps untimed) m -> respects untimed_world (on_session (T := T) (TE := TE) m).
Proof. intros Hm. by apply respects_map_err, untimed_session. Qed.

Lemma untimed_on_api {E A} (m : ST T E A) : respects untimed_world (on_api m).
Proof. intros w Hw. unfold on_api, zoom. by destruct (m (rest w)). Qed.

Lemma untimed_issue token trust : respects untimed_world (issue_challenge (T := T) (TE := TE) token trust).
Proof. by intros w Hw. Qed.

#[local] Hint Resolve untimed_session untimed_apply untimed_update untimed_on_session untimed_on_api untimed_issue : respects.

Lemma untimed_finish token uid : respects untimed_world (finish_login (TE := TE) context token uid).
Proof. unfold finish_login, api. respects_auto. Qed.

#[local] Hint Resolve untimed_finish : respects.

Lemma untimed_token token : respects untimed_world (login_with_token (TE := TE) context token).
Proof. unfold login_with_token, api_or_fail. respects_auto. Qed.

Lemma untimed_password username password :
  respects untimed_world (login_with_password (TE := TE) context username password).
Proof. unfold login_with_password, api_or_fail. respects_auto. Qed.

Lemma untimed_code code trust recovery :
  respects untimed_world (flow_submit_two_factor_code (TE := TE) context code trust recovery).
Proof. unfold flow_submit_two_factor_code, api_or_fail. respects_auto. Qed.

Definition untimed_daemon (d d' : DM) : Prop := untimed_world (auth d) (auth d').

#[export] Instance untimed_daemon_preorder : PreOrder untimed_daemon.
Proof. split; [by intros d Hd|]. intros d1 d2 d3 H1 H2 Hd. apply H2, H1, Hd. Qed.

Lemma untimed_disk {E A} (m : ST D E A) : respects untimed_daemon (on_disk m).
Proof. intros d Hd. by rewrite on_disk_auth. Qed.

Lemma untimed_auth {E A} (m : ST (SessionWorld T) E A) :
  respects untimed_world m -> respects untimed_daemon (on_auth m).
Proof. intros Hm d. specialize (Hm (auth d)). unfold untimed_daemon, on_auth, zoom. by destruct (m (auth d)). Qed.

Lemma untimed_sync : respects untimed_daemon (sync_bootstrap_auth_state (TE := TE) platform_vault persist_profile).
Proof. intros d Hd. by rewrite sync_keeps_auth. Qed.

Lemma untimed_account {E} a : respects (E := E) untimed_daemon (modify (set_primary_account a)).
Proof. apply respects_modify. by intros d Hd. Qed.

#[local] Hint Resolve untimed_token untimed_password untimed_code untimed_disk untimed_auth untimed_sync untimed_account
  : respects.

Lemma untimed_bootstrap creds : respects untimed_daemon (bootstrap_auth creds).
Proof.
  unfold AuthDaemon.bootstrap_auth, apply_bootstrap_credentials, restore_durable_token, boot_flow, boot_vault, boot_store.
  respects_auto.
Qed.

Lemma tick_untimed d now now' :
  untimed (session (auth d)) -> run_refresh_tick context record_audit_event policy now now' d = (Ok tt, d).
Proof.
  intros Hd. unfold run_refresh_tick, bind at 1, attempt, on_auth, zoom, tick, bind, gets, id, evaluate.
  rewrite Hd. by destruct d.
Qed.

(** A session that the start logged in (by the credentials of the environment or the durable
    token) has no timers: however many ticks follow, at whatever times, no one refreshes it,
    finds it expired or logs it out as idle, and nothing is sent. *)
Theorem start_session_is_never_refreshed creds config_durable profile x t ticks :
  let d := (bootstrap_auth creds (start config_durable profile x t)).2 in
  run ((λ t, (t.1, RefreshTick t.1 t.2)) <$> ticks) d = d.
Proof.
  set (d := (bootstrap_auth creds (start config_durable profile x t)).2).
  assert (untimed (session (auth d))) as Hd by (by apply (untimed_bootstrap creds)).
  clearbody d. induction ticks as [|[now now'] ticks IH]; [done|].
  rewrite fmap_cons. cbn [AuthDaemon.run AuthDaemon.handle]. unfold bind at 1. rewrite tick_untimed by done. exact IH.
Qed.

(** ** Logging out and starting again *)

(** When the vault of the startup is another than the file vault of the runtime, a token that it
    holds outlives every request, the logout included: the next start authenticates with it, as
    long as the server answers. *)
Theorem logout_does_not_reach_the_startup_vault held storable requests d token config_durable profile t
  (Hlaws : restores held storable)
  (Hapart : apart held)
  (Hheld : held (disk d) = Some token)
  (Hdurable : default config_durable (preferred_durable profile) = true)
  (Hload : forall x, is_ok (vault_load platform_vault x).1 = true)
  (Hanswer : exists hash t', call (mkUserInfoRequest token context) t = (Ok (VHash hash), t')) :
  let x := disk (run (requests ++ [(0%N, LogoutRequest)]) d) in
  let d' := (bootstrap_auth no_credentials (start config_durable profile x t)).2 in
  state (snapshot (session (auth d'))) = Authenticated /\ token_of d' = Some token.
Proof.
  cbv zeta. pose proof (run_same_held held (requests ++ [(0%N, LogoutRequest)]) d Hapart) as Hx. rewrite Hheld in Hx.
  set (x := disk (run (requests ++ [(0%N, LogoutRequest)]) d)) in *. clearbody x.
  destruct (restore_unfold held storable (start config_durable profile x t) token Hlaws Hdurable Hx (Hload x)) as [y ->].
  destruct Hanswer as (hash & t' & Hc).
  pose proof (login_with_token_result context token (mkWorld SessionManager_new false t)) as Hlogin.
  cbn [rest] in Hlogin. rewrite Hc in Hlogin. cbn [as_hash] in Hlogin.
  destruct (login_with_token context token (mkWorld SessionManager_new false t)) as [r w'] eqn:E.
  destruct Hlogin as [-> Hw]. unfold token_of.
  rewrite (restore_succeeds (start config_durable profile x t) y _ w' token E), Hw. split; reflexivity.
Qed.

(** ** What the vault holds when a request has been answered *)

Section InSync.
Variable held : D -> option SecretString.
Variable storable : SecretString -> Prop.
Context `{Hlaws : !VaultLaws file_vault held storable}.
Hypothesis server_tokens : forall request t value t' hash token,
  execute request t = (Ok value, t') -> as_hash value = Some hash ->
  get_string hash (chars "auth") = Some token -> storable token.
Hypothesis profile_keeps : forall p x, held (persist_profile p x).2 = held x.
Hypothesis audit_keeps : forall x, held (record_audit_event x).2 = held x.

(** The vault holds the token of the session if tokens are durable, and nothing otherwise. *)
Definition in_sync (d : DM) : Prop :=
  held (disk d) = if durable_auth_tokens_enabled d then token_of d else None.

Abbreviation inv := (inv storable).

(** A disk operation at the end of a chain that needs [in_sync] on success. *)
Lemma wp_on_disk {E A} (m : ST D E A) (Q : result A E -> DM -> Prop) d :
  wp m (λ r x, Q r (set_disk x d)) (disk d) -> wp (on_disk m) Q d.
Proof. apply wp_zoom. Qed.

Lemma wp_sync_vault d :
  sourced storable (session (auth d)) ->
  wp (sync_auth_vault file_vault) (λ r d', (r = Ok tt -> in_sync d') /\ auth d' = auth d /\ store d' = store d) d.
Proof.
  intros Hs. unfold sync_auth_vault. apply wp_bind, wp_gets. unfold id.
  assert (forall d0 : DM, wp (on_disk (vault_clear file_vault))
    (λ r d', (r = Ok tt -> held (disk d') = None) /\ auth d' = auth d0 /\ store d' = store d0 /\
      durable_auth_tokens_enabled d' = durable_auth_tokens_enabled d0) d0) as Hclear.
  { intros d0. apply wp_on_disk. eapply wp_mono; [apply clear_law|]. intros r x [H|[H _]]; cbn.
    - done.
    - split; [|done]. by intros ->. }
  unfold in_sync, token_of. destruct (durable_auth_tokens_enabled d) eqn:Ed; cbn [negb].
  - destruct (auth_token (snapshot (session (auth d)))) as [token|] eqn:Et.
    + apply wp_on_disk. eapply wp_mono; [apply store_law; by apply Hs|].
      intros r x [H|[H _]]; cbn; (split; [|done]); [intros _; by rewrite Ed, Et|by intros ->].
    + eapply wp_mono; [apply Hclear|]. intros r d' (H1 & H2 & H3 & H4). rewrite H2, H4, Ed, Et. auto.
  - eapply wp_mono; [apply Hclear|]. intros r d' (H1 & H2 & H3 & H4). rewrite H2, H4, Ed. auto.
Qed.

(** Persisting the profile or an audit event leaves the vault as it is. *)
Lemma wp_kept {E A} (m : ST D E A) (P : DM -> Prop) d :
  (forall x, held (m x).2 = held x) -> (forall x, held x = held (disk d) -> P (set_disk x d)) ->
  wp (on_disk m) (λ _ d', P d') d.
Proof. intros Hm HP. apply wp_on_disk, wp_run, HP, Hm. Qed.

Definition recorded (d : DM) : Prop :=
  in_sync d /\ primary_account (store d) = desired_account_record (snapshot (session (auth d))).

Lemma wp_account_store d : in_sync d -> wp (sync_account_store persist_profile) (λ r d', r = Ok tt -> recorded d') d.
Proof.
  intros Hd. unfold sync_account_store. apply wp_bind, wp_gets, wp_bind, wp_modify, wp_bind, wp_gets. unfold id.
  eapply wp_mono; [apply (wp_kept _ recorded); [apply profile_keeps|]|by auto].
  intros x Hx. split; [|done]. unfold in_sync in *. cbn in *. by rewrite Hx.
Qed.

Lemma wp_persist d :
  sourced storable (session (auth d)) -> wp (persist_auth_state file_vault persist_profile) (λ r d', r = Ok tt -> recorded d') d.
Proof.
  intros Hi. unfold persist_auth_state. apply wp_bind, wp_gets, wp_bind, wp_map_err, wp_on_disk, wp_run.
  destruct (vault_load file_vault (disk d)) as [[prev|e] x]; cbn [fst snd]; [|done].
  apply wp_bind, wp_map_err. eapply wp_mono; [apply wp_sync_vault; exact Hi|].
  intros [[]|e] d1 (H1 & H2 & H3); [|done]. apply wp_bind, wp_attempt.
  eapply wp_mono; [apply wp_account_store; by apply H1|]. intros [[]|e] d2 H4; [by apply wp_ok; auto|].
  apply wp_bind, wp_modify, wp_bind, wp_map_err, wp_run.
  destruct (restore_vault_state file_vault prev _) as [[[]|e'] d3]; done.
Qed.

Lemma recorded_disk x d : held x = held (disk d) -> recorded d -> recorded (set_disk x d).
Proof. intros Hx [H1 H2]. split; [|done]. unfold in_sync in *. cbn in *. by rewrite Hx. Qed.

Lemma wp_audited d : recorded d -> wp (audited_response record_audit_event) (λ _ d', recorded d') d.
Proof.
  intros Hd. unfold audited_response. apply wp_bind, wp_attempt.
  eapply wp_mono; [apply (wp_kept _ recorded); [apply audit_keeps|]|]; [|by intros r d' H; apply wp_ok].
  intros x Hx. by apply recorded_disk.
Qed.

Abbreviation answered := (λ r d', r = Ok RespOk -> recorded d').

Lemma wp_auth_response now event d :
  inv (session (auth d)) ->
  wp (auth_response file_vault persist_profile record_audit_event policy now event) answered d.
Proof.
  intros Hi. unfold auth_response.
  assert (forall d1, sourced storable (session (auth d1)) -> wp (let! r := attempt (persist_auth_state file_vault persist_profile) in
    match r with Err _ => ok RespInternalError | Ok _ => audited_response record_audit_event end) answered d1) as Hrest.
  { intros d1 H1. apply wp_bind, wp_attempt. eapply wp_mono; [apply wp_persist; exact H1|].
    intros [[]|e] d2 H2; [|by apply wp_ok]. eapply wp_mono; [apply wp_audited; by apply H2|]. auto. }
  destruct Hi as [_ Hs]. destruct event; apply wp_bind; try (apply wp_bind, wp_modify); try apply wp_modify;
    try apply wp_ok; by apply Hrest.
Qed.

Lemma wp_flow_answer (m : ST (SessionWorld T) (AuthFlowError TE) AuthEvent) now (f : DM -> DM) d :
  keeps_inv storable m -> inv (session (auth d)) ->
  wp (let! r := attempt (on_auth m) in
      match r with
      | Ok event => auth_response file_vault persist_profile record_audit_event policy now event
      | Err e => do! modify f in ok (map_auth_flow_error e)
      end) answered d.
Proof.
  intros Hm Hi. apply wp_bind, wp_attempt, wp_zoom. eapply wp_mono; [apply Hm, Hi|].
  intros [event|e] w' Hw; [by apply wp_auth_response|]. apply wp_bind, wp_modify, wp_ok. by destruct e.
Qed.

Lemma wp_set_persistence enabled d :
  sourced storable (session (auth d)) ->
  wp (set_auth_persistence file_vault persist_profile record_audit_event enabled)
    (λ r d', r = Ok RespOk -> in_sync d') d.
Proof.
  intros Hs. unfold set_auth_persistence. apply wp_bind, wp_gets, wp_bind, wp_attempt, wp_on_disk, wp_run. unfold id.
  destruct (vault_load file_vault (disk d)) as [[prev|e] x]; cbn [fst snd]; [|by apply wp_ok].
  apply wp_bind, wp_modify, wp_bind, wp_gets, wp_bind, wp_attempt, wp_on_disk, wp_run. unfold id.
  match goal with |- context [persist_profile ?p ?x] => destruct (persist_profile p x) as [[[]|e] x2] end;
    cbn [fst snd]; [|by apply wp_bind, wp_modify, wp_ok].
  apply wp_bind, wp_attempt. eapply wp_mono; [apply wp_sync_vault; exact Hs|].
  intros [[]|e] d1 (H1 & _).
  - specialize (H1 eq_refl). unfold audited_response. apply wp_bind, wp_attempt.
    eapply wp_mono; [apply (wp_kept _ in_sync); [apply audit_keeps|]|]; [|by intros r d' H; apply wp_ok].
    intros y Hy. unfold in_sync in *. cbn in *. by rewrite Hy.
  - apply wp_bind, wp_modify, wp_bind, wp_gets, wp_bind, wp_attempt, wp_run. apply wp_bind, wp_attempt, wp_run. by apply wp_ok.
Qed.

Lemma wp_two_factor now value trust recovery d :
  inv (session (auth d)) ->
  wp (two_factor_code_submission context file_vault persist_profile record_audit_event policy now value trust recovery)
    answered d.
Proof.
  intros Hi. unfold two_factor_code_submission. apply wp_bind, wp_gets. unfold id.
  destruct (match pending_challenge (snapshot (session (auth d))) with Some _ => _ | None => _ end).
  - destruct (pending_password_auth d) as [[username password]|]; [|by apply wp_bind, wp_ok, wp_ok].
    apply (wp_flow_answer _ now id); [|done]. intros w Hw. by apply submit_with_password_inv.
  - apply (wp_flow_answer _ now id); [|done]. intros w Hw. by apply submit_two_factor_inv.
Qed.

Lemma wp_password now username value d :
  inv (session (auth d)) ->
  wp (password_submission context file_vault persist_profile record_audit_event policy now username value) answered d.
Proof.
  intros Hi. unfold password_submission. apply wp_bind, wp_modify.
  apply (wp_flow_answer _ now (set_pending None)); [|exact Hi]. intros w Hw. by apply login_with_password_inv.
Qed.

Lemma wp_token now value d :
  storable value -> inv (session (auth d)) ->
  wp (auth_token_submission context file_vault persist_profile record_audit_event policy now value) answered d.
Proof.
  intros Hv Hi. unfold auth_token_submission.
  apply (wp_flow_answer _ now id); [|exact Hi]. intros w Hw. by apply login_with_token_inv.
Qed.

Lemma wp_logout now d :
  inv (session (auth d)) ->
  wp (logout (T := T) file_vault persist_profile record_audit_event policy now) answered d.
Proof.
  intros Hi. unfold logout. apply wp_bind, wp_attempt, wp_zoom, wp_zoom, wp_run.
  by apply wp_auth_response, (inv_apply storable Logout (session (auth d))).
Qed.
End InSync.

(** C14: When the tokens in play can be stored by the vault ([storable]): after a password, token or
    code submission or a logout that is answered with Ok, the file vault holds exactly the token of
    the session when tokens are durable and nothing otherwise, and the account record is the one the
    session asks for; after a change of the persistence setting answered with Ok the same holds of
    the vault (the account record is not looked at). *)
Theorem answered_requests_are_durable held storable now request d
  (Hvault : VaultLaws file_vault held storable)
  (Hprofile : forall p x, held (persist_profile p x).2 = held x)
  (Haudit : forall x, held (record_audit_event x).2 = held x)
  (Hserver : forall request t value t' hash token, execute request t = (Ok value, t') ->
     as_hash value = Some hash -> get_string hash (chars "auth") = Some token -> storable token)
  (Hrequest : request_known storable request)
  (Hsession : session_ok (session (auth d)) /\ sourced storable (session (auth d))) :
  let '(r, d') := handle now request d in
  r = Ok RespOk ->
  match request with
  | PasswordSubmission _ _ | AuthTokenSubmission _ | TwoFactorCodeSubmission _ _ _ | LogoutRequest =>
      held (disk d') = (if durable_auth_tokens_enabled d' then token_of d' else None) /\
      primary_account (store d') = desired_account_record (snapshot (session (auth d')))
  | SetAuthPersistence _ => held (disk d') = (if durable_auth_tokens_enabled d' then token_of d' else None)
  | _ => True
  end.
Proof.
  assert (forall m : ST DM Empty_set ResponseStatus, wp m (λ r d', r = Ok RespOk -> recorded held d') d ->
    let '(r, d') := m d in r = Ok RespOk -> recorded held d') as Hm.
  { intros m Hm. unfold wp in Hm. by destruct (m d). }
  destruct request as [|username value|value|value trust recovery| | | | |enabled|current new answer|t t'];
    cbn [AuthDaemon.handle]; try (match goal with |- let '(_, _) := ?y in _ => destruct y end; done).
  - apply Hm. by apply (wp_password held storable Hserver Hprofile Haudit).
  - apply Hm. by apply (wp_token held storable Hprofile Haudit).
  - apply Hm. by apply (wp_two_factor held storable Hserver Hprofile Haudit).
  - apply Hm. by apply (wp_logout held storable Hprofile Haudit).
  - clear Hm. pose proof (wp_set_persistence held storable Haudit enabled d) as H.
    unfold wp in H. destruct (set_auth_persistence _ _ _ enabled d). apply H. by destruct Hsession.
Qed.

(** ** Changing the password *)

(** When the server has accepted the new password and sent its token, the request fails and the
    session keeps the old token: the session is authenticated, and [MarkAuthenticated] is only
    allowed during a login. *)
Theorem changed_password_loses_the_token now current new new_token (d : DM)
  (Hstate : authenticated (auth d)) (Htoken : token_of d <> None)
  (Hcurrent : current <> []) (Hnew : new <> []) :
  handle now (AccountChangePassword current new (Ok new_token)) d = (Ok RespInternalError, d).
Proof.
  cbn [AuthDaemon.handle]. unfold account_change_password, bind at 1, gets, id.
  destruct (token_of d) as [token|]; [|done]. rewrite decide_False by tauto.
  unfold authenticated in Hstate. unfold bind, attempt, on_auth, zoom, apply, bind, gets, id.
  rewrite Hstate. by destruct d as [[[]] ? ? ? ?].
Qed.
End Durable.

(** * Witnesses *)

Lemma daemon_session_invariant_witness :
  let known := λ token, token = chars "fresh" \/ token = chars "presented" in
  let d := run (PT := granting) dev_context runtime_vault write_profile count_event default_policy
    [(10, AuthTokenSubmission (chars "presented")); (3010, RefreshTick 3010 3010); (3020, LoginBegin);
     (3030, PasswordSubmission (chars "alice") (chars "pw"))]%N
    (bootstrap_auth (PT := granting) dev_context runtime_vault no_keyring write_profile no_credentials
      (start true no_profile blank_disk tt)).2 in
  state (snapshot (session (auth d))) = Authenticated /\ token_of d = Some (chars "fresh") /\
  session_ok (session (auth d)) /\ sourced known (session (auth d)).
Proof.
  cbv zeta. split; [vm_compute; reflexivity|]. split; [vm_compute; reflexivity|].
  apply (daemon_session_invariant (PT := granting) dev_context runtime_vault
    no_keyring write_profile count_event default_policy
    (λ token, token = chars "fresh" \/ token = chars "presented") no_credentials
    [(10, AuthTokenSubmission (chars "presented")); (3010, RefreshTick 3010 3010); (3020, LoginBegin);
     (3030, PasswordSubmission (chars "alice") (chars "pw"))]%N true no_profile blank_disk tt).
  - apply grant_tokens. by left.
  - intros x token x' [=].
  - intros token [=].
  - repeat (apply Forall_cons; split; [try exact I|]); [by right|apply Forall_nil_2].
Defined.

Lemma keyring_restores : restores runtime_vault keyring write_profile dk_ring (λ _, True).
Proof.
  split; [apply keyring_laws|]. split; [done|]. intros x Hx. rewrite <- Hx. apply ring_kept.
Qed.

(** The server's answer about a revoked token. *)
Definition refusal : list (list byte * Value) :=
  [(chars "result", VNumber 4000); (chars "error", VString (chars "invalid credentials"))].

Lemma revoked_is_refused :
  call (mkUserInfoRequest (chars "revoked") dev_context) dev = (Ok (VHash refusal), dev).
Proof. vm_compute. reflexivity. Qed.

Definition revoked_start : Daemon Disk DevelopmentAuthTransport :=
  start true no_profile (mkDisk empty_vault (Some (chars "revoked")) None 0) dev.

(** The server refuses the token of the vault, and the session is authenticated with it. *)
Lemma durable_token_at_start_witness :
  session (auth (bootstrap_auth dev_context runtime_vault keyring write_profile no_credentials revoked_start).2) =
  mkManager (mkSnapshot Authenticated None (Some (chars "revoked")) None None None) None.
Proof.
  pose proof (durable_token_at_start dev_context runtime_vault keyring write_profile dk_ring (λ _, True)
    revoked_start (chars "revoked") keyring_restores eq_refl eq_refl eq_refl) as H.
  replace (rest (auth revoked_start)) with dev in H by reflexivity. rewrite revoked_is_refused in H.
  destruct (bootstrap_auth dev_context runtime_vault keyring write_profile no_credentials revoked_start) as [b d'].
  exact H.
Defined.

(** A token kept in the Secret Service: after a logout and a restart the session is back. *)
Lemma logout_does_not_reach_the_startup_vault_witness :
  let d := start true no_profile (mkDisk empty_vault (Some (chars "auth-token-42")) None 0) dev in
  let x := disk (run dev_context runtime_vault write_profile count_event default_policy
    ([(10, AuthTokenSubmission (chars "auth-token-42"))] ++ [(0, LogoutRequest)])%N d) in
  let d' := (bootstrap_auth dev_context runtime_vault keyring write_profile no_credentials (start true no_profile x dev)).2 in
  state (snapshot (session (auth d'))) = Authenticated /\ token_of d' = Some (chars "auth-token-42").
Proof.
  apply (logout_does_not_reach_the_startup_vault dev_context runtime_vault keyring write_profile count_event
    default_policy dk_ring (λ _, True) [(10%N, AuthTokenSubmission (chars "auth-token-42"))]).
  - exact keyring_restores.
  - split; [intros; apply ring_kept|]. split; [intros; apply ring_kept|]. split; [intros; apply ring_kept|]. by split.
  - reflexivity.
  - reflexivity.
  - intros x. reflexivity.
  - do 2 eexists. vm_compute. reflexivity.
Defined.

Lemma answered_requests_are_durable_witness :
  let d := start true no_profile blank_disk tt in
  let d' := (handle (PT := granting) dev_context runtime_vault write_profile count_event default_policy 10
    (PasswordSubmission (chars "alice") (chars "pw")) d).2 in
  file_held (dk_file (disk d')) = Some (chars "fresh") /\
  primary_account (store d') = Some (mkAccount 42 (chars "alice@example.com") true).
Proof.
  cbv zeta. pose proof (answered_requests_are_durable (PT := granting) dev_context runtime_vault write_profile count_event
    default_policy (λ x, file_held (dk_file x)) canonical 10 (PasswordSubmission (chars "alice") (chars "pw"))
    (start true no_profile blank_disk tt)) as H.
  destruct (handle (PT := granting) dev_context runtime_vault write_profile count_event default_policy 10
    (PasswordSubmission (chars "alice") (chars "pw")) (start true no_profile blank_disk tt)) as [r d'] eqn:E.
  assert ((r, durable_auth_tokens_enabled d', token_of d', desired_account_record (snapshot (session (auth d')))) =
    (Ok RespOk, true, Some (chars "fresh"), Some (mkAccount 42 (chars "alice@example.com") true))) as Hd.
  { revert E. vm_compute. by intros [= <- <-]. }
  injection Hd as Hr Hdur Htok Hacc. rewrite Hdur, Htok, Hacc in H.
  refine (H ltac:(apply (vault_part_laws dk_file), FileVault_laws) (λ _ _, eq_refl) (λ _, eq_refl) (grant_tokens canonical _) I _ Hr).
  - vm_compute. reflexivity.
  - vm_compute. reflexivity.
  - clear. exact (inv_new _).
Defined.

Lemma changed_password_loses_the_token_witness :
  let d := run (PT := granting) dev_context runtime_vault write_profile count_event default_policy
    [(10, PasswordSubmission (chars "alice") (chars "old"))]%N (start true no_profile blank_disk tt) in
  handle (PT := granting) dev_context runtime_vault write_profile count_event default_policy 20
    (AccountChangePassword (chars "old") (chars "new") (Ok (chars "renewed"))) d = (Ok RespInternalError, d).
Proof.
  apply (changed_password_loses_the_token (PT := granting)); vm_compute; [reflexivity|discriminate..].
Defined.
