(* ===== verification/Retention.v ===== *)
(** Pruning backup snapshots: the grandfather-father-son selection of
    crates/pcloud-backends/src/snapshot.rs.

    A directory is a map from file names to modification times, with the order in which it is
    read an argument; a [SystemTime] is nanoseconds since the epoch ([Z]).  A path under the
    directory is its file name. *)
From S2P Require Import Prelude Paths Bytes Clock StateError.

(** * The selection *)

Abbreviation SystemTime := Z.

(** [t.duration_since(UNIX_EPOCH).unwrap_or_default().as_secs()]. *)
Definition unix_secs (t : SystemTime) : N := Z.to_N t / NANOS_PER_SEC.

Definition SECS_PER_DAY : N := 86400.

Definition ENCRYPTED_SUFFIX : string := ".tar.gpg".
Definition ENCRYPTED_PREFIX : string := "pcloud-rs-".
Definition ZSTD_SUFFIX : string := ".tar.zst".
Definition ZSTD_GPG_SUFFIX : string := ".tar.zst.gpg".
Definition SIDECAR_SUFFIX : string := ".manifest.json".

Definition has_prefix (p s : string) : bool := starts_with (chars p) (chars s).
Definition has_suffix (p s : string) : bool := starts_with (reverse (chars p)) (reverse (chars s)).

(** The newest snapshot of a bucket. *)
Abbreviation Bucket := (gmap N (N * string)).

Definition pick (slot : Bucket) (bucket m : N) (p : string) : Bucket :=
  match slot !! bucket with
  | Some (t, existing) => if (t <? m)%N then <[bucket := (m, p)]> slot else slot
  | None => <[bucket := (m, p)]> slot
  end.

Record Buckets : Type := mkBuckets {
  daily : Bucket;
  weekly : Bucket;
  monthly : Bucket;
}.

Definition weekly_buckets : N := 8.
Definition monthly_buckets : N := 6.

(** One round of the loop of [gfs_keep_set]. *)
Definition gfs_step (daily_window now_secs : N) (b : Buckets) (file : string * SystemTime) : Buckets :=
  let '(path, mtime) := file in
  let m := unix_secs mtime in
  if (now_secs <? m)%N then mkBuckets (pick (daily b) 0 m path) (weekly b) (monthly b)
  else
    let age_days := ((now_secs - m) / SECS_PER_DAY)%N in
    if (age_days <? daily_window)%N then mkBuckets (pick (daily b) age_days m path) (weekly b) (monthly b)
    else if (age_days <? daily_window + weekly_buckets * 7)%N then
      let week := ((age_days - daily_window) / 7)%N in
      mkBuckets (daily b) (pick (weekly b) week m path) (monthly b)
    else if (age_days <? daily_window + weekly_buckets * 7 + monthly_buckets * 30)%N then
      let month := ((age_days - daily_window - weekly_buckets * 7) / 30)%N in
      mkBuckets (daily b) (weekly b) (pick (monthly b) month m path)
    else b.

Definition no_buckets : Buckets := mkBuckets ∅ ∅ ∅.

Definition bucket_paths (b : Bucket) : list string := (map_to_list b).*2.*2.

Definition gfs_keep_set (files : list (string * SystemTime)) (retention_days : N) (now : SystemTime) : list string :=
  let b := foldl (gfs_step retention_days (unix_secs now)) no_buckets files in
  let out := bucket_paths (daily b) ++ bucket_paths (weekly b) ++ bucket_paths (monthly b) in
  dedup_by (λ a b, bool_decide (a = b)) (sort_by String.compare out).

(** * The directory *)

Record FileEntry : Type := mkEntry {
  is_file : bool;
  modified : option SystemTime;
}.

(** The destination and the outcomes of the next system calls on it; when the list is exhausted
    they succeed. *)
Record Destination : Type := mkDestination {
  entries : gmap string FileEntry;
  faults : list bool;
}.

Inductive SnapshotIo : Type := Io (call : string).

Abbreviation FS := (ST Destination SnapshotIo).

(** A system call that may fail. *)
Definition sys (call : string) : FS unit := λ w,
  match faults w with
  | true :: fs => (Err (Io call), mkDestination (entries w) fs)
  | false :: fs => (Ok tt, mkDestination (entries w) fs)
  | [] => (Ok tt, w)
  end.

(** [fs::remove_file]: a directory is not removed. *)
Definition remove_file (name : string) : FS unit :=
  do! sys "unlink" in
  let! w := gets (λ w, w) in
  match entries w !! name with
  | Some e => if is_file e then modify (λ w, mkDestination (delete name (entries w)) (faults w)) else throw (Io "unlink")
  | None => throw (Io "unlink")
  end.

(** A name that discovery takes for an archive; a name that is not UTF-8 is none. *)
Definition is_archive_name (name : string) : bool :=
  valid_utf8 (chars name) && has_prefix ENCRYPTED_PREFIX name &&
  (has_suffix ENCRYPTED_SUFFIX name || has_suffix ZSTD_SUFFIX name || has_suffix ZSTD_GPG_SUFFIX name) &&
  negb (has_suffix SIDECAR_SUFFIX name).

(** The loop over the entries; the names in the order of the directory. *)
Fixpoint collect_archives (names : list string) : FS (list (string * SystemTime)) :=
  match names with
  | [] => ok []
  | name :: names =>
      do! sys "readdir" in
      let! w := gets (λ w, w) in
      match entries w !! name with
      | Some e =>
          if is_file e && is_archive_name name then
            do! sys "stat" in
            let! rest := collect_archives names in
            ok ((name, default 0%Z (modified e)) :: rest)
          else collect_archives names
      | None => collect_archives names
      end
  end.

Definition list_snapshot_files (names : list string) : FS (list (string * SystemTime)) :=
  do! sys "opendir" in
  let! out := collect_archives names in
  ok (sort_by (λ a b, Z.compare b.2 a.2) out).

Definition sidecar_path_for (archive : string) : string := (archive +:+ SIDECAR_SUFFIX)%string.

(** The sidecar of a deleted archive goes as well, if it can. *)
Definition remove_sidecar (path : string) : FS unit :=
  let sidecar := sidecar_path_for path in
  let! w := gets (λ w, w) in
  match entries w !! sidecar with
  | Some _ => let! _ := attempt (remove_file sidecar : FS unit) in ok tt
  | None => ok tt
  end.

(** The deletions of [prune_gfs_execute]. *)
Fixpoint remove_others (keep : list string) (files : list (string * SystemTime)) : FS (list string) :=
  match files with
  | [] => ok []
  | (path, _) :: files =>
      if decide (path ∈ keep) then remove_others keep files
      else
        do! remove_file path in
        do! remove_sidecar path in
        let! removed := remove_others keep files in
        ok (path :: removed)
  end.

Definition prune_gfs (names : list string) (retention_days : N) (now : SystemTime) : FS (list string) :=
  let! files := list_snapshot_files names in
  ok (gfs_keep_set files retention_days now).

Definition prune_gfs_execute (names : list string) (retention_days : N) (now : SystemTime) : FS (list string) :=
  let! files := list_snapshot_files names in
  let keep := gfs_keep_set files retention_days now in
  remove_others keep files.

(** * The selection as a choice per slot *)

Inductive Slot : Type :=
| Daily (day : N)
| Weekly (week : N)
| Monthly (month : N).

#[export] Instance Slot_eq_dec : EqDecision Slot.
Proof. solve_decision. Defined.

(** The slot that a snapshot of second [m] competes for, if any. *)
Definition slot_of (retention_days now m : N) : option Slot :=
  if (now <? m)%N then Some (Daily 0)
  else
    let age := ((now - m) / SECS_PER_DAY)%N in
    if (age <? retention_days)%N then Some (Daily age)
    else if (age <? retention_days + 56)%N then Some (Weekly ((age - retention_days) / 7))
    else if (age <? retention_days + 236)%N then Some (Monthly ((age - retention_days - 56) / 30))
    else None.

Definition slot_get (b : Buckets) (s : Slot) : option (N * string) :=
  match s with
  | Daily k => daily b !! k
  | Weekly k => weekly b !! k
  | Monthly k => monthly b !! k
  end.

(** The newest of a list, the first one of several equally new. *)
Definition better (o : option (N * string)) (m : N) (p : string) : option (N * string) :=
  match o with
  | Some (t, _) => if (t <? m)%N then Some (m, p) else o
  | None => Some (m, p)
  end.

Section Selection.
Context (days now : N).

Abbreviation file_slot f := (slot_of days now (unix_secs (snd f))).

Definition best_step (s : Slot) (o : option (N * string)) (f : string * SystemTime) : option (N * string) :=
  if decide (file_slot f = Some s) then better o (unix_secs f.2) f.1 else o.
Definition best (s : Slot) (files : list (string * SystemTime)) : option (N * string) :=
  foldl (best_step s) None files.

Lemma pick_lookup slot k m p k' :
  pick slot k m p !! k' = if decide (k = k') then better (slot !! k) m p else slot !! k'.
Proof.
  unfold pick, better. destruct (decide (k = k')) as [<-|Hn].
  - destruct (slot !! k) as [[t q]|] eqn:E; [|by rewrite lookup_insert_eq]. destruct (t <? m)%N; [by rewrite lookup_insert_eq|done].
  - destruct (slot !! k) as [[t q]|]; [destruct (t <? m)%N; [|done]|]; by rewrite lookup_insert_ne.
Qed.

Lemma gfs_step_get b f s : slot_get (gfs_step days now b f) s = best_step s (slot_get b s) f.
Proof.
  destruct f as [p t]. unfold best_step, slot_of, gfs_step. cbn [fst snd]. set (m := unix_secs t).
  change (weekly_buckets * 7)%N with 56%N. change (monthly_buckets * 30)%N with 180%N.
  replace (days + 56 + 180)%N with (days + 236)%N by lia.
  repeat match goal with |- context [if (?x <? ?y)%N then _ else _] => destruct (x <? y)%N eqn:? end;
    destruct s; cbn [slot_get daily weekly monthly]; rewrite ?pick_lookup;
    repeat case_decide; naive_solver.
Qed.

Lemma fold_get files b s :
  slot_get (foldl (gfs_step days now) b files) s = foldl (best_step s) (slot_get b s) files.
Proof. revert b; induction files as [|f files IH]; intros b; [done|]. cbn. by rewrite IH, gfs_step_get. Qed.

Lemma best_get files s : slot_get (foldl (gfs_step days now) no_buckets files) s = best s files.
Proof. rewrite fold_get. destruct s; cbn; by rewrite lookup_empty. Qed.
End Selection.

Lemma elem_of_bucket_paths (b : Bucket) p : p ∈ bucket_paths b <-> exists k m, b !! k = Some (m, p).
Proof.
  unfold bucket_paths. rewrite list_elem_of_fmap. split.
  - intros ([m q] & -> & ([k [m' q']] & E & Hin)%list_elem_of_fmap). injection E as -> ->.
    apply elem_of_map_to_list in Hin. by exists k, m'.
  - intros (k & m & Hk). exists (m, p). split; [done|]. apply list_elem_of_fmap. exists (k, (m, p)).
    split; [done|]. by apply elem_of_map_to_list.
Qed.

(** A path is kept when it is the best of a slot. *)
Lemma elem_of_keep files days now p :
  p ∈ gfs_keep_set files days now <-> exists s m, best days (unix_secs now) s files = Some (m, p).
Proof.
  unfold gfs_keep_set. rewrite elem_of_dedup_by, elem_of_sort_by, !elem_of_app, !elem_of_bucket_paths.
  setoid_rewrite <- best_get. split.
  - intros [(k & m & H)|[(k & m & H)|(k & m & H)]]; [by exists (Daily k), m|by exists (Weekly k), m|by exists (Monthly k), m].
  - intros ([k|k|k] & m & H); [left|right; left|right; right]; by exists k, m.
Qed.

Section Best.
Context (days now : N) (s : Slot).

Abbreviation in_slot f := (slot_of days now (unix_secs (snd f)) = Some s).

(** [p], of second [m], is the first of the newest files of the slot. *)
Definition newest (files : list (string * SystemTime)) (m : N) (p : string) : Prop :=
  exists before t after, files = before ++ (p, t) :: after /\ unix_secs t = m /\ in_slot (p, t) /\
    (forall f, f ∈ before -> in_slot f -> (unix_secs f.2 < m)%N) /\
    (forall f, f ∈ after -> in_slot f -> (unix_secs f.2 <= m)%N).

Lemma best_app files f : best days now s (files ++ [f]) = best_step days now s (best days now s files) f.
Proof. unfold best. by rewrite foldl_app. Qed.

Lemma best_none files : best days now s files = None <-> forall f, f ∈ files -> ~ in_slot f.
Proof.
  induction files as [|f files IH] using rev_ind.
  - split; [|done]. intros _ f Hf. by apply elem_of_nil in Hf.
  - rewrite best_app. unfold best_step. case_decide as Hf.
    + split; [unfold better; repeat case_match; done|]. intros H. exfalso. apply (H f); [|done]. apply elem_of_app. right. by apply list_elem_of_singleton.
    + rewrite IH. setoid_rewrite elem_of_app. setoid_rewrite list_elem_of_singleton. naive_solver.
Qed.

Lemma newest_snoc files f m p : in_slot f ->
  (forall m' p', newest files m' p' <-> best days now s files = Some (m', p')) ->
  newest (files ++ [f]) m p <-> better (best days now s files) (unix_secs f.2) f.1 = Some (m, p).
Proof.
  intros Hf IH. destruct f as [q t]. cbn [fst snd] in *. split.
  - intros (before & t' & after & E & Hm & Hs & Hb & Ha). destruct after as [|f after _] using rev_ind.
    + apply app_inj_tail in E as [-> E]. injection E as -> ->. subst m.
      destruct (best days now s before) as [[m' p']|] eqn:Eb; cbn; [|done].
      destruct (proj2 (IH m' p') eq_refl) as (b' & t1 & a' & -> & <- & Hs' & _). rewrite (proj2 (N.ltb_lt _ _)); [done|].
      apply (Hb (p', t1)); [apply elem_of_app; right; by left|done].
    + rewrite app_comm_cons, app_assoc in E. apply app_inj_tail in E as [-> <-].
      assert (newest (before ++ (p, t') :: after) m p) as Hn.
      { exists before, t', after. repeat split; try done. intros g Hg. apply Ha. apply elem_of_app. by left. }
      apply IH in Hn. rewrite Hn. cbn. rewrite (proj2 (N.ltb_ge _ _)); [done|].
      apply (Ha (q, t)); [apply elem_of_app; right; by apply list_elem_of_singleton|done].
  - destruct (best days now s files) as [[m' p']|] eqn:Eb; cbn.
    + destruct (m' <? unix_secs t)%N eqn:Hlt; intros [= <- <-].
      * apply N.ltb_lt in Hlt. exists files, t, []. split; [done|]. split; [done|]. split; [done|]. split; [|by intros f Hg%elem_of_nil].
        intros f Hg Hs. eapply N.le_lt_trans; [|exact Hlt]. destruct (proj2 (IH m' p') eq_refl) as (b' & t1 & a' & -> & <- & Hs' & Hb' & Ha').
        apply elem_of_app in Hg as [Hg|Hg]; [specialize (Hb' f Hg Hs); lia|]. apply elem_of_cons in Hg as [->|Hg]; [done|]. by apply Ha'.
      * apply N.ltb_ge in Hlt. destruct (proj2 (IH m' p') eq_refl) as (b' & t1 & a' & -> & E & Hs' & Hb' & Ha').
        exists b', t1, (a' ++ [(q, t)]). rewrite <- app_assoc. split; [done|]. split; [done|]. split; [done|]. split; [done|].
        intros f [Hg|Hg%list_elem_of_singleton]%elem_of_app Hs; [by apply Ha'|by subst f].
    + intros [= <- <-]. exists files, t, []. split; [done|]. split; [done|]. split; [done|]. split; [|by intros f Hg%elem_of_nil].
      intros f Hg Hs. exfalso. by apply (proj1 (best_none files) Eb f).
Qed.

Lemma best_newest files m p : newest files m p <-> best days now s files = Some (m, p).
Proof.
  revert m p. induction files as [|f files IH] using rev_ind; intros m p.
  - split; [|done]. intros ([|] & t & after & E & _); done.
  - rewrite best_app. unfold best_step. case_decide as Hf; [by apply newest_snoc|].
    rewrite <- IH. split.
    + intros (before & t' & after & E & Hm & Hs & Hb & Ha). destruct after as [|g after _] using rev_ind.
      { apply app_inj_tail in E as [-> ->]. done. }
      rewrite app_comm_cons, app_assoc in E. apply app_inj_tail in E as [-> <-].
      exists before, t', after. repeat split; try done. intros h Hh. apply Ha. apply elem_of_app. by left.
    + intros (before & t' & after & -> & Hm & Hs & Hb & Ha). exists before, t', (after ++ [f]).
      rewrite <- app_assoc. split; [done|]. split; [done|]. split; [done|]. split; [done|].
      intros g [Hg|Hg%list_elem_of_singleton]%elem_of_app Hgs; [by apply Ha|by subst g].
Qed.
End Best.

(** The selection keeps, of each of the last [retention_days] days, of each of the eight weeks
    before them and of each of the six spans of thirty days before these, the newest snapshot,
    and nothing else; the result is sorted without duplicates. *)
Theorem gfs_keep_spec files retention_days now :
  (forall p, p ∈ gfs_keep_set files retention_days now <->
     exists s m, newest retention_days (unix_secs now) s files m p) /\
  StronglySorted (cmp_lt String.compare) (gfs_keep_set files retention_days now).
Proof.
  split.
  - intros p. rewrite elem_of_keep. by setoid_rewrite best_newest.
  - unfold gfs_keep_set. refine (dedup_by_strict String.compare _ _ _ (sort_by_sorted String.compare _)).
    intros x y ->%String.compare_eq_iff. by apply bool_decide_eq_true_2.
Qed.

Lemma keep_is_file files days now p : p ∈ gfs_keep_set files days now -> exists t, (p, t) ∈ files.
Proof.
  rewrite elem_of_keep. intros (s & m & (before & t & after & -> & _)%best_newest). exists t.
  apply elem_of_app. right. by left.
Qed.

(** With distinct seconds the order of the files does not matter. *)
Lemma keep_distinct files days now p :
  NoDup files -> (forall f g, f ∈ files -> g ∈ files -> unix_secs f.2 = unix_secs g.2 -> f = g) ->
  p ∈ gfs_keep_set files days now <->
  exists s t, (p, t) ∈ files /\ slot_of days (unix_secs now) (unix_secs t) = Some s /\
    forall f, f ∈ files -> slot_of days (unix_secs now) (unix_secs f.2) = Some s -> (unix_secs f.2 <= unix_secs t)%N.
Proof.
  intros Hnd Hinj. rewrite elem_of_keep. setoid_rewrite <- best_newest. split.
  - intros (s & m & before & t & after & -> & <- & Hs & Hb & Ha). exists s, t. split; [apply elem_of_app; right; by left|].
    split; [done|]. intros f [Hf|[->|Hf]%elem_of_cons]%elem_of_app Hfs; [specialize (Hb f Hf Hfs); lia|done|by apply Ha].
  - intros (s & t & Hin & Hs & Hall). exists s, (unix_secs t). apply list_elem_of_split in Hin as (before & after & E).
    exists before, t, after. split; [done|]. split; [done|]. split; [done|]. rewrite E in *. split.
    + intros f Hf Hfs. pose proof (Hall f ltac:(apply elem_of_app; by left) Hfs) as Hle.
      destruct (decide (unix_secs f.2 = unix_secs t)) as [Heq|]; [|lia]. exfalso.
      assert (f = (p, t)) as ->.
      { apply Hinj; [apply elem_of_app; by left|apply elem_of_app; right; by left|done]. }
      apply NoDup_app in Hnd as (_ & Hd & _). by apply (Hd _ Hf); left.
    + intros f Hf Hfs. apply Hall; [|done]. apply elem_of_app. right. by right.
Qed.

(** * Pruning a destination *)

(** The archives of a destination, in the order its names are read. *)
Definition archive_of (w : Destination) (name : string) : option (string * SystemTime) :=
  match entries w !! name with
  | Some e => if is_file e && is_archive_name name then Some (name, default 0%Z (modified e)) else None
  | None => None
  end.

Definition archives (w : Destination) (names : list string) : list (string * SystemTime) := omap (archive_of w) names.

Lemma sys_entries call w : entries (sys call w).2 = entries w.
Proof. unfold sys. by destruct (faults w) as [|[] fs]. Qed.

Lemma sys_reliable call w : faults w = [] -> sys call w = (Ok tt, w).
Proof. unfold sys. by intros ->. Qed.

Lemma archives_ext w w' names : entries w' = entries w -> archives w' names = archives w names.
Proof. intros E. unfold archives, archive_of. by rewrite E. Qed.

Lemma archives_cons w name names :
  archives w (name :: names) = match archive_of w name with Some a => a :: archives w names | None => archives w names end.
Proof. done. Qed.

(** Discovery changes no file; if it succeeds it has found all archives, and without faults it
    succeeds. *)
Lemma collect_spec names w r w' : collect_archives names w = (r, w') ->
  entries w' = entries w /\ (forall out, r = Ok out -> out = archives w names) /\
  (faults w = [] -> r = Ok (archives w names) /\ w' = w).
Proof.
  revert w r w'. induction names as [|name names IH]; intros w r w'.
  { intros [= <- <-]. split; [done|]. by split; [intros out [= <-]|]. }
  cbn [collect_archives]. unfold bind, gets. pose proof (sys_entries "readdir" w) as E1. pose proof (sys_reliable "readdir" w) as R1.
  destruct (sys "readdir" w) as [[[]|e] w1]; cbn [snd] in E1.
  2: { intros [= <- <-]. split; [done|]. split; [done|]. intros Hf. by specialize (R1 Hf). }
  rewrite E1. assert (faults w = [] -> w1 = w) as R1' by (intros Hf; specialize (R1 Hf); congruence).
  rewrite archives_cons. unfold archive_of. destruct (entries w !! name) as [d|] eqn:Hd.
  2: { intros Hr. destruct (IH _ _ _ Hr) as (E2 & O2 & R2). rewrite <- (archives_ext w w1) by done.
       split; [congruence|]. split; [exact O2|]. intros Hf. specialize (R1' Hf) as ->. by apply R2. }
  destruct (is_file d && is_archive_name name) eqn:Ha.
  2: { intros Hr. destruct (IH _ _ _ Hr) as (E2 & O2 & R2). rewrite <- (archives_ext w w1) by done.
       split; [congruence|]. split; [exact O2|]. intros Hf. specialize (R1' Hf) as ->. by apply R2. }
  pose proof (sys_entries "stat" w1) as E2. pose proof (sys_reliable "stat" w1) as R2.
  destruct (sys "stat" w1) as [[[]|e] w2]; cbn [snd] in E2.
  2: { intros [= <- <-]. split; [congruence|]. split; [done|]. intros Hf. specialize (R1' Hf) as ->. by specialize (R2 Hf). }
  destruct (collect_archives names w2) as [[rest|e] w3] eqn:Hr; intros [= <- <-]; destruct (IH _ _ _ Hr) as (E3 & O3 & R3).
  - split; [congruence|]. rewrite <- (archives_ext w w2) by congruence. split.
    + intros out [= <-]. by rewrite (O3 rest eq_refl).
    + intros Hf. specialize (R1' Hf) as ->. specialize (R2 Hf). injection R2 as ->. destruct (R3 Hf) as [R4 ->].
      injection R4 as <-. done.
  - split; [congruence|]. split; [done|]. intros Hf. specialize (R1' Hf) as ->. specialize (R2 Hf). injection R2 as ->.
    by destruct (R3 Hf).
Qed.

Definition by_mtime_desc (a b : string * SystemTime) : comparison := Z.compare b.2 a.2.

Lemma list_spec names w r w' : list_snapshot_files names w = (r, w') ->
  entries w' = entries w /\ (forall out, r = Ok out -> out = sort_by by_mtime_desc (archives w names)) /\
  (faults w = [] -> r = Ok (sort_by by_mtime_desc (archives w names)) /\ w' = w).
Proof.
  unfold list_snapshot_files, bind. pose proof (sys_entries "opendir" w) as E1. pose proof (sys_reliable "opendir" w) as R1.
  destruct (sys "opendir" w) as [[[]|e] w1]; cbn [snd] in E1.
  2: { intros [= <- <-]. split; [done|]. split; [done|]. intros Hf. by specialize (R1 Hf). }
  destruct (collect_archives names w1) as [[out|e] w2] eqn:Hr; intros [= <- <-]; destruct (collect_spec _ _ _ _ Hr) as (E2 & O2 & R2);
    (split; [congruence|]); rewrite <- (archives_ext w w1) by done.
  - split; [intros o [= <-]; by rewrite (O2 out eq_refl)|]. intros Hf. specialize (R1 Hf). injection R1 as ->.
    destruct (R2 Hf) as [R3 ->]. injection R3 as <-. done.
  - split; [done|]. intros Hf. specialize (R1 Hf). injection R1 as ->. by destruct (R2 Hf).
Qed.

(** What [remove_others] may delete: the archives outside the keep-set and their sidecars. *)
Definition expendable (keep : list string) (files : list (string * SystemTime)) (name : string) : Prop :=
  exists path, path ∈ files.*1 /\ path ∉ keep /\ (name = path \/ name = sidecar_path_for path).

Definition file_at (w : Destination) (name : string) : Prop := exists e, entries w !! name = Some e /\ is_file e = true.

#[export] Instance file_at_dec w name : Decision (file_at w name).
Proof.
  refine (match entries w !! name as o return entries w !! name = o -> Decision (file_at w name) with
    | Some e => λ E, if decide (is_file e = true) then left _ else right _
    | None => λ E, right _ end eq_refl).
  - by exists e.
  - intros (d & Hd & ?); congruence.
  - intros (d & Hd & ?); congruence.
Defined.

Lemma remove_file_spec name w r w' : remove_file name w = (r, w') ->
  (r = Ok tt /\ entries w' = delete name (entries w) \/ entries w' = entries w /\ is_ok r = false) /\
  (faults w = [] -> file_at w name -> r = Ok tt /\ w' = mkDestination (delete name (entries w)) []) /\
  (faults w = [] -> ~ file_at w name -> w' = w).
Proof.
  assert (file_at w name <-> exists e, entries w !! name = Some e /\ is_file e = true) as Hat by done.
  unfold remove_file, bind, sys, gets, modify, throw. destruct w as [m fl]. cbn in *.
  destruct fl as [|[] fs]; cbn; (destruct (m !! name) as [e|] eqn:He; [destruct (is_file e) eqn:Hfile|]); cbn; rewrite ?He, ?Hfile;
    intros [= <- <-]; (split; [by auto|split; intros Hf Hx; try done]); try (apply Hat in Hx as (? & ? & ?); congruence).
  exfalso. apply Hx, Hat. by exists e.
Qed.

(** The sidecar goes or stays, and nothing else changes. *)
Lemma remove_sidecar_spec path w r w' : remove_sidecar path w = (r, w') ->
  r = Ok tt /\ (entries w' = entries w \/ entries w' = delete (sidecar_path_for path) (entries w)) /\
  (faults w = [] -> faults w' = [] /\
    (file_at w (sidecar_path_for path) -> entries w' = delete (sidecar_path_for path) (entries w)) /\
    (~ file_at w (sidecar_path_for path) -> entries w' = entries w)).
Proof.
  unfold remove_sidecar, bind, gets. destruct (entries w !! sidecar_path_for path) eqn:Hs.
  - unfold attempt. destruct (remove_file (sidecar_path_for path) w) as [r1 w1] eqn:H1. intros [= <- <-].
    destruct (remove_file_spec _ _ _ _ H1) as (D & R & N). split; [done|]. split; [naive_solver|]. intros Hf.
    destruct (decide (file_at w (sidecar_path_for path))) as [Hat|Hat]; [destruct (R Hf Hat) as [_ ->]; by repeat split|].
    by rewrite (N Hf Hat).
  - intros [= <- <-]. split; [done|]. split; [by left|]. intros Hf. split; [done|]. split; [|done]. intros (e & He & _). congruence.
Qed.

Lemma expendable_cons keep path t files name : path ∉ keep ->
  expendable keep ((path, t) :: files) name <-> name = path \/ name = sidecar_path_for path \/ expendable keep files name.
Proof.
  intros Hk. unfold expendable. cbn [fmap list_fmap fst]. setoid_rewrite elem_of_cons. naive_solver.
Qed.

Lemma expendable_kept keep path t files name : path ∈ keep ->
  expendable keep ((path, t) :: files) name <-> expendable keep files name.
Proof.
  intros Hk. unfold expendable. cbn [fmap list_fmap fst]. setoid_rewrite elem_of_cons. naive_solver.
Qed.

(** Whatever fails, nothing else is deleted. *)
Lemma remove_others_safe keep files w r w' : remove_others keep files w = (r, w') ->
  forall name, entries w' !! name = entries w !! name \/ entries w' !! name = None /\ expendable keep files name.
Proof.
  revert w r w'. induction files as [|[path t] files IH]; intros w r w'; [intros [= <- <-]; by left|].
  cbn [remove_others]. case_decide as Hk.
  { intros Hr name. rewrite expendable_kept by done. by apply (IH _ _ _ Hr). }
  setoid_rewrite expendable_cons; [|done]. unfold bind.
  destruct (remove_file path w) as [r1 w1] eqn:H1. pose proof (remove_file_spec _ _ _ _ H1) as [D1 _].
  assert (forall name, entries w1 !! name = entries w !! name \/ entries w1 !! name = None /\ name = path) as S1.
  { intros name. destruct D1 as [[_ ->]|[-> _]]; [|by left].
    destruct (decide (name = path)) as [->|Hn]; [right; by rewrite lookup_delete_eq|left; by rewrite lookup_delete_ne]. }
  destruct r1 as [[]|e]; [|intros [= <- <-] name; specialize (S1 name); tauto].
  destruct (remove_sidecar path w1) as [r2 w2] eqn:H2. destruct (remove_sidecar_spec _ _ _ _ H2) as (-> & D2 & _).
  assert (forall name, entries w2 !! name = entries w1 !! name \/ entries w2 !! name = None /\ name = sidecar_path_for path) as S2.
  { intros name. destruct D2 as [->| ->]; [by left|].
    destruct (decide (name = sidecar_path_for path)) as [->|Hn]; [right; by rewrite lookup_delete_eq|left; by rewrite lookup_delete_ne]. }
  destruct (remove_others keep files w2) as [r3 w3] eqn:H3. intros Hrest.
  assert (w' = w3) as -> by (destruct r3; by injection Hrest).
  intros name. specialize (S1 name). specialize (S2 name). destruct (IH _ _ _ H3 name) as [H|[Ha Hb]]; [rewrite H|tauto].
  destruct S2 as [->|[-> ->]]; tauto.
Qed.

Lemma has_suffix_app p s : has_suffix p (s +:+ p) = true.
Proof.
  unfold has_suffix, starts_with. rewrite chars_app, reverse_app. generalize (reverse (chars p)) as l. intros l.
  assert (strip_prefix l (l ++ reverse (chars s)) = Some (reverse (chars s))) as ->; [|done].
  induction l as [|c l IH]; [done|]. cbn. by rewrite decide_True.
Qed.

Lemma sidecar_is_no_archive path : is_archive_name (sidecar_path_for path) = false.
Proof. unfold is_archive_name, sidecar_path_for. rewrite has_suffix_app. by rewrite andb_false_r. Qed.

Lemma sidecar_differs path : sidecar_path_for path <> path.
Proof. intros E%(f_equal chars%string)%(f_equal length). unfold sidecar_path_for in E. rewrite chars_app, length_app in E. cbn in E. lia. Qed.

(** Deleting an archive and its sidecar. *)
Lemma remove_pair path w : faults w = [] -> file_at w path ->
  exists w1 w2, remove_file path w = (Ok tt, w1) /\ remove_sidecar path w1 = (Ok tt, w2) /\ faults w2 = [] /\
    let dead name := name = path \/ name = sidecar_path_for path /\ file_at w name in
    forall name, (dead name /\ entries w2 !! name = None) \/ (~ dead name /\ entries w2 !! name = entries w !! name).
Proof.
  intros Hf Hp. destruct (remove_file path w) as [r1 w1] eqn:H1. exists w1.
  destruct (remove_file_spec _ _ _ _ H1) as (_ & R & _). destruct (R Hf Hp) as [-> ->]. clear R.
  set (w1 := mkDestination _ _) in *. destruct (remove_sidecar path w1) as [r2 w2] eqn:H2. exists w2.
  destruct (remove_sidecar_spec _ _ _ _ H2) as (-> & _ & R). destruct (R eq_refl) as (Hf2 & R1 & R2). clear R.
  split; [done|]. split; [done|]. split; [done|]. intros dead name. subst dead. cbv beta.
  pose proof (sidecar_differs path) as Hd.
  assert (file_at w1 (sidecar_path_for path) <-> file_at w (sidecar_path_for path)) as Hs.
  { unfold file_at, w1. cbn. by rewrite lookup_delete_ne by congruence. }
  assert (entries w1 !! path = None /\ forall n, n <> path -> entries w1 !! n = entries w !! n) as [D1 D2].
  { unfold w1. cbn. split; [by rewrite lookup_delete_eq|]. intros n Hn. by rewrite lookup_delete_ne. }
  destruct (decide (file_at w (sidecar_path_for path))) as [Hat|Hat].
  - rewrite R1 by (by apply Hs). destruct (decide (name = sidecar_path_for path)) as [->|Hn1]; [left; rewrite lookup_delete_eq; auto|].
    rewrite lookup_delete_ne by done. destruct (decide (name = path)) as [->|Hn2]; [left; auto|right]. rewrite D2 by done. tauto.
  - rewrite R2 by (by rewrite Hs). destruct (decide (name = path)) as [->|Hn2]; [left; auto|right].
    rewrite D2 by done. split; [|done]. intros [|[-> ?]]; done.
Qed.

(** Without faults everything expendable goes. *)
Lemma remove_others_reliable keep files w : faults w = [] -> NoDup files.*1 ->
  (forall p, p ∈ files.*1 -> is_archive_name p = true /\ file_at w p) ->
  exists w', remove_others keep files w = (Ok (filter (λ p, p ∉ keep) files.*1), w') /\ faults w' = [] /\
    forall name, entries w' !! name = None <-> entries w !! name = None \/ file_at w name /\ expendable keep files name.
Proof.
  revert w. induction files as [|[path t] files IH]; intros w Hf Hnd Harch.
  { exists w. split; [done|]. split; [done|]. intros name. split; [by left|]. intros [H|(_ & q & Hq & _)]; [done|by apply elem_of_nil in Hq]. }
  cbn [remove_others]. rewrite fmap_cons in Hnd, Harch |- *. cbn [fst] in Hnd, Harch |- *. apply NoDup_cons in Hnd as [Hpath Hnd].
  rewrite filter_cons. destruct (decide (path ∈ keep)) as [Hk|Hk].
  { destruct (IH w Hf Hnd) as (w' & -> & Hf' & Hall); [intros p Hp; apply Harch; by right|]. exists w'. rewrite decide_False by naive_solver.
    split; [done|]. split; [done|]. intros name. by rewrite Hall, expendable_kept. }
  rewrite decide_True by done. destruct (Harch path) as [_ Hfile]; [by left|].
  destruct (remove_pair path w Hf Hfile) as (w1 & w2 & E1 & E2 & Hf2 & H2). cbv zeta in H2. unfold bind, ok. rewrite E1, E2.
  destruct (IH w2 Hf2 Hnd) as (w' & -> & Hf' & Hall).
  { intros p Hp. destruct (Harch p) as [Ha Hat]; [by right|]. split; [done|]. destruct (H2 p) as [[[->|[-> _]] _]|[_ E]]; [done| |].
    - by rewrite sidecar_is_no_archive in Ha.
    - unfold file_at in *. by rewrite E. }
  exists w'. split; [done|]. split; [done|]. intros name. rewrite Hall, expendable_cons by done.
  destruct (H2 name) as [[Hdead ->]|[Hn E]]; [|unfold file_at in *; rewrite E; tauto].
  split; [|by left]. intros _. right. destruct Hdead as [->|[-> Hat]]; tauto.
Qed.

Abbreviation snapshots w names := (sort_by by_mtime_desc (archives w names)).

Lemma prune_unfold names days now w :
  prune_gfs_execute names days now w =
  match list_snapshot_files names w with
  | (Ok files, w1) => remove_others (gfs_keep_set files days now) files w1
  | (Err e, w1) => (Err e, w1)
  end.
Proof. done. Qed.

Lemma archives_names w names : (archives w names).*1 `sublist_of` names.
Proof.
  induction names as [|name names IH]; [constructor|]. rewrite archives_cons. unfold archive_of.
  destruct (entries w !! name) as [e|]; [|by constructor]. destruct (_ && _); by constructor.
Qed.

Lemma elem_of_archives w names p t : (p, t) ∈ archives w names <->
  p ∈ names /\ exists e, entries w !! p = Some e /\ is_file e = true /\ is_archive_name p = true /\ t = default 0%Z (modified e).
Proof.
  unfold archives. rewrite list_elem_of_omap. unfold archive_of. split.
  - intros (name & Hn & E). destruct (entries w !! name) as [e|] eqn:He; [|done].
    destruct (is_file e && is_archive_name name) eqn:Ha; [|done]. injection E as -> <-. apply andb_prop in Ha as [H1 H2]. naive_solver.
  - intros (Hn & e & He & Hf & Ha & ->). exists p. by rewrite He, Hf, Ha.
Qed.

(** The files that pruning considers. *)
Lemma snapshots_files w names p : p ∈ (snapshots w names).*1 -> is_archive_name p = true /\ file_at w p.
Proof.
  intros ([q t] & -> & H)%list_elem_of_fmap. apply elem_of_sort_by, elem_of_archives in H as (_ & e & He & Hf & Ha & _).
  split; [done|]. by exists e.
Qed.

Lemma snapshots_names w names : NoDup names -> NoDup (snapshots w names).*1.
Proof. intros Hnd. rewrite sort_by_perm. by eapply sublist_NoDup; [|apply archives_names]. Qed.

(** An archive is no sidecar: it is expendable exactly when it is not kept. *)
Lemma expendable_archive keep (files : list (string * SystemTime)) name : is_archive_name name = true -> name ∈ files.*1 ->
  expendable keep files name <-> name ∉ keep.
Proof.
  intros Ha Hin. split; [|intros Hn; exists name; auto]. intros (q & _ & Hq & [->| ->]); [done|].
  by rewrite sidecar_is_no_archive in Ha.
Qed.

Lemma prune_run names days now w r w' : prune_gfs_execute names days now w = (r, w') ->
  let keep := gfs_keep_set (snapshots w names) days now in
  (forall name, entries w' !! name = entries w !! name \/
     entries w' !! name = None /\ expendable keep (snapshots w names) name) /\
  (faults w = [] -> NoDup names ->
     r = Ok (filter (λ p, p ∉ keep) (snapshots w names).*1) /\ faults w' = [] /\
     forall name, entries w' !! name = None <->
       entries w !! name = None \/ file_at w name /\ expendable keep (snapshots w names) name).
Proof.
  intros Hrun. rewrite prune_unfold in Hrun. destruct (list_snapshot_files names w) as [[files|e] w1] eqn:Hl;
    destruct (list_spec _ _ _ _ Hl) as (E1 & O1 & R1); cbv zeta.
  - rewrite (O1 files eq_refl) in Hrun. split.
    + intros name. rewrite <- E1. by apply (remove_others_safe _ _ _ _ _ Hrun).
    + intros Hf Hnd. destruct (R1 Hf) as [_ ->].
      destruct (remove_others_reliable (gfs_keep_set (snapshots w names) days now) (snapshots w names) w Hf (snapshots_names w names Hnd) (snapshots_files w names))
        as (w2 & Hr & Hf2 & Hall). rewrite Hr in Hrun. by injection Hrun as <- <-.
  - injection Hrun as <- <-. split; [intros name; left; by rewrite E1|]. intros Hf. by destruct (R1 Hf).
Qed.

(** [path] is the newest snapshot of one of the slots. *)
Definition chosen (days : N) (now : SystemTime) (files : list (string * SystemTime)) (path : string) : Prop :=
  exists s m, newest days (unix_secs now) s files m path.

Definition doomed (days : N) (now : SystemTime) (files : list (string * SystemTime)) (name : string) : Prop :=
  exists path, path ∈ files.*1 /\ ~ chosen days now files path /\ (name = path \/ name = sidecar_path_for path).

Lemma chosen_keep days now files path : path ∈ gfs_keep_set files days now <-> chosen days now files path.
Proof. rewrite elem_of_keep. unfold chosen. by setoid_rewrite best_newest. Qed.

Lemma doomed_expendable days now files name : expendable (gfs_keep_set files days now) files name <-> doomed days now files name.
Proof. unfold expendable, doomed. by setoid_rewrite chosen_keep. Qed.

(** Pruning keeps, of each of the last [retention_days] days, of each of the eight weeks before
    them and of each of the six spans of thirty days before these, the newest snapshot.  It
    deletes only other archives and their sidecars: whatever system call fails and whenever,
    every other file stays as it was.  When none fails, all of these are deleted and the
    archives among them reported. *)
Theorem prune_gfs_execute_spec names days now w r w'
  (Hrun : prune_gfs_execute names days now w = (r, w')) :
  (forall name, entries w' !! name = entries w !! name \/
     entries w' !! name = None /\ doomed days now (snapshots w names) name) /\
  (faults w = [] -> NoDup names ->
     (exists removed, r = Ok removed /\
        forall path, path ∈ removed <-> path ∈ (snapshots w names).*1 /\ ~ chosen days now (snapshots w names) path) /\
     forall name, entries w' !! name = None <->
       entries w !! name = None \/ file_at w name /\ doomed days now (snapshots w names) name).
Proof.
  destruct (prune_run names days now w r w' Hrun) as [H1 H2]. setoid_rewrite <- doomed_expendable.
  split; [exact H1|]. intros Hf Hnd. destruct (H2 Hf Hnd) as (-> & _ & H3). split; [|exact H3].
  eexists. split; [done|]. intros path. rewrite list_elem_of_filter, chosen_keep. tauto.
Qed.

(** * Pruning twice *)

#[export] Instance by_mtime_desc_laws : CmpLaws by_mtime_desc.
Proof.
  unfold by_mtime_desc. split.
  - intros x y. apply Z.compare_antisym.
  - intros x y z. rewrite !Z.compare_lt_iff. lia.
  - intros x y z. rewrite Z.compare_eq_iff. by intros ->.
Qed.

(** The selection from the kept files is the selection from all. *)
Lemma best_of_kept days now s files (keep : list string) :
  (forall m p, best days now s files = Some (m, p) -> p ∈ keep) ->
  best days now s (filter (λ f, f.1 ∈ keep) files) = best days now s files.
Proof.
  intros Hkeep. destruct (best days now s files) as [[m p]|] eqn:E.
  - apply best_newest. specialize (Hkeep m p eq_refl). apply best_newest in E as (before & t & after & -> & Hm & Hs & Hb & Ha).
    exists (filter (λ f, f.1 ∈ keep) before), t, (filter (λ f, f.1 ∈ keep) after).
    rewrite filter_app, filter_cons, decide_True by done. split; [done|]. split; [done|]. split; [done|].
    split; intros f [_ Hf]%list_elem_of_filter; auto.
  - apply best_none. intros f [_ Hf]%list_elem_of_filter. revert f Hf. by apply best_none.
Qed.

Lemma keep_of_kept files days now :
  let keep := gfs_keep_set files days now in
  forall p, p ∈ gfs_keep_set (filter (λ f, f.1 ∈ keep) files) days now <-> p ∈ keep.
Proof.
  cbv zeta. intros p. rewrite (elem_of_keep (filter _ _)).
  assert (forall s, best days (unix_secs now) s (filter (λ f, f.1 ∈ gfs_keep_set files days now) files) = best days (unix_secs now) s files) as E.
  { intros s. apply best_of_kept. intros m q Hq. apply elem_of_keep. by exists s, m. }
  setoid_rewrite E. by rewrite elem_of_keep.
Qed.

Lemma omap_filter {A B} (f : A -> option B) (P : B -> Prop) `{!forall x, Decision (P x)} (g : A -> option B) (l : list A) :
  (forall x, x ∈ l -> g x = match f x with Some b => if decide (P b) then Some b else None | None => None end) ->
  omap g l = filter P (omap f l).
Proof.
  induction l as [|x l IH]; intros Hg; [done|]. csimpl. rewrite (Hg x) by left. rewrite IH by (intros; apply Hg; by right).
  destruct (f x) as [b|]; [|done]. rewrite filter_cons. by case_decide.
Qed.

(** After a prune without faults the archives are the kept ones. *)
Lemma pruned_archives names days now w r w' : prune_gfs_execute names days now w = (r, w') -> faults w = [] -> NoDup names ->
  archives w' names = filter (λ f, f.1 ∈ gfs_keep_set (snapshots w names) days now) (archives w names).
Proof.
  intros Hrun Hf Hnd. destruct (prune_run _ _ _ _ _ _ Hrun) as [H1 H2]. destruct (H2 Hf Hnd) as (_ & _ & H3). clear H2.
  set (keep := gfs_keep_set _ days now) in *. apply omap_filter. intros name Hname.
  unfold archive_of at 2. destruct (entries w !! name) as [e|] eqn:He.
  2: { unfold archive_of. destruct (H1 name) as [->|[-> _]]; by rewrite ?He. }
  destruct (is_file e && is_archive_name name) eqn:Ha.
  2: { unfold archive_of. destruct (H1 name) as [->|[-> _]]; [|done]. by rewrite He, Ha. }
  apply andb_prop in Ha as [Ha1 Ha2]. cbn [fst].
  assert (expendable keep (snapshots w names) name <-> name ∉ keep) as Hexp.
  { apply expendable_archive; [done|]. apply list_elem_of_fmap. exists (name, default 0%Z (modified e)).
    split; [done|]. apply elem_of_sort_by, elem_of_archives. split; [done|]. by exists e. }
  unfold archive_of. case_decide as Hk.
  - destruct (H1 name) as [->|[_ Hx]]; [by rewrite He, Ha1, Ha2|]. by apply Hexp in Hx.
  - rewrite (proj2 (H3 name)); [done|]. right. split; [by exists e|]. by apply Hexp.
Qed.

(** Pruning is idempotent: without faults, pruning again at the same time deletes nothing. *)
Theorem prune_twice names days now w r w'
  (Hrun : prune_gfs_execute names days now w = (r, w')) (Hf : faults w = []) (Hnd : NoDup names) :
  let '(r2, w2) := prune_gfs_execute names days now w' in
  r2 = Ok [] /\ forall name, entries w2 !! name = entries w' !! name.
Proof.
  destruct (prune_gfs_execute names days now w') as [r2 w2] eqn:Hrun2.
  destruct (prune_run _ _ _ _ _ _ Hrun) as [_ Hrel]. destruct (Hrel Hf Hnd) as (_ & Hf' & _). clear Hrel.
  destruct (prune_run _ _ _ _ _ _ Hrun2) as [H1 H2]. destruct (H2 Hf' Hnd) as (-> & _). clear H2.
  pose proof (pruned_archives _ _ _ _ _ _ Hrun Hf Hnd) as Ha. rewrite Ha in *. rewrite <- (sort_by_filter by_mtime_desc) in *.
  set (files := snapshots w names) in *.
  assert (forall p, p ∈ (filter (λ f, f.1 ∈ gfs_keep_set files days now) files).*1 ->
    p ∈ gfs_keep_set (filter (λ f, f.1 ∈ gfs_keep_set files days now) files) days now) as Hall.
  { intros p ([q t] & -> & [Hq _]%list_elem_of_filter)%list_elem_of_fmap. by apply keep_of_kept. }
  split.
  - f_equal. apply filter_none. intros p Hp Hn. by apply Hn, Hall.
  - intros name. destruct (H1 name) as [->|[_ (q & Hq & Hn & _)]]; [done|]. exfalso. by apply Hn, Hall.
Qed.

(** * Nightly pruning *)

Section Nightly.
Context (name : nat -> string) (order : gmap string FileEntry -> list string) (days : N) (t0 delta : Z).
Context (name_inj : Inj (=) (=) name) (name_archive : forall k, is_archive_name (name k) = true).
Context (order_reads : forall m, order m ≡ₚ (map_to_list m).*1).
Context (t0_pos : (0 <= t0)%Z) (delta_day : (0 <= delta <= 86399 * 1000000000)%Z).

Definition DAY : Z := 86400 * 1000000000.

(** The time of night [k]'s snapshot, and a night: create, then prune [delta] later. *)
Definition taken (k : nat) : Z := t0 + Z.of_nat k * DAY.
Definition snapshot_entry (k : nat) : FileEntry := mkEntry true (Some (taken k)).
Definition tonight (k : nat) (w : Destination) : Destination :=
  mkDestination (<[name k := snapshot_entry k]> (entries w)) (faults w).
Definition night (k : nat) (w : Destination) : Destination :=
  let w := tonight k w in (prune_gfs_execute (order (entries w)) days (taken k + delta) w).2.
Fixpoint nights (n : nat) : Destination :=
  match n with O => mkDestination ∅ [] | S n => night n (nights n) end.

(** The seconds of a night, and of the prune. *)
Definition base : N := unix_secs t0.

Lemma unix_secs_eq t : (0 <= t)%Z -> Z.of_N (unix_secs t) = (t / 1000000000)%Z.
Proof.
  intros Ht. unfold unix_secs. rewrite N2Z.inj_div, Z2N.id by done. done.
Qed.

Lemma taken_secs k : unix_secs (taken k) = (base + N.of_nat k * 86400)%N.
Proof.
  apply N2Z.inj. unfold base. rewrite N2Z.inj_add, !unix_secs_eq by (unfold taken, DAY; lia).
  unfold taken, DAY. replace (t0 + Z.of_nat k * (86400 * 1000000000))%Z with (t0 + (Z.of_nat k * 86400) * 1000000000)%Z by lia.
  rewrite Z.div_add by done. lia.
Qed.

(** The whole days between a snapshot and a prune are the nights between them. *)
Lemma prune_age k n : k <= n ->
  (unix_secs (taken n + delta) <? unix_secs (taken k) = false)%N /\
  ((unix_secs (taken n + delta) - unix_secs (taken k)) / SECS_PER_DAY = N.of_nat (n - k))%N.
Proof.
  intros Hk. assert (exists d, (d < 86400)%N /\ unix_secs (taken n + delta) = (unix_secs (taken n) + d)%N) as (d & Hd & E).
  { exists (Z.to_N ((taken n + delta) / 1000000000 - taken n / 1000000000)).
    assert (0 <= taken n)%Z by (unfold taken, DAY; lia).
    assert (taken n / 1000000000 <= (taken n + delta) / 1000000000)%Z by (apply Z.div_le_mono; lia).
    assert ((taken n + delta) / 1000000000 <= taken n / 1000000000 + 86399)%Z.
    { rewrite <- Z.div_add by done. apply Z.div_le_mono; lia. }
    split; [lia|]. apply N2Z.inj. rewrite N2Z.inj_add, !unix_secs_eq by lia. lia. }
  rewrite E, !taken_secs. split; [apply N.ltb_ge; lia|].
  replace (base + N.of_nat n * 86400 + d - (base + N.of_nat k * 86400))%N with (d + N.of_nat (n - k) * SECS_PER_DAY)%N by (unfold SECS_PER_DAY; lia).
  rewrite N.div_add by done. rewrite N.div_small by done. lia.
Qed.

(** What is there after [n] nights. *)
Definition remains (n : nat) (w : Destination) : Prop :=
  faults w = [] /\
  forall x e, entries w !! x = Some e <-> exists k, x = name k /\ e = snapshot_entry k /\ k < n /\ (N.of_nat n <= N.of_nat k + days + 1)%N.

(** The slots of the snapshots that meet at a prune: the day, or the first week for the last
    two. *)
Lemma night_slot k n : k <= n -> (N.of_nat n <= N.of_nat k + days + 1)%N ->
  slot_of days (unix_secs (taken n + delta)) (unix_secs (taken k)) =
  Some (if (N.of_nat (n - k) <? days)%N then Daily (N.of_nat (n - k)) else Weekly 0).
Proof.
  intros Hk Hn. destruct (prune_age k n Hk) as [E1 E2]. unfold slot_of. rewrite E1, E2. clear E1 E2.
  destruct (N.of_nat (n - k) <? days)%N eqn:Hd; [done|]. apply N.ltb_ge in Hd.
  rewrite (proj2 (N.ltb_lt _ _)) by lia. do 2 f_equal. apply N.div_small. lia.
Qed.

(** Snapshot [j] is there when the prune of night [n] begins. *)
Definition there (n j : nat) : Prop := j <= n /\ (N.of_nat n <= N.of_nat j + days + 1)%N.

Lemma tonight_entries n w x e : remains n w ->
  entries (tonight n w) !! x = Some e <-> exists j, x = name j /\ e = snapshot_entry j /\ there n j.
Proof.
  intros [_ Hrem]. unfold tonight, there. cbn. destruct (decide (x = name n)) as [->|Hx].
  - rewrite lookup_insert_eq. split; [intros [= <-]; exists n; repeat split; lia|]. by intros (j & <-%name_inj & -> & _).
  - rewrite lookup_insert_ne by done. rewrite Hrem.
    split; intros (j & -> & -> & H1 & H2); exists j; (split; [done|]); (split; [done|]); (split; [|done]); [lia|].
    assert (j <> n) by congruence. lia.
Qed.

Abbreviation files_of w := (snapshots w (order (entries w))).

Lemma order_nodup (m : gmap string FileEntry) : NoDup (order m).
Proof. rewrite order_reads. apply NoDup_fst_map_to_list. Qed.

Lemma tonight_files n w p t : remains n w ->
  (p, t) ∈ files_of (tonight n w) <-> exists j, p = name j /\ t = taken j /\ there n j.
Proof.
  intros Hrem. rewrite elem_of_sort_by, elem_of_archives, order_reads. split.
  - intros (_ & e & He & _ & _ & ->). apply (tonight_entries _ _ _ _ Hrem) in He as (j & -> & -> & H). by exists j.
  - intros (j & -> & -> & H).
    assert (entries (tonight n w) !! name j = Some (snapshot_entry j)) as He by (apply tonight_entries; [done|by exists j]).
    split; [apply list_elem_of_fmap; exists (name j, snapshot_entry j); split; [done|by apply elem_of_map_to_list]|].
    exists (snapshot_entry j). auto.
Qed.

Lemma taken_inj i j : unix_secs (taken i) = unix_secs (taken j) -> i = j.
Proof. rewrite !taken_secs. lia. Qed.

Lemma night_keeps n w k : remains n w -> there n k ->
  name k ∈ gfs_keep_set (files_of (tonight n w)) days (taken n + delta) <-> (N.of_nat n <= N.of_nat k + days)%N.
Proof.
  intros Hrem [Hk Hn]. rewrite keep_distinct.
  2: { apply (NoDup_fmap_1 fst), snapshots_names, order_nodup. }
  2: { intros [p t] [q u] (j & -> & -> & _)%tonight_files (i & -> & -> & _)%tonight_files; [|done..]. cbn. by intros ->%taken_inj. }
  split.
  - intros (s & t & (j & E & -> & Hj)%tonight_files & Hs & Hmax); [|done]. apply name_inj in E as <-.
    destruct (decide (N.of_nat n <= N.of_nat k + days)%N) as [|Hold]; [done|]. exfalso.
    (* [k] is a day older than the last daily and meets the one after it *)
    rewrite (night_slot k n Hk Hn), (proj2 (N.ltb_ge _ _)) in Hs by lia. injection Hs as <-.
    assert (slot_of days (unix_secs (taken n + delta)) (unix_secs (taken (S k))) = Some (Weekly 0)) as Hs'.
    { rewrite night_slot by lia. by rewrite (proj2 (N.ltb_ge _ _)) by lia. }
    assert ((name (S k), taken (S k)) ∈ files_of (tonight n w)) as Hin by (apply tonight_files; [done|]; exists (S k); unfold there; repeat split; lia).
    specialize (Hmax _ Hin Hs'). cbn in Hmax. rewrite !taken_secs in Hmax. lia.
  - intros Hd. eexists _, (taken k). split; [apply tonight_files; [done|]; by exists k|]. split; [by apply night_slot|].
    intros [p t] (j & -> & -> & Hj & Hjn)%tonight_files Hs; [|done]. cbn in Hs |- *. rewrite night_slot in Hs by done. rewrite !taken_secs.
    destruct (N.of_nat (n - j) <? days)%N eqn:E1, (N.of_nat (n - k) <? days)%N eqn:E2; try done.
    + injection Hs as E. lia.
    + apply N.ltb_ge in E1, E2. lia.
Qed.

(** What the prune of night [n] does with the snapshots that are there. *)
Lemma night_prunes n w : remains n w ->
  faults (night n w) = [] /\
  (forall x e, entries (night n w) !! x = Some e -> entries (tonight n w) !! x = Some e) /\
  (forall j, there n j -> entries (night n w) !! name j = None <-> ~ (N.of_nat n <= N.of_nat j + days)%N).
Proof.
  intros Hrem. unfold night. cbv zeta. destruct (prune_gfs_execute _ _ _ _) as [r w2] eqn:Hrun. cbn [snd].
  destruct (prune_run _ _ _ _ _ _ Hrun) as [H1 H2]. destruct (H2 (proj1 Hrem) (order_nodup _)) as (_ & Hf & H3). clear H2.
  split; [done|]. split.
  - intros x e He. destruct (H1 x) as [E|[E _]]; congruence.
  - intros j Hj. rewrite H3, expendable_archive, (night_keeps n w j Hrem Hj); [|done|].
    + assert (entries (tonight n w) !! name j = Some (snapshot_entry j)) as He by (apply tonight_entries; [done|by exists j]).
      rewrite He. split; [by intros [?|[_ ?]]|]. intros Hn. right. split; [by exists (snapshot_entry j)|done].
    + apply list_elem_of_fmap. exists (name j, taken j). split; [done|]. apply tonight_files; [done|by exists j].
Qed.

Lemma night_remains n w : remains n w -> remains (S n) (night n w).
Proof.
  intros Hrem. destruct (night_prunes n w Hrem) as (Hf & H1 & H2). split; [done|]. intros x e. unfold there in H2. split.
  - intros He. pose proof (H1 _ _ He) as (j & -> & -> & Hj)%(tonight_entries _ _ _ _ Hrem). exists j. split; [done|]. split; [done|].
    destruct (decide (N.of_nat n <= N.of_nat j + days)%N) as [|Hn]; [destruct Hj; lia|]. apply H2 in Hn; [congruence|done].
  - intros (j & -> & -> & Hj & Hjn). destruct (entries (night n w) !! name j) as [d|] eqn:Hd.
    + apply H1, (tonight_entries _ _ _ _ Hrem) in Hd as (i & <-%name_inj & -> & _). done.
    + apply H2 in Hd; lia.
Qed.

Lemma nights_remain n : remains n (nights n).
Proof.
  induction n as [|n IH]; [|by apply night_remains]. split; [done|]. intros x e. cbn. rewrite lookup_empty.
  split; [done|]. intros (k & _ & _ & Hk & _). lia.
Qed.
End Nightly.

(** C24: The documented nightly cycle (create, then prune) never fills the weekly and monthly
    buckets.  After any number of nights, with any retention and whatever the order in which the
    directory is read, exactly the last [retention_days + 1] snapshots are left: the newest
    snapshot of the first weekly bucket is always the one that entered it last, so that the one
    before it is deleted and none ever grows older. *)
Theorem nightly_prune_keeps_only_dailies name order days t0 delta n
  (Hname : Inj (=) (=) name) (Harchive : forall k, is_archive_name (name k) = true)
  (Horder : forall m, order m ≡ₚ (map_to_list m).*1) (Ht0 : (0 <= t0)%Z) (Hdelta : (0 <= delta <= 86399 * 1000000000)%Z) :
  forall x e, entries (nights name order days t0 delta n) !! x = Some e <->
    exists k, x = name k /\ e = snapshot_entry t0 k /\ k < n /\ (N.of_nat n <= N.of_nat k + days + 1)%N.
Proof. exact (proj2 (nights_remain name order days t0 delta Hname Harchive Horder Ht0 Hdelta n)). Qed.

(** Nothing protects the last snapshots: once all are older than the three windows, pruning
    deletes all of them. *)
Theorem stale_snapshots_are_deleted names days now w r w' name
  (Hrun : prune_gfs_execute names days now w = (r, w')) (Hf : faults w = []) (Hnd : NoDup names)
  (Hold : forall name t, (name, t) ∈ archives w names -> (unix_secs t + (days + 236) * 86400 <= unix_secs now)%N)
  (Hname : name ∈ (archives w names).*1) :
  entries w' !! name = None.
Proof.
  destruct (prune_run _ _ _ _ _ _ Hrun) as [_ H]. apply (H Hf Hnd). clear H. right.
  assert (name ∈ (snapshots w names).*1) as Hin by (by rewrite sort_by_perm).
  destruct (snapshots_files _ _ _ Hin) as [Ha Hat]. split; [done|]. apply expendable_archive; [done..|].
  rewrite elem_of_keep. setoid_rewrite <- best_newest. intros (s & m & before & t & after & E & _ & Hs & _).
  specialize (Hold name t ltac:(rewrite <- (sort_by_perm by_mtime_desc), E; apply elem_of_app; right; by left)). cbn in Hs.
  unfold slot_of in Hs. assert (days + 236 <= (unix_secs now - unix_secs t) / SECS_PER_DAY)%N as Hage.
  { apply N.div_le_lower_bound; [done|]. unfold SECS_PER_DAY. lia. }
  rewrite !(proj2 (N.ltb_ge _ _)) in Hs by lia. done.
Qed.

(** * Witnesses *)

Definition nightly_name (k : nat) : string :=
  (ENCRYPTED_PREFIX +:+ str (replicate k "a"%char) +:+ ENCRYPTED_SUFFIX)%string.

Lemma valid_utf8_ascii c l : utf8_step [c] = (true, 1) -> valid_utf8 l = true -> valid_utf8 (c :: l) = true.
Proof. intros Hc Hl. by apply (valid_utf8_prepend [c] l 1). Qed.

Lemma valid_utf8_ascii_app p l :
  Forall (λ c, utf8_step [c] = (true, 1)) p -> valid_utf8 l = true -> valid_utf8 (p ++ l) = true.
Proof. induction 1 as [|c p Hc _ IH]; intros Hl; [done|]. apply valid_utf8_ascii; auto. Qed.

Lemma nightly_name_archive k : is_archive_name (nightly_name k) = true.
Proof.
  assert (chars (nightly_name k) = chars ENCRYPTED_PREFIX ++ replicate k "a"%char ++ chars ENCRYPTED_SUFFIX) as E.
  { unfold nightly_name. by rewrite !chars_app, chars_str. }
  unfold is_archive_name. rewrite !andb_true_iff. split; [split; [split|]|].
  - rewrite E. apply valid_utf8_ascii_app; [repeat constructor|]. apply valid_utf8_ascii_app; [by apply Forall_replicate|done].
  - unfold has_prefix, starts_with. by rewrite E, (proj2 (strip_prefix_Some _ _ _) eq_refl).
  - apply orb_true_iff. left. apply orb_true_iff. left. 
    exact (has_suffix_app ENCRYPTED_SUFFIX (ENCRYPTED_PREFIX +:+ str (replicate k "a"%char))%string).
  - unfold has_suffix. by rewrite E, !reverse_app.
Qed.

Lemma nightly_name_inj : Inj (=) (=) nightly_name.
Proof.
  intros i j E%(f_equal chars%string). unfold nightly_name in E. rewrite !chars_app, !chars_str in E.
  apply (f_equal length) in E. rewrite !length_app, !length_replicate in E. lia.
Qed.

Lemma nightly_prune_keeps_only_dailies_witness :
  let d := nights nightly_name (λ m, (map_to_list m).*1) 14 0 0 365 in
  entries d !! nightly_name 349 = None /\ entries d !! nightly_name 350 = Some (snapshot_entry 0 350).
Proof.
  assert (0 <= 0 <= 86399 * 1000000000)%Z as Hdelta by lia.
  pose proof (nightly_prune_keeps_only_dailies nightly_name (λ m, (map_to_list m).*1) 14 0 0 365
    nightly_name_inj nightly_name_archive (λ m, reflexivity _) (Z.le_refl 0) Hdelta) as H.
  intros d. revert H. change (nights _ _ _ _ _ _) with d. clearbody d. intros H.
  split; [apply eq_None_not_Some; intros [e (k & Ek & _ & Hk)%H]|apply H].
  - apply nightly_name_inj in Ek as <-. lia.
  - exists 350. split; [done|]. split; [done|]. lia.
Defined.

(** A destination with one expired archive, its sidecar, a recent archive and a foreign file. *)
Definition example_dir : Destination :=
  mkDestination (list_to_map [("pcloud-rs-a.tar.zst", mkEntry true (Some 0%Z));
    ("pcloud-rs-a.tar.zst.manifest.json", mkEntry true (Some 0%Z));
    ("pcloud-rs-b.tar.zst", mkEntry true (Some (400 * DAY)%Z)); ("notes", mkEntry true (Some 0%Z))]) [].
Definition example_names : list string := ["notes"; "pcloud-rs-b.tar.zst"; "pcloud-rs-a.tar.zst.manifest.json"; "pcloud-rs-a.tar.zst"].

Lemma example_nodup : NoDup example_names.
Proof. apply (bool_decide_unpack _). vm_compute. exact I. Qed.

Lemma prune_gfs_execute_spec_witness :
  let w' := (prune_gfs_execute example_names 14 (400 * DAY) example_dir).2 in
  entries w' !! "pcloud-rs-a.tar.zst.manifest.json" = None /\ entries w' !! "notes" = Some (mkEntry true (Some 0%Z)).
Proof.
  destruct (prune_gfs_execute example_names 14 (400 * DAY) example_dir) as [r w'] eqn:Hrun. cbv zeta. cbn [snd].
  destruct (prune_gfs_execute_spec _ _ _ _ _ _ Hrun) as [H1 H]. destruct (H eq_refl example_nodup) as [_ H3]. clear H Hrun. split.
  - apply H3. right. split; [eexists; split; vm_compute; reflexivity|]. apply doomed_expendable. exists "pcloud-rs-a.tar.zst".
    split; [|split; [|by right]]; apply (bool_decide_unpack _); vm_compute; exact I.
  - destruct (H1 "notes") as [->|[_ (path & Hp & _ & Hname)]]; [vm_compute; reflexivity|]. exfalso.
    assert ((snapshots example_dir example_names).*1 = ["pcloud-rs-b.tar.zst"; "pcloud-rs-a.tar.zst"]) as E by (vm_compute; reflexivity).
    rewrite E in Hp. apply elem_of_cons in Hp as [-> | ->%list_elem_of_singleton]; by destruct Hname.
Defined.

Lemma stale_snapshots_are_deleted_witness :
  entries (prune_gfs_execute ["pcloud-rs-a.tar.zst"] 14 (400 * DAY) example_dir).2 !! "pcloud-rs-a.tar.zst" = None.
Proof.
  destruct (prune_gfs_execute ["pcloud-rs-a.tar.zst"] 14 (400 * DAY) example_dir) as [r w'] eqn:Hrun.
  apply (stale_snapshots_are_deleted _ _ _ _ _ _ _ Hrun); [done|by apply NoDup_singleton| |].
  - intros name t H. assert (archives example_dir ["pcloud-rs-a.tar.zst"] = [("pcloud-rs-a.tar.zst", 0%Z)]) as E by (by vm_compute).
    rewrite E in H. apply list_elem_of_singleton in H. injection H as -> ->. vm_compute. congruence.
  - apply (bool_decide_unpack _). vm_compute. exact I.
Defined.

Lemma prune_twice_witness :
  let w := (prune_gfs_execute example_names 14 (400 * DAY) example_dir).2 in
  (prune_gfs_execute example_names 14 (400 * DAY) w).1 = Ok [].
Proof.
  destruct (prune_gfs_execute example_names 14 (400 * DAY) example_dir) as [r w'] eqn:Hrun. cbv zeta. cbn [snd].
  pose proof (prune_twice _ _ _ _ _ _ Hrun eq_refl example_nodup) as H.
  destruct (prune_gfs_execute _ _ _ w') as [r2 w2]. by destruct H as [-> _].
Defined.
