(* ===== verification/Files.v ===== *)
(** Files by their paths, and the system calls of std::fs on them.

    A path is its directory and its last component; the disk maps paths to bytes.  Every system
    call takes the next outcome of a list, so that any of them may fail: a failed write leaves a
    prefix of the bytes, every other failed call changes nothing.  Directories that the code
    creates are taken to be there afterwards. *)
From S2P Require Import Prelude Paths Bytes StateError.

Abbreviation Path := (string * string)%type.

(** [None] is success, [Some n] failure, for a write after [n] bytes. *)
Abbreviation fate := (option nat).

Record Disk : Type := mkDisk {
  files : gmap Path (list byte);
  fates : list fate;
}.

(** [From<io::Error>] of an error type, with the call that failed. *)
Class FromIo (E : Type) : Type := from_io : string -> E.

Section Calls.
Context {E : Type} `{FromIo E}.

Definition next_fate : ST Disk E fate := λ d, (Ok (default None (head (fates d))), mkDisk (files d) (tail (fates d))).

(** A call without an effect on files. *)
Definition sys_call (what : string) : ST Disk E unit :=
  let! s := next_fate in
  match s with None => ok tt | Some _ => throw (from_io what) end.

Definition set_files (f : gmap Path (list byte) -> gmap Path (list byte)) : ST Disk E unit :=
  modify (λ d, mkDisk (f (files d)) (fates d)).

(** [path.exists()]. *)
Definition fs_exists (p : Path) : ST Disk E bool := gets (λ d, bool_decide (is_Some (files d !! p))).

(** The bytes of a file that a call has opened. *)
Definition opened (p : Path) : ST Disk E (list byte) :=
  let! o := gets (λ d, files d !! p) in
  match o with Some bytes => ok bytes | None => throw (from_io "open") end.

(** [fs::read]. *)
Definition fs_read (p : Path) : ST Disk E (list byte) :=
  do! sys_call "open" in
  let! bytes := opened p in
  do! sys_call "read" in
  ok bytes.

(** [File::create]. *)
Definition fs_create (p : Path) : ST Disk E unit :=
  do! sys_call "open" in set_files (λ m, <[p := []]> m).

(** Opening for appending, with [create(true)]. *)
Definition fs_open_append (p : Path) : ST Disk E unit :=
  do! sys_call "open" in set_files (λ m, <[p := default [] (m !! p)]> m).

(** [fs_write_all] at the end of a file. *)
Definition fs_write_all (p : Path) (bytes : list byte) : ST Disk E unit :=
  let! s := next_fate in
  match s with
  | None => set_files (λ m, <[p := default [] (m !! p) ++ bytes]> m)
  | Some n =>
      do! set_files (λ m, <[p := default [] (m !! p) ++ take n bytes]> m) in
      throw (from_io "write")
  end.

(** [fs::write]. *)
Definition fs_write (p : Path) (bytes : list byte) : ST Disk E unit :=
  do! fs_create p in fs_write_all p bytes.

Definition fs_rename (from to : Path) : ST Disk E unit :=
  do! sys_call "rename" in
  let! bytes := opened from in
  set_files (λ m, <[to := bytes]> (delete from m)).

Definition fs_remove (p : Path) : ST Disk E unit :=
  do! sys_call "unlink" in
  let! _ := opened p in
  set_files (delete p).

(** * Without failures *)

Lemma sys_call_reliable what m : sys_call what (mkDisk m []) = (Ok tt, mkDisk m []).
Proof. done. Qed.

Lemma fs_exists_reliable p m : fs_exists p (mkDisk m []) = (Ok (bool_decide (is_Some (m !! p))), mkDisk m []).
Proof. done. Qed.

Lemma fs_read_reliable p m bytes : m !! p = Some bytes -> fs_read p (mkDisk m []) = (Ok bytes, mkDisk m []).
Proof. intros Hp. unfold fs_read, bind. cbn. unfold opened, bind, gets. cbn. by rewrite Hp. Qed.

Lemma fs_create_reliable p m : fs_create p (mkDisk m []) = (Ok tt, mkDisk (<[p := []]> m) []).
Proof. done. Qed.

Lemma fs_open_append_reliable p m : fs_open_append p (mkDisk m []) = (Ok tt, mkDisk (<[p := default [] (m !! p)]> m) []).
Proof. done. Qed.

Lemma fs_write_all_reliable p bytes m :
  fs_write_all p bytes (mkDisk m []) = (Ok tt, mkDisk (<[p := default [] (m !! p) ++ bytes]> m) []).
Proof. done. Qed.

Lemma fs_write_reliable p bytes m : fs_write p bytes (mkDisk m []) = (Ok tt, mkDisk (<[p := bytes]> m) []).
Proof. unfold fs_write, bind. rewrite fs_create_reliable, fs_write_all_reliable. by rewrite lookup_insert_eq, insert_insert_eq. Qed.

Lemma fs_rename_reliable from to m bytes : m !! from = Some bytes ->
  fs_rename from to (mkDisk m []) = (Ok tt, mkDisk (<[to := bytes]> (delete from m)) []).
Proof. intros Hp. unfold fs_rename, bind. cbn. unfold opened, bind, gets. cbn. by rewrite Hp. Qed.

Lemma fs_remove_reliable p m : is_Some (m !! p) -> fs_remove p (mkDisk m []) = (Ok tt, mkDisk (delete p m) []).
Proof. intros [bytes Hp]. unfold fs_remove, bind. cbn. unfold opened, bind, gets. cbn. by rewrite Hp. Qed.

(** * With failures: one rule per call *)

Section Rules.
Implicit Types (d : Disk) (p : Path).

Lemma wp_sys_call what (Q : result unit E -> Disk -> Prop) d :
  (forall r d', files d' = files d -> Q r d') -> wp (sys_call what) Q d.
Proof. intros HQ. unfold wp, sys_call, next_fate, bind. cbn. destruct (default None (head (fates d))); by apply HQ. Qed.

(** A call that either changes the files or fails. *)
Lemma wp_sys_effect {A} what (f : unit -> ST Disk E A) (Q : result A E -> Disk -> Prop) d :
  (forall d', files d' = files d -> wp (f tt) Q d') -> (forall e d', files d' = files d -> Q (Err e) d') ->
  wp (bind (sys_call what) f) Q d.
Proof. intros Hok Herr. apply wp_bind, wp_sys_call. intros [[]|e] d' Hd; auto. Qed.

Lemma wp_opened p (Q : result (list byte) E -> Disk -> Prop) d :
  (forall bytes, files d !! p = Some bytes -> Q (Ok bytes) d) -> (forall e, Q (Err e) d) -> wp (opened p) Q d.
Proof. intros Hok Herr. unfold wp, opened, bind, gets. destruct (files d !! p) eqn:Hp; cbn; [by apply Hok|apply Herr]. Qed.

Lemma wp_fs_read p (Q : result (list byte) E -> Disk -> Prop) d :
  (forall bytes d', files d' = files d -> files d !! p = Some bytes -> Q (Ok bytes) d') ->
  (forall e d', files d' = files d -> Q (Err e) d') -> wp (fs_read p) Q d.
Proof.
  intros Hok Herr. apply wp_sys_effect; [|done]. intros d1 H1. apply wp_bind, wp_opened; [|intros e; by apply Herr].
  intros bytes Hp. apply wp_sys_effect; [|intros e d2 H2; apply Herr; congruence]. intros d2 H2. apply Hok; congruence.
Qed.

Lemma wp_fs_create p (Q : result unit E -> Disk -> Prop) d :
  (forall d', files d' = <[p := []]> (files d) -> Q (Ok tt) d') -> (forall e d', files d' = files d -> Q (Err e) d') ->
  wp (fs_create p) Q d.
Proof. intros Hok Herr. apply wp_sys_effect; [|done]. intros d1 H1. apply wp_modify, Hok. cbn. by rewrite H1. Qed.

Lemma wp_fs_open_append p (Q : result unit E -> Disk -> Prop) d :
  (forall d', files d' = <[p := default [] (files d !! p)]> (files d) -> Q (Ok tt) d') ->
  (forall e d', files d' = files d -> Q (Err e) d') -> wp (fs_open_append p) Q d.
Proof. intros Hok Herr. apply wp_sys_effect; [|done]. intros d1 H1. apply wp_modify, Hok. cbn. by rewrite H1. Qed.

Lemma wp_fs_write_all p bytes (Q : result unit E -> Disk -> Prop) d :
  (forall d', files d' = <[p := default [] (files d !! p) ++ bytes]> (files d) -> Q (Ok tt) d') ->
  (forall e n d', files d' = <[p := default [] (files d !! p) ++ take n bytes]> (files d) -> Q (Err e) d') ->
  wp (fs_write_all p bytes) Q d.
Proof.
  intros Hok Herr. unfold wp, fs_write_all, next_fate, bind. cbn. destruct (default None (head (fates d))) as [n|]; cbn.
  - by apply (Herr _ n).
  - by apply Hok.
Qed.

Lemma wp_fs_rename from to (Q : result unit E -> Disk -> Prop) d :
  (forall bytes d', files d !! from = Some bytes -> files d' = <[to := bytes]> (delete from (files d)) -> Q (Ok tt) d') ->
  (forall e d', files d' = files d -> Q (Err e) d') -> wp (fs_rename from to) Q d.
Proof.
  intros Hok Herr. apply wp_sys_effect; [|done]. intros d1 H1. apply wp_bind, wp_opened; [|intros e; by apply Herr].
  intros bytes Hp. apply wp_modify. apply (Hok bytes); cbn; [|rewrite H1; done]; by rewrite <- H1.
Qed.

Lemma wp_fs_remove p (Q : result unit E -> Disk -> Prop) d :
  (forall d', is_Some (files d !! p) -> files d' = delete p (files d) -> Q (Ok tt) d') ->
  (forall e d', files d' = files d -> Q (Err e) d') -> wp (fs_remove p) Q d.
Proof.
  intros Hok Herr. apply wp_sys_effect; [|done]. intros d1 H1. apply wp_bind, wp_opened; [|intros e; by apply Herr].
  intros bytes Hp. apply wp_modify. apply Hok; cbn; rewrite <- ?H1; [by exists bytes|done].
Qed.

Lemma wp_fs_exists p (Q : result bool E -> Disk -> Prop) d :
  Q (Ok (bool_decide (is_Some (files d !! p)))) d -> wp (fs_exists p) Q d.
Proof. done. Qed.
End Rules.

(** * What stays as it was *)

(** The files outside [touched] are the same. *)
Definition only_touches (touched : Path -> Prop) (d d' : Disk) : Prop :=
  forall p, ~ touched p -> files d' !! p = files d !! p.

#[export] Instance only_touches_preorder touched : PreOrder (only_touches touched).
Proof. split; [by intros d p|]. intros d1 d2 d3 H1 H2 p Hp. by rewrite H2, H1. Qed.

Section Touched.
Context (touched : Path -> Prop).

Lemma next_fate_touches : respects (only_touches touched) next_fate.
Proof. by intros d p. Qed.

Lemma sys_call_touches what : respects (only_touches touched) (sys_call what).
Proof. unfold sys_call. apply respects_bind; [apply _|apply next_fate_touches|]. intros [n|]; by intros d p. Qed.

Lemma fs_exists_touches p : respects (only_touches touched) (fs_exists p).
Proof. by intros d q. Qed.

Lemma opened_touches p : respects (only_touches touched) (opened p).
Proof. intros d q _. unfold opened, bind, gets. by destruct (files d !! p). Qed.

Lemma fs_read_touches p : respects (only_touches touched) (fs_read p).
Proof.
  repeat first [apply sys_call_touches|apply opened_touches|apply respects_ok; apply _|apply respects_bind; [apply _| |intros ?]].
Qed.

Lemma set_files_touches f : (forall m p, ~ touched p -> f m !! p = m !! p) -> respects (only_touches touched) (set_files f).
Proof. intros Hf d p Hp. by apply Hf. Qed.

Lemma insert_touches (p : Path) (v : gmap Path (list byte) -> list byte) : touched p ->
  respects (only_touches touched) (set_files (λ m, <[p := v m]> m)).
Proof. intros Hp. apply set_files_touches. intros m q Hq. rewrite lookup_insert_ne; [done|]. by intros ->. Qed.

Lemma fs_create_touches p : touched p -> respects (only_touches touched) (fs_create p).
Proof. intros Hp. apply respects_bind; [apply _|apply sys_call_touches|]. intros _. by apply (insert_touches p (λ _, [])). Qed.

Lemma fs_open_append_touches p : touched p -> respects (only_touches touched) (fs_open_append p).
Proof. intros Hp. apply respects_bind; [apply _|apply sys_call_touches|]. intros _. by apply insert_touches. Qed.

Lemma fs_write_all_touches p bytes : touched p -> respects (only_touches touched) (fs_write_all p bytes).
Proof.
  intros Hp. apply respects_bind; [apply _|apply next_fate_touches|]. intros [n|]; [|by apply insert_touches].
  apply respects_bind; [apply _|by apply insert_touches|]. intros _. by apply respects_throw; apply _.
Qed.

Lemma fs_write_touches p bytes : touched p -> respects (only_touches touched) (fs_write p bytes).
Proof. intros Hp. apply respects_bind; [apply _|by apply fs_create_touches|]. intros _. by apply fs_write_all_touches. Qed.

Lemma fs_rename_touches from to : touched from -> touched to -> respects (only_touches touched) (fs_rename from to).
Proof.
  intros Hf Ht. apply respects_bind; [apply _|apply sys_call_touches|]. intros _.
  apply respects_bind; [apply _|apply opened_touches|]. intros bytes. apply set_files_touches. intros m p Hp.
  rewrite lookup_insert_ne, lookup_delete_ne; [done|..]; by intros ->.
Qed.

Lemma fs_remove_touches p : touched p -> respects (only_touches touched) (fs_remove p).
Proof.
  intros Hp. apply respects_bind; [apply _|apply sys_call_touches|]. intros _.
  apply respects_bind; [apply _|apply opened_touches|]. intros _. apply set_files_touches. intros m q Hq.
  rewrite lookup_delete_ne; [done|]. by intros ->.
Qed.
End Touched.
End Calls.

#[export] Hint Resolve sys_call_touches fs_exists_touches opened_touches fs_read_touches fs_create_touches
  fs_open_append_touches fs_write_all_touches fs_write_touches fs_rename_touches fs_remove_touches : respects.

(** * What holds when a call succeeds *)

Definition ensures {W E A} (m : ST W E A) (Q : A -> W -> Prop) (w : W) : Prop :=
  match m w with (Ok a, w') => Q a w' | (Err _, _) => True end.

Section Ensures.
Context {W E : Type}.

Lemma ensures_run {A} (m : ST W E A) Q w a w' : ensures m Q w -> m w = (Ok a, w') -> Q a w'.
Proof. unfold ensures. intros H Hm. by rewrite Hm in H. Qed.

Lemma ensures_wp {A} (m : ST W E A) (Q : A -> W -> Prop) w :
  wp m (λ r w', match r with Ok a => Q a w' | Err _ => True end) w -> ensures m Q w.
Proof. unfold wp, ensures. by destruct (m w) as [[a|e] w']. Qed.

Lemma ensures_mono {A} (m : ST W E A) (Q Q' : A -> W -> Prop) w :
  ensures m Q w -> (forall a w', Q a w' -> Q' a w') -> ensures m Q' w.
Proof. unfold ensures. destruct (m w) as [[a|e] w']; auto. Qed.

Lemma ensures_bind {A B} (m : ST W E A) (f : A -> ST W E B) Q w :
  ensures m (λ a w', ensures (f a) Q w') w -> ensures (bind m f) Q w.
Proof. unfold ensures, bind. by destruct (m w) as [[a|e] w']. Qed.

Lemma ensures_ok {A} (a : A) (Q : A -> W -> Prop) w : Q a w -> ensures (E:=E) (ok a) Q w.
Proof. done. Qed.

Lemma ensures_throw {A} (e : E) (Q : A -> W -> Prop) w : ensures (throw e) Q w.
Proof. done. Qed.

Lemma ensures_gets {A} (f : W -> A) (Q : A -> W -> Prop) w : Q (f w) w -> ensures (E:=E) (gets f) Q w.
Proof. done. Qed.

Lemma ensures_lift {A} (r : result A E) (Q : A -> W -> Prop) w : (forall a, r = Ok a -> Q a w) -> ensures (lift r) Q w.
Proof. unfold ensures, lift. destruct r as [a|e]; auto. Qed.

Lemma ensures_map_err {E' A} (g : E -> E') (m : ST W E A) (Q : A -> W -> Prop) w : ensures m Q w -> ensures (map_err g m) Q w.
Proof. unfold ensures, map_err. by destruct (m w) as [[a|e] w']. Qed.

Lemma ensures_attempt {E' A} (m : ST W E A) (Q : result A E -> W -> Prop) w : wp m Q w -> ensures (E:=E') (attempt m) Q w.
Proof. unfold ensures, wp, attempt. by destruct (m w). Qed.
End Ensures.

Section EnsuresCalls.
Context {E : Type} `{FromIo E}.

Lemma ensures_sys_call what (Q : unit -> Disk -> Prop) d :
  (forall d', files d' = files d -> Q tt d') -> ensures (sys_call what) Q d.
Proof. intros HQ. apply ensures_wp, wp_sys_call. intros [[]|e] d' Hd; auto. Qed.

Lemma ensures_fs_read p (Q : list byte -> Disk -> Prop) d :
  (forall bytes d', files d' = files d -> files d !! p = Some bytes -> Q bytes d') -> ensures (fs_read p) Q d.
Proof. intros HQ. by apply ensures_wp, wp_fs_read. Qed.

Lemma ensures_opened p (Q : list byte -> Disk -> Prop) d :
  (forall bytes, files d !! p = Some bytes -> Q bytes d) -> ensures (opened p) Q d.
Proof. intros HQ. by apply ensures_wp, wp_opened. Qed.

Lemma ensures_fs_create p (Q : unit -> Disk -> Prop) d :
  (forall d', files d' = <[p := []]> (files d) -> Q tt d') -> ensures (fs_create p) Q d.
Proof. intros HQ. by apply ensures_wp, wp_fs_create. Qed.

Lemma ensures_fs_write_all p bytes (Q : unit -> Disk -> Prop) d :
  (forall d', files d' = <[p := default [] (files d !! p) ++ bytes]> (files d) -> Q tt d') -> ensures (fs_write_all p bytes) Q d.
Proof. intros HQ. by apply ensures_wp, wp_fs_write_all. Qed.

Lemma ensures_fs_write p bytes (Q : unit -> Disk -> Prop) d :
  (forall d', files d' = <[p := bytes]> (files d) -> Q tt d') -> ensures (fs_write p bytes) Q d.
Proof.
  intros HQ. apply ensures_bind, ensures_fs_create. intros d1 H1. apply ensures_fs_write_all. intros d2 H2. apply HQ.
  by rewrite H2, H1, lookup_insert_eq, insert_insert_eq.
Qed.

Lemma ensures_fs_rename from to (Q : unit -> Disk -> Prop) d :
  (forall bytes d', files d !! from = Some bytes -> files d' = <[to := bytes]> (delete from (files d)) -> Q tt d') ->
  ensures (fs_rename from to) Q d.
Proof. intros HQ. apply ensures_wp, wp_fs_rename; [|done]. intros bytes d' Hb Hd. by apply (HQ bytes). Qed.

Lemma ensures_set_files f (Q : unit -> Disk -> Prop) d :
  (forall d', files d' = f (files d) -> Q tt d') -> ensures (E:=E) (set_files f) Q d.
Proof. intros HQ. by apply HQ. Qed.

(** The outcome of a best-effort call. *)
Lemma ensures_fs_remove_attempt p (Q : result unit E -> Disk -> Prop) d :
  (forall r d', (forall q, q <> p -> files d' !! q = files d !! q) -> Q r d') ->
  ensures (E:=E) (attempt (fs_remove p : ST Disk E unit)) Q d.
Proof.
  intros HQ. apply ensures_attempt, wp_fs_remove.
  - intros d' _ Hd. apply HQ. intros q Hq. by rewrite Hd, lookup_delete_ne.
  - intros e d' Hd. apply HQ. by rewrite Hd.
Qed.
End EnsuresCalls.

(** * A codec for the witnesses: the bits of a number *)

Fixpoint pos_bits (p : positive) : list byte :=
  match p with xH => [] | xO p => "0"%char :: pos_bits p | xI p => "1"%char :: pos_bits p end.
Fixpoint bits_pos (l : list byte) : option positive :=
  match l with
  | [] => Some xH
  | c :: l => if decide (c = "0"%char) then xO <$> bits_pos l else if decide (c = "1"%char) then xI <$> bits_pos l else None
  end.

Lemma bits_pos_bits p : bits_pos (pos_bits p) = Some p.
Proof. induction p as [p IH|p IH|]; cbn; by rewrite ?IH. Qed.

Definition bit_encode `{Countable A} (x : A) : list byte := pos_bits (encode x).
Definition bit_decode `{Countable A} (l : list byte) : option A := bits_pos l ≫= decode.

Lemma bit_decode_encode `{Countable A} (x : A) : bit_decode (bit_encode x) = Some x.
Proof. unfold bit_decode, bit_encode. rewrite bits_pos_bits. cbn. by rewrite decode_encode. Qed.
