(* ===== verification/UploadJournal.v ===== *)
(** The journal of resumable uploads: crates/pcloud-backends/src/upload_journal.rs, and its replay
    in transfer_backend.rs.

    serde_json is the interface [EntryJson]; the file is on a [Disk] whose calls may fail.  A
    failed call of [append] also stands for the process being killed there, since nothing is
    cleaned up then. *)
From S2P Require Import Prelude Paths Bytes StateError Files.

Definition JOURNAL_FILE_NAME : string := "uploads.journal".

Record JournalEntry : Type := mkJournalEntry {
  upload_id : N;
  chunks_done : N;
  bytes_done : N;
  sha_partial : option string;
}.

Inductive JournalError : Type :=
| JournalIo (call : string)
| JournalParse.
#[export] Instance journal_from_io : FromIo JournalError := JournalIo.

Record ReplayReport : Type := mkReport {
  report_entries : list JournalEntry;
  rejected_lines : nat;
}.

Record UploadJournal : Type := mkUploadJournal {
  journal_dir : string;
  journal_path : Path;
}.

(** [serde_json::to_string] and [serde_json::from_str]. *)
Class EntryJson : Type := {
  entry_to_string : JournalEntry -> option (list byte);
  entry_from_str : list byte -> option JournalEntry;
}.

Abbreviation JournalIO := (ST Disk JournalError).

Section Journal.
Context `{EntryJson}.

(** [open] on a directory that is there already, or not. *)
Definition journal_open (dir_exists : bool) (dir : string) : JournalIO UploadJournal :=
  do! (if dir_exists then ok tt else do! sys_call "create_dir_all" in sys_call "set_permissions") in
  ok (mkUploadJournal dir (dir, JOURNAL_FILE_NAME)).

Definition fsync_dir : JournalIO unit :=
  do! sys_call "open directory" in sys_call "fsync directory".

Definition journal_line (entry : JournalEntry) : JournalIO (list byte) :=
  let! line := lift (ok_or (entry_to_string entry) JournalParse) in
  ok (line ++ [newline]).

Definition journal_append (j : UploadJournal) (entry : JournalEntry) : JournalIO unit :=
  let! line := journal_line entry in
  do! fs_open_append (journal_path j) in
  do! fs_write_all (journal_path j) line in
  do! sys_call "fsync" in
  fsync_dir.

Fixpoint write_lines (tmp : Path) (entries : list JournalEntry) : JournalIO unit :=
  match entries with
  | [] => ok tt
  | e :: entries =>
      let! line := journal_line e in
      do! fs_write_all tmp line in
      write_lines tmp entries
  end.

Definition tmp_journal (j : UploadJournal) : Path := (journal_dir j, (JOURNAL_FILE_NAME +:+ ".tmp")%string).

Definition rewrite_atomic (j : UploadJournal) (entries : list JournalEntry) : JournalIO unit :=
  let tmp := tmp_journal j in
  do! fs_create tmp in
  do! write_lines tmp entries in
  do! sys_call "fsync" in
  do! fs_rename tmp (journal_path j) in
  fsync_dir.

Definition journal_clear (j : UploadJournal) : JournalIO unit := rewrite_atomic j [].

(** [reader.lines().collect()] on bytes in memory: the first line that is not UTF-8 fails. *)
Definition buf_lines (buf : list byte) : result (list (list byte)) JournalError :=
  collect_results (λ line, if valid_utf8 line then Ok line else Err (JournalIo "lines")) (str_lines buf).

(** The loop over the lines. *)
Fixpoint scan_lines (trailing_newline : bool) (lines : list (list byte)) (report : ReplayReport) : ReplayReport :=
  match lines with
  | [] => report
  | line :: lines =>
      let is_last := match lines with [] => true | _ => false end in
      let reject := mkReport (report_entries report) (rejected_lines report + 1) in
      let report :=
        if is_last && negb trailing_newline then reject
        else match trim line with
        | [] => report
        | _ =>
            match entry_from_str line with
            | Some entry => mkReport (report_entries report ++ [entry]) (rejected_lines report)
            | None => reject
            end
        end in
      scan_lines trailing_newline lines report
  end.

Definition replay_bytes (buf : list byte) : result ReplayReport JournalError :=
  match buf with
  | [] => Ok (mkReport [] 0)
  | _ =>
      let trailing_newline := bool_decide (last buf = Some newline) in
      let? lines := buf_lines buf in
      Ok (scan_lines trailing_newline lines (mkReport [] 0))
  end.

Definition journal_replay (j : UploadJournal) : JournalIO ReplayReport :=
  let! there := fs_exists (journal_path j) in
  if negb there then ok (mkReport [] 0)
  else
    let! buf := fs_read (journal_path j) in
    lift (replay_bytes buf).

(** [replay_upload_journal]: the entries of the session's uploads, the other ones, the report. *)
Definition replay_upload_journal (j : UploadJournal) (known_upload_ids : list N)
    : JournalIO (list JournalEntry * list JournalEntry * ReplayReport) :=
  let! report := journal_replay j in
  let known := filter (λ e, upload_id e ∈ known_upload_ids) (report_entries report) in
  let unknown := filter (λ e, upload_id e ∉ known_upload_ids) (report_entries report) in
  ok (known, unknown, report).
End Journal.

(** * The contract of the codec *)

(** An entry whose hash is ASCII, as hexadecimal digits are. *)
Definition ascii_entry (e : JournalEntry) : Prop :=
  match sha_partial e with Some s => Forall (λ c, (N_of_ascii c < 128)%N) (chars s) | None => True end.

(** A byte that is no line break. *)
Definition plain_byte (c : byte) : Prop := (N_of_ascii c < 128)%N /\ c <> newline /\ c <> carriage_return.

Section Laws.
Context `{EntryJson}.

Definition encodes (e : JournalEntry) (l : list byte) : Prop := ascii_entry e /\ entry_to_string e = Some l.

(** The beginning of a record. *)
Definition fragment (part : list byte) : Prop := exists e l k, encodes e l /\ 0 < k /\ part = take k l.

(** A record is an object on one line that parses to the entry; behind the beginnings of others
    it does not parse. *)
Class EntryJsonLaws : Prop := {
  json_round_trip e l : entry_to_string e = Some l -> entry_from_str l = Some e;
  json_object e l : entry_to_string e = Some l -> head l = Some "{"%char;
  json_plain e l : encodes e l -> Forall plain_byte l;
  json_torn parts e l : parts <> [] -> Forall fragment parts -> encodes e l -> entry_from_str (mjoin parts ++ l) = None;
}.
End Laws.

(** * Lines *)

Lemma strip_cr_plain l : Forall plain_byte l -> strip_cr l = l.
Proof.
  intros Hl. unfold strip_cr. destruct (reverse l) as [|c rest] eqn:E; [done|]. rewrite decide_False; [done|].
  intros ->. apply Forall_reverse in Hl. rewrite E in Hl. inversion Hl as [|? ? Hc]; subst. by destruct Hc as (_ & _ & ?).
Qed.

Lemma plain_no_newline l : Forall plain_byte l -> newline ∉ l.
Proof. intros Hl Hin. rewrite Forall_forall in Hl. by destruct (Hl _ Hin) as (_ & ? & _). Qed.

Lemma str_lines_cons a rest : Forall plain_byte a -> str_lines (a ++ newline :: rest) = a :: str_lines rest.
Proof.
  intros Ha. unfold str_lines. rewrite (split_on_app_l newline a (newline :: rest) (plain_no_newline a Ha) [] (split_on newline rest)).
  2: { cbn. by rewrite decide_True. }
  rewrite app_nil_r, reverse_cons. destruct (split_on_cons newline rest) as (s & ss & ->).
  destruct (reverse (s :: ss)) as [|x r] eqn:E.
  { apply (f_equal length) in E. by rewrite length_reverse in E. }
  cbn [app]. destruct x; rewrite reverse_app; cbn [reverse rev_append app fmap list_fmap]; by rewrite (strip_cr_plain a Ha).
Qed.

Lemma str_lines_last a : Forall plain_byte a -> str_lines a = match a with [] => [] | _ => [a] end.
Proof.
  intros Ha. unfold str_lines. pose proof (split_on_app_l newline a [] (plain_no_newline a Ha) [] [] eq_refl) as E.
  rewrite !app_nil_r in E. rewrite E. by destruct a.
Qed.

Lemma ascii_step c : (N_of_ascii c < 128)%N -> utf8_step [c] = (true, 1).
Proof.
  intros Hc. rewrite <- (ascii_N_embedding c). revert Hc. generalize (N_of_ascii c) as n. clear c. intros n Hn.
  assert (exists k, k < 128 /\ n = N.of_nat k) as (k & Hk & ->) by (exists (N.to_nat n); lia). clear Hn.
  assert (forallb (λ k, bool_decide (utf8_step [ascii_of_N (N.of_nat k)] = (true, 1))) (seq 0 128) = true) as Hall by (by vm_compute).
  rewrite forallb_forall in Hall. specialize (Hall k). apply bool_decide_eq_true in Hall; [done|]. apply in_seq. lia.
Qed.

Lemma plain_valid l : Forall plain_byte l -> valid_utf8 l = true.
Proof.
  induction 1 as [|c l [Hc _] _ IH]; [done|]. apply (valid_utf8_prepend [c] l 1); [done|by apply ascii_step|done].
Qed.

Lemma trim_record l : head l = Some "{"%char -> trim l <> [].
Proof.
  intros Hl Ht. destruct (trim_decompose l) as (a & b & E & Ha & Hb). rewrite Ht in E. cbn in E.
  assert (Forall ws_byte l) as Hws by (rewrite E; by apply Forall_app).
  destruct l as [|c l]; [done|]. injection Hl as ->. inversion Hws as [|? ? Hc]; subst.
  assert (~ ws_byte "{"%char) as Hn; [|done]. unfold ws_byte. apply (bool_decide_unpack _). by vm_compute.
Qed.

(** * What a journal holds *)

Section Views.
Context `{EntryJsonLaws}.

(** The line of an entry, and the bytes of appends that wrote so many bytes each. *)
Definition line_of (e : JournalEntry) : list byte :=
  match entry_to_string e with Some l => l ++ [newline] | None => [] end.
Definition log_bytes (log : list (JournalEntry * nat)) : list byte := mjoin ((λ x, take x.2 (line_of x.1)) <$> log).

Definition add_report (es : list JournalEntry) (r : nat) (report : ReplayReport) : ReplayReport :=
  mkReport (es ++ report_entries report) (r + rejected_lines report).

(** What replay finds: an entry that was written completely, unless it follows a torn one; [torn]
    says that the current line begins with a fragment. *)
Fixpoint journal_view (torn : bool) (log : list (JournalEntry * nat)) : ReplayReport :=
  match log with
  | [] => mkReport [] (if torn then 1 else 0)
  | (e, n) :: log =>
      if decide (take n (line_of e) = []) then journal_view torn log
      else if decide (n < length (line_of e)) then journal_view true log
      else if torn then add_report [] 1 (journal_view false log)
      else add_report [e] 0 (journal_view false log)
  end.

Lemma scan_add trailing lines es r :
  scan_lines trailing lines (mkReport es r) = add_report es r (scan_lines trailing lines (mkReport [] 0)).
Proof.
  revert es r. induction lines as [|line lines IH]; intros es r.
  { unfold add_report. cbn. by rewrite app_nil_r, Nat.add_0_r. }
  cbn [scan_lines report_entries rejected_lines]. unfold add_report in *.
  destruct (_ && _); [|destruct (trim line) as [|c t]; [|destruct (entry_from_str line) as [e|]]].
  - rewrite IH, (IH [] (0 + 1)). cbn. f_equal. lia.
  - apply IH.
  - rewrite IH, (IH ([] ++ [e]) 0). cbn. by rewrite <- app_assoc.
  - rewrite IH, (IH [] (0 + 1)). cbn. f_equal. lia.
Qed.

Definition fragments (f : list byte) : Prop := exists parts, Forall fragment parts /\ f = mjoin parts.

Lemma fragments_nil : fragments [].
Proof. by exists []. Qed.

Lemma fragments_snoc f e l k : fragments f -> encodes e l -> 0 < k -> fragments (f ++ take k l).
Proof.
  intros (parts & Hp & ->) He Hk. exists (parts ++ [take k l]). split.
  - apply Forall_app. split; [done|]. repeat constructor. by exists e, l, k.
  - rewrite join_app. cbn. by rewrite app_nil_r.
Qed.

Lemma fragments_plain f : fragments f -> Forall plain_byte f.
Proof.
  intros (parts & Hp & ->). induction Hp as [|p parts (e & l & k & He & _ & ->) _ IH]; [constructor|].
  cbn. apply Forall_app. split; [|done]. by eapply Forall_take, json_plain.
Qed.

(** A fragment begins like a record. *)
Lemma fragments_object f : fragments f -> f <> [] -> head f = Some "{"%char.
Proof.
  intros (parts & Hp & ->). induction Hp as [|p parts (e & l & k & He & Hk & ->) _ IH]; [done|]. intros _. cbn.
  pose proof (json_object e l (proj2 He)) as Hh. destruct l as [|c l]; [done|]. destruct k; [lia|done].
Qed.

Lemma torn_line f e l : fragments f -> f <> [] -> encodes e l -> entry_from_str (f ++ l) = None.
Proof. intros (parts & Hp & ->) Hne He. apply (json_torn _ e); [by intros ->|done..]. Qed.

Lemma head_app_record f e l : fragments f -> encodes e l -> head (f ++ l) = Some "{"%char.
Proof.
  intros Hf He. pose proof (fragments_object f Hf) as Hh. destruct f as [|c f]; [by apply (json_object e), He|]. by apply Hh.
Qed.

Lemma log_bytes_cons e n log : log_bytes ((e, n) :: log) = take n (line_of e) ++ log_bytes log.
Proof. done. Qed.

Lemma take_line e l n : entry_to_string e = Some l -> n < length (line_of e) -> take n (line_of e) = take n l.
Proof. intros He. unfold line_of. rewrite He, length_app. cbn. intros Hn. rewrite take_app_le; [done|lia]. Qed.

Definition replay_scan (buf : list byte) : ReplayReport :=
  scan_lines (bool_decide (last buf = Some newline)) (str_lines buf) (mkReport [] 0).

(** One complete line, alone or behind fragments. *)
Lemma replay_scan_line f e l rest : fragments f -> encodes e l ->
  replay_scan ((f ++ l) ++ newline :: rest) =
  (if decide (f = []) then add_report [e] 0 (replay_scan rest) else add_report [] 1 (replay_scan rest)).
Proof.
  intros Hf He. assert (Forall plain_byte (f ++ l)) as Hplain.
  { apply Forall_app. split; [by apply fragments_plain|]. by eapply json_plain. }
  unfold replay_scan. rewrite str_lines_cons by done. cbn [scan_lines report_entries rejected_lines].
  assert ((match str_lines rest with [] => true | _ => false end) &&
    negb (bool_decide (last ((f ++ l) ++ newline :: rest) = Some newline)) = false) as ->.
  { destruct rest as [|c rest]; [by rewrite last_snoc, bool_decide_true|].
    destruct (str_lines (c :: rest)) eqn:E; [|done]. exfalso. unfold str_lines in E.
    destruct (reverse (split_on newline (c :: rest))) as [|[|x s] r] eqn:E2; [| |by destruct (strip_cr <$> reverse r)].
    - apply (f_equal length) in E2. rewrite length_reverse in E2. destruct (split_on_cons newline (c :: rest)) as (? & ? & Es). by rewrite Es in E2.
    - apply (f_equal reverse) in E2. rewrite reverse_involutive, reverse_cons in E2.
      apply fmap_nil_inv in E. rewrite E in E2. pose proof (join_split_on newline (c :: rest)) as Hj. by rewrite E2 in Hj. }
  destruct (trim (f ++ l)) as [|c t] eqn:Et.
  { exfalso. revert Et. by eapply trim_record, head_app_record. }
  assert (bool_decide (last ((f ++ l) ++ newline :: rest) = Some newline) = bool_decide (last (newline :: rest) = Some newline)) as ->.
  { by rewrite last_app_cons. }
  assert (scan_lines (bool_decide (last (newline :: rest) = Some newline)) (str_lines rest) =
          scan_lines (bool_decide (last rest = Some newline)) (str_lines rest)) as Hs by (by destruct rest).
  rewrite Hs. destruct (decide (f = [])) as [->|Hne].
  - cbn [app]. rewrite (json_round_trip e l) by apply He. apply scan_add.
  - rewrite (torn_line f e l) by done. apply scan_add.
Qed.

Definition good_log (log : list (JournalEntry * nat)) : Prop := Forall (λ x, ascii_entry x.1) log.

Lemma scan_log f log : fragments f -> good_log log ->
  replay_scan (f ++ log_bytes log) = journal_view (bool_decide (f <> [])) log.
Proof.
  intros Hf Hg. revert f Hf. induction Hg as [|[e n] log He _ IH]; intros f Hf.
  { rewrite app_nil_r. unfold replay_scan. rewrite str_lines_last by (by apply fragments_plain).
    destruct f as [|c f]; [done|]. cbn [scan_lines]. rewrite bool_decide_false; [by rewrite bool_decide_true|].
    intros Hl. apply fragments_plain in Hf. rewrite Forall_forall in Hf.
    destruct (Hf newline) as (_ & Hn & _); [by apply last_Some_elem_of|done]. }
  rewrite log_bytes_cons. cbn [journal_view]. case_decide as Ht; [rewrite Ht; by apply IH|].
  destruct (entry_to_string e) as [l|] eqn:El.
  2: { unfold line_of in Ht. by rewrite El, take_nil in Ht. }
  assert (encodes e l) as Henc by done. case_decide as Hn.
  - rewrite (take_line e l n) in Ht |- * by done. rewrite app_assoc. destruct n as [|n]; [done|].
    rewrite IH by (apply (fragments_snoc f e l); [done..|lia]). rewrite bool_decide_true; [done|].
    intros E%app_eq_nil. by destruct E.
  - rewrite take_ge by lia. unfold line_of. rewrite El, <- app_assoc, app_assoc. cbn [app].
    rewrite (replay_scan_line f e l) by done. specialize (IH [] fragments_nil). cbn [app] in IH. rewrite IH.
    destruct f; [by rewrite decide_True|]. by rewrite decide_False.
Qed.

(** All lines of such a journal are UTF-8. *)
Lemma collect_valid (lines : list (list byte)) : Forall (λ l, valid_utf8 l = true) lines ->
  collect_results (λ line, if valid_utf8 line then Ok line else Err (JournalIo "lines")) lines = Ok lines.
Proof. induction 1 as [|l lines Hl _ IH]; [done|]. cbn. by rewrite Hl, IH. Qed.

Lemma lines_log f log : fragments f -> good_log log -> Forall (Forall plain_byte) (str_lines (f ++ log_bytes log)).
Proof.
  intros Hf Hg. revert f Hf. induction Hg as [|[e n] log He _ IH]; intros f Hf.
  { rewrite app_nil_r. pose proof (fragments_plain f Hf) as Hp. rewrite str_lines_last by done. destruct f; [by constructor|by apply Forall_singleton]. }
  rewrite log_bytes_cons. destruct (decide (take n (line_of e) = [])) as [Ht|Ht]; [rewrite Ht; by apply IH|].
  destruct (entry_to_string e) as [l|] eqn:El.
  2: { unfold line_of in Ht. by rewrite El, take_nil in Ht. }
  assert (encodes e l) as Henc by done. destruct (decide (n < length (line_of e))) as [Hn|Hn].
  - rewrite (take_line e l n) in Ht |- * by done. rewrite app_assoc. destruct n as [|n]; [done|].
    apply IH, (fragments_snoc f e l); [done..|lia].
  - rewrite take_ge by lia. unfold line_of. rewrite El, <- app_assoc, app_assoc. cbn [app].
    assert (Forall plain_byte (f ++ l)) as Hp by (apply Forall_app; split; [by apply fragments_plain|by eapply json_plain]).
    rewrite str_lines_cons by done. constructor; [done|]. by apply (IH [] fragments_nil).
Qed.

Lemma replay_log log : good_log log -> replay_bytes (log_bytes log) = Ok (journal_view false log).
Proof.
  intros Hg. pose proof (scan_log [] log fragments_nil Hg) as Hs. pose proof (lines_log [] log fragments_nil Hg) as Hl.
  cbn [app] in *. rewrite bool_decide_false in Hs by (by intros []). unfold replay_bytes, buf_lines. rewrite collect_valid.
  - destruct (log_bytes log) as [|c b] eqn:E; [|by rewrite <- Hs]. by rewrite <- Hs.
  - eapply Forall_impl; [exact Hl|]. apply plain_valid.
Qed.
End Views.

(** * Runs *)

Section Runs.
Context `{EntryJsonLaws} (j : UploadJournal).

Definition content (d : Disk) : list byte := default [] (files d !! journal_path j).

Lemma content_files d d' : files d' = files d -> content d' = content d.
Proof. unfold content. by intros ->. Qed.

Lemma fsync_dir_keeps (Q : result unit JournalError -> Disk -> Prop) d :
  (forall r d', files d' = files d -> Q r d') -> wp fsync_dir Q d.
Proof.
  intros HQ. apply wp_sys_effect; [|intros e d1 H1; by apply HQ]. intros d1 H1. apply wp_sys_call.
  intros r d2 H2. apply HQ. congruence.
Qed.

(** An append adds a prefix of its line, and all of it if it succeeds. *)
Lemma append_effect e d : wp (journal_append j e) (λ r d', exists n,
  content d' = content d ++ take n (line_of e) /\ (r = Ok tt -> line_of e <> [] /\ length (line_of e) <= n)) d.
Proof.
  unfold journal_append, journal_line, line_of. destruct (entry_to_string e) as [l|].
  2: { do 2 apply wp_bind. apply wp_lift. cbn. exists 0. by rewrite app_nil_r. }
  do 2 apply wp_bind. apply wp_lift, wp_ok. set (line := l ++ [newline]). apply wp_bind, wp_fs_open_append.
  2: { intros er d1 H1. exists 0. rewrite (content_files d d1 H1), app_nil_r. done. }
  intros d1 H1. assert (content d1 = content d) as C1 by (unfold content; by rewrite H1, lookup_insert_eq).
  apply wp_bind, wp_fs_write_all.
  2: { intros er n d2 H2. exists n. split; [|done]. rewrite <- C1. unfold content at 1. by rewrite H2, lookup_insert_eq. }
  intros d2 H2. assert (content d2 = content d ++ line) as C2 by (rewrite <- C1; unfold content at 1; by rewrite H2, lookup_insert_eq).
  assert (forall (r : result unit JournalError) d', files d' = files d2 -> exists n,
    content d' = content d ++ take n line /\ (r = Ok tt -> line <> [] /\ length line <= n)) as Hend.
  { intros r d' Hd. exists (length line). rewrite (content_files d2 d' Hd), C2, firstn_all. split; [done|]. intros _. split; [|done].
    unfold line. intros E%app_eq_nil. by destruct E. }
  apply wp_sys_effect; [|intros er d3 H3; by apply Hend]. intros d3 H3. apply fsync_dir_keeps.
  intros r d4 H4. apply Hend. congruence.
Qed.

Fixpoint append_all (es : list JournalEntry) : JournalIO (list (result unit JournalError)) :=
  match es with
  | [] => ok []
  | e :: es =>
      let! ack := attempt (journal_append j e) in
      let! acks := append_all es in
      ok (ack :: acks)
  end.

(** What is known of an append: acknowledged, its line is there. *)
Definition written (ack : result unit JournalError) (x : JournalEntry * nat) : Prop :=
  ack = Ok tt -> line_of x.1 <> [] /\ length (line_of x.1) <= x.2.

Lemma append_all_effect es d : wp (append_all es) (λ r d', exists log acks,
  r = Ok acks /\ log.*1 = es /\ Forall2 written acks log /\ content d' = content d ++ log_bytes log) d.
Proof.
  revert d. induction es as [|e es IH]; intros d.
  { exists [], []. repeat split; [constructor|]. by rewrite app_nil_r. }
  cbn [append_all]. apply wp_bind, wp_attempt. eapply wp_mono; [apply append_effect|]. intros ack d1 (n & C1 & A1).
  apply wp_bind. eapply wp_mono; [apply IH|]. intros r d2 (log & acks & -> & <- & A2 & C2). apply wp_ok.
  exists ((e, n) :: log), (ack :: acks). split; [done|]. split; [done|]. split; [by constructor|].
  by rewrite C2, C1, log_bytes_cons, app_assoc.
Qed.

Lemma replay_content m : (journal_replay j (mkDisk m [])).1 = replay_bytes (content (mkDisk m [])).
Proof.
  unfold journal_replay, bind. rewrite fs_exists_reliable. unfold content. cbn [files].
  destruct (m !! journal_path j) as [b|] eqn:Hp; [|by rewrite bool_decide_false by (intros []; congruence)].
  rewrite bool_decide_true by eauto. cbn [negb]. by rewrite (fs_read_reliable _ _ b Hp).
Qed.
(** The lines of a rewritten journal. *)
Definition all_lines (es : list JournalEntry) : list byte := mjoin (line_of <$> es).

Lemma write_lines_effect tmp es d : tmp <> journal_path j -> is_Some (files d !! tmp) -> wp (write_lines tmp es) (λ r d',
  content d' = content d /\
  (r = Ok tt -> exists old, files d !! tmp = Some old /\ files d' !! tmp = Some (old ++ all_lines es))) d.
Proof.
  intros Hne. revert d. induction es as [|e es IH]; intros d [old Hold].
  { split; [done|]. intros _. exists old. by rewrite app_nil_r. }
  cbn [write_lines]. unfold journal_line. apply wp_bind, wp_bind, wp_lift.
  destruct (entry_to_string e) as [l|] eqn:El; [|by split]. apply wp_ok, wp_bind, wp_fs_write_all.
  2: { intros er n d1 H1. split; [|done]. unfold content. by rewrite H1, lookup_insert_ne. }
  intros d1 H1. eapply wp_mono; [apply IH; rewrite H1, lookup_insert_eq; eauto|]. intros r d2 [C2 Hr]. split.
  - rewrite C2. unfold content. by rewrite H1, lookup_insert_ne.
  - intros Hok. destruct (Hr Hok) as (old1 & Ho & ->). exists old. split; [done|]. rewrite H1, lookup_insert_eq, Hold in Ho.
    injection Ho as <-. change (all_lines (e :: es)) with (line_of e ++ all_lines es). rewrite <- app_assoc.
    unfold line_of. by rewrite El.
Qed.

(** Rewriting is atomic: whatever fails, the journal has its old lines or the new ones. *)
Lemma rewrite_atomic_effect es d : tmp_journal j <> journal_path j -> wp (rewrite_atomic j es) (λ r d',
  (content d' = content d \/ content d' = all_lines es) /\ (r = Ok tt -> content d' = all_lines es)) d.
Proof.
  intros Hne. unfold rewrite_atomic. apply wp_bind, wp_fs_create.
  2: { intros er d1 H1. split; [left; by apply content_files|done]. }
  intros d1 H1. assert (content d1 = content d) as C1 by (unfold content; by rewrite H1, lookup_insert_ne).
  apply wp_bind. eapply wp_mono; [apply write_lines_effect; [done|rewrite H1, lookup_insert_eq; eauto]|].
  intros r d2 [C2 Hr]. destruct r as [[]|er]; [|by split; [left; congruence|]].
  destruct (Hr eq_refl) as (old & Hold & Htmp). rewrite H1, lookup_insert_eq in Hold. injection Hold as <-. cbn [app] in Htmp.
  apply wp_sys_effect; [|intros er d3 H3; split; [left; rewrite (content_files d2 d3 H3); congruence|done]].
  intros d3 H3. apply wp_bind, wp_fs_rename.
  2: { intros er d4 H4. split; [left; rewrite (content_files d3 d4 H4), (content_files d2 d3 H3); congruence|done]. }
  intros bytes d4 Hb H4. assert (content d4 = all_lines es) as C4.
  { unfold content. rewrite H4, lookup_insert_eq. cbn. rewrite H3 in Hb. congruence. }
  apply fsync_dir_keeps. intros r d5 H5. rewrite (content_files d4 d5 H5). auto.
Qed.
End Runs.

(** * Theorems *)

Lemma append_reliable `{EntryJson} j e l m : entry_to_string e = Some l -> exists m',
  journal_append j e (mkDisk m []) = (Ok tt, mkDisk m' []) /\ content j (mkDisk m' []) = content j (mkDisk m []) ++ l ++ [newline].
Proof.
  intros El. unfold journal_append, journal_line, bind, lift, ok. rewrite El. cbn [ok_or]. rewrite fs_open_append_reliable, fs_write_all_reliable.
  eexists. split; [done|]. unfold content. cbn [files]. by rewrite !lookup_insert_eq.
Qed.

Lemma append_torn `{EntryJson} j e l m n : entry_to_string e = Some l -> exists er m',
  journal_append j e (mkDisk m [None; Some n]) = (Err er, mkDisk m' []) /\
  content j (mkDisk m' []) = content j (mkDisk m []) ++ take n (l ++ [newline]).
Proof.
  intros El. unfold journal_append, journal_line, bind, lift, ok. rewrite El. cbn. eexists _, _. split; [done|].
  unfold content. cbn [files]. by rewrite !lookup_insert_eq.
Qed.

Section Theorems.
Context `{EntryJsonLaws}.

Lemma written_all log acks tail : Forall2 written acks log -> Forall (λ a, a = Ok tt) acks ->
  journal_view false (log ++ tail) = add_report log.*1 0 (journal_view false tail).
Proof.
  intros Hw. induction Hw as [|ack [e n] acks log Hx _ IH]; intros Ha; [unfold add_report; cbn; by destruct (journal_view false tail)|].
  inversion Ha; subst. cbn. destruct (Hx eq_refl) as [Hne Hlen]. cbn [fst snd] in *.
  rewrite take_ge by lia. rewrite decide_False, decide_False by (done || lia). by rewrite IH.
Qed.

(** C23: Whatever system call of whatever append fails, replay returns exactly the entries whose
    lines were written completely and that do not follow a torn line, in order, and counts the
    lines it rejects; an acknowledged line was written completely.  When every append is
    acknowledged all entries come back and nothing is rejected. *)
Theorem journal_replay_spec (j : UploadJournal) (es : list JournalEntry) acks d d'
  (Hascii : Forall ascii_entry es) (Hfresh : content j d = []) (Hrun : append_all j es d = (Ok acks, d')) :
  exists log, log.*1 = es /\ Forall2 written acks log /\
    (journal_replay j (mkDisk (files d') [])).1 = Ok (journal_view false log) /\
    (Forall (λ a, a = Ok tt) acks -> journal_view false log = mkReport es 0).
Proof.
  pose proof (append_all_effect j es d) as Hw. unfold wp in Hw. rewrite Hrun in Hw.
  destruct Hw as (log & acks' & E & <- & Hw & Hc). injection E as <-. exists log. split; [done|]. split; [done|]. split.
  - rewrite replay_content. change (content j (mkDisk (files d') [])) with (content j d').
    rewrite Hc, Hfresh. cbn [app]. apply replay_log. exact (proj1 (Forall_fmap fst ascii_entry log) Hascii).
  - intros Ha. rewrite <- (app_nil_r log) at 1. rewrite (written_all log acks) by done. unfold add_report. cbn. by rewrite app_nil_r.
Qed.

(** An append after a torn one is acknowledged and lost: when the process dies in the middle
    of a line, the next entry is appended to the fragment, and although its append succeeds,
    with the file and its directory synced, replay rejects the joint line. *)
Theorem entry_after_a_torn_append_is_lost (j : UploadJournal) (es : list JournalEntry) e1 e2 acks d d1 n
  (Hascii : Forall ascii_entry (es ++ [e1; e2])) (Hfresh : content j d = [])
  (Hrun : append_all j es d = (Ok acks, d1)) (Hacks : Forall (λ a, a = Ok tt) acks)
  (Hjson : is_Some (entry_to_string e2)) (Hn : 0 < n < length (line_of e1)) :
  let '(r1, d2) := journal_append j e1 (mkDisk (files d1) [None; Some n]) in
  let '(r2, d3) := journal_append j e2 (mkDisk (files d2) []) in
  is_ok r1 = false /\ r2 = Ok tt /\ (journal_replay j (mkDisk (files d3) [])).1 = Ok (mkReport es 1).
Proof.
  pose proof (append_all_effect j es d) as Hw. unfold wp in Hw. rewrite Hrun in Hw.
  destruct Hw as (log & acks' & E & <- & Hw & Hc). injection E as <-. rewrite Hfresh in Hc. cbn [app] in Hc.
  destruct Hjson as [l2 El2].
  destruct (entry_to_string e1) as [l1|] eqn:El1; [|unfold line_of in Hn; rewrite El1 in Hn; cbn in Hn; lia].
  destruct (append_torn j e1 l1 (files d1) n El1) as (er & m2 & -> & C2).
  destruct (append_reliable j e2 l2 (files (mkDisk m2 [])) El2) as (m3 & -> & C3). split; [done|]. split; [done|].
  rewrite replay_content. cbn [files] in *. change (content j (mkDisk (files d1) [])) with (content j d1) in C2.
  rewrite C3, C2, Hc. set (len2 := length (line_of e2)).
  assert ((log_bytes log ++ take n (l1 ++ [newline])) ++ l2 ++ [newline] = log_bytes (log ++ [(e1, n); (e2, len2)])) as ->.
  { unfold log_bytes. rewrite fmap_app, join_app, <- app_assoc. cbn. unfold len2, line_of. by rewrite El1, El2, firstn_all, app_nil_r. }
  rewrite replay_log.
  2: { apply Forall_app in Hascii as [Ha1 Ha2]. apply Forall_app. split; [exact (proj1 (Forall_fmap fst ascii_entry log) Ha1)|].
       inversion Ha2 as [|? ? He1 Hrest]; subst. inversion Hrest; subst. by repeat constructor. }
  f_equal. rewrite (written_all log acks) by done. cbn [journal_view].
  assert (length (line_of e2) <> 0) as Hlen2 by (unfold line_of; rewrite El2, length_app; cbn; lia).
  rewrite decide_False by (intros E%(f_equal length); rewrite length_take in E; cbn in E; lia).
  rewrite decide_True by lia. rewrite decide_False by (intros E%(f_equal length); rewrite length_take in E; cbn in E; lia).
  rewrite decide_False by (unfold len2; lia). unfold add_report. cbn. by rewrite app_nil_r.
Qed.

(** Rewriting and clearing are atomic and repair the journal: whatever system call fails, the
    journal has its old bytes or the lines of the new entries, and once the call has succeeded
    replay returns exactly these. *)
Theorem rewrite_atomic_spec (j : UploadJournal) (es : list JournalEntry) d r d'
  (Hj : journal_path j = (journal_dir j, JOURNAL_FILE_NAME)) (Hascii : Forall ascii_entry es)
  (Hrun : rewrite_atomic j es d = (r, d')) :
  (content j d' = content j d \/ content j d' = all_lines es) /\
  (r = Ok tt -> Forall (λ e, is_Some (entry_to_string e)) es ->
     (journal_replay j (mkDisk (files d') [])).1 = Ok (mkReport es 0)).
Proof.
  pose proof (rewrite_atomic_effect j es d) as Hw. unfold wp in Hw. rewrite Hrun in Hw. destruct Hw as [H1 H2].
  { rewrite Hj. unfold tmp_journal. intros [=]. }
  split; [done|]. intros Hr Hjson. rewrite replay_content. change (content j (mkDisk (files d') [])) with (content j d').
  rewrite (H2 Hr). set (log := (λ e, (e, length (line_of e))) <$> es).
  assert (all_lines es = log_bytes log) as ->.
  { unfold all_lines, log_bytes, log. rewrite <- list_fmap_compose. f_equal. apply list_fmap_ext. intros _ e _. cbn. by rewrite firstn_all. }
  rewrite replay_log by (by apply Forall_fmap). f_equal. unfold log. clear -Hjson. induction Hjson as [|e es [l El] _ IH]; [done|].
  cbn. rewrite firstn_all, decide_False by (unfold line_of; rewrite El; intros E%app_eq_nil; by destruct E).
  rewrite decide_False by lia. by rewrite IH.
Qed.
End Theorems.

(** * The contract is inhabited: the bits of a number between braces *)

Definition entry_tuple (e : JournalEntry) : N * N * N * option string :=
  (upload_id e, chunks_done e, bytes_done e, sha_partial e).
Definition tuple_entry (t : N * N * N * option string) : JournalEntry :=
  let '(a, b, c, s) := t in mkJournalEntry a b c s.

#[export] Instance bit_json : EntryJson := {|
  entry_to_string e := Some ("{"%char :: pos_bits (encode (entry_tuple e)) ++ ["}"%char]);
  entry_from_str l :=
    match l with
    | c :: l =>
        if decide (c = "{"%char) then
          match last l with
          | Some d => if decide (d = "}"%char) then tuple_entry <$> (bits_pos (removelast l) ≫= decode) else None
          | None => None
          end
        else None
    | [] => None
    end;
|}.

Lemma bits_pos_brace l : "{"%char ∈ l -> bits_pos l = None.
Proof.
  induction l as [|c l IH]; [by intros ?%elem_of_nil|]. intros [<-|Hl]%elem_of_cons; [done|]. cbn. rewrite IH by done.
  by repeat case_decide.
Qed.

Lemma pos_bits_plain p : Forall plain_byte (pos_bits p).
Proof. induction p; cbn; repeat constructor; try done; by apply (bool_decide_unpack _); vm_compute. Qed.

#[export] Instance bit_json_laws : EntryJsonLaws.
Proof.
  split.
  - intros e l [= <-]. cbn [entry_from_str bit_json]. rewrite decide_True, last_snoc, decide_True by done.
    rewrite removelast_last, bits_pos_bits. cbn. rewrite decode_encode. by destruct e.
  - by intros e l [= <-].
  - intros e l [_ [= <-]]. constructor; [by repeat split|]. apply Forall_app. split; [apply pos_bits_plain|by repeat constructor].
  - intros [|p parts] e l Hne Hp [_ [= <-]]; [done|]. inversion Hp as [|? ? (e1 & l1 & k & [_ [= <-]] & Hk & ->)]; subst.
    destruct k as [|k]; [lia|]. cbn [mjoin list_join app firstn entry_from_str bit_json]. rewrite decide_True by done.
    rewrite <- !app_assoc, !(app_comm_cons _ _ "{"%char), !app_assoc, last_snoc, decide_True by done.
    rewrite removelast_last, bits_pos_brace; [done|]. apply elem_of_app. right. by left.
Qed.

(** * Witnesses *)

Definition example_journal : UploadJournal := mkUploadJournal "/run/pcloud" ("/run/pcloud", JOURNAL_FILE_NAME).
Definition example_entry (id : N) : JournalEntry := mkJournalEntry id 1 4096 (Some "da39a3ee").
Definition example_entries : list JournalEntry := example_entry <$> [1; 2; 3; 4]%N.

Lemma example_ascii : Forall ascii_entry example_entries.
Proof. repeat constructor. Qed.

Lemma example_fresh fates : content example_journal (mkDisk ∅ fates) = [].
Proof. unfold content. cbn. by rewrite lookup_empty. Qed.

(** The second append is torn after ten bytes: the third is acknowledged and lost. *)
Lemma journal_replay_spec_witness :
  let fates := replicate 6 None ++ [Some 10] in
  exists acks d log, append_all example_journal example_entries (mkDisk ∅ fates) = (Ok acks, d) /\
    Forall2 written acks log /\ acks !! 2 = Some (Ok tt) /\
    (journal_replay example_journal (mkDisk (files d) [])).1 = Ok (journal_view false log).
Proof.
  intros fates. destruct (append_all example_journal example_entries (mkDisk ∅ fates)) as [[acks|er] d] eqn:Hrun.
  2: { exfalso. apply (f_equal fst) in Hrun. vm_compute in Hrun. discriminate. }
  destruct (journal_replay_spec example_journal example_entries acks (mkDisk ∅ fates) d example_ascii (example_fresh fates) Hrun) as (log & _ & Hw & Hr & _).
  exists acks, d, log. split; [done|]. split; [done|]. split; [|done].
  apply (f_equal fst) in Hrun. vm_compute in Hrun. injection Hrun as <-. done.
Defined.

Lemma entry_after_a_torn_append_is_lost_witness :
  let '(r1, d2) := journal_append example_journal (example_entry 2) (mkDisk ∅ [None; Some 10]) in
  let '(r2, d3) := journal_append example_journal (example_entry 3) (mkDisk (files d2) []) in
  is_ok r1 = false /\ r2 = Ok tt /\ (journal_replay example_journal (mkDisk (files d3) [])).1 = Ok (mkReport [] 1).
Proof.
  apply (entry_after_a_torn_append_is_lost example_journal [] (example_entry 2) (example_entry 3) [] (mkDisk ∅ []) (mkDisk ∅ []) 10).
  - repeat constructor.
  - apply example_fresh.
  - reflexivity.
  - constructor.
  - eexists. reflexivity.
  - vm_compute. lia.
Defined.

Lemma rewrite_atomic_spec_witness :
  let '(r, d) := rewrite_atomic example_journal [example_entry 7]
    (mkDisk {[journal_path example_journal := chars "{torn"]} []) in
  r = Ok tt /\ (journal_replay example_journal (mkDisk (files d) [])).1 = Ok (mkReport [example_entry 7] 0).
Proof.
  destruct (rewrite_atomic _ _ _) as [r d] eqn:Hrun.
  assert (r = Ok tt) as Hr by (apply (f_equal fst) in Hrun; vm_compute in Hrun; by rewrite <- Hrun). split; [done|].
  eapply (rewrite_atomic_spec example_journal [example_entry 7] _ r d eq_refl); [repeat constructor|exact Hrun|done|repeat constructor; by eexists].
Defined.
