(* ===== verification/Snapshot.v ===== *)
(** Backup snapshots: creating, verifying and restoring archives,
    crates/pcloud-backends/src/snapshot.rs, and the daemon's request for them in
    pcloud-daemon/src/runtime.rs.

    The tar, zstd, sha2, sha3, serde_json and rusqlite crates and the gpg program are interfaces;
    files are on a [Disk] whose calls may fail.  A temporary directory is given by its name and
    emptied when it is dropped.  The pruning of archives is in Retention. *)
From S2P Require Import Prelude Paths Bytes StateError Files Retention.

Definition ZSTD_MIN_LEVEL : Z := 1.
Definition ZSTD_MAX_LEVEL : Z := 22.
Definition ZSTD_DEFAULT_LEVEL : Z := 3.
Definition SIDECAR_MANIFEST_VERSION : N := 1.
Definition SNAPSHOT_FORMAT_VERSION : N := 1.

Definition PAYLOAD_ENTRIES : list string := ["auth_token.bin"; "store.sqlite3"; "audit.ndjson"; "config.toml"].

Inductive SnapshotError : Type :=
| SnapIo (call : string)
| SnapStore
| SnapSerde
| MissingFile (which : string)
| SchemaReadFailed
| DigestMismatch
| SchemaMismatch (expected got : N)
| GpgUnavailable
| GpgRecipientMissing
| GpgFailed
| UnsafePath
| ZstdFailed
| InvalidZstdLevel (got : Z)
| InvalidOutputSuffix
| SidecarMissing
| SidecarCorrupt.
#[export] Instance snapshot_from_io : FromIo SnapshotError := SnapIo.

Record SnapshotManifest : Type := mkManifest {
  manifest_version : N;
  manifest_created_at : N;
  manifest_schema : N;
  sha256_manifest : list byte;
}.

Record SnapshotOptions : Type := mkOptions {
  zstd_level : Z;
  gpg_recipient : option string;
}.

Definition validate_zstd_level (level : Z) : result unit SnapshotError :=
  if bool_decide (ZSTD_MIN_LEVEL <= level <= ZSTD_MAX_LEVEL)%Z then Ok tt else Err (InvalidZstdLevel level).

Definition SnapshotOptions_default : SnapshotOptions := mkOptions ZSTD_DEFAULT_LEVEL None.

Definition with_zstd_level (level : Z) : result SnapshotOptions SnapshotError :=
  let? _ := validate_zstd_level level in
  Ok (mkOptions level None).

Definition with_gpg_recipient (recipient : string) (o : SnapshotOptions) : SnapshotOptions :=
  mkOptions (zstd_level o) (Some recipient).

Record SidecarManifest : Type := mkSidecar {
  sidecar_version : N;
  archive_filename : string;
  archive_size_bytes : N;
  sidecar_sha3_256 : list byte;
  sidecar_zstd_level : Z;
  sidecar_encrypted : bool;
  sidecar_created_at : N;
  inner_manifest : SnapshotManifest;
}.

(** * Third-party code *)

(** [Builder] with entries of mode 0600, and the paths and contents that [Archive::entries]
    yields. *)
Class TarCodec : Type := {
  tar_bytes : list (string * list byte) -> list byte;
  tar_entries : list byte -> option (list (string * list byte));
}.
Class ZstdCodec : Type := {
  zstd_encode : list byte -> Z -> option (list byte);
  zstd_decode : list byte -> option (list byte);
}.
Class Digests : Type := {
  sha2_256 : list byte -> list byte;
  sha3_256 : list byte -> list byte;
}.
Class ManifestJson : Type := {
  manifest_to_json : SnapshotManifest -> option (list byte);
  manifest_from_json : list byte -> option SnapshotManifest;
  sidecar_to_json : SidecarManifest -> option (list byte);
  sidecar_from_json : list byte -> option SidecarManifest;
}.
(** The gpg program of the host, on whole messages. *)
Class Gpg : Type := {
  gpg_on_path : bool;
  gpg_lists_key : string -> bool;
  gpg_encrypt : string -> list byte -> option (list byte);
  gpg_decrypt : list byte -> option (list byte);
}.
(** The online backup of a database and its [PRAGMA user_version]; both read more than one file. *)
Class Sqlite : Type := {
  sqlite_backup : Path -> gmap Path (list byte) -> option (list byte);
  sqlite_user_version : Path -> gmap Path (list byte) -> option Z;
}.

Abbreviation SnapIO := (ST Disk SnapshotError).

Section Snapshot.
Context `{TarCodec, ZstdCodec, Digests, ManifestJson, Gpg, Sqlite}.

Definition HEX : list byte := chars "0123456789abcdef".

Definition hex_encode (bytes : list byte) : list byte :=
  bytes ≫= λ b, let n := N.to_nat (N_of_ascii b) in [default "0"%char (HEX !! (n / 16)); default "0"%char (HEX !! (n `mod` 16))].

(** * Temporary directories *)

(** [tempdir]; its drop deletes what is in it and its subdirectories, if it can. *)
Definition with_tempdir {A} (dirs : list string) (body : SnapIO A) : SnapIO A :=
  do! sys_call "tempdir" in
  let! r := attempt body in
  let! s := next_fate in
  do! (match s with None => set_files (filter (λ x, x.1.1 ∉ dirs)) | Some _ => ok tt end) in
  lift r.

(** * The inner tar *)

Definition read_required (path : Path) (which : string) : SnapIO (list byte) :=
  let! there := fs_exists path in
  if negb there then throw (MissingFile which) else fs_read path.

(** The process id is part of the name of the copy. *)
Definition sqlite_backup_to_bytes (pid : string) (store_path out_tar : Path) : SnapIO (list byte) :=
  let tmp_path := (fst out_tar, (".pcloud-snapshot-store-" +:+ pid +:+ ".sqlite3")%string) in
  let! there := fs_exists tmp_path in
  do! (if there then let! _ := attempt (fs_remove tmp_path : SnapIO unit) in ok tt else ok tt) in
  do! map_err (λ _, SnapStore) (sys_call "open database" : SnapIO unit) in
  let! m := gets files in
  let! copy := lift (ok_or (sqlite_backup store_path m) SnapStore) in
  do! map_err (λ _, SnapStore) (fs_write tmp_path copy : SnapIO unit) in
  let! bytes := fs_read tmp_path in
  let! _ := attempt (fs_remove tmp_path : SnapIO unit) in
  ok bytes.

Definition read_schema_version (store_path : Path) : SnapIO N :=
  do! map_err (λ _, SnapStore) (sys_call "open database" : SnapIO unit) in
  let! m := gets files in
  let! v := lift (ok_or (sqlite_user_version store_path m) SchemaReadFailed) in
  if bool_decide (v < 0 \/ 2 ^ 32 - 1 < v)%Z then throw SchemaReadFailed else ok (Z.to_N v).

Definition payload_digest (payloads : list (list byte)) : list byte := hex_encode (sha2_256 (mjoin payloads)).

(** The entries are written one after the other; a write that fails leaves a prefix of the file. *)
Definition create_unencrypted_snapshot (pid : string) (now : N) (store_path vault_path audit_path : Path)
    (config_bytes : list byte) (out_tar : Path) : SnapIO SnapshotManifest :=
  let! auth_bytes := read_required vault_path "auth_token.bin" in
  let! audit_bytes := read_required audit_path "audit.ndjson" in
  let! store_bytes := sqlite_backup_to_bytes pid store_path out_tar in
  let! schema_version := read_schema_version store_path in
  let payloads := [auth_bytes; store_bytes; audit_bytes; config_bytes] in
  let manifest := mkManifest SNAPSHOT_FORMAT_VERSION now schema_version (payload_digest payloads) in
  let! manifest_bytes := lift (ok_or (manifest_to_json manifest) SnapSerde) in
  do! fs_create out_tar in
  do! fs_write_all out_tar (tar_bytes (zip ("manifest.json" :: PAYLOAD_ENTRIES) (manifest_bytes :: payloads))) in
  ok manifest.

(** The loop of [read_and_verify]: the last entry of a name counts. *)
Fixpoint collect_entries (entries : list (string * list byte)) (manifest : option (list byte))
    (payloads : list (option (list byte))) : option (list byte) * list (option (list byte)) :=
  match entries with
  | [] => (manifest, payloads)
  | (path, buf) :: entries =>
      let name := str (from_utf8_lossy (chars path)) in
      if decide (name = "manifest.json") then collect_entries entries (Some buf) payloads
      else match list_find (λ expected, name = expected) PAYLOAD_ENTRIES with
      | Some (idx, _) => collect_entries entries manifest (<[idx := Some buf]> payloads)
      | None => collect_entries entries manifest payloads
      end
  end.

(** All slots, or the name of the first one that is empty. *)
Definition owned_payloads (payloads : list (option (list byte))) : result (list (list byte)) SnapshotError :=
  collect_results (λ x, ok_or x.2 (MissingFile x.1)) (zip PAYLOAD_ENTRIES payloads).

Definition verify_entries (entries : list (string * list byte)) : result (SnapshotManifest * list (list byte)) SnapshotError :=
  let '(manifest_bytes, payloads) := collect_entries entries None [None; None; None; None] in
  let? manifest_bytes := ok_or manifest_bytes (MissingFile "manifest.json") in
  let? manifest := ok_or (manifest_from_json manifest_bytes) SnapSerde in
  let? owned := owned_payloads payloads in
  if decide (payload_digest owned = sha256_manifest manifest) then Ok (manifest, owned) else Err DigestMismatch.

Definition read_entries (tar_path : Path) : SnapIO (list (string * list byte)) :=
  let! bytes := fs_read tar_path in
  lift (ok_or (tar_entries bytes) (SnapIo "tar")).

Definition read_and_verify (tar_path : Path) : SnapIO (SnapshotManifest * list (list byte)) :=
  let! entries := read_entries tar_path in
  lift (verify_entries entries).

Definition verify_unencrypted_snapshot (tar_path : Path) : SnapIO SnapshotManifest :=
  let! (manifest, _) := read_and_verify tar_path in
  ok manifest.

Definition verify_unencrypted_snapshot_with_schema (tar_path : Path) (expected_schema : N) : SnapIO SnapshotManifest :=
  let! manifest := verify_unencrypted_snapshot tar_path in
  if decide (manifest_schema manifest <> expected_schema) then throw (SchemaMismatch expected_schema (manifest_schema manifest))
  else ok manifest.

(** * Unpacking *)

(** [s.contains(p)]. *)
Fixpoint has_infix (p l : list byte) : bool :=
  starts_with p l || match l with [] => false | _ :: l => has_infix p l end.

Definition NUL : byte := to_byte 0.

(** The check of an entry's path; an absolute path begins with a slash. *)
Definition unsafe_path (rel : list byte) : bool :=
  let rel_str := from_utf8_lossy rel in
  starts_with [slash] rel || has_infix [dot; dot] rel_str || bool_decide (NUL ∈ rel_str)
  || bool_decide (slash ∈ rel_str) || bool_decide (backslash ∈ rel_str).

(** The loop that unpacks into the staging directory; creating a file at an empty path or at [.]
    fails. *)
Fixpoint extract_entries (extract_root : string) (entries : list (string * list byte)) : SnapIO unit :=
  match entries with
  | [] => ok tt
  | (rel, data) :: entries =>
      if unsafe_path (chars rel) then throw UnsafePath
      else if decide (from_utf8_lossy (chars rel) = chars "manifest.json") then extract_entries extract_root entries
      else if bool_decide (rel ∈ [""; "."]) then throw (SnapIo "open")
      else
        let dest := (extract_root, rel) in
        do! fs_create dest in
        do! fs_write_all dest data in
        extract_entries extract_root entries
  end.

(** The loop that moves the payloads into place. *)
Fixpoint place_payloads (extract_root target_dir : string) (names : list string) : SnapIO unit :=
  match names with
  | [] => ok tt
  | name :: names =>
      let from := (extract_root, name) in
      let! there := fs_exists from in
      if negb there then throw (MissingFile name)
      else
        let to := (target_dir, name) in
        let! old := fs_exists to in
        do! (if old then fs_remove to else ok tt) in
        do! fs_rename from to in
        place_payloads extract_root target_dir names
  end.

Definition extract_dir (staging : string) : string := (staging +:+ "/extract")%string.

(** From the plaintext tar in the staging directory to the files in place. *)
Definition verify_and_place (staging target_dir : string) : SnapIO SnapshotManifest :=
  let plain := (staging, "snapshot.tar") in
  let! manifest := verify_unencrypted_snapshot plain in
  do! sys_call "create_dir_all" in
  let! entries := read_entries plain in
  do! extract_entries (extract_dir staging) entries in
  do! place_payloads (extract_dir staging) target_dir PAYLOAD_ENTRIES in
  ok manifest.

(** * The gpg program *)

(** [gpg --encrypt --output out_path] with the message on its standard input: the run may fail to
    start, lose its input, or exit with an error after part of the output. *)
Definition gpg_run_encrypt (recipient : string) (bytes : list byte) (out_path : Path) : SnapIO unit :=
  do! map_err (λ _, GpgFailed) (sys_call "spawn" : SnapIO unit) in
  let ciphertext := default [] (gpg_encrypt recipient bytes) in
  let! s := next_fate in
  match s with
  | Some n => do! set_files (λ m, <[out_path := take n ciphertext]> m) in throw (SnapIo "write")
  | None =>
      do! map_err (λ _, GpgFailed) (sys_call "wait" : SnapIO unit) in
      let! s := next_fate in
      match s, gpg_encrypt recipient bytes with
      | None, Some ciphertext => set_files (λ m, <[out_path := ciphertext]> m)
      | _, _ =>
          do! set_files (λ m, <[out_path := take (default 0 s) ciphertext]> m) in
          let! _ := attempt (fs_remove out_path : SnapIO unit) in
          throw GpgFailed
      end
  end.

Definition gpg_encrypt_bytes (bytes : list byte) (recipient : string) (out_path : Path) : SnapIO unit :=
  if negb gpg_on_path then throw GpgUnavailable
  else if negb (gpg_lists_key recipient) then throw GpgRecipientMissing
  else gpg_run_encrypt recipient bytes out_path.

Definition gpg_decrypt_bytes (archive : Path) : SnapIO (list byte) :=
  if negb gpg_on_path then throw GpgUnavailable
  else
    do! map_err (λ _, GpgFailed) (sys_call "spawn" : SnapIO unit) in
    let! ciphertext := map_err (λ _, GpgFailed) (fs_read archive : SnapIO (list byte)) in
    lift (ok_or (gpg_decrypt ciphertext) GpgFailed).

Definition gpg_decrypt_to (archive plaintext_out : Path) : SnapIO unit :=
  let! bytes := gpg_decrypt_bytes archive in
  map_err (λ _, GpgFailed) (fs_write plaintext_out bytes : SnapIO unit).

Definition create_encrypted_snapshot (pid staging : string) (now : N) (store_path vault_path audit_path : Path)
    (config_bytes : list byte) (recipient : string) (out_path : Path) : SnapIO SnapshotManifest :=
  if negb gpg_on_path then throw GpgUnavailable
  else if negb (gpg_lists_key recipient) then throw GpgRecipientMissing
  else with_tempdir [staging] (
    let staged_tar := (staging, "snapshot.tar") in
    let! manifest := create_unencrypted_snapshot pid now store_path vault_path audit_path config_bytes staged_tar in
    let! bytes := fs_read staged_tar in
    do! gpg_run_encrypt recipient bytes out_path in
    ok manifest).

Definition verify_encrypted_snapshot (staging : string) (archive : Path) : SnapIO SnapshotManifest :=
  with_tempdir [staging] (
    let plain := (staging, "snapshot.tar") in
    do! gpg_decrypt_to archive plain in
    verify_unencrypted_snapshot plain).

Definition restore_encrypted_snapshot (staging : string) (archive : Path) (target_dir : string) : SnapIO SnapshotManifest :=
  do! sys_call "create_dir_all" in
  with_tempdir [staging; extract_dir staging] (
    do! gpg_decrypt_to archive (staging, "snapshot.tar") in
    verify_and_place staging target_dir).

(** * The pipeline with zstd and the sidecar *)

Definition sidecar_path (archive : Path) : Path := (fst archive, sidecar_path_for (snd archive)).

Definition sha3_of_file (path : Path) : SnapIO (list byte) :=
  let! bytes := fs_read path in
  ok (hex_encode (sha3_256 bytes)).

Definition build_tar_bytes (pid : string) (now : N) (store_path vault_path audit_path : Path) (config_bytes : list byte)
    (scratch_dir : string) : SnapIO (list byte * SnapshotManifest) :=
  let staged_tar := (scratch_dir, "inner.tar") in
  let! manifest := create_unencrypted_snapshot pid now store_path vault_path audit_path config_bytes staged_tar in
  let! bytes := fs_read staged_tar in
  ok (bytes, manifest).

Definition atomic_write (pid : string) (path : Path) (bytes : list byte) : SnapIO unit :=
  let base := if valid_utf8 (chars (snd path)) then snd path else "sidecar" in
  let tmp := (fst path, ("." +:+ base +:+ ".tmp-" +:+ pid)%string) in
  do! fs_create tmp in
  do! fs_write_all tmp bytes in
  do! sys_call "fsync" in
  fs_rename tmp path.

Definition archive_suffix_ok (path : Path) (encrypted : bool) : bool :=
  let name := snd path in
  if negb (valid_utf8 (chars name)) then false
  else if encrypted then has_suffix ZSTD_GPG_SUFFIX name
  else has_suffix ZSTD_SUFFIX name && negb (has_suffix ZSTD_GPG_SUFFIX name).

Definition create_snapshot (pid staging : string) (now sealed_at : N) (store_path vault_path audit_path : Path)
    (config_bytes : list byte) (out_path : Path) (options : SnapshotOptions) : SnapIO SidecarManifest :=
  do! lift (validate_zstd_level (zstd_level options)) in
  let encrypted := match gpg_recipient options with Some _ => true | None => false end in
  if negb (archive_suffix_ok out_path encrypted) then throw InvalidOutputSuffix
  else with_tempdir [staging] (
    let! (tar, inner) := build_tar_bytes pid now store_path vault_path audit_path config_bytes staging in
    let! compressed := lift (ok_or (zstd_encode tar (zstd_level options)) ZstdFailed) in
    do! (match gpg_recipient options with
         | Some recipient => gpg_encrypt_bytes compressed recipient out_path
         | None => atomic_write pid out_path compressed
         end) in
    let! sha3_hex := sha3_of_file out_path in
    do! sys_call "metadata" in
    let! archive := opened out_path in
    let sidecar := mkSidecar SIDECAR_MANIFEST_VERSION
      (if valid_utf8 (chars (snd out_path)) then snd out_path else "")
      (len archive) sha3_hex (zstd_level options) encrypted sealed_at inner in
    let! sidecar_bytes := lift (ok_or (sidecar_to_json sidecar) SnapSerde) in
    do! atomic_write pid (sidecar_path out_path) sidecar_bytes in
    ok sidecar).

Definition read_sidecar (archive : Path) : SnapIO SidecarManifest :=
  let path := sidecar_path archive in
  let! there := fs_exists path in
  if negb there then throw SidecarMissing
  else
    let! bytes := fs_read path in
    let! sidecar := lift (ok_or (sidecar_from_json bytes) SidecarCorrupt) in
    if decide (sidecar_version sidecar <> SIDECAR_MANIFEST_VERSION) then throw SidecarCorrupt else ok sidecar.

(** The common beginning of [verify_snapshot] and [restore_snapshot]: the sidecar and the inner tar
    of an archive whose outer digest is right. *)
Definition open_archive (archive : Path) : SnapIO (SidecarManifest * list byte) :=
  let! sidecar := read_sidecar archive in
  let! recomputed := sha3_of_file archive in
  if decide (recomputed <> sidecar_sha3_256 sidecar) then throw DigestMismatch
  else
    let! compressed := if sidecar_encrypted sidecar then gpg_decrypt_bytes archive else fs_read archive in
    let! tar := lift (ok_or (zstd_decode compressed) ZstdFailed) in
    ok (sidecar, tar).

Definition verify_snapshot (staging : string) (archive : Path) : SnapIO SidecarManifest :=
  let! (sidecar, tar) := open_archive archive in
  with_tempdir [staging] (
    let plain := (staging, "snapshot.tar") in
    do! fs_write plain tar in
    let! _ := verify_unencrypted_snapshot plain in
    ok sidecar).

Definition restore_snapshot (staging : string) (archive : Path) (target_dir : string) : SnapIO SidecarManifest :=
  let! (sidecar, tar) := open_archive archive in
  do! sys_call "create_dir_all" in
  with_tempdir [staging; extract_dir staging] (
    do! fs_write (staging, "snapshot.tar") tar in
    let! _ := verify_and_place staging target_dir in
    ok sidecar).

(** * The daemon's request *)

Record ManagedPaths : Type := mkPaths {
  config_dir : string;
  state_dir : string;
}.
Definition auth_token_vault_path (p : ManagedPaths) : Path := (config_dir p, "auth_token").

Inductive SnapshotAction : Type := ActionCreate | ActionRestore | ActionVerify | ActionPrune.

Inductive SnapshotStatus : Type := StatusOk | StatusInvalidRequest | StatusConflict | StatusUnavailable | StatusInternalError.

Definition snapshot_error_to_response (err : SnapshotError) : SnapshotStatus :=
  match err with
  | InvalidZstdLevel _ | InvalidOutputSuffix => StatusInvalidRequest
  | DigestMismatch | SchemaMismatch _ _ => StatusConflict
  | SidecarMissing | SidecarCorrupt => StatusInvalidRequest
  | GpgUnavailable | GpgRecipientMissing | GpgFailed => StatusUnavailable
  | _ => StatusInternalError
  end.

(** [audited_response] with the outcome of the audit record, which goes to the open database. *)
Definition audited_response (audit_ok : bool) : SnapshotStatus := if audit_ok then StatusOk else StatusInternalError.

Definition answer {A} (audit_ok : bool) (m : SnapIO A) : SnapIO SnapshotStatus :=
  let! r := attempt m in
  ok (match r with Ok _ => audited_response audit_ok | Err e => snapshot_error_to_response e end).

(** Of the response the status is kept; [prune] stands for [prune_gfs_execute]. *)
Definition handle_backup_snapshot (pid staging : string) (now sealed_at : N) (paths : ManagedPaths) (config_bytes : list byte)
    (prune : N -> SnapIO (list Path)) (audit_ok : bool) (action : SnapshotAction) (path : Path)
    (recipient : option string) (yes : bool) (retention_days : option N) (level : option Z) : SnapIO SnapshotStatus :=
  match action with
  | ActionCreate =>
      match with_zstd_level (default ZSTD_DEFAULT_LEVEL level) with
      | Err (InvalidZstdLevel _) => ok StatusInvalidRequest
      | Err _ => ok StatusInternalError
      | Ok opts =>
          let opts := match recipient with Some r => with_gpg_recipient r opts | None => opts end in
          let store_path := (state_dir paths, "store.sqlite3") in
          let vault_path := auth_token_vault_path paths in
          let audit_placeholder := (state_dir paths, ".snapshot-audit-placeholder") in
          let! staged := attempt (fs_write audit_placeholder [] : SnapIO unit) in
          match staged with
          | Err _ => ok StatusInternalError
          | Ok _ =>
              let! r := attempt (create_snapshot pid staging now sealed_at store_path vault_path audit_placeholder config_bytes path opts) in
              let! _ := attempt (fs_remove audit_placeholder : SnapIO unit) in
              ok (match r with Ok _ => audited_response audit_ok | Err e => snapshot_error_to_response e end)
          end
      end
  | ActionVerify => answer audit_ok (verify_snapshot staging path)
  | ActionRestore =>
      if negb yes then ok StatusInvalidRequest
      else answer audit_ok (restore_snapshot staging path (state_dir paths))
  | ActionPrune =>
      if negb yes then ok StatusInvalidRequest
      else match retention_days with
      | None => ok StatusInvalidRequest
      | Some days => answer audit_ok (prune days)
      end
  end.
End Snapshot.

(** * Names *)

Definition ef_byte : byte := ascii_of_N 239.

(** Lossy decoding that puts in no replacement changes nothing. *)
Lemma lossy_exact l : ef_byte ∉ from_utf8_lossy l -> from_utf8_lossy l = l.
Proof.
  unfold from_utf8_lossy. assert (length l <= length l) as Hfuel by done. revert Hfuel. generalize (length l) at 2 3 4 as fuel.
  intros fuel; revert l. induction fuel as [|fuel IH]; intros [|b l] Hfuel Hin; try done; [cbn in Hfuel; lia|].
  cbn [lossy_loop] in *. pose proof (utf8_step_pos (b :: l) ltac:(done)) as Hp. destruct (utf8_step (b :: l)) as [ok n]. cbn in Hp.
  destruct ok.
  - rewrite IH; [by rewrite take_drop|rewrite length_drop; cbn in *; lia|]. intros Hx. apply Hin, elem_of_app. by right.
  - exfalso. apply Hin, elem_of_app. left. by left.
Qed.

(** A name that an entry's path is compared with. *)
Definition exact_name (name : string) : Prop := valid_utf8 (chars name) = true /\ ef_byte ∉ chars name.

Lemma lossy_name path name : exact_name name -> str (from_utf8_lossy (chars path)) = name <-> path = name.
Proof.
  intros [Hvalid Hname]. split.
  - intros <-. rewrite chars_str in Hname. by rewrite (lossy_exact _ Hname), str_chars.
  - intros ->. by rewrite lossy_valid, str_chars.
Qed.

Lemma payload_names_exact name : name ∈ "manifest.json" :: PAYLOAD_ENTRIES -> exact_name name.
Proof.
  revert name. apply Forall_forall. repeat constructor; apply (bool_decide_unpack _); vm_compute; exact I.
Qed.

(** * What an archive says *)

Section Facts.
Context `{TarCodec, ZstdCodec, Digests, ManifestJson, Gpg, Sqlite}.

(** The last entry of a name. *)
Definition last_entry (entries : list (string * list byte)) (name : string) : option (list byte) :=
  last (omap (λ x, if decide (x.1 = name) then Some x.2 else None) entries).

Lemma last_entry_cons path buf entries name :
  last_entry ((path, buf) :: entries) name =
  match last_entry entries name with Some b => Some b | None => if decide (path = name) then Some buf else None end.
Proof.
  unfold last_entry. csimpl. case_decide; [|by destruct (last _)]. rewrite last_cons. by destruct (last _).
Qed.

Lemma last_entry_other path buf entries name : path <> name -> last_entry ((path, buf) :: entries) name = last_entry entries name.
Proof. intros Hn. rewrite last_entry_cons, decide_False by done. by destruct (last_entry entries name). Qed.

Lemma choose_assoc {A} (o x y : option A) :
  match (match o with Some b => Some b | None => x end) with Some b => Some b | None => y end =
  match o with Some b => Some b | None => match x with Some b => Some b | None => y end end.
Proof. by destruct o. Qed.

(** The loop collects the last entry of each name. *)
Lemma collect_last entries m (payloads : list (option (list byte))) : length payloads = 4 ->
  collect_entries entries m payloads =
  (match last_entry entries "manifest.json" with Some b => Some b | None => m end,
   zip_with (λ name old, match last_entry entries name with Some b => Some b | None => old end) PAYLOAD_ENTRIES payloads).
Proof.
  revert m payloads. induction entries as [|[path buf] entries IH]; intros m payloads Hlen.
  { cbn. f_equal. destruct payloads as [|a [|b [|c [|d [|]]]]]; done. }
  destruct payloads as [|a [|b [|c [|d [|]]]]]; try done. cbn [collect_entries].
  destruct (decide (path ∈ "manifest.json" :: PAYLOAD_ENTRIES)) as [Hin|Hout].
  - unfold PAYLOAD_ENTRIES in Hin. repeat (apply elem_of_cons in Hin as [->|Hin]); [..|by apply elem_of_nil in Hin].
    all: match goal with |- context [str ?x] => let v := eval vm_compute in (str x) in change (str x) with v end.
    all: cbn [list_find PAYLOAD_ENTRIES]; repeat (rewrite decide_False by done); rewrite ?decide_True by done.
    all: cbn [fmap option_fmap option_map prod_map insert list_insert]; rewrite IH by done.
    all: cbn [zip_with PAYLOAD_ENTRIES]; rewrite !last_entry_cons; rewrite ?decide_True by done; repeat (rewrite decide_False by done).
    all: by rewrite !choose_assoc.
  - assert (forall name, name ∈ "manifest.json" :: PAYLOAD_ENTRIES -> str (from_utf8_lossy (chars path)) <> name /\ path <> name) as Hn.
    { intros name Hin. assert (path <> name) as Hp by (by intros ->). split; [|done]. by rewrite lossy_name by (by apply payload_names_exact). }
    rewrite decide_False by (apply Hn; by left).
    assert (list_find (λ expected, str (from_utf8_lossy (chars path)) = expected) PAYLOAD_ENTRIES = None) as ->.
    { apply list_find_None, Forall_forall. intros name Hin. apply Hn. by right. }
    rewrite IH by done. f_equal; [by rewrite last_entry_other by (apply Hn; by left)|].
    unfold PAYLOAD_ENTRIES in *. cbn [zip_with]. by rewrite !last_entry_other by (apply Hn; set_solver).
Qed.

Lemma last_entries entries :
  zip_with (λ name old, match last_entry entries name with Some b => Some b | None => old end) PAYLOAD_ENTRIES
    [None; None; None; None] = last_entry entries <$> PAYLOAD_ENTRIES.
Proof. cbn. assert (forall o : option (list byte), match o with Some b => Some b | None => None end = o) as E by by intros []. by rewrite !E. Qed.

Lemma owned_payloads_Ok (f : string -> option (list byte)) payloads :
  owned_payloads (f <$> PAYLOAD_ENTRIES) = Ok payloads <-> Forall2 (λ name payload, f name = Some payload) PAYLOAD_ENTRIES payloads.
Proof.
  unfold owned_payloads. generalize PAYLOAD_ENTRIES as names. intros names. revert payloads.
  induction names as [|name names IH]; intros payloads; cbn.
  - split; [intros [= <-]; constructor|]. intros Hf. by inversion Hf.
  - destruct (f name) as [b|] eqn:Hf; cbn; [|split; [done|]; intros H'; inversion H'; congruence].
    destruct (collect_results _ _) as [ys|e] eqn:E; cbn.
    + split; [intros [= <-]; constructor; [done|]; by apply IH|]. intros H'. inversion H' as [|? ? ? ? Hb Hrest]; subst.
      apply IH in Hrest. congruence.
    + split; [done|]. intros H'. inversion H' as [|? ? ? ? Hb Hrest]; subst. apply IH in Hrest. congruence.
Qed.

Lemma verify_entries_Ok entries manifest payloads : verify_entries entries = Ok (manifest, payloads) <->
  exists bytes, last_entry entries "manifest.json" = Some bytes /\ manifest_from_json bytes = Some manifest /\
    Forall2 (λ name payload, last_entry entries name = Some payload) PAYLOAD_ENTRIES payloads /\
    payload_digest payloads = sha256_manifest manifest.
Proof.
  unfold verify_entries. rewrite collect_last, last_entries by done. setoid_rewrite <- owned_payloads_Ok.
  generalize (owned_payloads (last_entry entries <$> PAYLOAD_ENTRIES)) as o. intros o.
  destruct (last_entry entries "manifest.json") as [bytes|]; cbn; [|split; [done|by intros (? & ? & _)]].
  destruct (manifest_from_json bytes) as [m|] eqn:Em; cbn; [|split; [done|by intros (? & [= <-] & ? & _); congruence]].
  destruct o as [owned|e]; cbn; [|split; [done|by intros (? & _ & _ & ? & _)]].
  case_decide as Hd.
  - split; [intros [= <- <-]; by exists bytes|]. intros (? & [= <-] & E & [= <-] & _). congruence.
  - split; [done|]. intros (? & [= <-] & E & [= <-] & ?). congruence.
Qed.

(** Unpacking writes the last entry of each name, below its directory. *)
Lemma extract_effect root entries d : wp (extract_entries root entries) (λ r d',
  (forall p, p.1 <> root -> files d' !! p = files d !! p) /\
  (r = Ok tt -> forall name, name <> "manifest.json" ->
     files d' !! (root, name) = match last_entry entries name with Some b => Some b | None => files d !! (root, name) end)) d.
Proof.
  revert d. induction entries as [|[rel data] entries IH]; intros d; [by repeat split|].
  cbn [extract_entries]. destruct (unsafe_path (chars rel)); [by split|].
  destruct (decide (from_utf8_lossy (chars rel) = chars "manifest.json")) as [Hm|Hm].
  - assert (rel = "manifest.json") as ->.
    { apply lossy_name; [apply payload_names_exact; by left|]. by rewrite Hm, str_chars. }
    eapply wp_mono; [apply IH|]. intros r d' [H1' H2']. split; [done|]. intros Hr name Hn.
    rewrite last_entry_other by congruence. by apply H2'.
  - destruct (bool_decide _); [by split|]. apply wp_bind, wp_fs_create.
    2: { intros e d1 ->. by split. }
    intros d1 H1'. apply wp_bind, wp_fs_write_all.
    2: { intros e n d2 H2'. split; [|done]. intros p Hp. rewrite H2', H1', !lookup_insert_ne; [done|..]; intros <-; by apply Hp. }
    intros d2 H2'. rewrite H1', lookup_insert_eq, insert_insert_eq in H2'. cbn in H2'.
    eapply wp_mono; [apply IH|]. intros r d3 [H3' H4']. split.
    + intros p Hp. rewrite H3', H2', lookup_insert_ne; [done| |done]. intros <-. by apply Hp.
    + intros Hr name Hn. rewrite H4', H2', last_entry_cons by done. destruct (last_entry entries name); [done|].
      case_decide as Hrel; [by subst; rewrite lookup_insert_eq|]. rewrite lookup_insert_ne; [done|]. congruence.
Qed.

Definition place_touches (root target : string) (names : list string) (p : Path) : Prop :=
  exists name, name ∈ names /\ (p = (root, name) \/ p = (target, name)).

Lemma place_only root target names : respects (only_touches (place_touches root target names)) (place_payloads root target names).
Proof.
  assert (forall names', names' ⊆ names -> respects (only_touches (place_touches root target names)) (place_payloads root target names')) as Hall.
  { induction names' as [|name names' IH]; intros Hsub; cbn [place_payloads]; [by respects_auto|].
    assert (name ∈ names) as Hin by set_solver.
    assert (place_touches root target names (root, name)) as Hr by (exists name; auto).
    assert (place_touches root target names (target, name)) as Ht by (exists name; auto).
    specialize (IH ltac:(set_solver)). respects_auto; eauto with respects. }
  by apply Hall.
Qed.

(** The files of a directory after [k] of the names have been placed: these have the new bytes, the
    next one has the old ones or is missing, and the others are as they were. *)
Definition placed (new : string -> option (list byte)) (target : string) (names : list string) (k : nat) (m m' : gmap Path (list byte)) : Prop :=
  forall i name, names !! i = Some name ->
    (i < k -> is_Some (new name) /\ m' !! (target, name) = new name) /\
    (i = k -> m' !! (target, name) = m !! (target, name) \/ m' !! (target, name) = None) /\
    (k < i -> m' !! (target, name) = m !! (target, name)).

Lemma placed_none new target names m m' :
  (forall name, name ∈ tail names -> m' !! (target, name) = m !! (target, name)) ->
  (forall name, head names = Some name -> m' !! (target, name) = m !! (target, name) \/ m' !! (target, name) = None) ->
  placed new target names 0 m m'.
Proof.
  intros Htail Hhead i name Hi. split; [lia|]. split.
  - intros ->. apply Hhead. by destruct names.
  - intros Hpos. apply Htail. destruct names as [|n names]; [done|]. destruct i; [lia|]. cbn in *. by eapply list_elem_of_lookup_2.
Qed.

Lemma place_effect root target names d : root <> target -> NoDup names ->
  wp (place_payloads root target names) (λ r d', exists k, k <= length names /\
    placed (λ name, files d !! (root, name)) target names k (files d) (files d') /\
    (if decide (k = length names) then r = Ok tt else is_ok r = false)) d.
Proof.
  intros Hne Hnd. revert d. induction Hnd as [|name names Hname Hnd IH]; intros d; cbn [place_payloads].
  { exists 0. split; [done|]. split; [intros i n Hi; by rewrite lookup_nil in Hi|done]. }
  assert (forall e d', (forall n, n <> name -> files d' !! (target, n) = files d !! (target, n)) ->
    files d' !! (target, name) = files d !! (target, name) \/ files d' !! (target, name) = None ->
    exists k, k <= length (name :: names) /\ placed (λ n, files d !! (root, n)) target (name :: names) k (files d) (files d') /\
      (if decide (k = length (name :: names)) then Err e = Ok tt else is_ok (Err (A:=unit) (E:=SnapshotError) e) = false)) as Hstop.
  { intros e d' H1' H2'. exists 0. split; [cbn; lia|]. split; [|by rewrite decide_False by done].
    apply placed_none; [intros n Hn; apply H1'; cbn in Hn; congruence|]. cbn. by intros n [= <-]. }
  apply wp_bind, wp_fs_exists. destruct (files d !! (root, name)) as [bytes|] eqn:Hfrom.
  2: { rewrite bool_decide_false by (intros []; done). apply wp_throw, Hstop; auto. }
  rewrite bool_decide_true by eauto. cbn [negb]. apply wp_bind, wp_fs_exists. apply wp_bind.
  assert (forall d1 : Disk, (forall p, p <> (target, name) -> files d1 !! p = files d !! p) ->
    files d1 !! (target, name) = None ->
    wp (do! fs_rename (root, name) (target, name) in place_payloads root target names) (λ r d', exists k, k <= length (name :: names) /\
      placed (λ n, files d !! (root, n)) target (name :: names) k (files d) (files d') /\
      (if decide (k = length (name :: names)) then r = Ok tt else is_ok r = false)) d1) as Hgo.
  { intros d1 Hd1 Hgone. apply wp_bind, wp_fs_rename.
    2: { intros e d2 H2'. apply Hstop; rewrite ?H2'; [|auto]. intros n Hn. apply Hd1. congruence. }
    intros b d2 Hb H2'. rewrite Hd1, Hfrom in Hb by congruence. injection Hb as <-.
    assert (forall p, p <> (target, name) -> p <> (root, name) -> files d2 !! p = files d !! p) as Hd2.
    { intros p Hp1 Hp2. rewrite H2', lookup_insert_ne, lookup_delete_ne by done. by apply Hd1. }
    pose proof (respects_wp _ _ d2 (place_only root target names)) as Honly. eapply wp_mono; [apply (wp_and _ _ _ _ (IH d2) Honly)|].
    intros r d3 [(k & Hk & Hpl & Hr) Ho]. exists (S k). split; [cbn; lia|]. split.
    - intros i n Hi. destruct i as [|i]; cbn in Hi.
      + injection Hi as <-. split; [|split; lia]. intros _. split; [by rewrite Hfrom|]. rewrite Hfrom.
        rewrite Ho, H2', lookup_insert_eq; [done|]. intros (n & Hn & [[=]|[= <-]]); congruence.
      + assert (n <> name) as Hnn by (intros ->; apply Hname; by eapply list_elem_of_lookup_2).
        destruct (Hpl i n Hi) as (P1 & P2 & P3). rewrite !Hd2 in P1, P2, P3 by congruence.
        split; [intros ?; apply P1; lia|]. split; [intros [= ->]; by apply P2|intros ?; apply P3; lia].
    - cbn. destruct (decide (k = length names)) as [->|Hkn]; [by rewrite decide_True in *|].
      rewrite decide_False by lia. done. }
  destruct (files d !! (target, name)) as [old|] eqn:Hto.
  - rewrite bool_decide_true by eauto. apply wp_fs_remove.
    + intros d1 _ H1'. apply Hgo; [|by rewrite H1', lookup_delete_eq]. intros p Hp. by rewrite H1', lookup_delete_ne.
    + intros e d1 H1'. apply Hstop; rewrite ?H1'; auto.
  - rewrite bool_decide_false by (intros []; done). by apply wp_ok, Hgo.
Qed.

Lemma wp_with_tempdir {A} (dirs : list string) (body : SnapIO A) (Q : result A SnapshotError -> Disk -> Prop) d :
  (forall e d', files d' = files d -> Q (Err e) d') ->
  (forall d1, files d1 = files d -> wp body (λ r d2, forall d3, (forall p, p.1 ∉ dirs -> files d3 !! p = files d2 !! p) -> Q r d3) d1) ->
  wp (with_tempdir dirs body) Q d.
Proof.
  intros Herr Hbody. apply wp_sys_effect; [|done]. intros d1 H1'. apply wp_bind, wp_attempt.
  eapply wp_mono; [by apply Hbody|]. intros r d2 HQ. unfold wp, bind, next_fate, set_files, modify, ok, lift.
  destruct (default None _); cbn; apply HQ; [done|]. intros p Hp. cbn.
  destruct (files d2 !! p) as [b|] eqn:Hb; [|by apply map_lookup_filter_None; left].
  by apply map_lookup_filter_Some.
Qed.

(** The archive, its sidecar and the inner tar agree. *)
Definition archive_holds (m : gmap Path (list byte)) (archive : Path) (sc : SidecarManifest) (tar : list byte) : Prop :=
  exists bytes sbytes compressed,
    m !! archive = Some bytes /\ m !! sidecar_path archive = Some sbytes /\ sidecar_from_json sbytes = Some sc /\
    sidecar_version sc = SIDECAR_MANIFEST_VERSION /\ hex_encode (sha3_256 bytes) = sidecar_sha3_256 sc /\
    (if sidecar_encrypted sc then gpg_on_path = true /\ gpg_decrypt bytes = Some compressed else compressed = bytes) /\
    zstd_decode compressed = Some tar.

(** The archive is intact and holds these payloads. *)
Definition sealed (m : gmap Path (list byte)) (archive : Path) (sc : SidecarManifest) (payloads : list (list byte)) : Prop :=
  exists tar entries manifest, archive_holds m archive sc tar /\ tar_entries tar = Some entries /\
    verify_entries entries = Ok (manifest, payloads).

Lemma read_sidecar_effect archive d : wp (read_sidecar archive) (λ r d', files d' = files d /\
  (forall sc, r = Ok sc -> exists sbytes, files d !! sidecar_path archive = Some sbytes /\ sidecar_from_json sbytes = Some sc /\
     sidecar_version sc = SIDECAR_MANIFEST_VERSION)) d.
Proof.
  apply wp_bind, wp_fs_exists. destruct (negb _); [by split|]. apply wp_bind, wp_fs_read; [|by intros e d1 H1'; split].
  intros b d1 H1' Hb. apply wp_bind, wp_lift. destruct (sidecar_from_json b) as [sc|] eqn:Hsc; [|by split]. cbn [ok_or].
  case_decide as Hv; [by split|]. apply wp_ok. split; [done|]. intros sc' [= <-]. exists b. split; [done|]. split; [done|].
  by destruct (decide (sidecar_version sc = SIDECAR_MANIFEST_VERSION)).
Qed.

Lemma gpg_decrypt_effect archive d : wp (gpg_decrypt_bytes archive) (λ r d', files d' = files d /\
  (forall out, r = Ok out -> gpg_on_path = true /\ exists bytes, files d !! archive = Some bytes /\ gpg_decrypt bytes = Some out)) d.
Proof.
  unfold gpg_decrypt_bytes. destruct gpg_on_path; cbn [negb]; [|by split]. apply wp_bind, wp_map_err, wp_sys_call.
  intros [[]|e] d1 H1'; [|by split]. apply wp_bind, wp_map_err, wp_fs_read; [|by intros e d2 H2'; split; congruence].
  intros b d2 H2' Hb. apply wp_lift. split; [congruence|]. intros out Hout. split; [done|]. exists b. split; [congruence|].
  by destruct (gpg_decrypt b); cbn in Hout; congruence.
Qed.

Lemma open_archive_effect archive d : wp (open_archive archive) (λ r d', files d' = files d /\
  (forall sc tar, r = Ok (sc, tar) -> archive_holds (files d) archive sc tar)) d.
Proof.
  apply wp_bind. eapply wp_mono; [apply read_sidecar_effect|]. intros [sc|e] d1 [H1' Hsc]; [|by split].
  destruct (Hsc sc eq_refl) as (sbytes & Hs1 & Hs2 & Hs3). apply wp_bind, wp_bind, wp_fs_read; [|by intros e d2 H2'; split; congruence].
  intros bytes d2 H2' Hb. apply wp_ok. case_decide as Hd; [split; [congruence|done]|]. apply wp_bind.
  assert (forall (r : result (list byte) SnapshotError) d3, files d3 = files d2 ->
    (forall out, r = Ok out -> if sidecar_encrypted sc then gpg_on_path = true /\ gpg_decrypt bytes = Some out else out = bytes) ->
    match r with
    | Ok compressed => wp (let! tar := lift (ok_or (zstd_decode compressed) ZstdFailed) in ok (sc, tar)) (λ r d', files d' = files d /\
        (forall sc tar, r = Ok (sc, tar) -> archive_holds (files d) archive sc tar)) d3
    | Err e => files d3 = files d /\ (forall sc tar, Err (A:=SidecarManifest * list byte) e = Ok (sc, tar) -> archive_holds (files d) archive sc tar)
    end) as Hend.
  { intros [out|e] d3 H3' Hout; [|split; [congruence|done]]. apply wp_bind, wp_lift. destruct (zstd_decode out) as [tar|] eqn:Hz; [|split; [congruence|done]].
    apply wp_ok. split; [congruence|]. intros sc' tar' [= <- <-]. exists bytes, sbytes, out. rewrite H1' in Hb. split_and!; try done. by apply Hout. }
  destruct (sidecar_encrypted sc) eqn:Henc.
  - eapply wp_mono; [apply gpg_decrypt_effect|]. intros r d3 [H3' Hr]. apply Hend; [done|]. intros out Hout.
    destruct (Hr out Hout) as (? & b & Hb' & ?). split; [done|]. rewrite H2', Hb in Hb'. congruence.
  - apply wp_fs_read; [|by intros e d3 H3'; apply (Hend (Err e))]. intros b d3 H3' Hb'. apply (Hend (Ok b)); [done|].
    intros out [= <-]. rewrite H2', Hb in Hb'. congruence.
Qed.

Definition payload_of (payloads : list (list byte)) (name : string) : option (list byte) :=
  (list_to_map (zip PAYLOAD_ENTRIES payloads) : gmap string (list byte)) !! name.

Lemma payload_of_verified entries payloads : Forall2 (λ name payload, last_entry entries name = Some payload) PAYLOAD_ENTRIES payloads ->
  forall name, name ∈ PAYLOAD_ENTRIES -> last_entry entries name = payload_of payloads name.
Proof.
  intros Hf name Hin. unfold payload_of. assert (NoDup PAYLOAD_ENTRIES) as Hnd by (apply (bool_decide_unpack _); vm_compute; exact I).
  revert Hin Hnd. induction Hf as [|n p names ps Hp _ IH]; intros Hin Hnd; [by apply elem_of_nil in Hin|].
  apply NoDup_cons in Hnd as [Hn Hnd]. cbn. apply elem_of_cons in Hin as [->|Hin]; [by rewrite lookup_insert_eq|].
  rewrite lookup_insert_ne by (by intros ->). by apply IH.
Qed.

Lemma placed_ext new new' target names k m1 m1' m2 m2' :
  (forall name, name ∈ names -> new name = new' name) ->
  (forall name, name ∈ names -> m1 !! (target, name) = m1' !! (target, name)) ->
  (forall name, name ∈ names -> m2 !! (target, name) = m2' !! (target, name)) ->
  placed new target names k m1 m2 -> placed new' target names k m1' m2'.
Proof.
  intros H1' H2' H3' Hp i name Hi. pose proof (list_elem_of_lookup_2 _ _ _ Hi) as Hin.
  rewrite <- H1', <- H2', <- H3' by done. by apply Hp.
Qed.

Lemma verify_unencrypted_effect tar_path d : wp (verify_unencrypted_snapshot tar_path) (λ r d', files d' = files d /\
  (forall manifest, r = Ok manifest -> exists bytes entries payloads, files d !! tar_path = Some bytes /\
     tar_entries bytes = Some entries /\ verify_entries entries = Ok (manifest, payloads))) d.
Proof.
  do 3 apply wp_bind. apply wp_fs_read; [|by split]. intros bytes d1 H1' Hb. apply wp_lift.
  destruct (tar_entries bytes) as [entries|] eqn:Ht; [|by split]. apply wp_lift.
  destruct (verify_entries entries) as [[manifest payloads]|e] eqn:Hv; [|by split]. apply wp_ok. split; [done|].
  intros m [= <-]. by exists bytes, entries, payloads.
Qed.

(** From the tar in the staging directory: either nothing of the target changes and the call fails,
    or the tar is good and its payloads are placed one by one. *)
Lemma verify_and_place_effect staging target tar d : files d !! (staging, "snapshot.tar") = Some tar ->
  target <> extract_dir staging -> target <> staging -> staging <> extract_dir staging ->
  wp (verify_and_place staging target) (λ r d',
    (is_ok r = false /\ forall name, name ∈ PAYLOAD_ENTRIES -> files d' !! (target, name) = files d !! (target, name)) \/
    (exists entries manifest payloads k, tar_entries tar = Some entries /\ verify_entries entries = Ok (manifest, payloads) /\
       k <= 4 /\ placed (payload_of payloads) target PAYLOAD_ENTRIES k (files d) (files d') /\
       if decide (k = 4) then r = Ok manifest else is_ok r = false)) d.
Proof.
  intros Htar Hn1 Hn2 Hn3. apply wp_bind. eapply wp_mono; [apply verify_unencrypted_effect|]. intros [manifest|e] d1 [H1' Hv].
  2: { left. split; [done|]. intros name _. by rewrite H1'. }
  destruct (Hv manifest eq_refl) as (bytes & entries & payloads & Hb & Ht & Hver). rewrite Htar in Hb. injection Hb as <-.
  apply wp_sys_effect; [|intros e d2 H2'; left; split; [done|]; intros name _; congruence]. intros d2 H2'.
  apply wp_bind, wp_bind, wp_fs_read; [|intros e d3 H3'; left; split; [done|]; intros name _; congruence].
  intros bytes d3 H3' Hb. rewrite H2', H1', Htar in Hb. injection Hb as <-. apply wp_lift.
  assert (ok_or (tar_entries tar) (SnapIo "tar") = Ok entries) as -> by (by rewrite Ht).
  apply wp_bind. eapply wp_mono; [apply extract_effect|]. intros r d4 [Hout Hin].
  assert (forall name, files d4 !! (target, name) = files d !! (target, name)) as Hsame.
  { intros name. rewrite Hout by done. congruence. }
  destruct r as [[]|e]; [|left; split; [done|]; intros name _; apply Hsame]. apply wp_bind.
  eapply wp_mono; [apply place_effect; [done|apply (bool_decide_unpack _); vm_compute; exact I]|].
  intros r d5 (k & Hk & Hpl & Hr). cbn [length PAYLOAD_ENTRIES] in Hk, Hr.
  assert (forall r' : result SnapshotManifest SnapshotError, (if decide (k = 4) then r' = Ok manifest else is_ok r' = false) ->
    exists entries manifest payloads k, tar_entries tar = Some entries /\ verify_entries entries = Ok (manifest, payloads) /\
       k <= 4 /\ placed (payload_of payloads) target PAYLOAD_ENTRIES k (files d) (files d5) /\
       if decide (k = 4) then r' = Ok manifest else is_ok r' = false) as Hend.
  { intros r' Hr'. exists entries, manifest, payloads, k. split; [done|]. split; [done|]. split; [done|]. split; [|done].
    apply verify_entries_Ok in Hver as (_ & _ & _ & Hf & _).
    eapply placed_ext; [| | |exact Hpl]; [|intros name _; by rewrite Hsame|done]. intros name Hname. cbn beta.
    rewrite <- (payload_of_verified entries payloads Hf name Hname), (Hin eq_refl name).
    - apply list_elem_of_lookup in Hname as [i Hi]. by destruct (Forall2_lookup_l _ _ _ _ _ Hf Hi) as (b & _ & ->).
    - intros ->. revert Hname. apply (bool_decide_unpack _). vm_compute. exact I. }
  destruct r as [[]|e]; [apply wp_ok; right; apply (Hend (Ok manifest))|right; apply (Hend (Err e))]; by destruct (decide (k = 4)).
Qed.

Definition restore_touches (staging target : string) (p : Path) : Prop :=
  p.1 ∈ [staging; extract_dir staging] \/ exists name, name ∈ PAYLOAD_ENTRIES /\ p = (target, name).

Lemma extract_dir_differs staging : staging <> extract_dir staging.
Proof. unfold extract_dir. intros E%(f_equal chars%string)%(f_equal length). rewrite chars_app, length_app in E. cbn in E. lia. Qed.

(** What a restore does, whatever fails. *)
Lemma restore_effect staging archive target d : target ∉ [staging; extract_dir staging] ->
  wp (restore_snapshot staging archive target) (λ r d',
    (is_ok r = false /\ forall name, name ∈ PAYLOAD_ENTRIES -> files d' !! (target, name) = files d !! (target, name)) \/
    (exists sc payloads k, sealed (files d) archive sc payloads /\ k <= 4 /\
       placed (payload_of payloads) target PAYLOAD_ENTRIES k (files d) (files d') /\
       if decide (k = 4) then r = Ok sc else is_ok r = false)) d.
Proof.
  intros Hdirs. rewrite !elem_of_cons, elem_of_nil in Hdirs. apply wp_bind. eapply wp_mono; [apply open_archive_effect|].
  intros [[sc tar]|e] d1 [H1' Ha]; [|left; split; [done|]; intros name _; congruence]. specialize (Ha sc tar eq_refl).
  apply wp_sys_effect; [|intros e d2 H2'; left; split; [done|]; intros name _; congruence]. intros d2 H2'.
  apply wp_with_tempdir; [intros e d3 H3'; left; split; [done|]; intros name _; congruence|]. intros d3 H3'.
  assert (forall m : gmap Path (list byte), (forall p, p.1 ∉ [staging; extract_dir staging] -> m !! p = files d3 !! p) ->
    forall name, m !! (target, name) = files d !! (target, name)) as Hsame.
  { intros m Hm name. rewrite Hm; [congruence|]. cbn. rewrite !elem_of_cons, elem_of_nil. tauto. }
  apply wp_bind. unfold fs_write. apply wp_bind, wp_fs_create.
  2: { intros e d4 H4' d5 H5'. left. split; [done|]. intros name _. apply Hsame. intros p Hp. by rewrite H5', H4'. }
  intros d4 H4'. apply wp_fs_write_all.
  2: { intros e n d5 H5' d6 H6'. left. split; [done|]. intros name _. apply Hsame. intros p Hp.
       assert ((staging, "snapshot.tar") <> p) as Hne by (intros <-; apply Hp; by left).
       by rewrite H6', H5', H4', !lookup_insert_ne. }
  intros d5 H5'. rewrite H4', lookup_insert_eq, insert_insert_eq in H5'. cbn in H5'. apply wp_bind.
  eapply wp_mono; [apply (verify_and_place_effect staging target tar); [by rewrite H5', lookup_insert_eq|tauto|tauto|apply extract_dir_differs]|].
  assert (forall name, files d5 !! (target, name) = files d !! (target, name)) as H5''.
  { intros name. rewrite H5', lookup_insert_ne by (intros [= E _]; apply Hdirs; by left). congruence. }
  assert (forall (d6 d7 : Disk) name, (forall p, p.1 ∉ [staging; extract_dir staging] -> files d7 !! p = files d6 !! p) ->
    files d7 !! (target, name) = files d6 !! (target, name)) as Hdrop.
  { intros d6 d7 name Hd. apply Hd. cbn. rewrite !elem_of_cons, elem_of_nil. tauto. }
  intros r d6 [[Hr Hkeep]|(entries & manifest & payloads & k & Ht & Hv & Hk & Hpl & Hr)].
  - destruct r; [done|]. intros d7 H7'. left. split; [done|]. intros name Hname. by rewrite (Hdrop d6), Hkeep, H5''.
  - assert (forall (r' : result SidecarManifest SnapshotError) (d7 : Disk), (forall p, p.1 ∉ [staging; extract_dir staging] -> files d7 !! p = files d6 !! p) ->
      (if decide (k = 4) then r' = Ok sc else is_ok r' = false) ->
      exists sc payloads k, sealed (files d) archive sc payloads /\ k <= 4 /\
       placed (payload_of payloads) target PAYLOAD_ENTRIES k (files d) (files d7) /\
       if decide (k = 4) then r' = Ok sc else is_ok r' = false) as Hend.
    { intros r' d7 H7' Hr'. exists sc, payloads, k. split; [by exists tar, entries, manifest|]. split; [done|]. split; [|done].
      eapply placed_ext; [| | |exact Hpl]; [done|intros name _; by rewrite H5''|]. intros name _. symmetry. by apply Hdrop. }
    destruct r as [m|e]; intros d7 H7'; right; [apply (Hend (Ok sc))|apply (Hend (Err e))]; try done; by destruct (decide (k = 4)).
Qed.

(** * What stays as it was *)

Lemma with_tempdir_touches {A} (touched : Path -> Prop) (dirs : list string) (body : SnapIO A) :
  (forall p, p.1 ∈ dirs -> touched p) -> respects (only_touches touched) body -> respects (only_touches touched) (with_tempdir dirs body).
Proof.
  intros Hdirs Hbody. apply respects_bind; [apply _|apply sys_call_touches|intros _].
  apply respects_bind; [apply _|by apply respects_attempt|intros r]. apply respects_bind; [apply _|apply next_fate_touches|intros [n|]]; [by respects_auto|].
  apply respects_bind; [apply _| |intros _; by respects_auto]. apply set_files_touches. intros m p Hp. destruct (m !! p) as [b|] eqn:Hb; [|by apply map_lookup_filter_None; left].
  apply map_lookup_filter_Some. split; [done|]. cbn. intros Hin. by apply Hp, Hdirs.
Qed.

Lemma extract_touches touched root entries : (forall name, touched (root, name)) -> respects (only_touches touched) (extract_entries root entries).
Proof. intros Ht. induction entries as [|[rel data] entries IH]; cbn [extract_entries]; respects_auto; eauto with respects. Qed.

Lemma place_touches_all touched root target names : (forall name, name ∈ names -> touched (root, name) /\ touched (target, name)) ->
  respects (only_touches touched) (place_payloads root target names).
Proof.
  intros Ht d p Hp. apply place_only. intros (name & Hn & [->| ->]); apply Hp; by apply Ht.
Qed.

Lemma open_archive_touches touched archive : respects (only_touches touched) (open_archive archive).
Proof. intros d p _. pose proof (open_archive_effect archive d) as H'. rewrite wp_run in H'. by rewrite (proj1 H'). Qed.

Lemma verify_unencrypted_touches touched p : respects (only_touches touched) (verify_unencrypted_snapshot p).
Proof. intros d q _. pose proof (verify_unencrypted_effect p d) as H'. rewrite wp_run in H'. by rewrite (proj1 H'). Qed.

Lemma read_entries_touches touched p : respects (only_touches touched) (read_entries p).
Proof. unfold read_entries. respects_auto. Qed.

#[local] Hint Resolve with_tempdir_touches extract_touches open_archive_touches verify_unencrypted_touches read_entries_touches : respects.

Lemma restore_only staging archive target : respects (only_touches (restore_touches staging target)) (restore_snapshot staging archive target).
Proof.
  assert (forall name, restore_touches staging target (staging, name)) as T1 by (intros name; left; by left).
  assert (forall name, restore_touches staging target (extract_dir staging, name)) as T2 by (intros name; left; right; by left).
  unfold restore_snapshot, verify_and_place. respects_auto. apply with_tempdir_touches; [by left|].
  respects_auto; eauto with respects. apply place_touches_all. intros name Hn. split; [done|]. right. by exists name.
Qed.

(** * Without failures *)

Lemma with_tempdir_reliable {A} (dirs : list string) (body : SnapIO A) m a m' : body (mkDisk m []) = (Ok a, mkDisk m' []) ->
  with_tempdir dirs body (mkDisk m []) = (Ok a, mkDisk (filter (λ x, x.1.1 ∉ dirs) m') []).
Proof. intros E. unfold with_tempdir, bind. rewrite sys_call_reliable. unfold attempt. by rewrite E. Qed.

Lemma open_archive_reliable m archive sc tar : archive_holds m archive sc tar ->
  open_archive archive (mkDisk m []) = (Ok (sc, tar), mkDisk m []).
Proof.
  intros (bytes & sbytes & compressed & Ha & Hs & Hj & Hv & Hd & Henc & Hz). unfold open_archive, read_sidecar, sha3_of_file, bind.
  rewrite fs_exists_reliable, Hs, bool_decide_true by eauto. cbn [negb]. rewrite (fs_read_reliable _ _ sbytes) by done.
  unfold lift. rewrite Hj. cbn [ok_or]. rewrite decide_False by (by intros []). unfold ok. rewrite (fs_read_reliable _ _ bytes) by done.
  rewrite decide_False by (by intros []). destruct (sidecar_encrypted sc).
  - destruct Henc as [Hg Hc]. unfold gpg_decrypt_bytes, bind, map_err. rewrite Hg. cbn [negb]. rewrite sys_call_reliable.
    rewrite (fs_read_reliable _ _ bytes) by done. unfold lift. rewrite Hc. cbn [ok_or]. by rewrite Hz.
  - subst. rewrite (fs_read_reliable _ _ bytes) by done. by rewrite Hz.
Qed.

Lemma verify_unencrypted_reliable m p bytes entries manifest payloads : m !! p = Some bytes ->
  tar_entries bytes = Some entries -> verify_entries entries = Ok (manifest, payloads) ->
  verify_unencrypted_snapshot p (mkDisk m []) = (Ok manifest, mkDisk m []).
Proof.
  intros Hp Ht Hv. unfold verify_unencrypted_snapshot, read_and_verify, read_entries, bind, lift.
  rewrite (fs_read_reliable _ _ bytes) by done. rewrite Ht. cbn. by rewrite Hv.
Qed.

(** Entries that can be unpacked. *)
Definition safe_entry (x : string * list byte) : Prop := unsafe_path (chars x.1) = false /\ x.1 ∉ ["" : string; "."].

Lemma extract_reliable root entries m : Forall safe_entry entries -> exists m', extract_entries root entries (mkDisk m []) = (Ok tt, mkDisk m' []).
Proof.
  intros Hs. revert m. induction Hs as [|[rel data] entries [Hu Hn] _ IH]; intros m; [by exists m|].
  cbn [extract_entries fst] in *. rewrite Hu. case_decide; [apply IH|]. rewrite bool_decide_false by done.
  unfold bind. rewrite fs_create_reliable, fs_write_all_reliable. apply IH.
Qed.

Lemma place_reliable root target names m : root <> target -> NoDup names -> (forall name, name ∈ names -> is_Some (m !! (root, name))) ->
  exists m', place_payloads root target names (mkDisk m []) = (Ok tt, mkDisk m' []).
Proof.
  intros Hne Hnd. revert m. induction Hnd as [|name names Hn _ IH]; intros m Hall; [by exists m|].
  cbn [place_payloads]. unfold bind. rewrite fs_exists_reliable, bool_decide_true by (apply Hall; by left). cbn [negb].
  destruct (Hall name ltac:(by left)) as [b Hb]. rewrite fs_exists_reliable. case_bool_decide as Ht.
  - rewrite fs_remove_reliable by done. rewrite (fs_rename_reliable _ _ _ b) by (by rewrite lookup_delete_ne by congruence).
    apply IH. intros n Hin. rewrite lookup_insert_ne, !lookup_delete_ne by congruence. apply Hall. by right.
  - unfold ok. rewrite (fs_rename_reliable _ _ _ b) by done.
    apply IH. intros n Hin. rewrite lookup_insert_ne, lookup_delete_ne by congruence. apply Hall. by right.
Qed.

(** * Creating *)

Definition tmp_store (pid : string) (out_tar : Path) : Path :=
  (fst out_tar, (".pcloud-snapshot-store-" +:+ pid +:+ ".sqlite3")%string).

Lemma ensures_read_required p which (Q : list byte -> Disk -> Prop) d :
  (forall bytes d', files d' = files d -> files d !! p = Some bytes -> Q bytes d') -> ensures (read_required p which) Q d.
Proof.
  intros HQ. apply ensures_bind, ensures_gets. destruct (negb _); [apply ensures_throw|]. by apply ensures_fs_read.
Qed.

Lemma ensures_sqlite_backup pid store out (Q : list byte -> Disk -> Prop) d : files d !! tmp_store pid out = None ->
  (forall copy d', sqlite_backup store (files d) = Some copy ->
     (forall p, p <> tmp_store pid out -> files d' !! p = files d !! p) -> Q copy d') ->
  ensures (sqlite_backup_to_bytes pid store out) Q d.
Proof.
  intros Hfresh HQ. apply ensures_bind, ensures_gets. fold (tmp_store pid out). rewrite Hfresh, bool_decide_false by (by intros []).
  apply ensures_bind, ensures_ok, ensures_bind, ensures_map_err, ensures_sys_call. intros d1 H1'.
  apply ensures_bind, ensures_gets, ensures_bind, ensures_lift. intros copy Hcopy. rewrite H1' in Hcopy.
  apply ensures_bind, ensures_map_err, ensures_fs_write. intros d2 H2'. apply ensures_bind, ensures_fs_read.
  intros bytes d3 H3' Hb. rewrite H2', lookup_insert_eq in Hb. injection Hb as <-. apply ensures_bind, ensures_fs_remove_attempt.
  intros r d4 H4'. apply ensures_ok, HQ; [by destruct (sqlite_backup store (files d)); cbn in Hcopy; congruence|].
  intros p Hp. rewrite H4', H3', H2', lookup_insert_ne by done. congruence.
Qed.

Lemma ensures_read_schema_version store (Q : N -> Disk -> Prop) d :
  (forall v d', files d' = files d -> Q v d') -> ensures (read_schema_version store) Q d.
Proof.
  intros HQ. apply ensures_bind, ensures_map_err, ensures_sys_call. intros d1 H1'. apply ensures_bind, ensures_gets, ensures_bind, ensures_lift.
  intros v _. case_bool_decide; [apply ensures_throw|]. apply ensures_ok. by apply HQ.
Qed.

Definition archive_entries (manifest : list byte) (payloads : list (list byte)) : list (string * list byte) :=
  zip ("manifest.json" :: PAYLOAD_ENTRIES) (manifest :: payloads).

(** The payloads that a snapshot of these files takes. *)
Definition sources (m : gmap Path (list byte)) (store vault audit : Path) (config : list byte) (payloads : list (list byte)) : Prop :=
  exists auth copy audit_bytes, m !! vault = Some auth /\ sqlite_backup store m = Some copy /\ m !! audit = Some audit_bytes /\
    payloads = [auth; copy; audit_bytes; config].

Lemma ensures_create_unencrypted pid now store vault audit config out (Q : SnapshotManifest -> Disk -> Prop) d :
  files d !! tmp_store pid out = None ->
  (forall manifest mb payloads d', sources (files d) store vault audit config payloads -> manifest_to_json manifest = Some mb ->
     sha256_manifest manifest = payload_digest payloads -> files d' !! out = Some (tar_bytes (archive_entries mb payloads)) ->
     (forall p, p <> out -> p <> tmp_store pid out -> files d' !! p = files d !! p) -> Q manifest d') ->
  ensures (create_unencrypted_snapshot pid now store vault audit config out) Q d.
Proof.
  intros Hfresh HQ. apply ensures_bind, ensures_read_required. intros auth d1 H1' Hauth.
  apply ensures_bind, ensures_read_required. intros auditb d2 H2' Haudit. rewrite H1' in Haudit.
  apply ensures_bind, ensures_sqlite_backup; [congruence|]. intros copy d3 Hcopy H3'. assert (files d2 = files d) as E by congruence. rewrite E in Hcopy, H3'.
  apply ensures_bind, ensures_read_schema_version. intros v d4 H4'. apply ensures_bind, ensures_lift. intros mb Hmb.
  apply ensures_bind, ensures_fs_create. intros d5 H5'. apply ensures_bind, ensures_fs_write_all. intros d6 H6'.
  rewrite H5', lookup_insert_eq, insert_insert_eq in H6'. cbn [default app] in H6'. apply ensures_ok.
  match goal with |- Q ?mf _ => apply (HQ mf mb [auth; copy; auditb; config]) end.
  - by exists auth, copy, auditb.
  - by destruct (manifest_to_json _); cbn in Hmb; congruence.
  - done.
  - by rewrite H6', lookup_insert_eq.
  - intros p Hp1 Hp2. rewrite H6', lookup_insert_ne by done. rewrite H4'. by apply H3'.
Qed.

Lemma ensures_atomic_write pid p bytes (Q : unit -> Disk -> Prop) d :
  let tmp := (p.1, ("." +:+ (if valid_utf8 (chars p.2) then p.2 else "sidecar") +:+ ".tmp-" +:+ pid)%string) in
  (forall d', files d' !! p = Some bytes -> (forall q, q <> p -> q <> tmp -> files d' !! q = files d !! q) -> Q tt d') ->
  ensures (atomic_write pid p bytes) Q d.
Proof.
  intros tmp HQ. apply ensures_bind, ensures_fs_create. intros d1 H1'. apply ensures_bind, ensures_fs_write_all. intros d2 H2'.
  apply ensures_bind, ensures_sys_call. intros d3 H3'. fold tmp in H1', H2' |- *. rewrite H1', lookup_insert_eq, insert_insert_eq in H2'. cbn [default app] in H2'.
  apply ensures_fs_rename. intros b d4 Hb H4'. rewrite H3', H2', lookup_insert_eq in Hb. injection Hb as <-. apply HQ.
  - by rewrite H4', lookup_insert_eq.
  - intros q Hq1 Hq2. rewrite H4', lookup_insert_ne, lookup_delete_ne, H3', H2', lookup_insert_ne; done.
Qed.

Lemma ensures_with_tempdir {A} (dirs : list string) (body : SnapIO A) (Q : A -> Disk -> Prop) d :
  (forall d1, files d1 = files d -> ensures body (λ a d2, forall d3, (forall p, p.1 ∉ dirs -> files d3 !! p = files d2 !! p) -> Q a d3) d1) ->
  ensures (with_tempdir dirs body) Q d.
Proof.
  intros Hbody. apply ensures_wp, wp_with_tempdir; [done|]. intros d1 H1'. specialize (Hbody d1 H1'). unfold wp, ensures in *.
  destruct (body d1) as [[a|e] d2]; [exact Hbody|done].
Qed.

Lemma ensures_gpg_encrypt bytes recipient out (Q : unit -> Disk -> Prop) d :
  (forall c d', gpg_on_path = true -> gpg_encrypt recipient bytes = Some c -> files d' = <[out := c]> (files d) -> Q tt d') ->
  ensures (gpg_encrypt_bytes bytes recipient out) Q d.
Proof.
  intros HQ. unfold gpg_encrypt_bytes. destruct gpg_on_path eqn:Hg; [|apply ensures_throw]. destruct (gpg_lists_key recipient); [|apply ensures_throw].
  cbn [negb]. apply ensures_bind, ensures_map_err, ensures_sys_call. intros d1 H1'. apply ensures_wp. apply wp_bind.
  unfold wp at 1, next_fate. destruct (default None (head (fates d1))) as [n|]; [done|]. apply wp_bind, wp_map_err, wp_sys_call.
  intros [[]|e] d2 H2'; [|done]. apply wp_bind. unfold wp at 1, next_fate. destruct (default None (head (fates d2))) as [n|].
  - apply wp_run. unfold bind, set_files, modify, attempt. cbn. by destruct (fs_remove _ _).
  - destruct (gpg_encrypt recipient bytes) as [c|] eqn:Hc.
    + apply wp_modify. apply (HQ c); [done..|]. cbn in *. congruence.
    + apply wp_run. unfold bind, set_files, modify, attempt. cbn. by destruct (fs_remove _ _).
Qed.
End Facts.

(** * The contracts of the crates *)

Class SnapshotLaws `{TarCodec, ZstdCodec, ManifestJson} : Prop := {
  tar_round_trip entries : Forall (λ x, x.1 ∈ "manifest.json" :: PAYLOAD_ENTRIES) entries -> tar_entries (tar_bytes entries) = Some entries;
  zstd_round_trip bytes level out : zstd_encode bytes level = Some out -> zstd_decode out = Some bytes;
  manifest_round_trip m b : manifest_to_json m = Some b -> manifest_from_json b = Some m;
  sidecar_round_trip m b : sidecar_to_json m = Some b -> sidecar_from_json b = Some m;
}.

Lemma valid_utf8_app a b : valid_utf8 a = true -> valid_utf8 b = true -> valid_utf8 (a ++ b) = true.
Proof.
  intros Ha Hb. assert (exists n, length a <= n) as [n Hn] by by exists (length a). revert a Ha Hn.
  induction n as [|n IH]; intros [|c a] Ha Hn; try done; [cbn in Hn; lia|].
  unfold valid_utf8 in Ha. cbn [length valid_loop] in Ha. destruct (utf8_step (c :: a)) as [good k] eqn:Hs.
  apply andb_prop in Ha as [-> Ha]. pose proof (utf8_step_pos (c :: a) ltac:(done)) as Hp. rewrite Hs in Hp. cbn in Hp.
  rewrite <- (take_drop k (c :: a)), <- app_assoc. apply valid_utf8_prepend; [done|done|]. apply IH.
  - unfold valid_utf8. rewrite <- Ha. apply valid_loop_fuel; rewrite ?length_drop; cbn; lia.
  - rewrite length_drop. cbn in *. lia.
Qed.

Lemma sidecar_path_differs p : sidecar_path p <> p.
Proof. destruct p as [dir n]. unfold sidecar_path. cbn. intros [= E]. by apply sidecar_differs in E. Qed.

(** The temporary name of the sidecar is not the archive's. *)
Lemma sidecar_tmp_differs pid (p : Path) : valid_utf8 (chars p.2) = true ->
  ((sidecar_path p).1, ("." +:+ (if valid_utf8 (chars (sidecar_path p).2) then (sidecar_path p).2 else "sidecar") +:+ ".tmp-" +:+ pid)%string) <> p.
Proof.
  intros Hv. assert (valid_utf8 (chars (sidecar_path p).2) = true) as ->.
  { unfold sidecar_path, sidecar_path_for. cbn. rewrite chars_app. by apply valid_utf8_app. }
  intros E%(f_equal (λ q, length (chars q.2))). cbn in E. unfold sidecar_path_for in E. rewrite !chars_app, !length_app in E. cbn in E. lia.
Qed.

Section Theorems.
Context `{SnapshotLaws, Digests, Gpg, Sqlite}.

(** The tar of a snapshot verifies. *)
Lemma archive_entries_verify mb manifest payloads : manifest_to_json manifest = Some mb -> length payloads = 4 ->
  sha256_manifest manifest = payload_digest payloads ->
  tar_entries (tar_bytes (archive_entries mb payloads)) = Some (archive_entries mb payloads) /\
  verify_entries (archive_entries mb payloads) = Ok (manifest, payloads).
Proof.
  intros Hmb Hlen Hd. destruct payloads as [|a [|b [|c [|e [|]]]]]; try done. split.
  - apply tar_round_trip. repeat constructor; cbn; set_solver.
  - apply verify_entries_Ok. exists mb. split; [done|]. split; [by apply manifest_round_trip|]. by repeat constructor.
Qed.

Lemma sources_length m store vault audit config payloads : sources m store vault audit config payloads -> length payloads = 4.
Proof. by intros (? & ? & ? & _ & _ & _ & ->). Qed.

Lemma archive_holds_ext m m' archive sc tar : m !! archive = m' !! archive -> m !! sidecar_path archive = m' !! sidecar_path archive ->
  archive_holds m archive sc tar -> archive_holds m' archive sc tar.
Proof. intros E1 E2. unfold archive_holds. by rewrite E1, E2. Qed.

(** The end of [create_snapshot]: the sidecar of an archive that is on the disk. *)
Lemma ensures_sidecar (pid : string) (sealed_at : N) (out : Path) (options : SnapshotOptions) (manifest : SnapshotManifest)
    (archive compressed tar : list byte) (encrypted : bool) (d : Disk) :
  valid_utf8 (chars out.2) = true -> files d !! out = Some archive -> zstd_decode compressed = Some tar ->
  (if encrypted then gpg_on_path = true /\ gpg_decrypt archive = Some compressed else compressed = archive) ->
  ensures (E:=SnapshotError) (let! sha3_hex := sha3_of_file out in
    do! sys_call "metadata" in
    let! archive := opened out in
    let sidecar := mkSidecar SIDECAR_MANIFEST_VERSION (if valid_utf8 (chars (snd out)) then snd out else "")
      (len archive) sha3_hex (zstd_level options) encrypted sealed_at manifest in
    let! sidecar_bytes := lift (ok_or (sidecar_to_json sidecar) SnapSerde) in
    do! atomic_write pid (sidecar_path out) sidecar_bytes in
    ok sidecar) (λ sc d', archive_holds (files d') out sc tar) d.
Proof.
  intros Hutf8 Ha Hz Henc. apply ensures_bind, ensures_bind, ensures_fs_read. intros b d5 H5' Hb. rewrite Ha in Hb. injection Hb as <-.
  apply ensures_ok, ensures_bind, ensures_sys_call. intros d6 H6'. apply ensures_bind, ensures_opened. intros b Hb.
  rewrite H6', H5', Ha in Hb. injection Hb as <-. apply ensures_bind, ensures_lift. intros sb Hsb. apply ensures_bind, ensures_atomic_write.
  intros d7 Hs Hrest. apply ensures_ok. exists archive, sb, compressed. split_and!; try done.
  - rewrite Hrest; [congruence| |]; [intros E; by apply (sidecar_path_differs out)|]. intros E. by apply (sidecar_tmp_differs pid out Hutf8).
  - apply sidecar_round_trip. by destruct (sidecar_to_json _); cbn in Hsb; congruence.
Qed.

(** A snapshot that was created is sealed. *)
Lemma create_seals pid staging now sealed_at store vault audit config out options d :
  files d !! tmp_store pid (staging, "inner.tar") = None -> out.1 <> staging ->
  (forall r, gpg_recipient options = Some r -> forall b c, gpg_encrypt r b = Some c -> gpg_decrypt c = Some b) ->
  ensures (create_snapshot pid staging now sealed_at store vault audit config out options) (λ sc d',
    exists mb manifest payloads, sources (files d) store vault audit config payloads /\
      manifest_to_json manifest = Some mb /\ sha256_manifest manifest = payload_digest payloads /\
      archive_holds (files d') out sc (tar_bytes (archive_entries mb payloads))) d.
Proof.
  intros Hfresh Hout Hkey. apply ensures_bind, ensures_lift. intros [] _.
  cbv zeta. destruct (negb (archive_suffix_ok out _)) eqn:Hsuffix; [apply ensures_throw|].
  assert (valid_utf8 (chars out.2) = true) as Hutf8.
  { unfold archive_suffix_ok in Hsuffix. by destruct (valid_utf8 (chars out.2)). }
  apply ensures_with_tempdir. intros d1 H1'. apply ensures_bind, ensures_bind, ensures_create_unencrypted; [congruence|].
  intros manifest mb payloads d2 Hsrc Hmb Hdigest Htar Hframe. rewrite H1' in Hsrc. apply ensures_bind, ensures_fs_read.
  intros tar d3 H3' Hb. rewrite Htar in Hb. injection Hb as <-. apply ensures_ok, ensures_bind, ensures_lift. intros compressed Hz.
  assert (zstd_decode compressed = Some (tar_bytes (archive_entries mb payloads))) as Hdec.
  { eapply zstd_round_trip. destruct (zstd_encode _ (zstd_level options)) eqn:E; [|done]. cbn in Hz. injection Hz as ->. exact E. }
  apply ensures_bind.
  assert (forall sc (d' d'' : Disk), archive_holds (files d') out sc (tar_bytes (archive_entries mb payloads)) ->
    (forall p, p.1 ∉ [staging] -> files d'' !! p = files d' !! p) ->
    exists mb manifest payloads, sources (files d) store vault audit config payloads /\
      manifest_to_json manifest = Some mb /\ sha256_manifest manifest = payload_digest payloads /\
      archive_holds (files d'') out sc (tar_bytes (archive_entries mb payloads))) as Hend.
  { intros sc d' d'' Hh Hdrop. exists mb, manifest, payloads. split; [done|]. split; [done|]. split; [done|].
    eapply archive_holds_ext; [| |exact Hh]; symmetry; apply Hdrop; by rewrite list_elem_of_singleton. }
  destruct (gpg_recipient options) as [r|] eqn:Hr.
  - apply ensures_gpg_encrypt. intros c d4 Hg Hc H4'. eapply ensures_mono; [eapply (ensures_sidecar _ _ _ _ _ c compressed)|exact (λ sc d' Hh d'' Hd, Hend sc d' d'' Hh Hd)]; [done|..].
    + by rewrite H4', lookup_insert_eq.
    + exact Hdec.
    + split; [done|]. by apply (Hkey r).
  - apply ensures_atomic_write. intros d4 H4' _. eapply ensures_mono; [by eapply (ensures_sidecar _ _ _ _ _ compressed compressed)|exact (λ sc d' Hh d'' Hd, Hend sc d' d'' Hh Hd)].
Qed.

Lemma payload_names_nodup : NoDup PAYLOAD_ENTRIES.
Proof. apply (bool_decide_unpack _). vm_compute. exact I. Qed.

Lemma archive_entries_safe mb payloads : Forall safe_entry (archive_entries mb payloads).
Proof.
  assert (Forall (λ name, unsafe_path (chars name) = false /\ name ∉ ["" : string; "."]) ("manifest.json" :: PAYLOAD_ENTRIES)) as Hn.
  { apply (bool_decide_unpack _). vm_compute. exact I. }
  apply Forall_forall. intros [name b] Hin. rewrite Forall_forall in Hn. apply (Hn name). by apply elem_of_zip_l in Hin.
Qed.

(** Without failures a good archive with safe entries is restored. *)
Lemma verify_and_place_reliable (staging target : string) m tar entries manifest payloads : m !! (staging, "snapshot.tar") = Some tar ->
  tar_entries tar = Some entries -> verify_entries entries = Ok (manifest, payloads) -> Forall safe_entry entries ->
  target <> extract_dir staging -> exists m', verify_and_place staging target (mkDisk m []) = (Ok manifest, mkDisk m' []).
Proof.
  intros Htar Ht Hv Hsafe Hne. unfold verify_and_place, bind. rewrite (verify_unencrypted_reliable _ _ tar entries manifest payloads) by done.
  rewrite sys_call_reliable. unfold read_entries, bind, lift. rewrite (fs_read_reliable _ _ tar) by done. rewrite Ht. cbn [ok_or].
  destruct (extract_reliable (extract_dir staging) entries m Hsafe) as [m1 E1]. rewrite E1.
  pose proof (extract_effect (extract_dir staging) entries (mkDisk m [])) as Hex. unfold wp in Hex. rewrite E1 in Hex. destruct Hex as [_ Hex].
  destruct (place_reliable (extract_dir staging) target PAYLOAD_ENTRIES m1) as [m2 E2]; [done|apply payload_names_nodup| |rewrite E2; by exists m2].
  intros name Hname. cbn [files] in Hex. rewrite (Hex eq_refl name).
  - apply verify_entries_Ok in Hv as (_ & _ & _ & Hf & _). apply list_elem_of_lookup in Hname as [i Hi].
    destruct (Forall2_lookup_l _ _ _ _ _ Hf Hi) as (b & _ & ->). eauto.
  - intros ->. revert Hname. apply (bool_decide_unpack _). vm_compute. exact I.
Qed.

Lemma restore_reliable (staging target : string) archive m sc tar entries manifest payloads : archive_holds m archive sc tar ->
  tar_entries tar = Some entries -> verify_entries entries = Ok (manifest, payloads) -> Forall safe_entry entries ->
  target ∉ [staging; extract_dir staging] -> exists m', restore_snapshot staging archive target (mkDisk m []) = (Ok sc, mkDisk m' []).
Proof.
  intros Ha Ht Hv Hsafe Hdirs. rewrite !elem_of_cons, elem_of_nil in Hdirs. unfold restore_snapshot, bind at 1.
  rewrite (open_archive_reliable m archive sc tar) by done. unfold bind at 1. rewrite sys_call_reliable.
  set (m1 := <[(staging, "snapshot.tar") := tar]> m).
  destruct (verify_and_place_reliable staging target m1 tar entries manifest payloads) as [m2 E2]; [by apply lookup_insert_eq|done..|tauto|].
  eexists. apply (with_tempdir_reliable _ _ m sc m2). unfold bind. rewrite fs_write_reliable. fold m1. by rewrite E2.
Qed.

Lemma verify_reliable staging archive m sc tar entries manifest payloads : archive_holds m archive sc tar ->
  tar_entries tar = Some entries -> verify_entries entries = Ok (manifest, payloads) ->
  (verify_snapshot staging archive (mkDisk m [])).1 = Ok sc.
Proof.
  intros Ha Ht Hv. unfold verify_snapshot, bind at 1. rewrite (open_archive_reliable m archive sc tar) by done.
  set (m1 := <[(staging, "snapshot.tar") := tar]> m).
  erewrite (with_tempdir_reliable _ _ m sc m1); [done|]. unfold bind. rewrite fs_write_reliable. fold m1.
  by rewrite (verify_unencrypted_reliable _ _ tar entries manifest payloads) by (done || by apply lookup_insert_eq).
Qed.

(** An archive holds one list of payloads. *)
Lemma sealed_unique m archive sc sc' p p' : sealed m archive sc p -> sealed m archive sc' p' -> sc = sc' /\ p = p'.
Proof.
  intros (tar & entries & mf & (b & sb & c & A1 & A2 & A3 & _ & _ & A6 & A7) & T1 & V1)
         (tar' & entries' & mf' & (b' & sb' & c' & B1 & B2 & B3 & _ & _ & B6 & B7) & T2 & V2).
  assert (sc = sc') as <- by congruence. assert (b = b') as <- by congruence.
  assert (c = c') as <- by (destruct (sidecar_encrypted sc); [destruct A6, B6|]; congruence).
  assert (tar = tar') as <- by congruence. assert (entries = entries') as <- by congruence. split; congruence.
Qed.

(** C21: A snapshot that was created verifies and can be restored: from any later disk that still has the archive and its sidecar, a restore without
    failures puts the bytes of the vault, the consistent copy of the store, the audit file and the
    configuration in place, and touches no other file outside its temporary directory. *)
Theorem snapshot_round_trip (pid staging staging' target : string) (now sealed_at : N) (store vault audit out : Path)
  (config : list byte) (options : SnapshotOptions) (sc : SidecarManifest)
  (d d1 : Disk) (m : gmap Path (list byte))
  (Hfresh : files d !! tmp_store pid (staging, "inner.tar") = None) (Hout : out.1 <> staging)
  (Hkey : forall r, gpg_recipient options = Some r -> forall b c, gpg_encrypt r b = Some c -> gpg_decrypt c = Some b)
  (Hcreate : create_snapshot pid staging now sealed_at store vault audit config out options d = (Ok sc, d1))
  (Hm : m !! out = files d1 !! out /\ m !! sidecar_path out = files d1 !! sidecar_path out)
  (Htarget : target ∉ [staging'; extract_dir staging']) :
  exists payloads m', sources (files d) store vault audit config payloads /\
    (verify_snapshot staging' out (mkDisk m [])).1 = Ok sc /\
    restore_snapshot staging' out target (mkDisk m []) = (Ok sc, mkDisk m' []) /\
    (forall name, name ∈ PAYLOAD_ENTRIES -> m' !! (target, name) = payload_of payloads name) /\
    (forall p, ~ restore_touches staging' target p -> m' !! p = m !! p).
Proof.
  pose proof (ensures_run _ _ _ _ _ (create_seals pid staging now sealed_at store vault audit config out options d Hfresh Hout Hkey) Hcreate)
    as (mb & manifest & payloads & Hsrc & Hmb & Hd & Hholds).
  destruct (archive_entries_verify mb manifest payloads Hmb (sources_length _ _ _ _ _ _ Hsrc) Hd) as [Ht Hv].
  assert (archive_holds m out sc (tar_bytes (archive_entries mb payloads))) as Hholds'.
  { eapply archive_holds_ext; [symmetry; apply Hm|symmetry; apply Hm|exact Hholds]. }
  destruct (restore_reliable staging' target out m sc _ _ manifest payloads Hholds' Ht Hv (archive_entries_safe mb payloads) Htarget) as [m' Hrun].
  exists payloads, m'. split; [done|]. split; [by eapply verify_reliable|]. split; [done|]. split.
  - pose proof (restore_effect staging' out target (mkDisk m []) Htarget) as Hr. unfold wp in Hr. rewrite Hrun in Hr.
    destruct Hr as [[? _]|(sc' & payloads' & k & Hs & Hk & Hpl & Hdec)]; [done|]. destruct (decide (k = 4)) as [->|]; [|done].
    destruct (sealed_unique m out sc sc' payloads payloads') as [_ <-]; [by exists (tar_bytes (archive_entries mb payloads)), (archive_entries mb payloads), manifest|done|].
    intros name Hname. apply list_elem_of_lookup in Hname as [i Hi]. apply (Hpl i name Hi). by apply lookup_lt_Some in Hi.
  - intros p Hp. pose proof (restore_only staging' out target (mkDisk m []) p Hp) as Ho. by rewrite Hrun in Ho.
Qed.

(** C22: What a restore leaves behind, whatever system call fails and whenever.  Either it fails and
    the target has its old payload files, or the archive is intact, that is, archive, sidecar,
    envelope, tar and manifest agree, and a first part of the payloads is in place: the whole of
    them exactly when the call succeeds; else the next file has its old bytes or is missing, and
    the rest is as before.  No other file changes outside the temporary directory. *)
Theorem restore_snapshot_spec (staging target : string) (archive : Path) r (d d' : Disk)
  (Hdirs : target ∉ [staging; extract_dir staging]) (Hrun : restore_snapshot staging archive target d = (r, d')) :
  (forall p, ~ restore_touches staging target p -> files d' !! p = files d !! p) /\
  ((is_ok r = false /\ forall name, name ∈ PAYLOAD_ENTRIES -> files d' !! (target, name) = files d !! (target, name)) \/
   (exists sc payloads k, sealed (files d) archive sc payloads /\ k <= 4 /\
      placed (payload_of payloads) target PAYLOAD_ENTRIES k (files d) (files d') /\
      if decide (k = 4) then r = Ok sc else is_ok r = false)).
Proof.
  split.
  - intros p Hp. pose proof (restore_only staging archive target d p Hp) as Ho. by rewrite Hrun in Ho.
  - pose proof (restore_effect staging archive target d Hdirs) as Hr. unfold wp in Hr. by rewrite Hrun in Hr.
Qed.

(** A restore by the daemon does not bring back the session, nor does it remove the write-ahead
    log of the replaced store: the vault file of the configuration directory and every file of the
    state directory but the four payloads stay as they are, whatever happens. *)
Theorem daemon_restore_leaves_vault_and_wal pid staging now sealed_at (paths : ManagedPaths) config prune audit_ok path recipient yes days level (d : Disk)
  (Hconfig : config_dir paths ∉ [staging; extract_dir staging; state_dir paths]) (Hstate : state_dir paths ∉ [staging; extract_dir staging]) :
  let d' := (handle_backup_snapshot pid staging now sealed_at paths config prune audit_ok ActionRestore path recipient yes days level d).2 in
  files d' !! auth_token_vault_path paths = files d !! auth_token_vault_path paths /\
  forall name, name ∉ PAYLOAD_ENTRIES -> files d' !! (state_dir paths, name) = files d !! (state_dir paths, name).
Proof.
  assert (respects (only_touches (restore_touches staging (state_dir paths)))
    (handle_backup_snapshot pid staging now sealed_at paths config prune audit_ok ActionRestore path recipient yes days level)) as Ho.
  { unfold handle_backup_snapshot, answer. destruct yes; cbn [negb]; [|by respects_auto]. respects_auto. apply restore_only. }
  rewrite !elem_of_cons, elem_of_nil in Hconfig. rewrite !elem_of_cons, elem_of_nil in Hstate. cbv zeta. split; [|intros name Hname]; apply Ho;
    intros [Hin|(n & Hn & E)].
  - cbn in Hin. rewrite !elem_of_cons, elem_of_nil in Hin. tauto.
  - injection E as E _. tauto.
  - cbn in Hin. rewrite !elem_of_cons, elem_of_nil in Hin. tauto.
  - injection E as ->. done.
Qed.

(** The digest of the manifest does not bind where a payload ends: bytes can move from the end of
    one payload to the beginning of the next. *)
Theorem payload_boundaries_are_not_bound mb manifest a b c x e : manifest_from_json mb = Some manifest ->
  verify_entries (archive_entries mb [a; b; c ++ x; e]) = Ok (manifest, [a; b; c ++ x; e]) ->
  verify_entries (archive_entries mb [a; b; c; x ++ e]) = Ok (manifest, [a; b; c; x ++ e]).
Proof.
  intros Hmb (_ & _ & _ & _ & Hd)%verify_entries_Ok. apply verify_entries_Ok. exists mb. split; [done|]. split; [done|].
  split; [by repeat constructor|]. rewrite <- Hd. unfold payload_digest. cbn. by rewrite <- !app_assoc.
Qed.

(** An archive without a sidecar, as the older pipeline makes them, is refused. *)
Theorem archives_without_sidecar_are_refused staging (archive : Path) target (d : Disk) :
  files d !! sidecar_path archive = None -> (restore_snapshot staging archive target d).1 = Err SidecarMissing.
Proof.
  intros Hs. unfold restore_snapshot, open_archive, read_sidecar, bind, fs_exists, gets. by rewrite Hs, bool_decide_false by (by intros []).
Qed.
End Theorems.

(** * The contracts are inhabited *)

(** Strings one after the other: a byte follows a slash, a dot ends a string. *)
Definition pack (strings : list (list byte)) : list byte :=
  strings ≫= λ s, (s ≫= λ c, [slash; c]) ++ [dot].
Fixpoint unpack (l current : list byte) (strings : list (list byte)) : option (list (list byte)) :=
  match l with
  | [] => Some strings
  | mark :: l =>
      if decide (mark = dot) then unpack l [] (strings ++ [current])
      else match l with c :: l => unpack l (current ++ [c]) strings | [] => None end
  end.

Lemma unpack_string s l current strings :
  unpack ((s ≫= λ c, [slash; c]) ++ l) current strings = unpack l (current ++ s) strings.
Proof.
  revert current; induction s as [|c s IH]; intros current; cbn; [by rewrite app_nil_r|].
  rewrite decide_False by done. by rewrite IH, <- (assoc_L (++)).
Qed.

Lemma unpack_pack strings done : unpack (pack strings) [] done = Some (done ++ strings).
Proof.
  unfold pack. revert done; induction strings as [|s strings IH]; intros done; cbn; [by rewrite app_nil_r|].
  rewrite <- (assoc_L (++)), unpack_string. cbn. by rewrite IH, <- (assoc_L (++)).
Qed.

Fixpoint paired (strings : list (list byte)) : option (list (string * list byte)) :=
  match strings with
  | [] => Some []
  | name :: bytes :: strings => cons (str name, bytes) <$> paired strings
  | [_] => None
  end.

Lemma paired_entries (entries : list (string * list byte)) :
  paired (entries ≫= λ e, [chars e.1; e.2]) = Some entries.
Proof. induction entries as [|[name bytes] entries IH]; cbn; [done|]. by rewrite IH, str_chars. Qed.

Definition manifest_strings (m : SnapshotManifest) : list (list byte) :=
  [bit_encode (manifest_version m); bit_encode (manifest_created_at m); bit_encode (manifest_schema m); sha256_manifest m].
Definition strings_manifest (l : list (list byte)) : option SnapshotManifest :=
  match l with
  | [v; c; s; h] => v ← bit_decode v; c ← bit_decode c; s ← bit_decode s; Some (mkManifest v c s h)
  | _ => None
  end.

Definition sidecar_strings (s : SidecarManifest) : list (list byte) :=
  [bit_encode (sidecar_version s); chars (archive_filename s); bit_encode (archive_size_bytes s); sidecar_sha3_256 s;
   bit_encode (sidecar_zstd_level s); bit_encode (sidecar_encrypted s); bit_encode (sidecar_created_at s)]
  ++ manifest_strings (inner_manifest s).
Definition strings_sidecar (l : list (list byte)) : option SidecarManifest :=
  match l with
  | v :: f :: n :: h :: z :: e :: c :: m =>
      v ← bit_decode v; n ← bit_decode n; z ← bit_decode z; e ← bit_decode e; c ← bit_decode c; m ← strings_manifest m;
      Some (mkSidecar v (str f) n h z e c m)
  | _ => None
  end.

Lemma strings_manifest_strings m : strings_manifest (manifest_strings m) = Some m.
Proof. destruct m. cbn -[bit_encode bit_decode]. by rewrite !bit_decode_encode. Qed.

Lemma strings_sidecar_strings s : strings_sidecar (sidecar_strings s) = Some s.
Proof.
  destruct s. cbn -[bit_encode bit_decode manifest_strings strings_manifest].
  rewrite !bit_decode_encode. cbn -[bit_encode bit_decode manifest_strings strings_manifest].
  by rewrite strings_manifest_strings, str_chars.
Qed.

#[export] Instance example_tar : TarCodec := {|
  tar_bytes entries := pack (entries ≫= λ e, [chars e.1; e.2]);
  tar_entries bytes := unpack bytes [] [] ≫= paired;
|}.
#[export] Instance example_zstd : ZstdCodec := {|
  zstd_encode bytes level := Some (newline :: bytes);
  zstd_decode bytes := match bytes with c :: bytes => if decide (c = newline) then Some bytes else None | [] => None end;
|}.
#[export] Instance example_manifest_json : ManifestJson := {|
  manifest_to_json m := Some (pack (manifest_strings m));
  manifest_from_json b := unpack b [] [] ≫= strings_manifest;
  sidecar_to_json s := Some (pack (sidecar_strings s));
  sidecar_from_json b := unpack b [] [] ≫= strings_sidecar;
|}.
#[export] Instance example_laws : SnapshotLaws.
Proof.
  split.
  - intros entries _. unfold tar_entries, tar_bytes, example_tar. rewrite unpack_pack. apply paired_entries.
  - by intros bytes level out [= <-].
  - intros m b Hb. apply (inj Some) in Hb as <-. unfold manifest_from_json, example_manifest_json. rewrite unpack_pack. apply strings_manifest_strings.
  - intros m b Hb. apply (inj Some) in Hb as <-. unfold sidecar_from_json, example_manifest_json. rewrite unpack_pack. apply strings_sidecar_strings.
Qed.
(** Checksums of one byte, and an envelope that marks the message. *)
#[export] Instance example_digests : Digests := {|
  sha2_256 m := [to_byte (foldr (λ c n, 31 * n + N_of_ascii c)%N 7%N m)];
  sha3_256 m := [to_byte (foldr (λ c n, 17 * n + N_of_ascii c)%N 3%N m)];
|}.
#[export] Instance example_gpg : Gpg := {|
  gpg_on_path := true;
  gpg_lists_key r := true;
  gpg_encrypt r m := Some (slash :: m);
  gpg_decrypt m := match m with c :: m => if decide (c = slash) then Some m else None | [] => None end;
|}.
#[export] Instance example_sqlite : Sqlite := {| sqlite_backup p m := m !! p; sqlite_user_version p m := Some 7%Z |}.

Definition example_disk : gmap Path (list byte) :=
  list_to_map [(("/state", "store.sqlite3"), chars "rows"); (("/config", "auth_token"), chars "token"); (("/state", "audit"), chars "log")].
Definition example_archive : Path := ("/backup", "pcloud-rs-1.tar.zst.gpg").
Definition example_create : result SidecarManifest SnapshotError * Disk :=
  create_snapshot "1" "/tmp/a" 100 101 ("/state", "store.sqlite3") ("/config", "auth_token") ("/state", "audit") (chars "{}") example_archive
    (with_gpg_recipient "ops" SnapshotOptions_default) (mkDisk example_disk []).

Lemma snapshot_round_trip_witness :
  exists sc m', restore_snapshot "/tmp/b" example_archive "/state" (mkDisk (files example_create.2) []) = (Ok sc, mkDisk m' []) /\
    m' !! ("/state", "auth_token.bin") = Some (chars "token") /\ m' !! ("/state", "store.sqlite3") = Some (chars "rows").
Proof.
  destruct example_create as [[sc|er] d1] eqn:Hcreate.
  2: { exfalso. apply (f_equal (λ x, is_ok x.1)) in Hcreate. vm_compute in Hcreate. discriminate. }
  destruct (snapshot_round_trip "1" "/tmp/a" "/tmp/b" "/state" 100 101 ("/state", "store.sqlite3") ("/config", "auth_token") ("/state", "audit")
    example_archive (chars "{}") (with_gpg_recipient "ops" SnapshotOptions_default) sc (mkDisk example_disk []) d1 (files d1))
    as (payloads & m' & Hsrc & _ & Hrun & Hm & _).
  - vm_compute. reflexivity.
  - discriminate.
  - intros r _ b c [= <-]. reflexivity.
  - exact Hcreate.
  - split; reflexivity.
  - apply (bool_decide_unpack _). vm_compute. exact I.
  - exists sc, m'. split; [exact Hrun|]. destruct Hsrc as (auth & copy & audit & E1 & E2 & _ & ->).
    vm_compute in E1, E2. injection E1 as <-. injection E2 as <-. split; (rewrite Hm; [reflexivity|apply (bool_decide_unpack _); vm_compute; exact I]).
Defined.

(** The second rename of a restore fails: the token is replaced and the store is gone. *)
Lemma restore_snapshot_spec_witness :
  let '(r, d') := restore_snapshot "/tmp/b" example_archive "/state" (mkDisk (files example_create.2) (replicate 26 None ++ [Some 0])) in
  is_ok r = false /\ files d' !! ("/state", "store.sqlite3") = None /\ files d' !! ("/config", "auth_token") = Some (chars "token").
Proof.
  destruct (restore_snapshot _ _ _ _) as [r d'] eqn:Hrun.
  assert (target_ok : "/state" ∉ ["/tmp/b"; extract_dir "/tmp/b"]) by (apply (bool_decide_unpack _); vm_compute; exact I).
  destruct (restore_snapshot_spec "/tmp/b" "/state" example_archive r _ d' target_ok Hrun) as [Hframe _].
  split; [change (is_ok (r, d').1 = false); rewrite <- Hrun; vm_compute; reflexivity|]. split.
  - change (files (r, d').2 !! ("/state", "store.sqlite3") = None). rewrite <- Hrun. vm_compute. reflexivity.
  - rewrite Hframe; [vm_compute; reflexivity|]. intros [Hin|(n & Hn & [=])]. revert Hin. apply (bool_decide_unpack _). vm_compute. exact I.
Defined.
