(* ===== verification/SyncApi.v ===== *)
(** The [diff] call and its conversion for the engine: crates/pcloud-proto/src/sync_api.rs, the
    request of methods/diff.rs, and [SyncRuntime::diff] of crates/pcloud-backends/src/sync_backend.rs.

    Over any transport ([ProtocolTransport] of AuthApi).  The conversion keeps the leaf name of an
    entry as its path and gives every batch to the first sync root. *)
From stdpp Require Import pretty.
From S2P Require Import Prelude Paths Model Bytes BinaryApi Response StateError AuthApi Ingest.

Record DiffRequest : Type := mkDiffRequest {
  dr_cursor : N;
  dr_limit : N;
  dr_auth_token : list byte;
}.

#[export] Instance DiffRequest_method : ProtocolMethod DiffRequest := {|
  command_name _ := chars "diff";
  params r :=
    [string_param "auth" (dr_auth_token r); string_param "timeformat" (chars "timestamp");
     number_param "limit" (dr_limit r); number_param "diffid" (dr_cursor r)];
|}.

Inductive SyncApiError (TE : Type) : Type :=
| SyncEncode (e : FrameParseError)
| SyncTransport (e : TE)
| SyncResult (result : N) (message : option (list byte))
| SyncMalformed (what : string).
Arguments SyncEncode {TE} e.
Arguments SyncTransport {TE} e.
Arguments SyncResult {TE} result message.
Arguments SyncMalformed {TE} what.

(** [Debug] of an [Option<String>] whose text needs no escape. *)
Definition debug_message (message : option (list byte)) : list byte :=
  match message with
  | None => chars "None"
  | Some m => chars "Some(" ++ [ascii_of_N 34] ++ m ++ [ascii_of_N 34] ++ chars ")"
  end.

Definition display_sync_error {T TE} `{ProtocolTransport T TE} (e : SyncApiError TE) : list byte :=
  match e with
  | SyncEncode e => display_frame_error e
  | SyncTransport e => chars "transport failed: " ++ display_transport_error e
  | SyncResult result message =>
      chars ("diff returned non-zero result code " +:+ pretty result +:+ " (") ++ debug_message message ++ chars ")"
  | SyncMalformed what => chars ("response was malformed: " +:+ what)
  end.

Record DiffEntryMetadata : Type := mkDiffEntryMetadata {
  dm_name : list byte;
  dm_is_folder : bool;
  dm_file_id : option N;
  dm_folder_id : option N;
  dm_parent_folder_id : option N;
  dm_deleted : bool;
}.

Record DiffEntry : Type := mkDiffEntry {
  de_event : option N;
  de_metadata : DiffEntryMetadata;
}.

Record DiffBatch : Type := mkDiffBatch {
  db_diff_id : N;
  db_has_more : bool;
  db_entries : list DiffEntry;
  db_api_server : option ApiServerHint;
}.

Definition or_else {A} (a b : option A) : option A := match a with Some x => Some x | None => b end.

Definition parse_diff_entry {TE} (value : Value) : result DiffEntry (SyncApiError TE) :=
  let? hash := ok_or (as_hash value) (SyncMalformed "diff entry was not a hash") in
  let? metadata := ok_or (get_hash hash (chars "metadata")) (SyncMalformed "diff entry missing metadata") in
  let? name := ok_or (get_string metadata (chars "name")) (SyncMalformed "diff metadata missing name") in
  Ok {| de_event := get_number hash (chars "event");
        de_metadata := {|
          dm_name := name;
          dm_is_folder := default false (get_bool metadata (chars "isfolder"));
          dm_file_id := get_number metadata (chars "fileid");
          dm_folder_id := get_number metadata (chars "folderid");
          dm_parent_folder_id := get_number metadata (chars "parentfolderid");
          dm_deleted := default false (get_bool hash (chars "deleted")) ||
                        default false (get_bool metadata (chars "deleted")) |} |}.

Definition sync_expect_ok_result {TE} (hash : view) : result unit (SyncApiError TE) :=
  let result := result_of hash in
  if decide (result = 0%N) then Ok tt else Err (SyncResult result (get_string hash (chars "error"))).

Definition convert_diff_entry (entry : DiffEntry) : RemoteDiffEntry :=
  let m := de_metadata entry in {|
  entry_path := str (dm_name m);
  entry_entry_kind := if dm_is_folder m then Folder else File;
  entry_change_kind := if dm_deleted m then Delete else Upsert;
  entry_remote_file_id := dm_file_id m;
  entry_remote_folder_id := dm_folder_id m;
  entry_event := de_event entry;
|}.

Definition convert_diff_batch (batch : DiffBatch) : RemoteDiffBatch := {|
  batch_sync_id := 1;
  batch_cursor := db_diff_id batch;
  batch_has_more := db_has_more batch;
  batch_entries := convert_diff_entry <$> db_entries batch;
|}.

Section Api.
Context {T TE : Type} `{!ProtocolTransport T TE}.

Abbreviation API := (ST T (SyncApiError TE)).

Definition sync_diff (auth_token : list byte) (cursor limit : N) : API DiffBatch :=
  let! encoded := lift (match encode (mkDiffRequest cursor limit auth_token) with Ok e => Ok e | Err e => Err (SyncEncode e) end) in
  let! response := map_err SyncTransport (execute encoded) in
  let! hash := lift (ok_or (as_hash response) (SyncMalformed "diff response was not a hash")) in
  do! lift (sync_expect_ok_result hash) in
  let! values := lift (ok_or (get_array hash (chars "entries")) (SyncMalformed "diff response missing entries")) in
  let! entries := lift (collect_results parse_diff_entry values) in
  let! diff_id := lift (ok_or (or_else (get_number hash (chars "diffid")) (get_number hash (chars "diffidfrom")))
    (SyncMalformed "diff response missing diffid")) in
  let batch := {| db_diff_id := diff_id; db_has_more := default false (get_bool hash (chars "hasmore"));
                  db_entries := entries; db_api_server := extract_api_server_hint hash |} in
  do! match db_api_server batch with
      | Some hint => modify (consume_api_server_hint (binapi hint))
      | None => ok tt
      end in
  ok batch.

(** [SyncRuntime::diff]. *)
Definition SyncRuntime_diff (auth_token : list byte) (cursor limit : N) : API RemoteDiffBatch :=
  let! batch := sync_diff auth_token cursor limit in
  ok (convert_diff_batch batch).

(** Whoever asks and whatever the server answers, the batch belongs to root 1. *)
Lemma wp_SyncRuntime_diff auth_token cursor limit t :
  wp (SyncRuntime_diff auth_token cursor limit)
    (λ r _, match r with
            | Ok b => exists batch, b = convert_diff_batch batch
            | Err _ => True
            end) t.
Proof. unfold SyncRuntime_diff. apply wp_bind. rewrite wp_run. destruct (sync_diff _ _ _ t) as [[b|e] t']; cbn; [by exists b|done]. Qed.
End Api.

(** * The answer of a server *)

Definition optional (key : string) (v : option Value) : view :=
  match v with Some v => [(chars key, v)] | None => [] end.

Definition entry_value (e : DiffEntry) : Value :=
  let m := de_metadata e in
  VHash (optional "event" (VNumber <$> de_event e) ++
    [(chars "metadata", VHash
      ([(chars "name", VString (dm_name m)); (chars "isfolder", VBool (dm_is_folder m))] ++
       optional "fileid" (VNumber <$> dm_file_id m) ++ optional "folderid" (VNumber <$> dm_folder_id m) ++
       optional "parentfolderid" (VNumber <$> dm_parent_folder_id m) ++ [(chars "deleted", VBool (dm_deleted m))]))]).

Definition batch_value (b : DiffBatch) : Value :=
  VHash ([(chars "result", VNumber 0); (chars "diffid", VNumber (db_diff_id b));
          (chars "hasmore", VBool (db_has_more b));
          (chars "entries", VArray (entry_value <$> db_entries b))] ++
         optional "binapi" ((λ h, VString (binapi h)) <$> db_api_server b)).

Lemma parse_entry_value {TE} e : parse_diff_entry (TE:=TE) (entry_value e) = Ok e.
Proof. by destruct e as [[] [? [] [] [] [] []]]. Qed.

Lemma collect_entry_values {TE} es : collect_results (parse_diff_entry (TE:=TE)) (entry_value <$> es) = Ok es.
Proof. apply collect_results_ok. induction es as [|e es IH]; cbn; constructor; [apply parse_entry_value|done]. Qed.

(** The call reads back what a server that answers with [batch_value] says. *)
Lemma diff_of_answer {T TE} `{!ProtocolTransport T TE} auth_token cursor limit encoded (b : DiffBatch) (t t' : T) :
  encode (mkDiffRequest cursor limit auth_token) = Ok encoded ->
  execute encoded t = (Ok (batch_value b), t') ->
  sync_diff auth_token cursor limit t =
    (Ok b, match db_api_server b with Some hint => consume_api_server_hint (binapi hint) t' | None => t' end).
Proof.
  intros Hencode Hexec. unfold sync_diff, bind, lift, map_err. rewrite Hencode, Hexec.
  pose proof (collect_entry_values (TE:=TE) (db_entries b)) as Hes. destruct b as [id more es hint]. unfold batch_value.
  cbn [db_entries db_diff_id db_has_more db_api_server] in *. remember (entry_value <$> es) as values eqn:E. clear E.
  cbn [as_hash ok_or]. set (h := _ ++ optional "binapi" _).
  assert (sync_expect_ok_result (TE:=TE) h = Ok tt) as -> by by destruct hint.
  assert (get_array h (chars "entries") = Some values) as -> by by destruct hint.
  assert (get_number h (chars "diffid") = Some id) as -> by by destruct hint.
  assert (get_bool h (chars "hasmore") = Some more) as -> by by destruct hint.
  assert (extract_api_server_hint h = hint) as -> by by destruct hint as [[]|].
  cbn [ok_or or_else default]. rewrite Hes. by destruct hint.
Qed.
