(* ===== verification/FileMetadata.v ===== *)
(** The tables of the daemon's database that the sync loop uses, and the metadata cache:
    crates/pcloud-store/src/repositories/{file_metadata,diff_state,sync_graph,values}.rs.

    [Database] is the interface to SQLite: a statement either changes the tables as its function
    says or fails and changes nothing.  [RowOrder] is the order in which a query that matches
    several rows returns them. *)
From S2P Require Import Prelude Paths Model StateError.

Record FileMetadataRecord : Type := mkFileMetadata {
  fm_file_id : N;
  fm_parent_folder_id : N;
  fm_name : string;
  fm_size : N;
  fm_hash : string;
  fm_modified : Z;
  fm_created : Z;
  fm_is_folder : bool;
}.

#[export] Instance FileMetadataRecord_eq_dec : EqDecision FileMetadataRecord.
Proof. solve_decision. Defined.

Abbreviation MetadataTable := (gmap N FileMetadataRecord).

Record SyncRootRecord : Type := mkSyncRoot {
  root_sync_id : SyncId;
  root_local_path : string;
  root_remote_path : string;
  root_paused : bool;
  root_sync_type : SyncType;
}.

(** The rows, the two values under their keys ([Some None]: a text that does not parse), the
    synchronous mode of the connection and the number of audit events. *)
Record Tables : Type := mkTables {
  t_roots : list SyncRootRecord;
  t_metadata : MetadataTable;
  t_cursors : gmap SyncId N;
  t_overflow : option (option (list SyncCandidate));
  t_queue : option (option (list PlannedOperation));
  t_synchronous : string;
  t_audit : N;
}.

Definition with_roots (r : list SyncRootRecord) (t : Tables) : Tables :=
  mkTables r (t_metadata t) (t_cursors t) (t_overflow t) (t_queue t) (t_synchronous t) (t_audit t).
Definition with_metadata (m : MetadataTable) (t : Tables) : Tables :=
  mkTables (t_roots t) m (t_cursors t) (t_overflow t) (t_queue t) (t_synchronous t) (t_audit t).
Definition with_cursors (c : gmap SyncId N) (t : Tables) : Tables :=
  mkTables (t_roots t) (t_metadata t) c (t_overflow t) (t_queue t) (t_synchronous t) (t_audit t).
Definition with_stored_overflow (o : option (option (list SyncCandidate))) (t : Tables) : Tables :=
  mkTables (t_roots t) (t_metadata t) (t_cursors t) o (t_queue t) (t_synchronous t) (t_audit t).
Definition with_stored_queue (q : option (option (list PlannedOperation))) (t : Tables) : Tables :=
  mkTables (t_roots t) (t_metadata t) (t_cursors t) (t_overflow t) q (t_synchronous t) (t_audit t).
Definition with_synchronous (s : string) (t : Tables) : Tables :=
  mkTables (t_roots t) (t_metadata t) (t_cursors t) (t_overflow t) (t_queue t) s (t_audit t).
Definition with_audit (n : N) (t : Tables) : Tables :=
  mkTables (t_roots t) (t_metadata t) (t_cursors t) (t_overflow t) (t_queue t) (t_synchronous t) n.

Class RowOrder : Type := rows : MetadataTable -> list FileMetadataRecord.
Class RowOrderLaws `{RowOrder} : Prop := rows_perm (m : MetadataTable) : rows m ≡ₚ (map_to_list m).*2.

(** * The metadata table *)

Definition I64_MAX : N := 9223372036854775807.

(** [ToSql] of a [u64]: an integer of SQLite is signed. *)
Definition to_sql (n : N) : option N := if decide (n <= I64_MAX)%N then Some n else None.

Definition upsert (record : FileMetadataRecord) (m : MetadataTable) : option MetadataTable :=
  _ ← to_sql (fm_file_id record); _ ← to_sql (fm_parent_folder_id record); _ ← to_sql (fm_size record);
  Some (<[fm_file_id record := record]> m).

Definition get_by_id (file_id : N) (m : MetadataTable) : option FileMetadataRecord := m !! file_id.

Definition delete_row (file_id : N) (m : MetadataTable) : bool * MetadataTable :=
  (bool_decide (is_Some (m !! file_id)), delete file_id m).

Definition delete_children (parent_folder_id : N) (m : MetadataTable) : nat * MetadataTable :=
  let m' := filter (λ kv, fm_parent_folder_id kv.2 ≠ parent_folder_id) m in (size m - size m', m').

Definition count_rows (m : MetadataTable) : N := N.of_nat (size m).

Section Queries.
Context `{RowOrder}.

Definition is_child (parent_folder_id : N) (r : FileMetadataRecord) : Prop := fm_parent_folder_id r = parent_folder_id.

(** [ORDER BY name]: the order of SQLite's BINARY collation is that of the bytes. *)
Definition list_children (parent_folder_id : N) (m : MetadataTable) : list FileMetadataRecord :=
  sort_by (cmp_by fm_name String.compare) (filter (λ r, fm_parent_folder_id r = parent_folder_id) (rows m)).

Definition get_by_parent_and_name (parent_folder_id : N) (name : string) (m : MetadataTable)
    : option FileMetadataRecord :=
  head (filter (λ r, fm_parent_folder_id r = parent_folder_id ∧ fm_name r = name) (rows m)).
End Queries.

(** * Statements *)

Class Database (D : Type) : Type := {
  tables : D -> Tables;
  statement {A} : (Tables -> option A * Tables) -> ST D string A;
  rollback : Tables -> D -> D;
}.

(** [None] of a statement's function: a parameter that SQLite refuses. *)
Class DatabaseLaws (D : Type) `{Database D} : Prop := {
  statement_ok {A} (f : Tables -> option A * Tables) (d : D) :
    match statement f d with
    | (Ok a, d') => f (tables d) = (Some a, tables d')
    | (Err _, d') => tables d' = tables d
    end;
  tables_rollback t (d : D) : tables (rollback t d) = t;
}.

Definition read_tables {A} (f : Tables -> A) : Tables -> option A * Tables := λ t, (Some (f t), t).
Definition write_tables (f : Tables -> Tables) : Tables -> option unit * Tables := λ t, (Some tt, f t).

(** A query with a [u64] parameter. *)
Definition read_with {A} (n : N) (f : Tables -> A) : Tables -> option A * Tables := λ t,
  ((λ _, f t) <$> to_sql n, t).
Definition write_with (n : N) (f : Tables -> Tables) : Tables -> option unit * Tables := λ t,
  match to_sql n with Some _ => (Some tt, f t) | None => (None, t) end.

Section Repositories.
Context {D : Type} `{!Database D, !RowOrder}.

Abbreviation Sql := (ST D string).

(** [resolve_path]: the loop over the segments; the last one may be a file. *)
Fixpoint resolve_segments (current_folder_id : N) (segments : list (list ascii)) : Sql (option FileMetadataRecord) :=
  match segments with
  | [] => ok None
  | segment :: rest =>
      let! found := statement (read_with current_folder_id
        (λ t, get_by_parent_and_name current_folder_id (str segment) (t_metadata t))) in
      match found with
      | Some record =>
          match rest with
          | [] => ok (Some record)
          | _ => if fm_is_folder record then resolve_segments (fm_file_id record) rest else ok None
          end
      | None => ok None
      end
  end.

Definition nonempty_segments (path : string) : list (list ascii) :=
  filter (λ s, s ≠ []) (split_on slash (chars path)).

(** [trim_start_matches('/')] leaves nothing exactly when there is no segment. *)
Definition resolve_path (path : string) : Sql (option FileMetadataRecord) :=
  match nonempty_segments path with
  | [] => statement (read_tables (λ t, get_by_id 0 (t_metadata t)))
  | segments => resolve_segments 0 segments
  end.

(** * [DiffStateRepository] and [SyncGraphRepository] *)

Definition load_cursor (sync_id : SyncId) : Sql (option N) :=
  statement (read_with sync_id (λ t, t_cursors t !! sync_id)).
Definition save_cursor (sync_id : SyncId) (diffid : N) : Sql unit :=
  statement (λ t,
    match to_sql sync_id, to_sql diffid with
    | Some _, Some _ => (Some tt, with_cursors (<[sync_id := diffid]> (t_cursors t)) t)
    | _, _ => (None, t)
    end).
Definition load_roots : Sql (list SyncRootRecord) := statement (read_tables t_roots).

(** [unchecked_transaction], the statements, [commit]: an error before the commit or of it rolls
    back. *)
Definition transaction {A} (body : Sql A) : Sql A := λ d,
  match statement (read_tables (λ _, tt)) d with
  | (Err e, d) => (Err e, d)
  | (Ok _, d) =>
      let before := tables d in
      match body d with
      | (Err e, d) => (Err e, rollback before d)
      | (Ok a, d) =>
          match statement (read_tables (λ _, tt)) d with
          | (Err e, d) => (Err e, rollback before d)
          | (Ok _, d) => (Ok a, d)
          end
      end
  end.
End Repositories.
