(* ===== verification/SyncLoop.v ===== *)
(** The background sync loop over any runtime: crates/pcloud-daemon/src/sync_loop.rs.

    [SyncLoopRuntime] is the trait of the same name; its implementation is in SyncRuntime.  The
    loop thread is a machine of atomic steps on the state it shares with the IPC thread, whose
    calls come in between. *)
From S2P Require Import Prelude Model Clock Workers FileMetadata.

(** * Configuration and results *)

Record SyncLoopConfig : Type := mkSyncLoopConfig {
  loop_enabled : bool;
  poll_interval_secs : N;
  batch_size : N;
  max_concurrent_transfers : N;
  propagate_deletes : bool;
  loop_full_scan_interval_secs : N;
  conflict_policy : string;
  upload_chunk_size : N;
  pause_on_battery : bool;
}.

Definition SyncLoopConfig_default : SyncLoopConfig := {|
  loop_enabled := true;
  poll_interval_secs := 30;
  batch_size := 100;
  max_concurrent_transfers := 4;
  propagate_deletes := true;
  loop_full_scan_interval_secs := 300;
  conflict_policy := "rename_both";
  upload_chunk_size := 10 * 1024 * 1024;
  pause_on_battery := false;
|}.

Record RootCycleResult : Type := mkRootCycle {
  remote_changes : nat;
  local_changes : nat;
  rc_uploads : nat;
  rc_downloads : nat;
  rc_conflicts : nat;
  rc_errors : nat;
}.

Record CycleResult : Type := mkCycle {
  roots_processed : nat;
  total_uploads : nat;
  total_downloads : nat;
  total_conflicts : nat;
  total_errors : nat;
  cycle_duration : Duration;
  audit_persist_error : option string;
}.

Definition CycleResult_default : CycleResult := mkCycle 0 0 0 0 0 0 None.

(** * The trait *)

Class SyncLoopRuntime (R : Type) : Type := {
  auth_token : R -> option (list ascii) * R;
  list_sync_roots : R -> list SyncRootRecord * R;
  runtime_root_paused : SyncRootRecord -> R -> bool;
  poll_remote_diff : SyncRootRecord -> list ascii -> R -> result nat string * R;
  run_local_scan : SyncRootRecord -> R -> result nat string * R;
  advance_transfers : R -> nat * R;
  execute_downloads : list ascii -> R -> result nat string * R;
  execute_uploads : list ascii -> R -> result nat string * R;
  conflict_count : R -> nat;
  pending_upload_count : R -> nat;
  pending_download_count : R -> nat;
  evict_removed_root : SyncId -> R -> R;
  emit_cycle_audit : N -> CycleResult -> R -> result unit string * R;
}.

Section Cycle.
Context {R : Type} `{!SyncLoopRuntime R}.

(** The count of an [Ok], and one error for an [Err]. *)
Definition tally (r : result nat string) : nat * nat := match r with Ok n => (n, 0) | Err _ => (0, 1) end.

Definition sync_one_root (root : SyncRootRecord) (token : list ascii) (r : R) : RootCycleResult * R :=
  let downloads := bool_decide (root_sync_type root <> UploadOnly) in
  let uploads := bool_decide (root_sync_type root <> DownloadOnly) in
  let '(remote, r) := if downloads then poll_remote_diff root token r else (Ok 0, r) in
  let '(local, r) := if uploads then run_local_scan root r else (Ok 0, r) in
  let '(_, r) := advance_transfers r in
  let '(down, r) := if downloads then execute_downloads token r else (Ok 0, r) in
  let '(up, r) := if uploads then execute_uploads token r else (Ok 0, r) in
  let errors := (tally remote).2 + (tally local).2 + (tally down).2 + (tally up).2 in
  (mkRootCycle (tally remote).1 (tally local).1 (tally up).1 (tally down).1 (conflict_count r) errors, r).

Fixpoint cycle_roots (roots : list SyncRootRecord) (token : list ascii) (c : CycleResult) (r : R) : CycleResult * R :=
  match roots with
  | [] => (c, r)
  | root :: roots =>
      if root_paused root || runtime_root_paused root r then cycle_roots roots token c r
      else
        let '(x, r) := sync_one_root root token r in
        cycle_roots roots token
          (mkCycle (roots_processed c + 1) (total_uploads c + rc_uploads x) (total_downloads c + rc_downloads x)
             (total_conflicts c + rc_conflicts x) (total_errors c + rc_errors x) (cycle_duration c) (audit_persist_error c)) r
  end.

(** [power] is what the power source reads, [elapsed] the clock's measure of the cycle. *)
Definition run_cycle_with_power (power : Power.PowerState) (elapsed : Duration) (config : SyncLoopConfig) (r : R)
    : CycleResult * R :=
  let skipped := mkCycle 0 0 0 0 0 elapsed None in
  if Power.should_pause power (pause_on_battery config) then (skipped, r)
  else
    let '(token, r) := auth_token r in
    match token with
    | None => (skipped, r)
    | Some token =>
        let '(roots, r) := list_sync_roots r in
        let '(c, r) := cycle_roots roots token CycleResult_default r in
        let c := mkCycle (roots_processed c) (total_uploads c) (total_downloads c) (total_conflicts c) (total_errors c)
                   elapsed None in
        match emit_cycle_audit 0 c r with
        | (Ok _, r) => (c, r)
        | (Err e, r) =>
            (mkCycle (roots_processed c) (total_uploads c) (total_downloads c) (total_conflicts c) (total_errors c + 1)
               elapsed (Some e), r)
        end
    end.
End Cycle.

(** * The state shared with the IPC thread *)

Inductive SyncLoopState : Type := LoopIdle | LoopRunning | LoopPaused | LoopDisabled | LoopStopped.

#[export] Instance SyncLoopState_eq_dec : EqDecision SyncLoopState.
Proof. solve_decision. Defined.

Definition SyncLoopState_label (s : SyncLoopState) : string :=
  match s with
  | LoopIdle => "idle" | LoopRunning => "running" | LoopPaused => "paused"
  | LoopDisabled => "disabled" | LoopStopped => "stopped"
  end.

Record SyncLoopStatus : Type := mkStatus {
  ls_state : SyncLoopState;
  active_roots : nat;
  last_cycle_at : N;
  last_cycle_duration_ms : N;
  pending_uploads : nat;
  pending_downloads : nat;
  cycles_completed : N;
  ls_total_errors : N;
}.

Definition SyncLoopStatus_default : SyncLoopStatus := mkStatus LoopIdle 0 0 0 0 0 0 0.

Record SyncLoopShared : Type := mkShared {
  status : SyncLoopStatus;
  woken : bool;
  shutdown : bool;
  paused : bool;
}.

Definition SyncLoopShared_new (initial_state : SyncLoopState) : SyncLoopShared :=
  mkShared (mkStatus initial_state 0 0 0 0 0 0 0) false false false.

Definition set_state (x : SyncLoopState) (s : SyncLoopShared) : SyncLoopShared :=
  let t := status s in
  mkShared (mkStatus x (active_roots t) (last_cycle_at t) (last_cycle_duration_ms t) (pending_uploads t)
              (pending_downloads t) (cycles_completed t) (ls_total_errors t)) (woken s) (shutdown s) (paused s).

Definition wake (s : SyncLoopShared) : SyncLoopShared := mkShared (status s) true (shutdown s) (paused s).
Definition store_shutdown (s : SyncLoopShared) : SyncLoopShared := mkShared (status s) (woken s) true (paused s).
Definition store_paused (b : bool) (s : SyncLoopShared) : SyncLoopShared := mkShared (status s) (woken s) (shutdown s) b.

(** The calls of the IPC thread, by atomic operation. *)
Inductive IpcStep : Type := IpcWake | IpcStoreShutdown | IpcStorePaused (b : bool) | IpcStatusPaused.

Definition ipc_step (a : IpcStep) (s : SyncLoopShared) : SyncLoopShared :=
  match a with
  | IpcWake => wake s
  | IpcStoreShutdown => store_shutdown s
  | IpcStorePaused b => store_paused b s
  | IpcStatusPaused => set_state LoopPaused s
  end.

Definition request_shutdown : list IpcStep := [IpcStoreShutdown; IpcWake].
Definition pause : list IpcStep := [IpcStorePaused true; IpcStatusPaused].
Definition resume : list IpcStep := [IpcStorePaused false; IpcWake].
Definition current_status (s : SyncLoopShared) : SyncLoopStatus := status s.

(** * The loop thread *)

(** Where the thread is: before which atomic operation. *)
Inductive LoopPc : Type :=
| PcShutdown | PcPause | PcRunning | PcEvict | PcCycle
| PcPublish (cycle : CycleResult) | PcShutdownAfter | PcWait (timeout : Duration) | PcExit.

Record LoopThread (R : Type) : Type := mkThread {
  lt_pc : LoopPc;
  lt_prev_root_ids : gset SyncId;
  lt_runtime : R;
}.
Arguments mkThread {R}. Arguments lt_pc {R}. Arguments lt_prev_root_ids {R}. Arguments lt_runtime {R}.

(** What a step of the thread reads from outside: the power source, the clocks, whether a wait
    has timed out, and in which order a hash set is walked. *)
Record LoopInput : Type := mkInput {
  in_power : Power.PowerState;
  in_elapsed : Duration;
  in_now_unix : N;
  in_timed_out : bool;
  in_order : gset SyncId -> list SyncId;
}.

Definition walks_sets (i : LoopInput) : Prop := forall x, in_order i x ≡ₚ elements x.

Section Loop.
Context {R : Type} `{!SyncLoopRuntime R} (config : SyncLoopConfig).

Definition root_ids (roots : list SyncRootRecord) : gset SyncId := list_to_set (root_sync_id <$> roots).

Definition publish (i : LoopInput) (c : CycleResult) (r : R) (s : SyncLoopShared) : SyncLoopShared :=
  let t := status s in
  mkShared (mkStatus (if paused s then LoopPaused else LoopIdle) (roots_processed c) (in_now_unix i)
              (as_u64 (cycle_duration c / 1000000)) (pending_upload_count r) (pending_download_count r)
              (u64_wrapping_add (cycles_completed t) 1)
              (u64_wrapping_add (ls_total_errors t) (N.of_nat (total_errors c)))) (woken s) (shutdown s) (paused s).

(** The condition of [wait_timeout_while]. *)
Definition keeps_waiting (s : SyncLoopShared) : bool := negb (woken s) && negb (shutdown s).

Definition loop_step (i : LoopInput) (th : LoopThread R) (s : SyncLoopShared) : LoopThread R * SyncLoopShared :=
  let at_ pc := mkThread pc (lt_prev_root_ids th) (lt_runtime th) in
  match lt_pc th with
  | PcShutdown => if shutdown s then (at_ PcExit, set_state LoopStopped s) else (at_ PcPause, s)
  | PcPause => if paused s then (at_ (PcWait (from_secs 1)), set_state LoopPaused s) else (at_ PcRunning, s)
  | PcRunning => (at_ PcEvict, set_state LoopRunning s)
  | PcEvict =>
      let '(roots, r) := list_sync_roots (lt_runtime th) in
      let current := root_ids roots in
      let r := foldl (λ r id, evict_removed_root id r) r (in_order i (lt_prev_root_ids th ∖ current)) in
      (mkThread PcCycle current r, s)
  | PcCycle =>
      let '(c, r) := run_cycle_with_power (in_power i) (in_elapsed i) config (lt_runtime th) in
      (mkThread (PcPublish c) (lt_prev_root_ids th) r, s)
  | PcPublish c => (at_ PcShutdownAfter, publish i c (lt_runtime th) s)
  | PcShutdownAfter =>
      if shutdown s then (at_ PcExit, set_state LoopStopped s) else (at_ (PcWait (from_secs (poll_interval_secs config))), s)
  | PcWait timeout =>
      if keeps_waiting s && negb (in_timed_out i) then (th, s)
      else (at_ PcShutdown, mkShared (status s) false (shutdown s) (paused s))
  | PcExit => (th, s)
  end.

Definition loop_start (r : R) : LoopThread R :=
  let '(roots, r) := list_sync_roots r in mkThread PcShutdown (root_ids roots) r.

(** [spawn_sync_loop]: [None] is the handle without a thread. *)
Definition spawn_sync_loop (r : R) (s : SyncLoopShared) : option (LoopThread R) * SyncLoopShared :=
  if loop_enabled config then (Some (loop_start r), s) else (None, set_state LoopDisabled s).

(** Any interleaving of the two threads. *)
Inductive Turn : Type := LoopTurn (i : LoopInput) | IpcTurn (a : IpcStep).

Definition turn (x : Turn) (st : LoopThread R * SyncLoopShared) : LoopThread R * SyncLoopShared :=
  match x with
  | LoopTurn i => loop_step i st.1 st.2
  | IpcTurn a => (st.1, ipc_step a st.2)
  end.

Definition turns (xs : list Turn) (st : LoopThread R * SyncLoopShared) : LoopThread R * SyncLoopShared :=
  foldl (λ st x, turn x st) st xs.

(** * Properties *)

Fixpoint loop_turns (xs : list Turn) : nat :=
  match xs with [] => 0 | LoopTurn _ :: xs => S (loop_turns xs) | IpcTurn _ :: xs => loop_turns xs end.

Definition cycle_turn (x : Turn) (pc : LoopPc) : nat := match x, pc with LoopTurn _, PcCycle => 1 | _, _ => 0 end.

(** How many cycles run in the course of [xs]. *)
Fixpoint cycles_run (xs : list Turn) (st : LoopThread R * SyncLoopShared) : nat :=
  match xs with
  | [] => 0
  | x :: xs =>
      cycle_turn x (lt_pc st.1) + cycles_run xs (turn x st)
  end.

Definition no_call (bad : IpcStep -> bool) (xs : list Turn) : Prop :=
  Forall (λ x, match x with IpcTurn a => bad a = false | LoopTurn _ => True end) xs.

Definition resumes (a : IpcStep) : bool := match a with IpcStorePaused false => true | _ => false end.
Definition stops (a : IpcStep) : bool := match a with IpcStoreShutdown | IpcStorePaused true => true | _ => false end.
Definition sets_status (a : IpcStep) : bool := match a with IpcStatusPaused => true | _ => false end.

(** Turns of the thread to its exit once the flag is set. *)
Definition to_exit (pc : LoopPc) : nat :=
  match pc with
  | PcExit => 0 | PcShutdown | PcShutdownAfter => 1 | PcWait _ | PcPublish _ => 2
  | PcCycle => 3 | PcEvict => 4 | PcRunning => 5 | PcPause => 6
  end.

(** Turns to the end of the next cycle when nothing holds the thread back. *)
Definition to_cycle (pc : LoopPc) : nat :=
  match pc with
  | PcExit => 0 | PcCycle => 1 | PcEvict => 2 | PcRunning => 3 | PcPause => 4 | PcShutdown => 5
  | PcWait _ => 6 | PcShutdownAfter => 7 | PcPublish _ => 8
  end.

(** A cycle is under way. *)
Definition in_cycle (pc : LoopPc) : bool :=
  match pc with PcRunning | PcEvict | PcCycle => true | _ => false end.

(** Case analysis on a step of the thread. *)
Ltac loop_cases th s :=
  destruct th as [pc ids r], s as [t w d p]; unfold loop_step, keeps_waiting; cbn [lt_pc lt_prev_root_ids lt_runtime shutdown paused woken status];
  destruct pc; cbn in *;
  repeat match goal with
  | |- context [list_sync_roots r] => destruct (list_sync_roots r)
  | |- context [run_cycle_with_power ?p ?e ?c r] => destruct (run_cycle_with_power p e c r)
  | |- context [if ?b then _ else _] => destruct b eqn:?
  end; cbn in *.

Lemma exit_step i th s : shutdown s = true ->
  let '(th', s') := loop_step i th s in
  shutdown s' = true /\ to_exit (lt_pc th') <= to_exit (lt_pc th) - 1 /\
  (to_exit (lt_pc th) <> 0 -> to_exit (lt_pc th') = 0 -> ls_state (status s') = LoopStopped) /\
  (to_exit (lt_pc th) = 0 -> s' = s).
Proof.
  intros Hd. loop_cases th s; subst; rewrite ?andb_false_r in *; try done.
  all: repeat split; intros; try done; try lia.
Qed.

Lemma ipc_exit_step a s : shutdown s = true ->
  shutdown (ipc_step a s) = true /\
  (sets_status a = false -> ls_state (status (ipc_step a s)) = ls_state (status s)).
Proof. by destruct a as [| |[]|]. Qed.

Lemma cycle_turn_step x pc : cycle_turn x pc <> 0 -> exists i, x = LoopTurn i /\ pc = PcCycle.
Proof. destruct x as [i|], pc; cbn; try lia. eauto. Qed.

Lemma exit_turns xs : forall st, shutdown st.2 = true ->
  to_exit (lt_pc (turns xs st).1) <= to_exit (lt_pc st.1) - loop_turns xs /\
  cycles_run xs st <= (if decide (3 <= to_exit (lt_pc st.1)) then 1 else 0) /\
  (no_call sets_status xs -> (to_exit (lt_pc st.1) = 0 -> ls_state (status st.2) = LoopStopped) ->
   to_exit (lt_pc (turns xs st).1) = 0 -> ls_state (status (turns xs st).2) = LoopStopped).
Proof.
  induction xs as [|x xs IH]; intros [th s] Hd; cbn in Hd.
  { cbn. repeat split; [lia|case_decide; lia|done]. }
  destruct x as [i|a]; cbn [turns foldl].
  - pose proof (exit_step i th s Hd) as Hstep. specialize (IH (loop_step i th s)).
    change (cycles_run _ _) with (cycle_turn (LoopTurn i) (lt_pc th) + cycles_run xs (loop_step i th s)).
    change (turn (LoopTurn i) (th, s)) with (loop_step i th s).
    destruct (loop_step i th s) as [th' s']. destruct Hstep as (Hd' & He & H1 & H0).
    destruct (IH Hd') as (IH1 & IH2 & IH3). cbn [fst snd] in *. cbn [loop_turns]. split; [|split].
    + unfold turns in IH1. lia.
    + destruct (decide (cycle_turn (LoopTurn i) (lt_pc th) = 0)) as [->|(? & _ & Hpc)%cycle_turn_step].
      * repeat case_decide; lia.
      * rewrite Hpc in *. cbn in *. repeat case_decide; lia.
    + intros Hcall Hst. apply Forall_cons in Hcall as [_ Hcall]. apply IH3; [done|]. intros Hz.
      destruct (decide (to_exit (lt_pc th) = 0)) as [E|E]; [rewrite H0; auto|by apply H1].
  - change (turn (IpcTurn a) (th, s)) with (th, ipc_step a s).
    destruct (ipc_exit_step a s Hd) as [Hd' Hs]. destruct (IH (th, ipc_step a s) Hd') as (IH1 & IH2 & IH3).
    cbn [fst snd loop_turns] in *. split; [done|]. split; [done|].
    intros [Ha Hcall]%Forall_cons Hst. apply IH3; [done|]. intros Hz. rewrite Hs; auto.
Qed.


(** ** A paused loop *)

Lemma paused_step i th s : paused s = true ->
  let '(th', s') := loop_step i th s in
  paused s' = true /\
  cycle_turn (LoopTurn i) (lt_pc th) + (if in_cycle (lt_pc th') then 1 else 0) <= (if in_cycle (lt_pc th) then 1 else 0).
Proof. intros Hp. loop_cases th s; subst; try done. all: split; [done|]; cbn; lia. Qed.

Lemma paused_turns xs : forall st, paused st.2 = true -> no_call resumes xs ->
  cycles_run xs st <= (if in_cycle (lt_pc st.1) then 1 else 0).
Proof.
  induction xs as [|x xs IH]; intros [th s] Hp Hno; cbn in Hp; [cbn; lia|].
  apply Forall_cons in Hno as [Hx Hno]. destruct x as [i|a]; cbn [cycles_run fst snd].
  - pose proof (paused_step i th s Hp) as Hstep. change (turn (LoopTurn i) (th, s)) with (loop_step i th s).
    specialize (IH (loop_step i th s)). destruct (loop_step i th s) as [th' s']. destruct Hstep as [Hp' Hle].
    specialize (IH Hp' Hno). cbn [fst snd] in IH. lia.
  - change (turn (IpcTurn a) (th, s)) with (th, ipc_step a s). cbn [cycle_turn].
    apply (IH (th, ipc_step a s)); [|done]. by destruct a as [| |[]|].
Qed.

(** ** A woken loop *)

Definition open_for_work (s : SyncLoopShared) : Prop := shutdown s = false /\ paused s = false.

(** Where the thread is after a wake that was not yet consumed. *)
Definition wakes (pc : LoopPc) (s : SyncLoopShared) : Prop :=
  match pc with PcWait _ | PcShutdownAfter | PcPublish _ => woken s = true | PcExit => False | _ => True end.

Lemma woken_step i th s : open_for_work s -> wakes (lt_pc th) s ->
  let '(th', s') := loop_step i th s in
  open_for_work s' /\
  (cycle_turn (LoopTurn i) (lt_pc th) = 1 \/ wakes (lt_pc th') s' /\ S (to_cycle (lt_pc th')) <= to_cycle (lt_pc th)).
Proof. intros [Hd Hp] Hw. loop_cases th s; subst; try done. all: split; [done|]; cbn; auto. Qed.

Lemma woken_turns xs : forall st, open_for_work st.2 -> wakes (lt_pc st.1) st.2 -> no_call stops xs ->
  to_cycle (lt_pc st.1) <= loop_turns xs -> 1 <= cycles_run xs st.
Proof.
  induction xs as [|x xs IH]; intros [th s] Ho Hw Hno Hle; cbn [fst snd] in *.
  { exfalso. destruct th as [[] ? ?]; cbn in *; lia || done. }
  apply Forall_cons in Hno as [Hx Hno]. destruct x as [i|a]; cbn [cycles_run fst snd loop_turns] in *.
  - pose proof (woken_step i th s Ho Hw) as Hstep. change (turn (LoopTurn i) (th, s)) with (loop_step i th s).
    specialize (IH (loop_step i th s)). destruct (loop_step i th s) as [th' s']. destruct Hstep as [Ho' [->|[Hw' Hto]]]; [lia|].
    specialize (IH Ho' Hw' Hno). cbn [fst snd] in IH. lia.
  - change (turn (IpcTurn a) (th, s)) with (th, ipc_step a s). cbn [cycle_turn]. apply (IH (th, ipc_step a s)); [| |done..].
    + by destruct Ho, a as [| |[]|].
    + cbn [fst snd]. revert Hw. by destruct (lt_pc th), a as [| |[]|].
Qed.

(** C7: The life of the loop under every interleaving with the calls of the IPC thread: once
    shutdown is requested the thread exits within six of its turns, running at most the cycle
    that is under way, and its status says stopped unless a later pause overwrites it; while
    paused it runs no further cycle than one under way; and when work is requested, whatever the
    thread is doing, a new cycle runs within eight turns: a wake is never lost. *)
Theorem loop_lifecycle xs st :
  (shutdown st.2 = true ->
   cycles_run xs st <= 1 /\
   (6 <= loop_turns xs -> lt_pc (turns xs st).1 = PcExit) /\
   (no_call sets_status xs -> lt_pc st.1 <> PcExit -> lt_pc (turns xs st).1 = PcExit ->
    ls_state (status (turns xs st).2) = LoopStopped)) /\
  (paused st.2 = true -> no_call resumes xs -> cycles_run xs st <= (if in_cycle (lt_pc st.1) then 1 else 0)) /\
  (open_for_work st.2 -> woken st.2 = true -> lt_pc st.1 <> PcExit -> no_call stops xs -> 8 <= loop_turns xs ->
   1 <= cycles_run xs st).
Proof.
  split; [|split].
  - intros Hd. destruct (exit_turns xs st Hd) as (He & Hc & Hs).
    assert (forall pc, to_exit pc = 0 <-> pc = PcExit) as Hpc by by intros [].
    split; [case_decide; lia|]. split.
    + intros Hn. apply Hpc. assert (to_exit (lt_pc st.1) <= 6) by (destruct (lt_pc st.1); cbn; lia). lia.
    + intros Hcall Hne Hend. apply Hs; [done| |by apply Hpc]. intros E. by apply Hpc in E.
  - intros. by apply paused_turns.
  - intros Ho Hw Hpc Hno Hn. apply woken_turns; [done| |done|].
    + by destruct (lt_pc st.1).
    + assert (to_cycle (lt_pc st.1) <= 8) by (destruct (lt_pc st.1); cbn; lia). lia.
Qed.

(** ** What every call of the runtime preserves, the loop preserves *)

Class Preserves (P : R -> Prop) : Prop := {
  preserves_auth_token r : P r -> P (auth_token r).2;
  preserves_list r : P r -> P (list_sync_roots r).2;
  preserves_poll root token r : P r -> P (poll_remote_diff root token r).2;
  preserves_scan root r : P r -> P (run_local_scan root r).2;
  preserves_advance r : P r -> P (advance_transfers r).2;
  preserves_downloads token r : P r -> P (execute_downloads token r).2;
  preserves_uploads token r : P r -> P (execute_uploads token r).2;
  preserves_evict id r : P r -> P (evict_removed_root id r);
  preserves_audit id c r : P r -> P (emit_cycle_audit id c r).2;
}.

Section Preserved.
Context (P : R -> Prop) `{!Preserves P}.

Lemma sync_one_root_preserves root token r : P r -> P (sync_one_root root token r).2.
Proof.
  intros Hr. unfold sync_one_root.
  destruct (if bool_decide (root_sync_type root ≠ UploadOnly) then _ else _) as [x1 r1] eqn:E1.
  assert (P r1) as H1. { pose proof (preserves_poll root token r Hr). case_bool_decide; [by rewrite E1 in *|by simplify_eq]. }
  destruct (if bool_decide (root_sync_type root ≠ DownloadOnly) then run_local_scan root r1 else _) as [x2 r2] eqn:E2.
  assert (P r2) as H2. { pose proof (preserves_scan root r1 H1). case_bool_decide; [by rewrite E2 in *|by simplify_eq]. }
  destruct (advance_transfers r2) as [x3 r3] eqn:E3. pose proof (preserves_advance r2 H2) as H3. rewrite E3 in H3. cbn in H3.
  destruct (if bool_decide (root_sync_type root ≠ UploadOnly) then execute_downloads token r3 else _) as [x4 r4] eqn:E4.
  assert (P r4) as H4. { pose proof (preserves_downloads token r3 H3). case_bool_decide; [by rewrite E4 in *|by simplify_eq]. }
  destruct (if bool_decide (root_sync_type root ≠ DownloadOnly) then execute_uploads token r4 else _) as [x5 r5] eqn:E5.
  pose proof (preserves_uploads token r4 H4). case_bool_decide; [by rewrite E5 in *|by simplify_eq].
Qed.

Lemma cycle_roots_preserves roots token : forall c r, P r -> P (cycle_roots roots token c r).2.
Proof.
  induction roots as [|root roots IH]; intros c r Hr; cbn [cycle_roots]; [done|].
  destruct (_ || _); [by apply IH|]. pose proof (sync_one_root_preserves root token r Hr) as H1.
  destruct (sync_one_root root token r). by apply IH.
Qed.

Lemma run_cycle_preserves power elapsed r : P r -> P (run_cycle_with_power power elapsed config r).2.
Proof.
  intros Hr. unfold run_cycle_with_power. destruct (Power.should_pause _ _); [done|].
  pose proof (preserves_auth_token r Hr) as H1. destruct (auth_token r) as [[token|] r1]; [|done]. cbn in H1.
  pose proof (preserves_list r1 H1) as H2. destruct (list_sync_roots r1) as [roots r2]. cbn in H2.
  pose proof (cycle_roots_preserves roots token CycleResult_default r2 H2) as H3.
  destruct (cycle_roots _ _ _ _) as [c r3]. cbn in H3. cbv zeta.
  match goal with |- context [emit_cycle_audit 0 ?c r3] => pose proof (preserves_audit 0 c r3 H3) end.
  by destruct (emit_cycle_audit _ _ _) as [[]].
Qed.

Lemma evictions_preserve ids : forall r, P r -> P (foldl (λ r id, evict_removed_root id r) r ids).
Proof. induction ids as [|id ids IH]; intros r Hr; cbn; [done|]. by apply IH, preserves_evict. Qed.

Lemma turn_preserves x st : P (lt_runtime st.1) -> P (lt_runtime (turn x st).1).
Proof.
  destruct st as [th s], x as [i|a]; cbn [turn fst snd]; [|done]. intros Hr. unfold loop_step.
  destruct (lt_pc th).
  4:{ pose proof (preserves_list (lt_runtime th) Hr) as H1. destruct (list_sync_roots _) as [roots r]. by apply evictions_preserve. }
  4:{ pose proof (run_cycle_preserves (in_power i) (in_elapsed i) _ Hr) as H1. by destruct (run_cycle_with_power _ _ _ _). }
  all: repeat case_match; done.
Qed.

Lemma loop_start_preserves r : P r -> P (lt_runtime (loop_start r)).
Proof. intros Hr. unfold loop_start. pose proof (preserves_list r Hr). by destruct (list_sync_roots r). Qed.
End Preserved.
End Loop.

(** A runtime that only counts its polls. *)
#[local] Instance counting_runtime : SyncLoopRuntime nat := {|
  auth_token r := (Some [], r);
  list_sync_roots r := ([mkSyncRoot 1 "/home/user/sync" "/" false DownloadOnly], r);
  runtime_root_paused _ _ := false;
  poll_remote_diff _ _ r := (Ok 0, S r);
  run_local_scan _ r := (Ok 0, r);
  advance_transfers r := (0, r);
  execute_downloads _ r := (Ok 0, r);
  execute_uploads _ r := (Ok 0, r);
  conflict_count _ := 0;
  pending_upload_count _ := 0;
  pending_download_count _ := 0;
  evict_removed_root _ r := r;
  emit_cycle_audit _ _ r := (Ok tt, r);
|}.

(** A shutdown in the middle of a cycle, and a wake during a wait. *)
Lemma loop_lifecycle_witness :
  let i := LoopTurn (mkInput Power.OnAc 0 0 false (λ x, elements x)) in
  let run pc := (mkThread pc ∅ 0, store_shutdown (SyncLoopShared_new LoopIdle)) in
  let woken := (mkThread (PcWait 1) ∅ 0, wake (SyncLoopShared_new LoopIdle)) in
  (cycles_run SyncLoopConfig_default (replicate 6 i) (run PcRunning) = 1 /\
   lt_pc (turns SyncLoopConfig_default (replicate 6 i) (run PcRunning)).1 = PcExit) /\
  1 <= cycles_run SyncLoopConfig_default (replicate 8 i) woken.
Proof.
  split; [split; [vm_compute; reflexivity|]|].
  - refine (proj1 (proj2 (proj1 (loop_lifecycle SyncLoopConfig_default _ _) _)) _); [reflexivity|cbn; lia].
  - refine (proj2 (proj2 (loop_lifecycle SyncLoopConfig_default _ _)) _ _ _ _ _); [by split|reflexivity|discriminate|repeat constructor|cbn; lia].
Defined.
