(* ===== verification/SyncRuntime.v ===== *)
(** The runtime of the background sync loop: crates/pcloud-daemon/src/sync_loop_runtime.rs.

    [RealSyncLoopRuntime] puts the engine, the staging caches and the database together behind the
    trait of SyncLoop.  What is outside (the transfer backend, the local disk, the file watchers,
    the clock) is a class of calls on one world [X], any of which may fail; the database is the
    interface of FileMetadata, and the diff comes over the transport of SyncApi.  A log message is
    not modelled. *)
From stdpp Require Import pretty.
From S2P Require Import Prelude Paths Bytes Model Clock Scheduler Planner ConflictResolver Transfers Ingest Engine PageCache FsShell Workers AuditLog BinaryApi Response StateError AuthApi SyncApi FileMetadata SyncLoop.

(** * What is outside *)

(** The local tree under a sync root at the time of a walk; [readable] is whether its directory
    can be listed, [inode] its number; [NBroken] is an entry whose metadata cannot be read. *)
Inductive Node : Type :=
| NFile
| NSymlink
| NBroken
| NDir (inode : N) (readable : bool) (children : list (list byte * Node)).

Class TransferServices (X Link Session : Type) : Type := {
  get_file_link : list byte -> N -> ST X string Link;
  download_to_path : Link -> string -> ST X string N;
  upload_create : list byte -> N -> string -> N -> ST X string Session;
  upload_bytes : list byte -> Session -> list byte -> ST X string unit;
}.

Class LocalDisk (X : Type) : Type := {
  read_file : string -> ST X string (list byte);
  remove_file : string -> ST X string unit;
  local_tree : string -> X -> Node * X;
}.

Class Watching (X : Type) : Type := {
  start_watcher : string -> SyncId -> ST X string unit;
  received_events : SyncId -> X -> list FsEvent * X;
  drop_watcher : SyncId -> X -> X;
}.

Class WallClock (X : Type) : Type := read_instant : X -> Instant * X.

(** * The state *)

(** [CacheShell] without the parts the loop does not use, and the file system shell. *)
Record Shells (M : Type) : Type := mkShells {
  sh_pages : PageCache.Inner M;
  sh_staging : StagingCache;
  sh_filesystem : @FilesystemShell M;
}.
Arguments mkShells {M}. Arguments sh_pages {M}. Arguments sh_staging {M}. Arguments sh_filesystem {M}.

(** What was read back after a download, and what was sent: kept for the theorems only. *)
Record UploadCall : Type := mkUploadCall {
  uc_parent_folder_id : N;
  uc_path : string;
  uc_bytes : list byte;
}.
Record Ghost : Type := mkGhost {
  g_downloaded : list (string * list byte);
  g_uploaded : list UploadCall;
}.

Record RealSyncLoopRuntime (M X : Type) : Type := mkRuntime {
  rt_world : X;
  rt_auth_token : option (list byte);
  rt_engine : EngineShell;
  rt_shells : Shells M;
  rt_watchers : gset SyncId;
  rt_tracker : IncrementalScanTracker;
  rt_config : SyncLoopConfig;
  rt_stall : Stall.StallDetector;
  rt_staging_dir : string;
  rt_ghost : Ghost;
}.
Arguments mkRuntime {M X}. Arguments rt_world {M X}. Arguments rt_auth_token {M X}. Arguments rt_engine {M X}.
Arguments rt_shells {M X}. Arguments rt_watchers {M X}. Arguments rt_tracker {M X}. Arguments rt_config {M X}.
Arguments rt_stall {M X}. Arguments rt_staging_dir {M X}. Arguments rt_ghost {M X}.

Definition DOWNLOAD_INMEM_MIRROR_THRESHOLD : N := 4 * 1024 * 1024.

(** * Local scans *)

Definition replace_backslashes (l : list ascii) : list ascii :=
  (λ c, if decide (c = backslash) then slash else c) <$> l.

Definition fs_events_to_local_scan_entries (events : list FsEvent) : list LocalScanEntry :=
  (λ event, {| scan_sync_id := ev_sync_id event; scan_path := ev_path event;
               scan_entry_kind := ev_entry_kind event;
               scan_deleted := match ev_kind event with Remove => true | _ => false end;
               scan_remote_parent_folder_id := None |}) <$> events.

Section Walk.
Context {D : Type} `{!Database D, !RowOrder}.

Definition resolve_sync_root_remote_folder_id (remote_path : string) : ST D string (option RemoteFolderId) :=
  let trimmed := trim (chars remote_path) in
  if decide (trimmed = [] \/ trimmed = [slash]) then ok (Some 0%N)
  else
    let! record := resolve_path (str trimmed) in
    ok (match record with Some r => if fm_is_folder r then Some (fm_file_id r) else None | None => None end).

(** The directory's own folder id, for its children. *)
Definition child_parent (parent : option RemoteFolderId) (leaf : list byte) : ST D string (option RemoteFolderId) :=
  match parent with
  | Some parent_id =>
      let name := str (from_utf8_lossy leaf) in
      let! record := statement (read_with parent_id (λ t, get_by_parent_and_name parent_id name (t_metadata t))) in
      ok (match record with Some r => if fm_is_folder r then Some (fm_file_id r) else None | None => None end)
  | None => ok None
  end.

(** [walk_recursive] on one child [name] of the directory at [prefix]: the entries pushed so far
    and the inodes visited go in and out. *)
Fixpoint walk_node (sync_id : SyncId) (prefix : list byte) (parent : option RemoteFolderId) (name : list byte) (node : Node)
    (acc : list LocalScanEntry * gset N) : ST D string (list LocalScanEntry * gset N) :=
  let raw := match prefix with [] => name | _ => prefix ++ slash :: name end in
  let relative := str (replace_backslashes (from_utf8_lossy raw)) in
  let entry kind := {| scan_sync_id := sync_id; scan_path := relative; scan_entry_kind := kind; scan_deleted := false;
                       scan_remote_parent_folder_id := parent |} in
  match node with
  | NSymlink => ok acc
  | NBroken => throw "symlink_metadata error"
  | NFile => ok (acc.1 ++ [entry File], acc.2)
  | NDir inode readable children =>
      let acc := (acc.1 ++ [entry Folder], acc.2) in
      if decide (inode ∈ acc.2) then ok acc
      else
        let! own := child_parent parent name in
        if readable then
          (fix walk_children (children : list (list byte * Node)) (acc : list LocalScanEntry * gset N)
              : ST D string (list LocalScanEntry * gset N) :=
             match children with
             | [] => ok acc
             | (name, child) :: children =>
                 let! acc := walk_node sync_id raw own name child acc in walk_children children acc
             end) children (acc.1, {[inode]} ∪ acc.2)
        else throw "failed to read"
  end.

Fixpoint walk_children (sync_id : SyncId) (prefix : list byte) (parent : option RemoteFolderId)
    (children : list (list byte * Node)) (acc : list LocalScanEntry * gset N) : ST D string (list LocalScanEntry * gset N) :=
  match children with
  | [] => ok acc
  | (name, child) :: children =>
      let! acc := walk_node sync_id prefix parent name child acc in
      walk_children sync_id prefix parent children acc
  end.

Definition walk_local_tree (root : SyncRootRecord) (tree : Node) : ST D string (list LocalScanEntry) :=
  match tree with
  | NDir _ readable children =>
      let! root_folder := resolve_sync_root_remote_folder_id (root_remote_path root) in
      if readable then
        let! acc := walk_children (root_sync_id root) [] root_folder children ([], ∅) in ok acc.1
      else throw "failed to read"
  | _ => throw "sync root path does not exist or is not a directory"
  end.

(** * The commit of a batch *)

Definition deleted_id (entry : RemoteDiffEntry) : option N :=
  match entry_entry_kind entry with
  | Folder => entry_remote_folder_id entry
  | File => entry_remote_file_id entry
  end.

Fixpoint delete_entries (entries : list RemoteDiffEntry) : ST D string unit :=
  match entries with
  | [] => ok tt
  | entry :: entries =>
      match entry_change_kind entry, deleted_id entry with
      | Delete, Some file_id =>
          do! statement (write_with file_id (λ t, with_metadata (delete file_id (t_metadata t)) t)) in
          delete_entries entries
      | _, _ => delete_entries entries
      end
  end.

(** [SynchronousGuard::set_full], the body and the guard's drop. *)
Definition with_full_synchronous {A} (body : ST D string A) : ST D string A :=
  let! old := statement (read_tables t_synchronous) in
  let old := if decide (old ∈ ["OFF"; "NORMAL"; "FULL"; "EXTRA"]) then old else "NORMAL" in
  do! statement (write_tables (with_synchronous "FULL")) in
  let! r := attempt body in
  do! attempt (statement (write_tables (with_synchronous old))) in
  lift r.

Definition commit_diff_batch (sync_id : SyncId) (previous_cursor : N) (batch : RemoteDiffBatch) : ST D string unit :=
  with_full_synchronous (transaction (
    do! delete_entries (batch_entries batch) in
    if decide (previous_cursor < batch_cursor batch)%N then save_cursor sync_id (batch_cursor batch) else ok tt)).
End Walk.

(** * Transfers *)

(** [path.rsplit_once('/').map(|(parent, _)| parent).unwrap_or("")]. *)
Definition parent_text (path : string) : list ascii :=
  match rfind slash (chars path) with Some i => take i (chars path) | None => [] end.

Definition resolve_upload_parent (path : string) (remote_parent_folder_id : option RemoteFolderId) : result N RecoveryFailure :=
  if decide (parent_text path = []) then Ok 0%N else ok_or remote_parent_folder_id RetryableNetworkError.

Definition staged_download_path `{Sha256} (staging_dir : string) (file_id : N) (path : string) : string :=
  staging_dir +:+ "/f" +:+ pretty file_id +:+ "-" +:+ str (hex_lower (take 8 (sha256 (chars path)))) +:+ ".part".

Definition disposition_debug (d : FailureDisposition) : string :=
  match d with
  | RetryNow => "RetryNow" | RetryLater => "RetryLater" | ManualIntervention => "ManualIntervention" | Terminal => "Terminal"
  end.

Section Runtime.
Context {M X Link Session TE : Type} `{!LinkedHashMap M, !Database X, !RowOrder, !ProtocolTransport X TE}
  `{!TransferServices X Link Session, !LocalDisk X, !Watching X, !WallClock X, !Sha256}.

Abbreviation RT := (RealSyncLoopRuntime M X).
Abbreviation Method := (ST RT string).

(** Field updates. *)
Definition with_world (x : X) (r : RT) : RT :=
  mkRuntime x (rt_auth_token r) (rt_engine r) (rt_shells r) (rt_watchers r) (rt_tracker r) (rt_config r) (rt_stall r) (rt_staging_dir r) (rt_ghost r).
Definition with_engine (e : EngineShell) (r : RT) : RT :=
  mkRuntime (rt_world r) (rt_auth_token r) e (rt_shells r) (rt_watchers r) (rt_tracker r) (rt_config r) (rt_stall r) (rt_staging_dir r) (rt_ghost r).
Definition with_shells (s : Shells M) (r : RT) : RT :=
  mkRuntime (rt_world r) (rt_auth_token r) (rt_engine r) s (rt_watchers r) (rt_tracker r) (rt_config r) (rt_stall r) (rt_staging_dir r) (rt_ghost r).
Definition with_watchers (w : gset SyncId) (r : RT) : RT :=
  mkRuntime (rt_world r) (rt_auth_token r) (rt_engine r) (rt_shells r) w (rt_tracker r) (rt_config r) (rt_stall r) (rt_staging_dir r) (rt_ghost r).
Definition with_tracker (t : IncrementalScanTracker) (r : RT) : RT :=
  mkRuntime (rt_world r) (rt_auth_token r) (rt_engine r) (rt_shells r) (rt_watchers r) t (rt_config r) (rt_stall r) (rt_staging_dir r) (rt_ghost r).
Definition with_stall (s : Stall.StallDetector) (r : RT) : RT :=
  mkRuntime (rt_world r) (rt_auth_token r) (rt_engine r) (rt_shells r) (rt_watchers r) (rt_tracker r) (rt_config r) s (rt_staging_dir r) (rt_ghost r).
Definition with_ghost (g : Ghost) (r : RT) : RT :=
  mkRuntime (rt_world r) (rt_auth_token r) (rt_engine r) (rt_shells r) (rt_watchers r) (rt_tracker r) (rt_config r) (rt_stall r) (rt_staging_dir r) g.

Definition on_world {A} (m : ST X string A) : Method A := zoom rt_world with_world m.
Definition on_engine (f : EngineShell -> EngineShell) : Method unit := modify (λ r, with_engine (f (rt_engine r)) r).

(** [Instant::now()]. *)
Definition now : Method Instant := on_world (λ x, let '(t, x) := read_instant x in (Ok t, x)).
Definition on_stall (f : Instant -> Stall.StallDetector -> Stall.StallDetector) : Method unit :=
  let! t := now in modify (λ r, with_stall (f t (rt_stall r)) r).

(** A statement whose failure is only logged. *)
Definition logged {A} (m : ST X string A) : Method unit := let! _ := attempt (on_world m) in ok tt.

(** ** Persistence *)

Definition persist_planner_overflow : Method unit :=
  let! overflow := gets (λ r, planner_overflow (rt_engine r)) in
  logged (statement (write_tables (with_stored_overflow (match overflow with [] => None | _ => Some (Some overflow) end)))).

Definition persist_scheduler_queue : Method unit :=
  let! snapshot := gets (λ r, snapshot_scheduler_durable (rt_engine r)) in
  logged (statement (write_tables (with_stored_queue (match snapshot with [] => None | _ => Some (Some snapshot) end)))).

(** ** Watchers *)

Definition remove_watcher (sync_id : SyncId) : Method unit :=
  modify (λ r, with_tracker (untrack sync_id (rt_tracker r))
                 (with_watchers (rt_watchers r ∖ {[sync_id]})
                    (with_world (if decide (sync_id ∈ rt_watchers r) then drop_watcher sync_id (rt_world r) else rt_world r) r))).

Fixpoint remove_watchers (ids : list SyncId) : Method unit :=
  match ids with
  | [] => ok tt
  | id :: ids =>
      let! known := gets (λ r, bool_decide (id ∈ rt_watchers r)) in
      do! (if known : bool then remove_watcher id else ok tt) in remove_watchers ids
  end.

Definition drain_engine_watcher_evictions : Method unit :=
  let! pending := gets (λ r, pending_watcher_evictions (rt_engine r)) in
  do! on_engine (λ e, (drain_watcher_evictions e).2) in
  remove_watchers pending.

Definition ensure_watcher (root : SyncRootRecord) : Method unit :=
  let! known := gets (λ r, bool_decide (root_sync_id root ∈ rt_watchers r)) in
  if known : bool then ok tt
  else
    let! started := attempt (on_world (start_watcher (root_local_path root) (root_sync_id root))) in
    match started with
    | Ok _ => modify (λ r, with_watchers ({[root_sync_id root]} ∪ rt_watchers r) r)
    | Err _ => ok tt
    end.

Definition drain_watcher_events (sync_id : SyncId) : Method unit :=
  let! known := gets (λ r, bool_decide (sync_id ∈ rt_watchers r)) in
  if known : bool then
    let! events := on_world (λ x, let '(l, x) := received_events sync_id x in (Ok l, x)) in
    modify (λ r, with_tracker (foldl (λ t e, push_event e t) (rt_tracker r) events) r)
  else ok tt.

(** ** The two sources of changes *)

Definition delete_policy_of (root : SyncRootRecord) (r : RT) : DeletePolicy :=
  for_sync_type (root_sync_type root) (propagate_deletes (rt_config r)).

(** [Debug] of the error. *)
Definition normalization_debug (e : DiffNormalizationError) : string :=
  match e with InvalidPath path => "InvalidPath(" +:+ path +:+ ")" end.

Definition ingest (f : EngineShell -> result (list PlannedOperation * EngineShell) DiffNormalizationError) : Method nat := λ r,
  match f (rt_engine r) with
  | Ok (operations, e) => (Ok (length operations), with_engine e r)
  | Err e => (Err (normalization_debug e), r)
  end.

Definition rt_poll_remote_diff (root : SyncRootRecord) (token : list byte) : Method nat :=
  let! cursor := on_world (load_cursor (root_sync_id root)) in
  let cursor := default 0%N cursor in
  let! limit := gets (λ r, batch_limit (diff_poller (rt_engine r))) in
  let! batch := on_world (map_err (λ e, str (display_sync_error e)) (SyncRuntime_diff token cursor limit)) in
  let! policy := gets (delete_policy_of root) in
  let! op_count := ingest (ingest_remote_diff_filtered batch policy) in
  do! persist_planner_overflow in
  do! on_world (commit_diff_batch (root_sync_id root) cursor batch) in
  ok op_count.

Definition ingest_scan (root : SyncRootRecord) (entries : list LocalScanEntry) : Method nat :=
  let! policy := gets (delete_policy_of root) in
  let! op_count := ingest (ingest_local_scan_with_delete_policy entries policy) in
  do! persist_planner_overflow in
  do! persist_scheduler_queue in
  ok op_count.

Definition rt_run_local_scan (root : SyncRootRecord) : Method nat :=
  let sync_id := root_sync_id root in
  do! ensure_watcher root in
  do! drain_watcher_events sync_id in
  let! t := now in
  let! decision := gets (λ r, decide_scan t sync_id (rt_tracker r)) in
  do! modify (with_tracker decision.2) in
  match decision.1 with
  | FullScan =>
      let! tree := on_world (λ x, let '(n, x) := local_tree (root_local_path root) x in (Ok n, x)) in
      let! entries := on_world (walk_local_tree root tree) in
      let! t := now in
      do! modify (λ r, with_tracker (record_full_scan t sync_id (rt_tracker r)) r) in
      ingest_scan root entries
  | IncrementalOnly [] => ok 0
  | IncrementalOnly events => ingest_scan root (fs_events_to_local_scan_entries events)
  end.

(** ** Transfers *)

(** [next_batch] does not panic ([next_batch_eq]). *)
Definition rt_advance_transfers : Method nat :=
  let! batch := λ r, match advance_transfer_cycle (rt_engine r) with
                     | Some (batch, e) => (Ok batch, with_engine e r)
                     | None => (Ok [], r)
                     end in
  match batch with
  | [] => let! _ := now in ok 0
  | _ => do! persist_scheduler_queue in do! on_stall Stall.mark_progress in ok (length batch)
  end.

Definition fail_transfer (operation : PlannedOperation) (path : string) (failure : RecoveryFailure) (what : string) : Method unit :=
  modify (λ r,
    let d := classify_failure (recovery (rt_engine r)) operation failure in
    with_engine (mark_transfer_failed path (what +:+ "; recovery=" +:+ disposition_debug (dec_disposition d)) (rt_engine r)).2 r).

Definition complete_transfer (path : string) : Method bool := λ r,
  let '(found, e) := mark_transfer_completed path (rt_engine r) in (Ok found, with_engine e r).

Definition ack (sync_id : SyncId) (path : string) : Method unit := on_engine (ack_dispatched_path sync_id path).

(** The bytes of a small download go to the page cache and to both staging areas. *)
Definition mirror (path : string) (bytes : list byte) : Method unit :=
  modify (λ r,
    let s := rt_shells r in
    with_ghost (mkGhost (g_downloaded (rt_ghost r) ++ [(path, bytes)]) (g_uploaded (rt_ghost r)))
      (with_shells (mkShells (put ("download:" +:+ path) bytes (sh_pages s)) (stage path bytes (sh_staging s))
                      (seed_staged_file path bytes (sh_filesystem s))) r)).

Definition download_one (token : list byte) (task : TransferTask) (completed : nat) : Method nat :=
  do! on_stall Stall.mark_progress in
  match task_operation task with
  | DownloadFile sync_id path (Some file_id) =>
      let! link := attempt (on_world (get_file_link token file_id)) in
      match link with
      | Err e => do! fail_transfer (task_operation task) path RetryableNetworkError e in ok completed
      | Ok link =>
          let! staged_path := gets (λ r, staged_download_path (rt_staging_dir r) file_id path) in
          let! written := attempt (on_world (download_to_path link staged_path)) in
          match written with
          | Ok written =>
              do! (if decide (written < DOWNLOAD_INMEM_MIRROR_THRESHOLD)%N then
                     let! bytes := attempt (on_world (read_file staged_path)) in
                     match bytes with Ok bytes => mirror path bytes | Err _ => ok tt end
                   else ok tt) in
              do! on_stall (λ t, Stall.observe_bytes t path written) in
              let! found := complete_transfer path in
              if found : bool then
                do! ack sync_id path in
                do! on_stall Stall.mark_progress in
                do! on_stall (λ _, Stall.forget_transfer path) in
                ok (completed + 1)
              else ok completed
          | Err e =>
              do! on_stall (λ _, Stall.forget_transfer path) in
              do! logged (remove_file staged_path) in
              do! fail_transfer (task_operation task) path RetryableNetworkError e in
              ok completed
          end
      end
  | _ => ok completed
  end.

(** [for task in tasks]. *)
Fixpoint for_tasks (body : TransferTask -> nat -> Method nat) (tasks : list TransferTask) (completed : nat) : Method nat :=
  match tasks with
  | [] => ok completed
  | task :: tasks => let! completed := body task completed in for_tasks body tasks completed
  end.

Definition rt_execute_downloads (token : list byte) : Method nat :=
  let! tasks := gets (λ r, active_downloads (downloads (rt_engine r))) in
  for_tasks (download_one token) tasks 0.

(** [borrow_upload_payload], and its length before. *)
Definition upload_payload (path : string) (s : Shells M) : option (list byte) :=
  match staged_bytes (sh_filesystem s) path with
  | Some bytes => Some bytes
  | None => staged_get (sh_staging s) path
  end.

Definition record_upload (parent : N) (path : string) (bytes : list byte) : Method unit :=
  modify (λ r, with_ghost (mkGhost (g_downloaded (rt_ghost r)) (g_uploaded (rt_ghost r) ++ [mkUploadCall parent path bytes])) r).

Definition upload_one (token : list byte) (task : TransferTask) (completed : nat) : Method nat :=
  do! on_stall Stall.mark_progress in
  let operation := task_operation task in
  match operation with
  | UploadFile sync_id path remote_parent_folder_id remote_name =>
      match resolve_upload_parent path remote_parent_folder_id with
      | Err failure => do! fail_transfer operation path failure "missing upload destination metadata" in ok completed
      | Ok parent_folder_id =>
          let! payload := gets (λ r, upload_payload path (rt_shells r)) in
          match payload with
          | None => do! fail_transfer operation path ConflictResolver.InvalidPath "missing staged upload payload" in ok completed
          | Some payload =>
              let! session := attempt (on_world (upload_create token parent_folder_id remote_name (len payload))) in
              match session with
              | Err e => do! fail_transfer operation path RetryableNetworkError e in ok completed
              | Ok session =>
                  let! bytes := gets (λ r, upload_payload path (rt_shells r)) in
                  match bytes with
                  | None => do! fail_transfer operation path ConflictResolver.InvalidPath "staged upload payload evicted mid-upload" in ok completed
                  | Some bytes =>
                      do! record_upload parent_folder_id path bytes in
                      let! sent := attempt (on_world (upload_bytes token session bytes)) in
                      match sent with
                      | Ok _ =>
                          let! found := complete_transfer path in
                          if found : bool then
                            do! ack sync_id path in do! on_stall Stall.mark_progress in ok (completed + 1)
                          else ok completed
                      | Err e => do! fail_transfer operation path RetryableNetworkError e in ok completed
                      end
                  end
              end
          end
      end
  | _ => ok completed
  end.

Definition rt_execute_uploads (token : list byte) : Method nat :=
  let! tasks := gets (λ r, active_uploads (uploads (rt_engine r))) in
  for_tasks (upload_one token) tasks 0.

(** ** The rest of the trait *)

Definition rt_list_sync_roots : Method (list SyncRootRecord) :=
  let! roots := attempt (on_world load_roots) in
  ok (match roots with Ok roots => roots | Err _ => [] end).

Definition rt_evict_removed_root (sync_id : SyncId) : Method unit :=
  do! remove_watcher sync_id in
  do! on_engine (evict_sync_root sync_id) in
  do! drain_engine_watcher_evictions in
  persist_scheduler_queue.

(** The event goes to the audit chain (AuditLog); here it counts as a row. *)
Definition rt_emit_cycle_audit (c : CycleResult) : Method unit :=
  if decide (total_errors c = 0 /\ total_uploads c = 0 /\ total_downloads c = 0) then ok tt
  else map_err (λ e, "audit-chain write failed: " +:+ e)
         (on_world (statement (write_tables (λ t, with_audit (t_audit t + 1) t)))).

#[export] Instance RealSyncLoopRuntime_loop : SyncLoopRuntime RT := {|
  auth_token r := (rt_auth_token r, r);
  list_sync_roots r := let '(roots, r) := rt_list_sync_roots r in (match roots with Ok l => l | Err _ => [] end, r);
  runtime_root_paused root r := is_sync_root_paused (root_sync_id root) (rt_engine r);
  poll_remote_diff := rt_poll_remote_diff;
  run_local_scan := rt_run_local_scan;
  advance_transfers r := let '(n, r) := rt_advance_transfers r in (match n with Ok n => n | Err _ => 0 end, r);
  execute_downloads := rt_execute_downloads;
  execute_uploads := rt_execute_uploads;
  conflict_count r := unresolved_conflict_count (rt_engine r);
  pending_upload_count r := up_active_count (uploads (rt_engine r));
  pending_download_count r := down_active_count (downloads (rt_engine r));
  evict_removed_root sync_id r := (rt_evict_removed_root sync_id r).2;
  emit_cycle_audit _ c := rt_emit_cycle_audit c;
|}.

(** ** The start of the daemon *)

(** A stored text: what it says when it parses; one that does not is deleted. *)
Definition restore_value {A} (select : Tables -> option (option (list A))) (discard : Tables -> Tables) : ST X string (list A) :=
  let! stored := attempt (statement (read_tables select)) in
  match stored with
  | Ok (Some (Some l)) => ok l
  | Ok (Some None) => let! _ := attempt (statement (write_tables discard)) in ok []
  | Ok None | Err _ => ok []
  end.

Definition paused_roots (roots : list SyncRootRecord) : list SyncId :=
  root_sync_id <$> filter (λ root, root_paused root = true) roots.

(** [Connection::open] and the pragmas of [new]. *)
Definition open_connection : ST X string unit :=
  do! statement (read_tables (λ _, tt)) in
  do! statement (read_tables (λ _, tt)) in
  do! statement (read_tables (λ _, tt)) in
  do! statement (write_tables (with_synchronous "NORMAL")) in
  statement (read_tables (λ _, tt)).

(** The engine of [RealSyncLoopRuntime::new]; reading the audit log goes before it and any error
    of it is replaced by an empty log. *)
Definition restored_engine : ST X string EngineShell :=
  do! open_connection in
  let! _ := attempt (statement (read_tables t_audit)) in
  let! roots := attempt load_roots in
  let paused := match roots with Ok roots => paused_roots roots | Err _ => [] end in
  let! overflow := restore_value t_overflow (with_stored_overflow None) in
  let! queue := restore_value t_queue (with_stored_queue None) in
  ok (engine_restart paused overflow queue).

Definition Shells_default : Shells M := mkShells PageCache.Inner_default StagingCache_default FilesystemShell_default.

(** [None] of the session token: nobody is logged in.  The creation of the staging directory,
    whose failure is ignored, is not modelled. *)
Definition RealSyncLoopRuntime_new (token : option (list byte)) (config : SyncLoopConfig) (staging_dir : string) (g : Ghost) (x : X)
    : result RT string * X :=
  match restored_engine x with
  | (Ok e, x) =>
      let '(t, x) := read_instant x in
      (Ok (mkRuntime x token e Shells_default ∅
             (IncrementalScanTracker_new (from_secs (loop_full_scan_interval_secs config))) config
             (Stall.stall_new t (from_secs 120)) staging_dir g), x)
  | (Err e, x) => (Err e, x)
  end.

(** [spawn_daemon_sync_loop], when the thread can be created.  Its two callers, [pcloudd serve]
    and [serve_with_shutdown], bind the token handle it returns to a name they never use. *)
Definition spawn_daemon_sync_loop (token : option (list byte)) (config : SyncLoopConfig) (staging_dir : string) (g : Ghost) (x : X)
    : result (option (LoopThread RT) * SyncLoopShared) string * X :=
  match RealSyncLoopRuntime_new token config staging_dir g x with
  | (Ok r, x) => (Ok (spawn_sync_loop config r (SyncLoopShared_new LoopIdle)), x)
  | (Err e, x) => (Err e, x)
  end.

(** * The daemon *)

(** The process and its surroundings; [Down]: no loop thread is running. *)
Inductive SyncDaemon : Type :=
| Down (x : X) (g : Ghost)
| Up (th : LoopThread RT) (shared : SyncLoopShared).

(** [TurnRoots]: the IPC thread saves the sync roots.  [TurnCrash]: the process ends, at any
    point.  [TurnStart]: it starts again, with the token of the restored session. *)
Inductive DaemonTurn : Type :=
| TurnLoop (x : Turn)
| TurnRoots (roots : list SyncRootRecord)
| TurnCrash
| TurnStart (token : option (list byte)) (config : SyncLoopConfig) (staging_dir : string).

Definition set_world (x : X) (th : LoopThread RT) : LoopThread RT :=
  mkThread (lt_pc th) (lt_prev_root_ids th) (with_world x (lt_runtime th)).

Definition daemon_turn (t : DaemonTurn) (d : SyncDaemon) : SyncDaemon :=
  match t, d with
  | TurnLoop x, Up th shared =>
      let '(th, shared) := turn (rt_config (lt_runtime th)) x (th, shared) in Up th shared
  | TurnRoots roots, Up th shared =>
      Up (set_world (statement (write_tables (with_roots roots)) (rt_world (lt_runtime th))).2 th) shared
  | TurnRoots roots, Down x g => Down (statement (write_tables (with_roots roots)) x).2 g
  | TurnCrash, Up th _ => Down (rt_world (lt_runtime th)) (rt_ghost (lt_runtime th))
  | TurnStart token config staging_dir, Down x g =>
      match spawn_daemon_sync_loop token config staging_dir g x with
      | (Ok (Some th, shared), _) => Up th shared
      | (Ok (None, _), x) | (Err _, x) => Down x g
      end
  | _, _ => d
  end.

Definition daemon_run (ts : list DaemonTurn) (d : SyncDaemon) : SyncDaemon := foldl (λ d t, daemon_turn t d) d ts.
End Runtime.
