(* ===== verification/SyncWorld.v ===== *)
(** The surroundings of the sync loop: what the services and the database promise, and a small
    world that keeps the promises.

    [ServicesLaws] says that the services keep their state apart from the tables; a statement of
    the database changes the tables as its function says ([DatabaseLaws] of FileMetadata).  The
    world of the examples answers diffs from a list and keeps its files in memory. *)
From S2P Require Import Prelude Paths Bytes Model Clock Scheduler Planner ConflictResolver Transfers Ingest Engine PageCache FsShell Workers AuditLog BinaryApi Response StateError AuthApi SyncApi FileMetadata SyncLoop SyncRuntime.

(** * The database *)

(** The services keep their state apart from the tables. *)
Class ServicesLaws (X Link Session : Type) {TE : Type} `{!Database X, !ProtocolTransport X TE, !TransferServices X Link Session,
    !LocalDisk X, !Watching X, !WallClock X} : Prop := {
  apart_execute q (x : X) : tables (execute q x).2 = tables x;
  apart_hint h (x : X) : tables (consume_api_server_hint h x) = tables x;
  apart_link token id (x : X) : tables (get_file_link token id x).2 = tables x;
  apart_download link path (x : X) : tables (download_to_path link path x).2 = tables x;
  apart_create token parent name n (x : X) : tables (upload_create token parent name n x).2 = tables x;
  apart_bytes token session bytes (x : X) : tables (upload_bytes token session bytes x).2 = tables x;
  apart_read path (x : X) : tables (read_file path x).2 = tables x;
  apart_remove path (x : X) : tables (remove_file path x).2 = tables x;
  apart_tree path (x : X) : tables (local_tree path x).2 = tables x;
  apart_start path id (x : X) : tables (start_watcher path id x).2 = tables x;
  apart_events id (x : X) : tables (received_events id x).2 = tables x;
  apart_drop id (x : X) : tables (drop_watcher id x) = tables x;
  apart_clock (x : X) : tables (read_instant x).2 = tables x;
}.

Section Statements.
Context {D : Type} `{!Database D, !DatabaseLaws D, !RowOrder}.

(** A relation between the tables before and after. *)
Definition on_tables (R : relation Tables) : relation D := λ d d', R (tables d) (tables d').

#[export] Instance on_tables_preorder (R : relation Tables) `{!PreOrder R} : PreOrder (on_tables R).
Proof. split; [intros d; unfold on_tables; reflexivity|]. intros d1 d2 d3 H1 H2. unfold on_tables in *. etrans; [exact H1|exact H2]. Qed.

Lemma respects_statement (R : relation Tables) `{!PreOrder R} {A} (f : Tables -> option A * Tables) :
  (forall t, R t (f t).2) -> respects (on_tables R) (statement (D:=D) f).
Proof.
  intros Hf d. pose proof (statement_ok f d) as Hs. specialize (Hf (tables d)). unfold on_tables.
  destruct (statement f d) as [[a|e] d']; cbn; [by rewrite Hs in Hf|rewrite Hs; reflexivity].
Qed.

Lemma respects_rollback (R : relation Tables) `{!PreOrder R} {A} (m : ST D string A) :
  respects (on_tables R) m -> respects (on_tables R) (transaction m).
Proof.
  intros Hm d. unfold transaction. pose proof (respects_statement R (read_tables (λ _, tt)) (λ t, reflexivity t)) as Hread.
  pose proof (Hread d) as H0. destruct (statement (read_tables _) d) as [[[]|e] d0]; cbn in *; [|done].
  specialize (Hm d0). destruct (m d0) as [[a|e] d1]; cbn in *; [|unfold on_tables; by rewrite tables_rollback].
  pose proof (Hread d1) as H1. destruct (statement (read_tables _) d1) as [[[]|e] d2]; cbn in *.
  - by do 2 (etrans; [eassumption|]).
  - unfold on_tables. by rewrite tables_rollback.
Qed.

Lemma respects_same_tables (R : relation Tables) `{!PreOrder R} {E A} (m : ST D E A) :
  (forall d, tables (m d).2 = tables d) -> respects (on_tables R) m.
Proof. intros Hm d. unfold on_tables. by rewrite Hm. Qed.

Lemma wp_statement {A} (f : Tables -> option A * Tables) (Q : result A string -> D -> Prop) d :
  (forall a d', f (tables d) = (Some a, tables d') -> Q (Ok a) d') ->
  (forall e d', tables d' = tables d -> Q (Err e) d') -> wp (statement f) Q d.
Proof. intros Hok Herr. rewrite wp_run. pose proof (statement_ok f d) as Hs. destruct (statement f d) as [[a|e] d']; cbn; auto. Qed.

Lemma wp_read {A} (f : Tables -> A) (Q : result A string -> D -> Prop) d :
  (forall d', tables d' = tables d -> Q (Ok (f (tables d))) d') ->
  (forall e d', tables d' = tables d -> Q (Err e) d') -> wp (statement (read_tables f)) Q d.
Proof. intros Hok Herr. apply wp_statement; [|done]. intros a d' [= <- E]. auto. Qed.

Lemma wp_read_with {A} n (f : Tables -> A) (Q : result A string -> D -> Prop) d :
  (forall d', tables d' = tables d -> Q (Ok (f (tables d))) d') ->
  (forall e d', tables d' = tables d -> Q (Err e) d') -> wp (statement (read_with n f)) Q d.
Proof.
  intros Hok Herr. apply wp_statement; [|done]. unfold read_with. intros a d'. destruct (to_sql n); [|done]. intros [= <- E]. auto.
Qed.
End Statements.


(** * A small world *)

Record TestWorld : Type := mkTestWorld {
  tw_tables : Tables;
  tw_diffs : list DiffBatch;
  tw_files : list (string * list byte);
  tw_tree : Node;
  tw_events : list (list FsEvent);
}.

Definition with_test_tables (t : Tables) (w : TestWorld) : TestWorld :=
  mkTestWorld t (tw_diffs w) (tw_files w) (tw_tree w) (tw_events w).

#[export] Instance test_database : Database TestWorld := {|
  tables := tw_tables;
  statement A f w := match f (tw_tables w) with (Some a, t) => (Ok a, with_test_tables t w) | (None, _) => (Err "out of range", w) end;
  rollback := with_test_tables;
|}.

#[export] Instance test_database_laws : DatabaseLaws TestWorld.
Proof. split; [|done]. intros A f w. cbn. by destruct (f (tw_tables w)) as [[a|] t]. Qed.

#[export] Instance test_rows : RowOrder := λ m, (map_to_list m).*2.
#[export] Instance test_rows_laws : RowOrderLaws.
Proof. by intros m. Qed.

#[export] Instance test_transport : ProtocolTransport TestWorld unit := {|
  execute _ w := match tw_diffs w with
                 | b :: bs => (Ok (batch_value b), mkTestWorld (tw_tables w) bs (tw_files w) (tw_tree w) (tw_events w))
                 | [] => (Err tt, w)
                 end;
  consume_api_server_hint _ w := w;
  display_transport_error _ := chars "no answer";
|}.

(** Every remote file holds the same bytes. *)
Definition remote_content : list byte := chars "remote".

#[export] Instance test_transfers : TransferServices TestWorld N unit := {|
  get_file_link _ id := ok id;
  download_to_path _ path w :=
    (Ok (len remote_content), mkTestWorld (tw_tables w) (tw_diffs w) ((path, remote_content) :: tw_files w) (tw_tree w) (tw_events w));
  upload_create _ _ _ _ := ok tt;
  upload_bytes _ _ _ := ok tt;
|}.

#[export] Instance test_disk : LocalDisk TestWorld := {|
  read_file path w := (ok_or (snd <$> List.find (λ f, bool_decide (f.1 = path)) (tw_files w)) "no such file", w);
  remove_file _ := ok tt;
  local_tree _ w := (tw_tree w, w);
|}.

#[export] Instance test_watching : Watching TestWorld := {|
  start_watcher _ _ := ok tt;
  received_events _ w :=
    (default [] (head (tw_events w)), mkTestWorld (tw_tables w) (tw_diffs w) (tw_files w) (tw_tree w) (tail (tw_events w)));
  drop_watcher _ w := w;
|}.

#[export] Instance test_clock : WallClock TestWorld := λ w, (0%N, w).
#[export] Instance test_sha256 : Sha256 := λ m, m.

#[export] Instance test_services_laws : ServicesLaws TestWorld N unit.
Proof. split; try done. intros q w. cbn. by destruct (tw_diffs w). Qed.

Definition test_root (sync_type : SyncType) : SyncRootRecord := mkSyncRoot 1 "/home/user/sync" "/" false sync_type.
Definition test_tables (roots : list SyncRootRecord) : Tables := mkTables roots ∅ ∅ None None "NORMAL" 0.

Definition test_batch (id : N) (names : list string) : DiffBatch :=
  mkDiffBatch id false
    ((λ name, mkDiffEntry None (mkDiffEntryMetadata (chars name) false (Some 7%N) None (Some 0%N) false)) <$> names) None.

Definition test_tree (names : list string) : Node := NDir 1 true ((λ name, (chars name, NFile)) <$> names).

Definition modified (path : string) : FsEvent := mkFsEvent 1 path File Write.

(** An undisturbed cycle of the loop, from one wait to the next. *)
Definition test_input : LoopInput := mkInput Power.OnAc 0 0 true (λ x, elements x).
Definition test_cycle : list DaemonTurn := replicate 8 (TurnLoop (LoopTurn test_input)).

(** A file is downloaded in the second cycle and then modified locally; the third cycle uploads. *)
Definition test_start : DaemonTurn := TurnStart (Some (chars "token")) SyncLoopConfig_default "/cache".
Definition test_life : list DaemonTurn := test_start :: test_cycle ++ test_cycle ++ test_cycle.
Definition test_world : TestWorld :=
  mkTestWorld (test_tables [test_root Model.Full]) [test_batch 1 []; test_batch 2 ["a.txt"]; test_batch 3 []] []
    (test_tree []) [[]; []; [modified "a.txt"]].

(** A file on each side before the first cycle. *)
Definition two_sided_world : TestWorld :=
  mkTestWorld (test_tables [test_root Model.Full]) [test_batch 9 ["remote.txt"]] [] (test_tree ["local.txt"]) [].

Definition test_runtime (w : TestWorld) : RealSyncLoopRuntime alist TestWorld :=
  mkRuntime w (Some (chars "token")) EngineShell_new Shells_default ∅ (IncrementalScanTracker_new 300) SyncLoopConfig_default
    (Stall.stall_new 0 (from_secs 120)) "/cache" (mkGhost [] []).
