(* ===== verification/SyncRuns.v ===== *)
(** What the background sync loop does over the life of a daemon.

    The runs of SyncRuntime interleave the loop thread with the IPC thread, crashes and restarts,
    over a world whose calls may fail in any way.  The invariants say where the bytes of an upload
    come from and to which folder it goes; the other properties follow one call through its
    outcomes. *)
From S2P Require Import Prelude Paths Bytes Model Clock Scheduler Planner ConflictResolver Transfers Ingest Engine PageCache FsShell Workers AuditLog BinaryApi Response StateError AuthApi SyncApi FileMetadata SyncLoop SyncRuntime SyncWorld.

(** * A property of every operation and of every candidate in the engine *)

Lemma Forall_filtered {A} (P Q : A -> Prop) `{!forall x, Decision (Q x)} (l : list A) : Forall P l -> Forall P (filter Q l).
Proof. rewrite !Forall_forall. intros Hl x [_ Hx]%list_elem_of_filter. auto. Qed.

Section EngineAll.
Context (Pop : PlannedOperation -> Prop) (Pc : SyncCandidate -> Prop).

Record engine_all (e : EngineShell) : Prop := {
  ea_queued : Forall Pop (queued_operations (scheduler e));
  ea_dispatched : Forall Pop (dispatched_operations (scheduler e));
  ea_uploads : Forall (λ t, Pop (task_operation t)) (active_tasks (uploads e));
  ea_overflow : Forall Pc (planner_overflow e);
}.

Context (Hsingle : forall c, Pc c -> Pop (plan_single c)).
Context (Hboth : forall l r, Pc l -> Pc r -> cand_source r = Remote -> Pop (plan_conflict_or_resolution l r)).

Lemma plan_all p cands : Forall Pc cands ->
  Forall Pop (plan_with_overflow p cands).1 /\ Forall Pc (plan_with_overflow p cands).2.
Proof.
  rewrite plan_with_overflow_eq, !Forall_forall. intros Hc. cbn. split; intros x.
  - intros (q & _ & Hq)%list_elem_of_omap. unfold decision, plan_pair in Hq.
    destruct (latest Local q cands) as [l|] eqn:El, (latest Remote q cands) as [r|] eqn:Er; simplify_eq;
      repeat match goal with H : latest _ _ _ = Some _ |- _ => apply latest_spec in H as (? & _ & ?) end; auto.
  - intros [_ Hx]%list_elem_of_filter. rewrite elem_of_sort_by in Hx. auto.
Qed.

Lemma ingest_filtered_all cands policy e : Forall Pc cands -> engine_all e ->
  engine_all (ingest_candidates_filtered cands policy e).2.
Proof.
  intros Hc [Hq Hd Hu Ho]. unfold ingest_candidates_filtered, plan_filtered_with_overflow.
  set (combined := merge_with_overflow cands e).
  assert (Forall Pc combined) as Hm. { unfold combined, merge_with_overflow. destruct (planner_overflow e); [done|by apply Forall_app]. }
  destruct (plan_all (planner e) combined Hm) as [H1 H2]. destruct (plan_with_overflow _ _) as [ops overflow]. cbn in *.
  assert (Forall Pop (filter (λ op, suppresses policy op = false) ops)) as H3.
  { apply Forall_forall. intros op [_ Hop]%list_elem_of_filter. by eapply Forall_forall in H1. }
  split; cbn; [| |done|].
  - unfold replace_planned. destruct (single_sync_id combined); cbn; apply Forall_forall; intros op Hop; rewrite elem_of_sort_by in Hop.
    + apply elem_of_app in Hop as [[_ Hop]%list_elem_of_filter|Hop]; by eapply Forall_forall in Hop.
    + by eapply Forall_forall in Hop.
  - unfold replace_planned. by destruct (single_sync_id combined).
  - unfold cap_overflow. case_decide; [|done]. by apply Forall_take.
Qed.

Lemma advance_all e batch e' : advance_transfer_cycle e = Some (batch, e') -> engine_all e -> engine_all e'.
Proof.
  intros E [Hq Hd Hu Ho]. destruct (advance_eq e) as (e2 & E2 & Hs & Hup & _ & Hov & _). rewrite E in E2. simplify_eq.
  assert (Forall Pop ((fair_batch (scheduler e)).1 ++ (fair_batch (scheduler e)).2)) as Hall.
  { unfold fair_batch. by rewrite fair_split_perm. }
  apply Forall_app in Hall as [H1 H2]. split.
  - by rewrite Hs.
  - rewrite Hs. by apply Forall_app.
  - rewrite Hup. change (up_accept_batch ?b ?c) with (accept_batch b c). rewrite accept_active.
    apply Forall_fmap, Forall_filtered. exact H1.
  - by rewrite Hov.
Qed.

Lemma finishes_all {path state error before after dst dst'} :
  finishes path state error before after dst dst' -> Forall (λ t, Pop (task_operation t)) before ->
  Forall (λ t, Pop (task_operation t)) after.
Proof. intros (t & _ & Hp & _) Hall. rewrite Hp in Hall. by apply Forall_cons in Hall as [_ ?]. Qed.

Lemma completed_all path e : engine_all e -> engine_all (mark_transfer_completed path e).2.
Proof.
  intros [Hq Hd Hu Ho]. pose proof (mark_completed_scheduler path e) as Hs. pose proof (mark_completed_rest path e) as [Hr _].
  split; rewrite ?Hs, ?Hr; try done. unfold mark_transfer_completed.
  pose proof (mark_completed_spec path (uploads e)) as Hm. cbn [mark_completed UploadCoordinator_coordinator] in Hm.
  destruct (up_mark_completed path (uploads e)) as [[] u].
  - cbn. destruct Hm as [Hm _]. by eapply finishes_all.
  - destruct Hm as [-> _]. by destruct (down_mark_completed path (downloads e)).
Qed.

Lemma failed_all path error e : engine_all e -> engine_all (mark_transfer_failed path error e).2.
Proof.
  intros [Hq Hd Hu Ho]. pose proof (mark_failed_scheduler path error e) as Hs. pose proof (mark_failed_rest path error e) as [Hr _].
  split; rewrite ?Hs, ?Hr; try done. unfold mark_transfer_failed.
  pose proof (mark_failed_spec path error (uploads e)) as Hm. cbn [mark_failed UploadCoordinator_coordinator] in Hm.
  destruct (up_mark_failed path error (uploads e)) as [[] u].
  - cbn. destruct Hm as [Hm _]. by eapply finishes_all.
  - destruct Hm as [-> _]. by destruct (down_mark_failed path error (downloads e)).
Qed.

Lemma ack_all sid path e : engine_all e -> engine_all (ack_dispatched_path sid path e).
Proof.
  intros [Hq Hd Hu Ho]. split; try done; cbn; unfold ack_batch.
  - by destruct (dispatched_operations (scheduler e)).
  - destruct (dispatched_operations (scheduler e)) as [|op ops] eqn:E; [by rewrite E|].
    exact (Forall_filtered Pop (λ op, ¬ (op_sync_id op = sid ∧ op_path op = path)) (op :: ops) Hd).
Qed.

Lemma evict_work_all sid e : engine_all e -> engine_all (evict_work sid e).
Proof.
  intros [Hq Hd Hu Ho]. split; try done; cbn; try by apply Forall_filtered.
  change (Forall (λ t, Pop (task_operation t)) (active_tasks (coord_evict sid (uploads e)))).
  rewrite evict_active. by apply Forall_filtered.
Qed.

Lemma evict_root_all sid e : engine_all e -> engine_all (evict_sync_root sid e).
Proof. intros He%(evict_work_all sid). destruct He. unfold evict_sync_root. case_decide; by split. Qed.

Lemma restart_all paused overflow queue : Forall Pc overflow -> Forall Pop queue ->
  engine_all (engine_restart paused overflow queue).
Proof.
  intros Ho Hq. assert (engine_all (foldl (λ e sid, (pause_sync_root sid e).2) EngineShell_new paused)) as He.
  { assert (engine_all EngineShell_new) as H0 by (split; constructor). revert H0. generalize EngineShell_new.
    induction paused as [|sid paused IH]; intros e He; cbn; [done|]. apply IH. unfold pause_sync_root. case_decide; [done|].
    cbn. apply evict_work_all. by destruct He. }
  destruct He as [H1 H2 H3 H4]. split.
  - rewrite restart_scheduler. cbn [replace_queue with_queued queued_operations]. by rewrite sort_by_perm.
  - by rewrite restart_scheduler.
  - unfold engine_restart. by destruct overflow, queue.
  - unfold engine_restart. by destruct overflow, queue.
Qed.

Lemma snapshot_all e : engine_all e -> Forall Pop (snapshot_scheduler_durable e).
Proof.
  intros [Hq Hd _ _]. apply Forall_forall. intros op Hop%snapshot_elem.
  apply elem_of_app in Hop as [Hop|Hop]; by eapply Forall_forall in Hop.
Qed.
End EngineAll.

(** * The bytes of an upload *)

Definition maintains {W} (P : W -> Prop) : relation W := λ a b, P a -> P b.

#[export] Instance maintains_preorder {W} (P : W -> Prop) : PreOrder (maintains P).
Proof. split; unfold maintains; [by intros x|intros x y z; auto]. Qed.

Lemma respects_weaken {W E A} (R R' : relation W) (m : ST W E A) :
  (forall w w', R w w' -> R' w w') -> respects R m -> respects R' m.
Proof. intros Hr Hm w. apply Hr, Hm. Qed.

Lemma respects_gets_eq {W E A B} (R : relation W) (f : W -> A) (k : A -> ST W E B) :
  (forall w, R w (k (f w) w).2) -> respects R (bind (gets f) k).
Proof. done. Qed.

(** An invariant through a call whose result is used. *)
Lemma maintains_wp {W E A} (P : W -> Prop) (m : ST W E A) (Q : result A E -> W -> Prop) w :
  respects (maintains P) m -> P w -> (forall r w', P w' -> Q r w') -> wp m Q w.
Proof. intros Hm Hw HQ. rewrite wp_run. by apply HQ, Hm. Qed.

Section Runs.
Context {M X Link Session TE : Type} `{!LinkedHashMap M, !Database X, !RowOrder, !ProtocolTransport X TE}
  `{!TransferServices X Link Session, !LocalDisk X, !Watching X, !WallClock X, !Sha256}.

Abbreviation RT := (RealSyncLoopRuntime M X).
Abbreviation Method := (ST RT string).

(** What a call that is not a transfer leaves alone. *)
Definition same_shells (r r' : RT) : Prop := rt_shells r' = rt_shells r /\ rt_ghost r' = rt_ghost r.

#[export] Instance same_shells_preorder : PreOrder same_shells.
Proof. split; [by intros r|]. intros r1 r2 r3 [? ?] [? ?]. split; congruence. Qed.

Lemma shells_on_world {A} (m : ST X string A) : respects same_shells (on_world (M:=M) m).
Proof. intros r. unfold on_world, zoom. by destruct (m _). Qed.

Lemma shells_modify f : (forall r : RT, same_shells r (f r)) -> respects (E:=string) same_shells (modify f).
Proof. apply respects_modify. Qed.

Ltac by_shells := intros ?; split; repeat case_match; reflexivity.

Lemma shells_on_engine f : respects same_shells (on_engine (M:=M) (X:=X) f).
Proof. apply respects_modify; by_shells. Qed.

Lemma shells_on_stall f : respects same_shells (on_stall (M:=M) (X:=X) f).
Proof. unfold on_stall, now. respects_auto; [apply shells_on_world|apply respects_modify; by_shells]. Qed.

Lemma shells_logged {A} (m : ST X string A) : respects same_shells (logged (M:=M) m).
Proof. unfold logged. respects_auto. apply shells_on_world. Qed.

Lemma shells_ingest f : respects same_shells (ingest (M:=M) (X:=X) f).
Proof. intros r. unfold ingest. destruct (f _) as [[] |]; by split. Qed.

Lemma shells_complete path : respects same_shells (complete_transfer (M:=M) (X:=X) path).
Proof. intros r. unfold complete_transfer. by destruct (mark_transfer_completed _ _). Qed.

Lemma shells_fail op path f what : respects same_shells (fail_transfer (M:=M) (X:=X) op path f what).
Proof. apply respects_modify; by_shells. Qed.

Lemma shells_advance : respects same_shells (λ r : RT,
  match advance_transfer_cycle (rt_engine r) with
  | Some (batch, e) => (Ok (E:=string) batch, with_engine e r)
  | None => (Ok [], r)
  end).
Proof. intros r. by repeat case_match. Qed.

#[local] Hint Resolve shells_on_world shells_on_engine shells_on_stall shells_logged shells_ingest shells_complete
  shells_fail shells_advance : respects.
#[local] Hint Extern 5 (respects same_shells (modify _)) => apply respects_modify; by_shells : respects.
#[local] Hint Unfold now persist_planner_overflow persist_scheduler_queue : respects.

Lemma shells_now : respects same_shells (now (M:=M) (X:=X)).
Proof. apply shells_on_world. Qed.
#[local] Hint Resolve shells_now : respects.

Lemma shells_persist_overflow : respects same_shells (persist_planner_overflow (M:=M) (X:=X)).
Proof. unfold persist_planner_overflow. respects_auto. Qed.
Lemma shells_persist_queue : respects same_shells (persist_scheduler_queue (M:=M) (X:=X)).
Proof. unfold persist_scheduler_queue. respects_auto. Qed.
#[local] Hint Resolve shells_persist_overflow shells_persist_queue : respects.

Lemma shells_poll root token : respects same_shells (rt_poll_remote_diff (M:=M) root token).
Proof. unfold rt_poll_remote_diff. respects_auto. Qed.

Lemma shells_remove_watcher id : respects same_shells (remove_watcher (M:=M) (X:=X) id).
Proof. apply respects_modify; by_shells. Qed.
#[local] Hint Resolve shells_remove_watcher : respects.

Lemma shells_remove_watchers ids : respects same_shells (remove_watchers (M:=M) (X:=X) ids).
Proof. induction ids as [|id ids IH]; cbn [remove_watchers]; respects_auto; try apply IH. Qed.
#[local] Hint Resolve shells_remove_watchers : respects.

Lemma shells_scan root : respects same_shells (rt_run_local_scan (M:=M) root).
Proof. unfold rt_run_local_scan, ensure_watcher, drain_watcher_events, ingest_scan. respects_auto. Qed.

Lemma shells_rt_advance : respects same_shells (rt_advance_transfers (M:=M) (X:=X)).
Proof. unfold rt_advance_transfers. respects_auto. Qed.

Lemma shells_evict id : respects same_shells (rt_evict_removed_root (M:=M) (X:=X) id).
Proof. unfold rt_evict_removed_root, drain_engine_watcher_evictions. respects_auto. Qed.

Lemma shells_audit c : respects same_shells (rt_emit_cycle_audit (M:=M) (X:=X) c).
Proof. unfold rt_emit_cycle_audit. respects_auto. Qed.

(** Staging only drops what was there. *)
Lemma evict_staged_sub max order : forall fs, (evict_staged max order fs).2 ⊆ fs.
Proof.
  induction order as [|p order IH]; intros fs; cbn; case_decide; try done.
  etrans; [apply IH|apply delete_subseteq].
Qed.

Lemma stage_get path bytes s p b : staged_get (stage path bytes s) p = Some b ->
  (p, b) = (path, bytes) \/ staged_get s p = Some b.
Proof.
  unfold stage, staged_get. set (order := if decide _ then _ else _).
  pose proof (evict_staged_sub (max_open_files s) (order ++ [path]) (<[path := bytes]> (files s))) as Hsub.
  destruct (evict_staged _ _ _) as [o f]. cbn in *. intros Hp. eapply lookup_weaken in Hp; [|exact Hsub].
  apply lookup_insert_Some in Hp as [[-> ->]|[_ Hp]]; auto.
Qed.

(** Whatever is staged was downloaded, and so was whatever was sent. *)
Record resends (r : RT) : Prop := {
  re_staging p b : staged_get (sh_staging (rt_shells r)) p = Some b -> (p, b) ∈ g_downloaded (rt_ghost r);
  re_filesystem p b : staged_bytes (sh_filesystem (rt_shells r)) p = Some b -> (p, b) ∈ g_downloaded (rt_ghost r);
  re_sent u : u ∈ g_uploaded (rt_ghost r) -> (uc_path u, uc_bytes u) ∈ g_downloaded (rt_ghost r);
}.

Lemma resends_same r r' : same_shells r r' -> resends r -> resends r'.
Proof. intros [Hs Hg] [H1 H2 H3]. by split; rewrite ?Hs, ?Hg. Qed.

Lemma shells_resends {A} (m : Method A) : respects same_shells m -> respects (maintains resends) m.
Proof. apply respects_weaken. intros r r' Hs Hr. by eapply resends_same. Qed.

Lemma payload_downloaded r path b : resends r -> upload_payload path (rt_shells r) = Some b -> (path, b) ∈ g_downloaded (rt_ghost r).
Proof. intros [H1 H2 _]. unfold upload_payload. destruct (staged_bytes _ _) eqn:E; intros; simplify_eq; auto. Qed.

Lemma mirror_resends path bytes : respects (maintains resends) (mirror (M:=M) (X:=X) path bytes).
Proof.
  apply respects_modify. intros r [H1 H2 H3]. split; cbn.
  - intros p b [->|Hp]%stage_get; apply elem_of_app; [right; by left|left; auto].
  - intros p b [->|Hp]%stage_get; apply elem_of_app; [right; by left|left; by apply H2].
  - intros u Hu. apply elem_of_app. left. auto.
Qed.

#[local] Hint Resolve mirror_resends : respects.
#[local] Hint Extern 4 (respects (maintains resends) _) =>
  apply shells_resends; first
    [ apply shells_on_world | apply shells_on_engine | apply shells_on_stall | apply shells_logged | apply shells_complete
    | apply shells_fail ] : respects.

Lemma download_resends token task n : respects (maintains resends) (download_one (M:=M) token task n).
Proof. unfold download_one, ack. respects_auto. Qed.

Lemma for_tasks_respects (R : relation RT) `{!PreOrder R} body tasks :
  Forall (λ task, forall n, respects R (body task n)) tasks -> forall n, respects R (for_tasks (M:=M) (X:=X) body tasks n).
Proof. induction 1 as [|task tasks Hbody _ IH]; intros n; cbn [for_tasks]; respects_auto. Qed.

Lemma record_upload_resends parent path bytes r : resends r -> (path, bytes) ∈ g_downloaded (rt_ghost r) ->
  resends (record_upload (M:=M) parent path bytes r).2.
Proof.
  intros [H1 H2 H3] Hin. split; cbn; try done.
  intros u [Hu| ->%list_elem_of_singleton]%elem_of_app; [auto|done].
Qed.

Lemma upload_resends token task n : respects (maintains resends) (upload_one (M:=M) token task n).
Proof.
  unfold upload_one, ack. destruct (task_operation task) as [sid path parent name| | | | | |]; try by respects_auto.
  apply respects_bind; [apply _|respects_auto|intros []]. destruct (resolve_upload_parent _ _) as [folder|f]; [|respects_auto].
  apply respects_bind; [apply _|respects_auto|intros [payload|]]; [|respects_auto].
  apply respects_bind; [apply _|respects_auto|intros [session|e]]; [|respects_auto].
  apply respects_gets_eq. intros r Hr. destruct (upload_payload path (rt_shells r)) as [bytes|] eqn:E.
  - assert (respects (maintains resends) (let! sent := attempt (on_world (M:=M) (upload_bytes token session bytes)) in
      match sent with
      | Ok _ => let! found := complete_transfer path in
                if found : bool then do! on_engine (ack_dispatched_path sid path) in do! on_stall Stall.mark_progress in ok (n + 1) else ok n
      | Err e => do! fail_transfer (UploadFile sid path parent name) path RetryableNetworkError e in ok n
      end)) as Hrest by respects_auto.
    exact (Hrest _ (record_upload_resends folder path bytes r Hr (payload_downloaded r path bytes Hr E))).
  - assert (respects (maintains resends) (do! fail_transfer (M:=M) (X:=X) (UploadFile sid path parent name) path
      ConflictResolver.InvalidPath "staged upload payload evicted mid-upload" in ok n)) as Hfail by respects_auto.
    exact (Hfail r Hr).
Qed.

Lemma list_roots_respects (R : relation RT) `{!PreOrder R} : (forall A (m : ST X string A), respects R (on_world (M:=M) m)) ->
  respects R (rt_list_sync_roots (M:=M) (X:=X)).
Proof. intros Hw. unfold rt_list_sync_roots. respects_auto. Qed.

(** The calls of the trait are the methods. *)
Lemma runtime_preserves (P : RT -> Prop) :
  respects (maintains P) (rt_list_sync_roots (M:=M) (X:=X)) ->
  (forall root token, respects (maintains P) (rt_poll_remote_diff (M:=M) root token)) ->
  (forall root, respects (maintains P) (rt_run_local_scan (M:=M) root)) ->
  respects (maintains P) (rt_advance_transfers (M:=M) (X:=X)) ->
  (forall token task n, respects (maintains P) (download_one (M:=M) token task n)) ->
  (forall token r, P r -> Forall (λ task, forall n, respects (maintains P) (upload_one (M:=M) token task n))
                       (active_uploads (uploads (rt_engine r)))) ->
  (forall id, respects (maintains P) (rt_evict_removed_root (M:=M) (X:=X) id)) ->
  (forall c, respects (maintains P) (rt_emit_cycle_audit (M:=M) (X:=X) c)) ->
  Preserves P.
Proof.
  intros Hlist Hpoll Hscan Hadv Hdown Hup Hev Haud. split; cbn.
  - done.
  - intros r Hr. specialize (Hlist r Hr). by destruct (rt_list_sync_roots r).
  - intros root token r. apply Hpoll.
  - intros root r. apply Hscan.
  - intros r Hr. specialize (Hadv r Hr). by destruct (rt_advance_transfers r).
  - intros token r. assert (respects (maintains P) (rt_execute_downloads (M:=M) token)) as Hm; [|apply Hm].
    apply respects_gets_eq. intros w. apply for_tasks_respects; [apply _|]. apply Forall_true. auto.
  - intros token r. assert (respects (maintains P) (rt_execute_uploads (M:=M) token)) as Hm; [|apply Hm].
    apply respects_gets_eq. intros w Hw. exact (for_tasks_respects (maintains P) _ _ (Hup token w Hw) 0 w Hw).
  - intros id r. apply Hev.
  - intros _ c r. apply Haud.
Qed.

#[export] Instance resends_preserved : Preserves resends.
Proof.
  apply runtime_preserves; intros; [| | | |apply download_resends|apply Forall_true; intros; apply upload_resends| |].
  all: apply shells_resends.
  - apply list_roots_respects; [apply _|intros; apply shells_on_world].
  - apply shells_poll.
  - apply shells_scan.
  - apply shells_rt_advance.
  - apply shells_evict.
  - apply shells_audit.
Qed.

(** * Runs of the daemon *)

Definition daemon_ghost (d : SyncDaemon (M:=M) (X:=X)) : Ghost :=
  match d with Down _ g => g | Up th _ => rt_ghost (lt_runtime th) end.
Definition daemon_world (d : SyncDaemon (M:=M) (X:=X)) : X :=
  match d with Down x _ => x | Up th _ => rt_world (lt_runtime th) end.

Section Invariant.
Context (P : RT -> Prop) `{!Preserves P} (Pd : X -> Ghost -> Prop).
Context (Hcrash : forall r, P r -> Pd (rt_world r) (rt_ghost r)).
Context (Hroots_up : forall roots r, P r -> P (with_world (statement (write_tables (with_roots roots)) (rt_world r)).2 r)).
Context (Hroots_down : forall roots x g, Pd x g -> Pd (statement (write_tables (with_roots roots)) x).2 g).
Context (Hnew : forall token config dir g x, Pd x g ->
  match RealSyncLoopRuntime_new (M:=M) token config dir g x with
  | (Ok r, x') => P r /\ Pd x' g
  | (Err _, x') => Pd x' g
  end).

Definition daemon_all (d : SyncDaemon (M:=M) (X:=X)) : Prop :=
  match d with Down x g => Pd x g | Up th _ => P (lt_runtime th) end.

Lemma daemon_turn_all t d : daemon_all d -> daemon_all (daemon_turn t d).
Proof.
  destruct t as [x|roots| |token config dir], d as [w g|th s]; cbn; try done; auto.
  - intros Hr. pose proof (turn_preserves (rt_config (lt_runtime th)) P x (th, s) Hr) as H1. by destruct (turn _ _ _).
  - intros Hd. specialize (Hnew token config dir g w Hd). unfold spawn_daemon_sync_loop.
    destruct (RealSyncLoopRuntime_new _ _ _ _ _) as [[r|e] w']; [|done]. destruct Hnew as [Hr Hw].
    unfold spawn_sync_loop. destruct (loop_enabled config); [|done]. cbn. by apply (loop_start_preserves P).
Qed.

Lemma daemon_run_all ts : forall d, daemon_all d -> daemon_all (daemon_run ts d).
Proof. induction ts as [|t ts IH]; intros d Hd; [done|]. by apply IH, daemon_turn_all. Qed.
End Invariant.

Definition resends_ghost (g : Ghost) : Prop :=
  forall u, u ∈ g_uploaded g -> (uc_path u, uc_bytes u) ∈ g_downloaded g.

(** C5: Over any life of the daemon (any interleaving of the sync loop with the calls of the IPC
    thread, any failures of the network, the disk and the database, any crashes and restarts),
    every upload the loop starts sends bytes that it downloaded itself for the same path: a file
    that was changed or created locally is never uploaded. *)
Theorem uploads_resend_downloads ts x u :
  u ∈ g_uploaded (daemon_ghost (daemon_run ts (Down x (mkGhost [] [])))) ->
  (uc_path u, uc_bytes u) ∈ g_downloaded (daemon_ghost (daemon_run ts (Down x (mkGhost [] [])))).
Proof.
  pose proof (daemon_run_all resends (λ _, resends_ghost)) as Hrun.
  assert (daemon_all resends (λ _, resends_ghost) (daemon_run ts (Down x (mkGhost [] [])))) as H1.
  { apply Hrun; clear.
    - by intros r [].
    - intros roots r. by apply resends_same.
    - done.
    - intros token config dir g x Hg. unfold RealSyncLoopRuntime_new. destruct (restored_engine x) as [[e|e] x1]; [|done].
      destruct (read_instant x1) as [t x2]. split; [|done]. split; cbn; [intros p b Hp..|done]; done.
    - intros u Hu. by apply not_elem_of_nil in Hu. }
  clear Hrun. destruct (daemon_run _ _) as [w g|th s]; cbn in *; [apply H1|apply H1].
Qed.
End Runs.

Lemma uploads_resend_downloads_witness :
  let g := daemon_ghost (daemon_run (M:=alist) test_life (Down test_world (mkGhost [] []))) in
  mkUploadCall 0 "a.txt" remote_content ∈ g_uploaded g /\ ("a.txt", remote_content) ∈ g_downloaded g.
Proof.
  assert (mkUploadCall 0 "a.txt" remote_content ∈
    g_uploaded (daemon_ghost (daemon_run (M:=alist) test_life (Down test_world (mkGhost [] []))))) as Hu by (vm_compute; left).
  split; [exact Hu|]. exact (uploads_resend_downloads test_life test_world (mkUploadCall 0 "a.txt" remote_content) Hu).
Defined.

(** * Nobody fills the metadata table *)

Section Empty.
Context {D : Type} `{!Database D, !DatabaseLaws D, !RowOrder, !RowOrderLaws}.

Lemma rows_empty : rows ∅ = [].
Proof. apply Permutation_nil_r. by rewrite rows_perm, map_to_list_empty. Qed.

Lemma get_empty parent name : get_by_parent_and_name parent name ∅ = None.
Proof. unfold get_by_parent_and_name. by rewrite rows_empty. Qed.

Definition unresolved (o : option RemoteFolderId) : Prop := o = None \/ o = Some 0%N.

(** The outcomes of a query over the empty table. *)
Definition finds_nothing {A} (d : D) (r : result (option A) string) (d' : D) : Prop :=
  tables d' = tables d /\ match r with Ok o => o = None | Err _ => True end.

Lemma resolve_path_empty path d : t_metadata (tables d) = ∅ -> wp (resolve_path path) (finds_nothing d) d.
Proof.
  intros He. unfold resolve_path. destruct (nonempty_segments path) as [|segment rest]; cbn [resolve_segments].
  - apply wp_read; [|by split]. intros d' Hd. split; [done|]. unfold get_by_id. by rewrite He.
  - wp_step. apply wp_read_with; [|by split]. intros d' Hd. rewrite He, get_empty. by apply wp_ok.
Qed.

Lemma resolve_root_empty path d : t_metadata (tables d) = ∅ ->
  wp (resolve_sync_root_remote_folder_id path)
    (λ r d', tables d' = tables d /\ match r with Ok o => unresolved o | Err _ => True end) d.
Proof.
  intros He. unfold resolve_sync_root_remote_folder_id. case_decide; [by apply wp_ok; split; [|right]|].
  wp_step. wp_call resolve_path_empty; [done|]. intros [o|e] d' [Hd Ho]; [|done]. subst o. apply wp_ok. by split; [|left].
Qed.

Lemma child_parent_same parent leaf (d : D) :
  wp (child_parent parent leaf)
    (λ r d', tables d' = tables d /\ (t_metadata (tables d) = ∅ -> match r with Ok o => o = None | Err _ => True end)) d.
Proof.
  unfold child_parent. destruct parent as [id|]; [|by apply wp_ok]. wp_step.
  apply wp_read_with; [|by split]. intros d' Hd. wp_step. split; [done|]. intros He. by rewrite He, get_empty.
Qed.

(** [walk_node] on a directory walks its children. *)
Lemma walk_node_dir sid prefix parent name inode readable children acc (d : D) :
  walk_node sid prefix parent name (NDir inode readable children) acc d =
  (let raw := match prefix with [] => name | _ => prefix ++ slash :: name end in
  let acc := (acc.1 ++ [{| scan_sync_id := sid; scan_path := str (replace_backslashes (from_utf8_lossy raw));
                           scan_entry_kind := Folder; scan_deleted := false; scan_remote_parent_folder_id := parent |}], acc.2) in
  if decide (inode ∈ acc.2) then ok acc
  else
    let! own := child_parent parent name in
    if readable then walk_children sid raw own children (acc.1, {[inode]} ∪ acc.2) else throw "failed to read") d.
Proof.
  cbn [walk_node]. cbv zeta. case_decide; [done|]. unfold bind at 1 3. destruct (child_parent parent name d) as [[own|e] d1]; [|done].
  destruct readable; [|done].
  generalize (match prefix with [] => name | _ => prefix ++ slash :: name end). intros raw.
  match goal with |- _ ?a d1 = _ => generalize a end. clear. intros acc. revert acc d1.
  induction children as [|[n c] children IH]; intros acc d1; cbn [walk_children]; [done|].
  unfold bind. destruct (walk_node _ _ _ _ _ _ d1) as [[acc'|e] d2]; [apply IH|done].
Qed.

(** What holds of every entry of a walk, given what holds of every parent on the way. *)
Section Entries.
Context (sid : SyncId) (T : Tables -> Prop) (Pp : option RemoteFolderId -> Prop) (Pe : LocalScanEntry -> Prop).
Context (Hchild : forall parent leaf (d : D), T (tables d) -> Pp parent ->
  wp (child_parent parent leaf) (λ r d', tables d' = tables d /\ match r with Ok o => Pp o | Err _ => True end) d).
Context (Hentry : forall path kind parent, Pp parent -> Pe (mkLocalScanEntry sid path kind false parent)).

(** The outcomes of a walk. *)
Definition walked (d : D) (r : result (list LocalScanEntry * gset N) string) (d' : D) : Prop :=
  tables d' = tables d /\ match r with Ok acc => Forall Pe acc.1 | Err _ => True end.

Lemma walk_children_all (children : list (list byte * Node)) :
  Forall (λ c, forall prefix parent name acc d, T (tables d) -> Pp parent ->
            Forall Pe acc.1 -> wp (walk_node sid prefix parent name c.2 acc) (walked d) d) children ->
  forall prefix parent acc d, T (tables d) -> Pp parent -> Forall Pe acc.1 ->
    wp (walk_children sid prefix parent children acc) (walked d) d.
Proof.
  induction 1 as [|[name c] children Hc _ IH]; intros prefix parent acc d He Hp Ha; cbn [walk_children]; [by apply wp_ok|].
  wp_step. wp_call Hc; [done..|]. intros [acc'|e] d' [Hd Hacc]; [|done].
  wp_call IH; [by rewrite Hd|done|done|]. intros r d2 [Hd2 Hr]. split; [congruence|done].
Qed.

Fixpoint walk_node_all (node : Node) :
  forall prefix parent name acc (d : D), T (tables d) -> Pp parent -> Forall Pe acc.1 ->
    wp (walk_node sid prefix parent name node acc) (walked d) d.
Proof.
  intros prefix parent name acc d He Hp Ha. destruct node as [| | |inode readable children].
  1: { apply wp_ok. split; [done|]. apply Forall_app. split; [done|]. apply Forall_singleton. by apply Hentry. }
  1: by apply wp_ok.
  1: by apply wp_throw.
  rewrite wp_run, walk_node_dir, <- (wp_run _ (walked d)). cbv zeta.
  set (raw := match prefix with [] => name | _ => prefix ++ slash :: name end). cbn [fst snd].
  match goal with |- context [ok (?l, _)] => set (pushed := l) end.
  assert (Forall Pe pushed) as Hpushed.
  { apply Forall_app. split; [done|]. apply Forall_singleton. by apply Hentry. }
  case_decide; [by apply wp_ok|]. wp_step. wp_call Hchild; [done..|]. intros [own|e] d1 [Hd1 Hown]; [|done].
  destruct readable; [|by apply wp_throw].
  eapply wp_mono; [apply walk_children_all|].
  - induction children as [|[n c] children IH]; constructor; [|apply IH]. intros. by apply walk_node_all.
  - by rewrite Hd1.
  - done.
  - done.
  - intros r d2 [Hd2 Hr]. split; [congruence|done].
Qed.

Lemma walk_tree_all root tree (d : D) : root_sync_id root = sid -> T (tables d) ->
  (forall d, T (tables d) -> wp (resolve_sync_root_remote_folder_id (root_remote_path root))
     (λ r d', tables d' = tables d /\ match r with Ok o => Pp o | Err _ => True end) d) ->
  wp (walk_local_tree root tree) (λ r d', tables d' = tables d /\ match r with Ok entries => Forall Pe entries | Err _ => True end) d.
Proof.
  intros Hid He Hroot. unfold walk_local_tree. rewrite Hid. destruct tree as [| | |inode readable children]; try by apply wp_throw.
  wp_step. wp_call Hroot; [done|]. intros [folder|e] d1 [Hd1 Hf]; [|done]. destruct readable; [|by apply wp_throw].
  wp_step. eapply wp_mono; [apply walk_children_all|].
  - apply Forall_forall. intros c _ prefix parent name acc d2. apply walk_node_all.
  - by rewrite Hd1.
  - done.
  - constructor.
  - intros [acc|e] d2 [Hd2 Hr]; (split; [congruence|done]).
Qed.
End Entries.

Definition entry_unresolved (e : LocalScanEntry) : Prop := unresolved (scan_remote_parent_folder_id e).

Lemma walk_local_tree_empty root tree (d : D) : t_metadata (tables d) = ∅ ->
  wp (walk_local_tree root tree)
    (λ r d', tables d' = tables d /\ match r with Ok entries => Forall entry_unresolved entries | Err _ => True end) d.
Proof.
  intros He. apply (walk_tree_all (root_sync_id root) (λ t, t_metadata t = ∅) unresolved entry_unresolved); try done.
  - intros parent leaf d0 Hd0 _. wp_call child_parent_same. intros r d1 [Hd1 Hr]. split; [done|]. specialize (Hr Hd0).
    destruct r; [subst; by left|done].
  - intros d0 Hd0. by apply resolve_root_empty.
Qed.

(** ** The entries of a walk are of its root *)

Definition entry_of (sid : SyncId) (e : LocalScanEntry) : Prop := scan_sync_id e = sid.

Lemma resolve_segments_same segments : forall id (d : D), wp (resolve_segments id segments) (λ _ d', tables d' = tables d) d.
Proof.
  induction segments as [|segment rest IH]; intros id d; cbn [resolve_segments]; [by apply wp_ok|]. wp_step.
  apply wp_read_with; [|done]. intros d1 Hd1. destruct (get_by_parent_and_name _ _ _) as [record|]; [|by wp_step].
  destruct rest; [by wp_step|]. destruct (fm_is_folder record); [|by wp_step]. wp_call IH. by intros r d2 ->.
Qed.

Lemma resolve_root_same path (d : D) : wp (resolve_sync_root_remote_folder_id path) (λ _ d', tables d' = tables d) d.
Proof.
  unfold resolve_sync_root_remote_folder_id, resolve_path. case_decide; [by apply wp_ok|]. wp_step.
  destruct (nonempty_segments _) as [|segment rest] eqn:E.
  - apply wp_read; [|done]. intros d1 Hd1. by wp_step.
  - wp_call resolve_segments_same. intros [r|e] d1 Hd1; [|done]. by wp_step.
Qed.

Lemma walk_local_tree_of root tree (d : D) :
  wp (walk_local_tree root tree)
    (λ r d', tables d' = tables d /\ match r with Ok entries => Forall (entry_of (root_sync_id root)) entries | Err _ => True end) d.
Proof.
  apply (walk_tree_all (root_sync_id root) (λ _, True) (λ _, True)); try done.
  - intros parent leaf d0 _ _. wp_call child_parent_same. intros r d1 [Hd1 _]. split; [done|]. by destruct r.
  - intros d0 _. wp_call resolve_root_same. intros r d1 Hd1. split; [done|]. by destruct r.
Qed.
End Empty.

(** * The folder of an upload *)

(** The invariant: the metadata table is empty, so that no operation and no candidate, in the
    engine or stored, knows a folder of the server but the root. *)
Definition op_unresolved (op : PlannedOperation) : Prop :=
  match op with UploadFile _ _ parent _ => unresolved parent | _ => True end.
Definition cand_unresolved (c : SyncCandidate) : Prop := cand_source c = Local -> unresolved (cand_remote_folder_id c).

Lemma single_unresolved c : cand_unresolved c -> op_unresolved (plan_single c).
Proof. unfold plan_single, cand_unresolved. destruct (cand_source c), (cand_entry_kind c), (cand_change_kind c); cbn; auto. Qed.
Lemma both_unresolved l r : cand_unresolved l -> cand_unresolved r -> cand_source r = Remote ->
  op_unresolved (plan_conflict_or_resolution l r).
Proof. intros _ _ _. unfold plan_conflict_or_resolution. by repeat case_match. Qed.

Record tables_unresolved (t : Tables) : Prop := {
  tu_metadata : t_metadata t = ∅;
  tu_overflow l : t_overflow t = Some (Some l) -> Forall cand_unresolved l;
  tu_queue l : t_queue t = Some (Some l) -> Forall op_unresolved l;
}.

Abbreviation engine_unresolved := (engine_all op_unresolved cand_unresolved).

Lemma entries_unresolved entries cands : Forall entry_unresolved entries -> normalize_entries entries = Ok cands ->
  Forall cand_unresolved cands.
Proof.
  intros He Hn%collect_results_ok. induction Hn as [|e c entries cands Hec _ IH]; [constructor|].
  apply Forall_cons in He as [He Hall]. constructor; [|auto].
  unfold scan_normalize_entry in Hec. destruct (validate_relative_path _); [|done]. cbn in Hec. simplify_eq. by intros _.
Qed.

Lemma batch_unresolved b cands : normalize_batch b = Ok cands -> Forall cand_unresolved cands.
Proof.
  intros Hn%collect_results_ok. induction Hn as [|e c entries cands Hec _ IH]; [constructor|]. constructor; [|done].
  unfold diff_normalize_entry in Hec. destruct (validate_relative_path _); [|done]. cbn in Hec. by simplify_eq.
Qed.

Section Unresolved.
Context {M X Link Session TE : Type} `{!LinkedHashMap M, !Database X, !RowOrder, !ProtocolTransport X TE}
  `{!TransferServices X Link Session, !LocalDisk X, !Watching X, !WallClock X, !Sha256}
  `{!DatabaseLaws X, !RowOrderLaws, !ServicesLaws X Link Session}.

Abbreviation RT := (RealSyncLoopRuntime M X).
Abbreviation Method := (ST RT string).

(** Sent to the root of the account. *)
Definition to_root (u : UploadCall) : Prop := uc_parent_folder_id u = 0%N.

Record unresolved_runtime (r : RT) : Prop := {
  ur_tables : tables_unresolved (tables (rt_world r));
  ur_engine : engine_unresolved (rt_engine r);
  ur_sent : Forall to_root (g_uploaded (rt_ghost r));
}.

Abbreviation Kept := (maintains unresolved_runtime).
Abbreviation KeptTables := (on_tables (maintains tables_unresolved)).

Lemma unresolved_on_world {A} (m : ST X string A) : respects KeptTables m -> respects Kept (on_world (M:=M) m).
Proof.
  intros Hm r [Ht He Hs]. specialize (Hm (rt_world r) Ht). unfold on_world, zoom. destruct (m _). by split.
Qed.

Lemma unresolved_service {A} (m : ST X string A) : (forall x, tables (m x).2 = tables x) -> respects Kept (on_world (M:=M) m).
Proof. intros Hm. apply unresolved_on_world, respects_same_tables; [apply _|done]. Qed.

Lemma unresolved_on_engine f : (forall e, engine_unresolved e -> engine_unresolved (f e)) -> respects Kept (on_engine (M:=M) (X:=X) f).
Proof. intros Hf. apply respects_modify. intros r [Ht He Hs]. split; cbn; auto. Qed.

Lemma unresolved_now : respects Kept (now (M:=M) (X:=X)).
Proof. apply unresolved_service. intros x. pose proof (apart_clock x). by destruct (read_instant x). Qed.

Lemma unresolved_modify (f : RT -> RT) :
  (forall r, rt_world (f r) = rt_world r /\ rt_engine (f r) = rt_engine r /\ rt_ghost (f r) = rt_ghost r) ->
  respects (E:=string) Kept (modify f).
Proof. intros Hf. apply respects_modify. intros r [Ht He Hs]. destruct (Hf r) as (E1 & E2 & E3). by split; rewrite ?E1, ?E2, ?E3. Qed.

Lemma unresolved_on_stall f : respects Kept (on_stall (M:=M) (X:=X) f).
Proof. unfold on_stall. respects_auto; [apply unresolved_now|by apply unresolved_modify]. Qed.

Lemma unresolved_logged {A} (m : ST X string A) : respects KeptTables m -> respects Kept (logged (M:=M) m).
Proof. intros Hm. unfold logged. respects_auto. by apply unresolved_on_world. Qed.

Lemma unresolved_persist_overflow : respects Kept (persist_planner_overflow (M:=M) (X:=X)).
Proof.
  apply respects_gets_eq. intros r [Ht He Hs].
  assert (respects KeptTables (statement (D:=X) (write_tables (with_stored_overflow
    match planner_overflow (rt_engine r) with [] => None | _ => Some (Some (planner_overflow (rt_engine r))) end)))) as Hm.
  { apply respects_statement; [apply _|]. intros t [Hmeta Hover Hqueue]. split; cbn; [done| |done].
    intros l Hl. destruct (planner_overflow (rt_engine r)) eqn:E; simplify_eq. rewrite <- E. apply He. }
  apply (unresolved_logged _ Hm). by split.
Qed.

Lemma unresolved_persist_queue : respects Kept (persist_scheduler_queue (M:=M) (X:=X)).
Proof.
  apply respects_gets_eq. intros r [Ht He Hs].
  assert (respects KeptTables (statement (D:=X) (write_tables (with_stored_queue
    match snapshot_scheduler_durable (rt_engine r) with [] => None | _ => Some (Some (snapshot_scheduler_durable (rt_engine r))) end)))) as Hm.
  { apply respects_statement; [apply _|]. intros t [Hmeta Hover Hqueue]. split; cbn; [done|done|].
    intros l Hl. destruct (snapshot_scheduler_durable (rt_engine r)) eqn:E; simplify_eq. rewrite <- E. by eapply snapshot_all. }
  apply (unresolved_logged _ Hm). by split.
Qed.

#[local] Hint Resolve unresolved_now unresolved_on_stall unresolved_persist_overflow unresolved_persist_queue : respects.
#[local] Hint Extern 5 (respects Kept (modify _)) => apply unresolved_modify; intros ?; repeat case_match; done : respects.

Lemma unresolved_remove_watcher id : respects Kept (remove_watcher (M:=M) (X:=X) id).
Proof. apply respects_modify. intros r [Ht He Hs]. split; cbn; [|done..]. case_decide; [by rewrite apart_drop|done]. Qed.
#[local] Hint Resolve unresolved_remove_watcher : respects.

Lemma unresolved_remove_watchers ids : respects Kept (remove_watchers (M:=M) (X:=X) ids).
Proof. induction ids as [|id ids IH]; cbn [remove_watchers]; respects_auto; try apply IH. Qed.
#[local] Hint Resolve unresolved_remove_watchers : respects.

Lemma unresolved_evict id : respects Kept (rt_evict_removed_root (M:=M) (X:=X) id).
Proof.
  unfold rt_evict_removed_root, drain_engine_watcher_evictions. respects_auto.
  - apply unresolved_on_engine. intros e. apply evict_root_all.
  - apply unresolved_on_engine. by intros e [].
Qed.

Lemma unresolved_fail op path f what : respects Kept (fail_transfer (M:=M) (X:=X) op path f what).
Proof. apply respects_modify. intros r [Ht He Hs]. split; cbn; [done| |done]. by apply failed_all. Qed.

Lemma unresolved_complete path : respects Kept (complete_transfer (M:=M) (X:=X) path).
Proof.
  intros r [Ht He Hs]. unfold complete_transfer. pose proof (completed_all op_unresolved cand_unresolved path _ He) as Hc.
  destruct (mark_transfer_completed _ _). by split.
Qed.

Lemma unresolved_ack sid path : respects Kept (ack (M:=M) (X:=X) sid path).
Proof. apply unresolved_on_engine. intros e. apply ack_all. Qed.
#[local] Hint Resolve unresolved_fail unresolved_complete unresolved_ack : respects.

Lemma unresolved_mirror path bytes : respects Kept (mirror (M:=M) (X:=X) path bytes).
Proof. apply respects_modify. by intros r []. Qed.
#[local] Hint Resolve unresolved_mirror : respects.
#[local] Hint Extern 5 (respects Kept (on_world _)) => apply unresolved_service; intros ?;
  first [ apply apart_link | apply apart_download | apply apart_create | apply apart_bytes | apply apart_read | apply apart_remove
        | apply apart_start ] : respects.

Lemma unresolved_download token task n : respects Kept (download_one (M:=M) token task n).
Proof.
  unfold download_one. respects_auto. apply unresolved_logged, respects_same_tables; [apply _|]. apply apart_remove.
Qed.

Lemma resolve_unresolved path parent folder : unresolved parent -> resolve_upload_parent path parent = Ok folder -> folder = 0%N.
Proof.
  unfold resolve_upload_parent. case_decide; [by intros _ [= <-]|]. by intros [->| ->]; intros; simplify_eq/=.
Qed.

Lemma unresolved_upload token task n : op_unresolved (task_operation task) -> respects Kept (upload_one (M:=M) token task n).
Proof.
  intros Hop. unfold upload_one. destruct (task_operation task) as [sid path parent name| | | | | |] eqn:E; try by respects_auto.
  destruct (resolve_upload_parent _ _) as [folder|f] eqn:Er; [|by respects_auto].
  apply (resolve_unresolved _ _ _ Hop) in Er as ->. respects_auto.
  apply respects_modify. intros r [Ht He Hs]. split; cbn; [done..|]. apply Forall_app. split; [done|]. by apply Forall_singleton.
Qed.

Lemma unresolved_advance : respects Kept (rt_advance_transfers (M:=M) (X:=X)).
Proof.
  unfold rt_advance_transfers. apply respects_bind; [apply _| |intros [|]; respects_auto].
  intros r [Ht He Hs]. destruct (advance_transfer_cycle _) as [[batch e]|] eqn:E; [|done]. split; cbn; [done| |done].
  by eapply advance_all.
Qed.

Lemma unresolved_ingest f : (forall e ops e', engine_unresolved e -> f e = Ok (ops, e') -> engine_unresolved e') ->
  respects Kept (ingest (M:=M) (X:=X) f).
Proof.
  intros Hf r [Ht He Hs]. unfold ingest. destruct (f _) as [[ops e]|] eqn:E; [|done]. split; cbn; [done| |done]. by eapply Hf.
Qed.

Lemma tables_diff token cursor limit (x : X) : tables (SyncRuntime_diff token cursor limit x).2 = tables x.
Proof.
  unfold SyncRuntime_diff, sync_diff, bind, lift, map_err, modify. destruct (encode _) as [q|]; [|done].
  pose proof (apart_execute q x) as Hq. destruct (execute q x) as [[v|e] x1]; cbn in *; [|done].
  destruct (as_hash v); cbn; [|done]. destruct (sync_expect_ok_result _); [|done]. destruct (get_array _ _); cbn; [|done].
  destruct (collect_results _ _); [|done]. destruct (or_else _ _); cbn; [|done].
  destruct (extract_api_server_hint _); cbn; [|done]. by rewrite apart_hint.
Qed.

Lemma unresolved_delete_entries entries : respects KeptTables (delete_entries (D:=X) entries).
Proof.
  induction entries as [|e entries IH]; cbn [delete_entries]; respects_auto; try apply IH.
  apply respects_statement; [apply _|]. intros t [Hmeta Hover Hqueue]. unfold write_with. destruct (to_sql _); [|done].
  split; cbn; [|done..]. rewrite Hmeta. apply delete_empty.
Qed.

Lemma unresolved_commit id cursor batch : respects KeptTables (commit_diff_batch (D:=X) id cursor batch).
Proof.
  unfold commit_diff_batch, with_full_synchronous. respects_auto.
  - apply respects_statement; [apply _|]. by intros t.
  - apply respects_statement; [apply _|]. by intros t [].
  - apply respects_rollback; [apply _|]. apply respects_bind; [apply _|apply unresolved_delete_entries|intros _]. case_decide; [|respects_auto].
    unfold save_cursor. apply respects_statement; [apply _|]. intros t [Hmeta Hover Hqueue].
    destruct (to_sql id); [|done]. destruct (to_sql _); by split.
  - apply respects_statement; [apply _|]. by intros t [].
Qed.

Lemma unresolved_load_cursor id : respects KeptTables (load_cursor (D:=X) id).
Proof. apply respects_statement; [apply _|]. by intros t. Qed.

Lemma unresolved_load_roots : respects KeptTables (load_roots (D:=X)).
Proof. apply respects_statement; [apply _|]. by intros t. Qed.

Lemma unresolved_poll root token : respects Kept (rt_poll_remote_diff (M:=M) root token).
Proof.
  unfold rt_poll_remote_diff. respects_auto.
  - apply unresolved_on_world, unresolved_load_cursor.
  - apply unresolved_on_world, respects_same_tables; [apply _|]. intros x. unfold map_err.
    pose proof (tables_diff token (default 0%N a) a0 x). by destruct (SyncRuntime_diff _ _ _ _) as [[] ?].
  - apply unresolved_ingest. intros e ops e' He. unfold ingest_remote_diff_filtered.
    destruct (normalize_batch a1) as [cands|] eqn:En; [|done]. cbn. intros [= Heq].
    pose proof (ingest_filtered_all op_unresolved cand_unresolved single_unresolved both_unresolved cands a2 e
      (batch_unresolved _ _ En) He) as Hi. by rewrite Heq in Hi.
  - apply unresolved_on_world, unresolved_commit.
Qed.

Lemma unresolved_ingest_scan root entries : Forall entry_unresolved entries -> respects Kept (ingest_scan (M:=M) (X:=X) root entries).
Proof.
  intros Hentries. unfold ingest_scan. respects_auto.
  apply unresolved_ingest. intros e ops e' He. unfold ingest_local_scan_with_delete_policy.
  destruct (normalize_entries entries) as [cands|] eqn:En; [|done]. cbn. intros [= Heq].
  pose proof (ingest_filtered_all op_unresolved cand_unresolved single_unresolved both_unresolved cands a e
    (entries_unresolved _ _ Hentries En) He) as Hi. by rewrite Heq in Hi.
Qed.

Lemma unresolved_events events : Forall entry_unresolved (fs_events_to_local_scan_entries events).
Proof. unfold fs_events_to_local_scan_entries. apply Forall_fmap, Forall_true. intros e. by left. Qed.

Lemma unresolved_walk {B} root tree (k : list LocalScanEntry -> Method B) :
  (forall entries, Forall entry_unresolved entries -> respects Kept (k entries)) ->
  respects Kept (bind (on_world (walk_local_tree root tree)) k).
Proof.
  intros Hk r [Ht He Hs]. pose proof (walk_local_tree_empty root tree (rt_world r) (tu_metadata _ Ht)) as Hw.
  unfold bind, on_world, zoom. rewrite wp_run in Hw. destruct (walk_local_tree root tree (rt_world r)) as [[entries|e] x]; destruct Hw as [Hx Hent]; cbn in Hx.
  - apply Hk; [done|]. split; cbn; [by rewrite Hx|done..].
  - split; cbn; [by rewrite Hx|done..].
Qed.

Lemma unresolved_scan root : respects Kept (rt_run_local_scan (M:=M) root).
Proof.
  unfold rt_run_local_scan.
  apply respects_bind; [apply _|unfold ensure_watcher; respects_auto|intros _].
  apply respects_bind; [apply _|unfold drain_watcher_events; respects_auto|intros _].
  { apply unresolved_service. intros x. pose proof (apart_events (root_sync_id root) x). by destruct (received_events _ x). }
  apply respects_bind; [apply _|respects_auto|intros t].
  apply respects_bind; [apply _|respects_auto|intros [[|events] tracker]]; (apply respects_bind; [apply _|respects_auto|intros _]); cbn [fst snd].
  - apply respects_bind; [apply _| |intros tree].
    { apply unresolved_service. intros x. pose proof (apart_tree (root_local_path root) x). by destruct (local_tree _ x). }
    apply unresolved_walk. intros entries Hentries. respects_auto. by apply unresolved_ingest_scan.
  - destruct events as [|event events]; [respects_auto|]. apply unresolved_ingest_scan, unresolved_events.
Qed.

Lemma unresolved_audit c : respects Kept (rt_emit_cycle_audit (M:=M) (X:=X) c).
Proof.
  unfold rt_emit_cycle_audit. respects_auto. apply unresolved_on_world, respects_statement; [apply _|]. by intros t [].
Qed.

#[export] Instance unresolved_preserved : Preserves unresolved_runtime.
Proof.
  apply runtime_preserves; intros.
  - unfold rt_list_sync_roots. respects_auto. apply unresolved_on_world, unresolved_load_roots.
  - apply unresolved_poll.
  - apply unresolved_scan.
  - apply unresolved_advance.
  - apply unresolved_download.
  - match goal with Hr : unresolved_runtime _ |- _ => destruct Hr as [_ [_ _ Hup _] _] end.
    cbn in Hup. rewrite !Forall_app in Hup. destruct Hup as [Hup _]. eapply Forall_impl; [exact Hup|].
    intros task Hop n. by apply unresolved_upload.
  - apply unresolved_evict.
  - apply unresolved_audit.
Qed.

(** What is stored and known while no thread is running. *)
Definition unresolved_down (x : X) (g : Ghost) : Prop := tables_unresolved (tables x) /\ Forall to_root (g_uploaded g).

Lemma restored_list {A} (P : A -> Prop) select discard :
  (forall t l, tables_unresolved t -> select t = Some (Some l) -> Forall P l) ->
  (forall t, tables_unresolved t -> tables_unresolved (discard t)) ->
  forall x, tables_unresolved (tables x) ->
  wp (restore_value select discard) (λ r x', tables_unresolved (tables x') /\ match r with Ok l => Forall P l | Err _ => True end) x.
Proof.
  intros Hsel Hdis x Hx. unfold restore_value. wp_step. wp_step. apply wp_read.
  - intros x1 Hx1. destruct (select (tables x)) as [[l|]|] eqn:E.
    + apply wp_ok. rewrite Hx1. split; [done|]. by eapply Hsel.
    + wp_step. wp_step. apply wp_statement.
      * intros [] x2 [= E2]. apply wp_ok. rewrite <- E2, Hx1. split; [auto|constructor].
      * intros e x2 E2. apply wp_ok. rewrite E2, Hx1. split; [auto|constructor].
    + apply wp_ok. rewrite Hx1. split; [done|constructor].
  - intros e x1 Hx1. apply wp_ok. rewrite Hx1. split; [done|constructor].
Qed.

Lemma wp_kept_attempt {A B} (m : ST X string A) (k : result A string -> ST X string B) Q x :
  respects KeptTables m -> tables_unresolved (tables x) ->
  (forall r x', tables_unresolved (tables x') -> wp (k r) Q x') -> wp (bind (attempt m) k) Q x.
Proof.
  intros Hm Hx Hk. wp_step. wp_step. wp_call (respects_wp _ _ x Hm). intros r x' Hx'. apply Hk. by apply Hx'.
Qed.

Lemma restored_unresolved x : tables_unresolved (tables x) ->
  wp restored_engine (λ r x', tables_unresolved (tables x') /\ match r with Ok e => engine_unresolved e | Err _ => True end) x.
Proof.
  intros Hx. unfold restored_engine. wp_step.
  assert (respects KeptTables (open_connection (X:=X))) as Hopen.
  { unfold open_connection. respects_auto; (apply respects_statement; [apply _|]); (by intros t) || by intros t []. }
  wp_call (respects_wp _ _ x Hopen). intros [[]|e] x1 Hx1; [|split; [by apply Hx1|done]]. specialize (Hx1 Hx). cbn in Hx1.
  apply wp_kept_attempt; [apply respects_statement; [apply _|by intros t]|done|]. intros _ x2 Hx2.
  apply wp_kept_attempt; [apply unresolved_load_roots|done|]. intros roots x3 Hx3.
  wp_step. eapply wp_mono; [apply (restored_list cand_unresolved)|].
  { intros t l [Hmeta Hover Hqueue]. apply Hover. }
  { intros t [Hmeta Hover Hqueue]. by split. }
  { done. }
  intros [overflow|e] x4 [Hx4 Ho]; [|done].
  wp_step. eapply wp_mono; [apply (restored_list op_unresolved)|].
  { intros t l [Hmeta Hover Hqueue]. apply Hqueue. }
  { intros t [Hmeta Hover Hqueue]. by split. }
  { done. }
  intros [queue|e] x5 [Hx5 Hq]; [|done]. apply wp_ok. split; [done|]. by apply restart_all.
Qed.

(** C6: Over any life of a daemon on a fresh database (any interleaving of the sync loop with the calls
    of the IPC thread, any failures, crashes and restarts), every upload the loop starts goes to
    the root folder of the account, wherever under a sync root the file is: nothing writes the
    metadata table in which the folders of the server are looked up. *)
Theorem uploads_go_to_the_account_root ts x u
    (Hmetadata : t_metadata (tables x) = ∅) (Hoverflow : t_overflow (tables x) = None) (Hqueue : t_queue (tables x) = None) :
  u ∈ g_uploaded (daemon_ghost (daemon_run (M:=M) ts (Down x (mkGhost [] [])))) -> uc_parent_folder_id u = 0%N.
Proof.
  assert (daemon_all unresolved_runtime unresolved_down (daemon_run (M:=M) ts (Down x (mkGhost [] [])))) as Hall.
  { apply daemon_run_all.
    - apply _.
    - by intros r [].
    - intros roots r [Ht He Hs]. split; cbn; [|done..].
      apply (respects_statement (maintains tables_unresolved) (write_tables (with_roots roots))); [|done]. by intros t [].
    - intros roots y g [Ht Hs]. split; [|done].
      apply (respects_statement (maintains tables_unresolved) (write_tables (with_roots roots))); [|done]. by intros t [].
    - intros token config dir g y [Ht Hs]. unfold RealSyncLoopRuntime_new. pose proof (restored_unresolved y Ht) as Hr.
      rewrite wp_run in Hr. destruct (restored_engine y) as [[e|e] x1]; destruct Hr as [Ht1 He]; cbn in *; [|by split].
      pose proof (apart_clock x1) as Hc. destruct (read_instant x1) as [t x2]. cbn in Hc. rewrite <- Hc in Ht1. split; [|by split]. by split.
    - split; [|constructor]. split; [done|intros l Hl; congruence..]. }
  intros Hu. destruct (daemon_run ts _) as [w g|th s]; cbn in *.
  - destruct Hall as [_ Hs]. by eapply Forall_forall in Hs.
  - destruct Hall as [_ _ Hs]. by eapply Forall_forall in Hs.
Qed.
End Unresolved.

Lemma uploads_go_to_the_account_root_witness :
  mkUploadCall 0 "a.txt" remote_content ∈
    g_uploaded (daemon_ghost (daemon_run (M:=alist) test_life (Down test_world (mkGhost [] [])))) /\
  uc_parent_folder_id (mkUploadCall 0 "a.txt" remote_content) = 0%N.
Proof.
  assert (mkUploadCall 0 "a.txt" remote_content ∈
    g_uploaded (daemon_ghost (daemon_run (M:=alist) test_life (Down test_world (mkGhost [] []))))) as Hu by (vm_compute; left).
  split; [exact Hu|].
  exact (uploads_go_to_the_account_root test_life test_world (mkUploadCall 0 "a.txt" remote_content) eq_refl eq_refl eq_refl Hu).
Defined.
