(* ===== verification/SyncCycle.v ===== *)
(** Single cycles of the sync loop: the outcomes of a poll, the scan that follows it, and a daemon
    that starts while nobody is logged in. *)
From S2P Require Import Prelude Paths Bytes Model Clock Scheduler Planner ConflictResolver Transfers Ingest Engine PageCache FsShell Workers AuditLog BinaryApi Response StateError AuthApi SyncApi FileMetadata SyncLoop SyncRuntime SyncWorld SyncRuns.

(** * One poll *)

Section Poll.
Context {D : Type} `{!Database D, !DatabaseLaws D, !RowOrder}.

Lemma wp_transaction {A} (body : ST D string A) (Q : result A string -> D -> Prop) d :
  (forall d0, tables d0 = tables d ->
     wp body (λ r d1, match r with Ok a => forall d2, tables d2 = tables d1 -> Q (Ok a) d2 | Err _ => True end) d0) ->
  (forall e d2, tables d2 = tables d -> Q (Err e) d2) -> wp (transaction body) Q d.
Proof.
  intros Hbody Herr. rewrite wp_run. unfold transaction.
  pose proof (statement_ok (read_tables (λ _ : Tables, tt)) d) as Hs. destruct (statement (read_tables _) d) as [[[]|e] d0]; [|by apply Herr].
  injection Hs as Hd0. symmetry in Hd0. specialize (Hbody d0 Hd0). rewrite wp_run in Hbody.
  destruct (body d0) as [[a|e] d1]; cbn in *; [|apply Herr; by rewrite tables_rollback].
  pose proof (statement_ok (read_tables (λ _ : Tables, tt)) d1) as Hs. destruct (statement (read_tables _) d1) as [[[]|e] d2]; cbn in *.
  - injection Hs as Hd2. by apply Hbody.
  - apply Herr. by rewrite tables_rollback.
Qed.

(** What a batch deletes from the metadata table. *)
Definition apply_deletes (entries : list RemoteDiffEntry) (m : MetadataTable) : MetadataTable :=
  foldl (λ m e, match entry_change_kind e, deleted_id e with Delete, Some id => delete id m | _, _ => m end) m entries.

Lemma wp_delete_entries entries : forall d,
  wp (delete_entries entries)
    (λ r d', match r with
             | Ok _ => tables d' = with_metadata (apply_deletes entries (t_metadata (tables d))) (tables d)
             | Err _ => True
             end) d.
Proof.
  induction entries as [|e entries IH]; intros d; cbn [delete_entries apply_deletes foldl].
  { apply wp_ok. by destruct (tables d). }
  destruct (entry_change_kind e), (deleted_id e) as [id|]; try apply IH.
  wp_step. apply wp_statement; [|done]. intros [] d1. unfold write_with. destruct (to_sql id); [|done]. intros [= Ht].
  wp_call IH. intros [[]|e'] d2; [|done]. rewrite <- Ht. by intros ->.
Qed.

(** The tables after a batch is committed. *)
Definition committed (id : SyncId) (cursor : N) (b : RemoteDiffBatch) (t : Tables) : Tables :=
  let t := with_metadata (apply_deletes (batch_entries b) (t_metadata t)) t in
  if decide (cursor < batch_cursor b)%N then with_cursors (<[id := batch_cursor b]> (t_cursors t)) t else t.

(** The same rows, whatever the journal mode and the deferred candidates are. *)
Definition same_rows (t t' : Tables) : Prop :=
  with_stored_overflow None (with_synchronous "" t') = with_stored_overflow None (with_synchronous "" t).

#[export] Instance same_rows_equivalence : Equivalence same_rows.
Proof. split; [by intros t|by intros t t'|]. intros t1 t2 t3 E1 E2. unfold same_rows in *. congruence. Qed.

Lemma mode_same s t : same_rows t (with_synchronous s t).
Proof. done. Qed.

Lemma overflow_same o t : same_rows t (with_stored_overflow o t).
Proof. done. Qed.

Lemma same_rows_queue t t' : same_rows t t' -> t_queue t' = t_queue t.
Proof. intros E. by injection E. Qed.

Lemma committed_rows id cursor b t t' : same_rows t t' -> same_rows (committed id cursor b t) (committed id cursor b t').
Proof.
  destruct t, t'. unfold same_rows, with_synchronous, with_stored_overflow, committed. cbn. intros E. injection E; intros; subst. case_decide; reflexivity.
Qed.

Lemma wp_commit_body id cursor b d :
  wp (do! delete_entries (batch_entries b) in
      if decide (cursor < batch_cursor b)%N then save_cursor id (batch_cursor b) else ok tt)
    (λ r d', match r with Ok _ => tables d' = committed id cursor b (tables d) | Err _ => True end) d.
Proof.
  wp_step. wp_call wp_delete_entries. intros [[]|e] d1 Hd1; [|done]. unfold committed. case_decide; [|by apply wp_ok].
  apply wp_statement; [|done]. intros [] d2. destruct (to_sql id); [|done]. destruct (to_sql _); [|done]. intros [= <-]. by rewrite Hd1.
Qed.

(** The commit of a batch: all of it or nothing. *)
Lemma wp_commit id cursor b d :
  wp (commit_diff_batch id cursor b)
    (λ r d', same_rows (match r with Ok _ => committed id cursor b (tables d) | Err _ => tables d end) (tables d')) d.
Proof.
  unfold commit_diff_batch, with_full_synchronous. wp_step. apply wp_read; [|by intros e d' ->]. intros d0 Hd0.
  wp_step. apply wp_statement; [|intros e d1 ->; by rewrite Hd0]. intros [] d1 [= Hd1].
  assert (same_rows (tables d) (tables d1)) as Hmode1 by (rewrite <- Hd1, Hd0; apply mode_same).
  assert (forall (r : result () string) d2, same_rows (match r with Ok _ => committed id cursor b (tables d) | Err _ => tables d end) (tables d2) ->
    forall old, wp (do! attempt (statement (write_tables (with_synchronous old))) in lift r)
      (λ r d', same_rows (match r with Ok _ => committed id cursor b (tables d) | Err _ => tables d end) (tables d')) d2) as Hdrop.
  { intros r d2 Hd2 old. wp_step. wp_step. apply wp_statement.
    - intros [] d3 [= Hd3]. apply wp_lift. rewrite <- Hd3. etrans; [exact Hd2|apply mode_same].
    - intros e d3 Hd3. apply wp_lift. by rewrite Hd3. }
  wp_step. wp_step. apply wp_transaction.
  - intros d2 Hd2. wp_call wp_commit_body. intros [[]|e] d3 Hd3; [|done]. intros d4 Hd4. apply (Hdrop (Ok tt)).
    rewrite Hd4, Hd3, Hd2. by apply committed_rows.
  - intros e d2 Hd2. apply (Hdrop (Err e)). by rewrite Hd2.
Qed.
End Poll.

Section PollSpec.
Context {M X Link Session TE : Type} `{!LinkedHashMap M, !Database X, !RowOrder, !ProtocolTransport X TE}
  `{!TransferServices X Link Session, !LocalDisk X, !Watching X, !WallClock X, !Sha256}
  `{!DatabaseLaws X, !ServicesLaws X Link Session}.

Abbreviation RT := (RealSyncLoopRuntime M X).

Lemma wp_persist_overflow (r : RT) :
  wp persist_planner_overflow (λ o r', o = Ok tt /\ same_rows (tables (rt_world r)) (tables (rt_world r')) /\ rt_engine r' = rt_engine r) r.
Proof.
  unfold persist_planner_overflow, logged, on_world. wp_step. wp_step. wp_step. wp_step. wp_step. apply wp_statement.
  - intros [] x [= Hx]. apply wp_ok. split; [done|]. split; [|done]. cbn. rewrite <- Hx. apply overflow_same.
  - intros e x Hx. apply wp_ok. split; [done|]. split; [|done]. cbn. by rewrite Hx.
Qed.

(** What a poll leaves for its outcome. *)
Definition polled (root : SyncRootRecord) (r : RT) (o : result nat string) (r' : RT) : Prop :=
  let t := tables (rt_world r) in
  let t' := tables (rt_world r') in
  let ingested b ops e := ingest_remote_diff_filtered (convert_diff_batch b) (delete_policy_of root r) (rt_engine r) = Ok (ops, e) in
  match o with
  | Ok n => exists b ops, ingested b ops (rt_engine r') /\ n = length ops /\
      same_rows (committed (root_sync_id root) (default 0%N (t_cursors t !! root_sync_id root)) (convert_diff_batch b) t) t'
  | Err _ => same_rows t t' /\ (rt_engine r' = rt_engine r \/ exists b ops, ingested b ops (rt_engine r'))
  end.

Lemma poll_outcomes root token (r : RT) :
  polled root r (rt_poll_remote_diff root token r).1 (rt_poll_remote_diff root token r).2.
Proof.
  apply wp_run. unfold rt_poll_remote_diff, on_world. wp_step. wp_step.
  apply wp_read_with; [|intros e x Hx; unfold polled; cbn; rewrite Hx; by split; [|left]].
  intros x1 Hx1. wp_step. wp_step. wp_step. wp_step. wp_step.
  assert (wp (SyncRuntime_diff token (default 0%N (t_cursors (tables (rt_world r)) !! root_sync_id root))
      (batch_limit (diff_poller (rt_engine (with_world x1 r)))))
    (λ o x, tables x = tables (rt_world r) /\ match o with Ok b => exists batch, b = convert_diff_batch batch | Err _ => True end) x1) as Hdiff.
  { eapply wp_mono; [apply wp_and; [apply wp_SyncRuntime_diff|apply (wp_run _ (λ _ x, tables x = tables x1)), tables_diff]|].
    intros o x [Ho Hx]. rewrite Hx. split; [done|]. by destruct o. }
  wp_call Hdiff. intros [b|e] x2 [Hx2 Hb]; [|unfold polled; cbn; rewrite Hx2; by split; [|left]]. destruct Hb as [batch ->].
  wp_step. wp_step. wp_step. rewrite wp_run. unfold ingest. cbn [rt_engine with_world].
  change (delete_policy_of root (with_world x2 (with_world x1 r))) with (delete_policy_of root r).
  destruct (ingest_remote_diff_filtered _ _ _) as [[ops e']|e] eqn:Ei; cbn [fst snd].
  2:{ unfold polled. cbn. rewrite Hx2. by split; [|left]. }
  wp_step. wp_call wp_persist_overflow. intros _ r3 (-> & Hrows & He). cbn in Hrows, He. rewrite Hx2 in Hrows.
  wp_step. wp_step. wp_call wp_commit. intros [[]|e] x4 Hx4.
  - wp_step. exists batch, ops. unfold polled. cbn. rewrite He. split; [done|]. split; [done|]. etrans; [|exact Hx4]. by apply committed_rows.
  - unfold polled. cbn. split; [by etrans|]. right. exists batch, ops. by rewrite He.
Qed.

(** C3: Every outcome of a poll.  Only a batch that the engine has ingested moves the cursor, together
    with the deletions of the batch; an error at any point, in the middle of the transaction too,
    leaves the cursor and the rows as they were, so that the batch is fetched again.  In either
    case the stored queue is the old one: the operations planned from the batch are in memory
    only. *)
Theorem poll_remote_diff_spec root token (r : RT) :
  let '(o, r') := rt_poll_remote_diff root token r in
  t_queue (tables (rt_world r')) = t_queue (tables (rt_world r)) /\ polled root r o r'.
Proof.
  pose proof (poll_outcomes root token r) as Hq. destruct (rt_poll_remote_diff root token r) as [o r']. cbn [fst snd] in Hq. split; [|exact Hq]. destruct o as [n|e].
  - destruct Hq as (b & ops & _ & _ & Hrows). rewrite (same_rows_queue _ _ Hrows). unfold committed. by case_decide.
  - destruct Hq as [Hrows _]. by rewrite (same_rows_queue _ _ Hrows).
Qed.
End PollSpec.

Lemma poll_remote_diff_spec_witness :
  let r := test_runtime two_sided_world in
  let res := rt_poll_remote_diff (test_root Model.Full) (chars "token") r in
  res.1 = Ok 1 /\ t_queue (tables (rt_world res.2)) = None /\ t_cursors (tables (rt_world res.2)) !! 1%N = Some 9%N /\
  polled (test_root Model.Full) r res.1 res.2.
Proof.
  split; [vm_compute; reflexivity|]. split; [vm_compute; reflexivity|]. split; [vm_compute; reflexivity|].
  pose proof (poll_remote_diff_spec (test_root Model.Full) (chars "token") (test_runtime two_sided_world)) as Hp.
  destruct (rt_poll_remote_diff (test_root Model.Full) (chars "token") (test_runtime two_sided_world)) as [o r']. exact (proj2 Hp).
Defined.

(** * A local scan after a poll *)









(** * What a poll queues *)





Section FirstScan.
Context {M X Link Session TE : Type} `{!LinkedHashMap M, !Database X, !RowOrder, !ProtocolTransport X TE}
  `{!TransferServices X Link Session, !LocalDisk X, !Watching X, !WallClock X, !Sha256}
  `{!DatabaseLaws X, !RowOrderLaws, !ServicesLaws X Link Session}.

Abbreviation RT := (RealSyncLoopRuntime M X).

(** What the preparations of a scan leave alone. *)
Definition same_scans (r r' : RT) : Prop := last_full_scan (rt_tracker r') = last_full_scan (rt_tracker r).
Definition prepares (r r' : RT) : Prop :=
  same_scans r r' /\ rt_engine r' = rt_engine r /\ tables (rt_world r') = tables (rt_world r).

#[export] Instance same_scans_preorder : PreOrder same_scans.
Proof. split; [by intros r|]. intros r1 r2 r3 E1 E2. unfold same_scans in *. congruence. Qed.
#[export] Instance prepares_preorder : PreOrder prepares.
Proof. split; [by intros r|]. intros r1 r2 r3 (? & ? & ?) (? & ? & ?). unfold prepares, same_scans in *. split_and!; congruence. Qed.

Lemma prepares_service {A} (m : ST X string A) : (forall x, tables (m x).2 = tables x) -> respects prepares (on_world (M:=M) m).
Proof. intros Hm r. specialize (Hm (rt_world r)). unfold on_world, zoom. destruct (m _). by split_and!. Qed.

Lemma push_events_scans events : forall t, last_full_scan (foldl (λ t e, push_event e t) t events) = last_full_scan t.
Proof. induction events as [|e events IH]; intros t; [done|]. cbn [foldl]. by rewrite IH. Qed.

Lemma prepares_ensure root : respects prepares (ensure_watcher (M:=M) root).
Proof.
  unfold ensure_watcher. respects_auto; [apply prepares_service; intros; apply apart_start|]. apply respects_modify. by intros r.
Qed.

Lemma prepares_drain id : respects prepares (drain_watcher_events (M:=M) id).
Proof.
  unfold drain_watcher_events. respects_auto.
  - apply prepares_service. intros x. pose proof (apart_events id x). by destruct (received_events id x).
  - apply respects_modify. intros r. split_and!; [|done..]. unfold same_scans. cbn. by rewrite push_events_scans.
Qed.





(** Storing the queue or the deferred candidates moves no cursor. *)
Definition stores (r r' : RT) : Prop :=
  rt_engine r' = rt_engine r /\ t_cursors (tables (rt_world r')) = t_cursors (tables (rt_world r)).

#[export] Instance stores_preorder : PreOrder stores.
Proof. split; [by intros r|]. intros r1 r2 r3 [? ?] [? ?]. unfold stores in *. split; congruence. Qed.

Definition same_cursors (t t' : Tables) : Prop := t_cursors t' = t_cursors t.
#[export] Instance same_cursors_preorder : PreOrder same_cursors.
Proof. split; [by intros t|]. intros t1 t2 t3 E1 E2. unfold same_cursors in *. congruence. Qed.

Lemma stores_logged {A} (m : ST X string A) : respects (on_tables same_cursors) m -> respects stores (logged (M:=M) m).
Proof.
  intros Hm. unfold logged. respects_auto. intros r. specialize (Hm (rt_world r)). unfold on_world, zoom. destruct (m _). by split.
Qed.

Lemma stores_overflow : respects stores (persist_planner_overflow (M:=M) (X:=X)).
Proof. unfold persist_planner_overflow. respects_auto; apply stores_logged, respects_statement; [apply _|by intros t]. Qed.

Lemma stores_queue : respects stores (persist_scheduler_queue (M:=M) (X:=X)).
Proof. unfold persist_scheduler_queue. respects_auto; apply stores_logged, respects_statement; [apply _|by intros t]. Qed.




End FirstScan.


(** * A daemon that starts logged out *)

Section LoggedOut.
Context {M X Link Session TE : Type} `{!LinkedHashMap M, !Database X, !RowOrder, !ProtocolTransport X TE}
  `{!TransferServices X Link Session, !LocalDisk X, !Watching X, !WallClock X, !Sha256}
  `{!DatabaseLaws X, !ServicesLaws X Link Session}.

Abbreviation RT := (RealSyncLoopRuntime M X).

Definition idles (r r' : RT) : Prop :=
  rt_auth_token r' = rt_auth_token r /\ rt_ghost r' = rt_ghost r /\
  t_cursors (tables (rt_world r')) = t_cursors (tables (rt_world r)).

#[export] Instance idles_preorder : PreOrder idles.
Proof. split; [by intros r|]. intros r1 r2 r3 (? & ? & ?) (? & ? & ?). unfold idles in *. split_and!; congruence. Qed.

Lemma idles_on_world {A} (m : ST X string A) : respects (on_tables same_cursors) m -> respects idles (on_world (M:=M) m).
Proof. intros Hm r. specialize (Hm (rt_world r)). unfold on_world, zoom. destruct (m _). by split_and!. Qed.

Lemma idles_list : respects idles (rt_list_sync_roots (M:=M) (X:=X)).
Proof. unfold rt_list_sync_roots. respects_auto. apply idles_on_world, respects_statement; [apply _|by intros t]. Qed.

Lemma idles_remove id : respects idles (remove_watcher (M:=M) (X:=X) id).
Proof. apply respects_modify. intros r. split_and!; [done..|]. cbn. case_decide; [by rewrite apart_drop|done]. Qed.

Lemma idles_remove_all ids : respects idles (remove_watchers (M:=M) (X:=X) ids).
Proof. induction ids as [|id ids IH]; cbn [remove_watchers]; respects_auto. apply idles_remove. Qed.

Lemma idles_evict id : respects idles (rt_evict_removed_root (M:=M) (X:=X) id).
Proof.
  unfold rt_evict_removed_root, drain_engine_watcher_evictions, persist_scheduler_queue, logged. respects_auto.
  - apply idles_remove.
  - apply respects_modify. by intros r.
  - apply respects_modify. by intros r.
  - apply idles_remove_all.
  - apply idles_on_world, respects_statement; [apply _|by intros t].
Qed.

Lemma idles_list_roots (r : RT) : idles r (list_sync_roots r).2.
Proof. pose proof (idles_list r) as Hl. cbn. by destruct (rt_list_sync_roots r). Qed.

Lemma idles_evictions ids : forall r : RT, idles r (foldl (λ r id, evict_removed_root id r) r ids).
Proof. induction ids as [|id ids IH]; intros r; cbn [foldl]; [done|]. etrans; [apply idles_evict|apply IH]. Qed.

(** Nothing to publish, and nothing published. *)
Definition publishes_nothing (pc : LoopPc) : Prop := match pc with PcPublish c => roots_processed c = 0 | _ => True end.

Definition idle_daemon (r0 : RT) (d : SyncDaemon) : Prop :=
  match d with
  | Up th shared =>
      idles r0 (lt_runtime th) /\ publishes_nothing (lt_pc th) /\ active_roots (status shared) = 0
  | Down _ _ => False
  end.

Lemma no_token_cycle power elapsed config (r : RT) : rt_auth_token r = None ->
  run_cycle_with_power power elapsed config r = (mkCycle 0 0 0 0 0 elapsed None, r).
Proof. intros Ht. unfold run_cycle_with_power. destruct (Power.should_pause _ _); [done|]. cbn. by rewrite Ht. Qed.

Lemma idle_daemon_step r0 i th shared : rt_auth_token r0 = None -> idle_daemon r0 (Up th shared) ->
  idle_daemon r0 (Up (loop_step (rt_config (lt_runtime th)) i th shared).1 (loop_step (rt_config (lt_runtime th)) i th shared).2).
Proof.
  intros Hr0 (Hi & Hp & Ha). destruct th as [pc ids r], shared as [st w d p]. cbn in Hi, Hp, Ha. unfold loop_step. cbn [lt_pc lt_runtime].
  destruct pc; try (repeat case_match; done).
  - pose proof (idles_list_roots r) as Hl. destruct (list_sync_roots r) as [roots r1]. cbn in Hl |- *.
    split_and!; try done; (etrans; [exact Hi|etrans; [exact Hl|apply idles_evictions]]).
  - rewrite no_token_cycle; [done|]. destruct Hi as (Ht & _ & _). congruence.
Qed.

Lemma idle_daemon_turn r0 t d : rt_auth_token r0 = None -> t <> TurnCrash -> idle_daemon r0 d -> idle_daemon r0 (daemon_turn t d).
Proof.
  intros Hr0 Ht Hd. destruct d as [w g|th shared]; [done|]. destruct t as [[i|a]|roots| |]; try done.
  - cbn [daemon_turn turn fst snd]. pose proof (idle_daemon_step r0 i th shared Hr0 Hd) as Hs. by destruct (loop_step _ _ _ _).
  - destruct Hd as (Hi & Hp & Ha). split_and!; try done. by destruct a as [| |[]|].
  - destruct Hd as (Hi & Hp & Ha). split_and!; try done. cbn. etrans; [exact Hi|]. split_and!; [done..|].
    apply (respects_statement same_cursors (write_tables (with_roots roots))). by intros t.
Qed.

Lemma idle_daemon_run r0 ts : rt_auth_token r0 = None -> Forall (λ t, t <> TurnCrash) ts ->
  forall d, idle_daemon r0 d -> idle_daemon r0 (daemon_run ts d).
Proof. intros Hr0. induction 1 as [|t ts Ht _ IH]; intros d Hd; [done|]. by apply IH, idle_daemon_turn. Qed.

Lemma restore_value_cursors {A} select discard : (forall t, same_cursors t (discard t)) ->
  respects (on_tables same_cursors) (restore_value (X:=X) (A:=A) select discard).
Proof. intros Hd. unfold restore_value. respects_auto; (apply respects_statement; [apply _|]); [by intros t|exact Hd]. Qed.

Lemma restored_cursors : respects (on_tables same_cursors) (restored_engine (X:=X)).
Proof.
  unfold restored_engine, open_connection, load_roots.
  respects_auto; try (apply restore_value_cursors; by intros t); (apply respects_statement; [apply _|]); by intros t.
Qed.

(** C8: A daemon that starts while nobody is logged in never synchronises, however often the user logs
    in afterwards: the loop reads the token it was started with, and the handle through which the
    IPC thread should hand over a new one is dropped by both callers.  Until the process ends,
    under every interleaving, nothing is downloaded or uploaded, no cursor moves and the status
    reports no active root. *)
Theorem logged_out_start_never_syncs ts config dir g x th shared x'
    (Hstart : spawn_daemon_sync_loop (M:=M) None config dir g x = (Ok (Some th, shared), x'))
    (Hlives : Forall (λ t, t <> TurnCrash) ts) :
  exists th' shared', daemon_run ts (Up th shared) = Up th' shared' /\
    rt_ghost (lt_runtime th') = g /\
    t_cursors (tables (rt_world (lt_runtime th'))) = t_cursors (tables x) /\
    active_roots (status shared') = 0.
Proof.
  unfold spawn_daemon_sync_loop, RealSyncLoopRuntime_new in Hstart. pose proof (restored_cursors x) as Hc.
  destruct (restored_engine x) as [[e|e] x1]; [|done]. pose proof (apart_clock x1) as Hclock.
  destruct (read_instant x1) as [t x2]. cbn in Hc, Hclock. set (r0 := mkRuntime x2 _ _ _ _ _ _ _ _ _) in Hstart.
  unfold spawn_sync_loop in Hstart. destruct (loop_enabled config); [|done]. injection Hstart as <- <- _.
  assert (idle_daemon r0 (Up (loop_start r0) (SyncLoopShared_new LoopIdle))) as Hfirst.
  { unfold loop_start. pose proof (idles_list_roots r0) as Hl. destruct (list_sync_roots r0) as [roots r1]. by split_and!. }
  pose proof (idle_daemon_run r0 ts eq_refl Hlives _ Hfirst) as Hrun. destruct (daemon_run ts _) as [w g'|th' shared']; [done|].
  destruct Hrun as ((_ & Hg & Hcur) & _ & Ha). exists th', shared'. split_and!; try done.
  rewrite Hcur. cbn. by rewrite Hclock.
Qed.
End LoggedOut.

Lemma logged_out_start_never_syncs_witness :
  exists th shared x' th' shared',
    spawn_daemon_sync_loop (M:=alist) None SyncLoopConfig_default "/cache" (mkGhost [] []) two_sided_world = (Ok (Some th, shared), x') /\
    daemon_run test_cycle (Up th shared) = Up th' shared' /\
    cycles_completed (status shared') = 1%N /\
    t_cursors (tables (rt_world (lt_runtime th'))) = ∅ /\ active_roots (status shared') = 0.
Proof.
  destruct (spawn_daemon_sync_loop (M:=alist) None SyncLoopConfig_default "/cache" (mkGhost [] []) two_sided_world) as [[[[th|] shared]|e] x'] eqn:E;
    [|vm_compute in E; discriminate E..].
  exists th, shared, x'.
  destruct (logged_out_start_never_syncs test_cycle SyncLoopConfig_default "/cache" (mkGhost [] []) two_sided_world th shared x' E)
    as (th' & shared' & Hrun & _ & Hc & Ha).
  { repeat constructor; discriminate. }
  exists th', shared'. split; [reflexivity|]. split; [exact Hrun|]. split; [|split; [exact Hc|exact Ha]].
  vm_compute in E. injection E as Eth Esh _. rewrite <- Eth, <- Esh in Hrun. vm_compute in Hrun. injection Hrun as _ <-. reflexivity.
Defined.

(** * The cursors *)

Section Cursors.
Context {M X Link Session TE : Type} `{!LinkedHashMap M, !Database X, !RowOrder, !ProtocolTransport X TE}
  `{!TransferServices X Link Session, !LocalDisk X, !Watching X, !WallClock X, !Sha256}
  `{!DatabaseLaws X, !RowOrderLaws, !ServicesLaws X Link Session}.

Abbreviation RT := (RealSyncLoopRuntime M X).

(** Every known cursor is known and at least as far. *)
Definition cursors_le (m m' : gmap SyncId N) : Prop :=
  forall id c, m !! id = Some c -> exists c', m' !! id = Some c' /\ (c <= c')%N.

#[export] Instance cursors_le_preorder : PreOrder cursors_le.
Proof.
  split; [by intros m id c; eauto|]. intros m1 m2 m3 H12 H23 id c Hc. apply H12 in Hc as (c2 & Hc2 & ?).
  apply H23 in Hc2 as (c3 & Hc3 & ?). exists c3. split; [done|lia].
Qed.

(** From the cursors [m0] on. *)
Definition beyond (m0 : gmap SyncId N) (r : RT) : Prop := cursors_le m0 (t_cursors (tables (rt_world r))).
Definition keeps_cursors (r r' : RT) : Prop := t_cursors (tables (rt_world r')) = t_cursors (tables (rt_world r)).

#[export] Instance keeps_cursors_preorder : PreOrder keeps_cursors.
Proof. split; [by intros r|]. intros r1 r2 r3 E1 E2. unfold keeps_cursors in *. congruence. Qed.

Lemma keeps_beyond m0 {A} (m : ST RT string A) : respects keeps_cursors m -> respects (maintains (beyond m0)) m.
Proof. apply respects_weaken. intros r r' E Hr. unfold beyond. by rewrite E. Qed.

Lemma keeps_statement {A} (f : Tables -> option A * Tables) : (forall t, same_cursors t (f t).2) ->
  respects keeps_cursors (on_world (M:=M) (statement f)).
Proof.
  intros Hf r. pose proof (respects_statement same_cursors f Hf (rt_world r)) as Hs. unfold on_world, zoom. destruct (statement f _). exact Hs.
Qed.

Lemma keeps_service {A} (m : ST X string A) : (forall x, tables (m x).2 = tables x) -> respects keeps_cursors (on_world (M:=M) m).
Proof. intros Hm r. specialize (Hm (rt_world r)). unfold on_world, zoom, keeps_cursors. destruct (m _). cbn in *. by rewrite Hm. Qed.

Lemma keeps_now : respects keeps_cursors (now (M:=M) (X:=X)).
Proof. apply keeps_service. intros x. pose proof (apart_clock x). by destruct (read_instant x). Qed.

Lemma keeps_modify (f : RT -> RT) : (forall r, rt_world (f r) = rt_world r) -> respects (E:=string) keeps_cursors (modify f).
Proof. intros Hf. apply respects_modify. intros r. unfold keeps_cursors. by rewrite Hf. Qed.

Lemma keeps_stores {A} (m : ST RT string A) : respects stores m -> respects keeps_cursors m.
Proof. apply respects_weaken. by intros r r' []. Qed.

Lemma keeps_prepares {A} (m : ST RT string A) : respects prepares m -> respects keeps_cursors m.
Proof. apply respects_weaken. intros r r' (_ & _ & E). unfold keeps_cursors. by rewrite E. Qed.

Lemma keeps_idles {A} (m : ST RT string A) : respects idles m -> respects keeps_cursors m.
Proof. apply respects_weaken. by intros r r' (_ & _ & E). Qed.

#[local] Hint Resolve keeps_now : respects.
#[local] Hint Extern 5 (respects keeps_cursors (modify _)) => apply keeps_modify; intros ?; repeat case_match; done : respects.
#[local] Hint Extern 5 (respects keeps_cursors (on_world _)) => apply keeps_service; intros ?;
  first [ apply apart_link | apply apart_download | apply apart_create | apply apart_bytes | apply apart_read | apply apart_remove ] : respects.

Lemma keeps_on_stall f : respects keeps_cursors (on_stall (M:=M) (X:=X) f).
Proof. unfold on_stall. respects_auto. Qed.
Lemma keeps_complete path : respects keeps_cursors (complete_transfer (M:=M) (X:=X) path).
Proof. intros r. unfold complete_transfer. by destruct (mark_transfer_completed _ _). Qed.
Lemma keeps_fail op path f what : respects keeps_cursors (fail_transfer (M:=M) (X:=X) op path f what).
Proof. by apply keeps_modify. Qed.
Lemma keeps_mirror path bytes : respects keeps_cursors (mirror (M:=M) (X:=X) path bytes).
Proof. by apply keeps_modify. Qed.
Lemma keeps_ack sid path : respects keeps_cursors (ack (M:=M) (X:=X) sid path).
Proof. by apply keeps_modify. Qed.
Lemma keeps_record parent path bytes : respects keeps_cursors (record_upload (M:=M) (X:=X) parent path bytes).
Proof. by apply keeps_modify. Qed.
#[local] Hint Resolve keeps_on_stall keeps_complete keeps_fail keeps_mirror keeps_ack keeps_record : respects.

Lemma keeps_download token task n : respects keeps_cursors (download_one (M:=M) token task n).
Proof. unfold download_one, logged. respects_auto. Qed.

Lemma keeps_upload token task n : respects keeps_cursors (upload_one (M:=M) token task n).
Proof. unfold upload_one. respects_auto. Qed.

Lemma keeps_advance : respects keeps_cursors (rt_advance_transfers (M:=M) (X:=X)).
Proof.
  unfold rt_advance_transfers. apply respects_bind; [apply _| |intros [|op batch]].
  - intros r. by destruct (advance_transfer_cycle _) as [[]|].
  - respects_auto.
  - respects_auto. apply keeps_stores, stores_queue.
Qed.

Lemma keeps_walk root tree : respects keeps_cursors (on_world (M:=M) (walk_local_tree root tree)).
Proof.
  apply keeps_service. intros x. pose proof (walk_local_tree_of root tree x) as Hw. rewrite wp_run in Hw. apply Hw.
Qed.

Lemma keeps_ingest_scan root entries : respects keeps_cursors (ingest_scan (M:=M) (X:=X) root entries).
Proof.
  unfold ingest_scan. respects_auto.
  - intros r. unfold ingest. by destruct (ingest_local_scan_with_delete_policy _ _ _) as [[]|].
  - apply keeps_stores, stores_overflow.
  - apply keeps_stores, stores_queue.
Qed.
#[local] Hint Resolve keeps_ingest_scan keeps_walk : respects.

Lemma keeps_scan root : respects keeps_cursors (rt_run_local_scan (M:=M) root).
Proof.
  unfold rt_run_local_scan.
  apply respects_bind; [apply _|apply keeps_prepares, prepares_ensure|intros _].
  apply respects_bind; [apply _|apply keeps_prepares, prepares_drain|intros _]. respects_auto.
  apply keeps_service. intros x. pose proof (apart_tree (root_local_path root) x). by destruct (local_tree _ x).
Qed.

Lemma committed_beyond id b t :
  cursors_le (t_cursors t) (t_cursors (committed id (default 0%N (t_cursors t !! id)) b t)).
Proof.
  unfold committed. case_decide as Hlt; cbn; [|done]. intros id' c Hc. destruct (decide (id' = id)) as [->|Hne].
  - rewrite lookup_insert_eq. rewrite Hc in Hlt. cbn in Hlt. eexists. split; [done|lia].
  - rewrite lookup_insert_ne by done. exists c. split; [done|lia].
Qed.

Lemma poll_beyond m0 root token : respects (maintains (beyond m0)) (rt_poll_remote_diff (M:=M) root token).
Proof.
  intros r Hr. unfold beyond in *. etrans; [exact Hr|]. pose proof (poll_outcomes root token r) as Hq.
  destruct (rt_poll_remote_diff root token r) as [[n|e] r']; cbn [fst snd] in *.
  - destruct Hq as (b & ops & _ & _ & Hrows). injection Hrows as _ _ Hc _ _. rewrite Hc. apply committed_beyond.
  - destruct Hq as [Hrows _]. by injection Hrows as _ _ -> _ _.
Qed.

#[export] Instance beyond_preserved m0 : Preserves (beyond m0).
Proof.
  apply runtime_preserves; intros.
  - apply keeps_beyond, keeps_idles, idles_list.
  - apply poll_beyond.
  - apply keeps_beyond, keeps_scan.
  - apply keeps_beyond, keeps_advance.
  - apply keeps_beyond, keeps_download.
  - apply Forall_true. intros task n. apply keeps_beyond, keeps_upload.
  - apply keeps_beyond, keeps_idles, idles_evict.
  - apply keeps_beyond. unfold rt_emit_cycle_audit. respects_auto. by apply keeps_statement.
Qed.

(** C9: The stored cursors only move forward: over any life of the daemon (any interleaving, any failing
    call or statement, any changes of the list of roots, any crashes and restarts) a cursor that
    was once stored for a root is never lost and never moves back.  That holds when the root is
    removed, too, although the table's documentation says that the row is dropped then: nothing
    calls [DiffStateRepository::delete], and since the number of a removed last root is given to
    the next one, a new root can start from an old cursor. *)
Theorem cursors_never_move_back ts x g :
  cursors_le (t_cursors (tables x)) (t_cursors (tables (daemon_world (daemon_run (M:=M) ts (Down x g))))).
Proof.
  set (m0 := t_cursors (tables x)).
  assert (daemon_all (beyond m0) (λ x _, cursors_le m0 (t_cursors (tables x))) (daemon_run (M:=M) ts (Down x g))) as Hall.
  { apply daemon_run_all; [apply _|done| | | |cbn; unfold m0; reflexivity].
    - intros roots r Hr. unfold beyond. cbn. 
      rewrite (respects_statement same_cursors (write_tables (with_roots roots)) (λ t, eq_refl) (rt_world r)). exact Hr.
    - intros roots y _ Hy. rewrite (respects_statement same_cursors (write_tables (with_roots roots)) (λ t, eq_refl) y). exact Hy.
    - intros token config dir g' y Hy. unfold RealSyncLoopRuntime_new. pose proof (restored_cursors y) as Hc.
      destruct (restored_engine y) as [[e|e] x1]; cbn in Hc; [|by rewrite Hc].
      pose proof (apart_clock x1) as Hclock. destruct (read_instant x1) as [t x2]. cbn in Hclock.
      unfold beyond. cbn. by rewrite Hclock, Hc. }
  by destruct (daemon_run ts _).
Qed.
End Cursors.

(** The root is removed in the second life: its cursor stays. *)
Lemma cursors_never_move_back_witness :
  let before := daemon_world (daemon_run (M:=alist) (test_start :: test_cycle) (Down test_world (mkGhost [] []))) in
  let after := daemon_world (daemon_run (M:=alist) (test_start :: test_cycle ++ TurnRoots [] :: test_cycle) (Down before (mkGhost [] []))) in
  t_cursors (tables before) !! 1%N = Some 1%N /\ t_roots (tables after) = [] /\ t_cursors (tables after) !! 1%N = Some 2%N /\
  cursors_le (t_cursors (tables before)) (t_cursors (tables after)).
Proof.
  split; [vm_compute; reflexivity|]. split; [vm_compute; reflexivity|]. split; [vm_compute; reflexivity|].
  apply cursors_never_move_back.
Defined.

(** * A listing of the roots that fails *)

Section FailedListing.
Context {M X Link Session TE : Type} `{!LinkedHashMap M, !Database X, !RowOrder, !ProtocolTransport X TE}
  `{!TransferServices X Link Session, !LocalDisk X, !Watching X, !WallClock X, !Sha256}.

Abbreviation RT := (RealSyncLoopRuntime M X).

(** What is queued or dispatched and not acknowledged. *)
Definition pending_operations (r : RT) : list PlannedOperation :=
  queued_operations (scheduler (rt_engine r)) ++ dispatched_operations (scheduler (rt_engine r)).

Definition same_scheduler (r r' : RT) : Prop := scheduler (rt_engine r') = scheduler (rt_engine r).

#[export] Instance same_scheduler_preorder : PreOrder same_scheduler.
Proof. split; [by intros r|]. intros r1 r2 r3 E1 E2. unfold same_scheduler in *. congruence. Qed.

Lemma scheduler_on_world {A} (m : ST X string A) : respects same_scheduler (on_world (M:=M) m).
Proof. intros r. unfold on_world, zoom. by destruct (m _). Qed.

Lemma scheduler_remove_watchers ids : respects same_scheduler (remove_watchers (M:=M) (X:=X) ids).
Proof. induction ids as [|id ids IH]; cbn [remove_watchers]; respects_auto. by apply respects_modify. Qed.

Lemma scheduler_after_evict : respects same_scheduler (do! drain_engine_watcher_evictions (M:=M) (X:=X) in persist_scheduler_queue).
Proof.
  unfold drain_engine_watcher_evictions, persist_scheduler_queue, logged. respects_auto; try apply scheduler_on_world.
  - by apply respects_modify.
  - apply scheduler_remove_watchers.
Qed.

Lemma evict_scheduler id (r : RT) : scheduler (rt_engine (evict_removed_root id r)) = evict_sync_id id (scheduler (rt_engine r)).
Proof.
  cbn [evict_removed_root RealSyncLoopRuntime_loop]. unfold rt_evict_removed_root.
  set (r1 := with_engine (evict_sync_root id (rt_engine r)) (remove_watcher id r).2).
  transitivity (scheduler (rt_engine ((do! drain_engine_watcher_evictions in persist_scheduler_queue) r1).2)); [reflexivity|].
  rewrite (scheduler_after_evict r1). unfold r1. cbn. apply evict_sync_root_scheduler.
Qed.

Lemma evictions_scheduler ids : forall (r : RT) op,
  op ∈ pending_operations (foldl (λ r id, evict_removed_root id r) r ids) -> op_sync_id op ∉ ids /\ op ∈ pending_operations r.
Proof.
  induction ids as [|id ids IH]; intros r op; cbn [foldl]; [split; [apply not_elem_of_nil|done]|].
  intros [Hids Hop]%IH. unfold pending_operations in *. rewrite evict_scheduler in Hop.
  pose proof (evict_sync_id_none _ _ _ Hop) as Hne. split; [by apply not_elem_of_cons|].
  cbn in Hop. rewrite !elem_of_app in *. rewrite !list_elem_of_filter in Hop. tauto.
Qed.

(** When the roots cannot be read the loop takes them all for removed: the step before the cycle
    evicts every known root, with all its queued and dispatched work, and stores the queue
    without it. *)
Lemma failed_listing_evicts_every_root config i (th : LoopThread RT) shared e x :
  lt_pc th = PcEvict -> walks_sets i -> load_roots (rt_world (lt_runtime th)) = (Err e, x) ->
  let th' := (loop_step config i th shared).1 in
  lt_prev_root_ids th' = ∅ /\
  forall op, op ∈ pending_operations (lt_runtime th') ->
    op ∈ pending_operations (lt_runtime th) /\ op_sync_id op ∉ lt_prev_root_ids th.
Proof.
  intros Hpc Hwalk Hload. cbv zeta. unfold loop_step. rewrite Hpc. cbn [list_sync_roots RealSyncLoopRuntime_loop].
  unfold rt_list_sync_roots, bind, attempt, on_world, zoom. rewrite Hload. cbn [ok fst lt_prev_root_ids lt_runtime]. split; [done|].
  intros op Hop. apply evictions_scheduler in Hop as [Hids Hop]. split; [done|].
  rewrite (Hwalk _), elem_of_elements in Hids. set_solver.
Qed.
End FailedListing.
